(* ===== verification/_CoqProject ===== *)
-Q . S2P
Prelude.v
Coding.v
Compare.v
DbFormat.v
Logging.v
Logger.v
FileName.v
SkipList.v
Arena.v
MemTable.v
WriteBatch.v
Crc32c.v
Env.v
MemEnv.v
EnvPosix.v
Log.v
Filter.v
Cache.v
CacheOk.v
Iterator.v
IterWrap.v
Block.v
Merger.v
TwoLevel.v
Format.v
TableBuilder.v
Table.v
VersionEdit.v
Version.v
VersionGet.v
TableCache.v
Compaction.v
VersionSet.v
VersionBuild.v
Manifest.v
ApplyEdit.v
VersionRefs.v
MemIter.v
DbIter.v
DbView.v
DbImpl.v
DbWrite.v
DbRead.v
DbReadOk.v
DbScan.v
DbFlush.v
DbFlushOk.v
DbFiles.v
DbCompact.v
DbDrop.v
DbOutputs.v
DbManual.v
DbOpen.v
DbRecover.v
DbDurable.v
DbCreate.v
Repair.v
RepairOk.v
EnvUtil.v
DbAdmin.v
Dump.v
CApi.v
