(* ===== verification/Prelude.v ===== *)
(** * LevelDB with range deletions and full compaction: a verification library

    The program (src/leveldb) is a key-value store: a log-structured merge tree
    with an in-memory table in front of sorted table files, extended by range
    deletions (DeleteRange), Scan and ForceFullCompaction.  This library
    translates its code into Rocq definitions, one per function or handler, and
    proves the theorems that make it correct.

    ** How the program is put together

    A write (db/db_impl.cc) enters a queue; the writer at the front builds a group
    of batches, numbers it, appends it to the log (db/log_writer.cc) and inserts
    it into the memtable (db/memtable.cc, a skip list plus a list of range
    tombstones).  A full memtable becomes immutable and is written to a table file
    (table/table_builder.cc).  The table files of the seven levels are a version
    (db/version_set.cc); versions change by edits that are logged in the manifest
    and shared by reference counts.  A compaction merges files of one level into
    the next and drops what no reader can see.  A lookup asks the memtables and
    then the version, level by level; an iterator merges all of them and hides
    what is too new, overwritten or deleted.

    ** Files

    Bytes and keys.  Coding (util/coding), Compare (slices, comparator interface),
    DbFormat (internal keys, range tombstones, db/dbformat), Logging (numbers,
    status), Logger (util/posix_logger.h), FileName (db/filename).

    Memory.  SkipList (db/skiplist.h, util/random.h), Arena (util/arena), MemTable
    and MemIter (db/memtable.cc), WriteBatch (db/write_batch.cc), Cache with its
    invariant in CacheOk (util/cache.cc).

    Environments.  Env (the file interfaces and the in-memory file), MemEnv (the
    in-memory environment), EnvPosix (util/env_posix.cc over system calls that are a
    parameter), EnvUtil (util/env.cc and SetCurrentFile, with the states the file
    system goes through).

    Files on disk.  Crc32c, Log (writer and reader), Filter (Bloom filter, filter
    blocks), Iterator (the interface and its cursor contract), IterWrap (wrapper,
    cleanups), Block, Merger, TwoLevel, Format, TableBuilder, Table (table/...),
    TableCache (db/table_cache.cc).

    Versions.  VersionEdit, Version (levels, overlap, statistics), VersionGet (what
    a lookup through the levels means), Compaction (picking inputs), VersionSet
    (builder, manifest, reference counts), VersionBuild, Manifest, ApplyEdit and
    VersionRefs (its theorems).

    Database (db/db_impl.cc unless named).  DbIter and DbView (db/db_iter.cc); DbImpl
    and DbWrite (state, write path); DbRead, DbReadOk and DbScan (read path); DbFlush
    and DbFlushOk (BuildTable of db/builder.cc, WriteLevel0Table, CompactMemTable),
    DbFiles (RemoveObsoleteFiles); DbCompact, DbDrop and DbOutputs (DoCompactionWork
    and BackgroundCompaction: the loop, the rule what to drop, the output files);
    DbManual (CompactRange, ForceFullCompaction and the destructor, cut where their
    threads wait); DbOpen, DbRecover, DbDurable and DbCreate (Recover and Open: the
    code, the replay of a log that was cut, the composition with the write path, the
    creation of a database); DbAdmin (DestroyDB, GetProperty, GetApproximateSizes).

    Tools.  Repair and RepairOk (db/repair.cc), Dump (db/dumpfile.cc), CApi
    (db/c.cc).

    ** Conventions

    A w-bit integer is a [Z], wrapped where the code can leave its range.  A byte
    string is a list of bytes.  Objects that are shared by pointer (table metadata,
    versions, skip list nodes, writers, cache handles, file objects) live in a store
    and are named by an index.  What the code calls through an interface (Comparator,
    FilterPolicy, Iterator, the files and the environment, compression, the table
    cache) is a type class of operations with a class of laws; clients are proved
    against the laws and the implementations of the repository are shown to satisfy
    them ([ReliableWritable] by the in-memory and the POSIX file, [FileStore] by a
    file system that keeps what is closed, [FilterPolicyOk] by the Bloom filter,
    [Cursor] by every iterator).  A function that waits for another thread is cut
    where it releases the mutex: the pieces are the steps of a transition relation
    (DbWrite, DbManual, the background thread of EnvPosix).  While a writer has
    released the mutex, its write to the log is one step and the insertion of each
    operation into the memtable is one, so other threads are interleaved between
    two insertions but not inside one.  Code that can crash in between returns the
    states it leaves behind (EnvUtil), or the log file says how much of it is synced
    ([DurableWritable]).  Theorems that need a table opened again ask of the table
    cache only that it opens a file that holds a table that the builder made, asked
    with the size of the file ([opens_tables]; the cache of TableCache.v does, on any
    [FileStore]).  Debug assertions are hypotheses or results of the theorems;
    messages to the info log and statistics are left out.

    ** Bounds and fuel

    Loops that are not structural take a number of steps and return [None] when it
    is used up; the theorems say how many are enough: the number of nodes of the
    skip list, of bytes of a log or block, of entries under an iterator, of files of
    a version, of records and of bytes of a record of a manifest or a log, of bytes
    that are left to write and of interruptions of a system call.  The iteration of
    the sampling loop of DBIter is bounded because two consecutive random draws
    cannot both be zero.  Sizes are below 2^31 or 2^32 where the code stores them in
    that many bits, and sequence numbers at most 2^56 - 1; the theorems state these
    as hypotheses.

    ** What the theorems show

    The memory structures and the files give back what was put into them (memtable
    against a history of operations, batches, log, blocks, tables, edits, manifest,
    caches); iterators are cursors on sorted lists; a lookup through the database and
    a scan answer as the history of all operations prescribes at any snapshot, when
    the recorded bounds of the files enclose their entries and tombstones, which the
    outputs of a compaction of this repository need not (the examples in DbOutputs);
    group commit keeps the order, shows a group only when it is acknowledged and
    makes progress; versions that are in use keep their files, and no file in use is
    removed; a failed edit installs no version; compaction inputs are complete; the
    entries and tombstones that a compaction writes answer as those it read, and a
    flushed table answers as its memtable.  The table cache and the block cache are
    run together, over every state that lookups, iterators, insertions of blocks and
    evictions reach.

    Across components: a new database is in the state where the write path starts
    (DbCreate); whatever threads write, once a group with a synced write is
    acknowledged, all that is in the log is there again after a crash that keeps what
    was synced (DbDurable, from the write path, the log and recovery); a crash at any point of
    SetCurrentFile leaves the old or the new text in CURRENT (EnvUtil); a repaired
    database can be opened with every table that was readable; callers of manual and
    full compactions never leave a dangling request and always wait for work that is
    scheduled.

    ** Not modelled

    The memory ordering of the concurrent skip list readers and of the list of range
    deletions beside it (the code does not synchronise the latter), the eviction of
    removed tables from the table cache, the Windows environment
    and its logger (util/env_windows.cc), the thread and clock calls of the POSIX
    environment, the mutex and condition variable of port/, the members of the C
    bindings that only create, destroy or assign (db/c.cc), the printed reports on
    compactions, the benchmarks with their histogram (util/histogram.cc), the command
    line of db/leveldbutil.cc, third-party code. *)

From Stdlib Require Export ZArith Lia List Bool Sorting.Sorted Sorting.Permutation.
From Stdlib Require Strings.String Strings.Ascii Strings.Byte.
From coqutil Require Export Byte.
From coqutil Require Export Word.LittleEndianList.
From stdpp Require Export base list gmap numbers.
Export Strings.String.StringSyntax.

#[global] Open Scope Z_scope.

(** ** Machine integers

    A [w]-bit unsigned value is a [Z]; every arithmetic operation of the code
    that can leave the range is followed by the wrap of its type. *)

Definition wrap (w x : Z) : Z := x mod 2 ^ w.

Definition u8 (x : Z) : Z := x mod 256.

Definition u32 (x : Z) : Z := x mod 4294967296.

Definition u64 (x : Z) : Z := x mod 18446744073709551616.

(** A value converted to a signed 32-bit [int] or a signed 64-bit [int64_t]. *)

Definition s32 (x : Z) : Z :=
  let y := u32 x in if y <? 2147483648 then y else y - 4294967296.

Definition s64 (x : Z) : Z :=
  let y := u64 x in if y <? 9223372036854775808 then y else y - 18446744073709551616.

Declare Scope ldb_scope.
Delimit Scope ldb_scope with ldb.
Notation "a '.&' b" := (Z.land a b) (at level 40, left associativity) : ldb_scope.
Notation "a '.|' b" := (Z.lor a b) (at level 45, left associativity) : ldb_scope.
Notation "a '.^' b" := (Z.lxor a b) (at level 43, left associativity) : ldb_scope.
Notation "a '<<' n" := (Z.shiftl a n) (at level 30, no associativity) : ldb_scope.
Notation "a '>>' n" := (Z.shiftr a n) (at level 30, no associativity) : ldb_scope.
#[global] Open Scope ldb_scope.

(** ** Bytes and byte strings *)

Abbreviation bytes := (list byte).

Definition b2z (b : byte) : Z := byte.unsigned b.

Definition z2b (z : Z) : byte := byte.of_Z z.

(** The length of a string, a vector or a slice, as the code's [size_t]. *)

Definition sz {A} (l : list A) : Z := Z.of_nat (length l).

(** The bytes of a string literal of the source. *)

Definition str (s : String.string) : bytes :=
  map Ascii.byte_of_ascii (String.list_ascii_of_string s).

Arguments str s%_string_scope.

#[global] Instance byte_eq_dec : EqDecision byte := Byte.byte_eq_dec.

#[global] Instance byte_countable : Countable byte.
Proof.
  refine (inj_countable Byte.to_N Byte.of_N _).
  intros b. apply Byte.of_to_N.
Defined.

(** ** Hint databases and tactics *)

Create HintDb ldb.
Create Rewrite HintDb ldb_rw.

(** Case analysis on every boolean test of the goal that compares integers. *)

Ltac zcases :=
  repeat match goal with
  | |- context [Z.ltb ?a ?b] => destruct (Z.ltb_spec a b)
  | |- context [Z.leb ?a ?b] => destruct (Z.leb_spec a b)
  | |- context [Z.eqb ?a ?b] => destruct (Z.eqb_spec a b)
  end.

(** The same on the hypotheses. *)

Ltac zcases_in H :=
  repeat match type of H with
  | context [Z.ltb ?a ?b] => destruct (Z.ltb_spec a b)
  | context [Z.leb ?a ?b] => destruct (Z.leb_spec a b)
  | context [Z.eqb ?a ?b] => destruct (Z.eqb_spec a b)
  end.

(** Destructs the scrutinee of the outermost match of [H], keeping equations. *)

Ltac case_in H :=
  match type of H with
  | context [match ?x with _ => _ end] => let E := fresh "E" in destruct x eqn:E
  end.

(** ** Lemmas on machine integers *)

Lemma u8_range x : 0 <= u8 x < 256.
Proof. apply Z.mod_pos_bound. lia. Qed.

Lemma u32_range x : 0 <= u32 x < 2 ^ 32.
Proof. apply Z.mod_pos_bound. lia. Qed.

Lemma u64_range x : 0 <= u64 x < 2 ^ 64.
Proof. apply Z.mod_pos_bound. lia. Qed.

Lemma u8_small x : 0 <= x < 256 -> u8 x = x.
Proof. apply Z.mod_small. Qed.

Lemma u32_small x : 0 <= x < 2 ^ 32 -> u32 x = x.
Proof. apply Z.mod_small. Qed.

Lemma u64_small x : 0 <= x < 2 ^ 64 -> u64 x = x.
Proof. apply Z.mod_small. Qed.

Lemma s32_small x : - 2 ^ 31 <= x < 2 ^ 31 -> s32 x = x.
Proof.
  intros H. unfold s32, u32. destruct (Z.ltb_spec x 0).
  - rewrite <- (Z.mod_unique x 4294967296 (-1) (x + 4294967296)) by lia. zcases; lia.
  - rewrite Z.mod_small by lia. zcases; lia.
Qed.

Lemma s32_u32 x : s32 (u32 x) = s32 x.
Proof. unfold s32, u32. rewrite Z.mod_mod by lia. reflexivity. Qed.

Lemma u32_s32 x : u32 (s32 x) = u32 x.
Proof.
  unfold s32. cbv zeta. pose proof (u32_range x). destruct (Z.ltb_spec (u32 x) 2147483648).
  - apply u32_small. lia.
  - unfold u32 at 1. rewrite <- (Z_mod_plus_full _ 1). replace (u32 x - 4294967296 + 1 * 4294967296)
      with (u32 x) by lia. apply u32_small. lia.
Qed.

Lemma b2z_range b : 0 <= b2z b < 256.
Proof. apply byte.unsigned_range. Qed.

Lemma b2z_z2b z : b2z (z2b z) = u8 z.
Proof. apply byte.unsigned_of_Z. Qed.

Lemma z2b_b2z b : z2b (b2z b) = b.
Proof. apply byte.of_Z_unsigned. Qed.

Lemma b2z_inj a b : b2z a = b2z b -> a = b.
Proof. apply byte.unsigned_inj. Qed.

#[export] Hint Rewrite b2z_z2b z2b_b2z : ldb_rw.

(** A disjunction of disjoint bit fields is their sum. *)

Lemma lor_shiftl_add a b n :
  0 <= n -> 0 <= a < 2 ^ n -> a .| (b << n) = a + b * 2 ^ n.
Proof.
  intros Hn Ha. rewrite Z.shiftl_mul_pow2 by lia.
  symmetry. rewrite <- Z.shiftl_mul_pow2 by lia.
  rewrite <- Z.lxor_lor, <- Z.add_nocarry_lxor; [reflexivity | |].
  all: apply Z.bits_inj'; intros i Hi; rewrite Z.land_spec, Z.bits_0.
  all: destruct (Z.ltb_spec i n);
    [ rewrite Z.shiftl_spec_low by lia; apply andb_false_r
    | replace (Z.testbit a i) with false; [reflexivity|] ].
  all: symmetry; rewrite <- (Z.mod_small a (2 ^ n)) by lia;
    apply Z.mod_pow2_bits_high; lia.
Qed.

Lemma land_127 x : x .& 127 = x mod 128.
Proof. change 127 with (Z.ones 7). rewrite Z.land_ones by lia. reflexivity. Qed.

Lemma land_255 x : x .& 255 = x mod 256.
Proof. change 255 with (Z.ones 8). rewrite Z.land_ones by lia. reflexivity. Qed.

Lemma shiftr_div x n : 0 <= n -> x >> n = x / 2 ^ n.
Proof. intros. apply Z.shiftr_div_pow2. lia. Qed.

(** [x | 128] truncated to a byte is the low seven bits with the top bit set. *)

Lemma u8_lor_128 x : u8 (x .| 128) = x mod 128 + 128.
Proof.
  unfold u8. rewrite <- land_255, Z.land_lor_distr_l.
  change (128 .& 255) with 128. rewrite land_255.
  replace (x mod 256) with (x mod 128 + ((x / 128) mod 2) * 128)
    by (pose proof (Z.rem_mul_r x 128 2 ltac:(lia) ltac:(lia));
        change (128 * 2) with 256 in *; lia).
  assert (Hr : 0 <= x mod 128 < 128) by (apply Z.mod_pos_bound; lia).
  pose proof (lor_shiftl_add (x mod 128) 1 7) as H1.
  pose proof (lor_shiftl_add (x mod 128) ((x / 128) mod 2) 7) as H2.
  change (2 ^ 7) with 128 in *. change (1 << 7) with 128 in H1.
  rewrite <- H2, <- Z.lor_assoc by lia.
  assert (Hb : (x / 128) mod 2 = 0 \/ (x / 128) mod 2 = 1)
    by (pose proof (Z.mod_pos_bound (x / 128) 2); lia).
  destruct Hb as [-> | ->]; [change (0 << 7) with 0 | change (1 << 7) with 128];
    rewrite ?Z.lor_0_l, ?Z.lor_diag, H1 by lia; lia.
Qed.

(** The continuation bit of a varint byte. *)

Lemma land_128_small x : 0 <= x < 128 -> x .& 128 = 0.
Proof.
  intros H. change 128 with (1 << 7). apply Z.bits_inj'; intros i Hi.
  rewrite Z.land_spec, Z.bits_0.
  destruct (Z.ltb_spec i 7);
    [rewrite Z.shiftl_spec_low by lia; apply andb_false_r|].
  rewrite <- (Z.mod_small x (2 ^ 7)) by lia.
  rewrite Z.mod_pow2_bits_high by lia. reflexivity.
Qed.

Lemma land_128_big x : 0 <= x < 128 -> (x + 128) .& 128 = 128.
Proof.
  intros H. pose proof (lor_shiftl_add x 1 7) as H1.
  change (2 ^ 7) with 128 in H1. change (1 << 7) with 128 in H1.
  replace (x + 128) with (x .| 128) by (rewrite H1; lia).
  rewrite Z.land_lor_distr_l, land_128_small, Z.lor_0_l by lia. reflexivity.
Qed.

(** ** Lemmas on lists *)

Lemma sz_app {A} (l1 l2 : list A) : sz (l1 ++ l2) = sz l1 + sz l2.
Proof. unfold sz. rewrite length_app. lia. Qed.

Lemma sz_nonneg {A} (l : list A) : 0 <= sz l.
Proof. unfold sz. lia. Qed.

Lemma sz_cons {A} (x : A) l : sz (x :: l) = 1 + sz l.
Proof. unfold sz. simpl. lia. Qed.

Lemma sz_nil {A} : sz (@nil A) = 0.
Proof. reflexivity. Qed.

Lemma sz_to_nat {A} (l : list A) : Z.to_nat (sz l) = length l.
Proof. unfold sz. lia. Qed.

#[export] Hint Rewrite @sz_app @sz_cons @sz_nil @sz_to_nat : ldb_rw.

Lemma take_sz_app {A} (l1 l2 : list A) : take (Z.to_nat (sz l1)) (l1 ++ l2) = l1.
Proof. rewrite sz_to_nat. apply take_app_length. Qed.

Lemma drop_sz_app {A} (l1 l2 : list A) : drop (Z.to_nat (sz l1)) (l1 ++ l2) = l2.
Proof. rewrite sz_to_nat. apply drop_app_length. Qed.

#[export] Hint Rewrite @take_sz_app @drop_sz_app : ldb_rw.

(** ** Sorted lists *)

Lemma StronglySorted_filter {A} (R : A -> A -> Prop) (f : A -> bool) l :
  StronglySorted R l -> StronglySorted R (List.filter f l).
Proof.
  induction 1 as [|x l H IH HF]; simpl; [constructor|].
  destruct (f x); [|exact IH]. constructor; [exact IH|].
  apply List.Forall_forall. intros y Hy. apply filter_In in Hy as [Hy _].
  eapply List.Forall_forall in HF; eauto.
Qed.

Lemma StronglySorted_sublist {A} (R : A -> A -> Prop) l1 l2 :
  sublist l1 l2 -> StronglySorted R l2 -> StronglySorted R l1.
Proof.
  induction 1 as [|x l1 l2 H IH|x l1 l2 H IH]; intros S; inv S;
    [constructor| |auto].
  constructor; [auto|]. apply List.Forall_forall. intros y Hy.
  apply (proj1 (List.Forall_forall _ _) H3), list_elem_of_In.
  eapply elem_of_sublist; [|exact H]. apply list_elem_of_In, Hy.
Qed.

(** In a sorted list, an element above [x] comes after it. *)

Lemma sorted_after {A} (R : A -> A -> Prop) (pre : list A) x q y :
  (forall a b, R a b -> R b a -> False) ->
  StronglySorted R (pre ++ x :: q) -> In y (pre ++ x :: q) -> R x y ->
  exists q1 q2, q = q1 ++ y :: q2.
Proof.
  intros Asym S Hy HR. apply in_app_iff in Hy as [Hy|[->|Hy]].
  - exfalso. induction pre as [|z pre IH]; [inversion Hy|]. simpl in S. inv S.
    destruct Hy as [->|Hy]; [|auto]. eapply Asym; [exact HR|].
    eapply (proj1 (List.Forall_forall _ _) H2). apply in_app_iff. right. left. reflexivity.
  - exfalso. eapply Asym; exact HR.
  - apply in_split in Hy as (q1 & q2 & ->). eauto.
Qed.

(** A strictly sorted list splits at any threshold that is closed downwards. *)

Lemma sorted_split {A} (R : A -> A -> Prop) (f : A -> bool) l :
  (forall x y, R x y -> f y = true -> f x = true) ->
  StronglySorted R l ->
  l = List.filter f l ++ List.filter (fun x => negb (f x)) l.
Proof.
  intros Hf. induction 1 as [|x l H IH HF]; [reflexivity|]. simpl.
  destruct (f x) eqn:E; simpl; [congruence|].
  assert (L : List.filter f l = []).
  { clear IH H. induction HF as [|y l Hy HF IH]; [reflexivity|]. simpl.
    destruct (f y) eqn:Ey; [|exact IH]. rewrite (Hf _ _ Hy Ey) in E. discriminate. }
  rewrite L in IH |- *. simpl in *. congruence.
Qed.

Lemma StronglySorted_insert {A} (R : A -> A -> Prop) (l1 l2 : list A) x :
  StronglySorted R (l1 ++ l2) -> Forall (fun y => R y x) l1 -> Forall (R x) l2 ->
  StronglySorted R (l1 ++ x :: l2).
Proof.
  induction l1 as [|y l1 IH]; simpl; intros S F1 F2; [constructor; assumption|].
  inv S. inv F1. constructor; [auto|].
  rewrite List.Forall_forall in *. intros z Hz.
  apply in_app_iff in Hz as [Hz|[<-|Hz]]; auto using in_or_app.
Qed.

Lemma StronglySorted_impl_in {A} (R R' : A -> A -> Prop) l :
  (forall x y, In x l -> In y l -> R x y -> R' x y) ->
  StronglySorted R l -> StronglySorted R' l.
Proof.
  intros H S. induction S as [|x l S IH HF]; constructor.
  - apply IH. intros a b Ha Hb. apply H; right; assumption.
  - rewrite List.Forall_forall in *. intros y Hy. apply H; [left; reflexivity|right; exact Hy|].
    auto.
Qed.

Lemma StronglySorted_of_lookup {A} (R : A -> A -> Prop) l :
  (forall i j x y, (i < j)%nat -> l !! i = Some x -> l !! j = Some y -> R x y) -> StronglySorted R l.
Proof.
  induction l as [|x l IH]; intros H; constructor.
  - apply IH. intros i j y z Hij Hy Hz. apply (H (S i) (S j)); [lia|exact Hy|exact Hz].
  - apply List.Forall_forall. intros y Hy. apply list_elem_of_In, list_elem_of_lookup in Hy as [j Hj].
    apply (H O (S j)); [lia|reflexivity|exact Hj].
Qed.

(** ** Membership by index *)

Lemma In_lookup {A} (x : A) l : In x l <-> exists i, l !! i = Some x.
Proof. rewrite <- list_elem_of_In. apply list_elem_of_lookup. Qed.

(** A weaker test that misses an element keeps fewer of them. *)

Lemma filter_length_lt {A} (p q : A -> bool) l x : (forall y, In y l -> q y = true -> p y = true) ->
  In x l -> p x = true -> q x = false -> (length (List.filter q l) < length (List.filter p l))%nat.
Proof.
  intros Hqp Hx Hp Hq.
  assert (Hle : forall l', (forall y, In y l' -> q y = true -> p y = true) ->
    (length (List.filter q l') <= length (List.filter p l'))%nat).
  { induction l' as [|y l' IH]; intros H; [reflexivity|]. cbn. pose proof (H y (or_introl eq_refl)) as Hy.
    specialize (IH (fun z Hz => H z (or_intror Hz))).
    destruct (q y); [rewrite (Hy eq_refl)|destruct (p y)]; cbn; lia. }
  apply in_split in Hx as (l1 & l2 & ->). rewrite !filter_app, !length_app. cbn [List.filter]. rewrite Hp, Hq. cbn [length].
  specialize (Hle l1 (fun y Hy => Hqp y (in_or_app _ _ _ (or_introl Hy)))) as H1.
  specialize (Hle l2 (fun y Hy => Hqp y (in_or_app _ _ _ (or_intror (in_cons _ _ _ Hy))))) as H2. lia.
Qed.

Lemma StronglySorted_app_iff {A} (R : A -> A -> Prop) l1 l2 :
  StronglySorted R (l1 ++ l2) <->
  StronglySorted R l1 /\ StronglySorted R l2 /\ (forall x y, In x l1 -> In y l2 -> R x y).
Proof.
  induction l1 as [|z l1 IH]; cbn [app].
  - split; [intros H; repeat split; [constructor|exact H|contradiction]|intros (_ & H & _); exact H].
  - split.
    + intros H. apply StronglySorted_inv in H as [H HF]. apply IH in H as (H1 & H2 & H3).
      apply Forall_app in HF as [F1 F2]. rewrite List.Forall_forall in F2.
      split; [constructor; assumption|]. split; [exact H2|]. intros x y [<-|Hx] Hy; auto.
    + intros (H1 & H2 & H3). apply StronglySorted_inv in H1 as [H1 HF]. constructor.
      * apply IH. split; [exact H1|]. split; [exact H2|]. intros x y Hx Hy. apply H3; [right; exact Hx|exact Hy].
      * apply Forall_app. split; [exact HF|]. apply List.Forall_forall. intros y Hy.
        apply H3; [left; reflexivity|exact Hy].
Qed.

Lemma StronglySorted_map {A B} (f : A -> B) (R : B -> B -> Prop) l :
  StronglySorted R (map f l) <-> StronglySorted (fun x y => R (f x) (f y)) l.
Proof.
  induction l as [|x l IH]; cbn; [split; constructor|]. split; intros H; apply StronglySorted_inv in H as [H HF].
  - constructor; [apply IH, H|]. rewrite List.Forall_forall in *. intros y Hy. apply HF, in_map, Hy.
  - constructor; [apply IH, H|]. rewrite List.Forall_forall in *. intros y Hy.
    apply in_map_iff in Hy as (z & <- & Hz). auto.
Qed.

Lemma StronglySorted_lookup {A} (R : A -> A -> Prop) l i j x y :
  StronglySorted R l -> (i < j)%nat -> l !! i = Some x -> l !! j = Some y -> R x y.
Proof.
  intros HS. revert i j. induction HS as [|z l HS IH HF]; intros i j Hij Hx Hy; [discriminate|].
  destruct j as [|j]; [lia|]. destruct i as [|i].
  - injection Hx as <-. exact (proj1 (list.Forall_lookup _ _) HF j y Hy).
  - apply (IH i j); [lia|exact Hx|exact Hy].
Qed.

(** Two strictly sorted lists with the same elements are equal. *)

Lemma StronglySorted_unique {A} (R : A -> A -> Prop) (l1 : list A) : forall l2,
  (forall x y, In x l1 -> In y l1 -> R x y -> R y x -> False) ->
  StronglySorted R l1 -> StronglySorted R l2 -> (forall x, In x l1 <-> In x l2) -> l1 = l2.
Proof.
  induction l1 as [|x l1 IH]; intros l2 Hasym S1 S2 Hin.
  - destruct l2 as [|y l2]; [reflexivity|]. destruct (proj2 (Hin y) (or_introl eq_refl)).
  - destruct l2 as [|y l2]; [destruct (proj1 (Hin x) (or_introl eq_refl))|].
    apply StronglySorted_inv in S1 as [S1 F1], S2 as [S2 F2]. rewrite List.Forall_forall in F1, F2.
    assert (Hirr : forall z, In z (x :: l1) -> R z z -> False) by (intros z Hz H; exact (Hasym z z Hz Hz H H)).
    assert (Exy : x = y).
    { destruct (proj1 (Hin x) (or_introl eq_refl)) as [E|Hx]; [congruence|].
      destruct (proj2 (Hin y) (or_introl eq_refl)) as [E|Hy]; [exact E|].
      destruct (Hasym x y (or_introl eq_refl) (or_intror Hy) (F1 y Hy) (F2 x Hx)). }
    subst y. f_equal. apply IH; [intros a b Ha Hb; apply Hasym; right; assumption|exact S1|exact S2|].
    intros z. split; intros Hz.
    + destruct (proj1 (Hin z) (or_intror Hz)) as [E|H]; [|exact H]. subst z.
      destruct (Hirr x (or_introl eq_refl) (F1 x Hz)).
    + destruct (proj2 (Hin z) (or_intror Hz)) as [E|H]; [|exact H]. subst z.
      destruct (Hirr x (or_introl eq_refl) (F2 x Hz)).
Qed.

(** ** How often a number occurs in a list *)

Definition occurs (l : list nat) (a : nat) : nat := length (List.filter (Nat.eqb a) l).

Lemma occurs_cons a b hs : occurs (a :: hs) b = (occurs hs b + if decide (a = b) then 1 else 0)%nat.
Proof.
  unfold occurs. cbn [List.filter]. destruct (decide (a = b)) as [->|Hne]; [rewrite Nat.eqb_refl; cbn; lia|].
  rewrite (proj2 (Nat.eqb_neq b a)) by congruence. lia.
Qed.

Lemma occurs_middle l1 a l2 b : occurs (l1 ++ a :: l2) b = (occurs (l1 ++ l2) b + if decide (a = b) then 1 else 0)%nat.
Proof.
  unfold occurs. rewrite !filter_app, !length_app. fold (occurs (a :: l2) b). rewrite occurs_cons. unfold occurs. lia.
Qed.

Lemma occurs_in hs a : In a hs -> (0 < occurs hs a)%nat.
Proof. intros H. apply in_split in H as (l1 & l2 & ->). rewrite occurs_middle, decide_True by reflexivity. lia. Qed.

Lemma occurs_le l a : (occurs l a <= length l)%nat.
Proof. apply filter_length_le. Qed.

Lemma occurs_not_in l a : ~ In a l -> occurs l a = O.
Proof.
  intros H. unfold occurs. destruct (List.filter (Nat.eqb a) l) as [|x r] eqn:E; [reflexivity|]. exfalso.
  assert (Hx : In x (List.filter (Nat.eqb a) l)) by (rewrite E; left; reflexivity). apply filter_In in Hx as [Hx Hy]. apply Nat.eqb_eq in Hy as <-. contradiction.
Qed.
