(* ===== verification/Coding.v ===== *)
(** * Endian-neutral integer and string coding (util/coding.h, util/coding.cc)

    A [std::string* dst] that a routine appends to is returned extended; a
    buffer a routine writes into is the list of bytes written; a pair of
    pointers [p, limit) is the list of the bytes between them, and a returned
    pointer is the list that starts there ([None] for [nullptr]).  Reads
    without bounds checks take the bytes at the pointer; a byte past the end of
    the list reads as zero, and the theorems that use such a read give enough
    bytes. *)

From S2P Require Import Prelude.
#[local] Open Scope Z_scope.
#[local] Open Scope ldb_scope.

(** ** Fixed-width integers *)

Definition EncodeFixed32 (value : Z) : bytes :=
  [z2b value; z2b (value >> 8); z2b (value >> 16); z2b (value >> 24)].

Definition EncodeFixed64 (value : Z) : bytes :=
  [z2b value; z2b (value >> 8); z2b (value >> 16); z2b (value >> 24);
   z2b (value >> 32); z2b (value >> 40); z2b (value >> 48); z2b (value >> 56)].

Definition buf_at (buffer : bytes) (i : nat) : Z := b2z (nth i buffer Byte.x00).

Definition DecodeFixed32 (buffer : bytes) : Z :=
  buf_at buffer 0 .| (buf_at buffer 1 << 8) .| (buf_at buffer 2 << 16)
  .| (buf_at buffer 3 << 24).

Definition DecodeFixed64 (buffer : bytes) : Z :=
  buf_at buffer 0 .| (buf_at buffer 1 << 8) .| (buf_at buffer 2 << 16)
  .| (buf_at buffer 3 << 24) .| (buf_at buffer 4 << 32) .| (buf_at buffer 5 << 40)
  .| (buf_at buffer 6 << 48) .| (buf_at buffer 7 << 56).

Definition PutFixed32 (dst : bytes) (value : Z) : bytes := dst ++ EncodeFixed32 value.

Definition PutFixed64 (dst : bytes) (value : Z) : bytes := dst ++ EncodeFixed64 value.

(** ** Variable-length integers *)

Definition EncodeVarint32 (v : Z) : bytes :=
  if v <? 1 << 7 then [z2b v]
  else if v <? 1 << 14 then [z2b (v .| 128); z2b (v >> 7)]
  else if v <? 1 << 21 then
    [z2b (v .| 128); z2b ((v >> 7) .| 128); z2b (v >> 14)]
  else if v <? 1 << 28 then
    [z2b (v .| 128); z2b ((v >> 7) .| 128); z2b ((v >> 14) .| 128); z2b (v >> 21)]
  else
    [z2b (v .| 128); z2b ((v >> 7) .| 128); z2b ((v >> 14) .| 128);
     z2b ((v >> 21) .| 128); z2b (v >> 28)].

Definition PutVarint32 (dst : bytes) (v : Z) : bytes := dst ++ EncodeVarint32 v.

(** The [while] loop of EncodeVarint64; a 64-bit value takes at most nine turns
    before the byte after the loop. *)

Fixpoint EncodeVarint64_loop (fuel : nat) (v : Z) : bytes :=
  match fuel with
  | O => []
  | S fuel => if 128 <=? v then z2b (v .| 128) :: EncodeVarint64_loop fuel (v >> 7)
              else [z2b v]
  end.

Definition EncodeVarint64 (v : Z) : bytes := EncodeVarint64_loop 10 v.

Definition PutVarint64 (dst : bytes) (v : Z) : bytes := dst ++ EncodeVarint64 v.

Definition PutLengthPrefixedSlice (dst value : bytes) : bytes :=
  PutVarint32 dst (u32 (sz value)) ++ value.

Fixpoint VarintLength_loop (fuel : nat) (v len : Z) : Z :=
  match fuel with
  | O => len
  | S fuel => if 128 <=? v then VarintLength_loop fuel (v >> 7) (len + 1) else len
  end.

Definition VarintLength (v : Z) : Z := VarintLength_loop 10 v 1.

Fixpoint GetVarint32PtrFallback_loop (shift result : Z) (p : bytes)
  : option (Z * bytes) :=
  match p with
  | [] => None
  | b :: p =>
      if shift <=? 28 then
        let byte := b2z b in
        if negb (byte .& 128 =? 0) then
          GetVarint32PtrFallback_loop (shift + 7)
            (result .| u32 ((byte .& 127) << shift)) p
        else Some (result .| u32 (byte << shift), p)
      else None
  end.

Definition GetVarint32PtrFallback (p : bytes) : option (Z * bytes) :=
  GetVarint32PtrFallback_loop 0 0 p.

Definition GetVarint32Ptr (p : bytes) : option (Z * bytes) :=
  match p with
  | b :: q => let result := b2z b in
              if result .& 128 =? 0 then Some (result, q)
              else GetVarint32PtrFallback p
  | [] => GetVarint32PtrFallback p
  end.

Definition GetVarint32 (input : bytes) : option (Z * bytes) := GetVarint32Ptr input.

Fixpoint GetVarint64Ptr_loop (shift result : Z) (p : bytes) : option (Z * bytes) :=
  match p with
  | [] => None
  | b :: p =>
      if shift <=? 63 then
        let byte := b2z b in
        if negb (byte .& 128 =? 0) then
          GetVarint64Ptr_loop (shift + 7) (result .| u64 ((byte .& 127) << shift)) p
        else Some (result .| u64 (byte << shift), p)
      else None
  end.

Definition GetVarint64Ptr (p : bytes) : option (Z * bytes) := GetVarint64Ptr_loop 0 0 p.

Definition GetVarint64 (input : bytes) : option (Z * bytes) := GetVarint64Ptr input.

(** [(result, rest of input)].  On failure the code may have advanced [input]
    past the length; every caller gives up the parse then. *)

Definition GetLengthPrefixedSlice (input : bytes) : option (bytes * bytes) :=
  match GetVarint32 input with
  | Some (len, input) =>
      if len <=? sz input
      then Some (take (Z.to_nat len) input, drop (Z.to_nat len) input)
      else None
  | None => None
  end.

(** ** Fixed-width lemmas *)

Lemma EncodeFixed32_le v : EncodeFixed32 v = le_split 4 v.
Proof.
  unfold EncodeFixed32. cbv [le_split]. rewrite !Z.shiftr_shiftr by lia. reflexivity.
Qed.

Lemma EncodeFixed64_le v : EncodeFixed64 v = le_split 8 v.
Proof.
  unfold EncodeFixed64. cbv [le_split]. rewrite !Z.shiftr_shiftr by lia. reflexivity.
Qed.

Lemma EncodeFixed32_u32 c : EncodeFixed32 (u32 c) = EncodeFixed32 c.
Proof.
  rewrite (EncodeFixed32_le c), (EncodeFixed32_le (u32 c)), (le_split_mod c 4). reflexivity.
Qed.

Lemma length_EncodeFixed32 v : length (EncodeFixed32 v) = 4%nat.
Proof. reflexivity. Qed.

Lemma length_EncodeFixed64 v : length (EncodeFixed64 v) = 8%nat.
Proof. reflexivity. Qed.

Lemma DecodeFixed32_le b0 b1 b2 b3 rest :
  DecodeFixed32 (b0 :: b1 :: b2 :: b3 :: rest) = le_combine [b0; b1; b2; b3].
Proof.
  unfold DecodeFixed32, buf_at. cbv [le_combine nth b2z].
  rewrite !Z.shiftl_lor, !Z.shiftl_shiftl, Z.shiftl_0_l, Z.lor_0_r by lia.
  rewrite !Z.lor_assoc. reflexivity.
Qed.

Lemma DecodeFixed64_le b0 b1 b2 b3 b4 b5 b6 b7 rest :
  DecodeFixed64 (b0 :: b1 :: b2 :: b3 :: b4 :: b5 :: b6 :: b7 :: rest) =
  le_combine [b0; b1; b2; b3; b4; b5; b6; b7].
Proof.
  unfold DecodeFixed64, buf_at. cbv [le_combine nth b2z].
  rewrite !Z.shiftl_lor, !Z.shiftl_shiftl, Z.shiftl_0_l, Z.lor_0_r by lia.
  rewrite !Z.lor_assoc. reflexivity.
Qed.

Lemma DecodeFixed32_app l rest :
  length l = 4%nat -> DecodeFixed32 (l ++ rest) = le_combine l.
Proof. do 4 (destruct l as [|? l]; [discriminate|]). destruct l; [|discriminate].
  intros _. apply DecodeFixed32_le. Qed.

Lemma DecodeFixed64_app l rest :
  length l = 8%nat -> DecodeFixed64 (l ++ rest) = le_combine l.
Proof. do 8 (destruct l as [|? l]; [discriminate|]). destruct l; [|discriminate].
  intros _. apply DecodeFixed64_le. Qed.

Lemma fixed32_decode v rest : DecodeFixed32 (EncodeFixed32 v ++ rest) = u32 v.
Proof.
  rewrite DecodeFixed32_app, EncodeFixed32_le, le_combine_split by reflexivity.
  reflexivity.
Qed.

Lemma fixed64_decode v rest : DecodeFixed64 (EncodeFixed64 v ++ rest) = u64 v.
Proof.
  rewrite DecodeFixed64_app, EncodeFixed64_le, le_combine_split by reflexivity.
  reflexivity.
Qed.

#[export] Hint Rewrite fixed32_decode fixed64_decode length_EncodeFixed32
  length_EncodeFixed64 : ldb_rw.

(** Arrays of fixed-width integers. *)

Lemma length_fixed32s l : length (concat (map EncodeFixed32 l)) = (4 * length l)%nat.
Proof.
  induction l as [|x l IH]; [reflexivity|]. cbn [map concat length].
  rewrite length_app, length_EncodeFixed32. lia.
Qed.

Lemma drop_fixed32 l : forall i x rest, l !! i = Some x ->
  DecodeFixed32 (drop (4 * i) (concat (map EncodeFixed32 l) ++ rest)) = u32 x.
Proof.
  induction l as [|y l IH]; intros i x rest Hi; [discriminate|]. cbn [map concat].
  rewrite <- app_assoc. destruct i as [|i].
  - injection Hi as ->. rewrite drop_0. apply fixed32_decode.
  - replace (4 * S i)%nat with (length (EncodeFixed32 y) + 4 * i)%nat
      by (rewrite length_EncodeFixed32; lia).
    rewrite <- drop_drop, drop_app_length. apply IH. exact Hi.
Qed.

Lemma fold_PutFixed32 l : forall dst,
  fold_left PutFixed32 l dst = dst ++ concat (map EncodeFixed32 l).
Proof.
  induction l as [|x l IH]; intros dst; [symmetry; apply app_nil_r|]. cbn [fold_left]. rewrite IH.
  unfold PutFixed32. rewrite <- app_assoc. reflexivity.
Qed.

Lemma DecodeFixed64_inj l1 l2 :
  length l1 = 8%nat -> length l2 = 8%nat -> DecodeFixed64 l1 = DecodeFixed64 l2 ->
  l1 = l2.
Proof.
  intros H1 H2 E. apply le_combine_inj; [congruence|].
  rewrite <- (app_nil_r l1), <- (app_nil_r l2), !DecodeFixed64_app in E by assumption.
  exact E.
Qed.

Lemma DecodeFixed64_range l : length l = 8%nat -> 0 <= DecodeFixed64 l < 2 ^ 64.
Proof.
  intros H. rewrite <- (app_nil_r l), DecodeFixed64_app by assumption.
  pose proof (le_combine_bound l) as B. rewrite H in B. exact B.
Qed.

Lemma DecodeFixed32_range l : length l = 4%nat -> 0 <= DecodeFixed32 l < 2 ^ 32.
Proof.
  intros H. rewrite <- (app_nil_r l), DecodeFixed32_app by assumption.
  pose proof (le_combine_bound l) as B. rewrite H in B. exact B.
Qed.

(** ** Varint lemmas

    Both decoders are instances of one loop, with the width of the result and
    the last shift as parameters; the lemmas are proved once for it. *)

Section VarintLoop.
Context (width max_shift : Z).
Hypothesis Hwidth : 0 < width.
Hypothesis Hmax : forall k, 0 <= k -> 7 * k < width -> 7 * k <= max_shift.

Fixpoint varint_loop (shift result : Z) (p : bytes) : option (Z * bytes) :=
  match p with
  | [] => None
  | b :: p =>
      if shift <=? max_shift then
        let byte := b2z b in
        if negb (byte .& 128 =? 0) then
          varint_loop (shift + 7) (result .| wrap width ((byte .& 127) << shift)) p
        else Some (result .| wrap width (byte << shift), p)
      else None
  end.

Lemma varint_loop_cons shift result b p :
  varint_loop shift result (b :: p) =
  if shift <=? max_shift then
    if negb (b2z b .& 128 =? 0) then
      varint_loop (shift + 7) (result .| wrap width ((b2z b .& 127) << shift)) p
    else Some (result .| wrap width (b2z b << shift), p)
  else None.
Proof. reflexivity. Qed.

(** One turn: the field a byte contributes is added to the accumulated bits. *)

Lemma varint_field shift result x :
  0 <= shift -> 0 <= result < 2 ^ shift -> 0 <= x -> x * 2 ^ shift < 2 ^ width ->
  result .| wrap width (x << shift) = result + x * 2 ^ shift.
Proof.
  intros. unfold wrap. rewrite Z.mod_small.
  - apply lor_shiftl_add; lia.
  - rewrite Z.shiftl_mul_pow2 by lia. nia.
Qed.

Lemma varint_loop_encode fuel : forall v k result rest,
  fuel <> O -> 0 <= v < 2 ^ (7 * Z.of_nat fuel) -> 0 <= k -> 7 * k <= max_shift ->
  v * 2 ^ (7 * k) < 2 ^ width -> 0 <= result < 2 ^ (7 * k) ->
  varint_loop (7 * k) result (EncodeVarint64_loop fuel v ++ rest) =
  Some (result + v * 2 ^ (7 * k), rest).
Proof.
  induction fuel as [|fuel IH]; intros v k result rest Hf Hv Hk Hs Hfit Hr;
    [congruence|].
  assert (Hpos : 0 < 2 ^ (7 * k)) by (apply Z.pow_pos_nonneg; lia).
  cbn [EncodeVarint64_loop].
  destruct (Z.leb_spec 128 v) as [Hbig|Hsmall]; cbn [app]; rewrite varint_loop_cons.
  all: rewrite b2z_z2b, (proj2 (Z.leb_le _ _)) by lia.
  - rewrite u8_lor_128. assert (Hm := Z.mod_pos_bound v 128 ltac:(lia)).
    rewrite land_128_big by lia. cbn [negb Z.eqb].
    rewrite land_127, <- Z.add_mod_idemp_r, Z.mod_same, Z.add_0_r, Z.mod_mod by lia.
    rewrite shiftr_div by lia. change (2 ^ 7) with 128.
    assert (Hdm := Z.div_mod v 128 ltac:(lia)).
    assert (Hq : 1 <= v / 128) by (apply Z.div_le_lower_bound; lia).
    assert (Hpow : 2 ^ (7 * (k + 1)) = 128 * 2 ^ (7 * k))
      by (replace (7 * (k + 1)) with (7 + 7 * k) by lia; rewrite Z.pow_add_r by lia; lia).
    assert (Hlow : v mod 128 * 2 ^ (7 * k) <= v * 2 ^ (7 * k))
      by (apply Z.mul_le_mono_nonneg_r; lia).
    rewrite varint_field by lia.
    replace (7 * k + 7) with (7 * (k + 1)) by lia.
    assert (Hw : 2 ^ (7 * (k + 1)) < 2 ^ width) by nia.
    apply Z.pow_lt_mono_r_iff in Hw; [|lia|lia].
    assert (fuel <> O) by (intros ->; change (2 ^ (7 * Z.of_nat 1)) with 128 in Hv; lia).
    rewrite IH; rewrite ?Hpow.
    + do 2 f_equal. nia.
    + assumption.
    + rewrite Nat2Z.inj_succ in Hv. split; [lia|].
      apply Z.div_lt_upper_bound; [lia|].
      replace (7 * Z.succ (Z.of_nat fuel)) with (7 + 7 * Z.of_nat fuel) in Hv by lia.
      rewrite Z.pow_add_r in Hv by lia. lia.
    + lia.
    + apply Hmax; lia.
    + nia.
    + nia.
  - rewrite u8_small, land_128_small by lia. cbn [negb Z.eqb].
    rewrite varint_field by lia. reflexivity.
Qed.

(** A decoder never yields more than the value's width. *)

Lemma wrap_range x : 0 <= wrap width x < 2 ^ width.
Proof. apply Z.mod_pos_bound, Z.pow_pos_nonneg; lia. Qed.

Lemma lor_range a b : 0 <= a < 2 ^ width -> 0 <= b < 2 ^ width -> 0 <= a .| b < 2 ^ width.
Proof.
  intros Ha Hb. split; [apply Z.lor_nonneg; lia|].
  destruct (Z.eq_dec (a .| b) 0) as [->|Hne]; [lia|].
  apply Z.log2_lt_pow2; [assert (0 <= a .| b) by (apply Z.lor_nonneg; lia); lia|].
  rewrite Z.log2_lor by lia.
  assert (L : forall x, 0 <= x < 2 ^ width -> Z.log2 x < width).
  { intros x Hx. destruct (Z.eq_dec x 0) as [->|]; [simpl; lia|].
    apply Z.log2_lt_pow2; lia. }
  apply Z.max_lub_lt; apply L; assumption.
Qed.

Lemma varint_loop_range p : forall shift result v rest,
  0 <= result < 2 ^ width -> varint_loop shift result p = Some (v, rest) ->
  0 <= v < 2 ^ width /\ (exists used, p = used ++ rest /\ used <> []).
Proof.
  induction p as [|b p IH]; intros shift result v rest Hr H; [discriminate|].
  rewrite varint_loop_cons in H.
  destruct (shift <=? max_shift); [|discriminate].
  destruct (negb _).
  - apply IH in H as (Hv & used & -> & _); [|apply lor_range; auto using wrap_range].
    split; [exact Hv|]. exists (b :: used). split; [reflexivity|discriminate].
  - injection H as <- <-. split; [apply lor_range; auto using wrap_range|].
    exists [b]. split; [reflexivity|discriminate].
Qed.

End VarintLoop.

Lemma GetVarint32PtrFallback_loop_eq p : forall shift result,
  GetVarint32PtrFallback_loop shift result p = varint_loop 32 28 shift result p.
Proof. induction p as [|b p IH]; intros; [reflexivity|]. simpl. rewrite IH. reflexivity. Qed.

Lemma GetVarint64Ptr_loop_eq p : forall shift result,
  GetVarint64Ptr_loop shift result p = varint_loop 64 63 shift result p.
Proof. induction p as [|b p IH]; intros; [reflexivity|]. simpl. rewrite IH. reflexivity. Qed.

(** The one-byte fast path agrees with the loop. *)

Lemma GetVarint32Ptr_eq p : GetVarint32Ptr p = varint_loop 32 28 0 0 p.
Proof.
  unfold GetVarint32Ptr, GetVarint32PtrFallback.
  destruct p as [|b p]; rewrite GetVarint32PtrFallback_loop_eq; [reflexivity|].
  destruct (b2z b .& 128 =? 0) eqn:E; [|reflexivity].
  rewrite varint_loop_cons, E. cbn [negb Z.leb Z.compare].
  rewrite Z.shiftl_0_r, Z.lor_0_l. unfold wrap.
  rewrite Z.mod_small; [reflexivity|]. pose proof (b2z_range b). lia.
Qed.

Lemma GetVarint64Ptr_eq p : GetVarint64Ptr p = varint_loop 64 63 0 0 p.
Proof. apply GetVarint64Ptr_loop_eq. Qed.

Lemma EncodeVarint64_loop_enough f : forall g v,
  (0 < f <= g)%nat -> 0 <= v < 2 ^ (7 * Z.of_nat f) ->
  EncodeVarint64_loop f v = EncodeVarint64_loop g v.
Proof.
  induction f as [|f IH]; intros g v Hg Hv; [lia|].
  destruct g as [|g]; [lia|]. simpl.
  destruct (Z.leb_spec 128 v) as [E|E]; [|reflexivity].
  assert (f <> O) by (intros ->; change (2 ^ (7 * Z.of_nat 1)) with 128 in Hv; lia).
  f_equal. apply IH; [lia|]. rewrite shiftr_div by lia.
  split; [apply Z.div_pos; lia|]. apply Z.div_lt_upper_bound; [lia|].
  rewrite <- Z.pow_add_r by lia.
  replace (7 + 7 * Z.of_nat f) with (7 * Z.of_nat (S f)) by lia. lia.
Qed.

Lemma EncodeVarint32_loop v :
  0 <= v < 2 ^ 32 -> EncodeVarint32 v = EncodeVarint64_loop 5 v.
Proof.
  intros Hv. unfold EncodeVarint32. cbn [EncodeVarint64_loop].
  change (1 << 7) with 128. change (1 << 14) with 16384.
  change (1 << 21) with 2097152. change (1 << 28) with 268435456.
  rewrite !Z.shiftr_shiftr by lia.
  change (7 + 7) with 14. change (14 + 7) with 21. change (21 + 7) with 28.
  rewrite !shiftr_div by lia.
  change (2 ^ 7) with 128. change (2 ^ 14) with 16384.
  change (2 ^ 21) with 2097152. change (2 ^ 28) with 268435456.
  assert (D : forall n, 0 < n -> (128 <=? v / n) = negb (v <? 128 * n)).
  { intros n Hn. destruct (Z.ltb_spec v (128 * n)); cbn [negb].
    - apply Z.leb_gt, Z.div_lt_upper_bound; lia.
    - apply Z.leb_le, Z.div_le_lower_bound; lia. }
  rewrite !D by lia. change (128 * 128) with 16384. change (128 * 16384) with 2097152.
  change (128 * 2097152) with 268435456. change (128 * 268435456) with 34359738368.
  rewrite (proj2 (Z.ltb_lt v 34359738368)) by lia.
  zcases; cbn [negb]; (reflexivity || lia).
Qed.

Lemma EncodeVarint32_64 v : 0 <= v < 2 ^ 32 -> EncodeVarint32 v = EncodeVarint64 v.
Proof.
  intros Hv. rewrite EncodeVarint32_loop by assumption.
  apply EncodeVarint64_loop_enough; [lia|]. simpl. lia.
Qed.

Lemma varint32_get v rest :
  0 <= v < 2 ^ 32 -> GetVarint32 (EncodeVarint32 v ++ rest) = Some (v, rest).
Proof.
  intros Hv. unfold GetVarint32. rewrite GetVarint32Ptr_eq, EncodeVarint32_loop by assumption.
  pose proof (varint_loop_encode 32 28 ltac:(lia) ltac:(lia) 5 v 0 0 rest) as E.
  change (7 * 0) with 0 in E. change (2 ^ 0) with 1 in E.
  change (7 * Z.of_nat 5) with 35 in E.
  rewrite Z.mul_1_r, Z.add_0_l in E. apply E; (congruence || lia).
Qed.

Lemma varint64_get v rest :
  0 <= v < 2 ^ 64 -> GetVarint64 (EncodeVarint64 v ++ rest) = Some (v, rest).
Proof.
  intros Hv. unfold GetVarint64. rewrite GetVarint64Ptr_eq. unfold EncodeVarint64.
  pose proof (varint_loop_encode 64 63 ltac:(lia) ltac:(lia) 10 v 0 0 rest) as E.
  change (7 * 0) with 0 in E. change (2 ^ 0) with 1 in E.
  change (7 * Z.of_nat 10) with 70 in E.
  rewrite Z.mul_1_r, Z.add_0_l in E. apply E; (congruence || lia).
Qed.

Lemma lps_get s rest :
  sz s < 2 ^ 32 ->
  GetLengthPrefixedSlice (PutLengthPrefixedSlice [] s ++ rest) = Some (s, rest).
Proof.
  intros Hs. pose proof (sz_nonneg s).
  unfold GetLengthPrefixedSlice, PutLengthPrefixedSlice, PutVarint32.
  rewrite u32_small, app_nil_l, <- app_assoc, varint32_get by lia.
  rewrite sz_app, (proj2 (Z.leb_le _ _)) by (pose proof (sz_nonneg rest); lia).
  rewrite take_sz_app, drop_sz_app. reflexivity.
Qed.

Lemma PutLengthPrefixedSlice_app dst s :
  PutLengthPrefixedSlice dst s = dst ++ PutLengthPrefixedSlice [] s.
Proof. unfold PutLengthPrefixedSlice, PutVarint32. rewrite <- app_assoc. reflexivity. Qed.

Lemma GetVarint32_used p v rest :
  GetVarint32 p = Some (v, rest) ->
  0 <= v < 2 ^ 32 /\ exists used, p = used ++ rest /\ used <> [].
Proof.
  unfold GetVarint32. rewrite GetVarint32Ptr_eq. apply varint_loop_range; lia.
Qed.

Lemma GetVarint64_used p v rest :
  GetVarint64 p = Some (v, rest) ->
  0 <= v < 2 ^ 64 /\ exists used, p = used ++ rest /\ used <> [].
Proof.
  unfold GetVarint64. rewrite GetVarint64Ptr_eq. apply varint_loop_range; lia.
Qed.

Lemma GetLengthPrefixedSlice_used p s rest :
  GetLengthPrefixedSlice p = Some (s, rest) -> exists used, p = used ++ s ++ rest /\ used <> [].
Proof.
  unfold GetLengthPrefixedSlice. intros H.
  destruct (GetVarint32 p) as [[len q]|] eqn:E; [|discriminate].
  destruct (len <=? sz q) eqn:L; [|discriminate].
  apply GetVarint32_used in E as (Hr & used & -> & Hne).
  injection H as <- <-. exists used. rewrite take_drop. auto.
Qed.

Lemma EncodeVarint64_loop_length fuel : forall v, (length (EncodeVarint64_loop fuel v) <= fuel)%nat.
Proof.
  induction fuel as [|fuel IH]; intros v; simpl; [lia|].
  destruct (128 <=? v); simpl; [specialize (IH (v >> 7))|]; lia.
Qed.

Lemma VarintLength_loop_eq fuel : forall v len,
  fuel <> O -> 0 <= v < 2 ^ (7 * Z.of_nat fuel) ->
  VarintLength_loop fuel v len = len - 1 + sz (EncodeVarint64_loop fuel v).
Proof.
  induction fuel as [|fuel IH]; intros v len Hf Hv; [congruence|].
  cbn [VarintLength_loop EncodeVarint64_loop].
  destruct (Z.leb_spec 128 v); [|unfold sz; simpl; lia].
  assert (fuel <> O) by (intros ->; change (2 ^ (7 * Z.of_nat 1)) with 128 in Hv; lia).
  rewrite IH, sz_cons; [lia|assumption|]. rewrite shiftr_div by lia.
  split; [apply Z.div_pos; lia|]. apply Z.div_lt_upper_bound; [lia|].
  rewrite <- Z.pow_add_r by lia.
  replace (7 + 7 * Z.of_nat fuel) with (7 * Z.of_nat (S fuel)) by lia. lia.
Qed.

(** ** Properties *)

(** Fixed-width integers round trip: reading back what [EncodeFixed32] or
    [EncodeFixed64] wrote, whatever follows it, gives the value modulo the
    width of the type. *)
Theorem fixed_roundtrip : forall v rest,
  DecodeFixed32 (EncodeFixed32 v ++ rest) = u32 v /\
  DecodeFixed64 (EncodeFixed64 v ++ rest) = u64 v.
Proof. intros. split; [apply fixed32_decode | apply fixed64_decode]. Qed.

(** Varints round trip: each getter, applied to what its encoder wrote
    followed by any bytes, returns the value and exactly those bytes; a
    length-prefixed slice shorter than 4 GiB round trips the same way. *)
Theorem varint_roundtrip : forall v32 v64 s rest,
  0 <= v32 < 2 ^ 32 -> 0 <= v64 < 2 ^ 64 -> sz s < 2 ^ 32 ->
  GetVarint32 (PutVarint32 [] v32 ++ rest) = Some (v32, rest) /\
  GetVarint64 (PutVarint64 [] v64 ++ rest) = Some (v64, rest) /\
  GetLengthPrefixedSlice (PutLengthPrefixedSlice [] s ++ rest) = Some (s, rest).
Proof.
  intros. split; [apply varint32_get | split; [apply varint64_get | apply lps_get]];
    assumption.
Qed.

Lemma varint_roundtrip_witness :
  GetVarint32 (PutVarint32 [] 300 ++ [Byte.x01]) = Some (300, [Byte.x01]) /\
  GetVarint64 (PutVarint64 [] (2 ^ 63) ++ [Byte.x01]) = Some (2 ^ 63, [Byte.x01]) /\
  GetLengthPrefixedSlice (PutLengthPrefixedSlice [] [Byte.x07] ++ [Byte.x01])
    = Some ([Byte.x07], [Byte.x01]).
Proof. apply varint_roundtrip; vm_compute; split; congruence. Defined.

(** The unrolled 32-bit encoder writes the same bytes as the 64-bit loop,
    [VarintLength] is the number of bytes written, and the stack buffers of
    [PutVarint32] (5 bytes) and [PutVarint64] (10 bytes) are never overrun. *)
Theorem varint_encoders_agree : forall v,
  0 <= v < 2 ^ 64 ->
  (v < 2 ^ 32 -> EncodeVarint32 v = EncodeVarint64 v /\ sz (EncodeVarint32 v) <= 5) /\
  VarintLength v = sz (EncodeVarint64 v) /\ sz (EncodeVarint64 v) <= 10.
Proof.
  intros v Hv. split; [|split].
  - intros H. split; [apply EncodeVarint32_64; lia|].
    rewrite EncodeVarint32_loop by lia. pose proof (EncodeVarint64_loop_length 5 v).
    unfold sz. lia.
  - unfold VarintLength, EncodeVarint64. rewrite VarintLength_loop_eq;
      [lia | congruence | change (7 * Z.of_nat 10) with 70; lia].
  - pose proof (EncodeVarint64_loop_length 10 v). unfold EncodeVarint64, sz. lia.
Qed.

Lemma varint_encoders_agree_witness :
  (300 < 2 ^ 32 -> EncodeVarint32 300 = EncodeVarint64 300 /\ sz (EncodeVarint32 300) <= 5) /\
  VarintLength 300 = sz (EncodeVarint64 300) /\ sz (EncodeVarint64 300) <= 10.
Proof. apply varint_encoders_agree. lia. Defined.

(** The getters are safe on arbitrary bytes: a successful parse consumed a
    non-empty prefix of the input and nothing past it, and the value fits the
    result type. *)
Theorem varint_parse_safe : forall p v s rest,
  (GetVarint32 p = Some (v, rest) ->
     0 <= v < 2 ^ 32 /\ exists used, p = used ++ rest /\ used <> []) /\
  (GetVarint64 p = Some (v, rest) ->
     0 <= v < 2 ^ 64 /\ exists used, p = used ++ rest /\ used <> []) /\
  (GetLengthPrefixedSlice p = Some (s, rest) ->
     exists used, p = used ++ s ++ rest /\ used <> []).
Proof.
  intros. split; [apply GetVarint32_used | split; [apply GetVarint64_used |]].
  apply GetLengthPrefixedSlice_used.
Qed.
