(* ===== verification/Compare.v ===== *)
(** * Slices and comparators (include/leveldb/slice.h, util/comparator.cc)

    A slice is the list of the bytes it refers to.  [Comparator] is the
    interface of include/leveldb/comparator.h with the laws its documentation
    states; the bytewise comparator is proved to satisfy it, and the internal
    key comparator (file DbFormat) is built on top of any instance. *)

From S2P Require Import Prelude.
#[local] Open Scope Z_scope.
#[local] Open Scope ldb_scope.

(** ** Slice *)

(** [memcmp] on the first [n] bytes: bytes compare as unsigned values; the code
    only looks at the sign of the result. *)

Fixpoint memcmp (a b : bytes) (n : nat) : Z :=
  match n, a, b with
  | S n, x :: a, y :: b =>
      if b2z x <? b2z y then -1 else if b2z y <? b2z x then 1 else memcmp a b n
  | _, _, _ => 0
  end.

Definition Slice_compare (a b : bytes) : Z :=
  let min_len := if sz a <? sz b then sz a else sz b in
  let r := memcmp a b (Z.to_nat min_len) in
  if r =? 0 then
    if sz a <? sz b then -1 else if sz b <? sz a then 1 else r
  else r.

Definition Slice_eq (x y : bytes) : bool :=
  (sz x =? sz y) && (memcmp x y (Z.to_nat (sz x)) =? 0).

Definition Slice_starts_with (s x : bytes) : bool :=
  (sz x <=? sz s) && (memcmp s x (Z.to_nat (sz x)) =? 0).

(** [remove_prefix] asserts [n <= size()]. *)

Definition Slice_remove_prefix (s : bytes) (n : Z) : bytes := drop (Z.to_nat n) s.

(** ** The comparator interface *)

Class Comparator := {
  cmp : bytes -> bytes -> Z;                    (* Compare *)
  shortest_sep : bytes -> bytes -> bytes;       (* FindShortestSeparator *)
  short_succ : bytes -> bytes;                  (* FindShortSuccessor *)
  cmp_dom : bytes -> Prop                       (* keys the comparator is used on *)
}.

Class ComparatorOk (C : Comparator) : Prop := {
  cmp_eq a b : cmp_dom a -> cmp_dom b -> cmp a b = 0 <-> a = b;
  cmp_sgn a b : cmp_dom a -> cmp_dom b -> Z.sgn (cmp b a) = - Z.sgn (cmp a b);
  cmp_trans a b c : cmp_dom a -> cmp_dom b -> cmp_dom c ->
    cmp a b < 0 -> cmp b c < 0 -> cmp a c < 0;
  sep_dom a b : cmp_dom a -> cmp_dom b -> cmp_dom (shortest_sep a b);
  sep_refl a : cmp_dom a -> shortest_sep a a = a;
  sep_between a b : cmp_dom a -> cmp_dom b -> cmp a b < 0 ->
    cmp a (shortest_sep a b) <= 0 /\ cmp (shortest_sep a b) b < 0;
  succ_dom a : cmp_dom a -> cmp_dom (short_succ a);
  succ_ge a : cmp_dom a -> cmp a (short_succ a) <= 0
}.

(** Separators and successors are not longer than the key they replace. *)

Class ComparatorShort (C : Comparator) : Prop := {
  sep_short a b : cmp_dom a -> cmp_dom b -> sz (shortest_sep a b) <= sz a;
  succ_short a : cmp_dom a -> sz (short_succ a) <= sz a
}.

(** ** The bytewise comparator *)

Fixpoint common_prefix (start limit : bytes) : nat :=
  match start, limit with
  | x :: start, y :: limit => if decide (x = y) then S (common_prefix start limit) else O
  | _, _ => O
  end.

Definition Bytewise_FindShortestSeparator (start limit : bytes) : bytes :=
  let min_length := Nat.min (length start) (length limit) in
  let diff_index := common_prefix start limit in
  if (min_length <=? diff_index)%nat then start
  else
    let diff_byte := b2z (nth diff_index start Byte.x00) in
    if (diff_byte <? 255) && (diff_byte + 1 <? b2z (nth diff_index limit Byte.x00)) then
      take (diff_index + 1) (<[diff_index := z2b (diff_byte + 1)]> start)
    else start.

(** The loop runs over the bytes of [key] until one can be incremented; [seen]
    are the bytes already passed. *)

Fixpoint FindShortSuccessor_loop (seen key : bytes) : option bytes :=
  match key with
  | [] => None
  | b :: rest =>
      if negb (b2z b =? 255) then Some (seen ++ [z2b (b2z b + 1)])
      else FindShortSuccessor_loop (seen ++ [b]) rest
  end.

Definition Bytewise_FindShortSuccessor (key : bytes) : bytes :=
  match FindShortSuccessor_loop [] key with Some k => k | None => key end.

Definition BytewiseComparator : Comparator := {|
  cmp := Slice_compare;
  shortest_sep := Bytewise_FindShortestSeparator;
  short_succ := Bytewise_FindShortSuccessor;
  cmp_dom := fun _ => True
|}.

(** ** Lexicographic order *)

Fixpoint lex (a b : bytes) : Z :=
  match a, b with
  | [], [] => 0
  | [], _ :: _ => -1
  | _ :: _, [] => 1
  | x :: a, y :: b => if b2z x <? b2z y then -1 else if b2z y <? b2z x then 1 else lex a b
  end.

Lemma Slice_compare_lex a b : Slice_compare a b = lex a b.
Proof.
  revert b. unfold Slice_compare, sz.
  induction a as [|x a IH]; intros [|y b]; try reflexivity.
  specialize (IH b).
  assert (Hmin : Z.to_nat (if Z.of_nat (length (x :: a)) <? Z.of_nat (length (y :: b))
                 then Z.of_nat (length (x :: a)) else Z.of_nat (length (y :: b)))
          = S (Z.to_nat (if Z.of_nat (length a) <? Z.of_nat (length b)
                 then Z.of_nat (length a) else Z.of_nat (length b)))).
  { simpl length. zcases; lia. }
  rewrite Hmin. clear Hmin. cbn [memcmp lex].
  destruct (b2z x <? b2z y); [reflexivity|]. destruct (b2z y <? b2z x); [reflexivity|].
  rewrite <- IH. simpl length.
  replace (Z.of_nat (S (length a)) <? Z.of_nat (S (length b)))
    with (Z.of_nat (length a) <? Z.of_nat (length b)) by (zcases; lia).
  replace (Z.of_nat (S (length b)) <? Z.of_nat (S (length a)))
    with (Z.of_nat (length b) <? Z.of_nat (length a)) by (zcases; lia).
  reflexivity.
Qed.

Lemma lex_eq a : forall b, lex a b = 0 <-> a = b.
Proof.
  induction a as [|x a IH]; intros [|y b]; simpl; try (split; congruence).
  destruct (Z.ltb_spec (b2z x) (b2z y)); [split; [discriminate|]|].
  { intros [= -> _]. lia. }
  destruct (Z.ltb_spec (b2z y) (b2z x)); [split; [discriminate|]|].
  { intros [= -> _]. lia. }
  assert (x = y) as -> by (apply b2z_inj; lia). rewrite IH. split; congruence.
Qed.

Lemma lex_opp a : forall b, lex b a = - lex a b.
Proof.
  induction a as [|x a IH]; intros [|y b]; simpl; try reflexivity.
  destruct (Z.ltb_spec (b2z x) (b2z y)), (Z.ltb_spec (b2z y) (b2z x)); try lia. apply IH.
Qed.

Lemma lex_trans a : forall b c, lex a b < 0 -> lex b c < 0 -> lex a c < 0.
Proof.
  induction a as [|x a IH]; intros [|y b] [|z c]; simpl; try lia.
  destruct (Z.ltb_spec (b2z x) (b2z y)), (Z.ltb_spec (b2z y) (b2z x)),
    (Z.ltb_spec (b2z y) (b2z z)), (Z.ltb_spec (b2z z) (b2z y)),
    (Z.ltb_spec (b2z x) (b2z z)), (Z.ltb_spec (b2z z) (b2z x)); try lia.
  apply IH.
Qed.

Lemma lex_app_same p : forall a b, lex (p ++ a) (p ++ b) = lex a b.
Proof.
  induction p as [|x p IH]; intros a b; [reflexivity|]. simpl.
  rewrite Z.ltb_irrefl. apply IH.
Qed.

Lemma Slice_eq_spec x y : Slice_eq x y = true <-> x = y.
Proof.
  unfold Slice_eq. rewrite andb_true_iff, !Z.eqb_eq, <- (lex_eq x y), <- Slice_compare_lex.
  unfold Slice_compare. split.
  - intros [E1 E2]. rewrite <- E1, Z.ltb_irrefl, E2. reflexivity.
  - destruct (Z.ltb_spec (sz x) (sz y)), (Z.ltb_spec (sz y) (sz x)); zcases; try lia.
    intros _. assert (E : sz x = sz y) by lia. rewrite E. auto.
Qed.

Lemma memcmp_prefix x : forall s,
  (length x <= length s)%nat -> memcmp s x (length x) = 0 <-> exists t, s = x ++ t.
Proof.
  induction x as [|b x IH]; intros s Hl; simpl.
  { destruct s; (split; [eauto|reflexivity]). }
  destruct s as [|c s]; [simpl in Hl; lia|]. simpl in Hl.
  cbn [memcmp]. destruct (Z.ltb_spec (b2z c) (b2z b)), (Z.ltb_spec (b2z b) (b2z c)).
  1-3: split; [discriminate|intros (t & E); injection E as -> _; lia].
  assert (c = b) as -> by (apply b2z_inj; lia). rewrite IH by lia.
  split; intros (t & E); exists t; congruence.
Qed.

Lemma Slice_starts_with_spec s x : Slice_starts_with s x = true <-> exists t, s = x ++ t.
Proof.
  unfold Slice_starts_with. rewrite andb_true_iff, Z.leb_le, Z.eqb_eq, sz_to_nat. unfold sz.
  split; [intros [H1 H2]; apply memcmp_prefix in H2; [exact H2|lia]|].
  intros (t & ->). rewrite length_app. split; [lia|]. apply memcmp_prefix; [|eauto].
  rewrite length_app. lia.
Qed.

(** ** Consequences of the interface *)

Section ComparatorFacts.
Context {C : Comparator} {OK : ComparatorOk C}.

Lemma cmp_refl a : cmp_dom a -> cmp a a = 0.
Proof. intros H. apply cmp_eq; auto. Qed.

Lemma cmp_gt_lt a b : cmp_dom a -> cmp_dom b -> cmp a b > 0 <-> cmp b a < 0.
Proof. intros Ha Hb. pose proof (cmp_sgn a b Ha Hb). lia. Qed.

Lemma cmp_ge_le a b : cmp_dom a -> cmp_dom b -> cmp a b >= 0 <-> cmp b a <= 0.
Proof. intros Ha Hb. pose proof (cmp_sgn a b Ha Hb). lia. Qed.

Lemma cmp_le_lt_trans a b c : cmp_dom a -> cmp_dom b -> cmp_dom c ->
  cmp a b <= 0 -> cmp b c < 0 -> cmp a c < 0.
Proof.
  intros Ha Hb Hc Hab Hbc. destruct (Z.eq_dec (cmp a b) 0) as [E|].
  - apply cmp_eq in E; subst; auto.
  - apply (cmp_trans a b c); auto; lia.
Qed.

Lemma cmp_lt_le_trans a b c : cmp_dom a -> cmp_dom b -> cmp_dom c ->
  cmp a b < 0 -> cmp b c <= 0 -> cmp a c < 0.
Proof.
  intros Ha Hb Hc Hab Hbc. destruct (Z.eq_dec (cmp b c) 0) as [E|].
  - apply cmp_eq in E; subst; auto.
  - apply (cmp_trans a b c); auto; lia.
Qed.

Lemma cmp_le_trans a b c : cmp_dom a -> cmp_dom b -> cmp_dom c ->
  cmp a b <= 0 -> cmp b c <= 0 -> cmp a c <= 0.
Proof.
  intros Ha Hb Hc Hab Hbc. destruct (Z.eq_dec (cmp a b) 0) as [E|].
  - apply cmp_eq in E; subst; auto.
  - assert (cmp a c < 0) by (apply (cmp_lt_le_trans a b c); auto; lia). lia.
Qed.

End ComparatorFacts.

(** ** The bytewise comparator satisfies the interface *)

Lemma common_prefix_spec a : forall b,
  exists p ra rb, a = p ++ ra /\ b = p ++ rb /\ length p = common_prefix a b /\
    match ra, rb with x :: _, y :: _ => x <> y | _, _ => True end.
Proof.
  induction a as [|x a IH]; intros b; simpl.
  { exists [], [], b. auto. }
  destruct b as [|y b]; [exists [], (x :: a), []; auto|].
  destruct (decide (x = y)) as [->|Hne].
  - destruct (IH b) as (p & ra & rb & -> & -> & Hl & Hd).
    exists (y :: p), ra, rb. simpl. rewrite Hl. auto.
  - exists [], (x :: a), (y :: b). auto.
Qed.

Lemma Bytewise_sep_between a b :
  lex a b < 0 ->
  lex a (Bytewise_FindShortestSeparator a b) <= 0 /\
  lex (Bytewise_FindShortestSeparator a b) b < 0.
Proof.
  intros H. unfold Bytewise_FindShortestSeparator.
  destruct (common_prefix_spec a b) as (p & ra & rb & Ea & Eb & Hl & Hd).
  rewrite <- Hl. assert (R : lex a a = 0) by (apply lex_eq; reflexivity).
  destruct (Nat.leb_spec (Nat.min (length a) (length b)) (length p)) as [|Hlt]; [lia|].
  subst a b. rewrite !length_app in Hlt.
  destruct ra as [|x ra]; [simpl in Hlt; lia|]. destruct rb as [|y rb]; [simpl in Hlt; lia|].
  rewrite !app_nth2, !Nat.sub_diag by lia. cbn [nth].
  destruct (Z.ltb_spec (b2z x) 255), (Z.ltb_spec (b2z x + 1) (b2z y)); simpl; try lia.
  assert (E : take (length p + 1) (<[length p:=z2b (b2z x + 1)]> (p ++ x :: ra))
              = p ++ [z2b (b2z x + 1)]).
  { replace (length p) with (length p + 0)%nat at 2 by lia.
    rewrite insert_app_r, take_app_add. simpl. rewrite take_0. reflexivity. }
  rewrite E, !lex_app_same. simpl. rewrite b2z_z2b, u8_small
    by (pose proof (b2z_range x); lia).
  zcases; simpl; lia.
Qed.

Lemma FindShortSuccessor_loop_spec key : forall seen k,
  FindShortSuccessor_loop seen key = Some k ->
  lex (seen ++ key) k < 0 /\ (length k <= length (seen ++ key))%nat.
Proof.
  induction key as [|b key IH]; intros seen k H; [discriminate|]. simpl in H.
  destruct (Z.eqb_spec (b2z b) 255) as [|Hne]; cbn [negb] in H.
  - apply IH in H. rewrite <- app_assoc in H. exact H.
  - injection H as <-. rewrite lex_app_same. simpl.
    pose proof (b2z_range b). rewrite b2z_z2b, u8_small by lia.
    rewrite !length_app. simpl. zcases; simpl; lia.
Qed.

Lemma Bytewise_succ_ge a : lex a (Bytewise_FindShortSuccessor a) <= 0.
Proof.
  unfold Bytewise_FindShortSuccessor.
  destruct (FindShortSuccessor_loop [] a) as [k|] eqn:E.
  - apply FindShortSuccessor_loop_spec in E as [E _]. simpl in E. lia.
  - rewrite (proj2 (lex_eq a a) eq_refl). lia.
Qed.

Lemma common_prefix_refl a : common_prefix a a = length a.
Proof. induction a as [|x a IH]; simpl; [reflexivity|]. rewrite decide_True; auto. Qed.

#[export] Instance BytewiseComparatorOk : ComparatorOk BytewiseComparator.
Proof.
  split; cbn [cmp shortest_sep short_succ cmp_dom BytewiseComparator];
    rewrite ?Slice_compare_lex; auto.
  - intros a b _ _. rewrite Slice_compare_lex. apply lex_eq.
  - intros a b _ _. rewrite !Slice_compare_lex, lex_opp. apply Z.sgn_opp.
  - intros a b c _ _ _. rewrite !Slice_compare_lex. apply lex_trans.
  - intros a _. unfold Bytewise_FindShortestSeparator.
    rewrite common_prefix_refl, Nat.min_id, Nat.leb_refl. reflexivity.
  - intros a b _ _. rewrite !Slice_compare_lex. apply Bytewise_sep_between.
  - intros a _. rewrite Slice_compare_lex. apply Bytewise_succ_ge.
Qed.

#[export] Instance BytewiseComparatorShort : ComparatorShort BytewiseComparator.
Proof.
  split; cbn; intros.
  - unfold Bytewise_FindShortestSeparator. destruct (_ <=? _)%nat; [lia|]. destruct (_ && _); [|lia].
    unfold sz. rewrite length_take, length_insert. lia.
  - unfold Bytewise_FindShortSuccessor. destruct (FindShortSuccessor_loop [] a) as [k|] eqn:E; [|lia].
    assert (H1 : forall key seen k, FindShortSuccessor_loop seen key = Some k ->
      (length k <= length seen + length key)%nat).
    { induction key as [|b key IH]; intros seen k' E'; [discriminate|]. cbn [FindShortSuccessor_loop] in E'.
      destruct (negb _); [injection E' as <-|apply IH in E']; rewrite ?length_app in *; cbn [length] in *; lia. }
    apply H1 in E. unfold sz. cbn in E. lia.
Qed.

(** ** Properties *)

(** The bytewise comparator honours the comparator contract: a total order
    on byte strings in which equal means identical, separators in
    [\[start, limit)] and successors not below the key; and it is the
    lexicographic order on unsigned bytes, agreeing with slice equality. *)
Theorem bytewise_comparator_contract :
  ComparatorOk BytewiseComparator /\
  (forall a b, Slice_compare a b = lex a b) /\
  (forall a b, Slice_eq a b = true <-> Slice_compare a b = 0).
Proof.
  split; [exact BytewiseComparatorOk|]. split; [exact Slice_compare_lex|].
  intros a b. rewrite Slice_eq_spec, Slice_compare_lex, lex_eq. reflexivity.
Qed.
