(* ===== verification/DbFormat.v ===== *)
(** * Internal keys and range deletions (db/dbformat.h, db/dbformat.cc)

    An internal key is the user key followed by eight bytes that pack the
    sequence number and the value type.  The internal key comparator is itself
    an instance of the comparator interface, built on the user comparator.
    [RangeDeletionList] is the list of range tombstones a memtable or a table
    carries. *)

From S2P Require Import Prelude Coding Compare.
#[local] Open Scope Z_scope.
#[local] Open Scope ldb_scope.

(** ** Constants *)

Definition kNumLevels : nat := 7.
Definition kL0_CompactionTrigger : Z := 4.
Definition kL0_SlowdownWritesTrigger : Z := 8.
Definition kL0_StopWritesTrigger : Z := 12.
Definition kMaxMemCompactLevel : nat := 2.
Definition kReadBytesPeriod : Z := 1048576.

Inductive ValueType : Type :=
| kTypeDeletion
| kTypeValue
| kTypeRangeDeletion.

#[global] Instance ValueType_eq_dec : EqDecision ValueType.
Proof. solve_decision. Defined.

Definition vt_code (t : ValueType) : Z :=
  match t with kTypeDeletion => 0 | kTypeValue => 1 | kTypeRangeDeletion => 2 end.

(** [static_cast<ValueType>(c)], for the bytes that name an enumerator. *)

Definition vt_of_code (c : Z) : option ValueType :=
  if c =? 0 then Some kTypeDeletion else if c =? 1 then Some kTypeValue
  else if c =? 2 then Some kTypeRangeDeletion else None.

Definition kValueTypeForSeek : ValueType := kTypeRangeDeletion.

Definition kMaxSequenceNumber : Z := (1 << 56) - 1.

Record ParsedInternalKey := mkParsed {
  user_key : bytes;
  sequence : Z;
  type : ValueType
}.

#[global] Instance ParsedInternalKey_eq_dec : EqDecision ParsedInternalKey.
Proof. solve_decision. Defined.

Definition InternalKeyEncodingLength (key : ParsedInternalKey) : Z :=
  sz (user_key key) + 8.

(** ** Encoding *)

(** Asserts [seq <= kMaxSequenceNumber]. *)

Definition PackSequenceAndType (seq : Z) (t : ValueType) : Z :=
  u64 (seq << 8) .| vt_code t.

Definition AppendInternalKey (result : bytes) (key : ParsedInternalKey) : bytes :=
  PutFixed64 (result ++ user_key key) (PackSequenceAndType (sequence key) (type key)).

(** [InternalKey(user_key, s, t)]: the encoded key. *)

Definition mkInternalKey (u : bytes) (s : Z) (t : ValueType) : bytes :=
  AppendInternalKey [] (mkParsed u s t).

(** The last eight bytes; [internal_key.data() + n - 8]. *)

Definition key_tail (internal_key : bytes) : bytes :=
  drop (length internal_key - 8) internal_key.

Definition ExtractUserKey (internal_key : bytes) : bytes :=
  take (length internal_key - 8) internal_key.

Definition ExtractTag (internal_key : bytes) : Z := DecodeFixed64 (key_tail internal_key).

Definition ParseInternalKey (internal_key : bytes) : option ParsedInternalKey :=
  let n := sz internal_key in
  if n <? 8 then None
  else
    let num := ExtractTag internal_key in
    let c := num .& 255 in
    match vt_of_code c with
    | Some t => Some (mkParsed (ExtractUserKey internal_key) (num >> 8) t)
    | None => None
    end.

(** ** The internal key comparator *)

Section InternalKeyComparator.
Context (C : Comparator).

Definition IKC_Compare (akey bkey : bytes) : Z :=
  let r := cmp (ExtractUserKey akey) (ExtractUserKey bkey) in
  if r =? 0 then
    let anum := ExtractTag akey in
    let bnum := ExtractTag bkey in
    if bnum <? anum then -1 else if anum <? bnum then 1 else r
  else r.

Definition IKC_FindShortestSeparator (start limit : bytes) : bytes :=
  let user_start := ExtractUserKey start in
  let user_limit := ExtractUserKey limit in
  let tmp := shortest_sep user_start user_limit in
  if (sz tmp <? sz user_start) && (cmp user_start tmp <? 0) then
    PutFixed64 tmp (PackSequenceAndType kMaxSequenceNumber kValueTypeForSeek)
  else start.

Definition IKC_FindShortSuccessor (key : bytes) : bytes :=
  let user_key := ExtractUserKey key in
  let tmp := short_succ user_key in
  if (sz tmp <? sz user_key) && (cmp user_key tmp <? 0) then
    PutFixed64 tmp (PackSequenceAndType kMaxSequenceNumber kValueTypeForSeek)
  else key.

Definition InternalKeyComparator : Comparator := {|
  cmp := IKC_Compare;
  shortest_sep := IKC_FindShortestSeparator;
  short_succ := IKC_FindShortSuccessor;
  cmp_dom := fun k => (8 <= length k)%nat /\ cmp_dom (ExtractUserKey k)
|}.

End InternalKeyComparator.

(** ** LookupKey *)

Record LookupKey := mkLookup {
  memtable_key : bytes;    (* from start_ *)
  internal_key : bytes     (* from kstart_ *)
}.

Definition MakeLookupKey (user_key : bytes) (s : Z) : LookupKey :=
  let usize := sz user_key in
  let ikey := user_key ++ EncodeFixed64 (PackSequenceAndType s kValueTypeForSeek) in
  mkLookup (EncodeVarint32 (u32 (usize + 8)) ++ ikey) ikey.

Definition lookup_user_key (k : LookupKey) : bytes := ExtractUserKey (internal_key k).

(** ** RangeDeletionList *)

Record RangeDeletion := mkRangeDel {
  start_key : bytes;
  end_key : bytes;
  seq : Z
}.

#[global] Instance RangeDeletion_eq_dec : EqDecision RangeDeletion.
Proof. solve_decision. Defined.

Definition RangeDeletionList := list RangeDeletion.

Definition RDL_Add (deletions : RangeDeletionList) (start end_ : bytes) (seq : Z)
  : RangeDeletionList :=
  deletions ++ [mkRangeDel start end_ seq].

Fixpoint RDL_IsDeleted (deletions : RangeDeletionList) (key : bytes)
    (found_seq read_seq : Z) : bool :=
  match deletions with
  | [] => false
  | del :: rest =>
      if (0 <=? Slice_compare key (start_key del)) && (Slice_compare key (end_key del) <? 0)
      then if (seq del <=? read_seq) && (found_seq <? seq del) then true
           else RDL_IsDeleted rest key found_seq read_seq
      else RDL_IsDeleted rest key found_seq read_seq
  end.

Definition RDL_MergeInto (deletions : RangeDeletionList) (other : option RangeDeletionList)
  : RangeDeletionList :=
  match other with
  | None => deletions
  | Some other => deletions ++ other
  end.

(** ** Lemmas on keys *)

Lemma user_tail l : (8 <= length l)%nat -> l = ExtractUserKey l ++ key_tail l.
Proof. intros. unfold ExtractUserKey, key_tail. rewrite take_drop. reflexivity. Qed.

Lemma length_key_tail l : (8 <= length l)%nat -> length (key_tail l) = 8%nat.
Proof. intros. unfold key_tail. rewrite length_drop. lia. Qed.

Lemma ExtractUserKey_app u t : length t = 8%nat -> ExtractUserKey (u ++ t) = u.
Proof.
  intros H. unfold ExtractUserKey. rewrite length_app, H.
  replace (length u + 8 - 8)%nat with (length u) by lia. apply take_app_length.
Qed.

Lemma key_tail_app u t : length t = 8%nat -> key_tail (u ++ t) = t.
Proof.
  intros H. unfold key_tail. rewrite length_app, H.
  replace (length u + 8 - 8)%nat with (length u) by lia. apply drop_app_length.
Qed.

Lemma ExtractTag_app u v : ExtractTag (u ++ EncodeFixed64 v) = u64 v.
Proof.
  unfold ExtractTag. rewrite key_tail_app by reflexivity.
  rewrite <- (app_nil_r (EncodeFixed64 v)). apply fixed64_decode.
Qed.

Lemma ikey_eq a b :
  (8 <= length a)%nat -> (8 <= length b)%nat ->
  ExtractUserKey a = ExtractUserKey b -> ExtractTag a = ExtractTag b -> a = b.
Proof.
  intros Ha Hb Hu Ht. rewrite (user_tail a), (user_tail b) by assumption. rewrite Hu.
  f_equal. apply DecodeFixed64_inj; auto using length_key_tail.
Qed.

Lemma vt_code_range t : 0 <= vt_code t <= 2.
Proof. destruct t; simpl; lia. Qed.

Lemma vt_of_code_code t : vt_of_code (vt_code t) = Some t.
Proof. destruct t; reflexivity. Qed.

Lemma vt_of_code_Some c t : vt_of_code c = Some t -> c = vt_code t.
Proof. unfold vt_of_code. zcases; intros H; inv H; reflexivity. Qed.

Lemma PackSequenceAndType_eq s t :
  0 <= s <= kMaxSequenceNumber -> PackSequenceAndType s t = s * 256 + vt_code t.
Proof.
  intros H. unfold PackSequenceAndType. change kMaxSequenceNumber with (2 ^ 56 - 1) in H.
  pose proof (vt_code_range t).
  rewrite u64_small by (rewrite Z.shiftl_mul_pow2; lia).
  rewrite Z.lor_comm, lor_shiftl_add; lia.
Qed.

Lemma PackSequenceAndType_range s t :
  0 <= s <= kMaxSequenceNumber -> 0 <= PackSequenceAndType s t < 2 ^ 64.
Proof.
  intros H. rewrite PackSequenceAndType_eq by assumption.
  change kMaxSequenceNumber with (2 ^ 56 - 1) in H. pose proof (vt_code_range t). lia.
Qed.

Lemma PackSequenceAndType_unpack s t :
  0 <= s <= kMaxSequenceNumber ->
  PackSequenceAndType s t .& 255 = vt_code t /\ PackSequenceAndType s t >> 8 = s.
Proof.
  intros H. rewrite PackSequenceAndType_eq by assumption. pose proof (vt_code_range t).
  rewrite land_255, shiftr_div by lia. change (2 ^ 8) with 256.
  rewrite Z.add_comm, Z.mod_add, Z.mod_small by lia.
  rewrite Z.div_add, Z.div_small by lia. lia.
Qed.

Lemma mkInternalKey_eq u s t :
  mkInternalKey u s t = u ++ EncodeFixed64 (PackSequenceAndType s t).
Proof. reflexivity. Qed.

Lemma mkInternalKey_user u s t : ExtractUserKey (mkInternalKey u s t) = u.
Proof. rewrite mkInternalKey_eq. apply ExtractUserKey_app. reflexivity. Qed.

Lemma mkInternalKey_tag u s t :
  0 <= s <= kMaxSequenceNumber ->
  ExtractTag (mkInternalKey u s t) = PackSequenceAndType s t.
Proof.
  intros H. rewrite mkInternalKey_eq, ExtractTag_app.
  apply u64_small, PackSequenceAndType_range, H.
Qed.

Lemma mkInternalKey_length u s t : length (mkInternalKey u s t) = (length u + 8)%nat.
Proof. rewrite mkInternalKey_eq, length_app. reflexivity. Qed.

#[export] Hint Rewrite mkInternalKey_user mkInternalKey_length : ldb_rw.

Lemma ParseInternalKey_make u s t :
  0 <= s <= kMaxSequenceNumber ->
  ParseInternalKey (mkInternalKey u s t) = Some (mkParsed u s t).
Proof.
  intros H. unfold ParseInternalKey. unfold sz. rewrite mkInternalKey_length.
  rewrite (proj2 (Z.ltb_ge _ _)) by lia.
  rewrite mkInternalKey_tag, mkInternalKey_user by assumption.
  destruct (PackSequenceAndType_unpack s t H) as [-> ->].
  rewrite vt_of_code_code. reflexivity.
Qed.

Lemma ParseInternalKey_Some k p :
  ParseInternalKey k = Some p ->
  0 <= sequence p <= kMaxSequenceNumber /\
  k = mkInternalKey (user_key p) (sequence p) (type p) /\ (8 <= length k)%nat.
Proof.
  unfold ParseInternalKey. intros H.
  destruct (Z.ltb_spec (sz k) 8) as [|Hlen]; [discriminate|]. unfold sz in Hlen.
  destruct (vt_of_code _) as [t|] eqn:Ht; [|discriminate].
  injection H as <-. cbn [user_key sequence type].
  assert (Hl : (8 <= length k)%nat) by lia.
  assert (Hr := DecodeFixed64_range _ (length_key_tail k Hl)).
  fold (ExtractTag k) in Hr. apply vt_of_code_Some in Ht. rewrite land_255 in Ht.
  rewrite shiftr_div by lia. change (2 ^ 8) with 256 in *.
  assert (Hs : 0 <= ExtractTag k / 256 <= kMaxSequenceNumber).
  { change kMaxSequenceNumber with (2 ^ 56 - 1). split; [apply Z.div_pos; lia|].
    enough (ExtractTag k / 256 < 2 ^ 56) by lia. apply Z.div_lt_upper_bound; lia. }
  split; [exact Hs|]. split; [|exact Hl].
  apply ikey_eq; auto.
  - rewrite mkInternalKey_length. lia.
  - rewrite mkInternalKey_user. reflexivity.
  - rewrite mkInternalKey_tag, PackSequenceAndType_eq by assumption.
    rewrite (Z.div_mod (ExtractTag k) 256) at 1 by lia. lia.
Qed.

(** ** The internal key comparator satisfies the comparator interface *)

Section InternalKeyComparatorOk.
Context {C : Comparator} {OK : ComparatorOk C}.

#[local] Abbreviation ICmp := (InternalKeyComparator C).

Lemma IKC_lt a b :
  IKC_Compare C a b < 0 <->
  cmp (ExtractUserKey a) (ExtractUserKey b) < 0 \/
  (cmp (ExtractUserKey a) (ExtractUserKey b) = 0 /\ ExtractTag b < ExtractTag a).
Proof. unfold IKC_Compare. cbv zeta. zcases; lia. Qed.

Lemma IKC_eq0 a b :
  IKC_Compare C a b = 0 <->
  cmp (ExtractUserKey a) (ExtractUserKey b) = 0 /\ ExtractTag a = ExtractTag b.
Proof. unfold IKC_Compare. cbv zeta. zcases; lia. Qed.

(** The earliest key for a user key sorts before no other user key's entries:
    a physically shorter, logically larger user key with the seek tag. *)

Lemma seek_key_dom u :
  cmp_dom u ->
  @cmp_dom ICmp (PutFixed64 u (PackSequenceAndType kMaxSequenceNumber kValueTypeForSeek)).
Proof.
  intros H. unfold PutFixed64. cbn. rewrite length_app, length_EncodeFixed64.
  rewrite ExtractUserKey_app by reflexivity. split; [lia|exact H].
Qed.

Lemma IKC_sep_cases start limit :
  (IKC_FindShortestSeparator C start limit = start) \/
  (exists tmp, tmp = shortest_sep (ExtractUserKey start) (ExtractUserKey limit) /\
     cmp (ExtractUserKey start) tmp < 0 /\ sz tmp < sz (ExtractUserKey start) /\
     IKC_FindShortestSeparator C start limit =
       PutFixed64 tmp (PackSequenceAndType kMaxSequenceNumber kValueTypeForSeek)).
Proof.
  unfold IKC_FindShortestSeparator.
  destruct (Z.ltb_spec (sz (shortest_sep (ExtractUserKey start) (ExtractUserKey limit)))
    (sz (ExtractUserKey start))); [|left; reflexivity].
  destruct (Z.ltb_spec (cmp (ExtractUserKey start)
    (shortest_sep (ExtractUserKey start) (ExtractUserKey limit))) 0); [|left; reflexivity].
  right. eauto.
Qed.

Lemma IKC_sep_between a b :
  @cmp_dom ICmp a -> @cmp_dom ICmp b -> IKC_Compare C a b < 0 ->
  IKC_Compare C a (IKC_FindShortestSeparator C a b) <= 0 /\
  IKC_Compare C (IKC_FindShortestSeparator C a b) b < 0.
Proof.
  intros [La Da] [Lb Db] H.
  destruct (IKC_sep_cases a b) as [->|(tmp & -> & Hlt & Hsz & ->)].
  { split; [|exact H]. enough (IKC_Compare C a a = 0) by lia.
    apply IKC_eq0. split; [apply cmp_refl; exact Da|reflexivity]. }
  unfold PutFixed64.
  rewrite !IKC_lt, ExtractUserKey_app by reflexivity.
  apply IKC_lt in H as [H|[H _]].
  - split; [|left; apply sep_between; assumption].
    enough (IKC_Compare C a (shortest_sep (ExtractUserKey a) (ExtractUserKey b) ++
      EncodeFixed64 (PackSequenceAndType kMaxSequenceNumber kValueTypeForSeek)) < 0) by lia.
    rewrite IKC_lt, ExtractUserKey_app by reflexivity. auto.
  - apply cmp_eq in H; [|assumption|assumption]. rewrite H in Hsz.
    rewrite sep_refl in Hsz by assumption. lia.
Qed.

#[export] Instance InternalKeyComparatorOk : ComparatorOk ICmp.
Proof.
  split; cbn [cmp shortest_sep short_succ InternalKeyComparator].
  - intros a b [La Da] [Lb Db]. rewrite IKC_eq0, cmp_eq by assumption.
    split; [intros []; apply ikey_eq; assumption|intros ->; auto].
  - intros a b [La Da] [Lb Db]. pose proof (cmp_sgn _ _ Da Db).
    unfold IKC_Compare. cbv zeta. zcases; lia.
  - intros a b c [La Da] [Lb Db] [Lc Dc]. rewrite !IKC_lt.
    intros [H1|[H1 T1]] [H2|[H2 T2]].
    + left. eapply cmp_trans; [..|exact H1|exact H2]; assumption.
    + apply cmp_eq in H2; auto. rewrite <- H2. auto.
    + apply cmp_eq in H1; auto. rewrite H1. auto.
    + apply cmp_eq in H1; auto. apply cmp_eq in H2; auto. rewrite H1, H2. right.
      split; [apply cmp_refl; assumption|lia].
  - intros a b Da Db. destruct (IKC_sep_cases a b) as [->|(tmp & -> & _ & _ & ->)]; auto.
    destruct Da, Db. apply seek_key_dom, sep_dom; assumption.
  - intros a Da. destruct (IKC_sep_cases a a) as [->|(tmp & -> & H & Hs & ->)]; auto.
    destruct Da. rewrite sep_refl in Hs by assumption. lia.
  - intros a b. apply IKC_sep_between.
  - intros a [La Da]. unfold IKC_FindShortSuccessor. cbv zeta.
    destruct (_ && _); [|split; assumption]. apply seek_key_dom, succ_dom, Da.
  - intros a [La Da]. unfold IKC_FindShortSuccessor. cbv zeta.
    destruct (sz _ <? sz _); simpl andb;
      [destruct (Z.ltb_spec (cmp (ExtractUserKey a) (short_succ (ExtractUserKey a))) 0)|].
    + enough (IKC_Compare C a (PutFixed64 (short_succ (ExtractUserKey a))
        (PackSequenceAndType kMaxSequenceNumber kValueTypeForSeek)) < 0) by lia.
      unfold PutFixed64. rewrite IKC_lt, ExtractUserKey_app by reflexivity. auto.
    + enough (IKC_Compare C a a = 0) by lia. apply IKC_eq0.
      split; [apply cmp_refl, Da|reflexivity].
    + enough (IKC_Compare C a a = 0) by lia. apply IKC_eq0.
      split; [apply cmp_refl, Da|reflexivity].
Qed.

(** Entries of one user key are ordered newest first. *)

Lemma IKC_same_user u s1 t1 s2 t2 :
  cmp_dom u -> 0 <= s1 <= kMaxSequenceNumber -> 0 <= s2 <= kMaxSequenceNumber ->
  IKC_Compare C (mkInternalKey u s1 t1) (mkInternalKey u s2 t2) < 0 <->
  s2 < s1 \/ (s2 = s1 /\ vt_code t2 < vt_code t1).
Proof.
  intros Du H1 H2. rewrite IKC_lt, !mkInternalKey_user, !mkInternalKey_tag by assumption.
  rewrite !PackSequenceAndType_eq by assumption.
  pose proof (vt_code_range t1). pose proof (vt_code_range t2).
  rewrite cmp_refl by assumption. lia.
Qed.

#[export] Instance InternalKeyComparatorShort : ComparatorShort ICmp.
Proof.
  assert (Hu : forall k t, (8 <= length k)%nat -> sz t < sz (ExtractUserKey k) ->
    sz (PutFixed64 t (PackSequenceAndType kMaxSequenceNumber kValueTypeForSeek)) <= sz k).
  { intros k t Hk Ht. unfold PutFixed64. rewrite sz_app. unfold sz in *. rewrite length_EncodeFixed64.
    unfold ExtractUserKey in Ht. rewrite length_take in Ht. lia. }
  split.
  - intros a b [La _] _. cbn. destruct (IKC_sep_cases a b) as [->|(tmp & _ & _ & Hsz & ->)]; auto. lia.
  - intros a [La _]. cbn. unfold IKC_FindShortSuccessor. cbv zeta.
    destruct (Z.ltb_spec (sz (short_succ (ExtractUserKey a))) (sz (ExtractUserKey a))); [|cbn; lia].
    destruct (_ <? _); cbn [andb]; [auto|lia].
Qed.

(** Internal keys with the same user key are adjacent. *)

Lemma IKC_user_convex a b c : @cmp_dom ICmp a -> @cmp_dom ICmp b -> @cmp_dom ICmp c ->
  IKC_Compare C a b <= 0 -> IKC_Compare C b c <= 0 -> ExtractUserKey a = ExtractUserKey c ->
  ExtractUserKey b = ExtractUserKey c.
Proof.
  assert (Hle : forall x y, IKC_Compare C x y <= 0 -> cmp (ExtractUserKey x) (ExtractUserKey y) <= 0).
  { intros x y. unfold IKC_Compare. cbv zeta. zcases; lia. }
  intros [_ Da] [_ Db] [_ Dc] H1 H2 E. apply Hle in H1, H2. rewrite E in H1.
  apply (cmp_eq (C := C)); [assumption..|]. pose proof (cmp_sgn (ExtractUserKey c) (ExtractUserKey b) Dc Db). lia.
Qed.

(** A separator that differs from the start has another user key than the
    limit. *)

Lemma IKC_sep_user a b : @cmp_dom ICmp a -> @cmp_dom ICmp b -> IKC_Compare C a b < 0 ->
  IKC_FindShortestSeparator C a b = a \/
  ExtractUserKey (IKC_FindShortestSeparator C a b) <> ExtractUserKey b.
Proof.
  intros [La Da] [Lb Db] H. destruct (IKC_sep_cases a b) as [->|(tmp & Ht & Hlt & Hsz & ->)]; [auto|].
  right. unfold PutFixed64. rewrite ExtractUserKey_app by reflexivity. intros E.
  apply IKC_lt in H as [H|[H _]].
  - destruct (sep_between _ _ Da Db H) as [_ H2]. rewrite <- Ht, E, cmp_refl in H2 by exact Db. lia.
  - apply (cmp_eq (C := C)) in H; [|assumption..]. rewrite H, sep_refl in Ht by exact Db.
    rewrite E, H, cmp_refl in Hlt by exact Db. lia.
Qed.

End InternalKeyComparatorOk.

(** ** Lemmas on range deletions *)

(** A tombstone covers [key] for a reader at [read_seq]: it hides every entry
    older than itself. *)

Definition covers (key : bytes) (found_seq read_seq : Z) (del : RangeDeletion) : Prop :=
  lex (start_key del) key <= 0 /\ lex key (end_key del) < 0 /\
  found_seq < seq del <= read_seq.

Definition coversb (key : bytes) (found_seq read_seq : Z) (del : RangeDeletion) : bool :=
  (lex (start_key del) key <=? 0) && (lex key (end_key del) <? 0) &&
  (found_seq <? seq del) && (seq del <=? read_seq).

Lemma coversb_spec key f r d : coversb key f r d = true <-> covers key f r d.
Proof.
  unfold coversb, covers. rewrite !andb_true_iff, !Z.ltb_lt, !Z.leb_le. lia.
Qed.

Lemma RDL_IsDeleted_existsb dels key f r :
  RDL_IsDeleted dels key f r = existsb (coversb key f r) dels.
Proof.
  induction dels as [|d dels IH]; [reflexivity|]. simpl. rewrite IH. unfold coversb.
  rewrite !Slice_compare_lex, (lex_opp (start_key d) key). zcases; simpl; (reflexivity || lia).
Qed.

Lemma RDL_IsDeleted_spec dels key found_seq read_seq :
  RDL_IsDeleted dels key found_seq read_seq = true <->
  exists del, In del dels /\ covers key found_seq read_seq del.
Proof.
  rewrite RDL_IsDeleted_existsb, existsb_exists. setoid_rewrite coversb_spec. reflexivity.
Qed.

Lemma RDL_IsDeleted_app d1 d2 key f r :
  RDL_IsDeleted (d1 ++ d2) key f r = RDL_IsDeleted d1 key f r || RDL_IsDeleted d2 key f r.
Proof.
  apply eq_true_iff_eq. rewrite orb_true_iff, !RDL_IsDeleted_spec.
  setoid_rewrite in_app_iff. firstorder.
Qed.

Lemma RDL_IsDeleted_mono dels key f f' r r' :
  f' <= f -> r <= r' -> RDL_IsDeleted dels key f r = true ->
  RDL_IsDeleted dels key f' r' = true.
Proof.
  intros Hf Hr. rewrite !RDL_IsDeleted_spec. intros (d & Hin & ? & ? & ?).
  exists d. unfold covers. repeat split; auto; lia.
Qed.

(** ** Properties *)

(** Internal keys round trip: parsing an encoded key gives back the user
    key, the sequence number and the type, and every string that parses is the
    encoding of what it parses to (no two encodings of one key). *)
Theorem internal_key_roundtrip : forall k,
  0 <= sequence k <= kMaxSequenceNumber ->
  ParseInternalKey (AppendInternalKey [] k) = Some k /\
  forall s, ParseInternalKey s = Some k <-> s = AppendInternalKey [] k.
Proof.
  intros [u s t] H. cbn [sequence] in H.
  change (AppendInternalKey [] (mkParsed u s t)) with (mkInternalKey u s t).
  split; [apply ParseInternalKey_make; assumption|].
  intros str. split; [|intros ->; apply ParseInternalKey_make; assumption].
  intros E. apply ParseInternalKey_Some in E as (_ & E & _). exact E.
Qed.

Lemma internal_key_roundtrip_witness :
  ParseInternalKey (AppendInternalKey [] (mkParsed [Byte.x61] 7 kTypeValue))
    = Some (mkParsed [Byte.x61] 7 kTypeValue) /\
  forall s, ParseInternalKey s = Some (mkParsed [Byte.x61] 7 kTypeValue) <->
            s = AppendInternalKey [] (mkParsed [Byte.x61] 7 kTypeValue).
Proof. apply internal_key_roundtrip. vm_compute. split; discriminate. Defined.

(** C29. The internal key comparator, for every user comparator that honours the
    comparator contract: internal keys sort by user key first and, within one user key,
    by falling sequence number (the newest entry first) and then falling type; it is
    itself a lawful comparator on keys of at least eight bytes, so index separators and
    successors stay between the keys they separate and are internal keys again. *)
Theorem internal_comparator_contract : forall C,
  ComparatorOk C ->
  (forall u1 u2 s1 s2 t1 t2, cmp_dom u1 -> cmp_dom u2 -> 0 <= s1 <= kMaxSequenceNumber -> 0 <= s2 <= kMaxSequenceNumber ->
     IKC_Compare C (mkInternalKey u1 s1 t1) (mkInternalKey u2 s2 t2) < 0 <->
     cmp u1 u2 < 0 \/ u1 = u2 /\ (s2 < s1 \/ s2 = s1 /\ vt_code t2 < vt_code t1)) /\
  ComparatorOk (InternalKeyComparator C).
Proof.
  intros C OK. split; [|exact InternalKeyComparatorOk]. intros u1 u2 s1 s2 t1 t2 D1 D2 H1 H2. destruct (decide (u1 = u2)) as [->|Hne].
  - rewrite IKC_same_user by assumption. rewrite cmp_refl by assumption. intuition lia.
  - rewrite IKC_lt, !mkInternalKey_user. rewrite cmp_eq by assumption. tauto.
Qed.

Lemma internal_comparator_contract_witness :
  IKC_Compare BytewiseComparator (mkInternalKey (str "k") 9 kTypeDeletion) (mkInternalKey (str "k") 8 kTypeValue) < 0 /\
  ComparatorOk (InternalKeyComparator BytewiseComparator).
Proof.
  destruct (internal_comparator_contract BytewiseComparator BytewiseComparatorOk) as [H1 H2]. split; [|exact H2].
  apply H1; [exact I|exact I|split; vm_compute; discriminate|split; vm_compute; discriminate|]. right. split; [reflexivity|left; lia].
Defined.

(** The lookup key of a snapshot separates the versions of its user key:
    every entry newer than the snapshot sorts before it and every entry the
    snapshot can see does not, so the first entry at or after it is the newest
    visible one. *)
Theorem lookup_key_separates : forall C, ComparatorOk C -> forall u s es et,
  cmp_dom u -> 0 <= s <= kMaxSequenceNumber -> 0 <= es <= kMaxSequenceNumber ->
  let k := internal_key (MakeLookupKey u s) in
  lookup_user_key (MakeLookupKey u s) = u /\
  (IKC_Compare C (mkInternalKey u es et) k < 0 <-> s < es).
Proof.
  intros C OK u s es et Du Hs He k.
  assert (Ek : k = mkInternalKey u s kValueTypeForSeek) by reflexivity.
  split; [unfold lookup_user_key; fold k; rewrite Ek; apply mkInternalKey_user|].
  rewrite Ek, IKC_same_user by assumption.
  pose proof (vt_code_range et). simpl. lia.
Qed.

Lemma lookup_key_separates_witness :
  let k := internal_key (MakeLookupKey [Byte.x61] 5) in
  lookup_user_key (MakeLookupKey [Byte.x61] 5) = [Byte.x61] /\
  (IKC_Compare BytewiseComparator (mkInternalKey [Byte.x61] 7 kTypeValue) k < 0 <-> 5 < 7).
Proof.
  apply (lookup_key_separates BytewiseComparator _ [Byte.x61] 5 7 kTypeValue);
    vm_compute; (exact I || split; discriminate).
Defined.

(** A key is range-deleted exactly when some tombstone of the list covers
    it (start inclusive, end exclusive), is not newer than the reader's
    sequence number and is newer than the entry found; merging two lists
    deletes what either deletes. *)
Theorem range_deletion_spec : forall dels other start end_ s key found_seq read_seq,
  (RDL_IsDeleted dels key found_seq read_seq = true <->
     exists del, In del dels /\ covers key found_seq read_seq del) /\
  RDL_IsDeleted (RDL_Add dels start end_ s) key found_seq read_seq =
    RDL_IsDeleted dels key found_seq read_seq
    || coversb key found_seq read_seq (mkRangeDel start end_ s) /\
  RDL_IsDeleted (RDL_MergeInto dels (Some other)) key found_seq read_seq =
    RDL_IsDeleted dels key found_seq read_seq || RDL_IsDeleted other key found_seq read_seq.
Proof.
  intros. split; [apply RDL_IsDeleted_spec|]. split; [|apply RDL_IsDeleted_app].
  unfold RDL_Add. rewrite RDL_IsDeleted_app, (RDL_IsDeleted_existsb [_]).
  simpl. rewrite orb_false_r. reflexivity.
Qed.
