(* ===== verification/Logging.v ===== *)
(** * Decimal numbers, escaping and statuses (util/logging.cc, util/status.cc)

    [snprintf] with [%llu] and [%02x] is modelled by the digits it prints.  A
    [Status] is its [state_] array: [None] for the null pointer of an OK
    status, otherwise the length, code and message bytes (the 32-bit length is
    copied in the host's order, taken to be little-endian). *)

From S2P Require Import Prelude Coding Compare.
#[local] Open Scope Z_scope.
#[local] Open Scope ldb_scope.

(** ** Numbers *)

(** The digits of [num], least significant first into [acc]; twenty digits are
    enough for 64 bits. *)

Fixpoint decimal_loop (fuel : nat) (num : Z) (acc : bytes) : bytes :=
  match fuel with
  | O => acc
  | S fuel => let acc := z2b (48 + num mod 10) :: acc in
              if num / 10 =? 0 then acc else decimal_loop fuel (num / 10) acc
  end.

Definition NumberToString (num : Z) : bytes := decimal_loop 20 num [].

Definition AppendNumberTo (s : bytes) (num : Z) : bytes := s ++ NumberToString num.

Definition hex_digit (d : Z) : byte := z2b (if d <? 10 then 48 + d else 87 + d).

(** [char] is signed: bytes from 128 fail [c >= ' ']. *)

Fixpoint AppendEscapedStringTo (s value : bytes) : bytes :=
  match value with
  | [] => s
  | c :: value =>
      if (32 <=? b2z c) && (b2z c <=? 126) then AppendEscapedStringTo (s ++ [c]) value
      else AppendEscapedStringTo
             (s ++ [z2b 92; z2b 120; hex_digit (b2z c / 16); hex_digit (b2z c mod 16)]) value
  end.

Definition EscapeString (value : bytes) : bytes := AppendEscapedStringTo [] value.

Definition kMaxUint64 : Z := 2 ^ 64 - 1.

Fixpoint ConsumeDecimalNumber_loop (value digits : Z) (current : bytes)
  : option (Z * Z * bytes) :=
  match current with
  | [] => Some (value, digits, current)
  | c :: rest =>
      let ch := b2z c in
      if (ch <? 48) || (57 <? ch) then Some (value, digits, current)
      else if (kMaxUint64 / 10 <? value) ||
              ((value =? kMaxUint64 / 10) && (48 + kMaxUint64 mod 10 <? ch)) then None
      else ConsumeDecimalNumber_loop (value * 10 + (ch - 48)) (digits + 1) rest
  end.

Definition ConsumeDecimalNumber (input : bytes) : option (Z * bytes) :=
  match ConsumeDecimalNumber_loop 0 0 input with
  | None => None
  | Some (value, digits_consumed, rest) =>
      if negb (digits_consumed =? 0) then Some (value, rest) else None
  end.

(** ** Status *)

Definition Status : Type := option bytes.

Inductive Code := kOk | kNotFound | kCorruption | kNotSupported | kInvalidArgument | kIOError.

Definition code_num (c : Code) : Z :=
  match c with
  | kOk => 0 | kNotFound => 1 | kCorruption => 2 | kNotSupported => 3
  | kInvalidArgument => 4 | kIOError => 5
  end.

Definition OK : Status := None.

Definition MakeStatus (code : Code) (msg msg2 : bytes) : Status :=
  let len1 := u32 (sz msg) in
  let len2 := u32 (sz msg2) in
  let size := u32 (len1 + (if len2 =? 0 then 0 else 2 + len2)) in
  Some (EncodeFixed32 size ++ [z2b (code_num code)] ++ msg ++
        (if len2 =? 0 then [] else [z2b 58; z2b 32] ++ msg2)).

Definition NotFound (msg msg2 : bytes) : Status := MakeStatus kNotFound msg msg2.
Definition Corruption (msg msg2 : bytes) : Status := MakeStatus kCorruption msg msg2.
Definition NotSupported (msg msg2 : bytes) : Status := MakeStatus kNotSupported msg msg2.
Definition InvalidArgument (msg msg2 : bytes) : Status := MakeStatus kInvalidArgument msg msg2.
Definition IOError (msg msg2 : bytes) : Status := MakeStatus kIOError msg msg2.

Definition ok (s : Status) : bool := match s with None => true | Some _ => false end.

Definition status_code (s : Status) : Z :=
  match s with None => 0 | Some state => buf_at state 4 end.

Definition IsNotFound (s : Status) : bool := status_code s =? code_num kNotFound.
Definition IsCorruption (s : Status) : bool := status_code s =? code_num kCorruption.
Definition IsIOError (s : Status) : bool := status_code s =? code_num kIOError.
Definition IsNotSupportedError (s : Status) : bool := status_code s =? code_num kNotSupported.
Definition IsInvalidArgument (s : Status) : bool := status_code s =? code_num kInvalidArgument.

(** [CopyState]: the message length read back sizes the copy. *)

Definition CopyState (state : bytes) : bytes :=
  take (Z.to_nat (DecodeFixed32 state + 5)) state.

Definition Status_ToString (s : Status) : bytes :=
  match s with
  | None => str "OK"
  | Some state =>
      let c := status_code s in
      let type :=
        if c =? 0 then str "OK" else if c =? 1 then str "NotFound: "
        else if c =? 2 then str "Corruption: " else if c =? 3 then str "Not implemented: "
        else if c =? 4 then str "Invalid argument: " else if c =? 5 then str "IO error: "
        else str "Unknown code(" ++ NumberToString c ++ str "): " in
      let length := DecodeFixed32 state in
      type ++ take (Z.to_nat length) (drop 5 state)
  end.

(** ** Digit strings *)

Definition is_digit (c : byte) : Prop := 48 <= b2z c <= 57.

Definition digits_val (v : Z) (ds : bytes) : Z :=
  fold_left (fun v c => v * 10 + (b2z c - 48)) ds v.

Definition no_digit_head (l : bytes) : Prop :=
  match l with c :: _ => ~ is_digit c | [] => True end.

Lemma digits_val_app v a b : digits_val v (a ++ b) = digits_val (digits_val v a) b.
Proof. apply fold_left_app. Qed.

Lemma digits_val_shift ds : forall v,
  digits_val v ds = v * 10 ^ sz ds + digits_val 0 ds.
Proof.
  induction ds as [|c ds IH]; intros v.
  { unfold digits_val, sz. simpl. lia. }
  cbn [digits_val fold_left]. fold (digits_val (v * 10 + (b2z c - 48)) ds).
  fold (digits_val (0 * 10 + (b2z c - 48)) ds).
  rewrite IH, (IH (0 * 10 + _)), sz_cons, Z.pow_add_r by (pose proof (sz_nonneg ds); lia). lia.
Qed.

Lemma digits_val_ge ds : Forall is_digit ds -> forall v, 0 <= v -> v <= digits_val v ds.
Proof.
  induction 1 as [|c ds Hc Hds IH]; intros v Hv; [unfold digits_val; simpl; lia|].
  cbn [digits_val fold_left]. fold (digits_val (v * 10 + (b2z c - 48)) ds).
  unfold is_digit in Hc. specialize (IH (v * 10 + (b2z c - 48))). lia.
Qed.

Lemma ConsumeDecimalNumber_loop_spec ds : Forall is_digit ds -> forall v d rest,
  0 <= v -> v < 2 ^ 64 -> no_digit_head rest ->
  ConsumeDecimalNumber_loop v d (ds ++ rest) =
  if digits_val v ds <? 2 ^ 64 then Some (digits_val v ds, d + sz ds, rest) else None.
Proof.
  induction 1 as [|c ds Hc Hds IH]; intros v d rest Hv0 Hv Hrest.
  - unfold digits_val, sz. simpl. rewrite (proj2 (Z.ltb_lt _ _)), Z.add_0_r by lia.
    destruct rest as [|c rest]; [reflexivity|]. simpl in Hrest. unfold is_digit in Hrest.
    simpl. destruct (Z.ltb_spec (b2z c) 48), (Z.ltb_spec 57 (b2z c)); simpl;
      (reflexivity || lia).
  - assert (Hge := digits_val_ge ds Hds (v * 10 + (b2z c - 48))). unfold is_digit in Hc.
    cbn [app ConsumeDecimalNumber_loop digits_val fold_left].
    fold (digits_val (v * 10 + (b2z c - 48)) ds).
    rewrite (proj2 (Z.ltb_ge (b2z c) 48)), (proj2 (Z.ltb_ge 57 (b2z c))) by lia.
    cbn [orb]. change (kMaxUint64 / 10) with 1844674407370955161.
    change (48 + kMaxUint64 mod 10) with 53.
    destruct (Z.ltb_spec 1844674407370955161 v), (Z.eqb_spec v 1844674407370955161),
      (Z.ltb_spec 53 (b2z c)); cbn [orb andb].
    all: try (rewrite (proj2 (Z.ltb_ge _ _)) by lia; reflexivity).
    all: try lia.
    all: rewrite IH by (assumption || lia); rewrite sz_cons, Z.add_assoc; reflexivity.
Qed.

Lemma decimal_loop_spec fuel : forall num acc,
  0 <= num < 10 ^ Z.of_nat fuel -> Forall is_digit acc -> fuel <> O ->
  Forall is_digit (decimal_loop fuel num acc) /\
  digits_val 0 (decimal_loop fuel num acc) = num * 10 ^ sz acc + digits_val 0 acc /\
  decimal_loop fuel num acc <> [].
Proof.
  induction fuel as [|fuel IH]; intros num acc Hn Hacc Hf; [congruence|].
  cbn [decimal_loop]. assert (Hm := Z.mod_pos_bound num 10 ltac:(lia)).
  assert (Hdm := Z.div_mod num 10 ltac:(lia)).
  assert (Hc : b2z (z2b (48 + num mod 10)) = 48 + num mod 10)
    by (rewrite b2z_z2b; apply u8_small; lia).
  assert (Hacc' : Forall is_digit (z2b (48 + num mod 10) :: acc))
    by (constructor; [unfold is_digit; lia|assumption]).
  assert (Hval : digits_val 0 (z2b (48 + num mod 10) :: acc)
                 = num mod 10 * 10 ^ sz acc + digits_val 0 acc).
  { cbn [digits_val fold_left]. fold (digits_val (0 * 10 + (b2z (z2b (48 + num mod 10)) - 48)) acc).
    rewrite digits_val_shift, Hc. lia. }
  destruct (Z.eqb_spec (num / 10) 0) as [E|E].
  - split; [assumption|]. split; [|discriminate]. rewrite Hval. f_equal. f_equal. lia.
  - assert (fuel <> O) by (intros ->; change (10 ^ Z.of_nat 1) with 10 in Hn;
      apply E, Z.div_small; lia).
    destruct (IH (num / 10) (z2b (48 + num mod 10) :: acc)) as (H1 & H2 & H3); auto.
    { split; [apply Z.div_pos; lia|]. apply Z.div_lt_upper_bound; [lia|].
      rewrite Nat2Z.inj_succ, Z.pow_succ_r in Hn by lia. lia. }
    split; [exact H1|]. split; [|exact H3]. rewrite H2, Hval, sz_cons, Z.pow_add_r
      by (pose proof (sz_nonneg acc); lia). nia.
Qed.

Lemma NumberToString_digits num :
  0 <= num < 2 ^ 64 ->
  Forall is_digit (NumberToString num) /\ digits_val 0 (NumberToString num) = num /\
  NumberToString num <> [].
Proof.
  intros H. unfold NumberToString.
  destruct (decimal_loop_spec 20 num []) as (H1 & H2 & H3); auto.
  - change (10 ^ Z.of_nat 20) with 100000000000000000000. lia.
  - split; [exact H1|]. split; [|exact H3]. rewrite H2. unfold digits_val, sz. simpl. lia.
Qed.

Lemma ConsumeDecimalNumber_digits ds rest :
  Forall is_digit ds -> ds <> [] -> no_digit_head rest ->
  ConsumeDecimalNumber (ds ++ rest) =
  if digits_val 0 ds <? 2 ^ 64 then Some (digits_val 0 ds, rest) else None.
Proof.
  intros Hds Hne Hr. unfold ConsumeDecimalNumber.
  rewrite ConsumeDecimalNumber_loop_spec by (assumption || lia).
  destruct (_ <? _); [|reflexivity]. rewrite Z.add_0_l.
  destruct ds as [|c ds]; [congruence|]. rewrite sz_cons.
  rewrite (proj2 (Z.eqb_neq _ 0)) by (pose proof (sz_nonneg ds); lia). reflexivity.
Qed.

Lemma MakeStatus_len msg msg2 :
  sz msg < 2 ^ 31 -> sz msg2 < 2 ^ 30 ->
  u32 (u32 (sz msg) + (if u32 (sz msg2) =? 0 then 0 else 2 + u32 (sz msg2))) =
  sz (msg ++ (if u32 (sz msg2) =? 0 then [] else [z2b 58; z2b 32] ++ msg2)).
Proof.
  intros H1 H2. pose proof (sz_nonneg msg). pose proof (sz_nonneg msg2).
  rewrite (u32_small (sz msg)), (u32_small (sz msg2)) by lia.
  destruct (Z.eqb_spec (sz msg2) 0); cbn [app]; rewrite ?sz_app, ?sz_cons, ?sz_nil.
  all: rewrite u32_small by lia; unfold sz in *; simpl; lia.
Qed.

Lemma MakeStatus_code c msg msg2 : status_code (MakeStatus c msg msg2) = code_num c.
Proof.
  unfold status_code, MakeStatus, buf_at. cbn [EncodeFixed32 app nth].
  rewrite b2z_z2b. destruct c; reflexivity.
Qed.

(** The prefix each code prints with. *)

Definition code_prefix (c : Code) : bytes :=
  match c with
  | kOk => str "OK" | kNotFound => str "NotFound: " | kCorruption => str "Corruption: "
  | kNotSupported => str "Not implemented: " | kInvalidArgument => str "Invalid argument: "
  | kIOError => str "IO error: "
  end.

(** ** Properties *)

(** Decimal numbers: a maximal run of digits is consumed exactly, with the
    value it denotes, and refused precisely when that value does not fit 64
    bits; so printing any 64-bit number and parsing it back is the identity. *)
Theorem decimal_number_spec : forall ds rest num,
  Forall is_digit ds -> ds <> [] -> no_digit_head rest -> 0 <= num < 2 ^ 64 ->
  ConsumeDecimalNumber (ds ++ rest) =
    (if digits_val 0 ds <? 2 ^ 64 then Some (digits_val 0 ds, rest) else None) /\
  ConsumeDecimalNumber (AppendNumberTo [] num ++ rest) = Some (num, rest).
Proof.
  intros ds rest num Hds Hne Hr Hn.
  split; [apply ConsumeDecimalNumber_digits; assumption|].
  destruct (NumberToString_digits num Hn) as (H1 & H2 & H3).
  unfold AppendNumberTo. rewrite app_nil_l, ConsumeDecimalNumber_digits by assumption.
  rewrite H2, (proj2 (Z.ltb_lt _ _)) by lia. reflexivity.
Qed.

Lemma decimal_number_spec_witness :
  ConsumeDecimalNumber (str "18446744073709551616" ++ str ".log") =
    (if digits_val 0 (str "18446744073709551616") <? 2 ^ 64
     then Some (digits_val 0 (str "18446744073709551616"), str ".log") else None) /\
  ConsumeDecimalNumber (AppendNumberTo [] 42 ++ str ".log") = Some (42, str ".log").
Proof.
  apply decimal_number_spec.
  - cbv [str map String.list_ascii_of_string].
    repeat (constructor; [vm_compute; split; discriminate|]). constructor.
  - discriminate.
  - vm_compute. intros [H _]. apply H. reflexivity.
  - lia.
Defined.

(** A status keeps its code and its message: each error constructor is
    reported by [code()], is not ok, survives
    [CopyState], and prints its prefix followed by both message parts. *)
Theorem status_faithful : forall c msg msg2,
  sz msg < 2 ^ 31 -> sz msg2 < 2 ^ 30 ->
  let s := MakeStatus c msg msg2 in
  ok s = false /\ status_code s = code_num c /\
  option_map CopyState s = s /\
  Status_ToString s =
    code_prefix c ++ msg ++ (if sz msg2 =? 0 then [] else str ": " ++ msg2).
Proof.
  intros c msg msg2 H1 H2 s. split; [reflexivity|]. split; [apply MakeStatus_code|].
  assert (Hc : status_code s = code_num c) by apply MakeStatus_code.
  assert (Hl := MakeStatus_len msg msg2 H1 H2). pose proof (sz_nonneg msg2).
  remember (msg ++ (if u32 (sz msg2) =? 0 then [] else [z2b 58; z2b 32] ++ msg2))
    as body eqn:Ebody.
  assert (Hb : 0 <= sz body < 2 ^ 32) by (rewrite <- Hl; apply u32_range).
  assert (Es : s = Some (EncodeFixed32 (sz body) ++ [z2b (code_num c)] ++ body)).
  { unfold s, MakeStatus. cbv zeta. rewrite Hl, Ebody. reflexivity. }
  rewrite (u32_small (sz msg2)) in Ebody by lia. split.
  - rewrite Es. cbn [option_map]. unfold CopyState. rewrite fixed32_decode, u32_small by assumption.
    rewrite take_ge; [reflexivity|]. rewrite !length_app. unfold sz in *. simpl. lia.
  - unfold Status_ToString. rewrite Hc, Es, fixed32_decode, u32_small by assumption.
    replace (drop 5 (EncodeFixed32 (sz body) ++ [z2b (code_num c)] ++ body)) with body
      by reflexivity.
    rewrite sz_to_nat, take_ge, Ebody by lia. destruct c; reflexivity.
Qed.

Lemma status_faithful_witness :
  let s := MakeStatus kCorruption (str "bad") (str "file") in
  ok s = false /\ status_code s = code_num kCorruption /\ option_map CopyState s = s /\
  Status_ToString s = code_prefix kCorruption ++ str "bad" ++
    (if sz (str "file") =? 0 then [] else str ": " ++ str "file").
Proof. apply status_faithful; vm_compute; reflexivity. Defined.
