(* ===== verification/Logger.v ===== *)
(** * The info log (util/posix_logger.h)

    [PosixLogger::Logv] prints a line into a buffer on the stack, and again into
    one of the right size when it did not fit.  A buffer is the list of its bytes,
    whatever they are at first; an access outside of it has no result. *)

From S2P Require Import Prelude Coding Compare Logging.
#[local] Open Scope Z_scope.
#[local] Open Scope ldb_scope.

(** ** Printing into a buffer *)

(** [snprintf(buffer + offset, n, ...)] of a text: at most [n - 1] bytes of it, and a
    null byte; it returns the length of the text. *)

Definition snprintf (buffer : bytes) (offset n : Z) (text : bytes) : option bytes :=
  if n <? 0 then None
  else if n =? 0 then Some buffer
  else
    let w := take (Z.to_nat (n - 1)) text ++ [Byte.x00] in
    if (0 <=? offset) && (offset + sz w <=? sz buffer)
    then Some (take (Z.to_nat offset) buffer ++ w ++ drop (Z.to_nat offset + length w) buffer)
    else None.

Definition store_byte (buffer : bytes) (i : Z) (b : byte) : option bytes :=
  if (0 <=? i) && (i <? sz buffer) then Some (<[Z.to_nat i := b]> buffer) else None.

Definition load_byte (buffer : bytes) (i : Z) : option byte := if 0 <=? i then buffer !! Z.to_nat i else None.

(** ** The header *)

(** [%0wd] of a number that is not negative *)

Definition padded (width : nat) (num : Z) : bytes := let d := NumberToString num in repeat (z2b 48) (width - length d) ++ d.

Record Tm := mkTm { tm_year : Z; tm_mon : Z; tm_mday : Z; tm_hour : Z; tm_min : Z; tm_sec : Z }.

Definition kMaxThreadIdSize : Z := 32.

Definition clipped_id (thread_id : bytes) : bytes := if kMaxThreadIdSize <? sz thread_id then take (Z.to_nat kMaxThreadIdSize) thread_id else thread_id.

Definition header (now : Tm) (usec : Z) (thread_id : bytes) : bytes :=
  padded 4 (tm_year now + 1900) ++ str "/" ++ padded 2 (tm_mon now + 1) ++ str "/" ++ padded 2 (tm_mday now) ++ str "-" ++
  padded 2 (tm_hour now) ++ str ":" ++ padded 2 (tm_min now) ++ str ":" ++ padded 2 (tm_sec now) ++ str "." ++ padded 6 usec ++ str " " ++
  clipped_id thread_id ++ str " ".

(** ** [Logv] *)

Definition kStackBufferSize : Z := 512.

(** The end of an iteration: a newline if there is none, and what is written. *)

Definition Logv_write (buffer : bytes) (buffer_offset : Z) : option bytes :=
  match load_byte buffer (buffer_offset - 1) with
  | None => None
  | Some c =>
      if decide (c = z2b 10) then Some (take (Z.to_nat buffer_offset) buffer)
      else option_map (fun b => take (Z.to_nat (buffer_offset + 1)) b) (store_byte buffer buffer_offset (z2b 10))
  end.

(** An iteration: the size of the second buffer, or the line that is written. *)

Definition Logv_iteration (iteration : nat) (buffer hdr message : bytes) : option (Z + bytes) :=
  let buffer_size := sz buffer in
  match snprintf buffer 0 buffer_size hdr with
  | None => None
  | Some buffer =>
      let buffer_offset := sz hdr in
      match snprintf buffer buffer_offset (buffer_size - buffer_offset) message with
      | None => None
      | Some buffer =>
          let buffer_offset := s32 (buffer_offset + sz message) in
          if buffer_size - 1 <=? buffer_offset then
            if (iteration =? 0)%nat then Some (inl (s32 (buffer_offset + 2)))
            else option_map inr (Logv_write buffer (buffer_size - 1))
          else option_map inr (Logv_write buffer buffer_offset)
      end
  end.

(** [stack]: the buffer on the stack; [allocate]: the new buffer of a size. *)

Definition Logv (stack : bytes) (allocate : Z -> bytes) (now : Tm) (usec : Z) (thread_id message : bytes) : option bytes :=
  let hdr := header now usec thread_id in
  match Logv_iteration 0 stack hdr message with
  | None => None
  | Some (inr line) => Some line
  | Some (inl size) =>
      match Logv_iteration 1 (allocate size) hdr message with
      | Some (inr line) => Some line
      | _ => None
      end
  end.

(** ** The length of the header *)

Lemma decimal_loop_length fuel : forall num acc k, 0 <= num < 10 ^ Z.of_nat k -> (0 < k)%nat -> (length (decimal_loop fuel num acc) <= k + length acc)%nat.
Proof.
  induction fuel as [|fuel IH]; intros num acc k Hn Hk; [cbn; lia|]. cbn [decimal_loop]. destruct (Z.eqb_spec (num / 10) 0) as [|Hne]; [cbn; lia|].
  destruct k as [|k]; [lia|]. assert (Hd : 0 <= num / 10 < 10 ^ Z.of_nat k).
  { rewrite Nat2Z.inj_succ, Z.pow_succ_r in Hn by lia. split; [apply Z.div_pos; lia|apply Z.div_lt_upper_bound; lia]. }
  destruct k as [|k]; [change (10 ^ Z.of_nat 0) with 1 in Hd; lia|]. specialize (IH (num / 10) (z2b (48 + num mod 10) :: acc) (S k) Hd ltac:(lia)). cbn [length] in IH. lia.
Qed.

Lemma padded_size k num : 0 <= num < 10 ^ Z.of_nat k -> (0 < k)%nat -> sz (padded k num) = Z.of_nat k.
Proof.
  intros Hn Hk. unfold padded, sz. pose proof (decimal_loop_length 20 num [] k Hn Hk) as HL. cbn [length] in HL. unfold NumberToString. rewrite length_app, repeat_length. lia.
Qed.

(** A date and a time of four digits for the year. *)

Record tm_ok (now : Tm) (usec : Z) : Prop := {
  to_year : 0 <= tm_year now + 1900 < 10000;
  to_mon : 0 <= tm_mon now < 12;
  to_mday : 0 <= tm_mday now < 32;
  to_hour : 0 <= tm_hour now < 24;
  to_min : 0 <= tm_min now < 60;
  to_sec : 0 <= tm_sec now < 61;
  to_usec : 0 <= usec < 1000000
}.

Lemma clipped_size t : sz (clipped_id t) <= 32.
Proof. unfold clipped_id, kMaxThreadIdSize. destruct (Z.ltb_spec 32 (sz t)) as [H|H]; [|lia]. unfold sz. rewrite length_take. lia. Qed.

Lemma header_size now usec t : tm_ok now usec -> 28 <= sz (header now usec t) <= 28 + kMaxThreadIdSize.
Proof.
  intros []. unfold header. rewrite !sz_app. rewrite (padded_size 4), !(padded_size 2), (padded_size 6)
    by first [lia|change (10 ^ Z.of_nat 4) with 10000; lia|change (10 ^ Z.of_nat 2) with 100; lia|change (10 ^ Z.of_nat 6) with 1000000; lia].
  pose proof (clipped_size t). pose proof (sz_nonneg (clipped_id t)). unfold kMaxThreadIdSize.
  change (sz (str "/")) with 1. change (sz (str "-")) with 1. change (sz (str ":")) with 1. change (sz (str ".")) with 1. change (sz (str " ")) with 1. lia.
Qed.

(** ** The buffer *)

(** Printing behind what is there, into all that is left. *)

Lemma snprintf_behind p rest text : rest <> [] ->
  snprintf (p ++ rest) (sz p) (sz (p ++ rest) - sz p) text =
  Some (p ++ take (length rest - 1) text ++ [Byte.x00] ++ drop (length (take (length rest - 1) text) + 1) rest).
Proof.
  intros Hr. assert (Hl : (0 < length rest)%nat) by (destruct rest; [contradiction|cbn; lia]). unfold snprintf. rewrite sz_app.
  assert (E : sz p + sz rest - sz p = sz rest) by lia. rewrite E. rewrite (proj2 (Z.ltb_ge _ _)) by (unfold sz; lia). rewrite (proj2 (Z.eqb_neq _ _)) by (unfold sz; lia).
  replace (Z.to_nat (sz rest - 1)) with (length rest - 1)%nat by (unfold sz; lia). cbv zeta. set (t := take (length rest - 1) text).
  assert (Ht : (length t <= length rest - 1)%nat) by (unfold t; rewrite length_take; lia).
  rewrite (proj2 (Z.leb_le _ _)) by apply sz_nonneg. rewrite (proj2 (Z.leb_le _ _)) by (unfold sz; rewrite !length_app; cbn [length]; lia). cbn [andb]. f_equal.
  unfold sz. rewrite Nat2Z.id, take_app_length. f_equal. rewrite <- app_assoc. f_equal. f_equal. rewrite drop_app_ge by (rewrite !length_app; lia). f_equal. rewrite length_app. cbn [length]. lia.
Qed.

(** The line: what was printed, with a newline at its end. *)

Definition terminated (line : bytes) : bytes := if decide (list.last line = Some (z2b 10)) then line else line ++ [z2b 10].

Lemma Logv_write_line line c tail : line <> [] -> Logv_write (line ++ c :: tail) (sz line) = Some (terminated line).
Proof.
  intros Hne. destruct (exists_last Hne) as (l & x & ->). clear Hne. unfold Logv_write, load_byte, terminated.
  assert (HS : sz (l ++ [x]) = sz l + 1) by (rewrite sz_app; reflexivity). pose proof (sz_nonneg l) as Hnn.
  rewrite HS, (proj2 (Z.leb_le _ _)) by lia. replace (Z.to_nat (sz l + 1 - 1)) with (length l) by (unfold sz; lia).
  rewrite <- app_assoc. cbn [app]. rewrite list_lookup_middle by reflexivity. rewrite last_snoc. destruct (decide (x = z2b 10)) as [->|Hx].
  - rewrite decide_True by reflexivity. f_equal. change (z2b 10 :: c :: tail) with ([z2b 10] ++ c :: tail). rewrite app_assoc. apply take_app_length'. rewrite length_app. unfold sz. cbn. lia.
  - rewrite decide_False by congruence. unfold store_byte. rewrite sz_app, !sz_cons, (proj2 (Z.leb_le _ _)) by lia. pose proof (sz_nonneg tail).
    rewrite (proj2 (Z.ltb_lt _ _)) by lia. cbn [andb option_map]. f_equal. change (x :: c :: tail) with ([x] ++ c :: tail). rewrite app_assoc.
    rewrite insert_app_r_alt by (rewrite length_app; unfold sz; cbn; lia). replace (Z.to_nat (sz l + 1) - length (l ++ [x]))%nat with O by (rewrite length_app; unfold sz; cbn; lia).
    cbn [list_insert insert]. change (z2b 10 :: tail) with ([z2b 10] ++ tail). rewrite app_assoc. apply take_app_length'. rewrite !length_app. unfold sz. cbn. lia.
Qed.

(** One iteration on a buffer that has room for the header. *)

Lemma Logv_iteration_ok i buffer hdr message : hdr <> [] -> sz hdr < sz buffer -> sz hdr + sz message + 2 < 2 ^ 31 ->
  if sz buffer - 1 <=? sz hdr + sz message
  then i = 0%nat -> Logv_iteration i buffer hdr message = Some (inl (sz hdr + sz message + 2))
  else Logv_iteration i buffer hdr message = Some (inr (terminated (hdr ++ message))).
Proof.
  intros Hne Hfit Hsmall. pose proof (sz_nonneg hdr) as H0. pose proof (sz_nonneg message) as H1. unfold Logv_iteration.
  assert (Hb : buffer <> []) by (intros ->; change (sz (@nil byte)) with 0 in Hfit; lia).
  pose proof (snprintf_behind [] buffer hdr Hb) as E1. cbn [app] in E1. change (sz (@nil byte)) with 0 in E1. rewrite Z.sub_0_r in E1. rewrite E1. clear E1. cbv beta iota zeta.
  rewrite (take_ge hdr) by (unfold sz in *; lia). set (rest := Byte.x00 :: drop (length hdr + 1) buffer).
  assert (Hr : rest <> []) by discriminate. assert (Hlr : (length rest = length buffer - length hdr)%nat) by (unfold rest; cbn [length]; rewrite length_drop; unfold sz in *; lia).
  pose proof (snprintf_behind hdr rest message Hr) as E2. assert (ES : sz (hdr ++ rest) = sz buffer) by (unfold sz in *; rewrite length_app, Hlr; lia). rewrite ES in E2. rewrite E2. clear E2. cbv beta iota zeta.
  assert (Hmax : 2 ^ 31 = 2147483648) by reflexivity. rewrite (s32_small (sz hdr + sz message)) by lia. destruct (Z.leb_spec (sz buffer - 1) (sz hdr + sz message)) as [Hl|Hl].
  - intros ->. cbn [Nat.eqb]. rewrite s32_small by lia. reflexivity.
  - rewrite (take_ge message) by (unfold sz in *; lia). cbn [app]. rewrite app_assoc. rewrite <- sz_app, Logv_write_line; [reflexivity|]. destruct hdr; [contradiction|discriminate].
Qed.

(** C32.  The logger stays inside its buffers.  Whatever the message, as long as the line is
    shorter than 2^31, and whatever bytes the buffers hold at first, Logv writes one line: the date,
    the time, the thread (clipped to 32 bytes) and the message as a whole, followed by a newline
    unless the message ends in one; every byte it reads or writes is inside the buffer of 512 bytes on the
    stack or the second one, for which the size computed in the first iteration is always enough. *)
Theorem logger_writes_line (stack : bytes) (allocate : Z -> bytes) (now : Tm) (usec : Z) (thread_id message : bytes) :
  sz stack = kStackBufferSize -> (forall n, 0 <= n -> sz (allocate n) = n) -> tm_ok now usec -> sz message < 2 ^ 31 - 62 ->
  Logv stack allocate now usec thread_id message = Some (terminated (header now usec thread_id ++ message)).
Proof.
  intros Hs Ha Ht Hm. pose proof (header_size now usec thread_id Ht) as Hh. unfold kMaxThreadIdSize, kStackBufferSize in *. unfold Logv. set (hdr := header now usec thread_id) in *. clearbody hdr.
  pose proof (sz_nonneg message) as H0. assert (Hne : hdr <> []) by (intros ->; change (sz (@nil byte)) with 0 in Hh; lia).
  pose proof (Logv_iteration_ok 0 stack hdr message Hne ltac:(lia) ltac:(lia)) as H1. destruct (sz stack - 1 <=? sz hdr + sz message); [|rewrite H1; reflexivity].
  rewrite (H1 eq_refl). pose proof (Ha (sz hdr + sz message + 2) ltac:(lia)) as Hd.
  pose proof (Logv_iteration_ok 1 (allocate (sz hdr + sz message + 2)) hdr message Hne ltac:(lia) ltac:(lia)) as H2. rewrite Hd in H2.
  destruct (Z.leb_spec (sz hdr + sz message + 2 - 1) (sz hdr + sz message)); [lia|]. rewrite H2. reflexivity.
Qed.

Lemma logger_writes_line_witness :
  Logv (repeat Byte.xff 512) (fun n => repeat Byte.xff (Z.to_nat n)) (mkTm 125 0 31 23 59 60) 7 (str "1400") (str "Recovering log #3") =
    Some (str "2025/01/31-23:59:60.000007 1400 Recovering log #3" ++ [z2b 10]) /\
  option_map sz (Logv (repeat Byte.xff 512) (fun n => repeat Byte.xff (Z.to_nat n)) (mkTm 125 0 31 23 59 60) 7 (str "1400") (repeat (z2b 120) 600)) = Some 633.
Proof.
  rewrite !logger_writes_line; try (split; cbn; lia); try reflexivity.
  - split; vm_compute; reflexivity.
  - intros n Hn. unfold sz. rewrite repeat_length. lia.
  - intros n Hn. unfold sz. rewrite repeat_length. lia.
Defined.
