(* ===== verification/FileName.v ===== *)
(** * File names (db/filename.cc)

    The names of the files of a database and their parser. *)

From S2P Require Import Prelude Coding Compare Logging.
#[local] Open Scope Z_scope.
#[local] Open Scope ldb_scope.

Inductive FileType :=
| kLogFile | kDBLockFile | kTableFile | kDescriptorFile | kCurrentFile | kTempFile
| kInfoLogFile.

#[global] Instance FileType_eq_dec : EqDecision FileType.
Proof. solve_decision. Defined.

(** [%06llu]: at least six digits, padded with zeros. *)

Definition decimal6 (number : Z) : bytes :=
  let d := NumberToString number in repeat (z2b 48) (6 - length d) ++ d.

Definition MakeFileName (dbname : bytes) (number : Z) (suffix : bytes) : bytes :=
  dbname ++ str "/" ++ decimal6 number ++ str "." ++ suffix.

Definition LogFileName (dbname : bytes) (number : Z) : bytes :=
  MakeFileName dbname number (str "log").

Definition TableFileName (dbname : bytes) (number : Z) : bytes :=
  MakeFileName dbname number (str "ldb").

Definition SSTTableFileName (dbname : bytes) (number : Z) : bytes :=
  MakeFileName dbname number (str "sst").

Definition DescriptorFileName (dbname : bytes) (number : Z) : bytes :=
  dbname ++ str "/MANIFEST-" ++ decimal6 number.

Definition CurrentFileName (dbname : bytes) : bytes := dbname ++ str "/CURRENT".

Definition LockFileName (dbname : bytes) : bytes := dbname ++ str "/LOCK".

Definition TempFileName (dbname : bytes) (number : Z) : bytes :=
  MakeFileName dbname number (str "dbtmp").

Definition InfoLogFileName (dbname : bytes) : bytes := dbname ++ str "/LOG".

Definition OldInfoLogFileName (dbname : bytes) : bytes := dbname ++ str "/LOG.old".

Definition ParseFileName (filename : bytes) : option (Z * FileType) :=
  let rest := filename in
  if Slice_eq rest (str "CURRENT") then Some (0, kCurrentFile)
  else if Slice_eq rest (str "LOCK") then Some (0, kDBLockFile)
  else if Slice_eq rest (str "LOG") || Slice_eq rest (str "LOG.old")
  then Some (0, kInfoLogFile)
  else if Slice_starts_with rest (str "MANIFEST-") then
    match ConsumeDecimalNumber (Slice_remove_prefix rest (sz (str "MANIFEST-"))) with
    | None => None
    | Some (num, rest) => if sz rest =? 0 then Some (num, kDescriptorFile) else None
    end
  else
    match ConsumeDecimalNumber rest with
    | None => None
    | Some (num, suffix) =>
        if Slice_eq suffix (str ".log") then Some (num, kLogFile)
        else if Slice_eq suffix (str ".sst") || Slice_eq suffix (str ".ldb")
        then Some (num, kTableFile)
        else if Slice_eq suffix (str ".dbtmp") then Some (num, kTempFile)
        else None
    end.

(** ** Lemmas *)

Lemma digits_val_zeros n ds : digits_val 0 (repeat (z2b 48) n ++ ds) = digits_val 0 ds.
Proof.
  induction n as [|n IH]; [reflexivity|]. cbn [repeat app digits_val fold_left].
  exact IH.
Qed.

Lemma decimal6_digits number :
  0 <= number < 2 ^ 64 ->
  Forall is_digit (decimal6 number) /\ digits_val 0 (decimal6 number) = number /\
  decimal6 number <> [].
Proof.
  intros H. destruct (NumberToString_digits number H) as (H1 & H2 & H3).
  unfold decimal6. cbv zeta. rewrite digits_val_zeros. split; [|split; [exact H2|]].
  - apply Forall_app. split; [|exact H1]. apply List.Forall_forall. intros x Hx.
    apply repeat_spec in Hx as ->. vm_compute. split; discriminate.
  - intros E. apply app_eq_nil in E as [_ E]. auto.
Qed.

Lemma consume_decimal6 number rest :
  0 <= number < 2 ^ 64 -> no_digit_head rest ->
  ConsumeDecimalNumber (decimal6 number ++ rest) = Some (number, rest).
Proof.
  intros H Hr. destruct (decimal6_digits number H) as (H1 & H2 & H3).
  rewrite ConsumeDecimalNumber_digits, H2 by assumption.
  rewrite (proj2 (Z.ltb_lt _ _)) by lia. reflexivity.
Qed.

(** A name that starts with a digit is none of the fixed names. *)

Lemma parse_numbered number suffix ty :
  0 <= number < 2 ^ 64 -> no_digit_head suffix ->
  (if Slice_eq suffix (str ".log") then Some (number, kLogFile)
   else if Slice_eq suffix (str ".sst") || Slice_eq suffix (str ".ldb")
   then Some (number, kTableFile)
   else if Slice_eq suffix (str ".dbtmp") then Some (number, kTempFile) else None) = Some ty ->
  ParseFileName (decimal6 number ++ suffix) = Some ty.
Proof.
  intros H Hs Ht. unfold ParseFileName. rewrite consume_decimal6 by assumption.
  destruct (decimal6_digits number H) as (Hd & _ & Hne).
  destruct (decimal6 number) as [|c ds]; [congruence|]. apply Forall_inv in Hd as Hc.
  assert (L : forall x, match x with b :: _ => (57 <? b2z b) = true | [] => False end ->
    Slice_eq ((c :: ds) ++ suffix) x = false /\ Slice_starts_with ((c :: ds) ++ suffix) x = false).
  { intros [|b x] Hx; [contradiction|]. apply Z.ltb_lt in Hx. unfold is_digit in Hc.
    split; apply not_true_is_false; intros E;
      [apply Slice_eq_spec in E | apply Slice_starts_with_spec in E as (t & E)];
      injection E as -> _; lia. }
  rewrite (proj1 (L (str "CURRENT") eq_refl)), (proj1 (L (str "LOCK") eq_refl)),
    (proj1 (L (str "LOG") eq_refl)), (proj1 (L (str "LOG.old") eq_refl)),
    (proj2 (L (str "MANIFEST-") eq_refl)). exact Ht.
Qed.

Lemma parse_manifest number :
  0 <= number < 2 ^ 64 ->
  ParseFileName (str "MANIFEST-" ++ decimal6 number) = Some (number, kDescriptorFile).
Proof.
  intros H. unfold ParseFileName.
  assert (L : forall x, match x with b :: _ => (b2z b =? 77) = false | [] => False end ->
    Slice_eq (str "MANIFEST-" ++ decimal6 number) x = false).
  { intros [|b x] Hx; [contradiction|]. apply not_true_is_false. intros E.
    apply Slice_eq_spec in E. injection E as <- _. discriminate Hx. }
  rewrite (L (str "CURRENT") eq_refl), (L (str "LOCK") eq_refl), (L (str "LOG") eq_refl),
    (L (str "LOG.old") eq_refl). cbn [orb].
  rewrite (proj2 (Slice_starts_with_spec _ (str "MANIFEST-"))) by eauto.
  unfold Slice_remove_prefix. rewrite drop_sz_app.
  rewrite <- (app_nil_r (decimal6 number)), consume_decimal6 by (exact I || assumption).
  reflexivity.
Qed.

(** ** Properties *)

(** File names round trip: the last component of every numbered file name
    the database creates parses back to its number and type, for the log,
    table, old table, temporary and manifest names, and the fixed names parse
    to their types. *)
Theorem filename_roundtrip : forall dbname n,
  0 <= n < 2 ^ 64 ->
  Forall (fun '(full, ty) => exists base,
            full = dbname ++ str "/" ++ base /\ ParseFileName base = Some (n, ty))
    [(LogFileName dbname n, kLogFile); (TableFileName dbname n, kTableFile);
     (SSTTableFileName dbname n, kTableFile); (TempFileName dbname n, kTempFile);
     (DescriptorFileName dbname n, kDescriptorFile)] /\
  Forall (fun '(full, ty) => exists base,
            full = dbname ++ str "/" ++ base /\ ParseFileName base = Some (0, ty))
    [(CurrentFileName dbname, kCurrentFile); (LockFileName dbname, kDBLockFile);
     (InfoLogFileName dbname, kInfoLogFile); (OldInfoLogFileName dbname, kInfoLogFile)].
Proof.
  intros dbname n H. split.
  - repeat apply List.Forall_cons; try apply List.Forall_nil.
    5: exists (str "MANIFEST-" ++ decimal6 n); split; [reflexivity|];
       apply parse_manifest; exact H.
    all: eexists; (split; [unfold LogFileName, TableFileName, SSTTableFileName, TempFileName,
      MakeFileName; reflexivity|]); apply parse_numbered; [exact H| |reflexivity];
      vm_compute; intros [Hx _]; apply Hx; reflexivity.
  - repeat apply List.Forall_cons; try apply List.Forall_nil; eexists; split; reflexivity.
Qed.

Lemma filename_roundtrip_witness :
  Forall (fun '(full, ty) => exists base,
            full = str "db" ++ str "/" ++ base /\ ParseFileName base = Some (7, ty))
    [(LogFileName (str "db") 7, kLogFile); (TableFileName (str "db") 7, kTableFile);
     (SSTTableFileName (str "db") 7, kTableFile); (TempFileName (str "db") 7, kTempFile);
     (DescriptorFileName (str "db") 7, kDescriptorFile)] /\
  Forall (fun '(full, ty) => exists base,
            full = str "db" ++ str "/" ++ base /\ ParseFileName base = Some (0, ty))
    [(CurrentFileName (str "db"), kCurrentFile); (LockFileName (str "db"), kDBLockFile);
     (InfoLogFileName (str "db"), kInfoLogFile);
     (OldInfoLogFileName (str "db"), kInfoLogFile)].
Proof. apply (filename_roundtrip (str "db") 7). lia. Defined.
