(* ===== verification/SkipList.v ===== *)
(** * Random numbers and the skip list (util/random.h, db/skiplist.h)

    The skip list is a heap of nodes, each with its key and its array of next
    pointers; a node pointer is the node's index in allocation order and the
    head is node 0.  The theorems show that the multi-level search and insertion
    implement a strictly sorted list of keys.  Memory barriers are not
    modelled: the operations are those of the (externally synchronised)
    writer, and of readers between its operations. *)

From S2P Require Import Prelude.
#[local] Open Scope Z_scope.
#[local] Open Scope ldb_scope.

(** ** Random *)

Definition Random := Z.   (* seed_ *)

Definition Random_new (s : Z) : Random :=
  let seed := s .& 2147483647 in
  if (seed =? 0) || (seed =? 2147483647) then 1 else seed.

Definition Random_Next (seed : Random) : Z * Random :=
  let M := 2147483647 in
  let A := 16807 in
  let product := u64 (seed * A) in
  let seed := u32 ((product >> 31) + (product .& M)) in
  let seed := if M <? seed then seed - M else seed in
  (seed, seed).

Definition Random_Uniform (r : Random) (n : Z) : Z * Random :=
  let '(v, r) := Random_Next r in (v mod n, r).

Definition Random_OneIn (r : Random) (n : Z) : bool * Random :=
  let '(v, r) := Random_Next r in (v mod n =? 0, r).

(** ** The data structure *)

Definition kMaxHeight : nat := 12.

Section SkipList.
Context {Key : Type} (compare : Key -> Key -> Z).

Record Node := mkNode {
  node_key : option Key;             (* None for the head: "any key will do" *)
  node_next : list (option nat)
}.

Record SkipList := mkSkipList {
  nodes : list Node;
  max_height : nat;
  rnd : Random
}.

Definition head : nat := 0.

Definition SkipList_new : SkipList :=
  mkSkipList [mkNode None (replicate kMaxHeight None)] 1 (Random_new 3735928559).

(** [x->Next(n)] *)

Definition Next (ns : list Node) (x n : nat) : option nat :=
  match ns !! x with Some nd => default None (node_next nd !! n) | None => None end.

(** [x->SetNext(n, y)] *)

Definition SetNext (ns : list Node) (x n : nat) (y : option nat) : list Node :=
  alter (fun nd => mkNode (node_key nd) (<[n := y]> (node_next nd))) x ns.

Definition key_of (ns : list Node) (x : nat) : option Key :=
  match ns !! x with Some nd => node_key nd | None => None end.

(** [compare_(n->key, key) < 0], for a node that is not the head. *)

Definition key_before (ns : list Node) (n : nat) (key : Key) : bool :=
  match key_of ns n with Some nk => compare nk key <? 0 | None => false end.

Definition KeyIsAfterNode (ns : list Node) (key : Key) (n : option nat) : bool :=
  match n with None => false | Some n => key_before ns n key end.

(** Each turn of a search moves right or down: the number of nodes plus the
    height bounds the turns. *)

Definition search_fuel (s : SkipList) : nat := length (nodes s) + max_height s.

Fixpoint FindGreaterOrEqual_loop (fuel : nat) (ns : list Node) (key : Key)
    (x level : nat) (prev : list nat) : option (option nat * list nat) :=
  match fuel with
  | O => None
  | S fuel =>
      let next := Next ns x level in
      if KeyIsAfterNode ns key next
      then FindGreaterOrEqual_loop fuel ns key (default x next) level prev
      else
        let prev := <[level := x]> prev in
        match level with
        | O => Some (next, prev)
        | S level => FindGreaterOrEqual_loop fuel ns key x level prev
        end
  end.

Definition FindGreaterOrEqual (s : SkipList) (key : Key) (prev : list nat)
  : option (option nat * list nat) :=
  FindGreaterOrEqual_loop (search_fuel s) (nodes s) key head (max_height s - 1) prev.

Fixpoint FindLessThan_loop (fuel : nat) (ns : list Node) (key : Key) (x level : nat)
  : option nat :=
  match fuel with
  | O => None
  | S fuel =>
      let next := Next ns x level in
      if negb (KeyIsAfterNode ns key next)   (* null, or compare_ >= 0 *)
      then match level with
           | O => Some x
           | S level => FindLessThan_loop fuel ns key x level
           end
      else FindLessThan_loop fuel ns key (default x next) level
  end.

Definition FindLessThan (s : SkipList) (key : Key) : option nat :=
  FindLessThan_loop (search_fuel s) (nodes s) key head (max_height s - 1).

Fixpoint FindLast_loop (fuel : nat) (ns : list Node) (x level : nat) : option nat :=
  match fuel with
  | O => None
  | S fuel =>
      match Next ns x level with
      | None => match level with O => Some x | S level => FindLast_loop fuel ns x level end
      | Some n => FindLast_loop fuel ns n level
      end
  end.

Definition FindLast (s : SkipList) : option nat :=
  FindLast_loop (search_fuel s) (nodes s) head (max_height s - 1).

(** [while (height < kMaxHeight && rnd_.OneIn(kBranching)) height++] *)

Fixpoint RandomHeight_loop (fuel height : nat) (r : Random) : nat * Random :=
  match fuel with
  | O => (height, r)
  | S fuel =>
      if (height <? kMaxHeight)%nat then
        let '(b, r) := Random_OneIn r 4 in
        if b then RandomHeight_loop fuel (S height) r else (height, r)
      else (height, r)
  end.

Definition RandomHeight (r : Random) : nat * Random := RandomHeight_loop kMaxHeight 1 r.

(** The final loop of Insert: link [x] in at levels [i .. i+n-1]. *)

Fixpoint Insert_link (n i x : nat) (prev : list nat) (ns : list Node) : list Node :=
  match n with
  | O => ns
  | S n =>
      let p := default head (prev !! i) in
      let ns := SetNext ns x i (Next ns p i) in
      let ns := SetNext ns p i (Some x) in
      Insert_link n (S i) x prev ns
  end.

Definition NewNode (ns : list Node) (key : Key) (height : nat) : nat * list Node :=
  (length ns, ns ++ [mkNode (Some key) (replicate height None)]).

(** [for (int i = GetMaxHeight(); i < height; i++) prev[i] = head_] *)

Fixpoint prev_heads (n i : nat) (prev : list nat) : list nat :=
  match n with O => prev | S n => prev_heads n (S i) (<[i := head]> prev) end.

Definition Insert (s : SkipList) (key : Key) : option SkipList :=
  match FindGreaterOrEqual s key (replicate kMaxHeight head) with
  | None => None
  | Some (_, prev) =>
      let '(height, r) := RandomHeight (rnd s) in
      let prev := prev_heads (height - max_height s) (max_height s) prev in
      let mh := if (max_height s <? height)%nat then height else max_height s in
      let '(x, ns) := NewNode (nodes s) key height in
      Some (mkSkipList (Insert_link height 0 x prev ns) mh r)
  end.

Definition Contains (s : SkipList) (key : Key) : option bool :=
  match FindGreaterOrEqual s key (replicate kMaxHeight head) with
  | None => None
  | Some (Some x, _) =>
      Some (match key_of (nodes s) x with Some k => compare key k =? 0 | None => false end)
  | Some (None, _) => Some false
  end.

(** ** The iterator: [node_] *)

Definition Iter := option nat.

Definition Iter_Valid (it : Iter) : bool := match it with Some _ => true | None => false end.

Definition Iter_key (s : SkipList) (it : Iter) : option Key :=
  match it with Some n => key_of (nodes s) n | None => None end.

Definition Iter_Next (s : SkipList) (it : Iter) : Iter :=
  match it with Some n => Next (nodes s) n 0 | None => None end.

Definition head_to_null (n : option nat) : Iter :=
  match n with Some x => if decide (x = head) then None else Some x | None => None end.

Definition Iter_Prev (s : SkipList) (it : Iter) : Iter :=
  match Iter_key s it with Some k => head_to_null (FindLessThan s k) | None => None end.

Definition Iter_Seek (s : SkipList) (target : Key) : Iter :=
  match FindGreaterOrEqual s target (replicate kMaxHeight head) with
  | Some (n, _) => n
  | None => None
  end.

Definition Iter_SeekToFirst (s : SkipList) : Iter := Next (nodes s) head 0.

Definition Iter_SeekToLast (s : SkipList) : Iter := head_to_null (FindLast s).

(** ** Paths, and the invariant *)

(** The nodes after [x] on the list of one level. *)

Inductive Path (ns : list Node) (l : nat) : nat -> list nat -> Prop :=
| Path_nil x : Next ns x l = None -> Path ns l x []
| Path_cons x y ys : Next ns x l = Some y -> Path ns l y ys -> Path ns l x (y :: ys).

Definition node_lt (ns : list Node) (x y : nat) : Prop :=
  match key_of ns x, key_of ns y with
  | Some kx, Some ky => compare kx ky < 0
  | _, _ => False
  end.

Definition has_key (ns : list Node) (x : nat) : Prop := is_Some (key_of ns x).

(** [C l] is the list of level [l]. *)

Record Inv (s : SkipList) (C : nat -> list nat) : Prop := {
  inv_path l : (l < kMaxHeight)%nat -> Path (nodes s) l head (C l);
  inv_sub l : sublist (C (S l)) (C l);
  inv_high l : (max_height s <= l)%nat -> C l = [];
  inv_sorted : StronglySorted (node_lt (nodes s)) (C 0%nat);
  inv_keys : Forall (has_key (nodes s)) (C 0%nat);
  inv_height : (1 <= max_height s <= kMaxHeight)%nat;
  inv_len x nd l : x = head \/ x ∈ C l -> nodes s !! x = Some nd ->
    (l < kMaxHeight)%nat -> (l < length (node_next nd))%nat;
  inv_head : exists nd, nodes s !! head = Some nd /\ node_key nd = None;
  inv_bound : (length (C 0%nat) < length (nodes s))%nat
}.

(** The keys of the list, in order. *)

Definition keys (ns : list Node) (xs : list nat) : list Key :=
  omap (key_of ns) xs.

Lemma keys_cons ns x xs :
  keys ns (x :: xs) = match key_of ns x with Some k => k :: keys ns xs | None => keys ns xs end.
Proof. reflexivity. Qed.

Hypothesis compare_trans : forall a b c, compare a b < 0 -> compare b c < 0 -> compare a c < 0.
Hypothesis compare_sgn : forall a b, Z.sgn (compare b a) = - Z.sgn (compare a b).

Section Search.
Context (s : SkipList) (C : nat -> list nat) (HI : Inv s C) (key : Key).

#[local] Abbreviation ns := (nodes s).

Definition before (x : nat) : bool := key_before ns x key.

Definition lows (l : nat) : list nat := List.filter before (C l).
Definition highs (l : nat) : list nat := List.filter (fun x => negb (before x)) (C l).

Lemma sub_level l : sublist (C l) (C 0%nat).
Proof.
  induction l as [|l IH]; [reflexivity|]. transitivity (C l); [apply (inv_sub _ _ HI)|exact IH].
Qed.


Lemma level_sorted l : StronglySorted (node_lt ns) (C l).
Proof. eapply StronglySorted_sublist; [apply sub_level|apply (inv_sorted _ _ HI)]. Qed.

Lemma before_down x y : node_lt ns x y -> before y = true -> before x = true.
Proof.
  unfold node_lt, before, key_before.
  destruct (key_of ns x) as [kx|], (key_of ns y) as [ky|]; try contradiction.
  rewrite !Z.ltb_lt. eauto.
Qed.

Lemma level_split l : C l = lows l ++ highs l.
Proof. apply (sorted_split (node_lt ns)); eauto using before_down, level_sorted. Qed.

Lemma lows_sub l : sublist (lows (S l)) (lows l).
Proof.
  unfold lows. pose proof (inv_sub _ _ HI l) as H. induction H as [|x l1 l2 H IH|x l1 l2 H IH];
    simpl; [constructor| |]; destruct (before x); auto using sublist.
Qed.

(** The order of the nodes, the head first. *)

Definition nlt (x y : nat) : Prop := (x = head /\ has_key ns y) \/ node_lt ns x y.

Lemma head_no_key : key_of ns head = None.
Proof. destruct (inv_head _ _ HI) as (nd & H & Hk). unfold key_of. rewrite H. exact Hk. Qed.

Lemma nlt_asym a b : nlt a b -> nlt b a -> False.
Proof.
  unfold nlt, node_lt, has_key. pose proof head_no_key as Hh.
  intros [[-> H1]|H1] [[-> H2]|H2]; rewrite ?Hh in *.
  - destruct H1; discriminate.
  - destruct (key_of ns b); contradiction.
  - destruct (key_of ns a); contradiction.
  - destruct (key_of ns a) as [ka|], (key_of ns b) as [kb|]; try contradiction.
    pose proof (compare_sgn ka kb). lia.
Qed.

Lemma C_keys l y : In y (C l) -> has_key ns y.
Proof.
  intros Hy. pose proof (inv_keys _ _ HI) as H. rewrite List.Forall_forall in H. apply H.
  apply list_elem_of_In. eapply elem_of_sublist; [|apply (sub_level l)].
  apply list_elem_of_In, Hy.
Qed.

Lemma full_sorted xs l : sublist xs (C l) -> StronglySorted nlt (head :: xs).
Proof.
  intros Hs. constructor.
  - eapply StronglySorted_sublist in Hs; [|apply level_sorted].
    clear -Hs. induction Hs as [|x l H IH HF]; constructor; auto.
    eapply List.Forall_impl; [|exact HF]. intros y Hy. right. exact Hy.
  - apply List.Forall_forall. intros y Hy. left. split; [reflexivity|].
    apply (C_keys l), list_elem_of_In. eapply elem_of_sublist; [|exact Hs].
    apply list_elem_of_In, Hy.
Qed.

Lemma lows_sublist l : sublist (lows l) (C l).
Proof.
  unfold lows. induction (C l) as [|x xs IH]; simpl; [constructor|].
  destruct (before x); auto using sublist.
Qed.

Lemma Path_suffix nds l x pre y post :
  Path nds l x (pre ++ y :: post) -> Path nds l y post.
Proof.
  revert x. induction pre as [|z pre IH]; intros x H; inv H; [assumption|]. eauto.
Qed.

Lemma path_at l pre x post rest :
  (l < kMaxHeight)%nat -> head :: C l = pre ++ x :: post ++ rest ->
  Path ns l x (post ++ rest).
Proof.
  intros Hl E. pose proof (inv_path _ _ HI l Hl) as HP. destruct pre as [|z pre].
  - injection E as <- E. rewrite <- E. exact HP.
  - injection E as <- E. rewrite E in HP. eapply Path_suffix. exact HP.
Qed.

(** One turn at [x]: the next node of the level, and whether the search moves to it. *)

Lemma turn l pre x post :
  (l < kMaxHeight)%nat -> head :: lows l = pre ++ x :: post ->
  Next ns x l = hd_error (post ++ highs l) /\
  KeyIsAfterNode ns key (Next ns x l) = match post with [] => false | _ => true end.
Proof.
  intros Hl E.
  assert (HP : Path ns l x (post ++ highs l)).
  { apply (path_at l pre x post (highs l) Hl).
    rewrite level_split. change (head :: lows l ++ highs l) with ((head :: lows l) ++ highs l).
    rewrite E, <- app_assoc. reflexivity. }
  assert (HN : Next ns x l = hd_error (post ++ highs l)).
  { inv HP; simpl; assumption. }
  split; [exact HN|]. rewrite HN. unfold KeyIsAfterNode.
  destruct post as [|y post]; cbn [app hd_error].
  - destruct (highs l) as [|z zs] eqn:Ez; [reflexivity|]. cbn [hd_error].
    assert (Hz : In z (highs l)) by (rewrite Ez; left; reflexivity).
    apply filter_In in Hz as [_ Hz]. apply negb_true_iff in Hz. exact Hz.
  - assert (Hy : In y (head :: lows l)) by (rewrite E; apply in_app_iff; right; right; left; reflexivity).
    destruct Hy as [Hy|Hy].
    + exfalso. subst y. pose proof (full_sorted _ l (lows_sublist l)) as S. rewrite E in S.
      assert (nlt x head).
      { clear -S. induction pre as [|a pre IH]; simpl in S; inv S; auto.
        inv H2. assumption. }
      destruct H as [[_ H]|H]; unfold has_key, node_lt in H; rewrite head_no_key in H.
      * destruct H; discriminate.
      * destruct (key_of ns x); contradiction.
    + apply filter_In in Hy as [_ Hy]. exact Hy.
Qed.

(** Facts on a family of sublists of the levels that shrinks upwards: used for
    the nodes before the key, and for all nodes. *)

Section Family.
Context (D : nat -> list nat).
Hypothesis HD : forall l, sublist (D l) (C l).
Hypothesis HDs : forall l, sublist (D (S l)) (D l).

Lemma mid_lt l pre x y post : head :: D l = pre ++ x :: y :: post -> nlt x y.
Proof.
  intros E. pose proof (full_sorted _ l (HD l)) as S. rewrite E in S. clear E.
  induction pre as [|a pre IH]; simpl in S; inv S; auto. inv H2. assumption.
Qed.

Lemma family_sub0 l : sublist (D l) (D 0%nat).
Proof. induction l as [|l IH]; [reflexivity|]. etransitivity; [apply HDs|exact IH]. Qed.

(** A search moves strictly right in the order of level 0. *)

Lemma move_right l pre x y post pre0 q :
  head :: D l = pre ++ x :: y :: post -> head :: D 0%nat = pre0 ++ x :: q ->
  exists pre1 q2, head :: D 0%nat = pre1 ++ y :: q2 /\ (length q2 < length q)%nat.
Proof.
  intros E E0. pose proof (full_sorted _ 0%nat (HD 0%nat)) as S0. rewrite E0 in S0.
  destruct (sorted_after nlt pre0 x q y nlt_asym S0) as (q1 & q2 & ->).
  - rewrite <- E0. apply list_elem_of_In.
    assert (Hy : y ∈ head :: D l).
    { apply list_elem_of_In. rewrite E. apply in_app_iff. right. right. left. reflexivity. }
    eapply elem_of_sublist; [exact Hy|]. apply sublist_skip, family_sub0.
  - eapply mid_lt; eauto.
  - exists (pre0 ++ x :: q1), q2. rewrite E0, length_app, <- app_assoc. simpl.
    split; [reflexivity|lia].
Qed.

Lemma drop_level l pre x :
  head :: D (S l) = pre ++ [x] -> exists pre' post', head :: D l = pre' ++ x :: post'.
Proof.
  intros E. assert (Hx : x ∈ head :: D l).
  { eapply elem_of_sublist; [|apply sublist_skip, HDs].
    rewrite E. apply list_elem_of_In, in_app_iff. right. left. reflexivity. }
  apply list_elem_of_In, in_split in Hx. exact Hx.
Qed.

End Family.

Lemma FindGreaterOrEqual_loop_spec fuel : forall l x prev pre post pre0 q,
  (l < max_height s)%nat ->
  head :: lows l = pre ++ x :: post -> head :: lows 0%nat = pre0 ++ x :: q ->
  (length q + l < fuel)%nat -> length prev = kMaxHeight ->
  exists prev', FindGreaterOrEqual_loop fuel ns key x l prev
                  = Some (hd_error (highs 0%nat), prev') /\
    length prev' = kMaxHeight /\
    (forall i, (i <= l)%nat -> prev' !! i = list.last (head :: lows i)) /\
    (forall i, (l < i)%nat -> prev' !! i = prev !! i).
Proof.
  pose proof (inv_height _ _ HI) as Hh.
  induction fuel as [|fuel IH]; intros l x prev pre post pre0 q Hl E E0 Hf Hp; [lia|].
  cbn [FindGreaterOrEqual_loop]. cbv zeta.
  destruct (turn l pre x post) as [HN HK]; [lia|assumption|]. rewrite HK.
  destruct post as [|y post].
  - cbn [app] in HN. assert (Hlast : list.last (head :: lows l) = Some x).
    { rewrite E. apply list.last_snoc. }
    destruct l as [|l].
    + eexists. rewrite HN. split; [reflexivity|]. rewrite length_insert.
      split; [exact Hp|]. split; intros i Hi.
      * assert (i = 0)%nat as -> by lia. rewrite Hlast.
        apply list_lookup_insert_eq. unfold kMaxHeight in *. lia.
      * apply list_lookup_insert_ne. lia.
    + destruct (drop_level lows lows_sub l pre x E) as (pre' & post' & E').
      destruct (IH l x (<[S l := x]> prev) pre' post' pre0 q) as (prev' & H1 & H2 & H3 & H4);
        [lia|assumption|assumption|lia|rewrite length_insert; assumption|].
      exists prev'. split; [exact H1|]. split; [exact H2|]. split; intros i Hi.
      * destruct (decide (i = S l)) as [->|]; [|apply H3; lia].
        rewrite H4, Hlast by lia. apply list_lookup_insert_eq. unfold kMaxHeight in *. lia.
      * rewrite H4 by lia. apply list_lookup_insert_ne. lia.
  - cbn [app hd_error] in HN. rewrite HN. cbn [default].
    destruct (move_right lows lows_sublist lows_sub l pre x y post pre0 q E E0)
      as (pre1 & q2 & E1 & Hq).
    apply (IH l y prev (pre ++ [x]) post pre1 q2); auto; [|lia].
    rewrite <- app_assoc. exact E.
Qed.

Lemma fuel_enough : (length (lows 0%nat) + (max_height s - 1) < search_fuel s)%nat.
Proof.
  unfold search_fuel. pose proof (inv_bound _ _ HI). pose proof (inv_height _ _ HI).
  assert (length (lows 0%nat) <= length (C 0%nat))%nat
    by (apply sublist_length, lows_sublist). lia.
Qed.

(** The search finds the first node that is not before the key, and the last
    node before it on every level. *)

Lemma FindGreaterOrEqual_spec prev :
  length prev = kMaxHeight ->
  exists prev', FindGreaterOrEqual s key prev = Some (hd_error (highs 0%nat), prev') /\
    length prev' = kMaxHeight /\
    (forall i, (i < max_height s)%nat -> prev' !! i = list.last (head :: lows i)) /\
    (forall i, (max_height s <= i)%nat -> prev' !! i = prev !! i).
Proof.
  intros Hp. pose proof fuel_enough. pose proof (inv_height _ _ HI).
  destruct (FindGreaterOrEqual_loop_spec (search_fuel s) (max_height s - 1) head prev
    [] (lows (max_height s - 1)) [] (lows 0%nat)) as (prev' & H1 & H2 & H3 & H4);
    try reflexivity; [lia|lia|assumption|].
  exists prev'. split; [exact H1|]. split; [exact H2|].
  split; intros i Hi; [apply H3 | apply H4]; lia.
Qed.

Lemma FindLessThan_loop_eq fuel : forall x l prev,
  length prev = kMaxHeight ->
  match FindGreaterOrEqual_loop fuel ns key x l prev with
  | Some (_, prev') => FindLessThan_loop fuel ns key x l = prev' !! 0%nat
  | None => True
  end.
Proof.
  induction fuel as [|fuel IH]; intros x l prev Hp; [exact I|].
  cbn [FindGreaterOrEqual_loop FindLessThan_loop]. cbv zeta.
  destruct (KeyIsAfterNode ns key (Next ns x l)); cbn [negb]; [apply IH; assumption|].
  destruct l as [|l]; [|apply IH; rewrite length_insert; assumption].
  rewrite list_lookup_insert_eq by (rewrite Hp; unfold kMaxHeight; lia). reflexivity.
Qed.

Lemma FindLessThan_spec : FindLessThan s key = list.last (head :: lows 0%nat).
Proof.
  destruct (FindGreaterOrEqual_spec (replicate kMaxHeight head)) as (prev' & H1 & _ & H3 & _);
    [apply length_replicate|].
  pose proof (FindLessThan_loop_eq (search_fuel s) head (max_height s - 1)
    (replicate kMaxHeight head) (length_replicate _ _)) as H.
  unfold FindGreaterOrEqual in H1. rewrite H1 in H. unfold FindLessThan. rewrite H.
  apply H3. pose proof (inv_height _ _ HI). lia.
Qed.

Lemma FindLast_loop_spec fuel : forall l x pre post pre0 q,
  (l < max_height s)%nat ->
  head :: C l = pre ++ x :: post -> head :: C 0%nat = pre0 ++ x :: q ->
  (length q + l < fuel)%nat ->
  FindLast_loop fuel ns x l = list.last (head :: C 0%nat).
Proof.
  pose proof (inv_height _ _ HI) as Hh.
  induction fuel as [|fuel IH]; intros l x pre post pre0 q Hl E E0 Hf; [lia|].
  cbn [FindLast_loop].
  assert (HP : Path ns l x post).
  { rewrite <- (app_nil_r post). apply (path_at l pre x post []); [lia|].
    rewrite app_nil_r. exact E. }
  inv HP; rewrite H.
  - destruct l as [|l]; [rewrite E; symmetry; apply list.last_snoc|].
    destruct (drop_level C (inv_sub _ _ HI) l pre x E) as (pre' & post' & E').
    apply (IH l x pre' post' pre0 q); auto; lia.
  - destruct (move_right C (fun l => reflexivity (C l)) (inv_sub _ _ HI) l pre x y ys pre0 q E E0)
      as (pre1 & q2 & E1 & Hq).
    apply (IH l y (pre ++ [x]) ys pre1 q2); auto; [|lia]. rewrite <- app_assoc. exact E.
Qed.

Lemma FindLast_spec : FindLast s = list.last (head :: C 0%nat).
Proof.
  pose proof (inv_bound _ _ HI). pose proof (inv_height _ _ HI).
  apply (FindLast_loop_spec _ _ head [] (C (max_height s - 1)) [] (C 0%nat));
    unfold search_fuel; (reflexivity || lia).
Qed.

End Search.

(** ** Pointer updates *)

Lemma Next_SetNext nds a i v y l :
  (forall nd, nds !! a = Some nd -> (i < length (node_next nd))%nat) -> is_Some (nds !! a) ->
  Next (SetNext nds a i v) y l =
  if decide (y = a /\ l = i) then v else Next nds y l.
Proof.
  intros Hlen [nd Ha]. unfold Next, SetNext. rewrite list_lookup_alter.
  destruct (decide (y = a)) as [->|Hne].
  - rewrite decide_True by reflexivity. rewrite Ha. cbn [fmap option_fmap option_map node_next].
    destruct (decide (l = i)) as [->|Hl].
    + rewrite decide_True by auto. rewrite list_lookup_insert_eq by eauto. reflexivity.
    + rewrite decide_False by tauto. rewrite list_lookup_insert_ne by congruence. reflexivity.
  - rewrite !decide_False by (congruence || tauto). reflexivity.
Qed.

Lemma SetNext_node nds a i v y nd :
  SetNext nds a i v !! y = Some nd ->
  exists nd0, nds !! y = Some nd0 /\ node_key nd = node_key nd0 /\
    length (node_next nd) = length (node_next nd0).
Proof.
  unfold SetNext. rewrite list_lookup_alter. destruct (decide (a = y)) as [->|].
  - destruct (nds !! y) as [nd0|]; [|discriminate]. intros [= <-]. exists nd0. simpl.
    rewrite length_insert. auto.
  - eauto.
Qed.

Lemma SetNext_is_Some nds a i v y : is_Some (SetNext nds a i v !! y) <-> is_Some (nds !! y).
Proof.
  unfold SetNext. rewrite list_lookup_alter. destruct (decide (a = y)) as [->|]; [|reflexivity].
  destruct (nds !! y); simpl; split; intros [? ?]; eauto; discriminate.
Qed.

Lemma key_of_SetNext nds a i v y : key_of (SetNext nds a i v) y = key_of nds y.
Proof.
  unfold key_of, SetNext. rewrite list_lookup_alter. destruct (decide (a = y)) as [->|]; [|reflexivity].
  destruct (nds !! y); reflexivity.
Qed.

(** The linking loop: what every next pointer is afterwards. *)

Section Link.
Context (x : nat) (prev : list nat) (p : nat -> nat).

Lemma Insert_link_spec n : forall i nds,
  (forall l, (i <= l < i + n)%nat -> prev !! l = Some (p l) /\ p l <> x) ->
  (forall l, (i <= l < i + n)%nat -> is_Some (nds !! p l)) -> is_Some (nds !! x) ->
  (forall l nd, (i <= l < i + n)%nat -> nds !! p l = Some nd -> (l < length (node_next nd))%nat) ->
  (forall l nd, (i <= l < i + n)%nat -> nds !! x = Some nd -> (l < length (node_next nd))%nat) ->
  let nds' := Insert_link n i x prev nds in
  (forall y l, Next nds' y l =
     if decide (i <= l < i + n)%nat then
       if decide (y = x) then Next nds (p l) l
       else if decide (y = p l) then Some x else Next nds y l
     else Next nds y l) /\
  (forall y, key_of nds' y = key_of nds y) /\
  (forall y nd, nds' !! y = Some nd -> exists nd0, nds !! y = Some nd0 /\
     length (node_next nd) = length (node_next nd0)) /\
  length nds' = length nds.
Proof.
  induction n as [|n IH]; intros i nds Hprev Hp Hx Hlp Hlx nds'.
  { subst nds'. simpl. split; [|eauto]. intros y l. rewrite decide_False by lia. reflexivity. }
  subst nds'. cbn [Insert_link]. cbv zeta.
  destruct (Hprev i) as [Hpi Hne]; [lia|]. rewrite Hpi. cbn [default].
  set (nds1 := SetNext nds x i (Next nds (p i) i)).
  set (nds2 := SetNext nds1 (p i) i (Some x)).
  assert (L1 : forall y nd, nds1 !! y = Some nd -> exists nd0, nds !! y = Some nd0 /\
    length (node_next nd) = length (node_next nd0)).
  { intros y nd H. apply SetNext_node in H as (nd0 & ? & _ & ?). eauto. }
  assert (L2 : forall y nd, nds2 !! y = Some nd -> exists nd0, nds !! y = Some nd0 /\
    length (node_next nd) = length (node_next nd0)).
  { intros y nd H. apply SetNext_node in H as (nd1 & H1 & _ & E).
    apply L1 in H1 as (nd0 & ? & ?). exists nd0. split; [assumption|congruence]. }
  assert (S2 : forall y, is_Some (nds2 !! y) <-> is_Some (nds !! y)).
  { intros y. unfold nds2, nds1. rewrite !SetNext_is_Some. reflexivity. }
  assert (N2 : forall y l, Next nds2 y l = if decide (l = i) then
      if decide (y = p i) then Some x else if decide (y = x) then Next nds (p i) i else Next nds y l
      else Next nds y l).
  { intros y l. unfold nds2. rewrite Next_SetNext.
    - unfold nds1. rewrite Next_SetNext; [|intros nd Hnd; apply (Hlx i nd); [lia|exact Hnd]|exact Hx].
      destruct (decide (l = i)) as [->|]; repeat case_decide; try tauto; reflexivity.
    - intros nd Hnd. apply L1 in Hnd as (nd0 & H0 & ->). apply (Hlp i nd0); [lia|exact H0].
    - unfold nds1. rewrite SetNext_is_Some. apply Hp. lia. }
  destruct (IH (S i) nds2) as (IH1 & IH2 & IH3 & IH4).
  - intros l Hl. apply Hprev. lia.
  - intros l Hl. apply S2, Hp. lia.
  - apply S2, Hx.
  - intros l nd Hl H. apply L2 in H as (nd0 & H0 & ->). apply (Hlp l nd0); [lia|exact H0].
  - intros l nd Hl H. apply L2 in H as (nd0 & H0 & ->). apply (Hlx l nd0); [lia|exact H0].
  - split; [|split; [|split]].
    + intros y l. rewrite IH1, !N2. destruct (decide (l = i)) as [->|].
      * rewrite (decide_False (P := (S i <= i < S i + n)%nat)) by lia.
        rewrite (decide_True (P := (i <= i < i + S n)%nat)) by lia.
        destruct (decide (y = x)) as [->|].
        -- rewrite decide_False by congruence. reflexivity.
        -- destruct (decide (y = p i)); reflexivity.
      * destruct (decide (S i <= l < S i + n)%nat).
        -- rewrite (decide_True (P := (i <= l < i + S n)%nat)) by lia. reflexivity.
        -- rewrite (decide_False (P := (i <= l < i + S n)%nat)) by lia. reflexivity.
    + intros y. rewrite IH2. unfold nds2, nds1. rewrite !key_of_SetNext. reflexivity.
    + intros y nd H. apply IH3 in H as (nd2 & H2 & E2). apply L2 in H2 as (nd0 & ? & ?).
      exists nd0. split; [assumption|congruence].
    + etransitivity; [exact IH4|]. unfold nds2, nds1, SetNext. rewrite !length_alter. reflexivity.
Qed.

End Link.

(** Splicing a node into a path. *)

Lemma Path_unchanged nds nds' l y ys :
  Path nds l y ys -> (forall z, In z (y :: ys) -> Next nds' z l = Next nds z l) ->
  Path nds' l y ys.
Proof.
  induction 1 as [y H|y z ys H HP IH]; intros Heq.
  - apply Path_nil. rewrite Heq by (left; reflexivity). exact H.
  - apply Path_cons; [rewrite Heq by (left; reflexivity); exact H|].
    apply IH. intros w Hw. apply Heq. right. exact Hw.
Qed.

Lemma Path_splice nds nds' l x p A : forall z B,
  Path nds l z (A ++ B) -> list.last (z :: A) = Some p ->
  List.NoDup (z :: A ++ B) -> ~ In x (z :: A ++ B) ->
  (forall y, In y (x :: z :: A ++ B) -> Next nds' y l =
     if decide (y = x) then Next nds p l else if decide (y = p) then Some x else Next nds y l) ->
  Path nds' l z (A ++ x :: B).
Proof.
  induction A as [|a A IH]; intros z B HP Hlast Hnd Hx HN; cbn [app] in *.
  - injection Hlast as <-. apply Path_cons.
    { rewrite HN by (simpl; auto). rewrite decide_False by (intros ->; apply Hx; left; reflexivity).
      rewrite decide_True by reflexivity. reflexivity. }
    assert (HN' : forall y, In y B -> Next nds' y l = Next nds y l).
    { intros y Hy. rewrite HN by (simpl; auto). rewrite !decide_False; [reflexivity| |].
      - intros ->. apply NoDup_cons_iff in Hnd as [Hnd _]. exact (Hnd Hy).
      - intros ->. apply Hx. right. exact Hy. }
    assert (Hxn : Next nds' x l = Next nds z l)
      by (rewrite HN by (left; reflexivity); rewrite decide_True; reflexivity).
    inv HP; [apply Path_nil; congruence|]. eapply Path_cons; [rewrite Hxn; eassumption|].
    eapply Path_unchanged; eauto.
  - inv HP. assert (Hza : z <> p).
    { intros ->. apply NoDup_cons_iff in Hnd as [Hnd _]. apply Hnd.
      change (In p ((a :: A) ++ B)). apply in_app_iff. left.
      change (list.last (p :: a :: A)) with (list.last (a :: A)) in Hlast.
      apply list_elem_of_In, last_Some_elem_of, Hlast. }
    eapply Path_cons with (y := a).
    + rewrite HN by (simpl; auto). rewrite !decide_False; [assumption|exact Hza|].
      intros ->. apply Hx. left. reflexivity.
    + apply IH; auto.
      * apply NoDup_cons_iff in Hnd as [_ Hnd]. exact Hnd.
      * intros Hin. apply Hx. right. exact Hin.
      * intros y Hy. apply HN. simpl in Hy |- *. tauto.
Qed.

(** ** Insertion *)

Lemma prev_heads_lookup n : forall i prev l,
  (i + n <= length prev)%nat ->
  prev_heads n i prev !! l =
  (if decide (i <= l < i + n)%nat then Some head else prev !! l).
Proof.
  induction n as [|n IH]; intros i prev l Hlen; simpl.
  { rewrite decide_False by lia. reflexivity. }
  rewrite IH by (rewrite length_insert; lia). rewrite list_lookup_insert.
  repeat case_decide; try lia; reflexivity.
Qed.

Lemma RandomHeight_loop_range fuel : forall h r, (1 <= h <= kMaxHeight)%nat ->
  (1 <= fst (RandomHeight_loop fuel h r) <= kMaxHeight)%nat.
Proof.
  induction fuel as [|fuel IH]; intros h r Hh; cbn [RandomHeight_loop]; [exact Hh|].
  destruct (Nat.ltb_spec h kMaxHeight); [|exact Hh].
  destruct (Random_OneIn r 4) as [b r']. destruct b; [apply IH; lia|exact Hh].
Qed.

Lemma RandomHeight_range r : (1 <= fst (RandomHeight r) <= kMaxHeight)%nat.
Proof. apply RandomHeight_loop_range. unfold kMaxHeight. lia. Qed.

Section InsertProof.
Context (s : SkipList) (C : nat -> list nat) (HI : Inv s C) (key : Key).
Hypothesis Hfresh : forall y ky, In y (C 0%nat) -> key_of (nodes s) y = Some ky ->
  compare ky key <> 0.

#[local] Abbreviation A := (lows s C key).
#[local] Abbreviation B := (highs s C key).

(** The lists of the levels after inserting a node of height [h]. *)

Definition C_after (h : nat) (l : nat) : list nat :=
  if decide (l < h)%nat then A l ++ length (nodes s) :: B l else C l.

Lemma level_in_bounds l y : In y (head :: C l) -> (y < length (nodes s))%nat.
Proof.
  intros [<-|Hy].
  - destruct (inv_head _ _ HI) as (nd & H & _). apply lookup_lt_Some in H. exact H.
  - destruct (C_keys _ _ HI l y Hy) as [k Hk]. unfold key_of in Hk.
    destruct (nodes s !! y) eqn:E; [|discriminate]. apply lookup_lt_Some in E. exact E.
Qed.

Lemma level_NoDup l : List.NoDup (head :: C l).
Proof.
  pose proof (full_sorted _ _ HI (C l) l (reflexivity _)) as S.
  remember (head :: C l) as xs. clear Heqxs.
  induction S as [|x xs S IH HF]; constructor; [|exact IH]. intros Hin.
  eapply List.Forall_forall in HF; [|exact Hin].
  eapply nlt_asym; eauto.
Qed.

Lemma lows_high l : (max_height s <= l)%nat -> A l = [] /\ B l = [].
Proof. intros H. unfold lows, highs. rewrite (inv_high _ _ HI l H). auto. Qed.

(** The predecessor Insert uses at each level. *)

Definition pred (l : nat) : nat := default head (list.last (head :: A l)).

Lemma pred_last l : list.last (head :: A l) = Some (pred l).
Proof.
  unfold pred. destruct (list.last (head :: A l)) eqn:E; [reflexivity|].
  apply list.last_None in E. discriminate.
Qed.

Lemma pred_in l : In (pred l) (head :: C l).
Proof.
  pose proof (pred_last l) as H. apply last_Some_elem_of, list_elem_of_In in H.
  destruct H as [H|H]; [left; exact H|]. right. unfold lows in H. apply filter_In in H as [H _].
  exact H.
Qed.

Lemma insert_prev h prev :
  (1 <= h <= kMaxHeight)%nat -> length prev = kMaxHeight ->
  (forall i, (i < max_height s)%nat -> prev !! i = list.last (head :: A i)) ->
  forall l, (l < h)%nat ->
  prev_heads (h - max_height s) (max_height s) prev !! l = Some (pred l).
Proof.
  intros Hh Hlen Hp l Hl. pose proof (inv_height _ _ HI).
  destruct (decide (l < max_height s)%nat).
  - rewrite prev_heads_lookup by lia. rewrite decide_False by lia.
    rewrite Hp by lia. apply pred_last.
  - rewrite prev_heads_lookup by lia. rewrite decide_True by lia.
    unfold pred. rewrite (proj1 (lows_high l ltac:(lia))). reflexivity.
Qed.

#[local] Abbreviation x := (length (nodes s)).

Section Linked.
Context (h : nat) (prev : list nat).
Hypothesis Hh : (1 <= h <= kMaxHeight)%nat.
Hypothesis Hprev : forall l, (l < h)%nat -> prev !! l = Some (pred l).

Definition ns_new : list Node :=
  Insert_link h 0 x prev (nodes s ++ [mkNode (Some key) (replicate h None)]).

Lemma old_node y : (y < x)%nat ->
  (nodes s ++ [mkNode (Some key) (replicate h None)]) !! y = nodes s !! y.
Proof. intros. apply lookup_app_l. assumption. Qed.

Lemma new_node :
  (nodes s ++ [mkNode (Some key) (replicate h None)]) !! x
    = Some (mkNode (Some key) (replicate h None)).
Proof. rewrite lookup_app_r, Nat.sub_diag by lia. reflexivity. Qed.

Lemma pred_bound l : (pred l < x)%nat.
Proof. eapply level_in_bounds, pred_in. Qed.

Lemma ns_new_spec :
  (forall y l, Next ns_new y l =
     if decide (0 <= l < 0 + h)%nat then
       if decide (y = x) then Next (nodes s ++ [mkNode (Some key) (replicate h None)]) (pred l) l
       else if decide (y = pred l) then Some x
       else Next (nodes s ++ [mkNode (Some key) (replicate h None)]) y l
     else Next (nodes s ++ [mkNode (Some key) (replicate h None)]) y l) /\
  (forall y, key_of ns_new y = key_of (nodes s ++ [mkNode (Some key) (replicate h None)]) y) /\
  (forall y nd, ns_new !! y = Some nd -> exists nd0,
     (nodes s ++ [mkNode (Some key) (replicate h None)]) !! y = Some nd0 /\
     length (node_next nd) = length (node_next nd0)) /\
  length ns_new = length (nodes s ++ [mkNode (Some key) (replicate h None)]).
Proof.
  unfold ns_new. apply Insert_link_spec.
  - intros l Hl. split; [apply Hprev; lia|]. pose proof (pred_bound l). lia.
  - intros l Hl. rewrite old_node by apply pred_bound. apply lookup_lt_is_Some, pred_bound.
  - rewrite new_node. eauto.
  - intros l nd Hl H. rewrite old_node in H by apply pred_bound.
    apply (inv_len _ _ HI (pred l) nd l); [|exact H|lia].
    destruct (pred_in l) as [E|E]; [left; auto|right; apply list_elem_of_In, E].
  - intros l nd Hl H. rewrite new_node in H. injection H as <-. simpl.
    rewrite length_replicate. lia.
Qed.

Lemma Next_old y l : (y < x)%nat ->
  Next ns_new y l = if decide (l < h)%nat then
                      if decide (y = pred l) then Some x else Next (nodes s) y l
                    else Next (nodes s) y l.
Proof.
  intros Hy. destruct ns_new_spec as (N & _). rewrite N.
  assert (E : Next (nodes s ++ [mkNode (Some key) (replicate h None)]) y l = Next (nodes s) y l)
    by (unfold Next; rewrite old_node by assumption; reflexivity).
  rewrite E, (decide_False (P := y = x)) by lia. repeat case_decide; (reflexivity || lia).
Qed.

Lemma Next_new l : (l < h)%nat -> Next ns_new x l = Next (nodes s) (pred l) l.
Proof.
  intros Hl. destruct ns_new_spec as (N & _). rewrite N, !decide_True by (reflexivity || lia).
  unfold Next. rewrite old_node by apply pred_bound. reflexivity.
Qed.

Lemma key_old y : (y < x)%nat -> key_of ns_new y = key_of (nodes s) y.
Proof.
  intros Hy. destruct ns_new_spec as (_ & K & _). rewrite K. unfold key_of.
  rewrite old_node by assumption. reflexivity.
Qed.

Lemma key_new : key_of ns_new x = Some key.
Proof.
  destruct ns_new_spec as (_ & K & _). rewrite K. unfold key_of. rewrite new_node. reflexivity.
Qed.

Lemma split_at l : C l = A l ++ B l.
Proof. apply (level_split s C HI key). Qed.

Lemma in_level l y : In y (head :: A l ++ B l) -> (y < x)%nat.
Proof. rewrite <- split_at. apply level_in_bounds. Qed.

Lemma path_after l : (l < kMaxHeight)%nat -> Path ns_new l head (C_after h l).
Proof.
  intros Hl. pose proof (inv_path _ _ HI l Hl) as HP. unfold C_after.
  pose proof (level_NoDup l) as Hnd. rewrite split_at in HP, Hnd.
  case_decide as Hlh.
  - eapply Path_splice; [exact HP|apply pred_last|exact Hnd| |].
    + intros Hin. apply in_level in Hin. lia.
    + intros y [<-|Hy]; [rewrite decide_True by reflexivity; apply Next_new; exact Hlh|].
      pose proof (in_level l y Hy). rewrite Next_old, (decide_False (P := y = x)) by lia.
      rewrite decide_True by exact Hlh. reflexivity.
  - rewrite split_at. eapply Path_unchanged; [exact HP|]. intros z Hz.
    rewrite Next_old by (eapply in_level; exact Hz). rewrite decide_False by exact Hlh. reflexivity.
Qed.

Lemma highs_sub l : sublist (B (S l)) (B l).
Proof.
  unfold highs. pose proof (inv_sub _ _ HI l) as H.
  induction H as [|y l1 l2 H IH|y l1 l2 H IH]; simpl; [constructor| |];
    destruct (before s key y); simpl; auto using sublist.
Qed.

Lemma C_after_sub l : sublist (C_after h (S l)) (C_after h l).
Proof.
  unfold C_after. repeat case_decide; try lia.
  - apply sublist_app; [apply (lows_sub s C HI key)|apply sublist_skip, highs_sub].
  - rewrite split_at. apply sublist_app; [apply (lows_sub s C HI key)|].
    apply sublist_cons, highs_sub.
  - apply (inv_sub _ _ HI).
Qed.

Lemma C_after_0 : C_after h 0 = A 0%nat ++ x :: B 0%nat.
Proof. unfold C_after. rewrite decide_True by lia. reflexivity. Qed.

Lemma low_key y : In y (A 0%nat) -> node_lt ns_new y x.
Proof.
  intros Hy. assert (Hb : (y < x)%nat)
    by (apply (in_level 0%nat); right; apply in_app_iff; left; exact Hy).
  unfold lows in Hy. apply filter_In in Hy as [_ Hy]. unfold before, key_before in Hy.
  unfold node_lt. rewrite key_old, key_new by assumption.
  destruct (key_of (nodes s) y); [|discriminate]. apply Z.ltb_lt in Hy. exact Hy.
Qed.

Lemma high_key y : In y (B 0%nat) -> node_lt ns_new x y.
Proof.
  intros Hy. assert (Hb : (y < x)%nat)
    by (apply (in_level 0%nat); right; apply in_app_iff; right; exact Hy).
  unfold highs in Hy. apply filter_In in Hy as [Hc Hy]. unfold before, key_before in Hy.
  unfold node_lt. rewrite key_new, (key_old y) by assumption.
  destruct (C_keys _ _ HI 0%nat y Hc) as [ky Hk]. rewrite Hk in *.
  apply negb_true_iff, Z.ltb_ge in Hy. pose proof (Hfresh y ky Hc Hk).
  pose proof (compare_sgn ky key). lia.
Qed.

Lemma insert_inv r :
  Inv (mkSkipList ns_new (if (max_height s <? h)%nat then h else max_height s) r) (C_after h).
Proof.
  pose proof (inv_height _ _ HI) as Hmh.
  split; cbn [nodes max_height].
  - exact path_after.
  - exact C_after_sub.
  - intros l Hl. unfold C_after. destruct (Nat.ltb_spec (max_height s) h);
      rewrite decide_False by lia; apply (inv_high _ _ HI); lia.
  - rewrite C_after_0. apply StronglySorted_insert.
    + rewrite <- split_at. eapply StronglySorted_impl_in; [|apply (inv_sorted _ _ HI)].
      intros a b Ha Hb. unfold node_lt.
      rewrite (key_old a), (key_old b)
        by (apply (level_in_bounds 0%nat); right; assumption).
      auto.
    + apply List.Forall_forall. exact low_key.
    + apply List.Forall_forall. exact high_key.
  - rewrite C_after_0. apply List.Forall_forall. intros y Hy. unfold has_key.
    apply in_app_iff in Hy as [Hy|[<-|Hy]].
    2: rewrite key_new; eauto.
    all: assert (Hc : In y (C 0%nat)) by (rewrite split_at; apply in_app_iff; auto).
    all: rewrite key_old by (apply (level_in_bounds 0%nat); right; exact Hc).
    all: exact (C_keys _ _ HI 0%nat y Hc).
  - destruct (Nat.ltb_spec (max_height s) h); lia.
  - intros y nd l Hy Hnd Hl. destruct ns_new_spec as (_ & _ & L & _).
    apply L in Hnd as (nd0 & H0 & ->).
    assert (Hcase : (l < h /\ y = x)%nat \/ (y = head \/ y ∈ C l)).
    { destruct Hy as [->|Hy]; [auto|]. unfold C_after in Hy. case_decide; [|auto].
      apply list_elem_of_In, in_app_iff in Hy. rewrite list_elem_of_In, split_at, in_app_iff.
      destruct Hy as [Hy|[<-|Hy]]; auto. }
    destruct Hcase as [[Hlh ->]|Hc].
    + rewrite new_node in H0. injection H0 as <-. simpl. rewrite length_replicate. exact Hlh.
    + rewrite old_node in H0; [apply (inv_len _ _ HI y nd0 l Hc H0 Hl)|].
      apply (level_in_bounds l). destruct Hc as [->|Hc]; [left; reflexivity|].
      right. apply list_elem_of_In, Hc.
  - destruct (inv_head _ _ HI) as (nd & H & Hk).
    assert (Hb : (head < x)%nat) by (apply lookup_lt_Some in H; exact H).
    pose proof (key_old head Hb) as K. unfold key_of in K. rewrite H, Hk in K.
    destruct (ns_new !! head) as [nd'|] eqn:E; [eauto|].
    apply lookup_ge_None in E. destruct ns_new_spec as (_ & _ & _ & L). rewrite L, length_app in E.
    lia.
  - rewrite C_after_0. destruct ns_new_spec as (_ & _ & _ & L). rewrite L, !length_app.
    pose proof (inv_bound _ _ HI) as Hb. rewrite split_at, length_app in Hb. simpl. lia.
Qed.

Lemma keys_old xs : (forall y, In y xs -> (y < x)%nat) -> keys ns_new xs = keys (nodes s) xs.
Proof.
  intros H. induction xs as [|y xs IH]; [reflexivity|]. rewrite !keys_cons.
  rewrite key_old by (apply H; left; reflexivity).
  rewrite IH by (intros; apply H; right; assumption). reflexivity.
Qed.

Lemma insert_keys :
  keys ns_new (C_after h 0) =
  keys (nodes s) (A 0%nat) ++ key :: keys (nodes s) (B 0%nat).
Proof.
  rewrite C_after_0. unfold keys at 1. rewrite omap_app.
  fold (keys ns_new (A 0%nat)). fold (keys ns_new (x :: B 0%nat)). rewrite keys_cons, key_new.
  rewrite !keys_old; [reflexivity| |]; intros y Hy; apply (in_level 0%nat); right;
    apply in_app_iff; auto.
Qed.

End Linked.
End InsertProof.

(** ** The abstract view: a strictly sorted list of keys *)

Definition Rep (s : SkipList) (l : list Key) : Prop :=
  exists C, Inv s C /\ keys (nodes s) (C 0%nat) = l.

(** The iterator stands between the keys [pre] it has passed and the keys
    [post] from its position on; it is not valid when [post] is empty. *)

Definition At (s : SkipList) (it : Iter) (pre post : list Key) : Prop :=
  exists C xs ys, Inv s C /\ C 0%nat = xs ++ ys /\ it = hd_error ys /\
    pre = keys (nodes s) xs /\ post = keys (nodes s) ys.

Definition insert_before (key : Key) (l : list Key) : list Key :=
  List.filter (fun k => compare k key <? 0) l ++
  key :: List.filter (fun k => negb (compare k key <? 0)) l.

Lemma keys_app nds xs ys : keys nds (xs ++ ys) = keys nds xs ++ keys nds ys.
Proof. apply omap_app. Qed.

Lemma keys_filter nds key f xs :
  Forall (has_key nds) xs ->
  keys nds (List.filter (fun x => f (key_before nds x key)) xs) =
  List.filter (fun k => f (compare k key <? 0)) (keys nds xs).
Proof.
  induction 1 as [|y xs [k Hk] HF IH]; [reflexivity|].
  rewrite keys_cons, Hk. simpl. unfold key_before at 1. rewrite Hk.
  destruct (f (compare k key <? 0)); [|exact IH]. rewrite keys_cons, Hk, IH. reflexivity.
Qed.

Lemma lows_keys s C key : Inv s C ->
  keys (nodes s) (lows s C key 0) = List.filter (fun k => compare k key <? 0) (keys (nodes s) (C 0%nat)).
Proof. intros HI. apply (keys_filter _ key (fun b => b)), (inv_keys _ _ HI). Qed.

Lemma highs_keys s C key : Inv s C ->
  keys (nodes s) (highs s C key 0)
  = List.filter (fun k => negb (compare k key <? 0)) (keys (nodes s) (C 0%nat)).
Proof. intros HI. apply (keys_filter _ key negb), (inv_keys _ _ HI). Qed.

Lemma Rep_new : Rep SkipList_new [].
Proof.
  exists (fun _ => []). split; [|reflexivity].
  split; cbn [nodes max_height SkipList_new]; auto.
  - intros l Hl. apply Path_nil. unfold Next. cbn [lookup list_lookup head node_next].
    rewrite lookup_replicate_2 by exact Hl. reflexivity.
  - constructor.
  - unfold kMaxHeight. lia.
  - intros y nd l [->|Hy] H Hl; [|inversion Hy]. injection H as <-. simpl.
    exact Hl.
  - eexists. split; reflexivity.
Qed.

Lemma keys_in nds xs k : In k (keys nds xs) <-> exists y, In y xs /\ key_of nds y = Some k.
Proof.
  unfold keys. rewrite <- list_elem_of_In, list_elem_of_omap.
  setoid_rewrite list_elem_of_In. reflexivity.
Qed.

Lemma Insert_spec s l key :
  Rep s l -> (forall k, In k l -> compare k key <> 0) ->
  exists s', Insert s key = Some s' /\ Rep s' (insert_before key l).
Proof.
  intros (C & HI & <-) Hfresh.
  assert (Hf : forall y ky, In y (C 0%nat) -> key_of (nodes s) y = Some ky -> compare ky key <> 0).
  { intros y ky Hy Hk. apply Hfresh, keys_in. eauto. }
  unfold Insert.
  destruct (FindGreaterOrEqual_spec s C HI key (replicate kMaxHeight head))
    as (prev & -> & Hlen & Hp & _); [apply length_replicate|].
  pose proof (RandomHeight_range (rnd s)) as Hh.
  destruct (RandomHeight (rnd s)) as [h r]. cbn [fst] in Hh. cbn [NewNode].
  eexists. split; [reflexivity|].
  exists (C_after s C key h).
  pose proof (insert_prev s C HI key h prev Hh Hlen Hp) as Hprev.
  split; [apply (insert_inv s C HI key Hf h _ Hh Hprev r)|].
  etransitivity; [apply (insert_keys s C HI key h _ Hh Hprev)|].
  unfold insert_before. rewrite lows_keys, highs_keys by assumption. reflexivity.
Qed.

Lemma Inv_sorted_keys s C : Inv s C ->
  StronglySorted (fun a b => compare a b < 0) (keys (nodes s) (C 0%nat)).
Proof.
  intros HI. pose proof (inv_sorted _ _ HI) as S. pose proof (inv_keys _ _ HI) as K.
  induction S as [|y xs S IH HF]; [constructor|]. inv K. destruct H1 as [k Hk].
  rewrite keys_cons, Hk. constructor; [auto|]. apply List.Forall_forall. intros k' Hk'.
  apply keys_in in Hk' as (z & Hz & Hkz). eapply List.Forall_forall in HF; [|exact Hz].
  unfold node_lt in HF. rewrite Hk, Hkz in HF. exact HF.
Qed.

Lemma Rep_sorted s l : Rep s l -> StronglySorted (fun a b => compare a b < 0) l.
Proof. intros (C & HI & <-). apply Inv_sorted_keys, HI. Qed.

Lemma Seek_spec s l target :
  Rep s l ->
  At s (Iter_Seek s target) (List.filter (fun k => compare k target <? 0) l)
    (List.filter (fun k => negb (compare k target <? 0)) l).
Proof.
  intros (C & HI & <-).
  destruct (FindGreaterOrEqual_spec s C HI target (replicate kMaxHeight head))
    as (prev & H & _); [apply length_replicate|].
  exists C, (lows s C target 0), (highs s C target 0). split; [exact HI|].
  split; [apply (level_split s C HI target)|]. unfold Iter_Seek. rewrite H.
  rewrite lows_keys, highs_keys by assumption. auto.
Qed.

Lemma SeekToFirst_spec s l : Rep s l -> At s (Iter_SeekToFirst s) [] l.
Proof.
  intros (C & HI & <-). exists C, [], (C 0%nat). split; [exact HI|]. split; [reflexivity|].
  split; [|auto]. unfold Iter_SeekToFirst.
  pose proof (inv_path _ _ HI 0%nat ltac:(unfold kMaxHeight; lia)) as HP. inv HP; assumption.
Qed.

Lemma At_key s it pre post : At s it pre post ->
  Iter_key s it = hd_error post /\ (Iter_Valid it = true <-> post <> []).
Proof.
  intros (C & xs & ys & HI & E & -> & -> & ->). destruct ys as [|y ys]; [split; [reflexivity|]|].
  { split; [discriminate|intros []; reflexivity]. }
  destruct (C_keys _ _ HI 0%nat y) as [k Hk]; [rewrite E; apply in_app_iff; right; left; reflexivity|].
  rewrite keys_cons, Hk. simpl. rewrite Hk. split; [reflexivity|].
  split; [discriminate|reflexivity].
Qed.

Lemma At_Next s it pre k post :
  At s it pre (k :: post) -> At s (Iter_Next s it) (pre ++ [k]) post.
Proof.
  intros (C & xs & ys & HI & E & -> & -> & H).
  destruct ys as [|y ys]; [discriminate|]. rewrite keys_cons in H.
  destruct (key_of (nodes s) y) as [ky|] eqn:Hk.
  2: { destruct (C_keys _ _ HI 0%nat y) as [? Hk']; [|congruence].
       rewrite E. apply in_app_iff. right. left. reflexivity. }
  injection H as -> ->. exists C, (xs ++ [y]), ys. split; [exact HI|].
  split; [rewrite <- app_assoc; exact E|]. rewrite keys_app, (keys_cons _ y), Hk.
  split; [|auto]. cbn [hd_error Iter_Next].
  pose proof (path_at s C HI 0%nat (head :: xs) y ys [] ltac:(unfold kMaxHeight; lia)) as HP.
  rewrite app_nil_r in HP. specialize (HP ltac:(rewrite E; reflexivity)).
  inv HP; assumption.
Qed.

Lemma At_length s it pre post : At s it pre post -> (length post < length (nodes s))%nat.
Proof.
  intros (C & xs & ys & HI & E & _ & _ & ->). pose proof (inv_bound _ _ HI) as Hb.
  rewrite E, length_app in Hb.
  assert (H : forall zs, (length (keys (nodes s) zs) <= length zs)%nat).
  { induction zs as [|z zs IH]; [simpl; lia|]. rewrite keys_cons.
    destruct (key_of (nodes s) z); simpl; lia. }
  specialize (H ys). lia.
Qed.

Lemma head_to_null_last s C xs ys : Inv s C -> C 0%nat = xs ++ ys ->
  head_to_null (list.last (head :: xs)) = list.last xs.
Proof.
  intros HI E. destruct xs as [|z xs] using rev_ind; [reflexivity|].
  rewrite app_comm_cons, !list.last_snoc. unfold head_to_null. case_decide as Hz; [|reflexivity].
  exfalso. subst z. destruct (C_keys _ _ HI 0%nat head) as [k Hk].
  - rewrite E. apply in_app_iff. left. apply in_app_iff. right. left. reflexivity.
  - rewrite (head_no_key _ _ HI) in Hk. discriminate.
Qed.

Lemma lows_at s C xs y ys k :
  Inv s C -> C 0%nat = xs ++ y :: ys -> key_of (nodes s) y = Some k ->
  lows s C k 0 = xs.
Proof.
  intros HI E Hk. pose proof (inv_sorted _ _ HI) as S. unfold lows. rewrite E in S |- *.
  assert (Hy : before s k y = false).
  { unfold before, key_before. rewrite Hk. apply Z.ltb_ge. pose proof (compare_sgn k k). lia. }
  assert (Hys : List.filter (before s k) ys = []).
  { clear E. induction xs as [|z xs IH]; simpl in S; inv S; [|auto].
    clear H1. induction H2 as [|w ys Hw HF IH]; [reflexivity|]. simpl.
    destruct (before s k w) eqn:Hb; [|exact IH].
    rewrite (before_down s k _ _ Hw Hb) in Hy. discriminate. }
  rewrite filter_app. simpl. rewrite Hy, Hys, app_nil_r. clear E Hys.
  induction xs as [|z xs IH]; [reflexivity|]. simpl in S. inv S. simpl.
  assert (Hz : node_lt (nodes s) z y)
    by (eapply List.Forall_forall in H2; [exact H2|apply in_app_iff; right; left; reflexivity]).
  unfold before, key_before. unfold node_lt in Hz. rewrite Hk in Hz.
  destruct (key_of (nodes s) z) as [kz|]; [|contradiction].
  rewrite (proj2 (Z.ltb_lt _ _) Hz). f_equal. apply IH; assumption.
Qed.

Lemma last_at s C xs ys : Inv s C -> C 0%nat = xs ++ ys ->
  (keys (nodes s) xs = [] -> list.last xs = None) /\
  (forall pre' k', keys (nodes s) xs = pre' ++ [k'] ->
     At s (list.last xs) pre' (k' :: keys (nodes s) ys)).
Proof.
  intros HI E. destruct xs as [|z xs _] using rev_ind.
  { split; [reflexivity|]. intros pre' k' H. destruct pre'; discriminate. }
  destruct (C_keys _ _ HI 0%nat z) as [kz Hz].
  { rewrite E. apply in_app_iff. left. apply in_app_iff. right. left. reflexivity. }
  rewrite keys_app, keys_cons, Hz. rewrite list.last_snoc. cbn [keys].
  change (keys (nodes s) []) with (@nil Key). split.
  - intros H. apply app_eq_nil in H as [_ H]. discriminate.
  - intros pre' k' H. apply app_inj_tail in H as [<- <-].
    exists C, xs, (z :: ys). rewrite keys_cons, Hz. rewrite <- app_assoc in E. auto.
Qed.

Lemma At_Prev s it pre k post :
  At s it pre (k :: post) ->
  (pre = [] -> Iter_Prev s it = None) /\
  (forall pre' k', pre = pre' ++ [k'] -> At s (Iter_Prev s it) pre' (k' :: k :: post)).
Proof.
  intros (C & xs & ys & HI & E & -> & -> & H).
  destruct ys as [|y ys]; [discriminate|].
  destruct (C_keys _ _ HI 0%nat y) as [ky Hk].
  { rewrite E. apply in_app_iff. right. left. reflexivity. }
  assert (HP : Iter_Prev s (hd_error (y :: ys)) = list.last xs).
  { unfold Iter_Prev. cbn [Iter_key hd_error]. rewrite Hk, (FindLessThan_spec s C HI).
    rewrite (lows_at s C xs y ys) by assumption.
    apply (head_to_null_last s C xs (y :: ys) HI E). }
  rewrite HP, H. apply (last_at s C xs (y :: ys) HI E).
Qed.

Lemma SeekToLast_spec s l :
  Rep s l ->
  (l = [] -> Iter_SeekToLast s = None) /\
  (forall l' k, l = l' ++ [k] -> At s (Iter_SeekToLast s) l' [k]).
Proof.
  intros (C & HI & <-). unfold Iter_SeekToLast. rewrite (FindLast_spec s C HI).
  assert (E : C 0%nat = C 0%nat ++ []) by (rewrite app_nil_r; reflexivity).
  rewrite (head_to_null_last s C _ [] HI E). apply (last_at s C (C 0%nat) [] HI E).
Qed.

Lemma Contains_spec s l key :
  Rep s l -> exists b, Contains s key = Some b /\
    (b = true <-> exists k, hd_error (List.filter (fun k => negb (compare k key <? 0)) l) = Some k
                            /\ compare key k = 0).
Proof.
  intros (C & HI & <-). unfold Contains.
  destruct (FindGreaterOrEqual_spec s C HI key (replicate kMaxHeight head))
    as (prev & -> & _); [apply length_replicate|].
  rewrite <- (highs_keys s C key HI). destruct (highs s C key 0) as [|y ys] eqn:Eh.
  - exists false. split; [reflexivity|]. split; [discriminate|]. intros (k & H & _). discriminate.
  - assert (Hin : In y (highs s C key 0)) by (rewrite Eh; left; reflexivity).
    unfold highs in Hin. apply filter_In in Hin as [Hin _].
    destruct (C_keys _ _ HI 0%nat y Hin) as [k Hk].
    cbn [hd_error]. rewrite keys_cons, Hk. cbn [hd_error]. eexists. split; [reflexivity|].
    rewrite Z.eqb_eq. split; [eauto|]. intros (k' & [= <-] & H). exact H.
Qed.

(** On the sorted list: some key compares equal exactly when the first key that is not
    smaller does. *)

Lemma Contains_exists s l key : Rep s l -> Contains s key = Some (existsb (fun k => compare k key =? 0) l).
Proof.
  intros HR. destruct (Contains_spec s l key HR) as (b & -> & Hb). f_equal. apply Rep_sorted in HR. apply eq_true_iff_eq. rewrite Hb, existsb_exists. clear b Hb.
  assert (Hsym : forall a c, compare a c = 0 <-> compare c a = 0) by (intros a c; pose proof (compare_sgn a c); lia). split.
  - intros (k & Hk & He). exists k. split; [|apply Z.eqb_eq, Hsym, He]. destruct (List.filter _ l) as [|x f] eqn:Ef; [discriminate|]. injection Hk as ->.
    assert (Hin : In k (List.filter (fun k => negb (compare k key <? 0)) l)) by (rewrite Ef; left; reflexivity). apply filter_In in Hin. tauto.
  - intros (k & Hin & He). apply Z.eqb_eq in He.
    induction HR as [|x l HS IH HF]; [destruct Hin|]. cbn [List.filter]. destruct (Z.ltb_spec (compare x key) 0) as [Hx|Hx]; cbn [negb].
    + destruct Hin as [->|Hin]; [lia|]. exact (IH Hin).
    + exists x. split; [reflexivity|]. destruct Hin as [->|Hin]; [apply Hsym, He|]. rewrite List.Forall_forall in HF. specialize (HF k Hin).
      pose proof (compare_sgn x key) as H1. destruct (Z.eq_dec (compare x key) 0) as [E|E]; [apply Hsym, E|].
      pose proof (compare_trans key x k ltac:(lia) HF) as H2. pose proof (compare_sgn k key). lia.
Qed.

End SkipList.

(** ** Properties *)

(** C27. The skip list refines a strictly sorted list.  A new skip list is
    empty; inserting a key that compares equal to none present terminates,
    keeps the multi-level structure, and puts the key between the smaller and
    the larger ones; [Contains] says whether a key of the list compares equal;
    [Seek] stands at the first key not below the target, [SeekToFirst] and
    [SeekToLast] at the ends, and [Next] and [Prev] move by exactly one key of the
    list ([Prev] off the front makes the iterator invalid). *)
Theorem skiplist_refines_sorted_list : forall Key (compare : Key -> Key -> Z),
  (forall a b c, compare a b < 0 -> compare b c < 0 -> compare a c < 0) ->
  (forall a b, Z.sgn (compare b a) = - Z.sgn (compare a b)) ->
  Rep compare SkipList_new [] /\
  forall s l, Rep compare s l ->
    StronglySorted (fun a b => compare a b < 0) l /\
    (forall key, (forall k, In k l -> compare k key <> 0) ->
       exists s', Insert compare s key = Some s' /\ Rep compare s' (insert_before compare key l)) /\
    (forall key, Contains compare s key = Some (existsb (fun k => compare k key =? 0) l)) /\
    (forall target, At compare s (Iter_Seek compare s target)
       (List.filter (fun k => compare k target <? 0) l) (List.filter (fun k => negb (compare k target <? 0)) l)) /\
    At compare s (Iter_SeekToFirst s) [] l /\
    (l = [] -> Iter_SeekToLast s = None) /\ (forall l' k, l = l' ++ [k] -> At compare s (Iter_SeekToLast s) l' [k]) /\
    (forall it pre post, At compare s it pre post -> Iter_key s it = hd_error post /\ (Iter_Valid it = true <-> post <> [])) /\
    (forall it pre k post, At compare s it pre (k :: post) ->
       At compare s (Iter_Next s it) (pre ++ [k]) post /\ (pre = [] -> Iter_Prev compare s it = None) /\
       forall pre' k', pre = pre' ++ [k'] -> At compare s (Iter_Prev compare s it) pre' (k' :: k :: post)).
Proof.
  intros Key compare Ht Hs. split; [apply Rep_new; assumption|]. intros s l HR.
  split; [eapply Rep_sorted; eauto|]. split; [intros key Hf; apply Insert_spec; assumption|]. split; [intros key; apply Contains_exists; assumption|].
  split; [intros target; apply Seek_spec; assumption|]. split; [apply SeekToFirst_spec; assumption|].
  split; [apply (SeekToLast_spec compare Hs s l HR)|]. split; [apply (SeekToLast_spec compare Hs s l HR)|]. split; [intros it pre post HA; apply (At_key compare s it pre post HA)|].
  intros it pre k post HA. split; [apply At_Next; assumption|]. apply At_Prev; assumption.
Qed.

Definition zcompare (a b : Z) : Z := a - b.

Lemma skiplist_refines_sorted_list_witness : exists s,
  Insert zcompare SkipList_new 5 = Some s /\ Contains zcompare s 5 = Some true /\ Contains zcompare s 4 = Some false /\
  At zcompare s (Iter_Seek zcompare s 3) [] [5] /\ At zcompare s (Iter_SeekToLast s) [] [5].
Proof.
  destruct (skiplist_refines_sorted_list Z zcompare) as [H0 H]; [unfold zcompare; lia|unfold zcompare; lia|].
  destruct (H SkipList_new [] H0) as (_ & HI & _). destruct (HI 5) as (s & E & HR); [intros k []|]. exists s. split; [exact E|].
  destruct (H s _ HR) as (_ & _ & HC & HK & _ & _ & HL & _). split; [exact (HC 5)|]. split; [exact (HC 4)|]. split; [exact (HK 3)|]. apply (HL [] 5). reflexivity.
Defined.

Lemma land_M31 x : x .& 2147483647 = x mod 2 ^ 31.
Proof. change 2147483647 with (Z.ones 31). apply Z.land_ones. lia. Qed.

(** The random generator is the Lehmer sequence: from a seed the
    constructor can leave, [Next] returns [seed * 16807 mod (2^31 - 1)] without
    a division, and the seed stays in [1 .. 2^31 - 2], so it never gets stuck. *)
Theorem random_next_lehmer : forall r,
  1 <= Random_new r <= 2147483646 /\
  (1 <= r <= 2147483646 ->
   fst (Random_Next r) = (r * 16807) mod 2147483647 /\
   snd (Random_Next r) = fst (Random_Next r) /\ 1 <= fst (Random_Next r) <= 2147483646).
Proof.
  intros r. split.
  { unfold Random_new. cbv zeta. rewrite !land_M31. pose proof (Z.mod_pos_bound r (2 ^ 31) ltac:(lia)).
    zcases; simpl; lia. }
  intros Hr. unfold Random_Next. cbv zeta. cbn [fst snd].
  rewrite (u64_small (r * 16807)) by lia.
  rewrite !land_M31, shiftr_div by lia. change (2 ^ 31) with 2147483648.
  set (p := r * 16807) in *. assert (Hp : 0 < p < 2147483647 * 16807) by lia.
  assert (Hd := Z.div_mod p 2147483648 ltac:(lia)).
  assert (Hm := Z.mod_pos_bound p 2147483648 ltac:(lia)).
  assert (Hq : 0 <= p / 2147483648 <= 16807).
  { split; [apply Z.div_pos; lia|]. apply Z.div_le_upper_bound; lia. }
  rewrite u32_small by lia. set (q := p / 2147483648) in *. set (m := p mod 2147483648) in *.
  assert (Hne : q + m <> 2147483647).
  { intros E. assert (Hdiv : (2147483647 | 16807 * r)) by (exists (q + 1); unfold p in Hd; lia).
    apply Z.gauss in Hdiv; [|reflexivity]. destruct Hdiv as [k Hk]. nia. }
  assert (Hmod : p mod 2147483647 = if 2147483647 <? q + m then q + m - 2147483647 else q + m).
  { symmetry. destruct (Z.ltb_spec 2147483647 (q + m)).
    - apply (Z.mod_unique_pos p 2147483647 (q + 1)); lia.
    - apply (Z.mod_unique_pos p 2147483647 q); lia. }
  rewrite Hmod. split; [reflexivity|]. split; [reflexivity|].
  destruct (Z.ltb_spec 2147483647 (q + m)); [lia|].
  split; [|lia]. assert (p mod 2147483647 <> 0); [|lia].
  intros E. apply Z.mod_divide in E; [|lia]. unfold p in E. rewrite Z.mul_comm in E.
  apply Z.gauss in E; [|reflexivity]. destruct E as [k Hk]. nia.
Qed.
