(* ===== verification/Arena.v ===== *)
(** * The arena (util/arena.h, util/arena.cc)

    Memory is handed out from blocks.  An address is the index of a block and an
    offset in it; a block starts at an address that is a multiple of 8, as
    operator new[] guarantees.  Only where the regions lie is modelled, not their
    contents. *)

From S2P Require Import Prelude.
#[local] Open Scope Z_scope.
#[local] Open Scope ldb_scope.

Definition kArenaBlockSize : Z := 4096.

Abbreviation address := (nat * Z)%type.

Record Arena := mkArena {
  alloc_ptr_ : option address;      (* None is the null pointer *)
  alloc_bytes_remaining_ : Z;
  arena_blocks_ : list Z;                 (* the sizes of the blocks *)
  memory_usage_ : Z
}.

Definition Arena_new : Arena := mkArena None 0 [] 0.

Definition Arena_MemoryUsage (a : Arena) : Z := memory_usage_ a.

Definition Arena_AllocateNewBlock (a : Arena) (block_bytes : Z) : address * Arena :=
  ((length (arena_blocks_ a), 0),
   mkArena (alloc_ptr_ a) (alloc_bytes_remaining_ a) (arena_blocks_ a ++ [block_bytes])
     (u64 (memory_usage_ a + (block_bytes + 8)))).

Definition Arena_advance (p : address) (n : Z) : address := (fst p, snd p + n).

Definition Arena_AllocateFallback (a : Arena) (bytes : Z) : address * Arena :=
  if kArenaBlockSize / 4 <? bytes then Arena_AllocateNewBlock a bytes
  else
    let '(p, a) := Arena_AllocateNewBlock a kArenaBlockSize in
    (p, mkArena (Some (Arena_advance p bytes)) (kArenaBlockSize - bytes) (arena_blocks_ a) (memory_usage_ a)).

(** The two ways to take memory from the current block; with a null pointer no
    bytes remain. *)

Definition take_current (a : Arena) (p : address) (slop needed : Z) : address * Arena :=
  (Arena_advance p slop, mkArena (Some (Arena_advance p needed)) (alloc_bytes_remaining_ a - needed) (arena_blocks_ a) (memory_usage_ a)).

Definition Arena_Allocate (a : Arena) (bytes : Z) : address * Arena :=
  match alloc_ptr_ a with
  | Some p => if bytes <=? alloc_bytes_remaining_ a then take_current a p 0 bytes else Arena_AllocateFallback a bytes
  | None => Arena_AllocateFallback a bytes
  end.

Definition kArenaAlign : Z := 8.

Definition Arena_AllocateAligned (a : Arena) (bytes : Z) : address * Arena :=
  match alloc_ptr_ a with
  | Some p =>
      let current_mod := Z.land (snd p) (kArenaAlign - 1) in
      let slop := if current_mod =? 0 then 0 else kArenaAlign - current_mod in
      let needed := u64 (bytes + slop) in
      if needed <=? alloc_bytes_remaining_ a then take_current a p slop needed else Arena_AllocateFallback a bytes
  | None => Arena_AllocateFallback a bytes
  end.

(** A sequence of requests and the regions handed out for them, the last first. *)

Inductive request := Plain (bytes : Z) | Aligned (bytes : Z).

Record region := mkRegion { r_at : address; r_len : Z; r_aligned : bool }.

Definition serve (st : list region * Arena) (r : request) : list region * Arena :=
  let '(rs, a) := st in
  match r with
  | Plain n => let '(p, a) := Arena_Allocate a n in (mkRegion p n false :: rs, a)
  | Aligned n => let '(p, a) := Arena_AllocateAligned a n in (mkRegion p n true :: rs, a)
  end.

Definition serve_all (reqs : list request) : list region * Arena := fold_left serve reqs ([], Arena_new).

Definition request_size (r : request) : Z := match r with Plain n | Aligned n => n end.

(** ** Regions *)

Definition in_block (a : Arena) (r : region) : Prop :=
  exists n, arena_blocks_ a !! fst (r_at r) = Some n /\ 0 <= snd (r_at r) /\ 0 < r_len r /\ snd (r_at r) + r_len r <= n.

Definition disjoint_regions (r1 r2 : region) : Prop :=
  fst (r_at r1) <> fst (r_at r2) \/ snd (r_at r1) + r_len r1 <= snd (r_at r2) \/
  snd (r_at r2) + r_len r2 <= snd (r_at r1).

Definition well_aligned (r : region) : Prop := r_aligned r = true -> snd (r_at r) mod kArenaAlign = 0.

(** The free part of the current block lies behind its regions. *)

Definition free_part (rs : list region) (a : Arena) : Prop :=
  match alloc_ptr_ a with
  | None => True
  | Some (b, off) => 0 <= off /\ 0 <= alloc_bytes_remaining_ a /\
      arena_blocks_ a !! b = Some (off + alloc_bytes_remaining_ a) /\
      Forall (fun r => fst (r_at r) = b -> snd (r_at r) + r_len r <= off) rs
  end.

Fixpoint sum_blocks (bs : list Z) : Z := match bs with [] => 0 | n :: bs => n + 8 + sum_blocks bs end.

Record arena_inv (rs : list region) (a : Arena) : Prop := {
  ai_regions : Forall (in_block a) rs;
  ai_disjoint : ForallOrdPairs disjoint_regions rs;
  ai_aligned : Forall well_aligned rs;
  ai_free : free_part rs a;
  ai_blocks : Forall (fun n => 0 <= n < 2 ^ 64) (arena_blocks_ a);
  ai_usage : memory_usage_ a = u64 (sum_blocks (arena_blocks_ a))
}.

(** *** Every allocation keeps the regions apart *)

Lemma sum_blocks_snoc bs n : sum_blocks (bs ++ [n]) = sum_blocks bs + (n + 8).
Proof. induction bs as [|b bs IH]; cbn [app sum_blocks]; lia. Qed.

Lemma u64_add_idemp x y : u64 (u64 x + y) = u64 (x + y).
Proof. unfold u64. apply Zplus_mod_idemp_l. Qed.

Lemma in_block_grow a a' r n : arena_blocks_ a' = arena_blocks_ a ++ [n] -> in_block a r -> in_block a' r.
Proof.
  intros E (m & H & Hr). exists m. split; [|exact Hr]. rewrite E. apply lookup_app_l_Some, H.
Qed.

Lemma in_block_index a r : in_block a r -> (fst (r_at r) < length (arena_blocks_ a))%nat.
Proof. intros (n & H & _). exact (lookup_lt_Some _ _ _ H). Qed.

(** A region at the start of a new block. *)

Lemma new_block_region rs a n bytes al ptr rem : arena_inv rs a -> 0 < bytes <= n -> n < 2 ^ 64 ->
  let r := mkRegion (length (arena_blocks_ a), 0) bytes al in
  let a' := mkArena ptr rem (arena_blocks_ a ++ [n]) (u64 (memory_usage_ a + (n + 8))) in
  free_part (r :: rs) a' -> arena_inv (r :: rs) a'.
Proof.
  intros [HR HD HA HF HB HU] Hb Hn r a' Hfree. split.
  - constructor.
    + exists n. cbn. rewrite lookup_app_r, Nat.sub_diag by lia. split; [reflexivity|lia].
    + revert HR. apply List.Forall_impl. intros x. apply (in_block_grow a a' x n eq_refl).
  - constructor; [|exact HD]. rewrite List.Forall_forall in *. intros x Hx. left. apply HR, in_block_index in Hx. cbn. lia.
  - constructor; [intros _; reflexivity|exact HA].
  - exact Hfree.
  - cbn. apply Forall_app. split; [exact HB|]. constructor; [lia|constructor].
  - cbn. rewrite sum_blocks_snoc, HU, u64_add_idemp. reflexivity.
Qed.

Lemma fallback_inv rs a bytes al p a' : arena_inv rs a -> 0 < bytes < 2 ^ 63 -> Arena_AllocateFallback a bytes = (p, a') ->
  arena_inv (mkRegion p bytes al :: rs) a'.
Proof.
  intros HI Hb. unfold Arena_AllocateFallback. change (kArenaBlockSize / 4) with 1024.
  assert (Hold : forall x, In x rs -> (fst (r_at x) < length (arena_blocks_ a))%nat).
  { intros x Hx. pose proof (ai_regions _ _ HI) as HR. rewrite List.Forall_forall in HR. apply in_block_index, HR, Hx. }
  destruct (Z.ltb_spec 1024 bytes) as [Hl|Hl]; intros H; injection H as <- <-.
  - apply new_block_region; [exact HI|lia|lia|]. pose proof (ai_free _ _ HI) as HF. unfold free_part in *. cbn.
    destruct (alloc_ptr_ a) as [[b off]|]; [|exact I]. destruct HF as (H1 & H2 & H3 & H4). repeat split; try assumption.
    + apply lookup_app_l_Some, H3.
    + constructor; [|exact H4]. cbn. intros <-. apply lookup_lt_Some in H3. lia.
  - unfold kArenaBlockSize. apply new_block_region; [exact HI|lia|lia|]. cbn. repeat split; try lia.
    + rewrite lookup_app_r, Nat.sub_diag by lia. cbn. f_equal. lia.
    + constructor; [cbn; lia|]. apply List.Forall_forall. intros x Hx E. specialize (Hold x Hx). lia.
Qed.

(** A region behind the others of the current block. *)

Lemma take_current_inv rs a ptr bytes slop al p a' : arena_inv rs a -> alloc_ptr_ a = Some ptr ->
  0 < bytes -> 0 <= slop -> bytes + slop <= alloc_bytes_remaining_ a -> (al = true -> (snd ptr + slop) mod kArenaAlign = 0) ->
  take_current a ptr slop (bytes + slop) = (p, a') -> arena_inv (mkRegion p bytes al :: rs) a'.
Proof.
  intros [HR HD HA HF HB HU] Ep Hb Hs Hrem Hal H. injection H as <- <-. destruct ptr as [b off].
  unfold free_part in HF. rewrite Ep in HF. destruct HF as (H1 & H2 & H3 & H4). cbn [fst snd] in *. split; cbn.
  - constructor; [|exact HR]. eexists. cbn. split; [exact H3|lia].
  - constructor; [|exact HD]. rewrite List.Forall_forall in *. intros x Hx. unfold disjoint_regions. cbn.
    destruct (decide (fst (r_at x) = b)) as [E|E]; [|left; congruence]. specialize (H4 x Hx E). lia.
  - constructor; [exact Hal|exact HA].
  - repeat split; try lia.
    + rewrite H3. f_equal. lia.
    + constructor; [cbn; lia|]. revert H4. apply List.Forall_impl. intros x Hx E. specialize (Hx E). lia.
  - exact HB.
  - exact HU.
Qed.

Lemma slop_aligns off : 0 <= off ->
  let m := Z.land off (kArenaAlign - 1) in
  let slop := if m =? 0 then 0 else kArenaAlign - m in 0 <= slop < kArenaAlign /\ (off + slop) mod kArenaAlign = 0.
Proof.
  intros H m slop. subst m slop. change (kArenaAlign - 1) with (Z.ones 3). rewrite Z.land_ones by lia. change (2 ^ 3) with 8.
  unfold kArenaAlign. pose proof (Z.mod_pos_bound off 8 ltac:(lia)). destruct (Z.eqb_spec (off mod 8) 0) as [E|E].
  - rewrite Z.add_0_r. lia.
  - split; [lia|]. replace (off + (8 - off mod 8)) with ((off / 8 + 1) * 8) by (pose proof (Z.div_mod off 8); lia).
    apply Z.mod_mul. lia.
Qed.

Lemma current_off rs a ptr : arena_inv rs a -> alloc_ptr_ a = Some ptr -> 0 <= snd ptr.
Proof. intros HI E. pose proof (ai_free _ _ HI) as HF. unfold free_part in HF. rewrite E in HF. destruct ptr. apply HF. Qed.

Lemma serve_inv rs a r rs' a' : arena_inv rs a -> 0 < request_size r < 2 ^ 63 -> serve (rs, a) r = (rs', a') ->
  arena_inv rs' a'.
Proof.
  intros HI Hb. destruct r as [n|n]; cbn [request_size serve] in *.
  - destruct (Arena_Allocate a n) as [p a1] eqn:E. intros H. injection H as <- <-. unfold Arena_Allocate in E.
    destruct (alloc_ptr_ a) as [ptr|] eqn:Ep; [|exact (fallback_inv _ _ _ _ _ _ HI Hb E)].
    destruct (Z.leb_spec n (alloc_bytes_remaining_ a)) as [Hl|Hl]; [|exact (fallback_inv _ _ _ _ _ _ HI Hb E)].
    rewrite <- (Z.add_0_r n) in E at 1. apply (take_current_inv rs a ptr n 0 false p a1 HI Ep); [lia..|discriminate|exact E].
  - destruct (Arena_AllocateAligned a n) as [p a1] eqn:E. intros H. injection H as <- <-. unfold Arena_AllocateAligned in E.
    destruct (alloc_ptr_ a) as [ptr|] eqn:Ep; [|exact (fallback_inv _ _ _ _ _ _ HI Hb E)].
    destruct (slop_aligns (snd ptr) (current_off _ _ _ HI Ep)) as [Hs Hm]. cbv zeta in E, Hs, Hm.
    set (slop := if _ =? _ then 0 else _) in *. unfold kArenaAlign in Hs. rewrite u64_small in E by lia.
    destruct (Z.leb_spec (n + slop) (alloc_bytes_remaining_ a)) as [Hl|Hl]; [|exact (fallback_inv _ _ _ _ _ _ HI Hb E)].
    apply (take_current_inv rs a ptr n slop true p a1 HI Ep); [lia..|intros _; exact Hm|exact E].
Qed.

Lemma serve_all_inv reqs rs a : Forall (fun r => 0 < request_size r < 2 ^ 63) reqs -> arena_inv rs a ->
  arena_inv (fst (fold_left serve reqs (rs, a))) (snd (fold_left serve reqs (rs, a))).
Proof.
  intros HF. revert rs a. induction HF as [|r reqs Hr HF IH]; intros rs a HI; [exact HI|]. cbn [fold_left].
  destruct (serve (rs, a) r) as [rs1 a1] eqn:E. exact (IH _ _ (serve_inv _ _ _ _ _ HI Hr E)).
Qed.

Lemma Arena_new_inv : arena_inv [] Arena_new.
Proof. split; constructor. Qed.

(** ** Properties *)

(** The arena hands out memory that is its own: for any sequence of plain and
    aligned requests of positive size, every region returned lies inside one
    block, no two regions overlap, aligned requests are answered at multiples of
    8, and the memory usage is the size of all blocks with 8 bytes of overhead
    each (modulo 2^64). *)
Theorem arena_regions_disjoint : forall reqs, Forall (fun r => 0 < request_size r < 2 ^ 63) reqs ->
  let '(rs, a) := serve_all reqs in
  rev (map r_len rs) = map request_size reqs /\ Forall (in_block a) rs /\ ForallOrdPairs disjoint_regions rs /\
  Forall well_aligned rs /\ Arena_MemoryUsage a = u64 (sum_blocks (arena_blocks_ a)).
Proof.
  intros reqs HF. pose proof (serve_all_inv reqs [] Arena_new HF Arena_new_inv) as HI. unfold serve_all.
  assert (HL : forall rs a, rev (map r_len (fst (fold_left serve reqs (rs, a)))) = rev (map r_len rs) ++ map request_size reqs).
  { clear. induction reqs as [|r reqs IH]; intros rs a; [cbn; rewrite app_nil_r; reflexivity|].
    cbn [fold_left]. destruct (serve (rs, a) r) as [rs1 a1] eqn:E. rewrite IH.
    assert (rev (map r_len rs1) = rev (map r_len rs) ++ [request_size r]) as ->.
    { destruct r; cbn in E; [destruct (Arena_Allocate a bytes)|destruct (Arena_AllocateAligned a bytes)]; injection E as <- <-; reflexivity. }
    rewrite <- app_assoc. reflexivity. }
  specialize (HL [] Arena_new). destruct (fold_left serve reqs ([], Arena_new)) as [rs a]. destruct HI as [H1 H2 H3 _ _ H4].
  repeat split; assumption.
Qed.

Lemma arena_regions_disjoint_witness :
  let '(rs, a) := serve_all [Aligned 104; Plain 13; Aligned 24; Plain 2000; Plain 4000] in
  rev (map r_len rs) = [104; 13; 24; 2000; 4000] /\ Forall (in_block a) rs /\ ForallOrdPairs disjoint_regions rs /\
  Forall well_aligned rs /\ Arena_MemoryUsage a = u64 (sum_blocks (arena_blocks_ a)).
Proof.
  apply (arena_regions_disjoint [Aligned 104; Plain 13; Aligned 24; Plain 2000; Plain 4000]).
  repeat (constructor; [cbn; lia|]). constructor.
Defined.

