(* ===== verification/MemTable.v ===== *)
(** * The memtable (db/memtable.cc)

    A memtable is a skip list of encoded entries and the list of its range
    tombstones.  Memory comes from an arena in the code; here an entry is the
    byte string it occupies.  The main theorem shows that a memtable answers
    every lookup as the history of operations added to it prescribes. *)

From S2P Require Import Prelude Coding Compare DbFormat Logging SkipList Arena.
#[local] Open Scope Z_scope.
#[local] Open Scope ldb_scope.

Section MemTable.
Context (C : Comparator).

(** The file-local [GetLengthPrefixedSlice(const char* data)]: the varint is
    read from at most five bytes, the slice follows it. *)

Definition varint_at (data : bytes) : option (Z * bytes) :=
  match GetVarint32Ptr (take 5 data) with
  | Some (len, q) => Some (len, drop (length (take 5 data) - length q) data)
  | None => None
  end.

Definition MT_GetLengthPrefixedSlice (data : bytes) : bytes :=
  match varint_at data with
  | Some (len, p) => take (Z.to_nat len) p
  | None => []
  end.

Definition MT_KeyComparator (aptr bptr : bytes) : Z :=
  IKC_Compare C (MT_GetLengthPrefixedSlice aptr) (MT_GetLengthPrefixedSlice bptr).

Record MemTable := mkMemTable {
  table : SkipList (Key := bytes);
  range_deletions : RangeDeletionList;
  arena : Arena
}.

(** The memory of a skip list node: the key pointer and [height] links. *)

Definition node_size (height : nat) : Z := 16 + 8 * (Z.of_nat height - 1).

(** The constructor of the skip list allocates its head node. *)

Definition MemTable_new : MemTable :=
  mkMemTable SkipList_new [] (snd (Arena_AllocateAligned Arena_new (node_size kMaxHeight))).

Definition MT_ApproximateMemoryUsage (m : MemTable) : Z := Arena_MemoryUsage (arena m).

(** The bytes [Add] writes into the arena. *)

Definition MT_EncodeEntry (s : Z) (type : ValueType) (key value : bytes) : bytes :=
  let key_size := sz key in
  let val_size := sz value in
  let internal_key_size := key_size + 8 in
  EncodeVarint32 (u32 internal_key_size) ++ key ++
  EncodeFixed64 (u64 (s << 8) .| vt_code type) ++
  EncodeVarint32 (u32 val_size) ++ value.

Definition MemTable_Add (m : MemTable) (s : Z) (type : ValueType) (key value : bytes)
  : option MemTable :=
  let buf := MT_EncodeEntry s type key value in
  let a := snd (Arena_Allocate (arena m) (sz buf)) in
  match Insert MT_KeyComparator (table m) buf with
  | None => None
  | Some t =>
      let a := snd (Arena_AllocateAligned a (node_size (fst (RandomHeight (rnd (table m)))))) in
      Some (mkMemTable t
        (if decide (type = kTypeRangeDeletion)
         then RDL_Add (range_deletions m) key value s else range_deletions m) a)
  end.

(** The outcome of [Get]: [true] with a value, [true] with a NotFound status,
    or [false]. *)

Inductive GetResult := Found (value : bytes) | Deleted | Absent.

(** The entry's key bytes and the bytes after them. *)

Definition MT_split (entry : bytes) : bytes * bytes :=
  match varint_at entry with
  | Some (key_length, key_ptr) =>
      (take (Z.to_nat key_length) key_ptr, drop (Z.to_nat key_length) key_ptr)
  | None => ([], [])
  end.

Fixpoint MemTable_Get_loop (fuel : nat) (m : MemTable) (it : Iter)
    (user_key : bytes) (read_seq : Z) : option GetResult :=
  match fuel with
  | O => None
  | S fuel =>
      match Iter_key (table m) it with
      | Some entry =>
          let '(ikey, after) := MT_split entry in
          if cmp (ExtractUserKey ikey) user_key =? 0 then
            let tag := ExtractTag ikey in
            let found_seq := tag >> 8 in
            if RDL_IsDeleted (range_deletions m) user_key found_seq read_seq
            then Some Deleted
            else match vt_of_code (tag .& 255) with
                 | Some kTypeValue => Some (Found (MT_GetLengthPrefixedSlice after))
                 | Some kTypeDeletion => Some Deleted
                 | Some kTypeRangeDeletion =>
                     MemTable_Get_loop fuel m (Iter_Next (table m) it) user_key read_seq
                 | None => MemTable_Get_loop fuel m it user_key read_seq
                 end
          else if RDL_IsDeleted (range_deletions m) user_key 0 read_seq
               then Some Deleted else Some Absent
      | None => if RDL_IsDeleted (range_deletions m) user_key 0 read_seq
                then Some Deleted else Some Absent
      end
  end.

Definition MemTable_Get (m : MemTable) (key : LookupKey) : option GetResult :=
  let it := Iter_Seek MT_KeyComparator (table m) (memtable_key key) in
  let read_seq := ExtractTag (internal_key key) >> 8 in
  MemTable_Get_loop (S (length (nodes (table m)))) m it (lookup_user_key key) read_seq.

(** ** Histories: the abstract meaning of a sequence of operations *)

Inductive Op :=
| OpPut (key value : bytes)
| OpDelete (key : bytes)
| OpDeleteRange (start_key end_key : bytes).

(** What the last operation at or before [s] that touches [u] left there:
    [None] nothing, [Some None] a deletion, [Some (Some v)] a value. *)

Definition touches (op : Op) (u : bytes) : option (option bytes) :=
  match op with
  | OpPut k v => if decide (k = u) then Some (Some v) else None
  | OpDelete k => if decide (k = u) then Some None else None
  | OpDeleteRange a b =>
      if (lex a u <=? 0) && (lex u b <? 0) then Some None else None
  end.

Definition history_step (u : bytes) (s : Z) (acc : option (option bytes)) (qo : Z * Op) :=
  if fst qo <=? s then match touches (snd qo) u with Some r => Some r | None => acc end else acc.

Definition history_get (h : list (Z * Op)) (u : bytes) (s : Z) : option (option bytes) :=
  fold_left (history_step u s) h None.

Definition result_of (r : option (option bytes)) : GetResult :=
  match r with None => Absent | Some None => Deleted | Some (Some v) => Found v end.

(** How [MemTableInserter] adds an operation. *)

Definition op_type (op : Op) : ValueType :=
  match op with
  | OpPut _ _ => kTypeValue | OpDelete _ => kTypeDeletion | OpDeleteRange _ _ => kTypeRangeDeletion
  end.

Definition op_key (op : Op) : bytes :=
  match op with OpPut k _ => k | OpDelete k => k | OpDeleteRange a _ => a end.

Definition op_value (op : Op) : bytes :=
  match op with OpPut _ v => v | OpDelete _ => [] | OpDeleteRange _ b => b end.

Definition MemTable_AddOp (m : MemTable) (qo : Z * Op) : option MemTable :=
  MemTable_Add m (fst qo) (op_type (snd qo)) (op_key (snd qo)) (op_value (snd qo)).

Fixpoint MemTable_AddAll (m : MemTable) (h : list (Z * Op)) : option MemTable :=
  match h with
  | [] => Some m
  | qo :: h => match MemTable_AddOp m qo with Some m => MemTable_AddAll m h | None => None end
  end.

End MemTable.

(** ** Entries *)

Definition op_fits (op : Op) : Prop :=
  sz (op_key op) + 8 < 2 ^ 32 /\ sz (op_value op) < 2 ^ 32.

Definition entry_ikey (qo : Z * Op) : bytes :=
  mkInternalKey (op_key (snd qo)) (fst qo) (op_type (snd qo)).

Definition entry_bytes (qo : Z * Op) : bytes :=
  MT_EncodeEntry (fst qo) (op_type (snd qo)) (op_key (snd qo)) (op_value (snd qo)).

Lemma varint_at_encode v rest :
  0 <= v < 2 ^ 32 -> varint_at (EncodeVarint32 v ++ rest) = Some (v, rest).
Proof.
  intros Hv. unfold varint_at.
  assert (Hlen : (length (EncodeVarint32 v) <= 5)%nat).
  { rewrite EncodeVarint32_loop by assumption. apply EncodeVarint64_loop_length. }
  rewrite take_app. rewrite (take_ge (EncodeVarint32 v)) by lia.
  change GetVarint32Ptr with GetVarint32. rewrite varint32_get by assumption.
  rewrite length_app. f_equal. f_equal.
  replace (length (EncodeVarint32 v) + length (take (5 - length (EncodeVarint32 v)) rest) -
    length (take (5 - length (EncodeVarint32 v)) rest))%nat with (length (EncodeVarint32 v)) by lia.
  apply drop_app_length.
Qed.

Lemma entry_bytes_split (qo : Z * Op) :
  op_fits (snd qo) ->
  entry_bytes qo = EncodeVarint32 (sz (entry_ikey qo)) ++ entry_ikey qo ++
    EncodeVarint32 (sz (op_value (snd qo))) ++ op_value (snd qo) /\
  0 <= sz (entry_ikey qo) < 2 ^ 32.
Proof.
  intros [H1 H2]. pose proof (sz_nonneg (op_key (snd qo))). pose proof (sz_nonneg (op_value (snd qo))).
  assert (E : sz (entry_ikey qo) = sz (op_key (snd qo)) + 8).
  { unfold entry_ikey, sz. rewrite mkInternalKey_length. lia. }
  rewrite E. split; [|lia]. unfold entry_bytes, MT_EncodeEntry. cbv zeta.
  rewrite !u32_small by lia. unfold entry_ikey. rewrite mkInternalKey_eq.
  rewrite <- app_assoc. reflexivity.
Qed.

Lemma MT_slice_entry (qo : Z * Op) :
  op_fits (snd qo) -> MT_GetLengthPrefixedSlice (entry_bytes qo) = entry_ikey qo.
Proof.
  intros H. destruct (entry_bytes_split qo H) as [-> Hr]. unfold MT_GetLengthPrefixedSlice.
  rewrite varint_at_encode by assumption. apply take_sz_app.
Qed.

Lemma MT_split_entry (qo : Z * Op) :
  op_fits (snd qo) ->
  MT_split (entry_bytes qo) = (entry_ikey qo,
    EncodeVarint32 (sz (op_value (snd qo))) ++ op_value (snd qo)).
Proof.
  intros H. destruct (entry_bytes_split qo H) as [-> Hr]. unfold MT_split.
  rewrite varint_at_encode by assumption. rewrite take_sz_app, drop_sz_app. reflexivity.
Qed.

Lemma MT_value_entry (qo : Z * Op) :
  op_fits (snd qo) ->
  MT_GetLengthPrefixedSlice (EncodeVarint32 (sz (op_value (snd qo))) ++ op_value (snd qo))
  = op_value (snd qo).
Proof.
  intros [_ H]. unfold MT_GetLengthPrefixedSlice.
  rewrite varint_at_encode by (split; [apply sz_nonneg|assumption]).
  rewrite sz_to_nat. apply take_ge. lia.
Qed.

(** ** Correctness *)

Section MemTableOk.
Context {C : Comparator} {COK : ComparatorOk C}.
Hypothesis all_keys : forall u, @cmp_dom C u.

Lemma KeyComparator_trans a b c :
  MT_KeyComparator C a b < 0 -> MT_KeyComparator C b c < 0 -> MT_KeyComparator C a c < 0.
Proof.
  unfold MT_KeyComparator. rewrite !IKC_lt. intros [H1|[H1 T1]] [H2|[H2 T2]].
  - left. eapply cmp_trans; [..|exact H1|exact H2]; apply all_keys.
  - apply cmp_eq in H2; auto. rewrite <- H2. auto.
  - apply cmp_eq in H1; auto. rewrite H1. auto.
  - apply cmp_eq in H1; auto. apply cmp_eq in H2; auto. rewrite H1, H2. right.
    split; [apply cmp_refl; auto|lia].
Qed.

Lemma KeyComparator_sgn a b :
  Z.sgn (MT_KeyComparator C b a) = - Z.sgn (MT_KeyComparator C a b).
Proof.
  unfold MT_KeyComparator, IKC_Compare. cbv zeta.
  set (x := MT_GetLengthPrefixedSlice a). set (y := MT_GetLengthPrefixedSlice b).
  pose proof (cmp_sgn (ExtractUserKey x) (ExtractUserKey y) (all_keys _) (all_keys _)).
  zcases; lia.
Qed.

#[local] Abbreviation MRep := (Rep (MT_KeyComparator C)).

(** [es] are the operations added, in the order of the memtable. *)

Record MInv (m : MemTable) (es : list (Z * Op)) : Prop := {
  minv_rep : MRep (table m) (map entry_bytes es);
  minv_fits : Forall (fun qo => op_fits (snd qo)) es;
  minv_seq : Forall (fun qo => 0 < fst qo <= kMaxSequenceNumber) es;
  minv_dels : forall u f r, RDL_IsDeleted (range_deletions m) u f r =
    existsb (fun qo => match snd qo with
                       | OpDeleteRange a b => coversb u f r (mkRangeDel a b (fst qo))
                       | _ => false
                       end) es
}.

(** The order of entries: by user key, newest first. *)

Definition entry_lt (e1 e2 : Z * Op) : Prop :=
  IKC_Compare C (entry_ikey e1) (entry_ikey e2) < 0.

Lemma KeyComparator_entries e1 e2 :
  op_fits (snd e1) -> op_fits (snd e2) ->
  MT_KeyComparator C (entry_bytes e1) (entry_bytes e2) =
  IKC_Compare C (entry_ikey e1) (entry_ikey e2).
Proof. intros H1 H2. unfold MT_KeyComparator. rewrite !MT_slice_entry by assumption. reflexivity. Qed.

Lemma MInv_new : MInv MemTable_new [].
Proof.
  split; [|constructor|constructor|reflexivity].
  apply Rep_new.
Qed.

Lemma filter_map_entries es f :
  List.filter f (map entry_bytes es) = map entry_bytes (List.filter (fun e => f (entry_bytes e)) es).
Proof.
  induction es as [|e es IH]; [reflexivity|]. simpl. destruct (f (entry_bytes e)); simpl; congruence.
Qed.

Definition insert_entry (e : Z * Op) (es : list (Z * Op)) : list (Z * Op) :=
  List.filter (fun x => IKC_Compare C (entry_ikey x) (entry_ikey e) <? 0) es ++
  e :: List.filter (fun x => negb (IKC_Compare C (entry_ikey x) (entry_ikey e) <? 0)) es.

Lemma insert_entry_in e es x : In x (insert_entry e es) <-> x = e \/ In x es.
Proof.
  unfold insert_entry. rewrite in_app_iff. simpl. rewrite !filter_In.
  destruct (IKC_Compare C (entry_ikey x) (entry_ikey e) <? 0); simpl; intuition congruence.
Qed.

Lemma insert_entry_Forall (P : Z * Op -> Prop) e es :
  P e -> Forall P es -> Forall P (insert_entry e es).
Proof.
  rewrite !List.Forall_forall. intros He Hes x Hx.
  apply insert_entry_in in Hx as [->|Hx]; auto.
Qed.

Lemma existsb_insert_entry f e es : existsb f (insert_entry e es) = f e || existsb f es.
Proof.
  apply eq_true_iff_eq. rewrite orb_true_iff, !existsb_exists.
  setoid_rewrite insert_entry_in. split.
  - intros (x & [->|Hx] & Hf); eauto.
  - intros [Hf|(x & Hx & Hf)]; eauto.
Qed.

Lemma entry_distinct e1 e2 :
  0 < fst e1 <= kMaxSequenceNumber -> 0 < fst e2 <= kMaxSequenceNumber -> fst e1 <> fst e2 ->
  IKC_Compare C (entry_ikey e1) (entry_ikey e2) <> 0.
Proof.
  intros H1 H2 Hne E. apply IKC_eq0 in E as [_ E]. unfold entry_ikey in E.
  rewrite !mkInternalKey_tag, !PackSequenceAndType_eq in E by lia.
  pose proof (vt_code_range (op_type (snd e1))). pose proof (vt_code_range (op_type (snd e2))). lia.
Qed.

Lemma MemTable_Add_inv m es qo :
  MInv m es -> op_fits (snd qo) -> 0 < fst qo <= kMaxSequenceNumber ->
  Forall (fun e => fst e <> fst qo) es ->
  exists m', MemTable_AddOp C m qo = Some m' /\ MInv m' (insert_entry qo es).
Proof.
  intros [HR HF HS HD] Hfit Hseq Hne. unfold MemTable_AddOp, MemTable_Add.
  fold (entry_bytes qo).
  destruct (Insert_spec (MT_KeyComparator C) KeyComparator_trans KeyComparator_sgn
    (table m) (map entry_bytes es) (entry_bytes qo) HR) as (t & -> & HR').
  { intros k Hk. apply in_map_iff in Hk as (e & <- & He).
    rewrite List.Forall_forall in *. rewrite KeyComparator_entries by auto.
    apply entry_distinct; auto. }
  eexists. split; [reflexivity|]. split; cbn [table range_deletions].
  - replace (map entry_bytes (insert_entry qo es))
      with (insert_before (MT_KeyComparator C) (entry_bytes qo) (map entry_bytes es)); [exact HR'|].
    unfold insert_before, insert_entry. rewrite map_app, !filter_map_entries. cbn [map].
    rewrite List.Forall_forall in HF.
    f_equal; [|f_equal]; f_equal; apply filter_ext_in; intros e He;
      rewrite KeyComparator_entries by auto; reflexivity.
  - apply insert_entry_Forall; assumption.
  - apply insert_entry_Forall; assumption.
  - intros u f r. rewrite existsb_insert_entry, <- HD.
    destruct (snd qo) as [k v|k|a b]; cbn [op_type op_key op_value]; try reflexivity.
    rewrite decide_True by reflexivity. unfold RDL_Add.
    rewrite RDL_IsDeleted_app, (RDL_IsDeleted_existsb [_]). simpl.
    rewrite orb_false_r. apply orb_comm.
Qed.

(** ** Lookups *)

(** What [Get] computes, on the entries from the iterator's position on. *)

Fixpoint get_run (del : Z -> bool) (u : bytes) (post : list (Z * Op)) : GetResult :=
  match post with
  | e :: post =>
      if decide (op_key (snd e) = u) then
        if del (fst e) then Deleted
        else match snd e with
             | OpPut _ v => Found v
             | OpDelete _ => Deleted
             | OpDeleteRange _ _ => get_run del u post
             end
      else if del 0 then Deleted else Absent
  | [] => if del 0 then Deleted else Absent
  end.

Lemma MemTable_Get_loop_spec m u s post : forall fuel it pre,
  At (MT_KeyComparator C) (table m) it pre (map entry_bytes post) ->
  Forall (fun qo => op_fits (snd qo)) post ->
  Forall (fun qo => 0 < fst qo <= kMaxSequenceNumber) post ->
  (length post < fuel)%nat ->
  MemTable_Get_loop C fuel m it u s =
  Some (get_run (fun f => RDL_IsDeleted (range_deletions m) u f s) u post).
Proof.
  induction post as [|e post IH]; intros fuel it pre HA HF HS Hf;
    (destruct fuel as [|fuel]; [simpl in Hf; lia|]); cbn [MemTable_Get_loop].
  - destruct (At_key _ _ _ _ _ HA) as [-> _]. simpl.
    destruct (RDL_IsDeleted _ _ _ _); reflexivity.
  - destruct (At_key _ _ _ _ _ HA) as [-> _]. cbn [map hd_error get_run].
    inv HF. inv HS. rewrite MT_split_entry by assumption.
    unfold entry_ikey. cbv zeta. rewrite !mkInternalKey_user, !mkInternalKey_tag by lia.
    destruct (PackSequenceAndType_unpack (fst e) (op_type (snd e)) ltac:(lia)) as [E1 E2].
    rewrite E1, E2, vt_of_code_code.
    destruct (decide (op_key (snd e) = u)) as [->|Hne].
    + rewrite (cmp_refl u) by apply all_keys. cbn [Z.eqb].
      destruct (RDL_IsDeleted _ _ _ _); [reflexivity|].
      pose proof (MT_value_entry e H1) as Hv.
      destruct e as [q [k v|k|a b]]; cbn [snd fst op_type op_key op_value] in *; try congruence.
      eapply IH; [eapply At_Next; exact HA|assumption|assumption|simpl in Hf; lia].
    + destruct (Z.eqb_spec (cmp (op_key (snd e)) u) 0) as [E|E].
      { apply cmp_eq in E; auto. contradiction. }
      destruct (RDL_IsDeleted _ _ _ _); reflexivity.
Qed.

(** The entries of [u] a reader at [s] can see, newest first. *)

Definition visible (u : bytes) (s : Z) (es : list (Z * Op)) : list (Z * Op) :=
  List.filter (fun e => bool_decide (op_key (snd e) = u) && (fst e <=? s)) es.

Definition not_before (k : bytes) (e : Z * Op) : bool :=
  negb (IKC_Compare C (entry_ikey e) k <? 0).

Lemma not_before_seek u s e :
  0 <= s <= kMaxSequenceNumber -> 0 < fst e <= kMaxSequenceNumber ->
  not_before (mkInternalKey u s kValueTypeForSeek) e = true <->
  cmp u (op_key (snd e)) < 0 \/ (op_key (snd e) = u /\ fst e <= s).
Proof.
  intros Hs He. unfold not_before. rewrite negb_true_iff, Z.ltb_ge.
  pose proof (IKC_lt (entry_ikey e) (mkInternalKey u s kValueTypeForSeek)) as H.
  unfold entry_ikey in *. rewrite !mkInternalKey_user, !mkInternalKey_tag in H by lia.
  rewrite !PackSequenceAndType_eq in H by lia.
  pose proof (vt_code_range (op_type (snd e))). simpl vt_code in H.
  pose proof (cmp_gt_lt (op_key (snd e)) u (all_keys _) (all_keys _)).
  pose proof (cmp_eq (op_key (snd e)) u (all_keys _) (all_keys _)).
  split; [intros; destruct (Z.lt_trichotomy (cmp (op_key (snd e)) u) 0) as [|[|]]|];
    intuition (try lia).
Qed.

Lemma get_run_visible del u s es :
  0 <= s <= kMaxSequenceNumber ->
  Forall (fun qo => 0 < fst qo <= kMaxSequenceNumber) es ->
  StronglySorted entry_lt es ->
  get_run del u (List.filter (not_before (mkInternalKey u s kValueTypeForSeek)) es) =
  get_run del u (visible u s es).
Proof.
  intros Hs HF HSort. induction HSort as [|e es HSort IH HFe]; [reflexivity|]. inv HF.
  specialize (IH H2). unfold visible in *. cbn [List.filter].
  pose proof (not_before_seek u s e Hs H1) as Hn.
  destruct (not_before (mkInternalKey u s kValueTypeForSeek) e) eqn:En.
  - destruct (decide (op_key (snd e) = u)) as [Eu|Eu].
    + rewrite bool_decide_eq_true_2 by assumption.
      assert (fst e <= s).
      { destruct (proj1 Hn eq_refl) as [Hlt|[_ Hle]]; [|exact Hle].
        rewrite Eu, cmp_refl in Hlt by apply all_keys. lia. }
      rewrite (proj2 (Z.leb_le _ _)) by assumption. cbn [andb get_run].
      rewrite !decide_True by assumption. rewrite IH. reflexivity.
    + rewrite bool_decide_eq_false_2 by assumption. cbn [andb get_run].
      rewrite decide_False by assumption.
      assert (Hlt : cmp u (op_key (snd e)) < 0) by (destruct (proj1 Hn eq_refl); tauto).
      assert (Hnil : List.filter (fun x => bool_decide (op_key (snd x) = u) && (fst x <=? s)) es = []).
      { clear IH HSort H2. induction HFe as [|x es Hx HFe IH]; [reflexivity|]. simpl.
        unfold entry_lt in Hx. apply IKC_lt in Hx. unfold entry_ikey in Hx.
        rewrite !mkInternalKey_user in Hx.
        assert (Hux : op_key (snd x) <> u).
        { intros Eu'. rewrite Eu' in Hx.
          pose proof (cmp_sgn u (op_key (snd e)) (all_keys _) (all_keys _)). lia. }
        rewrite bool_decide_eq_false_2 by exact Hux. exact IH. }
      rewrite Hnil. reflexivity.
  - destruct (decide (op_key (snd e) = u)) as [Eu|Eu].
    + destruct (Z.leb_spec (fst e) s); [|rewrite andb_false_r; exact IH].
      assert (false = true) by (apply Hn; auto). discriminate.
    + rewrite bool_decide_eq_false_2 by assumption. exact IH.
Qed.

Lemma MInv_sorted m es : MInv m es -> StronglySorted entry_lt es.
Proof.
  intros [HR HF HS HD]. apply Rep_sorted in HR.
  clear HS HD. induction es as [|e es IH]; [constructor|]. simpl in HR. inv HR. inv HF.
  constructor; [auto|]. rewrite List.Forall_forall in *. intros x Hx.
  unfold entry_lt. rewrite <- KeyComparator_entries by auto. apply H2. apply in_map, Hx.
Qed.

Lemma MemTable_Get_visible m es u s :
  MInv m es -> 0 <= s <= kMaxSequenceNumber -> sz u + 8 < 2 ^ 32 ->
  MemTable_Get C m (MakeLookupKey u s) =
  Some (get_run (fun f => RDL_IsDeleted (range_deletions m) u f s) u (visible u s es)).
Proof.
  intros HI Hs Hu. pose proof (MInv_sorted m es HI) as HSort. destruct HI as [HR HF HS HD].
  rewrite <- get_run_visible by assumption.
  set (lk := MakeLookupKey u s).
  assert (Ek : MT_GetLengthPrefixedSlice (memtable_key lk) = mkInternalKey u s kValueTypeForSeek).
  { unfold lk, MakeLookupKey. cbn [memtable_key]. unfold MT_GetLengthPrefixedSlice.
    pose proof (sz_nonneg u). rewrite u32_small by lia. rewrite varint_at_encode by lia.
    apply take_ge. unfold sz. rewrite mkInternalKey_length. lia. }
  pose proof (Seek_spec (MT_KeyComparator C) KeyComparator_trans KeyComparator_sgn
    (table m) _ (memtable_key lk) HR) as HA.
  rewrite !filter_map_entries in HA.
  assert (Ef : forall e, In e es ->
    negb (MT_KeyComparator C (entry_bytes e) (memtable_key lk) <? 0) =
    not_before (mkInternalKey u s kValueTypeForSeek) e).
  { intros e He. rewrite List.Forall_forall in HF. unfold MT_KeyComparator, not_before.
    rewrite Ek, MT_slice_entry by auto. reflexivity. }
  rewrite (filter_ext_in _ _ _ Ef) in HA.
  unfold MemTable_Get. cbv zeta. fold lk.
  assert (Eu : lookup_user_key lk = u) by apply mkInternalKey_user.
  assert (Es : ExtractTag (internal_key lk) >> 8 = s).
  { change (internal_key lk) with (mkInternalKey u s kValueTypeForSeek).
    rewrite mkInternalKey_tag by assumption. apply PackSequenceAndType_unpack. assumption. }
  rewrite Eu, Es. eapply MemTable_Get_loop_spec.
  - exact HA.
  - apply List.Forall_forall. intros e He. apply filter_In in He as [He _].
    rewrite List.Forall_forall in HF. auto.
  - apply List.Forall_forall. intros e He. apply filter_In in He as [He _].
    rewrite List.Forall_forall in HS. auto.
  - apply At_length in HA. rewrite length_map in HA. lia.
Qed.

(** ** The history *)

(** Tombstone coverage by the history's range deletions. *)

Definition covered (u : bytes) (s f : Z) (es : list (Z * Op)) : bool :=
  existsb (fun qo => match snd qo with
                     | OpDeleteRange a b => coversb u f s (mkRangeDel a b (fst qo))
                     | _ => false
                     end) es.

Lemma covered_none u s f es : Forall (fun e => fst e <= f) es -> covered u s f es = false.
Proof.
  intros H. apply not_true_is_false. unfold covered. rewrite existsb_exists.
  intros (e & He & Hc). rewrite List.Forall_forall in H. specialize (H e He).
  destruct (snd e); try discriminate. apply coversb_spec in Hc. unfold covers in Hc.
  simpl in Hc. lia.
Qed.

Lemma get_run_covered del u vs :
  (forall f, In f (map fst vs) -> del f = true) -> del 0 = true -> get_run del u vs = Deleted.
Proof.
  intros H H0. destruct vs as [|e vs]; cbn [get_run]; [rewrite H0; reflexivity|].
  rewrite H0, (H (fst e)) by (left; reflexivity). destruct (decide _); reflexivity.
Qed.

Lemma get_run_ext del del' u vs :
  (forall f, In f (map fst vs) -> del f = del' f) -> del 0 = del' 0 ->
  get_run del u vs = get_run del' u vs.
Proof.
  intros H H0. induction vs as [|e vs IH]; cbn [get_run]; rewrite <- H0; [reflexivity|].
  rewrite <- (H (fst e)) by (left; reflexivity).
  rewrite IH by (intros; apply H; right; assumption). reflexivity.
Qed.

Lemma entry_lt_trans a b c : entry_lt a b -> entry_lt b c -> entry_lt a c.
Proof.
  unfold entry_lt.
  apply (@cmp_trans (InternalKeyComparator C) _ (entry_ikey a) (entry_ikey b) (entry_ikey c));
    (split; [unfold entry_ikey; rewrite mkInternalKey_length; lia|apply all_keys]).
Qed.

Lemma visible_insert u s e es :
  StronglySorted entry_lt es ->
  Forall (fun x => 0 < fst x <= kMaxSequenceNumber) es -> 0 < fst e <= kMaxSequenceNumber ->
  Forall (fun x => fst x < fst e) es ->
  visible u s (insert_entry e es) =
  if bool_decide (op_key (snd e) = u) && (fst e <=? s) then e :: visible u s es else visible u s es.
Proof.
  intros HSort HS He Hlt. unfold visible, insert_entry. rewrite filter_app. simpl.
  pose (g := fun x => IKC_Compare C (entry_ikey x) (entry_ikey e) <? 0).
  assert (Hsplit : es = List.filter g es ++ List.filter (fun x => negb (g x)) es).
  { apply (sorted_split entry_lt); [|exact HSort]. unfold g. intros x y Hxy Hy.
    apply Z.ltb_lt in Hy. apply Z.ltb_lt. exact (entry_lt_trans x y e Hxy Hy). }
  pose (f := fun x : Z * Op => bool_decide (op_key (snd x) = u) && (fst x <=? s)).
  assert (Hv : List.filter f es = List.filter f (List.filter g es) ++
               List.filter f (List.filter (fun x => negb (g x)) es))
    by (rewrite Hsplit at 1; apply filter_app).
  fold f. rewrite Hv. unfold f at 2 4.
  destruct (bool_decide (op_key (snd e) = u)) eqn:Eu; cbn [andb]; [|reflexivity].
  destruct (fst e <=? s); [|reflexivity]. apply bool_decide_eq_true in Eu.
  assert (Hn : List.filter f (List.filter g es) = []).
  { clear Hsplit HSort Hv. induction es as [|x es IH]; [reflexivity|].
    apply Forall_cons_iff in HS as [Hx HS], Hlt as [Hlx Hlt]. simpl.
    destruct (g x) eqn:Eg; [|auto]. simpl. rewrite IH by assumption. unfold f.
    destruct (decide (op_key (snd x) = u)) as [Ex|Ex];
      [|rewrite (bool_decide_eq_false_2 _ Ex); reflexivity].
    exfalso. apply Z.ltb_lt in Eg. unfold entry_ikey in Eg. rewrite Ex, Eu in Eg.
    apply IKC_same_user in Eg; [lia|apply all_keys|lia|lia]. }
  fold g. fold f. rewrite Hn. reflexivity.
Qed.

(** A history: operations with increasing sequence numbers that fit the coding. *)

Record history_ok (h : list (Z * Op)) : Prop := {
  hist_sorted : StronglySorted (fun a b => fst a < fst b) h;
  hist_seq : Forall (fun qo => 0 < fst qo <= kMaxSequenceNumber) h;
  hist_fits : Forall (fun qo => op_fits (snd qo)) h
}.

Lemma history_ok_snoc h qo :
  history_ok (h ++ [qo]) ->
  history_ok h /\ Forall (fun x => fst x < fst qo) h /\ 0 < fst qo <= kMaxSequenceNumber /\
  op_fits (snd qo).
Proof.
  intros [H1 H2 H3]. apply Forall_app in H2 as [H2 H2q], H3 as [H3 H3q].
  apply Forall_inv in H2q, H3q.
  assert (Hs : StronglySorted (fun a b : Z * Op => fst a < fst b) h /\
               Forall (fun x => fst x < fst qo) h).
  { clear -H1. induction h as [|x h IH]; [split; constructor|]. simpl in H1.
    apply StronglySorted_inv in H1 as [Hs Hx].
    apply IH in Hs as [? ?]. apply Forall_app in Hx as [? Hq]. apply Forall_inv in Hq.
    split; constructor; assumption. }
  destruct Hs. split; [constructor; assumption|]. split; [assumption|]. split; assumption.
Qed.

Lemma history_get_snoc h qo u s :
  history_get (h ++ [qo]) u s = history_step u s (history_get h u s) qo.
Proof. unfold history_get. rewrite fold_left_app. reflexivity. Qed.

Definition op_covers (u : bytes) (s f : Z) (qo : Z * Op) : bool :=
  match snd qo with OpDeleteRange a b => coversb u f s (mkRangeDel a b (fst qo)) | _ => false end.

(** Adding the newest operation changes a lookup as the history prescribes. *)

Lemma get_step u s qo es r :
  StronglySorted entry_lt es ->
  Forall (fun x => 0 < fst x <= kMaxSequenceNumber) es -> 0 < fst qo <= kMaxSequenceNumber ->
  Forall (fun x => fst x < fst qo) es ->
  get_run (fun f => covered u s f es) u (visible u s es) = result_of r ->
  get_run (fun f => op_covers u s f qo || covered u s f es) u (visible u s (insert_entry qo es))
  = result_of (history_step u s r qo).
Proof.
  intros HSort HS Hq Hlt Hr. rewrite visible_insert by assumption.
  set (del := fun f => op_covers u s f qo || covered u s f es).
  assert (Hnew : del (fst qo) = false).
  { unfold del. rewrite covered_none, orb_false_r.
    - unfold op_covers. destruct (snd qo); try reflexivity. apply not_true_is_false.
      rewrite coversb_spec. unfold covers. simpl. lia.
    - eapply List.Forall_impl; [|exact Hlt]. simpl. lia. }
  assert (Hvis : forall f, In f (map fst (visible u s es)) -> 0 < f < fst qo).
  { intros f Hf. apply in_map_iff in Hf as (x & <- & Hx). unfold visible in Hx.
    apply filter_In in Hx as [Hx _]. rewrite List.Forall_forall in *.
    specialize (HS x Hx). specialize (Hlt x Hx). lia. }
  assert (Hsame : (forall f, op_covers u s f qo = false) ->
    get_run del u (visible u s es) = result_of r).
  { intros Hc. rewrite <- Hr. apply get_run_ext; intros; unfold del; rewrite Hc; reflexivity. }
  unfold history_step. destruct (Z.leb_spec (fst qo) s) as [Hle|Hgt].
  - rewrite andb_true_r. destruct qo as [q [k v|k|a b]]; cbn [fst snd op_key touches] in *.
    + case_decide as Hk.
      * rewrite bool_decide_eq_true_2 by assumption. cbn [get_run]. cbn [fst snd op_key].
        rewrite decide_True by assumption. rewrite Hnew. reflexivity.
      * rewrite bool_decide_eq_false_2 by assumption. apply Hsame. reflexivity.
    + case_decide as Hk.
      * rewrite bool_decide_eq_true_2 by assumption. cbn [get_run]. cbn [fst snd op_key].
        rewrite decide_True by assumption. rewrite Hnew. reflexivity.
      * rewrite bool_decide_eq_false_2 by assumption. apply Hsame. reflexivity.
    + assert (Hrun : get_run del u (visible u s es) =
        result_of (match (if (lex a u <=? 0) && (lex u b <? 0) then Some None else None) with
                   | Some r0 => Some r0 | None => r end)).
      { destruct ((lex a u <=? 0) && (lex u b <? 0)) eqn:Ec.
        - apply get_run_covered; intros; unfold del, op_covers, coversb;
            cbn [snd fst start_key end_key seq]; rewrite Ec; cbn [andb];
            rewrite (proj2 (Z.leb_le q s) Hle).
          + apply Hvis in H. rewrite (proj2 (Z.ltb_lt _ _)) by lia. reflexivity.
          + rewrite (proj2 (Z.ltb_lt _ _)) by lia. reflexivity.
        - apply Hsame. intros f. unfold op_covers, coversb. cbn [snd fst start_key end_key seq].
          rewrite Ec. reflexivity. }
      rewrite <- Hrun. destruct (bool_decide (a = u)) eqn:Ea; [|reflexivity].
      apply bool_decide_eq_true in Ea. cbn [get_run fst snd op_key].
      rewrite decide_True by assumption. rewrite Hnew. reflexivity.
  - rewrite andb_false_r. apply Hsame. intros f. unfold op_covers.
    destruct (snd qo); try reflexivity. apply not_true_is_false. rewrite coversb_spec.
    unfold covers. simpl. lia.
Qed.

Lemma AddAll_app m h1 h2 :
  MemTable_AddAll C m (h1 ++ h2) =
  match MemTable_AddAll C m h1 with Some m => MemTable_AddAll C m h2 | None => None end.
Proof.
  revert m. induction h1 as [|qo h1 IH]; intros m; [reflexivity|]. simpl.
  destruct (MemTable_AddOp C m qo); [apply IH|reflexivity].
Qed.

Lemma AddAll_spec h : history_ok h ->
  exists m es, MemTable_AddAll C MemTable_new h = Some m /\ MInv m es /\
    (forall x, In x es <-> In x h) /\
    forall u s, get_run (fun f => covered u s f es) u (visible u s es)
                = result_of (history_get h u s).
Proof.
  induction h as [|qo h IH] using rev_ind; intros Hok.
  { exists MemTable_new, []. split; [reflexivity|]. split; [apply MInv_new|].
    split; [reflexivity|]. reflexivity. }
  apply history_ok_snoc in Hok as (Hok & Hlt & Hq & Hfit).
  destruct (IH Hok) as (m & es & Hadd & HI & Hin & Hget). clear IH.
  assert (Hlt' : Forall (fun x => fst x < fst qo) es).
  { rewrite List.Forall_forall in *. intros x Hx. apply Hlt, Hin, Hx. }
  destruct (MemTable_Add_inv m es qo HI Hfit Hq) as (m' & Hm & HI').
  { eapply List.Forall_impl; [|exact Hlt']. simpl. lia. }
  exists m', (insert_entry qo es). rewrite AddAll_app, Hadd. simpl. rewrite Hm.
  split; [reflexivity|]. split; [exact HI'|]. split.
  - intros x. rewrite insert_entry_in, in_app_iff, Hin. simpl. intuition congruence.
  - intros u s. rewrite history_get_snoc.
    rewrite <- (get_step u s qo es (history_get h u s)); auto.
    + apply get_run_ext; intros; unfold covered; rewrite existsb_insert_entry; reflexivity.
    + eapply MInv_sorted. exact HI.
    + apply (minv_seq _ _ HI).
Qed.

Lemma AddAll_Get h : history_ok h ->
  exists m, MemTable_AddAll C MemTable_new h = Some m /\
    forall u s, 0 <= s <= kMaxSequenceNumber -> sz u + 8 < 2 ^ 32 ->
    MemTable_Get C m (MakeLookupKey u s) = Some (result_of (history_get h u s)).
Proof.
  intros Hok. destruct (AddAll_spec h Hok) as (m & es & Hadd & HI & Hin & Hget).
  exists m. split; [exact Hadd|]. intros u s Hs Hu.
  rewrite (MemTable_Get_visible m es u s HI Hs Hu). f_equal. rewrite <- Hget.
  apply get_run_ext; intros; apply (minv_dels _ _ HI).
Qed.

End MemTableOk.

(** ** Properties *)

(** C1. The memtable implements the history of its operations: for any
    sequence of puts, point deletions and range deletions with increasing
    sequence numbers, all insertions succeed, and a lookup of any key at any
    snapshot terminates with the value, the deletion or the absence that the
    last operation at or before the snapshot touching the key prescribes
    (range deletions cover bytewise, start inclusive, end exclusive). *)
Theorem memtable_implements_history : forall C, ComparatorOk C ->
  (forall u, @cmp_dom C u) -> forall h, history_ok h ->
  exists m, MemTable_AddAll C MemTable_new h = Some m /\
    forall u s, 0 <= s <= kMaxSequenceNumber -> sz u + 8 < 2 ^ 32 ->
    MemTable_Get C m (MakeLookupKey u s) = Some (result_of (history_get h u s)).
Proof. intros C COK Hdom h Hok. apply AddAll_Get; assumption. Qed.

Definition sample_history : list (Z * Op) :=
  [(1, OpPut (str "a") (str "1")); (2, OpPut (str "b") (str "2"));
   (3, OpDeleteRange (str "a") (str "b")); (4, OpPut (str "aa") (str "3"));
   (5, OpDelete (str "b"))].

Lemma sample_history_ok : history_ok sample_history.
Proof.
  split.
  - repeat (constructor; [|repeat (constructor; [simpl; lia|]); constructor]). constructor.
  - repeat (constructor; [vm_compute; split; [reflexivity|discriminate]|]). constructor.
  - repeat (constructor; [vm_compute; split; reflexivity|]). constructor.
Qed.

Lemma memtable_implements_history_witness :
  exists m, MemTable_AddAll BytewiseComparator MemTable_new sample_history = Some m /\
    forall u s, 0 <= s <= kMaxSequenceNumber -> sz u + 8 < 2 ^ 32 ->
    MemTable_Get BytewiseComparator m (MakeLookupKey u s)
      = Some (result_of (history_get sample_history u s)).
Proof.
  apply memtable_implements_history.
  - exact BytewiseComparatorOk.
  - intros u. exact I.
  - exact sample_history_ok.
Defined.
