(* ===== verification/WriteBatch.v ===== *)
(** * Write batches (db/write_batch.cc, db/write_batch_internal.h)

    A batch is its representation [rep_]: an 8-byte sequence number, a 4-byte
    count and the records.  A [WriteBatch::Handler] is a record of three
    state transformers; [Iterate] replays the records into a handler, and
    [InsertInto] is [Iterate] with the memtable inserter.  The theorems show
    that a batch replays exactly the operations put into it, that any byte
    string is replayed safely, and that inserting a batch extends the history
    of the memtable with consecutively numbered operations. *)

From S2P Require Import Prelude Coding Compare DbFormat Logging SkipList MemTable.
#[local] Open Scope Z_scope.
#[local] Open Scope ldb_scope.

Definition kHeader : nat := 12.

Record WriteBatch := mkWriteBatch { rep_ : bytes }.

Definition WB_Clear : WriteBatch := mkWriteBatch (replicate kHeader Byte.x00).

Definition WriteBatch_new : WriteBatch := WB_Clear.

Definition WB_ApproximateSize (b : WriteBatch) : Z := sz (rep_ b).

(** The [int] count and the sequence number of the header. *)

Definition WBI_Count (b : WriteBatch) : Z := s32 (DecodeFixed32 (drop 8 (rep_ b))).

Definition WBI_SetCount (b : WriteBatch) (n : Z) : WriteBatch :=
  mkWriteBatch (take 8 (rep_ b) ++ EncodeFixed32 (u32 n) ++ drop 12 (rep_ b)).

Definition WBI_Sequence (b : WriteBatch) : Z := DecodeFixed64 (rep_ b).

Definition WBI_SetSequence (b : WriteBatch) (seq : Z) : WriteBatch :=
  mkWriteBatch (EncodeFixed64 seq ++ drop 8 (rep_ b)).

Definition WB_Put (b : WriteBatch) (key value : bytes) : WriteBatch :=
  let b := WBI_SetCount b (WBI_Count b + 1) in
  let rep := rep_ b ++ [z2b (vt_code kTypeValue)] in
  let rep := PutLengthPrefixedSlice rep key in
  mkWriteBatch (PutLengthPrefixedSlice rep value).

Definition WB_Delete (b : WriteBatch) (key : bytes) : WriteBatch :=
  let b := WBI_SetCount b (WBI_Count b + 1) in
  let rep := rep_ b ++ [z2b (vt_code kTypeDeletion)] in
  mkWriteBatch (PutLengthPrefixedSlice rep key).

Definition WB_DeleteRange (b : WriteBatch) (start_key end_key : bytes) : WriteBatch :=
  let b := WBI_SetCount b (WBI_Count b + 1) in
  let rep := rep_ b ++ [z2b (vt_code kTypeRangeDeletion)] in
  let rep := PutLengthPrefixedSlice rep start_key in
  mkWriteBatch (PutLengthPrefixedSlice rep end_key).

Definition WBI_SetContents (contents : bytes) : WriteBatch := mkWriteBatch contents.

Definition WBI_Append (dst src : WriteBatch) : WriteBatch :=
  let dst := WBI_SetCount dst (WBI_Count dst + WBI_Count src) in
  mkWriteBatch (rep_ dst ++ drop kHeader (rep_ src)).

Definition WB_Append (b source : WriteBatch) : WriteBatch := WBI_Append b source.

(** [WriteBatch::Handler] *)

Record Handler (St : Type) := mkHandler {
  on_Put : St -> bytes -> bytes -> St;
  on_Delete : St -> bytes -> St;
  on_DeleteRange : St -> bytes -> bytes -> St
}.
Arguments mkHandler {_}. Arguments on_Put {_}. Arguments on_Delete {_}.
Arguments on_DeleteRange {_}.

Section Iterate.
Context {St : Type} (h : Handler St).

(** One turn of the loop: the status it stops with and the count so
    far, or the rest of the input, the count and the handler's new state. *)

Definition WB_Iterate_turn (input : bytes) (found : Z) (st : St) : (Status * Z) + (bytes * Z * St) :=
  match input with
  | [] => inl (OK, found)
  | tag :: input =>
      let found := s32 (found + 1) in
      match vt_of_code (b2z tag) with
      | Some kTypeValue =>
          match GetLengthPrefixedSlice input with
          | Some (key, input) =>
              match GetLengthPrefixedSlice input with
              | Some (value, input) => inr (input, found, on_Put h st key value)
              | None => inl (Corruption (str "bad WriteBatch Put") [], found)
              end
          | None => inl (Corruption (str "bad WriteBatch Put") [], found)
          end
      | Some kTypeDeletion =>
          match GetLengthPrefixedSlice input with
          | Some (key, input) => inr (input, found, on_Delete h st key)
          | None => inl (Corruption (str "bad WriteBatch Delete") [], found)
          end
      | Some kTypeRangeDeletion =>
          match GetLengthPrefixedSlice input with
          | Some (key, input) =>
              match GetLengthPrefixedSlice input with
              | Some (value, input) => inr (input, found, on_DeleteRange h st key value)
              | None => inl (Corruption (str "bad WriteBatch DeleteRange") [], found)
              end
          | None => inl (Corruption (str "bad WriteBatch DeleteRange") [], found)
          end
      | None => inl (Corruption (str "unknown WriteBatch tag") [], found)
      end
  end.

(** The [while] loop: the number of records found and the status with which
    it stopped, [OK] when the input ran out. *)

Fixpoint WB_Iterate_loop (fuel : nat) (input : bytes) (found : Z) (st : St) : option (Status * Z * St) :=
  match fuel with
  | O => None
  | S fuel =>
      match WB_Iterate_turn input found st with
      | inl (s, found) => Some (s, found, st)
      | inr (input, found, st) => WB_Iterate_loop fuel input found st
      end
  end.

(** What follows the loop. *)

Definition WB_Iterate_end (b : WriteBatch) (s : Status) (found : Z) : Status :=
  if ok s then if negb (found =? WBI_Count b) then Corruption (str "WriteBatch has wrong count") [] else OK else s.

Definition WB_Iterate (b : WriteBatch) (st : St) : option (Status * St) :=
  let input := rep_ b in
  if sz input <? Z.of_nat kHeader
  then Some (Corruption (str "malformed WriteBatch (too small)") [], st)
  else
    let input := drop kHeader input in
    match WB_Iterate_loop (S (length input)) input 0 st with
    | Some (s, found, st) => Some (WB_Iterate_end b s found, st)
    | None => None
    end.

End Iterate.

(** [MemTableInserter]: its sequence number and the memtable it adds to. *)

Definition MTI_Add (C : Comparator) (type : ValueType) (st : Z * option MemTable)
    (key value : bytes) : Z * option MemTable :=
  let '(sequence, mem) := st in
  (u64 (sequence + 1),
   match mem with Some m => MemTable_Add C m sequence type key value | None => None end).

Definition MemTableInserter (C : Comparator) : Handler (Z * option MemTable) := {|
  on_Put st key value := MTI_Add C kTypeValue st key value;
  on_Delete st key := MTI_Add C kTypeDeletion st key [];
  on_DeleteRange st start_key end_key := MTI_Add C kTypeRangeDeletion st start_key end_key
|}.

(** The status and the memtable; [None] only if an insertion ran out of fuel. *)

Definition WBI_InsertInto (C : Comparator) (b : WriteBatch) (memtable : MemTable)
  : option (Status * MemTable) :=
  match WB_Iterate (MemTableInserter C) b (WBI_Sequence b, Some memtable) with
  | Some (s, (_, Some m)) => Some (s, m)
  | _ => None
  end.

(** ** Operations as the records of a batch *)

Definition handle {St} (h : Handler St) (st : St) (op : Op) : St :=
  match op with
  | OpPut k v => on_Put h st k v
  | OpDelete k => on_Delete h st k
  | OpDeleteRange a b => on_DeleteRange h st a b
  end.

Definition WB_apply (b : WriteBatch) (op : Op) : WriteBatch :=
  match op with
  | OpPut k v => WB_Put b k v
  | OpDelete k => WB_Delete b k
  | OpDeleteRange s e => WB_DeleteRange b s e
  end.

Definition WB_of (ops : list Op) : WriteBatch := fold_left WB_apply ops WriteBatch_new.

Definition record_bytes (op : Op) : bytes :=
  match op with
  | OpPut k v => z2b 1 :: PutLengthPrefixedSlice [] k ++ PutLengthPrefixedSlice [] v
  | OpDelete k => z2b 0 :: PutLengthPrefixedSlice [] k
  | OpDeleteRange a b => z2b 2 :: PutLengthPrefixedSlice [] a ++ PutLengthPrefixedSlice [] b
  end.

Definition batch_rep (seq count : Z) (ops : list Op) : bytes :=
  EncodeFixed64 seq ++ EncodeFixed32 count ++ concat (map record_bytes ops).

(** Operations numbered from [q]. *)

Fixpoint numbered (q : Z) (ops : list Op) : list (Z * Op) :=
  match ops with
  | [] => []
  | op :: ops => (q, op) :: numbered (q + 1) ops
  end.

Definition small_op (op : Op) : Prop := sz (op_key op) < 2 ^ 32 /\ sz (op_value op) < 2 ^ 32.

Lemma WBI_Count_rep q c rest :
  WBI_Count (mkWriteBatch (EncodeFixed64 q ++ EncodeFixed32 c ++ rest)) = s32 c.
Proof.
  unfold WBI_Count. cbn [rep_]. rewrite drop_app_length' by (rewrite length_EncodeFixed64; reflexivity).
  rewrite fixed32_decode. apply s32_u32.
Qed.

Lemma WBI_SetCount_rep q c rest n :
  WBI_SetCount (mkWriteBatch (EncodeFixed64 q ++ EncodeFixed32 c ++ rest)) n
  = mkWriteBatch (EncodeFixed64 q ++ EncodeFixed32 (u32 n) ++ rest).
Proof.
  reflexivity.
Qed.

Lemma WB_apply_rep q c ops op :
  WB_apply (mkWriteBatch (batch_rep q c ops)) op
  = mkWriteBatch (batch_rep q (s32 c + 1) (ops ++ [op])).
Proof.
  unfold batch_rep. rewrite map_app, concat_app. cbn [map concat]. rewrite app_nil_r.
  destruct op; cbn [WB_apply]; unfold WB_Put, WB_Delete, WB_DeleteRange;
    rewrite WBI_Count_rep, WBI_SetCount_rep, EncodeFixed32_u32; cbn [rep_]; cbv zeta;
    repeat rewrite PutLengthPrefixedSlice_app with (dst := _ ++ _);
    unfold record_bytes; rewrite <- !app_assoc; reflexivity.
Qed.

Lemma WB_fold_rep ops : forall q c ops0,
  - 2 ^ 31 <= c -> c + sz ops < 2 ^ 31 ->
  fold_left WB_apply ops (mkWriteBatch (batch_rep q c ops0))
  = mkWriteBatch (batch_rep q (c + sz ops) (ops0 ++ ops)).
Proof.
  induction ops as [|op ops IH]; intros q c ops0 H0 H; simpl.
  - rewrite sz_nil, Z.add_0_r, app_nil_r. reflexivity.
  - rewrite sz_cons in *. pose proof (sz_nonneg ops).
    rewrite WB_apply_rep, s32_small, IH by lia. rewrite <- app_assoc.
    do 2 f_equal. lia.
Qed.

Lemma WB_of_rep ops :
  sz ops < 2 ^ 31 -> WB_of ops = mkWriteBatch (batch_rep 0 (sz ops) ops).
Proof. intros H. exact (WB_fold_rep ops 0 0 [] ltac:(lia) H). Qed.

Lemma WBI_SetSequence_rep q c ops q' :
  WBI_SetSequence (mkWriteBatch (batch_rep q c ops)) q' = mkWriteBatch (batch_rep q' c ops).
Proof.
  reflexivity.
Qed.

Lemma WBI_Append_rep q1 c1 ops1 q2 c2 ops2 :
  WBI_Append (mkWriteBatch (batch_rep q1 c1 ops1)) (mkWriteBatch (batch_rep q2 c2 ops2))
  = mkWriteBatch (batch_rep q1 (s32 c1 + s32 c2) (ops1 ++ ops2)).
Proof.
  unfold WBI_Append, batch_rep. rewrite !WBI_Count_rep, WBI_SetCount_rep, EncodeFixed32_u32.
  cbn [rep_]. cbv zeta. f_equal. rewrite map_app, concat_app, <- !app_assoc. reflexivity.
Qed.

(** The loop replays the records in order. *)

Lemma record_bytes_turn {St} (h : Handler St) op rest found st : small_op op ->
  WB_Iterate_turn h (record_bytes op ++ rest) found st = inr (rest, s32 (found + 1), handle h st op).
Proof.
  intros [Hk Hv]. destruct op; cbn [record_bytes app op_key op_value] in *;
    rewrite <- ?app_assoc; unfold WB_Iterate_turn;
    match goal with |- context [vt_of_code ?x] =>
      let y := eval vm_compute in (vt_of_code x) in change (vt_of_code x) with y end;
    cbv beta iota zeta; rewrite !lps_get by assumption; cbv beta iota;
    rewrite ?lps_get by assumption; reflexivity.
Qed.

Lemma record_bytes_loop {St} (h : Handler St) fuel op rest found st :
  small_op op ->
  WB_Iterate_loop h (S fuel) (record_bytes op ++ rest) found st
  = WB_Iterate_loop h fuel rest (s32 (found + 1)) (handle h st op).
Proof. intros H. cbn [WB_Iterate_loop]. rewrite record_bytes_turn by exact H. reflexivity. Qed.

Lemma records_loop {St} (h : Handler St) ops : Forall small_op ops -> forall fuel found st,
  (length ops < fuel)%nat -> 0 <= found -> found + sz ops < 2 ^ 31 ->
  WB_Iterate_loop h fuel (concat (map record_bytes ops)) found st
  = Some (OK, found + sz ops, fold_left (handle h) ops st).
Proof.
  induction 1 as [|op ops Hop _ IH]; intros fuel found st Hf H0 Hb;
    (destruct fuel as [|fuel]; [simpl in Hf; lia|]).
  - simpl. rewrite sz_nil, Z.add_0_r. reflexivity.
  - cbn [map concat fold_left]. rewrite sz_cons in *. pose proof (sz_nonneg ops).
    rewrite record_bytes_loop, s32_small, IH by (assumption || simpl in Hf; lia).
    do 3 f_equal. lia.
Qed.

Lemma length_records ops : (length ops <= length (concat (map record_bytes ops)))%nat.
Proof.
  induction ops as [|op ops IH]; simpl; [lia|]. rewrite length_app.
  assert (1 <= length (record_bytes op))%nat by (destruct op; simpl; lia). lia.
Qed.

Lemma Iterate_rep {St} (h : Handler St) q ops st :
  Forall small_op ops -> sz ops < 2 ^ 31 ->
  WB_Iterate h (mkWriteBatch (batch_rep q (sz ops) ops)) st
  = Some (OK, fold_left (handle h) ops st).
Proof.
  intros Hs Hb. pose proof (sz_nonneg ops). unfold WB_Iterate. cbn [rep_].
  assert (Hd : drop kHeader (batch_rep q (sz ops) ops) = concat (map record_bytes ops)).
  { unfold batch_rep. rewrite app_assoc. apply drop_app_length'.
    rewrite length_app, length_EncodeFixed64, length_EncodeFixed32. reflexivity. }
  rewrite Hd. destruct (Z.ltb_spec (sz (batch_rep q (sz ops) ops)) (Z.of_nat kHeader)) as [Hl|_].
  { exfalso. unfold batch_rep, sz in Hl.
    rewrite !length_app, length_EncodeFixed64, length_EncodeFixed32 in Hl. unfold kHeader in Hl. lia. }
  cbv zeta. pose proof (length_records ops).
  rewrite records_loop by (assumption || lia). unfold WB_Iterate_end. cbn [ok OK].
  unfold batch_rep. rewrite WBI_Count_rep, s32_small, Z.add_0_l, Z.eqb_refl by lia. reflexivity.
Qed.

(** Any input stops the loop with the same records for every handler. *)

Lemma Iterate_loop_total fuel : forall input, (length input < fuel)%nat ->
  exists s ops, (s = OK \/ IsCorruption s = true) /\ (length ops <= length input)%nat /\
  forall St (h : Handler St) found st, 0 <= found -> found + sz input < 2 ^ 31 ->
  exists found', WB_Iterate_loop h fuel input found st
                 = Some (s, found', fold_left (handle h) ops st) /\
                 (s = OK -> found' = found + sz ops).
Proof.
  assert (Hstop : forall f (input : bytes) t tag msg,
    (forall St (h : Handler St) found st,
      WB_Iterate_loop h (S f) (tag :: t) found st = Some (Corruption msg [], s32 (found + 1), st)) ->
    exists s ops, (s = OK \/ IsCorruption s = true) /\ (length ops <= length input)%nat /\
    forall St (h : Handler St) found st, 0 <= found -> found + sz (tag :: t) < 2 ^ 31 ->
    exists found', WB_Iterate_loop h (S f) (tag :: t) found st
                   = Some (s, found', fold_left (handle h) ops st) /\
                   (s = OK -> found' = found + sz ops)).
  { intros f input t tag msg H. exists (Corruption msg []), []. split.
    - right. unfold IsCorruption, Corruption. rewrite MakeStatus_code. reflexivity.
    - split; [simpl; lia|]. intros St h found st _ _. eexists. split; [apply H|].
      unfold Corruption, MakeStatus, OK. discriminate. }
  assert (Hgo : forall f (t : bytes) tag (op : Op) rest,
    (length rest <= length t)%nat -> (length t < f)%nat ->
    (forall St (h : Handler St) found st, WB_Iterate_loop h (S f) (tag :: t) found st
       = WB_Iterate_loop h f rest (s32 (found + 1)) (handle h st op)) ->
    (exists s ops, (s = OK \/ IsCorruption s = true) /\ (length ops <= length rest)%nat /\
      forall St (h : Handler St) found st, 0 <= found -> found + sz rest < 2 ^ 31 ->
      exists found', WB_Iterate_loop h f rest found st
                     = Some (s, found', fold_left (handle h) ops st) /\
                     (s = OK -> found' = found + sz ops)) ->
    exists s ops, (s = OK \/ IsCorruption s = true) /\ (length ops <= length (tag :: t))%nat /\
    forall St (h : Handler St) found st, 0 <= found -> found + sz (tag :: t) < 2 ^ 31 ->
    exists found', WB_Iterate_loop h (S f) (tag :: t) found st
                   = Some (s, found', fold_left (handle h) ops st) /\
                   (s = OK -> found' = found + sz ops)).
  { intros f t tag op rest Hlen Hf Heq (s & ops & Hs & Hn & H). exists s, (op :: ops).
    split; [exact Hs|]. split; [simpl; lia|]. intros St h found st H0 Hb.
    rewrite sz_cons in Hb. assert (sz rest <= sz t) by (unfold sz; lia).
    assert (0 <= sz rest) by apply sz_nonneg.
    destruct (H St h (s32 (found + 1)) (handle h st op)) as (f' & E & Hok);
      [rewrite s32_small; lia|rewrite s32_small; lia|].
    exists f'. rewrite Heq, E. split; [reflexivity|]. intros Hs'. rewrite (Hok Hs'), sz_cons.
    rewrite s32_small by lia. lia. }
  induction fuel as [|fuel IH]; intros input Hf; [lia|].
  destruct input as [|tag t].
  { exists OK, []. split; [left; reflexivity|]. split; [reflexivity|]. intros St h found st _ _.
    exists found. split; [reflexivity|]. rewrite sz_nil. lia. }
  simpl in Hf.
  assert (Hused : forall p k r, GetLengthPrefixedSlice p = Some (k, r) -> (length r <= length p)%nat).
  { intros p k r E. apply GetLengthPrefixedSlice_used in E as (u & -> & _).
    rewrite !length_app. lia. }
  destruct (vt_of_code (b2z tag)) as [[]|] eqn:Et;
    [destruct (GetLengthPrefixedSlice t) as [[k r]|] eqn:E1
    |destruct (GetLengthPrefixedSlice t) as [[k r]|] eqn:E1;
     [destruct (GetLengthPrefixedSlice r) as [[v r']|] eqn:E2|]
    |destruct (GetLengthPrefixedSlice t) as [[k r]|] eqn:E1;
     [destruct (GetLengthPrefixedSlice r) as [[v r']|] eqn:E2|]|].
  all: try apply Hused in E1 as L1; try apply Hused in E2 as L2.
  all: try (eapply Hstop; intros; cbn [WB_Iterate_loop]; unfold WB_Iterate_turn; rewrite Et, ?E1, ?E2; reflexivity).
  - apply (Hgo fuel t tag (OpDelete k) r); [lia|lia| |apply IH; lia].
    intros; cbn [WB_Iterate_loop]; unfold WB_Iterate_turn; rewrite Et, E1; reflexivity.
  - apply (Hgo fuel t tag (OpPut k v) r'); [lia|lia| |apply IH; lia].
    intros; cbn [WB_Iterate_loop]; unfold WB_Iterate_turn; rewrite Et, E1, E2; reflexivity.
  - apply (Hgo fuel t tag (OpDeleteRange k v) r'); [lia|lia| |apply IH; lia].
    intros; cbn [WB_Iterate_loop]; unfold WB_Iterate_turn; rewrite Et, E1, E2; reflexivity.
Qed.

(** The inserter numbers the operations from the batch's sequence number. *)

Lemma MTI_none C ops : forall q, snd (fold_left (handle (MemTableInserter C)) ops (q, None)) = None.
Proof. induction ops as [|[] ops IH]; intros q; [reflexivity|apply IH..]. Qed.

Lemma MTI_one C q m op : 0 <= q -> q + 1 < 2 ^ 64 ->
  handle (MemTableInserter C) (q, Some m) op = (q + 1, MemTable_AddOp C m (q, op)).
Proof.
  intros H0 H. destruct op; cbn [handle MemTableInserter on_Put on_Delete on_DeleteRange MTI_Add];
    rewrite u64_small by lia; reflexivity.
Qed.

Lemma MTI_fold C ops : forall q m, 0 <= q -> q + sz ops < 2 ^ 64 ->
  snd (fold_left (handle (MemTableInserter C)) ops (q, Some m))
  = MemTable_AddAll C m (numbered q ops).
Proof.
  induction ops as [|op ops IH]; intros q m H0 H; [reflexivity|]. rewrite sz_cons in H.
  pose proof (sz_nonneg ops). cbn [fold_left numbered MemTable_AddAll].
  rewrite MTI_one by lia. destruct (MemTable_AddOp C m (q, op)) as [m'|]; [apply IH; lia|apply MTI_none].
Qed.

Lemma InsertInto_AddAll C q ops m m' :
  Forall small_op ops -> sz ops < 2 ^ 31 -> 0 <= q -> q + sz ops < 2 ^ 64 ->
  MemTable_AddAll C m (numbered q ops) = Some m' ->
  WBI_InsertInto C (mkWriteBatch (batch_rep q (sz ops) ops)) m = Some (OK, m').
Proof.
  intros Hs Hn Hq Hb H. unfold WBI_InsertInto. rewrite Iterate_rep by assumption.
  assert (Hseq : WBI_Sequence (mkWriteBatch (batch_rep q (sz ops) ops)) = q).
  { unfold WBI_Sequence, batch_rep. cbn [rep_]. rewrite fixed64_decode. apply u64_small.
    pose proof (sz_nonneg ops). lia. }
  rewrite Hseq. pose proof (MTI_fold C ops q m Hq Hb) as E. rewrite H in E.
  destruct (fold_left _ ops _) as [q' om]. simpl in E. rewrite E. reflexivity.
Qed.

Lemma op_fits_small op : op_fits op -> small_op op.
Proof. unfold op_fits, small_op. lia. Qed.

Lemma history_ok_app_r h1 h2 : history_ok (h1 ++ h2) -> Forall (fun qo => op_fits (snd qo)) h2.
Proof. intros [_ _ H]. apply Forall_app in H. tauto. Qed.

Lemma numbered_ops q ops : map snd (numbered q ops) = ops.
Proof. revert q. induction ops as [|op ops IH]; intros q; simpl; [reflexivity|]. f_equal. apply IH. Qed.

Lemma numbered_app q a b : numbered q (a ++ b) = numbered q a ++ numbered (q + sz a) b.
Proof.
  revert q. induction a as [|x a IH]; intros q; cbn [app numbered]; [f_equal; unfold sz; cbn; lia|]. rewrite IH. f_equal. f_equal. f_equal. unfold sz. cbn [length]. lia.
Qed.

Lemma numbered_sz q ops : sz (numbered q ops) = sz ops.
Proof. rewrite <- (numbered_ops q ops) at 2. unfold sz. rewrite length_map. reflexivity. Qed.

(** ** Properties *)

(** A batch replays what was put into it: the batch built by any sequence
    of Put, Delete and DeleteRange calls, then extended by appending another
    batch, counts its operations, keeps the sequence number it was given, and
    [Iterate] feeds any handler exactly those operations in order and returns
    OK. *)
Theorem batch_replays_operations : forall ops1 ops2 q,
  Forall small_op (ops1 ++ ops2) -> sz (ops1 ++ ops2) < 2 ^ 31 -> 0 <= q < 2 ^ 64 ->
  let b := WB_Append (WBI_SetSequence (WB_of ops1) q) (WB_of ops2) in
  WBI_Count b = sz (ops1 ++ ops2) /\ WBI_Sequence b = q /\
  forall St (h : Handler St) st,
    WB_Iterate h b st = Some (OK, fold_left (handle h) (ops1 ++ ops2) st).
Proof.
  intros ops1 ops2 q Hs Hb Hq. pose proof (sz_app ops1 ops2).
  pose proof (sz_nonneg ops1). pose proof (sz_nonneg ops2).
  unfold WB_Append. rewrite !WB_of_rep, WBI_SetSequence_rep, WBI_Append_rep by lia.
  rewrite !s32_small by lia. replace (sz ops1 + sz ops2) with (sz (ops1 ++ ops2)) by lia.
  cbv zeta. repeat split.
  - unfold batch_rep. rewrite WBI_Count_rep. apply s32_small. lia.
  - unfold WBI_Sequence, batch_rep. cbn [rep_]. rewrite fixed64_decode. apply u64_small. lia.
  - intros St h st. apply Iterate_rep; assumption.
Qed.

Lemma batch_replays_operations_witness :
  WB_Iterate (mkHandler (fun st k v => st ++ [OpPut k v]) (fun st k => st ++ [OpDelete k])
                        (fun st a b => st ++ [OpDeleteRange a b]))
    (WB_Append (WBI_SetSequence (WB_of [OpPut (str "k") (str "v"); OpDelete (str "x")]) 7)
               (WB_of [OpDeleteRange (str "a") (str "c")])) []
  = Some (OK, [OpPut (str "k") (str "v"); OpDelete (str "x"); OpDeleteRange (str "a") (str "c")]).
Proof.
  apply (batch_replays_operations [OpPut (str "k") (str "v"); OpDelete (str "x")]
           [OpDeleteRange (str "a") (str "c")] 7).
  - repeat constructor.
  - reflexivity.
  - split; [discriminate|reflexivity].
Defined.

(** Replaying an arbitrary byte string is safe: [Iterate] terminates, the
    operations it feeds to the handler do not depend on the handler, the
    status is OK or a corruption, and OK means that the header is complete and
    the count of the header is the number of operations replayed. *)
Theorem batch_iterate_total : forall b, sz (rep_ b) < 2 ^ 31 ->
  exists s ops, (s = OK \/ IsCorruption s = true) /\
    (s = OK -> 12 <= sz (rep_ b) /\ WBI_Count b = sz ops) /\
    forall St (h : Handler St) st, WB_Iterate h b st = Some (s, fold_left (handle h) ops st).
Proof.
  intros b Hb. pose proof (sz_nonneg (rep_ b)) as Hnn.
  assert (Hcor : forall msg, Corruption msg [] = OK \/ IsCorruption (Corruption msg []) = true).
  { intros msg. right. unfold IsCorruption, Corruption. rewrite MakeStatus_code. reflexivity. }
  destruct (Z.ltb_spec (sz (rep_ b)) (Z.of_nat kHeader)) as [Hl|Hl].
  { exists (Corruption (str "malformed WriteBatch (too small)") []), [].
    split; [apply Hcor|]. split; [discriminate|]. intros St h st. unfold WB_Iterate.
    rewrite (proj2 (Z.ltb_lt _ _) Hl). reflexivity. }
  destruct (Iterate_loop_total (S (length (drop kHeader (rep_ b)))) (drop kHeader (rep_ b)) ltac:(lia))
    as (s & ops & Hs & _ & H).
  assert (Hd : sz (drop kHeader (rep_ b)) <= sz (rep_ b)) by (unfold sz; rewrite length_drop; lia).
  assert (Hrun : forall St (h : Handler St) st, exists found',
    WB_Iterate_loop h (S (length (drop kHeader (rep_ b)))) (drop kHeader (rep_ b)) 0 st
      = Some (s, found', fold_left (handle h) ops st) /\ (s = OK -> found' = sz ops)).
  { intros St h st. destruct (H St h 0 st) as (f & E & Hf); [lia|lia|]. exists f. split; [exact E|].
    intros Ho. rewrite (Hf Ho). lia. }
  clear H. destruct Hs as [->|Hs].
  - destruct (Z.eqb_spec (sz ops) (WBI_Count b)) as [Ec|Ec].
    + exists OK, ops. split; [left; reflexivity|]. split; [unfold kHeader in Hl; lia|].
      intros St h st. unfold WB_Iterate. rewrite (proj2 (Z.ltb_ge _ _) Hl). cbv zeta.
      destruct (Hrun St h st) as (f & -> & ->); [|reflexivity]. unfold WB_Iterate_end. cbn [ok OK].
      rewrite (proj2 (Z.eqb_eq _ _) Ec). reflexivity.
    + exists (Corruption (str "WriteBatch has wrong count") []), ops.
      split; [apply Hcor|]. split; [discriminate|].
      intros St h st. unfold WB_Iterate. rewrite (proj2 (Z.ltb_ge _ _) Hl). cbv zeta.
      destruct (Hrun St h st) as (f & -> & ->); [|reflexivity]. unfold WB_Iterate_end. cbn [ok OK].
      rewrite (proj2 (Z.eqb_neq _ _) Ec). reflexivity.
  - exists s, ops. destruct s as [s|]; [|discriminate]. split; [right; exact Hs|].
    split; [discriminate|]. intros St h st. unfold WB_Iterate.
    rewrite (proj2 (Z.ltb_ge _ _) Hl). cbv zeta.
    destruct (Hrun St h st) as (f & -> & _). reflexivity.
Qed.

Lemma batch_iterate_total_witness :
  exists s ops, (s = OK \/ IsCorruption s = true) /\
    (s = OK -> 12 <= 1 /\ WBI_Count (mkWriteBatch [z2b 3]) = sz ops) /\
    forall St (h : Handler St) st,
      WB_Iterate h (mkWriteBatch [z2b 3]) st = Some (s, fold_left (handle h) ops st).
Proof. apply (batch_iterate_total (mkWriteBatch [z2b 3])). reflexivity. Defined.

(** Inserting a batch extends the history of the memtable: if a memtable
    holds the history [h] and a batch of operations carries the sequence number
    [q], so that the operations numbered from [q] continue [h], then
    [InsertInto] returns OK and every later lookup answers from [h] followed by
    the numbered operations. *)
Theorem insert_into_extends_history : forall C, ComparatorOk C -> (forall u, @cmp_dom C u) ->
  forall h ops q m, history_ok (h ++ numbered q ops) -> 0 <= q -> q + sz ops < 2 ^ 64 ->
  sz ops < 2 ^ 31 -> MemTable_AddAll C MemTable_new h = Some m ->
  exists m', WBI_InsertInto C (WBI_SetSequence (WB_of ops) q) m = Some (OK, m') /\
    forall u s, 0 <= s <= kMaxSequenceNumber -> sz u + 8 < 2 ^ 32 ->
    MemTable_Get C m' (MakeLookupKey u s)
      = Some (result_of (history_get (h ++ numbered q ops) u s)).
Proof.
  intros C COK Hdom h ops q m Hok Hq Hb Hn Hm.
  destruct (AddAll_Get Hdom _ Hok) as (m' & Hadd & Hget).
  exists m'. split; [|exact Hget]. rewrite AddAll_app, Hm in Hadd.
  rewrite WB_of_rep, WBI_SetSequence_rep by assumption.
  apply InsertInto_AddAll; try assumption.
  apply history_ok_app_r in Hok. rewrite <- (numbered_ops q ops).
  apply List.Forall_map. eapply List.Forall_impl; [|exact Hok]. intros qo. apply op_fits_small.
Qed.

Lemma insert_into_extends_history_witness :
  exists m', WBI_InsertInto BytewiseComparator
      (WBI_SetSequence (WB_of [OpPut (str "a") (str "1"); OpDeleteRange (str "a") (str "b")]) 5)
      MemTable_new = Some (OK, m') /\
    forall u s, 0 <= s <= kMaxSequenceNumber -> sz u + 8 < 2 ^ 32 ->
    MemTable_Get BytewiseComparator m' (MakeLookupKey u s)
      = Some (result_of (history_get ([] ++ numbered 5 [OpPut (str "a") (str "1");
          OpDeleteRange (str "a") (str "b")]) u s)).
Proof.
  apply insert_into_extends_history.
  - exact BytewiseComparatorOk.
  - intros u. exact I.
  - split.
    + repeat (constructor; [|repeat (constructor; [simpl; lia|]); constructor]). constructor.
    + repeat (constructor; [vm_compute; split; [reflexivity|discriminate]|]). constructor.
    + repeat (constructor; [vm_compute; split; reflexivity|]). constructor.
  - lia.
  - reflexivity.
  - reflexivity.
  - reflexivity.
Defined.
