(* ===== verification/Env.v ===== *)
(** * Files (include/leveldb/env.h) and the in-memory file (helpers/memenv/memenv.cc)

    The file interfaces of the environment as type classes over the state of
    the file object, with the laws the rest of the code relies on as separate
    classes.  The in-memory file of memenv.cc, blocks of 8 KB with the last one
    partly filled, is modelled and shown to satisfy the laws. *)

From S2P Require Import Prelude Logging.
#[local] Open Scope Z_scope.
#[local] Open Scope ldb_scope.

(** ** Interfaces *)

Class WritableFile (F : Type) := {
  wf_Append : F -> bytes -> Status * F;
  wf_Close : F -> Status * F;
  wf_Flush : F -> Status * F;
  wf_Sync : F -> Status * F
}.

(** [Read n]: the status, the bytes read and the file after it. *)

Class SequentialFile (F : Type) := {
  sf_Read : F -> Z -> Status * bytes * F;
  sf_Skip : F -> Z -> Status * F
}.

Class RandomAccessFile (F : Type) := {
  rf_Read : F -> Z -> Z -> Status * bytes
}.

(** A file that accepts every write and keeps what was written. *)

Class ReliableWritable (F : Type) `{WritableFile F} := {
  wf_inv : F -> Prop;
  wf_contents : F -> bytes;
  wf_append_ok : forall f d, wf_inv f -> exists f', wf_Append f d = (OK, f') /\ wf_inv f' /\
    wf_contents f' = wf_contents f ++ d;
  wf_flush_ok : forall f, wf_inv f -> exists f', wf_Flush f = (OK, f') /\ wf_inv f' /\
    wf_contents f' = wf_contents f;
  wf_sync_ok : forall f, wf_inv f -> exists f', wf_Sync f = (OK, f') /\ wf_inv f' /\
    wf_contents f' = wf_contents f
}.

(** A file that delivers its contents from the current position on. *)

Class ReliableSequential (F : Type) `{SequentialFile F} := {
  sf_inv : F -> Prop;
  sf_rest : F -> bytes;
  sf_read_ok : forall f n, sf_inv f -> 0 <= n -> exists f',
    sf_Read f n = (OK, take (Z.to_nat n) (sf_rest f), f') /\ sf_inv f' /\
    sf_rest f' = drop (Z.to_nat n) (sf_rest f);
  sf_skip_ok : forall f n, sf_inv f -> 0 <= n -> exists f',
    sf_Skip f n = (OK, f') /\ sf_inv f' /\ sf_rest f' = drop (Z.to_nat n) (sf_rest f)
}.

(** A file that delivers its contents at any offset inside it. *)

Class ReliableRandom (F : Type) `{RandomAccessFile F} := {
  rf_inv : F -> Prop;
  rf_contents : F -> bytes;
  rf_read_ok : forall f off n, rf_inv f -> 0 <= off <= sz (rf_contents f) -> 0 <= n ->
    rf_Read f off n = (OK, take (Z.to_nat n) (drop (Z.to_nat off) (rf_contents f)))
}.

(** ** The in-memory file *)

Definition kMemBlockSize : Z := 8 * 1024.

(** A block is the array of its bytes; a new array holds unspecified bytes,
    here zeros, which no theorem depends on. *)

Record FileState := mkFileState { blocks_ : list bytes; size_ : Z }.

Definition FileState_new : FileState := mkFileState [] 0.

Definition FS_Size (f : FileState) : Z := size_ f.

Definition FS_Truncate (f : FileState) : FileState := mkFileState [] 0.

(** [memcpy(block + offset, src, n)] *)

Definition block_copy (block : bytes) (offset : Z) (src : bytes) : bytes :=
  take (Z.to_nat offset) block ++ src ++ drop (Z.to_nat offset + length src) block.

Fixpoint update_last (bs : list bytes) (g : bytes -> bytes) : list bytes :=
  match bs with
  | [] => []
  | [b] => [g b]
  | b :: bs => b :: update_last bs g
  end.

Fixpoint FS_Append_loop (fuel : nat) (f : FileState) (src : bytes) : FileState :=
  match fuel with
  | O => f
  | S fuel =>
      if 0 <? sz src then
        let offset := size_ f mod kMemBlockSize in
        let '(blocks, avail) :=
          if negb (offset =? 0) then (blocks_ f, kMemBlockSize - offset)
          else (blocks_ f ++ [replicate (Z.to_nat kMemBlockSize) Byte.x00], kMemBlockSize) in
        let avail := if sz src <? avail then sz src else avail in
        let blocks := update_last blocks
          (fun b => block_copy b offset (take (Z.to_nat avail) src)) in
        FS_Append_loop fuel (mkFileState blocks (size_ f + avail)) (drop (Z.to_nat avail) src)
      else f
  end.

Definition FS_Append (f : FileState) (data : bytes) : Status * FileState :=
  (OK, FS_Append_loop (S (length data)) f data).

Fixpoint FS_Read_loop (fuel : nat) (f : FileState) (block : nat) (block_offset bytes_to_copy : Z)
  : bytes :=
  match fuel with
  | O => []
  | S fuel =>
      if 0 <? bytes_to_copy then
        let avail := kMemBlockSize - block_offset in
        let avail := if bytes_to_copy <? avail then bytes_to_copy else avail in
        take (Z.to_nat avail) (drop (Z.to_nat block_offset) (nth block (blocks_ f) []))
        ++ FS_Read_loop fuel f (S block) 0 (bytes_to_copy - avail)
      else []
  end.

Definition FS_Read (f : FileState) (offset n : Z) : Status * bytes :=
  if size_ f <? offset then (IOError (str "Offset greater than file size.") [], [])
  else
    let available := size_ f - offset in
    let n := if available <? n then available else n in
    if n =? 0 then (OK, [])
    else (OK, FS_Read_loop (S (Z.to_nat n)) f (Z.to_nat (offset / kMemBlockSize))
                (offset mod kMemBlockSize) n).

(** [SequentialFileImpl]: the file and the position in it. *)

Record SequentialFileImpl := mkSequentialFileImpl { seq_file : FileState; pos_ : Z }.

Definition SFI_Read (f : SequentialFileImpl) (n : Z) : Status * bytes * SequentialFileImpl :=
  let '(s, result) := FS_Read (seq_file f) (pos_ f) n in
  (s, result, if ok s then mkSequentialFileImpl (seq_file f) (pos_ f + sz result) else f).

Definition SFI_Skip (f : SequentialFileImpl) (n : Z) : Status * SequentialFileImpl :=
  if FS_Size (seq_file f) <? pos_ f then (IOError (str "pos_ > file_->Size()") [], f)
  else
    let available := FS_Size (seq_file f) - pos_ f in
    let n := if available <? n then available else n in
    (OK, mkSequentialFileImpl (seq_file f) (pos_ f + n)).

#[export] Instance MemWritable : WritableFile FileState := {
  wf_Append := FS_Append;
  wf_Close f := (OK, f);
  wf_Flush f := (OK, f);
  wf_Sync f := (OK, f)
}.

#[export] Instance MemSequential : SequentialFile SequentialFileImpl := {
  sf_Read := SFI_Read;
  sf_Skip := SFI_Skip
}.

#[export] Instance MemRandom : RandomAccessFile FileState := {
  rf_Read := FS_Read
}.

(** ** The in-memory file keeps its contents

    All blocks are full arrays and the size says how much of them is used. *)

Definition FS_contents (f : FileState) : bytes := take (Z.to_nat (size_ f)) (concat (blocks_ f)).

Record FSInv (f : FileState) : Prop := {
  fs_size : 0 <= size_ f;
  fs_blocks : Forall (fun b => sz b = kMemBlockSize) (blocks_ f);
  fs_count : (sz (blocks_ f) - 1) * kMemBlockSize < size_ f <= sz (blocks_ f) * kMemBlockSize
             \/ size_ f = 0 /\ blocks_ f = []
}.

Lemma concat_blocks_length (bs : list bytes) : Forall (fun b => sz b = kMemBlockSize) bs ->
  sz (concat bs) = sz bs * kMemBlockSize.
Proof.
  induction 1 as [|b bs Hb _ IH]; [reflexivity|]. cbn [concat]. rewrite sz_app, sz_cons. lia.
Qed.

Lemma FS_contents_size f : FSInv f -> sz (FS_contents f) = size_ f.
Proof.
  intros [H0 HB HC]. unfold FS_contents. pose proof (concat_blocks_length _ HB) as Hl.
  unfold sz in *. rewrite length_take. destruct HC as [HC|[E ->]]; [|simpl; lia]. lia.
Qed.

Lemma update_last_app bs b g : update_last (bs ++ [b]) g = bs ++ [g b].
Proof.
  induction bs as [|a bs IH]; [reflexivity|]. simpl. rewrite IH.
  destruct (bs ++ [b]) eqn:E; [destruct bs; discriminate|reflexivity].
Qed.

Lemma block_copy_size b off src :
  0 <= off -> off + sz src <= sz b -> sz (block_copy b off src) = sz b.
Proof.
  intros H0 H. unfold block_copy, sz in *. rewrite !length_app, length_take, length_drop. lia.
Qed.

Lemma take_app_more {A} (l1 l2 : list A) n :
  sz l1 <= n -> take (Z.to_nat n) (l1 ++ l2) = l1 ++ take (Z.to_nat (n - sz l1)) l2.
Proof.
  intros H. rewrite take_app, take_ge by (unfold sz in H; lia). do 2 f_equal. unfold sz. lia.
Qed.

(** Writing a chunk at the end of the last block. *)

Lemma FS_chunk bs b off c :
  Forall (fun b => sz b = kMemBlockSize) bs -> sz b = kMemBlockSize -> 0 <= off ->
  off + sz c <= kMemBlockSize -> 0 < sz c ->
  let f := mkFileState (bs ++ [block_copy b off c]) (sz bs * kMemBlockSize + off + sz c) in
  FSInv f /\ FS_contents f
    = take (Z.to_nat (sz bs * kMemBlockSize + off)) (concat (bs ++ [b])) ++ c.
Proof.
  intros HB Hb H0 Hle Hc. pose proof (concat_blocks_length _ HB) as Hl. pose proof (sz_nonneg bs).
  assert (Hpos : 0 < kMemBlockSize) by reflexivity.
  split.
  - constructor; cbn [size_ blocks_].
    + nia.
    + apply Forall_app. split; [exact HB|]. constructor; [|constructor].
      rewrite block_copy_size; lia.
    + left. rewrite sz_app, sz_cons, sz_nil. lia.
  - unfold FS_contents. cbn [size_ blocks_]. rewrite !concat_app. cbn [concat]. rewrite !app_nil_r.
    rewrite !take_app_more by lia. rewrite Hl, <- app_assoc. f_equal. unfold block_copy.
    replace (sz bs * kMemBlockSize + off + sz c - sz bs * kMemBlockSize) with (off + sz c) by lia.
    replace (sz bs * kMemBlockSize + off - sz bs * kMemBlockSize) with off by lia.
    assert (Ht : sz (take (Z.to_nat off) b) = off) by (unfold sz in *; rewrite length_take; lia).
    rewrite take_app_more by lia. f_equal. rewrite take_app_more by lia. rewrite Ht.
    replace (off + sz c - off - sz c) with 0 by lia. rewrite take_0, app_nil_r. reflexivity.
Qed.

Lemma FS_last f : FSInv f -> size_ f mod kMemBlockSize <> 0 ->
  exists bs b, blocks_ f = bs ++ [b] /\ Forall (fun b => sz b = kMemBlockSize) bs /\
    sz b = kMemBlockSize /\ size_ f = sz bs * kMemBlockSize + size_ f mod kMemBlockSize.
Proof.
  intros [H0 HB HC] Hoff. destruct (exists_last (l := blocks_ f)) as (bs & b & E).
  { intros E. assert (E0 : size_ f = 0)
      by (destruct HC as [HC|[E0 _]]; [rewrite E, sz_nil in HC; lia|exact E0]).
    rewrite E0 in Hoff. apply Hoff. reflexivity. }
  exists bs, b. rewrite E in HB. apply Forall_app in HB as [HB Hb]. apply Forall_inv in Hb.
  repeat (split; [assumption|]). destruct HC as [HC|[_ E0]]; [|rewrite E0 in E; destruct bs; discriminate].
  rewrite E, sz_app, sz_cons, sz_nil in HC. pose proof (Z.div_mod (size_ f) kMemBlockSize ltac:(discriminate)).
  pose proof (Z.mod_pos_bound (size_ f) kMemBlockSize ltac:(reflexivity)).
  assert (size_ f / kMemBlockSize = sz bs); [|lia]. symmetry.
  apply (Z.div_unique _ _ _ (size_ f - sz bs * kMemBlockSize)); [|lia].
  assert (size_ f <> (sz bs + 1) * kMemBlockSize).
  { intros Es. apply Hoff. rewrite Es. apply Z.mod_mul. discriminate. }
  lia.
Qed.

Lemma FS_full f : FSInv f -> size_ f mod kMemBlockSize = 0 ->
  size_ f = sz (blocks_ f) * kMemBlockSize.
Proof.
  intros [H0 HB HC] Hoff. destruct HC as [HC|[-> ->]]; [|reflexivity].
  apply Z.mod_divide in Hoff as [k Hk]; [|discriminate]. rewrite Hk in *.
  unfold kMemBlockSize in *. nia.
Qed.

Lemma FS_Append_loop_ok fuel : forall f src, FSInv f -> (length src < fuel)%nat ->
  FSInv (FS_Append_loop fuel f src) /\
  FS_contents (FS_Append_loop fuel f src) = FS_contents f ++ src.
Proof.
  induction fuel as [|fuel IH]; intros f src HI Hf; [lia|]. cbn [FS_Append_loop].
  destruct (Z.ltb_spec 0 (sz src)) as [Hs|Hs].
  2: { assert (src = []) as -> by (destruct src; [reflexivity|unfold sz in Hs; simpl in Hs; lia]).
       rewrite app_nil_r. auto. }
  set (K := kMemBlockSize) in *. set (off := size_ f mod K).
  pose proof (Z.mod_pos_bound (size_ f) K ltac:(reflexivity)) as Hoff. fold off in Hoff.
  assert (Hgo : forall bs b, Forall (fun b => sz b = K) bs -> sz b = K ->
    size_ f = sz bs * K + off -> FS_contents f = take (Z.to_nat (size_ f)) (concat (bs ++ [b])) ->
    forall avail, avail = K - off ->
    let avail := if sz src <? avail then sz src else avail in
    let f' := FS_Append_loop fuel (mkFileState (update_last (bs ++ [b])
        (fun b => block_copy b off (take (Z.to_nat avail) src))) (size_ f + avail))
        (drop (Z.to_nat avail) src) in
    FSInv f' /\ FS_contents f' = FS_contents f ++ src).
  { intros bs b HB Hb Hsize Hcont avail0 Ha avail.
    assert (Hav : 0 < avail <= sz src /\ off + avail <= K) by (unfold avail; zcases; lia).
    clearbody avail. cbv zeta. rewrite update_last_app.
    set (c := take (Z.to_nat avail) src).
    assert (Hc : sz c = avail) by (unfold c, sz in *; rewrite length_take; lia).
    destruct (FS_chunk bs b off c HB Hb ltac:(lia) ltac:(fold K; lia) ltac:(lia)) as [HI' HC'].
    fold K in HI', HC'. rewrite Hc, <- Hsize in HI', HC'.
    destruct (IH _ (drop (Z.to_nat avail) src) HI') as [HI2 HC2].
    { rewrite length_drop. unfold sz in Hav. lia. }
    split; [exact HI2|]. rewrite HC2, HC', Hcont, <- app_assoc. f_equal. apply take_drop. }
  destruct (Z.eqb_spec off 0) as [E0|E0]; cbn [negb].
  - apply (Hgo (blocks_ f) (replicate (Z.to_nat K) Byte.x00)); [apply HI| | | |lia].
    + unfold sz. rewrite length_replicate. reflexivity.
    + rewrite E0. rewrite (FS_full f HI E0). fold K. lia.
    + unfold FS_contents. rewrite concat_app. rewrite take_app_le; [reflexivity|].
      pose proof (concat_blocks_length _ (fs_blocks _ HI)) as Hl. pose proof (FS_full f HI E0) as Hs'.
      unfold sz in *. lia.
  - destruct (FS_last f HI E0) as (bs & b & E & HB & Hb & Hsize).
    rewrite E. apply Hgo; try assumption; [|reflexivity]. unfold FS_contents. rewrite E. reflexivity.
Qed.

Lemma nth_block bs : forall k, Forall (fun b : bytes => sz b = kMemBlockSize) bs ->
  (k < length bs)%nat ->
  drop (Z.to_nat (Z.of_nat k * kMemBlockSize)) (concat bs) = nth k bs [] ++ concat (drop (S k) bs).
Proof.
  induction bs as [|b bs IH]; intros k HB Hk; [simpl in Hk; lia|]. inv HB.
  destruct k as [|k]; [rewrite drop_0; reflexivity|]. cbn [concat nth].
  replace (Z.to_nat (Z.of_nat (S k) * kMemBlockSize))
    with (length b + Z.to_nat (Z.of_nat k * kMemBlockSize))%nat
    by (unfold sz in *; unfold kMemBlockSize in *; lia).
  rewrite <- drop_drop, drop_app_length. rewrite IH by (assumption || simpl in Hk; lia). reflexivity.
Qed.

Lemma take_take_app {A} (l l' : list A) n m :
  (n <= length l)%nat -> take (n + m) (l ++ l') = take n l ++ take m (drop n l ++ l').
Proof.
  intros H. rewrite <- (take_drop n l) at 1. rewrite <- app_assoc.
  rewrite take_app. rewrite length_take, Nat.min_l by lia. f_equal.
  - apply take_ge. rewrite length_take. lia.
  - f_equal. lia.
Qed.

Lemma FS_Read_loop_ok f fuel : forall k off n, FSInv f -> (Z.to_nat n < fuel)%nat ->
  0 <= off < kMemBlockSize -> 0 <= n -> Z.of_nat k * kMemBlockSize + off + n <= size_ f ->
  FS_Read_loop fuel f k off n
  = take (Z.to_nat n) (drop (Z.to_nat (Z.of_nat k * kMemBlockSize + off)) (concat (blocks_ f))).
Proof.
  induction fuel as [|fuel IH]; intros k off n HI Hf Hoff Hn Hle; [lia|]. cbn [FS_Read_loop].
  destruct (Z.ltb_spec 0 n) as [Hp|Hp]; [|replace n with 0 by lia; reflexivity].
  cbv zeta. set (avail := if n <? kMemBlockSize - off then n else kMemBlockSize - off).
  assert (Hav : 0 < avail <= n /\ off + avail <= kMemBlockSize /\
                (off + avail = kMemBlockSize \/ avail = n)) by (unfold avail; zcases; lia).
  clearbody avail.
  assert (Hk : (k < length (blocks_ f))%nat).
  { destruct (fs_count _ HI) as [HC|[HC _]]; unfold sz, kMemBlockSize in *; lia. }
  pose proof (nth_block _ k (fs_blocks _ HI) Hk) as Hnth.
  assert (Hb : sz (nth k (blocks_ f) []) = kMemBlockSize)
    by (apply (proj1 (List.Forall_forall _ _) (fs_blocks _ HI)), nth_In, Hk).
  set (b := nth k (blocks_ f) []) in *.
  replace (Z.to_nat (Z.of_nat k * kMemBlockSize + off))
    with (Z.to_nat (Z.of_nat k * kMemBlockSize) + Z.to_nat off)%nat
    by (unfold kMemBlockSize in *; lia).
  rewrite <- drop_drop, Hnth, drop_app_le by (unfold sz in Hb; lia).
  replace (Z.to_nat n) with (Z.to_nat avail + Z.to_nat (n - avail))%nat by lia.
  rewrite take_take_app by (rewrite length_drop; unfold sz in Hb; lia). f_equal.
  destruct (Z.eq_dec n avail) as [->|Hne].
  { rewrite Z.sub_diag, take_0. destruct fuel; reflexivity. }
  destruct (Hav) as (_ & _ & [Hfull|]); [|lia].
  rewrite IH by (assumption || unfold kMemBlockSize in *; lia). f_equal.
  rewrite Z.add_0_r. rewrite drop_drop. rewrite (drop_ge b) by (unfold sz in Hb; lia). rewrite app_nil_l.
  replace (Z.to_nat (Z.of_nat (S k) * kMemBlockSize))
    with (Z.to_nat (Z.of_nat k * kMemBlockSize) + length b)%nat
    by (unfold sz in Hb; clear - Hb; unfold kMemBlockSize in *; lia).
  rewrite <- drop_drop, Hnth. apply drop_app_length.
Qed.

(** ** The laws *)

#[export] Program Instance MemReliableWritable : ReliableWritable FileState := {
  wf_inv := FSInv;
  wf_contents := FS_contents
}.
Next Obligation.
  intros f d HI. destruct (FS_Append_loop_ok (S (length d)) f d HI) as [H1 H2]; [lia|].
  eexists. split; [reflexivity|]. auto.
Qed.
Next Obligation. intros f HI. exists f. auto. Qed.
Next Obligation. intros f HI. exists f. auto. Qed.

Lemma FSInv_new : FSInv FileState_new.
Proof. constructor; [reflexivity|constructor|right; auto]. Qed.

Lemma FS_Read_ok f off n : FSInv f -> 0 <= off <= size_ f -> 0 <= n ->
  FS_Read f off n = (OK, take (Z.to_nat n) (drop (Z.to_nat off) (FS_contents f))).
Proof.
  intros HI Hoff Hn. unfold FS_Read. rewrite (proj2 (Z.ltb_ge _ _)) by lia. cbv zeta.
  pose proof (FS_contents_size f HI) as Hsz.
  set (m := if size_ f - off <? n then size_ f - off else n).
  assert (Hm : 0 <= m <= n /\ off + m <= size_ f /\ (m = n \/ off + m = size_ f))
    by (unfold m; zcases; lia). clearbody m.
  assert (Hcut : take (Z.to_nat n) (drop (Z.to_nat off) (FS_contents f))
                 = take (Z.to_nat m) (drop (Z.to_nat off) (FS_contents f))).
  { destruct Hm as (Hm1 & Hm2 & [->|E]); [reflexivity|]. rewrite !take_ge; [reflexivity| |];
      rewrite length_drop; unfold sz in Hsz; lia. }
  rewrite Hcut. destruct (Z.eqb_spec m 0) as [->|Hm0]; [reflexivity|]. f_equal.
  pose proof (Z.div_mod off kMemBlockSize ltac:(discriminate)) as Hdm.
  pose proof (Z.mod_pos_bound off kMemBlockSize ltac:(reflexivity)) as Hmb.
  assert (0 <= off / kMemBlockSize) by (apply Z.div_pos; [lia|reflexivity]).
  rewrite FS_Read_loop_ok by (assumption || rewrite ?Z2Nat.id by lia; lia).
  rewrite Z2Nat.id by lia.
  replace (off / kMemBlockSize * kMemBlockSize + off mod kMemBlockSize) with off by lia.
  unfold FS_contents. rewrite skipn_firstn_comm, take_take. f_equal. lia.
Qed.

#[export] Program Instance MemReliableSequential : ReliableSequential SequentialFileImpl := {
  sf_inv f := FSInv (seq_file f) /\ 0 <= pos_ f <= size_ (seq_file f);
  sf_rest f := drop (Z.to_nat (pos_ f)) (FS_contents (seq_file f))
}.
Next Obligation.
  intros [f pos] n [HI Hp] Hn. cbn [seq_file pos_] in *. unfold sf_Read, MemSequential, SFI_Read.
  cbn [seq_file pos_]. rewrite FS_Read_ok by assumption. cbn [ok OK].
  eexists. split; [reflexivity|]. cbn [seq_file pos_].
  pose proof (FS_contents_size f HI) as Hsz. unfold sz in *.
  rewrite length_take, length_drop. split; [split; [exact HI|lia]|].
  rewrite drop_drop.
  destruct (Nat.le_ge_cases (Z.to_nat n) (length (FS_contents f) - Z.to_nat pos)).
  - f_equal. lia.
  - rewrite !drop_ge by lia. reflexivity.
Qed.
Next Obligation.
  intros [f pos] n [HI Hp] Hn. cbn [seq_file pos_] in *. unfold sf_Skip, MemSequential, SFI_Skip, FS_Size.
  cbn [seq_file pos_]. rewrite (proj2 (Z.ltb_ge _ _)) by lia. cbv zeta. eexists. split; [reflexivity|].
  cbn [seq_file pos_]. pose proof (FS_contents_size f HI) as Hsz. unfold sz in *.
  destruct (Z.ltb_spec (size_ f - pos) n); (split; [split; [exact HI|lia]|]); rewrite drop_drop.
  - rewrite !drop_ge by lia. reflexivity.
  - f_equal. lia.
Qed.

#[export] Program Instance MemReliableRandom : ReliableRandom FileState := {
  rf_inv := FSInv;
  rf_contents := FS_contents
}.
Next Obligation.
  intros f off n HI Hoff Hn. apply FS_Read_ok; [exact HI| |exact Hn].
  rewrite <- FS_contents_size by exact HI. exact Hoff.
Qed.

(** ** Properties *)

(** The in-memory file, stored in blocks of 8 KB, behaves as the string of
    the bytes appended to it: after any sequence of appends to a new file, a
    read at any offset inside it returns exactly the requested bytes (fewer at
    the end of the file), and a read past the end is an I/O error. *)
Theorem memfile_contents : forall chunks off n, 0 <= off -> 0 <= n ->
  let f := fold_left (fun f d => snd (FS_Append f d)) chunks FileState_new in
  FS_Size f = sz (concat chunks) /\
  FS_Read f off n =
    if sz (concat chunks) <? off then (IOError (str "Offset greater than file size.") [], [])
    else (OK, take (Z.to_nat n) (drop (Z.to_nat off) (concat chunks))).
Proof.
  intros chunks off n Hoff Hn f.
  assert (H : FSInv f /\ FS_contents f = concat chunks).
  { assert (Hgen : forall cs g, FSInv g ->
      FSInv (fold_left (fun f d => snd (FS_Append f d)) cs g) /\
      FS_contents (fold_left (fun f d => snd (FS_Append f d)) cs g) = FS_contents g ++ concat cs).
    { induction cs as [|c cs IH]; intros g HI; [simpl; rewrite app_nil_r; auto|].
      destruct (FS_Append_loop_ok (S (length c)) g c HI) as [H1 H2]; [lia|].
      destruct (IH _ H1) as [H3 H4]. split; [exact H3|]. cbn [fold_left concat].
      unfold FS_Append at 2. cbn [snd]. rewrite H4, H2, app_assoc. reflexivity. }
    apply (Hgen chunks FileState_new FSInv_new). }
  clearbody f. destruct H as [HI HC]. pose proof (FS_contents_size f HI) as Hsz.
  rewrite HC in Hsz. split; [symmetry; exact Hsz|]. rewrite Hsz.
  destruct (Z.ltb_spec (size_ f) off) as [H|H].
  - unfold FS_Read. rewrite (proj2 (Z.ltb_lt _ _) H). reflexivity.
  - rewrite FS_Read_ok, HC by (assumption || lia). reflexivity.
Qed.

Lemma memfile_contents_witness :
  FS_Read (fold_left (fun f d => snd (FS_Append f d)) [str "hello "; str "world"] FileState_new) 4 5
  = if sz (concat [str "hello "; str "world"]) <? 4
    then (IOError (str "Offset greater than file size.") [], [])
    else (OK, take (Z.to_nat 5) (drop (Z.to_nat 4) (concat [str "hello "; str "world"]))).
Proof. apply (memfile_contents [str "hello "; str "world"] 4 5); lia. Defined.
