(* ===== verification/MemEnv.v ===== *)
(** * The in-memory environment (helpers/memenv/memenv.cc)

    A map from names to file objects that are counted: a name and every open file
    hold a reference, and an object is deleted with its last reference.  The
    operations take the environment; an open file is the address of its object
    (and a position, for a file that is read in sequence).  The methods lock the
    environment's mutex, so each is one step. *)

From S2P Require Import Prelude Coding Compare Logging Env.
#[local] Open Scope Z_scope.
#[local] Open Scope ldb_scope.

(** ** The state *)

(** A name can be mapped to a null pointer. *)

Record InMemoryEnv := mkInMemoryEnv {
  file_map_ : gmap bytes (option nat);
  objects : gmap nat (Z * FileState);          (* refs_ and the rest of a FileState *)
  next_object : nat
}.

Definition InMemoryEnv_new : InMemoryEnv := mkInMemoryEnv ∅ ∅ 0.

Definition with_map (e : InMemoryEnv) (m : gmap bytes (option nat)) : InMemoryEnv := mkInMemoryEnv m (objects e) (next_object e).

Definition with_objects (e : InMemoryEnv) (o : gmap nat (Z * FileState)) : InMemoryEnv := mkInMemoryEnv (file_map_ e) o (next_object e).

(** [new FileState()] *)

Definition new_object (e : InMemoryEnv) : nat * InMemoryEnv :=
  (next_object e, mkInMemoryEnv (file_map_ e) (<[next_object e := (0, FileState_new)]> (objects e)) (S (next_object e))).

(** [None]: the object does not exist, which is undefined behaviour. *)

Definition FS_Ref (a : nat) (e : InMemoryEnv) : option InMemoryEnv :=
  match objects e !! a with
  | Some (refs, f) => Some (with_objects e (<[a := (refs + 1, f)]> (objects e)))
  | None => None
  end.

Definition FS_Unref (a : nat) (e : InMemoryEnv) : option InMemoryEnv :=
  match objects e !! a with
  | Some (refs, f) =>
      let refs := refs - 1 in
      Some (with_objects e (if refs <=? 0 then delete a (objects e) else <[a := (refs, f)]> (objects e)))
  | None => None
  end.

Definition on_object (a : nat) (g : FileState -> FileState) (e : InMemoryEnv) : option InMemoryEnv :=
  match objects e !! a with
  | Some (refs, f) => Some (with_objects e (<[a := (refs, g f)]> (objects e)))
  | None => None
  end.

(** ** Opening files *)

Definition file_not_found (fname : bytes) : Status := IOError fname (str "File not found").

(** The constructors of the file classes take a reference; a null pointer is
    undefined behaviour. *)

Definition open_object (p : option nat) (e : InMemoryEnv) : option (nat * InMemoryEnv) :=
  match p with
  | Some a => option_map (fun e => (a, e)) (FS_Ref a e)
  | None => None
  end.

Definition NewSequentialFile (fname : bytes) (e : InMemoryEnv) : option (Status * option (nat * Z) * InMemoryEnv) :=
  match file_map_ e !! fname with
  | None => Some (file_not_found fname, None, e)
  | Some p => option_map (fun r => (OK, Some (fst r, 0), snd r)) (open_object p e)
  end.

Definition NewRandomAccessFile (fname : bytes) (e : InMemoryEnv) : option (Status * option nat * InMemoryEnv) :=
  match file_map_ e !! fname with
  | None => Some (file_not_found fname, None, e)
  | Some p => option_map (fun r => (OK, Some (fst r), snd r)) (open_object p e)
  end.

Definition NewWritableFile (fname : bytes) (e : InMemoryEnv) : option (Status * nat * InMemoryEnv) :=
  match file_map_ e !! fname with
  | None =>
      let '(a, e) := new_object e in
      match FS_Ref a e with
      | None => None
      | Some e => option_map (fun r => (OK, fst r, snd r)) (open_object (Some a) (with_map e (<[fname := Some a]> (file_map_ e))))
      end
  | Some None => None
  | Some (Some a) =>
      match on_object a FS_Truncate e with
      | None => None
      | Some e => option_map (fun r => (OK, fst r, snd r)) (open_object (Some a) e)
      end
  end.

(** [file_map_[fname]] enters a null pointer for a new name; the new object is
    not entered. *)

Definition NewAppendableFile (fname : bytes) (e : InMemoryEnv) : option (Status * nat * InMemoryEnv) :=
  match file_map_ e !! fname with
  | Some (Some a) => option_map (fun r => (OK, fst r, snd r)) (open_object (Some a) e)
  | _ =>
      let e := with_map e (<[fname := None]> (file_map_ e)) in
      let '(a, e) := new_object e in
      match FS_Ref a e with
      | None => None
      | Some e => option_map (fun r => (OK, fst r, snd r)) (open_object (Some a) e)
      end
  end.

(** ** Open files *)

Definition WFI_Append (a : nat) (data : bytes) (e : InMemoryEnv) : option (Status * InMemoryEnv) :=
  option_map (fun e => (OK, e)) (on_object a (fun f => snd (FS_Append f data)) e).

Definition RAF_Read (a : nat) (offset n : Z) (e : InMemoryEnv) : option (Status * bytes) :=
  option_map (fun o => FS_Read (snd o) offset n) (objects e !! a).

Definition SEQ_Read (h : nat * Z) (n : Z) (e : InMemoryEnv) : option (Status * bytes * (nat * Z)) :=
  match objects e !! fst h with
  | None => None
  | Some (_, f) => let '(s, result, h') := SFI_Read (mkSequentialFileImpl f (snd h)) n in Some (s, result, (fst h, pos_ h'))
  end.

Definition SEQ_Skip (h : nat * Z) (n : Z) (e : InMemoryEnv) : option (Status * (nat * Z)) :=
  match objects e !! fst h with
  | None => None
  | Some (_, f) => let '(s, h') := SFI_Skip (mkSequentialFileImpl f (snd h)) n in Some (s, (fst h, pos_ h'))
  end.

(** The destructors of the file classes. *)

Definition close_file (a : nat) (e : InMemoryEnv) : option InMemoryEnv := FS_Unref a e.

(** ** The directory *)

Definition FileExists (fname : bytes) (e : InMemoryEnv) : bool := bool_decide (is_Some (file_map_ e !! fname)).

(** The names in the order of [std::map]. *)

Fixpoint insert_name (x : bytes) (l : list bytes) : list bytes :=
  match l with
  | [] => [x]
  | y :: l' => if Slice_compare x y <? 0 then x :: l else y :: insert_name x l'
  end.

Definition names (e : InMemoryEnv) : list bytes := fold_right insert_name [] (map fst (map_to_list (file_map_ e))).

Definition child_of (dir filename : bytes) : option bytes :=
  if (Z.of_nat (length dir) + 1 <=? sz filename) && bool_decide (filename !! length dir = Some (z2b 47)) && Slice_starts_with filename dir
  then Some (drop (length dir + 1) filename) else None.

Definition GetChildren (dir : bytes) (e : InMemoryEnv) : Status * list bytes := (OK, omap (child_of dir) (names e)).

Definition RemoveFileInternal (fname : bytes) (e : InMemoryEnv) : option InMemoryEnv :=
  match file_map_ e !! fname with
  | None => Some e
  | Some None => None
  | Some (Some a) => option_map (fun e => with_map e (delete fname (file_map_ e))) (FS_Unref a e)
  end.

Definition RemoveFile (fname : bytes) (e : InMemoryEnv) : option (Status * InMemoryEnv) :=
  match file_map_ e !! fname with
  | None => Some (file_not_found fname, e)
  | Some _ => option_map (fun e => (OK, e)) (RemoveFileInternal fname e)
  end.

Definition GetFileSize (fname : bytes) (e : InMemoryEnv) : option (Status * Z) :=
  match file_map_ e !! fname with
  | None => Some (file_not_found fname, 0)
  | Some None => None
  | Some (Some a) => option_map (fun o => (OK, FS_Size (snd o))) (objects e !! a)
  end.

(** [file_map_[target] = file_map_[src]]: when the two names are the same the
    target was removed before the source is read, and the name is entered anew
    with a null pointer. *)

Definition RenameFile (src target : bytes) (e : InMemoryEnv) : option (Status * InMemoryEnv) :=
  match file_map_ e !! src with
  | None => Some (file_not_found src, e)
  | Some _ =>
      match RemoveFileInternal target e with
      | None => None
      | Some e => Some (OK, with_map e (delete src (<[target := default None (file_map_ e !! src)]> (file_map_ e))))
      end
  end.

(** ** References *)

(** The names of an object, and the open files on it. *)

Definition names_of (m : gmap bytes (option nat)) (a : nat) : nat := size (filter (fun kv => snd kv = Some a) m).

Record env_ok (e : InMemoryEnv) (hs : list nat) : Prop := {
  eo_refs : forall a refs f, objects e !! a = Some (refs, f) -> refs = Z.of_nat (names_of (file_map_ e) a + occurs hs a) /\ 0 < refs;
  eo_names : forall n p, file_map_ e !! n = Some p -> exists a, p = Some a /\ is_Some (objects e !! a);
  eo_handles : forall a, In a hs -> is_Some (objects e !! a);
  eo_fresh : forall a, is_Some (objects e !! a) -> (a < next_object e)%nat
}.

Lemma names_insert m n a b : m !! n = None -> names_of (<[n := Some a]> m) b = (names_of m b + if decide (a = b) then 1 else 0)%nat.
Proof.
  intros Hn. unfold names_of. destruct (decide (a = b)) as [->|Hne].
  - rewrite map_filter_insert_True by reflexivity. rewrite map_size_insert_None; [lia|]. apply map_lookup_filter_None. auto.
  - rewrite map_filter_insert_False by (cbn; congruence). rewrite delete_id by exact Hn. lia.
Qed.

Lemma names_delete m n a b : m !! n = Some (Some a) -> names_of m b = (names_of (delete n m) b + if decide (a = b) then 1 else 0)%nat.
Proof.
  intros Hn. rewrite <- (insert_delete_id m n (Some a) Hn) at 1. apply names_insert, lookup_delete_eq.
Qed.

Lemma names_in m n a : m !! n = Some (Some a) -> (0 < names_of m a)%nat.
Proof. intros H. rewrite (names_delete m n a a H), decide_True by reflexivity. lia. Qed.

(** Taking and giving back a reference: the count changes by one. *)

Lemma open_object_ok e hs a : env_ok e hs -> is_Some (objects e !! a) ->
  exists e', open_object (Some a) e = Some (a, e') /\ env_ok e' (a :: hs) /\ file_map_ e' = file_map_ e /\
    forall b, snd <$> objects e' !! b = snd <$> objects e !! b.
Proof.
  intros [H1 H2 H3 H4] [[refs f] Ha]. unfold open_object, FS_Ref. rewrite Ha. eexists. split; [reflexivity|]. split; [|split; [reflexivity|]].
  - split; cbn [with_objects objects file_map_ next_object].
    + intros b refs' f'. rewrite occurs_cons. destruct (decide (a = b)) as [<-|Hne].
      * rewrite lookup_insert_eq. intros [= <- <-]. destruct (H1 a refs f Ha) as [-> Hp]. lia.
      * rewrite lookup_insert_ne by exact Hne. intros Hb. destruct (H1 b refs' f' Hb) as [-> Hp]. lia.
    + intros n p Hn. destruct (H2 n p Hn) as (b & -> & Hb). exists b. split; [reflexivity|]. apply lookup_insert_is_Some. destruct (decide (a = b)); auto.
    + intros b [<-|Hb]; apply lookup_insert_is_Some; [left; reflexivity|]. destruct (decide (a = b)); auto.
    + intros b Hb. apply H4. apply lookup_insert_is_Some in Hb as [<-|[_ Hb]]; [rewrite Ha; eauto|exact Hb].
  - intros b. cbn [with_objects objects]. destruct (decide (a = b)) as [<-|Hne]; [rewrite lookup_insert_eq, Ha; reflexivity|rewrite lookup_insert_ne by exact Hne; reflexivity].
Qed.

(** A reference that is given back by a name ([m]) or by an open file ([hs']). *)

Lemma Unref_ok e hs a m hs' : env_ok e hs -> is_Some (objects e !! a) ->
  (forall b, names_of (file_map_ e) b + occurs hs b = names_of m b + occurs hs' b + if decide (a = b) then 1 else 0)%nat ->
  (forall n p, m !! n = Some p -> file_map_ e !! n = Some p) -> (forall b, In b hs' -> In b hs) ->
  exists e', FS_Unref a e = Some e' /\ env_ok (with_map e' m) hs' /\
    forall b, is_Some (objects e' !! b) -> snd <$> objects e' !! b = snd <$> objects e !! b.
Proof.
  intros [H1 H2 H3 H4] [[refs f] Ha] HC Hm Hh. unfold FS_Unref. rewrite Ha. destruct (H1 a refs f Ha) as [Er Hp]. pose proof (HC a) as Ca. rewrite decide_True in Ca by reflexivity.
  assert (Hlive : forall b, (0 < names_of m b + occurs hs' b)%nat -> is_Some (objects e !! b) ->
    is_Some ((if refs - 1 <=? 0 then delete a (objects e) else <[a := (refs - 1, f)]> (objects e)) !! b)).
  { intros b Hb Hs. destruct (Z.leb_spec (refs - 1) 0) as [Hz|Hz].
    - destruct (decide (a = b)) as [<-|Hne]; [lia|]. rewrite lookup_delete_ne by exact Hne. exact Hs.
    - apply lookup_insert_is_Some. destruct (decide (a = b)); auto. }
  eexists. split; [reflexivity|]. split.
  - split; cbn [with_map with_objects objects file_map_ next_object].
    + intros b refs' f' Hb. specialize (HC b). destruct (decide (a = b)) as [<-|Hne].
      * destruct (Z.leb_spec (refs - 1) 0) as [Hz|Hz]; [rewrite lookup_delete_eq in Hb; discriminate|]. rewrite lookup_insert_eq in Hb. injection Hb as <- <-. lia.
      * assert (Hb' : objects e !! b = Some (refs', f')) by (destruct (refs - 1 <=? 0); [rewrite lookup_delete_ne in Hb by exact Hne|rewrite lookup_insert_ne in Hb by exact Hne]; exact Hb).
        destruct (H1 b refs' f' Hb') as [-> Hp']. lia.
    + intros n p Hn. destruct (H2 n p (Hm n p Hn)) as (b & -> & Hb). exists b. split; [reflexivity|]. apply Hlive; [|exact Hb]. pose proof (names_in m n b Hn). lia.
    + intros b Hb. apply Hlive; [pose proof (occurs_in hs' b Hb); lia|apply H3, Hh, Hb].
    + intros b Hb. apply H4. destruct (refs - 1 <=? 0).
      * destruct (decide (a = b)) as [<-|Hne]; [rewrite lookup_delete_eq in Hb; destruct Hb; discriminate|rewrite lookup_delete_ne in Hb by exact Hne; exact Hb].
      * apply lookup_insert_is_Some in Hb as [<-|[_ Hb]]; [rewrite Ha; eauto|exact Hb].
  - intros b Hb. cbn [with_objects objects] in *. destruct (refs - 1 <=? 0); destruct (decide (a = b)) as [<-|Hne].
    + rewrite lookup_delete_eq in Hb. destruct Hb; discriminate.
    + rewrite lookup_delete_ne by exact Hne. reflexivity.
    + rewrite lookup_insert_eq, Ha. reflexivity.
    + rewrite lookup_insert_ne by exact Hne. reflexivity.
Qed.

Lemma on_object_ok e hs a g : env_ok e hs -> is_Some (objects e !! a) -> exists e', on_object a g e = Some e' /\ env_ok e' hs /\ file_map_ e' = file_map_ e /\
  is_Some (objects e' !! a).
Proof.
  intros [H1 H2 H3 H4] [[refs f] Ha]. unfold on_object. rewrite Ha. eexists. split; [reflexivity|].
  assert (HS : forall b, is_Some (<[a := (refs, g f)]> (objects e) !! b) <-> is_Some (objects e !! b)).
  { intros b. rewrite lookup_insert_is_Some. destruct (decide (a = b)) as [<-|Hne]; [rewrite Ha; split; eauto|tauto]. }
  split; [|split; [reflexivity|apply HS; eauto]]. split; cbn [with_objects objects file_map_ next_object].
  - intros b refs' f'. destruct (decide (a = b)) as [<-|Hne]; [rewrite lookup_insert_eq; intros [= <- _]; exact (H1 a refs f Ha)|].
    rewrite lookup_insert_ne by exact Hne. apply H1.
  - intros n p Hn. destruct (H2 n p Hn) as (b & -> & Hb). exists b. split; [reflexivity|apply HS, Hb].
  - intros b Hb. apply HS, H3, Hb.
  - intros b Hb. apply H4, HS, Hb.
Qed.

(** A new object under a new name, with an open file on it. *)

Lemma create_ok e hs fname : env_ok e hs -> file_map_ e !! fname = None ->
  exists a e', NewWritableFile fname e = Some (OK, a, e') /\ env_ok e' (a :: hs) /\ file_map_ e' !! fname = Some (Some a).
Proof.
  intros [H1 H2 H3 H4] Hn. unfold NewWritableFile. rewrite Hn. cbn [new_object]. unfold FS_Ref at 1. cbn [objects]. rewrite lookup_insert_eq.
  set (a := next_object e). cbn [with_objects file_map_ objects next_object with_map]. rewrite insert_insert_eq.
  assert (Hfree : objects e !! a = None).
  { destruct (objects e !! a) eqn:E; [|reflexivity]. assert (a < next_object e)%nat by (apply H4; eauto). unfold a in *. lia. }
  assert (Hno : names_of (file_map_ e) a = O).
  { unfold names_of. apply map_size_empty_iff, map_empty_filter. intros n p Hp Hx. destruct (H2 n p Hp) as (b & -> & Hb). cbn in Hx. injection Hx as ->. rewrite Hfree in Hb. destruct Hb; discriminate. }
  assert (Hop : occurs hs a = O).
  { unfold occurs. destruct (List.filter (Nat.eqb a) hs) as [|x l] eqn:E; [reflexivity|]. assert (Hx : In x (List.filter (Nat.eqb a) hs)) by (rewrite E; left; reflexivity).
    apply filter_In in Hx as [Hx1 Hx2]. apply Nat.eqb_eq in Hx2 as <-. apply H3 in Hx1. rewrite Hfree in Hx1. destruct Hx1; discriminate. }
  set (e1 := mkInMemoryEnv (<[fname := Some a]> (file_map_ e)) (<[a := (0 + 1, FileState_new)]> (objects e)) (S a)).
  assert (HE : env_ok e1 hs).
  { split; cbn [e1 objects file_map_ next_object].
    - intros b refs f. rewrite names_insert by exact Hn. destruct (decide (a = b)) as [<-|Hne].
      + rewrite lookup_insert_eq. intros [= <- <-]. lia.
      + rewrite lookup_insert_ne by exact Hne. intros Hb. destruct (H1 b refs f Hb) as [-> Hp]. lia.
    - intros n p. destruct (decide (fname = n)) as [<-|Hne].
      + rewrite lookup_insert_eq. intros [= <-]. exists a. split; [reflexivity|]. apply lookup_insert_is_Some. auto.
      + rewrite lookup_insert_ne by exact Hne. intros Hp. destruct (H2 n p Hp) as (b & -> & Hb). exists b. split; [reflexivity|]. apply lookup_insert_is_Some. destruct (decide (a = b)); auto.
    - intros b Hb. apply lookup_insert_is_Some. destruct (decide (a = b)); [auto|]. right. split; [assumption|]. apply H3, Hb.
    - intros b Hb. apply lookup_insert_is_Some in Hb as [<-|[_ Hb]]; [lia|]. specialize (H4 b Hb). unfold a. lia. }
  assert (HA : is_Some (objects e1 !! a)) by (cbn [e1 objects]; apply lookup_insert_is_Some; auto).
  destruct (open_object_ok e1 hs a HE HA) as (e' & E' & HE' & Hm & _). exists a, e'.
  split; [match goal with |- context [open_object (Some a) ?x] => change x with e1 end; rewrite E'; reflexivity|]. split; [exact HE'|]. rewrite Hm. apply lookup_insert_eq.
Qed.

(** ** Runs *)

(** What a client does; open files are named by their place in the list. *)

Inductive EnvOp :=
| OpenSequential (fname : bytes)
| OpenRandomAccess (fname : bytes)
| OpenWritable (fname : bytes)
| OpenAppendable (fname : bytes)
| AppendTo (i : nat) (data : bytes)
| CloseFile (i : nat)
| Remove (fname : bytes)
| Rename (src target : bytes).

Definition do_op (op : EnvOp) (st : InMemoryEnv * list nat) : option (InMemoryEnv * list nat) :=
  let '(e, hs) := st in
  match op with
  | OpenSequential n => option_map (fun '(_, r, e) => (e, match r with Some (a, _) => a :: hs | None => hs end)) (NewSequentialFile n e)
  | OpenRandomAccess n => option_map (fun '(_, r, e) => (e, match r with Some a => a :: hs | None => hs end)) (NewRandomAccessFile n e)
  | OpenWritable n => option_map (fun '(_, a, e) => (e, a :: hs)) (NewWritableFile n e)
  | OpenAppendable n => option_map (fun '(_, a, e) => (e, a :: hs)) (NewAppendableFile n e)
  | AppendTo i data => match hs !! i with Some a => option_map (fun r => (snd r, hs)) (WFI_Append a data e) | None => Some st end
  | CloseFile i => match hs !! i with Some a => option_map (fun e => (e, take i hs ++ drop (S i) hs)) (close_file a e) | None => Some st end
  | Remove n => option_map (fun r => (snd r, hs)) (RemoveFile n e)
  | Rename src target => option_map (fun r => (snd r, hs)) (RenameFile src target e)
  end.

(** [NewAppendableFile] is used on files that exist. *)

Definition proper (op : EnvOp) (st : InMemoryEnv * list nat) : Prop :=
  match op with OpenAppendable n => FileExists n (fst st) = true | _ => True end.

Inductive reached : InMemoryEnv * list nat -> Prop :=
| reached_new : reached (InMemoryEnv_new, [])
| reached_op st op st' : reached st -> proper op st -> do_op op st = Some st' -> reached st'.

Lemma remove_ok e hs n : env_ok e hs -> exists e', RemoveFileInternal n e = Some e' /\ env_ok e' hs /\ file_map_ e' = delete n (file_map_ e) /\
  forall b, is_Some (objects e' !! b) -> snd <$> objects e' !! b = snd <$> objects e !! b.
Proof.
  intros HE. unfold RemoveFileInternal. destruct (file_map_ e !! n) as [p|] eqn:En; [|exists e; rewrite delete_id by exact En; auto].
  destruct (eo_names _ _ HE n p En) as (a & -> & Ha).
  destruct (Unref_ok e hs a (delete n (file_map_ e)) hs HE Ha) as (e' & E' & HE' & HO').
  - intros b. pose proof (names_delete (file_map_ e) n a b En). lia.
  - intros n' p Hp. apply lookup_delete_Some in Hp as [_ Hp]. exact Hp.
  - auto.
  - rewrite E'. assert (Hmap : file_map_ e' = file_map_ e) by (revert E'; unfold FS_Unref; destruct (objects e !! a) as [[r f]|]; [intros [= <-]; reflexivity|discriminate]).
    eexists. split; [reflexivity|]. rewrite Hmap. split; [exact HE'|]. split; [reflexivity|exact HO'].
Qed.

Lemma rename_ok e hs src target : env_ok e hs -> exists s e', RenameFile src target e = Some (s, e') /\ env_ok e' hs.
Proof.
  intros HE. unfold RenameFile. destruct (file_map_ e !! src) as [p|] eqn:Es; [|exists (file_not_found src), e; auto].
  destruct (remove_ok e hs target HE) as (e1 & -> & HE1 & Hm1 & _). eexists _, _. split; [reflexivity|]. rewrite Hm1.
  destruct (decide (src = target)) as [->|Hne].
  - rewrite lookup_delete_eq. cbn [default from_option]. rewrite delete_insert_eq, delete_delete_eq. rewrite <- Hm1. destruct e1; exact HE1.
  - rewrite lookup_delete_ne by congruence. rewrite Es. cbn [default from_option id]. rewrite <- Hm1.
    assert (Es1 : file_map_ e1 !! src = Some p) by (rewrite Hm1, lookup_delete_ne by congruence; exact Es).
    assert (Et1 : file_map_ e1 !! target = None) by (rewrite Hm1; apply lookup_delete_eq).
    destruct (eo_names _ _ HE1 src p Es1) as (a & -> & Ha). destruct HE1 as [H1 H2 H3 H4].
    assert (HN : forall b, names_of (delete src (<[target := Some a]> (file_map_ e1))) b = names_of (file_map_ e1) b).
    { intros b. assert (Hx : <[target := Some a]> (file_map_ e1) !! src = Some (Some a)) by (rewrite lookup_insert_ne by congruence; exact Es1).
      pose proof (names_delete _ src a b Hx) as E1. rewrite names_insert in E1 by exact Et1. lia. }
    split; cbn [with_map objects file_map_ next_object]; try assumption.
    + intros b refs f Hb. rewrite HN. exact (H1 b refs f Hb).
    + intros n q Hq. apply lookup_delete_Some in Hq as [_ Hq]. apply lookup_insert_Some in Hq as [[_ <-]|[_ Hq]]; [exists a; auto|exact (H2 n q Hq)].
Qed.

Lemma op_ok op e hs : env_ok e hs -> proper op (e, hs) -> exists e' hs', do_op op (e, hs) = Some (e', hs') /\ env_ok e' hs'.
Proof.
  intros HE Hp. destruct op as [n|n|n|n|i data|i|n|src target]; cbn [do_op].
  1-2: unfold NewSequentialFile, NewRandomAccessFile; destruct (file_map_ e !! n) as [p|] eqn:En; [|exists e, hs; auto];
    destruct (eo_names _ _ HE n p En) as (a & -> & Ha); destruct (open_object_ok e hs a HE Ha) as (e' & -> & HE' & _); exists e', (a :: hs); auto.
  - destruct (file_map_ e !! n) as [p|] eqn:En.
    + destruct (eo_names _ _ HE n p En) as (a & -> & Ha). unfold NewWritableFile. rewrite En.
      destruct (on_object_ok e hs a FS_Truncate HE Ha) as (e1 & -> & HE1 & _ & Ha1). destruct (open_object_ok e1 hs a HE1 Ha1) as (e' & -> & HE' & _). exists e', (a :: hs). auto.
    + destruct (create_ok e hs n HE En) as (a & e' & -> & HE' & _). exists e', (a :: hs). auto.
  - unfold proper, FileExists in Hp. cbn [fst] in Hp. apply bool_decide_eq_true in Hp as [p En]. destruct (eo_names _ _ HE n p En) as (a & -> & Ha).
    unfold NewAppendableFile. rewrite En. destruct (open_object_ok e hs a HE Ha) as (e' & -> & HE' & _). exists e', (a :: hs). auto.
  - destruct (hs !! i) as [a|] eqn:Ei; [|exists e, hs; auto]. assert (Ha : is_Some (objects e !! a)) by (apply (eo_handles _ _ HE), In_lookup; eauto).
    unfold WFI_Append. destruct (on_object_ok e hs a (fun f => snd (FS_Append f data)) HE Ha) as (e' & -> & HE' & _). exists e', hs. auto.
  - destruct (hs !! i) as [a|] eqn:Ei; [|exists e, hs; auto]. assert (Ha : is_Some (objects e !! a)) by (apply (eo_handles _ _ HE), In_lookup; eauto).
    pose proof (take_drop_middle hs i a Ei) as Eh. set (hs' := take i hs ++ drop (S i) hs).
    destruct (Unref_ok e hs a (file_map_ e) hs' HE Ha) as (e' & E' & HE' & _).
    + intros b. rewrite <- Eh at 1. rewrite occurs_middle. unfold hs'. lia.
    + auto.
    + intros b Hb. rewrite <- Eh. unfold hs' in Hb. apply in_app_iff in Hb as [Hb|Hb]; apply in_app_iff; [auto|right; right; exact Hb].
    + unfold close_file. rewrite E'. exists e', hs'. split; [reflexivity|].
      assert (Hmap : file_map_ e' = file_map_ e) by (revert E'; unfold FS_Unref; destruct (objects e !! a) as [[r f]|]; [intros [= <-]; reflexivity|discriminate]).
      rewrite <- Hmap in HE'. destruct e'; exact HE'.
  - unfold RemoveFile. destruct (file_map_ e !! n) as [p|] eqn:En; [|exists e, hs; auto]. destruct (remove_ok e hs n HE) as (e' & -> & HE' & _). exists e', hs. auto.
  - destruct (rename_ok e hs src target HE) as (s & e' & -> & HE'). exists e', hs. auto.
Qed.

Lemma reached_ok st : reached st -> env_ok (fst st) (snd st).
Proof.
  induction 1 as [|[e hs] op st' HR IH Hp E]; [|destruct (op_ok op e hs IH Hp) as (e' & hs' & E' & HE'); rewrite E in E'; injection E' as ->; exact HE'].
  split; cbn [fst snd InMemoryEnv_new file_map_ objects next_object].
  - intros a refs f H. rewrite lookup_empty in H. discriminate.
  - intros n p H. rewrite lookup_empty in H. discriminate.
  - contradiction.
  - intros a [x H]. rewrite lookup_empty in H. discriminate.
Qed.

(** ** Properties *)

(** The in-memory environment never uses a file object after it was deleted
    and never loses one: in every state that a client can reach by opening,
    writing, closing, removing and renaming files in any order (files that are
    occurs for appending exist), each name and each open file refers to an
    object that exists, the reference count of an object is the number of its
    names plus the number of open files on it, an object without either is gone,
    and the next operation goes through. *)
Theorem memenv_objects_counted : forall e hs, reached (e, hs) ->
  (forall n p, file_map_ e !! n = Some p -> exists a, p = Some a /\ is_Some (objects e !! a)) /\
  (forall a, In a hs -> is_Some (objects e !! a)) /\
  (forall a refs f, objects e !! a = Some (refs, f) -> refs = Z.of_nat (names_of (file_map_ e) a + occurs hs a) /\ 0 < refs) /\
  forall op, proper op (e, hs) -> exists st', do_op op (e, hs) = Some st' /\ reached st'.
Proof.
  intros e hs HR. pose proof (reached_ok _ HR) as HE. cbn [fst snd] in HE. pose proof HE as [H1 H2 H3 _]. split; [exact H2|]. split; [exact H3|]. split; [exact H1|].
  intros op Hp. destruct (op_ok op e hs HE Hp) as (e' & hs' & E & _). exists (e', hs'). split; [exact E|]. exact (reached_op _ _ _ HR Hp E).
Qed.

(** A file that was removed while it is open keeps its contents until it is closed. *)

Definition run_op (op : EnvOp) (st : InMemoryEnv * list nat) : InMemoryEnv * list nat := default st (do_op op st).

Definition written_open : InMemoryEnv * list nat := run_op (AppendTo 0 (str "x")) (run_op (OpenWritable (str "d/1")) (InMemoryEnv_new, [])).

Definition removed_open : InMemoryEnv * list nat := run_op (Remove (str "d/1")) written_open.

Lemma memenv_objects_counted_witness : exists a, snd removed_open = [a] /\ is_Some (objects (fst removed_open) !! a).
Proof.
  exists 0%nat. assert (HR : reached removed_open).
  { apply (reached_op written_open (Remove (str "d/1"))); [|exact I|vm_compute; reflexivity].
    apply (reached_op (run_op (OpenWritable (str "d/1")) (InMemoryEnv_new, [])) (AppendTo 0 (str "x"))); [|exact I|vm_compute; reflexivity].
    apply (reached_op (InMemoryEnv_new, []) (OpenWritable (str "d/1"))); [apply reached_new|exact I|vm_compute; reflexivity]. }
  split; [vm_compute; reflexivity|].
  destruct (memenv_objects_counted (fst removed_open) (snd removed_open)) as (_ & H & _); [rewrite <- surjective_pairing; exact HR|]. apply H. vm_compute. left. reflexivity.
Defined.

(** [NewAppendableFile] on a new name leaves a null pointer under the name: what
    is appended cannot be read under it, and opening it is undefined. *)

Lemma append_new_file_null fname e : file_map_ e !! fname = None ->
  forall s a e', NewAppendableFile fname e = Some (s, a, e') -> FileExists fname e' = true /\ NewSequentialFile fname e' = None /\ GetFileSize fname e' = None.
Proof.
  intros Hn s a e' HA. assert (Hm : file_map_ e' !! fname = Some None).
  { unfold NewAppendableFile in HA. rewrite Hn in HA. cbn [new_object with_map file_map_ objects] in HA. unfold FS_Ref in HA. cbn [objects] in HA. rewrite lookup_insert_eq in HA.
    unfold open_object, FS_Ref in HA. cbn [with_objects objects file_map_] in HA. rewrite lookup_insert_eq in HA. cbn [option_map] in HA. injection HA as _ _ <-.
    cbn [with_objects file_map_ snd]. apply lookup_insert_eq. }
  unfold FileExists, NewSequentialFile, GetFileSize. rewrite Hm. split; [|auto]. apply bool_decide_eq_true. eauto.
Qed.

(** Renaming a file to its own name removes it. *)

Lemma rename_to_itself fname e hs : env_ok e hs -> forall s e', RenameFile fname fname e = Some (s, e') -> FileExists fname e' = false.
Proof.
  intros HE s e' HR. unfold RenameFile in HR. unfold FileExists. apply bool_decide_eq_false. intros [p Hp].
  destruct (file_map_ e !! fname) as [q|] eqn:En; [|injection HR as _ <-; congruence].
  destruct (RemoveFileInternal fname e) as [e1|]; [|discriminate]. injection HR as _ <-. cbn [with_map file_map_] in Hp. rewrite lookup_delete_eq in Hp. discriminate.
Qed.
