(* ===== verification/EnvPosix.v ===== *)
(** * The POSIX environment (util/env_posix.cc)

    The files, locks, limits and the background thread of [PosixEnv] over the
    system calls it makes, which are a parameter: [OS] is the state of the system.
    A system call returns its result or the error number.  The loops that retry
    interrupted calls run on fuel, [budget] many interruptions beyond the work
    there is; a loop that runs out has no result. *)

From S2P Require Import Prelude Coding Compare Logging Env.
#[local] Open Scope Z_scope.
#[local] Open Scope ldb_scope.

Inductive OpenMode := OpenRead | OpenTruncate | OpenAppend | OpenReadWrite.

Record Syscalls (OS : Type) := mkSyscalls {
  sys_open : OS -> bytes -> OpenMode -> OS * (Z + Z);
  sys_close : OS -> Z -> OS * (unit + Z);
  sys_read : OS -> Z -> Z -> OS * (bytes + Z);
  sys_lseek : OS -> Z -> Z -> OS * (unit + Z);
  sys_pread : OS -> Z -> Z -> Z -> bytes + Z;
  sys_write : OS -> Z -> bytes -> OS * (Z + Z);
  sys_fdatasync : OS -> Z -> OS * (unit + Z);
  sys_mmap : OS -> Z -> Z -> bytes + Z;
  sys_access : OS -> bytes -> bool;
  sys_readdir : OS -> bytes -> list bytes + Z;
  sys_unlink : OS -> bytes -> OS * (unit + Z);
  sys_mkdir : OS -> bytes -> OS * (unit + Z);
  sys_rmdir : OS -> bytes -> OS * (unit + Z);
  sys_stat : OS -> bytes -> Z + Z;
  sys_rename : OS -> bytes -> bytes -> OS * (unit + Z);
  sys_setlk : OS -> Z -> bool -> OS * (unit + Z);
  sys_strerror : Z -> bytes
}.

Arguments sys_open {OS}. Arguments sys_close {OS}. Arguments sys_read {OS}. Arguments sys_lseek {OS}. Arguments sys_pread {OS}.
Arguments sys_write {OS}. Arguments sys_fdatasync {OS}. Arguments sys_mmap {OS}. Arguments sys_access {OS}. Arguments sys_readdir {OS}.
Arguments sys_unlink {OS}. Arguments sys_mkdir {OS}. Arguments sys_rmdir {OS}. Arguments sys_stat {OS}. Arguments sys_rename {OS}.
Arguments sys_setlk {OS}. Arguments sys_strerror {OS}.

Definition ENOENT : Z := 2.
Definition EINTR : Z := 4.
Definition EINVAL : Z := 22.

Definition kWritableFileBufferSize : Z := 65536.

(** ** Names *)

(** [std::string::rfind] of a character. *)

Fixpoint rfind (c : Byte.byte) (s : bytes) : option nat :=
  match s with
  | [] => None
  | x :: s => match rfind c s with Some i => Some (S i) | None => if bool_decide (x = c) then Some 0%nat else None end
  end.

Definition slash : Byte.byte := z2b 47.

Definition Dirname (filename : bytes) : bytes := match rfind slash filename with None => str "." | Some i => take i filename end.

Definition Basename (filename : bytes) : bytes := match rfind slash filename with None => filename | Some i => drop (S i) filename end.

Definition IsManifest (filename : bytes) : bool := Slice_starts_with (Basename filename) (str "MANIFEST").

(** ** [Limiter] *)

Definition Limiter_Acquire (acquires_allowed : Z) : bool * Z :=
  let old := acquires_allowed in
  let acquires_allowed := acquires_allowed - 1 in
  if 0 <? old then (true, acquires_allowed) else (false, acquires_allowed + 1).

Definition Limiter_Release (acquires_allowed : Z) : Z := acquires_allowed + 1.

Section Posix.
Context {OS : Type} (sys : Syscalls OS) (budget : OS -> nat).

Definition PosixError (context : bytes) (error_number : Z) : Status :=
  if error_number =? ENOENT then NotFound context (sys_strerror sys error_number) else IOError context (sys_strerror sys error_number).

(** ** [PosixSequentialFile] *)

Record PosixSequentialFile := mkPosixSequential { ps_fd : Z; ps_filename : bytes }.

Fixpoint read_loop (fuel : nat) (os : OS) (f : PosixSequentialFile) (n : Z) : option (OS * (Status * bytes)) :=
  match fuel with
  | O => None
  | S fuel =>
      match sys_read sys os (ps_fd f) n with
      | (os, inl data) => Some (os, (OK, data))
      | (os, inr errno) => if errno =? EINTR then read_loop fuel os f n else Some (os, (PosixError (ps_filename f) errno, []))
      end
  end.

Definition PSF_Read (os : OS) (f : PosixSequentialFile) (n : Z) : option (OS * (Status * bytes)) := read_loop (S (budget os)) os f n.

Definition PSF_Skip (os : OS) (f : PosixSequentialFile) (n : Z) : OS * Status :=
  match sys_lseek sys os (ps_fd f) n with (os, inl _) => (os, OK) | (os, inr errno) => (os, PosixError (ps_filename f) errno) end.

(** ** [PosixRandomAccessFile] *)

Record PosixRandomAccessFile := mkPosixRandom { pr_has_permanent_fd : bool; pr_fd : Z; pr_filename : bytes }.

Definition PosixRandomAccessFile_new (os : OS) (filename : bytes) (fd fd_limiter : Z) : PosixRandomAccessFile * OS * Z :=
  let '(has_permanent_fd, fd_limiter) := Limiter_Acquire fd_limiter in
  (mkPosixRandom has_permanent_fd (if has_permanent_fd then fd else -1) filename, if has_permanent_fd then os else fst (sys_close sys os fd), fd_limiter).

Definition PosixRandomAccessFile_delete (os : OS) (f : PosixRandomAccessFile) (fd_limiter : Z) : OS * Z :=
  if pr_has_permanent_fd f then (fst (sys_close sys os (pr_fd f)), Limiter_Release fd_limiter) else (os, fd_limiter).

Definition PRF_Read (os : OS) (f : PosixRandomAccessFile) (offset n : Z) : OS * (Status * bytes) :=
  let read fd os :=
    match sys_pread sys os fd n offset with inl data => (OK, data) | inr errno => (PosixError (pr_filename f) errno, []) end in
  if pr_has_permanent_fd f then (os, read (pr_fd f) os)
  else
    match sys_open sys os (pr_filename f) OpenRead with
    | (os, inr errno) => (os, (PosixError (pr_filename f) errno, []))
    | (os, inl fd) => (fst (sys_close sys os fd), read fd os)
    end.

(** ** [PosixMmapReadableFile] *)

Record PosixMmapReadableFile := mkPosixMmap { pm_base : bytes; pm_length : Z; pm_filename : bytes }.

Definition PosixMmapReadableFile_delete (mmap_limiter : Z) : Z := Limiter_Release mmap_limiter.

(** The bytes at an offset of the mapping; there are none beyond its end. *)

Definition mapped (base : bytes) (offset n : Z) : option bytes :=
  if offset + n <=? sz base then Some (take (Z.to_nat n) (drop (Z.to_nat offset) base)) else None.

Definition PMF_Read (f : PosixMmapReadableFile) (offset n : Z) : option (Status * bytes) :=
  if pm_length f <? u64 (offset + n) then Some (PosixError (pm_filename f) EINVAL, [])
  else option_map (fun data => (OK, data)) (mapped (pm_base f) offset n).

(** ** [PosixWritableFile] *)

Record PosixWritableFile := mkPosixWritable { pw_buf : bytes; pw_fd : Z; pw_is_manifest : bool; pw_filename : bytes; pw_dirname : bytes }.

Definition PosixWritableFile_new (filename : bytes) (fd : Z) : PosixWritableFile := mkPosixWritable [] fd (IsManifest filename) filename (Dirname filename).

Definition with_buf (f : PosixWritableFile) (buf : bytes) : PosixWritableFile := mkPosixWritable buf (pw_fd f) (pw_is_manifest f) (pw_filename f) (pw_dirname f).

Fixpoint write_loop (fuel : nat) (os : OS) (f : PosixWritableFile) (data : bytes) : option (OS * Status) :=
  match data with
  | [] => Some (os, OK)
  | _ =>
      match fuel with
      | O => None
      | S fuel =>
          match sys_write sys os (pw_fd f) data with
          | (os, inl write_result) => write_loop fuel os f (drop (Z.to_nat write_result) data)
          | (os, inr errno) => if errno =? EINTR then write_loop fuel os f data else Some (os, PosixError (pw_filename f) errno)
          end
      end
  end.

Definition WriteUnbuffered (os : OS) (f : PosixWritableFile) (data : bytes) : option (OS * Status) := write_loop (budget os + length data) os f data.

Definition FlushBuffer (os : OS) (f : PosixWritableFile) : option (OS * PosixWritableFile * Status) :=
  option_map (fun '(os, s) => (os, with_buf f [], s)) (WriteUnbuffered os f (pw_buf f)).

Definition PWF_Append (os : OS) (f : PosixWritableFile) (data : bytes) : option (OS * PosixWritableFile * Status) :=
  let copy_size := Z.to_nat (Z.min (sz data) (kWritableFileBufferSize - sz (pw_buf f))) in
  let f := with_buf f (pw_buf f ++ take copy_size data) in
  let write_data := drop copy_size data in
  match write_data with
  | [] => Some (os, f, OK)
  | _ =>
      match FlushBuffer os f with
      | None => None
      | Some (os, f, s) =>
          if negb (ok s) then Some (os, f, s)
          else if sz write_data <? kWritableFileBufferSize then Some (os, with_buf f write_data, OK)
          else option_map (fun '(os, s) => (os, f, s)) (WriteUnbuffered os f write_data)
      end
  end.

Definition PWF_Close (os : OS) (f : PosixWritableFile) : option (OS * PosixWritableFile * Status) :=
  match FlushBuffer os f with
  | None => None
  | Some (os, f, s) =>
      let '(os, close_result) := sys_close sys os (pw_fd f) in
      let s := match close_result with inr errno => if ok s then PosixError (pw_filename f) errno else s | inl _ => s end in
      Some (os, mkPosixWritable (pw_buf f) (-1) (pw_is_manifest f) (pw_filename f) (pw_dirname f), s)
  end.

Definition PWF_Flush (os : OS) (f : PosixWritableFile) : option (OS * PosixWritableFile * Status) := FlushBuffer os f.

(** On systems without [F_FULLFSYNC]. *)

Definition SyncFd (os : OS) (fd : Z) (fd_path : bytes) : OS * Status :=
  match sys_fdatasync sys os fd with (os, inl _) => (os, OK) | (os, inr errno) => (os, PosixError fd_path errno) end.

Definition SyncDirIfManifest (os : OS) (f : PosixWritableFile) : OS * Status :=
  if negb (pw_is_manifest f) then (os, OK)
  else
    match sys_open sys os (pw_dirname f) OpenRead with
    | (os, inr errno) => (os, PosixError (pw_dirname f) errno)
    | (os, inl fd) => let '(os, s) := SyncFd os fd (pw_dirname f) in (fst (sys_close sys os fd), s)
    end.

Definition PWF_Sync (os : OS) (f : PosixWritableFile) : option (OS * PosixWritableFile * Status) :=
  let '(os, s) := SyncDirIfManifest os f in
  if negb (ok s) then Some (os, f, s)
  else
    match FlushBuffer os f with
    | None => None
    | Some (os, f, s) =>
        if negb (ok s) then Some (os, f, s)
        else let '(os, s) := SyncFd os (pw_fd f) (pw_filename f) in Some (os, f, s)
    end.

(** The destructor closes a file that is still open. *)

Definition PosixWritableFile_delete (os : OS) (f : PosixWritableFile) : option OS :=
  if 0 <=? pw_fd f then option_map (fun '(os, _, _) => os) (PWF_Close os f) else Some os.

(** ** [PosixLockTable] and the locks *)

Definition LockTable_Insert (locked_files : gset bytes) (fname : bytes) : bool * gset bytes :=
  (bool_decide (fname ∉ locked_files), {[fname]} ∪ locked_files).

Definition LockTable_Remove (locked_files : gset bytes) (fname : bytes) : gset bytes := locked_files ∖ {[fname]}.

Definition LockOrUnlock (os : OS) (fd : Z) (lock : bool) : OS * (unit + Z) := sys_setlk sys os fd lock.

Record PosixFileLock := mkPosixFileLock { pl_fd : Z; pl_filename : bytes }.

(** ** [PosixEnv] *)

Record PosixEnv := mkPosixEnv { pe_os : OS; pe_locks : gset bytes; pe_mmap_limiter : Z; pe_fd_limiter : Z }.

Definition with_os (e : PosixEnv) (os : OS) : PosixEnv := mkPosixEnv os (pe_locks e) (pe_mmap_limiter e) (pe_fd_limiter e).

Definition with_locks (e : PosixEnv) (locks : gset bytes) : PosixEnv := mkPosixEnv (pe_os e) locks (pe_mmap_limiter e) (pe_fd_limiter e).

Definition with_mmaps (e : PosixEnv) (n : Z) : PosixEnv := mkPosixEnv (pe_os e) (pe_locks e) n (pe_fd_limiter e).

Definition PE_NewSequentialFile (e : PosixEnv) (filename : bytes) : PosixEnv * (Status * option PosixSequentialFile) :=
  match sys_open sys (pe_os e) filename OpenRead with
  | (os, inr errno) => (with_os e os, (PosixError filename errno, None))
  | (os, inl fd) => (with_os e os, (OK, Some (mkPosixSequential fd filename)))
  end.

Definition PE_GetFileSize (e : PosixEnv) (filename : bytes) : Status * Z :=
  match sys_stat sys (pe_os e) filename with inl size => (OK, size) | inr errno => (PosixError filename errno, 0) end.

Definition PE_NewRandomAccessFile (e : PosixEnv) (filename : bytes) : PosixEnv * (Status * option (PosixRandomAccessFile + PosixMmapReadableFile)) :=
  match sys_open sys (pe_os e) filename OpenRead with
  | (os, inr errno) => (with_os e os, (PosixError filename errno, None))
  | (os, inl fd) =>
      let e := with_os e os in
      let '(acquired, mmaps) := Limiter_Acquire (pe_mmap_limiter e) in
      let e := with_mmaps e mmaps in
      if negb acquired then
        let '(file, os, fds) := PosixRandomAccessFile_new os filename fd (pe_fd_limiter e) in
        (mkPosixEnv os (pe_locks e) (pe_mmap_limiter e) fds, (OK, Some (inl file)))
      else
        let '(status, file_size) := PE_GetFileSize e filename in
        let '(status, result) :=
          if ok status then
            match sys_mmap sys (pe_os e) fd file_size with
            | inl mmap_base => (status, Some (inr (mkPosixMmap mmap_base file_size filename)))
            | inr errno => (PosixError filename errno, None)
            end
          else (status, None) in
        let e := with_os e (fst (sys_close sys (pe_os e) fd)) in
        (if negb (ok status) then with_mmaps e (Limiter_Release (pe_mmap_limiter e)) else e, (status, result))
  end.

Definition new_writable (e : PosixEnv) (filename : bytes) (mode : OpenMode) : PosixEnv * (Status * option PosixWritableFile) :=
  match sys_open sys (pe_os e) filename mode with
  | (os, inr errno) => (with_os e os, (PosixError filename errno, None))
  | (os, inl fd) => (with_os e os, (OK, Some (PosixWritableFile_new filename fd)))
  end.

Definition PE_NewWritableFile (e : PosixEnv) (filename : bytes) : PosixEnv * (Status * option PosixWritableFile) := new_writable e filename OpenTruncate.

Definition PE_NewAppendableFile (e : PosixEnv) (filename : bytes) : PosixEnv * (Status * option PosixWritableFile) := new_writable e filename OpenAppend.

Definition PE_FileExists (e : PosixEnv) (filename : bytes) : bool := sys_access sys (pe_os e) filename.

Definition PE_GetChildren (e : PosixEnv) (directory_path : bytes) : Status * list bytes :=
  match sys_readdir sys (pe_os e) directory_path with inl names => (OK, names) | inr errno => (PosixError directory_path errno, []) end.

(** A call that changes the file system, and its status. *)

Definition named_call (call : OS -> bytes -> OS * (unit + Z)) (e : PosixEnv) (name : bytes) : PosixEnv * Status :=
  match call (pe_os e) name with (os, inl _) => (with_os e os, OK) | (os, inr errno) => (with_os e os, PosixError name errno) end.

Definition PE_RemoveFile : PosixEnv -> bytes -> PosixEnv * Status := named_call (sys_unlink sys).

Definition PE_CreateDir : PosixEnv -> bytes -> PosixEnv * Status := named_call (sys_mkdir sys).

Definition PE_RemoveDir : PosixEnv -> bytes -> PosixEnv * Status := named_call (sys_rmdir sys).

Definition PE_RenameFile (e : PosixEnv) (from to : bytes) : PosixEnv * Status := named_call (fun os _ => sys_rename sys os from to) e from.

Definition PE_LockFile (e : PosixEnv) (filename : bytes) : PosixEnv * (Status * option PosixFileLock) :=
  match sys_open sys (pe_os e) filename OpenReadWrite with
  | (os, inr errno) => (with_os e os, (PosixError filename errno, None))
  | (os, inl fd) =>
      let '(inserted, locks) := LockTable_Insert (pe_locks e) filename in
      let e := with_locks (with_os e os) locks in
      if negb inserted then
        (with_os e (fst (sys_close sys os fd)), (IOError (str "lock " ++ filename) (str "already held by process"), None))
      else
        match LockOrUnlock os fd true with
        | (os, inr lock_errno) =>
            (with_locks (with_os e (fst (sys_close sys os fd))) (LockTable_Remove (pe_locks e) filename), (PosixError (str "lock " ++ filename) lock_errno, None))
        | (os, inl _) => (with_os e os, (OK, Some (mkPosixFileLock fd filename)))
        end
  end.

Definition PE_UnlockFile (e : PosixEnv) (lock : PosixFileLock) : PosixEnv * Status :=
  match LockOrUnlock (pe_os e) (pl_fd lock) false with
  | (os, inr errno) => (with_os e os, PosixError (str "unlock " ++ pl_filename lock) errno)
  | (os, inl _) => (with_os (with_locks e (LockTable_Remove (pe_locks e) (pl_filename lock))) (fst (sys_close sys os (pl_fd lock))), OK)
  end.

End Posix.

(** ** The background thread *)

Section Background.
Context {A : Type}.

(** Where the thread is: at the lock of the mutex, waiting for a signal, signalled,
    or running a work item. *)

Inductive ThreadState := NotStarted | AtLock | Asleep | Woken | Running (item : A).

Record Worker := mkWorker { bw_started : bool; bw_queue : list A; bw_thread : ThreadState; bw_done : list A }.

Definition Worker_new : Worker := mkWorker false [] NotStarted [].

(** [Schedule], with the mutex held. *)

Definition Schedule (w : Worker) (item : A) : Worker :=
  let thread := if bw_started w then bw_thread w else AtLock in
  let thread := match bw_queue w, thread with [], Asleep => Woken | _, _ => thread end in
  mkWorker true (bw_queue w ++ [item]) thread (bw_done w).

(** A turn of [BackgroundThreadMain]: up to the wait or the call, and the call. *)

Definition BackgroundThreadMain_turn (w : Worker) : option Worker :=
  match bw_thread w with
  | NotStarted | Asleep => None
  | AtLock | Woken =>
      match bw_queue w with
      | [] => Some (mkWorker (bw_started w) [] Asleep (bw_done w))
      | item :: queue => Some (mkWorker (bw_started w) queue (Running item) (bw_done w))
      end
  | Running item => Some (mkWorker (bw_started w) (bw_queue w) AtLock (bw_done w ++ [item]))
  end.

(** Callers schedule, the thread takes turns, and it may wake without a signal. *)

Inductive worked : list A -> Worker -> Prop :=
| worked_new : worked [] Worker_new
| worked_schedule l w item : worked l w -> worked (l ++ [item]) (Schedule w item)
| worked_turn l w w' : worked l w -> BackgroundThreadMain_turn w = Some w' -> worked l w'
| worked_spurious l w : worked l w -> bw_thread w = Asleep -> worked l (mkWorker (bw_started w) (bw_queue w) Woken (bw_done w)).

Fixpoint turns (n : nat) (w : Worker) : Worker :=
  match n with
  | O => w
  | S n => match BackgroundThreadMain_turn w with Some w => turns n w | None => w end
  end.

Definition in_hand (w : Worker) : list A := match bw_thread w with Running item => [item] | _ => [] end.

Record worker_ok (l : list A) (w : Worker) : Prop := {
  wk_order : bw_done w ++ in_hand w ++ bw_queue w = l;
  wk_started : bw_started w = match bw_thread w with NotStarted => false | _ => true end;
  wk_idle : bw_thread w = NotStarted \/ bw_thread w = Asleep -> bw_queue w = []
}.

Lemma worker_turn_ok l w w' : worker_ok l w -> BackgroundThreadMain_turn w = Some w' -> worker_ok l w'.
Proof.
  intros [W1 W2 W3] E. destruct w as [st q [| | | |x] d]; cbn in *; try discriminate; try (destruct q as [|y q]); injection E as <-; (split; cbn in *; [|auto|]);
    try (intros [|]; congruence); try (rewrite <- W1, <- ?app_assoc; reflexivity).
  all: intros; reflexivity.
Qed.

Lemma worked_ok l w : worked l w -> worker_ok l w.
Proof.
  induction 1 as [|l w item _ IH|l w w' _ IH E|l w _ IH E].
  - split; cbn; auto.
  - destruct IH as [W1 W2 W3]. destruct w as [st q th d]. cbn in *. subst l st. unfold Schedule. cbn [bw_started bw_queue bw_thread bw_done].
    assert (Hq : th = NotStarted -> q = []) by (intros E; apply W3; auto). assert (Hq2 : th = Asleep -> q = []) by (intros E; apply W3; auto).
    destruct th as [| | | |x]; [rewrite (Hq eq_refl)| |rewrite (Hq2 eq_refl)| |]; split; cbn; rewrite <- ?app_assoc; try reflexivity; try (intros [|]; congruence);
      destruct q; cbn; rewrite <- ?app_assoc; try reflexivity; try (intros [|]; congruence).
  - exact (worker_turn_ok l w w' IH E).
  - destruct IH as [W1 W2 W3]. destruct w as [st q th d]. cbn in *. subst th. split; cbn in *; auto.
Qed.

(** The thread gets through its queue. *)

Lemma turns_done : forall n l w, worker_ok l w -> (2 * length (bw_queue w) + length (in_hand w) <= n)%nat -> bw_done (turns n w) = l.
Proof.
  induction n as [|n IH]; intros l w HW Hn; pose proof HW as [W1 W2 W3].
  - cbn [turns]. destruct (bw_queue w); [|cbn in Hn; lia]. destruct (in_hand w); [|cbn in Hn; lia]. rewrite app_nil_r in W1. exact W1.
  - cbn [turns]. destruct (BackgroundThreadMain_turn w) as [w'|] eqn:E.
    + apply IH; [exact (worker_turn_ok l w w' HW E)|]. destruct w as [st q [| | | |x] d]; cbn in *; try discriminate; try (destruct q as [|y q]); injection E as <-; cbn in *; lia.
    + destruct w as [st q [| | | |x] d]; cbn in *; try discriminate; [rewrite W3 in W1 by auto|destruct q; discriminate|rewrite W3 in W1 by auto|destruct q; discriminate];
        cbn in W1; rewrite app_nil_r in W1; exact W1.
Qed.

End Background.

(** C37.  The background thread runs what was scheduled, once each and in order: in
    every state that calls of [Schedule], turns of the thread and spurious wakeups
    lead to, the items run so far, the one in hand and the queue are the items
    scheduled, in order; the thread never sleeps while there is work (no wakeup is
    lost); and at most two turns per item left finish all of it. *)
Theorem background_work_in_order : forall (A : Type) (l : list A) w, worked l w ->
  bw_done w ++ in_hand w ++ bw_queue w = l /\
  (bw_thread w = Asleep \/ bw_thread w = NotStarted -> bw_queue w = []) /\
  bw_done (turns (2 * length (bw_queue w) + 1) w) = l.
Proof.
  intros A l w HW. apply worked_ok in HW. pose proof HW as [W1 W2 W3]. split; [exact W1|]. split; [intros [H|H]; apply W3; auto|].
  apply (turns_done _ l w HW). unfold in_hand. destruct (bw_thread w); cbn; lia.
Qed.

Lemma background_work_in_order_witness : let w := Schedule (Schedule Worker_new 1) 2 in
  worked [1; 2] w /\ bw_done (turns 5 w) = [1; 2].
Proof.
  assert (H : worked [1; 2] (Schedule (Schedule Worker_new 1) 2)) by (apply (worked_schedule [1]), (worked_schedule []), worked_new).
  split; [exact H|]. exact (proj2 (proj2 (background_work_in_order Z [1; 2] _ H))).
Defined.

(** ** A system whose disks work

    It may interrupt a write, though not forever, and may write less than it was
    given, but something; it does not fail otherwise. *)

Class ReliableSys {OS : Type} (sys : Syscalls OS) (budget : OS -> nat) := {
  rs_file : OS -> Z -> option bytes;
  rs_write : forall os fd c d, rs_file os fd = Some c -> d <> [] -> exists os' r, sys_write sys os fd d = (os', r) /\
    (r = inr EINTR /\ rs_file os' fd = Some c /\ (budget os' < budget os)%nat \/
     exists n, r = inl n /\ 0 < n <= sz d /\ rs_file os' fd = Some (c ++ take (Z.to_nat n) d) /\ (budget os' <= budget os)%nat);
  rs_sync : forall os fd c, rs_file os fd = Some c -> exists os', sys_fdatasync sys os fd = (os', inl tt) /\ rs_file os' fd = Some c;
  rs_close : forall os fd c, rs_file os fd = Some c -> exists os', sys_close sys os fd = (os', inl tt);
  rs_sync_dir : forall os dir fd c, rs_file os fd = Some c -> exists os1 d os2 os3 r, sys_open sys os dir OpenRead = (os1, inl d) /\
    sys_fdatasync sys os1 d = (os2, inl tt) /\ sys_close sys os2 d = (os3, r) /\ rs_file os3 fd = Some c
}.

Section Reliable.
Context {OS : Type} (sys : Syscalls OS) (budget : OS -> nat) {RS : ReliableSys sys budget}.

Lemma write_loop_ok : forall fuel os f data c, rs_file os (pw_fd f) = Some c -> (budget os + length data <= fuel)%nat ->
  exists os', write_loop sys fuel os f data = Some (os', OK) /\ rs_file os' (pw_fd f) = Some (c ++ data).
Proof.
  induction fuel as [|fuel IH]; intros os f data c Hc Hf; (destruct data as [|b data]; [exists os; rewrite app_nil_r; auto|]); [cbn in Hf; lia|]. cbn [write_loop].
  destruct (rs_write os (pw_fd f) c (b :: data) Hc ltac:(discriminate)) as (os1 & r & -> & [(-> & H1 & H2)|(n & -> & Hn & H1 & H2)]).
  - change (EINTR =? EINTR) with true. cbv iota. apply (IH os1 f (b :: data) c H1). lia.
  - assert (Hd : (length (drop (Z.to_nat n) (b :: data)) < length (b :: data))%nat) by (rewrite length_drop; unfold sz in Hn; lia).
    destruct (IH os1 f (drop (Z.to_nat n) (b :: data)) _ H1 ltac:(lia)) as (os2 & E & H3). exists os2. split; [exact E|].
    rewrite H3, <- app_assoc, take_drop. reflexivity.
Qed.

Lemma FlushBuffer_ok os f c : rs_file os (pw_fd f) = Some c ->
  exists os', FlushBuffer sys budget os f = Some (os', with_buf f [], OK) /\ rs_file os' (pw_fd f) = Some (c ++ pw_buf f).
Proof.
  intros Hc. unfold FlushBuffer, WriteUnbuffered. destruct (write_loop_ok (budget os + length (pw_buf f)) os f (pw_buf f) c Hc ltac:(lia)) as (os' & -> & H).
  exists os'. split; [reflexivity|exact H].
Qed.

(** What was appended: what the system has, and the buffer, which is at most full. *)

Record posix_file (os : OS) (f : PosixWritableFile) (contents : bytes) : Prop := {
  pf_split : exists c, rs_file os (pw_fd f) = Some c /\ contents = c ++ pw_buf f;
  pf_buf : sz (pw_buf f) <= kWritableFileBufferSize
}.

Lemma PWF_Append_ok os f contents data : posix_file os f contents ->
  exists os' f', PWF_Append sys budget os f data = Some (os', f', OK) /\ posix_file os' f' (contents ++ data) /\ pw_fd f' = pw_fd f.
Proof.
  intros [(c & Hc & ->) Hb]. unfold PWF_Append. set (m := Z.to_nat (Z.min (sz data) (kWritableFileBufferSize - sz (pw_buf f)))).
  assert (Hm : Z.of_nat m = Z.min (sz data) (kWritableFileBufferSize - sz (pw_buf f))) by (pose proof (sz_nonneg data); unfold m; lia).
  set (f1 := with_buf f (pw_buf f ++ take m data)). destruct (drop m data) as [|x rest] eqn:Ed.
  - exists os, f1. split; [reflexivity|]. split; [|reflexivity]. assert (Ht : take m data = data) by (rewrite <- (take_drop m data) at 2; rewrite Ed, app_nil_r; reflexivity).
    split; cbn [f1 with_buf pw_buf pw_fd]; [exists c; rewrite Ht, <- app_assoc; auto|]. unfold sz in *. rewrite length_app, length_take. lia.
  - destruct (FlushBuffer_ok os f1 c Hc) as (os1 & -> & H1). cbn [ok OK negb]. cbn [f1 with_buf pw_fd pw_buf] in H1.
    assert (Hcat : (c ++ pw_buf f ++ take m data) ++ x :: rest = (c ++ pw_buf f) ++ data) by (rewrite <- Ed, <- !app_assoc, take_drop; reflexivity).
    destruct (Z.ltb_spec (sz (x :: rest)) kWritableFileBufferSize) as [Hlt|Hge].
    + eexists os1, _. split; [reflexivity|]. split; [|reflexivity]. split; cbn [with_buf pw_buf pw_fd]; [|lia]. eexists. split; [exact H1|]. symmetry. exact Hcat.
    + unfold WriteUnbuffered. destruct (write_loop_ok (budget os1 + length (x :: rest)) os1 (with_buf f1 []) (x :: rest) _ H1 ltac:(lia)) as (os2 & -> & H2).
      eexists os2, _. split; [reflexivity|]. split; [|reflexivity]. split; cbn [with_buf f1 pw_buf pw_fd] in *; [|vm_compute; discriminate].
      eexists. split; [exact H2|]. rewrite app_nil_r. symmetry. exact Hcat.
Qed.

Lemma SyncDirIfManifest_ok os f c : rs_file os (pw_fd f) = Some c -> exists os', SyncDirIfManifest sys os f = (os', OK) /\ rs_file os' (pw_fd f) = Some c.
Proof.
  intros Hc. unfold SyncDirIfManifest. destruct (pw_is_manifest f); cbn [negb]; [|eauto].
  destruct (rs_sync_dir os (pw_dirname f) (pw_fd f) c Hc) as (os1 & d & os2 & os3 & r & -> & H1 & H2 & H3). unfold SyncFd. rewrite H1, H2. exists os3. auto.
Qed.

(** After a flush or a sync the system has everything. *)

Definition flushed (os : OS) (f : PosixWritableFile) (contents : bytes) : Prop := rs_file os (pw_fd f) = Some contents /\ pw_buf f = [].

Lemma flushed_file os f contents : flushed os f contents -> posix_file os f contents.
Proof. intros [H1 H2]. split; [exists contents; rewrite H2, app_nil_r; auto|]. rewrite H2. vm_compute. discriminate. Qed.

Lemma PWF_Flush_ok os f contents : posix_file os f contents ->
  exists os' f', PWF_Flush sys budget os f = Some (os', f', OK) /\ flushed os' f' contents /\ pw_fd f' = pw_fd f.
Proof.
  intros [(c & Hc & ->) _]. destruct (FlushBuffer_ok os f c Hc) as (os' & E & H). exists os', (with_buf f []). split; [exact E|]. split; [split; [exact H|reflexivity]|reflexivity].
Qed.

Lemma PWF_Sync_ok os f contents : posix_file os f contents ->
  exists os' f', PWF_Sync sys budget os f = Some (os', f', OK) /\ flushed os' f' contents /\ pw_fd f' = pw_fd f.
Proof.
  intros [(c & Hc & ->) _]. unfold PWF_Sync. destruct (SyncDirIfManifest_ok os f c Hc) as (os1 & -> & H1). cbn [ok OK negb].
  destruct (FlushBuffer_ok os1 f c H1) as (os2 & -> & H2). cbn [ok OK negb]. unfold SyncFd. destruct (rs_sync os2 (pw_fd f) _ H2) as (os3 & E & H3).
  cbn [with_buf pw_fd]. rewrite E. exists os3, (with_buf f []). split; [reflexivity|]. split; [split; [exact H3|reflexivity]|reflexivity].
Qed.

(** The file as the writers of logs and tables use it; [None]: a call did not return. *)

#[export] Instance PosixWritable : WritableFile (option (OS * PosixWritableFile)) := {|
  wf_Append o d := match o with Some (os, f) => match PWF_Append sys budget os f d with Some (os, f, s) => (s, Some (os, f)) | None => (OK, None) end | None => (OK, None) end;
  wf_Close o := match o with Some (os, f) => match PWF_Close sys budget os f with Some (os, f, s) => (s, Some (os, f)) | None => (OK, None) end | None => (OK, None) end;
  wf_Flush o := match o with Some (os, f) => match PWF_Flush sys budget os f with Some (os, f, s) => (s, Some (os, f)) | None => (OK, None) end | None => (OK, None) end;
  wf_Sync o := match o with Some (os, f) => match PWF_Sync sys budget os f with Some (os, f, s) => (s, Some (os, f)) | None => (OK, None) end | None => (OK, None) end
|}.

#[export, refine] Instance PosixReliableWritable : ReliableWritable (option (OS * PosixWritableFile)) := {|
  wf_inv o := match o with Some (os, f) => exists contents, posix_file os f contents | None => False end;
  wf_contents o := match o with Some (os, f) => default [] (rs_file os (pw_fd f)) ++ pw_buf f | None => [] end
|}.
Proof.
  all: intros o; destruct o as [[os f]|]; [|intros; contradiction].
  all: assert (HX : forall os f contents, posix_file os f contents -> default [] (rs_file os (pw_fd f)) ++ pw_buf f = contents) by (intros os0 f0 contents [(c & -> & ->) _]; reflexivity).
  - intros d (contents & H). destruct (PWF_Append_ok os f contents d H) as (os' & f' & E & H' & _). exists (Some (os', f')). cbn. rewrite E.
    split; [reflexivity|]. split; [eauto|]. rewrite (HX _ _ _ H), (HX _ _ _ H'). reflexivity.
  - intros (contents & H). destruct (PWF_Flush_ok os f contents H) as (os' & f' & E & H' & _). apply flushed_file in H'. exists (Some (os', f')). cbn. rewrite E.
    split; [reflexivity|]. split; [eauto|]. rewrite (HX _ _ _ H), (HX _ _ _ H'). reflexivity.
  - intros (contents & H). destruct (PWF_Sync_ok os f contents H) as (os' & f' & E & H' & _). apply flushed_file in H'. exists (Some (os', f')). cbn. rewrite E.
    split; [reflexivity|]. split; [eauto|]. rewrite (HX _ _ _ H), (HX _ _ _ H'). reflexivity.
Defined.

Fixpoint append_all (os : OS) (f : PosixWritableFile) (datas : list bytes) : option (OS * PosixWritableFile * Status) :=
  match datas with
  | [] => Some (os, f, OK)
  | d :: datas =>
      match PWF_Append sys budget os f d with
      | Some (os, f, s) => if ok s then append_all os f datas else Some (os, f, s)
      | None => None
      end
  end.

Lemma append_all_ok : forall datas os f contents, posix_file os f contents ->
  exists os' f', append_all os f datas = Some (os', f', OK) /\ posix_file os' f' (contents ++ concat datas) /\ pw_fd f' = pw_fd f.
Proof.
  induction datas as [|d datas IH]; intros os f contents H; [exists os, f; cbn; rewrite app_nil_r; auto|].
  cbn [append_all concat]. destruct (PWF_Append_ok os f contents d H) as (os1 & f1 & -> & H1 & E1). cbn [ok OK].
  destruct (IH os1 f1 _ H1) as (os2 & f2 & E & H2 & E2). exists os2, f2. split; [exact E|]. split; [rewrite app_assoc; exact H2|congruence].
Qed.

End Reliable.

(** C36.  A file written through [PosixWritableFile] holds what was appended, whatever
    sizes the pieces have (the buffer is filled, flushed or passed by) and however
    the system splits and interrupts the writes: every append returns and succeeds,
    and after [Flush], [Sync] or the flush in [Close] the system has the earlier
    contents followed by all pieces, in order, each once. *)
Theorem posix_file_keeps_appends : forall OS (sys : Syscalls OS) (budget : OS -> nat) (RS : ReliableSys sys budget) os f old datas,
  rs_file os (pw_fd f) = Some old -> pw_buf f = [] ->
  exists os1 f1, append_all sys budget os f datas = Some (os1, f1, OK) /\
    (exists os2 f2, PWF_Flush sys budget os1 f1 = Some (os2, f2, OK) /\ rs_file os2 (pw_fd f) = Some (old ++ concat datas)) /\
    (exists os2 f2, PWF_Sync sys budget os1 f1 = Some (os2, f2, OK) /\ rs_file os2 (pw_fd f) = Some (old ++ concat datas)) /\
    (exists os2 os3 f2, PWF_Close sys budget os1 f1 = Some (os3, f2, OK) /\ rs_file os2 (pw_fd f) = Some (old ++ concat datas) /\ sys_close sys os2 (pw_fd f) = (os3, inl tt)).
Proof.
  intros OS sys budget RS os f old datas Hold Hbuf.
  assert (H0 : posix_file sys budget os f old) by (apply flushed_file; split; assumption).
  destruct (append_all_ok sys budget datas os f old H0) as (os1 & f1 & E & H1 & Efd). exists os1, f1. split; [exact E|]. rewrite <- Efd. split; [|split].
  - destruct (PWF_Flush_ok sys budget os1 f1 _ H1) as (os2 & f2 & E2 & [H2 _] & E3). exists os2, f2. split; [exact E2|]. rewrite <- E3. exact H2.
  - destruct (PWF_Sync_ok sys budget os1 f1 _ H1) as (os2 & f2 & E2 & [H2 _] & E3). exists os2, f2. split; [exact E2|]. rewrite <- E3. exact H2.
  - destruct (PWF_Flush_ok sys budget os1 f1 _ H1) as (os2 & f2 & E2 & [H2 _] & E3). unfold PWF_Flush in E2. rewrite E3 in H2.
    destruct (rs_close os2 (pw_fd f1) _ H2) as (os3 & E4). eexists os2, os3, _. unfold PWF_Close. rewrite E2, E3, E4. split; [reflexivity|]. split; [exact H2|reflexivity].
Qed.

(** A system that writes at most three bytes at a time, and interrupts some calls. *)

Definition slow_write (os : gmap Z bytes * nat) (fd : Z) (d : bytes) : gmap Z bytes * nat * (Z + Z) :=
  match os with
  | (files, S k) => ((files, k), inr EINTR)
  | (files, O) => ((<[fd := default [] (files !! fd) ++ take 3 d]> files, O), inl (Z.min 3 (sz d)))
  end.

Definition slow_sys : Syscalls (gmap Z bytes * nat) := {|
  sys_open os _ _ := (os, inl 9); sys_close os _ := (os, inl tt); sys_read os _ _ := (os, inl []); sys_lseek os _ _ := (os, inl tt);
  sys_pread _ _ _ _ := inl []; sys_write := slow_write; sys_fdatasync os _ := (os, inl tt); sys_mmap _ _ _ := inl []; sys_access _ _ := true;
  sys_readdir _ _ := inl []; sys_unlink os _ := (os, inl tt); sys_mkdir os _ := (os, inl tt); sys_rmdir os _ := (os, inl tt); sys_stat _ _ := inl 0;
  sys_rename os _ _ := (os, inl tt); sys_setlk os _ _ := (os, inl tt); sys_strerror _ := [] |}.

#[local] Program Instance slow_reliable : ReliableSys slow_sys snd := { rs_file os fd := fst os !! fd }.
Next Obligation.
  intros [files [|k]] fd c d Hc Hd; cbn in *; eexists _, _; (split; [reflexivity|]); [right|left; cbn; auto].
  exists (Z.min 3 (sz d)). split; [reflexivity|]. assert (0 < sz d) by (destruct d; [contradiction|rewrite sz_cons; pose proof (sz_nonneg d); lia]).
  split; [lia|]. split; [|cbn; lia]. cbn. rewrite lookup_insert_eq, Hc. cbn. do 2 f_equal. unfold sz in *.
  destruct (Z.min_spec 3 (Z.of_nat (length d))) as [[? ->]|[? ->]]; [reflexivity|]. rewrite !take_ge by lia. reflexivity.
Qed.
Next Obligation. intros os fd c H. cbn. eauto. Qed.
Next Obligation. intros os fd c H. cbn. eauto. Qed.
Next Obligation. intros os dir fd c H. cbn. eauto 10. Qed.

Lemma posix_file_keeps_appends_witness : let f := PosixWritableFile_new (str "db/MANIFEST-000001") 5 in
  pw_is_manifest f = true /\ pw_dirname f = str "db" /\
  exists os1 f1, append_all slow_sys snd ({[5 := str "a"]}, 2%nat) f [str "bcdefgh"; str "ij"] = Some (os1, f1, OK) /\
    exists os2 f2, PWF_Sync slow_sys snd os1 f1 = Some (os2, f2, OK) /\ fst os2 !! 5 = Some (str "abcdefghij").
Proof.
  split; [vm_compute; reflexivity|]. split; [vm_compute; reflexivity|].
  destruct (posix_file_keeps_appends _ slow_sys snd slow_reliable ({[5 := str "a"]}, 2%nat) (PosixWritableFile_new (str "db/MANIFEST-000001") 5) (str "a") [str "bcdefgh"; str "ij"])
    as (os1 & f1 & E & _ & H & _); [vm_compute; reflexivity|reflexivity|]. exists os1, f1. split; [exact E|exact H].
Defined.

(** ** Locks *)

Lemma PosixError_not_ok {OS} (sys : Syscalls OS) context errno : ok (PosixError sys context errno) = false.
Proof. unfold PosixError. destruct (errno =? ENOENT); reflexivity. Qed.

(** The locks a process has taken and not given back. *)

Inductive locked {OS} (sys : Syscalls OS) : PosixEnv (OS := OS) -> list PosixFileLock -> Prop :=
| locked_none os mmaps fds : locked sys (mkPosixEnv os ∅ mmaps fds) []
| locked_lock e ls name e' s r : locked sys e ls -> PE_LockFile sys e name = (e', (s, r)) -> locked sys e' (match r with Some l => l :: ls | None => ls end)
| locked_unlock e ls1 l ls2 e' s : locked sys e (ls1 ++ l :: ls2) -> PE_UnlockFile sys e l = (e', s) -> locked sys e' (if ok s then ls1 ++ ls2 else ls1 ++ l :: ls2).

Lemma locked_names {OS} (sys : Syscalls OS) e ls : locked sys e ls -> NoDup (map pl_filename ls) /\ pe_locks e = list_to_set (map pl_filename ls).
Proof.
  induction 1 as [os mmaps fds|e ls name e' s r _ [IH1 IH2] E|e ls1 l ls2 e' s _ [IH1 IH2] E].
  - split; [constructor|reflexivity].
  - unfold PE_LockFile in E. destruct (sys_open sys (pe_os e) name OpenReadWrite) as [os [fd|errno]]; [|injection E as <- <- <-; auto].
    unfold LockTable_Insert in E. case_bool_decide as Hn; cbn [negb] in E.
    + destruct (LockOrUnlock sys os fd true) as [os2 [u|errno]]; injection E as <- <- <-.
      * cbn [map pl_filename]. split; [|cbn; rewrite IH2; reflexivity]. apply list.NoDup_cons. split; [|exact IH1]. intros Hx. apply Hn. rewrite IH2. apply elem_of_list_to_set. exact Hx.
      * split; [exact IH1|]. cbn. unfold LockTable_Remove. rewrite <- IH2. clear - Hn. set_solver.
    + injection E as <- <- <-. split; [exact IH1|]. cbn. rewrite <- IH2. clear - Hn. set_solver.
  - unfold PE_UnlockFile in E. destruct (LockOrUnlock sys (pe_os e) (pl_fd l) false) as [os [u|errno]]; injection E as <- <-; [|rewrite PosixError_not_ok; split; assumption].
    cbn [ok OK]. rewrite !map_app in *. cbn [map] in *. apply list.NoDup_app in IH1 as (N1 & N2 & N3). apply list.NoDup_cons in N3 as [N3 N4]. split.
    + apply list.NoDup_app. split; [exact N1|]. split; [|exact N4]. intros x Hx Hy. apply (N2 x Hx). right. exact Hy.
    + cbn. unfold LockTable_Remove. rewrite IH2, !list_to_set_app_L. cbn. assert (pl_filename l ∉ map pl_filename ls1) by (intros Hx; apply (N2 _ Hx); left).
      rewrite <- (elem_of_list_to_set (C := gset bytes)) in N3, H. revert N3 H. generalize (list_to_set (map pl_filename ls1) : gset bytes) (list_to_set (map pl_filename ls2) : gset bytes). clear. set_solver.
Qed.

(** A file that is locked is not locked again: whatever the system says, the second
    call fails and takes nothing. *)

Lemma lock_excludes {OS} (sys : Syscalls OS) e ls l : locked sys e ls -> In l ls ->
  exists e' s, PE_LockFile sys e (pl_filename l) = (e', (s, None)) /\ ok s = false /\ pe_locks e' = pe_locks e.
Proof.
  intros HL Hin. destruct (locked_names sys e ls HL) as [_ Hset]. unfold PE_LockFile. destruct (sys_open sys (pe_os e) (pl_filename l) OpenReadWrite) as [os [fd|errno]].
  - unfold LockTable_Insert. assert (Hx : pl_filename l ∈ pe_locks e) by (rewrite Hset; apply elem_of_list_to_set, list_elem_of_In, in_map, Hin).
    rewrite bool_decide_eq_false_2 by tauto. cbn [negb]. eexists _, _. split; [reflexivity|]. split; [reflexivity|]. cbn. clear - Hx. set_solver.
  - eexists _, _. split; [reflexivity|]. split; [apply PosixError_not_ok|reflexivity].
Qed.

(** The bounds check of the mapped file adds in 64 bits: an offset near the end of
    the range passes it and is read far outside of the mapping. *)

Example mmap_read_wraps : PMF_Read slow_sys (mkPosixMmap (str "0123456789") 10 (str "f")) (2 ^ 64 - 4) 9 = None.
Proof. vm_compute. reflexivity. Qed.

(** Record locks belong to the process: closing any descriptor of a file drops the
    locks the process has on it.  With such a system, the second attempt to lock a
    file fails as it should, but the descriptor it opened and closed takes the lock
    of the first away. *)

Definition fcntl_sys : Syscalls (gmap Z bytes * gset bytes) := {|
  sys_open os name _ := let fd := Z.of_nat (size (fst os)) in ((<[fd := name]> (fst os), snd os), inl fd);
  sys_close os fd := ((fst os, match fst os !! fd with Some name => snd os ∖ {[name]} | None => snd os end), inl tt);
  sys_setlk os fd lock :=
    ((fst os, match fst os !! fd with Some name => if lock : bool then {[name]} ∪ snd os else snd os ∖ {[name]} | None => snd os end), inl tt);
  sys_read os _ _ := (os, inl []); sys_lseek os _ _ := (os, inl tt); sys_pread _ _ _ _ := inl []; sys_write os _ d := (os, inl (sz d));
  sys_fdatasync os _ := (os, inl tt); sys_mmap _ _ _ := inl []; sys_access _ _ := true; sys_readdir _ _ := inl []; sys_unlink os _ := (os, inl tt);
  sys_mkdir os _ := (os, inl tt); sys_rmdir os _ := (os, inl tt); sys_stat _ _ := inl 0; sys_rename os _ _ := (os, inl tt); sys_strerror _ := [] |}.

Example second_lock_drops_first :
  let e0 := mkPosixEnv (∅, ∅) ∅ 1000 50 in
  let '(e1, (s1, _)) := PE_LockFile fcntl_sys e0 (str "db/LOCK") in
  let '(e2, (s2, _)) := PE_LockFile fcntl_sys e1 (str "db/LOCK") in
  ok s1 = true /\ ok s2 = false /\ bool_decide (str "db/LOCK" ∈ snd (pe_os e1)) = true /\ bool_decide (str "db/LOCK" ∈ snd (pe_os e2)) = false.
Proof. vm_compute. repeat split. Qed.
