(* ===== verification/Log.v ===== *)
(** * The log: writer and reader (db/log_format.h, db/log_writer.cc, db/log_reader.cc)

    Both sides work on the file interfaces of Env.v.  The CRC does not depend
    on the address of the buffer (Crc32c.v), so buffers are taken at address 0.
    The reader's reporter is the list of the reports made to it.  The theorems
    show that the reader returns exactly the records written, in order, and
    reports nothing; that a truncated log loses records only at its end; and
    how the reader resynchronises. *)

From S2P Require Import Prelude Coding Crc32c Logging Env.
#[local] Open Scope Z_scope.
#[local] Open Scope ldb_scope.

Definition kZeroType : Z := 0.
Definition kFullType : Z := 1.
Definition kFirstType : Z := 2.
Definition kMiddleType : Z := 3.
Definition kLastType : Z := 4.
Definition kMaxRecordType : Z := kLastType.

Definition kBlockSize : Z := 32768.

Definition kHeaderSize : Z := 4 + 2 + 1.

(** ** The writer *)

Definition InitTypeCrc : list Z :=
  map (fun i => Value 0 [z2b (Z.of_nat i)]) (seq 0 (Z.to_nat (kMaxRecordType + 1))).

Section Writer.
Context {F : Type} `{WritableFile F}.

Record Writer := mkWriter { dest_ : F; block_offset_ : Z; type_crc_ : list Z }.

Definition Writer_new (dest : F) : Writer := mkWriter dest 0 InitTypeCrc.

Definition Writer_append (dest : F) (dest_length : Z) : Writer :=
  mkWriter dest (dest_length mod kBlockSize) InitTypeCrc.

Definition EmitPhysicalRecord (w : Writer) (t : Z) (ptr : bytes) : Status * Writer :=
  let length := sz ptr in
  let crc := Extend 0 (nth (Z.to_nat t) (type_crc_ w) 0) ptr in
  let crc := Mask crc in
  let buf := EncodeFixed32 crc ++ [z2b (length .& 255); z2b (length >> 8); z2b t] in
  let '(s, dest) := wf_Append (dest_ w) buf in
  let '(s, dest) :=
    if ok s then
      let '(s, dest) := wf_Append dest ptr in
      if ok s then wf_Flush dest else (s, dest)
    else (s, dest) in
  (s, mkWriter dest (block_offset_ w + (kHeaderSize + length)) (type_crc_ w)).

(** The [do ... while] loop: [left] bytes at [ptr] remain to be written. *)

Fixpoint AddRecord_loop (fuel : nat) (w : Writer) (ptr : bytes) (begin : bool)
  : option (Status * Writer) :=
  match fuel with
  | O => None
  | S fuel =>
      let left := sz ptr in
      let leftover := kBlockSize - block_offset_ w in
      let w :=
        if leftover <? kHeaderSize then
          let dest := if 0 <? leftover
                      then snd (wf_Append (dest_ w) (replicate (Z.to_nat leftover) Byte.x00))
                      else dest_ w in
          mkWriter dest 0 (type_crc_ w)
        else w in
      let avail := kBlockSize - block_offset_ w - kHeaderSize in
      let fragment_length := if left <? avail then left else avail in
      let end_ := left =? fragment_length in
      let type := if begin && end_ then kFullType
                  else if begin then kFirstType
                  else if end_ then kLastType else kMiddleType in
      let '(s, w) := EmitPhysicalRecord w type (take (Z.to_nat fragment_length) ptr) in
      let ptr := drop (Z.to_nat fragment_length) ptr in
      let left := left - fragment_length in
      if ok s && (0 <? left) then AddRecord_loop fuel w ptr false else Some (s, w)
  end.

(** Only the first fragment of a record can be empty, so the loop runs at most
    one turn more than the record has bytes, plus the first. *)

Definition AddRecord (w : Writer) (slice : bytes) : option (Status * Writer) :=
  AddRecord_loop (S (S (length slice))) w slice true.

End Writer.
Arguments Writer : clear implicits.

(** ** The reader *)

Definition kEof : Z := kMaxRecordType + 1.
Definition kBadRecord : Z := kMaxRecordType + 2.

Section Reader.
Context {F : Type} `{SequentialFile F}.

Record Reader := mkReader {
  file_ : F;
  reporter_ : option (list (Z * Status));
  checksum_ : bool;
  buffer_ : bytes;
  eof_ : bool;
  last_record_offset_ : Z;
  end_of_buffer_offset_ : Z;
  initial_offset_ : Z;
  resyncing_ : bool
}.

Definition Reader_new (file : F) (reporter : option (list (Z * Status))) (checksum : bool)
    (initial_offset : Z) : Reader :=
  mkReader file reporter checksum [] false 0 0 initial_offset (0 <? initial_offset).

Definition set_buffer (r : Reader) (b : bytes) : Reader :=
  mkReader (file_ r) (reporter_ r) (checksum_ r) b (eof_ r) (last_record_offset_ r)
    (end_of_buffer_offset_ r) (initial_offset_ r) (resyncing_ r).

Definition set_file (r : Reader) (f : F) (end_of_buffer : Z) : Reader :=
  mkReader f (reporter_ r) (checksum_ r) (buffer_ r) (eof_ r) (last_record_offset_ r)
    end_of_buffer (initial_offset_ r) (resyncing_ r).

Definition set_eof (r : Reader) : Reader :=
  mkReader (file_ r) (reporter_ r) (checksum_ r) (buffer_ r) true (last_record_offset_ r)
    (end_of_buffer_offset_ r) (initial_offset_ r) (resyncing_ r).

Definition set_resyncing (r : Reader) (b : bool) : Reader :=
  mkReader (file_ r) (reporter_ r) (checksum_ r) (buffer_ r) (eof_ r) (last_record_offset_ r)
    (end_of_buffer_offset_ r) (initial_offset_ r) b.

Definition set_last_record_offset (r : Reader) (o : Z) : Reader :=
  mkReader (file_ r) (reporter_ r) (checksum_ r) (buffer_ r) (eof_ r) o
    (end_of_buffer_offset_ r) (initial_offset_ r) (resyncing_ r).

Definition set_reporter (r : Reader) (p : option (list (Z * Status))) : Reader :=
  mkReader (file_ r) p (checksum_ r) (buffer_ r) (eof_ r) (last_record_offset_ r)
    (end_of_buffer_offset_ r) (initial_offset_ r) (resyncing_ r).

Definition ReportDrop (r : Reader) (bytes : Z) (reason : Status) : Reader :=
  match reporter_ r with
  | Some reports =>
      if initial_offset_ r <=? u64 (end_of_buffer_offset_ r - sz (buffer_ r) - bytes)
      then set_reporter r (Some (reports ++ [(bytes, reason)]))
      else r
  | None => r
  end.

Definition ReportCorruption (r : Reader) (nbytes : Z) (reason : bytes) : Reader :=
  ReportDrop r nbytes (Corruption reason []).

Definition SkipToInitialBlock (r : Reader) : bool * Reader :=
  let offset_in_block := initial_offset_ r mod kBlockSize in
  let block_start_location := initial_offset_ r - offset_in_block in
  let block_start_location :=
    if kBlockSize - 6 <? offset_in_block then u64 (block_start_location + kBlockSize)
    else block_start_location in
  let r := set_file r (file_ r) block_start_location in
  if 0 <? block_start_location then
    let '(skip_status, file) := sf_Skip (file_ r) block_start_location in
    let r := set_file r file block_start_location in
    if negb (ok skip_status) then (false, ReportDrop r block_start_location skip_status)
    else (true, r)
  else (true, r).

(** [unsigned int type = header[6]], where [char] is signed. *)

Definition type_of_char (c : byte) : Z :=
  let v := b2z c in if v <? 128 then v else u32 (v - 256).

(** The type returned, the reader, and the fragment ([result]), which stays
    what it was on the paths that do not set it. *)

Fixpoint ReadPhysicalRecord_loop (fuel : nat) (r : Reader) (result : bytes)
  : option (Z * Reader * bytes) :=
  match fuel with
  | O => None
  | S fuel =>
      if sz (buffer_ r) <? kHeaderSize then
        if negb (eof_ r) then
          let '(status, buf, file) := sf_Read (file_ r) kBlockSize in
          let r := set_file (set_buffer r buf) file (u64 (end_of_buffer_offset_ r + sz buf)) in
          if negb (ok status) then
            let r := ReportDrop (set_buffer r []) kBlockSize status in
            Some (kEof, set_eof r, result)
          else
            let r := if sz (buffer_ r) <? kBlockSize then set_eof r else r in
            ReadPhysicalRecord_loop fuel r result
        else Some (kEof, set_buffer r [], result)
      else
        let header := buffer_ r in
        let a := buf_at header 4 .& 255 in
        let b := buf_at header 5 .& 255 in
        let type := type_of_char (nth 6 header Byte.x00) in
        let length := a .| (b << 8) in
        if sz (buffer_ r) <? kHeaderSize + length then
          let drop_size := sz (buffer_ r) in
          let r := set_buffer r [] in
          if negb (eof_ r) then
            Some (kBadRecord, ReportCorruption r drop_size (str "bad record length"), result)
          else Some (kEof, r, result)
        else if (type =? kZeroType) && (length =? 0) then
          Some (kBadRecord, set_buffer r [], result)
        else
          let expected_crc := Unmask (DecodeFixed32 header) in
          let actual_crc := Value 0 (take (Z.to_nat (1 + length)) (drop 6 header)) in
          if checksum_ r && negb (actual_crc =? expected_crc) then
            let drop_size := sz (buffer_ r) in
            let r := set_buffer r [] in
            Some (kBadRecord, ReportCorruption r drop_size (str "checksum mismatch"), result)
          else
            let r := set_buffer r (drop (Z.to_nat (kHeaderSize + length)) (buffer_ r)) in
            if u64 (end_of_buffer_offset_ r - sz (buffer_ r) - kHeaderSize - length)
                 <? initial_offset_ r
            then Some (kBadRecord, r, [])
            else Some (type, r, take (Z.to_nat length) (drop 7 header))
  end.

(** A refill is followed by at most one more, and then by a return. *)

Definition ReadPhysicalRecord (r : Reader) (result : bytes) : option (Z * Reader * bytes) :=
  ReadPhysicalRecord_loop 3 r result.

(** The local variables of [ReadRecord]. *)

Record ReadLocals := mkLocals {
  scratch : bytes;
  in_fragmented_record : bool;
  prospective_record_offset : Z;
  fragment : bytes
}.

(** One turn of the [while] loop: it returns with a record or with [false], or
    goes on. *)

Inductive Turn := Return (record : option bytes) | Continue.

Definition ReadRecord_turn (record_type : Z) (r : Reader) (l : ReadLocals)
  : Turn * Reader * ReadLocals :=
  let physical_record_offset :=
    u64 (end_of_buffer_offset_ r - sz (buffer_ r) - kHeaderSize - sz (fragment l)) in
  if resyncing_ r && (record_type =? kMiddleType) then (Continue, r, l)
  else if resyncing_ r && (record_type =? kLastType) then (Continue, set_resyncing r false, l)
  else
    let r := set_resyncing r false in
    if record_type =? kFullType then
      let r := if in_fragmented_record l && (0 <? sz (scratch l))
               then ReportCorruption r (sz (scratch l)) (str "partial record without end(1)")
               else r in
      (Return (Some (fragment l)), set_last_record_offset r physical_record_offset,
       mkLocals [] (in_fragmented_record l) physical_record_offset (fragment l))
    else if record_type =? kFirstType then
      let r := if in_fragmented_record l && (0 <? sz (scratch l))
               then ReportCorruption r (sz (scratch l)) (str "partial record without end(2)")
               else r in
      (Continue, r, mkLocals (fragment l) true physical_record_offset (fragment l))
    else if record_type =? kMiddleType then
      if negb (in_fragmented_record l) then
        (Continue, ReportCorruption r (sz (fragment l))
                     (str "missing start of fragmented record(1)"), l)
      else (Continue, r, mkLocals (scratch l ++ fragment l) true
                           (prospective_record_offset l) (fragment l))
    else if record_type =? kLastType then
      if negb (in_fragmented_record l) then
        (Continue, ReportCorruption r (sz (fragment l))
                     (str "missing start of fragmented record(2)"), l)
      else
        let scratch := scratch l ++ fragment l in
        (Return (Some scratch), set_last_record_offset r (prospective_record_offset l),
         mkLocals scratch true (prospective_record_offset l) (fragment l))
    else if record_type =? kEof then
      (Return None, r,
       if in_fragmented_record l
       then mkLocals [] true (prospective_record_offset l) (fragment l) else l)
    else if record_type =? kBadRecord then
      if in_fragmented_record l then
        (Continue, ReportCorruption r (sz (scratch l)) (str "error in middle of record"),
         mkLocals [] false (prospective_record_offset l) (fragment l))
      else (Continue, r, l)
    else
      (Continue,
       ReportCorruption r (sz (fragment l) + (if in_fragmented_record l then sz (scratch l) else 0))
         (str "unknown record type " ++ NumberToString record_type),
       mkLocals [] false (prospective_record_offset l) (fragment l)).

Fixpoint ReadRecord_loop (fuel : nat) (r : Reader) (l : ReadLocals)
  : option (option bytes * Reader) :=
  match fuel with
  | O => None
  | S fuel =>
      match ReadPhysicalRecord r (fragment l) with
      | None => None
      | Some (record_type, r, fragment) =>
          match ReadRecord_turn record_type r
                  (mkLocals (scratch l) (in_fragmented_record l)
                            (prospective_record_offset l) fragment) with
          | (Return record, r, _) => Some (record, r)
          | (Continue, r, l) => ReadRecord_loop fuel r l
          end
      end
  end.

(** [Some (Some record)] for [true], [Some None] for [false]. *)

Definition ReadRecord (fuel : nat) (r : Reader) : option (option bytes * Reader) :=
  let '(skipped, r) :=
    if last_record_offset_ r <? initial_offset_ r then SkipToInitialBlock r else (true, r) in
  if negb skipped then Some (None, r)
  else ReadRecord_loop fuel r (mkLocals [] false 0 []).

(** [while (reader.ReadRecord(&record, &scratch)) ...], as the recovery code
    drains a log. *)

Fixpoint ReadAll (n fuel : nat) (r : Reader) : option (list bytes * Reader) :=
  match n with
  | O => None
  | S n =>
      match ReadRecord fuel r with
      | None => None
      | Some (None, r) => Some ([], r)
      | Some (Some record, r) =>
          match ReadAll n fuel r with
          | Some (records, r) => Some (record :: records, r)
          | None => None
          end
      end
  end.

End Reader.
Arguments Reader : clear implicits.

(** ** A run on the in-memory file *)

Definition write_log (records : list bytes) : FileState :=
  dest_ (fold_left (fun w rec => match AddRecord w rec with Some (_, w) => w | None => w end)
           records (Writer_new FileState_new)).

Definition read_log (f : FileState) : option (list bytes * option (list (Z * Status))) :=
  match ReadAll 100 100 (Reader_new (mkSequentialFileImpl f 0) (Some []) true 0) with
  | Some (rs, r) => Some (rs, reporter_ r)
  | None => None
  end.

Example log_run :
  read_log (write_log [str "one"; []; str "three"]) = Some ([str "one"; []; str "three"], Some []).
Proof. vm_compute. reflexivity. Qed.

(** ** What the writer writes *)

Definition phys (t : Z) (frag : bytes) : bytes :=
  EncodeFixed32 (Mask (crc_ref 0 (z2b t :: frag)))
  ++ [z2b (sz frag .& 255); z2b (sz frag >> 8); z2b t] ++ frag.

(** The offset a fragment starts at, and the trailer before it. *)

Definition start_offset (o : Z) : Z := if kBlockSize - o <? kHeaderSize then 0 else o.

Definition trailer (o : Z) : bytes :=
  if kBlockSize - o <? kHeaderSize then replicate (Z.to_nat (kBlockSize - o)) Byte.x00 else [].

Definition is_record_type (t : Z) : Prop := 1 <= t <= 4.

(** A writer at block offset [o] writes the (rest of a) record as [out] and
    ends at the last offset. *)

Inductive Emitted : Z -> bool -> bytes -> bytes -> Z -> Prop :=
| Em_end o begin ptr :
    sz ptr <= kBlockSize - start_offset o - kHeaderSize ->
    Emitted o begin ptr (trailer o ++ phys (if begin then kFullType else kLastType) ptr)
      (start_offset o + (kHeaderSize + sz ptr))
| Em_more o (begin : bool) ptr out o' :
    let avail := kBlockSize - start_offset o - kHeaderSize in
    avail < sz ptr ->
    Emitted kBlockSize false (drop (Z.to_nat avail) ptr) out o' ->
    Emitted o begin ptr
      (trailer o ++ phys (if begin then kFirstType else kMiddleType) (take (Z.to_nat avail) ptr)
       ++ out) o'.

(** The sizes are used through their values, so that no proof unfolds them. *)

Lemma kBlockSize_val : kBlockSize = 32768.
Proof. reflexivity. Qed.

Lemma kHeaderSize_val : kHeaderSize = 7.
Proof. reflexivity. Qed.

Ltac blia := pose proof kBlockSize_val; pose proof kHeaderSize_val; lia.

Lemma length_phys t frag : sz (phys t frag) = kHeaderSize + sz frag.
Proof.
  unfold phys, sz. rewrite !length_app, length_EncodeFixed32. unfold kHeaderSize. simpl length. lia.
Qed.

Lemma start_offset_range o : 0 <= o <= kBlockSize ->
  0 <= start_offset o <= kBlockSize - kHeaderSize.
Proof. unfold start_offset. zcases; blia. Qed.

Lemma InitTypeCrc_nth t : is_record_type t -> nth (Z.to_nat t) InitTypeCrc 0 = crc_ref 0 [z2b t].
Proof.
  unfold is_record_type. intros H. assert (E : t = 1 \/ t = 2 \/ t = 3 \/ t = 4) by lia.
  destruct E as [->|[->|[->| ->]]]; vm_compute; reflexivity.
Qed.

(** Writing terminates on any file, and the block offset stays in the block. *)

Lemma AddRecord_loop_total {F} `{WritableFile F} fuel : forall (w : Writer F) ptr begin, 0 <= block_offset_ w <= kBlockSize ->
  (length ptr < fuel)%nat -> (0 < kBlockSize - start_offset (block_offset_ w) - kHeaderSize \/ (S (length ptr) < fuel)%nat) ->
  exists s w', AddRecord_loop fuel w ptr begin = Some (s, w') /\ 0 <= block_offset_ w' <= kBlockSize.
Proof.
  induction fuel as [|fuel IH]; intros w ptr begin HW Hf Hav; [lia|]. cbn [AddRecord_loop].
  set (w1 := if kBlockSize - block_offset_ w <? kHeaderSize then _ else w).
  assert (Ho1 : block_offset_ w1 = start_offset (block_offset_ w)) by (unfold w1, start_offset; destruct (_ <? kHeaderSize); reflexivity).
  clearbody w1. cbv zeta. pose proof (start_offset_range _ HW) as Hso. rewrite Ho1.
  set (avail := kBlockSize - start_offset (block_offset_ w) - kHeaderSize) in *. pose proof (sz_nonneg ptr) as Hp0.
  set (fl := if sz ptr <? avail then sz ptr else avail).
  assert (Hfl : 0 <= fl <= avail /\ fl <= sz ptr /\ (fl < sz ptr -> fl = avail)) by (unfold fl; zcases; lia).
  clearbody fl. match goal with |- context [EmitPhysicalRecord w1 ?t ?p] => destruct (EmitPhysicalRecord w1 t p) as [s w2] eqn:E2 end.
  assert (Ho2 : block_offset_ w2 = start_offset (block_offset_ w) + (kHeaderSize + fl)).
  { unfold EmitPhysicalRecord in E2. cbv zeta in E2. repeat (case_in E2); inv E2; cbn [block_offset_]; rewrite Ho1;
      f_equal; f_equal; unfold sz in *; rewrite length_take; lia. }
  destruct (ok s && (0 <? sz ptr - fl)) eqn:Ec.
  - apply andb_true_iff in Ec as [_ Ec]. apply Z.ltb_lt in Ec. apply IH.
    + rewrite Ho2. blia.
    + rewrite length_drop. unfold sz in *. destruct Hav; lia.
    + left. rewrite Ho2. assert (fl = avail) as -> by (apply Hfl; lia). unfold avail. unfold start_offset at 1. zcases; blia.
  - eexists s, w2. split; [reflexivity|]. rewrite Ho2. blia.
Qed.

Lemma AddRecord_total {F} `{WritableFile F} (w : Writer F) rec : 0 <= block_offset_ w <= kBlockSize ->
  exists s w', AddRecord w rec = Some (s, w') /\ 0 <= block_offset_ w' <= kBlockSize.
Proof. intros HW. apply AddRecord_loop_total; [exact HW|lia|right; lia]. Qed.

Section WriterOk.
Context {F : Type} {WF : WritableFile F} {RW : ReliableWritable F}.

Record WOk (w : Writer F) : Prop := {
  w_file : wf_inv (dest_ w);
  w_offset : 0 <= block_offset_ w <= kBlockSize;
  w_crc : type_crc_ w = InitTypeCrc
}.

Lemma Emit_ok w t ptr : WOk w -> is_record_type t ->
  block_offset_ w + (kHeaderSize + sz ptr) <= kBlockSize ->
  exists w', EmitPhysicalRecord w t ptr = (OK, w') /\ WOk w' /\
    wf_contents (dest_ w') = wf_contents (dest_ w) ++ phys t ptr /\
    block_offset_ w' = block_offset_ w + (kHeaderSize + sz ptr).
Proof.
  intros [Hf Ho Hc] Ht Hb. pose proof (sz_nonneg ptr). unfold EmitPhysicalRecord. cbv zeta.
  rewrite Hc, InitTypeCrc_nth, Extend_ref, crc_ref_app by (assumption || (apply crc_ref_range; split; [lia|reflexivity])).
  destruct (wf_append_ok (dest_ w) (EncodeFixed32 (Mask (crc_ref 0 ([z2b t] ++ ptr)))
    ++ [z2b (sz ptr .& 255); z2b (sz ptr >> 8); z2b t]) Hf) as (f1 & -> & Hf1 & Hc1).
  cbn [ok OK]. destruct (wf_append_ok f1 ptr Hf1) as (f2 & -> & Hf2 & Hc2). cbn [ok OK].
  destruct (wf_flush_ok f2 Hf2) as (f3 & -> & Hf3 & Hc3). cbn [ok OK].
  eexists. split; [reflexivity|]. cbn [dest_ block_offset_ type_crc_]. split; [|split].
  - constructor; cbn [dest_ block_offset_ type_crc_]; auto. blia.
  - rewrite Hc3, Hc2, Hc1. unfold phys. rewrite <- !app_assoc. reflexivity.
  - reflexivity.
Qed.

Lemma AddRecord_loop_ok fuel : forall w ptr (begin : bool), WOk w -> (length ptr < fuel)%nat ->
  (0 < kBlockSize - start_offset (block_offset_ w) - kHeaderSize \/ (S (length ptr) < fuel)%nat) ->
  exists w' out, AddRecord_loop fuel w ptr begin = Some (OK, w') /\ WOk w' /\
    wf_contents (dest_ w') = wf_contents (dest_ w) ++ out /\
    Emitted (block_offset_ w) begin ptr out (block_offset_ w').
Proof.
  induction fuel as [|fuel IH]; intros w ptr begin HW Hf Hav; [lia|]. cbn [AddRecord_loop].
  set (w1 := if kBlockSize - block_offset_ w <? kHeaderSize then _ else w).
  assert (H1 : WOk w1 /\ block_offset_ w1 = start_offset (block_offset_ w) /\
    wf_contents (dest_ w1) = wf_contents (dest_ w) ++ trailer (block_offset_ w)).
  { unfold w1, start_offset, trailer. destruct HW as [Hwf Hwo Hwc].
    destruct (Z.ltb_spec (kBlockSize - block_offset_ w) kHeaderSize) as [Hl|Hl].
    - destruct (Z.ltb_spec 0 (kBlockSize - block_offset_ w)) as [Hp|Hp].
      + destruct (wf_append_ok (dest_ w) (replicate (Z.to_nat (kBlockSize - block_offset_ w)) Byte.x00) Hwf)
          as (f' & -> & Hf' & Hc'). cbn [snd].
        split; [constructor; cbn; auto; blia|]. split; [reflexivity|exact Hc'].
      + split; [constructor; cbn; auto; blia|]. split; [reflexivity|].
        cbn [dest_]. replace (Z.to_nat (kBlockSize - block_offset_ w)) with 0%nat by lia.
        rewrite app_nil_r. reflexivity.
    - rewrite app_nil_r. split; [constructor; assumption|auto]. }
  clearbody w1. destruct H1 as (HW1 & Ho1 & Hc1). cbv zeta.
  pose proof (start_offset_range _ (w_offset _ HW)) as Hso. rewrite Ho1.
  set (avail := kBlockSize - start_offset (block_offset_ w) - kHeaderSize) in *.
  assert (Hav0 : 0 <= avail) by (unfold avail; lia). pose proof (sz_nonneg ptr) as Hp0.
  destruct (Z.ltb_spec avail (sz ptr)) as [Hm|Hm].
  - replace (if sz ptr <? avail then sz ptr else avail) with avail by (zcases; lia).
    rewrite (proj2 (Z.eqb_neq (sz ptr) avail)) by lia. rewrite andb_false_r.
    assert (Hst : sz (take (Z.to_nat avail) ptr) = avail) by (unfold sz in *; rewrite length_take; lia).
    destruct (Emit_ok w1 (if begin then kFirstType else kMiddleType) (take (Z.to_nat avail) ptr) HW1)
      as (w2 & E2 & HW2 & Hc2 & Ho2).
    { destruct begin; unfold is_record_type, kFirstType, kMiddleType; lia. }
    { rewrite Hst, Ho1. unfold avail. lia. }
    replace (if begin then kFirstType else if false then kLastType else kMiddleType)
      with (if begin then kFirstType else kMiddleType) by (destruct begin; reflexivity).
    rewrite E2. cbn [ok OK andb]. rewrite (proj2 (Z.ltb_lt 0 (sz ptr - avail))) by lia.
    rewrite Hst, Ho1 in Ho2.
    assert (Ho2' : block_offset_ w2 = kBlockSize) by (rewrite Ho2; unfold avail; lia).
    destruct (IH w2 (drop (Z.to_nat avail) ptr) false HW2) as (w3 & out & E3 & HW3 & Hc3 & Hem).
    { rewrite length_drop. unfold sz in Hm. destruct Hav as [Hav|Hav]; lia. }
    { left. rewrite Ho2'. unfold start_offset. rewrite Z.sub_diag. reflexivity. }
    rewrite E3. eexists w3, _. split; [reflexivity|]. split; [exact HW3|]. split.
    2: { rewrite Ho2' in Hem. apply Em_more; [exact Hm|exact Hem]. }
    rewrite Hc3, Hc2, Hc1, <- !app_assoc. reflexivity.
  - replace (if sz ptr <? avail then sz ptr else avail) with (sz ptr) by (zcases; lia).
    rewrite Z.eqb_refl, andb_true_r, sz_to_nat, firstn_all.
    destruct (Emit_ok w1 (if begin then kFullType else kLastType) ptr HW1)
      as (w2 & E2 & HW2 & Hc2 & Ho2).
    { destruct begin; unfold is_record_type, kFullType, kLastType; lia. }
    { rewrite Ho1. unfold avail in Hm. lia. }
    replace (if begin then kFullType else if begin then kFirstType else kLastType)
      with (if begin then kFullType else kLastType) by (destruct begin; reflexivity).
    rewrite E2, Z.sub_diag. cbn [ok OK andb Z.ltb Z.compare].
    eexists w2, _. split; [reflexivity|]. split; [exact HW2|]. split.
    2: { rewrite Ho2, Ho1. apply Em_end. exact Hm. }
    rewrite Hc2, Hc1, <- app_assoc. reflexivity.
Qed.

Lemma AddRecord_ok w rec : WOk w ->
  exists w' out, AddRecord w rec = Some (OK, w') /\ WOk w' /\
    wf_contents (dest_ w') = wf_contents (dest_ w) ++ out /\
    Emitted (block_offset_ w) true rec out (block_offset_ w').
Proof. intros HW. apply AddRecord_loop_ok; [exact HW|lia|right; lia]. Qed.

End WriterOk.

(** ** The reader on a written log *)

Lemma type_of_char_small t : is_record_type t -> type_of_char (z2b t) = t.
Proof.
  unfold is_record_type, type_of_char. intros H. rewrite b2z_z2b, u8_small by lia. zcases; lia.
Qed.

(** The fields of a header. *)

Lemma phys_fields t frag rest : is_record_type t -> sz frag <= kBlockSize ->
  let h := phys t frag ++ rest in
  DecodeFixed32 h = Mask (crc_ref 0 (z2b t :: frag)) /\
  (buf_at h 4 .& 255) .| ((buf_at h 5 .& 255) << 8) = sz frag /\
  type_of_char (nth 6 h Byte.x00) = t.
Proof.
  intros Ht Hs. pose proof (sz_nonneg frag). rewrite kBlockSize_val in Hs.
  cbv zeta. unfold phys. rewrite <- app_assoc. split; [|split].
  - rewrite fixed32_decode. unfold Mask. apply u32_small, u32_range.
  - unfold EncodeFixed32. cbn [app]. unfold buf_at. cbn [nth]. rewrite !b2z_z2b, !land_255.
    unfold u8. rewrite !Z.mod_mod, shiftr_div by lia. change (2 ^ 8) with 256.
    rewrite (Z.mod_small (sz frag / 256))
      by (split; [apply Z.div_pos; lia|apply Z.div_lt_upper_bound; lia]).
    rewrite lor_shiftl_add by (try (apply Z.mod_pos_bound); lia).
    pose proof (Z.div_mod (sz frag) 256 ltac:(lia)). lia.
  - unfold EncodeFixed32. cbn [app nth]. apply type_of_char_small, Ht.
Qed.

Lemma drop_phys t frag rest n : n = Z.to_nat (kHeaderSize + sz frag) ->
  drop n (phys t frag ++ rest) = rest.
Proof. intros ->. rewrite <- (length_phys t). apply drop_sz_app. Qed.

Section ReaderOk.
Context {F : Type} {SF : SequentialFile F} {RS : ReliableSequential F}.

Definition quiet (r : Reader F) : Prop := initial_offset_ r = 0 /\ resyncing_ r = false.

(** The reader stands at block offset [o]; [tail] is what it has not consumed. *)

Record RInv (o : Z) (tail : bytes) (r : Reader F) : Prop := {
  r_file : sf_inv (file_ r);
  r_quiet : quiet r;
  r_offset : 0 <= o <= kBlockSize;
  r_tail : tail = buffer_ r ++ sf_rest (file_ r);
  r_eof : if eof_ r then sf_rest (file_ r) = [] /\ sz (buffer_ r) <= kBlockSize - o
          else sz (buffer_ r) = (kBlockSize - o) mod kBlockSize
}.

(** A complete record in the buffer is returned. *)

Lemma parse_phys fuel r result t frag btail :
  buffer_ r = phys t frag ++ btail -> quiet r -> is_record_type t -> sz frag <= kBlockSize ->
  ReadPhysicalRecord_loop (S fuel) r result = Some (t, set_buffer r btail, frag).
Proof.
  intros Hb [Hq _] Ht Hs. destruct (phys_fields t frag btail Ht Hs) as (H1 & H2 & H3).
  pose proof (length_phys t frag) as Hl. pose proof (sz_nonneg frag) as Hfr0.
  pose proof (sz_nonneg btail) as H0b.
  cbn [ReadPhysicalRecord_loop]. rewrite Hb, H1, H2, H3. cbv zeta.
  rewrite (proj2 (Z.ltb_ge _ _)) by (rewrite sz_app, Hl; lia).
  rewrite (proj2 (Z.ltb_ge _ _)) by (rewrite sz_app, Hl; lia).
  rewrite (proj2 (Z.eqb_neq t kZeroType)) by (unfold is_record_type, kZeroType in *; lia).
  cbn [andb]. rewrite Unmask_Mask by (apply crc_ref_range; split; [lia|reflexivity]).
  assert (Hd : drop 6 (phys t frag ++ btail) = z2b t :: frag ++ btail) by reflexivity.
  rewrite Hd. assert (Htk : take (Z.to_nat (1 + sz frag)) (z2b t :: frag ++ btail) = z2b t :: frag).
  { replace (1 + sz frag) with (sz (z2b t :: frag)) by (rewrite sz_cons; lia).
    apply (take_sz_app (z2b t :: frag) btail). }
  rewrite Htk. unfold Value. rewrite Extend_ref by (split; [lia|reflexivity]).
  rewrite Z.eqb_refl, andb_false_r. rewrite drop_phys by reflexivity.
  cbn [set_buffer initial_offset_ end_of_buffer_offset_ buffer_]. rewrite Hq.
  rewrite (proj2 (Z.ltb_ge _ 0)) by apply u64_range.
  do 2 f_equal. assert (Hd7 : drop 7 (phys t frag ++ btail) = frag ++ btail) by reflexivity.
  rewrite Hd7. apply take_sz_app.
Qed.

(** An incomplete record at the end of the file is the end of the log. *)

Lemma parse_partial fuel r result t frag n :
  buffer_ r = take n (phys t frag) -> (n < length (phys t frag))%nat -> eof_ r = true ->
  is_record_type t -> sz frag <= kBlockSize ->
  ReadPhysicalRecord_loop (S fuel) r result = Some (kEof, set_buffer r [], result).
Proof.
  intros Hb Hn He Ht Hs. cbn [ReadPhysicalRecord_loop]. rewrite He. cbn [negb].
  destruct (Z.ltb_spec (sz (buffer_ r)) kHeaderSize) as [Hl|Hl]; [reflexivity|].
  assert (Hsz : sz (buffer_ r) = Z.of_nat n) by (rewrite Hb; unfold sz; rewrite length_take; lia).
  assert (E : phys t frag = buffer_ r ++ drop n (phys t frag)) by (rewrite Hb; symmetry; apply take_drop).
  destruct (phys_fields t frag [] Ht Hs) as (_ & H2 & _). rewrite app_nil_r in H2. cbv zeta.
  assert (Hat : forall i, (i < 7)%nat -> buf_at (buffer_ r) i = buf_at (phys t frag) i).
  { intros i Hi. unfold buf_at. rewrite E, app_nth1; [reflexivity|].
    unfold sz in *. blia. }
  rewrite !Hat, H2 by lia. pose proof (length_phys t frag) as Hlp. unfold sz in Hlp at 1.
  rewrite (proj2 (Z.ltb_lt (sz (buffer_ r)) _)) by lia. cbn [set_buffer eof_]. rewrite He. reflexivity.
Qed.

(** Refilling the buffer at a block boundary. *)

Definition refilled (r : Reader F) (f : F) : Reader F :=
  let buf := take (Z.to_nat kBlockSize) (sf_rest (file_ r)) in
  let r1 := set_file (set_buffer r buf) f (u64 (end_of_buffer_offset_ r + sz buf)) in
  if sz buf <? kBlockSize then set_eof r1 else r1.

Lemma refill fuel r result :
  sz (buffer_ r) < kHeaderSize -> eof_ r = false -> sf_inv (file_ r) ->
  exists f, sf_inv f /\ sf_rest f = drop (Z.to_nat kBlockSize) (sf_rest (file_ r)) /\
    ReadPhysicalRecord_loop (S fuel) r result = ReadPhysicalRecord_loop fuel (refilled r f) result.
Proof.
  intros Hs He Hi. destruct (sf_read_ok (file_ r) kBlockSize Hi ltac:(discriminate))
    as (f & E & Hf & Hr). exists f. split; [exact Hf|]. split; [exact Hr|].
  cbn [ReadPhysicalRecord_loop]. rewrite (proj2 (Z.ltb_lt _ _) Hs), He. cbn [negb]. rewrite E.
  cbn [ok OK negb]. unfold refilled. cbv zeta. cbn [buffer_ set_file set_buffer]. reflexivity.
Qed.

Lemma refilled_fields r f :
  buffer_ (refilled r f) = take (Z.to_nat kBlockSize) (sf_rest (file_ r)) /\
  file_ (refilled r f) = f /\
  eof_ (refilled r f)
    = (if sz (take (Z.to_nat kBlockSize) (sf_rest (file_ r))) <? kBlockSize then true else eof_ r) /\
  reporter_ (refilled r f) = reporter_ r /\ (quiet r -> quiet (refilled r f)).
Proof. unfold refilled. cbv zeta. destruct (_ <? kBlockSize); cbn; auto. Qed.

Lemma prefix_split {A} (a b c d : list A) :
  a ++ b = c ++ d -> (length c <= length a)%nat -> a = c ++ drop (length c) a /\
  d = drop (length c) a ++ b.
Proof.
  intros E Hl. assert (Hc : c = take (length c) a).
  { apply (f_equal (take (length c))) in E. rewrite take_app_length, take_app_le in E by lia.
    congruence. }
  assert (Ha : a = c ++ drop (length c) a) by (rewrite Hc at 1; rewrite take_drop; reflexivity).
  split; [exact Ha|]. apply (app_inv_head c). rewrite app_assoc, <- Ha. symmetry. exact E.
Qed.

Lemma length_trailer o : 0 <= o <= kBlockSize ->
  sz (trailer o) = if kBlockSize - o <? kHeaderSize then kBlockSize - o else 0.
Proof.
  intros H. unfold trailer. zcases; [|reflexivity]. unfold sz. rewrite length_replicate. lia.
Qed.

(** A record that starts the buffer at block offset [o]. *)

Definition at_offset (o : Z) (r : Reader F) : Prop :=
  if eof_ r then sf_rest (file_ r) = [] /\ sz (buffer_ r) <= kBlockSize - o
  else sz (buffer_ r) = kBlockSize - o.

Lemma read_now o r k result t frag tail :
  quiet r -> sf_inv (file_ r) -> at_offset o r -> 0 <= o -> is_record_type t ->
  phys t frag ++ tail = buffer_ r ++ sf_rest (file_ r) ->
  o + (kHeaderSize + sz frag) <= kBlockSize ->
  exists r', ReadPhysicalRecord_loop (S k) r result = Some (t, r', frag) /\
    RInv (o + (kHeaderSize + sz frag)) tail r' /\ reporter_ r' = reporter_ r.
Proof.
  intros Hq Hi He Ho Hty Ht Hfit. unfold at_offset in He.
  pose proof (length_phys t frag) as Hlp. pose proof (sz_nonneg frag) as Hf0.
  assert (Hlen : (length (phys t frag) <= length (buffer_ r))%nat).
  { destruct (eof_ r).
    - destruct He as [E0 _]. rewrite E0, app_nil_r in Ht. rewrite <- Ht, length_app. lia.
    - unfold sz in *. lia. }
  symmetry in Ht. destruct (prefix_split _ _ _ _ Ht Hlen) as [Hb Htl].
  set (bt := drop (length (phys t frag)) (buffer_ r)) in *. clearbody bt.
  exists (set_buffer r bt). split; [apply parse_phys; try assumption; blia|]. split; [|reflexivity].
  assert (Hsb : sz (buffer_ r) = kHeaderSize + sz frag + sz bt) by (rewrite Hb, sz_app, Hlp; reflexivity).
  constructor; cbn [set_buffer file_ buffer_ eof_]; try assumption.
  - blia.
  - destruct (eof_ r); [split; [apply He|lia]|]. rewrite Z.mod_small by blia. lia.
Qed.

(** The reader after a refill stands at the start of a block. *)

Lemma refilled_at r f : eof_ r = false ->
  sf_rest f = drop (Z.to_nat kBlockSize) (sf_rest (file_ r)) -> at_offset 0 (refilled r f).
Proof.
  intros Heof Hr. destruct (refilled_fields r f) as (Eb & Ef & Ee & _).
  unfold at_offset. rewrite Ee, Eb, Ef, Hr, Heof. generalize (sf_rest (file_ r)). intros l.
  assert (Hl : sz (take (Z.to_nat kBlockSize) l) = Z.min kBlockSize (sz l))
    by (unfold sz; rewrite length_take; blia).
  rewrite Hl. destruct (Z.ltb_spec (Z.min kBlockSize (sz l)) kBlockSize) as [H|H]; [|lia].
  split; [|lia]. apply drop_ge. unfold sz in H. lia.
Qed.

Lemma read_refill r result t frag tail :
  quiet r -> sf_inv (file_ r) -> sz (buffer_ r) < kHeaderSize -> eof_ r = false ->
  sf_rest (file_ r) = phys t frag ++ tail -> is_record_type t ->
  kHeaderSize + sz frag <= kBlockSize ->
  exists r', ReadPhysicalRecord r result = Some (t, r', frag) /\
    RInv (0 + (kHeaderSize + sz frag)) tail r' /\ reporter_ r' = reporter_ r.
Proof.
  intros Hq Hf Hsmall Heof Hrest Hty Hfit. unfold ReadPhysicalRecord.
  destruct (refill 2 r result Hsmall Heof Hf) as (f & Hi & Hr & ->).
  destruct (refilled_fields r f) as (Eb & Ef & Ee & Er & Eq). rewrite <- Er.
  apply read_now; [auto|rewrite Ef; exact Hi|apply refilled_at; assumption|lia|exact Hty| |lia].
  rewrite Eb, Ef, Hr, take_drop. symmetry. exact Hrest.
Qed.

(** Before a fragment that starts at [start_offset o]: either the buffer holds
    it, or a refill is due. *)

Lemma reader_ready o rest r : RInv o (trailer o ++ rest) r -> rest <> [] ->
  at_offset (start_offset o) r /\ rest = buffer_ r ++ sf_rest (file_ r) \/
  start_offset o = 0 /\ sz (buffer_ r) < kHeaderSize /\ eof_ r = false /\ sf_rest (file_ r) = rest.
Proof.
  intros [Hf Hq Ho Ht He] Hne. pose proof (length_trailer o Ho) as Hlt.
  assert (Hpos : 0 < sz rest) by (destruct rest; [congruence|rewrite sz_cons; pose proof (sz_nonneg rest); lia]).
  unfold at_offset, start_offset, trailer in *.
  destruct (Z.ltb_spec (kBlockSize - o) kHeaderSize) as [Hnear|Hfar].
  - right. destruct (eof_ r) eqn:Ee.
    { exfalso. destruct He as [E0 Hle]. rewrite E0, app_nil_r in Ht. apply (f_equal sz) in Ht.
      rewrite sz_app, Hlt in Ht. lia. }
    rewrite Z.mod_small in He by blia. symmetry in Ht.
    destruct (prefix_split _ _ _ _ Ht) as [Hb Htl]; [unfold sz in *; lia|].
    rewrite drop_ge in Htl by (unfold sz in *; lia). repeat (split; [auto; lia|]). auto.
  - cbn [app] in Ht. destruct (Z.eq_dec o 0) as [->|Hno].
    + destruct (eof_ r) eqn:Ee; [left; auto|]. right.
      rewrite Z.sub_0_r, Z.mod_same in He by blia.
      assert (Eb : buffer_ r = []) by (destruct (buffer_ r); [reflexivity|unfold sz in He; simpl in He; lia]).
      rewrite Eb in *. split; [reflexivity|]. split; [rewrite sz_nil; blia|].
      split; [reflexivity|symmetry; exact Ht].
    + left. split; [|exact Ht]. destruct (eof_ r); [exact He|]. rewrite He. apply Z.mod_small. blia.
Qed.

Lemma phys_not_nil t frag tail : phys t frag ++ tail <> [].
Proof. discriminate. Qed.

(** Reading at offset [o] a tail that starts with a complete physical record. *)

Lemma read_phys o r result t frag tail :
  RInv o (trailer o ++ phys t frag ++ tail) r -> is_record_type t ->
  start_offset o + (kHeaderSize + sz frag) <= kBlockSize ->
  exists r', ReadPhysicalRecord r result = Some (t, r', frag) /\
    RInv (start_offset o + (kHeaderSize + sz frag)) tail r' /\ reporter_ r' = reporter_ r.
Proof.
  intros HI Hty Hfit. pose proof (start_offset_range o (r_offset _ _ _ HI)) as Hso.
  destruct (reader_ready o _ r HI (phys_not_nil _ _ _)) as [[Ha Hb]|(Hs0 & Hb & He & Hr)].
  - apply read_now; try assumption; try apply HI. apply Hso.
  - rewrite Hs0 in *. apply read_refill; try assumption; apply HI.
Qed.

Lemma set_buffer_quiet r b : quiet r -> quiet (set_buffer r b).
Proof. exact (fun H => H). Qed.

Lemma set_buffer_reporter (r : Reader F) b : reporter_ (set_buffer r b) = reporter_ r.
Proof. reflexivity. Qed.

(** Fewer bytes than a header are the end of the log, and so is a physical
    record that is cut short. *)

Lemma read_short o tail r result : RInv o tail r -> sz tail < kHeaderSize ->
  exists r', ReadPhysicalRecord r result = Some (kEof, r', result) /\ quiet r' /\
    reporter_ r' = reporter_ r.
Proof.
  intros [Hf Hq Ho Ht He] Hs. rewrite Ht, sz_app in Hs.
  pose proof (sz_nonneg (buffer_ r)). pose proof (sz_nonneg (sf_rest (file_ r))) as Hr0.
  assert (Heof : forall r1 k, sz (buffer_ r1) < kHeaderSize -> eof_ r1 = true ->
    ReadPhysicalRecord_loop (S k) r1 result = Some (kEof, set_buffer r1 [], result)).
  { intros r1 k H1 H2. cbn [ReadPhysicalRecord_loop].
    rewrite (proj2 (Z.ltb_lt _ _) H1), H2. reflexivity. }
  unfold ReadPhysicalRecord. destruct (eof_ r) eqn:Ee.
  - exists (set_buffer r []). split; [apply Heof; [lia|exact Ee]|auto].
  - destruct (refill 2 r result ltac:(lia) Ee Hf) as (f & Hi & Hr & ->).
    destruct (refilled_fields r f) as (Eb & Ef & E2 & Er & Eq).
    assert (Hl : sz (take (Z.to_nat kBlockSize) (sf_rest (file_ r))) <= sz (sf_rest (file_ r)))
      by (unfold sz; rewrite length_take; lia).
    exists (set_buffer (refilled r f) []). split; [apply Heof|].
    + rewrite Eb. lia.
    + rewrite E2. rewrite (proj2 (Z.ltb_lt _ _)) by blia. reflexivity.
    + split; [apply set_buffer_quiet, Eq, Hq|rewrite set_buffer_reporter; exact Er].
Qed.

Lemma read_partial o r result t frag n :
  RInv o (take n (trailer o ++ phys t frag)) r -> is_record_type t ->
  start_offset o + (kHeaderSize + sz frag) <= kBlockSize ->
  (n < length (trailer o ++ phys t frag))%nat ->
  exists r', ReadPhysicalRecord r result = Some (kEof, r', result) /\ quiet r' /\
    reporter_ r' = reporter_ r.
Proof.
  intros HI Hty Hfit Hn. pose proof (r_offset _ _ _ HI) as Ho.
  pose proof (start_offset_range o Ho) as Hso. pose proof (length_trailer o Ho) as Hlt.
  pose proof (length_phys t frag) as Hlp. pose proof (sz_nonneg frag) as Hf0. rewrite length_app in Hn.
  destruct (Nat.le_gt_cases n (length (trailer o))) as [Hle|Hgt].
  { eapply read_short; [exact HI|]. rewrite take_app_le by exact Hle.
    destruct (kBlockSize - o <? kHeaderSize) eqn:E; [apply Z.ltb_lt in E|];
      unfold sz in *; rewrite length_take; blia. }
  rewrite take_app, take_ge in HI by lia. set (m := (n - length (trailer o))%nat) in *.
  assert (Hm : (0 < m < length (phys t frag))%nat) by lia. clearbody m.
  assert (Hlm : sz (take m (phys t frag)) = Z.of_nat m) by (unfold sz; rewrite length_take; lia).
  unfold ReadPhysicalRecord.
  destruct (reader_ready o _ r HI) as [[Ha Hb]|(Hs0 & Hb & He & Hr)].
  - intros E. rewrite E, sz_nil in Hlm. lia.
  - unfold at_offset in Ha. destruct (eof_ r) eqn:Ee.
    + destruct Ha as [E0 _]. rewrite E0, app_nil_r in Hb.
      exists (set_buffer r []). split; [|split; [apply HI|reflexivity]].
      apply (parse_partial 2 r _ t frag m); auto; blia.
    + exfalso. apply (f_equal sz) in Hb. rewrite sz_app, Hlm, Ha in Hb.
      pose proof (sz_nonneg (sf_rest (file_ r))). unfold sz in Hlp at 1. lia.
  - destruct (refill 2 r result Hb He (r_file _ _ _ HI)) as (f & Hi & Hrf & ->).
    destruct (refilled_fields r f) as (Eb & Ef & E2 & Er & Eq).
    assert (Hcut : take (Z.to_nat kBlockSize) (sf_rest (file_ r)) = take m (phys t frag)).
    { rewrite Hr, take_take. f_equal. unfold sz in Hlp at 1. lia. }
    exists (set_buffer (refilled r f) []).
    split; [|split; [apply set_buffer_quiet, Eq, HI|rewrite set_buffer_reporter; exact Er]].
    apply (parse_partial 1 _ _ t frag m); try lia; try assumption.
    + rewrite Eb. exact Hcut.
    + rewrite E2, Hcut, Hlm. rewrite (proj2 (Z.ltb_lt _ _)); [reflexivity|]. unfold sz in Hlp at 1. lia.
    + blia.
Qed.

(** ** Logical records *)

Lemma RInv_set_resyncing o tail r : RInv o tail r -> RInv o tail (set_resyncing r false).
Proof. intros [? [? ?] ? ? ?]. constructor; auto. split; auto. Qed.

Lemma RInv_set_last o tail r x : RInv o tail r -> RInv o tail (set_last_record_offset r x).
Proof. intros [? [? ?] ? ? ?]. constructor; auto. split; auto. Qed.

Definition is_last (t : Z) (begin : bool) : Prop := t = if begin then kFullType else kLastType.

(** The last fragment of a record returns it. *)

Lemma turn_last (begin : bool) o tail r l acc : RInv o tail r ->
  in_fragmented_record l = negb begin -> (if begin then acc = [] else scratch l = acc) ->
  exists r' l', ReadRecord_turn (if begin then kFullType else kLastType) r l
    = (Return (Some (acc ++ fragment l)), r', l') /\ RInv o tail r' /\ reporter_ r' = reporter_ r.
Proof.
  intros HI Hfr Hacc. destruct (r_quiet _ _ _ HI) as [_ Hr]. unfold ReadRecord_turn. rewrite Hr, Hfr.
  destruct begin; cbn; rewrite ?Hacc; do 2 eexists; (split; [reflexivity|]);
    (split; [apply RInv_set_last, RInv_set_resyncing, HI|reflexivity]).
Qed.

(** A first or middle fragment is gathered. *)

Lemma turn_more (begin : bool) o tail r l acc : RInv o tail r ->
  in_fragmented_record l = negb begin -> (if begin then acc = [] else scratch l = acc) ->
  exists r' l', ReadRecord_turn (if begin then kFirstType else kMiddleType) r l
    = (Continue, r', l') /\ RInv o tail r' /\ reporter_ r' = reporter_ r /\
    in_fragmented_record l' = true /\ scratch l' = acc ++ fragment l.
Proof.
  intros HI Hfr Hacc. destruct (r_quiet _ _ _ HI) as [_ Hr]. unfold ReadRecord_turn. rewrite Hr, Hfr.
  destruct begin; cbn; rewrite ?Hacc; do 2 eexists; (split; [reflexivity|]);
    (split; [apply RInv_set_resyncing, HI|]); split; auto.
Qed.

Lemma turn_eof r l : quiet r -> exists r' l', ReadRecord_turn kEof r l = (Return None, r', l') /\
  reporter_ r' = reporter_ r.
Proof. intros [_ Hr]. unfold ReadRecord_turn. rewrite Hr. cbn. eauto. Qed.

Lemma loop_eof fuel r l r1 frag : (0 < fuel)%nat ->
  ReadPhysicalRecord r (fragment l) = Some (kEof, r1, frag) -> quiet r1 -> reporter_ r1 = reporter_ r ->
  exists r', ReadRecord_loop fuel r l = Some (None, r') /\ reporter_ r' = reporter_ r.
Proof.
  intros Hf E Hq Hr. destruct fuel as [|fuel]; [lia|]. cbn [ReadRecord_loop]. rewrite E.
  match goal with |- context [ReadRecord_turn kEof r1 ?l] =>
    destruct (turn_eof r1 l Hq) as (r2 & l2 & -> & Hr2) end.
  exists r2. split; [reflexivity|congruence].
Qed.

Lemma take_app_split {A} (a b : list A) n :
  take n (a ++ b) = if (length a <=? n)%nat then a ++ take (n - length a) b else take n a.
Proof.
  destruct (Nat.leb_spec (length a) n).
  - rewrite take_app, take_ge by lia. reflexivity.
  - apply take_app_le. lia.
Qed.

Lemma emitted_fits o (ptr : bytes) : 0 <= o <= kBlockSize ->
  let avail := kBlockSize - start_offset o - kHeaderSize in avail < sz ptr ->
  sz (take (Z.to_nat avail) ptr) = avail.
Proof.
  intros Ho avail Hm. pose proof (start_offset_range o Ho). unfold avail, sz in *.
  rewrite length_take. lia.
Qed.

Definition enough_fuel (o : Z) (ptr : bytes) (fuel : nat) : Prop :=
  (length ptr < fuel)%nat /\
  (0 < kBlockSize - start_offset o - kHeaderSize \/ (S (length ptr) < fuel)%nat).

(** Reading back what a record was emitted as, from a log cut at [n]. *)

Lemma read_emitted o begin ptr out o' : Emitted o begin ptr out o' ->
  forall n more r l acc fuel, RInv o (take n (out ++ more)) r -> enough_fuel o ptr fuel ->
  in_fragmented_record l = negb begin -> (if begin then acc = [] else scratch l = acc) ->
  if (length out <=? n)%nat
  then exists r', ReadRecord_loop fuel r l = Some (Some (acc ++ ptr), r') /\
         RInv o' (take (n - length out) more) r' /\ reporter_ r' = reporter_ r
  else exists r', ReadRecord_loop fuel r l = Some (None, r') /\ reporter_ r' = reporter_ r.
Proof.
  induction 1 as [o begin ptr Hfit|o begin ptr out o' avail Hm Hem IH];
    intros n more r l acc fuel HI [Hf1 Hf2] Hfr Hacc; pose proof (r_offset _ _ _ HI) as Ho;
    pose proof (start_offset_range o Ho) as Hso; (destruct fuel as [|fuel]; [lia|]).
  - set (t := if begin then kFullType else kLastType) in *.
    assert (Ht : is_record_type t) by (unfold t, is_record_type, kFullType, kLastType; destruct begin; lia).
    rewrite take_app_split in HI. destruct (Nat.leb_spec (length (trailer o ++ phys t ptr)) n) as [Hn|Hn].
    + rewrite <- app_assoc in HI. destruct (read_phys o r (fragment l) t ptr _ HI Ht) as (r1 & E & HI1 & Hr1);
        [lia|].
      cbn [ReadRecord_loop]. rewrite E.
      match goal with |- context [ReadRecord_turn t r1 ?l1] =>
        destruct (turn_last begin _ _ r1 l1 acc HI1 Hfr Hacc) as (r2 & l2 & Et & HI2 & Hr2) end.
      fold t in Et. rewrite Et. exists r2. split; [reflexivity|]. split; [exact HI2|congruence].
    + destruct (read_partial o r (fragment l) t ptr n HI Ht) as (r1 & E & Hq1 & Hr1); [lia|exact Hn|].
      eapply loop_eof; eauto. lia.
  - set (t := if begin then kFirstType else kMiddleType) in *.
    assert (Ht : is_record_type t) by (unfold t, is_record_type, kFirstType, kMiddleType; destruct begin; lia).
    pose proof (emitted_fits o ptr Ho Hm) as Hst. fold avail in Hst.
    set (frag := take (Z.to_nat avail) ptr) in *.
    assert (Hso' : start_offset o + (kHeaderSize + sz frag) = kBlockSize) by (rewrite Hst; unfold avail; lia).
    rewrite app_assoc, <- app_assoc, take_app_split in HI.
    destruct (Nat.leb_spec (length (trailer o ++ phys t frag)) n) as [Hn|Hn].
    + rewrite <- app_assoc in HI.
      destruct (read_phys o r (fragment l) t frag _ HI Ht) as (r1 & E & HI1 & Hr1); [lia|].
      cbn [ReadRecord_loop]. rewrite E. rewrite Hso' in HI1.
      match goal with |- context [ReadRecord_turn t r1 ?l1] =>
        destruct (turn_more begin _ _ r1 l1 acc HI1 Hfr Hacc) as (r2 & l2 & Et & HI2 & Hr2 & Hfr2 & Hs2) end.
      fold t in Et. rewrite Et. cbn [fragment] in Hs2.
      specialize (IH _ more r2 l2 (acc ++ frag) fuel HI2).
      assert (Hfuel : enough_fuel kBlockSize (drop (Z.to_nat avail) ptr) fuel).
      { split.
        - rewrite length_drop. unfold sz in Hm. fold avail in Hf2. destruct Hf2; lia.
        - left. unfold start_offset. rewrite Z.sub_diag. reflexivity. }
      specialize (IH Hfuel Hfr2 Hs2).
      assert (Hlen : (length (trailer o ++ phys t frag ++ out) <=? n)%nat
                     = (length out <=? n - length (trailer o ++ phys t frag))%nat).
      { rewrite !length_app in *. destruct (Nat.leb_spec (length (trailer o) + (length (phys t frag) + length out)) n);
          destruct (Nat.leb_spec (length out) (n - (length (trailer o) + length (phys t frag)))); lia. }
      rewrite Hlen. destruct (length out <=? n - length (trailer o ++ phys t frag))%nat.
      * destruct IH as (r' & -> & HI' & Hr'). exists r'. split.
        -- rewrite <- app_assoc. unfold frag. rewrite take_drop. reflexivity.
        -- split; [|congruence]. rewrite !length_app in *.
           replace (n - (length (trailer o) + (length (phys t frag) + length out)))%nat
             with (n - (length (trailer o) + length (phys t frag)) - length out)%nat by lia. exact HI'.
      * destruct IH as (r' & -> & Hr'). exists r'. split; [reflexivity|congruence].
    + assert (Hlen : (length (trailer o ++ phys t frag ++ out) <=? n)%nat = false)
        by (apply Nat.leb_gt; rewrite !length_app in *; lia).
      rewrite Hlen.
      destruct (read_partial o r (fragment l) t frag n HI Ht) as (r1 & E & Hq1 & Hr1); [lia|exact Hn|].
      eapply loop_eof; eauto. lia.
Qed.

(** The bytes of a sequence of records written from block offset [o]. *)

Inductive Logged : Z -> list bytes -> bytes -> Z -> Prop :=
| Logged_nil o : Logged o [] [] o
| Logged_cons o rec out o1 recs outs o2 :
    Emitted o true rec out o1 -> Logged o1 recs outs o2 ->
    Logged o (rec :: recs) (out ++ outs) o2.

Lemma Logged_app o recs1 out1 o1 recs2 out2 o2 :
  Logged o recs1 out1 o1 -> Logged o1 recs2 out2 o2 ->
  Logged o (recs1 ++ recs2) (out1 ++ out2) o2.
Proof.
  induction 1 as [o|o rec out o1 recs outs o1' He HL IH]; intros H; [exact H|].
  cbn [app]. rewrite <- app_assoc. econstructor; eauto.
Qed.

Lemma Emitted_det o begin ptr out o' : Emitted o begin ptr out o' ->
  forall out2 o2, Emitted o begin ptr out2 o2 -> out = out2 /\ o' = o2.
Proof.
  induction 1 as [? ? ? Hf|? ? ? ? ? av Hm Hem IH]; intros out2 o2 H2; inv H2.
  - auto.
  - subst avail. lia.
  - subst av. lia.
  - match goal with H : Emitted kBlockSize false _ _ _ |- _ => apply IH in H as [-> ->] end. auto.
Qed.

Lemma ReadRecord_quiet fuel r : quiet r -> 0 <= last_record_offset_ r ->
  ReadRecord fuel r = ReadRecord_loop fuel r (mkLocals [] false 0 []).
Proof.
  intros [Hq _] Hl. unfold ReadRecord. rewrite Hq, (proj2 (Z.ltb_ge _ 0)) by exact Hl. reflexivity.
Qed.

(** Offsets are 64-bit unsigned. *)

Lemma turn_last_offset t (r : Reader F) l x r' l' : ReadRecord_turn t r l = (x, r', l') ->
  0 <= last_record_offset_ r -> 0 <= prospective_record_offset l ->
  0 <= last_record_offset_ r' /\ 0 <= prospective_record_offset l'.
Proof.
  intros E H1 H2. unfold ReadRecord_turn, ReportCorruption, ReportDrop in E.
  assert (Hu : forall y, 0 <= u64 y) by (intros; apply u64_range).
  repeat (case_in E); inv E; cbn; auto.
Qed.

Lemma phys_last_offset fuel : forall (r : Reader F) res t r' f,
  ReadPhysicalRecord_loop fuel r res = Some (t, r', f) ->
  last_record_offset_ r' = last_record_offset_ r.
Proof.
  induction fuel as [|fuel IH]; intros r res t r' f E; [discriminate|].
  cbn [ReadPhysicalRecord_loop] in E. unfold ReportCorruption, ReportDrop in E. cbv zeta in E.
  destruct (sz (buffer_ r) <? kHeaderSize); [destruct (negb (eof_ r))|].
  - destruct (sf_Read (file_ r) kBlockSize) as [[st buf] f1]. destruct (negb (ok st)).
    + repeat (case_in E); inv E; reflexivity.
    + apply IH in E. rewrite E. destruct (_ <? kBlockSize); reflexivity.
  - inv E. reflexivity.
  - repeat (case_in E); inv E; reflexivity.
Qed.

Lemma loop_last_offset fuel : forall (r : Reader F) l x r', ReadRecord_loop fuel r l = Some (x, r') ->
  0 <= last_record_offset_ r -> 0 <= prospective_record_offset l -> 0 <= last_record_offset_ r'.
Proof.
  induction fuel as [|fuel IH]; intros r l x r' E H1 H2; [discriminate|]. cbn [ReadRecord_loop] in E.
  destruct (ReadPhysicalRecord r (fragment l)) as [[[t r1] f]|] eqn:Ep; [|discriminate].
  apply phys_last_offset in Ep.
  destruct (ReadRecord_turn t r1 _) as [[y r2] l2] eqn:Et.
  apply turn_last_offset in Et as [Ha Hb]; [|lia|exact H2].
  destruct y; [inv E; exact Ha|eauto].
Qed.

(** Draining a log: the records read one after the other, with nothing reported. *)

Inductive Drains (fuel : nat) : Reader F -> list bytes -> Prop :=
| Drains_end r r' : ReadRecord fuel r = Some (None, r') -> reporter_ r' = reporter_ r -> Drains fuel r []
| Drains_record r rec r' recs : ReadRecord fuel r = Some (Some rec, r') -> reporter_ r' = reporter_ r ->
    Drains fuel r' recs -> Drains fuel r (rec :: recs).

Lemma Drains_ReadAll fuel r recs : Drains fuel r recs -> forall n, (length recs < n)%nat ->
  exists r', ReadAll n fuel r = Some (recs, r') /\ reporter_ r' = reporter_ r.
Proof.
  induction 1 as [r r' E Hr|r rec r' recs E Hr _ IH]; intros n Hn; (destruct n as [|n]; [cbn in Hn; lia|]); cbn [ReadAll]; rewrite E.
  - eauto.
  - destruct (IH n ltac:(cbn in Hn; lia)) as (r2 & -> & Hr2). eexists. split; [reflexivity|congruence].
Qed.

(** A log cut at [n] bytes. *)

Lemma drains_logged o recs out o' : Logged o recs out o' -> forall n fuel r,
  RInv o (take n out) r -> 0 <= last_record_offset_ r ->
  Forall (fun rec => (S (length rec) < fuel)%nat) recs -> (0 < fuel)%nat ->
  forall recs1 out1 o1 recs2 out2, recs = recs1 ++ recs2 -> out = out1 ++ out2 ->
  Logged o recs1 out1 o1 -> (length out1 <= n)%nat ->
  exists j, Drains fuel r (recs1 ++ take j recs2) /\ ((length out <= n)%nat -> (length recs2 <= j)%nat).
Proof.
  induction 1 as [o|o rec out o1 recs outs o2 He HL IH];
    intros n fuel r HI Hlo Hfuel Hf0 recs1 out1 o3 recs2 out2 Er Eo HL1 Hn.
  - symmetry in Er. apply app_nil in Er as [-> ->]. rewrite take_nil in HI.
    destruct (read_short _ _ r [] HI) as (r1 & E & Hq1 & Hr1); [rewrite sz_nil; blia|].
    destruct (loop_eof fuel r (mkLocals [] false 0 []) r1 [] Hf0 E Hq1 Hr1) as (r' & E' & Hr').
    exists 0%nat. split; [|auto]. apply (Drains_end fuel r r'); [|exact Hr'].
    rewrite ReadRecord_quiet, E' by (apply HI || exact Hlo). reflexivity.
  - apply Forall_cons_iff in Hfuel as [Hfu Hfuel].
    assert (Hloop := read_emitted _ _ _ _ _ He n outs r (mkLocals [] false 0 []) [] fuel HI
      (conj (Nat.lt_succ_l _ _ Hfu) (or_intror Hfu)) eq_refl eq_refl).
    rewrite <- ReadRecord_quiet in Hloop by (apply HI || exact Hlo).
    destruct recs1 as [|rec1 recs1].
    + cbn [app] in Er. destruct (Nat.leb_spec (length out) n) as [Hc|Hc].
      * destruct Hloop as (r1 & E & HI1 & Hr1). assert (E0 := E).
        rewrite ReadRecord_quiet in E by (apply HI || exact Hlo).
        apply loop_last_offset in E; [|exact Hlo|cbn; lia].
        destruct (IH _ fuel r1 HI1 E Hfuel Hf0 [] [] o1 recs outs eq_refl eq_refl (Logged_nil _)
          ltac:(simpl; lia)) as (j & Hd & Hj).
        exists (S j). rewrite <- Er. cbn [app take]. split; [exact (Drains_record fuel r rec r1 _ E0 Hr1 Hd)|].
        rewrite length_app. cbn [length]. lia.
      * destruct Hloop as (r1 & E & Hr1). exists 0%nat. rewrite take_0.
        split; [exact (Drains_end fuel r r1 E Hr1)|]. rewrite length_app. lia.
    + cbn [app] in Er. injection Er as <- Er. inv HL1.
      match goal with H1 : Emitted _ _ _ out _, H2 : Emitted _ _ _ out0 _ |- _ =>
        destruct (Emitted_det _ _ _ _ _ H2 _ _ H1) as [-> ->] end.
      rewrite <- app_assoc in Eo. apply app_inv_head in Eo. rewrite length_app in Hn.
      rewrite (proj2 (Nat.leb_le _ _)) in Hloop by lia.
      destruct Hloop as (r1 & E & HI1 & Hr1). assert (E0 := E).
      rewrite ReadRecord_quiet in E by (apply HI || exact Hlo).
      apply loop_last_offset in E; [|exact Hlo|cbn; lia].
      edestruct (IH _ fuel r1 HI1 E Hfuel Hf0 recs1) as (j & Hd & Hj);
        [reflexivity|exact Eo|eassumption|lia|].
      exists j. split; [exact (Drains_record fuel r rec r1 _ E0 Hr1 Hd)|]. rewrite length_app. lia.
Qed.

End ReaderOk.

(** Writing a sequence of records; [None] if one of them failed. *)

Fixpoint AddRecords {F} `{WritableFile F} (w : Writer F) (recs : list bytes) : option (Writer F) :=
  match recs with
  | [] => Some w
  | rec :: recs =>
      match AddRecord w rec with
      | Some (s, w) => if ok s then AddRecords w recs else None
      | None => None
      end
  end.

Lemma AddRecords_ok {F} `{RW : ReliableWritable F} recs : forall w : Writer F, WOk w ->
  exists w' out, AddRecords w recs = Some w' /\ WOk w' /\
    wf_contents (dest_ w') = wf_contents (dest_ w) ++ out /\
    Logged (block_offset_ w) recs out (block_offset_ w').
Proof.
  induction recs as [|rec recs IH]; intros w HW.
  - exists w, []. rewrite app_nil_r. split; [reflexivity|]. split; [exact HW|]. split; [reflexivity|].
    constructor.
  - destruct (AddRecord_ok w rec HW) as (w1 & out1 & E1 & HW1 & Hc1 & He1).
    destruct (IH w1 HW1) as (w2 & out2 & E2 & HW2 & Hc2 & HL2).
    exists w2, (out1 ++ out2). cbn [AddRecords]. rewrite E1. cbn [ok OK]. split; [exact E2|].
    split; [exact HW2|]. split; [rewrite Hc2, Hc1, app_assoc; reflexivity|]. econstructor; eauto.
Qed.

Lemma WOk_new {F} `{RW : ReliableWritable F} f : wf_inv f -> WOk (Writer_new f).
Proof. intros Hf. constructor; [exact Hf|cbn; blia|reflexivity]. Qed.

Lemma RInv_new {F} `{RS : ReliableSequential F} (f : F) reports checksum tail :
  sf_inv f -> sf_rest f = tail -> RInv 0 tail (Reader_new f reports checksum 0).
Proof.
  intros Hf Hr. constructor; cbn [Reader_new file_ buffer_ eof_].
  - exact Hf.
  - split; reflexivity.
  - blia.
  - symmetry. exact Hr.
  - rewrite Z.sub_0_r, Z.mod_same by blia. reflexivity.
Qed.

(** A physical record at the front of [input], with a checksum that matches, and what follows it. *)

Definition checked (input : bytes) (t : Z) (frag rest : bytes) : Prop :=
  exists header, length header = 7%nat /\ input = header ++ frag ++ rest /\
    sz frag = (buf_at header 4 .& 255) .| ((buf_at header 5 .& 255) << 8) /\ t = type_of_char (nth 6 header Byte.x00) /\
    Unmask (DecodeFixed32 header) = crc_ref 0 (nth 6 header Byte.x00 :: frag).

(** One turn on a buffer that holds a header. *)

Lemma parse_any {F} `{SequentialFile F} k (r : Reader F) result :
  kHeaderSize <= sz (buffer_ r) ->
  exists t r' frag, ReadPhysicalRecord_loop (S k) r result = Some (t, r', frag) /\
    (checksum_ r = true -> t <> kEof -> t <> kBadRecord -> checked (buffer_ r) t frag (buffer_ r')).
Proof.
  intros Hs. cbn [ReadPhysicalRecord_loop]. rewrite (proj2 (Z.ltb_ge _ _) Hs). cbv zeta.
  set (h := buffer_ r) in *. set (len := (buf_at h 4 .& 255) .| ((buf_at h 5 .& 255) << 8)).
  assert (Hlen : 0 <= len) by (unfold len; rewrite !land_255; apply Z.lor_nonneg; split;
    [|apply Z.shiftl_nonneg]; apply Z.mod_pos_bound; lia).
  destruct (Z.ltb_spec (sz h) (kHeaderSize + len)) as [Hl|Hl].
  { destruct (negb _); do 3 eexists; (split; [reflexivity|congruence]). }
  destruct (_ && (len =? 0)); [do 3 eexists; split; [reflexivity|congruence]|].
  destruct (checksum_ r && _) eqn:Ec; [do 3 eexists; split; [reflexivity|congruence]|].
  destruct (_ <? initial_offset_ _); do 3 eexists; (split; [reflexivity|]); [congruence|].
  intros Hc _ _. rewrite Hc in Ec. cbn [andb] in Ec. apply negb_false_iff, Z.eqb_eq in Ec.
  unfold Value in Ec. rewrite Extend_ref in Ec by (split; [lia|reflexivity]).
  destruct h as [|c0 [|c1 [|c2 [|c3 [|c4 [|c5 [|c6 h']]]]]]];
    try (unfold sz in Hs; cbn [length] in Hs; blia). clear Hs.
  exists [c0; c1; c2; c3; c4; c5; c6]. cbn [buffer_ set_buffer].
  replace (Z.to_nat (kHeaderSize + len)) with (7 + Z.to_nat len)%nat by (unfold kHeaderSize; lia).
  change (drop (7 + Z.to_nat len) (c0 :: c1 :: c2 :: c3 :: c4 :: c5 :: c6 :: h')) with (drop (Z.to_nat len) h').
  change (drop 7 (c0 :: c1 :: c2 :: c3 :: c4 :: c5 :: c6 :: h')) with h'.
  split; [reflexivity|]. split; [cbn [app]; rewrite take_drop; reflexivity|]. split; [|split; [reflexivity|]].
  - change (sz (take (Z.to_nat len) h') = len). unfold sz, kHeaderSize in *. cbn [length] in Hl. rewrite length_take. lia.
  - change (Unmask (DecodeFixed32 [c0; c1; c2; c3; c4; c5; c6])) with (Unmask (DecodeFixed32 (c0 :: c1 :: c2 :: c3 :: c4 :: c5 :: c6 :: h'))). rewrite <- Ec.
    change (drop 6 (c0 :: c1 :: c2 :: c3 :: c4 :: c5 :: c6 :: h')) with (c6 :: h').
    replace (Z.to_nat (1 + len)) with (S (Z.to_nat len)) by lia. reflexivity.
Qed.

(** ** Properties *)

(** C11. The log survives a crash: records written to an empty file through the
    log writer, on any file that keeps what is appended, are read back in order
    by the log reader from the file cut at any length [n].  Every record whose
    AddRecord had completed within the first [n] bytes is returned, the
    records after it form a prefix of what was written, nothing is reported as
    corrupt, and an uncut file gives back all records. *)
Theorem log_roundtrip : forall FW (WF : WritableFile FW) (RW : ReliableWritable FW) (f0 : FW),
  wf_inv f0 -> wf_contents f0 = [] -> forall recs1 recs2, exists w1 w2,
  AddRecords (Writer_new f0) recs1 = Some w1 /\ AddRecords w1 recs2 = Some w2 /\
  forall FR (SF : SequentialFile FR) (RS : ReliableSequential FR) (f : FR) n reports checksum fuel,
  sf_inv f -> sf_rest f = take n (wf_contents (dest_ w2)) ->
  (length (wf_contents (dest_ w1)) <= n)%nat -> (0 < fuel)%nat ->
  Forall (fun rec => (S (length rec) < fuel)%nat) (recs1 ++ recs2) ->
  exists j r, ReadAll (S (length (recs1 ++ recs2))) fuel (Reader_new f reports checksum 0)
      = Some (recs1 ++ take j recs2, r) /\ reporter_ r = reports /\
    ((length (wf_contents (dest_ w2)) <= n)%nat -> (length recs2 <= j)%nat).
Proof.
  intros FW WF RW f0 Hf0 Hc0 recs1 recs2.
  destruct (AddRecords_ok recs1 (Writer_new f0) (WOk_new f0 Hf0)) as (w1 & out1 & E1 & HW1 & Hc1 & HL1).
  destruct (AddRecords_ok recs2 w1 HW1) as (w2 & out2 & E2 & HW2 & Hc2 & HL2).
  exists w1, w2. split; [exact E1|]. split; [exact E2|].
  intros FR SF RS f n reports checksum fuel Hf Hr Hn Hfuel0 Hfuel.
  cbn [Writer_new dest_ block_offset_] in *. rewrite Hc0, app_nil_l in Hc1. rewrite Hc1 in Hc2.
  rewrite Hc2 in *. rewrite Hc1 in *.
  destruct (drains_logged 0 (recs1 ++ recs2) (out1 ++ out2) (block_offset_ w2)
           (Logged_app _ _ _ _ _ _ _ HL1 HL2) n fuel (Reader_new f reports checksum 0)
           (RInv_new f reports checksum _ Hf Hr) ltac:(cbn; lia) Hfuel Hfuel0
           recs1 out1 (block_offset_ w1) recs2 out2) as (j & Hd & Hj); auto.
  exists j. destruct (Drains_ReadAll _ _ _ Hd (S (length (recs1 ++ recs2)))) as (r & E & Hrep).
  { rewrite !length_app, length_take. lia. }
  exists r. auto.
Qed.

Lemma log_roundtrip_witness : exists w1 w2,
  AddRecords (Writer_new FileState_new) [str "one"] = Some w1 /\ AddRecords w1 [str "two"] = Some w2 /\
  forall FR (SF : SequentialFile FR) (RS : ReliableSequential FR) (f : FR) n reports checksum fuel,
  sf_inv f -> sf_rest f = take n (wf_contents (dest_ w2)) ->
  (length (wf_contents (dest_ w1)) <= n)%nat -> (0 < fuel)%nat ->
  Forall (fun rec => (S (length rec) < fuel)%nat) ([str "one"] ++ [str "two"]) ->
  exists j r, ReadAll (S (length ([str "one"] ++ [str "two"]))) fuel (Reader_new f reports checksum 0)
      = Some ([str "one"] ++ take j [str "two"], r) /\ reporter_ r = reports /\
    ((length (wf_contents (dest_ w2)) <= n)%nat -> (length [str "two"] <= j)%nat).
Proof.
  apply (log_roundtrip FileState MemWritable MemReliableWritable FileState_new).
  - exact FSInv_new.
  - reflexivity.
Defined.

(** C39. Reading a physical record from any file, whatever it delivers or fails
    with, terminates; and with checksums on, a fragment that is returned as a
    record (and not as the end of the log or a bad record) is what stands, with the length
    and the type of its header, at the front of the buffered bytes, or of the block just
    read when fewer than a header were left; the checksum in this header is that of the
    type and the fragment, and the reader goes on behind it. *)
Theorem read_physical_total : forall F (SF : SequentialFile F) (r : Reader F) result,
  exists t r' frag, ReadPhysicalRecord r result = Some (t, r', frag) /\
    (checksum_ r = true -> t <> kEof -> t <> kBadRecord ->
     checked (if sz (buffer_ r) <? kHeaderSize then snd (fst (sf_Read (file_ r) kBlockSize)) else buffer_ r) t frag (buffer_ r')).
Proof.
  intros F SF r result. unfold ReadPhysicalRecord.
  destruct (Z.ltb_spec (sz (buffer_ r)) kHeaderSize) as [H|H]; [|apply parse_any, H].
  assert (Heof : forall input r1 k, sz (buffer_ r1) < kHeaderSize -> eof_ r1 = true ->
    exists t r' frag, ReadPhysicalRecord_loop (S k) r1 result = Some (t, r', frag) /\
      (checksum_ r1 = true -> t <> kEof -> t <> kBadRecord -> checked input t frag (buffer_ r'))).
  { intros input r1 k H1 H2. cbn [ReadPhysicalRecord_loop]. rewrite (proj2 (Z.ltb_lt _ _) H1), H2.
    do 3 eexists. split; [reflexivity|congruence]. }
  destruct (eof_ r) eqn:Ee; [apply Heof; assumption|].
  remember 2%nat as k eqn:Ek. cbn [ReadPhysicalRecord_loop].
  rewrite (proj2 (Z.ltb_lt _ _) H), Ee. cbn [negb].
  destruct (sf_Read (file_ r) kBlockSize) as [[st buf] f]. cbv zeta. cbn [fst snd].
  destruct (negb (ok st)); [do 3 eexists; split; [reflexivity|congruence]|]. subst k.
  cbn [set_file set_buffer buffer_]. destruct (Z.ltb_spec (sz buf) kBlockSize) as [Hb|Hb].
  - destruct (Z.le_gt_cases kHeaderSize (sz buf)) as [H'|H'].
    + match goal with |- context [ReadPhysicalRecord_loop 2 ?r1] => apply (parse_any 1 r1) end. exact H'.
    + match goal with |- context [ReadPhysicalRecord_loop 2 ?r1] => apply (Heof buf r1 1%nat) end;
        [exact H'|reflexivity].
  - match goal with |- context [ReadPhysicalRecord_loop 2 ?r1] => apply (parse_any 1 r1) end.
    cbn [buffer_ set_file set_buffer]. blia.
Qed.
