(* ===== verification/Filter.v ===== *)
(** * Filters (util/hash.cc, util/bloom.cc, table/filter_block.cc)

    The hash function, the Bloom filter policy, and the filter block that
    holds one filter per 2 KB of block offsets.  [FilterPolicy] is the interface
    of filter_policy.h as a type class and [FilterPolicyOk] its contract; the
    Bloom policy is shown to satisfy it, and the filter block is verified
    against the contract. *)

From S2P Require Import Prelude Coding DbFormat.
#[local] Open Scope Z_scope.
#[local] Open Scope ldb_scope.

(** ** util/hash.cc *)

Definition hash_m : Z := 0xc6a4a793.
Definition hash_r : Z := 24.

Fixpoint Hash_loop (data : bytes) (h : Z) : Z :=
  match data with
  | b0 :: b1 :: b2 :: b3 :: rest =>
      let w := DecodeFixed32 [b0; b1; b2; b3] in
      let h := u32 (h + w) in
      let h := u32 (h * hash_m) in
      let h := h .^ (h >> 16) in
      Hash_loop rest h
  | [] => h
  | b0 :: rest =>
      let h := match rest with
               | [b1; b2] => u32 (u32 (h + (b2z b2 << 16)) + (b2z b1 << 8))
               | [b1] => u32 (h + (b2z b1 << 8))
               | _ => h
               end in
      let h := u32 (h + b2z b0) in
      let h := u32 (h * hash_m) in
      h .^ (h >> hash_r)
  end.

Definition Hash (data : bytes) (seed : Z) : Z :=
  Hash_loop data (seed .^ u32 (sz data * hash_m)).

(** ** The filter policy interface *)

Class FilterPolicy := {
  fp_Name : bytes;
  fp_CreateFilter : list bytes -> bytes -> bytes;
  fp_KeyMayMatch : bytes -> bytes -> bool
}.

(** The contract of filter_policy.h: [CreateFilter] appends a filter to [dst],
    and a key that was in the list matches it. *)

Class FilterPolicyOk (P : FilterPolicy) := {
  fp_appends : forall keys dst, fp_CreateFilter keys dst = dst ++ fp_CreateFilter keys [];
  fp_matches : forall keys key, sz keys < 2 ^ 31 -> In key keys ->
    fp_KeyMayMatch key (fp_CreateFilter keys []) = true
}.

(** ** util/bloom.cc *)

Definition BloomHash (key : bytes) : Z := Hash key 0xbc9f1d34.

Record BloomFilterPolicy := mkBloom { bits_per_key_ : Z; k_ : Z }.

(** [bits_per_key * 0.69] is exact below the cap of 30 probes, where the
    product is not an integer. *)

Definition BloomFilterPolicy_new (bits_per_key : Z) : BloomFilterPolicy :=
  let k := bits_per_key * 69 / 100 in
  let k := if k <? 1 then 1 else k in
  let k := if 30 <? k then 30 else k in
  mkBloom (u64 bits_per_key) k.

Definition bloom_delta (h : Z) : Z := (h >> 17) .| u32 (h << 15).

Definition set_bit (array : bytes) (bitpos : Z) : bytes :=
  let i := Z.to_nat (bitpos / 8) in
  match array !! i with
  | Some b => <[i := z2b (b2z b .| (1 << (bitpos mod 8)))]> array
  | None => array
  end.

Fixpoint bloom_add (j : nat) (bits delta h : Z) (array : bytes) : bytes :=
  match j with
  | O => array
  | S j =>
      let bitpos := h mod bits in
      bloom_add j bits delta (u32 (h + delta)) (set_bit array bitpos)
  end.

Definition bloom_add_key (k bits : Z) (array : bytes) (key : bytes) : bytes :=
  let h := BloomHash key in
  bloom_add (Z.to_nat k) bits (bloom_delta h) h array.

Definition bloom_bytes (policy : BloomFilterPolicy) (n : Z) : Z :=
  let bits := u64 (n * bits_per_key_ policy) in
  let bits := if bits <? 64 then 64 else bits in
  u64 (bits + 7) / 8.

Definition Bloom_CreateFilter (policy : BloomFilterPolicy) (keys : list bytes) (dst : bytes) : bytes :=
  let bytes := bloom_bytes policy (sz keys) in
  let bits := bytes * 8 in
  dst ++ fold_left (bloom_add_key (k_ policy) bits) keys (replicate (Z.to_nat bytes) Byte.x00)
  ++ [z2b (k_ policy)].

Definition get_bit (array : bytes) (bitpos : Z) : bool :=
  negb (b2z (nth (Z.to_nat (bitpos / 8)) array Byte.x00) .& (1 << (bitpos mod 8)) =? 0).

Fixpoint bloom_probe (j : nat) (bits delta h : Z) (array : bytes) : bool :=
  match j with
  | O => true
  | S j =>
      let bitpos := h mod bits in
      if negb (get_bit array bitpos) then false
      else bloom_probe j bits delta (u32 (h + delta)) array
  end.

Definition Bloom_KeyMayMatch (key bloom_filter : bytes) : bool :=
  let len := sz bloom_filter in
  if len <? 2 then false
  else
    let bits := (len - 1) * 8 in
    let k := b2z (nth (Z.to_nat (len - 1)) bloom_filter Byte.x00) in
    if 30 <? k then true
    else
      let h := BloomHash key in
      bloom_probe (Z.to_nat k) bits (bloom_delta h) h bloom_filter.

Definition BloomPolicy (policy : BloomFilterPolicy) : FilterPolicy := {|
  fp_Name := str "leveldb.BuiltinBloomFilter2";
  fp_CreateFilter := Bloom_CreateFilter policy;
  fp_KeyMayMatch := Bloom_KeyMayMatch
|}.

Example bloom_small :
  let f := Bloom_CreateFilter (BloomFilterPolicy_new 10) [str "hello"; str "world"] [] in
  map (fun k => Bloom_KeyMayMatch k f) [str "hello"; str "world"; str "x"; str "foo"]
  = [true; true; false; false].
Proof. vm_compute. reflexivity. Qed.

Example hash_values : Hash [] 0xbc9f1d34 = 0xbc9f1d34 /\
  Hash [z2b 0x62] 0xbc9f1d34 = 0xef1345c4 /\
  Hash [z2b 0xc3; z2b 0x97] 0xbc9f1d34 = 0x5b663814 /\
  Hash [z2b 0xe2; z2b 0x99; z2b 0xa5] 0xbc9f1d34 = 0x323c078f /\
  Hash [z2b 0xe1; z2b 0x80; z2b 0xb9; z2b 0x32] 0xbc9f1d34 = 0xed21633a.
Proof. vm_compute. repeat split. Qed.

(** ** No false negatives *)

Lemma set_bit_length a p : length (set_bit a p) = length a.
Proof. unfold set_bit. destruct (a !! _); [apply length_insert|reflexivity]. Qed.

Lemma get_set_bit a p q : 0 <= p < sz a * 8 -> 0 <= q ->
  get_bit (set_bit a p) q = (p =? q) || get_bit a q.
Proof.
  intros Hp Hq. unfold get_bit, set_bit.
  assert (Hi : (Z.to_nat (p / 8) < length a)%nat).
  { assert (p / 8 < sz a) by (apply Z.div_lt_upper_bound; lia).
    assert (0 <= p / 8) by (apply Z.div_pos; lia). unfold sz in *. lia. }
  destruct (a !! Z.to_nat (p / 8)) as [b|] eqn:E; [|apply lookup_ge_None in E; lia].
  assert (Hb : nth (Z.to_nat (p / 8)) a Byte.x00 = b) by (apply nth_lookup_Some; exact E).
  pose proof (Z.div_mod p 8 ltac:(lia)). pose proof (Z.div_mod q 8 ltac:(lia)).
  pose proof (Z.mod_pos_bound p 8 ltac:(lia)). pose proof (Z.mod_pos_bound q 8 ltac:(lia)).
  assert (0 <= p / 8) by (apply Z.div_pos; lia). assert (0 <= q / 8) by (apply Z.div_pos; lia).
  assert (Hbit : forall x i, 0 <= i < 8 -> (x .& (1 << i) =? 0) = negb (Z.testbit x i)).
  { intros x i Hi'. destruct (Z.testbit x i) eqn:Ex; cbn [negb].
    - apply Z.eqb_neq. intros E0. apply (f_equal (fun z => Z.testbit z i)) in E0.
      rewrite Z.land_spec, Z.bits_0, Ex, Z.shiftl_spec, Z.sub_diag in E0 by lia. discriminate.
    - apply Z.eqb_eq. apply Z.bits_inj'. intros j Hj. rewrite Z.land_spec, Z.bits_0, Z.shiftl_spec by lia.
      destruct (Z.eq_dec j i) as [->|]; [rewrite Ex; reflexivity|].
      destruct (Z.ltb_spec j i); [rewrite (Z.testbit_neg_r 1) by lia; apply andb_false_r|].
      change 1 with (2 ^ 0). rewrite Z.pow2_bits_false by lia. apply andb_false_r. }
  rewrite !Hbit, !negb_involutive by lia.
  rewrite nth_lookup. destruct (decide (Z.to_nat (p / 8) = Z.to_nat (q / 8))) as [Eq|Nq].
  - rewrite <- Eq at 1. rewrite list_lookup_insert_eq by exact Hi. cbn [from_option id].
    rewrite b2z_z2b. unfold u8. change 256 with (2 ^ 8). rewrite Z.mod_pow2_bits_low by lia.
    rewrite Z.lor_spec, Z.shiftl_spec by lia. rewrite <- Eq, Hb, orb_comm. f_equal.
    destruct (Z.eqb_spec p q) as [->|Npq]; [rewrite Z.sub_diag; reflexivity|].
    assert (p mod 8 <> q mod 8) by lia.
    destruct (Z.ltb_spec (q mod 8) (p mod 8)); [apply Z.testbit_neg_r; lia|].
    change 1 with (2 ^ 0). apply Z.pow2_bits_false. lia.
  - rewrite list_lookup_insert_ne by exact Nq. rewrite <- nth_lookup.
    rewrite (proj2 (Z.eqb_neq p q)) by (intros ->; congruence). reflexivity.
Qed.

Lemma bloom_add_length j : forall bits delta h a, length (bloom_add j bits delta h a) = length a.
Proof.
  induction j as [|j IH]; intros bits delta h a; [reflexivity|]. cbn [bloom_add].
  rewrite IH. apply set_bit_length.
Qed.

Section Probes.
Context (bits : Z) (Hbits : 0 < bits).

Lemma bloom_add_mono j : forall delta h a q, sz a * 8 = bits -> 0 <= q ->
  get_bit a q = true -> get_bit (bloom_add j bits delta h a) q = true.
Proof.
  induction j as [|j IH]; intros delta h a q Ha Hq Hg; [exact Hg|]. cbn [bloom_add].
  apply IH; [unfold sz in *; rewrite set_bit_length; exact Ha|exact Hq|].
  rewrite get_set_bit, Hg by (rewrite ?Ha; try apply Z.mod_pos_bound; lia). apply orb_true_r.
Qed.

Lemma bloom_add_probe j : forall delta h a b, sz a * 8 = bits ->
  (forall q, 0 <= q -> get_bit (bloom_add j bits delta h a) q = true -> get_bit b q = true) ->
  bloom_probe j bits delta h b = true.
Proof.
  induction j as [|j IH]; intros delta h a b Ha Hb; [reflexivity|]. cbn [bloom_probe].
  pose proof (Z.mod_pos_bound h bits Hbits) as Hm. cbn [bloom_add] in Hb.
  assert (Ha' : sz (set_bit a (h mod bits)) * 8 = bits) by (unfold sz in *; rewrite set_bit_length; exact Ha).
  rewrite Hb.
  - cbn [negb]. apply (IH delta _ (set_bit a (h mod bits))); assumption.
  - lia.
  - apply bloom_add_mono; [exact Ha'|lia|].
    rewrite get_set_bit, Z.eqb_refl by lia. reflexivity.
Qed.

Lemma bloom_keys_mono k keys : forall a q, sz a * 8 = bits -> 0 <= q -> get_bit a q = true ->
  get_bit (fold_left (bloom_add_key k bits) keys a) q = true.
Proof.
  induction keys as [|key keys IH]; intros a q Ha Hq Hg; [exact Hg|]. cbn [fold_left].
  apply IH; [unfold sz, bloom_add_key in *; rewrite bloom_add_length; exact Ha|exact Hq|].
  apply bloom_add_mono; assumption.
Qed.

Lemma bloom_keys_probe k keys key : forall a b, sz a * 8 = bits -> In key keys ->
  (forall q, 0 <= q -> get_bit (fold_left (bloom_add_key k bits) keys a) q = true -> get_bit b q = true) ->
  bloom_probe (Z.to_nat k) bits (bloom_delta (BloomHash key)) (BloomHash key) b = true.
Proof.
  induction keys as [|key' keys IH]; intros a b Ha Hin Hb; [contradiction|].
  assert (Ha' : sz (bloom_add_key k bits a key') * 8 = bits)
    by (unfold sz, bloom_add_key in *; rewrite bloom_add_length; exact Ha).
  cbn [fold_left] in Hb. destruct Hin as [->|Hin].
  - apply (bloom_add_probe _ _ _ a); [exact Ha|]. intros q Hq Hg. apply Hb; [exact Hq|].
    apply bloom_keys_mono; assumption.
  - apply (IH (bloom_add_key k bits a key')); assumption.
Qed.

End Probes.

Lemma fold_bloom_length k bits keys : forall a,
  length (fold_left (bloom_add_key k bits) keys a) = length a.
Proof.
  induction keys as [|key keys IH]; intros a; [reflexivity|]. cbn [fold_left]. rewrite IH.
  apply bloom_add_length.
Qed.

Lemma BloomFilterPolicy_k bpk : 1 <= k_ (BloomFilterPolicy_new bpk) <= 30.
Proof. unfold BloomFilterPolicy_new. cbn [k_]. zcases; lia. Qed.

(** The size does not wrap for fewer than 2^31 keys of at most 2^31 bits. *)

Lemma bloom_bytes_pos bpk n : 0 <= bpk < 2 ^ 31 -> 0 <= n < 2 ^ 31 ->
  8 <= bloom_bytes (BloomFilterPolicy_new bpk) n.
Proof.
  intros Hb Hn. unfold bloom_bytes, BloomFilterPolicy_new. cbn [bits_per_key_]. cbv zeta.
  rewrite (u64_small bpk), (u64_small (n * bpk)) by nia.
  set (b := if _ <? 64 then 64 else _). assert (Hb' : 64 <= b < 2 ^ 63) by (unfold b; zcases; nia).
  rewrite u64_small by lia. apply Z.div_le_lower_bound; lia.
Qed.

#[export] Instance BloomPolicyOk bpk (H : 0 <= bpk < 2 ^ 31) :
  FilterPolicyOk (BloomPolicy (BloomFilterPolicy_new bpk)).
Proof.
  constructor; [reflexivity|]. intros keys key Hn Hin.
  cbn [fp_KeyMayMatch fp_CreateFilter BloomPolicy]. unfold Bloom_CreateFilter. cbv zeta.
  pose proof (bloom_bytes_pos bpk (sz keys) H (conj (sz_nonneg _) Hn)) as Hby.
  set (by_ := bloom_bytes _ _) in *. set (k := k_ _).
  set (arr := fold_left _ keys _). rewrite app_nil_l.
  assert (Hlen : sz arr = by_).
  { unfold sz, arr. rewrite fold_bloom_length, length_replicate. lia. }
  pose proof (BloomFilterPolicy_k bpk) as Hk. fold k in Hk.
  unfold Bloom_KeyMayMatch. rewrite sz_app, Hlen. change (sz [z2b k]) with 1. cbv zeta.
  rewrite (proj2 (Z.ltb_ge _ _)) by lia. replace (by_ + 1 - 1) with by_ by lia.
  assert (Hnth : b2z (nth (Z.to_nat by_) (arr ++ [z2b k]) Byte.x00) = k).
  { rewrite <- Hlen, app_nth2 by (rewrite sz_to_nat; lia).
    rewrite sz_to_nat, Nat.sub_diag. cbn [nth]. rewrite b2z_z2b. apply u8_small. lia. }
  rewrite Hnth. rewrite (proj2 (Z.ltb_ge _ _)) by lia.
  apply (bloom_keys_probe (by_ * 8) ltac:(lia) k keys key (replicate (Z.to_nat by_) Byte.x00)).
  - unfold sz. rewrite length_replicate. lia.
  - exact Hin.
  - intros q Hq Hg. fold arr in Hg. unfold get_bit in *.
    destruct (Nat.lt_ge_cases (Z.to_nat (q / 8)) (length arr)).
    + rewrite app_nth1 by assumption. exact Hg.
    + rewrite nth_overflow in Hg by assumption. discriminate.
Qed.

(** ** table/filter_block.cc *)

Definition kFilterBaseLg : Z := 11.
Definition kFilterBase : Z := 1 << kFilterBaseLg.

Section FilterBlock.
Context (P : FilterPolicy).

(** Keys are kept flattened, with the offset at which each of them starts. *)

Record FilterBlockBuilder := mkFBB {
  fb_keys : bytes;
  fb_start : list Z;
  fb_result : bytes;
  fb_filter_offsets : list Z
}.

Definition FilterBlockBuilder_new : FilterBlockBuilder := mkFBB [] [] [] [].

(** [tmp_keys_]: the keys between consecutive starts. *)

Fixpoint FBB_tmp_keys (keys : bytes) (start : list Z) : list bytes :=
  match start with
  | s :: ((e :: _) as rest) =>
      take (Z.to_nat (e - s)) (drop (Z.to_nat s) keys) :: FBB_tmp_keys keys rest
  | _ => []
  end.

Definition FBB_GenerateFilter (b : FilterBlockBuilder) : FilterBlockBuilder :=
  let num_keys := sz (fb_start b) in
  if num_keys =? 0 then
    mkFBB (fb_keys b) (fb_start b) (fb_result b)
      (fb_filter_offsets b ++ [u32 (sz (fb_result b))])
  else
    let start := fb_start b ++ [sz (fb_keys b)] in
    let tmp_keys := FBB_tmp_keys (fb_keys b) start in
    let filter_offsets := fb_filter_offsets b ++ [u32 (sz (fb_result b))] in
    mkFBB [] [] (fp_CreateFilter tmp_keys (fb_result b)) filter_offsets.

Fixpoint FBB_StartBlock_loop (fuel : nat) (b : FilterBlockBuilder) (filter_index : Z)
  : FilterBlockBuilder :=
  match fuel with
  | O => b
  | S fuel =>
      if sz (fb_filter_offsets b) <? filter_index
      then FBB_StartBlock_loop fuel (FBB_GenerateFilter b) filter_index else b
  end.

(** Every turn adds an offset, so [filter_index] turns are enough. *)

Definition FBB_StartBlock (b : FilterBlockBuilder) (block_offset : Z) : FilterBlockBuilder :=
  let filter_index := block_offset / kFilterBase in
  FBB_StartBlock_loop (Z.to_nat filter_index) b filter_index.

Definition FBB_AddKey (b : FilterBlockBuilder) (key : bytes) : FilterBlockBuilder :=
  mkFBB (fb_keys b ++ key) (fb_start b ++ [sz (fb_keys b)]) (fb_result b) (fb_filter_offsets b).

Definition FBB_Finish (b : FilterBlockBuilder) : FilterBlockBuilder * bytes :=
  let b := if negb (sz (fb_start b) =? 0) then FBB_GenerateFilter b else b in
  let array_offset := u32 (sz (fb_result b)) in
  let result := fold_left PutFixed32 (fb_filter_offsets b) (fb_result b) in
  let result := PutFixed32 result array_offset in
  let result := result ++ [z2b kFilterBaseLg] in
  (mkFBB (fb_keys b) (fb_start b) result (fb_filter_offsets b), result).

(** [data_] is the contents, [offset_] a position in it ([None] for
    [nullptr]). *)

Record FilterBlockReader := mkFBR {
  fr_data : option bytes;
  fr_offset : Z;
  fr_num : Z;
  fr_base_lg : Z
}.

Definition FilterBlockReader_new (contents : bytes) : FilterBlockReader :=
  let n := sz contents in
  if n <? 5 then mkFBR None 0 0 0
  else
    let base_lg := b2z (nth (Z.to_nat (n - 1)) contents Byte.x00) in
    let last_word := DecodeFixed32 (drop (Z.to_nat (n - 5)) contents) in
    if n - 5 <? last_word then mkFBR None 0 0 base_lg
    else mkFBR (Some contents) last_word ((n - 5 - last_word) / 4) base_lg.

Definition FBR_KeyMayMatch (r : FilterBlockReader) (block_offset : Z) (key : bytes) : bool :=
  let index := block_offset >> fr_base_lg r in
  match fr_data r with
  | Some data =>
      if index <? fr_num r then
        let start := DecodeFixed32 (drop (Z.to_nat (fr_offset r + index * 4)) data) in
        let limit := DecodeFixed32 (drop (Z.to_nat (fr_offset r + index * 4 + 4)) data) in
        if (start <=? limit) && (limit <=? fr_offset r) then
          fp_KeyMayMatch key (take (Z.to_nat (limit - start)) (drop (Z.to_nat start) data))
        else if start =? limit then false
        else true
      else true
  | None => true
  end.

(** One data block: its offset in the file and the keys added after it. *)

Definition FBB_block (b : FilterBlockBuilder) (blk : Z * list bytes) : FilterBlockBuilder :=
  fold_left FBB_AddKey (snd blk) (FBB_StartBlock b (fst blk)).

Definition filter_of (keys : list bytes) : bytes :=
  match keys with [] => [] | _ => fp_CreateFilter keys [] end.

Definition prefix_sums {A} (size : A -> Z) : Z -> list A -> list Z :=
  fix go s l := match l with [] => [] | x :: l => s :: go (s + size x) l end.

(** The builder holds the filters of [gens] and the keys [pend]. *)

Record FBRep (b : FilterBlockBuilder) (gens : list (list bytes)) (pend : list bytes) : Prop := {
  fb_rep_keys : fb_keys b = concat pend;
  fb_rep_start : fb_start b = prefix_sums sz 0 pend;
  fb_rep_result : fb_result b = concat (map filter_of gens);
  fb_rep_offsets : fb_filter_offsets b
    = map u32 (prefix_sums (fun ks => sz (filter_of ks)) 0 gens)
}.

Lemma prefix_sums_app {A} (size : A -> Z) l1 : forall s l2,
  prefix_sums size s (l1 ++ l2)
  = prefix_sums size s l1 ++ prefix_sums size (fold_left (fun a x => a + size x) l1 s) l2.
Proof. induction l1 as [|x l1 IH]; intros s l2; [reflexivity|]. simpl. rewrite IH. reflexivity. Qed.

Lemma prefix_sums_length {A} (size : A -> Z) l : forall s, length (prefix_sums size s l) = length l.
Proof. induction l as [|x l IH]; intros s; simpl; [reflexivity|]. rewrite IH. reflexivity. Qed.

Lemma fold_size {A} (f : A -> bytes) l : forall s,
  fold_left (fun a x => a + sz (f x)) l s = s + sz (concat (map f l)).
Proof.
  induction l as [|x l IH]; intros s; simpl; [rewrite sz_nil; lia|]. rewrite IH, sz_app. lia.
Qed.

Lemma fold_size_id (l : list bytes) s : fold_left (fun a x => a + sz x) l s = s + sz (concat l).
Proof. rewrite (fold_size (fun x => x)), map_id. reflexivity. Qed.

Lemma tmp_keys_spec pend : forall pre,
  FBB_tmp_keys (concat (pre ++ pend))
    (prefix_sums sz (sz (concat pre)) pend ++ [sz (concat (pre ++ pend))]) = pend.
Proof.
  induction pend as [|x pend IH]; intros pre; [reflexivity|].
  assert (Hpre : concat (pre ++ x :: pend) = concat pre ++ x ++ concat pend)
    by (rewrite concat_app; reflexivity).
  specialize (IH (pre ++ [x])). rewrite <- app_assoc in IH. cbn [app] in IH.
  assert (Hs : sz (concat (pre ++ [x])) = sz (concat pre) + sz x)
    by (rewrite concat_app, sz_app; cbn [concat]; rewrite app_nil_r; reflexivity).
  rewrite Hs in IH.
  assert (Hhead : take (Z.to_nat (sz (concat pre) + sz x - sz (concat pre)))
                    (drop (Z.to_nat (sz (concat pre))) (concat (pre ++ x :: pend))) = x).
  { replace (sz (concat pre) + sz x - sz (concat pre)) with (sz x) by lia.
    rewrite Hpre, drop_sz_app. apply take_sz_app. }
  destruct pend as [|y pend].
  - cbn [prefix_sums app FBB_tmp_keys]. rewrite Hs, Hhead. reflexivity.
  - cbn [prefix_sums app FBB_tmp_keys] in *. rewrite Hhead. f_equal. exact IH.
Qed.

Context {POK : FilterPolicyOk P}.

Lemma GenerateFilter_rep b gens pend : FBRep b gens pend ->
  FBRep (FBB_GenerateFilter b) (gens ++ [pend]) [].
Proof.
  intros [Hk Hs Hr Ho]. unfold FBB_GenerateFilter. cbv zeta.
  assert (Hoff : fb_filter_offsets b ++ [u32 (sz (fb_result b))]
    = map u32 (prefix_sums (fun ks => sz (filter_of ks)) 0 (gens ++ [pend]))).
  { rewrite prefix_sums_app, map_app, Ho, Hr, fold_size. reflexivity. }
  assert (Hlen : sz (fb_start b) = sz pend) by (unfold sz; rewrite Hs, prefix_sums_length; reflexivity).
  destruct pend as [|x pend].
  - rewrite Hlen. cbn [Z.eqb]. change (sz [] =? 0) with true. cbv iota.
    constructor; cbn; [exact Hk|exact Hs| |exact Hoff].
    rewrite map_app, concat_app, Hr. cbn. rewrite !app_nil_r. reflexivity.
  - rewrite Hlen, (proj2 (Z.eqb_neq _ _)) by (rewrite sz_cons; pose proof (sz_nonneg pend); lia).
    constructor; cbn [fb_keys fb_start fb_result fb_filter_offsets]; [reflexivity|reflexivity| |exact Hoff].
    rewrite Hk, Hs. pose proof (tmp_keys_spec (x :: pend) []) as Ht. cbn [app concat] in Ht.
    rewrite sz_nil in Ht. cbn [concat]. rewrite Ht, fp_appends, Hr, map_app, concat_app.
    cbn [map concat filter_of]. rewrite app_nil_r. reflexivity.
Qed.

Lemma AddKey_rep b gens pend key : FBRep b gens pend -> FBRep (FBB_AddKey b key) gens (pend ++ [key]).
Proof.
  intros [Hk Hs Hr Ho]. constructor; cbn; try assumption.
  - rewrite Hk, concat_app. cbn. rewrite app_nil_r. reflexivity.
  - rewrite Hs, Hk, prefix_sums_app, fold_size_id. reflexivity.
Qed.

Lemma AddKeys_rep keys : forall b gens pend, FBRep b gens pend ->
  FBRep (fold_left FBB_AddKey keys b) gens (pend ++ keys).
Proof.
  induction keys as [|k keys IH]; intros b gens pend H; [rewrite app_nil_r; exact H|].
  cbn [fold_left]. replace (pend ++ k :: keys) with ((pend ++ [k]) ++ keys) by (rewrite <- app_assoc; reflexivity).
  apply IH, AddKey_rep, H.
Qed.

Lemma FBRep_offsets b gens pend : FBRep b gens pend -> sz (fb_filter_offsets b) = sz gens.
Proof. intros [_ _ _ Ho]. unfold sz. rewrite Ho, length_map, prefix_sums_length. reflexivity. Qed.

(** The filters [StartBlock] generates before index [k]: the pending keys go
    into the first of them. *)

Lemma StartBlock_loop_rep fuel : forall b gens pend k, FBRep b gens pend ->
  sz gens <= k -> (Z.to_nat (k - sz gens) <= fuel)%nat ->
  exists gens' pend', FBRep (FBB_StartBlock_loop fuel b k) gens' pend' /\ sz gens' = k /\
    gens' ++ [pend'] = gens ++ [pend] ++ replicate (Z.to_nat (k - sz gens)) [].
Proof.
  induction fuel as [|fuel IH]; intros b gens pend k HR Hle Hf.
  - exists gens, pend. split; [exact HR|]. split; [lia|].
    replace (Z.to_nat (k - sz gens)) with 0%nat by lia. reflexivity.
  - cbn [FBB_StartBlock_loop]. rewrite (FBRep_offsets _ _ _ HR).
    destruct (Z.ltb_spec (sz gens) k) as [Hlt|Hge].
    + assert (Hsz : sz (gens ++ [pend]) = sz gens + 1) by (rewrite sz_app; reflexivity).
      destruct (IH _ (gens ++ [pend]) [] k (GenerateFilter_rep _ _ _ HR)) as (g & p & H1 & H2 & H3);
        [lia|lia|].
      exists g, p. split; [exact H1|]. split; [exact H2|]. rewrite H3, <- !app_assoc. do 2 f_equal.
      rewrite Hsz. replace (Z.to_nat (k - sz gens)) with (S (Z.to_nat (k - (sz gens + 1)))) by lia.
      reflexivity.
    + exists gens, pend. split; [exact HR|]. split; [lia|].
      replace (Z.to_nat (k - sz gens)) with 0%nat by lia. reflexivity.
Qed.

Definition in_filter (fs : list (list bytes)) (off : Z) (key : bytes) : Prop :=
  exists ks, fs !! Z.to_nat (off / kFilterBase) = Some ks /\ In key ks.

Lemma block_rep b gens pend blk : FBRep b gens pend -> 0 <= fst blk ->
  sz gens <= fst blk / kFilterBase ->
  exists gens' pend', FBRep (FBB_block b blk) gens' pend' /\ sz gens' = fst blk / kFilterBase /\
    (forall off key, in_filter (gens ++ [pend]) off key -> in_filter (gens' ++ [pend']) off key) /\
    (forall key, In key (snd blk) -> in_filter (gens' ++ [pend']) (fst blk) key) /\
    sz (concat (gens' ++ [pend'])) = sz (concat (gens ++ [pend])) + sz (snd blk).
Proof.
  intros HR H0 Hle. unfold FBB_block, FBB_StartBlock. set (k := fst blk / kFilterBase) in *.
  destruct (StartBlock_loop_rep (Z.to_nat k) b gens pend k HR Hle) as (g & p & HR1 & Hsz & Heq).
  { pose proof (sz_nonneg gens). lia. }
  exists g, (p ++ snd blk). split; [apply AddKeys_rep, HR1|]. split; [exact Hsz|].
  assert (Hgrow : forall off key, in_filter (g ++ [p]) off key -> in_filter (g ++ [p ++ snd blk]) off key).
  { intros off key (ks & Hl & Hin). unfold in_filter.
    destruct (lookup_app_Some g [p] (Z.to_nat (off / kFilterBase)) ks) as [Hd _].
    destruct (Hd Hl) as [Hg|[Hge Hp]].
    - exists ks. split; [apply lookup_app_l_Some; exact Hg|exact Hin].
    - apply list_lookup_singleton_Some in Hp as [Hz <-]. exists (p ++ snd blk). split.
      + rewrite lookup_app_r by exact Hge. rewrite Hz. reflexivity.
      + apply in_app_iff. left. exact Hin. }
  split; [|split].
  - intros off key (ks & Hl & Hin). apply Hgrow. exists ks. split; [|exact Hin].
    rewrite Heq, app_assoc. apply lookup_app_l_Some. exact Hl.
  - intros key Hin. exists (p ++ snd blk). split; [|apply in_app_iff; right; exact Hin].
    fold k. rewrite lookup_app_r by (unfold sz in Hsz; lia).
    replace (Z.to_nat k - length g)%nat with 0%nat by (unfold sz in Hsz; lia). reflexivity.
  - assert (Hc : concat (g ++ [p]) = concat (gens ++ [pend])).
    { rewrite Heq, app_assoc, concat_app.
      replace (concat (replicate (Z.to_nat (k - sz gens)) [])) with (@nil bytes);
        [apply app_nil_r|]. generalize (Z.to_nat (k - sz gens)). intros m.
      induction m as [|m IHm]; [reflexivity|exact IHm]. }
    rewrite <- Hc, !concat_app, !sz_app. cbn [concat]. rewrite !app_nil_r, sz_app. lia.
Qed.

Lemma blocks_rep blks : forall b gens pend, FBRep b gens pend ->
  StronglySorted (fun x y => fst x <= fst y) blks -> Forall (fun blk => 0 <= fst blk) blks ->
  Forall (fun blk => sz gens <= fst blk / kFilterBase) blks ->
  exists gens' pend', FBRep (fold_left FBB_block blks b) gens' pend' /\
    (forall off key, in_filter (gens ++ [pend]) off key -> in_filter (gens' ++ [pend']) off key) /\
    (forall blk key, In blk blks -> In key (snd blk) -> in_filter (gens' ++ [pend']) (fst blk) key) /\
    sz (concat (gens' ++ [pend'])) = sz (concat (gens ++ [pend])) + sz (concat (map snd blks)).
Proof.
  induction blks as [|blk blks IH]; intros b gens pend HR HS H0 Hle.
  - exists gens, pend. split; [exact HR|]. split; [auto|]. split; [contradiction|].
    cbn. rewrite sz_nil. lia.
  - apply StronglySorted_inv in HS as [HS HF]. apply Forall_cons_iff in H0 as [H0 H0s], Hle as [Hle _].
    destruct (block_rep b gens pend blk HR H0 Hle) as (g1 & p1 & HR1 & Hs1 & Hk1 & Hn1 & Hc1).
    destruct (IH _ g1 p1 HR1 HS H0s) as (g2 & p2 & HR2 & Hk2 & Hn2 & Hc2).
    { rewrite Hs1. eapply List.Forall_impl; [|exact HF]. cbn. intros x Hx.
      apply Z.div_le_mono; [reflexivity|exact Hx]. }
    exists g2, p2. split; [exact HR2|]. split; [auto|]. split.
    + intros blk' key [<-|Hin] Hkey; [apply Hk2, Hn1, Hkey|eauto].
    + cbn [map concat]. rewrite Hc2, Hc1, sz_app. lia.
Qed.

Lemma prefix_sums_lookup {A} (f : A -> bytes) G : forall s i, (i <= length G)%nat ->
  (prefix_sums (fun x => sz (f x)) s G ++ [s + sz (concat (map f G))]) !! i
  = Some (s + sz (concat (map f (take i G)))).
Proof.
  induction G as [|x G IH]; intros s i Hi; cbn [length] in Hi.
  - replace i with 0%nat by lia. reflexivity.
  - destruct i as [|i]; [cbn; rewrite sz_nil, Z.add_0_r; reflexivity|].
    cbn [prefix_sums app map concat lookup list_lookup take firstn].
    rewrite sz_app, !Z.add_assoc. rewrite sz_app, Z.add_assoc. apply IH. lia.
Qed.

(** The contents of a finished filter block with the filters [G]. *)

Definition filter_contents (G : list (list bytes)) : bytes :=
  concat (map filter_of G)
  ++ concat (map EncodeFixed32 (prefix_sums (fun ks => sz (filter_of ks)) 0 G
                                ++ [0 + sz (concat (map filter_of G))]))
  ++ [z2b kFilterBaseLg].

Lemma Finish_contents b gens pend : FBRep b gens pend ->
  snd (FBB_Finish b) = filter_contents (match pend with [] => gens | _ => gens ++ [pend] end).
Proof.
  intros HR.
  assert (Hgo : forall b G p, FBRep b G p ->
    PutFixed32 (fold_left PutFixed32 (fb_filter_offsets b) (fb_result b)) (u32 (sz (fb_result b)))
      ++ [z2b kFilterBaseLg] = filter_contents G).
  { intros b' G p [_ _ Hr Ho]. unfold filter_contents, PutFixed32.
    rewrite fold_PutFixed32, Ho, Hr, map_map, map_app, concat_app, <- !app_assoc.
    cbn [map concat]. rewrite app_nil_r, Z.add_0_l, EncodeFixed32_u32. do 2 f_equal.
    f_equal. apply map_ext. intros x. apply EncodeFixed32_u32. }
  unfold FBB_Finish. cbv zeta. cbn [snd].
  assert (Hlen : sz (fb_start b) = sz pend)
    by (unfold sz; rewrite (fb_rep_start _ _ _ HR), prefix_sums_length; reflexivity).
  rewrite Hlen. destruct pend as [|x pend].
  - exact (Hgo b gens [] HR).
  - rewrite (proj2 (Z.eqb_neq _ _)) by (rewrite sz_cons; pose proof (sz_nonneg pend); lia).
    exact (Hgo _ _ _ (GenerateFilter_rep _ _ _ HR)).
Qed.

Lemma reader_fields G : sz (filter_contents G) < 2 ^ 32 ->
  FilterBlockReader_new (filter_contents G)
  = mkFBR (Some (filter_contents G)) (sz (concat (map filter_of G))) (sz G) kFilterBaseLg.
Proof.
  intros Hb. unfold FilterBlockReader_new.
  set (R := concat (map filter_of G)). set (offs := prefix_sums (fun ks => sz (filter_of ks)) 0 G).
  assert (E : filter_contents G = R ++ concat (map EncodeFixed32 offs) ++ EncodeFixed32 (sz R)
                                  ++ [z2b kFilterBaseLg]).
  { unfold filter_contents. fold R offs. rewrite map_app, concat_app, <- !app_assoc. cbn [map concat].
    rewrite app_nil_r, Z.add_0_l. reflexivity. }
  assert (Hlo : sz (concat (map EncodeFixed32 offs)) = 4 * sz G).
  { assert (Hl : length offs = length G) by apply prefix_sums_length. clearbody offs.
    unfold sz. rewrite length_fixed32s, Hl. lia. }
  assert (Hn : sz (filter_contents G) = sz R + 4 * sz G + 5).
  { rewrite E, !sz_app, Hlo. change (sz (EncodeFixed32 (sz R))) with 4.
    change (sz [z2b kFilterBaseLg]) with 1. lia. }
  pose proof (sz_nonneg R). pose proof (sz_nonneg G).
  rewrite (proj2 (Z.ltb_ge _ _)) by lia. cbv zeta.
  assert (Hlast : nth (Z.to_nat (sz (filter_contents G) - 1)) (filter_contents G) Byte.x00 = z2b kFilterBaseLg).
  { rewrite Hn, E. rewrite !app_assoc. rewrite app_nth2.
    - replace (_ - _)%nat with 0%nat; [reflexivity|].
      rewrite !length_app, length_EncodeFixed32. unfold sz in *. lia.
    - rewrite !length_app, length_EncodeFixed32. unfold sz in *. lia. }
  assert (Hword : DecodeFixed32 (drop (Z.to_nat (sz (filter_contents G) - 5)) (filter_contents G)) = sz R).
  { rewrite Hn, E, app_assoc.
    replace (Z.to_nat (sz R + 4 * sz G + 5 - 5)) with (length (R ++ concat (map EncodeFixed32 offs)))
      by (rewrite length_app; unfold sz in *; lia).
    rewrite drop_app_length, fixed32_decode. apply u32_small. lia. }
  rewrite Hword, Hlast, Hn. rewrite (proj2 (Z.ltb_ge _ _)) by lia. f_equal.
  replace (sz R + 4 * sz G + 5 - 5 - sz R) with (sz G * 4) by lia. apply Z.div_mul. lia.
Qed.

Lemma filter_lookup G i ks : sz (filter_contents G) < 2 ^ 32 -> G !! i = Some ks ->
  let d := filter_contents G in
  let R := sz (concat (map filter_of G)) in
  let start := DecodeFixed32 (drop (Z.to_nat (R + Z.of_nat i * 4)) d) in
  let limit := DecodeFixed32 (drop (Z.to_nat (R + Z.of_nat i * 4 + 4)) d) in
  start <= limit <= R /\ take (Z.to_nat (limit - start)) (drop (Z.to_nat start) d) = filter_of ks.
Proof.
  intros Hb Hi. cbv zeta. pose proof (lookup_lt_Some _ _ _ Hi) as Hlt.
  set (offs := prefix_sums (fun ks => sz (filter_of ks)) 0 G ++ [0 + sz (concat (map filter_of G))]).
  set (R := concat (map filter_of G)).
  assert (E : filter_contents G = R ++ concat (map EncodeFixed32 offs) ++ [z2b kFilterBaseLg]) by reflexivity.
  assert (HRb : sz R < 2 ^ 32) by (rewrite E, sz_app in Hb; match type of Hb with _ + ?x < _ => assert (0 <= x) by apply sz_nonneg end; lia).
  assert (Hat : forall j, (j <= length G)%nat ->
    DecodeFixed32 (drop (Z.to_nat (sz R + Z.of_nat j * 4)) (filter_contents G))
    = sz (concat (map filter_of (take j G)))).
  { intros j Hj. rewrite E. replace (Z.to_nat (sz R + Z.of_nat j * 4)) with (length R + 4 * j)%nat
      by (unfold sz; lia).
    rewrite <- drop_drop, drop_app_length.
    erewrite drop_fixed32 by (apply prefix_sums_lookup; exact Hj). rewrite Z.add_0_l. apply u32_small.
    split; [apply sz_nonneg|]. eapply Z.le_lt_trans; [|exact HRb]. unfold R.
    rewrite <- (take_drop j G) at 2. rewrite map_app, concat_app, sz_app.
    match goal with |- ?a <= ?a + ?b => assert (0 <= b) by apply sz_nonneg end. lia. }
  rewrite Hat by lia. replace (sz R + Z.of_nat i * 4 + 4) with (sz R + Z.of_nat (S i) * 4) by lia.
  rewrite Hat by lia. rewrite (take_S_r G i ks Hi), map_app, concat_app, sz_app.
  cbn [map concat]. rewrite app_nil_r.
  assert (HR : R = concat (map filter_of (take i G)) ++ filter_of ks ++ concat (map filter_of (drop (S i) G))).
  { unfold R. rewrite <- (take_drop_middle G i ks Hi) at 1. rewrite map_app, concat_app. reflexivity. }
  set (A := concat (map filter_of (take i G))) in *. split.
  - apply (f_equal sz) in HR. rewrite !sz_app in HR.
    match type of HR with _ = _ + (_ + ?b) => assert (0 <= b) by apply sz_nonneg end.
    pose proof (sz_nonneg (filter_of ks)). lia.
  - replace (sz A + sz (filter_of ks) - sz A) with (sz (filter_of ks)) by lia.
    rewrite E, HR, <- !app_assoc, drop_sz_app. apply take_sz_app.
Qed.

Lemma in_filter_matches G off key : sz (filter_contents G) < 2 ^ 32 -> 0 <= off ->
  in_filter G off key -> Forall (fun ks => sz ks < 2 ^ 31) G ->
  FBR_KeyMayMatch (FilterBlockReader_new (filter_contents G)) off key = true.
Proof.
  intros Hb H0 (ks & Hl & Hin) Hsz. rewrite reader_fields by exact Hb. unfold FBR_KeyMayMatch.
  cbn [fr_data fr_offset fr_num fr_base_lg]. cbv zeta.
  assert (Hidx : off >> kFilterBaseLg = off / kFilterBase) by (apply shiftr_div; discriminate).
  rewrite Hidx. assert (Hq : 0 <= off / kFilterBase) by (apply Z.div_pos; [exact H0|reflexivity]).
  pose proof (lookup_lt_Some _ _ _ Hl) as Hlt.
  rewrite (proj2 (Z.ltb_lt _ _)) by (unfold sz; lia).
  destruct (filter_lookup G _ ks Hb Hl) as [[H1 H2] H3]. rewrite Z2Nat.id in * by exact Hq.
  rewrite (proj2 (Z.leb_le _ _) H1), (proj2 (Z.leb_le _ _) H2). cbn [andb].
  rewrite H3. destruct ks as [|k ks]; [contradiction|]. apply fp_matches; [|exact Hin].
  rewrite list.Forall_lookup in Hsz. exact (Hsz _ _ Hl).
Qed.

End FilterBlock.

Lemma sz_lookup_concat {A} (G : list (list A)) : Forall (fun ks => sz ks <= sz (concat G)) G.
Proof.
  induction G as [|x G IH]; [constructor|]. constructor.
  - cbn [concat]. rewrite sz_app. pose proof (sz_nonneg (concat G)). lia.
  - eapply List.Forall_impl; [|exact IH]. cbn [concat]. intros y Hy. rewrite sz_app.
    pose proof (sz_nonneg x). lia.
Qed.

Lemma filter_block_matches : forall P, FilterPolicyOk P -> forall blks off keys key,
  StronglySorted (fun x y : Z * list bytes => fst x <= fst y) blks ->
  Forall (fun blk : Z * list bytes => 0 <= fst blk) blks ->
  sz (concat (map snd blks)) < 2 ^ 31 ->
  let contents := snd (FBB_Finish P (fold_left (FBB_block P) blks FilterBlockBuilder_new)) in
  sz contents < 2 ^ 32 -> In (off, keys) blks -> In key keys ->
  FBR_KeyMayMatch P (FilterBlockReader_new contents) off key = true.
Proof.
  intros P POK blks off keys key HS H0 Hn contents Hb Hblk Hkey.
  destruct (blocks_rep P blks FilterBlockBuilder_new [] []) as (g & p & HR & _ & Hin & Hc).
  - constructor; reflexivity.
  - exact HS.
  - exact H0.
  - eapply List.Forall_impl; [|exact H0]. cbn. intros x Hx. rewrite sz_nil.
    apply Z.div_pos; [exact Hx|reflexivity].
  - assert (Hoff : 0 <= off) by exact (proj1 (List.Forall_forall _ _) H0 _ Hblk).
    unfold contents in *. rewrite (Finish_contents P _ _ _ HR) in *.
    specialize (Hin _ _ Hblk Hkey). cbn [fst] in Hin. cbn in Hc. rewrite sz_nil, Z.add_0_l in Hc.
    pose proof (sz_lookup_concat (g ++ [p])) as Hall. rewrite Hc in Hall.
    destruct p as [|x p].
    + apply in_filter_matches; [exact POK|exact Hb|exact Hoff| |].
      * destruct Hin as (ks & Hl & Hi). exists ks. split; [|exact Hi].
        apply lookup_app_Some in Hl as [Hl|[_ Hl]]; [exact Hl|].
        apply list_lookup_singleton_Some in Hl as [_ <-]. contradiction.
      * apply Forall_app in Hall as [Hall _]. eapply List.Forall_impl; [|exact Hall]. cbn. lia.
    + apply in_filter_matches; [exact POK|exact Hb|exact Hoff|exact Hin|].
      eapply List.Forall_impl; [|exact Hall]. cbn. lia.
Qed.

(** ** db/dbformat.cc: the policy on internal keys

    The user's policy applied to the user keys.  The code overwrites the key
    array it is given, which the filter block builder no longer uses. *)

Definition InternalFilterPolicy (user_policy : FilterPolicy) : FilterPolicy := {|
  fp_Name := @fp_Name user_policy;
  fp_CreateFilter keys dst := @fp_CreateFilter user_policy (map ExtractUserKey keys) dst;
  fp_KeyMayMatch key f := @fp_KeyMayMatch user_policy (ExtractUserKey key) f
|}.

#[export] Instance InternalFilterPolicyOk P : FilterPolicyOk P -> FilterPolicyOk (InternalFilterPolicy P).
Proof.
  intros [Happ Hm]. split; cbn.
  - intros keys dst. apply Happ.
  - intros keys key Hn Hin. apply Hm; [unfold sz in *; rewrite length_map; exact Hn|].
    apply in_map. exact Hin.
Qed.

(** ** Properties *)

(** The Bloom filter has no false negatives: a filter created for any list
    of keys, with any number of bits per key, is appended to the buffer and
    matches every key of the list. *)
Theorem bloom_no_false_negatives : forall bits_per_key keys key dst,
  0 <= bits_per_key < 2 ^ 31 -> sz keys < 2 ^ 31 -> In key keys ->
  let policy := BloomFilterPolicy_new bits_per_key in
  exists filter, Bloom_CreateFilter policy keys dst = dst ++ filter /\
    Bloom_KeyMayMatch key filter = true.
Proof.
  intros bpk keys key dst Hb Hk Hin. cbv zeta.
  destruct (BloomPolicyOk bpk Hb) as [Happ Hmatch].
  exists (Bloom_CreateFilter (BloomFilterPolicy_new bpk) keys []).
  split; [apply Happ|apply Hmatch; assumption].
Qed.

Lemma bloom_no_false_negatives_witness :
  let policy := BloomFilterPolicy_new 10 in
  exists filter, Bloom_CreateFilter policy [str "a"; str "b"] (str "x") = str "x" ++ filter /\
    Bloom_KeyMayMatch (str "b") filter = true.
Proof.
  apply (bloom_no_false_negatives 10 [str "a"; str "b"] (str "b") (str "x")).
  - lia.
  - reflexivity.
  - right. left. reflexivity.
Defined.

(** The filter block has no false negatives, for any policy that keeps the
    filter policy contract: when data blocks are started at increasing offsets
    and keys are added after each, the reader of the finished block answers
    that a key may be in the block at the offset it was added for. *)
Theorem filter_block_no_false_negatives : forall P, FilterPolicyOk P -> forall blks off keys key,
  StronglySorted (fun x y : Z * list bytes => fst x <= fst y) blks ->
  Forall (fun blk : Z * list bytes => 0 <= fst blk) blks ->
  sz (concat (map snd blks)) < 2 ^ 31 ->
  let contents := snd (FBB_Finish P (fold_left (FBB_block P) blks FilterBlockBuilder_new)) in
  sz contents < 2 ^ 32 -> In (off, keys) blks -> In key keys ->
  FBR_KeyMayMatch P (FilterBlockReader_new contents) off key = true.
Proof. exact filter_block_matches. Qed.

Lemma filter_block_no_false_negatives_witness :
  let P := BloomPolicy (BloomFilterPolicy_new 10) in
  FBR_KeyMayMatch P (FilterBlockReader_new (snd (FBB_Finish P
    (fold_left (FBB_block P) [(0, [str "a"]); (2100, [str "b"]); (9000, [str "c"])]
       FilterBlockBuilder_new)))) 2100 (str "b") = true.
Proof.
  apply (filter_block_no_false_negatives (BloomPolicy (BloomFilterPolicy_new 10))
    (BloomPolicyOk 10 ltac:(lia)) [(0, [str "a"]); (2100, [str "b"]); (9000, [str "c"])] 2100 [str "b"]).
  - repeat (constructor; [|repeat (constructor; [cbn; lia|]); constructor]). constructor.
  - repeat (constructor; [cbn; lia|]). constructor.
  - reflexivity.
  - vm_compute. reflexivity.
  - right. left. reflexivity.
  - left. reflexivity.
Defined.
