(* ===== verification/Cache.v ===== *)
(** * The LRU cache (util/cache.cc)

    [HandleTable], a shard [LRUCache] and [ShardedLRUCache].  Handles are named by
    their addresses in a heap; a hash chain, the LRU list and the in-use list are
    the lists of the addresses on them, the lists oldest first.  An operation
    that touches a handle that was freed has no result.  The calls of deleters
    are recorded.  Every method of a shard holds its mutex, so each is one step. *)

From Stdlib Require Import Permutation.
From S2P Require Import Prelude Coding Compare Logging Filter.
#[local] Open Scope Z_scope.
#[local] Open Scope ldb_scope.

Section Cache.
Context {V : Type}.

Record LRUHandle := mkHandle {
  h_value : V;
  h_charge : Z;
  h_key : bytes;
  h_in_cache : bool;
  h_refs : Z;
  h_hash : Z
}.

#[local] Abbreviation Heap := (gmap nat LRUHandle).

(** ** [HandleTable] *)

Record HandleTable := mkHandleTable { ht_length : Z; ht_elems : Z; ht_list : list (list nat) }.

(** [hash & (length_ - 1)] *)

Definition bucket_index (length hash : Z) : nat := Z.to_nat (hash .& (length - 1)).

(** The chain in front of the slot that [FindPointer] returns, and from it on. *)

Fixpoint find_pointer (heap : Heap) (key : bytes) (hash : Z) (chain : list nat) : option (list nat * list nat) :=
  match chain with
  | [] => Some ([], [])
  | a :: rest =>
      match heap !! a with
      | None => None
      | Some e =>
          if negb (h_hash e =? hash) || negb (Slice_eq key (h_key e))
          then option_map (fun r => (a :: fst r, snd r)) (find_pointer heap key hash rest)
          else Some ([], chain)
      end
  end.

Definition FindPointer (heap : Heap) (t : HandleTable) (key : bytes) (hash : Z) : option (list nat * list nat) :=
  find_pointer heap key hash (nth (bucket_index (ht_length t) hash) (ht_list t) []).

Definition set_chain (t : HandleTable) (hash : Z) (chain : list nat) : HandleTable :=
  mkHandleTable (ht_length t) (ht_elems t) (<[bucket_index (ht_length t) hash := chain]> (ht_list t)).

Definition HT_Lookup (heap : Heap) (t : HandleTable) (key : bytes) (hash : Z) : option (option nat) :=
  option_map (fun r => hd_error (snd r)) (FindPointer heap t key hash).

(** [Resize]: the new length, and the handles moved to the new chains one by one,
    each to the front. *)

Fixpoint grow (fuel : nat) (new_length elems : Z) : Z :=
  match fuel with
  | O => new_length
  | S fuel => if new_length <? elems then grow fuel (u32 (new_length * 2)) elems else new_length
  end.

Definition move_handle (heap : Heap) (new_length : Z) (new_list : list (list nat)) (a : nat) : list (list nat) :=
  match heap !! a with
  | Some e => let b := bucket_index new_length (h_hash e) in <[b := a :: nth b new_list []]> new_list
  | None => new_list
  end.

Definition Resize (heap : Heap) (t : HandleTable) : HandleTable :=
  let new_length := grow 32 4 (ht_elems t) in
  mkHandleTable new_length (ht_elems t)
    (fold_left (move_handle heap new_length) (concat (ht_list t)) (replicate (Z.to_nat new_length) [])).

Definition HandleTable_new : HandleTable := Resize ∅ (mkHandleTable 0 0 []).

Definition HT_Insert (heap : Heap) (t : HandleTable) (a : nat) : option (option nat * HandleTable) :=
  match heap !! a with
  | None => None
  | Some h =>
      match FindPointer heap t (h_key h) (h_hash h) with
      | None => None
      | Some (before, slot) =>
          let t := set_chain t (h_hash h) (before ++ a :: tl slot) in
          match slot with
          | old :: _ => Some (Some old, t)
          | [] =>
              let t := mkHandleTable (ht_length t) (u32 (ht_elems t + 1)) (ht_list t) in
              Some (None, if ht_length t <? ht_elems t then Resize heap t else t)
          end
      end
  end.

Definition HT_Remove (heap : Heap) (t : HandleTable) (key : bytes) (hash : Z) : option (option nat * HandleTable) :=
  match FindPointer heap t key hash with
  | None => None
  | Some (before, []) => Some (None, t)
  | Some (before, result :: rest) =>
      let t := set_chain t hash (before ++ rest) in
      Some (Some result, mkHandleTable (ht_length t) (u32 (ht_elems t - 1)) (ht_list t))
  end.

(** ** [LRUCache] *)

Record LRUCache := mkLRUCache {
  lc_capacity : Z;
  lc_usage : Z;
  lc_lru : list nat;
  lc_in_use : list nat;
  lc_table : HandleTable;
  lc_heap : Heap;
  lc_next : nat;
  lc_deleted : list (bytes * V)
}.

Definition LRUCache_new : LRUCache := mkLRUCache 0 0 [] [] HandleTable_new ∅ 0 [].

Definition SetCapacity (c : LRUCache) (capacity : Z) : LRUCache :=
  mkLRUCache capacity (lc_usage c) (lc_lru c) (lc_in_use c) (lc_table c) (lc_heap c) (lc_next c) (lc_deleted c).

Definition TotalCharge (c : LRUCache) : Z := lc_usage c.

Definition with_lists (c : LRUCache) (lru in_use : list nat) : LRUCache :=
  mkLRUCache (lc_capacity c) (lc_usage c) lru in_use (lc_table c) (lc_heap c) (lc_next c) (lc_deleted c).

Definition with_handles (c : LRUCache) (heap : Heap) : LRUCache :=
  mkLRUCache (lc_capacity c) (lc_usage c) (lc_lru c) (lc_in_use c) (lc_table c) heap (lc_next c) (lc_deleted c).

Definition with_table (c : LRUCache) (t : HandleTable) : LRUCache :=
  mkLRUCache (lc_capacity c) (lc_usage c) (lc_lru c) (lc_in_use c) t (lc_heap c) (lc_next c) (lc_deleted c).

Definition with_usage (c : LRUCache) (usage : Z) : LRUCache :=
  mkLRUCache (lc_capacity c) usage (lc_lru c) (lc_in_use c) (lc_table c) (lc_heap c) (lc_next c) (lc_deleted c).

(** The handle is taken off the list it is on. *)

Definition remove_address (a : nat) (l : list nat) : list nat := List.filter (fun x => negb (x =? a)%nat) l.

Definition LRU_Remove (c : LRUCache) (a : nat) : LRUCache := with_lists c (remove_address a (lc_lru c)) (remove_address a (lc_in_use c)).

Definition append_in_use (c : LRUCache) (a : nat) : LRUCache := with_lists c (lc_lru c) (lc_in_use c ++ [a]).

Definition append_lru (c : LRUCache) (a : nat) : LRUCache := with_lists c (lc_lru c ++ [a]) (lc_in_use c).

Definition with_refs (e : LRUHandle) (refs : Z) : LRUHandle := mkHandle (h_value e) (h_charge e) (h_key e) (h_in_cache e) refs (h_hash e).

Definition with_in_cache (e : LRUHandle) (b : bool) : LRUHandle := mkHandle (h_value e) (h_charge e) (h_key e) b (h_refs e) (h_hash e).

Definition Ref (c : LRUCache) (a : nat) : option LRUCache :=
  match lc_heap c !! a with
  | None => None
  | Some e =>
      let c := if (h_refs e =? 1) && h_in_cache e then append_in_use (LRU_Remove c a) a else c in
      Some (with_handles c (<[a := with_refs e (u32 (h_refs e + 1))]> (lc_heap c)))
  end.

Definition Unref (c : LRUCache) (a : nat) : option LRUCache :=
  match lc_heap c !! a with
  | None => None
  | Some e =>
      let e := with_refs e (u32 (h_refs e - 1)) in
      if h_refs e =? 0
      then Some (mkLRUCache (lc_capacity c) (lc_usage c) (lc_lru c) (lc_in_use c) (lc_table c) (delete a (lc_heap c)) (lc_next c)
                   (lc_deleted c ++ [(h_key e, h_value e)]))
      else
        let c := with_handles c (<[a := e]> (lc_heap c)) in
        Some (if h_in_cache e && (h_refs e =? 1) then append_lru (LRU_Remove c a) a else c)
  end.

Definition Lookup (c : LRUCache) (key : bytes) (hash : Z) : option (option nat * LRUCache) :=
  match HT_Lookup (lc_heap c) (lc_table c) key hash with
  | None => None
  | Some None => Some (None, c)
  | Some (Some a) => option_map (fun c => (Some a, c)) (Ref c a)
  end.

Definition Release (c : LRUCache) (handle : nat) : option LRUCache := Unref c handle.

Definition FinishErase (c : LRUCache) (p : option nat) : option LRUCache :=
  match p with
  | None => Some c
  | Some a =>
      match lc_heap c !! a with
      | None => None
      | Some e =>
          let c := LRU_Remove c a in
          let c := with_handles c (<[a := with_in_cache e false]> (lc_heap c)) in
          Unref (with_usage c (u64 (lc_usage c - h_charge e))) a
      end
  end.

(** [FinishErase(table_.Remove(key, hash))] *)

Definition erase (c : LRUCache) (key : bytes) (hash : Z) : option LRUCache :=
  match HT_Remove (lc_heap c) (lc_table c) key hash with
  | None => None
  | Some (p, t) => FinishErase (with_table c t) p
  end.

Definition Erase (c : LRUCache) (key : bytes) (hash : Z) : option LRUCache := erase c key hash.

(** The oldest unreferenced handle goes. *)

Definition evict_oldest (c : LRUCache) : option LRUCache :=
  match lc_lru c with
  | [] => Some c
  | a :: _ => match lc_heap c !! a with Some e => erase c (h_key e) (h_hash e) | None => None end
  end.

(** [while (usage_ > capacity_ && lru_.next != &lru_)] *)

Fixpoint evict_loop (fuel : nat) (c : LRUCache) : option LRUCache :=
  match fuel with
  | O => Some c
  | S fuel =>
      match lc_lru c with
      | [] => Some c
      | _ => if lc_capacity c <? lc_usage c then match evict_oldest c with Some c => evict_loop fuel c | None => None end else Some c
      end
  end.

Fixpoint prune_loop (fuel : nat) (c : LRUCache) : option LRUCache :=
  match fuel with
  | O => Some c
  | S fuel => match lc_lru c with [] => Some c | _ => match evict_oldest c with Some c => prune_loop fuel c | None => None end end
  end.

Definition Prune (c : LRUCache) : option LRUCache := prune_loop (length (lc_lru c)) c.

Definition Insert (c : LRUCache) (key : bytes) (hash : Z) (value : V) (charge : Z) : option (nat * LRUCache) :=
  let a := lc_next c in
  let e := mkHandle value charge key false 1 hash in
  let c := mkLRUCache (lc_capacity c) (lc_usage c) (lc_lru c) (lc_in_use c) (lc_table c) (<[a := e]> (lc_heap c)) (S a) (lc_deleted c) in
  let inserted :=
    if 0 <? lc_capacity c then
      let c := with_handles c (<[a := mkHandle value charge key true 2 hash]> (lc_heap c)) in
      let c := with_usage (append_in_use c a) (u64 (lc_usage c + charge)) in
      match HT_Insert (lc_heap c) (lc_table c) a with
      | None => None
      | Some (old, t) => FinishErase (with_table c t) old
      end
    else Some c in
  match inserted with
  | None => None
  | Some c => option_map (fun c => (a, c)) (evict_loop (length (lc_lru c)) c)
  end.

(** The destructor lets go of the handles on the LRU list; the caller has none left. *)

Fixpoint destroy_loop (l : list nat) (c : LRUCache) : option LRUCache :=
  match l with
  | [] => Some c
  | a :: l =>
      match lc_heap c !! a with
      | None => None
      | Some e =>
          match Unref (with_handles c (<[a := with_in_cache e false]> (lc_heap c))) a with
          | Some c => destroy_loop l c
          | None => None
          end
      end
  end.

Definition LRUCache_delete (c : LRUCache) : option LRUCache := destroy_loop (lc_lru c) c.

(** ** [ShardedLRUCache] *)

Definition kNumShardBits : Z := 4.

Definition kNumShards : Z := 1 << kNumShardBits.

Definition HashSlice (s : bytes) : Z := Hash s 0.

Definition Shard (hash : Z) : nat := Z.to_nat (hash >> (32 - kNumShardBits)).

Record ShardedLRUCache := mkSharded { shard_ : list LRUCache; last_id_ : Z }.

Definition ShardedLRUCache_new (capacity : Z) : ShardedLRUCache :=
  let per_shard := u64 (capacity + (kNumShards - 1)) / kNumShards in
  mkSharded (replicate (Z.to_nat kNumShards) (SetCapacity LRUCache_new per_shard)) 0.

Definition with_shard (s : ShardedLRUCache) (i : nat) (c : LRUCache) : ShardedLRUCache := mkSharded (<[i := c]> (shard_ s)) (last_id_ s).

(** A handle of the cache is a shard and an address in it. *)

Definition SC_Insert (s : ShardedLRUCache) (key : bytes) (value : V) (charge : Z) : option ((nat * nat) * ShardedLRUCache) :=
  let hash := HashSlice key in
  let i := Shard hash in
  match shard_ s !! i with
  | None => None
  | Some c => option_map (fun r => ((i, fst r), with_shard s i (snd r))) (Insert c key hash value charge)
  end.

Definition SC_Lookup (s : ShardedLRUCache) (key : bytes) : option (option (nat * nat) * ShardedLRUCache) :=
  let hash := HashSlice key in
  let i := Shard hash in
  match shard_ s !! i with
  | None => None
  | Some c => option_map (fun r => (option_map (fun a => (i, a)) (fst r), with_shard s i (snd r))) (Lookup c key hash)
  end.

Definition SC_Release (s : ShardedLRUCache) (handle : nat * nat) : option ShardedLRUCache :=
  match shard_ s !! fst handle with
  | None => None
  | Some c => option_map (with_shard s (fst handle)) (Release c (snd handle))
  end.

Definition SC_Erase (s : ShardedLRUCache) (key : bytes) : option ShardedLRUCache :=
  let hash := HashSlice key in
  let i := Shard hash in
  match shard_ s !! i with
  | None => None
  | Some c => option_map (with_shard s i) (Erase c key hash)
  end.

Definition SC_Value (s : ShardedLRUCache) (handle : nat * nat) : option V :=
  match shard_ s !! fst handle with
  | None => None
  | Some c => h_value <$> lc_heap c !! snd handle
  end.

Definition SC_NewId (s : ShardedLRUCache) : Z * ShardedLRUCache := let id := u64 (last_id_ s + 1) in (id, mkSharded (shard_ s) id).

Fixpoint prune_all (shards : list LRUCache) : option (list LRUCache) :=
  match shards with
  | [] => Some []
  | c :: shards =>
      match Prune c, prune_all shards with
      | Some c, Some shards => Some (c :: shards)
      | _, _ => None
      end
  end.

Definition SC_Prune (s : ShardedLRUCache) : option ShardedLRUCache := option_map (fun shards => mkSharded shards (last_id_ s)) (prune_all (shard_ s)).

Definition SC_TotalCharge (s : ShardedLRUCache) : Z := fold_left (fun total c => u64 (total + TotalCharge c)) (shard_ s) 0.

End Cache.

Arguments LRUHandle : clear implicits.
Arguments LRUCache : clear implicits.
Arguments ShardedLRUCache : clear implicits.

(** ** The hash table holds its members *)

Section TableOk.
Context {V : Type}.

#[local] Abbreviation Heap := (gmap nat (LRUHandle V)).
#[local] Abbreviation handle_at heap a e := ((heap : Heap) !! a = Some (e : LRUHandle V)).

Record table_ok (heap : Heap) (t : HandleTable) (members : list nat) : Prop := {
  to_length : length (ht_list t) = Z.to_nat (ht_length t);
  to_power : exists k, 0 <= k /\ ht_length t = 2 ^ k;
  to_chain : forall i chain a, ht_list t !! i = Some chain -> In a chain -> exists e, handle_at heap a e /\ bucket_index (ht_length t) (h_hash e) = i;
  to_members : concat (ht_list t) ≡ₚ members;
  to_elems : ht_elems t = sz members;
  to_nodup : NoDup members;
  to_keys : forall a b ea eb, In a members -> In b members -> handle_at heap a ea -> handle_at heap b eb ->
    h_key ea = h_key eb -> h_hash ea = h_hash eb -> a = b
}.

Lemma bucket_lt length hash k : 0 <= k -> length = 2 ^ k -> (bucket_index length hash < Z.to_nat length)%nat.
Proof.
  intros Hk ->. unfold bucket_index. replace (2 ^ k - 1) with (Z.ones k) by (rewrite Z.ones_equiv; lia). rewrite Z.land_ones by exact Hk.
  pose proof (Z.mod_pos_bound hash (2 ^ k) ltac:(lia)). lia.
Qed.

Lemma table_ok_perm heap t l l' : table_ok heap t l -> l ≡ₚ l' -> table_ok heap t l'.
Proof.
  intros [T1 T2 T3 T4 T5 T6 T7] Hp. split; try assumption.
  - rewrite T4. exact Hp.
  - rewrite T5. unfold sz. rewrite (Permutation_length Hp). reflexivity.
  - rewrite <- Hp. exact T6.
  - intros a b ea eb Ha Hb. apply T7; apply (Permutation_in _ (Permutation_sym Hp)); assumption.
Qed.

(** Changes of handles that keep the keys. *)

Lemma table_ok_heap heap heap' t l : table_ok heap t l ->
  (forall a e, In a l -> handle_at heap a e -> exists e', handle_at heap' a e' /\ h_key e' = h_key e /\ h_hash e' = h_hash e) -> table_ok heap' t l.
Proof.
  intros [T1 T2 T3 T4 T5 T6 T7] H.
  assert (HM : forall a, In a l -> exists e, handle_at heap a e).
  { intros a Ha. apply (Permutation_in _ (Permutation_sym T4)), in_concat in Ha as (chain & Hc & Ha). apply In_lookup in Hc as [i Hi]. destruct (T3 i chain a Hi Ha) as (e & He & _). eauto. }
  split; try assumption.
  - intros i chain a Hi Ha. destruct (T3 i chain a Hi Ha) as (e & He & Hb).
    assert (Hl : In a l) by (apply (Permutation_in _ T4), in_concat; exists chain; split; [apply In_lookup; eauto|exact Ha]).
    destruct (H a e Hl He) as (e' & He' & _ & Hh). exists e'. split; [exact He'|]. rewrite Hh. exact Hb.
  - intros a b ea eb Ha Hb Hea Heb Hk Hh. destruct (HM a Ha) as (fa & Hfa). destruct (HM b Hb) as (fb & Hfb).
    destruct (H a fa Ha Hfa) as (ea' & E1 & K1 & H1). destruct (H b fb Hb Hfb) as (eb' & E2 & K2 & H2).
    rewrite Hea in E1. rewrite Heb in E2. injection E1 as <-. injection E2 as <-. apply (T7 a b fa fb); congruence.
Qed.

Lemma table_member heap t l a : table_ok heap t l -> In a l -> exists e, handle_at heap a e /\ In a (nth (bucket_index (ht_length t) (h_hash e)) (ht_list t) []).
Proof.
  intros [T1 T2 T3 T4 T5 T6 T7] Ha. apply (Permutation_in _ (Permutation_sym T4)), in_concat in Ha as (chain & Hc & Ha). apply In_lookup in Hc as [i Hi].
  destruct (T3 i chain a Hi Ha) as (e & He & Hb). exists e. split; [exact He|]. rewrite Hb. rewrite (nth_lookup_Some _ _ _ _ Hi). exact Ha.
Qed.

(** A chain: what is before the slot does not match, and the slot does. *)

Definition matches (e : LRUHandle V) (key : bytes) (hash : Z) : Prop := h_key e = key /\ h_hash e = hash.

Lemma find_pointer_ok heap key hash chain : (forall a, In a chain -> exists e, handle_at heap a e) ->
  exists p s, find_pointer heap key hash chain = Some (p, s) /\ chain = p ++ s /\
    (forall a e, In a p -> handle_at heap a e -> ~ matches e key hash) /\
    match s with [] => True | a :: _ => exists e, handle_at heap a e /\ matches e key hash end.
Proof.
  induction chain as [|a chain IH]; intros H; cbn [find_pointer]; [exists [], []; cbn; auto|].
  destruct (H a (or_introl eq_refl)) as (e & He). rewrite He.
  assert (HM : negb (h_hash e =? hash) || negb (Slice_eq key (h_key e)) = false <-> matches e key hash).
  { rewrite orb_false_iff, !negb_false_iff, Z.eqb_eq, Slice_eq_spec. unfold matches. intuition congruence. }
  destruct (negb (h_hash e =? hash) || negb (Slice_eq key (h_key e))) eqn:EM.
  - destruct IH as (p & s & -> & -> & H1 & H2); [intros b Hb; apply H; right; exact Hb|]. exists (a :: p), s. split; [reflexivity|]. split; [reflexivity|]. split; [|exact H2].
    intros b eb [<-|Hb] Heb; [|exact (H1 b eb Hb Heb)]. rewrite He in Heb. injection Heb as <-. intros HX. apply HM in HX. discriminate.
  - exists [], (a :: chain). split; [reflexivity|]. split; [reflexivity|]. split; [contradiction|]. exists e. split; [exact He|]. apply HM. reflexivity.
Qed.

Lemma FindPointer_ok heap t l key hash : table_ok heap t l ->
  exists p s, FindPointer heap t key hash = Some (p, s) /\ ht_list t !! bucket_index (ht_length t) hash = Some (p ++ s) /\
    (forall a e, In a p -> handle_at heap a e -> ~ matches e key hash) /\
    match s with
    | [] => forall a e, In a l -> handle_at heap a e -> ~ matches e key hash
    | a :: _ => exists e, handle_at heap a e /\ matches e key hash /\ In a l
    end.
Proof.
  intros HT. pose proof HT as [T1 (k & Hk & Ek) T3 T4 T5 T6 T7]. pose proof (bucket_lt (ht_length t) hash k Hk Ek) as Hlt.
  destruct (lookup_lt_is_Some_2 (ht_list t) (bucket_index (ht_length t) hash)) as [chain Hc]; [lia|].
  unfold FindPointer. rewrite (nth_lookup_Some _ _ _ _ Hc).
  destruct (find_pointer_ok heap key hash chain) as (p & s & -> & -> & H1 & H2).
  { intros a Ha. destruct (T3 _ chain a Hc Ha) as (e & He & _). eauto. }
  exists p, s. split; [reflexivity|]. split; [exact Hc|]. split; [exact H1|]. destruct s as [|a s].
  - intros a e Ha He [K H]. destruct (table_member heap t l a HT Ha) as (e' & He' & Hin). rewrite He in He'. injection He' as <-. rewrite H in Hin.
    rewrite (nth_lookup_Some _ _ _ _ Hc), app_nil_r in Hin. exact (H1 a e Hin He (conj K H)).
  - destruct H2 as (e & He & HM). exists e. split; [exact He|]. split; [exact HM|]. apply (Permutation_in _ T4), in_concat. exists (p ++ a :: s).
    split; [apply In_lookup; eauto|apply in_elt].
Qed.

(** ** Changing a chain *)

Lemma concat_chain (l : list (list nat)) i c c' : l !! i = Some c -> exists rest, concat l ≡ₚ c ++ rest /\ concat (<[i := c']> l) ≡ₚ c' ++ rest.
Proof.
  intros Hi. pose proof (lookup_lt_Some _ _ _ Hi) as Hlt. exists (concat (take i l) ++ concat (drop (S i) l)).
  rewrite (insert_take_drop l i c' Hlt). rewrite <- (take_drop_middle l i c Hi) at 1. rewrite !concat_app. cbn [concat]. split; solve_Permutation.
Qed.

Lemma set_chain_ok heap t l hash chain chain' extra l' : table_ok heap t l -> ht_list t !! bucket_index (ht_length t) hash = Some chain ->
  (forall a, In a chain' -> exists e, handle_at heap a e /\ bucket_index (ht_length t) (h_hash e) = bucket_index (ht_length t) hash) ->
  (forall rest, l ≡ₚ chain ++ rest -> l' ≡ₚ chain' ++ rest) -> NoDup l' ->
  (forall a b ea eb, In a l' -> In b l' -> handle_at heap a ea -> handle_at heap b eb -> h_key ea = h_key eb -> h_hash ea = h_hash eb -> a = b) ->
  extra = sz l' -> table_ok heap (mkHandleTable (ht_length t) extra (ht_list (set_chain t hash chain'))) l'.
Proof.
  intros [T1 T2 T3 T4 T5 T6 T7] Hc Hch Hl Hnd Hk ->. cbn [set_chain ht_list].
  destruct (concat_chain _ _ _ chain' Hc) as (rest & C1 & C2). split; cbn [ht_length ht_elems ht_list]; try assumption.
  - rewrite length_insert. exact T1.
  - intros i c a Hi Ha. destruct (decide (i = bucket_index (ht_length t) hash)) as [->|Hne].
    + rewrite list_lookup_insert_eq in Hi by exact (lookup_lt_Some _ _ _ Hc). injection Hi as <-. exact (Hch a Ha).
    + rewrite list_lookup_insert_ne in Hi by congruence. exact (T3 i c a Hi Ha).
  - rewrite C2. symmetry. apply Hl. rewrite <- T4. exact C1.
  - reflexivity.
Qed.

(** [Remove]: the handle with the key leaves, if there is one. *)

Lemma HT_Remove_ok heap t l key hash : table_ok heap t l -> sz l < 2 ^ 32 ->
  (exists a e l', HT_Remove heap t key hash = Some (Some a, l') /\ handle_at heap a e /\ matches e key hash /\ In a l /\
     forall rest, l ≡ₚ a :: rest -> table_ok heap l' rest) \/
  HT_Remove heap t key hash = Some (None, t) /\ forall a e, In a l -> handle_at heap a e -> ~ matches e key hash.
Proof.
  intros HT Hsz. pose proof HT as [T1 T2 T3 T4 T5 T6 T7]. destruct (FindPointer_ok heap t l key hash HT) as (p & s & EF & Hc & Hp & Hs).
  unfold HT_Remove. rewrite EF. destruct s as [|a s]; [right; auto|left]. destruct Hs as (e & He & HM & Hin).
  exists a, e. eexists. split; [reflexivity|]. split; [exact He|]. split; [exact HM|]. split; [exact Hin|]. intros rest Hr.
  apply (set_chain_ok heap t l hash (p ++ a :: s) (p ++ s) _ rest HT Hc).
  - intros b Hb. apply (T3 _ _ b Hc). apply in_app_iff in Hb as [Hb|Hb]; apply in_app_iff; [auto|right; right; exact Hb].
  - intros r Hlr. rewrite Hr in Hlr. apply (Permutation_cons_inv (a := a)). rewrite Hlr. solve_Permutation.
  - rewrite Hr in T6. apply list.NoDup_cons in T6 as [_ T6]. exact T6.
  - intros b c eb ec Hb Hc'. apply T7; apply (Permutation_in _ (Permutation_sym Hr)); right; assumption.
  - cbn [set_chain ht_elems]. rewrite T5. unfold sz in *. rewrite (Permutation_length Hr). cbn [length]. rewrite (Permutation_length Hr) in Hsz. cbn [length] in Hsz. rewrite u32_small; lia.
Qed.

(** [Resize] *)

Lemma grow_power fuel : forall k elems, 0 <= k -> k + Z.of_nat fuel <= 34 -> elems <= 2 ^ 31 -> exists k', 0 <= k' /\ grow fuel (2 ^ k) elems = 2 ^ k'.
Proof.
  induction fuel as [|fuel IH]; intros k elems Hk Hf He; cbn [grow]; [eauto|]. destruct (Z.ltb_spec (2 ^ k) elems) as [Hlt|Hge]; [|eauto].
  assert (k < 31) by (destruct (Z.lt_ge_cases k 31) as [|Hge]; [assumption|]; pose proof (Z.pow_le_mono_r 2 31 k); lia).
  replace (2 ^ k * 2) with (2 ^ (k + 1)) by (rewrite Z.pow_add_r by lia; lia).
  rewrite u32_small by (pose proof (Z.pow_le_mono_r 2 (k + 1) 31); lia). apply IH; lia.
Qed.

Lemma move_all_ok heap n k todo : forall new_list done, 0 <= k -> n = 2 ^ k -> length new_list = Z.to_nat n ->
  (forall a, In a todo -> exists e, handle_at heap a e) ->
  (forall i chain a, new_list !! i = Some chain -> In a chain -> exists e, handle_at heap a e /\ bucket_index n (h_hash e) = i) -> concat new_list ≡ₚ done ->
  let l := fold_left (move_handle heap n) todo new_list in
  length l = Z.to_nat n /\ (forall i chain a, l !! i = Some chain -> In a chain -> exists e, handle_at heap a e /\ bucket_index n (h_hash e) = i) /\ concat l ≡ₚ done ++ todo.
Proof.
  induction todo as [|a todo IH]; intros new_list done Hk En Hl Ht Hc Hd; cbv zeta; cbn [fold_left]; [rewrite app_nil_r; auto|].
  destruct (Ht a (or_introl eq_refl)) as (e & He). set (b := bucket_index n (h_hash e)).
  pose proof (bucket_lt n (h_hash e) k Hk En) as Hb. fold b in Hb. destruct (lookup_lt_is_Some_2 new_list b) as [chain Hch]; [lia|].
  assert (move_handle heap n new_list a = <[b := a :: chain]> new_list) as ->.
  { unfold move_handle. rewrite He. fold b. rewrite (nth_lookup_Some _ _ _ _ Hch). reflexivity. }
  destruct (concat_chain new_list b chain (a :: chain) Hch) as (rest & C1 & C2).
  destruct (IH (<[b := a :: chain]> new_list) (done ++ [a])) as (I1 & I2 & I3); try assumption.
  - rewrite length_insert. exact Hl.
  - intros x Hx. apply Ht. right. exact Hx.
  - intros i c x Hi Hx. destruct (decide (i = b)) as [->|Hne].
    + rewrite list_lookup_insert_eq in Hi by lia. injection Hi as <-. destruct Hx as [<-|Hx]; [exists e; auto|exact (Hc b chain x Hch Hx)].
    + rewrite list_lookup_insert_ne in Hi by congruence. exact (Hc i c x Hi Hx).
  - rewrite C2, <- Hd, C1. solve_Permutation.
  - split; [exact I1|]. split; [exact I2|]. rewrite I3. solve_Permutation.
Qed.

Lemma Resize_ok heap t l : table_ok heap t l -> sz l <= 2 ^ 31 -> table_ok heap (Resize heap t) l.
Proof.
  intros HT Hsz. pose proof HT as [T1 T2 T3 T4 T5 T6 T7]. unfold Resize. destruct (grow_power 32 2 (ht_elems t) ltac:(lia) ltac:(lia) ltac:(lia)) as (k & Hk & Eg).
  change (2 ^ 2) with 4 in Eg. set (n := grow 32 4 (ht_elems t)) in *. clearbody n.
  destruct (move_all_ok heap n k (concat (ht_list t)) (replicate (Z.to_nat n) []) [] Hk Eg) as (M1 & M2 & M3).
  - apply length_replicate.
  - intros a Ha. apply (Permutation_in _ T4) in Ha. destruct (table_member heap t l a HT Ha) as (e & He & _). eauto.
  - intros i chain a Hi Ha. apply lookup_replicate in Hi as [-> _]. contradiction.
  - clear. induction (Z.to_nat n) as [|m IH]; [reflexivity|exact IH].
  - split; cbn [ht_length ht_elems ht_list]; try assumption; [exists k; auto|]. rewrite M3. exact T4.
Qed.

(** [Insert]: the new handle joins, and takes the place of the one with its key. *)

Lemma HT_Insert_ok heap t l a e : table_ok heap t l -> sz l < 2 ^ 31 -> handle_at heap a e -> ~ In a l ->
  (exists t', HT_Insert heap t a = Some (None, t') /\ table_ok heap t' (a :: l) /\ forall b f, In b l -> handle_at heap b f -> ~ matches f (h_key e) (h_hash e)) \/
  (exists b f t', HT_Insert heap t a = Some (Some b, t') /\ handle_at heap b f /\ matches f (h_key e) (h_hash e) /\ In b l /\
     forall rest, l ≡ₚ b :: rest -> table_ok heap t' (a :: rest)).
Proof.
  intros HT Hsz He Ha. pose proof HT as [T1 T2 T3 T4 T5 T6 T7]. destruct (FindPointer_ok heap t l (h_key e) (h_hash e) HT) as (p & s & EF & Hc & Hp & Hs).
  unfold HT_Insert. rewrite He, EF. destruct s as [|b s]; [left|right]; cbn [tl].
  - assert (HI : table_ok heap (mkHandleTable (ht_length t) (u32 (ht_elems t + 1)) (ht_list (set_chain t (h_hash e) (p ++ [a])))) (a :: l)).
    { apply (set_chain_ok heap t l (h_hash e) (p ++ []) (p ++ [a]) _ (a :: l) HT Hc).
      - intros b Hb. apply in_app_iff in Hb as [Hb|[<-|[]]]; [|eauto]. apply (T3 _ _ b Hc). rewrite app_nil_r. exact Hb.
      - intros rest ->. solve_Permutation.
      - apply list.NoDup_cons. split; [|exact T6]. rewrite list_elem_of_In. exact Ha.
      - intros b c eb ec [<-|Hb] [<-|Hc'] Heb Hec Ek Eh; [reflexivity| | |exact (T7 b c eb ec Hb Hc' Heb Hec Ek Eh)]; exfalso.
        + rewrite He in Heb. injection Heb as <-. exact (Hs c ec Hc' Hec (conj (eq_sym Ek) (eq_sym Eh))).
        + rewrite He in Hec. injection Hec as <-. exact (Hs b eb Hb Heb (conj Ek Eh)).
      - rewrite T5. unfold sz in *. cbn [length]. rewrite u32_small; lia. }
    eexists. split; [reflexivity|]. split; [|exact Hs]. cbn [set_chain ht_length ht_elems ht_list] in *.
    destruct (_ <? _); [|exact HI]. apply (Resize_ok heap _ _ HI). unfold sz in *. cbn [length]. lia.
  - destruct Hs as (f & Hf & HM & Hin). exists b, f. eexists. split; [reflexivity|]. split; [exact Hf|]. split; [exact HM|]. split; [exact Hin|]. intros rest Hr.
    assert (Hrl : forall x, In x rest -> In x l /\ x <> b).
    { intros x Hx. split; [apply (Permutation_in _ (Permutation_sym Hr)); right; exact Hx|]. intros ->. rewrite Hr in T6. apply list.NoDup_cons in T6 as [T6 _].
      apply T6, list_elem_of_In. exact Hx. }
    apply (set_chain_ok heap t l (h_hash e) (p ++ b :: s) (p ++ a :: s) _ (a :: rest) HT Hc).
    + intros x Hx. apply in_app_iff in Hx as [Hx|[<-|Hx]]; [|eauto|]; apply (T3 _ _ x Hc), in_app_iff; [auto|right; right; exact Hx].
    + intros r Hlr. rewrite Hr in Hlr. rewrite <- Permutation_middle in Hlr |- *. apply perm_skip. exact (Permutation_cons_inv Hlr).
    + apply list.NoDup_cons. rewrite list_elem_of_In. split; [|rewrite Hr in T6; apply list.NoDup_cons in T6; apply T6]. intros Hx. apply Ha, Hrl, Hx.
    + assert (HX : forall x ex, In x rest -> handle_at heap x ex -> ~ matches ex (h_key e) (h_hash e)).
      { intros x ex Hx Hex [K1 K2]. destruct (Hrl x Hx) as [Hxl Hxb]. destruct HM as [M1 M2]. apply Hxb. apply (T7 x b ex f Hxl Hin Hex Hf); congruence. }
      intros x y ex ey [<-|Hx] [<-|Hy] Hex Hey Ek Eh; [reflexivity| | |apply (T7 x y ex ey (proj1 (Hrl x Hx)) (proj1 (Hrl y Hy)) Hex Hey Ek Eh)]; exfalso.
      * rewrite He in Hex. injection Hex as <-. exact (HX y ey Hy Hey (conj (eq_sym Ek) (eq_sym Eh))).
      * rewrite He in Hey. injection Hey as <-. exact (HX x ex Hx Hex (conj Ek Eh)).
    + cbn [set_chain ht_elems]. rewrite T5. unfold sz. rewrite (Permutation_length Hr). reflexivity.
Qed.

Lemma HT_Lookup_ok heap t l key hash : table_ok heap t l ->
  (exists a e, HT_Lookup heap t key hash = Some (Some a) /\ handle_at heap a e /\ matches e key hash /\ In a l) \/
  HT_Lookup heap t key hash = Some None /\ forall a e, In a l -> handle_at heap a e -> ~ matches e key hash.
Proof.
  intros HT. destruct (FindPointer_ok heap t l key hash HT) as (p & s & EF & Hc & Hp & Hs). unfold HT_Lookup. rewrite EF. destruct s as [|a s]; [right; auto|left].
  destruct Hs as (e & He & HM & Hin). exists a, e. auto.
Qed.

Lemma HandleTable_new_ok heap : table_ok heap (HandleTable_new (V := V)) [].
Proof.
  split; try reflexivity; try (intros; contradiction); [exists 2; cbn; lia| |constructor].
  intros i chain a Hi Ha. change (ht_list (HandleTable_new (V := V))) with (replicate 4 (@nil nat)) in Hi. apply lookup_replicate in Hi as [-> _]. contradiction.
Qed.

End TableOk.
