(* ===== verification/CacheOk.v ===== *)
(** * The LRU cache keeps its books

    The invariant of a shard of the cache: which handles are alive, what their
    reference counts count, which list each is on, what the charge adds up to and
    which entries were deleted.  Every operation keeps it, and none of them
    touches a handle that was freed. *)

From Stdlib Require Import Permutation.
From S2P Require Import Prelude Coding Compare Logging Filter Cache.
#[local] Open Scope Z_scope.
#[local] Open Scope ldb_scope.

(** ** Lists of addresses *)

Lemma In_remove_address x a l : In x (remove_address a l) <-> In x l /\ x <> a.
Proof. unfold remove_address. rewrite filter_In, negb_true_iff, Nat.eqb_neq. reflexivity. Qed.

Lemma remove_address_notin a l : ~ In a l -> remove_address a l = l.
Proof.
  induction l as [|x l IH]; intros H; [reflexivity|]. cbn. destruct (Nat.eqb_spec x a) as [->|Hne]; [exfalso; apply H; left; reflexivity|].
  cbn. f_equal. apply IH. intros Hx. apply H. right. exact Hx.
Qed.

Lemma remove_address_perm a l : NoDup l -> In a l -> l ≡ₚ a :: remove_address a l.
Proof.
  intros Hnd Ha. apply in_split in Ha as (l1 & l2 & ->). apply list.NoDup_app in Hnd as (_ & H1 & H2). apply list.NoDup_cons in H2 as [H2 _].
  unfold remove_address. rewrite filter_app. cbn. rewrite Nat.eqb_refl. cbn.
  fold (remove_address a l1). fold (remove_address a l2). rewrite !remove_address_notin; [solve_Permutation| |].
  - intros Hx. apply H2, list_elem_of_In, Hx.
  - intros Hx. apply (H1 a); [apply list_elem_of_In, Hx|left].
Qed.

Lemma remove_address_app a l1 l2 : remove_address a (l1 ++ l2) = remove_address a l1 ++ remove_address a l2.
Proof. apply filter_app. Qed.

Section Ok.
Context {V : Type}.

#[local] Abbreviation Heap := (gmap nat (LRUHandle V)).
#[local] Abbreviation Cache := (LRUCache V).

Definition members (c : Cache) : list nat := lc_lru c ++ lc_in_use c.

(** ** The entries alive, and the charge of a list of handles *)

Definition entries (heap : Heap) : list (bytes * V) := map (fun p => (h_key (snd p), h_value (snd p))) (map_to_list heap).

Definition charges (heap : Heap) (l : list nat) : Z := fold_right (fun a total => match heap !! a with Some e => h_charge e + total | None => total end) 0 l.

Record same_entry (e e' : LRUHandle V) : Prop := {
  se_key : h_key e' = h_key e;
  se_hash : h_hash e' = h_hash e;
  se_value : h_value e' = h_value e;
  se_charge : h_charge e' = h_charge e
}.

#[export] Instance same_entry_refl : Reflexive same_entry.
Proof. split; reflexivity. Qed.

#[export] Instance same_entry_trans : Transitive same_entry.
Proof. intros e1 e2 e3 [] []. split; congruence. Qed.

Lemma entries_delete heap a e : heap !! a = Some e -> entries heap ≡ₚ (h_key e, h_value e) :: entries (delete a heap).
Proof. intros H. unfold entries. rewrite <- (map_to_list_delete heap a e H). reflexivity. Qed.

Lemma entries_new heap a e : heap !! a = None -> entries (<[a := e]> heap) ≡ₚ (h_key e, h_value e) :: entries heap.
Proof. intros H. unfold entries. rewrite (map_to_list_insert heap a e H). reflexivity. Qed.

Lemma entries_change heap a e e' : heap !! a = Some e -> same_entry e e' -> entries (<[a := e']> heap) ≡ₚ entries heap.
Proof.
  intros H [K _ W _]. rewrite (entries_delete heap a e H), (entries_delete (<[a := e']> heap) a e') by apply lookup_insert_eq.
  rewrite delete_insert_eq, K, W. reflexivity.
Qed.

Lemma charges_perm heap l l' : l ≡ₚ l' -> charges heap l = charges heap l'.
Proof.
  unfold charges. induction 1 as [|a l l' _ IH|a b l|l1 l2 l3 _ IH1 _ IH2]; cbn; [reflexivity|rewrite IH; reflexivity| |congruence].
  destruct (heap !! a), (heap !! b); lia.
Qed.

Lemma charges_ext heap heap' l : (forall a, In a l -> h_charge <$> heap' !! a = h_charge <$> heap !! a) -> charges heap' l = charges heap l.
Proof.
  unfold charges. induction l as [|a l IH]; intros H; [reflexivity|]. cbn. rewrite IH by (intros b Hb; apply H; right; exact Hb).
  specialize (H a (or_introl eq_refl)). destruct (heap !! a), (heap' !! a); cbn in H; try discriminate; [|reflexivity]. injection H as H. rewrite H. reflexivity.
Qed.

(** ** The invariant *)

Record lists_ok (c : Cache) (hs : list nat) (ins : list (bytes * V)) : Prop := {
  lo_nodup : NoDup (members c);
  lo_alive : forall a, In a (members c) \/ In a hs -> exists e, lc_heap c !! a = Some e;
  lo_refs : forall a e, lc_heap c !! a = Some e ->
    (h_in_cache e = true <-> In a (members c)) /\ h_refs e = Z.of_nat (occurs hs a) + (if h_in_cache e then 1 else 0) /\ 0 < h_refs e;
  lo_lru : forall a, In a (lc_lru c) -> occurs hs a = O;
  lo_in_use : forall a, In a (lc_in_use c) -> (0 < occurs hs a)%nat;
  lo_usage : lc_usage c = u64 (charges (lc_heap c) (members c));
  lo_fresh : forall a e, lc_heap c !! a = Some e -> (a < lc_next c)%nat;
  lo_log : lc_deleted c ++ entries (lc_heap c) ≡ₚ ins
}.

Definition cache_ok (c : Cache) (hs : list nat) (ins : list (bytes * V)) : Prop :=
  lists_ok c hs ins /\ table_ok (lc_heap c) (lc_table c) (members c).

(** What is alive was alive before, with the same entry. *)

Definition from (c c' : Cache) : Prop := forall a e', lc_heap c' !! a = Some e' -> exists e, lc_heap c !! a = Some e /\ same_entry e e'.

#[local] Instance from_refl : Reflexive from.
Proof. intros c a e H. exists e. split; [exact H|reflexivity]. Qed.

#[local] Instance from_trans : Transitive from.
Proof. intros c1 c2 c3 H1 H2 a e H. destruct (H2 a e H) as (e2 & E2 & S2). destruct (H1 a e2 E2) as (e1 & E1 & S1). exists e1. split; [exact E1|]. etransitivity; eassumption. Qed.

Lemma occurs_other hs a b : b <> a -> occurs (a :: hs) b = occurs hs b.
Proof. intros H. rewrite occurs_cons, decide_False by congruence. lia. Qed.

Lemma occurs_same hs a : occurs (a :: hs) a = S (occurs hs a).
Proof. rewrite occurs_cons, decide_True by reflexivity. lia. Qed.

Lemma lists_perm c hs ins lru in_use : lists_ok c hs ins -> lru ++ in_use ≡ₚ members c ->
  (forall b, In b lru -> occurs hs b = O) -> (forall b, In b in_use -> (0 < occurs hs b)%nat) -> lists_ok (with_lists c lru in_use) hs ins.
Proof.
  intros [L1 L2 L3 L4 L5 L6 L7 L8] Hp H1 H2. split; unfold members in *; cbn [with_lists lc_lru lc_in_use lc_heap lc_usage lc_next lc_deleted] in *; try assumption.
  - rewrite Hp. exact L1.
  - intros a. rewrite Hp. apply L2.
  - intros a e Ha. rewrite Hp. exact (L3 a e Ha).
  - rewrite L6. f_equal. apply charges_perm. symmetry. exact Hp.
Qed.

(** A handle gets another reference count, and the lists are rearranged. *)

Lemma change_ok c hs hs' ins a e refs lru in_use : cache_ok c hs ins -> lc_heap c !! a = Some e ->
  refs = Z.of_nat (occurs hs' a) + (if h_in_cache e then 1 else 0) -> 0 < refs ->
  (forall b, b <> a -> occurs hs' b = occurs hs b) -> (forall b, In b hs' -> b = a \/ In b hs) -> lru ++ in_use ≡ₚ members c ->
  (forall b, In b lru -> occurs hs' b = O) -> (forall b, In b in_use -> (0 < occurs hs' b)%nat) ->
  let c' := with_handles (with_lists c lru in_use) (<[a := with_refs e refs]> (lc_heap c)) in cache_ok c' hs' ins /\ from c c'.
Proof.
  intros [[L1 L2 L3 L4 L5 L6 L7 L8] HT] He Er Hr Ho Hi Hp H1 H2 c'.
  assert (HS : same_entry e (with_refs e refs)) by (split; reflexivity).
  assert (HF : from c c').
  { intros b e' Hb. cbn in Hb. apply lookup_insert_Some in Hb as [[<- <-]|[Hne Hb]]; [exists e; auto|exists e'; split; [exact Hb|reflexivity]]. }
  assert (HM : forall x, In x (members c') <-> In x (members c)) by (intros x; unfold members at 1; cbn; rewrite Hp; reflexivity).
  split; [|exact HF]. split; [split|].
  - unfold members. cbn. rewrite Hp. exact L1.
  - intros b Hb. rewrite HM in Hb. cbn. destruct (decide (b = a)) as [->|Hne]; [rewrite lookup_insert_eq; eauto|]. rewrite lookup_insert_ne by congruence. apply L2.
    destruct Hb as [Hb|Hb]; [auto|]. destruct (Hi b Hb); [congruence|auto].
  - intros b f Hb. rewrite HM. cbn in Hb. apply lookup_insert_Some in Hb as [[<- <-]|[Hne Hb]].
    + cbn. split; [exact (proj1 (L3 a e He))|auto].
    + rewrite Ho by congruence. exact (L3 b f Hb).
  - exact H1.
  - exact H2.
  - change (lc_usage c = u64 (charges (<[a := with_refs e refs]> (lc_heap c)) (lru ++ in_use))). rewrite L6, (charges_perm _ _ _ Hp). f_equal. symmetry. apply charges_ext. intros x Hx.
    destruct (decide (x = a)) as [->|Hne]; [rewrite lookup_insert_eq, He; reflexivity|rewrite lookup_insert_ne by congruence; reflexivity].
  - intros b f Hb. destruct (HF b f Hb) as (f' & Hf & _). exact (L7 b f' Hf).
  - cbn. rewrite (entries_change _ a e _ He HS). exact L8.
  - apply (table_ok_perm _ _ (members c)); [|unfold members; cbn; symmetry; exact Hp]. apply (table_ok_heap (lc_heap c)); [exact HT|].
    intros b f _ Hf. cbn. destruct (decide (b = a)) as [->|Hne]; [|exists f; rewrite lookup_insert_ne by congruence; auto].
    rewrite He in Hf. injection Hf as <-. exists (with_refs e refs). rewrite lookup_insert_eq. auto.
Qed.

Lemma same_lists (c : Cache) : with_lists c (lc_lru c) (lc_in_use c) = c.
Proof. destruct c. reflexivity. Qed.

Lemma members_removed c a : NoDup (members c) -> In a (members c) -> a :: remove_address a (lc_lru c) ++ remove_address a (lc_in_use c) ≡ₚ members c.
Proof. intros Hnd Ha. rewrite <- remove_address_app. symmetry. exact (remove_address_perm a _ Hnd Ha). Qed.

(** ** [Ref] and [Unref] *)

Lemma refs_small hs a (b : bool) : sz hs < 2 ^ 32 - 2 -> 0 <= Z.of_nat (occurs hs a) + (if b then 1 else 0) < 2 ^ 32 - 1.
Proof. intros H. pose proof (occurs_le hs a). unfold sz in H. destruct b; lia. Qed.

Lemma Ref_ok c hs ins a : cache_ok c hs ins -> In a (members c) \/ In a hs -> sz hs < 2 ^ 32 - 2 ->
  exists c', Ref c a = Some c' /\ cache_ok c' (a :: hs) ins /\ from c c' /\ members c' ≡ₚ members c.
Proof.
  intros HC Ha Hsz. pose proof HC as [[L1 L2 L3 L4 L5 L6 L7 L8] HT]. destruct (L2 a Ha) as (e & He). destruct (L3 a e He) as (Hc & Er & Hr).
  unfold Ref. rewrite He. pose proof (refs_small hs a (h_in_cache e) Hsz) as Hs. rewrite u32_small by lia. rewrite <- Er in Hs.
  assert (HR : h_refs e + 1 = Z.of_nat (occurs (a :: hs) a) + (if h_in_cache e then 1 else 0)) by (rewrite occurs_same; lia).
  destruct (Z.eqb_spec (h_refs e) 1) as [E1|E1], (h_in_cache e) eqn:EC; cbn [andb].
  1: {
    assert (Hin : In a (members c)) by (apply Hc; reflexivity). pose proof (members_removed c a L1 Hin) as Hrm.
    destruct (change_ok c hs (a :: hs) ins a e (h_refs e + 1) (remove_address a (lc_lru c)) (remove_address a (lc_in_use c) ++ [a]) HC He) as [H1 H2]; rewrite ?EC; try assumption.
    - lia.
    - apply occurs_other.
    - intros b [<-|Hb]; auto.
    - rewrite <- Hrm. solve_Permutation.
    - intros b Hb. apply In_remove_address in Hb as [Hb Hne]. rewrite occurs_other by exact Hne. exact (L4 b Hb).
    - intros b Hb. apply in_app_iff in Hb as [Hb|[<-|[]]]; [|rewrite occurs_same; lia]. apply In_remove_address in Hb as [Hb Hne]. rewrite occurs_other by exact Hne. exact (L5 b Hb).
    - eexists. split; [reflexivity|]. split; [exact H1|]. split; [exact H2|]. unfold members. cbn. rewrite <- Hrm. solve_Permutation. }
  all: destruct (change_ok c hs (a :: hs) ins a e (h_refs e + 1) (lc_lru c) (lc_in_use c) HC He) as [H1 H2]; rewrite ?EC; try assumption; try lia; try reflexivity;
    [apply occurs_other|intros b [<-|Hb]; auto| | |rewrite same_lists in H1, H2; eexists; split; [reflexivity|]; split; [exact H1|]; split; [exact H2|reflexivity]];
    intros b Hb; [|pose proof (L5 b Hb); rewrite occurs_cons; lia];
    (destruct (decide (b = a)) as [->|Hne]; [|rewrite occurs_other by exact Hne; exact (L4 b Hb)]); pose proof (L4 a Hb) as H0; exfalso;
    (assert (Hin : In a (members c)) by (apply in_app_iff; left; exact Hb); apply Hc in Hin; first [discriminate Hin|lia]).
Qed.

Lemma Unref_handle_ok c hs ins a : cache_ok c (a :: hs) ins -> sz hs < 2 ^ 32 - 3 ->
  exists c', Unref c a = Some c' /\ cache_ok c' hs ins /\ from c c' /\ members c' ≡ₚ members c.
Proof.
  intros HC Hsz. pose proof HC as [[L1 L2 L3 L4 L5 L6 L7 L8] HT]. destruct (L2 a (or_intror (or_introl eq_refl))) as (e & He). destruct (L3 a e He) as (Hc & Er & Hr).
  unfold Unref. rewrite He. pose proof (refs_small hs a (h_in_cache e) ltac:(lia)) as Hs. rewrite occurs_same in Er. cbn [with_refs h_refs h_in_cache h_key h_value].
  rewrite u32_small by lia. assert (HR : h_refs e - 1 = Z.of_nat (occurs hs a) + (if h_in_cache e then 1 else 0)) by lia.
  assert (HL : forall b, b <> a -> occurs hs b = occurs (a :: hs) b) by (intros b Hne; symmetry; exact (occurs_other hs a b Hne)).
  assert (HI : forall b, In b hs -> b = a \/ In b (a :: hs)) by (intros b Hb; right; right; exact Hb).
  destruct (Z.eqb_spec (h_refs e - 1) 0) as [E0|E0].
  - assert (Hnc : h_in_cache e = false) by (destruct (h_in_cache e); [lia|reflexivity]).
    assert (Hnm : ~ In a (members c)) by (rewrite <- Hc, Hnc; discriminate). assert (Hnh : ~ In a hs) by (intros Hx; apply occurs_in in Hx; rewrite Hnc in HR; lia).
    eexists. split; [reflexivity|]. split; [split; [split|]|split; [|reflexivity]]; cbn [lc_heap lc_usage lc_lru lc_in_use lc_next lc_deleted lc_table].
    + exact L1.
    + intros b Hb. rewrite lookup_delete_ne by (intros <-; destruct Hb; contradiction). apply L2. destruct Hb; [auto|right; right; assumption].
    + intros b f Hb. apply lookup_delete_Some in Hb as [Hne Hb]. rewrite HL by congruence. exact (L3 b f Hb).
    + intros b Hb. rewrite HL; [exact (L4 b Hb)|]. intros ->. apply Hnm, in_app_iff. auto.
    + intros b Hb. rewrite HL; [exact (L5 b Hb)|]. intros ->. apply Hnm, in_app_iff. auto.
    + rewrite L6. f_equal. symmetry. apply charges_ext. intros b Hb. rewrite lookup_delete_ne by (intros <-; contradiction). reflexivity.
    + intros b f Hb. apply lookup_delete_Some in Hb as [_ Hb]. exact (L7 b f Hb).
    + rewrite <- app_assoc. cbn [app]. rewrite <- (entries_delete _ a e He). exact L8.
    + apply (table_ok_heap (lc_heap c)); [exact HT|]. intros b f Hb Hf. exists f. rewrite lookup_delete_ne by (intros <-; contradiction). auto.
    + intros b f Hb. cbn [lc_heap] in Hb. apply lookup_delete_Some in Hb as [_ Hb]. exists f. split; [exact Hb|reflexivity].
  - destruct (h_in_cache e) eqn:EC, (Z.eqb_spec (h_refs e - 1) 1) as [E1|E1]; cbn [andb].
    1: {
      assert (Hin : In a (members c)) by (apply Hc; reflexivity). pose proof (members_removed c a L1 Hin) as Hrm.
      destruct (change_ok c (a :: hs) hs ins a e (h_refs e - 1) (remove_address a (lc_lru c) ++ [a]) (remove_address a (lc_in_use c)) HC He) as [H1 H2]; rewrite ?EC; try assumption.
      - lia.
      - rewrite <- Hrm. solve_Permutation.
      - intros b Hb. apply in_app_iff in Hb as [Hb|[<-|[]]]; [|lia]. apply In_remove_address in Hb as [Hb Hne]. rewrite HL by exact Hne. exact (L4 b Hb).
      - intros b Hb. apply In_remove_address in Hb as [Hb Hne]. rewrite HL by exact Hne. exact (L5 b Hb).
      - eexists. split; [reflexivity|]. split; [exact H1|]. split; [exact H2|]. unfold members. cbn. rewrite <- Hrm. solve_Permutation. }
    all: destruct (change_ok c (a :: hs) hs ins a e (h_refs e - 1) (lc_lru c) (lc_in_use c) HC He) as [H1 H2]; rewrite ?EC; try assumption; try lia; try reflexivity;
      [| |rewrite same_lists in H1, H2; eexists; split; [reflexivity|]; split; [exact H1|]; split; [exact H2|reflexivity]]; intros b Hb;
      [pose proof (L4 b Hb) as H0; rewrite occurs_cons in H0; lia|];
      (destruct (decide (b = a)) as [->|Hne]; [|rewrite HL by exact Hne; exact (L5 b Hb)]); try lia;
      (assert (Hin : In a (members c)) by (apply in_app_iff; right; exact Hb); apply Hc in Hin; discriminate).
Qed.

(** ** [FinishErase] *)

Lemma charges_cons heap a e l : heap !! a = Some e -> charges heap (a :: l) = h_charge e + charges heap l.
Proof. intros H. unfold charges. cbn. rewrite H. reflexivity. Qed.

Lemma u64_sub x y : u64 (u64 x - y) = u64 (x - y).
Proof. unfold u64. rewrite Zminus_mod_idemp_l. reflexivity. Qed.

Lemma u64_add x y : u64 (u64 x + y) = u64 (x + y).
Proof. unfold u64. rewrite Zplus_mod_idemp_l. reflexivity. Qed.

Definition detached (c : Cache) (a : nat) (e : LRUHandle V) : Cache :=
  with_usage (with_handles (LRU_Remove c a) (<[a := with_in_cache e false]> (lc_heap c))) (u64 (lc_usage c - h_charge e)).

Lemma detach_ok c hs ins a e : lists_ok c hs ins -> lc_heap c !! a = Some e -> In a (members c) ->
  table_ok (lc_heap c) (lc_table c) (remove_address a (members c)) -> cache_ok (detached c a e) (a :: hs) ins /\ from c (detached c a e).
Proof.
  intros [L1 L2 L3 L4 L5 L6 L7 L8] He Hin HT. destruct (L3 a e He) as (Hc & Er & Hr). set (c' := detached c a e).
  assert (HS : same_entry e (with_in_cache e false)) by (split; reflexivity).
  assert (HM : members c' = remove_address a (members c)) by (symmetry; apply remove_address_app).
  assert (HF : from c c').
  { intros b f Hb. cbn in Hb. apply lookup_insert_Some in Hb as [[<- <-]|[Hne Hb]]; [exists e; auto|exists f; split; [exact Hb|reflexivity]]. }
  assert (Hp : members c ≡ₚ a :: members c') by (rewrite HM; exact (remove_address_perm a _ L1 Hin)).
  split; [|exact HF]. split; [split|]; rewrite ?HM.
  - rewrite Hp in L1. apply list.NoDup_cons in L1 as [_ L1]. rewrite <- HM. exact L1.
  - intros b Hb. cbn. destruct (decide (b = a)) as [->|Hne]; [rewrite lookup_insert_eq; eauto|]. rewrite lookup_insert_ne by congruence. apply L2.
    rewrite In_remove_address in Hb. destruct Hb as [[Hb _]|[Hb|Hb]]; [auto|congruence|auto].
  - intros b f Hb. rewrite In_remove_address. cbn in Hb. apply lookup_insert_Some in Hb as [[<- <-]|[Hne Hb]].
    + cbn [with_in_cache h_in_cache h_refs]. split; [split; [discriminate|tauto]|]. rewrite occurs_same. apply Hc in Hin. rewrite Hin in Er. lia.
    + rewrite occurs_other by congruence. destruct (L3 b f Hb) as (H1 & H2 & H3). split; [|auto]. rewrite H1. split; [intros; split; congruence|tauto].
  - intros b Hb. cbn in Hb. apply In_remove_address in Hb as [Hb Hne]. rewrite occurs_other by exact Hne. exact (L4 b Hb).
  - intros b Hb. cbn in Hb. apply In_remove_address in Hb as [Hb Hne]. rewrite occurs_other by exact Hne. exact (L5 b Hb).
  - change (u64 (lc_usage c - h_charge e) = u64 (charges (<[a := with_in_cache e false]> (lc_heap c)) (remove_address a (members c)))).
    rewrite L6, u64_sub, (charges_perm _ _ _ Hp), (charges_cons _ a e _ He), HM. f_equal.
    rewrite (charges_ext (lc_heap c) (<[a := with_in_cache e false]> (lc_heap c))); [lia|]. intros b Hb. apply In_remove_address in Hb as [_ Hne]. rewrite lookup_insert_ne by congruence. reflexivity.
  - intros b f Hb. destruct (HF b f Hb) as (g & Hg & _). exact (L7 b g Hg).
  - cbn. rewrite (entries_change _ a e _ He HS). exact L8.
  - apply (table_ok_heap (lc_heap c)); [exact HT|]. intros b f Hb Hf. apply In_remove_address in Hb as [_ Hne]. exists f. cbn. rewrite lookup_insert_ne by congruence. auto.
Qed.

Lemma Unref_uncached (c : Cache) a e c' : lc_heap c !! a = Some e -> h_in_cache e = false -> Unref c a = Some c' ->
  lc_lru c' = lc_lru c /\ lc_in_use c' = lc_in_use c /\ lc_capacity c' = lc_capacity c.
Proof. intros He Hc. unfold Unref. rewrite He. cbn. rewrite Hc. destruct (_ =? 0); intros E; injection E as <-; auto. Qed.

Lemma FinishErase_ok c hs ins a : lists_ok c hs ins -> In a (members c) -> sz hs < 2 ^ 32 - 3 ->
  table_ok (lc_heap c) (lc_table c) (remove_address a (members c)) ->
  exists c', FinishErase c (Some a) = Some c' /\ cache_ok c' hs ins /\ from c c' /\ lc_capacity c' = lc_capacity c /\
    lc_lru c' = remove_address a (lc_lru c) /\ lc_in_use c' = remove_address a (lc_in_use c).
Proof.
  intros HL Hin Hsz HT. destruct (lo_alive _ _ _ HL a (or_introl Hin)) as (e & He). destruct (detach_ok c hs ins a e HL He Hin HT) as [H1 H2].
  destruct (Unref_handle_ok _ hs ins a H1 Hsz) as (c' & E & C1 & C2 & _). exists c'. cbn [FinishErase]. rewrite He.
  split; [exact E|]. split; [exact C1|]. split; [etransitivity; eassumption|].
  destruct (Unref_uncached (detached c a e) a (with_in_cache e false) c') as (U1 & U2 & U3); [apply lookup_insert_eq|reflexivity|exact E|].
  split; [exact U3|]. split; [exact U1|exact U2].
Qed.

(** ** [Erase] and the eviction of the oldest handle *)

Definition cached (c : Cache) (key : bytes) (hash : Z) (a : nat) : Prop := exists e, lc_heap c !! a = Some e /\ In a (members c) /\ matches e key hash.

Lemma cached_unique c hs ins key hash a b : cache_ok c hs ins -> cached c key hash a -> cached c key hash b -> a = b.
Proof. intros [_ HT] (e & He & Ha & K1 & H1) (f & Hf & Hb & K2 & H2). apply (to_keys _ _ _ HT a b e f); congruence. Qed.

(** ** What a lookup would find *)

Definition find (c : Cache) (key : bytes) (hash : Z) : option nat :=
  match HT_Lookup (lc_heap c) (lc_table c) key hash with Some r => r | None => None end.

Lemma find_cached c hs ins key hash a : cache_ok c hs ins -> find c key hash = Some a <-> cached c key hash a.
Proof.
  intros HC. pose proof HC as [HL HT]. unfold find. destruct (HT_Lookup_ok _ _ _ key hash HT) as [(b & e & -> & He & HM & Hin)|[-> Hno]].
  - assert (Hb : cached c key hash b) by (exists e; auto). split; [intros E; injection E as <-; exact Hb|]. intros Ha. f_equal. exact (cached_unique c hs ins key hash b a HC Hb Ha).
  - split; [discriminate|]. intros (e & He & Ha & HM). exfalso. exact (Hno a e Ha He HM).
Qed.

Lemma find_None c hs ins key hash : cache_ok c hs ins -> (forall a, ~ cached c key hash a) -> find c key hash = None.
Proof. intros HC H. destruct (find c key hash) as [a|] eqn:E; [|reflexivity]. apply (find_cached c hs ins key hash a HC) in E. exfalso. exact (H a E). Qed.

Lemma erase_ok c hs ins key hash : cache_ok c hs ins -> sz hs < 2 ^ 32 - 3 -> sz (members c) < 2 ^ 31 ->
  exists c', erase c key hash = Some c' /\ cache_ok c' hs ins /\ from c c' /\ lc_capacity c' = lc_capacity c /\
  ((exists a, cached c key hash a /\ lc_lru c' = remove_address a (lc_lru c) /\ lc_in_use c' = remove_address a (lc_in_use c)) \/
   c' = c /\ forall a, ~ cached c key hash a).
Proof.
  intros HC Hsz Hm. pose proof HC as [HL HT]. unfold erase.
  destruct (HT_Remove_ok (lc_heap c) (lc_table c) (members c) key hash HT ltac:(lia)) as [(a & e & t & -> & He & HM & Hin & Hrest)|[-> Hno]].
  - destruct (FinishErase_ok (with_table c t) hs ins a) as (c' & E & C1 & C2 & C3 & C4 & C5).
    + destruct HL as [L1 L2 L3 L4 L5 L6 L7 L8]. split; assumption.
    + exact Hin.
    + exact Hsz.
    + apply Hrest. exact (remove_address_perm a _ (lo_nodup _ _ _ HL) Hin).
    + exists c'. split; [exact E|]. split; [exact C1|]. split; [exact C2|]. split; [exact C3|]. left. exists a. split; [exists e; auto|]. split; [exact C4|exact C5].
  - exists c. assert (with_table c (lc_table c) = c) as -> by (destruct c; reflexivity). split; [reflexivity|]. split; [exact HC|]. split; [reflexivity|]. split; [reflexivity|].
    right. split; [reflexivity|]. intros a (e & He & Ha & HM). exact (Hno a e Ha He HM).
Qed.

Lemma evict_oldest_ok c hs ins a rest : cache_ok c hs ins -> sz hs < 2 ^ 32 - 3 -> sz (members c) < 2 ^ 31 -> lc_lru c = a :: rest ->
  exists c', evict_oldest c = Some c' /\ cache_ok c' hs ins /\ from c c' /\ lc_capacity c' = lc_capacity c /\ lc_lru c' = rest /\ lc_in_use c' = lc_in_use c.
Proof.
  intros HC Hsz Hm El. pose proof HC as [HL HT]. assert (Hin : In a (members c)) by (unfold members; rewrite El; left; reflexivity).
  destruct (lo_alive _ _ _ HL a (or_introl Hin)) as (e & He). unfold evict_oldest. rewrite El, He.
  assert (Ca : cached c (h_key e) (h_hash e) a) by (exists e; split; [exact He|]; split; [exact Hin|split; reflexivity]).
  destruct (erase_ok c hs ins (h_key e) (h_hash e) HC Hsz Hm) as (c' & E & C1 & C2 & C3 & [(b & Cb & C4 & C5)|[_ Hno]]); [|exfalso; exact (Hno a Ca)].
  rewrite <- (cached_unique c hs ins _ _ a b HC Ca Cb) in C4, C5. exists c'. split; [exact E|]. split; [exact C1|]. split; [exact C2|]. split; [exact C3|].
  pose proof (lo_nodup _ _ _ HL) as Hnd. unfold members in Hnd. rewrite El in Hnd. cbn [app] in Hnd. apply list.NoDup_cons in Hnd as [Hnd _].
  rewrite list_elem_of_In, in_app_iff in Hnd. rewrite El in C4. split.
  - rewrite C4. cbn. rewrite Nat.eqb_refl. cbn. apply remove_address_notin. tauto.
  - rewrite C5. apply remove_address_notin. tauto.
Qed.

(** Handles that left the LRU list took their charges with them. *)

Lemma charges_app heap l l' : charges heap (l ++ l') = charges heap l + charges heap l'.
Proof. unfold charges. induction l as [|a l IH]; [reflexivity|]. cbn. rewrite IH. destruct (heap !! a); lia. Qed.

Lemma charges_from c c' l : from c c' -> (forall a, In a l -> exists e, lc_heap c' !! a = Some e) -> charges (lc_heap c') l = charges (lc_heap c) l.
Proof.
  intros HF Ha. apply charges_ext. intros a Hin. destruct (Ha a Hin) as (e' & He'). destruct (HF a e' He') as (e & He & [_ _ _ Hc]). rewrite He, He'. cbn. congruence.
Qed.

Lemma usage_after c c' hs ins gone : cache_ok c hs ins -> cache_ok c' hs ins -> from c c' -> lc_in_use c' = lc_in_use c -> lc_lru c = gone ++ lc_lru c' ->
  lc_usage c = u64 (lc_usage c' + charges (lc_heap c) gone).
Proof.
  intros [HL _] [HL' _] HF Eu El. rewrite (lo_usage _ _ _ HL), (lo_usage _ _ _ HL'), u64_add. f_equal.
  rewrite (charges_from c c' (members c') HF) by (intros a Ha; exact (lo_alive _ _ _ HL' a (or_introl Ha))).
  unfold members. rewrite El, Eu, !charges_app. lia.
Qed.

(** Each handle in [gone] left while the charge of what was still there exceeded the capacity. *)

Definition forced (c c' : Cache) (gone : list nat) : Prop :=
  forall g1 a g2, gone = g1 ++ a :: g2 -> lc_capacity c < u64 (lc_usage c' + charges (lc_heap c) (a :: g2)).

Lemma evict_loop_ok hs ins : sz hs < 2 ^ 32 - 3 -> forall n c, length (lc_lru c) = n -> cache_ok c hs ins -> sz (members c) < 2 ^ 31 ->
  exists c' gone, evict_loop n c = Some c' /\ cache_ok c' hs ins /\ from c c' /\ lc_capacity c' = lc_capacity c /\ lc_in_use c' = lc_in_use c /\
    lc_lru c = gone ++ lc_lru c' /\ forced c c' gone /\ (lc_usage c' <= lc_capacity c' \/ lc_lru c' = []).
Proof.
  intros Hsz. assert (Hnil : forall c, forced c c []) by (intros c [|x g1] a g2 E; discriminate E). induction n as [|n IH]; intros c El HC Hm.
  - apply nil_length_inv in El. exists c, []. split; [reflexivity|]. split; [exact HC|]. split; [reflexivity|]. split; [reflexivity|]. split; [reflexivity|]. split; [reflexivity|]. split; [apply Hnil|right; exact El].
  - cbn [evict_loop]. destruct (lc_lru c) as [|a rest] eqn:Elr; [discriminate El|]. destruct (Z.ltb_spec (lc_capacity c) (lc_usage c)) as [Hlt|Hge].
    + destruct (evict_oldest_ok c hs ins a rest HC Hsz Hm Elr) as (c1 & -> & C1 & C2 & C3 & C4 & C5).
      assert (Hm1 : sz (members c1) < 2 ^ 31) by (unfold members, sz in *; rewrite C4, C5; rewrite Elr in Hm; cbn [app length] in Hm; lia).
      destruct (IH c1 ltac:(rewrite C4; cbn [length] in El; lia) C1 Hm1) as (c2 & gone & E & D1 & D2 & D3 & D4 & D5 & DF & D6).
      assert (D2' : from c c2) by (etransitivity; eassumption). assert (Eg : lc_lru c = (a :: gone) ++ lc_lru c2) by (cbn [app]; rewrite <- D5, C4; exact Elr).
      exists c2, (a :: gone). split; [exact E|]. split; [exact D1|]. split; [exact D2'|]. split; [congruence|]. split; [congruence|].
      split; [rewrite <- Elr; exact Eg|]. split; [|exact D6]. intros [|x g1] b g2 Es; injection Es as <- Es.
      * rewrite <- Es, <- (usage_after c c2 hs ins (a :: gone) HC D1 D2' ltac:(congruence) Eg). exact Hlt.
      * rewrite <- C3, <- (charges_from c c1 (b :: g2) C2); [exact (DF g1 b g2 Es)|]. intros y Hy. destruct C1 as [HL1 _]. apply (lo_alive _ _ _ HL1). left.
        unfold members. rewrite D5, Es, !in_app_iff. left. left. right. exact Hy.
    + exists c, []. rewrite Elr. split; [reflexivity|]. split; [exact HC|]. split; [reflexivity|]. split; [reflexivity|]. split; [reflexivity|]. split; [reflexivity|]. split; [apply Hnil|left; exact Hge].
Qed.

Lemma Prune_ok c hs ins : sz hs < 2 ^ 32 - 3 -> cache_ok c hs ins -> sz (members c) < 2 ^ 31 ->
  exists c', Prune c = Some c' /\ cache_ok c' hs ins /\ from c c' /\ lc_capacity c' = lc_capacity c /\ lc_in_use c' = lc_in_use c /\ lc_lru c' = [].
Proof.
  intros Hsz. unfold Prune. remember (length (lc_lru c)) as n eqn:El. symmetry in El. revert c El. induction n as [|n IH]; intros c El HC Hm.
  - apply nil_length_inv in El. exists c. split; [reflexivity|]. split; [exact HC|]. split; [reflexivity|]. auto.
  - cbn [prune_loop]. destruct (lc_lru c) as [|a rest] eqn:Elr; [discriminate El|].
    destruct (evict_oldest_ok c hs ins a rest HC Hsz Hm Elr) as (c1 & -> & C1 & C2 & C3 & C4 & C5).
    assert (Hm1 : sz (members c1) < 2 ^ 31) by (unfold members, sz in *; rewrite C4, C5; rewrite Elr in Hm; cbn [app length] in Hm; lia).
    destruct (IH c1 ltac:(rewrite C4; cbn [length] in El; lia) C1 Hm1) as (c2 & E & D1 & D2 & D3 & D4 & D5).
    exists c2. split; [exact E|]. split; [exact D1|]. split; [etransitivity; eassumption|]. split; [congruence|]. split; [congruence|exact D5].
Qed.

(** ** [Lookup] *)

Lemma Ref_capacity (c c' : Cache) a : Ref c a = Some c' -> lc_capacity c' = lc_capacity c.
Proof. unfold Ref. destruct (lc_heap c !! a) as [e|]; [|discriminate]. intros E. injection E as <-. destruct (_ && _); reflexivity. Qed.

Lemma Unref_capacity (c c' : Cache) a : Unref c a = Some c' -> lc_capacity c' = lc_capacity c.
Proof.
  unfold Unref. destruct (lc_heap c !! a) as [e|]; [|discriminate]. destruct (_ =? 0); intros E; injection E as <-; [reflexivity|].
  destruct (_ && _); reflexivity.
Qed.

Lemma Lookup_ok c hs ins key hash : cache_ok c hs ins -> sz hs < 2 ^ 32 - 2 ->
  (exists a c', Lookup c key hash = Some (Some a, c') /\ cached c key hash a /\ cache_ok c' (a :: hs) ins /\ from c c' /\ members c' ≡ₚ members c /\
     lc_capacity c' = lc_capacity c) \/
  Lookup c key hash = Some (None, c) /\ forall a, ~ cached c key hash a.
Proof.
  intros HC Hsz. pose proof HC as [HL HT]. unfold Lookup.
  destruct (HT_Lookup_ok (lc_heap c) (lc_table c) (members c) key hash HT) as [(a & e & -> & He & HM & Hin)|[-> Hno]]; [left|right].
  - destruct (Ref_ok c hs ins a HC (or_introl Hin) Hsz) as (c' & E & C1 & C2 & C3). exists a, c'. rewrite E. split; [reflexivity|]. split; [exists e; auto|].
    split; [exact C1|]. split; [exact C2|]. split; [exact C3|exact (Ref_capacity c c' a E)].
  - split; [reflexivity|]. intros a (e & He & Ha & HM). exact (Hno a e Ha He HM).
Qed.

(** ** [Insert] *)

Definition attached (c : Cache) (key : bytes) (hash : Z) (value : V) (charge : Z) (b : bool) : Cache :=
  let a := lc_next c in
  mkLRUCache (lc_capacity c) (if b then u64 (lc_usage c + charge) else lc_usage c) (lc_lru c) (if b then lc_in_use c ++ [a] else lc_in_use c) (lc_table c)
    (<[a := mkHandle value charge key b (if b then 2 else 1) hash]> (lc_heap c)) (S a) (lc_deleted c).

Lemma next_fresh c hs ins : lists_ok c hs ins -> lc_heap c !! lc_next c = None /\ ~ In (lc_next c) (members c) /\ ~ In (lc_next c) hs.
Proof.
  intros HL. assert (HN : lc_heap c !! lc_next c = None).
  { destruct (lc_heap c !! lc_next c) as [e|] eqn:E; [|reflexivity]. apply (lo_fresh _ _ _ HL) in E. lia. }
  split; [exact HN|]. split; intros Hx; [destruct (lo_alive _ _ _ HL _ (or_introl Hx))|destruct (lo_alive _ _ _ HL _ (or_intror Hx))]; congruence.
Qed.

Lemma attach_ok c hs ins key hash value charge b : lists_ok c hs ins -> lists_ok (attached c key hash value charge b) (lc_next c :: hs) ((key, value) :: ins).
Proof.
  intros HL. destruct (next_fresh c hs ins HL) as (N1 & N2 & N3). destruct HL as [L1 L2 L3 L4 L5 L6 L7 L8]. set (a := lc_next c) in *. set (c' := attached c key hash value charge b).
  assert (HH : lc_heap c' = <[a := mkHandle value charge key b (if b then 2 else 1) hash]> (lc_heap c)) by reflexivity.
  assert (HM : members c' ≡ₚ (if b then [a] else []) ++ members c) by (unfold members; destruct b; cbn; solve_Permutation).
  assert (HN : forall x, In x (members c) \/ In x hs -> x <> a) by (intros x [] ->; contradiction).
  assert (HX : charges (<[a := mkHandle value charge key b (if b then 2 else 1) hash]> (lc_heap c)) (members c) = charges (lc_heap c) (members c)).
  { apply charges_ext. intros x Hx. rewrite lookup_insert_ne by (intros <-; contradiction). reflexivity. }
  split.
  - rewrite HM. destruct b; [|exact L1]. apply list.NoDup_cons. rewrite list_elem_of_In. auto.
  - intros x Hx. rewrite HM in Hx. rewrite HH. destruct (decide (x = a)) as [->|Hne]; [rewrite lookup_insert_eq; eauto|]. rewrite lookup_insert_ne by congruence. apply L2.
    rewrite in_app_iff in Hx. destruct Hx as [[Hx|Hx]|[Hx|Hx]]; auto; [destruct b; cbn in Hx; intuition congruence|congruence].
  - intros x f Hx. rewrite HM, in_app_iff. rewrite HH in Hx. apply lookup_insert_Some in Hx as [[<- <-]|[Hne Hx]].
    + cbn [h_in_cache h_refs]. rewrite occurs_same, (occurs_not_in hs a N3). destruct b; cbn; [split; [tauto|lia]|]. split; [split; [discriminate|tauto]|lia].
    + rewrite occurs_other by congruence. destruct (L3 x f Hx) as (H1 & H2). split; [|exact H2]. rewrite H1. destruct b; cbn; intuition congruence.
  - intros x Hx. cbn in Hx. rewrite occurs_other; [exact (L4 x Hx)|]. apply HN. left. apply in_app_iff. auto.
  - intros x Hx. destruct (decide (x = a)) as [->|Hne]; [rewrite occurs_same; lia|]. rewrite occurs_other by exact Hne. apply L5.
    destruct b; cbn in Hx; [|exact Hx]. apply in_app_iff in Hx as [Hx|[Hx|[]]]; [exact Hx|exfalso; apply Hne; symmetry; exact Hx].
  - change ((if b then u64 (lc_usage c + charge) else lc_usage c) = u64 (charges (<[a := mkHandle value charge key b (if b then 2 else 1) hash]> (lc_heap c)) (members c'))).
    rewrite (charges_perm _ _ _ HM). destruct b; cbn [app]; [|rewrite HX; exact L6].
    erewrite charges_cons by apply lookup_insert_eq. rewrite HX, L6, u64_add. cbn [h_charge]. f_equal. lia.
  - intros x f Hx. change (lc_next c') with (S a). rewrite HH in Hx. apply lookup_insert_Some in Hx as [[<- <-]|[Hne Hx]]; [unfold a; lia|]. apply L7 in Hx. lia.
  - rewrite HH, (entries_new _ a _ N1). cbn. rewrite <- L8. solve_Permutation.
Qed.

(** The insertion up to the evictions: the handle of the same key, if there is one, leaves. *)

Definition old_lru (c : Cache) (key : bytes) (hash : Z) : list nat :=
  match find c key hash with Some b => if 0 <? lc_capacity c then remove_address b (lc_lru c) else lc_lru c | None => lc_lru c end.

Lemma In_old_lru c hs ins key hash x : cache_ok c hs ins -> In x (old_lru c key hash) <-> In x (lc_lru c) /\ (0 < lc_capacity c -> ~ cached c key hash x).
Proof.
  intros HC. unfold old_lru. pose proof (fun y => find_cached c hs ins key hash y HC) as HF. destruct (find c key hash) as [b|].
  - destruct (Z.ltb_spec 0 (lc_capacity c)) as [Hlt|Hge]; [|split; [intros Hx; split; [exact Hx|lia]|tauto]].
    rewrite In_remove_address. rewrite <- HF. split; [intros [H1 H2]; split; [exact H1|intros _ E; congruence]|]. intros [H1 H2]. split; [exact H1|]. intros ->. exact (H2 Hlt eq_refl).
  - split; [|tauto]. intros Hx. split; [exact Hx|]. rewrite <- HF. discriminate.
Qed.

Definition placed (c c' : Cache) (key : bytes) (hash : Z) : Prop :=
  (forall x, In x (lc_in_use c') <-> x = lc_next c \/ In x (lc_in_use c) /\ ~ cached c key hash x) /\
  lc_lru c' = (match find c key hash with Some b => remove_address b (lc_lru c) | None => lc_lru c end) /\ (length (lc_lru c') <= length (lc_lru c))%nat /\
  (length (lc_in_use c') <= S (length (lc_in_use c)))%nat.

Lemma remove_address_length a l : (length (remove_address a l) <= length l)%nat.
Proof. apply filter_length_le. Qed.

Lemma place_ok c hs ins key hash value charge : cache_ok c hs ins -> sz hs < 2 ^ 32 - 4 -> sz (members c) < 2 ^ 31 ->
  let c1 := attached c key hash value charge true in
  exists old t c', HT_Insert (lc_heap c1) (lc_table c) (lc_next c) = Some (old, t) /\ FinishErase (with_table c1 t) old = Some c' /\
    cache_ok c' (lc_next c :: hs) ((key, value) :: ins) /\ from c1 c' /\ lc_capacity c' = lc_capacity c /\ placed c c' key hash.
Proof.
  intros HC Hsz Hm c1. pose proof HC as [HL HT]. destruct (next_fresh c hs ins HL) as (N1 & N2 & N3). pose proof (attach_ok c hs ins key hash value charge true HL) as HA. fold c1 in HA.
  assert (HM : members c1 ≡ₚ lc_next c :: members c) by (unfold members; cbn; solve_Permutation).
  assert (HO : forall x f, In x (members c) -> lc_heap c1 !! x = Some f <-> lc_heap c !! x = Some f).
  { intros x f Hx. cbn. rewrite lookup_insert_ne by (intros <-; contradiction). reflexivity. }
  assert (HT1 : table_ok (lc_heap c1) (lc_table c) (members c)) by (apply (table_ok_heap (lc_heap c)); [exact HT|]; intros x f Hx Hf; exists f; rewrite HO; auto).
  assert (He : lc_heap c1 !! lc_next c = Some (mkHandle value charge key true 2 hash)) by apply lookup_insert_eq.
  assert (HL1 : forall t, lists_ok (with_table c1 t) (lc_next c :: hs) ((key, value) :: ins)) by (intros t; destruct HA; split; assumption).
  destruct (HT_Insert_ok (lc_heap c1) (lc_table c) (members c) (lc_next c) _ HT1 Hm He N2) as [(t & E & Ht & Hno)|(b & f & t & E & Hf & HMf & Hb & Ht)]; cbn [h_key h_hash] in *.
  - assert (Hnc : forall x, ~ cached c key hash x) by (intros x (f & Hf & Hx & Hmt); apply (Hno x f Hx); [apply HO|]; assumption).
    exists None, t, (with_table c1 t). split; [exact E|]. split; [reflexivity|]. split; [split; [apply HL1|]|split; [exact (from_refl c1)|split; [reflexivity|]]].
    + exact (table_ok_perm _ _ _ _ Ht (Permutation_sym HM)).
    + split; [|split; [|cbn; rewrite length_app; cbn; lia]]; [intros x; cbn; rewrite ?in_app_iff; cbn; specialize (Hnc x); intuition congruence|].
      rewrite (find_None c hs ins key hash HC Hnc). reflexivity.
  - apply HO in Hf; [|exact Hb]. assert (Hcb : forall x, cached c key hash x <-> x = b).
    { intros x. split; [|intros ->; exists f; auto]. intros Hx. apply (cached_unique c hs ins key hash x b HC Hx). exists f. auto. }
    assert (Hba : b <> lc_next c) by congruence.
    destruct (FinishErase_ok (with_table c1 t) (lc_next c :: hs) ((key, value) :: ins) b (HL1 t)) as (c' & E' & C1 & C2 & C3 & C4 & C5).
    + change (In b (members c1)). rewrite HM. right. exact Hb.
    + unfold sz in *. cbn [length]. lia.
    + change (table_ok (lc_heap c1) t (remove_address b (members c1))). apply (table_ok_perm _ _ (lc_next c :: remove_address b (members c))); [apply Ht, remove_address_perm; [exact (lo_nodup _ _ _ HL)|exact Hb]|].
      apply (Permutation_cons_inv (a := b)). transitivity (lc_next c :: b :: remove_address b (members c)); [apply perm_swap|].
      transitivity (lc_next c :: members c); [apply perm_skip; symmetry; exact (remove_address_perm b _ (lo_nodup _ _ _ HL) Hb)|].
      transitivity (members c1); [symmetry; exact HM|]. apply remove_address_perm; [exact (lo_nodup _ _ _ HA)|rewrite HM; right; exact Hb].
    + exists (Some b), t, c'. split; [exact E|]. split; [exact E'|]. split; [exact C1|]. split; [exact C2|]. split; [exact C3|]. split; [|split; [|split]].
      * intros x. rewrite C5, In_remove_address, Hcb. cbn. rewrite in_app_iff. cbn. intuition congruence.
      * rewrite C4, (proj2 (find_cached c hs ins key hash b HC) (proj2 (Hcb b) eq_refl)). reflexivity.
      * rewrite C4. apply remove_address_length.
      * rewrite C5. etransitivity; [apply remove_address_length|]. cbn. rewrite length_app. cbn. lia.
Qed.

(** What an insertion evicts: the oldest handles of the list, one after another,
    while the charge exceeds the capacity. *)

Definition evicted (c c' : Cache) (key : bytes) (hash : Z) (gone : list nat) : Prop :=
  old_lru c key hash = gone ++ lc_lru c' /\ forced c c' gone /\ (TotalCharge c' <= lc_capacity c \/ lc_lru c' = []).

Lemma forced_attached c hs ins key hash value charge b c1 c2 hs1 ins1 gone : cache_ok c hs ins -> from (attached c key hash value charge b) c1 -> cache_ok c1 hs1 ins1 ->
  lc_capacity c1 = lc_capacity c -> (forall x, In x gone -> In x (lc_lru c) /\ In x (lc_lru c1)) -> forced c1 c2 gone -> forced c c2 gone.
Proof.
  intros [HL _] HF [HL1 _] Ec Hin H g1 a g2 Es. destruct (next_fresh c hs ins HL) as (_ & N2 & _). rewrite <- Ec.
  assert (Ha : forall x, In x (a :: g2) -> In x (lc_lru c) /\ In x (lc_lru c1)) by (intros x Hx; apply Hin; rewrite Es; apply in_app_iff; right; exact Hx).
  assert (E : charges (lc_heap c) (a :: g2) = charges (lc_heap (attached c key hash value charge b)) (a :: g2)).
  { apply charges_ext. intros x Hx. cbn [attached lc_heap]. rewrite lookup_insert_ne; [reflexivity|]. intros <-. apply N2, in_app_iff. left. apply Ha, Hx. }
  rewrite E, <- (charges_from _ c1 (a :: g2) HF); [exact (H g1 a g2 Es)|]. intros x Hx. apply (lo_alive _ _ _ HL1). left. apply in_app_iff. left. apply Ha, Hx.
Qed.

Lemma Insert_ok c hs ins key hash value charge : cache_ok c hs ins -> sz hs < 2 ^ 32 - 4 -> sz (members c) < 2 ^ 31 - 1 ->
  exists c', Insert c key hash value charge = Some (lc_next c, c') /\ cache_ok c' (lc_next c :: hs) ((key, value) :: ins) /\
    from (attached c key hash value charge (0 <? lc_capacity c)) c' /\ lc_capacity c' = lc_capacity c /\ (exists gone, evicted c c' key hash gone) /\
    (forall x, In x (lc_in_use c') <-> 0 < lc_capacity c /\ x = lc_next c \/ In x (lc_in_use c) /\ (0 < lc_capacity c -> ~ cached c key hash x)) /\
    (forall x, In x (lc_lru c') -> In x (lc_lru c) /\ (0 < lc_capacity c -> ~ cached c key hash x)).
Proof.
  intros HC Hsz Hm. unfold Insert. cbn [lc_capacity]. destruct (Z.ltb_spec 0 (lc_capacity c)) as [Hlt|Hge].
  - destruct (place_ok c hs ins key hash value charge HC Hsz ltac:(lia)) as (old & t & c1 & E1 & E2 & C1 & C2 & C3 & P1 & P2 & P3 & P4).
    match goal with |- context [with_usage ?x ?y] => replace (with_usage x y) with (attached c key hash value charge true) by (unfold attached; cbn; rewrite insert_insert_eq; reflexivity) end.
    cbv zeta. change (lc_table (attached c key hash value charge true)) with (lc_table c). rewrite E1, E2.
    destruct (evict_loop_ok (lc_next c :: hs) ((key, value) :: ins) ltac:(unfold sz in *; cbn [length]; lia) _ c1 eq_refl C1) as (c2 & gone & E & D1 & D2 & D3 & D4 & D5 & DF & D6).
    { unfold sz, members in *. rewrite length_app in Hm |- *. lia. }
    exists c2. rewrite E. split; [reflexivity|]. split; [exact D1|]. split; [etransitivity; eassumption|]. split; [congruence|].
    assert (Eo : old_lru c key hash = lc_lru c1) by (unfold old_lru; rewrite P2, (proj2 (Z.ltb_lt _ _) Hlt); destruct (find c key hash); reflexivity).
    assert (HI : forall x, In x (lc_lru c1) -> In x (lc_lru c) /\ (0 < lc_capacity c -> ~ cached c key hash x)) by (intros x; rewrite <- Eo; apply (In_old_lru c hs ins), HC).
    split; [exists gone; split; [congruence|split; [|unfold TotalCharge; rewrite <- C3, <- D3; exact D6]]|split].
    + apply (forced_attached c hs ins key hash value charge true c1 c2 _ _ gone HC C2 C1 C3); [|exact DF].
      intros x Hx. assert (Hx1 : In x (lc_lru c1)) by (rewrite D5; apply in_app_iff; left; exact Hx). split; [apply HI|]; exact Hx1.
    + intros x. rewrite D4, P1. tauto.
    + intros x Hx. apply HI. rewrite D5. apply in_app_iff. right. exact Hx.
  - pose proof HC as [HL HT]. pose proof (attach_ok c hs ins key hash value charge false HL) as HA. set (c1 := attached c key hash value charge false) in *.
    destruct (next_fresh c hs ins HL) as (N1 & N2 & N3).
    assert (C1 : cache_ok c1 (lc_next c :: hs) ((key, value) :: ins)).
    { split; [exact HA|]. apply (table_ok_heap (lc_heap c)); [exact HT|]. intros x f Hx Hf. exists f. cbn. rewrite lookup_insert_ne by (intros <-; contradiction). auto. }
    destruct (evict_loop_ok (lc_next c :: hs) ((key, value) :: ins) ltac:(unfold sz in *; cbn [length]; lia) _ c1 eq_refl C1) as (c2 & gone & E & D1 & D2 & D3 & D4 & D5 & DF & D6).
    { change (sz (members c) < 2 ^ 31). lia. }
    exists c2. change (mkLRUCache _ _ _ _ _ _ _ _) with c1. rewrite E. split; [reflexivity|]. split; [exact D1|]. split; [exact D2|]. split; [exact D3|].
    assert (Eo : old_lru c key hash = lc_lru c1) by (unfold old_lru; rewrite (proj2 (Z.ltb_ge _ _) Hge); destruct (find c key hash); reflexivity).
    split; [exists gone; split; [congruence|split; [|unfold TotalCharge; change (lc_capacity c) with (lc_capacity c1); rewrite <- D3; exact D6]]|split].
    + apply (forced_attached c hs ins key hash value charge false c1 c2 _ _ gone HC (from_refl c1) C1 eq_refl); [|exact DF].
      intros x Hx. assert (Hx1 : In x (lc_lru c1)) by (rewrite D5; apply in_app_iff; left; exact Hx). split; exact Hx1.
    + intros x. rewrite D4. cbn. split; [intros Hx; right; split; [exact Hx|lia]|intros [[H _]|[Hx _]]; [lia|exact Hx]].
    + intros x Hx. split; [|lia]. change (lc_lru c) with (lc_lru c1). rewrite D5. apply in_app_iff. right. exact Hx.
Qed.

(** ** How the operations change what a lookup finds *)

Lemma cached_from c c' hs' ins' key hash a : from c c' -> cache_ok c' hs' ins' -> (forall x, In x (members c') -> In x (members c)) ->
  cached c' key hash a <-> cached c key hash a /\ In a (members c').
Proof.
  intros HF [HL _] Hsub. split.
  - intros (e' & He' & Ha & K & H). destruct (HF a e' He') as (e & He & [S1 S2 _ _]). split; [|exact Ha]. exists e. split; [exact He|]. split; [apply Hsub, Ha|]. split; congruence.
  - intros [(e & He & Ha & K & H) Ha']. destruct (lo_alive _ _ _ HL a (or_introl Ha')) as (e' & He'). destruct (HF a e' He') as (e0 & He0 & [S1 S2 _ _]).
    rewrite He in He0. injection He0 as <-. exists e'. split; [exact He'|]. split; [exact Ha'|]. split; congruence.
Qed.

(** Two states that agree on the handles of a key agree on the lookup. *)

Lemma find_same c c' hs hs' ins ins' key hash : cache_ok c hs ins -> cache_ok c' hs' ins' -> (forall a, cached c' key hash a <-> cached c key hash a) ->
  find c' key hash = find c key hash.
Proof.
  intros HC HC' H. destruct (find c key hash) as [a|] eqn:E.
  - apply (find_cached c' hs' ins' key hash a HC'), H. exact (proj1 (find_cached c hs ins key hash a HC) E).
  - apply (find_None c' hs' ins' key hash HC'). intros a Ha. apply H, (find_cached c hs ins key hash a HC) in Ha. congruence.
Qed.

Lemma find_members c c' hs hs' ins ins' key hash : cache_ok c hs ins -> cache_ok c' hs' ins' -> from c c' -> members c' ≡ₚ members c -> find c' key hash = find c key hash.
Proof.
  intros HC HC' HF Hp. apply (find_same c c' hs hs' ins ins' key hash HC HC'). intros a.
  rewrite (cached_from c c' hs' ins' key hash a HF HC') by (intros x; rewrite Hp; auto). rewrite Hp. split; [tauto|]. intros Ha. split; [exact Ha|]. destruct Ha as (e & _ & Ha & _). exact Ha.
Qed.

Lemma erase_find c hs ins key hash c' : cache_ok c hs ins -> sz hs < 2 ^ 32 - 3 -> sz (members c) < 2 ^ 31 -> erase c key hash = Some c' ->
  find c' key hash = None /\ forall key' hash', (key', hash') <> (key, hash) -> find c' key' hash' = find c key' hash'.
Proof.
  intros HC Hsz Hm E. destruct (erase_ok c hs ins key hash HC Hsz Hm) as (c1 & E1 & C1 & C2 & _ & HX). rewrite E in E1. injection E1 as <-.
  destruct HX as [(a & Ha & X1 & X2)|[-> Hno]]; [|split; [exact (find_None c hs ins key hash HC Hno)|reflexivity]].
  assert (HM : forall x, In x (members c') <-> In x (members c) /\ x <> a) by (intros x; unfold members; rewrite X1, X2, <- remove_address_app; apply In_remove_address).
  pose proof (fun k h b => cached_from c c' hs ins k h b C2 C1 ltac:(intros x Hx; apply HM in Hx; tauto)) as HF. split.
  - apply (find_None c' hs ins key hash C1). intros b Hb. apply HF in Hb as [Hb Hbm]. apply HM in Hbm as [_ Hne]. apply Hne. exact (cached_unique c hs ins key hash b a HC Hb Ha).
  - intros key' hash' Hne. apply (find_same c c' hs hs ins ins key' hash' HC C1). intros b. rewrite HF, HM. split; [tauto|]. intros Hb. split; [exact Hb|].
    pose proof Hb as (e & He & Hin & K & H). split; [exact Hin|]. intros ->. destruct Ha as (f & Hf & _ & K' & H'). apply Hne. rewrite He in Hf. injection Hf as <-. congruence.
Qed.

Lemma Prune_find c hs ins c' key hash : cache_ok c hs ins -> sz hs < 2 ^ 32 - 3 -> sz (members c) < 2 ^ 31 -> Prune c = Some c' ->
  find c' key hash = match find c key hash with Some a => if bool_decide (a ∈ hs) then Some a else None | None => None end.
Proof.
  intros HC Hsz Hm E. destruct (Prune_ok c hs ins Hsz HC Hm) as (c1 & E1 & C1 & C2 & _ & C4 & C5). rewrite E in E1. injection E1 as <-.
  assert (HM : forall x, In x (members c') <-> In x (members c) /\ In x hs).
  { intros x. unfold members. rewrite C4, C5. cbn [app]. destruct HC as [HL _]. rewrite in_app_iff. pose proof (lo_in_use _ _ _ HL x) as HU. pose proof (lo_lru _ _ _ HL x) as HR.
    split.
    - intros Hx. split; [auto|]. destruct (in_dec Nat.eq_dec x hs) as [Hin|Hno]; [exact Hin|]. rewrite (occurs_not_in hs x Hno) in HU. specialize (HU Hx). lia.
    - intros [[Hx|Hx] Hh]; [|exact Hx]. apply occurs_in in Hh. rewrite (HR Hx) in Hh. lia. }
  pose proof (fun b => cached_from c c' hs ins key hash b C2 C1 ltac:(intros x Hx; apply HM in Hx; tauto)) as HF.
  destruct (find c key hash) as [a|] eqn:Ef.
  - apply (find_cached c hs ins key hash a HC) in Ef. case_bool_decide as Hd; rewrite list_elem_of_In in Hd.
    + apply (find_cached c' hs ins key hash a C1), HF. split; [exact Ef|]. apply HM. split; [|exact Hd]. destruct Ef as (e & _ & Ha & _). exact Ha.
    + apply (find_None c' hs ins key hash C1). intros b Hb. apply HF in Hb as [Hb Hbm]. rewrite <- (cached_unique c hs ins key hash a b HC Ef Hb) in Hbm. apply HM in Hbm. tauto.
  - apply (find_None c' hs ins key hash C1). intros b Hb. apply HF in Hb as [Hb _]. apply (find_cached c hs ins key hash b HC) in Hb. congruence.
Qed.

Lemma cached_attached c hs ins key hash value charge k h x : lists_ok c hs ins ->
  cached (attached c key hash value charge true) k h x <-> x = lc_next c /\ k = key /\ h = hash \/ cached c k h x.
Proof.
  intros HL. destruct (next_fresh c hs ins HL) as (N1 & N2 & N3). unfold cached, members. cbn [attached lc_heap lc_lru lc_in_use]. split.
  - intros (e & He & Hx & K & H). apply lookup_insert_Some in He as [[<- <-]|[Hne He]]; [left; auto|]. right. exists e. split; [exact He|]. split; [|split; assumption].
    rewrite app_assoc, in_app_iff in Hx. destruct Hx as [Hx|[Hx|[]]]; [exact Hx|congruence].
  - rewrite app_assoc. intros [(-> & -> & ->)|(e & He & Hx & HM)].
    + eexists. rewrite lookup_insert_eq. split; [reflexivity|]. split; [apply in_app_iff; right; left; reflexivity|split; reflexivity].
    + exists e. rewrite lookup_insert_ne by congruence. split; [exact He|]. split; [apply in_app_iff; left; exact Hx|exact HM].
Qed.

Lemma Insert_find c hs ins key hash value charge a c' : cache_ok c hs ins -> sz hs < 2 ^ 32 - 4 -> sz (members c) < 2 ^ 31 - 1 ->
  Insert c key hash value charge = Some (a, c') ->
  (0 < lc_capacity c -> find c' key hash = Some a) /\
  forall key' hash', (key', hash') <> (key, hash) ->
    find c' key' hash' = find c key' hash' \/
    find c' key' hash' = None /\ exists b, find c key' hash' = Some b /\ ~ In b hs /\ forall gone, evicted c c' key hash gone -> In b gone.
Proof.
  intros HC Hsz Hm E. pose proof HC as [HL HT]. destruct (next_fresh c hs ins HL) as (N1 & N2 & N3).
  destruct (Insert_ok c hs ins key hash value charge HC Hsz Hm) as (c1 & E1 & C1 & C2 & C3 & _ & C5 & C6).
  rewrite E in E1. injection E1 as -> <-. set (n := lc_next c) in *. set (c0 := attached c key hash value charge (0 <? lc_capacity c)) in *.
  assert (Hsub : forall x, In x (members c') -> In x (members c0)).
  { intros x. unfold members, c0. rewrite !in_app_iff. cbn [attached lc_lru lc_in_use]. intros [Hx|Hx]; [left; apply C6, Hx|right]. apply C5 in Hx.
    destruct (Z.ltb_spec 0 (lc_capacity c)); [rewrite in_app_iff; fold n; cbn; destruct Hx as [[_ ->]|[Hx _]]; auto|]. destruct Hx as [[Hx _]|[Hx _]]; [lia|exact Hx]. }
  pose proof (fun k h b => cached_from c0 c' _ _ k h b C2 C1 Hsub) as HF.
  assert (H0 : forall k h x, cached c0 k h x <-> 0 < lc_capacity c /\ x = n /\ k = key /\ h = hash \/ cached c k h x).
  { intros k h x. unfold c0. destruct (Z.ltb_spec 0 (lc_capacity c)) as [Hlt|Hge]; [rewrite (cached_attached c hs ins key hash value charge k h x HL); fold n; tauto|].
    split; [|intros [[H _]|(e & He & Hx & HM)]; [lia|]].
    - intros (e & He & Hx & HM). right. exists e. unfold members in Hx. cbn [attached lc_heap lc_lru lc_in_use] in He, Hx. rewrite lookup_insert_ne in He; [auto|]. intros <-. contradiction.
    - exists e. unfold members. cbn [attached lc_heap lc_lru lc_in_use]. rewrite lookup_insert_ne; [auto|]. intros <-. contradiction. }
  split.
  - intros Hlt. apply (find_cached c' _ _ key hash n C1), HF. rewrite H0. split; [left; auto|]. apply in_app_iff. right. apply C5. left. auto.
  - intros k h Hne. assert (HN : forall x, cached c0 k h x <-> cached c k h x) by (intros x; rewrite H0; split; [|auto]; intros [(_ & _ & -> & ->)|H]; [congruence|exact H]).
    destruct (find c k h) as [b|] eqn:Ef.
    + apply (find_cached c hs ins k h b HC) in Ef. destruct (find c' k h) as [b'|] eqn:Ef'.
      * apply (find_cached c' _ _ k h b' C1), HF in Ef' as [Hb _]. apply HN in Hb. left. f_equal. exact (cached_unique c hs ins k h b' b HC Hb Ef).
      * right. split; [reflexivity|]. exists b. split; [reflexivity|]. pose proof Ef as (e & He & Hin & K & H).
        assert (Hlost : ~ In b (members c')).
        { intros Hb. assert (Hc : cached c' k h b) by (apply HF; split; [apply HN, Ef|exact Hb]). apply (find_cached c' _ _ k h b C1) in Hc. congruence. }
        assert (Hnk : 0 < lc_capacity c -> ~ cached c key hash b).
        { intros _ (f & Hf & _ & K' & H'). apply Hne. rewrite He in Hf. injection Hf as <-. congruence. }
        assert (Hl : In b (lc_lru c)).
        { apply in_app_iff in Hin as [Hin|Hin]; [exact Hin|]. exfalso. apply Hlost, in_app_iff. right. apply C5. right. split; [exact Hin|exact Hnk]. }
        split; [intros Hh; apply (lo_lru _ _ _ HL) in Hl; apply occurs_in in Hh; lia|]. intros gone (Eg & _).
        assert (Ho : In b (old_lru c key hash)) by (apply (In_old_lru c hs ins key hash b HC); auto). rewrite Eg, in_app_iff in Ho.
        destruct Ho as [Ho|Ho]; [exact Ho|]. exfalso. apply Hlost, in_app_iff. left. exact Ho.
    + left. apply (find_None c' _ _ k h C1). intros x Hx. apply HF in Hx as [Hx _]. apply HN, (find_cached c hs ins k h x HC) in Hx. congruence.
Qed.

Lemma Insert_grows c hs ins key hash c' hs' ins' : cache_ok c hs ins -> cache_ok c' hs' ins' ->
  (forall x, In x (lc_in_use c') <-> 0 < lc_capacity c /\ x = lc_next c \/ In x (lc_in_use c) /\ (0 < lc_capacity c -> ~ cached c key hash x)) ->
  (forall x, In x (lc_lru c') -> In x (lc_lru c) /\ (0 < lc_capacity c -> ~ cached c key hash x)) -> (length (members c') <= S (length (members c)))%nat.
Proof.
  intros HC [HL' _] H1 H2. apply (NoDup_incl_length (l' := lc_next c :: members c)); [apply NoDup_ListNoDup, (lo_nodup _ _ _ HL')|].
  intros x Hx. unfold members in *. cbn [In]. rewrite in_app_iff. apply in_app_iff in Hx as [Hx|Hx]; [apply H2 in Hx; tauto|]. apply H1 in Hx as [[_ ->]|[Hx _]]; auto.
Qed.

(** ** The destructor: every entry is deleted, once *)

Lemma destroy_ok : forall l c ins, NoDup l -> (forall a, In a l -> exists e, lc_heap c !! a = Some e /\ h_refs e = 1) ->
  (forall a e, lc_heap c !! a = Some e -> In a l) -> lc_deleted c ++ entries (lc_heap c) ≡ₚ ins ->
  exists c', destroy_loop l c = Some c' /\ lc_heap c' = ∅ /\ lc_deleted c' ≡ₚ ins.
Proof.
  induction l as [|a l IH]; intros c ins Hnd Hl Hh Hd.
  - exists c. split; [reflexivity|]. assert (HE : lc_heap c = ∅).
    { apply map_empty. intros b. destruct (lc_heap c !! b) as [e|] eqn:E; [|reflexivity]. exfalso. exact (Hh b e E). }
    split; [exact HE|]. rewrite HE in Hd. cbn in Hd. rewrite app_nil_r in Hd. exact Hd.
  - destruct (Hl a (or_introl eq_refl)) as (e & He & Er). apply list.NoDup_cons in Hnd as [Ha Hnd]. cbn [destroy_loop]. rewrite He.
    unfold Unref. cbn [with_handles lc_heap]. rewrite lookup_insert_eq. cbn [with_in_cache with_refs h_refs h_key h_value]. rewrite Er. cbn [Z.sub]. change (u32 (1 - 1) =? 0) with true. cbv iota.
    rewrite delete_insert_eq. apply (IH _ ins Hnd); cbn [lc_heap lc_deleted].
    + intros b Hb. destruct (Hl b (or_intror Hb)) as (f & Hf & Hr). exists f. rewrite lookup_delete_ne; [auto|]. intros <-. apply Ha, list_elem_of_In, Hb.
    + intros b f Hb. apply lookup_delete_Some in Hb as [Hne Hb]. destruct (Hh b f Hb) as [|Hb']; [congruence|exact Hb'].
    + rewrite <- app_assoc. cbn [app]. rewrite <- (entries_delete _ a e He). exact Hd.
Qed.

Lemma LRUCache_delete_ok c ins : cache_ok c [] ins -> exists c', LRUCache_delete c = Some c' /\ lc_heap c' = ∅ /\ lc_deleted c' ≡ₚ ins.
Proof.
  intros [[L1 L2 L3 L4 L5 L6 L7 L8] _]. assert (HU : lc_in_use c = []).
  { destruct (lc_in_use c) as [|a l]; [reflexivity|]. specialize (L5 a (or_introl eq_refl)). cbn in L5. lia. }
  unfold members in *. rewrite HU, app_nil_r in *. unfold LRUCache_delete. apply destroy_ok; [exact L1| | |exact L8].
  - intros a Ha. destruct (L2 a (or_introl Ha)) as (e & He). exists e. split; [exact He|]. destruct (L3 a e He) as (H1 & H2 & _). apply H1 in Ha. rewrite Ha in H2. exact H2.
  - intros a e He. destruct (L3 a e He) as (H1 & H2 & H3). apply H1. destruct (h_in_cache e); [reflexivity|]. cbn in H2. lia.
Qed.

End Ok.

(** ** Hashes are 32 bits wide, and name a shard *)

Lemma lxor_range x y n : 0 <= n -> 0 <= x < 2 ^ n -> 0 <= y < 2 ^ n -> 0 <= x .^ y < 2 ^ n.
Proof.
  intros Hn Hx Hy. assert (H0 : 0 <= x .^ y) by (apply Z.lxor_nonneg; lia). split; [exact H0|]. destruct (Z.eq_dec (x .^ y) 0) as [->|Hne]; [lia|].
  apply Z.log2_lt_pow2; [lia|]. pose proof (Z.log2_lxor x y ltac:(lia) ltac:(lia)) as HL.
  assert (HB : forall z, 0 <= z < 2 ^ n -> Z.log2 z < n \/ z = 0) by (intros z Hz; destruct (Z.eq_dec z 0); [auto|left; apply Z.log2_lt_pow2; lia]).
  destruct (HB x Hx) as [Lx| ->], (HB y Hy) as [Ly| ->]; rewrite ?Z.lxor_0_l, ?Z.lxor_0_r in *; try lia; contradiction.
Qed.

Lemma shift_range x k n : 0 <= k -> 0 <= x < n -> 0 <= x >> k < n.
Proof. intros Hk Hx. rewrite Z.shiftr_div_pow2 by exact Hk. split; [apply Z.div_pos; lia|]. apply Z.div_lt_upper_bound; nia. Qed.

Lemma Hash_loop_range n : forall data h, (length data <= n)%nat -> 0 <= h < 2 ^ 32 -> 0 <= Hash_loop data h < 2 ^ 32.
Proof.
  assert (HX : forall x k, 0 <= k -> 0 <= u32 x .^ (u32 x >> k) < 2 ^ 32).
  { intros x k Hk. pose proof (u32_range x) as Hu. apply lxor_range; [lia|exact Hu|apply shift_range; assumption]. }
  induction n as [|n IH]; intros data h Hl Hh; (destruct data as [|b0 [|b1 [|b2 [|b3 rest]]]]; cbn [length] in Hl; try lia; cbn [Hash_loop]; cbv zeta; try exact Hh; try (apply HX; unfold hash_r; lia)).
  apply IH; [lia|apply HX; lia].
Qed.

Lemma HashSlice_range s : 0 <= HashSlice s < 2 ^ 32.
Proof.
  unfold HashSlice, Hash. apply (Hash_loop_range (length s)); [lia|]. rewrite Z.lxor_0_l. apply u32_range.
Qed.

Lemma Shard_lt s : (Shard (HashSlice s) < Z.to_nat kNumShards)%nat.
Proof.
  pose proof (HashSlice_range s). unfold Shard. rewrite Z.shiftr_div_pow2 by (unfold kNumShardBits; lia). change (2 ^ (32 - kNumShardBits)) with (2 ^ 28). change kNumShards with 16.
  assert (0 <= HashSlice s / 2 ^ 28 < 16) by (split; [apply Z.div_pos; lia|apply Z.div_lt_upper_bound; lia]). lia.
Qed.

(** ** The sharded cache *)

Section Sharded.
Context {V : Type}.

Definition at_shard {A} (i : nat) (l : list (nat * A)) : list A := flat_map (fun p => if (fst p =? i)%nat then [snd p] else []) l.

(** What a client does; the handles it holds are named by their place in the list. *)

Inductive CacheOp :=
| OpInsert (key : bytes) (value : V) (charge : Z)
| OpLookup (key : bytes)
| OpRelease (n : nat)
| OpErase (key : bytes)
| OpPrune.

(** The cache, the handles held and the entries inserted so far. *)

Record CacheState := mkState { cs_cache : ShardedLRUCache V; cs_held : list (nat * nat); cs_inserted : list (nat * (bytes * V)) }.

Definition do_cache_op (op : CacheOp) (st : CacheState) : option CacheState :=
  let '(mkState s hs ins) := st in
  match op with
  | OpInsert key value charge => option_map (fun '(h, s) => mkState s (h :: hs) ((fst h, (key, value)) :: ins)) (SC_Insert s key value charge)
  | OpLookup key => option_map (fun '(r, s) => mkState s (match r with Some h => h :: hs | None => hs end) ins) (SC_Lookup s key)
  | OpRelease n => match hs !! n with Some h => option_map (fun s => mkState s (take n hs ++ drop (S n) hs) ins) (SC_Release s h) | None => Some st end
  | OpErase key => option_map (fun s => mkState s hs ins) (SC_Erase s key)
  | OpPrune => option_map (fun s => mkState s hs ins) (SC_Prune s)
  end.

(** The 32-bit counters suffice: fewer than [2 ^ 32 - 4] handles are held, and
    fewer than [2 ^ 31 - 1] are cached in a shard. *)

Definition cache_room (st : CacheState) : Prop :=
  sz (cs_held st) < 2 ^ 32 - 4 /\ Forall (fun c => sz (members c) < 2 ^ 31 - 1) (shard_ (cs_cache st)).

Inductive cache_reached (capacity : Z) : CacheState -> Prop :=
| cache_reached_new : cache_reached capacity (mkState (ShardedLRUCache_new capacity) [] [])
| cache_reached_op st op st' : cache_reached capacity st -> cache_room st -> do_cache_op op st = Some st' -> cache_reached capacity st'.

Record sharded_ok (cap : Z) (st : CacheState) : Prop := {
  so_capacity : forall i c, shard_ (cs_cache st) !! i = Some c -> lc_capacity c = cap;
  so_length : length (shard_ (cs_cache st)) = Z.to_nat kNumShards;
  so_held : forall h, In h (cs_held st) -> (fst h < Z.to_nat kNumShards)%nat;
  so_shard : forall i c, shard_ (cs_cache st) !! i = Some c -> cache_ok c (at_shard i (cs_held st)) (at_shard i (cs_inserted st))
}.

Lemma at_shard_cons {A} i j (x : A) l : at_shard j ((i, x) :: l) = (if (i =? j)%nat then [x] else []) ++ at_shard j l.
Proof. reflexivity. Qed.

Lemma at_shard_length {A} i (l : list (nat * A)) : (length (at_shard i l) <= length l)%nat.
Proof. induction l as [|[j x] l IH]; [reflexivity|]. rewrite at_shard_cons, length_app. destruct (j =? i)%nat; cbn [length]; lia. Qed.

Lemma In_at_shard {A} i (x : A) l : In x (at_shard i l) <-> In (i, x) l.
Proof.
  unfold at_shard. rewrite in_flat_map. split.
  - intros ([j y] & Hl & Hx). cbn in Hx. destruct (Nat.eqb_spec j i) as [->|]; [|contradiction]. destruct Hx as [<-|[]]. exact Hl.
  - intros H. exists (i, x). split; [exact H|]. cbn. rewrite Nat.eqb_refl. left. reflexivity.
Qed.

Lemma occurs_perm l l' a : l ≡ₚ l' -> occurs l a = occurs l' a.
Proof.
  induction 1 as [|b l l' _ IH|b1 b2 l|l1 l2 l3 _ IH1 _ IH2]; [reflexivity|rewrite !occurs_cons, IH; reflexivity|rewrite !occurs_cons; lia|congruence].
Qed.

Lemma cache_ok_perm (c : LRUCache V) hs hs' ins ins' : cache_ok c hs ins -> hs ≡ₚ hs' -> ins ≡ₚ ins' -> cache_ok c hs' ins'.
Proof.
  intros [[L1 L2 L3 L4 L5 L6 L7 L8] HT] Hp Hq. split; [|exact HT]. pose proof (fun a => occurs_perm _ _ a Hp) as HO. split; try assumption.
  - intros a Ha. apply L2. rewrite Hp. exact Ha.
  - intros a e He. rewrite <- HO. exact (L3 a e He).
  - intros a Ha. rewrite <- HO. exact (L4 a Ha).
  - intros a Ha. rewrite <- HO. exact (L5 a Ha).
  - rewrite L8. exact Hq.
Qed.

(** One shard changes. *)

Lemma shard_update cap s hs ins hs' ins' i (c' : LRUCache V) : sharded_ok cap (mkState s hs ins) -> lc_capacity c' = cap -> (i < Z.to_nat kNumShards)%nat ->
  (forall h, In h hs' -> In h hs \/ fst h = i) -> cache_ok c' (at_shard i hs') (at_shard i ins') ->
  (forall j, j <> i -> at_shard j hs' = at_shard j hs /\ at_shard j ins' = at_shard j ins) -> sharded_ok cap (mkState (with_shard s i c') hs' ins').
Proof.
  intros [S0 S1 S2 S3] Hcap Hi Hh HC Ho. split; cbn [cs_cache cs_held cs_inserted with_shard shard_] in *.
  - intros j c Hj. destruct (decide (j = i)) as [->|Hne]; [rewrite list_lookup_insert_eq in Hj by lia; congruence|].
    rewrite list_lookup_insert_ne in Hj by congruence. exact (S0 j c Hj).
  - rewrite length_insert. exact S1.
  - intros h Hx. destruct (Hh h Hx) as [Hx'| ->]; [exact (S2 h Hx')|exact Hi].
  - intros j c Hj. destruct (decide (j = i)) as [->|Hne].
    + rewrite list_lookup_insert_eq in Hj by lia. injection Hj as <-. exact HC.
    + rewrite list_lookup_insert_ne in Hj by congruence. destruct (Ho j Hne) as [-> ->]. exact (S3 j c Hj).
Qed.

(** ** What the cache holds *)

Definition SC_find (s : ShardedLRUCache V) (key : bytes) : option (nat * nat) :=
  let hash := HashSlice key in
  match shard_ s !! Shard hash with Some c => option_map (pair (Shard hash)) (find c key hash) | None => None end.

(** The effect of an operation on it. *)

Definition contents_step (cap : Z) (op : CacheOp) (st st' : CacheState) : Prop :=
  let found := SC_find (cs_cache st) in
  let found' := SC_find (cs_cache st') in
  match op with
  | OpInsert key value charge =>
      exists h c c' gone, cs_held st' = h :: cs_held st /\ SC_Value (cs_cache st') h = Some value /\ (0 < cap -> found' key = Some h) /\
        shard_ (cs_cache st) !! fst h = Some c /\ shard_ (cs_cache st') !! fst h = Some c' /\ lc_capacity c = cap /\ evicted c c' key (HashSlice key) gone /\
        forall key', key' <> key -> found' key' = found key' \/
          found' key' = None /\ exists h', found key' = Some h' /\ ~ In h' (cs_held st) /\ fst h' = fst h /\ In (snd h') gone
  | OpLookup key => cs_held st' = match found key with Some h => h :: cs_held st | None => cs_held st end /\ forall key', found' key' = found key'
  | OpRelease n => forall key', found' key' = found key'
  | OpErase key => found' key = None /\ forall key', key' <> key -> found' key' = found key'
  | OpPrune => forall key', found' key' = match found key' with Some h => if bool_decide (h ∈ cs_held st) then Some h else None | None => None end
  end.

Definition keeps_values (st st' : CacheState) : Prop :=
  forall h, In h (cs_held st) -> In h (cs_held st') -> SC_Value (cs_cache st') h = SC_Value (cs_cache st) h.

(** Where the handles that are alive come from, and how many more are cached. *)

Definition new_entry (op : CacheOp) (e : LRUHandle V) : Prop :=
  match op with OpInsert key value charge => h_key e = key /\ h_value e = value /\ h_charge e = charge | _ => False end.

Definition growth (op : CacheOp) (i : nat) : nat :=
  match op with OpInsert key _ _ => if decide (i = Shard (HashSlice key)) then 1%nat else 0%nat | _ => 0%nat end.

Definition alive_from (op : CacheOp) (st st' : CacheState) : Prop :=
  forall i c', shard_ (cs_cache st') !! i = Some c' -> exists c, shard_ (cs_cache st) !! i = Some c /\ (length (members c') <= length (members c) + growth op i)%nat /\
    forall a e', lc_heap c' !! a = Some e' -> (exists e, lc_heap c !! a = Some e /\ same_entry e e') \/ new_entry op e'.

Definition op_result (cap : Z) (op : CacheOp) (st : CacheState) : Prop :=
  exists st', do_cache_op op st = Some st' /\ sharded_ok cap st' /\ (keeps_values st st' /\ alive_from op st st') /\ contents_step cap op st st'.

Lemma SC_find_with_shard (s : ShardedLRUCache V) i c' key : (i < length (shard_ s))%nat ->
  SC_find (with_shard s i c') key = if decide (Shard (HashSlice key) = i) then option_map (pair i) (find c' key (HashSlice key)) else SC_find s key.
Proof.
  intros Hi. unfold SC_find. cbn [with_shard shard_]. destruct (decide (Shard (HashSlice key) = i)) as [->|Hne].
  - rewrite list_lookup_insert_eq by exact Hi. reflexivity.
  - rewrite list_lookup_insert_ne by congruence. reflexivity.
Qed.

Lemma SC_find_shard (s : ShardedLRUCache V) key c : shard_ s !! Shard (HashSlice key) = Some c -> SC_find s key = option_map (pair (Shard (HashSlice key))) (find c key (HashSlice key)).
Proof. intros H. unfold SC_find. rewrite H. reflexivity. Qed.

Lemma keeps_values_shard s hs ins hs' ins' i c (c' : LRUCache V) c0 : shard_ s !! i = Some c -> from c0 c' ->
  (forall a e, In a (at_shard i hs) -> lc_heap c0 !! a = Some e -> lc_heap c !! a = Some e) -> (forall a, In a (at_shard i hs') -> exists e, lc_heap c' !! a = Some e) ->
  keeps_values (mkState s hs ins) (mkState (with_shard s i c') hs' ins').
Proof.
  intros Hi HF H0 Hal [j a] H H'. cbn [cs_held cs_cache] in *. unfold SC_Value. cbn [with_shard shard_ fst snd]. destruct (decide (j = i)) as [->|Hne].
  - rewrite Hi, list_lookup_insert_eq by exact (lookup_lt_Some _ _ _ Hi). apply In_at_shard in H, H'. destruct (Hal a H') as (e' & He'). destruct (HF a e' He') as (e & He & [_ _ Hv _]).
    rewrite He', (H0 a e H He). cbn. congruence.
  - rewrite list_lookup_insert_ne by congruence. reflexivity.
Qed.

Lemma alive_shard op s hs ins hs' ins' i c (c' : LRUCache V) : shard_ s !! i = Some c -> (length (members c') <= length (members c) + growth op i)%nat ->
  (forall a e', lc_heap c' !! a = Some e' -> (exists e, lc_heap c !! a = Some e /\ same_entry e e') \/ new_entry op e') ->
  alive_from op (mkState s hs ins) (mkState (with_shard s i c') hs' ins').
Proof.
  intros Hi Hl Ha j c0 Hj. cbn [cs_cache with_shard shard_] in *. destruct (decide (j = i)) as [->|Hne].
  - rewrite list_lookup_insert_eq in Hj by exact (lookup_lt_Some _ _ _ Hi). injection Hj as <-. exists c. auto.
  - rewrite list_lookup_insert_ne in Hj by congruence. exists c0. split; [exact Hj|]. split; [lia|]. intros a e' He'. left. exists e'. split; [exact He'|reflexivity].
Qed.

(** The shard of a key, and what holds of it. *)

Lemma shard_at cap st i : sharded_ok cap st -> cache_room st -> (i < Z.to_nat kNumShards)%nat ->
  exists c, shard_ (cs_cache st) !! i = Some c /\ cache_ok c (at_shard i (cs_held st)) (at_shard i (cs_inserted st)) /\ lc_capacity c = cap /\
    sz (members c) < 2 ^ 31 - 1 /\ sz (at_shard i (cs_held st)) < 2 ^ 32 - 4.
Proof.
  intros [S0 S1 S2 S3] [R1 R2] Hi. destruct (lookup_lt_is_Some_2 (shard_ (cs_cache st)) i) as [c Hc]; [lia|]. exists c. split; [exact Hc|]. split; [exact (S3 i c Hc)|].
  split; [exact (S0 i c Hc)|]. split; [exact (proj1 (Forall_lookup _ _) R2 i c Hc)|]. pose proof (at_shard_length i (cs_held st)). unfold sz in *. lia.
Qed.

Lemma at_shard_same {A} i (x : A) l : at_shard i ((i, x) :: l) = x :: at_shard i l.
Proof. rewrite at_shard_cons, Nat.eqb_refl. reflexivity. Qed.

Lemma at_shard_other {A} i j (x : A) l : j <> i -> at_shard j ((i, x) :: l) = at_shard j l.
Proof. intros H. rewrite at_shard_cons, (proj2 (Nat.eqb_neq i j)) by congruence. reflexivity. Qed.

Lemma key_hash_ne (key key' : bytes) : key' <> key -> (key', HashSlice key') <> (key, HashSlice key).
Proof. intros H E. injection E as E _. exact (H E). Qed.

Lemma op_insert_ok cap st key value charge : sharded_ok cap st -> cache_room st -> op_result cap (OpInsert key value charge) st.
Proof.
  intros HS HR. destruct st as [s hs ins]. set (hash := HashSlice key). set (i := Shard hash). pose proof (Shard_lt key : (i < _)%nat) as Hi.
  destruct (shard_at cap _ i HS HR Hi) as (c & Hc & HC & Ecap & Hm & Hsz). cbn [cs_cache cs_held cs_inserted] in *.
  pose proof HC as [HL _]. destruct (next_fresh c _ _ HL) as (N1 & N2 & N3).
  destruct (Insert_ok c _ _ key hash value charge HC Hsz Hm) as (c' & E & C1 & C2 & C3 & C4 & C5 & C6).
  destruct (Insert_find c _ _ key hash value charge _ c' HC Hsz Hm E) as [F1 F2]. pose proof (so_length _ _ HS) as Hlen. cbn [cs_cache] in Hlen.
  set (a := lc_next c) in *. exists (mkState (with_shard s i c') ((i, a) :: hs) ((i, (key, value)) :: ins)).
  split; [cbn [do_cache_op]; unfold SC_Insert; fold hash; fold i; rewrite Hc, E; reflexivity|]. split; [|split].
  - apply (shard_update cap s hs ins); [exact HS|congruence|exact Hi|intros h [<-|Hh]; auto|rewrite !at_shard_same; exact C1|].
    intros j Hj. rewrite !at_shard_other by exact Hj. auto.
  - split; [|apply (alive_shard _ s hs ins _ _ i c c' Hc)].
    2: { cbn [growth]. rewrite decide_True by reflexivity. rewrite Nat.add_1_r. exact (Insert_grows c _ _ key hash c' _ _ HC C1 C5 C6). }
    2: { intros b e' He'. destruct (C2 b e' He') as (e & He & HE). cbn [attached lc_heap] in He. apply lookup_insert_Some in He as [[<- <-]|[_ He]]; [right|left; exists e; auto].
      destruct HE as [H1 _ H2 H3]. exact (conj H1 (conj H2 H3)). }
    apply (keeps_values_shard s hs ins _ _ i c c' _ Hc C2).
    + intros b e Hb He. cbn [attached lc_heap] in He. rewrite lookup_insert_ne in He; [exact He|]. intros <-. contradiction.
    + intros b Hb. rewrite at_shard_same in Hb. destruct C1 as [HL1 _]. exact (lo_alive _ _ _ HL1 b (or_intror Hb)).
  - destruct C4 as [gone HG]. exists (i, a), c, c', gone. cbn [cs_cache cs_held fst]. split; [reflexivity|]. assert (Hsh : shard_ (with_shard s i c') !! i = Some c') by (cbn; apply list_lookup_insert_eq; lia).
    split; [|split; [|split; [exact Hc|split; [exact Hsh|split; [exact Ecap|split; [exact HG|]]]]]].
    + unfold SC_Value. cbn [fst snd]. rewrite Hsh. destruct C1 as [HL1 _]. destruct (lo_alive _ _ _ HL1 a (or_intror (or_introl eq_refl))) as (e & He). rewrite He.
      destruct (C2 a e He) as (e0 & He0 & [_ _ Hv _]). cbn [attached lc_heap] in He0. fold a in He0. rewrite lookup_insert_eq in He0. injection He0 as <-. cbn in Hv |- *. congruence.
    + intros Hcap. rewrite SC_find_with_shard by lia. rewrite decide_True by reflexivity. fold hash. rewrite F1 by lia. reflexivity.
    + intros key' Hne. rewrite SC_find_with_shard by lia. destruct (decide (Shard (HashSlice key') = i)) as [Ei|Ei]; [|left; reflexivity].
      assert (Hc' : shard_ s !! Shard (HashSlice key') = Some c) by congruence. rewrite (SC_find_shard s key' c Hc'), Ei.
      destruct (F2 key' (HashSlice key') (key_hash_ne key key' Hne)) as [->|[-> (b & Eb & Hno & Hg)]]; [left; reflexivity|right]. split; [reflexivity|].
      exists (i, b). rewrite Eb. rewrite In_at_shard in Hno. split; [reflexivity|]. split; [exact Hno|]. split; [reflexivity|exact (Hg gone HG)].
Qed.

(** The operations that add nothing: a shard goes to one whose handles come from it. *)

Lemma shard_step cap op s hs ins hs' i c (c' : LRUCache V) : sharded_ok cap (mkState s hs ins) -> (i < Z.to_nat kNumShards)%nat -> shard_ s !! i = Some c ->
  lc_capacity c' = lc_capacity c -> from c c' -> cache_ok c' (at_shard i hs') (at_shard i ins) -> (length (members c') <= length (members c))%nat -> (forall h, In h hs' -> In h hs \/ fst h = i) ->
  (forall j, j <> i -> at_shard j hs' = at_shard j hs) ->
  sharded_ok cap (mkState (with_shard s i c') hs' ins) /\
    keeps_values (mkState s hs ins) (mkState (with_shard s i c') hs' ins) /\ alive_from op (mkState s hs ins) (mkState (with_shard s i c') hs' ins).
Proof.
  intros HS Hi Hc Hcap HF HC Hl Hh Ho. split; [|split].
  - apply (shard_update cap s hs ins); auto. rewrite Hcap. exact (so_capacity _ _ HS i c Hc).
  - apply (keeps_values_shard s hs ins _ _ i c c' c Hc HF); [auto|]. intros a Ha. destruct HC as [HL _]. exact (lo_alive _ _ _ HL a (or_intror Ha)).
  - apply (alive_shard op s hs ins _ _ i c c' Hc); [lia|]. intros a e' He'. left. exact (HF a e' He').
Qed.

Lemma alive_same op st : alive_from op st st.
Proof. intros i c' Hi. exists c'. split; [exact Hi|]. split; [lia|]. intros a e' He'. left. exists e'. split; [exact He'|reflexivity]. Qed.

Lemma with_same_shard (s : ShardedLRUCache V) i c : shard_ s !! i = Some c -> with_shard s i c = s.
Proof. intros H. destruct s as [l n]. unfold with_shard. cbn in *. rewrite list_insert_id by exact H. reflexivity. Qed.

Lemma op_lookup_ok cap st key : sharded_ok cap st -> cache_room st -> op_result cap (OpLookup key) st.
Proof.
  intros HS HR. destruct st as [s hs ins]. set (hash := HashSlice key). set (i := Shard hash). pose proof (Shard_lt key : (i < _)%nat) as Hi.
  destruct (shard_at cap _ i HS HR Hi) as (c & Hc & HC & Ecap & Hm & Hsz). cbn [cs_cache cs_held cs_inserted] in *. pose proof (so_length _ _ HS) as Hlen. cbn [cs_cache] in Hlen.
  unfold op_result. cbn [do_cache_op]. unfold SC_Lookup. fold hash. fold i. rewrite Hc.
  destruct (Lookup_ok c _ _ key hash HC ltac:(lia)) as [(a & c' & -> & Ha & C1 & C2 & C3 & C4)|[-> Hno]]; eexists; (split; [reflexivity|]).
  - destruct (shard_step cap (OpLookup key) s hs ins ((i, a) :: hs) i c c' HS Hi Hc C4 C2) as [H1 H2]; [rewrite at_shard_same; exact C1|rewrite C3; reflexivity|intros h [<-|Hh]; auto|intros j Hj; apply at_shard_other, Hj|].
    split; [exact H1|]. split; [exact H2|]. cbn [contents_step cs_cache cs_held]. split.
    + rewrite (SC_find_shard s key c Hc). fold hash. fold i. apply (find_cached c _ _ key hash a HC) in Ha. rewrite Ha. reflexivity.
    + intros key'. rewrite SC_find_with_shard by lia. destruct (decide (Shard (HashSlice key') = i)) as [Ei|Ei]; [|reflexivity].
      assert (Hc' : shard_ s !! Shard (HashSlice key') = Some c) by congruence. rewrite (SC_find_shard s key' c Hc'), Ei.
      cbn [snd]. rewrite (find_members c c' _ _ _ _ key' (HashSlice key') HC C1 C2 C3). reflexivity.
  - cbn [option_map fst snd]. rewrite (with_same_shard s i c Hc). split; [exact HS|]. split; [split; [intros h _ _; reflexivity|apply alive_same]|]. split; [|reflexivity].
    cbn [cs_cache cs_held]. rewrite (SC_find_shard s key c Hc). fold hash. rewrite (find_None c _ _ key hash HC Hno). reflexivity.
Qed.

Lemma op_release_ok cap st n : sharded_ok cap st -> cache_room st -> op_result cap (OpRelease n) st.
Proof.
  intros HS HR. destruct st as [s hs ins]. unfold op_result. cbn [do_cache_op]. destruct (hs !! n) as [[i a]|] eqn:En.
  2: { eexists. split; [reflexivity|]. split; [exact HS|]. split; [split; [intros h _ _; reflexivity|apply alive_same]|]. intros key'. reflexivity. }
  pose proof (take_drop_middle hs n (i, a) En) as Et. set (hs' := take n hs ++ drop (S n) hs).
  assert (Hp : hs ≡ₚ (i, a) :: hs') by (rewrite <- Et at 1; unfold hs'; solve_Permutation).
  assert (Hi : (i < Z.to_nat kNumShards)%nat) by (apply (so_held _ _ HS (i, a)); cbn; rewrite Hp; left; reflexivity).
  destruct (shard_at cap _ i HS HR Hi) as (c & Hc & HC & Ecap & Hm & Hsz). cbn [cs_cache cs_held cs_inserted] in *.
  assert (Ha : forall j, at_shard j hs ≡ₚ at_shard j ((i, a) :: hs')) by (intros j; apply Permutation_flat_map; exact Hp).
  assert (HC' : cache_ok c (a :: at_shard i hs') (at_shard i ins)) by (apply (cache_ok_perm c _ _ _ _ HC); [rewrite (Ha i), at_shard_same|]; reflexivity).
  assert (Hszr : sz (at_shard i hs') < 2 ^ 32 - 3) by (pose proof (Permutation_length (Ha i)) as Hl; rewrite at_shard_same in Hl; cbn [length] in Hl; unfold sz in *; lia).
  destruct (Unref_handle_ok c (at_shard i hs') _ a HC' Hszr) as (c' & E & C1 & C2 & C3). pose proof (so_length _ _ HS) as Hlen. cbn [cs_cache] in Hlen.
  unfold SC_Release, Release. cbn [fst snd]. rewrite Hc, E. eexists. split; [reflexivity|].
  destruct (shard_step cap (OpRelease n) s hs ins hs' i c c' HS Hi Hc (Unref_capacity c c' a E) C2 C1) as [H1 H2].
  - rewrite C3. reflexivity.
  - intros h Hh. left. rewrite Hp. right. exact Hh.
  - intros j Hj. unfold hs'. transitivity (at_shard j (take n hs ++ (i, a) :: drop (S n) hs)); [|rewrite Et; reflexivity]. unfold at_shard. rewrite !flat_map_app. cbn. rewrite (proj2 (Nat.eqb_neq i j)) by congruence. reflexivity.
  - split; [exact H1|]. split; [exact H2|]. intros key'. cbn [cs_cache]. rewrite SC_find_with_shard by lia. destruct (decide (Shard (HashSlice key') = i)) as [Ei|Ei]; [|reflexivity].
    assert (Hc' : shard_ s !! Shard (HashSlice key') = Some c) by congruence. rewrite (SC_find_shard s key' c Hc'), Ei.
    rewrite (find_members c c' _ _ _ _ key' (HashSlice key') HC C1 C2 C3). reflexivity.
Qed.

Lemma op_erase_ok cap st key : sharded_ok cap st -> cache_room st -> op_result cap (OpErase key) st.
Proof.
  intros HS HR. destruct st as [s hs ins]. set (hash := HashSlice key). set (i := Shard hash). pose proof (Shard_lt key : (i < _)%nat) as Hi.
  destruct (shard_at cap _ i HS HR Hi) as (c & Hc & HC & Ecap & Hm & Hsz). cbn [cs_cache cs_held cs_inserted] in *. pose proof (so_length _ _ HS) as Hlen. cbn [cs_cache] in Hlen.
  destruct (erase_ok c _ _ key hash HC ltac:(lia) ltac:(lia)) as (c' & E & C1 & C2 & C3 & C4). destruct (erase_find c _ _ key hash c' HC ltac:(lia) ltac:(lia) E) as [F1 F2].
  exists (mkState (with_shard s i c') hs ins). split; [cbn [do_cache_op]; unfold SC_Erase, Erase; fold hash; fold i; rewrite Hc, E; reflexivity|].
  destruct (shard_step cap (OpErase key) s hs ins hs i c c' HS Hi Hc C3 C2 C1) as [H1 H2]; [|auto|auto|].
  { destruct C4 as [(a & _ & X1 & X2)|[-> _]]; [|lia]. unfold members. rewrite X1, X2, <- remove_address_app. apply remove_address_length. }
  split; [exact H1|]. split; [exact H2|]. cbn [contents_step cs_cache]. split.
  - rewrite SC_find_with_shard by lia. rewrite decide_True by reflexivity. fold hash. rewrite F1. reflexivity.
  - intros key' Hne. rewrite SC_find_with_shard by lia. destruct (decide (Shard (HashSlice key') = i)) as [Ei|Ei]; [|reflexivity].
    assert (Hc' : shard_ s !! Shard (HashSlice key') = Some c) by congruence. rewrite (SC_find_shard s key' c Hc'), Ei.
    rewrite (F2 key' (HashSlice key') (key_hash_ne key key' Hne)). reflexivity.
Qed.

Lemma prune_all_ok (l : list (LRUCache V)) : (forall c, In c l -> exists c', Prune c = Some c') ->
  exists l', prune_all l = Some l' /\ length l' = length l /\ forall i c', l' !! i = Some c' -> exists c, l !! i = Some c /\ Prune c = Some c'.
Proof.
  induction l as [|c l IH]; intros H; [exists []; split; [reflexivity|]; split; [reflexivity|]; intros i c' Hx; discriminate Hx|].
  destruct (H c (or_introl eq_refl)) as (c' & E). destruct IH as (l' & E' & Hl & HI); [intros x Hx; apply H; right; exact Hx|].
  exists (c' :: l'). cbn [prune_all]. rewrite E, E'. split; [reflexivity|]. split; [cbn; congruence|]. intros [|i] x Hx; [injection Hx as <-; exists c; auto|exact (HI i x Hx)].
Qed.

Lemma op_prune_ok cap st : sharded_ok cap st -> cache_room st -> op_result cap OpPrune st.
Proof.
  intros HS HR. destruct st as [s hs ins]. pose proof HS as [S0 S1 S2 S3]. cbn [cs_cache cs_held cs_inserted] in *.
  assert (HP : forall i c, shard_ s !! i = Some c -> cache_ok c (at_shard i hs) (at_shard i ins) /\ sz (members c) < 2 ^ 31 - 1 /\ sz (at_shard i hs) < 2 ^ 32 - 4).
  { intros i c Hc. assert (Hi : (i < Z.to_nat kNumShards)%nat) by (apply lookup_lt_Some in Hc; lia).
    destruct (shard_at cap _ i HS HR Hi) as (c0 & Hc0 & HC & _ & Hm & Hsz). cbn [cs_cache cs_held cs_inserted] in *. rewrite Hc in Hc0. injection Hc0 as <-. auto. }
  destruct (prune_all_ok (shard_ s)) as (l' & El & Hl & HI).
  { intros c Hc. apply In_lookup in Hc as [i Hi]. destruct (HP i c Hi) as (HC & Hm & Hsz). destruct (Prune_ok c (at_shard i hs) (at_shard i ins) ltac:(lia) HC ltac:(lia)) as (c' & E & _). eauto. }
  assert (HQ : forall i c', l' !! i = Some c' -> exists c, shard_ s !! i = Some c /\ Prune c = Some c' /\ cache_ok c' (at_shard i hs) (at_shard i ins) /\ from c c' /\ lc_capacity c' = lc_capacity c /\ (length (members c') <= length (members c))%nat).
  { intros i c' Hi. destruct (HI i c' Hi) as (c & Hc & E). destruct (HP i c Hc) as (HC & Hm & Hsz). destruct (Prune_ok c (at_shard i hs) (at_shard i ins) ltac:(lia) HC ltac:(lia)) as (c1 & E1 & C1 & C2 & C3 & C4 & C5).
    rewrite E in E1. injection E1 as <-. exists c. repeat (split; [assumption|]). unfold members. rewrite C4, C5. cbn [app]. rewrite length_app. lia. }
  exists (mkState (mkSharded l' (last_id_ s)) hs ins). split; [cbn [do_cache_op]; unfold SC_Prune; rewrite El; reflexivity|]. split; [|split; [split|]].
  - split; cbn [cs_cache cs_held cs_inserted shard_]; [|lia|exact S2|].
    + intros i c' Hi. destruct (HQ i c' Hi) as (c & Hc & _ & _ & _ & -> & _). exact (S0 i c Hc).
    + intros i c' Hi. destruct (HQ i c' Hi) as (c & _ & _ & HC & _). exact HC.
  - intros [i a] Hh _. cbn [cs_cache cs_held] in *. unfold SC_Value. cbn [shard_ fst snd]. destruct (l' !! i) as [c'|] eqn:Ei.
    + destruct (HQ i c' Ei) as (c & Hc & _ & [HL _] & HF & _). rewrite Hc. apply In_at_shard in Hh. destruct (lo_alive _ _ _ HL a (or_intror Hh)) as (e' & He').
      destruct (HF a e' He') as (e & He & [_ _ Hv _]). rewrite He', He. cbn. congruence.
    + apply lookup_ge_None in Ei. rewrite (proj2 (lookup_ge_None (shard_ s) i)) by lia. reflexivity.
  - intros i c' Hi. cbn [cs_cache shard_] in *. destruct (HQ i c' Hi) as (c & Hc & _ & _ & HF & _ & Hl'). exists c. split; [exact Hc|]. split; [lia|]. intros a e' He'. left. exact (HF a e' He').
  - intros key'. cbn [cs_cache cs_held]. unfold SC_find. cbn [shard_]. set (i := Shard (HashSlice key')). destruct (l' !! i) as [c'|] eqn:Ei.
    + destruct (HQ i c' Ei) as (c & Hc & E & _). rewrite Hc. destruct (HP i c Hc) as (HC & Hm & Hsz). rewrite (Prune_find c (at_shard i hs) (at_shard i ins) c' key' (HashSlice key') HC ltac:(lia) ltac:(lia) E).
      destruct (find c key' (HashSlice key')) as [a|]; [|reflexivity]. cbn [option_map].
      assert (Hd : bool_decide (a ∈ at_shard i hs) = bool_decide ((i, a) ∈ hs)) by (apply bool_decide_ext; rewrite !list_elem_of_In; apply In_at_shard).
      rewrite Hd. destruct (bool_decide ((i, a) ∈ hs)); reflexivity.
    + apply lookup_ge_None in Ei. rewrite (proj2 (lookup_ge_None (shard_ s) i)) by lia. reflexivity.
Qed.

Lemma op_ok_all cap st op : sharded_ok cap st -> cache_room st -> op_result cap op st.
Proof. destruct op; [apply op_insert_ok|apply op_lookup_ok|apply op_release_ok|apply op_erase_ok|apply op_prune_ok]. Qed.

Definition shard_capacity (capacity : Z) : Z := u64 (capacity + (kNumShards - 1)) / kNumShards.

Lemma cache_new_ok capacity : sharded_ok (shard_capacity capacity) (mkState (ShardedLRUCache_new capacity) [] []).
Proof.
  split; cbn [cs_cache cs_held cs_inserted ShardedLRUCache_new shard_].
  - intros i c Hc. apply lookup_replicate in Hc as [-> _]. reflexivity.
  - apply length_replicate.
  - contradiction.
  - intros i c Hc. apply lookup_replicate in Hc as [-> _]. split; [|apply (HandleTable_new_ok ∅)].
    split; cbn [SetCapacity LRUCache_new members lc_lru lc_in_use lc_heap lc_usage lc_next lc_deleted app]; try reflexivity; try (intros; contradiction).
    + constructor.
    + intros a [[]|[]].
    + intros a e Ha. rewrite lookup_empty in Ha. discriminate.
    + intros a e Ha. rewrite lookup_empty in Ha. discriminate.
Qed.

Lemma cache_reached_ok capacity st : cache_reached capacity st -> sharded_ok (shard_capacity capacity) st.
Proof.
  induction 1 as [|st op st' _ IH HR E]; [apply cache_new_ok|]. destruct (op_ok_all _ st op IH HR) as (st1 & E1 & H & _). rewrite E in E1. injection E1 as <-. exact H.
Qed.

End Sharded.

(** C35.  The books of the cache, in every state that insertions, lookups, releases,
    erasures and prunings lead to: every handle a client holds is alive; an entry
    that was inserted is either alive or its deleter was called, once; a handle
    that is alive is counted, once for every time a client holds it and once when
    the cache holds it, and the count is not zero; the charge is the sum of the
    charges of the handles cached; and when no handle is held, deleting the cache
    calls the deleter of each entry left. *)
Theorem cache_keeps_books : forall (V : Type) (capacity : Z) (st : CacheState (V := V)), cache_reached capacity st ->
  (forall h, In h (cs_held st) -> exists v, SC_Value (cs_cache st) h = Some v) /\
  forall i c, shard_ (cs_cache st) !! i = Some c ->
    lc_deleted c ++ entries (lc_heap c) ≡ₚ at_shard i (cs_inserted st) /\
    (forall a e, lc_heap c !! a = Some e ->
       h_refs e = Z.of_nat (occurs (at_shard i (cs_held st)) a) + (if bool_decide (a ∈ members c) then 1 else 0) /\ 0 < h_refs e) /\
    TotalCharge c = u64 (charges (lc_heap c) (members c)) /\
    (cs_held st = [] -> exists c', LRUCache_delete c = Some c' /\ lc_heap c' = ∅ /\ lc_deleted c' ≡ₚ at_shard i (cs_inserted st)).
Proof.
  intros V capacity st HR. apply cache_reached_ok in HR as [S0 S1 S2 S3]. split.
  - intros [i a] Hh. specialize (S2 (i, a) Hh). cbn in S2. destruct (lookup_lt_is_Some_2 (shard_ (cs_cache st)) i) as [c Hc]; [lia|]. unfold SC_Value. cbn [fst snd]. rewrite Hc.
    destruct (S3 i c Hc) as [HL _]. apply In_at_shard in Hh. destruct (lo_alive _ _ _ HL a (or_intror Hh)) as (e & He). rewrite He. eexists. reflexivity.
  - intros i c Hc. destruct (S3 i c Hc) as [[L1 L2 L3 L4 L5 L6 L7 L8] _]. pose proof (S3 i c Hc) as HC. split; [exact L8|]. split; [|split; [exact L6|intros Eh; rewrite Eh in HC; exact (LRUCache_delete_ok c _ HC)]].
    intros a e He. destruct (L3 a e He) as (H1 & H2 & H3).
    split; [|exact H3]. rewrite H2. f_equal. rewrite <- list_elem_of_In in H1. destruct (h_in_cache e); case_bool_decide; try reflexivity; intuition discriminate.
Qed.


(** A cache of sixteen entries, one of them inserted and held. *)

Definition run_cache_op (op : CacheOp (V := Z)) (st : CacheState) : CacheState := match do_cache_op op st with Some st => st | None => st end.

Definition one_entry : CacheState (V := Z) := run_cache_op (OpInsert (str "k") 7 1) (mkState (ShardedLRUCache_new 16) [] []).

Lemma one_entry_reached : cache_reached 16 one_entry.
Proof.
  apply (cache_reached_op 16 (mkState (ShardedLRUCache_new 16) [] []) (OpInsert (str "k") 7 1)); [constructor| |vm_compute; reflexivity].
  split; [vm_compute; reflexivity|]. cbn [cs_cache ShardedLRUCache_new shard_]. apply Forall_replicate. vm_compute. reflexivity.
Qed.

Lemma cache_keeps_books_witness : exists h, cs_held one_entry = [h] /\ exists v, SC_Value (cs_cache one_entry) h = Some v.
Proof.
  eexists. split; [vm_compute; reflexivity|]. apply (proj1 (cache_keeps_books Z 16 one_entry one_entry_reached)). vm_compute. left. reflexivity.
Defined.

(** A second entry for the same key takes its place; the first stays alive for its holder. *)


Example replaced_entry : exists c, shard_ (cs_cache (run_cache_op (OpRelease 1) (run_cache_op (OpInsert (str "k") 8 1) one_entry))) !! Shard (HashSlice (str "k")) = Some c /\
  lc_deleted c = [(str "k", 7)].
Proof. eexists. split; vm_compute; reflexivity. Qed.
