(* ===== verification/IterWrap.v ===== *)
(** * Iterator wrappers and cleanups (table/iterator_wrapper.h, table/iterator.cc)

    [IteratorWrapper] keeps a copy of the validity and the key of the iterator that it
    holds.  [RegisterCleanup] adds to a list whose head is part of the iterator, and the
    destructor calls what is on it. *)

From S2P Require Import Prelude Compare Logging Iterator.
#[local] Open Scope Z_scope.
#[local] Open Scope ldb_scope.

(** ** [IteratorWrapper] *)

Section Wrapper.
Context {It : Type} {IT : Iterator It}.

(** The methods of the interface require that there is an iterator. *)

Record IteratorWrapper := mkIteratorWrapper { iter_ : It; valid_ : bool; key_ : bytes }.

Definition Update (w : IteratorWrapper) : IteratorWrapper :=
  let valid := iValid (iter_ w) in mkIteratorWrapper (iter_ w) valid (if valid then iKey (iter_ w) else key_ w).

(** [Set(iter)] with an iterator; [key_] is what it was. *)

Definition Wrapper_Set (old_key : bytes) (iter : It) : IteratorWrapper := Update (mkIteratorWrapper iter false old_key).

Definition moved (move : It -> It) (w : IteratorWrapper) : IteratorWrapper := Update (mkIteratorWrapper (move (iter_ w)) (valid_ w) (key_ w)).

#[export] Instance IteratorWrapperOps : Iterator IteratorWrapper := {
  iValid w := valid_ w;
  iSeekToFirst := moved iSeekToFirst;
  iSeekToLast := moved iSeekToLast;
  iSeek w k := moved (fun it => iSeek it k) w;
  iNext := moved iNext;
  iPrev := moved iPrev;
  iKey w := key_ w;
  iValue w := iValue (iter_ w);
  iStatus w := iStatus (iter_ w)
}.

(** The copies are those of the iterator as it stands. *)

Definition cached (w : IteratorWrapper) : Prop := valid_ w = iValid (iter_ w) /\ (valid_ w = true -> key_ w = iKey (iter_ w)).

Lemma Update_cached w : cached (Update w).
Proof. unfold Update, cached. cbn. split; [reflexivity|]. intros ->. reflexivity. Qed.

Lemma Set_cached old_key iter : cached (Wrapper_Set old_key iter) /\ iter_ (Wrapper_Set old_key iter) = iter.
Proof. split; [apply Update_cached|reflexivity]. Qed.

Lemma moved_cached move w : cached (moved move w) /\ iter_ (moved move w) = move (iter_ w).
Proof. split; [apply Update_cached|reflexivity]. Qed.

(** The wrapper of a cursor is a cursor: the copies are never stale. *)
Theorem iterator_wrapper_is_cursor C es (Pos : nat -> It -> Prop) : Cursor C es Pos -> Cursor C es (fun i w => Pos i (iter_ w) /\ cached w).
Proof.
  intros HC. assert (HM : forall move w i, Pos i (move (iter_ w)) -> Pos i (iter_ (moved move w)) /\ cached (moved move w)) by (intros; split; [assumption|apply moved_cached]).
  split; cbn [iValid iKey iValue iStatus iSeekToFirst iSeekToLast iSeek iNext iPrev IteratorWrapperOps].
  - intros i w [HP _]. exact (cur_range _ _ _ HC i _ HP).
  - intros i w [HP [HV _]]. rewrite HV. exact (cur_valid _ _ _ HC i _ HP).
  - intros i w k v [HP [HV HK]] He. pose proof (cur_valid _ _ _ HC i _ HP) as Hv. rewrite (proj2 (Nat.ltb_lt _ _)) in Hv by (apply lookup_lt_Some in He; exact He).
    rewrite HK by congruence. exact (cur_entry _ _ _ HC i _ k v HP He).
  - intros i w [HP _]. exact (cur_status _ _ _ HC i _ HP).
  - intros i w [HP _]. apply HM. exact (cur_first _ _ _ HC i _ HP).
  - intros i w [HP _]. apply HM. exact (cur_last _ _ _ HC i _ HP).
  - intros i w [HP _] Hi. apply HM. exact (cur_next _ _ _ HC i _ HP Hi).
  - intros i w [HP _] Hi. apply HM. exact (cur_prev _ _ _ HC i _ HP Hi).
  - intros i w t [HP _] Ht. apply HM. exact (cur_seek _ _ _ HC i _ t HP Ht).
Qed.

End Wrapper.

(** ** Cleanups *)

Section Cleanup.
Context {F A : Type}.

(** A function with its two arguments. *)

Abbreviation Cleanup := (F * A * A)%type.

(** The head is empty when its function is null; the other nodes follow it. *)

Record CleanupList := mkCleanupList { cleanup_head : option Cleanup; cleanup_next : list Cleanup }.

Definition CleanupList_new : CleanupList := mkCleanupList None [].

Definition RegisterCleanup (l : CleanupList) (func : F) (arg1 arg2 : A) : CleanupList :=
  match cleanup_head l with
  | None => mkCleanupList (Some (func, arg1, arg2)) (cleanup_next l)
  | Some head => mkCleanupList (Some head) ((func, arg1, arg2) :: cleanup_next l)
  end.

(** The calls of the destructor, in order. *)

Definition Iterator_destructor (l : CleanupList) : list Cleanup :=
  match cleanup_head l with None => [] | Some head => head :: cleanup_next l end.

Definition RegisterAll (cs : list Cleanup) (l : CleanupList) : CleanupList := fold_left (fun l '(f, a, b) => RegisterCleanup l f a b) cs l.

Lemma RegisterAll_head cs : forall head rest, RegisterAll cs (mkCleanupList (Some head) rest) = mkCleanupList (Some head) (rev cs ++ rest).
Proof.
  induction cs as [|[[f a] b] cs IH]; intros head rest; [reflexivity|]. cbn [RegisterAll fold_left rev] in *. unfold RegisterAll in IH.
  cbn [RegisterCleanup cleanup_head cleanup_next]. rewrite IH, <- app_assoc. reflexivity.
Qed.

(** Every cleanup that was registered is called once: the first one first, the others from
    the last to the second. *)
Theorem cleanups_run_once cs :
  Iterator_destructor (RegisterAll cs CleanupList_new) = match cs with [] => [] | c :: cs => c :: rev cs end /\
  Permutation (Iterator_destructor (RegisterAll cs CleanupList_new)) cs.
Proof.
  assert (E : Iterator_destructor (RegisterAll cs CleanupList_new) = match cs with [] => [] | c :: cs => c :: rev cs end).
  { destruct cs as [|[[f a] b] cs]; [reflexivity|]. change (Iterator_destructor (RegisterAll cs (mkCleanupList (Some (f, a, b)) [])) = (f, a, b) :: rev cs).
    rewrite RegisterAll_head, app_nil_r. reflexivity. }
  split; [exact E|]. rewrite E. destruct cs as [|c cs]; [constructor|]. constructor. symmetry. apply Permutation_rev.
Qed.

End Cleanup.
