(* ===== verification/Block.v ===== *)
(** * Blocks (table/block_builder.cc, table/block.h, table/block.cc)

    A block is a sequence of entries with prefix-compressed keys, an array of
    restart offsets and its length.  The iterator is modelled on the bytes of
    the block: a [Slice] into the block is its offset and its length.  The
    theorems show that the iterator of a finished block is a cursor on the list
    of entries that were added. *)

From S2P Require Import Prelude Coding Compare Logging Iterator.
#[local] Open Scope Z_scope.
#[local] Open Scope ldb_scope.

(** ** The builder *)

Section Builder.
Context (block_restart_interval : Z).

Record BlockBuilder := mkBlockBuilder {
  bb_buffer : bytes;
  bb_restarts : list Z;
  bb_counter : Z;
  bb_finished : bool;
  bb_last_key : bytes
}.

Definition BlockBuilder_new : BlockBuilder := mkBlockBuilder [] [0] 0 false [].

Definition BB_Reset (b : BlockBuilder) : BlockBuilder := mkBlockBuilder [] [0] 0 false [].

Definition BB_CurrentSizeEstimate (b : BlockBuilder) : Z :=
  sz (bb_buffer b) + sz (bb_restarts b) * 4 + 4.

Definition BB_empty (b : BlockBuilder) : bool := sz (bb_buffer b) =? 0.

Definition BB_Finish (b : BlockBuilder) : BlockBuilder * bytes :=
  let buffer := fold_left PutFixed32 (bb_restarts b) (bb_buffer b) in
  let buffer := PutFixed32 buffer (u32 (sz (bb_restarts b))) in
  (mkBlockBuilder buffer (bb_restarts b) (bb_counter b) true (bb_last_key b), buffer).

(** The loop that counts the bytes shared with the previous key. *)

Fixpoint shared_prefix (last_key key : bytes) : nat :=
  match last_key, key with
  | a :: last_key, b :: key => if decide (a = b) then S (shared_prefix last_key key) else O
  | _, _ => O
  end.

Definition BB_Add (b : BlockBuilder) (key value : bytes) : BlockBuilder :=
  let '(shared, restarts, counter) :=
    if bb_counter b <? block_restart_interval
    then (shared_prefix (bb_last_key b) key, bb_restarts b, bb_counter b)
    else (O, bb_restarts b ++ [u32 (sz (bb_buffer b))], 0) in
  let non_shared := sz key - Z.of_nat shared in
  let buffer := PutVarint32 (bb_buffer b) (u32 (Z.of_nat shared)) in
  let buffer := PutVarint32 buffer (u32 non_shared) in
  let buffer := PutVarint32 buffer (u32 (sz value)) in
  let buffer := buffer ++ drop shared key in
  let buffer := buffer ++ value in
  let last_key := take shared (bb_last_key b) ++ drop shared key in
  mkBlockBuilder buffer restarts (counter + 1) (bb_finished b) last_key.

End Builder.

(** ** The block *)

(** [size_ = 0] marks contents that are too small. *)

Record Block := mkBlock { blk_data : bytes; blk_size : Z; blk_restart_offset : Z }.

Definition blk_NumRestarts (data : bytes) (size : Z) : Z :=
  DecodeFixed32 (drop (Z.to_nat (size - 4)) data).

Definition Block_new (contents : bytes) : Block :=
  let size := sz contents in
  if size <? 4 then mkBlock contents 0 0
  else
    let max_restarts_allowed := (size - 4) / 4 in
    if max_restarts_allowed <? blk_NumRestarts contents size then mkBlock contents 0 0
    else mkBlock contents size (u32 (size - u32 (1 + blk_NumRestarts contents size) * 4)).

(** [DecodeEntry] on the bytes [p, limit): the three lengths and the bytes
    from the key delta on. *)

Definition DecodeEntry (p : bytes) : option (Z * Z * Z * bytes) :=
  match p with
  | b0 :: b1 :: b2 :: rest =>
      let decoded :=
        if (b2z b0 .| b2z b1 .| b2z b2) <? 128 then Some (b2z b0, b2z b1, b2z b2, rest)
        else
          match GetVarint32Ptr p with
          | Some (shared, p) =>
              match GetVarint32Ptr p with
              | Some (non_shared, p) =>
                  match GetVarint32Ptr p with
                  | Some (value_length, p) => Some (shared, non_shared, value_length, p)
                  | None => None
                  end
              | None => None
              end
          | None => None
          end in
      match decoded with
      | Some (shared, non_shared, value_length, p) =>
          if u32 (sz p) <? u32 (non_shared + value_length) then None
          else Some (shared, non_shared, value_length, p)
      | None => None
      end
  | _ => None
  end.

(** ** The iterator *)

Section Iter.
Context (C : Comparator).

Record BlockIter := mkBlockIter {
  it_data : bytes;
  it_restarts : Z;
  it_num_restarts : Z;
  it_current : Z;
  it_restart_index : Z;
  it_key : bytes;
  it_value : Z * Z;
  it_status : Status
}.

Definition BlockIter_new (data : bytes) (restarts num_restarts : Z) : BlockIter :=
  mkBlockIter data restarts num_restarts restarts num_restarts [] (0, 0) OK.

Definition BI_Valid (it : BlockIter) : bool := it_current it <? it_restarts it.

Definition BI_key (it : BlockIter) : bytes := it_key it.

Definition BI_value (it : BlockIter) : bytes :=
  take (Z.to_nat (snd (it_value it))) (drop (Z.to_nat (fst (it_value it))) (it_data it)).

Definition NextEntryOffset (it : BlockIter) : Z := u32 (fst (it_value it) + snd (it_value it)).

Definition GetRestartPoint (it : BlockIter) (index : Z) : Z :=
  DecodeFixed32 (drop (Z.to_nat (it_restarts it + index * 4)) (it_data it)).

Definition SeekToRestartPoint (it : BlockIter) (index : Z) : BlockIter :=
  mkBlockIter (it_data it) (it_restarts it) (it_num_restarts it) (it_current it) index []
    (GetRestartPoint it index, 0) (it_status it).

(** [value_.clear()] leaves a slice that does not point into the block; the
    iterator is not valid then and its value is not used. *)

Definition CorruptionError (it : BlockIter) : BlockIter :=
  mkBlockIter (it_data it) (it_restarts it) (it_num_restarts it) (it_restarts it)
    (it_num_restarts it) [] (0, 0) (Corruption (str "bad entry in block") []).

Fixpoint advance_restart (fuel : nat) (it : BlockIter) (current index : Z) : Z :=
  match fuel with
  | O => index
  | S fuel =>
      if (index + 1 <? it_num_restarts it) && (GetRestartPoint it (index + 1) <? current)
      then advance_restart fuel it current (index + 1) else index
  end.

Definition ParseNextKey (it : BlockIter) : bool * BlockIter :=
  let current := NextEntryOffset it in
  if it_restarts it <=? current then
    (false, mkBlockIter (it_data it) (it_restarts it) (it_num_restarts it) (it_restarts it)
              (it_num_restarts it) (it_key it) (it_value it) (it_status it))
  else
    let p := take (Z.to_nat (it_restarts it - current)) (drop (Z.to_nat current) (it_data it)) in
    match DecodeEntry p with
    | Some (shared, non_shared, value_length, q) =>
        if sz (it_key it) <? shared then (false, CorruptionError it)
        else
          let key := take (Z.to_nat shared) (it_key it) ++ take (Z.to_nat non_shared) q in
          let value := (it_restarts it - sz q + non_shared, value_length) in
          let restart_index :=
            advance_restart (Z.to_nat (it_num_restarts it)) it current (it_restart_index it) in
          (true, mkBlockIter (it_data it) (it_restarts it) (it_num_restarts it) current
                   restart_index key value (it_status it))
    | None => (false, CorruptionError it)
    end.

Definition BI_Next (it : BlockIter) : BlockIter := snd (ParseNextKey it).

(** [while (GetRestartPoint(restart_index_) >= original) ...]: [None] when
    there are no more entries. *)

Fixpoint Prev_restart (fuel : nat) (it : BlockIter) (original index : Z) : option Z :=
  match fuel with
  | O => None
  | S fuel =>
      if original <=? GetRestartPoint it index then
        if index =? 0 then None else Prev_restart fuel it original (index - 1)
      else Some index
  end.

(** [do {} while (ParseNextKey() && NextEntryOffset() < bound)] *)

Fixpoint scan_to (fuel : nat) (it : BlockIter) (bound : Z) : BlockIter :=
  match fuel with
  | O => it
  | S fuel =>
      let '(parsed, it) := ParseNextKey it in
      if parsed && (NextEntryOffset it <? bound) then scan_to fuel it bound else it
  end.

Definition BI_Prev (it : BlockIter) : BlockIter :=
  let original := it_current it in
  match Prev_restart (S (Z.to_nat (it_restart_index it))) it original (it_restart_index it) with
  | None => mkBlockIter (it_data it) (it_restarts it) (it_num_restarts it) (it_restarts it)
              (it_num_restarts it) (it_key it) (it_value it) (it_status it)
  | Some index => scan_to (S (length (it_data it))) (SeekToRestartPoint it index) original
  end.

(** The binary search of [Seek]; [None] when it met a corrupted entry. *)

Fixpoint Seek_search (fuel : nat) (it : BlockIter) (target : bytes) (left right : Z) : option Z :=
  match fuel with
  | O => None
  | S fuel =>
      if left <? right then
        let mid := u32 (left + right + 1) / 2 in
        let region_offset := GetRestartPoint it mid in
        let p := take (Z.to_nat (it_restarts it - region_offset))
                   (drop (Z.to_nat region_offset) (it_data it)) in
        match DecodeEntry p with
        | Some (shared, non_shared, value_length, key_ptr) =>
            if negb (shared =? 0) then None
            else
              let mid_key := take (Z.to_nat non_shared) key_ptr in
              if cmp mid_key target <? 0 then Seek_search fuel it target mid right
              else Seek_search fuel it target left (mid - 1)
        | None => None
        end
      else Some left
  end.

Fixpoint Seek_linear (fuel : nat) (it : BlockIter) (target : bytes) : BlockIter :=
  match fuel with
  | O => it
  | S fuel =>
      let '(parsed, it) := ParseNextKey it in
      if negb parsed then it
      else if 0 <=? cmp (it_key it) target then it
      else Seek_linear fuel it target
  end.

Definition BI_Seek (it : BlockIter) (target : bytes) : BlockIter :=
  let current_key_compare := if BI_Valid it then cmp (it_key it) target else 0 in
  if BI_Valid it && (current_key_compare =? 0) then it
  else
    let left := if BI_Valid it && (current_key_compare <? 0) then it_restart_index it else 0 in
    let right := if BI_Valid it && (0 <? current_key_compare) then it_restart_index it
                 else it_num_restarts it - 1 in
    match Seek_search (S (Z.to_nat (it_num_restarts it))) it target left right with
    | None => CorruptionError it
    | Some left' =>
        let skip_seek := (left' =? it_restart_index it) && (current_key_compare <? 0) in
        let it := if skip_seek then it else SeekToRestartPoint it left' in
        Seek_linear (S (length (it_data it))) it target
    end.

Definition BI_SeekToFirst (it : BlockIter) : BlockIter :=
  snd (ParseNextKey (SeekToRestartPoint it 0)).

Definition BI_SeekToLast (it : BlockIter) : BlockIter :=
  scan_to (S (length (it_data it))) (SeekToRestartPoint it (it_num_restarts it - 1)) (it_restarts it).

(** [Block::NewIterator]: an error iterator with the corruption status, an
    empty iterator, or a block iterator. *)

Inductive BlockNewIter := ErrorIter (s : Status) | EmptyIter | IterOf (it : BlockIter).

Definition Block_NewIterator (b : Block) : BlockNewIter :=
  if blk_size b <? 4 then ErrorIter (Corruption (str "bad block contents") [])
  else
    let num_restarts := blk_NumRestarts (blk_data b) (blk_size b) in
    if num_restarts =? 0 then EmptyIter
    else IterOf (BlockIter_new (blk_data b) (blk_restart_offset b) num_restarts).

End Iter.

Definition build_block (interval : Z) (es : list (bytes * bytes)) : bytes :=
  snd (BB_Finish (fold_left (fun b e => BB_Add interval b (fst e) (snd e)) es BlockBuilder_new)).

Example block_run :
  let es := map (fun k => (k, k)) [str "aa"; str "ab"; str "abc"; str "abd"; str "b"; str "bcd"; str "bce"] in
  match Block_NewIterator (Block_new (build_block 3 es)) with
  | IterOf it =>
      let it := BI_SeekToLast it in
      let p := BI_Prev (BI_Prev it) in
      let s := BI_Seek BytewiseComparator p (str "abcc") in
      let t := BI_Seek BytewiseComparator s (str "bca") in
      (BI_key it, BI_key p, BI_key s, BI_value t) = (str "bce", str "b", str "abd", str "bcd")
  | _ => False
  end.
Proof. vm_compute. reflexivity. Qed.

(** ** Layout of a block

    A cell is an entry with the number of bytes its key shares with the
    previous one. *)

Record cell := mkCell { c_shared : nat; c_key : bytes; c_value : bytes }.

Definition c_entry (c : cell) : entry := (c_key c, c_value c).

Definition enc (c : cell) : bytes :=
  EncodeVarint32 (Z.of_nat (c_shared c)) ++
  EncodeVarint32 (sz (c_key c) - Z.of_nat (c_shared c)) ++
  EncodeVarint32 (sz (c_value c)) ++ drop (c_shared c) (c_key c) ++ c_value c.

Definition offs (cs : list cell) (i : nat) : Z := sz (concat (map enc (take i cs))).

Definition last_key_of (cs : list cell) : bytes :=
  match list.last cs with Some c => c_key c | None => [] end.

(** What is shared is a common prefix, and nothing is shared at a restart. *)

Record Layout (cs : list cell) (ridx : list nat) : Prop := {
  lay_shared : forall i c, cs !! i = Some c -> (c_shared c <= length (c_key c))%nat /\
    (c_shared c <= length (last_key_of (take i cs)))%nat /\
    take (c_shared c) (last_key_of (take i cs)) = take (c_shared c) (c_key c);
  lay_head : ridx !! O = Some O;
  lay_sorted : StronglySorted lt ridx;
  lay_restart : forall r i c, ridx !! r = Some i -> cs !! i = Some c -> c_shared c = O;
  lay_range : forall r i, ridx !! r = Some i -> (i < length cs)%nat \/ i = O
}.

Definition block_bytes (cs : list cell) (ridx : list nat) : bytes :=
  concat (map enc cs) ++ concat (map EncodeFixed32 (map (offs cs) ridx)) ++ EncodeFixed32 (sz ridx).

(** *** The builder makes a layout *)

Lemma shared_prefix_spec a : forall b,
  (shared_prefix a b <= length a)%nat /\ (shared_prefix a b <= length b)%nat /\
  take (shared_prefix a b) a = take (shared_prefix a b) b.
Proof.
  induction a as [|x a IH]; intros [|y b]; simpl; try (split; [lia|split; [lia|reflexivity]]).
  case_decide as E; simpl; [|split; [lia|split; [lia|reflexivity]]].
  destruct (IH b) as (H1 & H2 & H3). split; [lia|]. split; [lia|]. subst. f_equal. exact H3.
Qed.

Lemma offs_app cs c i : (i <= length cs)%nat -> offs (cs ++ [c]) i = offs cs i.
Proof. intros H. unfold offs. rewrite take_app_le by exact H. reflexivity. Qed.

Lemma map_offs_app cs c ridx : Forall (fun i => (i <= length cs)%nat) ridx ->
  map (offs (cs ++ [c])) ridx = map (offs cs) ridx.
Proof. induction 1 as [|i r Hi HF IH]; [reflexivity|]. cbn [map]. rewrite offs_app, IH by exact Hi. reflexivity. Qed.

Lemma offs_all cs : offs cs (length cs) = sz (concat (map enc cs)).
Proof. unfold offs. rewrite firstn_all. reflexivity. Qed.

Lemma last_key_snoc cs c : last_key_of (cs ++ [c]) = c_key c.
Proof. unfold last_key_of. rewrite last_snoc. reflexivity. Qed.

Record BBRep (b : BlockBuilder) (cs : list cell) (ridx : list nat) : Prop := {
  bb_layout : Layout cs ridx;
  bb_buf : bb_buffer b = concat (map enc cs);
  bb_rst : bb_restarts b = map (fun i => u32 (offs cs i)) ridx;
  bb_last : bb_last_key b = last_key_of cs;
  bb_count : exists pre a, ridx = pre ++ [a] /\ bb_counter b = Z.of_nat (length cs - a) /\
             (a <= length cs)%nat
}.

Definition small_entry (e : entry) : Prop := sz (fst e) < 2 ^ 32 /\ sz (snd e) < 2 ^ 32.

Lemma Layout_snoc cs ridx c :
  Layout cs ridx -> (c_shared c <= length (c_key c))%nat ->
  (c_shared c <= length (last_key_of cs))%nat ->
  take (c_shared c) (last_key_of cs) = take (c_shared c) (c_key c) ->
  (forall r, ridx !! r = Some (length cs) -> c_shared c = O) ->
  Layout (cs ++ [c]) ridx.
Proof.
  intros [HS HH HSo HR HG] H1 H2 H3 H4. constructor; try assumption.
  - intros i c' Hi. apply lookup_app_Some in Hi as [Hi|[Hge Hi]].
    + pose proof (lookup_lt_Some _ _ _ Hi). rewrite take_app_le by lia. exact (HS i c' Hi).
    + apply list_lookup_singleton_Some in Hi as [Hz <-].
      replace i with (length cs) by lia. rewrite take_app_length. auto.
  - intros r i c' Hr Hi. apply lookup_app_Some in Hi as [Hi|[Hge Hi]]; [eauto|].
    apply list_lookup_singleton_Some in Hi as [Hz <-]. apply (H4 r). rewrite Hr. f_equal. lia.
  - intros r i Hr. destruct (HG r i Hr) as [H|H]; [left; rewrite length_app; lia|right; exact H].
Qed.

Lemma Layout_restart cs ridx c : Layout cs ridx -> c_shared c = O ->
  (forall r i, ridx !! r = Some i -> (i < length cs)%nat) ->
  Layout (cs ++ [c]) (ridx ++ [length cs]).
Proof.
  intros HL Hc Hlt. assert (HL' : Layout (cs ++ [c]) ridx).
  { apply Layout_snoc; try assumption; try (rewrite Hc; lia). rewrite Hc. reflexivity. }
  destruct HL' as [HS HH HSo HR HG]. constructor.
  - exact HS.
  - apply lookup_app_l_Some, HH.
  - rewrite <- (app_nil_r (ridx ++ [length cs])), <- app_assoc. apply StronglySorted_insert.
    + rewrite app_nil_r. exact HSo.
    + apply list.Forall_lookup. exact Hlt.
    + constructor.
  - intros r i c' Hr Hi. apply lookup_app_Some in Hr as [Hr|[_ Hr]]; [eauto|].
    apply list_lookup_singleton_Some in Hr as [_ <-]. rewrite lookup_app_r in Hi by lia.
    rewrite Nat.sub_diag in Hi. injection Hi as <-. exact Hc.
  - intros r i Hr. apply lookup_app_Some in Hr as [Hr|[_ Hr]]; [eauto|].
    apply list_lookup_singleton_Some in Hr as [_ <-]. left. rewrite length_app. simpl. lia.
Qed.

Lemma BB_Add_rep interval b cs ridx e : 1 <= interval -> small_entry e -> BBRep b cs ridx ->
  exists c ridx', c_entry c = e /\ BBRep (BB_Add interval b (fst e) (snd e)) (cs ++ [c]) ridx'.
Proof.
  intros Hint [Hk Hv] [HL Hb Hr Hl (pre & a & Hri & Hcnt & Ha)]. destruct e as [k v]. cbn [fst snd] in *.
  pose proof (sz_nonneg k) as Hk0. pose proof (sz_nonneg v) as Hv0. unfold BB_Add.
  assert (Hbuf : forall s, (s <= length k)%nat ->
    PutVarint32 (PutVarint32 (PutVarint32 (bb_buffer b) (u32 (Z.of_nat s))) (u32 (sz k - Z.of_nat s)))
      (u32 (sz v)) ++ drop s k ++ v = concat (map enc (cs ++ [mkCell s k v]))).
  { intros s Hs. rewrite map_app, concat_app, <- Hb. cbn [map concat]. rewrite app_nil_r.
    unfold PutVarint32, enc. cbn [c_shared c_key c_value].
    rewrite !u32_small by (unfold sz in *; lia). rewrite <- !app_assoc. reflexivity. }
  assert (Hlt : forall r i, ridx !! r = Some i -> (i <= a)%nat).
  { intros r i Hi. rewrite Hri in Hi. apply lookup_app_Some in Hi as [Hi|[_ Hi]].
    - destruct HL as [_ _ HSo _ _]. rewrite Hri in HSo.
      apply list_elem_of_lookup_2 in Hi. apply list_elem_of_In in Hi. clear - HSo Hi.
      induction pre as [|x pre IH]; [contradiction|]. cbn in HSo. apply StronglySorted_inv in HSo as [HSo HF].
      destruct Hi as [->|Hi]; [|auto]. apply Forall_app in HF as [_ HF]. apply Forall_inv in HF. lia.
    - apply list_lookup_singleton_Some in Hi as [_ <-]. lia. }
  assert (Hle : Forall (fun i => (i <= length cs)%nat) ridx).
  { apply list.Forall_lookup. intros r i Hi. apply Hlt in Hi. lia. }
  assert (Hmap : forall c, map (fun i => u32 (offs (cs ++ [c]) i)) ridx = map (fun i => u32 (offs cs i)) ridx).
  { intros c. rewrite <- (map_map (offs (cs ++ [c])) u32), map_offs_app, map_map by exact Hle. reflexivity. }
  destruct (Z.ltb_spec (bb_counter b) interval) as [Hc|Hc].
  - destruct (shared_prefix_spec (bb_last_key b) k) as (S1 & S2 & S3).
    set (s := shared_prefix (bb_last_key b) k) in *. exists (mkCell s k v), ridx.
    split; [reflexivity|]. rewrite Hl in S1, S3. constructor; cbn [bb_buffer bb_restarts bb_counter bb_last_key].
    + apply Layout_snoc; cbn [c_shared c_key]; try assumption.
      intros r Hlen. apply Hlt in Hlen as Hlen'. assert (Hlc : length cs = O).
      { destruct (lay_range _ _ HL _ _ Hlen); lia. }
      assert (Hcs : last_key_of cs = []) by (destruct cs; [reflexivity|discriminate]).
      rewrite Hcs in S1. cbn in S1. lia.
    + rewrite <- app_assoc. apply Hbuf, S2.
    + rewrite Hmap. exact Hr.
    + rewrite last_key_snoc, Hl, S3. cbn [c_key]. apply take_drop.
    + exists pre, a. split; [exact Hri|]. rewrite length_app. cbn [length]. split; [|lia]. rewrite Hcnt. lia.
  - exists (mkCell O k v), (ridx ++ [length cs]). split; [reflexivity|].
    constructor; cbn [bb_buffer bb_restarts bb_counter bb_last_key].
    + apply Layout_restart; [exact HL|reflexivity|]. intros r i Hi. apply Hlt in Hi. lia.
    + rewrite <- app_assoc. apply (Hbuf O). lia.
    + rewrite map_app. cbn [map]. rewrite Hmap, <- Hr, offs_app, offs_all, Hb by lia. reflexivity.
    + rewrite last_key_snoc. reflexivity.
    + exists ridx, (length cs). split; [reflexivity|]. rewrite length_app. cbn [length]. lia.
Qed.

Lemma BBRep_new : BBRep BlockBuilder_new [] [O].
Proof.
  constructor; [|reflexivity|reflexivity|reflexivity|].
  - constructor.
    + discriminate.
    + reflexivity.
    + constructor; constructor.
    + discriminate.
    + intros r i H. apply list_lookup_singleton_Some in H as [_ <-]. right. reflexivity.
  - exists [], O. auto.
Qed.

Lemma build_rep interval es : 1 <= interval -> Forall small_entry es ->
  exists cs ridx, map c_entry cs = es /\
    BBRep (fold_left (fun b e => BB_Add interval b (fst e) (snd e)) es BlockBuilder_new) cs ridx.
Proof.
  intros Hint. induction es as [|e es IH] using rev_ind; intros HF.
  - exists [], [O]. split; [reflexivity|apply BBRep_new].
  - apply Forall_app in HF as [HF He]. apply Forall_inv in He.
    destruct (IH HF) as (cs & ridx & Hes & HR). rewrite fold_left_app. cbn [fold_left].
    destruct (BB_Add_rep interval _ _ _ e Hint He HR) as (c & ridx' & Hc & HR').
    exists (cs ++ [c]), ridx'. split; [|exact HR']. rewrite map_app. cbn [map]. congruence.
Qed.

Lemma finish_bytes b cs ridx : BBRep b cs ridx -> snd (BB_Finish b) = block_bytes cs ridx.
Proof.
  intros [_ Hb Hr _ _]. unfold BB_Finish, block_bytes. cbn [snd]. unfold PutFixed32 at 1.
  rewrite fold_PutFixed32, Hb, Hr, EncodeFixed32_u32, <- app_assoc. do 2 f_equal.
  - rewrite !map_map. f_equal. apply map_ext. intros i. apply EncodeFixed32_u32.
  - unfold sz. rewrite length_map. reflexivity.
Qed.

(** *** Sizes *)

Lemma EncodeVarint32_length v : (1 <= length (EncodeVarint32 v) <= 5)%nat.
Proof. unfold EncodeVarint32. zcases; cbn [length]; lia. Qed.

(** What an entry adds to a block at most. *)

Definition entry_weight (e : entry) : Z := sz (fst e) + sz (snd e) + 19.

Fixpoint weight (es : list entry) : Z :=
  match es with [] => 0 | e :: es => entry_weight e + weight es end.

Lemma weight_app es1 es2 : weight (es1 ++ es2) = weight es1 + weight es2.
Proof. induction es1 as [|e es1 IH]; cbn [app weight]; lia. Qed.

Lemma weight_nonneg es : 0 <= weight es.
Proof.
  induction es as [|e es IH]; cbn [weight]; [lia|]. unfold entry_weight.
  pose proof (sz_nonneg (fst e)). pose proof (sz_nonneg (snd e)). lia.
Qed.

Definition add_all (interval : Z) (es : list entry) : BlockBuilder :=
  fold_left (fun b e => BB_Add interval b (fst e) (snd e)) es BlockBuilder_new.

Lemma add_all_snoc interval es k v : add_all interval (es ++ [(k, v)]) = BB_Add interval (add_all interval es) k v.
Proof. unfold add_all. rewrite fold_left_app. reflexivity. Qed.

Lemma BB_Add_size interval b k v :
  sz (bb_buffer b) + 1 <= sz (bb_buffer (BB_Add interval b k v)) /\
  BB_CurrentSizeEstimate (BB_Add interval b k v) <= BB_CurrentSizeEstimate b + entry_weight (k, v).
Proof.
  unfold BB_Add, BB_CurrentSizeEstimate, entry_weight, PutVarint32. cbn [fst snd].
  destruct (_ <? interval); cbn [bb_buffer bb_restarts]; rewrite !sz_app; unfold sz;
    rewrite length_drop;
    repeat match goal with |- context [EncodeVarint32 ?x] =>
      lazymatch goal with H : (1 <= length (EncodeVarint32 x) <= 5)%nat |- _ => fail
      | _ => pose proof (EncodeVarint32_length x) end end; cbn [length]; lia.
Qed.

Lemma add_all_size interval es :
  Z.of_nat (length es) <= sz (bb_buffer (add_all interval es)) /\
  BB_CurrentSizeEstimate (add_all interval es) <= 8 + weight es.
Proof.
  induction es as [|[k v] es IH] using rev_ind; [split; vm_compute; discriminate|].
  rewrite add_all_snoc, weight_app, length_app. cbn [weight length].
  pose proof (BB_Add_size interval (add_all interval es) k v). lia.
Qed.

Lemma BB_Finish_size b : sz (snd (BB_Finish b)) = BB_CurrentSizeEstimate b.
Proof.
  unfold BB_Finish, BB_CurrentSizeEstimate. cbn [snd]. rewrite fold_PutFixed32. unfold PutFixed32.
  rewrite !sz_app. unfold sz. rewrite length_fixed32s, length_EncodeFixed32. lia.
Qed.

Lemma build_block_size interval es :
  (length es <= length (build_block interval es))%nat /\ sz (build_block interval es) <= 8 + weight es.
Proof.
  unfold build_block. pose proof (BB_Finish_size (add_all interval es)) as E.
  pose proof (add_all_size interval es) as [H1 H2]. fold (add_all interval es). split; [|lia].
  unfold BB_CurrentSizeEstimate, sz in *. lia.
Qed.

Lemma add_all_empty interval es : BB_empty (add_all interval es) = match es with [] => true | _ => false end.
Proof.
  unfold BB_empty. destruct es as [|e es]; [reflexivity|].
  pose proof (add_all_size interval (e :: es)) as [H _]. cbn [length] in H. apply Z.eqb_neq. lia.
Qed.

(** *** Decoding a cell *)

Lemma DecodeEntry_slow p : DecodeEntry p =
  if sz p <? 3 then None
  else match GetVarint32Ptr p with
  | Some (shared, p) =>
      match GetVarint32Ptr p with
      | Some (non_shared, p) =>
          match GetVarint32Ptr p with
          | Some (value_length, p) =>
              if u32 (sz p) <? u32 (non_shared + value_length) then None
              else Some (shared, non_shared, value_length, p)
          | None => None
          end
      | None => None
      end
  | None => None
  end.
Proof.
  destruct p as [|b0 [|b1 [|b2 rest]]]; try reflexivity.
  rewrite (proj2 (Z.ltb_ge _ _)) by (rewrite !sz_cons; pose proof (sz_nonneg rest); lia).
  unfold DecodeEntry. cbv zeta. destruct (Z.ltb_spec (b2z b0 .| b2z b1 .| b2z b2) 128) as [H|H].
  - pose proof (b2z_range b0). pose proof (b2z_range b1). pose proof (b2z_range b2).
    assert (Hle : forall x y, 0 <= x -> 0 <= y -> x <= x .| y /\ y <= x .| y).
    { intros x y Hx Hy. split.
      - apply Z.ldiff_le; [apply Z.lor_nonneg; lia|]. apply Z.bits_inj'. intros i _.
        rewrite Z.ldiff_spec, Z.lor_spec, Z.bits_0. destruct (Z.testbit x i); [reflexivity|].
        reflexivity.
      - apply Z.ldiff_le; [apply Z.lor_nonneg; lia|]. apply Z.bits_inj'. intros i _.
        rewrite Z.ldiff_spec, Z.lor_spec, Z.bits_0. destruct (Z.testbit y i); [|reflexivity].
        rewrite orb_true_r. reflexivity. }
    assert (0 <= b2z b0 .| b2z b1) by (apply Z.lor_nonneg; lia).
    pose proof (Hle (b2z b0) (b2z b1)). pose proof (Hle (b2z b0 .| b2z b1) (b2z b2)).
    assert (Hb : forall b q, b2z b < 128 -> GetVarint32Ptr (b :: q) = Some (b2z b, q)).
    { intros b q Hlt. cbn [GetVarint32Ptr]. cbv zeta. rewrite land_128_small by (pose proof (b2z_range b); lia).
      reflexivity. }
    rewrite !Hb by lia. reflexivity.
  - repeat case_match; congruence.
Qed.

Lemma enc_decode c rest : (c_shared c <= length (c_key c))%nat -> small_entry (c_entry c) ->
  sz (enc c ++ rest) < 2 ^ 32 ->
  DecodeEntry (enc c ++ rest)
  = Some (Z.of_nat (c_shared c), sz (c_key c) - Z.of_nat (c_shared c), sz (c_value c),
          drop (c_shared c) (c_key c) ++ c_value c ++ rest).
Proof.
  intros Hs [Hk Hv] Hb. cbn [c_entry fst snd] in *. unfold sz in Hk, Hv. rewrite DecodeEntry_slow.
  assert (Hpos : forall v, (1 <= length (EncodeVarint32 v))%nat)
    by (intros v; unfold EncodeVarint32; zcases; simpl; lia).
  rewrite (proj2 (Z.ltb_ge _ _)).
  2: { unfold enc, sz. rewrite !length_app.
       pose proof (Hpos (Z.of_nat (c_shared c))).
       pose proof (Hpos (sz (c_key c) - Z.of_nat (c_shared c))). pose proof (Hpos (sz (c_value c))).
       unfold sz in *. lia. }
  unfold enc. rewrite <- !app_assoc. change GetVarint32Ptr with GetVarint32.
  rewrite varint32_get by lia. rewrite varint32_get by (unfold sz; lia).
  rewrite varint32_get by (unfold sz; lia).
  assert (Hlen : sz (drop (c_shared c) (c_key c) ++ c_value c ++ rest)
                 = sz (c_key c) - Z.of_nat (c_shared c) + sz (c_value c) + sz rest)
    by (unfold sz; rewrite !length_app, length_drop; lia).
  assert (Hlt : sz (drop (c_shared c) (c_key c) ++ c_value c ++ rest) < 2 ^ 32).
  { eapply Z.le_lt_trans; [|exact Hb]. unfold enc, sz. rewrite !length_app. lia. }
  pose proof (sz_nonneg rest). pose proof (sz_nonneg (c_value c)).
  rewrite !u32_small by (try (unfold sz in *; lia)).
  rewrite (proj2 (Z.ltb_ge _ _)) by lia. reflexivity.
Qed.

(** *** The iterator on a layout *)

Section Cursor.
Context {C : Comparator} {COK : ComparatorOk C}.
Context (cs : list cell) (ridx : list nat) (HL : Layout cs ridx).
Context (Hsmall : Forall (fun c => small_entry (c_entry c)) cs).

#[local] Abbreviation n := (length cs).
#[local] Abbreviation D := (block_bytes cs ridx).
#[local] Abbreviation R := (offs cs (length cs)).
Context (Hfit : sz D < 2 ^ 32).
Context (Hsorted : sorted_entries C (map c_entry cs)).

Lemma offs_S i c : cs !! i = Some c -> offs cs (S i) = offs cs i + sz (enc c).
Proof.
  intros H. unfold offs. rewrite (take_S_r cs i c H), map_app, concat_app, sz_app.
  cbn [map concat]. rewrite app_nil_r. reflexivity.
Qed.

Lemma enc_pos c : 3 <= sz (enc c).
Proof.
  assert (Hpos : forall v, 1 <= sz (EncodeVarint32 v))
    by (intros v; unfold EncodeVarint32, sz; zcases; simpl; lia).
  unfold enc. rewrite !sz_app. pose proof (Hpos (Z.of_nat (c_shared c))).
  pose proof (Hpos (sz (c_key c) - Z.of_nat (c_shared c))). pose proof (Hpos (sz (c_value c))).
  pose proof (sz_nonneg (drop (c_shared c) (c_key c))). pose proof (sz_nonneg (c_value c)). lia.
Qed.

Lemma offs_mono i j : (i < j)%nat -> (j <= n)%nat -> offs cs i + 3 <= offs cs j.
Proof.
  intros Hij Hj. induction j as [|j IH]; [lia|].
  destruct (lookup_lt_is_Some_2 cs j ltac:(lia)) as [c Hc]. rewrite (offs_S j c Hc).
  pose proof (enc_pos c). destruct (Nat.eq_dec i j) as [->|]; [lia|]. specialize (IH ltac:(lia) ltac:(lia)).
  lia.
Qed.

Lemma offs_le i j : (i <= j)%nat -> (j <= n)%nat -> offs cs i <= offs cs j.
Proof.
  intros Hij Hj. destruct (Nat.eq_dec i j) as [->|]; [lia|]. pose proof (offs_mono i j ltac:(lia) Hj). lia.
Qed.

Lemma offs_inj_lt i j : (i <= n)%nat -> (j <= n)%nat -> offs cs i < offs cs j <-> (i < j)%nat.
Proof.
  intros Hi Hj. split; intros H.
  - destruct (Nat.lt_ge_cases i j) as [|Hge]; [assumption|]. pose proof (offs_le j i Hge Hi). lia.
  - pose proof (offs_mono i j H Hj). lia.
Qed.

Lemma offs_nonneg i : 0 <= offs cs i.
Proof. apply sz_nonneg. Qed.

Lemma R_data : R + 4 * sz ridx + 4 = sz D.
Proof.
  unfold block_bytes. rewrite !sz_app, offs_all.
  assert (H : sz (concat (map EncodeFixed32 (map (offs cs) ridx))) = 4 * sz ridx).
  { unfold sz. rewrite length_fixed32s, length_map. lia. }
  rewrite H. change (sz (EncodeFixed32 (sz ridx))) with 4. lia.
Qed.

Lemma R_fits : 0 <= R < 2 ^ 32 /\ 0 < sz ridx < 2 ^ 32.
Proof.
  pose proof R_data. pose proof (offs_nonneg n). pose proof (sz_nonneg ridx).
  pose proof (lookup_lt_Some _ _ _ (lay_head _ _ HL)). unfold sz in *. lia.
Qed.

(** The bytes from an entry to the restart array. *)

Lemma data_from i : (i <= n)%nat ->
  take (Z.to_nat (R - offs cs i)) (drop (Z.to_nat (offs cs i)) D) = concat (map enc (drop i cs)).
Proof.
  intros Hi.
  assert (E : concat (map enc cs) = concat (map enc (take i cs)) ++ concat (map enc (drop i cs)))
    by (rewrite <- concat_app, <- map_app, take_drop; reflexivity).
  assert (Er : R - offs cs i = sz (concat (map enc (drop i cs)))).
  { rewrite offs_all, E, sz_app. unfold offs. lia. }
  rewrite Er. unfold block_bytes, offs. rewrite E, <- app_assoc, drop_sz_app. apply take_sz_app.
Qed.

Lemma restart_point it r i : it_data it = D -> it_restarts it = R -> ridx !! r = Some i ->
  GetRestartPoint it (Z.of_nat r) = offs cs i.
Proof.
  intros Hd Hr Hi. unfold GetRestartPoint. rewrite Hd, Hr.
  unfold block_bytes. rewrite offs_all.
  replace (Z.to_nat (sz (concat (map enc cs)) + Z.of_nat r * 4))
    with (length (concat (map enc cs)) + 4 * r)%nat by (unfold sz; lia).
  rewrite <- drop_drop, drop_app_length.
  rewrite (drop_fixed32 _ r (offs cs i)) by (apply list_lookup_fmap_Some; exists i; auto).
  apply u32_small. pose proof R_fits. pose proof (offs_nonneg i).
  assert (offs cs i <= R); [|lia]. apply offs_le; [|lia]. destruct (lay_range _ _ HL _ _ Hi); lia.
Qed.

Record Fixed (it : BlockIter) : Prop := {
  fx_data : it_data it = D;
  fx_restarts : it_restarts it = R;
  fx_num : it_num_restarts it = sz ridx;
  fx_status : it_status it = OK
}.

(** The restart index is at or before entry [i], and tight if the next restart
    is not before [i]. *)

Definition restart_low (i : nat) (ri : Z) : Prop :=
  exists r a, ri = Z.of_nat r /\ ridx !! r = Some a /\ (a <= i)%nat.

Definition restart_tight (i : nat) (ri : Z) : Prop :=
  exists r a, ri = Z.of_nat r /\ ridx !! r = Some a /\ (a <= i)%nat /\
    forall b, ridx !! S r = Some b -> (i <= b)%nat.

(** The next entry to parse is [i]. *)

Record Before (i : nat) (it : BlockIter) : Prop := {
  bf_fixed : Fixed it;
  bf_range : (i <= n)%nat;
  bf_next : NextEntryOffset it = offs cs i;
  bf_low : restart_low i (it_restart_index it);
  bf_key : forall c, cs !! i = Some c -> (c_shared c <= length (it_key it))%nat /\
    take (c_shared c) (it_key it) = take (c_shared c) (c_key c)
}.

(** The current entry is [i]. *)

Record At (i : nat) (it : BlockIter) : Prop := {
  at_fixed : Fixed it;
  at_cell : exists c, cs !! i = Some c /\ it_key it = c_key c /\
    it_value it = (offs cs (S i) - sz (c_value c), sz (c_value c));
  at_current : it_current it = offs cs i;
  at_tight : restart_tight i (it_restart_index it)
}.

Record AtEnd (it : BlockIter) : Prop := {
  ae_fixed : Fixed it;
  ae_current : it_current it = R;
  ae_index : it_restart_index it = sz ridx
}.

Lemma ridx_range r a : ridx !! r = Some a -> (a <= n)%nat.
Proof. intros H. destruct (lay_range _ _ HL _ _ H); lia. Qed.

Lemma advance_tight fuel : forall it i r a, it_data it = D -> it_restarts it = R ->
  it_num_restarts it = sz ridx -> (i <= n)%nat ->
  ridx !! r = Some a -> (a <= i)%nat -> (length ridx - r <= fuel)%nat ->
  restart_tight i (advance_restart fuel it (offs cs i) (Z.of_nat r)).
Proof.
  induction fuel as [|fuel IH]; intros it i r a Hd Hr Hn Hi Ha Hai Hf;
    pose proof (lookup_lt_Some _ _ _ Ha) as Hlt; [lia|].
  cbn [advance_restart]. rewrite Hn.
  replace (Z.of_nat r + 1) with (Z.of_nat (S r)) by lia.
  destruct (ridx !! S r) as [b|] eqn:Eb.
  - rewrite (restart_point it (S r) b Hd Hr Eb). pose proof (lookup_lt_Some _ _ _ Eb) as Hlb.
    rewrite (proj2 (Z.ltb_lt _ _)) by (unfold sz; lia). cbn [andb].
    pose proof (ridx_range _ _ Eb) as Hb.
    destruct (Z.ltb_spec (offs cs b) (offs cs i)) as [Hbi|Hbi].
    + apply offs_inj_lt in Hbi; [|lia|lia]. apply (IH it i (S r) b); auto; lia.
    + exists r, a. split; [reflexivity|]. split; [exact Ha|]. split; [exact Hai|].
      intros b' Hb'. assert (b' = b) as -> by congruence.
      destruct (Nat.lt_ge_cases b i) as [Hc|Hc]; [|exact Hc].
      apply (offs_inj_lt b i) in Hc; lia.
  - apply lookup_ge_None in Eb. rewrite (proj2 (Z.ltb_ge _ _)) by (unfold sz; lia). cbn [andb].
    exists r, a. split; [reflexivity|]. split; [exact Ha|]. split; [exact Hai|].
    intros b' Hb'. apply lookup_lt_Some in Hb'. lia.
Qed.

Lemma Parse_end it : Before n it -> exists it', ParseNextKey it = (false, it') /\ AtEnd it'.
Proof.
  intros [[Hd Hr Hn Hs] _ Hnext _ _]. unfold ParseNextKey. rewrite Hnext, Hr, Z.leb_refl.
  eexists. split; [reflexivity|]. constructor; [constructor; auto|reflexivity|exact Hn].
Qed.

Lemma drop_enc i c : cs !! i = Some c ->
  concat (map enc (drop i cs)) = enc c ++ concat (map enc (drop (S i) cs)).
Proof. intros H. rewrite (drop_S _ _ _ H). reflexivity. Qed.

Lemma suffix_fits i : sz (concat (map enc (drop i cs))) <= R.
Proof.
  rewrite offs_all. rewrite <- (take_drop i cs) at 2. rewrite map_app, concat_app, sz_app.
  match goal with |- _ <= ?a + _ => pose proof (sz_nonneg (concat (map enc (take i cs)))) end. lia.
Qed.

Lemma decode_at i c : cs !! i = Some c ->
  DecodeEntry (take (Z.to_nat (R - offs cs i)) (drop (Z.to_nat (offs cs i)) D))
  = Some (Z.of_nat (c_shared c), sz (c_key c) - Z.of_nat (c_shared c), sz (c_value c),
          drop (c_shared c) (c_key c) ++ c_value c ++ concat (map enc (drop (S i) cs))).
Proof.
  intros Hc. pose proof (lookup_lt_Some _ _ _ Hc) as Hlt. rewrite data_from by lia.
  rewrite (drop_enc i c Hc). apply enc_decode.
  - apply (lay_shared _ _ HL i c Hc).
  - exact (proj1 (list.Forall_lookup _ _) Hsmall i c Hc).
  - rewrite <- (drop_enc i c Hc). pose proof (suffix_fits i). pose proof R_fits. lia.
Qed.

Lemma Parse_step i it : Before i it -> (i < n)%nat ->
  exists it', ParseNextKey it = (true, it') /\ At i it'.
Proof.
  intros [[Hd Hr Hn Hs] Hi Hnext (r & a & Hri & Ha & Hai) Hkey] Hlt.
  destruct (lookup_lt_is_Some_2 cs i Hlt) as [c Hc]. destruct (Hkey c Hc) as [Hk1 Hk2].
  pose proof (offs_mono i n Hlt ltac:(lia)) as Hm.
  unfold ParseNextKey. rewrite Hnext, Hr, (proj2 (Z.leb_gt _ _)) by lia.
  rewrite Hd, (decode_at i c Hc). cbv zeta.
  rewrite (proj2 (Z.ltb_ge _ _)) by (unfold sz; lia).
  eexists. split; [reflexivity|]. destruct (lay_shared _ _ HL i c Hc) as (Hsh & _ & _).
  constructor; cbn [it_data it_restarts it_num_restarts it_status it_key it_value it_current it_restart_index].
  - constructor; auto.
  - exists c. split; [exact Hc|]. split.
    + rewrite Nat2Z.id, Hk2.
      replace (Z.to_nat (sz (c_key c) - Z.of_nat (c_shared c))) with (length (drop (c_shared c) (c_key c)))
        by (rewrite length_drop; unfold sz; lia).
      rewrite take_app_length. apply take_drop.
    + f_equal. rewrite !sz_app. rewrite (offs_S i c Hc).
      pose proof (drop_enc i c Hc) as He. apply (f_equal sz) in He. rewrite sz_app in He.
      assert (Er : R = offs cs i + sz (concat (map enc (drop i cs)))).
      { rewrite offs_all. unfold offs. rewrite <- (take_drop i cs) at 1.
        rewrite map_app, concat_app, sz_app. reflexivity. }
      assert (Hdl : sz (drop (c_shared c) (c_key c)) = sz (c_key c) - Z.of_nat (c_shared c))
        by (unfold sz; rewrite length_drop; lia).
      lia.
  - reflexivity.
  - rewrite Hri, Hn. apply (advance_tight _ it i r a); auto. unfold sz. lia.
Qed.

Lemma At_lt i it : At i it -> (i < n)%nat.
Proof. intros [_ (c & Hc & _) _ _]. exact (lookup_lt_Some _ _ _ Hc). Qed.

Lemma At_next_offset i it : At i it -> NextEntryOffset it = offs cs (S i).
Proof.
  intros HA. pose proof (At_lt i it HA). destruct HA as [_ (c & Hc & _ & Hv) _ _]. unfold NextEntryOffset.
  rewrite Hv. cbn [fst snd]. replace (offs cs (S i) - sz (c_value c) + sz (c_value c)) with (offs cs (S i)) by lia.
  apply u32_small. pose proof R_fits. pose proof (offs_le (S i) n ltac:(lia) ltac:(lia)).
  pose proof (offs_nonneg (S i)). lia.
Qed.

Lemma At_Before i it : At i it -> Before (S i) it.
Proof.
  intros HA. pose proof (At_next_offset i it HA) as Hno. pose proof (At_lt i it HA) as Hlt.
  destruct HA as [Hf (c & Hc & Hk & Hv) Hcur (r & a & Hri & Ha & Hai & _)].
  constructor; [exact Hf|lia|exact Hno| |].
  - exists r, a. split; [exact Hri|]. split; [exact Ha|lia].
  - intros c' Hc'. destruct (lay_shared _ _ HL (S i) c' Hc') as (_ & H2 & H3).
    assert (Hlast : last_key_of (take (S i) cs) = c_key c).
    { rewrite (take_S_r cs i c Hc). apply last_key_snoc. }
    rewrite Hlast in H2, H3. rewrite Hk. auto.
Qed.

Lemma Restart_Before it r a : Fixed it -> ridx !! r = Some a ->
  Before a (SeekToRestartPoint it (Z.of_nat r)).
Proof.
  intros [Hd Hr Hn Hs] Ha. pose proof (ridx_range _ _ Ha) as Hle.
  constructor; [constructor; assumption|exact Hle| | |].
  - unfold NextEntryOffset, SeekToRestartPoint. cbn [it_value fst snd].
    rewrite (restart_point it r a Hd Hr Ha), Z.add_0_r. apply u32_small.
    pose proof R_fits. pose proof (offs_le a n Hle ltac:(lia)). pose proof (offs_nonneg a). lia.
  - exists r, a. auto.
  - intros c Hc. rewrite (lay_restart _ _ HL r a c Ha Hc). split; [lia|reflexivity].
Qed.

Definition Pos (i : nat) (it : BlockIter) : Prop :=
  ((i < n)%nat /\ At i it) \/ (i = n /\ AtEnd it).

Lemma Pos_fixed i it : Pos i it -> Fixed it.
Proof. intros [[_ H]|[_ H]]; apply H. Qed.

Lemma Parse_pos i it : Before i it -> Pos i (snd (ParseNextKey it)).
Proof.
  intros HB. destruct (Nat.lt_ge_cases i n) as [Hlt|Hge].
  - destruct (Parse_step i it HB Hlt) as (it' & -> & HA). left. auto.
  - assert (i = n) as -> by (pose proof (bf_range _ _ HB); lia).
    destruct (Parse_end it HB) as (it' & -> & HA). right. auto.
Qed.

Lemma n_lt_data : (n < length D)%nat.
Proof.
  pose proof R_data. pose proof (lookup_lt_Some _ _ _ (lay_head _ _ HL)).
  assert (H1 : forall i, (i <= n)%nat -> 3 * Z.of_nat i <= offs cs i).
  { induction i as [|i IH]; intros Hi; [apply offs_nonneg|].
    pose proof (offs_mono i (S i) ltac:(lia) Hi). specialize (IH ltac:(lia)). lia. }
  specialize (H1 n ltac:(lia)). unfold sz in *. lia.
Qed.

(** Scanning forward to the entry that ends at [offs cs j]. *)

Lemma scan_to_pos fuel : forall i j it, Before i it -> (i < j)%nat -> (j <= n)%nat ->
  (j - i <= fuel)%nat -> At (pred j) (scan_to fuel it (offs cs j)).
Proof.
  induction fuel as [|fuel IH]; intros i j it HB Hij Hj Hf; [lia|]. cbn [scan_to].
  destruct (Parse_step i it HB ltac:(lia)) as (it' & -> & HA). cbn [andb].
  rewrite (At_next_offset i it' HA). destruct (Z.ltb_spec (offs cs (S i)) (offs cs j)) as [Hlt|Hge].
  - apply offs_inj_lt in Hlt; [|lia|lia]. apply (IH (S i)); [apply At_Before, HA|lia|lia|lia].
  - assert (j = S i) as ->; [|exact HA].
    destruct (Nat.eq_dec j (S i)) as [|Hne]; [assumption|].
    pose proof (proj2 (offs_inj_lt (S i) j ltac:(lia) Hj) ltac:(lia)). lia.
Qed.

Lemma SeekToFirst_pos it : Fixed it -> Pos O (BI_SeekToFirst it).
Proof.
  intros HF. apply Parse_pos. exact (Restart_Before it O O HF (lay_head _ _ HL)).
Qed.

Lemma SeekToLast_pos it : Fixed it -> Pos (pred n) (BI_SeekToLast it).
Proof.
  intros HF. unfold BI_SeekToLast. rewrite (fx_num _ HF), (fx_restarts _ HF), (fx_data _ HF).
  pose proof R_fits as [_ Hsz]. pose proof n_lt_data as Hn.
  destruct (ridx !! pred (length ridx)) as [a|] eqn:Ea.
  2: { apply lookup_ge_None in Ea. unfold sz in Hsz. lia. }
  pose proof (Restart_Before it _ a HF Ea) as HB.
  replace (Z.of_nat (pred (length ridx))) with (sz ridx - 1) in HB by (unfold sz in *; lia).
  destruct (lay_range _ _ HL _ _ Ea) as [Hlt|Ha0].
  - left. split; [lia|]. apply (scan_to_pos _ a n); [exact HB|lia|lia|lia].
  - destruct (Nat.eq_dec n O) as [E0|Hn0].
    + assert (a = n) as -> by lia. right. rewrite E0. split; [reflexivity|]. cbn [scan_to].
      destruct (Parse_end _ HB) as (it' & -> & HA). exact HA.
    + left. split; [lia|]. apply (scan_to_pos _ a n); [exact HB|lia|lia|lia].
Qed.

Lemma Next_pos i it : At i it -> Pos (S i) (BI_Next it).
Proof. intros HA. apply Parse_pos, At_Before, HA. Qed.

(** The restart point before entry [i]. *)

Lemma Prev_restart_spec fuel : forall it i r a, Fixed it -> (i <= n)%nat -> ridx !! r = Some a ->
  (r < fuel)%nat ->
  match Prev_restart fuel it (offs cs i) (Z.of_nat r) with
  | Some q => exists r' a', q = Z.of_nat r' /\ ridx !! r' = Some a' /\ (a' < i)%nat
  | None => i = O
  end.
Proof.
  induction fuel as [|fuel IH]; intros it i r a HF Hi Ha Hf; [lia|]. cbn [Prev_restart].
  rewrite (restart_point it r a (fx_data _ HF) (fx_restarts _ HF) Ha).
  pose proof (ridx_range _ _ Ha) as Hle.
  destruct (Z.leb_spec (offs cs i) (offs cs a)) as [Hge|Hlt].
  - destruct (Z.eqb_spec (Z.of_nat r) 0) as [E0|E0].
    + assert (r = O) as -> by lia. rewrite (lay_head _ _ HL) in Ha. injection Ha as <-.
      destruct i as [|i]; [reflexivity|]. pose proof (offs_mono O (S i) ltac:(lia) Hi). lia.
    + destruct (lookup_lt_is_Some_2 ridx (pred r)) as [a' Ha'];
        [pose proof (lookup_lt_Some _ _ _ Ha); lia|].
      replace (Z.of_nat r - 1) with (Z.of_nat (pred r)) by lia. apply (IH it i (pred r) a'); auto. lia.
  - exists r, a. split; [reflexivity|]. split; [exact Ha|]. apply offs_inj_lt; [lia|lia|exact Hlt].
Qed.

Lemma Prev_pos i it : At i it -> Pos (if (i =? 0)%nat then n else pred i) (BI_Prev it).
Proof.
  intros HA. pose proof (At_lt i it HA) as Hlt. pose proof n_lt_data as Hn.
  destruct HA as [HF _ Hcur (r & a & Hri & Ha & Hai & _)]. unfold BI_Prev. rewrite Hcur, Hri.
  pose proof (Prev_restart_spec (S (Z.to_nat (Z.of_nat r))) it i r a HF ltac:(lia) Ha ltac:(lia)) as Hp.
  destruct (Prev_restart _ it (offs cs i) (Z.of_nat r)) as [q|].
  - destruct Hp as (r' & a' & -> & Ha' & Hlt'). destruct i as [|i]; [lia|]. cbn [Nat.eqb].
    left. split; [lia|]. rewrite (fx_data _ HF).
    apply (scan_to_pos _ a' (S i)); [apply Restart_Before; assumption|lia|lia|lia].
  - subst i. cbn [Nat.eqb]. right. split; [reflexivity|].
    destruct HF as [Hd Hr Hn' Hs]. constructor; [constructor|exact Hr|exact Hn']; assumption.
Qed.

(** *** Seek *)

Definition below (i : nat) (t : bytes) : Prop :=
  forall j c, (j < i)%nat -> cs !! j = Some c -> cmp (c_key c) t < 0.

Lemma lookup_entries i : map c_entry cs !! i = option_map c_entry (cs !! i).
Proof. apply list_lookup_fmap. Qed.

Lemma below_from i c t : cmp_dom t -> cs !! i = Some c -> cmp (c_key c) t < 0 -> below (S i) t.
Proof.
  intros Ht Hc Hlt j c' Hj Hc'. destruct (Nat.eq_dec j i) as [->|Hne]; [congruence|].
  assert (E1 : map c_entry cs !! j = Some (c_entry c')) by (rewrite lookup_entries, Hc'; reflexivity).
  assert (E2 : map c_entry cs !! i = Some (c_entry c)) by (rewrite lookup_entries, Hc; reflexivity).
  pose proof (sorted_lt _ j i _ _ Hsorted ltac:(lia) E1 E2) as H.
  exact (cmp_trans _ _ _ (sorted_dom _ _ _ Hsorted E1) (sorted_dom _ _ _ Hsorted E2) Ht H Hlt).
Qed.

Lemma lower_bound_found i c t : below i t -> cs !! i = Some c -> 0 <= cmp (c_key c) t ->
  lower_bound C (map c_entry cs) t = i.
Proof.
  intros Hb Hc Hge. apply lower_bound_iff.
  - rewrite length_map. apply lookup_lt_Some in Hc. lia.
  - intros j e Hj He. rewrite lookup_entries in He. destruct (cs !! j) as [c'|] eqn:Ec; [|discriminate].
    injection He as <-. exact (Hb j c' Hj Ec).
  - intros e He. rewrite lookup_entries, Hc in He. injection He as <-. exact Hge.
Qed.

Lemma lower_bound_end t : below n t -> lower_bound C (map c_entry cs) t = n.
Proof.
  intros Hb. apply lower_bound_iff.
  - rewrite length_map. lia.
  - intros j e Hj He. rewrite lookup_entries in He. destruct (cs !! j) as [c'|] eqn:Ec; [|discriminate].
    injection He as <-. exact (Hb j c' Hj Ec).
  - intros e He. apply lookup_lt_Some in He. rewrite length_map in He. lia.
Qed.

Lemma Seek_linear_pos fuel : forall i it t, cmp_dom t -> Before i it -> below i t ->
  (n - i < fuel)%nat -> Pos (lower_bound C (map c_entry cs) t) (Seek_linear C fuel it t).
Proof.
  induction fuel as [|fuel IH]; intros i it t Ht HB Hb Hf; [lia|]. cbn [Seek_linear].
  destruct (Nat.lt_ge_cases i n) as [Hlt|Hge].
  - destruct (Parse_step i it HB Hlt) as (it' & -> & HA). cbn [negb].
    pose proof HA as [_ (c & Hc & Hk & _) _ _]. rewrite Hk.
    destruct (Z.leb_spec 0 (cmp (c_key c) t)) as [Hc0|Hc0].
    + rewrite (lower_bound_found i c t Hb Hc Hc0). left. auto.
    + apply (IH (S i)); [exact Ht|apply At_Before, HA|exact (below_from i c t Ht Hc Hc0)|lia].
  - assert (i = n) as -> by (pose proof (bf_range _ _ HB); lia).
    destruct (Parse_end it HB) as (it' & -> & HA). cbn [negb].
    rewrite (lower_bound_end t Hb). right. auto.
Qed.

(** A restart from which a linear search finds the lower bound. *)

Definition search_start (l : nat) (t : bytes) : Prop :=
  exists a, ridx !! l = Some a /\ below a t.

Lemma ridx_pos r a : ridx !! r = Some a -> (0 < r)%nat -> (a < n)%nat.
Proof.
  intros Ha Hr. destruct (lay_range _ _ HL _ _ Ha) as [H|Ha0]; [exact H|]. exfalso.
  pose proof (lay_sorted _ _ HL) as HS. pose proof (lay_head _ _ HL) as Hh.
  destruct ridx as [|x l]; [discriminate|]. injection Hh as ->. destruct r as [|r]; [lia|].
  cbn in Ha. apply StronglySorted_inv in HS as [_ HFa].
  pose proof (proj1 (list.Forall_lookup _ _) HFa r a Ha). lia.
Qed.

Lemma Seek_search_spec fuel : forall it t l rr, Fixed it -> cmp_dom t -> search_start l t ->
  (l <= rr)%nat -> (rr < length ridx)%nat -> (rr - l < fuel)%nat ->
  exists l', Seek_search C fuel it t (Z.of_nat l) (Z.of_nat rr) = Some (Z.of_nat l') /\
    search_start l' t.
Proof.
  induction fuel as [|fuel IH]; intros it t l rr HF Ht Hl Hle Hrr Hf; [lia|]. cbn [Seek_search].
  destruct (Z.ltb_spec (Z.of_nat l) (Z.of_nat rr)) as [Hlt|Hge]; [|exists l; auto].
  pose proof R_fits as [_ Hsz]. pose proof R_data as HRd. pose proof (offs_nonneg n).
  set (mid := ((l + rr + 1) / 2)%nat).
  assert (Hmid : (l < mid <= rr)%nat).
  { unfold mid. pose proof (Nat.div_mod (l + rr + 1) 2 ltac:(lia)).
    pose proof (Nat.mod_upper_bound (l + rr + 1) 2 ltac:(lia)). lia. }
  assert (Em : u32 (Z.of_nat l + Z.of_nat rr + 1) / 2 = Z.of_nat mid).
  { rewrite u32_small by (unfold sz in *; lia). unfold mid.
    rewrite Nat2Z.inj_div. f_equal. lia. }
  cbv zeta. rewrite Em. destruct (lookup_lt_is_Some_2 ridx mid ltac:(lia)) as [a Ha].
  pose proof (ridx_pos mid a Ha ltac:(lia)) as Han.
  destruct (lookup_lt_is_Some_2 cs a Han) as [c Hc].
  rewrite (restart_point it mid a (fx_data _ HF) (fx_restarts _ HF) Ha).
  rewrite (fx_restarts _ HF), (fx_data _ HF), (decode_at a c Hc).
  rewrite (lay_restart _ _ HL mid a c Ha Hc). cbn [negb Z.eqb Z.of_nat].
  rewrite Z.sub_0_r, drop_0, take_sz_app.
  destruct (Z.ltb_spec (cmp (c_key c) t) 0) as [Hlt'|Hge'].
  - apply IH; try assumption; try lia. exists a. split; [exact Ha|].
    intros j c' Hj. apply (below_from a c t Ht Hc Hlt'). lia.
  - replace (Z.of_nat mid - 1) with (Z.of_nat (pred mid)) by lia. apply IH; try assumption; lia.
Qed.

Lemma below_0 t : below O t.
Proof. intros j c Hj. lia. Qed.

Lemma Seek_from it t l : Fixed it -> cmp_dom t -> search_start l t ->
  Pos (lower_bound C (map c_entry cs) t)
    (Seek_linear C (S (length D)) (SeekToRestartPoint it (Z.of_nat l)) t).
Proof.
  intros HF Ht (a & Ha & Hb). pose proof n_lt_data.
  apply (Seek_linear_pos _ a); [exact Ht|apply Restart_Before; assumption|exact Hb|lia].
Qed.

Lemma Seek_pos i it t : Pos i it -> cmp_dom t ->
  Pos (lower_bound C (map c_entry cs) t) (BI_Seek C it t).
Proof.
  intros HP Ht. pose proof (Pos_fixed i it HP) as HF. pose proof R_fits as [_ Hsz].
  pose proof n_lt_data as Hn. unfold BI_Seek, BI_Valid. rewrite (fx_restarts _ HF), (fx_num _ HF).
  assert (H0 : search_start O t) by (exists O; split; [apply (lay_head _ _ HL)|apply below_0]).
  assert (Elast : sz ridx - 1 = Z.of_nat (pred (length ridx))) by (unfold sz in *; lia).
  destruct HP as [[Hlt HA]|[-> HA]].
  - pose proof HA as [_ (c & Hc & Hk & Hv) Hcur Hti].
    pose proof Hti as (r & a & Hri & Ha & Hai & Htight). pose proof (lookup_lt_Some _ _ _ Ha) as Hrl.
    rewrite Hcur, Hk, Hri. pose proof (offs_mono i n Hlt ltac:(lia)).
    rewrite (proj2 (Z.ltb_lt (offs cs i) R)) by lia. cbn [andb].
    destruct (Z.eqb_spec (cmp (c_key c) t) 0) as [E0|E0].
    + assert (Hb : below i t).
      { intros j c' Hj Hc'. destruct i as [|i']; [lia|].
        assert (E1 : map c_entry cs !! j = Some (c_entry c')) by (rewrite lookup_entries, Hc'; reflexivity).
        assert (E2 : map c_entry cs !! S i' = Some (c_entry c)) by (rewrite lookup_entries, Hc; reflexivity).
        pose proof (sorted_lt _ _ _ _ _ Hsorted Hj E1 E2) as Hlt'.
        apply (cmp_eq (c_key c) t) in E0; [|exact (sorted_dom _ _ _ Hsorted E2)|exact Ht].
        rewrite <- E0. exact Hlt'. }
      rewrite (lower_bound_found i c t Hb Hc ltac:(lia)). left. auto.
    + destruct (Z.ltb_spec (cmp (c_key c) t) 0) as [Hneg|Hpos].
      * assert (Hr : search_start r t).
        { exists a. split; [exact Ha|]. intros j c' Hj. apply (below_from i c t Ht Hc Hneg). lia. }
        rewrite (proj2 (Z.ltb_ge 0 _)) by lia. rewrite Elast.
        destruct (Seek_search_spec (S (Z.to_nat (sz ridx))) it t r (pred (length ridx)) HF Ht Hr)
          as (l' & -> & Hl'); [lia|unfold sz in *; lia|unfold sz in *; lia|].
        rewrite andb_true_r. destruct (Z.of_nat l' =? Z.of_nat r).
        -- rewrite (fx_data _ HF). apply (Seek_linear_pos _ (S i)); [exact Ht|apply At_Before, HA| |lia].
           exact (below_from i c t Ht Hc Hneg).
        -- cbn [SeekToRestartPoint it_data]. rewrite (fx_data _ HF). apply Seek_from; assumption.
      * rewrite (proj2 (Z.ltb_lt 0 _)) by lia.
        destruct (Seek_search_spec (S (Z.to_nat (sz ridx))) it t O r HF Ht H0)
          as (l' & E & Hl'); [lia|unfold sz in *; lia|unfold sz in *; lia|].
        change (Z.of_nat 0) with 0 in E. rewrite E, andb_false_r.
        cbn [SeekToRestartPoint it_data]. rewrite (fx_data _ HF). apply Seek_from; assumption.
  - rewrite (ae_current _ HA), Z.ltb_irrefl. cbn [andb]. rewrite Elast.
    destruct (Seek_search_spec (S (Z.to_nat (sz ridx))) it t O (pred (length ridx)) HF Ht H0)
      as (l' & E & Hl'); [lia|unfold sz in *; lia|unfold sz in *; lia|].
    change (Z.of_nat 0) with 0 in E. rewrite E, andb_false_r.
    cbn [SeekToRestartPoint it_data]. rewrite (fx_data _ HF). apply Seek_from; assumption.
Qed.

End Cursor.

Definition BlockIteratorOps (C : Comparator) : Iterator BlockIter := {|
  iValid := BI_Valid;
  iSeekToFirst := BI_SeekToFirst;
  iSeekToLast := BI_SeekToLast;
  iSeek := BI_Seek C;
  iNext := BI_Next;
  iPrev := BI_Prev;
  iKey := BI_key;
  iValue := BI_value;
  iStatus := it_status
|}.

Section BlockCursor.
Context {C : Comparator} {COK : ComparatorOk C}.

Lemma Block_cursor cs ridx : Layout cs ridx -> Forall (fun c => small_entry (c_entry c)) cs ->
  sz (block_bytes cs ridx) < 2 ^ 32 -> sorted_entries C (map c_entry cs) ->
  @Cursor _ (BlockIteratorOps C) C (map c_entry cs) (Pos cs ridx).
Proof.
  intros HL Hs Hf HS. assert (Hlen : length (map c_entry cs) = length cs) by apply length_map.
  assert (Hlt : forall i it, Pos cs ridx i it -> (i < length cs)%nat -> At cs ridx i it).
  { intros i it [[_ HA]|[-> _]] Hi; [exact HA|lia]. }
  split; cbn [iValid iSeekToFirst iSeekToLast iSeek iNext iPrev iKey iValue iStatus BlockIteratorOps];
    rewrite ?Hlen; intros.
  - destruct H as [[? _]|[-> _]]; lia.
  - unfold BI_Valid. destruct H as [[Hi HA]|[-> HA]].
    + rewrite (at_current _ _ _ _ HA), (fx_restarts _ _ _ (at_fixed _ _ _ _ HA)).
      pose proof (offs_mono cs i (length cs) Hi ltac:(lia)).
      rewrite (proj2 (Z.ltb_lt _ _)), (proj2 (Nat.ltb_lt _ _)) by lia. reflexivity.
    + rewrite (ae_current _ _ _ HA), (fx_restarts _ _ _ (ae_fixed _ _ _ HA)).
      rewrite Z.ltb_irrefl, Nat.ltb_irrefl. reflexivity.
  - assert (Hi : (i < length cs)%nat) by (apply lookup_lt_Some in H0; lia).
    apply Hlt in H; [|exact Hi]. destruct H as [HF (c & Hc & Hk & Hv) _ _].
    rewrite lookup_entries, Hc in H0. injection H0 as <- <-. split; [exact Hk|].
    unfold BI_value. rewrite Hv, (fx_data _ _ _ HF). cbn [fst snd].
    replace (Z.to_nat (offs cs (S i) - sz (c_value c)))
      with (length (concat (map enc (take i cs)) ++ take (length (enc c) - length (c_value c)) (enc c))).
    + assert (Hd : drop (length (enc c) - length (c_value c)) (enc c) = c_value c).
      { unfold enc. rewrite !app_assoc, length_app, Nat.add_sub. apply drop_app_length. }
      set (p := take (length (enc c) - length (c_value c)) (enc c)) in *.
      assert (Ec : enc c = p ++ c_value c) by (unfold p; rewrite <- Hd at 2; symmetry; apply take_drop).
      assert (E : concat (map enc cs)
                  = (concat (map enc (take i cs)) ++ p) ++ c_value c ++ concat (map enc (drop (S i) cs))).
      { rewrite <- (take_drop_middle cs i c Hc) at 1. rewrite map_app, concat_app. cbn [map concat].
        rewrite Ec, <- !app_assoc. reflexivity. }
      unfold block_bytes. rewrite E, <- (app_assoc (concat (map enc (take i cs)) ++ p)), drop_app_length.
      rewrite <- app_assoc. apply take_sz_app.
    + rewrite (offs_S cs i c Hc). unfold offs, sz. rewrite length_app, length_take.
      assert (length (c_value c) <= length (enc c))%nat by (unfold enc; rewrite !length_app; lia). lia.
  - exact (fx_status _ _ _ (Pos_fixed cs ridx i it H)).
  - eapply SeekToFirst_pos; eauto. eapply Pos_fixed; eauto.
  - eapply SeekToLast_pos; eauto. eapply Pos_fixed; eauto.
  - eapply Next_pos; eauto.
  - eapply Prev_pos; eauto.
  - eapply Seek_pos; eauto.
Qed.

Lemma BlockIter_new_pos cs ridx : Pos cs ridx (length cs)
  (BlockIter_new (block_bytes cs ridx) (offs cs (length cs)) (sz ridx)).
Proof. right. split; [reflexivity|]. constructor; [constructor|..]; reflexivity. Qed.

Lemma Block_new_bytes cs ridx : Layout cs ridx -> sz (block_bytes cs ridx) < 2 ^ 32 ->
  Block_NewIterator (Block_new (block_bytes cs ridx))
  = IterOf (BlockIter_new (block_bytes cs ridx) (offs cs (length cs)) (sz ridx)).
Proof.
  intros HL Hf. pose proof (R_data cs ridx) as HR.
  pose proof (offs_nonneg cs (length cs)) as H0. pose proof (R_fits cs ridx HL Hf) as [_ Hr].
  assert (Hnum : blk_NumRestarts (block_bytes cs ridx) (sz (block_bytes cs ridx)) = sz ridx).
  { unfold blk_NumRestarts. unfold block_bytes at 2. rewrite app_assoc.
    replace (Z.to_nat (sz (block_bytes cs ridx) - 4))
      with (length (concat (map enc cs) ++ concat (map EncodeFixed32 (map (offs cs) ridx)))).
    - rewrite drop_app_length, <- (app_nil_r (EncodeFixed32 (sz ridx))), fixed32_decode.
      apply u32_small. lia.
    - rewrite <- HR, offs_all, length_app, length_fixed32s, length_map. unfold sz. lia. }
  unfold Block_new. rewrite (proj2 (Z.ltb_ge _ 4)) by lia. cbv zeta. rewrite Hnum.
  rewrite (proj2 (Z.ltb_ge _ (sz ridx))) by (apply Z.div_le_lower_bound; lia).
  unfold Block_NewIterator. cbn [blk_size blk_data blk_restart_offset].
  rewrite (proj2 (Z.ltb_ge _ 4)) by lia. rewrite Hnum. rewrite (proj2 (Z.eqb_neq (sz ridx) 0)) by lia.
  do 3 f_equal. rewrite (u32_small (1 + sz ridx)) by lia. rewrite u32_small by lia. lia.
Qed.

End BlockCursor.

Lemma build_block_cursor : forall C, ComparatorOk C -> forall interval es,
  1 <= interval -> Forall small_entry es -> sorted_entries C es ->
  sz (build_block interval es) < 2 ^ 32 ->
  exists it0 (Pos : nat -> BlockIter -> Prop),
    Block_NewIterator (Block_new (build_block interval es)) = IterOf it0 /\
    Pos (length es) it0 /\ @Cursor _ (BlockIteratorOps C) C es Pos.
Proof.
  intros C COK interval es Hint Hs HS Hf. unfold build_block in *.
  destruct (build_rep interval es Hint Hs) as (cs & ridx & Hes & HR).
  rewrite (finish_bytes _ _ _ HR) in *. subst es.
  eexists _, (Pos cs ridx). split; [apply Block_new_bytes; [apply HR|exact Hf]|].
  rewrite length_map. split; [apply BlockIter_new_pos|].
  apply Block_cursor; try assumption; [apply HR|]. exact (proj1 (list.Forall_fmap c_entry small_entry cs) Hs).
Qed.

(** ** Properties *)

(** C25. The iterator of a block is a cursor on the entries the block was built
    from: for any strictly sorted entries and any restart interval, the
    contents of the finished block open without error, and from every reachable
    position SeekToFirst, SeekToLast, Next, Prev and Seek (with its binary
    search over the restart points and its reuse of the current position) lead
    to the first, last, next, previous and first-not-smaller entry, with the
    exact key and value. *)
Theorem block_iterator_is_cursor : forall C, ComparatorOk C -> forall interval es,
  1 <= interval -> Forall small_entry es -> sorted_entries C es ->
  sz (build_block interval es) < 2 ^ 32 ->
  exists it0 (Pos : nat -> BlockIter -> Prop),
    Block_NewIterator (Block_new (build_block interval es)) = IterOf it0 /\
    Pos (length es) it0 /\ @Cursor _ (BlockIteratorOps C) C es Pos.
Proof. exact build_block_cursor. Qed.

Definition sample_entries : list entry :=
  [(str "aa", str "1"); (str "ab", str "2"); (str "abc", str "3"); (str "b", str "4")].

Lemma block_iterator_is_cursor_witness :
  exists it0 (Pos : nat -> BlockIter -> Prop),
    Block_NewIterator (Block_new (build_block 2 sample_entries)) = IterOf it0 /\
    Pos (length sample_entries) it0 /\
    @Cursor _ (BlockIteratorOps BytewiseComparator) BytewiseComparator sample_entries Pos.
Proof.
  apply block_iterator_is_cursor.
  - exact BytewiseComparatorOk.
  - lia.
  - repeat constructor.
  - split.
    + repeat (constructor; [|repeat (constructor; [vm_compute; reflexivity|]); constructor]). constructor.
    + repeat constructor.
  - vm_compute. reflexivity.
Defined.

(** C31. [DecodeEntry] accepts three lengths exactly when the 32-bit sum of the last two is
    not above the number of bytes that follow them.  So it keeps the key delta and the value
    inside the block whenever the two lengths add up to less than 2^32; when they add up to
    2^32 or more, an entry is still accepted whenever the sum less 2^32 fits, and then the key
    delta and the value always reach past the end of the block, by 2^32 at most. *)
Theorem decode_entry_bounds :
  (forall shared non_shared value_length rest, 0 <= shared < 2 ^ 32 -> 0 <= non_shared < 2 ^ 32 -> 0 <= value_length < 2 ^ 32 -> sz rest < 2 ^ 32 ->
     DecodeEntry (EncodeVarint32 shared ++ EncodeVarint32 non_shared ++ EncodeVarint32 value_length ++ rest) =
     if sz rest <? (non_shared + value_length) mod 2 ^ 32 then None else Some (shared, non_shared, value_length, rest)) /\
  (forall p shared non_shared value_length q, sz p < 2 ^ 32 -> DecodeEntry p = Some (shared, non_shared, value_length, q) ->
     (exists lengths, p = lengths ++ q) /\
     (non_shared + value_length < 2 ^ 32 -> non_shared + value_length <= sz q) /\
     (2 ^ 32 <= non_shared + value_length -> sz q < non_shared + value_length <= sz q + 2 ^ 32)).
Proof.
  split.
  - intros sh ns vl q H1 H2 H3 Hq. rewrite DecodeEntry_slow. change GetVarint32Ptr with GetVarint32.
    rewrite (proj2 (Z.ltb_ge _ 3)) by (rewrite !sz_app; pose proof (EncodeVarint32_length sh); pose proof (EncodeVarint32_length ns); pose proof (EncodeVarint32_length vl); pose proof (sz_nonneg q); unfold sz in *; lia).
    rewrite !varint32_get by assumption. rewrite (u32_small (sz q)) by (pose proof (sz_nonneg q); lia). reflexivity.
  - intros p sh ns vl q Hp H. rewrite DecodeEntry_slow in H. destruct (sz p <? 3); [discriminate|].
    change GetVarint32Ptr with GetVarint32 in H.
    destruct (GetVarint32 p) as [[a p1]|] eqn:E1; [|discriminate].
    destruct (GetVarint32 p1) as [[b p2]|] eqn:E2; [|discriminate].
    destruct (GetVarint32 p2) as [[c p3]|] eqn:E3; [|discriminate].
    apply GetVarint32_used in E1 as (R1 & u1 & -> & _).
    apply GetVarint32_used in E2 as (R2 & u2 & -> & _).
    apply GetVarint32_used in E3 as (R3 & u3 & -> & _).
    rewrite !sz_app in Hp. pose proof (sz_nonneg u1). pose proof (sz_nonneg u2). pose proof (sz_nonneg u3).
    pose proof (sz_nonneg p3). destruct (Z.ltb_spec (u32 (sz p3)) (u32 (b + c))) as [Hl|Hl]; [discriminate|].
    injection H as <- <- <- <-. rewrite (u32_small (sz p3)) in Hl by lia. split; [exists (u1 ++ u2 ++ u3); rewrite <- !app_assoc; reflexivity|]. split.
    + intros Hlt. rewrite u32_small in Hl by lia. exact Hl.
    + intros Hge. replace (u32 (b + c)) with (b + c - 2 ^ 32) in Hl; [lia|]. unfold u32. change (2 ^ 32) with 4294967296 in *.
      rewrite <- (Z.mod_small (b + c - 4294967296) 4294967296) by lia. rewrite <- (Z.mod_add (b + c - 4294967296) 1) by lia. f_equal. lia.
Qed.
