(* ===== verification/Merger.v ===== *)
(** * The merging iterator (table/merger.cc)

    The iterator over several children, each with its own sorted entries.  The
    wrapper around a child only caches its validity and its key, so a child is
    its iterator.  Verified against the [Cursor] contract of the children: the
    merging iterator is a cursor on the merged list, in both directions and
    across changes of direction. *)

From S2P Require Import Prelude Compare Logging Iterator Block.
#[local] Open Scope Z_scope.
#[local] Open Scope ldb_scope.

Inductive Direction := kForward | kReverse.

#[export] Instance Direction_eq_dec : EqDecision Direction.
Proof. solve_decision. Defined.

Section Merger.
Context (C : Comparator) {It : Type} `{Iterator It}.

(** [current_] is the index of a child, [None] for [nullptr]. *)

Record MergingIterator := mkMerging {
  m_children : list It;
  m_current : option nat;
  m_direction : Direction
}.

Definition Merging_new (children : list It) : MergingIterator := mkMerging children None kForward.

Fixpoint FindSmallest_loop (i : nat) (children : list It) (smallest : option (nat * bytes))
  : option (nat * bytes) :=
  match children with
  | [] => smallest
  | child :: children =>
      FindSmallest_loop (S i) children
        (if iValid child then
           match smallest with
           | None => Some (i, iKey child)
           | Some (_, k) => if cmp (iKey child) k <? 0 then Some (i, iKey child) else smallest
           end
         else smallest)
  end.

Definition FindSmallest (children : list It) : option nat :=
  option_map fst (FindSmallest_loop O children None).

(** The loop of [FindLargest] runs from the last child to the first. *)

Fixpoint FindLargest_loop (i : nat) (children : list It) : option (nat * bytes) :=
  match children with
  | [] => None
  | child :: children =>
      let largest := FindLargest_loop (S i) children in
      if iValid child then
        match largest with
        | None => Some (i, iKey child)
        | Some (_, k) => if 0 <? cmp (iKey child) k then Some (i, iKey child) else largest
        end
      else largest
  end.

Definition FindLargest (children : list It) : option nat :=
  option_map fst (FindLargest_loop O children).

Definition Merging_Valid (m : MergingIterator) : bool :=
  match m_current m with Some _ => true | None => false end.

Definition Merging_SeekToFirst (m : MergingIterator) : MergingIterator :=
  let children := map iSeekToFirst (m_children m) in
  mkMerging children (FindSmallest children) kForward.

Definition Merging_SeekToLast (m : MergingIterator) : MergingIterator :=
  let children := map iSeekToLast (m_children m) in
  mkMerging children (FindLargest children) kReverse.

Definition Merging_Seek (m : MergingIterator) (target : bytes) : MergingIterator :=
  let children := map (fun c => iSeek c target) (m_children m) in
  mkMerging children (FindSmallest children) kForward.

Definition current_child {A} (f : It -> A) (d : A) (m : MergingIterator) : A :=
  match m_current m with
  | Some i => match m_children m !! i with Some c => f c | None => d end
  | None => d
  end.

Definition Merging_key (m : MergingIterator) : bytes := current_child iKey [] m.

Definition Merging_value (m : MergingIterator) : bytes := current_child iValue [] m.

(** Applies [f] to every child but the current one. *)

Definition other_children (f : It -> It) (m : MergingIterator) : list It :=
  imap (fun i child => if decide (Some i = m_current m) then child else f child) (m_children m).

Definition move_current (f : It -> It) (current : option nat) (children : list It) : list It :=
  match current with Some i => alter f i children | None => children end.

Definition Merging_Next (m : MergingIterator) : MergingIterator :=
  let key := Merging_key m in
  let children :=
    match m_direction m with
    | kForward => m_children m
    | kReverse =>
        other_children (fun child =>
          let child := iSeek child key in
          if iValid child && (cmp key (iKey child) =? 0) then iNext child else child) m
    end in
  let children := move_current iNext (m_current m) children in
  mkMerging children (FindSmallest children) kForward.

Definition Merging_Prev (m : MergingIterator) : MergingIterator :=
  let key := Merging_key m in
  let children :=
    match m_direction m with
    | kReverse => m_children m
    | kForward =>
        other_children (fun child =>
          let child := iSeek child key in
          if iValid child then iPrev child else iSeekToLast child) m
    end in
  let children := move_current iPrev (m_current m) children in
  mkMerging children (FindLargest children) kReverse.

Definition Merging_status (m : MergingIterator) : Status :=
  fold_left (fun status child => if ok status then iStatus child else status) (m_children m) OK.

Definition MergingOps : Iterator MergingIterator := {|
  iValid := Merging_Valid;
  iSeekToFirst := Merging_SeekToFirst;
  iSeekToLast := Merging_SeekToLast;
  iSeek := Merging_Seek;
  iNext := Merging_Next;
  iPrev := Merging_Prev;
  iKey := Merging_key;
  iValue := Merging_value;
  iStatus := Merging_status
|}.

End Merger.

Arguments MergingIterator : clear implicits.

(** ** Cuts: a position that separates the keys satisfying [f] *)

Definition Cut (f : bytes -> bool) (es : list entry) (p : nat) : Prop :=
  (p <= length es)%nat /\
  (forall i e, (i < p)%nat -> es !! i = Some e -> f (fst e) = true) /\
  (forall i e, (p <= i)%nat -> es !! i = Some e -> f (fst e) = false).

Lemma Cut_unique f es p q : Cut f es p -> Cut f es q -> p = q.
Proof.
  assert (H : forall p q, Cut f es p -> Cut f es q -> (p < q)%nat -> False).
  { intros p' q' [Hp [_ Hp2]] [Hq [Hq1 _]] Hlt.
    destruct (lookup_lt_is_Some_2 es p' ltac:(lia)) as [e He].
    pose proof (Hq1 p' e Hlt He) as H1. pose proof (Hp2 p' e ltac:(lia) He) as H2. congruence. }
  intros Hp Hq. destruct (Nat.lt_trichotomy p q) as [Hl|[E|Hl]]; [exfalso; eauto|exact E|exfalso; eauto].
Qed.

Lemma Cut_ext f g es p : (forall i e, es !! i = Some e -> f (fst e) = g (fst e)) ->
  Cut f es p -> Cut g es p.
Proof.
  intros Hfg [H1 [H2 H3]]. split; [exact H1|]. split; intros i e Hi He; rewrite <- (Hfg i e He); eauto.
Qed.

Section Cuts.
Context {C : Comparator} {COK : ComparatorOk C}.

Definition lt_key (t k : bytes) : bool := cmp k t <? 0.

Lemma lower_bound_cut es t : sorted_entries C es -> cmp_dom t ->
  Cut (lt_key t) es (lower_bound C es t).
Proof.
  intros HS Ht. split; [apply lower_bound_le|]. split; intros i e Hi He; unfold lt_key.
  - apply Z.ltb_lt. exact (lower_bound_before es t i e Hi He).
  - apply Z.ltb_ge. exact (lower_bound_after es t i e HS Ht Hi He).
Qed.

Lemma index_cut es i e : sorted_entries C es -> es !! i = Some e -> Cut (lt_key (fst e)) es i.
Proof.
  intros HS He. rewrite <- (lower_bound_self es i e HS He) at 1.
  apply lower_bound_cut; [exact HS|exact (sorted_dom _ _ _ HS He)].
Qed.

End Cuts.

(** ** The smallest and the largest valid child *)

Section Find.
Context {C : Comparator} {COK : ComparatorOk C} {It : Type} `{Iterator It}.

Definition dom_children (children : list It) : Prop :=
  forall k it, children !! k = Some it -> iValid it = true -> cmp_dom (iKey it).

Lemma dom_children_cons it children : dom_children (it :: children) ->
  dom_children children /\ (iValid it = true -> cmp_dom (iKey it)).
Proof. intros Hd. split; [intros k it' Hk; exact (Hd (S k) it' Hk)|exact (Hd O it eq_refl)]. Qed.

Lemma FindSmallest_loop_spec children : forall i acc, dom_children children ->
  (forall c k, acc = Some (c, k) -> cmp_dom k) ->
  match FindSmallest_loop C i children acc with
  | None => acc = None /\ forall k it, children !! k = Some it -> iValid it = false
  | Some (c, kk) => cmp_dom kk /\
      (acc = Some (c, kk) \/
       exists k it, c = (i + k)%nat /\ children !! k = Some it /\ iValid it = true /\ iKey it = kk) /\
      (forall c' ka, acc = Some (c', ka) -> cmp kk ka <= 0) /\
      (forall k it, children !! k = Some it -> iValid it = true -> cmp kk (iKey it) <= 0)
  end.
Proof.
  induction children as [|it children IH]; intros i acc Hd Ha; cbn [FindSmallest_loop].
  - destruct acc as [[c kk]|].
    + assert (Hk : cmp_dom kk) by eauto. split; [exact Hk|]. split; [auto|]. split; [|discriminate].
      intros c' ka E. injection E as <- <-. rewrite cmp_refl by assumption. lia.
    + split; [reflexivity|discriminate].
  - apply dom_children_cons in Hd as [Hd Hit].
    set (acc' := if iValid it then _ else acc).
    assert (Hacc' : forall c k, acc' = Some (c, k) -> cmp_dom k).
    { intros c k E. unfold acc' in E. destruct (iValid it) eqn:Ev; [|eauto].
      destruct acc as [[c0 k0]|]; [destruct (_ <? 0)|]; [injection E as <- <-; auto|eauto|injection E as <- <-; auto]. }
    specialize (IH (S i) acc' Hd Hacc').
    destruct (FindSmallest_loop C (S i) children acc') as [[c kk]|].
    + destruct IH as (Hkk & Hsrc & Hle & Hall). split; [exact Hkk|].
      assert (Hle' : (forall c' ka, acc = Some (c', ka) -> cmp kk ka <= 0) /\
                     (iValid it = true -> cmp kk (iKey it) <= 0)).
      { unfold acc' in Hle. destruct (iValid it) eqn:Ev; [|split; [exact Hle|discriminate]].
        specialize (Hit eq_refl). destruct acc as [[c0 k0]|].
        - pose proof (Ha c0 k0 eq_refl) as Hk0.
          destruct (Z.ltb_spec (cmp (iKey it) k0) 0) as [Hlt|Hge].
          + specialize (Hle i (iKey it) eq_refl). split; [|auto].
            intros c' ka E. injection E as <- <-.
            pose proof (cmp_le_lt_trans _ _ _ Hkk Hit Hk0 Hle Hlt). lia.
          + specialize (Hle c0 k0 eq_refl). split; [intros c' ka E; injection E as <- <-; exact Hle|].
            intros _. destruct (Z.eq_dec (cmp (iKey it) k0) 0) as [E0|E0].
            * apply (cmp_eq (C := C)) in E0; [|assumption..]. rewrite E0. exact Hle.
            * pose proof (cmp_flip_gt _ _ Hit Hk0 ltac:(lia)) as Hf.
              pose proof (cmp_le_lt_trans _ _ _ Hkk Hk0 Hit Hle Hf). lia.
        - split; [discriminate|]. intros _. exact (Hle i (iKey it) eq_refl). }
      split; [|split; [apply Hle'|]].
      * destruct Hsrc as [Hsrc|(k & it' & -> & Hk & Hv & Hkey)].
        -- unfold acc' in Hsrc. destruct (iValid it) eqn:Ev; [|left; exact Hsrc].
           destruct acc as [[c0 k0]|]; [destruct (_ <? 0)|]; [| left; exact Hsrc |];
             injection Hsrc as <- <-; right; exists O, it; repeat split; auto; lia.
        -- right. exists (S k), it'. repeat split; auto; lia.
      * intros [|k] it' Hk Hv; [injection Hk as <-; apply Hle', Hv|eauto].
    + destruct IH as [Hn Hall]. unfold acc' in Hn. destruct (iValid it) eqn:Ev.
      * destruct acc as [[c0 k0]|]; [destruct (_ <? 0)|]; discriminate.
      * split; [exact Hn|]. intros [|k] it' Hk; [injection Hk as <-; exact Ev|eauto].
Qed.

Lemma FindLargest_loop_spec children : forall i, dom_children children ->
  match FindLargest_loop C i children with
  | None => forall k it, children !! k = Some it -> iValid it = false
  | Some (c, kk) => cmp_dom kk /\
      (exists k it, c = (i + k)%nat /\ children !! k = Some it /\ iValid it = true /\ iKey it = kk) /\
      (forall k it, children !! k = Some it -> iValid it = true -> cmp (iKey it) kk <= 0)
  end.
Proof.
  induction children as [|it children IH]; intros i Hd; cbn [FindLargest_loop]; [discriminate|].
  apply dom_children_cons in Hd as [Hd Hit]. specialize (IH (S i) Hd).
  destruct (iValid it) eqn:Ev; destruct (FindLargest_loop C (S i) children) as [[c kk]|]; cbv zeta.
  - specialize (Hit eq_refl). destruct IH as (Hkk & (k & it' & -> & Hk & Hv & Hkey) & Hall).
    destruct (Z.ltb_spec 0 (cmp (iKey it) kk)) as [Hgt|Hle].
    + split; [exact Hit|]. split; [exists O, it; repeat split; auto; lia|].
      intros [|j] it2 Hj Hv2; [injection Hj as <-; rewrite cmp_refl by assumption; lia|].
      pose proof (Hall j it2 Hj Hv2) as Hle2. pose proof (cmp_flip_gt _ _ Hit Hkk Hgt) as Hf.
      pose proof (cmp_le_lt_trans _ _ _ (Hd j it2 Hj Hv2) Hkk Hit Hle2 Hf). lia.
    + split; [exact Hkk|]. split; [exists (S k), it'; repeat split; auto; lia|].
      intros [|j] it2 Hj Hv2; [injection Hj as <-; exact Hle|eauto].
  - specialize (Hit eq_refl). split; [exact Hit|]. split; [exists O, it; repeat split; auto; lia|].
    intros [|j] it2 Hj Hv2; [injection Hj as <-; rewrite cmp_refl by assumption; lia|].
    rewrite (IH j it2 Hj) in Hv2. discriminate.
  - destruct IH as (Hkk & (k & it' & -> & Hk & Hv & Hkey) & Hall). split; [exact Hkk|].
    split; [exists (S k), it'; repeat split; auto; lia|].
    intros [|j] it2 Hj Hv2; [injection Hj as <-; congruence|eauto].
  - intros [|j] it2 Hj; [injection Hj as <-; exact Ev|eauto].
Qed.

End Find.

(** ** The merged list *)

Section MergeOk.
Context {C : Comparator} {COK : ComparatorOk C} {It : Type} {IO : Iterator It}.
Context (ess : list (list entry)) (Poss : nat -> nat -> It -> Prop) (M : list entry).
Hypothesis HC : forall k es, ess !! k = Some es -> Cursor C es (Poss k).
Hypothesis HS : forall k es, ess !! k = Some es -> sorted_entries C es.
Hypothesis HM : sorted_entries C M.
Hypothesis Hperm : Permutation M (concat ess).

Definition elem (k p : nat) (e : entry) : Prop := exists es, ess !! k = Some es /\ es !! p = Some e.

Lemma in_M e : In e M <-> exists k p, elem k p e.
Proof.
  rewrite Hperm, in_concat. split.
  - intros (es & Hes & He). apply list_elem_of_In, list_elem_of_lookup in Hes as [k Hk].
    apply list_elem_of_In, list_elem_of_lookup in He as [p Hp]. exists k, p, es. auto.
  - intros (k & p & es & Hk & Hp). exists es.
    split; apply list_elem_of_In; eapply list_elem_of_lookup_2; eauto.
Qed.

Lemma elem_M k p e : elem k p e -> exists i, M !! i = Some e.
Proof.
  intros H. apply list_elem_of_lookup, list_elem_of_In, in_M. eauto.
Qed.

Lemma M_elem i e : M !! i = Some e -> exists k p, elem k p e.
Proof. intros H. apply in_M, list_elem_of_In. eapply list_elem_of_lookup_2; eauto. Qed.

Lemma M_key_inj i j e e' : M !! i = Some e -> M !! j = Some e' -> fst e = fst e' -> i = j.
Proof.
  intros Hi Hj E. pose proof (sorted_dom _ _ _ HM Hi) as Hd.
  assert (Hno : forall a b ea eb, M !! a = Some ea -> M !! b = Some eb -> fst ea = fst eb -> (a < b)%nat -> False).
  { intros a b ea eb Ha Hb Eab Hlt. pose proof (sorted_lt _ _ _ _ _ HM Hlt Ha Hb) as Hc.
    rewrite Eab, cmp_refl in Hc by (exact (sorted_dom _ _ _ HM Hb)). lia. }
  destruct (Nat.lt_trichotomy i j) as [Hl|[Hl|Hl]]; [|exact Hl|]; exfalso; eauto.
Qed.

Lemma NoDup_keys : NoDup (map fst (concat ess)).
Proof.
  rewrite <- Hperm. destruct HM as [Hso Hd]. clear - COK Hso Hd. induction Hso as [|e es Hso IH HF].
  - constructor.
  - apply Forall_cons_iff in Hd as [Hde Hd]. cbn [map]. apply list.NoDup_cons. split; [|auto].
    rewrite list_elem_of_In, in_map_iff. intros (e' & E & Hin).
    rewrite List.Forall_forall in HF. specialize (HF e' Hin). unfold key_lt in HF.
    rewrite E, cmp_refl in HF by assumption. lia.
Qed.

Lemma concat_key_inj (l : list (list entry)) : NoDup (map fst (concat l)) ->
  forall k k' es es' e e', l !! k = Some es -> l !! k' = Some es' -> In e es -> In e' es' ->
  fst e = fst e' -> k = k'.
Proof.
  induction l as [|x l IH]; intros Hn k k' es es' e e' Hk Hk' He He' E; [discriminate|].
  cbn [concat] in Hn. rewrite map_app in Hn. apply list.NoDup_app in Hn as (_ & Hdis & Hn).
  assert (Hcross : forall j ys y z, l !! j = Some ys -> In y ys -> In z x -> fst z = fst y -> False).
  { intros j ys y z Hj Hy Hz Ezy. apply (Hdis (fst y)).
    - rewrite <- Ezy. apply list_elem_of_In, in_map, Hz.
    - apply list_elem_of_In, in_map, in_concat. exists ys. split; [|exact Hy].
      apply list_elem_of_In. eapply list_elem_of_lookup_2; eauto. }
  destruct k as [|k], k' as [|k']; cbn in Hk, Hk'.
  - reflexivity.
  - injection Hk as <-. exfalso. eauto.
  - injection Hk' as <-. exfalso. symmetry in E. eauto.
  - f_equal. apply (IH Hn k k' es es' e e'); assumption.
Qed.

Lemma elem_in k p e : elem k p e -> exists es, ess !! k = Some es /\ In e es.
Proof.
  intros (es & Hk & Hp). exists es. split; [exact Hk|]. apply list_elem_of_In.
  eapply list_elem_of_lookup_2; eauto.
Qed.

Lemma elem_owner k p e k' p' e' : elem k p e -> elem k' p' e' -> fst e = fst e' -> k = k'.
Proof.
  intros H1 H2 E. apply elem_in in H1 as (es & Hk & Hin), H2 as (es' & Hk' & Hin').
  exact (concat_key_inj ess NoDup_keys k k' es es' e e' Hk Hk' Hin Hin' E).
Qed.

Lemma elem_dom k p e : elem k p e -> cmp_dom (fst e).
Proof. intros (es & Hk & Hp). exact (sorted_dom _ _ _ (HS k es Hk) Hp). Qed.

Definition ChildrenAt (ps : nat -> nat) (children : list It) : Prop :=
  length children = length ess /\ forall k it, children !! k = Some it -> Poss k (ps k) it.

Lemma child_cursor ps children k it : ChildrenAt ps children -> children !! k = Some it ->
  exists es, ess !! k = Some es /\ Cursor C es (Poss k) /\ Poss k (ps k) it.
Proof.
  intros [Hl Hp] Hk. destruct (lookup_lt_is_Some_2 ess k) as [es Hes].
  - apply lookup_lt_Some in Hk. lia.
  - exists es. eauto.
Qed.

Lemma child_exists ps children k es : ChildrenAt ps children -> ess !! k = Some es ->
  exists it, children !! k = Some it /\ Poss k (ps k) it.
Proof.
  intros [Hl Hp] Hes. destruct (lookup_lt_is_Some_2 children k) as [it Hit].
  - apply lookup_lt_Some in Hes. lia.
  - exists it. eauto.
Qed.

(** A valid child stands on an element. *)

Lemma child_valid ps children k it : ChildrenAt ps children -> children !! k = Some it ->
  iValid it = true -> exists e, elem k (ps k) e /\ iKey it = fst e.
Proof.
  intros HA Hk Hv. destruct (child_cursor ps children k it HA Hk) as (es & Hes & Hcur & HP).
  rewrite (cur_valid _ _ _ Hcur _ _ HP) in Hv. apply Nat.ltb_lt in Hv.
  destruct (lookup_lt_is_Some_2 es (ps k) Hv) as [[kk v] He].
  exists (kk, v). split; [exists es; auto|]. apply (cur_entry _ _ _ Hcur _ _ _ _ HP He).
Qed.

Lemma child_at ps children k e : ChildrenAt ps children -> elem k (ps k) e ->
  exists it, children !! k = Some it /\ iValid it = true /\ iKey it = fst e /\ iValue it = snd e.
Proof.
  intros HA (es & Hes & He). destruct (child_exists ps children k es HA Hes) as (it & Hit & HP).
  exists it. split; [exact Hit|]. pose proof (HC k es Hes) as Hcur. split.
  - rewrite (cur_valid _ _ _ Hcur _ _ HP). apply Nat.ltb_lt. exact (lookup_lt_Some _ _ _ He).
  - destruct e as [kk v]. exact (cur_entry _ _ _ Hcur _ _ _ _ HP He).
Qed.

Lemma children_dom ps children : ChildrenAt ps children -> dom_children (C := C) children.
Proof.
  intros HA k it Hk Hv. destruct (child_valid ps children k it HA Hk Hv) as (e & He & ->).
  exact (elem_dom _ _ _ He).
Qed.

(** The elements of the children are cut as the merged list is. *)

Lemma cut_elem f j k p e i : Cut f M j -> elem k p e -> M !! i = Some e ->
  f (fst e) = (i <? j)%nat.
Proof.
  intros (_ & H1 & H2) He Hi. destruct (Nat.ltb_spec i j); eauto.
Qed.

Lemma M_lt_iff i j e e' : M !! i = Some e -> M !! j = Some e' -> lt_key (C := C) (fst e') (fst e) = (i <? j)%nat.
Proof.
  intros Hi Hj. pose proof (index_cut M j e' HM Hj) as (_ & H1 & H2).
  destruct (Nat.ltb_spec i j); eauto.
Qed.

Lemma smallest_spec f ps children j : ChildrenAt ps children ->
  (forall k es, ess !! k = Some es -> Cut f es (ps k)) -> Cut f M j ->
  match FindSmallest C children with
  | None => j = length M
  | Some c => exists e, elem c (ps c) e /\ M !! j = Some e
  end.
Proof.
  intros HA Hcut HjM. pose proof (children_dom ps children HA) as Hd.
  pose proof (FindSmallest_loop_spec children O None Hd ltac:(discriminate)) as Hsp.
  unfold FindSmallest. destruct (FindSmallest_loop C O children None) as [[c kk]|]; cbn [option_map fst].
  - destruct Hsp as (Hkk & [Hx|(k & it & Hck & Hk & Hv & Hkey)] & _ & Hmin); [discriminate|].
    cbn in Hck. subst k.
    destruct (child_valid ps children c it HA Hk Hv) as (e & He & Ee). exists e. split; [exact He|].
    destruct (elem_M _ _ _ He) as [i Hi].
    assert (Hfe : f (fst e) = false).
    { destruct He as (es & Hes & Hp). apply (Hcut c es Hes) with (i := ps c); [lia|exact Hp]. }
    rewrite (cut_elem f j c (ps c) e i HjM He Hi) in Hfe. apply Nat.ltb_ge in Hfe.
    destruct (Nat.eq_dec i j) as [->|Hne]; [exact Hi|]. exfalso.
    pose proof (lookup_lt_Some _ _ _ Hi).
    destruct (lookup_lt_is_Some_2 M j ltac:(lia)) as [e' He'].
    destruct (M_elem j e' He') as (k & p & Hel). pose proof Hel as (es & Hes & Hp).
    assert (Hfe' : f (fst e') = false).
    { rewrite (cut_elem f j k p e' j HjM Hel He'). apply Nat.ltb_irrefl. }
    assert (Hpk : (ps k <= p)%nat).
    { destruct (Nat.lt_ge_cases p (ps k)) as [Hlt|Hge]; [|exact Hge].
      rewrite (proj1 (proj2 (Hcut k es Hes)) p e' Hlt Hp) in Hfe'. discriminate. }
    destruct (lookup_lt_is_Some_2 es (ps k)) as [e2 He2]; [apply lookup_lt_Some in Hp; lia|].
    assert (Hel2 : elem k (ps k) e2) by (exists es; auto).
    destruct (child_at ps children k e2 HA Hel2) as (it2 & Hk2 & Hv2 & Hkey2 & _).
    pose proof (Hmin k it2 Hk2 Hv2) as Hle. rewrite Hkey2, <- Hkey, Ee in Hle.
    assert (Hle2 : cmp (fst e2) (fst e') <= 0).
    { destruct (Nat.eq_dec (ps k) p) as [Epp|Hnp].
      - rewrite Epp in He2. assert (e2 = e') as -> by congruence. rewrite cmp_refl; [lia|exact (elem_dom _ _ _ Hel)].
      - pose proof (sorted_lt _ _ p _ _ (HS k es Hes) (ltac:(lia) : (ps k < p)%nat) He2 Hp). lia. }
    pose proof (sorted_lt _ j i _ _ HM ltac:(lia) He' Hi) as Hlt.
    pose proof (cmp_le_lt_trans _ _ _ (elem_dom _ _ _ Hel2) (elem_dom _ _ _ Hel) (elem_dom _ _ _ He) Hle2 Hlt) as H3.
    pose proof (cmp_le_lt_trans _ _ _ (elem_dom _ _ _ He) (elem_dom _ _ _ Hel2) (elem_dom _ _ _ He) Hle H3) as H4.
    rewrite cmp_refl in H4 by exact (elem_dom _ _ _ He). lia.
  - destruct Hsp as [_ Hall]. destruct (Nat.eq_dec j (length M)) as [|Hne]; [assumption|]. exfalso.
    pose proof (proj1 HjM). destruct (lookup_lt_is_Some_2 M j ltac:(lia)) as [e' He'].
    destruct (M_elem j e' He') as (k & p & Hel). pose proof Hel as (es & Hes & Hp).
    destruct (child_exists ps children k es HA Hes) as (it & Hit & HP).
    pose proof (Hall k it Hit) as Hv. rewrite (cur_valid _ _ _ (HC k es Hes) _ _ HP) in Hv.
    apply Nat.ltb_ge in Hv. pose proof (lookup_lt_Some _ _ _ Hp) as Hpl.
    pose proof (proj1 (proj2 (Hcut k es Hes)) p e' ltac:(lia) Hp) as H1.
    rewrite (cut_elem f j k p e' j HjM Hel He'), Nat.ltb_irrefl in H1. discriminate.
Qed.

Definition back (len q : nat) : nat := match q with O => len | S q => q end.

Lemma largest_spec f ps qs children j : ChildrenAt ps children ->
  (forall k es, ess !! k = Some es -> Cut f es (qs k) /\ ps k = back (length es) (qs k)) ->
  Cut f M j ->
  match FindLargest C children with
  | None => j = O
  | Some c => (0 < j)%nat /\ exists e, elem c (ps c) e /\ M !! pred j = Some e /\ (0 < qs c)%nat
  end.
Proof.
  intros HA Hcut HjM. pose proof (children_dom ps children HA) as Hd.
  pose proof (FindLargest_loop_spec children O Hd) as Hsp.
  unfold FindLargest. destruct (FindLargest_loop C O children) as [[c kk]|]; cbn [option_map fst].
  - destruct Hsp as (Hkk & (k & it & Hck & Hk & Hv & Hkey) & Hmax). cbn in Hck. subst k.
    destruct (child_valid ps children c it HA Hk Hv) as (e & He & Ee).
    destruct (elem_M _ _ _ He) as [i Hi]. pose proof He as (es & Hes & Hp).
    destruct (Hcut c es Hes) as [Hc Hps].
    assert (Hq : (0 < qs c)%nat).
    { destruct (qs c) as [|q]; [|lia]. cbn in Hps. apply lookup_lt_Some in Hp. lia. }
    assert (Hfe : f (fst e) = true).
    { apply (proj1 (proj2 Hc) (ps c)); [|exact Hp]. destruct (qs c); cbn in Hps; lia. }
    rewrite (cut_elem f j c (ps c) e i HjM He Hi) in Hfe. apply Nat.ltb_lt in Hfe.
    split; [lia|]. exists e. split; [exact He|]. split; [|exact Hq].
    destruct (Nat.eq_dec i (pred j)) as [<-|Hne]; [exact Hi|]. exfalso.
    pose proof (proj1 HjM). destruct (lookup_lt_is_Some_2 M (pred j) ltac:(lia)) as [e' He'].
    destruct (M_elem _ e' He') as (k & p & Hel). pose proof Hel as (es' & Hes' & Hp').
    destruct (Hcut k es' Hes') as [Hc' Hps'].
    assert (Hfe' : f (fst e') = true).
    { rewrite (cut_elem f j k p e' (pred j) HjM Hel He'). apply Nat.ltb_lt. lia. }
    assert (Hpk : (p < qs k)%nat).
    { destruct (Nat.lt_ge_cases p (qs k)) as [Hlt|Hge]; [exact Hlt|].
      rewrite (proj2 (proj2 Hc') p e' Hge Hp') in Hfe'. discriminate. }
    assert (Hpsk : ps k = pred (qs k)) by (destruct (qs k); cbn in Hps'; lia).
    destruct (lookup_lt_is_Some_2 es' (ps k)) as [e2 He2]; [pose proof (proj1 Hc'); lia|].
    assert (Hel2 : elem k (ps k) e2) by (exists es'; auto).
    destruct (child_at ps children k e2 HA Hel2) as (it2 & Hk2 & Hv2 & Hkey2 & _).
    pose proof (Hmax k it2 Hk2 Hv2) as Hle. rewrite Hkey2, <- Hkey, Ee in Hle.
    assert (Hle2 : cmp (fst e') (fst e2) <= 0).
    { destruct (Nat.eq_dec p (ps k)) as [Epp|Hnp].
      - rewrite <- Epp in He2. assert (e2 = e') as -> by congruence. rewrite cmp_refl; [lia|exact (elem_dom _ _ _ Hel)].
      - pose proof (sorted_lt _ p (ps k) _ _ (HS k es' Hes') ltac:(lia) Hp' He2). lia. }
    pose proof (sorted_lt _ i (pred j) _ _ HM ltac:(lia) Hi He') as Hlt.
    pose proof (cmp_lt_le_trans _ _ _ (elem_dom _ _ _ He) (elem_dom _ _ _ Hel) (elem_dom _ _ _ Hel2) Hlt Hle2) as H3.
    pose proof (cmp_lt_le_trans _ _ _ (elem_dom _ _ _ He) (elem_dom _ _ _ Hel2) (elem_dom _ _ _ He) H3 Hle) as H4.
    rewrite cmp_refl in H4 by exact (elem_dom _ _ _ He). lia.
  - destruct j as [|j]; [reflexivity|]. exfalso. pose proof (proj1 HjM).
    destruct (lookup_lt_is_Some_2 M j ltac:(lia)) as [e' He'].
    destruct (M_elem j e' He') as (k & p & Hel). pose proof Hel as (es & Hes & Hp).
    destruct (Hcut k es Hes) as [Hc Hps]. destruct (child_exists ps children k es HA Hes) as (it & Hit & HP).
    pose proof (Hsp k it Hit) as Hv. rewrite (cur_valid _ _ _ (HC k es Hes) _ _ HP) in Hv.
    apply Nat.ltb_ge in Hv. pose proof (proj1 Hc). pose proof (lookup_lt_Some _ _ _ Hp).
    assert (Hq0 : qs k = O) by (destruct (qs k); [reflexivity|cbn in Hps; lia]).
    pose proof (proj2 (proj2 Hc) p e' ltac:(lia) Hp) as Hlast.
    rewrite (cut_elem f (S j) k p e' j HjM Hel He') in Hlast. apply Nat.ltb_ge in Hlast. lia.
Qed.

(** ** Positions of the merging iterator *)

Definition placed (d : Direction) (e : entry) (es : list entry) (p : nat) : Prop :=
  match d with
  | kForward => Cut (lt_key (C := C) (fst e)) es p
  | kReverse => exists q, Cut (lt_key (C := C) (fst e)) es q /\ p = back (length es) q
  end.

Definition PosM (i : nat) (m : MergingIterator It) : Prop :=
  (exists ps, i = length M /\ m_current m = None /\ ChildrenAt ps (m_children m)) \/
  (exists ps c e, M !! i = Some e /\ m_current m = Some c /\ ChildrenAt ps (m_children m) /\
     elem c (ps c) e /\
     forall k es, ess !! k = Some es -> k <> c -> placed (m_direction m) e es (ps k)).

Lemma finish_forward f ps children j : ChildrenAt ps children ->
  (forall k es, ess !! k = Some es -> Cut f es (ps k)) -> Cut f M j ->
  PosM j (mkMerging children (FindSmallest C children) kForward).
Proof.
  intros HA Hcut HjM. pose proof (smallest_spec f ps children j HA Hcut HjM) as Hsp.
  destruct (FindSmallest C children) as [c|].
  - destruct Hsp as (e & He & Hj). right. exists ps, c, e. cbn.
    repeat (split; [assumption || reflexivity|]). intros k es Hes _.
    apply (Cut_ext f); [|exact (Hcut k es Hes)]. intros p e' Hp.
    assert (Hel : elem k p e') by (exists es; auto). destruct (elem_M _ _ _ Hel) as [i Hi].
    rewrite (cut_elem f j k p e' i HjM Hel Hi). symmetry. apply M_lt_iff; assumption.
  - left. exists ps. auto.
Qed.

Lemma finish_backward f ps qs children j : ChildrenAt ps children ->
  (forall k es, ess !! k = Some es -> Cut f es (qs k) /\ ps k = back (length es) (qs k)) ->
  Cut f M j ->
  PosM (back (length M) j) (mkMerging children (FindLargest C children) kReverse).
Proof.
  intros HA Hcut HjM. pose proof (largest_spec f ps qs children j HA Hcut HjM) as Hsp.
  destruct (FindLargest C children) as [c|].
  - destruct Hsp as (Hj0 & e & He & Hj & Hq). right. exists ps, c, e. destruct j as [|j]; [lia|]. cbn.
    repeat (split; [assumption || reflexivity|]). intros k es Hes Hne. exists (qs k).
    destruct (Hcut k es Hes) as [Hc Hps]. split; [|exact Hps].
    apply (Cut_ext f); [|exact Hc]. intros p e' Hp.
    assert (Hel : elem k p e') by (exists es; auto). destruct (elem_M _ _ _ Hel) as [i Hi].
    rewrite (cut_elem f (S j) k p e' i HjM Hel Hi), (M_lt_iff i j e' e Hi Hj).
    assert (i <> j). { intros ->. assert (e' = e) as -> by (cbn in Hj; congruence).
      exact (Hne (elem_owner _ _ _ _ _ _ Hel He eq_refl)). }
    destruct (Nat.ltb_spec i (S j)), (Nat.ltb_spec i j); lia.
  - subst j. left. exists ps. auto.
Qed.

Lemma children_map (g : It -> It) (ps qs : nat -> nat) children : ChildrenAt ps children ->
  (forall k es it, ess !! k = Some es -> Poss k (ps k) it -> Poss k (qs k) (g it)) ->
  ChildrenAt qs (map g children).
Proof.
  intros HA Hg. split; [rewrite length_map; apply HA|]. intros k it Hk.
  apply list_lookup_fmap_Some in Hk as (it' & -> & Hk).
  destruct (child_cursor ps children k it' HA Hk) as (es & Hes & _ & HP). eauto.
Qed.

Definition es_at (k : nat) : list entry := default [] (ess !! k).

Lemma es_at_eq k es : ess !! k = Some es -> es_at k = es.
Proof. intros H. unfold es_at. rewrite H. reflexivity. Qed.

Lemma Cut_false es : Cut (fun _ => false) es O.
Proof. split; [lia|]. split; [lia|reflexivity]. Qed.

Lemma Cut_true es : Cut (fun _ => true) es (length es).
Proof. split; [lia|]. split; [reflexivity|]. intros i e Hi He. apply lookup_lt_Some in He. lia. Qed.

Lemma back_length len : back len len = pred len.
Proof. destruct len; reflexivity. Qed.

Lemma PosM_children i m : PosM i m -> exists ps, ChildrenAt ps (m_children m).
Proof. intros [(ps & _ & _ & H)|(ps & c & e & _ & _ & H & _)]; eauto. Qed.

Lemma M_first i m : PosM i m -> PosM O (Merging_SeekToFirst C m).
Proof.
  intros HP. apply PosM_children in HP as [ps HA].
  apply (finish_forward (fun _ => false) (fun _ => O)).
  - apply (children_map _ ps); [exact HA|]. intros k es it Hes. apply (cur_first _ _ _ (HC k es Hes)).
  - intros. apply Cut_false.
  - apply Cut_false.
Qed.

Lemma M_last i m : PosM i m -> PosM (pred (length M)) (Merging_SeekToLast C m).
Proof.
  intros HP. apply PosM_children in HP as [ps HA]. rewrite <- back_length.
  apply (finish_backward (fun _ => true) (fun k => pred (length (es_at k))) (fun k => length (es_at k))).
  - apply (children_map _ ps); [exact HA|]. intros k es it Hes.
    rewrite (es_at_eq k es Hes). apply (cur_last _ _ _ (HC k es Hes)).
  - intros k es Hes. rewrite (es_at_eq k es Hes). split; [apply Cut_true|symmetry; apply back_length].
  - apply Cut_true.
Qed.

Lemma M_seek i m t : PosM i m -> cmp_dom t -> PosM (lower_bound C M t) (Merging_Seek C m t).
Proof.
  intros HP Ht. apply PosM_children in HP as [ps HA].
  apply (finish_forward (lt_key (C := C) t) (fun k => lower_bound C (es_at k) t)).
  - apply (children_map _ ps); [exact HA|]. intros k es it Hes HPk.
    rewrite (es_at_eq k es Hes). exact (cur_seek _ _ _ (HC k es Hes) _ _ t HPk Ht).
  - intros k es Hes. rewrite (es_at_eq k es Hes). apply lower_bound_cut; [exact (HS k es Hes)|exact Ht].
  - apply lower_bound_cut; assumption.
Qed.

(** The key of the current child. *)

Lemma PosM_key ps c e m : m_current m = Some c -> ChildrenAt ps (m_children m) -> elem c (ps c) e ->
  Merging_key m = fst e /\ Merging_value m = snd e.
Proof.
  intros Hc HA He. destruct (child_at ps _ c e HA He) as (it & Hit & _ & Hk & Hv).
  unfold Merging_key, Merging_value, current_child. rewrite Hc, Hit. auto.
Qed.

(** Moving the children: [g] moves the current one from [ps c], [h] the others. *)

Lemma move_children (g h : It -> It) (moved : bool) ps qs c m :
  m_current m = Some c -> ChildrenAt ps (m_children m) ->
  (forall es it, ess !! c = Some es -> Poss c (ps c) it -> Poss c (qs c) (g it)) ->
  (forall k es it, ess !! k = Some es -> k <> c -> Poss k (ps k) it ->
     Poss k (qs k) (if moved then h it else it)) ->
  ChildrenAt qs (move_current g (m_current m) (if moved then other_children h m else m_children m)).
Proof.
  intros Hc HA Hg Hh. pose proof HA as [Hlen _]. unfold move_current, other_children. rewrite Hc. split.
  - rewrite length_alter. destruct moved; [rewrite length_imap|]; exact Hlen.
  - intros k it Hk. destruct (decide (k = c)) as [->|Hne].
    + rewrite list_lookup_alter_eq in Hk.
      assert (Hold : exists it0, m_children m !! c = Some it0 /\ it = g it0).
      { destruct moved; [rewrite list_lookup_imap in Hk|];
          (destruct (m_children m !! c) as [it0|]; [|discriminate]; cbn in Hk).
        - rewrite decide_True in Hk by reflexivity. injection Hk as <-. eauto.
        - injection Hk as <-. eauto. }
      destruct Hold as (it0 & Hit0 & ->).
      destruct (child_cursor ps _ c it0 HA Hit0) as (es & Hes & _ & HP). eauto.
    + rewrite list_lookup_alter_ne in Hk by congruence.
      assert (Hold : exists it0, m_children m !! k = Some it0 /\ it = if moved then h it0 else it0).
      { destruct moved; [rewrite list_lookup_imap in Hk|]; [|eauto].
        destruct (m_children m !! k) as [it0|]; [|discriminate]. cbn in Hk.
        rewrite decide_False in Hk by congruence. injection Hk as <-. eauto. }
      destruct Hold as (it0 & Hit0 & ->).
      destruct (child_cursor ps _ k it0 HA Hit0) as (es & Hes & _ & HP). eauto.
Qed.

Definition le_key (t k : bytes) : bool := cmp k t <=? 0.

Lemma index_cut_le es i e : sorted_entries C es -> es !! i = Some e -> Cut (le_key (fst e)) es (S i).
Proof.
  intros Hso He. pose proof (sorted_dom _ _ _ Hso He) as Hd. split; [apply lookup_lt_Some in He; lia|].
  split; intros j e' Hj He'; unfold le_key.
  - apply Z.leb_le. destruct (Nat.eq_dec j i) as [->|Hne].
    + assert (e' = e) as -> by congruence. rewrite cmp_refl by assumption. lia.
    + pose proof (sorted_lt _ j i _ _ Hso ltac:(lia) He' He). lia.
  - apply Z.leb_gt. apply cmp_flip_lt; [exact Hd|exact (sorted_dom _ _ _ Hso He')|].
    exact (sorted_lt _ i j _ _ Hso ltac:(lia) He He').
Qed.

Lemma cut_le_other c p e k es q : elem c p e -> ess !! k = Some es -> k <> c ->
  Cut (lt_key (C := C) (fst e)) es q -> Cut (le_key (fst e)) es q.
Proof.
  intros He Hes Hne. apply Cut_ext. intros i e' He'. unfold lt_key, le_key.
  assert (Hel : elem k i e') by (exists es; auto).
  destruct (Z.ltb_spec (cmp (fst e') (fst e)) 0), (Z.leb_spec (cmp (fst e') (fst e)) 0); try lia.
  exfalso. apply Hne. apply (elem_owner _ _ _ _ _ _ Hel He).
  apply (cmp_eq (C := C)); [exact (elem_dom _ _ _ Hel)|exact (elem_dom _ _ _ He)|lia].
Qed.

(** A child positioned by [Seek] at a key another child owns is not on that key. *)

Lemma seek_other c p e k es it q : elem c p e -> ess !! k = Some es -> k <> c -> Poss k q it ->
  Poss k (lower_bound C es (fst e)) (iSeek it (fst e)) /\
  (iValid (iSeek it (fst e)) && (cmp (fst e) (iKey (iSeek it (fst e))) =? 0)) = false.
Proof.
  intros He Hes Hne HP. pose proof (HC k es Hes) as Hcur.
  pose proof (cur_seek _ _ _ Hcur _ _ (fst e) HP (elem_dom _ _ _ He)) as HP'. split; [exact HP'|].
  rewrite (cur_valid _ _ _ Hcur _ _ HP').
  destruct (Nat.ltb_spec (lower_bound C es (fst e)) (length es)) as [Hlt|]; [|reflexivity]. cbn [andb].
  destruct (lookup_lt_is_Some_2 es _ Hlt) as [[kk v] Hl].
  destruct (cur_entry _ _ _ Hcur _ _ _ _ HP' Hl) as [-> _].
  assert (Hel : elem k (lower_bound C es (fst e)) (kk, v)) by (exists es; auto).
  apply Z.eqb_neq. intros E0. apply Hne.
  apply (elem_owner _ _ _ _ _ _ Hel He). symmetry.
  apply (cmp_eq (C := C)); [exact (elem_dom _ _ _ He)|exact (elem_dom _ _ _ Hel)|exact E0].
Qed.

Lemma M_next i m : PosM i m -> (i < length M)%nat -> PosM (S i) (Merging_Next C m).
Proof.
  intros [(ps & -> & _)|(ps & c & e & Hi & Hc & HA & He & Hpl)] Hlt; [lia|].
  destruct (PosM_key ps c e m Hc HA He) as [Hkey _]. pose proof He as (esc & Hesc & Hpc).
  unfold Merging_Next. rewrite Hkey. cbv zeta.
  pose (qs := fun k => if decide (k = c) then S (ps c)
                       else match m_direction m with
                            | kForward => ps k | kReverse => lower_bound C (es_at k) (fst e) end).
  apply (finish_forward (le_key (fst e)) qs).
  - set (h := fun child => _ : It).
    replace (match m_direction m with kForward => m_children m | kReverse => other_children h m end)
      with (if match m_direction m with kForward => false | kReverse => true end
            then other_children h m else m_children m)
      by (destruct (m_direction m); reflexivity).
    apply (move_children iNext h _ ps qs c m Hc HA).
    + intros es it Hes HP. unfold qs. rewrite decide_True by reflexivity.
      assert (es = esc) as -> by congruence.
      apply (cur_next _ _ _ (HC c esc Hesc)); [exact HP|exact (lookup_lt_Some _ _ _ Hpc)].
    + intros k es it Hes Hne HP. unfold qs. rewrite decide_False by exact Hne.
      rewrite (es_at_eq k es Hes). destruct (m_direction m); cbn; [exact HP|].
      destruct (seek_other c (ps c) e k es it (ps k) He Hes Hne HP) as [HP' Hno].
      unfold h. rewrite Hno. exact HP'.
  - intros k es Hes. unfold qs. destruct (decide (k = c)) as [->|Hne].
    + assert (es = esc) as -> by congruence. exact (index_cut_le esc (ps c) e (HS c esc Hesc) Hpc).
    + apply (cut_le_other c (ps c) e k es); [exact He|exact Hes|exact Hne|].
      specialize (Hpl k es Hes Hne). destruct (m_direction m); [exact Hpl|].
      rewrite (es_at_eq k es Hes). apply lower_bound_cut; [exact (HS k es Hes)|exact (elem_dom _ _ _ He)].
  - exact (index_cut_le M i e HM Hi).
Qed.

Lemma cur_prev_back es k q it : ess !! k = Some es -> Poss k q it -> (q < length es)%nat ->
  Poss k (back (length es) q) (iPrev it).
Proof.
  intros Hes HP Hlt. pose proof (cur_prev _ _ _ (HC k es Hes) _ _ HP Hlt) as H.
  destruct q; exact H.
Qed.

Lemma M_prev i m : PosM i m -> (i < length M)%nat ->
  PosM (if (i =? 0)%nat then length M else pred i) (Merging_Prev C m).
Proof.
  intros [(ps & -> & _)|(ps & c & e & Hi & Hc & HA & He & Hpl)] Hlt; [lia|].
  destruct (PosM_key ps c e m Hc HA He) as [Hkey _]. pose proof He as (esc & Hesc & Hpc).
  replace (if (i =? 0)%nat then length M else pred i) with (back (length M) i) by (destruct i; reflexivity).
  unfold Merging_Prev. rewrite Hkey. cbv zeta.
  pose (rs := fun k => if decide (k = c) then ps c else lower_bound C (es_at k) (fst e)).
  pose (qs := fun k => back (length (es_at k)) (rs k)).
  apply (finish_backward (lt_key (C := C) (fst e)) qs rs).
  - set (h := fun child => _ : It).
    replace (match m_direction m with kForward => other_children h m | kReverse => m_children m end)
      with (if match m_direction m with kForward => true | kReverse => false end
            then other_children h m else m_children m)
      by (destruct (m_direction m); reflexivity).
    apply (move_children iPrev h _ ps qs c m Hc HA).
    + intros es it Hes HP. unfold qs, rs. rewrite decide_True by reflexivity.
      rewrite (es_at_eq c es Hes). assert (es = esc) as -> by congruence.
      apply cur_prev_back; [exact Hesc|exact HP|exact (lookup_lt_Some _ _ _ Hpc)].
    + intros k es it Hes Hne HP. unfold qs, rs. rewrite decide_False by exact Hne.
      rewrite (es_at_eq k es Hes). pose proof (Hpl k es Hes Hne) as Hp.
      destruct (m_direction m); cbn [placed] in Hp; cbn.
      * destruct (seek_other c (ps c) e k es it (ps k) He Hes Hne HP) as [HP' _].
        pose proof (HC k es Hes) as Hcur. unfold h. rewrite (cur_valid _ _ _ Hcur _ _ HP').
        destruct (Nat.ltb_spec (lower_bound C es (fst e)) (length es)) as [Hl|Hg].
        -- apply cur_prev_back; assumption.
        -- assert (Elb : lower_bound C es (fst e) = length es)
             by (pose proof (lower_bound_le (C := C) es (fst e)); lia).
           rewrite Elb, back_length. exact (cur_last _ _ _ Hcur _ _ HP').
      * destruct Hp as (q & Hq & Hpk).
        assert (Elb : q = lower_bound C es (fst e)).
        { eapply Cut_unique; [exact Hq|]. apply lower_bound_cut; [exact (HS k es Hes)|exact (elem_dom _ _ _ He)]. }
        rewrite <- Elb, <- Hpk. exact HP.
  - intros k es Hes. unfold qs. rewrite (es_at_eq k es Hes). split; [|reflexivity].
    unfold rs. destruct (decide (k = c)) as [->|Hne].
    + assert (es = esc) as -> by congruence. exact (index_cut esc (ps c) e (HS c esc Hesc) Hpc).
    + rewrite (es_at_eq k es Hes). apply lower_bound_cut; [exact (HS k es Hes)|exact (elem_dom _ _ _ He)].
  - exact (index_cut M i e HM Hi).
Qed.

Lemma merging_status_ok ps children : ChildrenAt ps children ->
  fold_left (fun status child => if ok status then iStatus child else status) children OK = OK.
Proof.
  intros HA. assert (H : Forall (fun it => iStatus it = OK) children).
  { apply list.Forall_lookup. intros k it Hk.
    destruct (child_cursor ps children k it HA Hk) as (es & Hes & Hcur & HP).
    exact (cur_status _ _ _ Hcur _ _ HP). }
  clear HA. induction H as [|it children Hit HF IH]; [reflexivity|]. cbn. rewrite Hit. exact IH.
Qed.

Lemma merging_cursor : @Cursor _ (MergingOps C) C M PosM.
Proof.
  split; cbn [iValid iSeekToFirst iSeekToLast iSeek iNext iPrev iKey iValue iStatus MergingOps].
  - intros i m [(ps & -> & _)|(ps & c & e & Hi & _)]; [lia|]. apply lookup_lt_Some in Hi. lia.
  - intros i m [(ps & -> & Hc & _)|(ps & c & e & Hi & Hc & _)]; unfold Merging_Valid; rewrite Hc.
    + rewrite Nat.ltb_irrefl. reflexivity.
    + symmetry. apply Nat.ltb_lt. exact (lookup_lt_Some _ _ _ Hi).
  - intros i m k v [(ps & -> & _)|(ps & c & e & Hi & Hc & HA & He & _)] Hl.
    + apply lookup_lt_Some in Hl. lia.
    + assert (e = (k, v)) as -> by congruence. exact (PosM_key ps c _ m Hc HA He).
  - intros i m HP. apply PosM_children in HP as [ps HA]. exact (merging_status_ok ps _ HA).
  - exact M_first.
  - exact M_last.
  - exact M_next.
  - exact M_prev.
  - exact M_seek.
Qed.

Lemma merging_new_pos children ps : ChildrenAt ps children -> PosM (length M) (Merging_new children).
Proof. intros HA. left. exists ps. auto. Qed.

End MergeOk.

(** ** Properties *)

(** C26. The merging iterator is a cursor on the merged list: given children
    that are cursors on sorted lists with no key in common, and the sorted list
    of all their entries, a new merging iterator starts invalid, and from every
    position SeekToFirst, SeekToLast, Seek, Next and Prev, in any order and
    with any changes of direction, lead to the entries of the merged list that
    the contract prescribes. *)
Theorem merging_iterator_is_cursor : forall C, ComparatorOk C ->
  forall It (IO : Iterator It) ess (Poss : nat -> nat -> It -> Prop) M,
  (forall k es, ess !! k = Some es -> Cursor C es (Poss k)) ->
  (forall k es, ess !! k = Some es -> sorted_entries C es) ->
  sorted_entries C M -> Permutation M (concat ess) ->
  exists Pos : nat -> MergingIterator It -> Prop,
    @Cursor _ (MergingOps C) C M Pos /\
    forall children, length children = length ess ->
      (forall k it, children !! k = Some it -> exists p, Poss k p it) ->
      Pos (length M) (Merging_new children).
Proof.
  intros C COK It IO ess Poss M HC HS HM Hperm. exists (PosM ess Poss M).
  split; [apply merging_cursor; assumption|]. intros children Hlen Hp.
  assert (Hps : exists ps : nat -> nat, forall k it, children !! k = Some it -> Poss k (ps k) it).
  { clear Hlen HC. revert Poss Hp. induction children as [|it0 children IH]; intros Poss Hp.
    - exists (fun _ => O). discriminate.
    - destruct (Hp O it0 eq_refl) as [p0 Hp0].
      destruct (IH (fun k => Poss (S k))) as [ps Hps]; [intros k it Hk; exact (Hp (S k) it Hk)|].
      exists (fun k => match k with O => p0 | S k => ps k end).
      intros [|k] it Hk; [injection Hk as <-; exact Hp0|exact (Hps k it Hk)]. }
  destruct Hps as [ps Hps]. apply (merging_new_pos ess Poss M children ps). split; assumption.
Qed.

Lemma merging_iterator_is_cursor_witness :
  let C := BytewiseComparator in
  let ess := [[(str "a", str "1"); (str "c", str "3")]; [(str "b", str "2")]] in
  exists (Poss : nat -> nat -> BlockIter -> Prop) (Pos : nat -> MergingIterator BlockIter -> Prop),
    @Cursor _ (@MergingOps C _ (BlockIteratorOps C)) C
      [(str "a", str "1"); (str "b", str "2"); (str "c", str "3")] Pos /\
    forall children, length children = length ess ->
      (forall k it, children !! k = Some it -> exists p, Poss k p it) ->
      Pos 3%nat (Merging_new children).
Proof.
  intros C ess.
  assert (HS : forall k es, ess !! k = Some es -> sorted_entries C es).
  { intros [|[|[|k]]] es Hk; [injection Hk as <-|injection Hk as <-|discriminate..];
      (split; [repeat (constructor; [|repeat (constructor; [vm_compute; reflexivity|]); constructor]); constructor
              |repeat constructor]). }
  destruct (build_block_cursor C BytewiseComparatorOk 16 [(str "a", str "1"); (str "c", str "3")])
    as (it1 & P1 & _ & _ & HC1); [lia|repeat constructor|exact (HS O _ eq_refl)|reflexivity|].
  destruct (build_block_cursor C BytewiseComparatorOk 16 [(str "b", str "2")])
    as (it2 & P2 & _ & _ & HC2); [lia|repeat constructor|exact (HS 1%nat _ eq_refl)|reflexivity|].
  exists (fun k => match k with O => P1 | _ => P2 end).
  apply (merging_iterator_is_cursor C BytewiseComparatorOk BlockIter (BlockIteratorOps C) ess).
  - intros [|[|[|k]]] es Hk; [injection Hk as <-; exact HC1|injection Hk as <-; exact HC2|discriminate..].
  - exact HS.
  - split; [|repeat constructor].
    repeat (constructor; [|repeat (constructor; [vm_compute; reflexivity|]); constructor]). constructor.
  - cbn. apply perm_skip. apply perm_swap.
Defined.
