(* ===== verification/TwoLevel.v ===== *)
(** * The two-level iterator (table/two_level_iterator.cc)

    An index iterator whose values are handles and a block function that turns
    a handle into an iterator over the entries of a block.  Verified against
    the [Cursor] contract of the index and of the blocks: the two-level
    iterator is a cursor on the concatenation of the blocks, empty blocks
    included.  A table is read this way (index block and data blocks), and so
    is a level of files that do not overlap. *)

From S2P Require Import Prelude Compare Logging Iterator Block.
#[local] Open Scope Z_scope.
#[local] Open Scope ldb_scope.

Section TwoLevel.
Context {I D : Type} {IO : Iterator I} {DO : Iterator D}.

(** [block_function_(arg_, options_, handle)], and the number of turns the
    loops over the blocks are run at most. *)

Context (block_function : bytes -> D) (fuel : nat).

(** [data_iter_] is [None] for [nullptr].  The iterator wrappers cache the
    validity and the key of their iterator and add no state. *)

Record TwoLevelIterator := mkTwoLevel {
  tl_status : Status;
  tl_index : I;
  tl_data : option D;
  tl_handle : bytes
}.

Definition NewTwoLevelIterator (index_iter : I) : TwoLevelIterator :=
  mkTwoLevel OK index_iter None [].

Definition TL_SaveError (status s : Status) : Status :=
  if ok status && negb (ok s) then s else status.

Definition TL_SetDataIterator (t : TwoLevelIterator) (data_iter : option D) : TwoLevelIterator :=
  let status := match tl_data t with
                | Some d => TL_SaveError (tl_status t) (iStatus d)
                | None => tl_status t
                end in
  mkTwoLevel status (tl_index t) data_iter (tl_handle t).

Definition TL_InitDataBlock (t : TwoLevelIterator) : TwoLevelIterator :=
  if negb (iValid (tl_index t)) then TL_SetDataIterator t None
  else
    let handle := iValue (tl_index t) in
    match tl_data t with
    | Some _ =>
        if Slice_compare handle (tl_handle t) =? 0 then t
        else TL_SetDataIterator (mkTwoLevel (tl_status t) (tl_index t) (tl_data t) handle)
               (Some (block_function handle))
    | None => TL_SetDataIterator (mkTwoLevel (tl_status t) (tl_index t) (tl_data t) handle)
                (Some (block_function handle))
    end.

Definition TL_on_data (f : D -> D) (t : TwoLevelIterator) : TwoLevelIterator :=
  mkTwoLevel (tl_status t) (tl_index t) (option_map f (tl_data t)) (tl_handle t).

Definition TL_on_index (f : I -> I) (t : TwoLevelIterator) : TwoLevelIterator :=
  mkTwoLevel (tl_status t) (f (tl_index t)) (tl_data t) (tl_handle t).

Definition TL_Valid (t : TwoLevelIterator) : bool :=
  match tl_data t with Some d => iValid d | None => false end.

Fixpoint SkipEmptyDataBlocksForward (n : nat) (t : TwoLevelIterator) : TwoLevelIterator :=
  if TL_Valid t then t
  else if negb (iValid (tl_index t)) then TL_SetDataIterator t None
  else match n with
       | O => t
       | S n => SkipEmptyDataBlocksForward n
                  (TL_on_data iSeekToFirst (TL_InitDataBlock (TL_on_index iNext t)))
       end.

Fixpoint SkipEmptyDataBlocksBackward (n : nat) (t : TwoLevelIterator) : TwoLevelIterator :=
  if TL_Valid t then t
  else if negb (iValid (tl_index t)) then TL_SetDataIterator t None
  else match n with
       | O => t
       | S n => SkipEmptyDataBlocksBackward n
                  (TL_on_data iSeekToLast (TL_InitDataBlock (TL_on_index iPrev t)))
       end.

Definition TL_Seek (t : TwoLevelIterator) (target : bytes) : TwoLevelIterator :=
  SkipEmptyDataBlocksForward fuel
    (TL_on_data (fun d => iSeek d target)
       (TL_InitDataBlock (TL_on_index (fun i => iSeek i target) t))).

Definition TL_SeekToFirst (t : TwoLevelIterator) : TwoLevelIterator :=
  SkipEmptyDataBlocksForward fuel
    (TL_on_data iSeekToFirst (TL_InitDataBlock (TL_on_index iSeekToFirst t))).

Definition TL_SeekToLast (t : TwoLevelIterator) : TwoLevelIterator :=
  SkipEmptyDataBlocksBackward fuel
    (TL_on_data iSeekToLast (TL_InitDataBlock (TL_on_index iSeekToLast t))).

Definition TL_Next (t : TwoLevelIterator) : TwoLevelIterator :=
  SkipEmptyDataBlocksForward fuel (TL_on_data iNext t).

Definition TL_Prev (t : TwoLevelIterator) : TwoLevelIterator :=
  SkipEmptyDataBlocksBackward fuel (TL_on_data iPrev t).

Definition TL_key (t : TwoLevelIterator) : bytes :=
  match tl_data t with Some d => iKey d | None => [] end.

Definition TL_value (t : TwoLevelIterator) : bytes :=
  match tl_data t with Some d => iValue d | None => [] end.

Definition TL_get_status (t : TwoLevelIterator) : Status :=
  if negb (ok (iStatus (tl_index t))) then iStatus (tl_index t)
  else match tl_data t with
       | Some d => if negb (ok (iStatus d)) then iStatus d else tl_status t
       | None => tl_status t
       end.

Definition TwoLevelOps : Iterator TwoLevelIterator := {|
  iValid := TL_Valid;
  iSeekToFirst := TL_SeekToFirst;
  iSeekToLast := TL_SeekToLast;
  iSeek := TL_Seek;
  iNext := TL_Next;
  iPrev := TL_Prev;
  iKey := TL_key;
  iValue := TL_value;
  iStatus := TL_get_status
|}.

End TwoLevel.

Arguments TwoLevelIterator : clear implicits.

(** ** What the index promises about the blocks

    The block of every index entry opens at some position of a cursor on its
    entries; an index key is at or past the keys of its block and before the
    keys of the later blocks; different entries have different handles. *)

Section Spec.
Context (C : Comparator) {D : Type} {DO : Iterator D} (block_function : bytes -> D).
Context (idx : list entry) (bs : list (list entry)) (DPos : nat -> nat -> D -> Prop).

Record IndexedBlocks : Prop := {
  ib_length : length bs = length idx;
  ib_handles : NoDup (map snd idx);
  ib_open : forall i k h, idx !! i = Some (k, h) -> exists p, DPos i p (block_function h);
  ib_cursor : forall i es, bs !! i = Some es -> Cursor C es (DPos i);
  ib_index_dom : Forall (fun e => cmp_dom (fst e)) idx;
  ib_dom : Forall (fun e => cmp_dom (fst e)) (concat bs);
  ib_upper : forall i k h es e, idx !! i = Some (k, h) -> bs !! i = Some es -> In e es ->
    cmp (fst e) k <= 0;
  ib_lower : forall i j k h es e, idx !! i = Some (k, h) -> bs !! j = Some es -> (i < j)%nat ->
    In e es -> cmp k (fst e) < 0
}.

(** The position in the concatenation at which block [i] starts. *)

Definition block_start (i : nat) : nat := length (concat (take i bs)).

Lemma block_start_S i es : bs !! i = Some es -> block_start (S i) = (block_start i + length es)%nat.
Proof.
  intros H. unfold block_start. rewrite (take_S_r _ _ _ H), concat_app, length_app. cbn.
  rewrite app_nil_r. reflexivity.
Qed.

Lemma block_start_all : block_start (length bs) = length (concat bs).
Proof. unfold block_start. rewrite firstn_all. reflexivity. Qed.

Lemma block_start_le i es : bs !! i = Some es ->
  (block_start i + length es <= length (concat bs))%nat.
Proof.
  intros H. rewrite <- (take_drop_middle _ _ _ H) at 1. unfold block_start.
  rewrite concat_app, length_app. cbn. rewrite length_app. lia.
Qed.

Lemma block_lookup i es p : bs !! i = Some es -> (p < length es)%nat ->
  concat bs !! (block_start i + p)%nat = es !! p.
Proof.
  intros H Hp. rewrite <- (take_drop_middle _ _ _ H) at 1. unfold block_start.
  rewrite concat_app, lookup_app_r by lia.
  replace (length (concat (take i bs)) + p - length (concat (take i bs)))%nat with p by lia.
  cbn. apply lookup_app_l. exact Hp.
Qed.

End Spec.

(** ** The two-level iterator is a cursor *)

Section TwoLevelOk.
Context {C : Comparator} {COK : ComparatorOk C}.
Context {I D : Type} {IO : Iterator I} {DO : Iterator D}.
Context (block_function : bytes -> D) (fuel : nat).
Context (idx : list entry) (bs : list (list entry)).
Context (IPos : nat -> I -> Prop) (DPos : nat -> nat -> D -> Prop).
Hypothesis IC : Cursor C idx IPos.
Hypothesis IB : IndexedBlocks C block_function idx bs DPos.
Hypothesis Hfuel : (length idx <= fuel)%nat.

Abbreviation es := (concat bs).
Abbreviation start := (block_start bs).
Abbreviation Init := (TL_InitDataBlock block_function).

(** The iterator is in block [i], at the block's position [p], which may be
    the invalid one. *)

Definition AtBlock (i p : nat) (t : TwoLevelIterator I D) : Prop :=
  tl_status t = OK /\ IPos i (tl_index t) /\
  exists k d, idx !! i = Some (k, tl_handle t) /\ tl_data t = Some d /\ DPos i p d.

Definition AtEnd (i : nat) (t : TwoLevelIterator I D) : Prop :=
  tl_status t = OK /\ IPos i (tl_index t) /\ tl_data t = None.

Definition PosT (n : nat) (t : TwoLevelIterator I D) : Prop :=
  (exists i p blk, AtBlock i p t /\ bs !! i = Some blk /\ (p < length blk)%nat /\
     n = (start i + p)%nat) \/
  (exists i, AtEnd i t /\ n = length es).

(** What the data iterator may be when the index has just moved. *)

Definition Clean (t : TwoLevelIterator I D) : Prop :=
  tl_status t = OK /\
  forall d, tl_data t = Some d -> exists j p k, idx !! j = Some (k, tl_handle t) /\ DPos j p d.

Lemma block_of i k h : idx !! i = Some (k, h) -> exists blk, bs !! i = Some blk.
Proof.
  intros H. apply lookup_lt_is_Some. rewrite (ib_length _ _ _ _ _ IB).
  apply lookup_lt_Some in H. exact H.
Qed.

Lemma index_valid i x : IPos i x -> iValid x = true -> exists k, idx !! i = Some (k, iValue x).
Proof.
  intros HP HV. rewrite (cur_valid _ _ _ IC i x HP) in HV. apply Nat.ltb_lt in HV.
  destruct (lookup_lt_is_Some_2 idx i HV) as [[k h] Hk]. exists k.
  destruct (cur_entry _ _ _ IC i x k h HP Hk) as [_ <-]. exact Hk.
Qed.

Lemma index_invalid i x : IPos i x -> iValid x = false -> i = length idx.
Proof.
  intros HP HV. rewrite (cur_valid _ _ _ IC i x HP) in HV. apply Nat.ltb_ge in HV.
  pose proof (cur_range _ _ _ IC i x HP). lia.
Qed.

Lemma data_status i k h p d : idx !! i = Some (k, h) -> DPos i p d -> iStatus d = OK.
Proof.
  intros Hk HP. destruct (block_of i k h Hk) as [blk Hb].
  exact (cur_status _ _ _ (ib_cursor _ _ _ _ _ IB i blk Hb) p d HP).
Qed.

Lemma handle_inj i j k k' h : idx !! i = Some (k, h) -> idx !! j = Some (k', h) -> i = j.
Proof.
  intros H1 H2. apply (proj1 (NoDup_alt _) (ib_handles _ _ _ _ _ IB) i j h);
    rewrite list_lookup_fmap; [rewrite H1|rewrite H2]; reflexivity.
Qed.

Lemma SetData_clean t x : Clean t ->
  TL_SetDataIterator t x = mkTwoLevel OK (tl_index t) x (tl_handle t).
Proof.
  intros [HS HD]. unfold TL_SetDataIterator. destruct (tl_data t) as [d|] eqn:E; [|rewrite HS; reflexivity].
  destruct (HD d eq_refl) as (j & p & k & Hk & HP). rewrite (data_status j k _ p d Hk HP), HS. reflexivity.
Qed.

Lemma AtBlock_clean i p t : AtBlock i p t -> Clean t.
Proof.
  intros (HS & _ & k & d & Hk & Hd & HP). split; [exact HS|]. intros d' Hd'.
  assert (d' = d) as -> by congruence. eauto.
Qed.

Lemma AtEnd_clean i t : AtEnd i t -> Clean t.
Proof. intros (HS & _ & HD). split; [exact HS|]. congruence. Qed.

Lemma PosT_clean n t : PosT n t -> Clean t /\ exists i, IPos i (tl_index t).
Proof.
  intros [(i & p & blk & H & _)|(i & H & _)].
  - split; [exact (AtBlock_clean i p t H)|]. destruct H as (_ & H & _). eauto.
  - split; [exact (AtEnd_clean i t H)|]. destruct H as (_ & H & _). eauto.
Qed.

Lemma on_index_clean f t : Clean t -> Clean (TL_on_index f t).
Proof. intros H. exact H. Qed.

Lemma Init_end i t : Clean t -> IPos i (tl_index t) -> iValid (tl_index t) = false -> AtEnd i (Init t).
Proof.
  intros HC HP HV. unfold TL_InitDataBlock. rewrite HV. cbn [negb].
  rewrite (SetData_clean _ _ HC). split; [reflexivity|]. split; [exact HP|reflexivity].
Qed.

Lemma Init_block i t : Clean t -> IPos i (tl_index t) -> iValid (tl_index t) = true ->
  exists p, AtBlock i p (Init t).
Proof.
  intros HC HP HV. destruct (index_valid i _ HP HV) as [k Hk].
  unfold TL_InitDataBlock. rewrite HV. cbn [negb]. set (h := iValue (tl_index t)) in *.
  assert (Hnew : exists p, AtBlock i p (TL_SetDataIterator
      (mkTwoLevel (tl_status t) (tl_index t) (tl_data t) h) (Some (block_function h)))).
  { destruct (ib_open _ _ _ _ _ IB i k h Hk) as [p Hp]. exists p. split; [|split; [exact HP|]].
    - destruct HC as [HS HD]. unfold TL_SetDataIterator. cbn [tl_data tl_status].
      destruct (tl_data t) as [d|]; [|exact HS]. destruct (HD d eq_refl) as (j & q & k' & Hk' & HP').
      cbn. rewrite (data_status j k' _ q d Hk' HP'), HS. reflexivity.
    - exists k, (block_function h). split; [exact Hk|]. split; [reflexivity|exact Hp]. }
  destruct (tl_data t) as [d|] eqn:Ed; [|exact Hnew].
  destruct (Z.eqb_spec (Slice_compare h (tl_handle t)) 0) as [E|_]; [|exact Hnew].
  rewrite Slice_compare_lex in E. apply lex_eq in E.
  destruct HC as [HS HD]. destruct (HD d Ed) as (j & p & k' & Hk' & HP'). rewrite <- E in Hk'.
  assert (j = i) as -> by exact (handle_inj _ _ _ _ _ Hk' Hk).
  exists p. split; [exact HS|]. split; [exact HP|]. exists k, d. rewrite <- E. auto.
Qed.

(** A move of the data iterator inside its block. *)

Lemma on_data_block i p q f t : AtBlock i p t -> (forall d, DPos i p d -> DPos i q (f d)) ->
  AtBlock i q (TL_on_data f t).
Proof.
  intros (HS & HP & k & d & Hk & Hd & HD) Hf. split; [exact HS|]. split; [exact HP|].
  exists k, (f d). cbn. rewrite Hd. auto.
Qed.

Lemma on_data_end i f t : AtEnd i t -> AtEnd i (TL_on_data f t).
Proof. intros (HS & HP & HD). split; [exact HS|]. split; [exact HP|]. cbn. rewrite HD. reflexivity. Qed.

Lemma AtBlock_cursor i p t : AtBlock i p t -> exists blk,
  bs !! i = Some blk /\ Cursor C blk (DPos i) /\ (p <= length blk)%nat /\ (i < length idx)%nat /\
  TL_Valid t = (p <? length blk)%nat /\ iValid (tl_index t) = true.
Proof.
  intros (HS & HI & k & d & Hk & Hd & HD). destruct (block_of i k _ Hk) as [blk Hb]. exists blk.
  pose proof (ib_cursor _ _ _ _ _ IB i blk Hb) as HC. pose proof (lookup_lt_Some _ _ _ Hk) as Hi.
  split; [exact Hb|]. split; [exact HC|]. split; [exact (cur_range _ _ _ HC p d HD)|].
  split; [exact Hi|]. split.
  - unfold TL_Valid. rewrite Hd. exact (cur_valid _ _ _ HC p d HD).
  - rewrite (cur_valid _ _ _ IC i _ HI). apply Nat.ltb_lt, Hi.
Qed.

(** Moving the index and opening the block it then points to at one end. *)

Lemma enter_block (fi : I -> I) (fd : D -> D) (q : nat -> nat) i t :
  Clean t -> IPos i (fi (tl_index t)) ->
  (forall blk p d, bs !! i = Some blk -> DPos i p d -> DPos i (q (length blk)) (fd d)) ->
  let t' := TL_on_data fd (Init (TL_on_index fi t)) in
  (i = length idx /\ AtEnd i t') \/
  (exists blk, bs !! i = Some blk /\ AtBlock i (q (length blk)) t').
Proof.
  intros HC HP Hq. cbn zeta. destruct (iValid (fi (tl_index t))) eqn:HV.
  - right. destruct (Init_block i (TL_on_index fi t) HC HP HV) as [p Hp].
    destruct (AtBlock_cursor i p _ Hp) as (blk & Hb & _). exists blk. split; [exact Hb|].
    apply (on_data_block i p); [exact Hp|]. intros d Hd. exact (Hq blk p d Hb Hd).
  - left. split; [exact (index_invalid i _ HP HV)|]. apply on_data_end.
    exact (Init_end i (TL_on_index fi t) HC HP HV).
Qed.

Lemma SkipForward_end n i t : AtEnd i t -> i = length idx ->
  PosT (length es) (SkipEmptyDataBlocksForward block_function n t).
Proof.
  intros H ->. assert (HV : TL_Valid t = false) by (unfold TL_Valid; destruct H as (_ & _ & ->); reflexivity).
  assert (HI : iValid (tl_index t) = false).
  { destruct H as (_ & HI & _). rewrite (cur_valid _ _ _ IC _ _ HI). apply Nat.ltb_irrefl. }
  destruct n; cbn [SkipEmptyDataBlocksForward]; rewrite HV, HI; cbn [negb];
    rewrite (SetData_clean _ _ (AtEnd_clean _ _ H)); right; exists (length idx);
    (split; [|reflexivity]); (split; [reflexivity|]); (split; [apply H|reflexivity]).
Qed.

Lemma SkipBackward_end n i t : AtEnd i t -> i = length idx ->
  PosT (length es) (SkipEmptyDataBlocksBackward block_function n t).
Proof.
  intros H ->. assert (HV : TL_Valid t = false) by (unfold TL_Valid; destruct H as (_ & _ & ->); reflexivity).
  assert (HI : iValid (tl_index t) = false).
  { destruct H as (_ & HI & _). rewrite (cur_valid _ _ _ IC _ _ HI). apply Nat.ltb_irrefl. }
  destruct n; cbn [SkipEmptyDataBlocksBackward]; rewrite HV, HI; cbn [negb];
    rewrite (SetData_clean _ _ (AtEnd_clean _ _ H)); right; exists (length idx);
    (split; [|reflexivity]); (split; [reflexivity|]); (split; [apply H|reflexivity]).
Qed.

Lemma SkipForward_block : forall n i p t, AtBlock i p t -> (length idx <= n + i)%nat ->
  PosT (start i + p) (SkipEmptyDataBlocksForward block_function n t).
Proof.
  induction n as [|n IH]; intros i p t HB Hn;
    destruct (AtBlock_cursor i p t HB) as (blk & Hb & HC & Hp & Hi & HV & HI); [lia|].
  cbn [SkipEmptyDataBlocksForward]. rewrite HV. destruct (Nat.ltb_spec p (length blk)) as [Hlt|Hge].
  { left. exists i, p, blk. auto. }
  rewrite HI. cbn [negb]. assert (p = length blk) as -> by lia. rewrite <- (block_start_S bs i blk Hb).
  assert (HN : IPos (S i) (iNext (tl_index t))) by (apply (cur_next _ _ _ IC); [apply HB|exact Hi]).
  destruct (enter_block iNext iSeekToFirst (fun _ => O) (S i) t (AtBlock_clean _ _ _ HB) HN)
    as [[E HE]|(blk' & Hb' & HB')].
  - intros blk' q d Hb' Hd. exact (cur_first _ _ _ (ib_cursor _ _ _ _ _ IB _ _ Hb') q d Hd).
  - rewrite E, <- (ib_length _ _ _ _ _ IB), block_start_all. exact (SkipForward_end n _ _ HE E).
  - rewrite <- (Nat.add_0_r (start (S i))). apply (IH (S i) O); [exact HB'|lia].
Qed.

(** The position before block [i]: the last entry of the blocks before it, or
    the invalid position when there is none. *)

Definition before (i : nat) : nat :=
  if (start i =? 0)%nat then length es else pred (start i).

Lemma SkipBackward_block : forall n i p t blk, AtBlock i p t -> bs !! i = Some blk -> (i < n)%nat ->
  PosT (if (p <? length blk)%nat then start i + p else before i)
    (SkipEmptyDataBlocksBackward block_function n t).
Proof.
  induction n as [|n IH]; intros i p t blk0 HB Hb0 Hn; [lia|].
  destruct (AtBlock_cursor i p t HB) as (blk & Hb & HC & Hp & Hi & HV & HI).
  assert (blk0 = blk) as -> by congruence.
  cbn [SkipEmptyDataBlocksBackward]. rewrite HV. destruct (Nat.ltb_spec p (length blk)) as [Hlt|Hge].
  { left. exists i, p, blk. auto. }
  rewrite HI. cbn [negb].
  assert (HN : IPos (if (i =? 0)%nat then length idx else pred i) (iPrev (tl_index t)))
    by (apply (cur_prev _ _ _ IC); [apply HB|exact Hi]).
  destruct (enter_block iPrev iSeekToLast pred _ t (AtBlock_clean _ _ _ HB) HN)
    as [[E HE]|(blk' & Hb' & HB')].
  - intros blk' q d Hb' Hd. exact (cur_last _ _ _ (ib_cursor _ _ _ _ _ IB _ _ Hb') q d Hd).
  - destruct (Nat.eqb_spec i 0) as [->|]; [|lia]. exact (SkipBackward_end n _ _ HE E).
  - destruct (Nat.eqb_spec i 0) as [->|Hi0].
    { apply lookup_lt_Some in Hb'. rewrite (ib_length _ _ _ _ _ IB) in Hb'. lia. }
    pose proof (IH (pred i) _ _ blk' HB' Hb' ltac:(lia)) as HI'.
    pose proof (block_start_S bs (pred i) blk' Hb') as HS. replace (S (pred i)) with i in HS by lia.
    replace (before i) with (if (pred (length blk') <? length blk')%nat
       then start (pred i) + pred (length blk') else before (pred i))%nat; [exact HI'|].
    unfold before. destruct blk' as [|e blk']; cbn [length pred] in *.
    + rewrite HS, Nat.add_0_r. reflexivity.
    + rewrite (proj2 (Nat.ltb_lt _ _)) by lia. rewrite (proj2 (Nat.eqb_neq _ _)) by lia. lia.
Qed.

Lemma T_first n t : PosT n t -> PosT O (TL_SeekToFirst block_function fuel t).
Proof.
  intros HP. destruct (PosT_clean n t HP) as [HC [j Hj]]. unfold TL_SeekToFirst.
  destruct (enter_block iSeekToFirst iSeekToFirst (fun _ => O) O t HC (cur_first _ _ _ IC j _ Hj))
    as [[E HE]|(blk & Hb & HB)].
  - intros blk q d Hb Hd. exact (cur_first _ _ _ (ib_cursor _ _ _ _ _ IB _ _ Hb) q d Hd).
  - pose proof (SkipForward_end fuel _ _ HE E) as H. pose proof (ib_length _ _ _ _ _ IB) as HL.
    rewrite <- E in HL. destruct bs; [exact H|discriminate].
  - apply (SkipForward_block fuel O O); [exact HB|lia].
Qed.

Lemma T_last n t : PosT n t -> PosT (pred (length es)) (TL_SeekToLast block_function fuel t).
Proof.
  intros HP. destruct (PosT_clean n t HP) as [HC [j Hj]]. unfold TL_SeekToLast.
  pose proof (ib_length _ _ _ _ _ IB) as HL.
  destruct (enter_block iSeekToLast iSeekToLast pred _ t HC (cur_last _ _ _ IC j _ Hj))
    as [[E HE]|(blk & Hb & HB)].
  - intros blk q d Hb Hd. exact (cur_last _ _ _ (ib_cursor _ _ _ _ _ IB _ _ Hb) q d Hd).
  - pose proof (SkipBackward_end fuel _ _ HE E) as H. destruct bs as [|b0 bs']; [exact H|].
    rewrite <- HL in E. cbn in E. lia.
  - pose proof (lookup_lt_Some _ _ _ Hb) as Hlt.
    pose proof (block_start_S bs _ blk Hb) as HS. rewrite <- HL in HS, Hb, HB.
    replace (S (pred (length bs))) with (length bs) in HS by lia. rewrite block_start_all in HS.
    replace (pred (length es)) with (if (pred (length blk) <? length blk)%nat
      then start (pred (length bs)) + pred (length blk) else before (pred (length bs)))%nat.
    + apply SkipBackward_block; [exact HB|exact Hb|lia].
    + unfold before. destruct blk as [|e blk]; cbn [length pred] in *.
      * rewrite Nat.add_0_r in HS. rewrite <- HS. cbn. destruct (Nat.eqb_spec (length es) 0); lia.
      * rewrite (proj2 (Nat.ltb_lt _ _)) by lia. lia.
Qed.

Lemma PosT_lt n t : PosT n t -> (n < length es)%nat -> exists i p blk, AtBlock i p t /\
  bs !! i = Some blk /\ (p < length blk)%nat /\ n = (start i + p)%nat.
Proof. intros [H|(i & _ & ->)] Hn; [exact H|lia]. Qed.

Lemma T_next n t : PosT n t -> (n < length es)%nat -> PosT (S n) (TL_Next block_function fuel t).
Proof.
  intros HP Hn. destruct (PosT_lt n t HP Hn) as (i & p & blk & HB & Hb & Hp & ->).
  unfold TL_Next. replace (S (start i + p)) with (start i + S p)%nat by lia.
  apply SkipForward_block; [|lia]. apply (on_data_block i p); [exact HB|]. intros d Hd.
  exact (cur_next _ _ _ (ib_cursor _ _ _ _ _ IB _ _ Hb) p d Hd Hp).
Qed.

Lemma T_prev n t : PosT n t -> (n < length es)%nat ->
  PosT (if (n =? 0)%nat then length es else pred n) (TL_Prev block_function fuel t).
Proof.
  intros HP Hn. destruct (PosT_lt n t HP Hn) as (i & p & blk & HB & Hb & Hp & ->). unfold TL_Prev.
  pose proof (lookup_lt_Some _ _ _ Hb) as Hi. rewrite (ib_length _ _ _ _ _ IB) in Hi.
  assert (HB' : AtBlock i (if (p =? 0)%nat then length blk else pred p) (TL_on_data iPrev t)).
  { apply (on_data_block i p); [exact HB|]. intros d Hd.
    exact (cur_prev _ _ _ (ib_cursor _ _ _ _ _ IB _ _ Hb) p d Hd Hp). }
  pose proof (SkipBackward_block fuel i _ _ blk HB' Hb ltac:(lia)) as H.
  destruct (Nat.eqb_spec p 0) as [->|Hp0].
  - rewrite Nat.ltb_irrefl in H. rewrite Nat.add_0_r. exact H.
  - rewrite (proj2 (Nat.ltb_lt _ _)) in H by lia. rewrite (proj2 (Nat.eqb_neq _ _)) by lia.
    replace (pred (start i + p)) with (start i + pred p)%nat by lia. exact H.
Qed.

(** ** Seek *)

Lemma in_concat_block (e : entry) (l : list (list entry)) : In e (concat l) ->
  exists j blk, l !! j = Some blk /\ In e blk.
Proof.
  intros H. apply in_concat in H as (blk & Hb & He). apply list_elem_of_In, list_elem_of_lookup in Hb as [j Hj]. eauto.
Qed.

Lemma entry_dom j blk e : bs !! j = Some blk -> In e blk -> cmp_dom (fst e).
Proof.
  intros Hb He. apply (proj1 (List.Forall_forall _ _) (ib_dom _ _ _ _ _ IB)).
  apply in_concat. exists blk. split; [|exact He]. apply list_elem_of_In, list_elem_of_lookup. eauto.
Qed.

Lemma index_dom i k h : idx !! i = Some (k, h) -> cmp_dom k.
Proof. intros H. exact (proj1 (list.Forall_lookup _ _) (ib_index_dom _ _ _ _ _ IB) i _ H). Qed.

(** Every entry of a block before the one the index seek finds is below the
    target. *)

Lemma before_target t i e : cmp_dom t -> (i <= lower_bound C idx t)%nat ->
  In e (concat (take i bs)) -> cmp (fst e) t < 0.
Proof.
  intros Ht Hi He. destruct (in_concat_block e _ He) as (j & blk & Hj & Hb).
  apply lookup_take_Some in Hj as [Hj Hji].
  assert (Hl : (j < length idx)%nat).
  { rewrite <- (ib_length _ _ _ _ _ IB). exact (lookup_lt_Some _ _ _ Hj). }
  destruct (lookup_lt_is_Some_2 idx j Hl) as [[k h] Hk].
  pose proof (lower_bound_before idx t j (k, h) ltac:(lia) Hk) as Hkt. cbn in Hkt.
  pose proof (ib_upper _ _ _ _ _ IB j k h blk e Hk Hj Hb) as Hek.
  apply (cmp_le_lt_trans _ k); [exact (entry_dom j blk e Hj Hb)|exact (index_dom _ _ _ Hk)|exact Ht|..]; assumption.
Qed.

Lemma lower_bound_app (l1 l2 : list entry) t :
  (forall e, In e l1 -> cmp (fst e) t < 0) ->
  lower_bound C (l1 ++ l2) t = (length l1 + lower_bound C l2 t)%nat.
Proof.
  induction l1 as [|e l1 IH]; intros H; [reflexivity|]. cbn [app lower_bound length].
  rewrite (proj2 (Z.ltb_lt _ _)) by (apply H; left; reflexivity).
  rewrite IH by (intros e' He'; apply H; right; exact He'). reflexivity.
Qed.

(** When the entries that follow are at or past the target, the lower bound is
    that of the front part. *)

Lemma lower_bound_app_ge (l1 l2 : list entry) t :
  (forall e, In e l2 -> 0 <= cmp (fst e) t) -> lower_bound C (l1 ++ l2) t = lower_bound C l1 t.
Proof.
  intros H. induction l1 as [|e l1 IH]; cbn [app lower_bound].
  - destruct l2 as [|e l2]; [reflexivity|]. cbn [lower_bound].
    rewrite (proj2 (Z.ltb_ge _ _)) by (apply H; left; reflexivity). reflexivity.
  - rewrite IH. reflexivity.
Qed.

Lemma lower_bound_blocks t i blk : cmp_dom t -> i = lower_bound C idx t -> bs !! i = Some blk ->
  lower_bound C es t = (start i + lower_bound C blk t)%nat.
Proof.
  intros Ht Hi Hb. rewrite <- (take_drop_middle _ _ _ Hb) at 1. rewrite concat_app. cbn [concat].
  rewrite lower_bound_app by (intros e He; apply (before_target t i); [exact Ht|lia|exact He]).
  rewrite lower_bound_app_ge; [reflexivity|]. intros e He.
  destruct (in_concat_block e _ He) as (j & blk' & Hj & He'). rewrite lookup_drop in Hj.
  pose proof (lookup_lt_Some _ _ _ Hb) as Hl. rewrite (ib_length _ _ _ _ _ IB) in Hl.
  destruct (lookup_lt_is_Some_2 idx i Hl) as [[k h] Hk].
  pose proof (lower_bound_at idx t (k, h)) as Hkt. rewrite <- Hi in Hkt. specialize (Hkt Hk). cbn in Hkt.
  pose proof (ib_lower _ _ _ _ _ IB i _ k h blk' e Hk Hj ltac:(lia) He') as Hke.
  pose proof (entry_dom _ blk' e Hj He') as Hde. pose proof (index_dom _ _ _ Hk) as Hdk.
  destruct (Z.lt_ge_cases (cmp (fst e) t) 0) as [Hlt|]; [|lia]. exfalso.
  pose proof (cmp_trans _ _ _ Hdk Hde Ht Hke Hlt). lia.
Qed.

Lemma lower_bound_past t : cmp_dom t -> bs !! lower_bound C idx t = None ->
  lower_bound C es t = length es.
Proof.
  intros Ht Hb. apply lookup_ge_None in Hb. rewrite (ib_length _ _ _ _ _ IB) in Hb.
  rewrite <- (app_nil_r es) at 1. rewrite lower_bound_app; [cbn; lia|]. intros e He.
  apply (before_target t (length bs)); [exact Ht| |rewrite firstn_all; exact He].
  rewrite (ib_length _ _ _ _ _ IB). lia.
Qed.

Lemma T_seek n t x : PosT n t -> cmp_dom x -> PosT (lower_bound C es x) (TL_Seek block_function fuel t x).
Proof.
  intros HP Hx. destruct (PosT_clean n t HP) as [HC [j Hj]]. unfold TL_Seek.
  pose proof (cur_seek _ _ _ IC j _ x Hj Hx) as HI.
  destruct (bs !! lower_bound C idx x) as [blk|] eqn:Hb.
  - destruct (enter_block (fun i => iSeek i x) (fun d => iSeek d x) (fun _ => lower_bound C blk x) _ t HC HI)
      as [[E HE]|(blk' & Hb' & HB)].
    + intros blk' q d Hb' Hd. assert (blk' = blk) as -> by congruence.
      exact (cur_seek _ _ _ (ib_cursor _ _ _ _ _ IB _ _ Hb) q d x Hd Hx).
    + apply lookup_lt_Some in Hb. rewrite (ib_length _ _ _ _ _ IB) in Hb. lia.
    + rewrite (lower_bound_blocks x _ blk Hx eq_refl Hb). apply SkipForward_block; [exact HB|lia].
  - destruct (enter_block (fun i => iSeek i x) (fun d => iSeek d x) (fun _ => O) _ t HC HI)
      as [[E HE]|(blk' & Hb' & HB)]; [congruence| |congruence].
    rewrite (lower_bound_past x Hx Hb). exact (SkipForward_end fuel _ _ HE E).
Qed.

Lemma two_level_cursor : @Cursor _ (TwoLevelOps block_function fuel) C es PosT.
Proof.
  split; cbn [iValid iSeekToFirst iSeekToLast iSeek iNext iPrev iKey iValue iStatus TwoLevelOps].
  - intros n t [(i & p & blk & _ & Hb & Hp & ->)|(i & _ & ->)]; [|lia].
    pose proof (block_start_le bs i blk Hb). lia.
  - intros n t [(i & p & blk & HB & Hb & Hp & ->)|(i & HE & ->)].
    + destruct (AtBlock_cursor i p t HB) as (blk' & Hb' & _ & _ & _ & -> & _).
      assert (blk' = blk) as -> by congruence. pose proof (block_start_le bs i blk Hb).
      rewrite !(proj2 (Nat.ltb_lt _ _)) by lia. reflexivity.
    + unfold TL_Valid. destruct HE as (_ & _ & ->). symmetry. apply Nat.ltb_irrefl.
  - intros n t k v [(i & p & blk & HB & Hb & Hp & ->)|(i & HE & ->)] He.
    + rewrite (block_lookup bs i blk p Hb Hp) in He. destruct HB as (_ & _ & k' & d & _ & Hd & HD).
      unfold TL_key, TL_value. rewrite Hd. exact (cur_entry _ _ _ (ib_cursor _ _ _ _ _ IB i blk Hb) p d k v HD He).
    + apply lookup_lt_Some in He. lia.
  - intros n t HP. destruct (PosT_clean n t HP) as [[HS HD] [i Hi]]. unfold TL_get_status.
    rewrite (cur_status _ _ _ IC i _ Hi). cbn. destruct (tl_data t) as [d|]; [|exact HS].
    destruct (HD d eq_refl) as (j & p & k & Hk & HDP). rewrite (data_status j k _ p d Hk HDP). exact HS.
  - exact T_first.
  - exact T_last.
  - exact T_next.
  - exact T_prev.
  - exact T_seek.
Qed.

Lemma two_level_new_pos j x : IPos j x -> PosT (length es) (NewTwoLevelIterator x).
Proof. intros H. right. exists j. split; [|reflexivity]. split; [reflexivity|]. split; [exact H|reflexivity]. Qed.

End TwoLevelOk.

(** ** Properties *)

(** The two-level iterator is a cursor on the concatenation of the blocks:
    given an index that is a cursor, whose keys separate the blocks, and blocks
    that are cursors, a new two-level iterator starts invalid, and from every
    position the seeks, Next and Prev lead where the contract prescribes,
    across block boundaries and over any number of empty blocks; as many turns
    of the skipping loops as the index has entries are enough. *)
Theorem two_level_iterator_is_cursor : forall C, ComparatorOk C ->
  forall I D (IO : Iterator I) (DO : Iterator D) (block_function : bytes -> D) idx bs
    (IPos : nat -> I -> Prop) (DPos : nat -> nat -> D -> Prop) fuel,
  Cursor C idx IPos -> IndexedBlocks C block_function idx bs DPos -> (length idx <= fuel)%nat ->
  exists Pos : nat -> TwoLevelIterator I D -> Prop,
    @Cursor _ (TwoLevelOps block_function fuel) C (concat bs) Pos /\
    forall i index_iter, IPos i index_iter ->
      Pos (length (concat bs)) (NewTwoLevelIterator index_iter).
Proof.
  intros C COK I D IO DO bf idx bs IPos DPos fuel IC IB Hf. exists (PosT idx bs IPos DPos).
  split; [apply two_level_cursor; assumption|]. intros i x Hx. exact (two_level_new_pos idx bs IPos DPos i x Hx).
Qed.

Lemma two_level_iterator_is_cursor_witness :
  let C := BytewiseComparator in
  let b0 := [(str "a", str "1"); (str "b", str "2")] in
  let b1 := [(str "d", str "4")] in
  exists (block_function : bytes -> BlockIter) (Pos : nat -> TwoLevelIterator BlockIter BlockIter -> Prop),
    @Cursor _ (@TwoLevelOps _ _ (BlockIteratorOps C) (BlockIteratorOps C) block_function 2) C
      (concat [b0; b1]) Pos.
Proof.
  intros C b0 b1.
  assert (HS : forall es, In es [b0; b1; [(str "c", str "h0"); (str "e", str "h1")]] -> sorted_entries C es).
  { intros es [<-|[<-|[<-|[]]]];
      (split; [repeat (constructor; [|repeat (constructor; [vm_compute; reflexivity|]); constructor]); constructor
              |repeat constructor]). }
  destruct (build_block_cursor C BytewiseComparatorOk 16 [(str "c", str "h0"); (str "e", str "h1")])
    as (it & P & _ & _ & HC); [lia|repeat constructor|apply HS; cbn; tauto|reflexivity|].
  destruct (build_block_cursor C BytewiseComparatorOk 16 b0)
    as (it0 & P0 & _ & Hp0 & HC0); [lia|repeat constructor|apply HS; cbn; tauto|reflexivity|].
  destruct (build_block_cursor C BytewiseComparatorOk 16 b1)
    as (it1 & P1 & _ & Hp1 & HC1); [lia|repeat constructor|apply HS; cbn; tauto|reflexivity|].
  exists (fun h => if decide (h = str "h0") then it0 else it1).
  destruct (two_level_iterator_is_cursor C BytewiseComparatorOk BlockIter BlockIter (BlockIteratorOps C)
    (BlockIteratorOps C) (fun h => if decide (h = str "h0") then it0 else it1)
    [(str "c", str "h0"); (str "e", str "h1")] [b0; b1] P
    (fun i => match i with O => P0 | _ => P1 end) 2 HC) as (Pos & HPos & _); [|cbn; lia|eauto].
  split.
  - reflexivity.
  - apply list.NoDup_cons; split; [intros E; apply list_elem_of_singleton in E; discriminate|apply NoDup_singleton].
  - intros [|[|i]] k h E; [injection E as <- <-|injection E as <- <-|discriminate];
      rewrite ?decide_True, ?decide_False by (reflexivity || discriminate); eauto.
  - intros [|[|i]] es E; [injection E as <-; exact HC0|injection E as <-; exact HC1|discriminate].
  - repeat constructor.
  - repeat constructor.
  - intros [|[|i]] k h es e Ei Eb He; [| |discriminate]; injection Ei as <- <-; injection Eb as <-;
      [destruct He as [<-|[<-|[]]]|destruct He as [<-|[]]]; vm_compute; discriminate.
  - intros [|[|i]] [|[|j]] k h es e Ei Eb Hij He; try lia; try discriminate.
    injection Ei as <- <-. injection Eb as <-. destruct He as [<-|[]]. vm_compute. reflexivity.
Defined.
