(* ===== verification/Format.v ===== *)
(** * The table file format (table/format.h, table/format.cc)

    Block handles, the footer of a table file and the reading of one block with
    its trailer.  The compression libraries are not part of the repository: the
    port functions that call them are a class [Compression], whose laws say that
    decompression undoes compression; [NoLibraries] is the instance the port
    layer compiles to when they are absent.  Buffers are taken at address 0
    (the checksum does not depend on the address). *)

From S2P Require Import Prelude Coding Compare Logging Crc32c Env.
#[local] Open Scope Z_scope.
#[local] Open Scope ldb_scope.

(** ** Block handles *)

Definition kMaxEncodedLength : Z := 10 + 10.

Record BlockHandle := mkBlockHandle { bh_offset : Z; bh_size : Z }.

#[export] Instance BlockHandle_eq_dec : EqDecision BlockHandle.
Proof. solve_decision. Defined.

Definition BlockHandle_new : BlockHandle := mkBlockHandle (2 ^ 64 - 1) (2 ^ 64 - 1).

Definition BH_EncodeTo (h : BlockHandle) (dst : bytes) : bytes :=
  PutVarint64 (PutVarint64 dst (bh_offset h)) (bh_size h).

(** The status, the handle and the rest of the input; a field is assigned when
    its varint was read. *)

Definition BH_DecodeFrom (h : BlockHandle) (input : bytes) : Status * BlockHandle * bytes :=
  match GetVarint64 input with
  | Some (offset, input1) =>
      match GetVarint64 input1 with
      | Some (size, input2) => (OK, mkBlockHandle offset size, input2)
      | None => (Corruption (str "bad block handle") [], mkBlockHandle offset (bh_size h), input1)
      end
  | None => (Corruption (str "bad block handle") [], h, input)
  end.

(** ** The footer *)

Definition kFooterEncodedLength : Z := 2 * kMaxEncodedLength + 8.

Definition kTableMagicNumber : Z := 0xdb4775248b80fb57.

Definition kBlockTrailerSize : Z := 5.

Record Footer := mkFooter { metaindex_handle : BlockHandle; index_handle : BlockHandle }.

Definition Footer_new : Footer := mkFooter BlockHandle_new BlockHandle_new.

(** [std::string::resize] *)

Definition resize (s : bytes) (n : Z) : bytes :=
  take (Z.to_nat n) s ++ replicate (Z.to_nat n - length s) Byte.x00.

Definition Footer_EncodeTo (f : Footer) (dst : bytes) : bytes :=
  let dst := BH_EncodeTo (metaindex_handle f) dst in
  let dst := BH_EncodeTo (index_handle f) dst in
  let dst := resize dst (2 * kMaxEncodedLength) in
  let dst := PutFixed32 dst (u32 (kTableMagicNumber .& 0xffffffff)) in
  PutFixed32 dst (u32 (kTableMagicNumber >> 32)).

Definition Footer_DecodeFrom (f : Footer) (input : bytes) : Status * Footer * bytes :=
  if sz input <? kFooterEncodedLength then
    (Corruption (str "not an sstable (footer too short)") [], f, input)
  else
    let magic_ptr := drop (Z.to_nat (kFooterEncodedLength - 8)) input in
    let magic_lo := DecodeFixed32 magic_ptr in
    let magic_hi := DecodeFixed32 (drop 4 magic_ptr) in
    let magic := u64 (magic_hi << 32) .| magic_lo in
    if negb (magic =? kTableMagicNumber) then
      (Corruption (str "not an sstable (bad magic number)") [], f, input)
    else
      let '(result, meta, input1) := BH_DecodeFrom (metaindex_handle f) input in
      if negb (ok result) then (result, mkFooter meta (index_handle f), input1)
      else
        let '(result, index, input2) := BH_DecodeFrom (index_handle f) input1 in
        (result, mkFooter meta index, if ok result then drop 8 magic_ptr else input2).

(** ** Compression *)

Inductive CompressionType := kNoCompression | kSnappyCompression | kZstdCompression.

#[export] Instance CompressionType_eq_dec : EqDecision CompressionType.
Proof. solve_decision. Defined.

Definition ct_code (t : CompressionType) : Z :=
  match t with kNoCompression => 0 | kSnappyCompression => 1 | kZstdCompression => 2 end.

(** port::Snappy_* and port::Zstd_*: [None] is the result [false]. *)

Class Compression := {
  Snappy_Compress : bytes -> option bytes;
  Snappy_GetUncompressedLength : bytes -> option Z;
  Snappy_Uncompress : bytes -> option bytes;
  Zstd_Compress : Z -> bytes -> option bytes;
  Zstd_GetUncompressedLength : bytes -> option Z;
  Zstd_Uncompress : bytes -> option bytes
}.

Class CompressionOk (K : Compression) : Prop := {
  snappy_undo : forall raw c, Snappy_Compress raw = Some c ->
    Snappy_GetUncompressedLength c = Some (sz raw) /\ Snappy_Uncompress c = Some raw;
  zstd_undo : forall level raw c, Zstd_Compress level raw = Some c ->
    Zstd_GetUncompressedLength c = Some (sz raw) /\ Zstd_Uncompress c = Some raw
}.

Definition NoLibraries : Compression := {|
  Snappy_Compress _ := None;
  Snappy_GetUncompressedLength _ := None;
  Snappy_Uncompress _ := None;
  Zstd_Compress _ _ := None;
  Zstd_GetUncompressedLength _ := None;
  Zstd_Uncompress _ := None
|}.

#[export] Instance NoLibrariesOk : CompressionOk NoLibraries.
Proof. split; discriminate. Qed.

(** ** Reading a block *)

Record BlockContents := mkBlockContents {
  bc_data : bytes;
  bc_cachable : bool;
  bc_heap_allocated : bool
}.

Definition BlockContents_empty : BlockContents := mkBlockContents [] false false.

(** The test that the file delivered the block and its trailer, in [size_t]. *)

Definition ReadBlock_complete (n : Z) (contents : bytes) : bool :=
  sz contents =? u64 (n + kBlockTrailerSize).

Section ReadBlock.
Context (K : Compression) {F : Type} {RF : RandomAccessFile F}.

(** [scratch] says whether the file returns its data in the caller's buffer
    ([data == buf]) or points to memory of its own.  The bytes past the end of
    the data read, which only a handle of almost 2^64 bytes reaches, are taken
    as zeros. *)

Context (scratch : bool).

Definition ReadBlock (verify_checksums : bool) (file : F) (handle : BlockHandle)
  : Status * BlockContents :=
  let n := bh_size handle in
  let '(s, contents) := rf_Read file (bh_offset handle) (u64 (n + kBlockTrailerSize)) in
  if negb (ok s) then (s, BlockContents_empty)
  else if negb (ReadBlock_complete n contents) then
    (Corruption (str "truncated block read") [], BlockContents_empty)
  else
    let data := contents in
    let len := Z.to_nat n in
    let crc_bad :=
      let crc := Unmask (DecodeFixed32 (drop (len + 1) data)) in
      let actual := Value 0 (take (len + 1) data) in
      negb (actual =? crc) in
    if verify_checksums && crc_bad then
      (Corruption (str "block checksum mismatch") [], BlockContents_empty)
    else
      let type := b2z (nth len data Byte.x00) in
      if type =? ct_code kNoCompression then
        (OK, mkBlockContents (take len data) scratch scratch)
      else if type =? ct_code kSnappyCompression then
        match Snappy_GetUncompressedLength (take len data) with
        | None => (Corruption (str "corrupted snappy compressed block length") [], BlockContents_empty)
        | Some ulength =>
            match Snappy_Uncompress (take len data) with
            | None => (Corruption (str "corrupted snappy compressed block contents") [], BlockContents_empty)
            | Some ubuf => (OK, mkBlockContents (take (Z.to_nat ulength) ubuf) true true)
            end
        end
      else if type =? ct_code kZstdCompression then
        match Zstd_GetUncompressedLength (take len data) with
        | None => (Corruption (str "corrupted zstd compressed block length") [], BlockContents_empty)
        | Some ulength =>
            match Zstd_Uncompress (take len data) with
            | None => (Corruption (str "corrupted zstd compressed block contents") [], BlockContents_empty)
            | Some ubuf => (OK, mkBlockContents (take (Z.to_nat ulength) ubuf) true true)
            end
        end
      else (Corruption (str "bad block type") [], BlockContents_empty).

End ReadBlock.

(** ** Lemmas on handles *)

Definition bh_wf (h : BlockHandle) : Prop := 0 <= bh_offset h < 2 ^ 64 /\ 0 <= bh_size h < 2 ^ 64.

Definition bh_bytes (h : BlockHandle) : bytes :=
  EncodeVarint64 (bh_offset h) ++ EncodeVarint64 (bh_size h).

Lemma BH_EncodeTo_bytes h dst : BH_EncodeTo h dst = dst ++ bh_bytes h.
Proof. unfold BH_EncodeTo, PutVarint64, bh_bytes. rewrite app_assoc. reflexivity. Qed.

Lemma BH_decode h h0 rest : bh_wf h -> BH_DecodeFrom h0 (bh_bytes h ++ rest) = (OK, h, rest).
Proof.
  intros [Ho Hs]. unfold BH_DecodeFrom, bh_bytes. rewrite <- app_assoc, varint64_get by exact Ho.
  rewrite varint64_get by exact Hs. destruct h; reflexivity.
Qed.

Lemma bh_bytes_inj h1 h2 : bh_wf h1 -> bh_wf h2 -> bh_bytes h1 = bh_bytes h2 -> h1 = h2.
Proof.
  intros H1 H2 E. pose proof (BH_decode h1 h1 [] H1) as E1. pose proof (BH_decode h2 h1 [] H2) as E2.
  rewrite E in E1. congruence.
Qed.

Lemma bh_bytes_length h : (length (bh_bytes h) <= 20)%nat.
Proof.
  unfold bh_bytes. rewrite length_app. unfold EncodeVarint64.
  pose proof (EncodeVarint64_loop_length 10 (bh_offset h)).
  pose proof (EncodeVarint64_loop_length 10 (bh_size h)). lia.
Qed.

(** ** The footer's bytes *)

(** The magic number is read as two 32-bit halves. *)

Lemma fixed64_halves m rest : length m = 8%nat ->
  u64 (DecodeFixed32 (drop 4 (m ++ rest)) << 32) .| DecodeFixed32 (m ++ rest) = DecodeFixed64 m.
Proof.
  intros H. do 8 (destruct m as [|? m]; [discriminate|]). destruct m; [|discriminate]. cbn [app drop].
  assert (R : 0 <= DecodeFixed32 [b3; b4; b5; b6] < 2 ^ 32) by (apply DecodeFixed32_range; reflexivity).
  change (DecodeFixed32 (b3 :: b4 :: b5 :: b6 :: rest)) with (DecodeFixed32 [b3; b4; b5; b6]).
  rewrite u64_small by (rewrite Z.shiftl_mul_pow2 by lia; lia).
  unfold DecodeFixed32, DecodeFixed64, buf_at. cbn [nth].
  rewrite !Z.shiftl_lor, !Z.shiftl_shiftl by lia. cbn [Z.add Pos.add Pos.succ Pos.add_carry].
  rewrite Z.lor_comm, !Z.lor_assoc. reflexivity.
Qed.

Definition footer_bytes (f : Footer) : bytes :=
  let hs := bh_bytes (metaindex_handle f) ++ bh_bytes (index_handle f) in
  hs ++ replicate (40 - length hs) Byte.x00 ++
  EncodeFixed32 0x8b80fb57 ++ EncodeFixed32 0xdb477524.

Lemma Footer_EncodeTo_bytes f : Footer_EncodeTo f [] = footer_bytes f.
Proof.
  unfold Footer_EncodeTo, footer_bytes. rewrite !BH_EncodeTo_bytes, app_nil_l.
  set (hs := bh_bytes _ ++ _). assert (Hl : (length hs <= 40)%nat).
  { unfold hs. rewrite length_app. pose proof (bh_bytes_length (metaindex_handle f)).
    pose proof (bh_bytes_length (index_handle f)). lia. }
  unfold resize. change (Z.to_nat (2 * kMaxEncodedLength)) with 40%nat.
  rewrite take_ge by lia. unfold PutFixed32. rewrite <- !app_assoc. reflexivity.
Qed.

Lemma footer_bytes_split f : exists pad,
  footer_bytes f = (bh_bytes (metaindex_handle f) ++ bh_bytes (index_handle f) ++ pad) ++
    EncodeFixed32 0x8b80fb57 ++ EncodeFixed32 0xdb477524 /\
  length (bh_bytes (metaindex_handle f) ++ bh_bytes (index_handle f) ++ pad) = 40%nat.
Proof.
  exists (replicate (40 - length (bh_bytes (metaindex_handle f) ++ bh_bytes (index_handle f))) Byte.x00).
  unfold footer_bytes. cbv zeta. split; [rewrite <- !app_assoc; reflexivity|].
  rewrite !length_app, length_replicate. pose proof (bh_bytes_length (metaindex_handle f)).
  pose proof (bh_bytes_length (index_handle f)). lia.
Qed.

Lemma footer_bytes_length f : length (footer_bytes f) = 48%nat.
Proof.
  destruct (footer_bytes_split f) as (pad & -> & Hl). rewrite length_app, Hl. reflexivity.
Qed.

Lemma footer_decode f f0 rest : bh_wf (metaindex_handle f) -> bh_wf (index_handle f) ->
  Footer_DecodeFrom f0 (footer_bytes f ++ rest) = (OK, f, rest).
Proof.
  intros Hm Hi. unfold Footer_DecodeFrom.
  rewrite (proj2 (Z.ltb_ge _ _)) by (unfold sz; rewrite length_app, footer_bytes_length;
    unfold kFooterEncodedLength, kMaxEncodedLength; lia).
  destruct (footer_bytes_split f) as (pad & -> & Hl). set (p := bh_bytes _ ++ _) in *.
  change (Z.to_nat (kFooterEncodedLength - 8)) with 40%nat. rewrite <- !app_assoc.
  rewrite (drop_app_length' p) by (symmetry; exact Hl).
  rewrite (fixed32_decode 0x8b80fb57), (drop_app_length' (EncodeFixed32 0x8b80fb57)) by reflexivity.
  rewrite fixed32_decode. change (u64 (u32 0xdb477524 << 32) .| u32 0x8b80fb57) with kTableMagicNumber.
  rewrite Z.eqb_refl. cbn [negb]. unfold p. rewrite <- !app_assoc, BH_decode by exact Hm.
  cbn [ok negb OK]. rewrite BH_decode by exact Hi. cbn [ok OK]. destruct f as [m i]. apply (f_equal (pair _)).
  rewrite (app_assoc (EncodeFixed32 _)). apply drop_app_length'. reflexivity.
Qed.

(** ** Stored blocks *)

Definition stored_block (type : CompressionType) (contents : bytes) : bytes :=
  contents ++ z2b (ct_code type) ::
  EncodeFixed32 (Mask (crc_ref 0 (contents ++ [z2b (ct_code type)]))).

Lemma stored_block_length type contents : sz (stored_block type contents) = sz contents + 5.
Proof. unfold stored_block. rewrite sz_app, sz_cons. unfold sz at 2. rewrite length_EncodeFixed32. lia. Qed.

(** What the reader makes of the stored contents of each type. *)

Definition unpack (K : Compression) (type : CompressionType) (contents : bytes) : option bytes :=
  match type with
  | kNoCompression => Some contents
  | kSnappyCompression =>
      match Snappy_GetUncompressedLength contents, Snappy_Uncompress contents with
      | Some n, Some u => Some (take (Z.to_nat n) u)
      | _, _ => None
      end
  | kZstdCompression =>
      match Zstd_GetUncompressedLength contents, Zstd_Uncompress contents with
      | Some n, Some u => Some (take (Z.to_nat n) u)
      | _, _ => None
      end
  end.

Lemma b2z_ct type : b2z (z2b (ct_code type)) = ct_code type.
Proof. destruct type; reflexivity. Qed.

Section Read.
Context {K : Compression} {F : Type} {RF : RandomAccessFile F} {RR : ReliableRandom F}.

(** The data a complete read of a stored block consists of. *)

Lemma stored_read file pre type contents post : rf_inv file ->
  rf_contents file = pre ++ stored_block type contents ++ post ->
  rf_Read file (sz pre) (sz contents + 5) = (OK, stored_block type contents).
Proof.
  intros Hi Hc. rewrite rf_read_ok; [|exact Hi| |pose proof (sz_nonneg contents); lia].
  - rewrite Hc, drop_sz_app, <- (stored_block_length type), take_sz_app. reflexivity.
  - rewrite Hc, sz_app. pose proof (sz_nonneg pre).
    pose proof (sz_nonneg (stored_block type contents ++ post)). lia.
Qed.

Lemma ReadBlock_stored scratch verify file pre type contents post raw : rf_inv file ->
  rf_contents file = pre ++ stored_block type contents ++ post ->
  sz contents + 5 < 2 ^ 64 -> unpack K type contents = Some raw ->
  exists bc, ReadBlock K scratch verify file (mkBlockHandle (sz pre) (sz contents)) = (OK, bc) /\
    bc_data bc = raw.
Proof.
  intros Hi Hc Hn Hu. unfold ReadBlock. cbn [bh_size bh_offset]. pose proof (sz_nonneg contents) as H0.
  unfold ReadBlock_complete, kBlockTrailerSize. rewrite !u64_small by lia.
  rewrite (stored_read file pre type contents post Hi Hc). cbn [ok OK negb].
  rewrite stored_block_length, Z.eqb_refl. cbn [negb]. rewrite sz_to_nat.
  assert (Hcrc : Value 0 (take (length contents + 1) (stored_block type contents)) =
    Unmask (DecodeFixed32 (drop (length contents + 1) (stored_block type contents)))).
  { unfold stored_block, Value. rewrite (cons_middle (z2b (ct_code type))), app_assoc.
    rewrite take_app_length' , drop_app_length' by (rewrite length_app; cbn; lia).
    assert (W : w32 (crc_ref 0 (contents ++ [z2b (ct_code type)]))) by (apply crc_ref_range; unfold w32; lia).
    rewrite Extend_ref by (unfold w32; lia). rewrite <- (app_nil_r (EncodeFixed32 _)), fixed32_decode.
    rewrite u32_small by (apply Z.mod_pos_bound; lia). symmetry. apply Unmask_Mask, W. }
  rewrite Hcrc, Z.eqb_refl. cbn [negb]. rewrite andb_false_r.
  assert (Ht : nth (length contents) (stored_block type contents) Byte.x00 = z2b (ct_code type)).
  { unfold stored_block. rewrite app_nth2, Nat.sub_diag by lia. reflexivity. }
  rewrite Ht, b2z_ct. assert (Hd : take (length contents) (stored_block type contents) = contents)
    by apply take_app_length. rewrite Hd.
  destruct type; cbn [ct_code Z.eqb] in *; cbn [unpack] in Hu.
  - injection Hu as <-. eauto.
  - destruct (Snappy_GetUncompressedLength contents); [|discriminate].
    destruct (Snappy_Uncompress contents); [|discriminate]. injection Hu as <-. eauto.
  - destruct (Zstd_GetUncompressedLength contents); [|discriminate].
    destruct (Zstd_Uncompress contents); [|discriminate]. injection Hu as <-. eauto.
Qed.

End Read.

(** ** Properties *)

(** The footer of a table file round-trips: its encoding is 48 bytes for
    any two block handles, and decoding it, whatever follows, gives back the
    handles and leaves what follows; an input that is too short or that has
    another magic number is reported as corrupted. *)
Theorem footer_roundtrip : forall f f0 rest,
  bh_wf (metaindex_handle f) -> bh_wf (index_handle f) ->
  sz (Footer_EncodeTo f []) = kFooterEncodedLength /\
  Footer_DecodeFrom f0 (Footer_EncodeTo f [] ++ rest) = (OK, f, rest) /\
  (forall input, sz input < kFooterEncodedLength ->
     IsCorruption (fst (fst (Footer_DecodeFrom f0 input))) = true) /\
  (forall hs m rest', length hs = 40%nat -> length m = 8%nat -> DecodeFixed64 m <> kTableMagicNumber ->
     IsCorruption (fst (fst (Footer_DecodeFrom f0 (hs ++ m ++ rest')))) = true).
Proof.
  intros f f0 rest Hm Hi. rewrite Footer_EncodeTo_bytes.
  split; [unfold sz; rewrite footer_bytes_length; reflexivity|].
  split; [exact (footer_decode f f0 rest Hm Hi)|]. split.
  - intros input Hl. unfold Footer_DecodeFrom. rewrite (proj2 (Z.ltb_lt _ _)) by exact Hl. reflexivity.
  - intros hs m rest' Hh Hl Hne. unfold Footer_DecodeFrom.
    rewrite (proj2 (Z.ltb_ge _ _)) by (unfold sz; rewrite !length_app;
      unfold kFooterEncodedLength, kMaxEncodedLength; lia).
    change (Z.to_nat (kFooterEncodedLength - 8)) with 40%nat. rewrite drop_app_length' by (symmetry; exact Hh).
    rewrite (fixed64_halves m rest' Hl), (proj2 (Z.eqb_neq _ _)) by exact Hne. reflexivity.
Qed.

Lemma footer_roundtrip_witness :
  let f := mkFooter (mkBlockHandle 1000 50) (mkBlockHandle 1055 (2 ^ 40)) in
  Footer_DecodeFrom Footer_new (Footer_EncodeTo f [] ++ str "rest") = (OK, f, str "rest").
Proof.
  intros f. apply (footer_roundtrip f Footer_new (str "rest")); split; cbn; lia.
Defined.

(** The length test of [ReadBlock] keeps the reads of the checksum and of
    the type inside the data that was read, unless the size in the handle is
    within 5 of 2^64: there the sum in the test wraps, and an empty read passes
    as a complete block. *)
Theorem read_block_bounds :
  (forall n contents, 0 <= n < 2 ^ 64 - kBlockTrailerSize -> ReadBlock_complete n contents = true ->
     sz contents = n + kBlockTrailerSize) /\
  ReadBlock_complete (2 ^ 64 - kBlockTrailerSize) [] = true.
Proof.
  split; [|reflexivity]. intros n contents Hn E. apply Z.eqb_eq in E.
  unfold kBlockTrailerSize in *. rewrite u64_small in E by lia. exact E.
Qed.
