(* ===== verification/TableBuilder.v ===== *)
(** * Building tables (table/table_builder.cc)

    The builder of a table file over any writable file: data blocks, the block
    of range deletions, the filter block, the metaindex and index blocks and the
    footer.  The builders of the blocks are those of Block.v and Filter.v, and
    the options that do not influence the bytes written (environment, caches,
    logs) are left out.  The buffer [compressed_output] is empty between calls
    and is not part of the state; asserts are hypotheses of the theorems. *)

From S2P Require Import Prelude Coding Compare DbFormat Logging Crc32c Env Filter Iterator Block Format.
#[local] Open Scope Z_scope.
#[local] Open Scope ldb_scope.

Record Options := mkOptions {
  opt_block_size : Z;
  opt_block_restart_interval : Z;
  opt_compression : CompressionType;
  opt_zstd_compression_level : Z;
  opt_filter_policy : option FilterPolicy;
  opt_paranoid_checks : bool
}.

Section TableBuilder.
Context (C : Comparator) (K : Compression) {W : Type} {WF : WritableFile W}.

Record Rep := mkRep {
  r_options : Options;
  r_file : W;
  r_offset : Z;
  r_status : Status;
  r_data_block : BlockBuilder;
  r_index_block : BlockBuilder;
  r_range_del_block : BlockBuilder;
  r_last_key : bytes;
  r_num_entries : Z;
  r_closed : bool;
  r_filter_block : option FilterBlockBuilder;
  r_pending_index_entry : bool;
  r_pending_handle : BlockHandle
}.

(** Applies [f] to the filter block builder, with the policy of the options. *)

Definition on_filter (o : Options) (f : FilterPolicy -> FilterBlockBuilder -> FilterBlockBuilder)
    (b : option FilterBlockBuilder) : option FilterBlockBuilder :=
  match b, opt_filter_policy o with
  | Some b, Some P => Some (f P b)
  | b, _ => b
  end.

Definition TableBuilder_new (options : Options) (file : W) : Rep :=
  let filter := match opt_filter_policy options with
                | Some P => Some (FBB_StartBlock P FilterBlockBuilder_new 0)
                | None => None
                end in
  mkRep options file 0 OK BlockBuilder_new BlockBuilder_new BlockBuilder_new [] 0 false filter
    false BlockHandle_new.

(** The comparators of the options are compared as pointers: [same_comparator]. *)

Definition ChangeOptions (r : Rep) (options : Options) (same_comparator : bool) : Status * Rep :=
  if negb same_comparator then
    (InvalidArgument (str "changing comparator while building table") [], r)
  else
    (OK, mkRep options (r_file r) (r_offset r) (r_status r) (r_data_block r) (r_index_block r)
           (r_range_del_block r) (r_last_key r) (r_num_entries r) (r_closed r) (r_filter_block r)
           (r_pending_index_entry r) (r_pending_handle r)).

Definition TB_ok (r : Rep) : bool := ok (r_status r).

(** The builder after a write: file, offset and status. *)

Definition with_file (r : Rep) (file : W) (offset : Z) (status : Status) : Rep :=
  mkRep (r_options r) file offset status (r_data_block r) (r_index_block r)
    (r_range_del_block r) (r_last_key r) (r_num_entries r) (r_closed r) (r_filter_block r)
    (r_pending_index_entry r) (r_pending_handle r).

Definition block_trailer (block_contents : bytes) (type : CompressionType) : bytes :=
  let t := [z2b (ct_code type)] in
  let crc := Value 0 block_contents in
  let crc := Extend 0 crc t in
  t ++ EncodeFixed32 (Mask crc).

Definition WriteRawBlock (r : Rep) (block_contents : bytes) (type : CompressionType) : Rep * BlockHandle :=
  let handle := mkBlockHandle (r_offset r) (sz block_contents) in
  let '(s, file) := wf_Append (r_file r) block_contents in
  if ok s then
    let '(s, file) := wf_Append file (block_trailer block_contents type) in
    if ok s then (with_file r file (u64 (r_offset r + (sz block_contents + kBlockTrailerSize))) s, handle)
    else (with_file r file (r_offset r) s, handle)
  else (with_file r file (r_offset r) s, handle).

(** The contents and the type a block is stored with. *)

Definition compress_block (o : Options) (raw : bytes) : bytes * CompressionType :=
  match opt_compression o with
  | kNoCompression => (raw, kNoCompression)
  | kSnappyCompression =>
      match Snappy_Compress raw with
      | Some compressed =>
          if sz compressed <? sz raw - sz raw / 8 then (compressed, kSnappyCompression)
          else (raw, kNoCompression)
      | None => (raw, kNoCompression)
      end
  | kZstdCompression =>
      match Zstd_Compress (opt_zstd_compression_level o) raw with
      | Some compressed =>
          if sz compressed <? sz raw - sz raw / 8 then (compressed, kZstdCompression)
          else (raw, kNoCompression)
      | None => (raw, kNoCompression)
      end
  end.

(** The caller's block is reset: the result has the builder, the block and the
    handle. *)

Definition WriteBlock (r : Rep) (block : BlockBuilder) : Rep * BlockBuilder * BlockHandle :=
  let '(block, raw) := BB_Finish block in
  let '(block_contents, type) := compress_block (r_options r) raw in
  let '(r, handle) := WriteRawBlock r block_contents type in
  (r, BB_Reset block, handle).

Definition TB_Flush (r : Rep) : Rep :=
  if negb (TB_ok r) then r
  else if BB_empty (r_data_block r) then r
  else
    let '(r, data_block, handle) := WriteBlock r (r_data_block r) in
    let '(pending, file, status) :=
      if TB_ok r then let '(s, file) := wf_Flush (r_file r) in (true, file, s)
      else (r_pending_index_entry r, r_file r, r_status r) in
    mkRep (r_options r) file (r_offset r) status data_block (r_index_block r)
      (r_range_del_block r) (r_last_key r) (r_num_entries r) (r_closed r)
      (on_filter (r_options r) (fun P b => FBB_StartBlock P b (r_offset r)) (r_filter_block r))
      pending handle.

(** The test of [Add] for the keys that go to the range deletion block. *)

Definition is_range_del (key : bytes) : bool :=
  (8 <=? sz key) && ((ExtractTag key .& 255) =? vt_code kTypeRangeDeletion).

Definition TB_Add (r : Rep) (key value : bytes) : Rep :=
  if negb (TB_ok r) then r
  else if is_range_del key then
    mkRep (r_options r) (r_file r) (r_offset r) (r_status r) (r_data_block r) (r_index_block r)
      (BB_Add (opt_block_restart_interval (r_options r)) (r_range_del_block r) key value)
      (r_last_key r) (r_num_entries r + 1) (r_closed r) (r_filter_block r)
      (r_pending_index_entry r) (r_pending_handle r)
  else
    let index_block :=
      if r_pending_index_entry r then
        BB_Add 1 (r_index_block r) (shortest_sep (r_last_key r) key)
          (BH_EncodeTo (r_pending_handle r) [])
      else r_index_block r in
    let filter_block := on_filter (r_options r) (fun P b => FBB_AddKey b key) (r_filter_block r) in
    let data_block := BB_Add (opt_block_restart_interval (r_options r)) (r_data_block r) key value in
    let r := mkRep (r_options r) (r_file r) (r_offset r) (r_status r) data_block index_block
      (r_range_del_block r) key (r_num_entries r + 1) (r_closed r) filter_block
      false (r_pending_handle r) in
    if opt_block_size (r_options r) <=? BB_CurrentSizeEstimate data_block then TB_Flush r else r.

(** The steps of [Finish], each guarded by the status. *)

Definition range_deletions_key : bytes := str "leveldb.range_deletions".

Definition filter_key (P : FilterPolicy) : bytes := str "filter." ++ @fp_Name P.

Definition Finish_range_dels (r : Rep) : Rep * BlockHandle :=
  if TB_ok r && negb (BB_empty (r_range_del_block r)) then
    let '(r', range_del_block, handle) := WriteBlock r (r_range_del_block r) in
    (mkRep (r_options r') (r_file r') (r_offset r') (r_status r') (r_data_block r') (r_index_block r')
       range_del_block (r_last_key r') (r_num_entries r') (r_closed r') (r_filter_block r')
       (r_pending_index_entry r') (r_pending_handle r'), handle)
  else (r, BlockHandle_new).

Definition Finish_filter (r : Rep) : Rep * BlockHandle :=
  match r_filter_block r, opt_filter_policy (r_options r) with
  | Some b, Some P =>
      if TB_ok r then
        let '(b, contents) := FBB_Finish P b in
        let '(r', handle) := WriteRawBlock r contents kNoCompression in
        (mkRep (r_options r') (r_file r') (r_offset r') (r_status r') (r_data_block r') (r_index_block r')
           (r_range_del_block r') (r_last_key r') (r_num_entries r') (r_closed r') (Some b)
           (r_pending_index_entry r') (r_pending_handle r'), handle)
      else (r, BlockHandle_new)
  | _, _ => (r, BlockHandle_new)
  end.

Definition Finish_metaindex (r : Rep) (has_range_dels : bool)
    (filter_block_handle range_del_block_handle : BlockHandle) : Rep * BlockHandle :=
  if TB_ok r then
    let interval := opt_block_restart_interval (r_options r) in
    let meta_index_block := BlockBuilder_new in
    let meta_index_block :=
      match r_filter_block r, opt_filter_policy (r_options r) with
      | Some _, Some P =>
          BB_Add interval meta_index_block (filter_key P) (BH_EncodeTo filter_block_handle [])
      | _, _ => meta_index_block
      end in
    let meta_index_block :=
      if has_range_dels then
        BB_Add interval meta_index_block range_deletions_key (BH_EncodeTo range_del_block_handle [])
      else meta_index_block in
    let '(r, _, handle) := WriteBlock r meta_index_block in (r, handle)
  else (r, BlockHandle_new).

Definition Finish_index (r : Rep) : Rep * BlockHandle :=
  if TB_ok r then
    let '(index_block, last_key) :=
      if r_pending_index_entry r then
        let last_key := short_succ (r_last_key r) in
        (BB_Add 1 (r_index_block r) last_key (BH_EncodeTo (r_pending_handle r) []), last_key)
      else (r_index_block r, r_last_key r) in
    let '(r', index_block, handle) := WriteBlock r index_block in
    (mkRep (r_options r') (r_file r') (r_offset r') (r_status r') (r_data_block r') index_block
       (r_range_del_block r') last_key (r_num_entries r') (r_closed r') (r_filter_block r')
       false (r_pending_handle r'), handle)
  else (r, BlockHandle_new).

Definition Finish_footer (r : Rep) (metaindex_block_handle index_block_handle : BlockHandle) : Rep :=
  if TB_ok r then
    let footer_encoding := Footer_EncodeTo (mkFooter metaindex_block_handle index_block_handle) [] in
    let '(s, file) := wf_Append (r_file r) footer_encoding in
    with_file r file (if ok s then u64 (r_offset r + sz footer_encoding) else r_offset r) s
  else r.

Definition TB_close (r : Rep) : Rep :=
  mkRep (r_options r) (r_file r) (r_offset r) (r_status r) (r_data_block r) (r_index_block r)
    (r_range_del_block r) (r_last_key r) (r_num_entries r) true (r_filter_block r)
    (r_pending_index_entry r) (r_pending_handle r).

Definition TB_Finish (r : Rep) : Status * Rep :=
  let r := TB_close (TB_Flush r) in
  let has_range_dels := negb (BB_empty (r_range_del_block r)) in
  let '(r, range_del_block_handle) := Finish_range_dels r in
  let '(r, filter_block_handle) := Finish_filter r in
  let '(r, metaindex_block_handle) :=
    Finish_metaindex r has_range_dels filter_block_handle range_del_block_handle in
  let '(r, index_block_handle) := Finish_index r in
  let r := Finish_footer r metaindex_block_handle index_block_handle in
  (r_status r, r).

Definition Abandon (r : Rep) : Rep := TB_close r.

Definition TB_status (r : Rep) : Status := r_status r.

Definition NumEntries (r : Rep) : Z := u64 (r_num_entries r).

Definition FileSize (r : Rep) : Z := r_offset r.

End TableBuilder.

Arguments Rep : clear implicits.

(** ** Stored blocks in a file *)

Record sblock := mkSBlock { sb_entries : list entry; sb_type : CompressionType; sb_contents : bytes }.

Definition sb_bytes (b : sblock) : bytes := stored_block (sb_type b) (sb_contents b).

Definition sb_file (bs : list sblock) : bytes := concat (map sb_bytes bs).

Definition sb_ok (K : Compression) (interval : Z) (b : sblock) : Prop :=
  unpack K (sb_type b) (sb_contents b) = Some (build_block interval (sb_entries b)).

(** The handle of a block that follows the blocks [pre]. *)

Definition handle_of (pre : list sblock) (b : sblock) : BlockHandle :=
  mkBlockHandle (u64 (sz (sb_file pre))) (sz (sb_contents b)).

Fixpoint handles (pre bs : list sblock) : list BlockHandle :=
  match bs with
  | [] => []
  | b :: bs => handle_of pre b :: handles (pre ++ [b]) bs
  end.

Lemma sb_file_app bs1 bs2 : sb_file (bs1 ++ bs2) = sb_file bs1 ++ sb_file bs2.
Proof. unfold sb_file. rewrite map_app, concat_app. reflexivity. Qed.

Lemma sb_file_one b : sb_file [b] = sb_bytes b.
Proof. unfold sb_file. cbn. apply app_nil_r. Qed.

Lemma handles_snoc bs : forall pre b, handles pre (bs ++ [b]) = handles pre bs ++ [handle_of (pre ++ bs) b].
Proof.
  induction bs as [|x bs IH]; intros pre b; cbn; [rewrite app_nil_r; reflexivity|].
  rewrite IH, <- app_assoc. reflexivity.
Qed.

Lemma handles_length bs : forall pre, length (handles pre bs) = length bs.
Proof. induction bs as [|x bs IH]; intros pre; cbn; [reflexivity|]. rewrite IH. reflexivity. Qed.

Lemma handles_lookup bs : forall pre i h, handles pre bs !! i = Some h ->
  exists b, bs !! i = Some b /\ h = handle_of (pre ++ take i bs) b.
Proof.
  induction bs as [|x bs IH]; intros pre i h H; [discriminate|]. destruct i as [|i].
  - injection H as <-. exists x. rewrite app_nil_r. auto.
  - cbn in H. apply IH in H as (b & Hb & ->). exists b. rewrite <- app_assoc. auto.
Qed.

(** What the builder feeds to the filter block: the offset and the keys of each
    data block. *)

Definition filter_blocks (bs : list sblock) : list (Z * list bytes) :=
  zip_with (fun h b => (bh_offset h, map fst (sb_entries b))) (handles [] bs) bs.

Lemma filter_blocks_snoc bs b :
  filter_blocks (bs ++ [b]) = filter_blocks bs ++ [(u64 (sz (sb_file bs)), map fst (sb_entries b))].
Proof.
  unfold filter_blocks. rewrite handles_snoc, zip_with_app by apply handles_length. reflexivity.
Qed.

Definition entries_of (bs : list sblock) : list entry := concat (map sb_entries bs).

Lemma entries_of_app bs1 bs2 : entries_of (bs1 ++ bs2) = entries_of bs1 ++ entries_of bs2.
Proof. unfold entries_of. rewrite map_app, concat_app. reflexivity. Qed.

Lemma entries_of_one b : entries_of [b] = sb_entries b.
Proof. unfold entries_of. cbn. apply app_nil_r. Qed.

Lemma filter_blocks_keys bs : concat (map snd (filter_blocks bs)) = map fst (entries_of bs).
Proof.
  induction bs as [|b bs IH] using rev_ind; [reflexivity|].
  rewrite filter_blocks_snoc, map_app, concat_app, IH, entries_of_app, map_app, entries_of_one.
  cbn. rewrite app_nil_r. reflexivity.
Qed.

(** Separators: the index key of a block is at or past its keys and before the
    keys of the later blocks and of the entries that follow, and it is the
    comparator's separator of the keys on the two sides. *)

Definition SepOk (C : Comparator) (idx : list entry) (bs : list sblock) (rest : list entry) : Prop :=
  forall i k h b, idx !! i = Some (k, h) -> bs !! i = Some b ->
    cmp_dom k /\ (forall e, In e (sb_entries b) -> cmp (fst e) k <= 0) /\
    (forall e, In e (entries_of (drop (S i) bs) ++ rest) -> cmp k (fst e) < 0) /\
    (forall x e, list.last (sb_entries b) = Some x -> head (entries_of (drop (S i) bs) ++ rest) = Some e ->
       k = shortest_sep (fst x) (fst e)).

(** The contents of the metaindex block, with the handles of the meta blocks. *)

Definition meta_entries (policy : option FilterPolicy) (filter_handle rdel_handle : option BlockHandle)
  : list entry :=
  (match policy, filter_handle with
   | Some P, Some h => [(filter_key P, bh_bytes h)]
   | _, _ => []
   end) ++
  (match rdel_handle with Some h => [(range_deletions_key, bh_bytes h)] | None => [] end).

Definition filter_data (P : FilterPolicy) (done : list sblock) : bytes :=
  snd (FBB_Finish P (fold_left (FBB_block P) (filter_blocks done ++ [(u64 (sz (sb_file done)), [])])
                       FilterBlockBuilder_new)).

(** The bytes of a finished table: data blocks, range deletions, filter,
    metaindex, index and footer. *)

Record TableLayout (C : Comparator) (K : Compression) (o : Options) (file : bytes)
    (pts dels : list entry) (done rd fl : list sblock) (mt ix : sblock) : Prop := {
  tl_file : file = sb_file (done ++ rd ++ fl ++ [mt; ix]) ++
    footer_bytes (mkFooter (handle_of (done ++ rd ++ fl) mt) (handle_of (done ++ rd ++ fl ++ [mt]) ix));
  tl_pts : entries_of done = pts;
  tl_done_ok : Forall (sb_ok K (opt_block_restart_interval o)) done;
  tl_nonempty : Forall (fun b => sb_entries b <> []) done;
  tl_idx_handles : map snd (sb_entries ix) = map bh_bytes (handles [] done);
  tl_idx_sep : SepOk C (sb_entries ix) done [];
  tl_idx_weight : weight (sb_entries ix) <= weight pts + 20 * sz pts;
  tl_ix_ok : sb_ok K 1 ix;
  tl_rd : (dels = [] /\ rd = []) \/
    (dels <> [] /\ exists b, rd = [b] /\ sb_entries b = dels /\ sb_ok K (opt_block_restart_interval o) b);
  tl_fl : match opt_filter_policy o with
    | Some P => fl = [mkSBlock [] kNoCompression (filter_data P done)]
    | None => fl = []
    end;
  tl_mt : sb_entries mt = meta_entries (opt_filter_policy o)
    (head (handles (done ++ rd) fl)) (head (handles done rd));
  tl_mt_ok : sb_ok K (opt_block_restart_interval o) mt
}.

(** ** The builder's invariant *)

Section BuilderOk.
Context {C : Comparator} {COK : ComparatorOk C} {CS : ComparatorShort C}.
Context {K : Compression} {KOK : CompressionOk K}.
Context {W : Type} {WF : WritableFile W} {RW : ReliableWritable W}.
Context (o : Options).

Abbreviation interval := (opt_block_restart_interval o).

Lemma compress_block_unpack raw :
  unpack K (snd (compress_block K o raw)) (fst (compress_block K o raw)) = Some raw.
Proof.
  unfold compress_block. destruct (opt_compression o); [reflexivity| |].
  - destruct (Snappy_Compress raw) as [c|] eqn:E; [|reflexivity]. destruct (_ <? _); [|reflexivity].
    cbn [fst snd unpack]. destruct (snappy_undo raw c E) as [-> ->]. rewrite sz_to_nat, firstn_all. reflexivity.
  - destruct (Zstd_Compress _ raw) as [c|] eqn:E; [|reflexivity]. destruct (_ <? _); [|reflexivity].
    cbn [fst snd unpack]. destruct (zstd_undo _ raw c E) as [-> ->]. rewrite sz_to_nat, firstn_all. reflexivity.
Qed.

Lemma block_trailer_stored contents type : contents ++ block_trailer contents type = stored_block type contents.
Proof.
  unfold block_trailer, stored_block, Value. rewrite !Extend_ref.
  - rewrite crc_ref_app. reflexivity.
  - unfold w32. lia.
  - rewrite Extend_ref by (unfold w32; lia). apply crc_ref_range. unfold w32. lia.
Qed.

(** The state in which the blocks [bs] have been written. *)

Definition Written (r : Rep W) (bs : list sblock) : Prop :=
  r_options r = o /\ r_status r = OK /\ wf_inv (r_file r) /\ wf_contents (r_file r) = sb_file bs /\
  r_offset r = u64 (sz (sb_file bs)).

Lemma WriteRawBlock_ok r bs contents type es : Written r bs ->
  exists file, let b := mkSBlock es type contents in
    WriteRawBlock r contents type =
      (with_file r file (u64 (sz (sb_file (bs ++ [b])))) OK, handle_of bs b) /\
    wf_inv file /\ wf_contents file = sb_file (bs ++ [b]).
Proof.
  intros (Ho & Hs & Hi & Hc & Hoff). unfold WriteRawBlock.
  destruct (wf_append_ok (r_file r) contents Hi) as (f1 & -> & Hi1 & Hc1). cbn [ok OK].
  destruct (wf_append_ok f1 (block_trailer contents type) Hi1) as (f2 & -> & Hi2 & Hc2). cbn [ok OK].
  exists f2. cbv zeta. rewrite sb_file_app, sb_file_one. unfold sb_bytes. cbn [sb_type sb_contents].
  split; [|split; [exact Hi2|]].
  - rewrite Hoff. unfold handle_of. cbn [sb_contents]. f_equal. f_equal.
    rewrite sz_app, stored_block_length. unfold u64, kBlockTrailerSize. rewrite Zplus_mod_idemp_l. reflexivity.
  - rewrite Hc2, Hc1, Hc, <- app_assoc, block_trailer_stored. reflexivity.
Qed.

Lemma WriteBlock_ok r bs iv es : Written r bs ->
  exists b file, sb_entries b = es /\ sb_ok K iv b /\
    WriteBlock K r (add_all iv es) =
      (with_file r file (u64 (sz (sb_file (bs ++ [b])))) OK, BlockBuilder_new, handle_of bs b) /\
    wf_inv file /\ wf_contents file = sb_file (bs ++ [b]).
Proof.
  intros HW. unfold WriteBlock. destruct (BB_Finish (add_all iv es)) as [blk raw] eqn:EF.
  assert (Hraw : raw = build_block iv es) by (unfold build_block; fold (add_all iv es); rewrite EF; reflexivity).
  destruct HW as (Ho & HW). rewrite Ho. pose proof (compress_block_unpack raw) as Hu.
  destruct (compress_block K o raw) as [contents type]. cbn [fst snd] in Hu.
  destruct (WriteRawBlock_ok r bs contents type es (conj Ho HW)) as (file & HWr & Hi & Hc).
  exists (mkSBlock es type contents), file. split; [reflexivity|].
  split; [unfold sb_ok; cbn [sb_type sb_contents sb_entries]; rewrite <- Hraw; exact Hu|]. rewrite HWr. auto.
Qed.

Definition filter_state (bs : list sblock) (keys : list bytes) : option FilterBlockBuilder :=
  match opt_filter_policy o with
  | Some P => Some (fold_left (FBB_block P) (filter_blocks bs ++ [(u64 (sz (sb_file bs)), keys)])
                      FilterBlockBuilder_new)
  | None => None
  end.

(** The index entries cover the blocks [bs]; [rest] are the later entries. *)

Record Indexed (r : Rep W) (idx : list entry) (bs : list sblock) (rest : list entry) : Prop := {
  ix_block : r_index_block r = add_all 1 idx;
  ix_handles : map snd idx = map bh_bytes (handles [] bs);
  ix_sep : SepOk C idx bs rest;
  ix_weight : weight idx <= weight (entries_of bs) + 20 * sz (entries_of bs)
}.

Record TBInv (r : Rep W) (done : list sblock) (idx cur dels future : list entry) : Prop := {
  ti_written : Written r done;
  ti_data : r_data_block r = add_all interval cur;
  ti_dels : r_range_del_block r = add_all interval dels;
  ti_filter : r_filter_block r = filter_state done (map fst cur);
  ti_done_ok : Forall (sb_ok K interval) done;
  ti_nonempty : Forall (fun b => sb_entries b <> []) done;
  ti_last : forall e, list.last (entries_of done ++ cur) = Some e -> r_last_key r = fst e;
  ti_sorted : sorted_entries C (entries_of done ++ cur ++ future);
  ti_pending : if r_pending_index_entry r
    then cur = [] /\ exists done' b, done = done' ++ [b] /\ r_pending_handle r = handle_of done' b /\
           Indexed r idx done' (sb_entries b ++ future)
    else Indexed r idx done (cur ++ future)
}.

Lemma TBInv_new file future : wf_inv file -> wf_contents file = [] -> sorted_entries C future ->
  TBInv (TableBuilder_new o file) [] [] [] [] future.
Proof.
  intros Hi Hc HS. split.
  - repeat (split; [reflexivity || assumption|]). reflexivity.
  - reflexivity.
  - reflexivity.
  - unfold TableBuilder_new, filter_state. cbn. destruct (opt_filter_policy o); reflexivity.
  - constructor.
  - constructor.
  - discriminate.
  - exact HS.
  - cbn. split; [reflexivity|reflexivity| |reflexivity]. intros i k h b H. discriminate.
Qed.

Lemma TB_ok_written r bs : Written r bs -> TB_ok r = true.
Proof. intros (_ & Hs & _). unfold TB_ok. rewrite Hs. reflexivity. Qed.

Lemma filter_state_start done b :
  on_filter o (fun P fb => FBB_StartBlock P fb (u64 (sz (sb_file (done ++ [b]))))) (filter_state done (map fst (sb_entries b)))
  = filter_state (done ++ [b]) [].
Proof.
  unfold on_filter, filter_state. destruct (opt_filter_policy o) as [P|]; [|reflexivity].
  rewrite filter_blocks_snoc, (fold_left_app _ (_ ++ [_]) [_]). reflexivity.
Qed.

Lemma TB_Flush_ok r done idx cur dels future : TBInv r done idx cur dels future ->
  exists done', TBInv (TB_Flush K r) done' idx [] dels future /\ entries_of done' = entries_of done ++ cur.
Proof.
  intros [HW Hd Hr Hf Hok Hne Hl HS Hp]. unfold TB_Flush. rewrite (TB_ok_written r done HW). cbn [negb].
  rewrite Hd, add_all_empty. destruct cur as [|e cur].
  { exists done. rewrite app_nil_r. split; [split; assumption|reflexivity]. }
  destruct (WriteBlock_ok r done interval (e :: cur) HW) as (b & file & Hb & Hbok & -> & Hi & Hc).
  unfold TB_ok. cbn [with_file r_status r_file ok OK]. destruct (wf_flush_ok file Hi) as (file' & -> & Hi' & Hc').
  destruct HW as (Ho & HW). cbn [r_options r_offset r_index_block r_range_del_block r_last_key r_num_entries
    r_closed r_filter_block with_file r_pending_index_entry]. rewrite Ho.
  assert (He : entries_of (done ++ [b]) = entries_of done ++ e :: cur)
    by (rewrite entries_of_app, entries_of_one, Hb; reflexivity).
  exists (done ++ [b]). split; [|exact He]. split; cbn.
  - split; [reflexivity|]. split; [reflexivity|]. split; [exact Hi'|]. split; [exact (eq_trans Hc' Hc)|reflexivity].
  - reflexivity.
  - exact Hr.
  - rewrite Hf. rewrite <- Hb. apply filter_state_start.
  - apply Forall_app. auto.
  - apply Forall_app. split; [exact Hne|]. constructor; [|constructor]. rewrite Hb. discriminate.
  - rewrite app_nil_r, He. exact Hl.
  - rewrite He, <- app_assoc. exact HS.
  - destruct (r_pending_index_entry r); [destruct Hp; discriminate|]. split; [reflexivity|].
    exists done, b. split; [reflexivity|]. split; [reflexivity|]. rewrite Hb.
    destruct Hp as [P1 P2 P3 P4]. split; assumption.
Qed.

Lemma TB_Add_del_ok r done idx cur dels future k v : TBInv r done idx cur dels future ->
  is_range_del k = true -> TBInv (TB_Add C K r k v) done idx cur (dels ++ [(k, v)]) future.
Proof.
  intros [HW Hd Hr Hf Hok Hne Hl HS Hp] Hk. unfold TB_Add. rewrite (TB_ok_written r done HW), Hk. cbn [negb].
  split; cbn; try assumption.
  - rewrite Hr, add_all_snoc. destruct HW as (-> & _). reflexivity.
  - destruct (r_pending_index_entry r).
    + destruct Hp as [Hcur (done' & b & Hdone & Hh & HI)]. split; [exact Hcur|]. exists done', b.
      split; [exact Hdone|]. split; [exact Hh|]. destruct HI as [P1 P2 P3 P4]. split; assumption.
    + destruct Hp as [P1 P2 P3 P4]. split; assumption.
Qed.

(** The index entry of the last block, for a separator [sep]. *)

Lemma SepOk_snoc idx bs b rest sep h : length idx = length bs ->
  SepOk C idx bs (sb_entries b ++ rest) -> cmp_dom sep ->
  (forall e, In e (sb_entries b) -> cmp (fst e) sep <= 0) ->
  (forall e, In e rest -> cmp sep (fst e) < 0) ->
  (forall x e, list.last (sb_entries b) = Some x -> head rest = Some e -> sep = shortest_sep (fst x) (fst e)) ->
  SepOk C (idx ++ [(sep, h)]) (bs ++ [b]) rest.
Proof.
  intros Hlen HSep Hdom Hle Hlt Hsh i k h' b' Hi Hb. apply lookup_app_Some in Hi as [Hi|[Hge Hi]].
  - pose proof (lookup_lt_Some _ _ _ Hi) as Hlt'. rewrite lookup_app_l in Hb by lia.
    destruct (HSep i k h' b' Hi Hb) as (H1 & H2 & H3). split; [exact H1|]. split; [exact H2|].
    rewrite drop_app_le, entries_of_app, entries_of_one, <- app_assoc by lia. exact H3.
  - apply list_lookup_singleton_Some in Hi as [Hi E]. injection E as <- <-.
    assert (i = length bs) as -> by lia. rewrite lookup_app_r, Nat.sub_diag in Hb by lia. injection Hb as <-.
    split; [exact Hdom|]. split; [exact Hle|]. rewrite drop_ge by (rewrite length_app; cbn; lia). auto.
Qed.

Lemma last_split {A} (l : list A) : l <> [] -> exists l' x, l = l' ++ [x].
Proof. intros H. destruct (exists_last H) as (l' & x & ->). eauto. Qed.

Lemma sz_entries_weight (l : list entry) x : weight (l ++ [x]) + 20 * sz (l ++ [x]) >=
  sz (fst x) + 39.
Proof.
  rewrite weight_app, sz_app. cbn [weight]. unfold entry_weight. pose proof (weight_nonneg l).
  pose proof (sz_nonneg l). pose proof (sz_nonneg (snd x)). change (sz [x]) with 1. lia.
Qed.

(** Adding the entry of the pending block to the index. *)

Lemma index_pending r done' b idx rest sep :
  Indexed r idx done' (sb_entries b ++ rest) -> cmp_dom sep ->
  (forall e, In e (sb_entries b) -> cmp (fst e) sep <= 0) ->
  (forall e, In e rest -> cmp sep (fst e) < 0) ->
  (exists l x, sb_entries b = l ++ [x] /\ sz sep <= sz (fst x) /\
     forall e, head rest = Some e -> sep = shortest_sep (fst x) (fst e)) ->
  exists idx', BB_Add 1 (r_index_block r) sep (BH_EncodeTo (handle_of done' b) []) = add_all 1 idx' /\
    map snd idx' = map bh_bytes (handles [] (done' ++ [b])) /\ SepOk C idx' (done' ++ [b]) rest /\
    weight idx' <= weight (entries_of (done' ++ [b])) + 20 * sz (entries_of (done' ++ [b])).
Proof.
  intros [HB HH HSep HWt] Hdom Hle Hlt (l & x & Hl & Hsz & Hsh).
  exists (idx ++ [(sep, bh_bytes (handle_of done' b))]). rewrite BH_EncodeTo_bytes, app_nil_l, HB.
  split; [symmetry; apply add_all_snoc|]. split; [|split].
  - rewrite map_app, HH, handles_snoc, map_app. reflexivity.
  - apply SepOk_snoc; try assumption.
    + rewrite <- (length_map snd), HH, length_map, handles_length. reflexivity.
    + intros x' e Hx'. rewrite Hl, last_snoc in Hx'. injection Hx' as <-. apply Hsh.
  - rewrite entries_of_app, entries_of_one, !weight_app, sz_app, Hl. cbn [weight]. unfold entry_weight at 1.
    cbn [fst snd]. pose proof (sz_entries_weight l x).
    assert (sz (bh_bytes (handle_of done' b)) <= 20)
      by (unfold sz; pose proof (bh_bytes_length (handle_of done' b)); lia).
    rewrite weight_app, sz_app in *. lia.
Qed.

(** The last block of the pending state and its last key. *)

Lemma pending_last r done done' b idx dels future : TBInv r done idx [] dels future ->
  done = done' ++ [b] ->
  exists l x, sb_entries b = l ++ [x] /\ r_last_key r = fst x /\ cmp_dom (fst x) /\
    (forall e, In e (sb_entries b) -> cmp (fst e) (fst x) <= 0) /\
    (forall e, In e future -> cmp (fst x) (fst e) < 0).
Proof.
  intros HI ->. pose proof (ti_nonempty _ _ _ _ _ _ HI) as Hne. apply Forall_app in Hne as [_ Hne].
  apply Forall_inv in Hne. destruct (last_split _ Hne) as (l & x & Hl). exists l, x.
  pose proof (ti_sorted _ _ _ _ _ _ HI) as HS. cbn [app] in HS.
  rewrite entries_of_app, entries_of_one, Hl in HS.
  destruct (sorted_app _ _ HS) as (HS1 & _ & Hlt). destruct (sorted_app _ _ HS1) as (_ & HS2 & _).
  split; [exact Hl|]. split.
  - apply (ti_last _ _ _ _ _ _ HI). rewrite app_nil_r, entries_of_app, entries_of_one, Hl, app_assoc. apply last_snoc.
  - split; [apply (sorted_In_dom _ x HS2), in_or_app; right; left; reflexivity|]. split.
    + intros e He. rewrite Hl in He. exact (sorted_le_last _ _ _ HS2 He).
    + intros e He. apply Hlt; [|exact He]. apply in_or_app. right. apply in_or_app. right. left. reflexivity.
Qed.

(** The index after a point entry has been taken in. *)

Lemma Add_index r done idx cur dels k v future : TBInv r done idx cur dels ((k, v) :: future) ->
  exists idx',
    (if r_pending_index_entry r
     then BB_Add 1 (r_index_block r) (shortest_sep (r_last_key r) k) (BH_EncodeTo (r_pending_handle r) [])
     else r_index_block r) = add_all 1 idx' /\
    map snd idx' = map bh_bytes (handles [] done) /\ SepOk C idx' done (cur ++ (k, v) :: future) /\
    weight idx' <= weight (entries_of done) + 20 * sz (entries_of done).
Proof.
  intros HI. pose proof (ti_pending _ _ _ _ _ _ HI) as Hp. destruct (r_pending_index_entry r).
  - destruct Hp as [-> (done' & b & -> & Hh & HIx)].
    destruct (pending_last r _ done' b idx dels _ HI eq_refl) as (l & x & Hl & Hlk & Hdx & Hle & Hlt).
    pose proof (ti_sorted _ _ _ _ _ _ HI) as HS. cbn [app] in HS. destruct (sorted_app _ _ HS) as (_ & HS2 & _).
    assert (Hdk : cmp_dom k) by (apply (sorted_In_dom _ (k, v) HS2); left; reflexivity).
    assert (Hxk : cmp (fst x) k < 0) by (apply (Hlt (k, v)); left; reflexivity).
    destruct (sep_between (fst x) k Hdx Hdk Hxk) as [Hs1 Hs2]. rewrite Hlk, Hh.
    pose proof (sep_dom (fst x) k Hdx Hdk) as Hds. cbn [app].
    apply (index_pending r done' b idx); [exact HIx|exact Hds| | |].
    + intros e He. apply (cmp_le_trans _ (fst x)); [|exact Hdx|exact Hds|exact (Hle e He)|exact Hs1].
      destruct (sorted_app _ _ HS) as (HS1 & _). apply (sorted_In_dom _ e HS1).
      rewrite entries_of_app, entries_of_one. apply in_or_app. right. exact He.
    + intros e [<-|He]; [exact Hs2|]. pose proof (sorted_In_dom _ e HS2 (or_intror He)) as Hde.
      destruct (sorted_app [(k, v)] future HS2) as (_ & _ & Hlt2).
      exact (cmp_trans _ _ _ Hds Hdk Hde Hs2 (Hlt2 (k, v) e (or_introl eq_refl) He)).
    + exists l, x. split; [exact Hl|]. split; [apply sep_short; assumption|]. intros e He. injection He as <-. reflexivity.
  - exists idx. destruct Hp as [P1 P2 P3 P4]. auto.
Qed.

Lemma TB_Add_point_ok r done idx cur dels k v future : TBInv r done idx cur dels ((k, v) :: future) ->
  is_range_del k = false ->
  exists done' idx' cur', TBInv (TB_Add C K r k v) done' idx' cur' dels future /\
    entries_of done' ++ cur' = entries_of done ++ cur ++ [(k, v)].
Proof.
  intros HI Hk. destruct (Add_index r done idx cur dels k v future HI) as (idx' & Eix & Hh & HSep & Hwt).
  destruct HI as [HW Hd Hr Hf Hok Hne Hl HS Hp]. unfold TB_Add. rewrite (TB_ok_written r done HW), Hk, Eix.
  cbn [negb]. set (r1 := mkRep _ _ _ _ _ _ _ _ _ _ _ _ _).
  assert (HI1 : TBInv r1 done idx' (cur ++ [(k, v)]) dels future).
  { destruct HW as (Ho & HW). subst r1. split; cbn.
    - exact (conj Ho HW).
    - rewrite Hd, Ho, add_all_snoc. reflexivity.
    - exact Hr.
    - rewrite Hf, Ho. unfold on_filter, filter_state. destruct (opt_filter_policy o) as [P|]; [|reflexivity].
      rewrite !fold_left_app, map_app. cbn [fold_left]. unfold FBB_block at 1 3. cbn [fst snd].
      rewrite fold_left_app. reflexivity.
    - exact Hok.
    - exact Hne.
    - intros e He. rewrite app_assoc, last_snoc in He. injection He as <-. reflexivity.
    - rewrite <- app_assoc. exact HS.
    - split; cbn; try assumption; [reflexivity|]. rewrite <- app_assoc. exact HSep. }
  destruct (_ <=? _).
  - destruct (TB_Flush_ok r1 _ _ _ _ _ HI1) as (done' & HI2 & He). exists done', idx', [].
    split; [exact HI2|]. rewrite app_nil_r. exact He.
  - exists done, idx', (cur ++ [(k, v)]). split; [exact HI1|reflexivity].
Qed.

Definition points (es : list entry) : list entry := List.filter (fun e => negb (is_range_del (fst e))) es.

Definition range_dels (es : list entry) : list entry := List.filter (fun e => is_range_del (fst e)) es.

Definition TB_AddAll (r : Rep W) (es : list entry) : Rep W :=
  fold_left (fun r e => TB_Add C K r (fst e) (snd e)) es r.

Lemma TB_AddAll_ok es : forall r done idx cur dels, TBInv r done idx cur dels (points es) ->
  exists done' idx' cur', TBInv (TB_AddAll r es) done' idx' cur' (dels ++ range_dels es) [] /\
    entries_of done' ++ cur' = entries_of done ++ cur ++ points es.
Proof.
  induction es as [|[k v] es IH]; intros r done idx cur dels HI.
  - exists done, idx, cur. cbn. rewrite !app_nil_r. auto.
  - cbn [TB_AddAll fold_left fst snd]. unfold points, range_dels in *. cbn [List.filter fst] in *.
    destruct (is_range_del k) eqn:Hk; cbn [negb] in *.
    + apply (TB_Add_del_ok _ _ _ _ _ _ k v) in HI; [|exact Hk].
      destruct (IH _ _ _ _ _ HI) as (d & i & c & HI' & He). exists d, i, c. rewrite <- app_assoc in HI'. auto.
    + destruct (TB_Add_point_ok _ _ _ _ _ k v _ HI Hk) as (d1 & i1 & c1 & HI1 & He1).
      destruct (IH _ _ _ _ _ HI1) as (d & i & c & HI' & He). exists d, i, c. split; [exact HI'|].
      rewrite He, app_assoc, He1, <- !app_assoc. reflexivity.
Qed.

(** ** Finish *)

(** The fields the last steps leave alone. *)

Definition Same (r r' : Rep W) : Prop :=
  r_index_block r' = r_index_block r /\ r_last_key r' = r_last_key r /\
  r_pending_index_entry r' = r_pending_index_entry r /\ r_pending_handle r' = r_pending_handle r.

Lemma Same_trans r1 r2 r3 : Same r1 r2 -> Same r2 r3 -> Same r1 r3.
Proof. unfold Same. intros (-> & -> & -> & ->) (-> & -> & -> & ->). auto. Qed.

Lemma Finish_range_dels_ok r bs dels : Written r bs -> r_range_del_block r = add_all interval dels ->
  exists r' hd rd, Finish_range_dels K r = (r', hd) /\ Written r' (bs ++ rd) /\ Same r r' /\
    r_filter_block r' = r_filter_block r /\
    ((dels = [] /\ rd = []) \/
     (dels <> [] /\ exists b, rd = [b] /\ sb_entries b = dels /\ sb_ok K interval b /\ hd = handle_of bs b)).
Proof.
  intros HW Hd. unfold Finish_range_dels. rewrite (TB_ok_written r bs HW), Hd, add_all_empty.
  destruct dels as [|e dels]; cbn [negb andb].
  - exists r, BlockHandle_new, []. rewrite app_nil_r. split; [reflexivity|]. split; [exact HW|].
    split; [unfold Same; auto|]. auto.
  - destruct (WriteBlock_ok r bs interval (e :: dels) HW) as (b & file & Hb & Hbok & -> & Hi & Hc).
    eexists _, _, [b]. split; [reflexivity|]. split; [|split; [unfold Same; cbn; auto|]].
    + destruct HW as (Ho & _). split; [exact Ho|]. split; [reflexivity|]. split; [exact Hi|]. split; [exact Hc|reflexivity].
    + split; [reflexivity|]. right. split; [discriminate|]. eauto.
Qed.

Lemma Finish_filter_ok r bs done : Written r bs -> r_filter_block r = filter_state done [] ->
  exists r' hd fl, Finish_filter r = (r', hd) /\ Written r' (bs ++ fl) /\ Same r r' /\
    match opt_filter_policy o with
    | Some P => r_filter_block r' <> None /\ hd = handle_of bs (mkSBlock [] kNoCompression (filter_data P done)) /\
        fl = [mkSBlock [] kNoCompression (filter_data P done)]
    | None => r_filter_block r' = None /\ fl = []
    end.
Proof.
  intros HW Hf. pose proof HW as (Ho & HW'). unfold Finish_filter. rewrite Hf, Ho. unfold filter_state.
  destruct (opt_filter_policy o) as [P|] eqn:EP.
  - rewrite (TB_ok_written r bs HW). destruct (FBB_Finish P _) as [b' contents] eqn:EF.
    assert (Hc : contents = filter_data P done) by (unfold filter_data; rewrite EF; reflexivity).
    destruct (WriteRawBlock_ok r bs contents kNoCompression [] HW) as (file & -> & Hi & Hfc).
    rewrite Hc in *. eexists _, _, _. split; [reflexivity|].
    split; [|split; [unfold Same; cbn; auto|split; [discriminate|split; reflexivity]]].
    split; [exact Ho|]. split; [reflexivity|]. split; [exact Hi|]. split; [exact Hfc|reflexivity].
  - exists r, BlockHandle_new, []. rewrite app_nil_r. split; [reflexivity|]. split; [exact HW|].
    split; [unfold Same; auto|]. split; [|reflexivity]. rewrite Hf. unfold filter_state. rewrite EP. reflexivity.
Qed.

(** The entries of the metaindex block from the handles of the two steps. *)

Lemma meta_block_entries (r : Rep W) (fh rh : option BlockHandle) hd1 hd2 (has : bool) : r_options r = o ->
  (match opt_filter_policy o with
   | Some _ => r_filter_block r <> None /\ fh = Some hd1
   | None => r_filter_block r = None /\ fh = None
   end) ->
  (if has then rh = Some hd2 else rh = None) ->
  (let meta_index_block :=
     match r_filter_block r, opt_filter_policy (r_options r) with
     | Some _, Some P => BB_Add interval BlockBuilder_new (filter_key P) (BH_EncodeTo hd1 [])
     | _, _ => BlockBuilder_new
     end in
   if has then BB_Add interval meta_index_block range_deletions_key (BH_EncodeTo hd2 [])
   else meta_index_block) = add_all interval (meta_entries (opt_filter_policy o) fh rh).
Proof.
  intros Ho Hf Hr. rewrite Ho, !BH_EncodeTo_bytes, !app_nil_l. unfold meta_entries.
  destruct (opt_filter_policy o) as [P|]; destruct Hf as [Hf ->].
  - destruct (r_filter_block r); [|contradiction]. destruct has; subst rh; reflexivity.
  - rewrite Hf. destruct has; subst rh; reflexivity.
Qed.

Lemma Finish_metaindex_ok r bs (has : bool) hd1 hd2 (fh rh : option BlockHandle) : Written r bs ->
  (match opt_filter_policy o with
   | Some _ => r_filter_block r <> None /\ fh = Some hd1
   | None => r_filter_block r = None /\ fh = None
   end) ->
  (if has then rh = Some hd2 else rh = None) ->
  exists r' mt, Finish_metaindex K r has hd1 hd2 = (r', handle_of bs mt) /\ Written r' (bs ++ [mt]) /\
    Same r r' /\ sb_entries mt = meta_entries (opt_filter_policy o) fh rh /\ sb_ok K interval mt.
Proof.
  intros HW Hf Hr. pose proof HW as (Ho & _). unfold Finish_metaindex. rewrite (TB_ok_written r bs HW).
  pose proof (meta_block_entries r fh rh hd1 hd2 has Ho Hf Hr) as E. cbv zeta in E |- *.
  rewrite Ho in E |- *. rewrite E.
  destruct (WriteBlock_ok r bs interval (meta_entries (opt_filter_policy o) fh rh) HW)
    as (mt & file & Hm & Hmok & -> & Hi & Hc).
  exists (with_file r file (u64 (sz (sb_file (bs ++ [mt])))) OK), mt. split; [reflexivity|].
  split; [|split; [unfold Same; cbn; auto|auto]].
  split; [exact Ho|]. split; [reflexivity|]. split; [exact Hi|]. split; [exact Hc|reflexivity].
Qed.

Lemma Finish_index_ok r0 r bs done idx dels : TBInv r0 done idx [] dels [] -> Same r0 r -> Written r bs ->
  exists r' ix, Finish_index C K r = (r', handle_of bs ix) /\ Written r' (bs ++ [ix]) /\ sb_ok K 1 ix /\
    map snd (sb_entries ix) = map bh_bytes (handles [] done) /\ SepOk C (sb_entries ix) done [] /\
    weight (sb_entries ix) <= weight (entries_of done) + 20 * sz (entries_of done).
Proof.
  intros HI (S1 & S2 & S3 & S4) HW. unfold Finish_index. rewrite (TB_ok_written r bs HW), S1, S2, S3, S4.
  assert (Hix : exists idx' lk,
    (if r_pending_index_entry r0
     then (BB_Add 1 (r_index_block r0) (short_succ (r_last_key r0)) (BH_EncodeTo (r_pending_handle r0) []),
           short_succ (r_last_key r0))
     else (r_index_block r0, r_last_key r0)) = (add_all 1 idx', lk) /\
    map snd idx' = map bh_bytes (handles [] done) /\ SepOk C idx' done [] /\
    weight idx' <= weight (entries_of done) + 20 * sz (entries_of done)).
  { pose proof (ti_pending _ _ _ _ _ _ HI) as Hp. destruct (r_pending_index_entry r0).
    - destruct Hp as [_ (done' & b & Hdone & Hh & HIx)].
      destruct (pending_last r0 done done' b idx dels [] HI Hdone) as (l & x & Hl & Hlk & Hdx & Hle & _).
      rewrite Hlk, Hh, Hdone.
      destruct (index_pending r0 done' b idx [] (short_succ (fst x)) HIx) as (idx' & E & H1 & H2 & H3).
      + apply succ_dom, Hdx.
      + intros e He. apply (cmp_le_trans _ (fst x)); [|exact Hdx|apply succ_dom, Hdx|exact (Hle e He)|apply succ_ge, Hdx].
        pose proof (ti_sorted _ _ _ _ _ _ HI) as HS. destruct (sorted_app _ _ HS) as (HS1 & _).
        apply (sorted_In_dom _ e HS1). rewrite Hdone, entries_of_app, entries_of_one. apply in_or_app. right. exact He.
      + intros e [].
      + exists l, x. split; [exact Hl|]. split; [apply succ_short, Hdx|]. discriminate.
      + exists idx', (short_succ (fst x)). rewrite E. auto.
    - destruct Hp as [P1 P2 P3 P4]. exists idx, (r_last_key r0). rewrite P1. auto. }
  destruct Hix as (idx' & lk & -> & H1 & H2 & H3). pose proof HW as (Ho & _).
  destruct (WriteBlock_ok r bs 1 idx' HW) as (ix & file & Hx & Hxok & -> & Hi & Hc). subst idx'.
  eexists _, ix. split; [reflexivity|].
  split; [|auto]. split; [exact Ho|]. split; [reflexivity|]. split; [exact Hi|]. split; [exact Hc|reflexivity].
Qed.

Lemma Finish_footer_ok r bs mh ih : Written r bs ->
  exists file, Finish_footer r mh ih =
      with_file r file (u64 (sz (sb_file bs ++ footer_bytes (mkFooter mh ih)))) OK /\
    wf_inv file /\ wf_contents file = sb_file bs ++ footer_bytes (mkFooter mh ih).
Proof.
  intros HW. pose proof HW as (Ho & Hs & Hi & Hc & Hoff). unfold Finish_footer.
  rewrite (TB_ok_written r bs HW), Footer_EncodeTo_bytes.
  destruct (wf_append_ok (r_file r) (footer_bytes (mkFooter mh ih)) Hi) as (f & -> & Hi' & Hc').
  exists f. cbn [ok OK]. split; [|split; [exact Hi'|rewrite Hc', Hc; reflexivity]].
  rewrite Hoff, sz_app. unfold u64. rewrite Zplus_mod_idemp_l. reflexivity.
Qed.

Lemma TB_Finish_ok r done idx cur dels : TBInv r done idx cur dels [] ->
  exists r' done' rd fl mt ix, TB_Finish C K r = (OK, r') /\ wf_inv (r_file r') /\
    r_offset r' = u64 (sz (wf_contents (r_file r'))) /\
    TableLayout C K o (wf_contents (r_file r')) (entries_of done ++ cur) dels done' rd fl mt ix.
Proof.
  intros HI0. destruct (TB_Flush_ok r _ _ _ _ _ HI0) as (done' & HI & He). unfold TB_Finish.
  set (r0 := TB_close (TB_Flush K r)). assert (HIc : TBInv r0 done' idx [] dels []).
  { destruct HI as [HW Hd Hr Hf Hok Hne Hl HS Hp]. split; try assumption. cbn.
    destruct (r_pending_index_entry (TB_Flush K r)).
    - destruct Hp as [_ (d & b & H1 & H2 & [P1 P2 P3 P4])]. split; [reflexivity|]. exists d, b.
      split; [exact H1|]. split; [exact H2|]. split; assumption.
    - destruct Hp as [P1 P2 P3 P4]. split; assumption. }
  pose proof (ti_written _ _ _ _ _ _ HIc) as HW0. pose proof (ti_dels _ _ _ _ _ _ HIc) as Hd0.
  rewrite Hd0, add_all_empty.
  destruct (Finish_range_dels_ok r0 done' dels HW0 Hd0) as (r1 & hd1 & rd & -> & HW1 & HS1 & Hf1 & Hrd).
  assert (Hf : r_filter_block r1 = filter_state done' []) by (rewrite Hf1; apply (ti_filter _ _ _ _ _ _ HIc)).
  destruct (Finish_filter_ok r1 (done' ++ rd) done' HW1 Hf) as (r2 & hd2 & fl & -> & HW2 & HS2 & Hfl).
  rewrite <- app_assoc in HW2.
  destruct (Finish_metaindex_ok r2 (done' ++ rd ++ fl) (negb match dels with [] => true | _ => false end) hd2 hd1
    (head (handles (done' ++ rd) fl)) (head (handles done' rd)) HW2) as (r3 & mt & -> & HW3 & HS3 & Hmt & Hmtok).
  { destruct (opt_filter_policy o); [destruct Hfl as (H1 & -> & ->); auto|destruct Hfl as (H1 & ->); auto]. }
  { destruct Hrd as [[-> ->]|[Hne (b & -> & _ & _ & ->)]]; [reflexivity|]. destruct dels; [contradiction|reflexivity]. }
  pose proof (Same_trans _ _ _ (Same_trans _ _ _ HS1 HS2) HS3) as HS.
  rewrite <- !app_assoc in HW3.
  destruct (Finish_index_ok r0 r3 (done' ++ rd ++ fl ++ [mt]) done' idx dels HIc HS HW3)
    as (r4 & ix & -> & HW4 & Hxok & Hxh & Hxs & Hxw).
  rewrite <- !app_assoc in HW4. cbn [app] in HW4.
  destruct (Finish_footer_ok r4 (done' ++ rd ++ fl ++ [mt; ix]) (handle_of (done' ++ rd ++ fl) mt)
    (handle_of (done' ++ rd ++ fl ++ [mt]) ix) HW4) as (file & -> & Hfi & Hfc).
  eexists _, done', rd, fl, mt, ix. split; [reflexivity|]. cbn [with_file r_file r_offset]. split; [exact Hfi|].
  split; [rewrite Hfc; reflexivity|]. split; try assumption.
  - exact (ti_done_ok _ _ _ _ _ _ HIc).
  - exact (ti_nonempty _ _ _ _ _ _ HIc).
  - rewrite He in Hxw. exact Hxw.
  - destruct Hrd as [H|[H (b & H1 & H2 & H3 & _)]]; [left; exact H|right; eauto].
  - destruct (opt_filter_policy o); [destruct Hfl as (_ & _ & ->)|destruct Hfl as (_ & ->)]; reflexivity.
Qed.

End BuilderOk.

(** Building a whole table. *)

Definition build_table (C : Comparator) (K : Compression) {W} `{WritableFile W} (o : Options) (file : W)
    (es : list entry) : Status * Rep W :=
  TB_Finish C K (TB_AddAll (TableBuilder_new o file) es).

Lemma sorted_filter C (f : entry -> bool) es : sorted_entries C es -> sorted_entries C (List.filter f es).
Proof.
  intros [HS HD]. split; [apply StronglySorted_filter, HS|]. rewrite List.Forall_forall in *.
  intros e He. apply filter_In in He as [He _]. auto.
Qed.

Lemma build_table_layout C {COK : ComparatorOk C} {CS : ComparatorShort C} K {KOK : CompressionOk K}
    {W} {WF : WritableFile W} {RW : ReliableWritable W} o file es :
  wf_inv file -> wf_contents file = [] -> sorted_entries C (points es) ->
  exists r' done rd fl mt ix, build_table C K o file es = (OK, r') /\ wf_inv (r_file r') /\
    FileSize r' = u64 (sz (wf_contents (r_file r'))) /\
    TableLayout C K o (wf_contents (r_file r')) (points es) (range_dels es) done rd fl mt ix.
Proof.
  intros Hi Hc HS. unfold build_table.
  pose proof (TBInv_new (K := K) o file (points es) Hi Hc HS) as HI.
  destruct (TB_AddAll_ok o es _ _ _ _ _ HI) as (d & i & c & HI' & He). cbn [app] in HI', He.
  destruct (TB_Finish_ok o _ _ _ _ _ HI') as (r' & done & rd & fl & mt & ix & H1 & H2 & H3 & H4).
  exists r', done, rd, fl, mt, ix. change (entries_of []) with (@nil entry) in He. cbn [app] in He. rewrite <- He. auto.
Qed.

(** ** Properties *)

(** A write error is final: once the builder's status is an error, adding
    entries and flushing change nothing, and Finish closes the builder,
    returns that error and leaves the file alone. *)
Theorem builder_error_is_final : forall C K W (WF : WritableFile W) (r : Rep W) key value,
  ok (r_status r) = false ->
  TB_Add C K r key value = r /\ TB_Flush K r = r /\ TB_Finish C K r = (r_status r, TB_close r).
Proof.
  intros C K W WF r key value H.
  assert (Hok : forall r', r_status r' = r_status r -> @TB_ok W r' = false)
    by (intros r' E; unfold TB_ok; rewrite E; exact H).
  split; [unfold TB_Add; rewrite (Hok r eq_refl); reflexivity|].
  assert (HF : TB_Flush K r = r) by (unfold TB_Flush; rewrite (Hok r eq_refl); reflexivity).
  split; [exact HF|]. unfold TB_Finish. rewrite HF.
  pose proof (Hok (TB_close r) eq_refl) as Hc. unfold Finish_range_dels. rewrite Hc. cbn [andb].
  assert (HFf : Finish_filter (TB_close r) = (TB_close r, BlockHandle_new)).
  { unfold Finish_filter. destruct (r_filter_block _); [|reflexivity]. destruct (opt_filter_policy _); [|reflexivity].
    rewrite Hc. reflexivity. }
  rewrite HFf. unfold Finish_metaindex. rewrite Hc. unfold Finish_index. rewrite Hc.
  unfold Finish_footer. rewrite Hc. reflexivity.
Qed.

Lemma builder_error_is_final_witness :
  let o := mkOptions 4096 16 kNoCompression 1 None false in
  let r := with_file (TableBuilder_new o FileState_new) FileState_new 0 (IOError (str "disk") (str "full")) in
  TB_Add BytewiseComparator NoLibraries r (str "k") (str "v") = r /\ TB_Flush NoLibraries r = r /\
  TB_Finish BytewiseComparator NoLibraries r = (IOError (str "disk") (str "full"), TB_close r).
Proof.
  intros o r.
  exact (builder_error_is_final BytewiseComparator NoLibraries FileState _ r (str "k") (str "v") eq_refl).
Defined.
