(* ===== verification/Table.v ===== *)
(** * Reading tables (table/table.cc)

    Opening a table file, its meta blocks, iterating over it and looking up a
    key.  The callback of [InternalGet] is called at most once: the model
    returns the entry it is called with.  The block cache is seen through its
    lookup function at the time of the call; an insertion into it is part of
    the result of [BlockReader]. *)

From S2P Require Import Prelude Coding Compare DbFormat Logging Crc32c Env Filter Iterator Block TwoLevel Format TableBuilder.
#[local] Open Scope Z_scope.
#[local] Open Scope ldb_scope.

(** ** The iterators [Block::NewIterator] returns *)

Section BlockNewIterOps.
Context (C : Comparator).

#[local] Instance BIO : Iterator BlockIter := BlockIteratorOps C.

Definition on_iter (f : BlockIter -> BlockIter) (it : BlockNewIter) : BlockNewIter :=
  match it with IterOf it => IterOf (f it) | it => it end.

Definition of_iter {A} (f : BlockIter -> A) (d : A) (it : BlockNewIter) : A :=
  match it with IterOf it => f it | _ => d end.

Definition BlockNewIterOps : Iterator BlockNewIter := {|
  iValid := of_iter iValid false;
  iSeekToFirst := on_iter iSeekToFirst;
  iSeekToLast := on_iter iSeekToLast;
  iSeek it t := on_iter (fun it => iSeek it t) it;
  iNext := on_iter iNext;
  iPrev := on_iter iPrev;
  iKey := of_iter iKey [];
  iValue := of_iter iValue [];
  iStatus it := match it with IterOf it => iStatus it | ErrorIter s => s | EmptyIter => OK end
|}.

End BlockNewIterOps.

Record ReadOptions := mkReadOptions { ro_verify_checksums : bool; ro_fill_cache : bool }.

Section Table.
Context (K : Compression) {F : Type} {RF : RandomAccessFile F} (scratch : bool).

Record Table := mkTable {
  t_options : Options;
  t_file : F;
  t_cache_id : Z;
  t_filter : option FilterBlockReader;
  t_metaindex_handle : BlockHandle;
  t_index_block : Block;
  t_range_deletions : option RangeDeletionList
}.

(** ** Meta blocks

    They are read with the bytewise comparator. *)

Section Meta.

#[local] Instance MIO : Iterator BlockNewIter := BlockNewIterOps BytewiseComparator.

Definition ReadFilter (o : Options) (file : F) (filter_handle_value : bytes) : option FilterBlockReader :=
  let '(s, filter_handle, _) := BH_DecodeFrom BlockHandle_new filter_handle_value in
  if negb (ok s) then None
  else
    let '(s, block) := ReadBlock K scratch (opt_paranoid_checks o) file filter_handle in
    if negb (ok s) then None else Some (FilterBlockReader_new (bc_data block)).

(** The loop over the entries of the range deletion block. *)

Fixpoint ReadRangeDeletions_loop (fuel : nat) (iter : BlockNewIter) (dels : RangeDeletionList)
  : RangeDeletionList :=
  match fuel with
  | O => dels
  | S fuel =>
      if iValid iter then
        let ikey := iKey iter in
        let end_key := iValue iter in
        let dels :=
          if sz ikey <? 8 then dels
          else
            let seq := ExtractTag ikey >> 8 in
            RDL_Add dels (ExtractUserKey ikey) end_key seq in
        ReadRangeDeletions_loop fuel (iNext iter) dels
      else dels
  end.

Definition ReadRangeDeletions (o : Options) (file : F) (handle_value : bytes)
  : option RangeDeletionList :=
  let '(s, handle, _) := BH_DecodeFrom BlockHandle_new handle_value in
  if negb (ok s) then None
  else
    let '(s, block) := ReadBlock K scratch (opt_paranoid_checks o) file handle in
    if negb (ok s) then None
    else
      let iter := iSeekToFirst (Block_NewIterator (Block_new (bc_data block))) in
      Some (ReadRangeDeletions_loop (S (length (bc_data block))) iter []).

Definition ReadMeta (t : Table) (footer : Footer) : Table :=
  let o := t_options t in
  let '(s, contents) := ReadBlock K scratch (opt_paranoid_checks o) (t_file t) (metaindex_handle footer) in
  if negb (ok s) then t
  else
    let iter := Block_NewIterator (Block_new (bc_data contents)) in
    let '(iter, filter) :=
      match opt_filter_policy o with
      | Some P =>
          let iter := iSeek iter (filter_key P) in
          (iter, if iValid iter && Slice_eq (iKey iter) (filter_key P)
                 then ReadFilter o (t_file t) (iValue iter) else t_filter t)
      | None => (iter, t_filter t)
      end in
    let iter := iSeek iter range_deletions_key in
    let range_deletions :=
      if iValid iter && Slice_eq (iKey iter) range_deletions_key
      then match ReadRangeDeletions o (t_file t) (iValue iter) with
           | Some dels => Some dels
           | None => t_range_deletions t
           end
      else t_range_deletions t in
    mkTable o (t_file t) (t_cache_id t) filter (t_metaindex_handle t) (t_index_block t) range_deletions.

End Meta.

(** ** Opening *)

Definition Table_Open (options : Options) (cache_id : Z) (file : F) (size : Z) : Status * option Table :=
  if size <? kFooterEncodedLength then
    (Corruption (str "file is too short to be an sstable") [], None)
  else
    let '(s, footer_input) := rf_Read file (size - kFooterEncodedLength) kFooterEncodedLength in
    if negb (ok s) then (s, None)
    else
      let '(s, footer, _) := Footer_DecodeFrom Footer_new footer_input in
      if negb (ok s) then (s, None)
      else
        let '(s, contents) :=
          ReadBlock K scratch (opt_paranoid_checks options) file (index_handle footer) in
        if ok s then
          let t := mkTable options file cache_id None (metaindex_handle footer)
                     (Block_new (bc_data contents)) None in
          (s, Some (ReadMeta t footer))
        else (s, None).

(** ** Blocks *)

Definition cache_key (t : Table) (handle : BlockHandle) : bytes :=
  EncodeFixed64 (t_cache_id t) ++ EncodeFixed64 (bh_offset handle).

Section Cache.
Context (C : Comparator).

#[local] Instance BNIO : Iterator BlockNewIter := BlockNewIterOps C.

(** Where the iterator over the index block can get to, and the handles it yields there. *)

Inductive index_position (t : Table) : BlockNewIter -> Prop :=
| ip_new : index_position t (Block_NewIterator (t_index_block t))
| ip_first it : index_position t it -> index_position t (iSeekToFirst it)
| ip_last it : index_position t it -> index_position t (iSeekToLast it)
| ip_seek it target : index_position t it -> cmp_dom target -> index_position t (iSeek it target)
| ip_next it : index_position t it -> iValid it = true -> index_position t (iNext it)
| ip_prev it : index_position t it -> iValid it = true -> index_position t (iPrev it).

Definition index_value (t : Table) (v : bytes) : Prop := exists it, index_position t it /\ iValid it = true /\ iValue it = v.

Definition block_handle_of (t : Table) (h : BlockHandle) : Prop := exists v rest, index_value t v /\ BH_DecodeFrom BlockHandle_new v = (OK, h, rest).

Context (block_cache : option (bytes -> option Block)).

Definition BlockReader (t : Table) (options : ReadOptions) (index_value : bytes)
  : BlockNewIter * option (bytes * Block) :=
  let '(s, handle, _) := BH_DecodeFrom BlockHandle_new index_value in
  if negb (ok s) then (ErrorIter s, None)
  else
    let key := cache_key t handle in
    match match block_cache with Some lookup => lookup key | None => None end with
    | Some block => (Block_NewIterator block, None)
    | None =>
        let '(s, contents) := ReadBlock K scratch (ro_verify_checksums options) (t_file t) handle in
        if ok s then
          let block := Block_new (bc_data contents) in
          (Block_NewIterator block,
           match block_cache with
           | Some _ => if bc_cachable contents && ro_fill_cache options then Some (key, block) else None
           | None => None
           end)
        else (ErrorIter s, None)
    end.

Definition block_function (t : Table) (options : ReadOptions) (index_value : bytes) : BlockNewIter :=
  fst (BlockReader t options index_value).

(** The iterator over the table; the loops of the two-level iterator run at
    most once per byte of the index block, which has fewer entries. *)

Definition Table_iter_fuel (t : Table) : nat := length (blk_data (t_index_block t)).

Definition Table_NewIterator (t : Table) : TwoLevelIterator BlockNewIter BlockNewIter :=
  NewTwoLevelIterator (Block_NewIterator (t_index_block t)).

Definition TableIteratorOps (t : Table) (options : ReadOptions)
  : Iterator (TwoLevelIterator BlockNewIter BlockNewIter) :=
  @TwoLevelOps _ _ BNIO BNIO (block_function t options) (Table_iter_fuel t).

(** ** Lookup *)

Definition filter_excludes (t : Table) (handle_value k : bytes) : bool :=
  match t_filter t, opt_filter_policy (t_options t) with
  | Some filter, Some P =>
      let '(s, handle, _) := BH_DecodeFrom BlockHandle_new handle_value in
      ok s && negb (FBR_KeyMayMatch P filter (bh_offset handle) k)
  | _, _ => false
  end.

Definition is_deleted (t : Table) (user_key : bytes) (found_seq read_seq : Z) : bool :=
  match t_range_deletions t with
  | Some dels => RDL_IsDeleted dels user_key found_seq read_seq
  | None => false
  end.

(** The search of the block: the status, whether a point entry for the user
    key was found, and the entry handed to the callback. *)

Definition InternalGet_block (t : Table) (options : ReadOptions) (handle_value k : bytes)
  : Status * bool * option entry :=
  let user_key := ExtractUserKey k in
  let read_seq := ExtractTag k >> 8 in
  let block_iter := iSeek (block_function t options handle_value) k in
  let '(s, found, saved) :=
    if iValid block_iter && Slice_eq (ExtractUserKey (iKey block_iter)) user_key then
      let found_seq := ExtractTag (iKey block_iter) >> 8 in
      if is_deleted t (ExtractUserKey (iKey block_iter)) found_seq read_seq
      then (NotFound [] [], true, None)
      else (OK, true, Some (iKey block_iter, iValue block_iter))
    else (OK, false, None) in
  (if ok s then iStatus block_iter else s, found, saved).

Definition InternalGet (t : Table) (options : ReadOptions) (k : bytes) : Status * option entry :=
  let user_key := ExtractUserKey k in
  let read_seq := ExtractTag k >> 8 in
  let iiter := iSeek (Block_NewIterator (t_index_block t)) k in
  let '(s, point_key_found, saved) :=
    if iValid iiter then
      if filter_excludes t (iValue iiter) k then (OK, false, None)
      else InternalGet_block t options (iValue iiter) k
    else (OK, false, None) in
  let s := if ok s then iStatus iiter else s in
  let s := if negb point_key_found && ok s && is_deleted t user_key 0 read_seq
           then NotFound [] [] else s in
  (s, saved).

Definition ApproximateOffsetOf (t : Table) (key : bytes) : Z :=
  let index_iter := iSeek (Block_NewIterator (t_index_block t)) key in
  if iValid index_iter then
    let '(s, handle, _) := BH_DecodeFrom BlockHandle_new (iValue index_iter) in
    if ok s then bh_offset handle else bh_offset (t_metaindex_handle t)
  else bh_offset (t_metaindex_handle t).

End Cache.

Definition GetRangeDeletions (t : Table) : option RangeDeletionList := t_range_deletions t.

End Table.

Arguments Table : clear implicits.

(** ** A run *)

Definition run_options : Options :=
  mkOptions 40 2 kNoCompression 1
    (Some (InternalFilterPolicy (BloomPolicy (BloomFilterPolicy_new 10)))) true.

Definition run_entries : list entry :=
  [(mkInternalKey (str "a") 5 kTypeValue, str "1");
   (mkInternalKey (str "b") 9 kTypeRangeDeletion, str "d");
   (mkInternalKey (str "b") 4 kTypeValue, str "2");
   (mkInternalKey (str "c") 12 kTypeValue, str "3");
   (mkInternalKey (str "e") 3 kTypeDeletion, []);
   (mkInternalKey (str "f") 2 kTypeValue, str "5")].

Definition run_file : FileState :=
  r_file (snd (build_table (InternalKeyComparator BytewiseComparator) NoLibraries
                 run_options FileState_new run_entries)).

Definition run_get (u : bytes) (s : Z) : option (Status * option entry) :=
  let ICmp := InternalKeyComparator BytewiseComparator in
  match Table_Open NoLibraries true run_options 1 run_file (FS_Size run_file) with
  | (_, Some t) =>
      Some (InternalGet NoLibraries true ICmp None t (mkReadOptions true true)
              (internal_key (MakeLookupKey u s)))
  | _ => None
  end.

Example table_run :
  run_get (str "a") 7 = Some (OK, Some (mkInternalKey (str "a") 5 kTypeValue, str "1")) /\
  run_get (str "a") 4 = Some (OK, None) /\
  run_get (str "b") 10 = Some (NotFound [] [], None) /\
  run_get (str "b") 8 = Some (OK, Some (mkInternalKey (str "b") 4 kTypeValue, str "2")) /\
  run_get (str "c") 12 = Some (OK, Some (mkInternalKey (str "c") 12 kTypeValue, str "3")) /\
  run_get (str "bb") 10 = Some (NotFound [] [], None) /\
  run_get (str "z") 10 = Some (OK, None).
Proof. vm_compute. repeat split. Qed.

(** ** Iterators of blocks as cursors *)

Section Lift.
Context {C : Comparator} {COK : ComparatorOk C}.

#[local] Instance LBIO : Iterator BlockIter := BlockIteratorOps C.
#[local] Instance LBNIO : Iterator BlockNewIter := BlockNewIterOps C.

Lemma lift_cursor es (Pos : nat -> BlockIter -> Prop) : Cursor C es Pos ->
  Cursor C es (fun i x => exists it, x = IterOf it /\ Pos i it).
Proof.
  intros HC. split; cbn.
  - intros i x (it & -> & HP). exact (cur_range _ _ _ HC i it HP).
  - intros i x (it & -> & HP). exact (cur_valid _ _ _ HC i it HP).
  - intros i x k v (it & -> & HP). exact (cur_entry _ _ _ HC i it k v HP).
  - intros i x (it & -> & HP). exact (cur_status _ _ _ HC i it HP).
  - intros i x (it & -> & HP). eexists. split; [reflexivity|]. exact (cur_first _ _ _ HC i it HP).
  - intros i x (it & -> & HP). eexists. split; [reflexivity|]. exact (cur_last _ _ _ HC i it HP).
  - intros i x (it & -> & HP) Hi. eexists. split; [reflexivity|]. exact (cur_next _ _ _ HC i it HP Hi).
  - intros i x (it & -> & HP) Hi. eexists. split; [reflexivity|]. exact (cur_prev _ _ _ HC i it HP Hi).
  - intros i x t (it & -> & HP) Ht. eexists. split; [reflexivity|]. exact (cur_seek _ _ _ HC i it t HP Ht).
Qed.

Lemma weight_small es : weight es < 2 ^ 32 -> Forall small_entry es.
Proof.
  induction es as [|e es IH]; intros H; constructor; cbn [weight] in H; pose proof (weight_nonneg es);
    pose proof (sz_nonneg (fst e)); pose proof (sz_nonneg (snd e)); unfold entry_weight in H.
  - split; lia.
  - apply IH. lia.
Qed.

Lemma open_block interval es : 1 <= interval -> sorted_entries C es -> 8 + weight es < 2 ^ 32 ->
  AnyPos C es (length es) (Block_NewIterator (Block_new (build_block interval es))).
Proof.
  intros Hi HS Hw. pose proof (build_block_size interval es) as [_ Hsz].
  destruct (build_block_cursor C COK interval es Hi (weight_small es ltac:(lia)) HS ltac:(lia))
    as (it & Pos & -> & HP & HC).
  exists (fun i x => exists it, x = IterOf it /\ Pos i it). split; [exact (lift_cursor es Pos HC)|]. eauto.
Qed.

(** A seek for a key that is present, and for one that is not. *)

Lemma seek_present es i (it : BlockNewIter) t v : sorted_entries C es -> AnyPos C es i it -> cmp_dom t ->
  In (t, v) es -> iValid (iSeek it t) = true /\ iKey (iSeek it t) = t /\ iValue (iSeek it t) = v.
Proof.
  intros HS HP Ht Hin. pose proof (cur_seek _ _ _ (AnyPos_cursor C es) i it t HP Ht) as HP'.
  apply list_elem_of_In, list_elem_of_lookup in Hin as [j Hj].
  rewrite (lower_bound_self es j (t, v) HS Hj : lower_bound C es t = j) in HP'.
  rewrite (cur_valid _ _ _ (AnyPos_cursor C es) j _ HP'). split.
  - apply Nat.ltb_lt. exact (lookup_lt_Some _ _ _ Hj).
  - exact (cur_entry _ _ _ (AnyPos_cursor C es) j _ t v HP' Hj).
Qed.

Lemma seek_absent es i (it : BlockNewIter) t : AnyPos C es i it -> cmp_dom t ->
  (forall v, ~ In (t, v) es) -> iValid (iSeek it t) && Slice_eq (iKey (iSeek it t)) t = false.
Proof.
  intros HP Ht Hno. pose proof (cur_seek _ _ _ (AnyPos_cursor C es) i it t HP Ht) as HP'.
  rewrite (cur_valid _ _ _ (AnyPos_cursor C es) _ _ HP').
  destruct (Nat.ltb_spec (lower_bound C es t) (length es)) as [Hlt|]; [|reflexivity].
  destruct (lookup_lt_is_Some_2 es _ Hlt) as [[k v] Hj].
  destruct (cur_entry _ _ _ (AnyPos_cursor C es) _ _ k v HP' Hj) as [-> _]. cbn [andb].
  destruct (Slice_eq k t) eqn:E; [|reflexivity]. apply Slice_eq_spec in E. subst k. exfalso.
  apply (Hno v). apply list_elem_of_In, list_elem_of_lookup. eauto.
Qed.

(** The loop over the range deletion block, whatever the comparator. *)

Definition to_range_del (e : entry) : RangeDeletion :=
  mkRangeDel (ExtractUserKey (fst e)) (snd e) (ExtractTag (fst e) >> 8).

Lemma ReadRangeDeletions_loop_ok es : Forall (fun e => 8 <= sz (fst e)) es ->
  forall fuel i (it : BlockNewIter) acc, AnyPos C es i it -> (length es - i < fuel)%nat ->
  ReadRangeDeletions_loop fuel it acc = acc ++ map to_range_del (drop i es).
Proof.
  intros H8. induction fuel as [|fuel IH]; intros i it acc HP Hf; [lia|]. cbn [ReadRangeDeletions_loop].
  pose proof (cur_valid _ _ _ (AnyPos_cursor C es) i it HP) as HV.
  change (@iValid _ MIO it) with (@iValid _ LBNIO it). change (@iKey _ MIO it) with (@iKey _ LBNIO it).
  change (@iValue _ MIO it) with (@iValue _ LBNIO it). change (@iNext _ MIO it) with (@iNext _ LBNIO it).
  rewrite HV. destruct (Nat.ltb_spec i (length es)) as [Hlt|Hge].
  - destruct (lookup_lt_is_Some_2 es i Hlt) as [[k v] Hj].
    destruct (cur_entry _ _ _ (AnyPos_cursor C es) i it k v HP Hj) as [-> ->].
    pose proof (proj1 (list.Forall_lookup _ _) H8 i _ Hj) as H8'. cbn [fst] in H8'.
    rewrite (proj2 (Z.ltb_ge _ _)) by lia.
    rewrite (IH (S i)); [|exact (cur_next _ _ _ (AnyPos_cursor C es) i it HP Hlt)|lia].
    rewrite (drop_S _ _ _ Hj). unfold RDL_Add. rewrite <- app_assoc. reflexivity.
  - rewrite drop_ge by exact Hge. cbn. rewrite app_nil_r. reflexivity.
Qed.

End Lift.

(** ** Reading back a finished table *)

Section TableOk.
Context {C : Comparator} {COK : ComparatorOk C}.
Context {K : Compression} {F : Type} {RF : RandomAccessFile F} {RR : ReliableRandom F} (scratch : bool).
Context (o : Options) (file : F) (pts dels : list entry) (done rd fl : list sblock) (mt ix : sblock).
Hypothesis Hinv : rf_inv file.
Hypothesis HL : TableLayout C K o (rf_contents file) pts dels done rd fl mt ix.
Hypothesis Hsize : sz (rf_contents file) < 2 ^ 32.
Hypothesis Hinterval : 1 <= opt_block_restart_interval o.
Hypothesis Hpts : sorted_entries C pts.
Hypothesis Hdels : sorted_entries C dels.
Hypothesis Hdels8 : Forall (fun e => 8 <= sz (fst e)) dels.
Hypothesis Hwpts : 8 + weight pts + 20 * sz pts < 2 ^ 32.
Hypothesis Hwdels : 8 + weight dels < 2 ^ 32.
Hypothesis Hpolicy : match opt_filter_policy o with Some P => sz (@fp_Name P) < 2 ^ 31 | None => True end.

#[local] Instance TBNIO : Iterator BlockNewIter := BlockNewIterOps C.

Abbreviation interval := (opt_block_restart_interval o).
Abbreviation all := (done ++ rd ++ fl ++ [mt; ix]).
Abbreviation footer := (mkFooter (handle_of (done ++ rd ++ fl) mt) (handle_of (done ++ rd ++ fl ++ [mt]) ix)).

(** Every prefix of the blocks is inside the file. *)

Lemma all_size bs1 b bs2 : all = bs1 ++ b :: bs2 ->
  sz (sb_file bs1) + sz (sb_contents b) + 5 <= sz (rf_contents file) /\ 0 <= sz (sb_file bs1).
Proof.
  intros E. rewrite (tl_file _ _ _ _ _ _ _ _ _ _ _ HL), E, sb_file_app, !sz_app.
  change (b :: bs2) with ([b] ++ bs2). rewrite sb_file_app, sz_app, sb_file_one. unfold sb_bytes.
  rewrite stored_block_length. pose proof (sz_nonneg (sb_file bs1)). pose proof (sz_nonneg (sb_file bs2)).
  pose proof (sz_nonneg (footer_bytes footer)). lia.
Qed.

Lemma handle_small bs1 b bs2 : all = bs1 ++ b :: bs2 ->
  handle_of bs1 b = mkBlockHandle (sz (sb_file bs1)) (sz (sb_contents b)) /\ bh_wf (handle_of bs1 b).
Proof.
  intros E. destruct (all_size bs1 b bs2 E) as [H1 H2]. pose proof (sz_nonneg (sb_contents b)).
  unfold handle_of, bh_wf. cbn [bh_offset bh_size]. rewrite u64_small by lia. split; [reflexivity|]. lia.
Qed.

Lemma read_at verify bs1 b bs2 raw : all = bs1 ++ b :: bs2 ->
  unpack K (sb_type b) (sb_contents b) = Some raw ->
  exists bc, ReadBlock K scratch verify file (handle_of bs1 b) = (OK, bc) /\ bc_data bc = raw.
Proof.
  intros E Hu. destruct (handle_small bs1 b bs2 E) as [-> _]. destruct (all_size bs1 b bs2 E) as [H1 H2].
  apply (ReadBlock_stored scratch verify file _ (sb_type b) _ (sb_file bs2 ++ footer_bytes footer));
    [exact Hinv| |lia|exact Hu].
  rewrite (tl_file _ _ _ _ _ _ _ _ _ _ _ HL), E, sb_file_app. change (b :: bs2) with ([b] ++ bs2).
  rewrite sb_file_app, sb_file_one, <- !app_assoc. reflexivity.
Qed.

Lemma split_done i b : done !! i = Some b ->
  all = take i done ++ b :: (drop (S i) done ++ rd ++ fl ++ [mt; ix]).
Proof. intros H. rewrite <- (take_drop_middle _ _ _ H) at 1. rewrite <- app_assoc. reflexivity. Qed.

Lemma index_length : length (sb_entries ix) = length done.
Proof.
  rewrite <- (length_map snd), (tl_idx_handles _ _ _ _ _ _ _ _ _ _ _ HL), length_map, handles_length. reflexivity.
Qed.

(** The index entry of a data block. *)

Lemma index_entry i k h : sb_entries ix !! i = Some (k, h) ->
  exists b, done !! i = Some b /\ h = bh_bytes (handle_of (take i done) b).
Proof.
  intros H. assert (Hh : map snd (sb_entries ix) !! i = Some h) by (rewrite list_lookup_fmap, H; reflexivity).
  rewrite (tl_idx_handles _ _ _ _ _ _ _ _ _ _ _ HL), list_lookup_fmap in Hh.
  destruct (handles [] done !! i) as [h'|] eqn:E; [|discriminate]. injection Hh as <-.
  destruct (handles_lookup done [] i h' E) as (b & Hb & ->). exists b. split; [exact Hb|reflexivity].
Qed.

Lemma done_sorted i b : done !! i = Some b -> sorted_entries C (sb_entries b).
Proof.
  intros H. pose proof Hpts as HS. rewrite <- (tl_pts _ _ _ _ _ _ _ _ _ _ _ HL) in HS.
  rewrite <- (take_drop_middle _ _ _ H) in HS. rewrite entries_of_app in HS.
  change (b :: drop (S i) done) with ([b] ++ drop (S i) done) in HS. rewrite entries_of_app, entries_of_one in HS.
  destruct (sorted_app _ _ HS) as (_ & HS2 & _). exact (proj1 (sorted_app _ _ HS2)).
Qed.

Lemma done_weight i b : done !! i = Some b -> weight (sb_entries b) <= weight pts.
Proof.
  intros H. rewrite <- (tl_pts _ _ _ _ _ _ _ _ _ _ _ HL), <- (take_drop_middle _ _ _ H), entries_of_app.
  change (b :: drop (S i) done) with ([b] ++ drop (S i) done). rewrite entries_of_app, entries_of_one, !weight_app.
  pose proof (weight_nonneg (entries_of (take i done))). pose proof (weight_nonneg (entries_of (drop (S i) done))). lia.
Qed.

Lemma index_weight : 8 + weight (sb_entries ix) < 2 ^ 32.
Proof. pose proof (tl_idx_weight _ _ _ _ _ _ _ _ _ _ _ HL). lia. Qed.

Lemma in_entries_of e bs i b : bs !! i = Some b -> In e (sb_entries b) -> In e (entries_of bs).
Proof.
  intros Hb He. unfold entries_of. apply in_concat. exists (sb_entries b). split; [|exact He].
  apply in_map. apply list_elem_of_In, list_elem_of_lookup. eauto.
Qed.

Lemma index_sorted : sorted_entries C (sb_entries ix).
Proof.
  pose proof (tl_idx_sep _ _ _ _ _ _ _ _ _ _ _ HL) as HSep. split.
  - apply StronglySorted_of_lookup. intros i j [k1 h1] [k2 h2] Hij H1 H2. unfold key_lt. cbn [fst].
    destruct (index_entry i k1 h1 H1) as (b1 & Hb1 & _). destruct (index_entry j k2 h2 H2) as (b2 & Hb2 & _).
    destruct (HSep i k1 h1 b1 H1 Hb1) as (D1 & _ & L1 & _). destruct (HSep j k2 h2 b2 H2 Hb2) as (D2 & U2 & _).
    pose proof (proj1 (list.Forall_lookup _ _) (tl_nonempty _ _ _ _ _ _ _ _ _ _ _ HL) j b2 Hb2) as Hne.
    destruct (sb_entries b2) as [|e es] eqn:Ee; [contradiction|].
    assert (He : In e (e :: es)) by (left; reflexivity).
    assert (De : cmp_dom (fst e)) by (apply (sorted_In_dom _ e (done_sorted j b2 Hb2)); rewrite Ee; exact He).
    apply (cmp_lt_le_trans _ (fst e)); [exact D1|exact De|exact D2| |exact (U2 e He)].
    apply L1. rewrite app_nil_r. apply (in_entries_of e _ (j - S i) b2); [|rewrite Ee; exact He].
    rewrite lookup_drop. replace (S i + (j - S i))%nat with j by lia. exact Hb2.
  - apply list.Forall_lookup. intros i [k h] He. destruct (index_entry i k h He) as (b & Hb & _).
    exact (proj1 (HSep i k h b He Hb)).
Qed.

(** *** Opening *)

Definition opened_filter : option FilterBlockReader :=
  match opt_filter_policy o with
  | Some P => Some (FilterBlockReader_new (filter_data P done))
  | None => None
  end.

Definition opened_dels : option RangeDeletionList :=
  match dels with [] => None | _ => Some (map to_range_del dels) end.

Definition opened (cache_id : Z) : Table F :=
  mkTable o file cache_id opened_filter (handle_of (done ++ rd ++ fl) mt)
    (Block_new (build_block 1 (sb_entries ix))) opened_dels.

Abbreviation meta := (sb_entries mt).

Lemma filter_key_lt P : lex (filter_key P) range_deletions_key < 0.
Proof. reflexivity. Qed.

Lemma meta_sorted : sorted_entries BytewiseComparator meta /\ 8 + weight meta < 2 ^ 32.
Proof.
  rewrite (tl_mt _ _ _ _ _ _ _ _ _ _ _ HL). unfold meta_entries.
  set (fe := match opt_filter_policy o, head (handles (done ++ rd) fl) with
             | Some P, Some h => [(filter_key P, bh_bytes h)] | _, _ => [] end).
  set (re := match head (handles done rd) with
             | Some h => [(range_deletions_key, bh_bytes h)] | None => [] end).
  assert (Hf : fe = [] \/ exists P h, opt_filter_policy o = Some P /\ fe = [(filter_key P, bh_bytes h)]).
  { unfold fe. destruct (opt_filter_policy o) as [P|]; [|auto]. destruct (head _); eauto. }
  assert (Hr : re = [] \/ exists h, re = [(range_deletions_key, bh_bytes h)])
    by (unfold re; destruct (head (handles done rd)) as [h|]; [right; exists h; reflexivity|left; reflexivity]).
  assert (Hk : forall P h, opt_filter_policy o = Some P -> entry_weight (filter_key P, bh_bytes h) < 2 ^ 31 + 50).
  { intros P h EP. rewrite EP in Hpolicy. unfold entry_weight, filter_key. cbn [fst snd]. rewrite sz_app.
    change (sz (str "filter.")) with 7. unfold sz at 2. pose proof (bh_bytes_length h). lia. }
  assert (Hk2 : forall h, entry_weight (range_deletions_key, bh_bytes h) < 70).
  { intros h. unfold entry_weight. cbn [fst snd]. change (sz range_deletions_key) with 23. unfold sz.
    pose proof (bh_bytes_length h). lia. }
  clearbody fe re.
  destruct Hf as [->|(P & h & EP & ->)], Hr as [->|(h' & ->)]; cbn [app weight]; (split; [split|]).
  all: try solve [repeat constructor].
  all: try (specialize (Hk _ h EP)); try (specialize (Hk2 h')); try lia.
  constructor; [repeat constructor|]. constructor; [|constructor].
  change (Slice_compare (filter_key P) range_deletions_key < 0). rewrite Slice_compare_lex. apply filter_key_lt.
Qed.

Lemma meta_filter P : opt_filter_policy o = Some P ->
  let b := mkSBlock [] kNoCompression (filter_data P done) in
  fl = [b] /\ In (filter_key P, bh_bytes (handle_of (done ++ rd) b)) meta.
Proof.
  intros EP. pose proof (tl_fl _ _ _ _ _ _ _ _ _ _ _ HL) as Hfl. rewrite EP in Hfl. split; [exact Hfl|].
  rewrite (tl_mt _ _ _ _ _ _ _ _ _ _ _ HL), EP, Hfl. left. reflexivity.
Qed.

Lemma meta_dels : (dels = [] /\ forall v, ~ In (range_deletions_key, v) meta) \/
  (dels <> [] /\ exists b, rd = [b] /\ sb_entries b = dels /\ sb_ok K interval b /\
     In (range_deletions_key, bh_bytes (handle_of done b)) meta).
Proof.
  rewrite (tl_mt _ _ _ _ _ _ _ _ _ _ _ HL). unfold meta_entries.
  destruct (tl_rd _ _ _ _ _ _ _ _ _ _ _ HL) as [[-> ->]|[Hne (b & -> & Hb & Hok)]]; [left|right].
  - split; [reflexivity|]. intros v Hin. cbn [handles head] in Hin. rewrite app_nil_r in Hin.
    destruct (opt_filter_policy o) as [P|]; [|contradiction]. destruct (head _) as [h|]; [|contradiction].
    destruct Hin as [E|[]]. assert (E1 : filter_key P = range_deletions_key) by congruence.
    pose proof (filter_key_lt P) as Hlt. rewrite E1, (proj2 (lex_eq _ _) eq_refl) in Hlt. lia.
  - split; [exact Hne|]. exists b. split; [reflexivity|]. split; [exact Hb|]. split; [exact Hok|].
    apply in_or_app. right. left. reflexivity.
Qed.

Lemma ReadFilter_ok P : opt_filter_policy o = Some P ->
  ReadFilter K scratch o file (bh_bytes (handle_of (done ++ rd) (mkSBlock [] kNoCompression (filter_data P done))))
  = opened_filter.
Proof.
  intros EP. destruct (meta_filter P EP) as [Hfl _]. unfold ReadFilter, opened_filter. rewrite EP.
  set (b := mkSBlock _ _ _) in *.
  assert (E : all = (done ++ rd) ++ b :: [mt; ix]) by (rewrite Hfl, <- app_assoc; reflexivity).
  destruct (handle_small _ _ _ E) as [_ Hwf].
  rewrite <- (app_nil_r (bh_bytes _)), BH_decode by exact Hwf. cbn [ok OK negb].
  destruct (read_at (opt_paranoid_checks o) _ _ _ (filter_data P done) E eq_refl) as (bc & -> & Hd).
  cbn [ok OK negb]. rewrite Hd. reflexivity.
Qed.

Lemma ReadRangeDeletions_ok b : rd = [b] -> sb_entries b = dels -> sb_ok K interval b ->
  ReadRangeDeletions K scratch o file (bh_bytes (handle_of done b)) = Some (map to_range_del dels).
Proof.
  intros Hrd Hb Hok. unfold ReadRangeDeletions.
  assert (E : all = done ++ b :: (fl ++ [mt; ix])) by (rewrite Hrd; reflexivity).
  destruct (handle_small _ _ _ E) as [_ Hwf].
  rewrite <- (app_nil_r (bh_bytes _)), BH_decode by exact Hwf. cbn [ok OK negb].
  destruct (read_at (opt_paranoid_checks o) _ _ _ _ E Hok) as (bc & -> & Hd). cbn [ok OK negb].
  rewrite Hd, Hb. pose proof (open_block (C := C) interval dels Hinterval Hdels Hwdels) as HP.
  f_equal. change (@iSeekToFirst _ MIO) with (@iSeekToFirst _ TBNIO).
  rewrite (ReadRangeDeletions_loop_ok dels Hdels8 _ O); [reflexivity| |].
  - exact (cur_first _ _ _ (AnyPos_cursor C dels) _ _ HP).
  - pose proof (build_block_size interval dels). lia.
Qed.

Lemma ReadMeta_ok cache_id t0 :
  t0 = mkTable o file cache_id None (handle_of (done ++ rd ++ fl) mt)
         (Block_new (build_block 1 (sb_entries ix))) None ->
  ReadMeta K scratch t0 footer = opened cache_id.
Proof.
  intros ->. unfold ReadMeta. cbn [t_options t_file t_filter t_range_deletions t_cache_id t_metaindex_handle
    t_index_block metaindex_handle].
  assert (E : all = (done ++ rd ++ fl) ++ mt :: [ix]) by (rewrite <- !app_assoc; reflexivity).
  destruct (read_at (opt_paranoid_checks o) _ _ _ _ E (tl_mt_ok _ _ _ _ _ _ _ _ _ _ _ HL)) as (bc & -> & Hd).
  cbn [ok OK negb]. rewrite Hd. destruct meta_sorted as [HS Hw].
  pose proof (open_block (C := BytewiseComparator) interval meta Hinterval HS Hw) as HP0.
  set (it0 := Block_NewIterator _) in *.
  assert (Hstep : exists it1 n, AnyPos (H := BlockNewIterOps BytewiseComparator) BytewiseComparator meta n it1 /\
    match opt_filter_policy o with
    | Some P => (@iSeek _ MIO it0 (filter_key P),
        if @iValid _ MIO (@iSeek _ MIO it0 (filter_key P)) &&
           Slice_eq (@iKey _ MIO (@iSeek _ MIO it0 (filter_key P))) (filter_key P)
        then ReadFilter K scratch o file (@iValue _ MIO (@iSeek _ MIO it0 (filter_key P))) else None)
    | None => (it0, None)
    end = (it1, opened_filter)).
  { destruct (opt_filter_policy o) as [P|] eqn:EP.
    - destruct (meta_filter P EP) as [_ Hin].
      destruct (seek_present (C := BytewiseComparator) meta _ it0 (filter_key P) _ HS HP0 I Hin) as (HV & HK & HVal).
      exists (@iSeek _ MIO it0 (filter_key P)). eexists. split.
      + exact (cur_seek _ _ _ (AnyPos_cursor BytewiseComparator meta) _ _ (filter_key P) HP0 I).
      + change (@LBNIO BytewiseComparator) with MIO in HV, HK, HVal. rewrite HV, HK, HVal.
        rewrite (proj2 (Slice_eq_spec _ _) eq_refl). cbn [andb]. rewrite (ReadFilter_ok P EP). reflexivity.
    - exists it0. eexists. split; [exact HP0|]. unfold opened_filter. rewrite EP. reflexivity. }
  destruct Hstep as (it1 & n & HP1 & ->). unfold opened, opened_dels.
  destruct meta_dels as [[-> Hno]|[Hne (b & Hrd & Hb & Hok & Hin)]].
  - pose proof (seek_absent (C := BytewiseComparator) meta n it1 range_deletions_key HP1 I Hno) as HA.
    change (@LBNIO BytewiseComparator) with MIO in HA. rewrite HA. reflexivity.
  - destruct (seek_present (C := BytewiseComparator) meta n it1 range_deletions_key _ HS HP1 I Hin) as (HV & HK & HVal).
    change (@LBNIO BytewiseComparator) with MIO in HV, HK, HVal. rewrite HV, HK, HVal.
    rewrite (proj2 (Slice_eq_spec _ _) eq_refl). cbn [andb].
    rewrite (ReadRangeDeletions_ok b Hrd Hb Hok). destruct dels; [contradiction|reflexivity].
Qed.

Lemma Table_Open_ok cache_id :
  Table_Open K scratch o cache_id file (sz (rf_contents file)) = (OK, Some (opened cache_id)).
Proof.
  unfold Table_Open. set (ft := footer_bytes footer).
  pose proof (tl_file _ _ _ _ _ _ _ _ _ _ _ HL) as HB. fold ft in HB.
  assert (H48 : sz ft = 48) by (unfold sz, ft; rewrite footer_bytes_length; reflexivity).
  assert (Hsz : sz (rf_contents file) = sz (sb_file all) + 48) by (rewrite HB at 1; rewrite sz_app, H48; reflexivity).
  pose proof (sz_nonneg (sb_file all)) as H0. change kFooterEncodedLength with 48.
  rewrite (proj2 (Z.ltb_ge _ _)) by lia. rewrite rf_read_ok by (exact Hinv || lia).
  replace (sz (rf_contents file) - 48) with (sz (sb_file all)) by lia. rewrite HB at 1.
  rewrite drop_sz_app, take_ge by (unfold ft; rewrite footer_bytes_length; lia). cbn [ok OK negb].
  assert (Em : all = (done ++ rd ++ fl) ++ mt :: [ix]) by (rewrite <- !app_assoc; reflexivity).
  assert (Ei : all = (done ++ rd ++ fl ++ [mt]) ++ ix :: []) by (rewrite <- !app_assoc; reflexivity).
  destruct (handle_small _ _ _ Em) as [_ Hm]. destruct (handle_small _ _ _ Ei) as [_ Hi].
  rewrite <- (app_nil_r ft). unfold ft. rewrite (footer_decode footer Footer_new [] Hm Hi). cbn [ok OK negb index_handle].
  destruct (read_at (opt_paranoid_checks o) _ _ _ _ Ei (tl_ix_ok _ _ _ _ _ _ _ _ _ _ _ HL)) as (bc & -> & Hd).
  cbn [ok OK metaindex_handle]. rewrite Hd, (ReadMeta_ok cache_id _ eq_refl). reflexivity.
Qed.

(** *** Data blocks *)

Context (block_cache : option (bytes -> option Block)) (ro : ReadOptions) (cache_id : Z).

Abbreviation t := (opened cache_id).
Abbreviation idx := (sb_entries ix).

(** A cached block is the block that reading its handle gives. *)

Definition CacheOk (hs : list BlockHandle) (tb : Table F) : Prop :=
  forall lookup h blk, block_cache = Some lookup -> In h hs -> lookup (cache_key tb h) = Some blk ->
    exists verify bc, ReadBlock K scratch verify (t_file tb) h = (OK, bc) /\ blk = Block_new (bc_data bc).

Hypothesis Hcache : CacheOk (handles [] done) t.

Lemma done_handle i b : done !! i = Some b -> handles [] done !! i = Some (handle_of (take i done) b).
Proof.
  intros Hb. pose proof (lookup_lt_Some _ _ _ Hb) as Hi.
  destruct (lookup_lt_is_Some_2 (handles [] done) i) as [h Hh]; [rewrite handles_length; exact Hi|].
  destruct (handles_lookup done [] i h Hh) as (b' & Hb' & ->). rewrite Hh. cbn [app]. congruence.
Qed.

Lemma block_function_ok i b : done !! i = Some b ->
  AnyPos C (sb_entries b) (length (sb_entries b))
    (block_function K scratch block_cache t ro (bh_bytes (handle_of (take i done) b))).
Proof.
  intros Hb. pose proof (split_done i b Hb) as E. destruct (handle_small _ _ _ E) as [_ Hwf].
  pose proof (proj1 (list.Forall_lookup _ _) (tl_done_ok _ _ _ _ _ _ _ _ _ _ _ HL) i b Hb) as Hok.
  assert (HP : AnyPos C (sb_entries b) (length (sb_entries b))
    (Block_NewIterator (Block_new (build_block interval (sb_entries b))))).
  { apply open_block; [exact Hinterval|exact (done_sorted i b Hb)|].
    pose proof (done_weight i b Hb). pose proof (sz_nonneg pts). lia. }
  unfold block_function, BlockReader. rewrite <- (app_nil_r (bh_bytes _)), BH_decode by exact Hwf. cbn [ok OK negb].
  assert (Hin : In (handle_of (take i done) b) (handles [] done)).
  { apply list_elem_of_In, list_elem_of_lookup. exists i. exact (done_handle i b Hb). }
  destruct (match block_cache with Some lookup => lookup (cache_key t (handle_of (take i done) b)) | None => None end)
    as [blk|] eqn:Ec.
  - destruct block_cache as [lookup|] eqn:Eb; [|discriminate].
    destruct (Hcache lookup _ blk Eb Hin Ec) as (verify & bc & Hr & ->).
    destruct (read_at verify _ _ _ _ E Hok) as (bc' & Hr' & Hd). cbn [t_file opened] in Hr. rewrite Hr in Hr'.
    assert (bc' = bc) as -> by congruence. rewrite Hd. exact HP.
  - destruct (read_at (ro_verify_checksums ro) _ _ _ _ E Hok) as (bc & Hr & Hd). cbn [t_file opened]. rewrite Hr.
    cbn [ok OK fst]. rewrite Hd. exact HP.
Qed.

Lemma index_open : AnyPos C idx (length idx) (Block_NewIterator (t_index_block t)).
Proof. apply open_block; [lia|exact index_sorted|exact index_weight]. Qed.

Lemma handles_offsets i j b b' : done !! i = Some b -> done !! j = Some b' -> (i < j)%nat ->
  sz (sb_file (take i done)) < sz (sb_file (take j done)).
Proof.
  intros Hb Hb' Hij. replace j with (S i + (j - S i))%nat by lia. rewrite <- (take_drop (S i) done) at 2.
  assert (Hl : length (take (S i) done) = S i) by (rewrite length_take; apply lookup_lt_Some in Hb; lia).
  rewrite take_app_ge by lia. rewrite sb_file_app, sz_app, (take_S_r _ _ _ Hb), sb_file_app, sz_app, sb_file_one.
  unfold sb_bytes. rewrite stored_block_length. pose proof (sz_nonneg (sb_contents b)).
  pose proof (sz_nonneg (sb_file (take (S i + (j - S i) - length (take (S i) done)) (drop (S i) done)))). 
  rewrite (take_S_r _ _ _ Hb) in *. lia.
Qed.

Lemma handles_nodup : NoDup (map snd idx).
Proof.
  rewrite (tl_idx_handles _ _ _ _ _ _ _ _ _ _ _ HL). apply NoDup_alt. intros i j x Hi Hj.
  rewrite list_lookup_fmap in Hi, Hj.
  destruct (handles [] done !! i) as [h1|] eqn:E1; [|discriminate].
  destruct (handles [] done !! j) as [h2|] eqn:E2; [|discriminate]. injection Hi as <-. injection Hj as Ex.
  destruct (handles_lookup _ _ _ _ E1) as (b1 & Hb1 & ->). destruct (handles_lookup _ _ _ _ E2) as (b2 & Hb2 & ->).
  cbn [app] in Ex. destruct (handle_small _ _ _ (split_done i b1 Hb1)) as [S1 W1].
  destruct (handle_small _ _ _ (split_done j b2 Hb2)) as [S2 W2].
  apply bh_bytes_inj in Ex; [|assumption..]. rewrite S1, S2 in Ex. injection Ex as Eo _.
  destruct (Nat.lt_trichotomy i j) as [H|[H|H]]; [|exact H|].
  - pose proof (handles_offsets i j b1 b2 Hb1 Hb2 H). lia.
  - pose proof (handles_offsets j i b2 b1 Hb2 Hb1 H). lia.
Qed.

Definition DPos (i p : nat) (d : BlockNewIter) : Prop :=
  exists b, done !! i = Some b /\ AnyPos C (sb_entries b) p d.

Lemma table_indexed :
  IndexedBlocks C (block_function K scratch block_cache t ro) idx (map sb_entries done) DPos.
Proof.
  pose proof (tl_idx_sep _ _ _ _ _ _ _ _ _ _ _ HL) as HSep. split.
  - rewrite length_map, index_length. reflexivity.
  - exact handles_nodup.
  - intros i k h H. destruct (index_entry i k h H) as (b & Hb & ->). eexists. exists b.
    split; [exact Hb|]. exact (block_function_ok i b Hb).
  - intros i es H. rewrite list_lookup_fmap in H. destruct (done !! i) as [b|] eqn:Hb; [|discriminate].
    injection H as <-. apply (Cursor_iff _ _ (AnyPos C (sb_entries b))); [|apply AnyPos_cursor].
    intros p d. unfold DPos. split; [eauto|]. intros (b' & E & HP). replace b' with b in HP by congruence. exact HP.
  - apply (se_dom _ _ index_sorted).
  - fold (entries_of done). rewrite (tl_pts _ _ _ _ _ _ _ _ _ _ _ HL). apply (se_dom _ _ Hpts).
  - intros i k h es e Hi Hb He. rewrite list_lookup_fmap in Hb. destruct (done !! i) as [b|] eqn:Eb; [|discriminate].
    injection Hb as <-. exact (proj1 (proj2 (HSep i k h b Hi Eb)) e He).
  - intros i j k h es e Hi Hb Hij He. rewrite list_lookup_fmap in Hb.
    destruct (done !! j) as [b'|] eqn:Eb'; [|discriminate]. injection Hb as <-.
    destruct (index_entry i k h Hi) as (b & Eb & _). apply (HSep i k h b Hi Eb). rewrite app_nil_r.
    apply (in_entries_of e _ (j - S i) b'); [|exact He]. rewrite lookup_drop.
    replace (S i + (j - S i))%nat with j by lia. exact Eb'.
Qed.

Lemma table_cursor : exists Pos,
  @Cursor _ (TableIteratorOps K scratch C block_cache t ro) C pts Pos /\
  Pos (length pts) (Table_NewIterator t).
Proof.
  exists (PosT idx (map sb_entries done) (AnyPos C idx) DPos).
  assert (Ep : concat (map sb_entries done) = pts) by exact (tl_pts _ _ _ _ _ _ _ _ _ _ _ HL).
  rewrite <- Ep at 1 2. split.
  - apply two_level_cursor; [apply AnyPos_cursor|exact table_indexed|].
    unfold Table_iter_fuel. cbn [t_index_block opened].
    assert (Hd : forall c, blk_data (Block_new c) = c) by (intros c; unfold Block_new; repeat destruct (_ <? _); reflexivity).
    rewrite Hd. apply build_block_size.
  - exact (two_level_new_pos _ _ _ _ _ _ index_open).
Qed.

(** The values of the index are the handles of the data blocks, each at its own offset. *)

Lemma built_index_valid i (it : BlockNewIter) : AnyPos C idx i it -> iValid it = true <-> (i < length idx)%nat.
Proof. intros HP. rewrite (cur_valid _ _ _ (AnyPos_cursor C idx) i it HP). apply Nat.ltb_lt. Qed.

Lemma index_position_at it : index_position C t it -> exists i, AnyPos C idx i it.
Proof.
  pose proof (AnyPos_cursor C idx) as HC. assert (HV : forall i (it : BlockNewIter), AnyPos C idx i it -> iValid it = true -> (i < length idx)%nat) by (intros i it0 HP; apply (built_index_valid i it0 HP)).
  induction 1 as [|it _ [i IH]|it _ [i IH]|it target _ [i IH] Ht|it _ [i IH] Hv|it _ [i IH] Hv].
  - eexists. exact index_open.
  - eexists. exact (cur_first _ _ _ HC i it IH).
  - eexists. exact (cur_last _ _ _ HC i it IH).
  - eexists. exact (cur_seek _ _ _ HC i it target IH Ht).
  - eexists. exact (cur_next _ _ _ HC i it IH (HV i it IH Hv)).
  - eexists. exact (cur_prev _ _ _ HC i it IH (HV i it IH Hv)).
Qed.

Lemma index_position_reaches i : (i < length idx)%nat -> exists it, index_position C t it /\ AnyPos C idx i it.
Proof.
  pose proof (AnyPos_cursor C idx) as HC. induction i as [|i IH]; intros Hi.
  - exists (iSeekToFirst (Block_NewIterator (t_index_block t))). split; [apply ip_first, ip_new|]. exact (cur_first _ _ _ HC _ _ index_open).
  - destruct (IH ltac:(lia)) as (it & H1 & H2). exists (iNext it). split; [|exact (cur_next _ _ _ HC i it H2 ltac:(lia))].
    apply ip_next; [exact H1|]. apply (built_index_valid i it H2). lia.
Qed.

Lemma index_handle_iff h : block_handle_of C t h <-> In h (handles [] done).
Proof.
  pose proof (AnyPos_cursor C idx) as HC. split.
  - intros (v & rest & (it & Hp & Hv & <-) & HD). destruct (index_position_at it Hp) as [i HP]. apply (built_index_valid i it HP) in Hv.
    destruct (lookup_lt_is_Some_2 _ _ Hv) as [[k x] Hk]. destruct (cur_entry _ _ _ HC i it k x HP Hk) as [_ Ev]. change (BH_DecodeFrom BlockHandle_new (iValue it) = (OK, h, rest)) in HD. rewrite Ev in HD.
    destruct (index_entry i k x Hk) as (b & Hb & ->). destruct (handle_small _ _ _ (split_done i b Hb)) as [_ Hwf].
    rewrite <- (app_nil_r (bh_bytes _)), BH_decode in HD by exact Hwf. injection HD as <- _. apply list_elem_of_In, list_elem_of_lookup. exists i. exact (done_handle i b Hb).
  - intros Hin. apply list_elem_of_In, list_elem_of_lookup in Hin as [i Hi]. destruct (handles_lookup _ _ _ _ Hi) as (b & Hb & ->). cbn [app].
    assert (Hl : (i < length idx)%nat) by (rewrite index_length; exact (lookup_lt_Some _ _ _ Hb)). destruct (index_position_reaches i Hl) as (it & H1 & H2).
    destruct (lookup_lt_is_Some_2 _ _ Hl) as [[k x] Hk]. destruct (cur_entry _ _ _ HC i it k x H2 Hk) as [_ Ev]. destruct (index_entry i k x Hk) as (b' & Hb' & ->).
    rewrite Hb in Hb'. injection Hb' as <-. destruct (handle_small _ _ _ (split_done i b Hb)) as [_ Hwf].
    eexists _, []. split; [exists it; split; [exact H1|]; split; [exact (proj2 (built_index_valid i it H2) Hl)|exact Ev]|].
    rewrite <- (app_nil_r (bh_bytes _)), BH_decode by exact Hwf. reflexivity.
Qed.

Lemma index_handle_offset h h' : block_handle_of C t h -> block_handle_of C t h' -> bh_offset h = bh_offset h' -> h = h'.
Proof.
  rewrite !index_handle_iff, <- !list_elem_of_In, !list_elem_of_lookup. intros [i Hi] [j Hj] Eo.
  destruct (handles_lookup _ _ _ _ Hi) as (b1 & Hb1 & ->). destruct (handles_lookup _ _ _ _ Hj) as (b2 & Hb2 & ->). cbn [app] in *.
  destruct (handle_small _ _ _ (split_done i b1 Hb1)) as [S1 _]. destruct (handle_small _ _ _ (split_done j b2 Hb2)) as [S2 _]. rewrite S1, S2 in Eo. cbn [bh_offset] in Eo.
  destruct (Nat.lt_trichotomy i j) as [H|[->|H]]; [|rewrite Hb1 in Hb2; injection Hb2 as ->; reflexivity|].
  - pose proof (handles_offsets i j b1 b2 Hb1 Hb2 H). lia.
  - pose proof (handles_offsets j i b2 b1 Hb2 Hb1 H). lia.
Qed.

Lemma index_handle_small h : block_handle_of C t h -> 0 <= bh_offset h < 2 ^ 64.
Proof.
  rewrite index_handle_iff, <- list_elem_of_In, list_elem_of_lookup. intros [i Hi]. destruct (handles_lookup _ _ _ _ Hi) as (b & Hb & ->). cbn [app].
  destruct (handle_small _ _ _ (split_done i b Hb)) as [_ [H _]]. exact H.
Qed.

(** *** Lookup

    What the comparator of a database has in addition: internal keys with the
    same user key are adjacent, and a separator never carries the user key of
    its limit unless it is the start itself. *)

Hypothesis Huser_convex : forall a b c, cmp_dom a -> cmp_dom b -> cmp_dom c ->
  cmp a b <= 0 -> cmp b c <= 0 -> ExtractUserKey a = ExtractUserKey c -> ExtractUserKey b = ExtractUserKey c.
Hypothesis Hsep_user : forall a b, cmp_dom a -> cmp_dom b -> cmp a b < 0 ->
  shortest_sep a b = a \/ ExtractUserKey (shortest_sep a b) <> ExtractUserKey b.
Hypothesis Hpolicy_ok : forall P, opt_filter_policy o = Some P -> FilterPolicyOk P /\
  forall k1 k2 f, ExtractUserKey k1 = ExtractUserKey k2 -> @fp_KeyMayMatch P k1 f = @fp_KeyMayMatch P k2 f.

Abbreviation blocks := (map sb_entries done).
Abbreviation found k := (pts !! lower_bound C pts k).

Lemma blocks_pts : concat blocks = pts.
Proof. exact (tl_pts _ _ _ _ _ _ _ _ _ _ _ HL). Qed.

Lemma found_past k : cmp_dom k -> done !! lower_bound C idx k = None -> found k = None.
Proof.
  intros Hk H. apply lookup_ge_None_2.
  enough (lower_bound C pts k = length pts) by lia.
  rewrite <- blocks_pts. apply (lower_bound_past _ (length idx) _ _ _ table_indexed (le_n _) k Hk).
  rewrite list_lookup_fmap, H. reflexivity.
Qed.

Lemma found_in_block k b p : cmp_dom k -> done !! lower_bound C idx k = Some b ->
  p = lower_bound C (sb_entries b) k -> (p < length (sb_entries b))%nat -> found k = sb_entries b !! p.
Proof.
  intros Hk Hb -> Hp.
  assert (Hbl : blocks !! lower_bound C idx k = Some (sb_entries b)) by (rewrite list_lookup_fmap, Hb; reflexivity).
  pose proof (lower_bound_blocks _ (length idx) _ _ _ table_indexed (le_n _) k _ _ Hk eq_refl Hbl) as E.
  rewrite blocks_pts in E. rewrite E, <- blocks_pts. apply block_lookup; assumption.
Qed.

(** When the block the index leads to has nothing at or past the key, the next
    entry belongs to another user key. *)

Lemma found_next_block k b k' v : cmp_dom k -> done !! lower_bound C idx k = Some b ->
  lower_bound C (sb_entries b) k = length (sb_entries b) -> found k = Some (k', v) ->
  ExtractUserKey k' <> ExtractUserKey k.
Proof.
  intros Hk Hb Hp Hf Eu. set (i := lower_bound C idx k) in *.
  assert (Hbl : blocks !! i = Some (sb_entries b)) by (rewrite list_lookup_fmap, Hb; reflexivity).
  pose proof (lower_bound_blocks _ (length idx) _ _ _ table_indexed (le_n _) k i _ Hk eq_refl Hbl) as E.
  rewrite blocks_pts, Hp, <- (block_start_S _ _ _ Hbl) in E.
  assert (Hin : head (entries_of (drop (S i) done)) = Some (k', v)).
  { assert (Hc : concat blocks = concat (take (S i) blocks) ++ concat (drop (S i) blocks))
      by (rewrite <- concat_app, take_drop; reflexivity).
    rewrite E, <- blocks_pts, Hc in Hf. unfold block_start in Hf. rewrite lookup_app_r, Nat.sub_diag in Hf by lia.
    unfold entries_of. change (map sb_entries (drop (S i) done)) with (sb_entries <$> drop (S i) done).
    rewrite fmap_drop, head_lookup. exact Hf. }
  destruct (lookup_lt_is_Some_2 idx i) as [[sep h] Hi].
  { rewrite index_length. exact (lookup_lt_Some _ _ _ Hb). }
  destruct (tl_idx_sep _ _ _ _ _ _ _ _ _ _ _ HL i sep h b Hi Hb) as (Ds & _ & Hlt & Hsh).
  rewrite app_nil_r in Hlt, Hsh.
  pose proof (proj1 (list.Forall_lookup _ _) (tl_nonempty _ _ _ _ _ _ _ _ _ _ _ HL) i b Hb) as Hne.
  destruct (last_split _ Hne) as (l & x & Hl). pose proof (Hsh x (k', v)) as Esep. rewrite Hl, last_snoc in Esep.
  specialize (Esep eq_refl Hin). cbn [fst] in Esep.
  assert (Hk'in : In (k', v) (entries_of (drop (S i) done))).
  { destruct (entries_of (drop (S i) done)); [discriminate|]. injection Hin as ->. left. reflexivity. }
  assert (Dk' : cmp_dom k').
  { apply list_elem_of_lookup_2, list_elem_of_In in Hf. exact (sorted_In_dom _ _ Hpts Hf). }
  pose proof (done_sorted i b Hb) as HSb.
  assert (Hxin : In x (sb_entries b)) by (rewrite Hl; apply in_or_app; right; left; reflexivity).
  assert (Dx : cmp_dom (fst x)) by exact (sorted_In_dom _ _ HSb Hxin).
  assert (Hxk : cmp (fst x) k < 0).
  { apply (lower_bound_before (sb_entries b) k (length l)); [rewrite Hp, Hl, length_app; cbn; lia|].
    rewrite Hl, lookup_app_r, Nat.sub_diag by lia. reflexivity. }
  assert (Hks : cmp k sep <= 0).
  { pose proof (lower_bound_at idx k (sep, h) Hi) as H0. cbn [fst] in H0.
    apply (proj1 (cmp_ge_le sep k Ds Hk)). lia. }
  assert (Hsk' : cmp sep k' < 0) by (apply (Hlt (k', v)); exact Hk'in).
  assert (Hxk' : cmp (fst x) k' < 0).
  { apply (cmp_trans _ k); [exact Dx|exact Hk|exact Dk'|exact Hxk|].
    exact (cmp_le_lt_trans _ _ _ Hk Ds Dk' Hks Hsk'). }
  destruct (Hsep_user (fst x) k' Dx Dk' Hxk') as [E1|E1]; rewrite <- Esep in E1.
  - pose proof (cmp_lt_le_trans _ _ _ Dx Hk Ds Hxk Hks) as H1. rewrite E1, cmp_refl in H1 by exact Dx. lia.
  - apply E1. apply (Huser_convex k sep k'); [exact Hk|exact Ds|exact Dk'|exact Hks|lia|congruence].
Qed.

Lemma filter_blocks_lookup i b : done !! i = Some b ->
  In (sz (sb_file (take i done)), map fst (sb_entries b)) (filter_blocks done).
Proof.
  intros Hb. destruct (handle_small _ _ _ (split_done i b Hb)) as [E _].
  apply list_elem_of_In, list_elem_of_lookup. exists i. unfold filter_blocks.
  rewrite lookup_zip_with, (done_handle i b Hb), Hb, E. reflexivity.
Qed.

Lemma filter_blocks_at i off keys : filter_blocks done !! i = Some (off, keys) -> exists b,
  done !! i = Some b /\ off = sz (sb_file (take i done)) /\ keys = map fst (sb_entries b).
Proof.
  intros Hi. unfold filter_blocks in Hi.
  rewrite lookup_zip_with in Hi. destruct (handles [] done !! i) as [h|] eqn:Eh; [|discriminate].
  destruct (done !! i) as [b|] eqn:Eb; [|discriminate]. injection Hi as <- <-. exists b.
  split; [reflexivity|]. split; [|reflexivity]. rewrite (done_handle i b Eb) in Eh. injection Eh as <-.
  destruct (handle_small _ _ _ (split_done i b Eb)) as [-> _]. reflexivity.
Qed.

Lemma done_end j : sz (sb_file (take j done)) <= sz (sb_file done).
Proof.
  rewrite <- (take_drop j done) at 2. rewrite sb_file_app, sz_app. pose proof (sz_nonneg (sb_file (drop j done))). lia.
Qed.

Lemma filter_blocks_sorted :
  StronglySorted (fun x y : Z * list bytes => fst x <= fst y) (filter_blocks done ++ [(sz (sb_file done), [])]) /\
  Forall (fun blk : Z * list bytes => 0 <= fst blk) (filter_blocks done ++ [(sz (sb_file done), [])]).
Proof.
  assert (Hat : forall j x, (filter_blocks done ++ [(sz (sb_file done), [])]) !! j = Some x ->
    fst x = sz (sb_file (take j done))).
  { intros j [off ks] H. apply lookup_app_Some in H as [H|[Hge H]].
    - destruct (filter_blocks_at j off ks H) as (b & _ & -> & _). reflexivity.
    - apply list_lookup_singleton_Some in H as [_ E]. injection E as <- <-. cbn [fst].
      rewrite take_ge; [reflexivity|]. unfold filter_blocks in Hge. rewrite length_zip_with, handles_length in Hge. lia. }
  split.
  - apply StronglySorted_of_lookup. intros i j x y Hij Hx Hy. rewrite (Hat i x Hx), (Hat j y Hy).
    replace (take i done) with (take i (take j done)) by (rewrite take_take; f_equal; lia).
    rewrite <- (take_drop i (take j done)) at 2. rewrite sb_file_app, sz_app.
    pose proof (sz_nonneg (sb_file (drop i (take j done)))). lia.
  - apply list.Forall_lookup. intros j x Hx. rewrite (Hat j x Hx). apply sz_nonneg.
Qed.

(** The filter of the table matches every key of a block at its offset. *)

Lemma filter_matches P i b key : opt_filter_policy o = Some P -> done !! i = Some b ->
  In key (map fst (sb_entries b)) ->
  FBR_KeyMayMatch P (FilterBlockReader_new (filter_data P done)) (sz (sb_file (take i done))) key = true.
Proof.
  intros EP Hb Hkey. destruct (Hpolicy_ok P EP) as [POK _]. destruct (meta_filter P EP) as [Hfl _].
  assert (Eall : all = (done ++ rd) ++ mkSBlock [] kNoCompression (filter_data P done) :: [mt; ix])
    by (rewrite Hfl, <- app_assoc; reflexivity).
  destruct (all_size _ _ _ Eall) as [Hs1 Hs2]. cbn [sb_contents] in Hs1. unfold filter_data in *.
  assert (Hu : u64 (sz (sb_file done)) = sz (sb_file done)).
  { apply u64_small. rewrite sb_file_app, sz_app in Hs1. pose proof (sz_nonneg (sb_file done)).
    pose proof (sz_nonneg (sb_file rd)).
    match type of Hs1 with context [sz (snd ?x)] => pose proof (sz_nonneg (snd x)) end. lia. }
  rewrite Hu in *. destruct filter_blocks_sorted as [F1 F2].
  apply (filter_block_matches P POK _ _ (map fst (sb_entries b)) key F1 F2).
  - rewrite map_app, concat_app, filter_blocks_keys, (tl_pts _ _ _ _ _ _ _ _ _ _ _ HL). cbn [map concat snd app].
    rewrite app_nil_r. unfold sz in *. rewrite length_map. pose proof (weight_nonneg pts). lia.
  - lia.
  - apply in_or_app. left. exact (filter_blocks_lookup i b Hb).
  - exact Hkey.
Qed.

(** What a lookup is specified to return, on the point entries and the range
    deletions of the table. *)

Definition get_spec (k : bytes) : Status * option entry :=
  let u := ExtractUserKey k in
  let read_seq := ExtractTag k >> 8 in
  let shadowed f := RDL_IsDeleted (map to_range_del dels) u f read_seq in
  match found k with
  | Some (k', v) =>
      if decide (ExtractUserKey k' = u) then
        if shadowed (ExtractTag k' >> 8) then (NotFound [] [], None) else (OK, Some (k', v))
      else (if shadowed 0 then NotFound [] [] else OK, None)
  | None => (if shadowed 0 then NotFound [] [] else OK, None)
  end.

Abbreviation shadowed k f := (RDL_IsDeleted (map to_range_del dels) (ExtractUserKey k) f (ExtractTag k >> 8)).

Lemma is_deleted_opened u f q : is_deleted t u f q = RDL_IsDeleted (map to_range_del dels) u f q.
Proof. unfold is_deleted. cbn [t_range_deletions opened]. unfold opened_dels. destruct dels; reflexivity. Qed.

Lemma get_spec_none k : (forall k' v, found k = Some (k', v) -> ExtractUserKey k' <> ExtractUserKey k) ->
  get_spec k = (if shadowed k 0 then NotFound [] [] else OK, None).
Proof.
  intros H. unfold get_spec. destruct (found k) as [[k' v]|] eqn:E; [|reflexivity].
  rewrite decide_False by exact (H k' v eq_refl). reflexivity.
Qed.

(** The search of the block the index leads to. *)

Lemma InternalGet_block_ok k b : cmp_dom k -> done !! lower_bound C idx k = Some b ->
  let '(s, pf, saved) := InternalGet_block K scratch C block_cache t ro
      (bh_bytes (handle_of (take (lower_bound C idx k) done) b)) k in
  (if negb pf && ok s && shadowed k 0 then NotFound [] [] else s, saved) = get_spec k.
Proof.
  intros Hk Hb. unfold InternalGet_block. set (it := block_function _ _ _ _ _ _).
  pose proof (block_function_ok _ b Hb) as HP. fold it in HP.
  pose proof (AnyPos_cursor C (sb_entries b)) as HC.
  pose proof (cur_seek _ _ _ HC _ it k HP Hk) as HP'. set (p := lower_bound C (sb_entries b) k) in *.
  pose proof (cur_valid _ _ _ HC _ _ HP') as HV. pose proof (cur_status _ _ _ HC _ _ HP') as HSt.
  change (@iSeek _ (BNIO C) it k) with (@iSeek _ TBNIO it k). set (bit := @iSeek _ TBNIO it k) in *.
  change (BNIO C) with TBNIO. rewrite HV, HSt. destruct (Nat.ltb_spec p (length (sb_entries b))) as [Hlt|Hge].
  - destruct (lookup_lt_is_Some_2 _ _ Hlt) as [[k' v] Hp]. pose proof (found_in_block k b p Hk Hb eq_refl Hlt) as Hf.
    rewrite Hp in Hf. destruct (cur_entry _ _ _ HC _ _ k' v HP' Hp) as [-> ->]. unfold get_spec. rewrite Hf. cbn [andb].
    rewrite is_deleted_opened. destruct (Slice_eq (ExtractUserKey k') (ExtractUserKey k)) eqn:Eu.
    + apply Slice_eq_spec in Eu. rewrite decide_True by exact Eu. rewrite Eu. destruct (shadowed k _); reflexivity.
    + rewrite decide_False; [reflexivity|]. intros E. apply Slice_eq_spec in E. congruence.
  - cbn [andb negb]. rewrite get_spec_none; [reflexivity|]. intros k' v Hf.
    apply (found_next_block k b k' v Hk Hb); [|exact Hf]. pose proof (cur_range _ _ _ HC _ _ HP'). fold p. lia.
Qed.

(** When the filter excludes the key, no entry of its user key is found. *)

Lemma filter_excludes_ok k b : cmp_dom k -> done !! lower_bound C idx k = Some b ->
  filter_excludes t (bh_bytes (handle_of (take (lower_bound C idx k) done) b)) k = true ->
  forall k' v, found k = Some (k', v) -> ExtractUserKey k' <> ExtractUserKey k.
Proof.
  intros Hk Hb HE k' v Hf Eu. set (i := lower_bound C idx k) in *.
  destruct (handle_small _ _ _ (split_done i b Hb)) as [Eh Hwf].
  pose proof (fun P EP => filter_matches P i b k' EP Hb) as HM0. pose proof Hpolicy_ok as HP0.
  unfold filter_excludes in HE. cbn [t_filter t_options opened] in HE. unfold opened_filter in HE.
  pose proof (found_next_block k b k' v Hk Hb) as HN. destruct (opt_filter_policy o) as [P|] eqn:EP; [|discriminate].
  rewrite <- (app_nil_r (bh_bytes _)), BH_decode in HE by exact Hwf. cbn [ok OK andb] in HE.
  rewrite Eh in HE. cbn [bh_offset] in HE. apply negb_true_iff in HE.
  destruct (Nat.lt_ge_cases (lower_bound C (sb_entries b) k) (length (sb_entries b))) as [Hlt|Hge].
  - pose proof (found_in_block k b _ Hk Hb eq_refl Hlt) as Hf'. rewrite Hf in Hf'. symmetry in Hf'.
    apply list_elem_of_lookup_2, list_elem_of_In in Hf'. apply (in_map fst) in Hf'.
    pose proof (HM0 P eq_refl Hf') as HM. destruct (HP0 P eq_refl) as [_ Hsame].
    unfold FBR_KeyMayMatch in HE, HM. destruct (fr_data _); [|discriminate].
    destruct (_ <? fr_num _); [|discriminate]. destruct (_ && _); [|destruct (_ =? _); discriminate].
    rewrite (Hsame k' k) in HM by exact Eu. congruence.
  - apply HN; [|exact Hf|exact Eu]. fold i.
    pose proof (lower_bound_le (sb_entries b) k). lia.
Qed.

Lemma InternalGet_ok k : cmp_dom k -> InternalGet K scratch C block_cache t ro k = get_spec k.
Proof.
  intros Hk. unfold InternalGet. change (BNIO C) with TBNIO.
  pose proof (AnyPos_cursor C idx) as HC. pose proof (cur_seek _ _ _ HC _ _ k index_open Hk) as HP.
  set (iit := iSeek _ k) in *. pose proof (cur_valid _ _ _ HC _ _ HP) as HV.
  pose proof (cur_status _ _ _ HC _ _ HP) as HSt. rewrite HV, HSt, is_deleted_opened.
  destruct (Nat.ltb_spec (lower_bound C idx k) (length idx)) as [Hlt|Hge].
  - destruct (lookup_lt_is_Some_2 _ _ Hlt) as [[sep h] Hi].
    destruct (index_entry _ sep h Hi) as (b & Hb & Eh). destruct (cur_entry _ _ _ HC _ _ sep h HP Hi) as [_ ->].
    subst h. destruct (filter_excludes t _ k) eqn:EF.
    + cbn [ok OK negb andb]. rewrite get_spec_none by exact (filter_excludes_ok k b Hk Hb EF).
      destruct (shadowed k 0); reflexivity.
    + pose proof (InternalGet_block_ok k b Hk Hb) as HB. destruct (InternalGet_block _ _ _ _ _ _ _ _) as [[s pf] saved].
      rewrite <- HB. destruct s; cbn [ok OK]; reflexivity.
  - cbn [ok OK negb andb]. rewrite get_spec_none; [destruct (shadowed k 0); reflexivity|].
    intros k' v Hf. rewrite found_past in Hf; [discriminate|exact Hk|]. apply lookup_ge_None_2.
    rewrite <- index_length. exact Hge.
Qed.

End TableOk.

(** ** Tables from their entries *)

(** The inputs a table can be built from: sorted entries that fit into blocks
    of less than 4 GB, and a filter policy with a name of reasonable length. *)

Record TableInput (C : Comparator) (o : Options) (es : list entry) : Prop := {
  tin_interval : 1 <= opt_block_restart_interval o;
  tin_points : sorted_entries C (points es);
  tin_dels : sorted_entries C (range_dels es);
  tin_weight : 8 + weight es + 20 * sz es < 2 ^ 32;
  tin_name : match opt_filter_policy o with Some P => sz (@fp_Name P) < 2 ^ 31 | None => True end
}.

Lemma weight_filter f es : weight (List.filter f es) <= weight es /\ sz (List.filter f es) <= sz es.
Proof.
  induction es as [|e es [IH1 IH2]]; [split; reflexivity|]. cbn [List.filter weight].
  pose proof (weight_nonneg [e]) as He. cbn [weight] in He.
  destruct (f e); cbn [weight]; rewrite ?sz_cons; lia.
Qed.

Section Readback.
Context {C : Comparator} {COK : ComparatorOk C} {CS : ComparatorShort C} {K : Compression} {KOK : CompressionOk K}.
Context {W : Type} {WF : WritableFile W} {RW : ReliableWritable W}.
Context {F : Type} {RF : RandomAccessFile F} {RR : ReliableRandom F}.
Context (o : Options) (wfile : W) (es : list entry) (file : F) (scratch : bool) (cache_id : Z).

(** The table was built in an empty file and [file] holds what was written. *)

Abbreviation built := (snd (build_table C K o wfile es)).

Record Stored : Prop := {
  st_input : TableInput C o es;
  st_wfile : wf_inv wfile /\ wf_contents wfile = [];
  st_size : sz (wf_contents (r_file built)) < 2 ^ 32;
  st_file : rf_inv file /\ rf_contents file = wf_contents (r_file built)
}.

Hypothesis HST : Stored.

Lemma range_dels_8 : Forall (fun e => 8 <= sz (fst e)) (range_dels es).
Proof.
  apply List.Forall_forall. intros e He. apply filter_In in He as [_ He]. unfold is_range_del in He.
  apply andb_true_iff in He as [He _]. apply Z.leb_le, He.
Qed.

Lemma readback : exists done rd fl mt ix,
  fst (build_table C K o wfile es) = OK /\ FileSize built = sz (rf_contents file) /\
  TableLayout C K o (rf_contents file) (points es) (range_dels es) done rd fl mt ix /\
  Table_Open K scratch o cache_id file (FileSize built) =
    (OK, Some (opened o file (range_dels es) done rd fl mt ix cache_id)) /\
  8 + weight (points es) + 20 * sz (points es) < 2 ^ 32 /\ 8 + weight (range_dels es) < 2 ^ 32.
Proof.
  destruct HST as [[Hint HS HSd Hw Hn] [Hwi Hwc] Hsz [Hfi Hfc]].
  destruct (build_table_layout C K o wfile es Hwi Hwc HS) as (r' & done & rd & fl & mt & ix & E & _ & Hoff & HL).
  rewrite E in *. cbn [fst snd] in *. rewrite <- Hfc in *.
  assert (Hsize : FileSize r' = sz (rf_contents file))
    by (rewrite Hoff; apply u64_small; pose proof (sz_nonneg (rf_contents file)); lia).
  pose proof (weight_filter (fun e => negb (is_range_del (fst e))) es) as [Hp1 Hp2].
  pose proof (weight_filter (fun e => is_range_del (fst e)) es) as [Hd1 Hd2].
  pose proof (sz_nonneg (points es)) as H0. unfold points, range_dels in *.
  exists done, rd, fl, mt, ix. split; [reflexivity|]. split; [exact Hsize|]. split; [exact HL|]. split; [|lia].
  rewrite Hsize. apply (Table_Open_ok (C := C) scratch o file _ _ done rd fl mt ix Hfi HL); try assumption.
  - exact range_dels_8.
  - lia.
Qed.

End Readback.

(** ** Properties *)

(** C24. A table reads back as it was written: for sorted entries, any block
    size, restart interval, compression and filter policy, the builder succeeds
    on a reliable file and reports its size; opening that file succeeds, the
    iterator of the table is a cursor on exactly the point entries, whatever
    the block cache holds as long as it is consistent with the file, and the
    range deletions are those that were added, in order. *)
Theorem table_readback : forall C K W F (WF : WritableFile W) (RW : ReliableWritable W)
    (RF : RandomAccessFile F) (RR : ReliableRandom F) o (wfile : W) es (file : F) scratch cache_id,
  ComparatorOk C -> ComparatorShort C -> CompressionOk K ->
  Stored (C := C) (K := K) o wfile es file ->
  exists tb hs,
    fst (build_table C K o wfile es) = OK /\
    FileSize (snd (build_table C K o wfile es)) = sz (rf_contents file) /\
    Table_Open K scratch o cache_id file (sz (rf_contents file)) = (OK, Some tb) /\
    GetRangeDeletions tb = (match range_dels es with [] => None | ds => Some (map to_range_del ds) end) /\
    forall cache ro, CacheOk (K := K) scratch cache hs tb -> exists Pos,
      @Cursor _ (TableIteratorOps K scratch C cache tb ro) C (points es) Pos /\
      Pos (length (points es)) (Table_NewIterator tb).
Proof.
  intros C K W F WF RW RF RR o wfile es file scratch cache_id COK CS KOK HST.
  destruct (readback o wfile es file scratch cache_id HST) as (done & rd & fl & mt & ix & Hok & Hsize & HL & HO & Hw1 & Hw2).
  exists (opened o file (range_dels es) done rd fl mt ix cache_id), (handles [] done).
  rewrite Hsize in HO. split; [exact Hok|]. split; [exact Hsize|]. split; [exact HO|].
  split; [cbn; unfold opened_dels; destruct (range_dels es); reflexivity|].
  intros cache ro Hc. destruct HST as [[Hint HS HSd Hw Hn] _ Hsz [Hfi Hfc]].
  apply (table_cursor (C := C) scratch o file _ (range_dels es) done rd fl mt ix Hfi HL); try assumption.
  - rewrite Hfc. exact Hsz.
Qed.

Lemma run_sorted : sorted_entries (InternalKeyComparator BytewiseComparator) run_entries.
Proof.
  split; [repeat (constructor; [|repeat (constructor; [vm_compute; reflexivity|]); constructor]); constructor|].
  repeat (constructor; [split; [cbn; lia|exact I]|]). constructor.
Qed.

Lemma mem_contents (f : FileState) : rf_contents f = wf_contents f.
Proof. reflexivity. Qed.

Lemma run_stored : Stored (C := InternalKeyComparator BytewiseComparator) (K := NoLibraries)
  run_options FileState_new run_entries run_file.
Proof.
  split.
  - split; [cbn; lia|apply sorted_filter, run_sorted|apply sorted_filter, run_sorted|vm_compute; reflexivity|vm_compute; reflexivity].
  - split; [exact FSInv_new|reflexivity].
  - vm_compute. reflexivity.
  - split; [|unfold run_file; apply mem_contents].
    destruct (build_table_layout (InternalKeyComparator BytewiseComparator) NoLibraries (RW := MemReliableWritable)
      run_options FileState_new run_entries FSInv_new eq_refl (sorted_filter _ _ _ run_sorted)) as (r' & _ & _ & _ & _ & _ & E & HI & _).
    unfold run_file. rewrite E. exact HI.
Qed.

Lemma table_readback_witness : exists tb hs,
  Table_Open NoLibraries true run_options 1 run_file (sz (rf_contents run_file)) = (OK, Some tb) /\
  GetRangeDeletions tb = Some [mkRangeDel (str "b") (str "d") 9] /\
  forall ro, CacheOk (K := NoLibraries) true None hs tb -> exists Pos,
    @Cursor _ (TableIteratorOps NoLibraries true (InternalKeyComparator BytewiseComparator) None tb ro)
      (InternalKeyComparator BytewiseComparator) (points run_entries) Pos /\
    Pos 5%nat (Table_NewIterator tb).
Proof.
  destruct (table_readback (InternalKeyComparator BytewiseComparator) NoLibraries FileState FileState _ _ _ _
    run_options FileState_new run_entries run_file true 1 _ _ _ run_stored)
    as (tb & hs & _ & _ & HO & HD & HC).
  exists tb, hs. split; [exact HO|]. split; [exact HD|]. intros ro Hc. exact (HC None ro Hc).
Defined.

(** Lookups in a stored table. *)

Lemma opened_get : forall U K W F (WF : WritableFile W) (RW : ReliableWritable W)
    (RF : RandomAccessFile F) (RR : ReliableRandom F) o (wfile : W) es (file : F) scratch cache_id done rd fl mt ix,
  let C := InternalKeyComparator U in
  ComparatorOk U -> CompressionOk K ->
  (forall P, opt_filter_policy o = Some P -> exists UP, P = InternalFilterPolicy UP /\ FilterPolicyOk UP) ->
  Stored (C := C) (K := K) o wfile es file ->
  TableLayout C K o (rf_contents file) (points es) (range_dels es) done rd fl mt ix ->
  8 + weight (points es) + 20 * sz (points es) < 2 ^ 32 -> 8 + weight (range_dels es) < 2 ^ 32 ->
  let tb := opened o file (range_dels es) done rd fl mt ix cache_id in
  forall cache ro k, CacheOk (K := K) scratch cache (handles [] done) tb -> @cmp_dom C k ->
    InternalGet K scratch C cache tb ro k = get_spec (C := C) (points es) (range_dels es) k.
Proof.
  intros U K W F WF RW RF RR o wfile es file scratch cache_id done rd fl mt ix C UOK KOK HPol HST HL Hw1 Hw2 tb cache ro k Hc Hk.
  destruct HST as [[Hint HS HSd Hw Hn] _ Hsz [Hfi Hfc]].
  apply (InternalGet_ok (C := C) scratch o file _ _ done rd fl mt ix Hfi HL); try assumption.
  - rewrite Hfc. exact Hsz.
  - apply range_dels_8.
  - intros a b c Da Db Dc H1 H2 E. exact (IKC_user_convex a b c Da Db Dc H1 H2 E).
  - exact IKC_sep_user.
  - intros P EP. destruct (HPol P EP) as (UP & -> & HUP). split; [exact (InternalFilterPolicyOk UP HUP)|].
    intros k1 k2 f E. cbn. rewrite E. reflexivity.
Qed.

Lemma stored_get : forall U K W F (WF : WritableFile W) (RW : ReliableWritable W)
    (RF : RandomAccessFile F) (RR : ReliableRandom F) o (wfile : W) es (file : F) scratch cache_id,
  let C := InternalKeyComparator U in
  ComparatorOk U -> CompressionOk K ->
  (forall P, opt_filter_policy o = Some P -> exists UP, P = InternalFilterPolicy UP /\ FilterPolicyOk UP) ->
  Stored (C := C) (K := K) o wfile es file ->
  exists tb hs, Table_Open K scratch o cache_id file (sz (rf_contents file)) = (OK, Some tb) /\
    forall cache ro k, CacheOk (K := K) scratch cache hs tb -> @cmp_dom C k ->
      InternalGet K scratch C cache tb ro k = get_spec (C := C) (points es) (range_dels es) k.
Proof.
  intros U K W F WF RW RF RR o wfile es file scratch cache_id C UOK KOK HPol HST.
  destruct (readback o wfile es file scratch cache_id HST) as (done & rd & fl & mt & ix & Hok & Hsize & HL & HO & Hw1 & Hw2).
  exists (opened o file (range_dels es) done rd fl mt ix cache_id), (handles [] done).
  rewrite Hsize in HO. split; [exact HO|].
  exact (opened_get U K W F WF RW RF RR o wfile es file scratch cache_id done rd fl mt ix UOK KOK HPol HST HL Hw1 Hw2).
Qed.

(** A block cache is honest about a table when what it holds under the key of a
    block of the index is that block. *)

Definition blocks_honest {K F} {RF : RandomAccessFile F} (C : Comparator) (scratch : bool) (lookup : bytes -> option Block) (tb : Table F) : Prop :=
  forall h blk, block_handle_of C tb h -> lookup (cache_key tb h) = Some blk ->
    exists verify bc, ReadBlock K scratch verify (t_file tb) h = (OK, bc) /\ blk = Block_new (bc_data bc).

Lemma stored_blocks : forall U K W F (WF : WritableFile W) (RW : ReliableWritable W)
    (RF : RandomAccessFile F) (RR : ReliableRandom F) o (wfile : W) es (file : F) scratch cache_id,
  let C := InternalKeyComparator U in
  ComparatorOk U -> CompressionOk K ->
  (forall P, opt_filter_policy o = Some P -> exists UP, P = InternalFilterPolicy UP /\ FilterPolicyOk UP) ->
  Stored (C := C) (K := K) o wfile es file ->
  exists tb, Table_Open K scratch o cache_id file (sz (rf_contents file)) = (OK, Some tb) /\ t_cache_id tb = cache_id /\
    (forall h h', block_handle_of C tb h -> block_handle_of C tb h' -> bh_offset h = bh_offset h' -> h = h') /\
    (forall h, block_handle_of C tb h -> 0 <= bh_offset h < 2 ^ 64) /\
    GetRangeDeletions tb = (match range_dels es with [] => None | ds => Some (map to_range_del ds) end) /\
    forall cache, (forall lookup, cache = Some lookup -> blocks_honest (K := K) C scratch lookup tb) ->
      (forall ro k, @cmp_dom C k -> InternalGet K scratch C cache tb ro k = get_spec (C := C) (points es) (range_dels es) k) /\
      forall ro, exists Pos, @Cursor _ (TableIteratorOps K scratch C cache tb ro) C (points es) Pos /\ Pos (length (points es)) (Table_NewIterator tb).
Proof.
  intros U K W F WF RW RF RR o wfile es file scratch cache_id C UOK KOK HPol HST.
  destruct (readback o wfile es file scratch cache_id HST) as (done & rd & fl & mt & ix & Hok & Hsize & HL & HO & Hw1 & Hw2). rewrite Hsize in HO.
  exists (opened o file (range_dels es) done rd fl mt ix cache_id). split; [exact HO|]. split; [reflexivity|].
  pose proof HST as [[Hint HS HSd Hw Hn] Hwf Hsz [Hfi Hfc]].
  assert (Hg : sz (rf_contents file) < 2 ^ 32) by (rewrite Hfc; exact Hsz).
  split; [|split; [|split; [cbn; unfold opened_dels; destruct (range_dels es); reflexivity|]]].
  - intros h h'. apply (index_handle_offset (C := C) o file _ (range_dels es) done rd fl mt ix HL); assumption.
  - intros h. apply (index_handle_small (C := C) o file _ (range_dels es) done rd fl mt ix HL); assumption.
  - intros cache Hc. assert (HC : CacheOk (K := K) scratch cache (handles [] done) (opened o file (range_dels es) done rd fl mt ix cache_id)).
    { intros lookup h blk E Hin. apply (Hc lookup E h blk). apply (index_handle_iff (C := C) o file _ (range_dels es) done rd fl mt ix HL); assumption. }
    split; [intros ro k; exact (opened_get U K W F WF RW RF RR o wfile es file scratch cache_id done rd fl mt ix UOK KOK HPol HST HL Hw1 Hw2 cache ro k HC)|].
    intros ro. apply (table_cursor (C := C) scratch o file _ (range_dels es) done rd fl mt ix Hfi HL); assumption.
Qed.

(** C12. A lookup in a table finds what it holds for the user key: with the
    internal key comparator and a filter policy on user keys, [InternalGet]
    hands to the callback the newest point entry of the user key at or below
    the sequence number of the lookup key, or nothing when there is none, and
    reports NotFound when a range deletion that the lookup can see covers the
    key and is newer than the entry; neither the filter nor the index (whose
    separators are not keys of the table) ever hides an entry. *)
Theorem table_get : forall U K W F (WF : WritableFile W) (RW : ReliableWritable W)
    (RF : RandomAccessFile F) (RR : ReliableRandom F) o (wfile : W) es (file : F) scratch cache_id,
  let C := InternalKeyComparator U in
  ComparatorOk U -> CompressionOk K ->
  (forall P, opt_filter_policy o = Some P -> exists UP, P = InternalFilterPolicy UP /\ FilterPolicyOk UP) ->
  Stored (C := C) (K := K) o wfile es file ->
  exists tb hs, Table_Open K scratch o cache_id file (sz (rf_contents file)) = (OK, Some tb) /\
    forall cache ro k, CacheOk (K := K) scratch cache hs tb -> @cmp_dom C k ->
      InternalGet K scratch C cache tb ro k = get_spec (C := C) (points es) (range_dels es) k.
Proof.
  intros U K W F WF RW RF RR o wfile es file scratch cache_id C UOK KOK HPol HST.
  exact (stored_get U K W F WF RW RF RR o wfile es file scratch cache_id UOK KOK HPol HST).
Qed.

Lemma table_get_witness : exists tb hs,
  Table_Open NoLibraries true run_options 1 run_file (sz (rf_contents run_file)) = (OK, Some tb) /\
  forall cache ro k, CacheOk (K := NoLibraries) true cache hs tb ->
    @cmp_dom (InternalKeyComparator BytewiseComparator) k ->
    InternalGet NoLibraries true (InternalKeyComparator BytewiseComparator) cache tb ro k =
      get_spec (C := InternalKeyComparator BytewiseComparator) (points run_entries) (range_dels run_entries) k.
Proof.
  assert (HPol : forall P, opt_filter_policy run_options = Some P ->
    exists UP, P = InternalFilterPolicy UP /\ FilterPolicyOk UP).
  { intros P EP. injection EP as <-. eexists. split; [reflexivity|]. apply BloomPolicyOk. lia. }
  destruct (table_get BytewiseComparator NoLibraries FileState FileState _ _ _ _
    run_options FileState_new run_entries run_file true 1 _ _ HPol run_stored) as (tb & hs & HO & HG).
  exists tb, hs. split; [exact HO|exact HG].
Defined.
