(* ===== verification/VersionEdit.v ===== *)
(** * Version edits (db/version_edit.h, db/version_edit.cc)

    The records of the manifest: which files a version adds and deletes, and
    the counters of the database.  [deleted_files_] is a set ordered by level
    and number: a strictly sorted list.  An internal key is its bytes, as in
    DbFormat.v; an empty one is invalid. *)

From S2P Require Import Prelude Coding DbFormat Logging.
#[local] Open Scope Z_scope.
#[local] Open Scope ldb_scope.

(** ** db/dbformat.cc: printing keys *)

Definition PIK_DebugString (k : ParsedInternalKey) : bytes :=
  str "'" ++ EscapeString (user_key k) ++ str "' @ " ++ NumberToString (sequence k) ++ str " : " ++
  NumberToString (vt_code (type k)).

Definition IK_DebugString (rep : bytes) : bytes :=
  match ParseInternalKey rep with
  | Some parsed => PIK_DebugString parsed
  | None => str "(bad)" ++ EscapeString rep
  end.

(** [InternalKey::DecodeFrom] *)

Definition IK_DecodeFrom (s : bytes) : option bytes := match s with [] => None | _ => Some s end.

(** ** Data *)

Record FileMetaData := mkFile {
  f_refs : Z;
  f_allowed_seeks : Z;
  f_number : Z;
  f_file_size : Z;
  f_smallest : bytes;
  f_largest : bytes
}.

#[export] Instance FileMetaData_eq_dec : EqDecision FileMetaData.
Proof. solve_decision. Defined.

(** A file as [AddFile] and [DecodeFrom] make it. *)

Definition new_file (number file_size : Z) (smallest largest : bytes) : FileMetaData :=
  mkFile 0 (1 << 30) number file_size smallest largest.

Record VersionEdit := mkEdit {
  comparator_ : bytes;
  log_number_ : Z;
  prev_log_number_ : Z;
  next_file_number_ : Z;
  last_sequence_ : Z;
  has_comparator_ : bool;
  has_log_number_ : bool;
  has_prev_log_number_ : bool;
  has_next_file_number_ : bool;
  has_last_sequence_ : bool;
  compact_pointers_ : list (Z * bytes);
  deleted_files_ : list (Z * Z);
  new_files_ : list (Z * FileMetaData)
}.

Definition VE_Clear : VersionEdit :=
  mkEdit [] 0 0 0 0 false false false false false [] [] [].

Definition SetComparatorName (name : bytes) (e : VersionEdit) : VersionEdit :=
  mkEdit name (log_number_ e) (prev_log_number_ e) (next_file_number_ e) (last_sequence_ e)
    true (has_log_number_ e) (has_prev_log_number_ e) (has_next_file_number_ e) (has_last_sequence_ e)
    (compact_pointers_ e) (deleted_files_ e) (new_files_ e).

Definition SetLogNumber (num : Z) (e : VersionEdit) : VersionEdit :=
  mkEdit (comparator_ e) num (prev_log_number_ e) (next_file_number_ e) (last_sequence_ e)
    (has_comparator_ e) true (has_prev_log_number_ e) (has_next_file_number_ e) (has_last_sequence_ e)
    (compact_pointers_ e) (deleted_files_ e) (new_files_ e).

Definition SetPrevLogNumber (num : Z) (e : VersionEdit) : VersionEdit :=
  mkEdit (comparator_ e) (log_number_ e) num (next_file_number_ e) (last_sequence_ e)
    (has_comparator_ e) (has_log_number_ e) true (has_next_file_number_ e) (has_last_sequence_ e)
    (compact_pointers_ e) (deleted_files_ e) (new_files_ e).

Definition SetNextFile (num : Z) (e : VersionEdit) : VersionEdit :=
  mkEdit (comparator_ e) (log_number_ e) (prev_log_number_ e) num (last_sequence_ e)
    (has_comparator_ e) (has_log_number_ e) (has_prev_log_number_ e) true (has_last_sequence_ e)
    (compact_pointers_ e) (deleted_files_ e) (new_files_ e).

Definition SetLastSequence (seq : Z) (e : VersionEdit) : VersionEdit :=
  mkEdit (comparator_ e) (log_number_ e) (prev_log_number_ e) (next_file_number_ e) seq
    (has_comparator_ e) (has_log_number_ e) (has_prev_log_number_ e) (has_next_file_number_ e) true
    (compact_pointers_ e) (deleted_files_ e) (new_files_ e).

Definition with_lists (e : VersionEdit) (cps : list (Z * bytes)) (dels : list (Z * Z))
    (news : list (Z * FileMetaData)) : VersionEdit :=
  mkEdit (comparator_ e) (log_number_ e) (prev_log_number_ e) (next_file_number_ e) (last_sequence_ e)
    (has_comparator_ e) (has_log_number_ e) (has_prev_log_number_ e) (has_next_file_number_ e)
    (has_last_sequence_ e) cps dels news.

Definition SetCompactPointer (level : Z) (key : bytes) (e : VersionEdit) : VersionEdit :=
  with_lists e (compact_pointers_ e ++ [(level, key)]) (deleted_files_ e) (new_files_ e).

Definition AddFile (level file file_size : Z) (smallest largest : bytes) (e : VersionEdit) : VersionEdit :=
  with_lists e (compact_pointers_ e) (deleted_files_ e)
    (new_files_ e ++ [(level, new_file file file_size smallest largest)]).

(** [std::set<std::pair<int, uint64_t>>::insert] *)

Definition pair_lt (a b : Z * Z) : bool :=
  (fst a <? fst b) || ((fst a =? fst b) && (snd a <? snd b)).

Fixpoint set_insert (x : Z * Z) (s : list (Z * Z)) : list (Z * Z) :=
  match s with
  | [] => [x]
  | y :: s' => if pair_lt x y then x :: s else if pair_lt y x then y :: set_insert x s' else s
  end.

Definition RemoveFile (level file : Z) (e : VersionEdit) : VersionEdit :=
  with_lists e (compact_pointers_ e) (set_insert (level, file) (deleted_files_ e)) (new_files_ e).

(** ** Serialization *)

Definition kComparator : Z := 1.
Definition kLogNumber : Z := 2.
Definition kNextFileNumber : Z := 3.
Definition kLastSequence : Z := 4.
Definition kCompactPointer : Z := 5.
Definition kDeletedFile : Z := 6.
Definition kNewFile : Z := 7.
Definition kPrevLogNumber : Z := 9.

Definition put_compact_pointer (dst : bytes) (p : Z * bytes) : bytes :=
  PutLengthPrefixedSlice (PutVarint32 (PutVarint32 dst kCompactPointer) (u32 (fst p))) (snd p).

Definition put_deleted_file (dst : bytes) (p : Z * Z) : bytes :=
  PutVarint64 (PutVarint32 (PutVarint32 dst kDeletedFile) (u32 (fst p))) (snd p).

Definition put_new_file (dst : bytes) (p : Z * FileMetaData) : bytes :=
  let f := snd p in
  let dst := PutVarint32 (PutVarint32 dst kNewFile) (u32 (fst p)) in
  let dst := PutVarint64 (PutVarint64 dst (f_number f)) (f_file_size f) in
  PutLengthPrefixedSlice (PutLengthPrefixedSlice dst (f_smallest f)) (f_largest f).

Definition VE_EncodeTo (e : VersionEdit) (dst : bytes) : bytes :=
  let dst := if has_comparator_ e
             then PutLengthPrefixedSlice (PutVarint32 dst kComparator) (comparator_ e) else dst in
  let dst := if has_log_number_ e then PutVarint64 (PutVarint32 dst kLogNumber) (log_number_ e) else dst in
  let dst := if has_prev_log_number_ e
             then PutVarint64 (PutVarint32 dst kPrevLogNumber) (prev_log_number_ e) else dst in
  let dst := if has_next_file_number_ e
             then PutVarint64 (PutVarint32 dst kNextFileNumber) (next_file_number_ e) else dst in
  let dst := if has_last_sequence_ e
             then PutVarint64 (PutVarint32 dst kLastSequence) (last_sequence_ e) else dst in
  let dst := fold_left put_compact_pointer (compact_pointers_ e) dst in
  let dst := fold_left put_deleted_file (deleted_files_ e) dst in
  fold_left put_new_file (new_files_ e) dst.

Definition GetInternalKey (input : bytes) : option (bytes * bytes) :=
  match GetLengthPrefixedSlice input with
  | Some (s, input) => match IK_DecodeFrom s with Some k => Some (k, input) | None => None end
  | None => None
  end.

Definition GetLevel (input : bytes) : option (Z * bytes) :=
  match GetVarint32 input with
  | Some (v, input) => if v <? Z.of_nat kNumLevels then Some (v, input) else None
  | None => None
  end.

(** One turn of the loop after the tag: the edit and the rest of the input, or
    the message. *)

Definition DecodeFrom_turn (tag : Z) (e : VersionEdit) (input : bytes) : VersionEdit * bytes + bytes :=
  if tag =? kComparator then
    match GetLengthPrefixedSlice input with
    | Some (s, input) => inl (SetComparatorName s e, input)
    | None => inr (str "comparator name")
    end
  else if tag =? kLogNumber then
    match GetVarint64 input with
    | Some (n, input) => inl (SetLogNumber n e, input)
    | None => inr (str "log number")
    end
  else if tag =? kPrevLogNumber then
    match GetVarint64 input with
    | Some (n, input) => inl (SetPrevLogNumber n e, input)
    | None => inr (str "previous log number")
    end
  else if tag =? kNextFileNumber then
    match GetVarint64 input with
    | Some (n, input) => inl (SetNextFile n e, input)
    | None => inr (str "next file number")
    end
  else if tag =? kLastSequence then
    match GetVarint64 input with
    | Some (n, input) => inl (SetLastSequence n e, input)
    | None => inr (str "last sequence number")
    end
  else if tag =? kCompactPointer then
    match GetLevel input with
    | Some (level, input) =>
        match GetInternalKey input with
        | Some (key, input) => inl (SetCompactPointer level key e, input)
        | None => inr (str "compaction pointer")
        end
    | None => inr (str "compaction pointer")
    end
  else if tag =? kDeletedFile then
    match GetLevel input with
    | Some (level, input) =>
        match GetVarint64 input with
        | Some (number, input) => inl (RemoveFile level number e, input)
        | None => inr (str "deleted file")
        end
    | None => inr (str "deleted file")
    end
  else if tag =? kNewFile then
    match GetLevel input with
    | Some (level, input) =>
        match GetVarint64 input with
        | Some (number, input) =>
            match GetVarint64 input with
            | Some (file_size, input) =>
                match GetInternalKey input with
                | Some (smallest, input) =>
                    match GetInternalKey input with
                    | Some (largest, input) => inl (AddFile level number file_size smallest largest e, input)
                    | None => inr (str "new-file entry")
                    end
                | None => inr (str "new-file entry")
                end
            | None => inr (str "new-file entry")
            end
        | None => inr (str "new-file entry")
        end
    | None => inr (str "new-file entry")
    end
  else inr (str "unknown tag").

(** The loop; every turn takes at least the byte of a tag.  The result has the
    message, if any, and the edit as far as it was read. *)

Fixpoint DecodeFrom_loop (fuel : nat) (e : VersionEdit) (input : bytes) : option bytes * VersionEdit :=
  match fuel with
  | O => (None, e)
  | S fuel =>
      match GetVarint32 input with
      | None => (match input with [] => None | _ => Some (str "invalid tag") end, e)
      | Some (tag, input) =>
          match DecodeFrom_turn tag e input with
          | inl (e, input) => DecodeFrom_loop fuel e input
          | inr msg => (Some msg, e)
          end
      end
  end.

Definition VE_DecodeFrom (src : bytes) : Status * VersionEdit :=
  let '(msg, e) := DecodeFrom_loop (S (length src)) VE_Clear src in
  (match msg with Some msg => Corruption (str "VersionEdit") msg | None => OK end, e).

(** ** Printing *)

Definition VE_DebugString (e : VersionEdit) : bytes :=
  let nl s := z2b 10 :: s in
  let r := str "VersionEdit {" in
  let r := if has_comparator_ e then r ++ nl (str "  Comparator: ") ++ comparator_ e else r in
  let r := if has_log_number_ e then AppendNumberTo (r ++ nl (str "  LogNumber: ")) (log_number_ e) else r in
  let r := if has_prev_log_number_ e
           then AppendNumberTo (r ++ nl (str "  PrevLogNumber: ")) (prev_log_number_ e) else r in
  let r := if has_next_file_number_ e
           then AppendNumberTo (r ++ nl (str "  NextFile: ")) (next_file_number_ e) else r in
  let r := if has_last_sequence_ e
           then AppendNumberTo (r ++ nl (str "  LastSeq: ")) (last_sequence_ e) else r in
  let r := fold_left (fun r p => AppendNumberTo (r ++ nl (str "  CompactPointer: ")) (u64 (fst p)) ++
             str " " ++ IK_DebugString (snd p)) (compact_pointers_ e) r in
  let r := fold_left (fun r p => AppendNumberTo (AppendNumberTo (r ++ nl (str "  RemoveFile: ")) (u64 (fst p)) ++
             str " ") (snd p)) (deleted_files_ e) r in
  let r := fold_left (fun r p =>
             let f := snd p in
             let r := AppendNumberTo (r ++ nl (str "  AddFile: ")) (u64 (fst p)) ++ str " " in
             let r := AppendNumberTo r (f_number f) ++ str " " in
             let r := AppendNumberTo r (f_file_size f) ++ str " " in
             r ++ IK_DebugString (f_smallest f) ++ str " .. " ++ IK_DebugString (f_largest f))
             (new_files_ e) r in
  r ++ z2b 10 :: str "}" ++ [z2b 10].

(** ** Well-formed edits *)

Definition level_ok (l : Z) : Prop := 0 <= l < Z.of_nat kNumLevels.

Definition num_ok (n : Z) : Prop := 0 <= n < 2 ^ 64.

Definition key_ok (k : bytes) : Prop := k <> [] /\ sz k < 2 ^ 32.

Definition file_ok (f : FileMetaData) : Prop :=
  f_refs f = 0 /\ f_allowed_seeks f = 1 << 30 /\ num_ok (f_number f) /\ num_ok (f_file_size f) /\
  key_ok (f_smallest f) /\ key_ok (f_largest f).

(** Counters are in range, a counter that is not set has its cleared value, and
    levels, keys and files are valid. *)

Record edit_ok (e : VersionEdit) : Prop := {
  eo_comparator : sz (comparator_ e) < 2 ^ 32 /\ (has_comparator_ e = false -> comparator_ e = []);
  eo_log : num_ok (log_number_ e) /\ (has_log_number_ e = false -> log_number_ e = 0);
  eo_prev : num_ok (prev_log_number_ e) /\ (has_prev_log_number_ e = false -> prev_log_number_ e = 0);
  eo_next : num_ok (next_file_number_ e) /\ (has_next_file_number_ e = false -> next_file_number_ e = 0);
  eo_last : num_ok (last_sequence_ e) /\ (has_last_sequence_ e = false -> last_sequence_ e = 0);
  eo_compact : Forall (fun p => level_ok (fst p) /\ key_ok (snd p)) (compact_pointers_ e);
  eo_deleted : Forall (fun p => level_ok (fst p) /\ num_ok (snd p)) (deleted_files_ e);
  eo_sorted : StronglySorted (fun a b => pair_lt a b = true) (deleted_files_ e);
  eo_new : Forall (fun p => level_ok (fst p) /\ file_ok (snd p)) (new_files_ e)
}.

(** ** Items: what one tag stands for *)

Inductive item :=
| IComparator (name : bytes)
| ILogNumber (n : Z)
| IPrevLogNumber (n : Z)
| INextFile (n : Z)
| ILastSequence (n : Z)
| ICompactPointer (level : Z) (key : bytes)
| IDeletedFile (level number : Z)
| INewFile (level number file_size : Z) (smallest largest : bytes).

Definition item_apply (e : VersionEdit) (i : item) : VersionEdit :=
  match i with
  | IComparator name => SetComparatorName name e
  | ILogNumber n => SetLogNumber n e
  | IPrevLogNumber n => SetPrevLogNumber n e
  | INextFile n => SetNextFile n e
  | ILastSequence n => SetLastSequence n e
  | ICompactPointer level key => SetCompactPointer level key e
  | IDeletedFile level number => RemoveFile level number e
  | INewFile level number size smallest largest => AddFile level number size smallest largest e
  end.

Definition lps (s : bytes) : bytes := PutLengthPrefixedSlice [] s.

Definition item_bytes (i : item) : bytes :=
  match i with
  | IComparator name => EncodeVarint32 kComparator ++ lps name
  | ILogNumber n => EncodeVarint32 kLogNumber ++ EncodeVarint64 n
  | IPrevLogNumber n => EncodeVarint32 kPrevLogNumber ++ EncodeVarint64 n
  | INextFile n => EncodeVarint32 kNextFileNumber ++ EncodeVarint64 n
  | ILastSequence n => EncodeVarint32 kLastSequence ++ EncodeVarint64 n
  | ICompactPointer level key => EncodeVarint32 kCompactPointer ++ EncodeVarint32 (u32 level) ++ lps key
  | IDeletedFile level number =>
      EncodeVarint32 kDeletedFile ++ EncodeVarint32 (u32 level) ++ EncodeVarint64 number
  | INewFile level number size smallest largest =>
      EncodeVarint32 kNewFile ++ EncodeVarint32 (u32 level) ++ EncodeVarint64 number ++
      EncodeVarint64 size ++ lps smallest ++ lps largest
  end.

Definition item_ok (i : item) : Prop :=
  match i with
  | IComparator name => sz name < 2 ^ 32
  | ILogNumber n | IPrevLogNumber n | INextFile n | ILastSequence n => num_ok n
  | ICompactPointer level key => level_ok level /\ key_ok key
  | IDeletedFile level number => level_ok level /\ num_ok number
  | INewFile level number size smallest largest =>
      level_ok level /\ num_ok number /\ num_ok size /\ key_ok smallest /\ key_ok largest
  end.

Definition items_of (e : VersionEdit) : list item :=
  (if has_comparator_ e then [IComparator (comparator_ e)] else []) ++
  (if has_log_number_ e then [ILogNumber (log_number_ e)] else []) ++
  (if has_prev_log_number_ e then [IPrevLogNumber (prev_log_number_ e)] else []) ++
  (if has_next_file_number_ e then [INextFile (next_file_number_ e)] else []) ++
  (if has_last_sequence_ e then [ILastSequence (last_sequence_ e)] else []) ++
  map (fun p => ICompactPointer (fst p) (snd p)) (compact_pointers_ e) ++
  map (fun p => IDeletedFile (fst p) (snd p)) (deleted_files_ e) ++
  map (fun p => INewFile (fst p) (f_number (snd p)) (f_file_size (snd p)) (f_smallest (snd p))
                  (f_largest (snd p))) (new_files_ e).

Definition items_bytes (its : list item) : bytes := concat (map item_bytes its).

Lemma items_bytes_app l1 l2 : items_bytes (l1 ++ l2) = items_bytes l1 ++ items_bytes l2.
Proof. unfold items_bytes. rewrite map_app, concat_app. reflexivity. Qed.

Lemma fold_put {A} (put : bytes -> A -> bytes) (f : A -> item) l :
  (forall dst x, put dst x = dst ++ item_bytes (f x)) ->
  forall dst, fold_left put l dst = dst ++ items_bytes (map f l).
Proof.
  intros H. induction l as [|x l IH]; intros dst; cbn; [rewrite app_nil_r; reflexivity|].
  rewrite IH, H, <- app_assoc. reflexivity.
Qed.

Lemma VE_EncodeTo_items e dst : VE_EncodeTo e dst = dst ++ items_bytes (items_of e).
Proof.
  assert (Hone : forall (c : bool) (d d' : bytes) i, d' = d ++ item_bytes i ->
    (if c then d' else d) = d ++ items_bytes (if c then [i] else [])).
  { intros [] d d' i ->; unfold items_bytes; cbn; rewrite ?app_nil_r; reflexivity. }
  unfold VE_EncodeTo, items_of. cbv zeta. rewrite !items_bytes_app.
  rewrite (fold_put put_new_file (fun p => INewFile (fst p) (f_number (snd p)) (f_file_size (snd p))
    (f_smallest (snd p)) (f_largest (snd p)))).
  2: { intros d [l f]. unfold put_new_file, PutVarint32, PutVarint64. cbn [fst snd item_bytes].
       rewrite PutLengthPrefixedSlice_app, (PutLengthPrefixedSlice_app (_ ++ _)), <- !app_assoc. reflexivity. }
  rewrite (fold_put put_deleted_file (fun p => IDeletedFile (fst p) (snd p))).
  2: { intros d [l f]. unfold put_deleted_file, PutVarint32, PutVarint64. cbn [fst snd item_bytes].
       rewrite <- !app_assoc. reflexivity. }
  rewrite (fold_put put_compact_pointer (fun p => ICompactPointer (fst p) (snd p))).
  2: { intros d [l f]. unfold put_compact_pointer, PutVarint32. cbn [fst snd item_bytes].
       rewrite PutLengthPrefixedSlice_app, <- !app_assoc. reflexivity. }
  rewrite (Hone (has_last_sequence_ e) _ _ (ILastSequence (last_sequence_ e)))
    by (unfold PutVarint64, PutVarint32; cbn [item_bytes]; rewrite <- !app_assoc; reflexivity).
  rewrite (Hone (has_next_file_number_ e) _ _ (INextFile (next_file_number_ e)))
    by (unfold PutVarint64, PutVarint32; cbn [item_bytes]; rewrite <- !app_assoc; reflexivity).
  rewrite (Hone (has_prev_log_number_ e) _ _ (IPrevLogNumber (prev_log_number_ e)))
    by (unfold PutVarint64, PutVarint32; cbn [item_bytes]; rewrite <- !app_assoc; reflexivity).
  rewrite (Hone (has_log_number_ e) _ _ (ILogNumber (log_number_ e)))
    by (unfold PutVarint64, PutVarint32; cbn [item_bytes]; rewrite <- !app_assoc; reflexivity).
  rewrite (Hone (has_comparator_ e) _ _ (IComparator (comparator_ e)))
    by (unfold PutVarint32; rewrite PutLengthPrefixedSlice_app; cbn [item_bytes]; rewrite <- !app_assoc; reflexivity).
  rewrite <- !app_assoc. reflexivity.
Qed.

(** ** Decoding items *)

Lemma GetLevel_get level rest : level_ok level ->
  GetLevel (EncodeVarint32 (u32 level) ++ rest) = Some (level, rest).
Proof.
  unfold level_ok, GetLevel. change (Z.of_nat kNumLevels) with 7. intros H.
  rewrite u32_small, varint32_get by lia. rewrite (proj2 (Z.ltb_lt _ _)) by lia. reflexivity.
Qed.

Lemma GetInternalKey_get k rest : key_ok k -> GetInternalKey (lps k ++ rest) = Some (k, rest).
Proof.
  intros [Hne Hs]. unfold GetInternalKey, lps. rewrite lps_get by exact Hs.
  destruct k; [contradiction|reflexivity].
Qed.

Definition item_tag (i : item) : Z :=
  match i with
  | IComparator _ => kComparator | ILogNumber _ => kLogNumber | IPrevLogNumber _ => kPrevLogNumber
  | INextFile _ => kNextFileNumber | ILastSequence _ => kLastSequence
  | ICompactPointer _ _ => kCompactPointer | IDeletedFile _ _ => kDeletedFile
  | INewFile _ _ _ _ _ => kNewFile
  end.

Lemma item_turn i e rest : item_ok i -> exists payload,
  GetVarint32 (item_bytes i ++ rest) = Some (item_tag i, payload ++ rest) /\
  DecodeFrom_turn (item_tag i) e (payload ++ rest) = inl (item_apply e i, rest).
Proof.
  destruct i; cbn [item_ok item_bytes item_apply item_tag]; intros H;
    (eexists; split; [rewrite <- app_assoc; apply varint32_get; cbv; split; congruence|]);
    unfold DecodeFrom_turn; cbn [Z.eqb Pos.eqb kComparator kLogNumber kPrevLogNumber kNextFileNumber kLastSequence
      kCompactPointer kDeletedFile kNewFile].
  - unfold lps. rewrite lps_get by exact H. reflexivity.
  - rewrite varint64_get by exact H. reflexivity.
  - rewrite varint64_get by exact H. reflexivity.
  - rewrite varint64_get by exact H. reflexivity.
  - rewrite varint64_get by exact H. reflexivity.
  - destruct H as [H1 H2]. rewrite <- app_assoc, GetLevel_get, GetInternalKey_get by assumption. reflexivity.
  - destruct H as [H1 H2]. rewrite <- app_assoc, GetLevel_get, varint64_get by assumption. reflexivity.
  - destruct H as (H1 & H2 & H3 & H4 & H5). rewrite <- !app_assoc.
    rewrite GetLevel_get, !varint64_get, !GetInternalKey_get by assumption. reflexivity.
Qed.

Lemma EncodeVarint32_cons v : exists b l, EncodeVarint32 v = b :: l.
Proof. unfold EncodeVarint32. zcases; eauto. Qed.

Lemma items_bytes_length its : (length its <= length (items_bytes its))%nat.
Proof.
  induction its as [|i its IH]; [cbn; lia|]. unfold items_bytes in *. cbn [map concat length]. rewrite length_app.
  enough (1 <= length (item_bytes i))%nat by lia.
  destruct i; cbn [item_bytes]; match goal with |- context [EncodeVarint32 ?t ++ _] =>
    destruct (EncodeVarint32_cons t) as (b & l & ->); cbn [length app]; lia end.
Qed.

Lemma DecodeFrom_loop_items its : Forall item_ok its -> forall fuel e, (length its < fuel)%nat ->
  DecodeFrom_loop fuel e (items_bytes its) = (None, fold_left item_apply its e).
Proof.
  induction 1 as [|i its Hi _ IH]; intros [|fuel] e Hf; try (cbn [length] in Hf; lia); [reflexivity|].
  unfold items_bytes in *. cbn [map concat DecodeFrom_loop].
  destruct (item_turn i e (concat (map item_bytes its)) Hi) as (payload & -> & ->).
  cbn [fold_left]. apply IH. cbn [length] in Hf. lia.
Qed.

(** ** The items of an edit rebuild it *)

Lemma pair_lt_trans a b c : pair_lt a b = true -> pair_lt b c = true -> pair_lt a c = true.
Proof. unfold pair_lt. rewrite !orb_true_iff, !andb_true_iff, !Z.ltb_lt, !Z.eqb_eq. lia. Qed.

Lemma pair_lt_asym a b : pair_lt a b = true -> pair_lt b a = false.
Proof.
  unfold pair_lt. rewrite orb_true_iff, orb_false_iff, andb_true_iff, andb_false_iff, !Z.ltb_lt, !Z.ltb_ge,
    Z.eqb_eq, Z.eqb_neq. lia.
Qed.

Lemma set_insert_last x s : Forall (fun y => pair_lt y x = true) s -> set_insert x s = s ++ [x].
Proof.
  induction 1 as [|y s Hy HF IH]; [reflexivity|]. cbn [set_insert app].
  rewrite (pair_lt_asym _ _ Hy), Hy, IH. reflexivity.
Qed.

Lemma fold_removes l : forall e, StronglySorted (fun a b => pair_lt a b = true) (deleted_files_ e ++ l) ->
  fold_left item_apply (map (fun p => IDeletedFile (fst p) (snd p)) l) e =
  with_lists e (compact_pointers_ e) (deleted_files_ e ++ l) (new_files_ e).
Proof.
  induction l as [|[a b] l IH]; intros e HS; cbn [map fold_left fst snd item_apply].
  - rewrite app_nil_r. destruct e; reflexivity.
  - assert (E : set_insert (a, b) (deleted_files_ e) = deleted_files_ e ++ [(a, b)]).
    { apply set_insert_last. clear IH. induction (deleted_files_ e) as [|y s IHs]; constructor.
      - apply StronglySorted_inv in HS as [_ HF]. apply Forall_app in HF as [_ HF]. apply Forall_inv in HF. exact HF.
      - apply IHs. apply StronglySorted_inv in HS as [HS _]. exact HS. }
    rewrite IH; cbn [RemoveFile with_lists deleted_files_]; rewrite E, <- app_assoc; [reflexivity|exact HS].
Qed.

Lemma fold_compacts l : forall e,
  fold_left item_apply (map (fun p => ICompactPointer (fst p) (snd p)) l) e =
  with_lists e (compact_pointers_ e ++ l) (deleted_files_ e) (new_files_ e).
Proof.
  induction l as [|[a b] l IH]; intros e; cbn [map fold_left fst snd item_apply].
  - rewrite app_nil_r. destruct e; reflexivity.
  - rewrite IH. unfold SetCompactPointer, with_lists. cbn. rewrite <- app_assoc. reflexivity.
Qed.

Lemma fold_news l : Forall (fun p => level_ok (fst p) /\ file_ok (snd p)) l -> forall e,
  fold_left item_apply (map (fun p => INewFile (fst p) (f_number (snd p)) (f_file_size (snd p))
    (f_smallest (snd p)) (f_largest (snd p))) l) e =
  with_lists e (compact_pointers_ e) (deleted_files_ e) (new_files_ e ++ l).
Proof.
  induction 1 as [|[a f] l [_ (Hr & Ha & _)] _ IH]; intros e; cbn [map fold_left fst snd item_apply].
  - rewrite app_nil_r. destruct e; reflexivity.
  - rewrite IH. unfold AddFile, with_lists. cbn. rewrite <- app_assoc. cbn in Hr, Ha.
    destruct f as [r s n z sm la]. cbn in Hr, Ha. subst r s. reflexivity.
Qed.

Lemma items_rebuild e : edit_ok e -> fold_left item_apply (items_of e) VE_Clear = e.
Proof.
  intros [Hc Hl Hp Hn Hs HC HD HSo HN]. unfold items_of. rewrite !fold_left_app, (fold_news _ HN), fold_compacts.
  set (e1 := fold_left item_apply (if has_last_sequence_ e then _ else _) _).
  assert (E1 : e1 = mkEdit (comparator_ e) (log_number_ e) (prev_log_number_ e) (next_file_number_ e)
    (last_sequence_ e) (has_comparator_ e) (has_log_number_ e) (has_prev_log_number_ e)
    (has_next_file_number_ e) (has_last_sequence_ e) [] [] []).
  { unfold e1. destruct (has_comparator_ e), (has_log_number_ e), (has_prev_log_number_ e),
      (has_next_file_number_ e), (has_last_sequence_ e);
      rewrite ?(proj2 Hc eq_refl), ?(proj2 Hl eq_refl), ?(proj2 Hp eq_refl), ?(proj2 Hn eq_refl),
        ?(proj2 Hs eq_refl); reflexivity. }
  rewrite E1, fold_removes by exact HSo. destruct e; reflexivity.
Qed.

Lemma items_of_ok e : edit_ok e -> Forall item_ok (items_of e).
Proof.
  intros [Hc Hl Hp Hn Hs HC HD HSo HN]. unfold items_of.
  repeat (apply Forall_app; split).
  - destruct (has_comparator_ e); repeat constructor. apply Hc.
  - destruct (has_log_number_ e); repeat constructor; apply Hl.
  - destruct (has_prev_log_number_ e); repeat constructor; apply Hp.
  - destruct (has_next_file_number_ e); repeat constructor; apply Hn.
  - destruct (has_last_sequence_ e); repeat constructor; apply Hs.
  - apply list.Forall_fmap. exact HC.
  - apply list.Forall_fmap. exact HD.
  - apply list.Forall_fmap. eapply List.Forall_impl; [|exact HN]. intros [l f] [H1 (_ & _ & H)]. cbn. tauto.
Qed.

(** ** What decoding accepts *)

Lemma lps_used input s rest : GetLengthPrefixedSlice input = Some (s, rest) -> sz s < 2 ^ 32 /\
  (length rest < length input)%nat.
Proof.
  intros H. destruct (GetLengthPrefixedSlice_used _ _ _ H) as (u & -> & Hu). split.
  - unfold GetLengthPrefixedSlice in H. destruct (GetVarint32 _) as [[len q]|] eqn:E; [|discriminate].
    apply GetVarint32_used in E as [Hr _]. destruct (len <=? sz q); [|discriminate]. injection H as <- _.
    unfold sz. rewrite length_take. lia.
  - rewrite !length_app. destruct u; [contradiction|cbn; lia].
Qed.

Lemma varint64_used input n rest : GetVarint64 input = Some (n, rest) -> num_ok n /\ (length rest < length input)%nat.
Proof.
  intros H. apply GetVarint64_used in H as (Hr & u & -> & Hu). split; [exact Hr|].
  rewrite length_app. destruct u; [contradiction|cbn; lia].
Qed.

Lemma level_used input l rest : GetLevel input = Some (l, rest) -> level_ok l /\ (length rest < length input)%nat.
Proof.
  unfold GetLevel. intros H. destruct (GetVarint32 input) as [[v q]|] eqn:E; [|discriminate].
  apply GetVarint32_used in E as (Hr & u & -> & Hu). destruct (Z.ltb_spec v (Z.of_nat kNumLevels)); [|discriminate].
  injection H as <- <-. split; [unfold level_ok; lia|]. rewrite length_app. destruct u; [contradiction|cbn; lia].
Qed.

Lemma key_used input k rest : GetInternalKey input = Some (k, rest) -> key_ok k /\ (length rest < length input)%nat.
Proof.
  unfold GetInternalKey. intros H. destruct (GetLengthPrefixedSlice input) as [[s q]|] eqn:E; [|discriminate].
  apply lps_used in E as [Hs Hl]. destruct s; [discriminate|]. injection H as <- <-.
  split; [split; [discriminate|exact Hs]|exact Hl].
Qed.

(** A turn that succeeds applies a valid item and does not extend the input. *)

Lemma turn_item tag e input e' rest : DecodeFrom_turn tag e input = inl (e', rest) ->
  (exists i, item_ok i /\ e' = item_apply e i) /\ (length rest <= length input)%nat.
Proof.
  unfold DecodeFrom_turn. intros H.
  repeat match type of H with
  | (if ?c then _ else _) = _ => destruct c
  | match GetLengthPrefixedSlice ?i with _ => _ end = _ =>
      let E := fresh "E" in destruct (GetLengthPrefixedSlice i) as [[? ?]|] eqn:E; [apply lps_used in E as [? ?]|discriminate]
  | match GetVarint64 ?i with _ => _ end = _ =>
      let E := fresh "E" in destruct (GetVarint64 i) as [[? ?]|] eqn:E; [apply varint64_used in E as [? ?]|discriminate]
  | match GetLevel ?i with _ => _ end = _ =>
      let E := fresh "E" in destruct (GetLevel i) as [[? ?]|] eqn:E; [apply level_used in E as [? ?]|discriminate]
  | match GetInternalKey ?i with _ => _ end = _ =>
      let E := fresh "E" in destruct (GetInternalKey i) as [[? ?]|] eqn:E; [apply key_used in E as [? ?]|discriminate]
  | inr _ = inl _ => discriminate
  end; injection H as <- <-; (split; [|lia]).
  - exists (IComparator l). auto.
  - exists (ILogNumber z). auto.
  - exists (IPrevLogNumber z). auto.
  - exists (INextFile z). auto.
  - exists (ILastSequence z). auto.
  - exists (ICompactPointer z l0). cbn. auto.
  - exists (IDeletedFile z z0). cbn. auto.
  - eexists (INewFile _ _ _ _ _). cbn. split; [|reflexivity]. auto.
Qed.

Lemma set_insert_sorted x s : StronglySorted (fun a b => pair_lt a b = true) s ->
  StronglySorted (fun a b => pair_lt a b = true) (set_insert x s) /\
  (forall y, In y (set_insert x s) -> y = x \/ In y s).
Proof.
  induction 1 as [|y s HS [IH1 IH2] HF]; cbn [set_insert].
  - split; [repeat constructor|]. intros z [<-|[]]. auto.
  - destruct (pair_lt x y) eqn:E1; [|destruct (pair_lt y x) eqn:E2].
    + split; [|intros z [<-|H]; auto]. constructor; [constructor; assumption|]. constructor; [exact E1|].
      eapply List.Forall_impl; [|exact HF]. intros z Hz. exact (pair_lt_trans _ _ _ E1 Hz).
    + split.
      * constructor; [exact IH1|]. apply List.Forall_forall. intros z Hz.
        destruct (IH2 z Hz) as [->|Hin]; [exact E2|]. exact (proj1 (List.Forall_forall _ _) HF z Hin).
      * intros z [<-|H]; [right; left; reflexivity|]. destruct (IH2 z H); [left; assumption|right; right; assumption].
    + split; [constructor; assumption|auto].
Qed.

Lemma item_apply_ok e i : edit_ok e -> item_ok i -> edit_ok (item_apply e i).
Proof.
  intros [Hc Hl Hp Hn Hs HC HD HSo HN] Hi.
  destruct i; cbn [item_ok item_apply] in *; split; cbn; try assumption;
    try (split; [assumption|discriminate]).
  - apply Forall_app. split; [exact HC|]. repeat constructor; apply Hi.
  - apply List.Forall_forall. intros y Hy. destruct (set_insert_sorted (level, number) _ HSo) as [_ Hin].
    destruct (Hin y Hy) as [->|Hin']; [exact Hi|]. exact (proj1 (List.Forall_forall _ _) HD y Hin').
  - apply set_insert_sorted, HSo.
  - apply Forall_app. split; [exact HN|]. constructor; [|constructor]. cbn. unfold file_ok. cbn. tauto.
Qed.

Lemma VE_Clear_ok : edit_ok VE_Clear.
Proof. split; cbn; unfold num_ok; first [constructor; fail|split; [vm_compute; easy|intros; reflexivity]|constructor]. Qed.

(** The loop ends for lack of input, never for lack of fuel. *)

Lemma DecodeFrom_loop_ok : forall fuel e input, edit_ok e -> (length input < fuel)%nat ->
  edit_ok (snd (DecodeFrom_loop fuel e input)).
Proof.
  induction fuel as [|fuel IH]; intros e input He Hf; [lia|]. cbn [DecodeFrom_loop].
  destruct (GetVarint32 input) as [[tag rest]|] eqn:E; [|exact He].
  apply GetVarint32_used in E as (_ & u & -> & Hu). rewrite length_app in Hf.
  destruct (DecodeFrom_turn tag e rest) as [[e' rest']|msg] eqn:ET; [|exact He].
  destruct (turn_item _ _ _ _ _ ET) as [(i & Hi & ->) Hl].
  apply IH; [exact (item_apply_ok e i He Hi)|]. destruct u; [contradiction|]. cbn in Hf. lia.
Qed.

Lemma DecodeFrom_loop_fuel : forall fuel fuel' e input, (length input < fuel)%nat -> (length input < fuel')%nat ->
  DecodeFrom_loop fuel e input = DecodeFrom_loop fuel' e input.
Proof.
  induction fuel as [|fuel IH]; intros [|fuel'] e input Hf Hf'; try lia. cbn [DecodeFrom_loop].
  destruct (GetVarint32 input) as [[tag rest]|] eqn:E; [|reflexivity].
  apply GetVarint32_used in E as (_ & u & -> & Hu). rewrite length_app in Hf, Hf'.
  destruct (DecodeFrom_turn tag e rest) as [[e' rest']|msg] eqn:ET; [|reflexivity].
  destruct (turn_item _ _ _ _ _ ET) as [_ Hl]. destruct u; [contradiction|]. cbn in Hf, Hf'. apply IH; lia.
Qed.

Lemma VE_decode_encode e : edit_ok e -> VE_DecodeFrom (VE_EncodeTo e []) = (OK, e).
Proof.
  intros He. rewrite VE_EncodeTo_items. unfold VE_DecodeFrom. cbn [app].
  pose proof (items_bytes_length (items_of e)) as Hl.
  rewrite DecodeFrom_loop_items by (exact (items_of_ok e He) || lia). rewrite items_rebuild by exact He. reflexivity.
Qed.

(** ** Properties *)

(** The manifest record round-trips: decoding the encoding of a well-formed
    edit gives back the edit, with its counters, compaction pointers, deleted
    and new files in order. *)
Theorem version_edit_roundtrip : forall e, edit_ok e -> VE_DecodeFrom (VE_EncodeTo e []) = (OK, e).
Proof. exact VE_decode_encode. Qed.

Definition sample_edit : VersionEdit :=
  RemoveFile 3 20 (RemoveFile 1 40 (RemoveFile 1 7
    (AddFile 0 12 4096 (mkInternalKey (str "a") 3 kTypeValue) (mkInternalKey (str "k") 9 kTypeDeletion)
      (SetCompactPointer 2 (mkInternalKey (str "x") 4 kTypeValue)
        (SetLastSequence 1000 (SetNextFile 13 (SetPrevLogNumber 0 (SetLogNumber 11
          (SetComparatorName (str "leveldb.BytewiseComparator") VE_Clear))))))))).

Lemma version_edit_roundtrip_witness : VE_DecodeFrom (VE_EncodeTo sample_edit []) = (OK, sample_edit).
Proof.
  apply version_edit_roundtrip. split; cbn; unfold num_ok; try (split; [vm_compute; easy|discriminate]).
  - repeat constructor; cbn; (lia || discriminate || reflexivity).
  - repeat constructor; cbn; unfold num_ok; lia.
  - repeat constructor.
  - repeat constructor; cbn; unfold num_ok; (lia || discriminate || reflexivity).
Defined.

(** C30. Decoding accepts only well-formed edits, whatever the input: the loop
    ends within one turn per byte (more turns change nothing), the result is OK
    or Corruption, the edit read so far is well-formed (levels below the number of
    levels, no empty keys, no duplicate deleted files), and what was accepted
    re-encodes to a record that decodes to the same edit. *)
Theorem version_edit_decode_safe : forall src,
  let '(s, e) := VE_DecodeFrom src in
  edit_ok e /\ (s = OK \/ IsCorruption s = true) /\ VE_DecodeFrom (VE_EncodeTo e []) = (OK, e) /\
  forall fuel, (length src < fuel)%nat ->
    DecodeFrom_loop fuel VE_Clear src = DecodeFrom_loop (S (length src)) VE_Clear src.
Proof.
  intros src. unfold VE_DecodeFrom at 1. pose proof (DecodeFrom_loop_ok (S (length src)) VE_Clear src VE_Clear_ok) as H.
  destruct (DecodeFrom_loop _ _ _) as [msg e] eqn:EL. cbn [snd] in H. specialize (H ltac:(lia)).
  split; [exact H|]. split; [|split; [exact (VE_decode_encode e H)|]].
  2: { intros fuel Hf. rewrite <- EL. apply DecodeFrom_loop_fuel; lia. }
  destruct msg; [right|left; reflexivity]. unfold IsCorruption, Corruption. rewrite MakeStatus_code. reflexivity.
Qed.
