(* ===== verification/Version.v ===== *)
(** * Versions: the files of each level (db/version_set.h, db/version_set.cc)

    A version is the list of table files of every level.  File metadata is
    shared between versions by pointer: a pointer is a value of a type [FP], and
    [fm] reads the record behind it.  Level 0 may hold overlapping files; the
    files of every other level are disjoint and sorted.  The theorems show that
    the binary search, the overlap tests and the selection of overlapping files
    mean what they say, and that a lookup through the levels finds the newest
    entry.  Reference counts only decide when memory is released; the release
    itself is not modelled. *)

From Stdlib Require Import SpecFloat.
From S2P Require Import Prelude Coding Compare DbFormat Logging MemTable Iterator TwoLevel TableBuilder Table VersionEdit.
#[local] Open Scope Z_scope.
#[local] Open Scope ldb_scope.

(** ** Size limits ([options->max_file_size] is a [size_t]) *)

Definition TargetFileSize (max_file_size : Z) : Z := max_file_size.

Definition MaxGrandParentOverlapBytes (max_file_size : Z) : Z :=
  s64 (u64 (10 * TargetFileSize max_file_size)).

Definition ExpandedCompactionByteSizeLimit (max_file_size : Z) : Z :=
  s64 (u64 (25 * TargetFileSize max_file_size)).

Definition MaxFileSizeForLevel (max_file_size : Z) (level : nat) : Z :=
  TargetFileSize max_file_size.

(** ** Doubles: IEEE 754 binary64 *)

Definition d_of_Z (x : Z) : spec_float := binary_normalize 53 1024 x 0 false.
Definition d_mul : spec_float -> spec_float -> spec_float := SFmul 53 1024.
Definition d_div : spec_float -> spec_float -> spec_float := SFdiv 53 1024.

(** The loop runs [level - 1] times. *)

Fixpoint MaxBytesForLevel_loop (n : nat) (result : spec_float) : spec_float :=
  match n with O => result | S n => MaxBytesForLevel_loop n (d_mul result (d_of_Z 10)) end.

Definition MaxBytesForLevel (level : nat) : spec_float :=
  MaxBytesForLevel_loop (level - 1) (d_mul (d_of_Z 10) (d_of_Z 1048576)).

Section Files.
Context (U : Comparator) {FP : Type} (fm : FP -> FileMetaData).

Abbreviation icmp := (IKC_Compare U).

Definition TotalFileSize (files : list FP) : Z :=
  fold_left (fun sum f => s64 (sum + f_file_size (fm f))) files 0.

(** [smallest.user_key()] and [largest.user_key()] *)

Definition smallest_user (f : FP) : bytes := ExtractUserKey (f_smallest (fm f)).
Definition largest_user (f : FP) : bytes := ExtractUserKey (f_largest (fm f)).

(** ** Searching a sorted list of files

    The search halves the interval, so the number of files bounds the number
    of rounds. *)

Fixpoint FindFile_loop (fuel : nat) (files : list FP) (key : bytes) (left right : Z) : Z :=
  match fuel with
  | O => right
  | S fuel =>
      if left <? right then
        let mid := u32 (left + right) / 2 in
        match files !! Z.to_nat mid with
        | Some f =>
            if icmp (f_largest (fm f)) key <? 0
            then FindFile_loop fuel files key (u32 (mid + 1)) right
            else FindFile_loop fuel files key left mid
        | None => right
        end
      else right
  end.

Definition FindFile (files : list FP) (key : bytes) : Z :=
  s32 (FindFile_loop (S (length files)) files key 0 (u32 (sz files))).

(** ** Overlap with a range of user keys ([None] is a null bound) *)

Definition AfterFile (user_key : option bytes) (f : FP) : bool :=
  match user_key with
  | Some k => 0 <? cmp k (largest_user f)
  | None => false
  end.

Definition BeforeFile (user_key : option bytes) (f : FP) : bool :=
  match user_key with
  | Some k => cmp k (smallest_user f) <? 0
  | None => false
  end.

Fixpoint SomeFileOverlapsRange_loop (files : list FP) (smallest largest : option bytes) : bool :=
  match files with
  | [] => false
  | f :: files =>
      if AfterFile smallest f || BeforeFile largest f
      then SomeFileOverlapsRange_loop files smallest largest
      else true
  end.

Definition SomeFileOverlapsRange (disjoint_sorted_files : bool) (files : list FP)
    (smallest_user_key largest_user_key : option bytes) : bool :=
  if negb disjoint_sorted_files
  then SomeFileOverlapsRange_loop files smallest_user_key largest_user_key
  else
    let index :=
      match smallest_user_key with
      | Some k => u32 (FindFile files (mkInternalKey k kMaxSequenceNumber kValueTypeForSeek))
      | None => 0
      end in
    match files !! Z.to_nat index with
    | None => false
    | Some f => negb (BeforeFile largest_user_key f)
    end.

(** ** The iterator over the files of a level *)

Record LevelFileNumIterator := mkLevelFileNum { flist_ : list FP; lf_index : Z }.

Definition LevelFileNumIterator_new (flist : list FP) : LevelFileNumIterator :=
  mkLevelFileNum flist (u32 (sz flist)).

Definition lf_at (it : LevelFileNumIterator) : option FP := flist_ it !! Z.to_nat (lf_index it).

Definition LevelFileNumOps : Iterator LevelFileNumIterator := {|
  iValid it := lf_index it <? sz (flist_ it);
  iSeek it target := mkLevelFileNum (flist_ it) (u32 (FindFile (flist_ it) target));
  iSeekToFirst it := mkLevelFileNum (flist_ it) 0;
  iSeekToLast it :=
    mkLevelFileNum (flist_ it) (match flist_ it with [] => 0 | _ => u32 (sz (flist_ it) - 1) end);
  iNext it := mkLevelFileNum (flist_ it) (u32 (lf_index it + 1));
  iPrev it :=
    mkLevelFileNum (flist_ it)
      (if lf_index it =? 0 then u32 (sz (flist_ it)) else lf_index it - 1);
  iKey it := match lf_at it with Some f => f_largest (fm f) | None => [] end;
  iValue it :=
    match lf_at it with
    | Some f => EncodeFixed64 (f_number (fm f)) ++ EncodeFixed64 (f_file_size (fm f))
    | None => []
    end;
  iStatus it := OK
|}.

(** [GetFileIterator] opens the file whose number and size are in the value. *)

Definition GetFileIterator {It} (NewIterator : Z -> Z -> It) (error_iterator : Status -> It)
    (file_value : bytes) : It :=
  if negb (sz file_value =? 16)
  then error_iterator (Corruption (str "FileReader invoked with unexpected value") [])
  else NewIterator (DecodeFixed64 file_value) (DecodeFixed64 (drop 8 file_value)).

(** ** Versions *)

Record Version := mkVersion {
  v_files : list (list FP);                (* files_[level] *)
  v_file_to_compact : option FP;
  v_file_to_compact_level : Z;
  v_compaction_score : spec_float;
  v_compaction_level : Z
}.

(** A new version, without files yet. *)

Definition Version_new : Version :=
  mkVersion (repeat [] kNumLevels) None (-1) (d_of_Z (-1)) (-1).

Definition files_at (v : Version) (level : nat) : list FP := default [] (v_files v !! level).

Definition OverlapInLevel (v : Version) (level : nat) (smallest largest : option bytes) : bool :=
  SomeFileOverlapsRange (0 <? level)%nat (files_at v level) smallest largest.

(** [GetOverlappingInputs]: the loop reads [files_[level][i++]] and, at level
    0, starts again from 0 with a wider range when a file sticks out of it.
    [rest] are the files from index [i] on.  Every restart moves a bound of the
    range to a bound of a file strictly outside of it, so with [n] files there
    are at most [2 * n] restarts and [(2 * n + 1) * (n + 1)] rounds. *)

Fixpoint GetOverlappingInputs_loop (fuel : nat) (level : nat) (files rest : list FP)
    (user_begin user_end : option bytes) (inputs : list FP) : option (list FP) :=
  match fuel with
  | O => None
  | S fuel =>
      match rest with
      | [] => Some inputs
      | f :: rest =>
          let file_start := smallest_user f in
          let file_limit := largest_user f in
          if match user_begin with Some b => cmp file_limit b <? 0 | None => false end
          then GetOverlappingInputs_loop fuel level files rest user_begin user_end inputs
          else if match user_end with Some e => 0 <? cmp file_start e | None => false end
          then GetOverlappingInputs_loop fuel level files rest user_begin user_end inputs
          else if (level =? 0)%nat && match user_begin with Some b => cmp file_start b <? 0 | None => false end
          then GetOverlappingInputs_loop fuel level files files (Some file_start) user_end []
          else if (level =? 0)%nat && match user_end with Some e => 0 <? cmp file_limit e | None => false end
          then GetOverlappingInputs_loop fuel level files files user_begin (Some file_limit) []
          else GetOverlappingInputs_loop fuel level files rest user_begin user_end (inputs ++ [f])
      end
  end.

Definition overlap_fuel (files : list FP) : nat := (2 * length files + 1) * (length files + 1).

Definition GetOverlappingInputs (v : Version) (level : nat) (begin_ end_ : option bytes) : option (list FP) :=
  let files := files_at v level in
  GetOverlappingInputs_loop (overlap_fuel files) level files files
    (option_map ExtractUserKey begin_) (option_map ExtractUserKey end_) [].

(** [PickLevelForMemTableOutput]: the loop runs while [level < kMaxMemCompactLevel]. *)

Fixpoint PickLevel_loop (fuel : nat) (max_file_size : Z) (v : Version) (level : nat)
    (smallest_user_key largest_user_key : bytes) : option nat :=
  match fuel with
  | O => Some level
  | S fuel =>
      if (level <? kMaxMemCompactLevel)%nat then
        if OverlapInLevel v (level + 1) (Some smallest_user_key) (Some largest_user_key) then Some level
        else if (level + 2 <? kNumLevels)%nat then
          match GetOverlappingInputs v (level + 2)
                  (Some (mkInternalKey smallest_user_key kMaxSequenceNumber kValueTypeForSeek))
                  (Some (mkInternalKey largest_user_key 0 kTypeDeletion)) with
          | None => None
          | Some overlaps =>
              if MaxGrandParentOverlapBytes max_file_size <? TotalFileSize overlaps then Some level
              else PickLevel_loop fuel max_file_size v (level + 1) smallest_user_key largest_user_key
          end
        else PickLevel_loop fuel max_file_size v (level + 1) smallest_user_key largest_user_key
      else Some level
  end.

Definition PickLevelForMemTableOutput (max_file_size : Z) (v : Version)
    (smallest_user_key largest_user_key : bytes) : option nat :=
  if negb (OverlapInLevel v 0 (Some smallest_user_key) (Some largest_user_key))
  then PickLevel_loop kMaxMemCompactLevel max_file_size v 0 smallest_user_key largest_user_key
  else Some O.

(** ** Visiting the files that may hold a key

    File numbers are distinct, so sorting by number has one result and an
    insertion sort stands for [std::sort]. *)

Definition NewestFirst (a b : FP) : bool := f_number (fm b) <? f_number (fm a).

Fixpoint insert_newest (f : FP) (l : list FP) : list FP :=
  match l with
  | [] => [f]
  | g :: l' => if NewestFirst g f then g :: insert_newest f l' else f :: l
  end.

Definition sort_newest (l : list FP) : list FP := fold_right insert_newest [] l.

Section ForEach.
Context {St : Type} (func : St -> nat -> FP -> St * bool).

Fixpoint visit (st : St) (level : nat) (files : list FP) : St * bool :=
  match files with
  | [] => (st, true)
  | f :: files =>
      let '(st, continue) := func st level f in
      if continue then visit st level files else (st, false)
  end.

Definition in_range (user_key : bytes) (f : FP) : bool :=
  (0 <=? cmp user_key (smallest_user f)) && (cmp user_key (largest_user f) <=? 0).

(** The levels from 1 on. *)

Fixpoint ForEachOverlapping_levels (st : St) (level : nat) (levels : list (list FP))
    (user_key internal_key : bytes) : St :=
  match levels with
  | [] => st
  | files :: levels =>
      let next st := ForEachOverlapping_levels st (S level) levels user_key internal_key in
      if sz files =? 0 then next st
      else
        match files !! Z.to_nat (u32 (FindFile files internal_key)) with
        | None => next st
        | Some f =>
            if cmp user_key (smallest_user f) <? 0 then next st
            else
              let '(st, continue) := func st level f in
              if continue then next st else st
        end
  end.

Definition ForEachOverlapping (v : Version) (user_key internal_key : bytes) (st : St) : St :=
  let tmp := List.filter (in_range user_key) (files_at v 0) in
  let '(st, continue) := visit st 0 (sort_newest tmp) in
  if continue
  then ForEachOverlapping_levels st 1 (tail (v_files v)) user_key internal_key
  else st.

End ForEach.

(** ** Lookup *)

Inductive SaverState := kNotFound | kFound | kDeleted | kCorrupt | kDeletedByRange.

Record Saver := mkSaver { sv_state : SaverState; sv_user_key : bytes; sv_value : bytes }.

Definition SaveValue (s : Saver) (ikey v : bytes) : Saver :=
  match ParseInternalKey ikey with
  | None => mkSaver kCorrupt (sv_user_key s) (sv_value s)
  | Some parsed_key =>
      if cmp (user_key parsed_key) (sv_user_key s) =? 0 then
        match type parsed_key with
        | kTypeValue => mkSaver kFound (sv_user_key s) v
        | kTypeDeletion => mkSaver kDeleted (sv_user_key s) (sv_value s)
        | kTypeRangeDeletion => mkSaver kDeletedByRange (sv_user_key s) (sv_value s)
        end
      else s
  end.

(** [GetStats]: the file to charge a seek to, and its level. *)

Record GetStats := mkGetStats { seek_file : option FP; seek_file_level : Z }.

End Files.

Arguments Version : clear implicits.
Arguments mkVersion {FP}.
Arguments LevelFileNumIterator : clear implicits.
Arguments mkLevelFileNum {FP}.
Arguments GetStats : clear implicits.
Arguments mkGetStats {FP}.

(** The table cache as the version uses it: a lookup in the table file of a
    number and a size returns its status and the entry handed to the callback. *)

Class TableCacheOps (TC : Type) := {
  tc_Get : TC -> ReadOptions -> Z -> Z -> bytes -> TC * (Status * option entry)
}.

Section Get.
Context (U : Comparator) {FP : Type} (fm : FP -> FileMetaData) {TC : Type} {TCO : TableCacheOps TC}.

(** The state of a lookup: [State] of [Version::Get] and the table cache. *)

Record GetState := mkGetState {
  gs_saver : Saver;
  gs_stats : GetStats FP;
  gs_last_file_read : option FP;
  gs_last_file_read_level : Z;
  gs_status : Status;
  gs_found : bool;
  gs_cache : TC
}.

Definition Match (options : ReadOptions) (ikey : bytes) (st : GetState) (level : nat) (f : FP)
  : GetState * bool :=
  let stats :=
    match seek_file (gs_stats st), gs_last_file_read st with
    | None, Some last => mkGetStats (Some last) (gs_last_file_read_level st)
    | _, _ => gs_stats st
    end in
  let '(cache, (s, saved)) :=
    tc_Get (gs_cache st) options (f_number (fm f)) (f_file_size (fm f)) ikey in
  let saver :=
    match saved with
    | Some (k, v) => SaveValue U (gs_saver st) k v
    | None => gs_saver st
    end in
  let result s found :=
    mkGetState saver stats (Some f) (Z.of_nat level) s found cache in
  if negb (ok s) then (result s true, false)
  else
    match sv_state saver with
    | kNotFound => (result s (gs_found st), true)
    | kFound => (result s true, false)
    | kDeleted | kDeletedByRange => (result s (gs_found st), false)
    | kCorrupt => (result (Corruption (str "corrupted key for ") (sv_user_key saver)) true, false)
    end.

Definition Version_Get (options : ReadOptions) (v : Version FP) (k : LookupKey) (value : bytes) (tc : TC)
  : Status * bytes * GetStats FP * TC :=
  let state :=
    mkGetState (mkSaver kNotFound (lookup_user_key k) value) (mkGetStats None (-1)) None (-1) OK false tc in
  let state :=
    ForEachOverlapping U fm (Match options (internal_key k)) v (lookup_user_key k) (internal_key k) state in
  (if gs_found state then gs_status state else NotFound [] [],
   sv_value (gs_saver state), gs_stats state, gs_cache state).

End Get.

(** ** Seek statistics

    [allowed_seeks] is behind the shared pointer: [set_seeks] writes it. *)

Section Stats.
Context (U : Comparator) {FP : Type} (fm : FP -> FileMetaData) {M : Type} (set_seeks : FP -> Z -> M -> M).

Definition UpdateStats (m : M) (v : Version FP) (stats : GetStats FP) : M * Version FP * bool :=
  match seek_file stats with
  | None => (m, v, false)
  | Some f =>
      let allowed_seeks := s32 (f_allowed_seeks (fm f) - 1) in
      let m := set_seeks f allowed_seeks m in
      if (allowed_seeks <=? 0) && match v_file_to_compact v with None => true | Some _ => false end
      then (m, mkVersion (v_files v) (Some f) (seek_file_level stats) (v_compaction_score v) (v_compaction_level v), true)
      else (m, v, false)
  end.

(** The callback of [RecordReadSample] keeps the first match and stops at the
    second one. *)

Definition Sample_Match (st : GetStats FP * Z) (level : nat) (f : FP) : (GetStats FP * Z) * bool :=
  let '(stats, matches) := st in
  let matches := matches + 1 in
  let stats := if matches =? 1 then mkGetStats (Some f) (Z.of_nat level) else stats in
  ((stats, matches), matches <? 2).

Definition RecordReadSample (m : M) (v : Version FP) (internal_key : bytes) : M * Version FP * bool :=
  match ParseInternalKey internal_key with
  | None => (m, v, false)
  | Some ikey =>
      let '(stats, matches) :=
        ForEachOverlapping U fm Sample_Match v (user_key ikey) internal_key (mkGetStats None (-1), 0) in
      if 2 <=? matches then UpdateStats m v stats else (m, v, false)
  end.

End Stats.

(** ** Sorted levels *)

Section FilesOk.
Context {U : Comparator} {UOK : ComparatorOk U} {FP : Type} (fm : FP -> FileMetaData).

#[local] Abbreviation ICmp := (InternalKeyComparator U).

(** The bounds of a file are internal keys; no tag is above that of a seek. *)

Definition seek_tag : Z := PackSequenceAndType kMaxSequenceNumber kValueTypeForSeek.

Record file_wf (f : FP) : Prop := {
  fw_small : @cmp_dom ICmp (f_smallest (fm f));
  fw_large : @cmp_dom ICmp (f_largest (fm f));
  fw_order : IKC_Compare U (f_smallest (fm f)) (f_largest (fm f)) <= 0;
  fw_tag : ExtractTag (f_largest (fm f)) <= seek_tag
}.

(** The files of a level other than 0: each ends before the next one begins. *)

Record level_sorted (files : list FP) : Prop := {
  ls_wf : Forall file_wf files;
  ls_order : StronglySorted (fun f g => IKC_Compare U (f_largest (fm f)) (f_smallest (fm g)) < 0) files;
  ls_small : sz files < 2 ^ 31
}.

(** The entries of the iterator over the files of a level. *)

Definition file_value (f : FP) : bytes :=
  EncodeFixed64 (f_number (fm f)) ++ EncodeFixed64 (f_file_size (fm f)).

Definition level_entries (files : list FP) : list entry :=
  map (fun f => (f_largest (fm f), file_value f)) files.

Lemma level_entries_lookup files i :
  level_entries files !! i = option_map (fun f => (f_largest (fm f), file_value f)) (files !! i).
Proof. unfold level_entries. rewrite list_lookup_fmap. destruct (files !! i); reflexivity. Qed.

Lemma level_entries_sorted files : level_sorted files -> sorted_entries ICmp (level_entries files).
Proof.
  intros [HW HS _]. split.
  - induction HS as [|f files HS IH HF]; [constructor|]. apply Forall_cons_iff in HW as [Hf HW].
    cbn [level_entries map]. constructor; [exact (IH HW)|]. apply List.Forall_forall. intros e He.
    apply in_map_iff in He as (g & <- & Hg). rewrite List.Forall_forall in HF, HW. specialize (HF g Hg).
    destruct (HW g Hg) as [W1 W2 W3 _]. destruct Hf as [_ W4 _ _]. unfold key_lt. cbn [fst].
    exact (cmp_lt_le_trans (C := ICmp) _ _ _ W4 W1 W2 HF W3).
  - apply List.Forall_forall. intros e He. apply in_map_iff in He as (g & <- & Hg).
    rewrite List.Forall_forall in HW. exact (fw_large _ (HW g Hg)).
Qed.

Lemma FindFile_loop_ok files key : level_sorted files -> @cmp_dom ICmp key ->
  forall fuel left right, let lb := lower_bound ICmp (level_entries files) key in
  0 <= left <= Z.of_nat lb -> Z.of_nat lb <= right <= sz files -> right - left < Z.of_nat fuel ->
  FindFile_loop U fm fuel files key left right = Z.of_nat lb.
Proof.
  intros HL Hk. pose proof (level_entries_sorted _ HL) as HS. pose proof (ls_small _ HL).
  induction fuel as [|fuel IH]; cbv zeta; intros left right Hl Hr Hf; [lia|]. cbn [FindFile_loop].
  destruct (Z.ltb_spec left right) as [Hlr|Hlr]; [|lia].
  rewrite (u32_small (left + right)) by lia. set (mid := (left + right) / 2).
  assert (Hm : left <= mid < right) by (subst mid; split; [apply Z.div_le_lower_bound|apply Z.div_lt_upper_bound]; lia).
  assert (is_Some (files !! Z.to_nat mid)) as [f Ef] by (apply lookup_lt_is_Some; unfold sz in *; lia).
  rewrite Ef. assert (Ee : level_entries files !! Z.to_nat mid = Some (f_largest (fm f), file_value f))
    by (rewrite level_entries_lookup, Ef; reflexivity).
  destruct (Z.ltb_spec (IKC_Compare U (f_largest (fm f)) key) 0) as [Hc|Hc].
  - rewrite u32_small by lia. apply IH; [|lia|lia].
    destruct (Z.le_gt_cases (mid + 1) (Z.of_nat (lower_bound ICmp (level_entries files) key))) as [?|Hgt]; [lia|].
    pose proof (lower_bound_after (C := ICmp) (level_entries files) key (Z.to_nat mid) _ HS Hk ltac:(lia) Ee) as Hc'. cbn in Hc'. lia.
  - apply IH; [lia| |lia].
    destruct (Z.le_gt_cases (Z.of_nat (lower_bound ICmp (level_entries files) key)) mid) as [?|Hgt]; [lia|].
    pose proof (lower_bound_before (C := ICmp) (level_entries files) key (Z.to_nat mid) _ ltac:(lia) Ee) as Hc'. cbn in Hc'. lia.
Qed.

(** The search returns the first file that ends at or past the key. *)

Lemma FindFile_ok files key : level_sorted files -> @cmp_dom ICmp key ->
  FindFile U fm files key = Z.of_nat (lower_bound ICmp (level_entries files) key).
Proof.
  intros HL Hk. unfold FindFile. pose proof (ls_small _ HL). pose proof (sz_nonneg files).
  assert (Hlb : Z.of_nat (lower_bound ICmp (level_entries files) key) <= sz files).
  { pose proof (lower_bound_le (C := ICmp) (level_entries files) key) as H1.
    unfold level_entries in H1 at 2. rewrite length_map in H1. unfold sz. lia. }
  rewrite u32_small by lia. rewrite FindFile_loop_ok by (auto; unfold sz in *; lia). apply s32_small. lia.
Qed.

Lemma FindFile_index files key : level_sorted files -> @cmp_dom ICmp key ->
  Z.to_nat (u32 (FindFile U fm files key)) = lower_bound ICmp (level_entries files) key.
Proof.
  intros HL Hk. rewrite FindFile_ok by assumption. pose proof (ls_small _ HL).
  pose proof (lower_bound_le (C := ICmp) (level_entries files) key) as H1.
  unfold level_entries in H1 at 2. rewrite length_map in H1. rewrite u32_small by (unfold sz in *; lia). lia.
Qed.

(** ** Overlap *)

Abbreviation small_u := (smallest_user fm).
Abbreviation large_u := (largest_user fm).

Lemma wf_small_dom f : file_wf f -> cmp_dom (small_u f).
Proof. intros [[_ H] _ _ _]. exact H. Qed.

Lemma wf_large_dom f : file_wf f -> cmp_dom (large_u f).
Proof. intros [_ [_ H] _ _]. exact H. Qed.

Lemma IKC_user_le a b : IKC_Compare U a b <= 0 -> cmp (ExtractUserKey a) (ExtractUserKey b) <= 0.
Proof. unfold IKC_Compare. zcases; lia. Qed.

Lemma wf_user_order f : file_wf f -> cmp (small_u f) (large_u f) <= 0.
Proof. intros H. apply IKC_user_le, (fw_order _ H). Qed.

#[local] Hint Resolve wf_small_dom wf_large_dom wf_user_order : ldb.

(** The bounds of a range, when given, are user keys. *)

Definition bound_dom (b : option bytes) : Prop := forall k, b = Some k -> cmp_dom k.

(** The files that overlap a range of user keys. *)

Definition overlapsb (lo hi : option bytes) (f : FP) : bool :=
  negb (AfterFile U fm lo f || BeforeFile U fm hi f).

Lemma SomeFileOverlapsRange_loop_ok files lo hi :
  SomeFileOverlapsRange_loop U fm files lo hi = existsb (overlapsb lo hi) files.
Proof.
  induction files as [|f files IH]; [reflexivity|]. cbn. unfold overlapsb at 1.
  destruct (_ || _); [exact IH|reflexivity].
Qed.

(** The seek key of a user key is before every key of the user key. *)

Lemma seek_before k x : cmp_dom k -> @cmp_dom ICmp x -> ExtractTag x <= seek_tag ->
  IKC_Compare U x (mkInternalKey k kMaxSequenceNumber kValueTypeForSeek) < 0 <-> cmp (ExtractUserKey x) k < 0.
Proof.
  intros Hk [_ Hx] Ht. rewrite IKC_lt, mkInternalKey_user, mkInternalKey_tag by (split; [discriminate|reflexivity]).
  fold seek_tag. split; [intros [H|[_ H]]; [exact H|lia]|auto].
Qed.

Lemma level_user_order files i j f g : level_sorted files -> (i < j)%nat ->
  files !! i = Some f -> files !! j = Some g -> cmp (large_u f) (small_u g) <= 0.
Proof.
  intros [_ HS _] Hij Hf Hg. apply IKC_user_le. apply Z.lt_le_incl.
  exact (StronglySorted_lookup _ _ i j _ _ HS Hij Hf Hg).
Qed.

Lemma level_wf files i f : level_sorted files -> files !! i = Some f -> file_wf f.
Proof. intros [HW _ _] H. exact (proj1 (list.Forall_lookup _ _) HW i f H). Qed.

(** Smallest user keys do not decrease along a level. *)

Lemma level_small_mono files i j f g : level_sorted files -> (i <= j)%nat ->
  files !! i = Some f -> files !! j = Some g -> cmp (small_u f) (small_u g) <= 0.
Proof.
  intros HL Hij Hf Hg. pose proof (level_wf _ _ _ HL Hf). pose proof (level_wf _ _ _ HL Hg).
  destruct (Nat.eq_dec i j) as [->|Hne].
  - assert (f = g) as -> by congruence. rewrite cmp_refl by auto with ldb. lia.
  - apply (cmp_le_trans _ (large_u f)); auto with ldb.
    apply (level_user_order files i j); [assumption|lia|assumption|assumption].
Qed.

Definition first_candidate (files : list FP) (lo : option bytes) : nat :=
  match lo with
  | Some k => Z.to_nat (u32 (FindFile U fm files (mkInternalKey k kMaxSequenceNumber kValueTypeForSeek)))
  | None => O
  end.

Lemma seek_key_valid k : cmp_dom k ->
  @cmp_dom ICmp (mkInternalKey k kMaxSequenceNumber kValueTypeForSeek).
Proof. intros Hk. split; [rewrite mkInternalKey_length; lia|]. rewrite mkInternalKey_user. exact Hk. Qed.

(** Files before the candidate end before the range; the candidate does not. *)

Lemma first_candidate_before files lo i f : level_sorted files -> bound_dom lo ->
  files !! i = Some f -> AfterFile U fm lo f = (i <? first_candidate files lo)%nat.
Proof.
  intros HL Hlo Hf. pose proof (level_wf _ _ _ HL Hf) as Hwf. destruct lo as [k|]; [|reflexivity].
  pose proof (Hlo k eq_refl) as Hk. cbn [AfterFile first_candidate].
  rewrite FindFile_index by (auto using seek_key_valid).
  set (lb := lower_bound _ _ _).
  assert (E : level_entries files !! i = Some (f_largest (fm f), file_value f))
    by (rewrite level_entries_lookup, Hf; reflexivity).
  pose proof (cmp_sgn (C := U) k (large_u f) Hk (wf_large_dom f Hwf)) as Hs.
  pose proof (seek_before k _ Hk (fw_large _ Hwf) (fw_tag _ Hwf)) as Hiff. fold (large_u f) in Hiff.
  destruct (Nat.ltb_spec i lb) as [Hi|Hi].
  - pose proof (lower_bound_before (C := ICmp) _ _ _ _ Hi E) as Hc. apply Hiff in Hc. apply Z.ltb_lt. lia.
  - pose proof (lower_bound_after (C := ICmp) _ _ i _ (level_entries_sorted _ HL) (seek_key_valid k Hk) Hi E) as Hc.
    cbn [fst cmp InternalKeyComparator] in Hc. apply Z.ltb_ge. lia.
Qed.

(** The binary search of a sorted level agrees with the scan of all files. *)

Lemma SomeFileOverlapsRange_ok disjoint files lo hi : (disjoint = true -> level_sorted files) ->
  bound_dom lo -> bound_dom hi ->
  SomeFileOverlapsRange U fm disjoint files lo hi = existsb (overlapsb lo hi) files.
Proof.
  intros HL Hlo Hhi. unfold SomeFileOverlapsRange. destruct disjoint; cbn [negb]; [|apply SomeFileOverlapsRange_loop_ok].
  specialize (HL eq_refl).
  replace (Z.to_nat _) with (first_candidate files lo) by (destruct lo; reflexivity).
  apply eq_true_iff_eq. rewrite existsb_exists. destruct (files !! first_candidate files lo) as [f|] eqn:E.
  - rewrite negb_true_iff. split.
    + intros HB. exists f. split; [apply In_lookup; eauto|]. unfold overlapsb.
      rewrite (first_candidate_before _ _ _ _ HL Hlo E), Nat.ltb_irrefl, HB. reflexivity.
    + intros (g & Hg & Hov). apply In_lookup in Hg as [j Hj]. unfold overlapsb in Hov.
      rewrite (first_candidate_before _ _ _ _ HL Hlo Hj) in Hov. apply negb_true_iff, orb_false_iff in Hov as [Hj' HB].
      apply Nat.ltb_ge in Hj'. pose proof (level_small_mono _ _ _ _ _ HL Hj' E Hj) as Hmono.
      destruct hi as [e|]; [|reflexivity]. cbn [BeforeFile] in *. apply Z.ltb_ge in HB. apply Z.ltb_ge.
      pose proof (level_wf _ _ _ HL E). pose proof (level_wf _ _ _ HL Hj). pose proof (Hhi e eq_refl) as He.
      apply Z.ge_le, cmp_ge_le; auto with ldb. apply (cmp_le_trans _ (small_u g)); auto with ldb.
      apply cmp_ge_le; auto with ldb. lia.
  - split; [discriminate|]. intros (g & Hg & Hov). apply In_lookup in Hg as [j Hj].
    unfold overlapsb in Hov. rewrite (first_candidate_before _ _ _ _ HL Hlo Hj) in Hov.
    apply negb_true_iff, orb_false_iff in Hov as [Hj' _]. apply Nat.ltb_ge in Hj'. apply lookup_ge_None in E.
    apply lookup_lt_Some in Hj. lia.
Qed.

(** ** The files of a level that overlap a range

    At level 0 the range grows with every file that overlaps it.  [inside]:
    the file does not stick out of the range; a closed range is one out of which
    no file that overlaps it sticks. *)

Definition inside (lo hi : option bytes) (f : FP) : Prop :=
  (forall b, lo = Some b -> cmp b (small_u f) <= 0) /\ (forall e, hi = Some e -> cmp (large_u f) e <= 0).

Definition closed_range (files : list FP) (lo hi : option bytes) : Prop :=
  forall f, In f files -> overlapsb lo hi f = true -> inside lo hi f.

(** [a] is at or below the lower bound [lo], [b] at or above the upper bound [hi]. *)

Definition low_le (a lo : option bytes) : Prop :=
  match a, lo with None, _ => True | Some _, None => False | Some a, Some l => cmp a l <= 0 end.

Definition high_le (hi b : option bytes) : Prop :=
  match b, hi with None, _ => True | Some _, None => False | Some b, Some h => cmp h b <= 0 end.

Lemma low_le_refl a : bound_dom a -> low_le a a.
Proof. intros H. destruct a as [k|]; cbn; [rewrite cmp_refl by auto; lia|exact I]. Qed.

Lemma high_le_refl a : bound_dom a -> high_le a a.
Proof. intros H. destruct a as [k|]; cbn; [rewrite cmp_refl by auto; lia|exact I]. Qed.

Lemma overlapsb_iff lo hi f : overlapsb lo hi f = true <->
  (forall b, lo = Some b -> cmp b (large_u f) <= 0) /\ (forall e, hi = Some e -> 0 <= cmp e (small_u f)).
Proof.
  unfold overlapsb. rewrite negb_true_iff, orb_false_iff. split.
  - intros [HA HB]. split; intros x ->; cbn in *; [apply Z.ltb_ge, HA|apply Z.ltb_ge, HB].
  - intros [HA HB]. split; [destruct lo as [x|]|destruct hi as [x|]]; try reflexivity; cbn; apply Z.ltb_ge; auto.
Qed.

Lemma overlapsb_widen lo hi a b f : file_wf f -> bound_dom lo -> bound_dom hi -> bound_dom a -> bound_dom b ->
  low_le a lo -> high_le hi b -> overlapsb lo hi f = true -> overlapsb a b f = true.
Proof.
  rewrite !overlapsb_iff. intros Hwf Dlo Dhi Da Db La Lb [H1 H2]. split; intros k ->; cbn in *.
  - destruct lo as [l|]; [|contradiction]. apply (cmp_le_trans _ l); auto with ldb.
  - destruct hi as [h|]; [|contradiction]. apply Z.ge_le, cmp_ge_le; auto with ldb.
    apply (cmp_le_trans _ h); auto with ldb. apply cmp_ge_le; auto with ldb. apply Z.le_ge. auto.
Qed.

(** The files that stick out of the range bound the number of restarts. *)

Definition outside (files : list FP) (lo hi : option bytes) : nat :=
  length (List.filter (fun f => match lo with Some b => cmp (small_u f) b <? 0 | None => false end) files) +
  length (List.filter (fun f => match hi with Some e => 0 <? cmp (large_u f) e | None => false end) files).

Lemma outside_low files f b hi : Forall file_wf files -> In f files -> cmp_dom b -> cmp (small_u f) b < 0 ->
  (outside files (Some (small_u f)) hi < outside files (Some b) hi)%nat.
Proof.
  intros HW Hf Hb Hlt. rewrite List.Forall_forall in HW. unfold outside. apply Nat.add_lt_mono_r.
  apply (filter_length_lt _ _ _ f); [|exact Hf|apply Z.ltb_lt, Hlt|rewrite cmp_refl by auto with ldb; reflexivity].
  intros g Hg H. apply Z.ltb_lt in H. apply Z.ltb_lt. apply (cmp_trans _ (small_u f)); auto with ldb.
Qed.

Lemma outside_high files f lo e : Forall file_wf files -> In f files -> cmp_dom e -> 0 < cmp (large_u f) e ->
  (outside files lo (Some (large_u f)) < outside files lo (Some e))%nat.
Proof.
  intros HW Hf He Hlt. rewrite List.Forall_forall in HW. unfold outside. apply Nat.add_lt_mono_l.
  apply (filter_length_lt _ _ _ f); [|exact Hf|apply Z.ltb_lt, Hlt|rewrite cmp_refl by auto with ldb; reflexivity].
  intros g Hg H. apply Z.ltb_lt in H. apply Z.ltb_lt. apply cmp_flip_gt in H, Hlt; auto with ldb.
  apply cmp_flip_lt; auto with ldb. apply (cmp_trans _ (large_u f)); auto with ldb.
Qed.

(** What the selection at level 0 returns for a range: the files of a closed
    range around it, the smallest one. *)

Definition level0_selection (files : list FP) (lo hi : option bytes) (r : option (list FP)) : Prop :=
  exists lo' hi', bound_dom lo' /\ bound_dom hi' /\ low_le lo' lo /\ high_le hi hi' /\
    r = Some (List.filter (overlapsb lo' hi') files) /\ closed_range files lo' hi' /\
    (forall a b, bound_dom a -> bound_dom b -> low_le a lo -> high_le hi b -> closed_range files a b ->
      low_le a lo' /\ high_le hi' b).

(** A restart with a wider range selects for the old range as well. *)

Lemma selection_low files f b hi r : Forall file_wf files -> In f files -> cmp_dom b -> bound_dom hi ->
  cmp (small_u f) b < 0 -> overlapsb (Some b) hi f = true ->
  level0_selection files (Some (small_u f)) hi r -> level0_selection files (Some b) hi r.
Proof.
  intros HW Hf Hb Hhi Hlt Hov (lo' & hi' & D1 & D2 & L1 & L2 & E & Hc & Hmin). rewrite List.Forall_forall in HW.
  exists lo', hi'. repeat (split; [assumption|]). split.
  { destruct lo' as [l|]; [|exact I]. cbn in *. apply (cmp_le_trans _ (small_u f)); auto with ldb. lia. }
  repeat (split; [assumption|]). intros a c Da Dc La Lc Hac. apply Hmin; [exact Da|exact Dc| |exact Lc|exact Hac].
  destruct a as [a|]; [|exact I]. cbn. apply (Hac f Hf); [|reflexivity].
  apply (overlapsb_widen (Some b) hi); auto. intros k E'. injection E' as <-. exact Hb.
Qed.

Lemma selection_high files f lo e r : Forall file_wf files -> In f files -> cmp_dom e -> bound_dom lo ->
  0 < cmp (large_u f) e -> overlapsb lo (Some e) f = true ->
  level0_selection files lo (Some (large_u f)) r -> level0_selection files lo (Some e) r.
Proof.
  intros HW Hf He Hlo Hlt Hov (lo' & hi' & D1 & D2 & L1 & L2 & E & Hc & Hmin). rewrite List.Forall_forall in HW.
  exists lo', hi'. repeat (split; [assumption|]). split.
  { destruct hi' as [h|]; [|exact I]. cbn in *. apply (cmp_le_trans _ (large_u f)); auto with ldb.
    apply Z.lt_le_incl, cmp_flip_gt; auto with ldb. }
  repeat (split; [assumption|]). intros a c Da Dc La Lc Hac. apply Hmin; [exact Da|exact Dc|exact La| |exact Hac].
  destruct c as [c|]; [|exact I]. cbn. apply (Hac f Hf); [|reflexivity].
  apply (overlapsb_widen lo (Some e)); auto. intros k E'. injection E' as <-. exact He.
Qed.

(** The guards of the loop, as the overlap test. *)

Lemma loop_guards lo hi f : file_wf f -> bound_dom lo -> bound_dom hi ->
  match lo with Some b => cmp (large_u f) b <? 0 | None => false end = AfterFile U fm lo f /\
  match hi with Some e => 0 <? cmp (small_u f) e | None => false end = BeforeFile U fm hi f.
Proof.
  intros Hwf Hlo Hhi. split.
  - destruct lo as [b|]; [|reflexivity]. cbn. pose proof (cmp_sgn b (large_u f)) as Hs.
    specialize (Hs (Hlo b eq_refl) (wf_large_dom f Hwf)). zcases; lia.
  - destruct hi as [e|]; [|reflexivity]. cbn. pose proof (cmp_sgn e (small_u f)) as Hs.
    specialize (Hs (Hhi e eq_refl) (wf_small_dom f Hwf)). zcases; lia.
Qed.

Lemma inside_guards lo hi f : file_wf f -> bound_dom lo -> bound_dom hi ->
  match lo with Some b => cmp (small_u f) b <? 0 | None => false end = false ->
  match hi with Some e => 0 <? cmp (large_u f) e | None => false end = false -> inside lo hi f.
Proof.
  intros Hwf Hlo Hhi H1 H2. split; intros k ->; [apply Z.ltb_ge in H1|apply Z.ltb_ge in H2; lia].
  pose proof (cmp_sgn k (small_u f) (Hlo k eq_refl) (wf_small_dom f Hwf)). lia.
Qed.

Lemma filter_snoc {A} (p : A -> bool) l x :
  List.filter p (l ++ [x]) = List.filter p l ++ (if p x then [x] else []).
Proof. rewrite filter_app. cbn. destruct (p x); reflexivity. Qed.

(** At a level other than 0 the loop is a filter. *)

Lemma GetOverlappingInputs_loop_sorted level files lo hi : (0 < level)%nat -> bound_dom lo -> bound_dom hi ->
  forall fuel rest inputs, Forall file_wf rest -> (length rest < fuel)%nat ->
  GetOverlappingInputs_loop U fm fuel level files rest lo hi inputs =
    Some (inputs ++ List.filter (overlapsb lo hi) rest).
Proof.
  intros Hl Hlo Hhi. induction fuel as [|fuel IH]; intros rest inputs HW Hf; [lia|].
  destruct rest as [|f rest]; [cbn; rewrite app_nil_r; reflexivity|].
  apply Forall_cons_iff in HW as [Hwf HW]. cbn [length] in Hf. cbn [GetOverlappingInputs_loop List.filter].
  destruct (loop_guards lo hi f Hwf Hlo Hhi) as [-> ->]. unfold overlapsb at 1.
  replace (level =? 0)%nat with false by (symmetry; apply Nat.eqb_neq; lia). cbn [andb].
  destruct (AfterFile U fm lo f); cbn [orb negb]; [apply IH; [exact HW|lia]|].
  destruct (BeforeFile U fm hi f); cbn [negb]; [apply IH; [exact HW|lia]|].
  rewrite IH by (exact HW || lia). rewrite <- app_assoc. reflexivity.
Qed.

(** At level 0 the loop ends with the files of the smallest closed range. *)

Lemma GetOverlappingInputs_loop_level0 files : Forall file_wf files ->
  forall fuel pre rest lo hi, files = pre ++ rest -> bound_dom lo -> bound_dom hi ->
  Forall (inside lo hi) (List.filter (overlapsb lo hi) pre) ->
  (outside files lo hi * (length files + 1) + length rest < fuel)%nat ->
  level0_selection files lo hi
    (GetOverlappingInputs_loop U fm fuel 0 files rest lo hi (List.filter (overlapsb lo hi) pre)).
Proof.
  intros HW. induction fuel as [|fuel IH]; intros pre rest lo hi E Hlo Hhi HI Hf; [lia|].
  destruct rest as [|f rest]; cbn [GetOverlappingInputs_loop].
  - rewrite app_nil_r in E. subst pre. exists lo, hi.
    do 5 (split; [auto using low_le_refl, high_le_refl|]).
    split; [|auto]. intros f Hin Hov. rewrite List.Forall_forall in HI. apply HI, filter_In. auto.
  - assert (Hin : In f files) by (subst files; apply in_or_app; right; left; reflexivity).
    assert (Hwf : file_wf f) by (rewrite List.Forall_forall in HW; auto). cbn [length] in Hf.
    assert (Hnext : forall b, overlapsb lo hi f = b -> (b = true -> inside lo hi f) ->
      level0_selection files lo hi (GetOverlappingInputs_loop U fm fuel 0 files rest lo hi
        (List.filter (overlapsb lo hi) pre ++ if b then [f] else []))).
    { intros b Hb Hins. rewrite <- Hb, <- filter_snoc. apply IH; [subst files; rewrite <- app_assoc; reflexivity|assumption|assumption| |lia].
      rewrite filter_snoc, Hb. apply Forall_app. split; [exact HI|]. destruct b; constructor; auto. }
    destruct (loop_guards lo hi f Hwf Hlo Hhi) as [-> ->]. unfold overlapsb in Hnext at 1.
    destruct (AfterFile U fm lo f) eqn:EA; cbn [orb negb] in Hnext.
    { specialize (Hnext false eq_refl ltac:(discriminate)). rewrite app_nil_r in Hnext. exact Hnext. }
    destruct (BeforeFile U fm hi f) eqn:EB; cbn [negb] in Hnext.
    { specialize (Hnext false eq_refl ltac:(discriminate)). rewrite app_nil_r in Hnext. exact Hnext. }
    assert (Hov : overlapsb lo hi f = true) by (unfold overlapsb; rewrite EA, EB; reflexivity).
    cbn [Nat.eqb andb].
    destruct (match lo with Some b => cmp (small_u f) b <? 0 | None => false end) eqn:E1.
    { destruct lo as [b|]; [|discriminate]. apply Z.ltb_lt in E1. pose proof (Hlo b eq_refl) as Hb.
      pose proof (outside_low files f b hi HW Hin Hb E1) as Hm.
      apply (selection_low files f b hi); auto.
      apply (IH [] files); [reflexivity|intros k Ek; injection Ek as <-; auto with ldb|assumption|constructor|nia]. }
    destruct (match hi with Some e => 0 <? cmp (large_u f) e | None => false end) eqn:E2.
    { destruct hi as [e|]; [|discriminate]. apply Z.ltb_lt in E2. pose proof (Hhi e eq_refl) as He.
      pose proof (outside_high files f lo e HW Hin He E2) as Hm.
      apply (selection_high files f lo e); auto.
      apply (IH [] files); [reflexivity|assumption|intros k Ek; injection Ek as <-; auto with ldb|constructor|nia]. }
    apply (Hnext true eq_refl). intros _. apply inside_guards; assumption.
Qed.

Lemma outside_le files lo hi : (outside files lo hi <= 2 * length files)%nat.
Proof.
  unfold outside. pose proof (List.filter_length_le
    (fun f => match lo with Some b => cmp (small_u f) b <? 0 | None => false end) files).
  pose proof (List.filter_length_le (fun f => match hi with Some e => 0 <? cmp (large_u f) e | None => false end) files).
  lia.
Qed.

Definition ikey_bound (b : option bytes) : Prop := forall k, b = Some k -> @cmp_dom ICmp k.

Lemma ikey_bound_user b : ikey_bound b -> bound_dom (option_map ExtractUserKey b).
Proof.
  intros H k E. destruct b as [x|]; [|discriminate]. injection E as <-. destruct (H x eq_refl) as [_ Hx]. exact Hx.
Qed.

Lemma GetOverlappingInputs_level0 v lo hi : Forall file_wf (files_at v 0) -> ikey_bound lo -> ikey_bound hi ->
  level0_selection (files_at v 0) (option_map ExtractUserKey lo) (option_map ExtractUserKey hi)
    (GetOverlappingInputs U fm v 0 lo hi).
Proof.
  intros HW Hlo Hhi. apply ikey_bound_user in Hlo, Hhi.
  unfold GetOverlappingInputs. apply (GetOverlappingInputs_loop_level0 (files_at v 0) HW _ []);
    [reflexivity|assumption|assumption|constructor|].
  pose proof (outside_le (files_at v 0) (option_map ExtractUserKey lo) (option_map ExtractUserKey hi)).
  unfold overlap_fuel. nia.
Qed.

Lemma GetOverlappingInputs_sorted v level lo hi : (0 < level)%nat -> Forall file_wf (files_at v level) ->
  ikey_bound lo -> ikey_bound hi -> GetOverlappingInputs U fm v level lo hi =
    Some (List.filter (overlapsb (option_map ExtractUserKey lo) (option_map ExtractUserKey hi)) (files_at v level)).
Proof.
  intros Hl HW Hlo Hhi. apply ikey_bound_user in Hlo, Hhi. unfold GetOverlappingInputs.
  rewrite GetOverlappingInputs_loop_sorted; auto. unfold overlap_fuel. nia.
Qed.

(** ** The iterator over the files of a level is a cursor *)

#[local] Instance LFO : Iterator (LevelFileNumIterator FP) := LevelFileNumOps U fm.

Lemma level_iterator_cursor files : level_sorted files ->
  Cursor ICmp (level_entries files)
    (fun i it => flist_ it = files /\ (i <= length files)%nat /\ lf_index it = Z.of_nat i).
Proof.
  intros HL. pose proof (ls_small _ HL) as Hsz. unfold sz in Hsz.
  assert (Hlen : length (level_entries files) = length files) by (unfold level_entries; apply length_map).
  split; rewrite ?Hlen; intros i it.
  - intros (_ & Hi & _). exact Hi.
  - intros (Ef & Hi & E). cbn [iValid LFO LevelFileNumOps]. rewrite Ef, E. unfold sz. zcases; destruct (Nat.ltb_spec i (length files)); lia.
  - intros k v (Ef & Hi & E) He. cbn [iKey iValue LFO LevelFileNumOps]. unfold lf_at. rewrite Ef, E, Nat2Z.id.
    rewrite level_entries_lookup in He. destruct (files !! i) as [f|]; [|discriminate].
    injection He as <- <-. split; reflexivity.
  - reflexivity.
  - intros (Ef & _ & _). cbn. rewrite Ef. repeat split; lia.
  - intros (Ef & _ & _). cbn. rewrite Ef. destruct files as [|f files]; [repeat split; reflexivity|].
    cbn [flist_ lf_index]. rewrite u32_small by (unfold sz; cbn [length] in *; lia). unfold sz. cbn [length] in *. repeat split; lia.
  - intros (Ef & _ & E) Hi. cbn. rewrite Ef, E, u32_small by lia. repeat split; lia.
  - intros (Ef & _ & E) Hi. cbn. rewrite Ef, E. unfold sz. rewrite u32_small by lia.
    destruct i as [|i]; cbn [Nat.eqb pred].
    + replace (Z.of_nat 0 =? 0) with true by reflexivity. repeat split; lia.
    + replace (Z.of_nat (S i) =? 0) with false by (symmetry; apply Z.eqb_neq; lia). repeat split; lia.
  - intros t (Ef & _ & _) Ht. cbn. rewrite Ef. pose proof (lower_bound_le (C := ICmp) (level_entries files) t) as Hb.
    rewrite Hlen in Hb. rewrite FindFile_ok, u32_small by (assumption || lia). repeat split. exact Hb.
Qed.

End FilesOk.

(** ** Properties *)

(** The overlap test is right for both kinds of levels: the scan of
    overlapping files and the binary search of sorted, disjoint files both say
    exactly whether some file contains a user key of the range (either bound
    may be missing); the search never reads past the list. *)
Theorem overlap_search_agrees : forall U FP (fm : FP -> FileMetaData) disjoint files lo hi,
  ComparatorOk U -> (disjoint = true -> level_sorted (U := U) fm files) -> bound_dom (U := U) lo -> bound_dom (U := U) hi ->
  SomeFileOverlapsRange U fm disjoint files lo hi = true <->
  exists f, In f files /\ (forall k, lo = Some k -> cmp k (largest_user fm f) <= 0) /\
    (forall k, hi = Some k -> 0 <= cmp k (smallest_user fm f)).
Proof.
  intros U FP fm disjoint files lo hi UOK HL Hlo Hhi. rewrite (SomeFileOverlapsRange_ok fm disjoint files lo hi HL Hlo Hhi).
  rewrite existsb_exists. setoid_rewrite overlapsb_iff. reflexivity.
Qed.

Definition sample_files : list FileMetaData :=
  [mkFile 1 100 4 1000 (mkInternalKey (str "b") 2 kTypeValue) (mkInternalKey (str "d") 6 kTypeValue);
   mkFile 1 100 5 1000 (mkInternalKey (str "f") 5 kTypeValue) (mkInternalKey (str "k") 3 kTypeValue)].

Definition sample_version : Version FileMetaData :=
  mkVersion [sample_files] None (-1) (d_of_Z (-1)) (-1).

Lemma sample_files_wf : Forall (file_wf (U := BytewiseComparator) id) sample_files.
Proof.
  constructor; [|constructor; [|constructor]]; split; try (split; [cbn; lia|exact I]); vm_compute; discriminate.
Qed.

Lemma sample_sorted : level_sorted (U := BytewiseComparator) id sample_files.
Proof.
  split; [exact sample_files_wf| |reflexivity].
  constructor; [constructor; [constructor|constructor]|constructor; [vm_compute; reflexivity|constructor]].
Qed.

Lemma overlap_search_agrees_witness :
  SomeFileOverlapsRange BytewiseComparator id true sample_files (Some (str "e")) (Some (str "g")) = true <->
  exists f, In f sample_files /\ (forall k, Some (str "e") = Some k -> @cmp BytewiseComparator k (largest_user id f) <= 0) /\
    (forall k, Some (str "g") = Some k -> 0 <= @cmp BytewiseComparator k (smallest_user id f)).
Proof.
  apply (overlap_search_agrees BytewiseComparator FileMetaData id true sample_files (Some (str "e")) (Some (str "g"))).
  - exact BytewiseComparatorOk.
  - intros _. exact sample_sorted.
  - intros k _. exact I.
  - intros k _. exact I.
Defined.

(** The selection of compaction inputs: for any range, [GetOverlappingInputs]
    ends and returns, in order, the files that overlap a range around it.  At a
    level of disjoint files that is the range itself.  At level 0, where files
    may overlap, it is the smallest wider range out of which no overlapping file
    sticks, so that no file left behind shares a user key with a selected one. *)
Theorem overlapping_inputs_closed : forall U FP (fm : FP -> FileMetaData) v level lo hi,
  ComparatorOk U -> Forall (file_wf (U := U) fm) (files_at v level) ->
  ikey_bound (U := U) lo -> ikey_bound (U := U) hi ->
  let ulo := option_map ExtractUserKey lo in let uhi := option_map ExtractUserKey hi in
  exists lo' hi',
    GetOverlappingInputs U fm v level lo hi = Some (List.filter (overlapsb (U := U) fm lo' hi') (files_at v level)) /\
    low_le (U := U) lo' ulo /\ high_le (U := U) uhi hi' /\ ((0 < level)%nat -> lo' = ulo /\ hi' = uhi) /\
    (level = O -> closed_range (U := U) fm (files_at v level) lo' hi' /\
      forall a b, bound_dom (U := U) a -> bound_dom (U := U) b -> low_le (U := U) a ulo -> high_le (U := U) uhi b ->
        closed_range (U := U) fm (files_at v level) a b -> low_le (U := U) a lo' /\ high_le (U := U) hi' b).
Proof.
  intros U FP fm v level lo hi UOK HW Hlo Hhi ulo uhi. destruct level as [|level].
  - destruct (GetOverlappingInputs_level0 fm v lo hi HW Hlo Hhi) as (lo' & hi' & _ & _ & L1 & L2 & E & Hc & Hmin).
    exists lo', hi'. repeat (split; [assumption|]). split; [lia|]. intros _. split; assumption.
  - exists ulo, uhi. split; [apply GetOverlappingInputs_sorted; auto; lia|].
    split; [apply low_le_refl, ikey_bound_user, Hlo|]. split; [apply high_le_refl, ikey_bound_user, Hhi|].
    split; [auto|discriminate].
Qed.

Lemma overlapping_inputs_closed_witness : exists lo' hi',
  GetOverlappingInputs BytewiseComparator id sample_version 0
    (Some (mkInternalKey (str "c") 9 kTypeValue)) (Some (mkInternalKey (str "g") 9 kTypeValue)) =
    Some (List.filter (overlapsb (U := BytewiseComparator) id lo' hi') sample_files) /\
  low_le (U := BytewiseComparator) lo' (Some (str "c")) /\ high_le (U := BytewiseComparator) (Some (str "g")) hi'.
Proof.
  destruct (overlapping_inputs_closed BytewiseComparator FileMetaData id sample_version 0
    (Some (mkInternalKey (str "c") 9 kTypeValue)) (Some (mkInternalKey (str "g") 9 kTypeValue)))
    as (lo' & hi' & E & L1 & L2 & _).
  - exact BytewiseComparatorOk.
  - exact sample_files_wf.
  - intros k H. injection H as <-. split; [cbn; lia|exact I].
  - intros k H. injection H as <-. split; [cbn; lia|exact I].
  - exists lo', hi'. split; [exact E|]. split; [exact L1|exact L2].
Defined.
