(* ===== verification/VersionGet.v ===== *)
(** * Lookups through the levels (db/version_set.cc: Version::Get)

    The meaning of a set of operations, whatever structure holds them: the
    newest one that a reader can see and that touches the key decides.  A table
    file holds the entries of a list of operations; the theorems show that one
    file answers as its operations prescribe, and that the search of a version,
    level by level and newest file first, answers as all its operations do. *)

From S2P Require Import Prelude Coding Compare DbFormat Logging MemTable Iterator TableBuilder Table VersionEdit Version.
#[local] Open Scope Z_scope.
#[local] Open Scope ldb_scope.

(** ** The answer of a set of operations *)

(** The operations that touch [u] and that a reader at [s] sees. *)

Definition sees (u : bytes) (s : Z) (qo : Z * Op) : Prop := fst qo <= s /\ touches (snd qo) u <> None.

Inductive Answer (ops : list (Z * Op)) (u : bytes) (s : Z) : option (option bytes) -> Prop :=
| ans_none : (forall qo, In qo ops -> ~ sees u s qo) -> Answer ops u s None
| ans_some qo t : In qo ops -> fst qo <= s -> touches (snd qo) u = Some t ->
    (forall qo', In qo' ops -> sees u s qo' -> fst qo' <= fst qo) -> Answer ops u s (Some t).

#[export] Instance sees_dec u s qo : Decision (sees u s qo).
Proof. unfold sees. apply _. Defined.

Lemma answer_exists ops u s : exists r, Answer ops u s r.
Proof.
  induction ops as [|qo ops [r IH]]; [exists None; constructor; contradiction|].
  destruct (decide (sees u s qo)) as [Hs|Hs].
  - destruct (touches (snd qo) u) as [t|] eqn:Et; [|destruct Hs; contradiction]. destruct Hs as [Hq _].
    inversion IH as [Hno|qo0 t0 Hin Hq0 Ht0 Hmax]; subst.
    + exists (Some t). apply (ans_some _ _ _ qo); [left; reflexivity|exact Hq|exact Et|].
      intros qo' [<-|Hin] Hs; [lia|]. destruct (Hno qo' Hin Hs).
    + destruct (Z.le_gt_cases (fst qo0) (fst qo)) as [Hle|Hgt].
      * exists (Some t). apply (ans_some _ _ _ qo); [left; reflexivity|exact Hq|exact Et|].
        intros qo' [<-|Hin'] Hs; [lia|]. specialize (Hmax qo' Hin' Hs). lia.
      * exists (Some t0). apply (ans_some _ _ _ qo0); [right; exact Hin|exact Hq0|exact Ht0|].
        intros qo' [<-|Hin'] Hs; [lia|auto].
  - exists r. inversion IH as [Hno|qo0 t0 Hin Hq0 Ht0 Hmax]; subst.
    + constructor. intros qo' [<-|Hin]; auto.
    + apply (ans_some _ _ _ qo0); [right; exact Hin|exact Hq0|exact Ht0|].
      intros qo' [<-|Hin'] Hs'; [contradiction|auto].
Qed.

(** When a sequence number belongs to one operation the answer is unique. *)

Definition seq_functional (ops : list (Z * Op)) : Prop :=
  forall q op1 op2, In (q, op1) ops -> In (q, op2) ops -> op1 = op2.

Lemma answer_unique ops u s r1 r2 : seq_functional ops -> Answer ops u s r1 -> Answer ops u s r2 -> r1 = r2.
Proof.
  intros HF H1 H2. inversion H1 as [N1|[q1 o1] t1 I1 Q1 T1 M1]; inversion H2 as [N2|[q2 o2] t2 I2 Q2 T2 M2]; subst.
  - reflexivity.
  - destruct (N1 _ I2). split; [exact Q2|]. congruence.
  - destruct (N2 _ I1). split; [exact Q1|]. congruence.
  - cbn [fst snd] in *.
    assert (q1 <= q2) by (apply (M2 (q1, o1)); [assumption|split; [assumption|cbn; congruence]]).
    assert (q2 <= q1) by (apply (M1 (q2, o2)); [assumption|split; [assumption|cbn; congruence]]).
    assert (q1 = q2) as -> by lia. rewrite (HF _ _ _ I1 I2) in T1. congruence.
Qed.

(** The history of a memtable answers the same way. *)

Lemma history_get_app h1 h2 u s : history_get (h1 ++ h2) u s =
  fold_left (history_step u s) h2 (history_get h1 u s).
Proof. unfold history_get. apply fold_left_app. Qed.

Lemma history_answer h u s : StronglySorted (fun a b => fst a < fst b) h -> Answer h u s (history_get h u s).
Proof.
  induction h as [|qo h IH] using rev_ind; intros HS; [constructor; contradiction|].
  rewrite history_get_app. cbn [fold_left]. unfold history_step.
  assert (Hh : StronglySorted (fun a b : Z * Op => fst a < fst b) h /\ forall x, In x h -> fst x < fst qo).
  { clear IH. induction h as [|x h IH]; [split; [constructor|contradiction]|]. apply StronglySorted_inv in HS as [HS HF].
    destruct (IH HS) as [H1 H2]. apply Forall_app in HF as [HF1 HF2]. split; [constructor; assumption|].
    intros y [<-|Hy]; [exact (Forall_inv HF2)|auto]. }
  destruct Hh as [Hh Hlt]. specialize (IH Hh).
  assert (Hkeep : ~ sees u s qo -> Answer (h ++ [qo]) u s (history_get h u s)).
  { intros Hns. inversion IH as [Hno Er|qo0 t0 Hin Hq0 Ht0 Hmax Er].
    - constructor. intros x Hx. apply in_app_or in Hx as [Hx|[<-|[]]]; auto.
    - apply (ans_some _ _ _ qo0); [apply in_or_app; auto|exact Hq0|exact Ht0|].
      intros x Hx Hs. apply in_app_or in Hx as [Hx|[<-|[]]]; [auto|contradiction]. }
  destruct (Z.leb_spec (fst qo) s) as [Hq|Hq]; [|apply Hkeep; intros [H _]; lia].
  destruct (touches (snd qo) u) as [t|] eqn:Et; [|apply Hkeep; intros [_ H]; auto].
  apply (ans_some _ _ _ qo); [apply in_or_app; right; left; reflexivity|exact Hq|exact Et|].
  intros x Hx _. apply in_app_or in Hx as [Hx|[<-|[]]]; [specialize (Hlt x Hx); lia|lia].
Qed.

(** Newer operations first: what they say hides what older ones say. *)

Definition newer (u : bytes) (s : Z) (ops1 ops2 : list (Z * Op)) : Prop :=
  forall x y, In x ops1 -> In y ops2 -> sees u s x -> sees u s y -> fst y < fst x.

Lemma answer_app ops1 ops2 u s r1 r2 : newer u s ops1 ops2 -> Answer ops1 u s r1 -> Answer ops2 u s r2 ->
  Answer (ops1 ++ ops2) u s (match r1 with Some t => Some t | None => r2 end).
Proof.
  intros HN H1 H2. inversion H1 as [Hno|qo0 t0 Hin Hq0 Ht0 Hmax]; subst.
  - inversion H2 as [Hno2|qo2 t2 Hin2 Hq2 Ht2 Hmax2]; subst.
    + constructor. intros x Hx. apply in_app_or in Hx as [Hx|Hx]; auto.
    + apply (ans_some _ _ _ qo2); [apply in_or_app; auto|exact Hq2|exact Ht2|].
      intros x Hx Hs. apply in_app_or in Hx as [Hx|Hx]; [destruct (Hno x Hx Hs)|auto].
  - apply (ans_some _ _ _ qo0); [apply in_or_app; auto|exact Hq0|exact Ht0|].
    intros x Hx Hs. apply in_app_or in Hx as [Hx|Hx]; [auto|]. apply Z.lt_le_incl, HN; auto.
    split; [exact Hq0|congruence].
Qed.

(** A superset whose other operations are hidden answers the same. *)

Lemma answer_superset ops ops' u s r : (forall x, In x ops -> In x ops') ->
  (forall x, In x ops' -> sees u s x -> exists y, In y ops /\ sees u s y /\ fst x <= fst y) ->
  Answer ops u s r -> Answer ops' u s r.
Proof.
  intros Hsub Hdom H. inversion H as [Hno|qo0 t0 Hin Hq0 Ht0 Hmax]; subst.
  - constructor. intros x Hx Hs. destruct (Hdom x Hx Hs) as (y & Hy & Hys & _). exact (Hno y Hy Hys).
  - apply (ans_some _ _ _ qo0); [auto|exact Hq0|exact Ht0|]. intros x Hx Hs.
    destruct (Hdom x Hx Hs) as (y & Hy & Hys & Hle). specialize (Hmax y Hy Hys). lia.
Qed.

(** ** One table file *)

Definition op_entry (qo : Z * Op) : entry := (entry_ikey qo, op_value (snd qo)).

Definition is_range_op (qo : Z * Op) : bool :=
  match snd qo with OpDeleteRange _ _ => true | _ => false end.

Section TableAnswer.
Context {U : Comparator} {UOK : ComparatorOk U}.

#[local] Abbreviation ICmp := (InternalKeyComparator U).

(** The operations a table was built from, in the order of its keys. *)

Record ops_ok (ops : list (Z * Op)) : Prop := {
  oo_seq : Forall (fun qo => 0 < fst qo <= kMaxSequenceNumber) ops;
  oo_sorted : sorted_entries ICmp (map op_entry ops)
}.

Lemma entry_ikey_user qo : ExtractUserKey (entry_ikey qo) = op_key (snd qo).
Proof. apply mkInternalKey_user. Qed.

Lemma entry_ikey_seq qo : 0 <= fst qo <= kMaxSequenceNumber -> ExtractTag (entry_ikey qo) >> 8 = fst qo.
Proof.
  intros H. unfold entry_ikey. rewrite mkInternalKey_tag by exact H.
  exact (proj2 (PackSequenceAndType_unpack (fst qo) (op_type (snd qo)) H)).
Qed.

Lemma entry_range_del qo : 0 <= fst qo <= kMaxSequenceNumber -> is_range_del (entry_ikey qo) = is_range_op qo.
Proof.
  intros H. unfold is_range_del, entry_ikey. rewrite mkInternalKey_tag by exact H.
  rewrite (proj1 (PackSequenceAndType_unpack _ _ H)). unfold sz. rewrite mkInternalKey_length.
  rewrite (proj2 (Z.leb_le _ _)) by lia. unfold is_range_op. destruct (snd qo); reflexivity.
Qed.

Lemma filter_entries (p : entry -> bool) (q : Z * Op -> bool) ops :
  Forall (fun qo => p (op_entry qo) = q qo) ops ->
  List.filter p (map op_entry ops) = map op_entry (List.filter q ops).
Proof.
  induction 1 as [|qo ops H _ IH]; [reflexivity|]. cbn [map List.filter]. rewrite H, IH.
  destruct (q qo); reflexivity.
Qed.

Lemma points_ops ops : ops_ok ops ->
  points (map op_entry ops) = map op_entry (List.filter (fun qo => negb (is_range_op qo)) ops).
Proof.
  intros [HS _]. apply filter_entries. revert HS. apply List.Forall_impl. intros qo H. cbn [op_entry fst].
  rewrite entry_range_del by lia. reflexivity.
Qed.

Lemma range_dels_ops ops : ops_ok ops ->
  range_dels (map op_entry ops) = map op_entry (List.filter is_range_op ops).
Proof.
  intros [HS _]. apply filter_entries. revert HS. apply List.Forall_impl. intros qo H. cbn [op_entry fst].
  rewrite entry_range_del by lia. reflexivity.
Qed.

(** The order of an entry and a lookup key. *)

Lemma lookup_internal u s : internal_key (MakeLookupKey u s) = mkInternalKey u s kValueTypeForSeek.
Proof. reflexivity. Qed.

Lemma entry_before_lookup qo u s : 0 <= fst qo <= kMaxSequenceNumber -> 0 <= s <= kMaxSequenceNumber ->
  cmp_dom (op_key (snd qo)) -> cmp_dom u ->
  IKC_Compare U (entry_ikey qo) (mkInternalKey u s kValueTypeForSeek) < 0 <->
  cmp (op_key (snd qo)) u < 0 \/ (op_key (snd qo) = u /\ s < fst qo).
Proof.
  intros Hq Hs Hk Hu. rewrite IKC_lt, entry_ikey_user, mkInternalKey_user. unfold entry_ikey.
  rewrite !mkInternalKey_tag, !PackSequenceAndType_eq by assumption. rewrite cmp_eq by assumption.
  pose proof (vt_code_range (op_type (snd qo))). change (vt_code kValueTypeForSeek) with 2. intuition lia.
Qed.

Lemma entry_order x y : 0 <= fst x <= kMaxSequenceNumber -> 0 <= fst y <= kMaxSequenceNumber ->
  cmp_dom (op_key (snd x)) -> op_key (snd x) = op_key (snd y) ->
  IKC_Compare U (entry_ikey x) (entry_ikey y) <= 0 -> fst y <= fst x.
Proof.
  intros Hx Hy Hd E. unfold IKC_Compare. rewrite !entry_ikey_user, E, cmp_refl by (rewrite <- E; exact Hd).
  cbn [Z.eqb]. unfold entry_ikey. rewrite !mkInternalKey_tag, !PackSequenceAndType_eq by assumption.
  pose proof (vt_code_range (op_type (snd x))). pose proof (vt_code_range (op_type (snd y))). zcases; lia.
Qed.

(** What a lookup in one file says about its operations. *)

Inductive file_says (ops : list (Z * Op)) (u : bytes) (s : Z) : Status * option entry -> option (option bytes) -> Prop :=
| says_value q v : In (q, OpPut u v) ops -> Answer ops u s (Some (Some v)) ->
    file_says ops u s (OK, Some (op_entry (q, OpPut u v))) (Some (Some v))
| says_deletion q : In (q, OpDelete u) ops -> Answer ops u s (Some None) ->
    file_says ops u s (OK, Some (op_entry (q, OpDelete u))) (Some None)
| says_range : Answer ops u s (Some None) -> file_says ops u s (NotFound [] [], None) (Some None)
| says_nothing : Answer ops u s None -> file_says ops u s (OK, None) None.

Lemma touches_point qo u : is_range_op qo = false -> touches (snd qo) u <> None -> op_key (snd qo) = u.
Proof. unfold is_range_op. destruct (snd qo); cbn; intros Hr Ht; [destruct (decide _); congruence..|discriminate]. Qed.

Lemma touches_range qo u : is_range_op qo = true -> touches (snd qo) u <> None <->
  lex (op_key (snd qo)) u <= 0 /\ lex u (op_value (snd qo)) < 0.
Proof.
  unfold is_range_op. destruct (snd qo); try discriminate. intros _. cbn.
  destruct (Z.leb_spec (lex start_key u) 0); destruct (Z.ltb_spec (lex u end_key) 0); cbn; split; try lia; try congruence.
  all: intros; congruence.
Qed.

Lemma range_touch_none qo u t : is_range_op qo = true -> touches (snd qo) u = Some t -> t = None.
Proof. unfold is_range_op. destruct (snd qo); try discriminate. intros _. cbn. destruct (_ && _); congruence. Qed.

(** The tombstones of the file, seen from an entry at sequence number [f]. *)

Lemma shadowed_iff ops u s f : ops_ok ops ->
  RDL_IsDeleted (map to_range_del (range_dels (map op_entry ops))) u f s = true <->
  exists qo, In qo ops /\ is_range_op qo = true /\ sees u s qo /\ f < fst qo.
Proof.
  intros HO. rewrite (range_dels_ops _ HO), RDL_IsDeleted_spec. destruct HO as [HS _]. rewrite List.Forall_forall in HS.
  split.
  - intros (d & Hd & H1 & H2 & H3). apply in_map_iff in Hd as (e & <- & He). apply in_map_iff in He as (qo & <- & Hq).
    apply filter_In in Hq as [Hq Hr]. exists qo.
    cbn [to_range_del start_key end_key seq op_entry fst snd] in H1, H2, H3.
    rewrite entry_ikey_user in H1. rewrite entry_ikey_seq in H3 by (specialize (HS qo Hq); lia).
    repeat split; [exact Hq|exact Hr|lia| |lia]. apply (touches_range qo u Hr). auto.
  - intros (qo & Hq & Hr & [Hs Ht] & Hf). apply (touches_range qo u Hr) in Ht as [T1 T2].
    exists (to_range_del (op_entry qo)). split; [apply in_map, in_map, filter_In; auto|].
    unfold covers. cbn [to_range_del start_key end_key seq op_entry fst snd].
    rewrite entry_ikey_user, entry_ikey_seq by (specialize (HS qo Hq); lia). auto.
Qed.

(** A visible tombstone newer than every visible point entry decides. *)

Lemma answer_range ops u s qo : In qo ops -> is_range_op qo = true -> sees u s qo ->
  (forall x, In x ops -> is_range_op x = false -> sees u s x -> fst x < fst qo) -> Answer ops u s (Some None).
Proof.
  intros Hin Hr Hs Hlt. destruct (answer_exists ops u s) as [r Hr']. inversion Hr' as [Hno|x t Hx Hq Ht Hmax]; subst.
  - destruct (Hno qo Hin Hs).
  - destruct (is_range_op x) eqn:Ex.
    + rewrite (range_touch_none x u t Ex Ht) in Hr'. exact Hr'.
    + specialize (Hmax qo Hin Hs). assert (Hsx : sees u s x) by (split; [exact Hq|congruence]).
      specialize (Hlt x Hx Ex Hsx). lia.
Qed.

(** The point entries of a table before the lookup key are out of sight. *)

Section OneTable.
Context (ops : list (Z * Op)) (u : bytes) (s : Z).
Hypothesis HO : ops_ok ops.
Hypothesis Hu : cmp_dom u.
Hypothesis Hs : 0 <= s <= kMaxSequenceNumber.

Abbreviation key := (mkInternalKey u s kValueTypeForSeek).
Abbreviation pts := (List.filter (fun qo => negb (is_range_op qo)) ops).
Abbreviation lb := (lower_bound ICmp (map op_entry pts) key).

Lemma ops_dom x : In x ops -> 0 < fst x <= kMaxSequenceNumber /\ cmp_dom (op_key (snd x)).
Proof.
  intros Hx. destruct HO as [HS [_ HD]]. rewrite List.Forall_forall in HS, HD. split; [auto|].
  destruct (HD (op_entry x) (in_map op_entry _ _ Hx)) as [_ H]. cbn [op_entry fst] in H.
  rewrite entry_ikey_user in H. exact H.
Qed.

Lemma key_dom : @cmp_dom ICmp key.
Proof. split; [rewrite mkInternalKey_length; lia|]. rewrite mkInternalKey_user. exact Hu. Qed.

Lemma pts_sorted : sorted_entries ICmp (map op_entry pts).
Proof. rewrite <- (points_ops _ HO). apply sorted_filter, (oo_sorted _ HO). Qed.

Lemma seen_point_after x i : pts !! i = Some x -> sees u s x -> (lb <= i)%nat.
Proof.
  intros Hi [Hq Ht]. destruct (Nat.le_gt_cases lb i) as [|Hlt]; [assumption|exfalso].
  assert (Hin : In x pts) by (apply In_lookup; eauto). apply filter_In in Hin as [Hin Hr].
  apply negb_true_iff in Hr. pose proof (touches_point x u Hr Ht) as Ek. destruct (ops_dom x Hin) as [Hd1 Hd2].
  assert (Hc : @cmp ICmp (fst (op_entry x)) key < 0).
  { apply (lower_bound_before (C := ICmp) (map op_entry pts) key i); [exact Hlt|]. rewrite list_lookup_fmap, Hi. reflexivity. }
  cbn [op_entry fst cmp InternalKeyComparator] in Hc. apply entry_before_lookup in Hc; try assumption; [|lia].
  rewrite Ek, cmp_refl in Hc by exact Hu. lia.
Qed.

(** The entry at the lower bound is the newest visible one of the user key. *)

Lemma seen_point_newest x y : pts !! lb = Some x -> op_key (snd x) = u ->
  In y ops -> is_range_op y = false -> sees u s y -> fst y <= fst x.
Proof.
  intros Hx Ek Hy Hr Hys.
  assert (Hy' : In y pts) by (apply filter_In; split; [exact Hy|rewrite Hr; reflexivity]).
  apply In_lookup in Hy' as [j Hj]. pose proof (seen_point_after y j Hj Hys) as Hle.
  assert (Hxin : In x ops) by (assert (H : In x pts) by (apply In_lookup; eauto); apply filter_In in H as [H _]; exact H).
  destruct (ops_dom x Hxin) as [Dx1 Dx2]. destruct (ops_dom y Hy) as [Dy1 Dy2]. destruct Hys as [_ Ht].
  pose proof (touches_point y u Hr Ht) as Eky.
  apply entry_order; [lia|lia|exact Dx2|congruence|].
  destruct (Nat.eq_dec lb j) as [E|Hne].
  - rewrite <- E, Hx in Hj. injection Hj as ->. apply Z.eq_le_incl, (cmp_refl (C := ICmp)).
    split; [unfold entry_ikey; rewrite mkInternalKey_length; lia|]. rewrite entry_ikey_user. exact Dy2.
  - apply Z.lt_le_incl. apply (sorted_lt (C := ICmp) (map op_entry pts) lb j (op_entry x) (op_entry y) pts_sorted); [lia| |].
    + rewrite list_lookup_fmap, Hx. reflexivity.
    + rewrite list_lookup_fmap, Hj. reflexivity.
Qed.

(** The entry at the lower bound is visible. *)

Lemma found_visible x : pts !! lb = Some x -> op_key (snd x) = u ->
  In x ops /\ is_range_op x = false /\ fst x <= s.
Proof.
  intros Hx Ek. assert (H : In x pts) by (apply In_lookup; eauto). apply filter_In in H as [H Hr].
  apply negb_true_iff in Hr. split; [exact H|]. split; [exact Hr|].
  assert (Hc : 0 <= @cmp ICmp (fst (op_entry x)) key)
    by (apply (lower_bound_at (C := ICmp) (map op_entry pts)); rewrite list_lookup_fmap, Hx; reflexivity).
  cbn [op_entry fst cmp InternalKeyComparator] in Hc. destruct (ops_dom x H) as [D1 D2].
  destruct (Z.le_gt_cases (fst x) s) as [|Hgt]; [assumption|exfalso].
  assert (D1' : 0 <= fst x <= kMaxSequenceNumber) by lia.
  pose proof (proj2 (entry_before_lookup x u s D1' Hs D2 Hu) (or_intror (conj Ek Hgt))). lia.
Qed.

(** No entry of the user key at the lower bound: no visible point entry. *)

Lemma not_found_invisible y : (forall x, pts !! lb = Some x -> op_key (snd x) <> u) ->
  In y ops -> is_range_op y = false -> ~ sees u s y.
Proof.
  intros Hno Hy Hr Hys.
  assert (Hy' : In y pts) by (apply filter_In; split; [exact Hy|rewrite Hr; reflexivity]).
  apply In_lookup in Hy' as [j Hj]. pose proof (seen_point_after y j Hj Hys) as Hle.
  pose proof (touches_point y u Hr (proj2 Hys)) as Eky.
  assert (is_Some (pts !! lb)) as [x Hx] by (apply lookup_lt_is_Some; apply lookup_lt_Some in Hj; lia).
  apply (Hno x Hx). assert (Hxin : In x pts) by (apply In_lookup; eauto). apply filter_In in Hxin as [Hxin Hrx].
  destruct (ops_dom x Hxin) as [Dx1 Dx2]. destruct (ops_dom y Hy) as [Dy1 Dy2].
  assert (Ex : map op_entry pts !! lb = Some (op_entry x)) by (rewrite list_lookup_fmap, Hx; reflexivity).
  assert (Ey : map op_entry pts !! j = Some (op_entry y)) by (rewrite list_lookup_fmap, Hj; reflexivity).
  assert (Hdom : forall z, In z ops -> @cmp_dom ICmp (entry_ikey z)).
  { intros z Hz. split; [unfold entry_ikey; rewrite mkInternalKey_length; lia|]. rewrite entry_ikey_user. apply ops_dom, Hz. }
  rewrite <- (entry_ikey_user x), <- Eky, <- (entry_ikey_user y).
  apply (IKC_user_convex key (entry_ikey x) (entry_ikey y)); auto using key_dom.
  - apply (cmp_ge_le (C := ICmp)); auto using key_dom. apply Z.le_ge. exact (lower_bound_at (C := ICmp) _ _ _ Ex).
  - destruct (Nat.eq_dec lb j) as [E|Hne].
    + rewrite <- E, Hx in Hj. injection Hj as ->. apply Z.eq_le_incl, (cmp_refl (C := ICmp)), Hdom, Hy.
    + apply Z.lt_le_incl, (sorted_lt (C := ICmp) _ lb j (op_entry x) (op_entry y) pts_sorted); [lia|assumption|assumption].
  - rewrite mkInternalKey_user, entry_ikey_user. congruence.
Qed.

(** The lookup of the table answers for its operations. *)

Lemma table_says : exists r, file_says ops u s
  (get_spec (C := ICmp) (points (map op_entry ops)) (range_dels (map op_entry ops)) key) r.
Proof.
  unfold get_spec. rewrite (points_ops _ HO), mkInternalKey_user.
  replace (ExtractTag key >> 8) with s
    by (rewrite mkInternalKey_tag by exact Hs; symmetry; apply PackSequenceAndType_unpack, Hs).
  assert (Hnone : (forall x, pts !! lb = Some x -> op_key (snd x) <> u) -> exists r, file_says ops u s
    (if RDL_IsDeleted (map to_range_del (range_dels (map op_entry ops))) u 0 s then NotFound [] [] else OK, None) r).
  { intros Hno. pose proof (fun y => not_found_invisible y Hno) as Hinv.
    destruct (RDL_IsDeleted _ u 0 s) eqn:ED.
    - apply (shadowed_iff ops u s 0 HO) in ED as (qo & Hin & Hr & Hss & _). exists (Some None). constructor.
      apply (answer_range ops u s qo); auto. intros x Hx Hrx Hxs. destruct (Hinv x Hx Hrx Hxs).
    - exists None. constructor. constructor. intros x Hx Hxs. destruct (is_range_op x) eqn:Ex; [|exact (Hinv x Hx Ex Hxs)].
      apply not_true_iff_false in ED. apply ED, (shadowed_iff ops u s 0 HO). exists x.
      split; [exact Hx|]. split; [exact Ex|]. split; [exact Hxs|]. apply ops_dom, Hx. }
  rewrite list_lookup_fmap. destruct (pts !! lb) as [x|] eqn:Ex; cbn [fmap option_fmap option_map].
  2:{ apply Hnone. discriminate. }
  cbn [op_entry]. rewrite entry_ikey_user. destruct (decide (op_key (snd x) = u)) as [Ek|Ek].
  2:{ apply Hnone. intros y Ey. congruence. }
  destruct (found_visible x Ex Ek) as (Hin & Hr & Hq). destruct (ops_dom x Hin) as [D1 D2].
  pose proof (fun y => seen_point_newest x y Ex Ek) as Hnew.
  rewrite entry_ikey_seq by lia. destruct (RDL_IsDeleted _ u (fst x) s) eqn:ED.
  - apply (shadowed_iff ops u s (fst x) HO) in ED as (qo & Hin' & Hr' & Hss & Hlt). exists (Some None). constructor.
    apply (answer_range ops u s qo); auto. intros y Hy Hry Hys. specialize (Hnew y Hy Hry Hys). lia.
  - assert (Hmax : forall y, In y ops -> sees u s y -> fst y <= fst x).
    { intros y Hy Hys. destruct (is_range_op y) eqn:Ey; [|auto].
      destruct (Z.le_gt_cases (fst y) (fst x)) as [|Hgt]; [assumption|exfalso]. apply not_true_iff_false in ED.
      apply ED, (shadowed_iff ops u s (fst x) HO). exists y. auto with zarith. }
    destruct x as [q op]. cbn [fst snd] in *. destruct op as [k v|k|a b]; [| |discriminate]; cbn in Ek; subst k.
    + exists (Some (Some v)). apply (says_value ops u s q v Hin), (ans_some _ _ _ (q, OpPut u v)); auto.
      cbn. rewrite decide_True by reflexivity. reflexivity.
    + exists (Some None). apply (says_deletion ops u s q Hin), (ans_some _ _ _ (q, OpDelete u)); auto.
      cbn. rewrite decide_True by reflexivity. reflexivity.
Qed.

End OneTable.

End TableAnswer.

(** ** The files a lookup visits *)

Section Visits.
Context {U : Comparator} {UOK : ComparatorOk U} {FP : Type} (fm : FP -> FileMetaData).

#[local] Abbreviation ICmp := (InternalKeyComparator U).

Definition level_candidate (files : list FP) (u ik : bytes) : list FP :=
  match files !! Z.to_nat (u32 (FindFile U fm files ik)) with
  | Some f => if cmp u (smallest_user fm f) <? 0 then [] else [f]
  | None => []
  end.

Fixpoint level_candidates (level : nat) (levels : list (list FP)) (u ik : bytes) : list (nat * FP) :=
  match levels with
  | [] => []
  | files :: levels => map (pair level) (level_candidate files u ik) ++ level_candidates (S level) levels u ik
  end.

Definition visited (v : Version FP) (u ik : bytes) : list (nat * FP) :=
  map (pair O) (sort_newest fm (List.filter (in_range U fm u) (files_at v 0))) ++
  level_candidates 1 (tail (v_files v)) u ik.

Fixpoint run_until {St} (func : St -> nat -> FP -> St * bool) (st : St) (l : list (nat * FP)) : St * bool :=
  match l with
  | [] => (st, true)
  | (level, f) :: l =>
      let '(st, continue) := func st level f in if continue then run_until func st l else (st, false)
  end.

Lemma visit_run {St} (func : St -> nat -> FP -> St * bool) level files st :
  visit func st level files = run_until func st (map (pair level) files).
Proof.
  revert st. induction files as [|f files IH]; intros st; [reflexivity|]. cbn.
  destruct (func st level f) as [st' [|]]; [apply IH|reflexivity].
Qed.

Lemma run_until_app {St} (func : St -> nat -> FP -> St * bool) l1 l2 st :
  run_until func st (l1 ++ l2) =
  let '(st', continue) := run_until func st l1 in if continue then run_until func st' l2 else (st', false).
Proof.
  revert st. induction l1 as [|[level f] l1 IH]; intros st; [reflexivity|]. cbn.
  destruct (func st level f) as [st' [|]]; [apply IH|reflexivity].
Qed.

Lemma levels_run {St} (func : St -> nat -> FP -> St * bool) levels u ik : forall level st,
  ForEachOverlapping_levels U fm func st level levels u ik =
  fst (run_until func st (level_candidates level levels u ik)).
Proof.
  induction levels as [|files levels IH]; intros level st; [reflexivity|].
  cbn [ForEachOverlapping_levels level_candidates]. unfold level_candidate.
  destruct files as [|f0 files]; [apply IH|].
  rewrite (proj2 (Z.eqb_neq _ _)) by (unfold sz; cbn [length]; lia). set (fs := f0 :: files).
  destruct (fs !! _) as [f|]; [|apply IH]. destruct (_ <? 0); [apply IH|]. cbn [map app run_until].
  destruct (func st level f) as [st' [|]]; [apply IH|reflexivity].
Qed.

(** [ForEachOverlapping] calls the function on these files, in this order,
    until it says to stop. *)

Lemma ForEachOverlapping_run {St} (func : St -> nat -> FP -> St * bool) v u ik st :
  ForEachOverlapping U fm func v u ik st = fst (run_until func st (visited v u ik)).
Proof.
  unfold ForEachOverlapping, visited. rewrite visit_run, run_until_app.
  destruct (run_until func st _) as [st' [|]]; [apply levels_run|reflexivity].
Qed.

(** *** Sorting by number *)

Lemma insert_newest_in f l x : In x (insert_newest fm f l) <-> x = f \/ In x l.
Proof.
  induction l as [|g l IH]; cbn; [intuition|]. destruct (NewestFirst fm g f); cbn; [|intuition].
  rewrite IH. intuition.
Qed.

Lemma sort_newest_in l x : In x (sort_newest fm l) <-> In x l.
Proof.
  induction l as [|f l IH]; [reflexivity|]. cbn [sort_newest fold_right]. rewrite insert_newest_in.
  fold (sort_newest fm l). rewrite IH. cbn. intuition.
Qed.

Abbreviation num f := (f_number (fm f)).

Lemma insert_newest_sorted f l : StronglySorted (fun a b => num b < num a) l -> Forall (fun g => num g <> num f) l ->
  StronglySorted (fun a b => num b < num a) (insert_newest fm f l).
Proof.
  induction 1 as [|g l HS IH HF]; intros Hne; cbn; [repeat constructor|].
  apply Forall_cons_iff in Hne as [Hg Hne]. unfold NewestFirst. destruct (Z.ltb_spec (num f) (num g)) as [H|H].
  - constructor; [auto|]. apply List.Forall_forall. intros x Hx. apply insert_newest_in in Hx as [->|Hx]; [exact H|].
    rewrite List.Forall_forall in HF. auto.
  - constructor; [constructor; assumption|]. constructor; [lia|]. revert HF. apply List.Forall_impl. intros x Hx. lia.
Qed.

Lemma sort_newest_sorted l : NoDup (map (fun f => num f) l) ->
  StronglySorted (fun a b => num b < num a) (sort_newest fm l).
Proof.
  induction l as [|f l IH]; intros HN; [constructor|]. cbn [map] in HN. apply list.NoDup_cons in HN as [Hf HN].
  cbn [sort_newest fold_right]. apply insert_newest_sorted; [exact (IH HN)|]. apply List.Forall_forall.
  intros g Hg E. apply (proj1 (sort_newest_in l g)) in Hg. apply Hf. rewrite <- E. apply list_elem_of_In, (in_map (fun f => num f)), Hg.
Qed.

Lemma NoDup_filter_map {A B} (h : A -> B) p (l : list A) : NoDup (map h l) -> NoDup (map h (List.filter p l)).
Proof.
  induction l as [|x l IH]; intros HN; [constructor|]. cbn [map] in HN. apply list.NoDup_cons in HN as [Hx HN].
  cbn. destruct (p x); [|auto]. cbn. apply list.NoDup_cons. split; [|auto]. rewrite list_elem_of_In in *.
  intros H. apply Hx. apply in_map_iff in H as (y & E & Hy). apply filter_In in Hy as [Hy _]. apply in_map_iff. eauto.
Qed.

Lemma level_candidate_in files u ik f : In f (level_candidate files u ik) -> In f files.
Proof.
  unfold level_candidate. destruct (files !! _) as [g|] eqn:E; [|contradiction]. destruct (_ <? 0); [contradiction|].
  intros [<-|[]]. apply In_lookup. eauto.
Qed.

Lemma level_candidates_in levels u ik f n : forall level, In (n, f) (level_candidates level levels u ik) <->
  exists i files, levels !! i = Some files /\ n = (level + i)%nat /\ In f (level_candidate files u ik).
Proof.
  induction levels as [|files levels IH]; intros level; cbn [level_candidates].
  - split; [contradiction|]. intros (i & fs & H & _). rewrite lookup_nil in H. discriminate.
  - rewrite in_app_iff, in_map_iff, IH. split.
    + intros [(g & E & Hg)|(i & fs & Hi & -> & Hf)].
      * injection E as <- <-. exists O, files. split; [reflexivity|]. split; [lia|exact Hg].
      * exists (S i), fs. split; [exact Hi|]. split; [lia|exact Hf].
    + intros (i & fs & Hi & -> & Hf). destruct i as [|i].
      * injection Hi as <-. left. exists f. split; [f_equal; lia|exact Hf].
      * right. exists i, fs. split; [exact Hi|]. split; [lia|exact Hf].
Qed.

End Visits.

(** ** The search of a version *)

Section VersionAnswer.
Context {U : Comparator} {UOK : ComparatorOk U} {FP : Type} (fm : FP -> FileMetaData).
Context {TC : Type} {TCO : TableCacheOps TC} (tc_inv : TC -> Prop) (file_ops : FP -> list (Z * Op)).

#[local] Abbreviation ICmp := (InternalKeyComparator U).

(** What the table cache promises for the files of the version: a lookup
    answers as [Table::InternalGet] does on the entries of the file. *)

Definition cache_serves (f : FP) : Prop := forall tc ro k, tc_inv tc -> @cmp_dom ICmp k ->
  exists tc', tc_inv tc' /\ tc_Get tc ro (f_number (fm f)) (f_file_size (fm f)) k =
    (tc', get_spec (C := ICmp) (points (map op_entry (file_ops f))) (range_dels (map op_entry (file_ops f))) k).

Definition version_files (v : Version FP) : list FP := concat (v_files v).

Definition version_ops (v : Version FP) : list (Z * Op) := concat (map file_ops (version_files v)).

(** The files of a version: sorted levels, point entries within the bounds, and
    a largest key that is a point entry or the last key of its user key (the end
    of a tombstone). *)

Record version_wf (v : Version FP) : Prop := {
  vw_level0 : Forall (file_wf (U := U) fm) (files_at v 0);
  vw_numbers : NoDup (map (fun f => f_number (fm f)) (files_at v 0));
  vw_levels : forall level files, v_files v !! S level = Some files -> level_sorted (U := U) fm files;
  vw_ops : forall f, In f (version_files v) -> ops_ok (U := U) (file_ops f) /\ cache_serves f;
  vw_bounds : forall f qo, In f (version_files v) -> In qo (file_ops f) -> is_range_op qo = false ->
    IKC_Compare U (f_smallest (fm f)) (entry_ikey qo) <= 0 /\
    IKC_Compare U (entry_ikey qo) (f_largest (fm f)) <= 0;
  vw_last : forall f, In f (version_files v) ->
    ExtractTag (f_largest (fm f)) = 0 \/
    exists qo, In qo (file_ops f) /\ is_range_op qo = false /\ f_largest (fm f) = entry_ikey qo
}.

(** Newer data is in lower levels, and in level 0 in files of higher numbers. *)

Record version_recent (v : Version FP) (u : bytes) (s : Z) : Prop := {
  vr_levels : forall i j f g, (i < j)%nat -> In f (files_at v i) -> In g (files_at v j) ->
    newer u s (file_ops f) (file_ops g);
  vr_level0 : forall f g, In f (files_at v 0) -> In g (files_at v 0) ->
    f_number (fm g) < f_number (fm f) -> newer u s (file_ops f) (file_ops g)
}.

Context (u : bytes) (s : Z) (value : bytes).
Hypothesis Hu : cmp_dom u.
Hypothesis Hs : 0 <= s <= kMaxSequenceNumber.

Abbreviation key := (mkInternalKey u s kValueTypeForSeek).

Abbreviation answer_status r := (match r with Some (Some _) => OK | _ => NotFound [] [] end).
Abbreviation answer_value r := (match r with Some (Some v) => v | _ => value end).

(** One step of the search. *)

Lemma save_value_put q v : 0 <= q <= kMaxSequenceNumber ->
  SaveValue U (mkSaver kNotFound u value) (entry_ikey (q, OpPut u v)) v = mkSaver kFound u v.
Proof.
  intros Hq. unfold SaveValue, entry_ikey. rewrite ParseInternalKey_make by exact Hq. cbn.
  rewrite cmp_refl by exact Hu. reflexivity.
Qed.

Lemma save_value_delete q v : 0 <= q <= kMaxSequenceNumber ->
  SaveValue U (mkSaver kNotFound u value) (entry_ikey (q, OpDelete u)) v = mkSaver kDeleted u value.
Proof.
  intros Hq. unfold SaveValue, entry_ikey. rewrite ParseInternalKey_make by exact Hq. cbn.
  rewrite cmp_refl by exact Hu. reflexivity.
Qed.

Record searching (st : @GetState FP TC) : Prop := {
  sr_saver : gs_saver st = mkSaver kNotFound u value;
  sr_found : gs_found st = false;
  sr_cache : tc_inv (gs_cache st)
}.

(** The state after the search has an answer [r]. *)

Record searched (st : @GetState FP TC) (r : option (option bytes)) : Prop := {
  sd_status : (if gs_found st then gs_status st else NotFound [] []) = answer_status r;
  sd_value : sv_value (gs_saver st) = answer_value r;
  sd_cache : tc_inv (gs_cache st)
}.

Lemma Match_step ro st level f : searching st -> ops_ok (U := U) (file_ops f) -> cache_serves f ->
  exists r st', Match U fm ro key st level f = (st', match r with None => true | _ => false end) /\
    Answer (file_ops f) u s r /\ match r with None => searching st' | _ => searched st' r end.
Proof.
  intros [E1 E2 E3] HO HC. destruct (table_says (file_ops f) u s HO Hu Hs) as [r Hr].
  destruct (HC (gs_cache st) ro key E3 (key_dom u s Hu)) as (tc' & Hinv & Eget). unfold Match. rewrite Eget, E1.
  assert (Hq : forall q op, In (q, op) (file_ops f) -> 0 <= q <= kMaxSequenceNumber).
  { intros q op Hin. destruct (ops_dom (file_ops f) HO (q, op) Hin) as [H _]. cbn in H. lia. }
  exists r. destruct Hr as [q v Hin HA|q Hin HA|HA|HA]; cbn [op_entry fst snd op_value negb ok].
  - rewrite save_value_put by eauto. cbn. eexists. split; [reflexivity|]. split; [exact HA|]. split; [reflexivity..|exact Hinv].
  - rewrite save_value_delete by eauto. cbn. eexists. split; [reflexivity|]. split; [exact HA|].
    split; cbn; [rewrite E2; reflexivity|reflexivity|exact Hinv].
  - cbn. eexists. split; [reflexivity|]. split; [exact HA|]. split; [reflexivity..|exact Hinv].
  - cbn. eexists. split; [reflexivity|]. split; [exact HA|]. split; [reflexivity|exact E2|exact Hinv].
Qed.

Lemma run_get ro l : Forall (fun lf => ops_ok (U := U) (file_ops (snd lf)) /\ cache_serves (snd lf)) l ->
  StronglySorted (fun a b => newer u s (file_ops (snd a)) (file_ops (snd b))) l ->
  forall st, searching st -> exists r,
    Answer (concat (map (fun lf => file_ops (snd lf)) l)) u s r /\
    searched (fst (run_until (Match U fm ro key) st l)) r.
Proof.
  intros HF HS. induction HS as [|[level f] l HS IH HN]; intros st Hst.
  - exists None. split; [constructor; contradiction|]. destruct Hst as [E1 E2 E3]. cbn. split; [rewrite E2; reflexivity|rewrite E1; reflexivity|exact E3].
  - apply Forall_cons_iff in HF as [[HO HC] HF]. cbn [snd] in *.
    destruct (Match_step ro st level f Hst HO HC) as (r & st' & E & HA & Hr). cbn [run_until map concat snd]. rewrite E.
    assert (Hnew : newer u s (file_ops f) (concat (map (fun lf : nat * FP => file_ops (snd lf)) l))).
    { intros x y Hx Hy. apply in_concat in Hy as (ops & Hops & Hy). apply in_map_iff in Hops as (lf & <- & Hlf).
      rewrite List.Forall_forall in HN. exact (HN lf Hlf x y Hx Hy). }
    destruct r as [t|].
    + destruct (answer_exists (concat (map (fun lf : nat * FP => file_ops (snd lf)) l)) u s) as [r2 Hr2].
      exists (Some t). split; [exact (answer_app _ _ _ _ _ _ Hnew HA Hr2)|exact Hr].
    + destruct (IH HF st' Hr) as (r2 & HA2 & Hd). exists r2. split; [|exact Hd].
      exact (answer_app _ _ _ _ _ _ Hnew HA HA2).
Qed.

(** The files visited, in order of age. *)

Definition visit_order (a b : nat * FP) : Prop :=
  (fst a < fst b)%nat \/ fst a = O /\ fst b = O /\ f_number (fm (snd b)) < f_number (fm (snd a)).

Lemma level_candidates_sorted levels : forall level,
  StronglySorted visit_order (level_candidates (U := U) fm level levels u key).
Proof.
  induction levels as [|files levels IH]; intros level; cbn [level_candidates]; [constructor|].
  apply StronglySorted_app_iff. split.
  - unfold level_candidate. destruct (files !! _); [destruct (_ <? 0)|]; repeat constructor.
  - split; [apply IH|]. intros [n f] [m g] Hx Hy. apply in_map_iff in Hx as (f' & E & _). injection E as <- <-.
    apply level_candidates_in in Hy as (i & fs & _ & -> & _). left. cbn. lia.
Qed.

Lemma tail_lookup {A} (l : list A) i : tail l !! i = l !! S i.
Proof. destruct l; reflexivity. Qed.

Lemma visited_level v n f : In (n, f) (visited (U := U) fm v u key) -> In f (files_at v n).
Proof.
  unfold visited. rewrite in_app_iff, in_map_iff, level_candidates_in. intros [(g & E & Hg)|(i & fs & Hi & -> & Hf)].
  - injection E as <- <-. apply (proj1 (sort_newest_in fm _ g)) in Hg. apply filter_In in Hg as [Hg _]. exact Hg.
  - rewrite tail_lookup in Hi. unfold files_at. cbn [Nat.add]. rewrite Hi. apply level_candidate_in in Hf. exact Hf.
Qed.

Lemma visited_sorted v : version_wf v -> StronglySorted visit_order (visited (U := U) fm v u key).
Proof.
  intros HV. apply StronglySorted_app_iff. split; [|split; [apply level_candidates_sorted|]].
  - apply StronglySorted_map. pose proof (sort_newest_sorted fm _ (NoDup_filter_map _ (in_range U fm u) _ (vw_numbers _ HV))) as H.
    revert H. apply StronglySorted_impl_in. intros x y _ _ Hxy. right. auto.
  - intros [n f] [m g] Hx Hy. apply in_map_iff in Hx as (f' & E & _). injection E as <- <-.
    apply level_candidates_in in Hy as (i & fs & _ & -> & _). left. cbn. lia.
Qed.

Lemma visited_newer v : version_wf v -> version_recent v u s ->
  StronglySorted (fun a b => newer u s (file_ops (snd a)) (file_ops (snd b))) (visited (U := U) fm v u key).
Proof.
  intros HV [HR1 HR2]. generalize (visited_sorted v HV). apply StronglySorted_impl_in.
  intros [n f] [m g] Hx Hy. apply visited_level in Hx, Hy. unfold visit_order. cbn [fst snd]. intros [H|(-> & -> & H)].
  - exact (HR1 n m f g H Hx Hy).
  - exact (HR2 f g Hx Hy H).
Qed.

Lemma files_at_in v f n : In f (files_at v n) -> In f (version_files v).
Proof.
  unfold files_at. destruct (v_files v !! n) as [fs|] eqn:E; [|contradiction]. intros H. apply in_concat.
  exists fs. split; [apply In_lookup; eauto|exact H].
Qed.

(** A visible point entry is in a visited file, or hidden by one that is. *)

Lemma level0_point_visited v f qo : version_wf v -> In f (files_at v 0) -> In qo (file_ops f) ->
  is_range_op qo = false -> sees u s qo -> In (O, f) (visited (U := U) fm v u key).
Proof.
  intros HV Hf Hqo Hr [_ Ht]. apply in_or_app. left. apply in_map, sort_newest_in, filter_In. split; [exact Hf|].
  pose proof (touches_point qo u Hr Ht) as Ek. pose proof (files_at_in v f 0 Hf) as Hin.
  destruct (vw_bounds _ HV f qo Hin Hqo Hr) as [H1 H2]. pose proof (vw_level0 _ HV) as HW.
  rewrite List.Forall_forall in HW. specialize (HW f Hf).
  apply IKC_user_le in H1, H2. rewrite entry_ikey_user, Ek in H1, H2. unfold in_range.
  apply andb_true_iff. split; [apply Z.leb_le|apply Z.leb_le; exact H2].
  apply Z.ge_le, cmp_ge_le; [exact Hu|apply (wf_small_dom fm f HW)|exact H1].
Qed.

Lemma ops_ikey_dom ops qo : ops_ok (U := U) ops -> In qo ops -> @cmp_dom ICmp (entry_ikey qo).
Proof.
  intros HO Hin. destruct (ops_dom _ HO qo Hin) as [_ D]. split; [unfold entry_ikey; rewrite mkInternalKey_length; lia|].
  rewrite entry_ikey_user. exact D.
Qed.

(** Visible point entries of the user key are those at or past the lookup key. *)

Lemma seen_point_past_key ops qo : ops_ok (U := U) ops -> In qo ops -> is_range_op qo = false ->
  sees u s qo <-> op_key (snd qo) = u /\ IKC_Compare U key (entry_ikey qo) <= 0.
Proof.
  intros HO Hin Hr. destruct (ops_dom _ HO qo Hin) as [D1 D2]. pose proof (ops_ikey_dom _ _ HO Hin) as De.
  pose proof (key_dom u s Hu) as Dk. assert (D1' : 0 <= fst qo <= kMaxSequenceNumber) by lia.
  pose proof (entry_before_lookup qo u s D1' Hs D2 Hu) as Hiff.
  pose proof (cmp_ge_le (C := ICmp) _ _ De Dk) as Hge. cbn [cmp InternalKeyComparator] in Hge. split.
  - intros [Hq Ht]. pose proof (touches_point qo u Hr Ht) as Ek. split; [exact Ek|]. apply Hge.
    rewrite Ek, cmp_refl in Hiff by exact Hu. lia.
  - intros [Ek Hc]. apply Hge in Hc. split.
    + destruct (Z.le_gt_cases (fst qo) s) as [|Hgt]; [assumption|exfalso].
      pose proof (proj2 Hiff (or_intror (conj Ek Hgt))). lia.
    + unfold is_range_op in Hr. destruct (snd qo); cbn in Ek; subst; cbn; [rewrite decide_True by reflexivity; discriminate..|discriminate].
Qed.

(** A file that ends between the lookup key and an entry [qo] of the user key
    holds a visible entry that is newer than [qo]. *)

Lemma boundary_entry ops largest qo : ops_ok (U := U) ops -> @cmp_dom ICmp largest ->
  (ExtractTag largest = 0 \/ exists x, In x ops /\ is_range_op x = false /\ largest = entry_ikey x) ->
  0 <= fst qo <= kMaxSequenceNumber -> op_key (snd qo) = u -> @cmp_dom ICmp (entry_ikey qo) ->
  IKC_Compare U key largest <= 0 -> IKC_Compare U largest (entry_ikey qo) < 0 ->
  exists x, In x ops /\ sees u s x /\ fst qo <= fst x.
Proof.
  intros HO Dl Hlast Hq Ek De H1 H2.
  assert (Eu : ExtractUserKey largest = u).
  { rewrite <- Ek, <- entry_ikey_user. apply (IKC_user_convex key _ _ (key_dom u s Hu) Dl De); [exact H1|lia|].
    rewrite mkInternalKey_user, entry_ikey_user. symmetry. exact Ek. }
  apply IKC_lt in H2. rewrite Eu, entry_ikey_user, Ek, cmp_refl in H2 by exact Hu. destruct H2 as [H2|[_ Htag]]; [lia|].
  pose proof (entry_ikey_seq qo Hq) as Esq. rewrite shiftr_div in Esq by lia.
  destruct Hlast as [E0|(x & Hx & Hr & ->)].
  - rewrite E0 in Htag. assert (ExtractTag (entry_ikey qo) / 2 ^ 8 < 0) by (apply Z.div_lt_upper_bound; lia). lia.
  - exists x. split; [exact Hx|]. rewrite entry_ikey_user in Eu. destruct (ops_dom _ HO x Hx) as [X1 X2]. split.
    + apply (seen_point_past_key ops); auto.
    + assert (X1' : 0 <= fst x <= kMaxSequenceNumber) by lia. pose proof (entry_ikey_seq x X1') as Exq.
      rewrite shiftr_div in Exq by lia. rewrite <- Esq, <- Exq. apply Z.div_le_mono; lia.
Qed.

Lemma level_point_visited v level files f qo : version_wf v -> v_files v !! S level = Some files -> In f files ->
  In qo (file_ops f) -> is_range_op qo = false -> sees u s qo ->
  exists g x, In (S level, g) (visited (U := U) fm v u key) /\ In x (file_ops g) /\ sees u s x /\ fst qo <= fst x.
Proof.
  intros HV Hlev Hf Hqo Hr Hsee. pose proof (vw_levels _ HV _ _ Hlev) as HL.
  assert (Hver : forall g, In g files -> In g (version_files v)).
  { intros g Hg. apply (files_at_in v g (S level)). unfold files_at. rewrite Hlev. exact Hg. }
  destruct (vw_ops _ HV f (Hver f Hf)) as [HO _]. destruct (ops_dom _ HO qo Hqo) as [D1 _].
  destruct (vw_bounds _ HV f qo (Hver f Hf) Hqo Hr) as [B1 B2]. pose proof (ops_ikey_dom _ _ HO Hqo) as De.
  pose proof (key_dom u s Hu) as Dk. destruct (proj1 (seen_point_past_key _ qo HO Hqo Hr) Hsee) as [Ek Hke].
  apply In_lookup in Hf as [i Hi]. pose proof (level_wf fm _ _ _ HL Hi) as Wf.
  set (lb := lower_bound ICmp (level_entries fm files) key).
  assert (Hlb : (lb <= i)%nat).
  { destruct (Nat.le_gt_cases lb i) as [|Hlt]; [assumption|exfalso].
    assert (E : level_entries fm files !! i = Some (f_largest (fm f), file_value fm f))
      by (rewrite level_entries_lookup, Hi; reflexivity).
    pose proof (lower_bound_before (C := ICmp) _ _ _ _ Hlt E) as Hc. cbn [fst] in Hc.
    pose proof (cmp_le_trans (C := ICmp) _ _ _ Dk De (fw_large _ _ Wf) Hke B2) as Hle.
    apply (cmp_flip_lt (C := ICmp)) in Hc; [lia|exact (fw_large _ _ Wf)|exact Dk]. }
  assert (is_Some (files !! lb)) as [g Hg] by (apply lookup_lt_is_Some; apply lookup_lt_Some in Hi; lia).
  pose proof (level_wf fm _ _ _ HL Hg) as Wg. assert (Hgin : In g files) by (apply In_lookup; eauto).
  assert (Hvis : In (S level, g) (visited (U := U) fm v u key)).
  { apply in_or_app. right. apply level_candidates_in. exists level, files. rewrite tail_lookup. split; [exact Hlev|].
    split; [reflexivity|]. unfold level_candidate. rewrite (FindFile_index fm files key HL Dk). fold lb. rewrite Hg.
    rewrite (proj2 (Z.ltb_ge _ _)); [left; reflexivity|].
    apply Z.ge_le, cmp_ge_le; [exact Hu|exact (wf_small_dom fm g Wg)|].
    apply (cmp_le_trans _ (smallest_user fm f)); [exact (wf_small_dom fm g Wg)|exact (wf_small_dom fm f Wf)|exact Hu| |].
    - exact (level_small_mono fm _ _ _ _ _ HL Hlb Hg Hi).
    - apply IKC_user_le in B1. rewrite entry_ikey_user, Ek in B1. exact B1. }
  exists g. destruct (Nat.eq_dec lb i) as [E|Hne].
  { rewrite E, Hi in Hg. injection Hg as <-. exists qo. split; [exact Hvis|]. split; [exact Hqo|]. split; [exact Hsee|lia]. }
  destruct (boundary_entry (file_ops g) (f_largest (fm g)) qo) as (x & Hx & Hxs & Hle); try assumption.
  - apply (vw_ops _ HV g (Hver g Hgin)).
  - exact (fw_large _ _ Wg).
  - exact (vw_last _ HV g (Hver g Hgin)).
  - lia.
  - apply (cmp_ge_le (C := ICmp)); [exact (fw_large _ _ Wg)|exact Dk|]. apply Z.le_ge.
    apply (lower_bound_at (C := ICmp) (level_entries fm files) key (f_largest (fm g), file_value fm g)).
    rewrite level_entries_lookup. fold lb. rewrite Hg. reflexivity.
  - apply (cmp_lt_le_trans (C := ICmp) _ (f_smallest (fm f)) _ (fw_large _ _ Wg) (fw_small _ _ Wf) De); [|exact B1].
    exact (StronglySorted_lookup _ _ lb i _ _ (ls_order _ _ HL) ltac:(lia) Hg Hi).
  - exists x. auto.
Qed.

(** A tombstone that covers the key and that the reader sees is also in a file
    that the search visits. *)

Definition tombstones_visited (v : Version FP) : Prop := forall f qo, In f (version_files v) ->
  In qo (file_ops f) -> is_range_op qo = true -> sees u s qo ->
  exists lf, In lf (visited (U := U) fm v u key) /\ In qo (file_ops (snd lf)).

Lemma version_get_ok v ro tc : version_wf v -> version_recent v u s -> tombstones_visited v -> tc_inv tc ->
  exists r stats tc', Answer (version_ops v) u s r /\ tc_inv tc' /\
    Version_Get U fm ro v (MakeLookupKey u s) value tc = (answer_status r, answer_value r, stats, tc').
Proof.
  intros HV HR HT Htc. unfold Version_Get.
  assert (Elk : lookup_user_key (MakeLookupKey u s) = u).
  { unfold lookup_user_key. rewrite lookup_internal. apply mkInternalKey_user. }
  rewrite Elk, lookup_internal, ForEachOverlapping_run.
  set (st := mkGetState _ _ _ _ _ _ _).
  assert (Hst : searching st) by (split; [reflexivity|reflexivity|exact Htc]).
  assert (Hvf : forall lf, In lf (visited (U := U) fm v u key) -> In (snd lf) (version_files v)).
  { intros [n f] H. exact (files_at_in v f n (visited_level v n f H)). }
  destruct (run_get ro (visited (U := U) fm v u key)) with (st := st) as (r & HA & [E1 E2 E3]).
  - apply List.Forall_forall. intros lf Hlf. apply (vw_ops _ HV), Hvf, Hlf.
  - apply visited_newer; assumption.
  - exact Hst.
  - exists r. eexists _, _. split; [|split; [exact E3|]].
    2:{ rewrite E1, E2. reflexivity. }
    revert HA. apply answer_superset.
    + intros x Hx. apply in_concat in Hx as (ops & Hops & Hx). apply in_map_iff in Hops as (lf & <- & Hlf).
      apply in_concat. exists (file_ops (snd lf)). split; [apply in_map, Hvf, Hlf|exact Hx].
    + intros x Hx Hxs. apply in_concat in Hx as (ops & Hops & Hx). apply in_map_iff in Hops as (f & <- & Hf).
      assert (Hput : forall lf y, In lf (visited (U := U) fm v u key) -> In y (file_ops (snd lf)) ->
        In y (concat (map (fun lf : nat * FP => file_ops (snd lf)) (visited (U := U) fm v u key)))).
      { intros lf y Hlf Hy. apply in_concat. exists (file_ops (snd lf)).
        split; [apply (in_map (fun lf : nat * FP => file_ops (snd lf))), Hlf|exact Hy]. }
      destruct (is_range_op x) eqn:Ex.
      * destruct (HT f x Hf Hx Ex Hxs) as (lf & Hlf & Hxl). exists x. split; [exact (Hput lf x Hlf Hxl)|]. split; [exact Hxs|lia].
      * pose proof Hf as Hf0. apply in_concat in Hf as (fs & Hfs & Hf). apply In_lookup in Hfs as [[|level] Hlev].
        -- exists x. split; [|split; [exact Hxs|lia]]. apply (Hput (O, f) x); [|exact Hx].
           apply (level0_point_visited v f x); auto. unfold files_at. rewrite Hlev. exact Hf.
        -- destruct (level_point_visited v level fs f x HV Hlev Hf Hx Ex Hxs) as (g & y & Hg & Hy & Hys & Hle).
           exists y. split; [exact (Hput (S level, g) y Hg Hy)|]. auto.
Qed.

End VersionAnswer.

(** ** Properties *)

(** C13. A lookup through the levels of a version answers for all its files: when
    the levels are sorted, every file holds the entries of a list of operations
    within its bounds, newer data lies in lower levels (in level 0 in files of
    higher numbers) and every tombstone that matters for the key is in a file
    the search visits, [Version::Get] returns the value, or NotFound, that the
    newest operation at or before the snapshot touching the key prescribes,
    whichever file of whichever level holds it, including user keys whose
    entries straddle two files of a level; it never fails and always ends. *)
Theorem version_get_newest : forall U FP (fm : FP -> FileMetaData) TC (TCO : TableCacheOps TC)
    (tc_inv : TC -> Prop) (file_ops : FP -> list (Z * Op)) v u s value ro tc,
  ComparatorOk U -> cmp_dom u -> 0 <= s <= kMaxSequenceNumber ->
  version_wf (U := U) fm tc_inv file_ops v -> version_recent fm file_ops v u s ->
  tombstones_visited (U := U) fm file_ops u s v -> tc_inv tc ->
  exists r stats tc', Answer (version_ops file_ops v) u s r /\ tc_inv tc' /\
    Version_Get U fm ro v (MakeLookupKey u s) value tc =
      (match r with Some (Some _) => OK | _ => NotFound [] [] end,
       match r with Some (Some x) => x | _ => value end, stats, tc').
Proof.
  intros U FP fm TC TCO tc_inv file_ops v u s value ro tc UOK Hu Hs HV HR HT Htc.
  exact (version_get_ok fm tc_inv file_ops u s value Hu Hs v ro tc HV HR HT Htc).
Qed.

(** A version with a file in level 0 that deletes a range and two files in
    level 1 that share the user key "m". *)

Definition demo_ops (number : Z) : list (Z * Op) :=
  if number =? 9 then [(8, OpDeleteRange (str "a") (str "c")); (9, OpPut (str "d") (str "4"))]
  else if number =? 4 then [(2, OpPut (str "b") (str "1")); (6, OpPut (str "m") (str "2"))]
  else [(5, OpPut (str "m") (str "3")); (3, OpPut (str "x") (str "5"))].

Definition demo_file (number : Z) (smallest largest : bytes) : FileMetaData := mkFile 1 100 number 1000 smallest largest.

Definition demo_version : Version FileMetaData :=
  mkVersion
    [[demo_file 9 (mkInternalKey (str "a") 8 kTypeRangeDeletion) (mkInternalKey (str "d") 9 kTypeValue)];
     [demo_file 4 (mkInternalKey (str "b") 2 kTypeValue) (mkInternalKey (str "m") 6 kTypeValue);
      demo_file 5 (mkInternalKey (str "m") 5 kTypeValue) (mkInternalKey (str "x") 3 kTypeValue)];
     []; []; []; []; []] None (-1) (d_of_Z (-1)) (-1).

#[local] Instance demo_cache : TableCacheOps unit := {
  tc_Get tc ro number size k :=
    (tt, get_spec (C := InternalKeyComparator BytewiseComparator)
           (points (map op_entry (demo_ops number))) (range_dels (map op_entry (demo_ops number))) k)
}.

Example demo_get :
  let get u s := fst (fst (Version_Get BytewiseComparator id (mkReadOptions true true) demo_version
                             (MakeLookupKey u s) [] tt)) in
  get (str "b") 10 = (NotFound [] [], []) /\ get (str "b") 7 = (OK, str "1") /\ get (str "m") 10 = (OK, str "2") /\
  get (str "m") 5 = (OK, str "3") /\ get (str "m") 4 = (NotFound [] [], []) /\ get (str "x") 10 = (OK, str "5").
Proof. vm_compute. repeat split. Qed.

Ltac demo_in H := repeat (destruct H as [H|H]; [symmetry in H; subst|]); try contradiction H.

Lemma demo_wf : version_wf (U := BytewiseComparator) id (fun _ : unit => True)
  (fun f => demo_ops (f_number f)) demo_version.
Proof.
  assert (HW : forall f, In f (version_files demo_version) -> file_wf (U := BytewiseComparator) id f).
  { intros f Hf. cbn in Hf. demo_in Hf; split; try (split; [cbn; lia|exact I]); vm_compute; discriminate. }
  split.
  - constructor; [apply HW; left; reflexivity|constructor].
  - cbn. constructor; [intros H; inversion H|constructor].
  - assert (Hnil : level_sorted (U := BytewiseComparator) (@id FileMetaData) []) by (split; [constructor|constructor|reflexivity]).
    intros [|[|[|[|[|[|level]]]]]] files H; try discriminate H; injection H as <-; try exact Hnil.
    split; [|constructor; [constructor; [constructor|constructor]|constructor; [vm_compute; reflexivity|constructor]]|reflexivity].
    constructor; [apply HW; cbn; auto|]. constructor; [apply HW; cbn; auto|constructor].
  - intros f Hf. split.
    + cbn in Hf. demo_in Hf; (split; [repeat constructor; vm_compute; discriminate|]);
        (split; [repeat constructor; vm_compute; reflexivity|repeat (constructor; [split; [cbn; lia|exact I]|]); constructor]).
    + intros tc ro k _ _. exists tt. split; [exact I|reflexivity].
  - intros f qo Hf Hq Hr. cbn in Hf. demo_in Hf; cbn in Hq; demo_in Hq; try discriminate Hr; split; vm_compute; discriminate.
  - intros f Hf. right. cbn in Hf. demo_in Hf; cbn; eexists; (split; [right; left; reflexivity|split; reflexivity]).
Qed.

Lemma version_get_newest_witness : exists r stats tc',
  Answer (version_ops (fun f => demo_ops (f_number f)) demo_version) (str "b") 10 r /\ True /\
  Version_Get BytewiseComparator id (mkReadOptions true true) demo_version (MakeLookupKey (str "b") 10) [] tt =
    (match r with Some (Some _) => OK | _ => NotFound [] [] end,
     match r with Some (Some x) => x | _ => [] end, stats, tc').
Proof.
  apply (version_get_newest BytewiseComparator FileMetaData id unit demo_cache (fun _ => True)
    (fun f => demo_ops (f_number f)) demo_version (str "b") 10 [] (mkReadOptions true true) tt).
  - exact BytewiseComparatorOk.
  - exact I.
  - split; [discriminate|vm_compute; discriminate].
  - exact demo_wf.
  - split.
    + intros i j f g Hij Hf Hg x y Hx Hy [_ Tx] [_ Ty].
      destruct i as [|[|[|[|[|[|[|i]]]]]]]; destruct j as [|[|[|[|[|[|[|j]]]]]]]; try lia; cbn in Hf, Hg; try contradiction.
      demo_in Hf; demo_in Hg; cbn in Hx, Hy; demo_in Hx; demo_in Hy; cbn; try lia; exfalso; vm_compute in Tx, Ty; auto.
    + intros f g Hf Hg Hlt. cbn in Hf, Hg. demo_in Hf; demo_in Hg; cbn in Hlt; lia.
  - intros f qo Hf Hq Hr _. cbn in Hf. demo_in Hf; cbn in Hq; demo_in Hq; try discriminate Hr.
    eexists. split; [vm_compute; left; reflexivity|left; reflexivity].
  - exact I.
Defined.
