(* ===== verification/TableCache.v ===== *)
(** * The table cache (db/table_cache.cc)

    [TableCache] on the sharded cache of Cache.v and the tables of Table.v: a
    table is opened once and found by the number of its file from then on.  It is
    run as a system together with the block cache that its tables share; the last
    theorem discharges what the versions assume of the cache. *)

From Stdlib Require Import Permutation.
From S2P Require Import Prelude Coding Compare DbFormat Logging FileName SkipList MemTable WriteBatch Env Filter Cache CacheOk Iterator Block TwoLevel Format TableBuilder Table VersionEdit Version VersionGet.
#[local] Open Scope Z_scope.
#[local] Open Scope ldb_scope.

Section TableCache.
Context (C : Comparator) (K : Compression) {F : Type} {RF : RandomAccessFile F} (scratch : bool) (options : Options) (dbname : bytes).
Context (env_NewRandomAccessFile : bytes -> Status * option F) (block_cache : option (bytes -> option Block)).

Record TableAndFile := mkTableAndFile { tf_file : F; tf_table : Table F }.

(** The cache, and the last identifier the block cache gave out, if there is one. *)

Record TableCache := mkTableCache { tc_cache_ : ShardedLRUCache TableAndFile; tc_last_id : option Z }.

Definition TableCache_new (entries : Z) (last_id : option Z) : TableCache := mkTableCache (ShardedLRUCache_new entries) last_id.

Definition with_cache (tc : TableCache) (c : ShardedLRUCache TableAndFile) : TableCache := mkTableCache c (tc_last_id tc).

Definition next_cache_id (tc : TableCache) : Z := match tc_last_id tc with Some id => u64 (id + 1) | None => 0 end.

Definition took_cache_id (tc : TableCache) : TableCache := mkTableCache (tc_cache_ tc) (match tc_last_id tc with Some _ => Some (next_cache_id tc) | None => None end).

(** The file of a table, under its name or its old one. *)

Definition open_table_file (file_number : Z) : Status * option F :=
  let '(s, file) := env_NewRandomAccessFile (TableFileName dbname file_number) in
  if negb (ok s) then
    let '(s', file) := env_NewRandomAccessFile (SSTTableFileName dbname file_number) in
    (if ok s' then OK else s, file)
  else (s, file).

Definition FindTable (tc : TableCache) (file_number file_size : Z) : option (Status * option (nat * nat) * TableCache) :=
  let key := EncodeFixed64 file_number in
  match SC_Lookup (tc_cache_ tc) key with
  | None => None
  | Some (Some handle, c) => Some (OK, Some handle, with_cache tc c)
  | Some (None, c) =>
      let tc := with_cache tc c in
      let '(s, file) := open_table_file file_number in
      if negb (ok s) then Some (s, None, tc)
      else
        match file with
        | None => None
        | Some file =>
            let '(s, table) := Table_Open K scratch options (next_cache_id tc) file file_size in
            if negb (ok s) then Some (s, None, tc)
            else
              match table with
              | None => None
              | Some table =>
                  let tc := took_cache_id tc in
                  option_map (fun '(handle, c) => (OK, Some handle, with_cache tc c)) (SC_Insert (tc_cache_ tc) key (mkTableAndFile file table) 1)
              end
        end
  end.

(** A table that was found, and the handle to release when it is done with. *)

Definition with_table_of {A} (tc : TableCache) (handle : nat * nat) (k : Table F -> A) : option A :=
  option_map (fun tf => k (tf_table tf)) (SC_Value (tc_cache_ tc) handle).

Definition UnrefEntry (tc : TableCache) (handle : nat * nat) : option TableCache := option_map (with_cache tc) (SC_Release (tc_cache_ tc) handle).

(** The iterator over a table, or the error iterator of a status. *)

Definition TC_NewIterator (tc : TableCache) (file_number file_size : Z)
  : option ((Status + Table F * TwoLevelIterator BlockNewIter BlockNewIter * (nat * nat)) * TableCache) :=
  match FindTable tc file_number file_size with
  | None => None
  | Some (s, handle, tc) =>
      if negb (ok s) then Some (inl s, tc)
      else
        match handle with
        | None => None
        | Some handle => option_map (fun r => (inr r, tc)) (with_table_of tc handle (fun table => (table, Table_NewIterator table, handle)))
        end
  end.

Definition TC_Get (tc : TableCache) (ro : ReadOptions) (file_number file_size : Z) (k : bytes) : option (TableCache * (Status * option entry)) :=
  match FindTable tc file_number file_size with
  | None => None
  | Some (s, handle, tc) =>
      if negb (ok s) then Some (tc, (s, None))
      else
        match handle with
        | None => None
        | Some handle =>
            match with_table_of tc handle (fun t => InternalGet K scratch C block_cache t ro k), UnrefEntry tc handle with
            | Some r, Some tc => Some (tc, r)
            | _, _ => None
            end
        end
  end.

Definition Evict (tc : TableCache) (file_number : Z) : option TableCache := option_map (with_cache tc) (SC_Erase (tc_cache_ tc) (EncodeFixed64 file_number)).

Definition TC_GetRangeDeletions (tc : TableCache) (file_number file_size : Z) (dest_list : RangeDeletionList) : option (TableCache * RangeDeletionList) :=
  match FindTable tc file_number file_size with
  | None => None
  | Some (s, handle, tc) =>
      if negb (ok s) then Some (tc, dest_list)
      else
        match handle with
        | None => None
        | Some handle =>
            match with_table_of tc handle (fun table => RDL_MergeInto dest_list (GetRangeDeletions table)), UnrefEntry tc handle with
            | Some dest_list, Some tc => Some (tc, dest_list)
            | _, _ => None
            end
        end
  end.

End TableCache.

Arguments TableAndFile : clear implicits.
Arguments TableCache : clear implicits.

(** ** The tables in the cache *)

Section CacheInv.
Context {V : Type} (P : bytes -> V -> Prop).

(** The cache with its held handles: every entry alive satisfies [P] and weighs
    one, and a shard has at most [M] of them. *)

Record holds (cap M : Z) (st : CacheState (V := V)) : Prop := {
  ho_ok : sharded_ok cap st;
  ho_entries : forall i c a e, shard_ (cs_cache st) !! i = Some c -> lc_heap c !! a = Some e -> P (h_key e) (h_value e) /\ h_charge e = 1;
  ho_members : forall i c, shard_ (cs_cache st) !! i = Some c -> sz (members c) <= M
}.

Lemma charges_ones (heap : gmap nat (LRUHandle V)) l : (forall a, In a l -> exists e, heap !! a = Some e /\ h_charge e = 1) -> charges heap l = sz l.
Proof.
  unfold charges, sz. induction l as [|a l IH]; intros H; [reflexivity|]. cbn [fold_right length]. rewrite IH by (intros b Hb; apply H; right; exact Hb).
  destruct (H a (or_introl eq_refl)) as (e & -> & ->). lia.
Qed.

Lemma holds_room cap M st : holds cap M st -> M < 2 ^ 31 - 2 -> sz (cs_held st) <= M -> cache_room st.
Proof.
  intros [_ _ H] HM Hh. split; [lia|]. apply Forall_lookup. intros i c Hc. specialize (H i c Hc). lia.
Qed.

Lemma holds_step cap M st op : holds cap M st -> 0 <= cap <= M -> M < 2 ^ 31 - 2 -> sz (cs_held st) < M ->
  match op with OpInsert key value charge => P key value /\ charge = 1 | _ => True end ->
  exists st', do_cache_op op st = Some st' /\ holds cap M st' /\ keeps_values st st' /\ contents_step cap op st st'.
Proof.
  intros HH Hcap HM Hh Hop. pose proof HH as [H1 H2 H3]. destruct (op_ok_all cap st op H1 (holds_room cap M st HH HM ltac:(lia))) as (st' & E & S1 & [S2 S3] & S4).
  exists st'. split; [exact E|]. split; [|auto].
  assert (HE : forall i c a e, shard_ (cs_cache st') !! i = Some c -> lc_heap c !! a = Some e -> P (h_key e) (h_value e) /\ h_charge e = 1).
  { intros i c' a e' Hc He. destruct (S3 i c' Hc) as (c & Hc0 & _ & HA). destruct (HA a e' He) as [(e & He0 & [K1 _ K2 K3])|HN].
    - rewrite K1, K2, K3. exact (H2 i c a e Hc0 He0).
    - destruct op; try contradiction. destruct HN as (-> & -> & ->). destruct Hop as [Hop ->]. auto. }
  split; [exact S1|exact HE|]. intros i c' Hc. destruct (S3 i c' Hc) as (c & Hc0 & Hl & _). specialize (H3 i c Hc0). unfold growth in Hl. unfold sz in *.
  destruct op as [key value charge|key|n|key|]; try lia. destruct (decide (i = Shard (HashSlice key))) as [Ei|Hne]; [|lia].
  pose proof (so_shard _ _ S1 i c' Hc) as [[L1 L2 L3 L4 L5 L6 L7 L8] _]. destruct S4 as (h & c1 & c2 & gone & Eh & _ & _ & Hc1 & Hc2 & Ecap & (_ & _ & HT) & _).
  assert (Hi : fst h = i).
  { destruct st as [s hs ins]. cbn [do_cache_op] in E. unfold SC_Insert in E. cbn [cs_held] in Eh. rewrite <- Ei in E. destruct (shard_ s !! i) as [c0|]; [|discriminate].
    destruct (Insert c0 key (HashSlice key) value charge) as [[x y]|]; [|discriminate]. injection E as <-. cbn in Eh. injection Eh as <-. reflexivity. }
  assert (Hu : TotalCharge c' = sz (members c')).
  { unfold TotalCharge. rewrite L6, (charges_ones (lc_heap c') (members c')); [apply u64_small; unfold sz; lia|].
    intros a Ha. destruct (L2 a (or_introl Ha)) as (e & He). exists e. split; [exact He|]. exact (proj2 (HE i c' a e Hc He)). }
  rewrite Hi, Hc in Hc2. injection Hc2 as <-. destruct HT as [Hle|Hlru]; [unfold sz in Hu; lia|].
  assert (Hin : (length (members c') <= length (at_shard i (cs_held st')))%nat).
  { apply NoDup_incl_length; [apply NoDup_ListNoDup, L1|]. intros a Ha. unfold members in Ha. rewrite Hlru in Ha. cbn [app] in Ha. apply L5 in Ha.
    destruct (in_dec Nat.eq_dec a (at_shard i (cs_held st'))) as [Hx|Hx]; [exact Hx|]. rewrite (occurs_not_in _ _ Hx) in Ha. lia. }
  pose proof (at_shard_length i (cs_held st')) as Hs. rewrite Eh in Hs at 2. cbn [length] in Hs. lia.
Qed.

Lemma holds_mono (P' : bytes -> V -> Prop) cap M st : (forall k v, P k v -> P' k v) -> holds cap M st ->
  sharded_ok cap st /\ (forall i c a e, shard_ (cs_cache st) !! i = Some c -> lc_heap c !! a = Some e -> P' (h_key e) (h_value e) /\ h_charge e = 1) /\
  (forall i c, shard_ (cs_cache st) !! i = Some c -> sz (members c) <= M).
Proof. intros HP [H1 H2 H3]. split; [exact H1|]. split; [|exact H3]. intros i c a e Hc He. destruct (H2 i c a e Hc He). auto. Qed.

(** What a handle stands for. *)

Lemma value_entry cap M st h v : holds cap M st -> SC_Value (cs_cache st) h = Some v -> exists key, P key v.
Proof.
  intros [_ H2 _] HV. unfold SC_Value in HV. destruct (shard_ (cs_cache st) !! fst h) as [c|] eqn:Hc; [|discriminate].
  destruct (lc_heap c !! snd h) as [e|] eqn:He; [|discriminate]. injection HV as <-. exists (h_key e). exact (proj1 (H2 _ c _ e Hc He)).
Qed.

Lemma holds_new capacity M : 0 <= M -> holds (shard_capacity capacity) M (mkState (ShardedLRUCache_new capacity) [] []).
Proof.
  intros HM. split; [apply cache_new_ok| |]; cbn [cs_cache ShardedLRUCache_new shard_].
  - intros i c a e Hc He. apply lookup_replicate in Hc as [-> _]. cbn in He. rewrite lookup_empty in He. discriminate.
  - intros i c Hc. apply lookup_replicate in Hc as [-> _]. exact HM.
Qed.

(** What a lookup finds. *)

Lemma found_entry cap M st key h : holds cap M st -> SC_find (cs_cache st) key = Some h -> exists v, SC_Value (cs_cache st) h = Some v /\ P key v.
Proof.
  intros [H1 H2 _] HF. unfold SC_find in HF. set (i := Shard (HashSlice key)) in *. destruct (shard_ (cs_cache st) !! i) as [c|] eqn:Hc; [|discriminate].
  destruct (find c key (HashSlice key)) as [a|] eqn:Ef; [|discriminate]. injection HF as <-.
  apply (find_cached c _ _ key (HashSlice key) a (so_shard _ _ H1 i c Hc)) in Ef as (e & He & _ & K1 & _). exists (h_value e). unfold SC_Value. cbn [fst snd]. rewrite Hc, He.
  split; [reflexivity|]. destruct (H2 i c a e Hc He) as [HP _]. rewrite K1 in HP. exact HP.
Qed.

End CacheInv.

(** ** The table cache serves the files of the store *)

Section Serves.
Context {U : Comparator} {UOK : ComparatorOk U} {K : Compression} {KOK : CompressionOk K}.
Context {W : Type} {WF : WritableFile W} {RW : ReliableWritable W} {F : Type} {RF : RandomAccessFile F} {RR : ReliableRandom F}.
Context (scratch : bool) (options : Options) (dbname : bytes) (env_NewRandomAccessFile : bytes -> Status * option F).

#[local] Abbreviation ICmp := (InternalKeyComparator U).
#[local] Abbreviation find_table := (FindTable K scratch options dbname env_NewRandomAccessFile).
#[local] Abbreviation TF := (TableAndFile F).

(** A table file: its name opens it, and it holds a table of the entries. *)

Record table_file (number size : Z) (es : list entry) (file : F) : Prop := {
  tfl_number : 0 <= number < 2 ^ 64;
  tfl_open : env_NewRandomAccessFile (TableFileName dbname number) = (OK, Some file);
  tfl_stored : exists wfile : W, Stored (C := ICmp) (K := K) options wfile es file;
  tfl_size : size = sz (rf_contents file)
}.

(** A cached table satisfies [Q] and is the one that its file opens as. *)

Definition opened_from (Q : Table F -> Prop) (key : bytes) (tf : TF) : Prop := Q (tf_table tf) /\
  forall number file, 0 <= number < 2 ^ 64 -> key = EncodeFixed64 number -> env_NewRandomAccessFile (TableFileName dbname number) = (OK, Some file) ->
    tf_file tf = file /\ exists id, Table_Open K scratch options id file (sz (rf_contents file)) = (OK, Some (tf_table tf)).

Definition tc_ok (Q : Table F -> Prop) (cap M : Z) (tc : TableCache F) (hs : list (nat * nat)) : Prop :=
  exists ins, holds (opened_from Q) cap M (mkState (tc_cache_ tc) hs ins).

Lemma tc_ok_mono (Q Q' : Table F -> Prop) cap M tc hs : (forall tb, Q tb -> Q' tb) -> tc_ok Q cap M tc hs -> tc_ok Q' cap M tc hs.
Proof.
  intros HQ (ins & HH). exists ins. destruct (holds_mono (opened_from Q) (opened_from Q') cap M _ ltac:(intros k v [H1 H2]; split; auto) HH) as (H1 & H2 & H3). split; assumption.
Qed.

(** [M] bounds the handles held and the tables of a shard. *)

Definition limits (cap M : Z) (hs : list (nat * nat)) : Prop := 0 <= cap <= M /\ M < 2 ^ 31 - 2 /\ sz hs + 1 < M.

Lemma EncodeFixed64_inj n m : 0 <= n < 2 ^ 64 -> 0 <= m < 2 ^ 64 -> EncodeFixed64 n = EncodeFixed64 m -> n = m.
Proof. intros Hn Hm E. apply (f_equal (fun l => DecodeFixed64 (l ++ []))) in E. cbv beta in E. rewrite !fixed64_decode, !u64_small in E by assumption. exact E. Qed.

(** A table is found in the cache, or opened under the next identifier and put there. *)

Definition table_found (Q : Table F -> Prop) (cap M : Z) (tc : TableCache F) hs (number size : Z) (file : F) (h : nat * nat) (tc' : TableCache F) (v : TF) : Prop :=
  SC_Value (tc_cache_ tc') h = Some v /\ (exists id, Table_Open K scratch options id file size = (OK, Some (tf_table v))) /\
  (0 < cap -> SC_find (tc_cache_ tc') (EncodeFixed64 number) = Some h) /\
  (SC_find (tc_cache_ tc) (EncodeFixed64 number) = Some h /\ tc_ok Q cap M tc' (h :: hs) /\ Q (tf_table v) /\ tc_last_id tc' = tc_last_id tc \/
   SC_find (tc_cache_ tc) (EncodeFixed64 number) = None /\ tc_ok (fun tb => Q tb \/ tb = tf_table v) cap M tc' (h :: hs) /\
   Table_Open K scratch options (next_cache_id tc) file size = (OK, Some (tf_table v)) /\ tc_last_id tc' = tc_last_id (took_cache_id tc)).

Lemma FindTable_ok Q cap M tc hs number size es file : tc_ok Q cap M tc hs -> limits cap M hs -> table_file number size es file ->
  exists h tc' v, find_table tc number size = Some (OK, Some h, tc') /\ table_found Q cap M tc hs number size file h tc' v.
Proof.
  intros (ins & HH) (Hcap & HM & Hhs) [Hn Ho [wfile Hst] ->]. destruct tc as [s ids]. cbn [tc_cache_] in *. unfold FindTable, table_found. cbn [tc_cache_ tc_last_id].
  destruct (holds_step (opened_from Q) cap M _ (OpLookup (EncodeFixed64 number)) HH Hcap HM ltac:(cbn; lia) I) as (st1 & E1 & H1 & V1 & [X1 X2]).
  cbn [do_cache_op] in E1. destruct (SC_Lookup s (EncodeFixed64 number)) as [[[h|] s1]|]; [| |discriminate]; cbn [option_map] in E1; injection E1 as <-; cbn [cs_cache cs_held] in *.
  - destruct (SC_find s (EncodeFixed64 number)) as [h'|] eqn:Ef; [|apply (f_equal length) in X1; cbn in X1; lia]. injection X1 as <-.
    destruct (found_entry (opened_from Q) cap M (mkState s1 (h :: hs) ins) (EncodeFixed64 number) h H1) as (v & Hv & HQ & HP); [cbn [cs_cache]; rewrite X2; exact Ef|].
    exists h, (mkTableCache s1 ids), v. split; [reflexivity|]. split; [exact Hv|]. split; [exact (proj2 (HP number file Hn eq_refl Ho))|].
    split; [intros _; cbn [tc_cache_]; rewrite X2; exact Ef|]. left. split; [reflexivity|]. split; [exists ins; exact H1|]. split; [exact HQ|reflexivity].
  - assert (Ef : SC_find s (EncodeFixed64 number) = None) by (destruct (SC_find s (EncodeFixed64 number)); [apply (f_equal length) in X1; cbn in X1; lia|reflexivity]).
    unfold open_table_file. rewrite Ho. cbn [ok OK negb with_cache].
    destruct (readback options wfile es file scratch (next_cache_id (mkTableCache s1 ids)) Hst) as (d & rd & fl & mt & ix & _ & Hsz & _ & HO & _).
    rewrite Hsz in HO. unfold with_cache. cbn [tc_last_id]. rewrite HO. cbn [ok OK negb took_cache_id tc_cache_].
    set (tb := opened options file (range_dels es) d rd fl mt ix (next_cache_id (mkTableCache s1 ids))) in *.
    set (Q' := fun t => Q t \/ t = tb). assert (H1' : holds (opened_from Q') cap M (mkState s1 hs ins)).
    { destruct (holds_mono (opened_from Q) (opened_from Q') cap M _ ltac:(intros k v [A B]; split; [left; exact A|exact B]) H1) as (A1 & A2 & A3). split; assumption. }
    assert (HP : opened_from Q' (EncodeFixed64 number) (mkTableAndFile file tb)).
    { split; [right; reflexivity|]. intros n f Hn' E Ef'. apply EncodeFixed64_inj in E; [|assumption..]. subst n. rewrite Ho in Ef'. injection Ef' as <-. split; [reflexivity|]. eexists. exact HO. }
    destruct (holds_step (opened_from Q') cap M _ (OpInsert (EncodeFixed64 number) (mkTableAndFile file tb) 1) H1' Hcap HM ltac:(cbn [cs_held]; lia) (conj HP eq_refl))
      as (st2 & E2 & H2 & V2 & (h & c1 & c2 & gone & Eh & Hv & Hfd & _)).
    cbn [do_cache_op] in E2. destruct (SC_Insert s1 (EncodeFixed64 number) (mkTableAndFile file tb) 1) as [[h' s2]|]; [|discriminate].
    cbn [option_map] in E2. injection E2 as <-. cbn [cs_cache cs_held] in *. injection Eh as ->. eexists h, _, _. split; [reflexivity|].
    split; [exact Hv|]. split; [eexists; exact HO|]. split; [exact Hfd|]. right. split; [exact Ef|]. split; [eexists; exact H2|]. split; [exact HO|reflexivity].
Qed.

(** A table that is cached needs no file. *)

Lemma FindTable_hit Q cap M tc hs number size h open' : tc_ok Q cap M tc hs -> limits cap M hs -> SC_find (tc_cache_ tc) (EncodeFixed64 number) = Some h ->
  exists tc', FindTable K scratch options dbname open' tc number size = Some (OK, Some h, tc') /\ tc_last_id tc' = tc_last_id tc.
Proof.
  intros (ins & HH) (Hcap & HM & Hhs) Ef. destruct tc as [s ids]. cbn [tc_cache_] in *. unfold FindTable. cbn [tc_cache_].
  destruct (holds_step (opened_from Q) cap M _ (OpLookup (EncodeFixed64 number)) HH Hcap HM ltac:(cbn; lia) I) as (st1 & E1 & H1 & V1 & [X1 X2]).
  cbn [cs_cache cs_held] in *. rewrite Ef in X1.
  cbn [do_cache_op] in E1. destruct (SC_Lookup s (EncodeFixed64 number)) as [[[h'|] s1]|]; [| |discriminate]; cbn [option_map] in E1; injection E1 as <-; cbn [cs_cache cs_held] in *.
  - injection X1 as ->. eexists. split; reflexivity.
  - apply (f_equal length) in X1. cbn in X1. lia.
Qed.

Lemma release_ok Q cap M tc hs n h : tc_ok Q cap M tc hs -> 0 <= cap <= M -> M < 2 ^ 31 - 2 -> sz hs < M -> hs !! n = Some h ->
  exists tc', UnrefEntry tc h = Some tc' /\ tc_ok Q cap M tc' (take n hs ++ drop (S n) hs) /\ tc_last_id tc' = tc_last_id tc /\
    forall key, SC_find (tc_cache_ tc') key = SC_find (tc_cache_ tc) key.
Proof.
  intros (ins & HH) Hcap HM Hhs Hn. destruct tc as [s ids]. unfold UnrefEntry. cbn [tc_cache_] in *.
  destruct (holds_step (opened_from Q) cap M _ (OpRelease n) HH Hcap HM ltac:(cbn [cs_held]; lia) I) as (st1 & E1 & H1 & _ & X).
  cbn [do_cache_op] in E1. rewrite Hn in E1. destruct (SC_Release s h) as [s1|]; [|discriminate]. cbn [option_map] in E1. injection E1 as <-.
  eexists. split; [reflexivity|]. split; [exists ins; exact H1|]. split; [reflexivity|exact X].
Qed.

Lemma UnrefEntry_ok Q cap M tc h hs : tc_ok Q cap M tc (h :: hs) -> limits cap M hs ->
  exists tc', UnrefEntry tc h = Some tc' /\ tc_ok Q cap M tc' hs /\ tc_last_id tc' = tc_last_id tc /\ forall key, SC_find (tc_cache_ tc') key = SC_find (tc_cache_ tc) key.
Proof.
  intros HT (Hcap & HM & Hhs). destruct (release_ok Q cap M tc (h :: hs) 0 h HT Hcap HM ltac:(unfold sz in *; cbn [length]; lia) eq_refl) as (tc' & E & H & X).
  exists tc'. split; [exact E|]. split; [|exact X]. cbn [take drop app] in H. rewrite drop_0 in H. exact H.
Qed.

Lemma Evict_ok Q cap M tc hs number : tc_ok Q cap M tc hs -> 0 <= cap <= M -> M < 2 ^ 31 - 2 -> sz hs < M ->
  exists tc', Evict tc number = Some tc' /\ tc_ok Q cap M tc' hs /\ tc_last_id tc' = tc_last_id tc /\ SC_find (tc_cache_ tc') (EncodeFixed64 number) = None.
Proof.
  intros (ins & HH) Hcap HM Hhs. destruct tc as [s ids]. unfold Evict. cbn [tc_cache_] in *.
  destruct (holds_step _ _ M _ (OpErase (EncodeFixed64 number)) HH Hcap HM ltac:(cbn [cs_held]; lia) I) as (st1 & E1 & H1 & _ & [X1 _]).
  cbn [do_cache_op] in E1. destruct (SC_Erase s (EncodeFixed64 number)) as [s1|]; [|discriminate]. cbn [option_map] in E1. injection E1 as <-.
  eexists. split; [reflexivity|]. split; [exists ins; exact H1|]. split; [reflexivity|exact X1].
Qed.

(** ** Lookups and iterators, given an honest block cache *)

Hypothesis Hpolicy : forall P, opt_filter_policy options = Some P -> exists UP, P = InternalFilterPolicy UP /\ FilterPolicyOk UP.

Definition honest (block_cache : option (bytes -> option Block)) (tb : Table F) : Prop :=
  forall lookup, block_cache = Some lookup -> blocks_honest (K := K) ICmp scratch lookup tb.

Lemma table_answers block_cache number size es file id tb : table_file number size es file -> Table_Open K scratch options id file size = (OK, Some tb) -> honest block_cache tb ->
  (forall ro k, @cmp_dom ICmp k -> InternalGet K scratch ICmp block_cache tb ro k = get_spec (C := ICmp) (points es) (range_dels es) k) /\
  (forall ro, exists Pos, @Cursor _ (TableIteratorOps K scratch ICmp block_cache tb ro) ICmp (points es) Pos /\ Pos (length (points es)) (Table_NewIterator tb)) /\
  GetRangeDeletions tb = (match range_dels es with [] => None | ds => Some (map to_range_del ds) end).
Proof.
  intros [Hn Ho [wfile Hst] ->] HO Hc. destruct (stored_blocks U K W F _ _ _ _ options wfile es file scratch id UOK KOK Hpolicy Hst) as (tb' & HO' & _ & _ & _ & Hd & HB).
  rewrite HO in HO'. injection HO' as <-. destruct (HB block_cache Hc) as [H1 H2]. auto.
Qed.

Lemma TC_Get_found Q block_cache cap M tc hs number size es file ro k h tc1 v tc2 : find_table tc number size = Some (OK, Some h, tc1) ->
  table_found Q cap M tc hs number size file h tc1 v -> UnrefEntry tc1 h = Some tc2 -> table_file number size es file -> honest block_cache (tf_table v) -> @cmp_dom ICmp k ->
  TC_Get ICmp K scratch options dbname env_NewRandomAccessFile block_cache tc ro number size k = Some (tc2, get_spec (C := ICmp) (points es) (range_dels es) k).
Proof.
  intros E (Hv & [id HO] & _) E2 HF Hc Hk. unfold TC_Get. rewrite E. cbn [ok OK negb]. unfold with_table_of. rewrite Hv, E2. cbn [option_map].
  rewrite (proj1 (table_answers block_cache number size es file id (tf_table v) HF HO Hc) ro k Hk). reflexivity.
Qed.

Lemma TC_GetRangeDeletions_found Q cap M tc hs number size es file dest h tc1 v tc2 : find_table tc number size = Some (OK, Some h, tc1) ->
  table_found Q cap M tc hs number size file h tc1 v -> UnrefEntry tc1 h = Some tc2 -> table_file number size es file ->
  TC_GetRangeDeletions K scratch options dbname env_NewRandomAccessFile tc number size dest =
    Some (tc2, RDL_MergeInto dest (match range_dels es with [] => None | ds => Some (map to_range_del ds) end)).
Proof.
  intros E (Hv & [id HO] & _) E2 HF. unfold TC_GetRangeDeletions. rewrite E. cbn [ok OK negb]. unfold with_table_of. rewrite Hv, E2. cbn [option_map].
  rewrite (proj2 (proj2 (table_answers None number size es file id (tf_table v) HF HO ltac:(intros lookup X; discriminate X)))). reflexivity.
Qed.

Lemma TC_NewIterator_found Q block_cache cap M tc hs number size es file h tc1 v : find_table tc number size = Some (OK, Some h, tc1) ->
  table_found Q cap M tc hs number size file h tc1 v -> table_file number size es file -> honest block_cache (tf_table v) ->
  TC_NewIterator K scratch options dbname env_NewRandomAccessFile tc number size = Some (inr (tf_table v, Table_NewIterator (tf_table v), h), tc1) /\
  forall ro, exists Pos, @Cursor _ (TableIteratorOps K scratch ICmp block_cache (tf_table v) ro) ICmp (points es) Pos /\ Pos (length (points es)) (Table_NewIterator (tf_table v)).
Proof.
  intros E (Hv & [id HO] & _) HF Hc. unfold TC_NewIterator. rewrite E. cbn [ok OK negb]. unfold with_table_of. rewrite Hv. cbn [option_map]. split; [reflexivity|].
  exact (proj1 (proj2 (table_answers block_cache number size es file id (tf_table v) HF HO Hc))).
Qed.

(** Without a block cache nothing is asked of it. *)

Lemma TC_Get_ok cap M tc hs number size es file ro k : tc_ok (fun _ => True) cap M tc hs -> limits cap M hs -> table_file number size es file -> @cmp_dom ICmp k ->
  exists tc', TC_Get ICmp K scratch options dbname env_NewRandomAccessFile None tc ro number size k =
    Some (tc', get_spec (C := ICmp) (points es) (range_dels es) k) /\ tc_ok (fun _ => True) cap M tc' hs.
Proof.
  intros HT HL HF Hk. destruct (FindTable_ok _ cap M tc hs number size es file HT HL HF) as (h & tc1 & v & E & HX). pose proof HX as (_ & _ & _ & HC).
  assert (HT1 : tc_ok (fun _ => True) cap M tc1 (h :: hs)) by (destruct HC as [(_ & H & _)|(_ & H & _)]; [exact H|exact (tc_ok_mono _ _ cap M tc1 _ (fun _ _ => I) H)]).
  destruct (UnrefEntry_ok _ cap M tc1 h hs HT1 HL) as (tc2 & E2 & HT2 & _). exists tc2. split; [|exact HT2].
  apply (TC_Get_found _ None cap M tc hs number size es file ro k h tc1 v tc2 E HX E2 HF); [intros lookup X; discriminate X|exact Hk].
Qed.

(** ** The cache with its block cache at work

    The table cache, the handles held and what the block cache holds.  A table is
    found or opened, a block of a table whose handle is held is read through the
    index and put into the block cache, the block cache lets go of a block, a
    handle is given back, a number is evicted.  [TC_Get] finds, reads and gives
    back; [TC_NewIterator] finds, and the iterator reads until it gives back. *)

Record TableSystem := mkSystem { sy_tc : TableCache F; sy_held : list (nat * nat); sy_blocks : gmap bytes Block }.

Definition sy_lookup (st : TableSystem) : option (bytes -> option Block) := Some (fun key => sy_blocks st !! key).

Definition ids_left (tc : TableCache F) : Prop := exists id, tc_last_id tc = Some id /\ id + 1 < 2 ^ 64.

Inductive sys_step (cap M : Z) : TableSystem -> TableSystem -> Prop :=
| sys_find tc hs bc number size es file h tc' : table_file number size es file -> limits cap M hs -> ids_left tc ->
    find_table tc number size = Some (OK, Some h, tc') -> sys_step cap M (mkSystem tc hs bc) (mkSystem tc' (h :: hs) bc)
| sys_read tc hs bc h tf v ro it key blk : In h hs -> SC_Value (tc_cache_ tc) h = Some tf -> index_value ICmp (tf_table tf) v ->
    BlockReader K scratch (Some (fun k => bc !! k)) (tf_table tf) ro v = (it, Some (key, blk)) -> sys_step cap M (mkSystem tc hs bc) (mkSystem tc hs (<[key := blk]> bc))
| sys_drop tc hs bc key : sys_step cap M (mkSystem tc hs bc) (mkSystem tc hs (delete key bc))
| sys_unref tc hs bc n h tc' : hs !! n = Some h -> UnrefEntry tc h = Some tc' -> sys_step cap M (mkSystem tc hs bc) (mkSystem tc' (take n hs ++ drop (S n) hs) bc)
| sys_evict tc hs bc number tc' : Evict tc number = Some tc' -> sys_step cap M (mkSystem tc hs bc) (mkSystem tc' hs bc).

(** The tables opened so far have their own identifiers, and every cached block is
    the block of one of them. *)

Record sys_ok (cap M : Z) (issued : list (Table F)) (st : TableSystem) : Prop := {
  sk_held : sz (sy_held st) < M;
  sk_tables : tc_ok (fun tb => In tb issued) cap M (sy_tc st) (sy_held st);
  sk_ids : exists id, tc_last_id (sy_tc st) = Some id /\ 0 <= id < 2 ^ 64 /\ Forall (fun tb => 0 <= t_cache_id tb <= id) issued;
  sk_issued : forall tb, In tb issued -> exists number size es file, table_file number size es file /\ Table_Open K scratch options (t_cache_id tb) file size = (OK, Some tb);
  sk_own : forall tb tb', In tb issued -> In tb' issued -> t_cache_id tb = t_cache_id tb' -> tb = tb';
  sk_blocks : forall key blk, sy_blocks st !! key = Some blk -> exists tb h verify c, In tb issued /\ block_handle_of ICmp tb h /\ key = cache_key tb h /\
    ReadBlock K scratch verify (t_file tb) h = (OK, c) /\ blk = Block_new (bc_data c)
}.

Lemma cache_key_inj (tb tb' : Table F) h h' : 0 <= t_cache_id tb < 2 ^ 64 -> 0 <= t_cache_id tb' < 2 ^ 64 -> 0 <= bh_offset h < 2 ^ 64 -> 0 <= bh_offset h' < 2 ^ 64 ->
  cache_key tb h = cache_key tb' h' -> t_cache_id tb = t_cache_id tb' /\ bh_offset h = bh_offset h'.
Proof.
  intros H1 H2 H3 H4 E. apply app_inj_1 in E as [E1 E2]; [|reflexivity]. split; apply EncodeFixed64_inj; assumption.
Qed.

Lemma sys_honest cap M issued st tb : sys_ok cap M issued st -> In tb issued -> honest (sy_lookup st) tb.
Proof.
  intros [_ _ (id & _ & Hid & Hall) Hi Ho Hb] Hin lookup E h blk Hh Hl. injection E as <-. destruct (Hb _ _ Hl) as (tb' & h' & verify & c & Hin' & Hh' & Ek & Hr & ->).
  rewrite List.Forall_forall in Hall. pose proof (Hall tb Hin) as R1. pose proof (Hall tb' Hin') as R2.
  assert (HX : forall t, In t issued -> (forall x y, block_handle_of ICmp t x -> block_handle_of ICmp t y -> bh_offset x = bh_offset y -> x = y) /\ forall x, block_handle_of ICmp t x -> 0 <= bh_offset x < 2 ^ 64).
  { intros t Ht. destruct (Hi t Ht) as (number & size & es & file & [Hn Hop [wfile Hst] ->] & HO).
    destruct (stored_blocks U K W F _ _ _ _ options wfile es file scratch (t_cache_id t) UOK KOK Hpolicy Hst) as (t' & HO' & _ & B1 & B2 & _). rewrite HO in HO'. injection HO' as <-. auto. }
  destruct (cache_key_inj tb tb' h h' ltac:(lia) ltac:(lia) (proj2 (HX tb Hin) h Hh) (proj2 (HX tb' Hin') h' Hh') Ek) as [E1 E2].
  pose proof (Ho tb tb' Hin Hin' E1) as <-. pose proof (proj1 (HX tb Hin) h h' Hh Hh' E2) as <-. exists verify, c. auto.
Qed.

Lemma next_id_of (tc : TableCache F) id : tc_last_id tc = Some id -> 0 <= id -> id + 1 < 2 ^ 64 -> next_cache_id tc = id + 1 /\ tc_last_id (took_cache_id tc) = Some (id + 1).
Proof. intros E H1 H2. unfold took_cache_id, next_cache_id. cbn [tc_last_id]. rewrite E, u64_small by lia. auto. Qed.

Lemma sys_found cap M issued tc hs bc number size es file h tc' v : sys_ok cap M issued (mkSystem tc hs bc) -> limits cap M hs -> ids_left tc -> table_file number size es file ->
  table_found (fun tb => In tb issued) cap M tc hs number size file h tc' v ->
  exists issued', In (tf_table v) issued' /\ sys_ok cap M issued' (mkSystem tc' (h :: hs) bc).
Proof.
  intros [H1 H2 (id & Hid & Hr & Hall) H4 H5 H6] (Hcap & HM & Hhs) (id' & Hid' & Hlt) HF (_ & _ & _ & HC). cbn [sy_tc sy_held sy_blocks] in *.
  assert (Hlen : sz (h :: hs) < M) by (unfold sz in *; cbn [length]; lia). rewrite Hid in Hid'. injection Hid' as <-.
  destruct HC as [(_ & HT & Hin & El)|(_ & HT & HO & El)].
  - exists issued. split; [exact Hin|]. split; cbn [sy_tc sy_held sy_blocks]; try assumption. exists id. rewrite El. auto.
  - destruct (next_id_of tc id Hid ltac:(lia) Hlt) as [En Et]. rewrite En in HO. exists (tf_table v :: issued). split; [left; reflexivity|].
    assert (Ei : t_cache_id (tf_table v) = id + 1).
    { destruct HF as [Hn Hop [wfile Hst] ->]. destruct (stored_blocks U K W F _ _ _ _ options wfile es file scratch (id + 1) UOK KOK Hpolicy Hst) as (t' & HO' & Ei & _). rewrite HO in HO'. injection HO' as <-. exact Ei. }
    assert (Hnew : forall t, In t issued -> t_cache_id t <> t_cache_id (tf_table v)) by (intros t Ht; rewrite List.Forall_forall in Hall; pose proof (Hall t Ht); lia).
    split; cbn [sy_tc sy_held sy_blocks]; try assumption.
    + apply (tc_ok_mono _ _ cap M tc' _) with (2 := HT). intros t [Ht| ->]; [right; exact Ht|left; reflexivity].
    + exists (id + 1). split; [congruence|]. split; [lia|]. constructor; [lia|]. eapply List.Forall_impl; [|exact Hall]. cbv beta. intros t Ht. lia.
    + intros t [<-|Ht]; [|exact (H4 t Ht)]. exists number, size, es, file. rewrite Ei. auto.
    + intros t t' [<-|Ht] [<-|Ht'] E; [reflexivity|exfalso; apply (Hnew t' Ht'); congruence|exfalso; exact (Hnew t Ht E)|exact (H5 t t' Ht Ht' E)].
    + intros key blk Hk. destruct (H6 key blk Hk) as (t & hh & verify & c & Ht & R). exists t, hh, verify, c. split; [right; exact Ht|exact R].
Qed.

Lemma sys_step_ok cap M issued st st' : 0 <= cap <= M -> M < 2 ^ 31 - 2 -> sys_ok cap M issued st -> sys_step cap M st st' -> exists issued', sys_ok cap M issued' st'.
Proof.
  intros Hcap HM HS Hstep. destruct Hstep as [tc hs bc number size es file h tc' HF HL Hid E|tc hs bc h tf v ro it key blk Hin Hv Hix HR|tc hs bc key|tc hs bc n h tc' Hn E|tc hs bc number tc' E].
  - destruct (FindTable_ok _ cap M tc hs number size es file (sk_tables _ _ _ _ HS) HL HF) as (h1 & tc1 & v & E1 & HX). rewrite E in E1. injection E1 as <- <-.
    destruct (sys_found cap M issued tc hs bc number size es file h tc' v HS HL Hid HF HX) as (issued' & _ & H). exists issued'. exact H.
  - exists issued. destruct HS as [H1 H2 H3 H4 H5 H6]. cbn [sy_tc sy_held sy_blocks] in *. split; cbn [sy_tc sy_held sy_blocks]; try assumption.
    intros k b Hk. apply lookup_insert_Some in Hk as [[<- <-]|[_ Hk]]; [|exact (H6 k b Hk)].
    destruct H2 as (ins & HH). destruct (value_entry _ cap M _ h tf HH Hv) as (k0 & Hq & _). unfold BlockReader in HR.
    destruct (BH_DecodeFrom BlockHandle_new v) as [[s handle] rest] eqn:ED. destruct (ok s) eqn:Es; cbn [negb] in HR; [|discriminate]. destruct s; try discriminate Es.
    destruct (bc !! cache_key (tf_table tf) handle); [discriminate|]. destruct (ReadBlock K scratch (ro_verify_checksums ro) (t_file (tf_table tf)) handle) as [s c] eqn:Er.
    destruct (ok s) eqn:Es'; [|discriminate]. destruct s; try discriminate Es'. destruct (bc_cachable c && ro_fill_cache ro); [|discriminate]. injection HR as _ <- <-.
    exists (tf_table tf), handle, (ro_verify_checksums ro), c. split; [exact Hq|]. split; [exists v, rest; auto|]. auto.
  - exists issued. destruct HS as [H1 H2 H3 H4 H5 H6]. cbn [sy_tc sy_held sy_blocks] in *. split; cbn [sy_tc sy_held sy_blocks]; try assumption.
    intros k b Hk. apply lookup_delete_Some in Hk as [_ Hk]. exact (H6 k b Hk).
  - exists issued. destruct HS as [H1 H2 H3 H4 H5 H6]. cbn [sy_tc sy_held sy_blocks] in *. destruct (release_ok _ cap M tc hs n h H2 Hcap HM H1 Hn) as (tc1 & E1 & HT & El & _).
    rewrite E in E1. injection E1 as <-. split; cbn [sy_tc sy_held sy_blocks]; rewrite ?El; try assumption.
    unfold sz in *. rewrite length_app, length_take, length_drop. apply lookup_lt_Some in Hn. lia.
  - exists issued. destruct HS as [H1 H2 H3 H4 H5 H6]. cbn [sy_tc sy_held sy_blocks] in *. destruct (Evict_ok _ cap M tc hs number H2 Hcap HM H1) as (tc1 & E1 & HT & El & _).
    rewrite E in E1. injection E1 as <-. split; cbn [sy_tc sy_held sy_blocks]; rewrite ?El; assumption.
Qed.

Definition sys_reached (entries id0 M : Z) : TableSystem -> Prop := rtc (sys_step (shard_capacity entries) M) (mkSystem (TableCache_new entries (Some id0)) [] ∅).

Lemma sys_reached_ok entries id0 M st : limits (shard_capacity entries) M [] -> 0 <= id0 < 2 ^ 64 -> sys_reached entries id0 M st -> exists issued, sys_ok (shard_capacity entries) M issued st.
Proof.
  intros (Hcap & HM & Hh) Hid HR. apply (rtc_ind_r (fun st => exists issued, sys_ok (shard_capacity entries) M issued st) _) with (3 := HR).
  - exists []. unfold sz in Hh. cbn [length] in Hh. split; cbn [sy_tc sy_held sy_blocks]; try (intros; contradiction).
    + unfold sz. cbn [length]. lia.
    + exists []. apply holds_new. lia.
    + exists id0. split; [reflexivity|]. split; [exact Hid|constructor].
    + intros key blk E. rewrite lookup_empty in E. discriminate E.
  - intros y z _ Hstep (issued & HS). exact (sys_step_ok _ M issued y z Hcap HM HS Hstep).
Qed.

End Serves.

Section Ops.
Context (C : Comparator) (K : Compression) {F : Type} {RF : RandomAccessFile F} (scratch : bool) (options : Options) (dbname : bytes).
Context (env_NewRandomAccessFile : bytes -> Status * option F) (block_cache : option (bytes -> option Block)).

(** The cache as the versions use it; [None] stands for a use of a freed handle. *)

Definition TableCacheGet : TableCacheOps (option (TableCache F)) := {|
  tc_Get tc ro number size k :=
    match tc with
    | Some tc => match TC_Get C K scratch options dbname env_NewRandomAccessFile block_cache tc ro number size k with
                 | Some (tc, r) => (Some tc, r)
                 | None => (None, (OK, None))
                 end
    | None => (None, (OK, None))
    end
|}.

End Ops.

(** What the versions assume of the cache, for a database without a block cache. *)

Lemma table_cache_serves_versions : forall U K W F (WF : WritableFile W) (RW : ReliableWritable W) (RF : RandomAccessFile F) (RR : ReliableRandom F)
    scratch options dbname open_file FP (fm : FP -> FileMetaData) (file_ops : FP -> list (Z * Op)) (files : list FP) entries last_id M,
  ComparatorOk U -> CompressionOk K ->
  (forall P, opt_filter_policy options = Some P -> exists UP, P = InternalFilterPolicy UP /\ FilterPolicyOk UP) ->
  (forall f, In f files -> exists file, table_file (U := U) (K := K) (W := W) options dbname open_file (f_number (fm f)) (f_file_size (fm f)) (map op_entry (file_ops f)) file) ->
  limits (shard_capacity entries) M [] ->
  let served := fun o => match o with Some tc => tc_ok (K := K) scratch options dbname open_file (fun _ => True) (shard_capacity entries) M tc [] | None => False end in
  served (Some (TableCache_new entries last_id)) /\
  forall f, In f files -> cache_serves (U := U) fm (TCO := TableCacheGet (InternalKeyComparator U) K scratch options dbname open_file None) served file_ops f.
Proof.
  intros U K W F WF RW RF RR scratch options dbname open_file FP fm file_ops files entries last_id M UOK KOK Hpol Hf HL served. split.
  - exists []. apply holds_new. destruct HL as (H1 & _). lia.
  - intros f Hin tc ro k HT Hk. destruct tc as [tc|]; [|contradiction]. destruct (Hf f Hin) as (file & HF).
    destruct (TC_Get_ok (U := U) scratch options dbname open_file Hpol _ M tc [] _ _ _ file ro k HT HL HF Hk) as (tc' & E & HT').
    exists (Some tc'). split; [exact HT'|]. cbn [tc_Get TableCacheGet]. rewrite E. reflexivity.
Qed.

(** C33.  The table cache serves the table files of a store.  In every state that a
    new cache and an empty block cache come to by finding and opening tables,
    reading their blocks into the block cache, dropping blocks from it, releasing
    handles and evicting numbers: a lookup in a file answers as
    [Table::InternalGet] does on the entries of the file, whatever blocks are
    cached by then, gives back the handle it took and leaves the table cached when
    the capacity is not zero; an iterator is a cursor on the point entries of the
    file and keeps its table; a number that is cached is found with no file being
    opened and no identifier spent; an evicted number is no longer cached.  Fewer
    than M handles are held and the identifiers of the block cache stay below
    2^64. *)
Theorem table_cache_serves : forall U K W F (WF : WritableFile W) (RW : ReliableWritable W) (RF : RandomAccessFile F) (RR : ReliableRandom F)
    scratch options dbname open_file entries id0 M st,
  ComparatorOk U -> CompressionOk K ->
  (forall P, opt_filter_policy options = Some P -> exists UP, P = InternalFilterPolicy UP /\ FilterPolicyOk UP) ->
  limits (shard_capacity entries) M [] -> 0 <= id0 < 2 ^ 64 ->
  let C := InternalKeyComparator U in
  let reached := sys_reached (U := U) (K := K) (W := W) (F := F) scratch options dbname open_file entries id0 M in
  let is_file := table_file (U := U) (K := K) (W := W) options dbname open_file in
  let tc := sy_tc st in
  reached st ->
  (limits (shard_capacity entries) M (sy_held st) -> ids_left tc -> forall number size es file, is_file number size es file ->
     (forall ro k, @cmp_dom C k -> exists tc',
        TC_Get C K scratch options dbname open_file (sy_lookup st) tc ro number size k = Some (tc', get_spec (C := C) (points es) (range_dels es) k) /\
        reached (mkSystem tc' (sy_held st) (sy_blocks st)) /\ (0 < shard_capacity entries -> exists h, SC_find (tc_cache_ tc') (EncodeFixed64 number) = Some h)) /\
     exists tb h tc', TC_NewIterator K scratch options dbname open_file tc number size = Some (inr (tb, Table_NewIterator tb, h), tc') /\
        reached (mkSystem tc' (h :: sy_held st) (sy_blocks st)) /\
        forall ro, exists Pos, @Cursor _ (TableIteratorOps K scratch C (sy_lookup st) tb ro) C (points es) Pos /\ Pos (length (points es)) (Table_NewIterator tb)) /\
  (limits (shard_capacity entries) M (sy_held st) -> forall number size h open', SC_find (tc_cache_ tc) (EncodeFixed64 number) = Some h ->
     exists tc', FindTable K scratch options dbname open' tc number size = Some (OK, Some h, tc') /\ tc_last_id tc' = tc_last_id tc) /\
  forall number, exists tc', Evict tc number = Some tc' /\ reached (mkSystem tc' (sy_held st) (sy_blocks st)) /\ SC_find (tc_cache_ tc') (EncodeFixed64 number) = None.
Proof.
  intros U K W F WF RW RF RR scratch options dbname open_file entries id0 M st UOK KOK Hpol HL0 Hid0 C reached is_file tc HR.
  destruct (sys_reached_ok scratch options dbname open_file Hpol entries id0 M st HL0 Hid0 HR) as (issued & HS). destruct st as [tc0 hs bc]. subst tc. cbn [sy_tc sy_held sy_blocks] in *.
  pose proof (sk_tables _ _ _ _ _ _ _ _ HS) as HT. cbn [sy_tc sy_held] in HT. pose proof HL0 as (Hcap & HM & _).
  split; [|split].
  - intros HL Hid number size es file HF. destruct (FindTable_ok scratch options dbname open_file _ _ M tc0 hs number size es file HT HL HF) as (h & tc1 & v & E & HX).
    destruct (sys_found scratch options dbname open_file Hpol _ M issued tc0 hs bc number size es file h tc1 v HS HL Hid HF HX) as (issued' & Hin & HS1).
    assert (HR1 : reached (mkSystem tc1 (h :: hs) bc)) by (apply (rtc_r _ _ _ HR); exact (sys_find _ _ _ _ _ _ tc0 hs bc number size es file h tc1 HF HL Hid E)).
    pose proof (sys_honest scratch options dbname open_file Hpol _ M issued' _ _ HS1 Hin) as Hc. change (sy_lookup (mkSystem tc1 (h :: hs) bc)) with (sy_lookup (mkSystem tc0 hs bc)) in Hc.
    split.
    + intros ro k Hk. destruct (UnrefEntry_ok scratch options dbname open_file _ _ M tc1 h hs (sk_tables _ _ _ _ _ _ _ _ HS1) HL) as (tc2 & E2 & _ & _ & Hf2).
      exists tc2. split; [exact (TC_Get_found scratch options dbname open_file Hpol _ _ _ M tc0 hs number size es file ro k h tc1 v tc2 E HX E2 HF Hc Hk)|]. split.
      * apply (rtc_r _ _ _ HR1). exact (sys_unref _ _ _ _ _ _ tc1 (h :: hs) bc 0 h tc2 eq_refl E2).
      * intros Hpos. exists h. rewrite Hf2. apply HX, Hpos.
    + exists (tf_table v), h, tc1. destruct (TC_NewIterator_found scratch options dbname open_file Hpol _ _ _ M tc0 hs number size es file h tc1 v E HX HF Hc) as [E3 HCur]. auto.
  - intros HL number size h open' Hf. exact (FindTable_hit scratch options dbname open_file _ _ M tc0 hs number size h open' HT HL Hf).
  - intros number. destruct (Evict_ok scratch options dbname open_file _ _ M tc0 hs number HT Hcap HM (sk_held _ _ _ _ _ _ _ _ HS)) as (tc1 & E & _ & _ & Hf).
    exists tc1. split; [exact E|]. split; [|exact Hf]. apply (rtc_r _ _ _ HR). exact (sys_evict _ _ _ _ _ _ tc0 hs bc number tc1 E).
Qed.

(** One table file in the store, numbered 7; its table is opened, and its first
    data block is read into the block cache. *)

Definition run_open (name : bytes) : Status * option FileState :=
  if Slice_eq name (TableFileName (str "db") 7) then (OK, Some run_file) else (NotFound name [], None).

Definition run_size : Z := sz (rf_contents run_file).

Definition run_reads : ReadOptions := mkReadOptions true true.

Definition run_found : TableCache FileState * list (nat * nat) :=
  match FindTable NoLibraries true run_options (str "db") run_open (TableCache_new 990 (Some 0)) 7 run_size with
  | Some (_, Some h, tc) => (tc, [h])
  | _ => (TableCache_new 990 (Some 0), [])
  end.

Definition run_table : option (TableAndFile FileState) := match snd run_found with h :: _ => SC_Value (tc_cache_ (fst run_found)) h | [] => None end.

Definition run_index (tb : Table FileState) : BlockNewIter :=
  @iSeekToFirst _ (BlockNewIterOps (InternalKeyComparator BytewiseComparator)) (Block_NewIterator (t_index_block tb)).

Definition run_filled : gmap bytes Block :=
  match run_table with
  | Some tf =>
      match BlockReader NoLibraries true (Some (fun _ => None)) (tf_table tf) run_reads (@iValue _ (BlockNewIterOps (InternalKeyComparator BytewiseComparator)) (run_index (tf_table tf))) with
      | (_, Some (key, blk)) => {[key := blk]}
      | _ => ∅
      end
  | None => ∅
  end.

Definition run_system : TableSystem (F := FileState) := mkSystem (fst run_found) (snd run_found) run_filled.

Lemma run_table_file : table_file (U := BytewiseComparator) (K := NoLibraries) (W := FileState) run_options (str "db") run_open 7 run_size run_entries run_file.
Proof. split; [cbn; lia|reflexivity| |reflexivity]. exists FileState_new. exact run_stored. Qed.

Lemma run_limits : limits (shard_capacity 990) 100 [].
Proof. split; [split; vm_compute; discriminate|]. split; vm_compute; reflexivity. Qed.

(** That the steps happen, checked by running them. *)

Definition run_happens : bool :=
  match FindTable NoLibraries true run_options (str "db") run_open (TableCache_new 990 (Some 0)) 7 run_size, run_table with
  | Some (s, Some _, _), Some tf =>
      ok s && @iValid _ (BlockNewIterOps (InternalKeyComparator BytewiseComparator)) (run_index (tf_table tf)) &&
      match BlockReader NoLibraries true (Some (fun _ => None)) (tf_table tf) run_reads (@iValue _ (BlockNewIterOps (InternalKeyComparator BytewiseComparator)) (run_index (tf_table tf))) with
      | (_, Some _) => true
      | _ => false
      end
  | _, _ => false
  end.

Lemma run_happened : run_happens = true.
Proof. vm_compute. reflexivity. Qed.

Lemma run_system_reached : sys_reached (U := BytewiseComparator) (K := NoLibraries) (W := FileState) true run_options (str "db") run_open 990 0 100 run_system.
Proof.
  pose proof run_happened as H. unfold run_happens in H. unfold run_system, run_filled.
  assert (Ef : run_found = match FindTable NoLibraries true run_options (str "db") run_open (TableCache_new 990 (Some 0)) 7 run_size with
    | Some (_, Some h, tc) => (tc, [h]) | _ => (TableCache_new 990 (Some 0), []) end) by reflexivity.
  destruct (FindTable NoLibraries true run_options (str "db") run_open (TableCache_new 990 (Some 0)) 7 run_size) as [[[s [h|]] tc]|] eqn:E; [|discriminate H..].
  assert (Et : run_table = SC_Value (tc_cache_ tc) h) by (unfold run_table; rewrite Ef; reflexivity). rewrite Ef. cbn [fst snd]. clear Ef.
  destruct run_table as [tf|]; [|discriminate H]. apply andb_true_iff in H as [H HB]. apply andb_true_iff in H as [Hs Hv]. destruct s as [x|]; [discriminate Hs|].
  destruct (BlockReader NoLibraries true (Some (fun _ => None)) (tf_table tf) run_reads _) as [it [[key blk]|]] eqn:EB; [|discriminate HB].
  apply (rtc_l _ _ (mkSystem tc [h] ∅)).
  - apply (sys_find _ _ _ _ _ _ _ [] ∅ 7 run_size run_entries run_file h tc run_table_file run_limits); [exists 0; split; [reflexivity|lia]|exact E].
  - apply rtc_once. apply (sys_read _ _ _ _ _ _ tc [h] ∅ h tf (@iValue _ (BlockNewIterOps (InternalKeyComparator BytewiseComparator)) (run_index (tf_table tf))) run_reads it key blk).
    + left. reflexivity.
    + symmetry. exact Et.
    + exists (run_index (tf_table tf)). split; [apply ip_first, ip_new|]. split; [exact Hv|reflexivity].
    + exact EB.
Qed.

(** With that block cached, lookups in the file answer. *)

Lemma table_cache_serves_witness : run_filled <> ∅ /\ let k := internal_key (MakeLookupKey (str "c") 12) in
  exists tc', TC_Get (InternalKeyComparator BytewiseComparator) NoLibraries true run_options (str "db") run_open (sy_lookup run_system) (sy_tc run_system) run_reads 7 run_size k =
    Some (tc', get_spec (C := InternalKeyComparator BytewiseComparator) (points run_entries) (range_dels run_entries) k).
Proof.
  split; [intros E; apply (f_equal size) in E; vm_compute in E; discriminate E|]. intros k.
  destruct (table_cache_serves BytewiseComparator NoLibraries FileState FileState _ _ _ _ true run_options (str "db") run_open 990 0 100 run_system _ _) as (H1 & _).
  - intros P EP. injection EP as <-. eexists. split; [reflexivity|]. apply BloomPolicyOk. lia.
  - exact run_limits.
  - lia.
  - exact run_system_reached.
  - destruct (H1 ltac:(split; [split; vm_compute; discriminate|split; vm_compute; reflexivity]) ltac:(exists 1; split; [vm_compute; reflexivity|lia]) 7 run_size run_entries run_file run_table_file) as [H2 _].
    destruct (H2 run_reads k) as (tc' & E & _); [split; [cbn; lia|exact I]|]. exists tc'. exact E.
Defined.

Example table_cached_run :
  let get := TC_Get (InternalKeyComparator BytewiseComparator) NoLibraries true run_options (str "db") run_open (sy_lookup run_system) in
  let key u s := internal_key (MakeLookupKey u s) in
  match get (sy_tc run_system) run_reads 7 run_size (key (str "c") 12) with
  | Some (tc, r) => r = (OK, Some (mkInternalKey (str "c") 12 kTypeValue, str "3")) /\ tc_last_id tc = Some 1 /\
      option_map snd (get tc run_reads 7 run_size (key (str "b") 10)) = Some (NotFound [] [], None) /\
      option_map snd (get tc run_reads 8 100 (key (str "b") 10)) = Some (NotFound (TableFileName (str "db") 8) [], None)
  | None => False
  end.
Proof. vm_compute. repeat split. Qed.
