(* ===== verification/Compaction.v ===== *)
(** * Picking and running a compaction (db/version_set.h, db/version_set.cc)

    How the inputs of a compaction are chosen (ranges, boundary files, the
    overlapping files of the next level, the grandparents) and the queries the
    compaction loop makes (base level, when to stop an output file).  File
    pointers are as in Version.v.  A loop that the code bounds only by the
    order of the files has fuel and returns [None] when it runs out; the
    theorems show that it does not on well-formed files. *)

From Stdlib Require Import SpecFloat.
From S2P Require Import Prelude Compare DbFormat Iterator VersionEdit Version.
#[local] Open Scope Z_scope.
#[local] Open Scope ldb_scope.

Section Compaction.
Context (U : Comparator) {FP : Type} (fm : FP -> FileMetaData) (max_file_size : Z).

Abbreviation icmp := (IKC_Compare U).

(** ** Ranges *)

(** The body of the loop of [GetRange], from the second file on. *)

Definition range_step (acc : bytes * bytes) (f : FP) : bytes * bytes :=
  let '(smallest, largest) := acc in
  (if icmp (f_smallest (fm f)) smallest <? 0 then f_smallest (fm f) else smallest,
   if 0 <? icmp (f_largest (fm f)) largest then f_largest (fm f) else largest).

(** [GetRange]; the inputs are not empty. *)

Definition GetRange (inputs : list FP) : bytes * bytes :=
  match inputs with
  | [] => ([], [])
  | f :: rest =>
      fold_left range_step rest (f_smallest (fm f), f_largest (fm f))
  end.

Definition GetRange2 (inputs1 inputs2 : list FP) : bytes * bytes := GetRange (inputs1 ++ inputs2).

(** ** Boundary files *)

Definition FindLargestKey (files : list FP) : option bytes :=
  match files with
  | [] => None
  | f :: rest =>
      Some (fold_left (fun largest_key f =>
        if 0 <? icmp (f_largest (fm f)) largest_key then f_largest (fm f) else largest_key)
        rest (f_largest (fm f)))
  end.

Definition is_boundary (largest_key : bytes) (f : FP) : bool :=
  (0 <? icmp (f_smallest (fm f)) largest_key) &&
  (cmp (smallest_user fm f) (ExtractUserKey largest_key) =? 0).

Definition FindSmallestBoundaryFile (level_files : list FP) (largest_key : bytes) : option FP :=
  fold_left (fun smallest_boundary_file f =>
    if is_boundary largest_key f then
      match smallest_boundary_file with
      | None => Some f
      | Some g => if icmp (f_smallest (fm f)) (f_smallest (fm g)) <? 0 then Some f else smallest_boundary_file
      end
    else smallest_boundary_file) level_files None.

Fixpoint AddBoundaryInputs_loop (fuel : nat) (level_files : list FP) (largest_key : bytes)
    (compaction_files : list FP) : option (list FP) :=
  match fuel with
  | O => None
  | S fuel =>
      match FindSmallestBoundaryFile level_files largest_key with
      | Some f => AddBoundaryInputs_loop fuel level_files (f_largest (fm f)) (compaction_files ++ [f])
      | None => Some compaction_files
      end
  end.

(** Every round adds another file of the level. *)

Definition AddBoundaryInputs (level_files compaction_files : list FP) : option (list FP) :=
  match FindLargestKey compaction_files with
  | None => Some compaction_files
  | Some largest_key =>
      AddBoundaryInputs_loop (S (length level_files)) level_files largest_key compaction_files
  end.

(** ** Compactions *)

Record Compaction := mkCompaction {
  c_level : nat;
  c_max_output_file_size : Z;
  c_input_version : option (Version FP);
  c_edit : VersionEdit;
  c_inputs : list FP * list FP;                  (* inputs_[0], inputs_[1] *)
  c_grandparents : list FP;
  c_grandparent_index : nat;
  c_seen_key : bool;
  c_overlapped_bytes : Z;
  c_level_ptrs : list nat
}.

Definition Compaction_new (level : nat) : Compaction :=
  mkCompaction level (MaxFileSizeForLevel max_file_size level) None VE_Clear ([], []) [] 0 false 0
    (repeat O kNumLevels).

Definition with_inputs (c : Compaction) (v : Version FP) (inputs : list FP * list FP) : Compaction :=
  mkCompaction (c_level c) (c_max_output_file_size c) (Some v) (c_edit c) inputs (c_grandparents c)
    (c_grandparent_index c) (c_seen_key c) (c_overlapped_bytes c) (c_level_ptrs c).

(** [SetupOtherInputs]: first the files of both levels and the range they
    cover, ... *)

Definition expand_inputs (v : Version FP) (level : nat) (inputs0 inputs1 : list FP)
    (smallest largest all_start all_limit : bytes)
  : option ((list FP * list FP) * bytes * (bytes * bytes)) :=
  let keep := Some ((inputs0, inputs1), largest, (all_start, all_limit)) in
  match inputs1 with
  | [] => keep
  | _ =>
      match GetOverlappingInputs U fm v level (Some all_start) (Some all_limit) with
      | None => None
      | Some expanded0 =>
          match AddBoundaryInputs (files_at v level) expanded0 with
          | None => None
          | Some expanded0 =>
              let inputs1_size := TotalFileSize fm inputs1 in
              let expanded0_size := TotalFileSize fm expanded0 in
              if (sz inputs0 <? sz expanded0) &&
                 (s64 (inputs1_size + expanded0_size) <? ExpandedCompactionByteSizeLimit max_file_size)
              then
                let '(new_start, new_limit) := GetRange expanded0 in
                match GetOverlappingInputs U fm v (level + 1) (Some new_start) (Some new_limit) with
                | None => None
                | Some expanded1 =>
                    match AddBoundaryInputs (files_at v (level + 1)) expanded1 with
                    | None => None
                    | Some expanded1 =>
                        if sz expanded1 =? sz inputs1
                        then Some ((expanded0, expanded1), new_limit, GetRange2 expanded0 expanded1)
                        else keep
                    end
                end
              else keep
          end
      end
  end.

(** ... then the grandparents and the place of the next compaction. *)

Definition SetupOtherInputs (v : Version FP) (compact_pointer : list bytes) (c : Compaction)
  : option (Compaction * list bytes) :=
  let level := c_level c in
  match AddBoundaryInputs (files_at v level) (fst (c_inputs c)) with
  | None => None
  | Some inputs0 =>
      let '(smallest, largest) := GetRange inputs0 in
      match GetOverlappingInputs U fm v (level + 1) (Some smallest) (Some largest) with
      | None => None
      | Some inputs1 =>
          match AddBoundaryInputs (files_at v (level + 1)) inputs1 with
          | None => None
          | Some inputs1 =>
              let '(all_start, all_limit) := GetRange2 inputs0 inputs1 in
              match expand_inputs v level inputs0 inputs1 smallest largest all_start all_limit with
              | None => None
              | Some (inputs, largest, (all_start, all_limit)) =>
                  match (if (level + 2 <? kNumLevels)%nat
                         then GetOverlappingInputs U fm v (level + 2) (Some all_start) (Some all_limit)
                         else Some (c_grandparents c)) with
                  | None => None
                  | Some grandparents =>
                      Some (mkCompaction level (c_max_output_file_size c) (c_input_version c)
                              (SetCompactPointer (Z.of_nat level) largest (c_edit c)) inputs grandparents
                              (c_grandparent_index c) (c_seen_key c) (c_overlapped_bytes c) (c_level_ptrs c),
                            <[level := largest]> compact_pointer)
                  end
              end
          end
      end
  end.

(** ** Choosing *)

(** The first file past the compaction pointer, or the first file. *)

Definition pick_file (files : list FP) (compact_pointer : bytes) : option FP :=
  match find (fun f => match compact_pointer with
                       | [] => true
                       | _ => 0 <? icmp (f_largest (fm f)) compact_pointer
                       end) files with
  | Some f => Some f
  | None => head files
  end.

(** The outer option is the result of the loops, the inner one the null pointer. *)

Definition PickCompaction (v : Version FP) (compact_pointer : list bytes)
  : option (option (Compaction * list bytes)) :=
  let size_compaction := SFleb (d_of_Z 1) (v_compaction_score v) in
  let picked :=
    if size_compaction then
      let level := Z.to_nat (v_compaction_level v) in
      option_map (pair level) (pick_file (files_at v level) (default [] (compact_pointer !! level)))
    else option_map (pair (Z.to_nat (v_file_to_compact_level v))) (v_file_to_compact v) in
  match picked with
  | None => Some None
  | Some (level, f) =>
      let c := with_inputs (Compaction_new level) v ([f], []) in
      match (if (level =? 0)%nat then
               let '(smallest, largest) := GetRange [f] in
               GetOverlappingInputs U fm v 0 (Some smallest) (Some largest)
             else Some [f]) with
      | None => None
      | Some inputs0 => option_map Some (SetupOtherInputs v compact_pointer (with_inputs c v (inputs0, [])))
      end
  end.

(** The files up to the one with which the total reaches the limit. *)

Fixpoint limit_inputs (inputs : list FP) (limit total : Z) : list FP :=
  match inputs with
  | [] => []
  | f :: rest =>
      let total := u64 (total + f_file_size (fm f)) in
      if limit <=? total then [f] else f :: limit_inputs rest limit total
  end.

Definition CompactRange (v : Version FP) (compact_pointer : list bytes) (level : nat) (begin_ end_ : option bytes)
  : option (option (Compaction * list bytes)) :=
  match GetOverlappingInputs U fm v level begin_ end_ with
  | None => None
  | Some [] => Some None
  | Some inputs =>
      let inputs :=
        if (0 <? level)%nat then limit_inputs inputs (MaxFileSizeForLevel max_file_size level) 0 else inputs in
      option_map Some (SetupOtherInputs v compact_pointer (with_inputs (Compaction_new level) v (inputs, [])))
  end.

(** ** Queries of a compaction *)

Definition IsTrivialMove (c : Compaction) : bool :=
  (sz (fst (c_inputs c)) =? 1) && (sz (snd (c_inputs c)) =? 0) &&
  (TotalFileSize fm (c_grandparents c) <=? MaxGrandParentOverlapBytes max_file_size).

Definition AddInputDeletions (c : Compaction) (edit : VersionEdit) : VersionEdit :=
  let edit := fold_left (fun e f => RemoveFile (Z.of_nat (c_level c)) (f_number (fm f)) e)
                (fst (c_inputs c)) edit in
  fold_left (fun e f => RemoveFile (Z.of_nat (c_level c + 1)) (f_number (fm f)) e) (snd (c_inputs c)) edit.

(** The scan of one level from its pointer: the new pointer and whether the key
    is inside a file.  [rest] are the files from the pointer on. *)

Fixpoint base_level_scan (rest : list FP) (ptr : nat) (user_key : bytes) : nat * bool :=
  match rest with
  | [] => (ptr, false)
  | f :: rest =>
      if cmp user_key (largest_user fm f) <=? 0
      then (ptr, 0 <=? cmp user_key (smallest_user fm f))
      else base_level_scan rest (S ptr) user_key
  end.

Fixpoint IsBaseLevelForKey_loop (fuel : nat) (v : Version FP) (lvl : nat) (ptrs : list nat) (user_key : bytes)
  : bool * list nat :=
  match fuel with
  | O => (true, ptrs)
  | S fuel =>
      if (lvl <? kNumLevels)%nat then
        let ptr := default O (ptrs !! lvl) in
        let '(ptr, inside) := base_level_scan (drop ptr (files_at v lvl)) ptr user_key in
        let ptrs := <[lvl := ptr]> ptrs in
        if inside then (false, ptrs) else IsBaseLevelForKey_loop fuel v (S lvl) ptrs user_key
      else (true, ptrs)
  end.

Definition with_level_ptrs (c : Compaction) (ptrs : list nat) : Compaction :=
  mkCompaction (c_level c) (c_max_output_file_size c) (c_input_version c) (c_edit c) (c_inputs c)
    (c_grandparents c) (c_grandparent_index c) (c_seen_key c) (c_overlapped_bytes c) ptrs.

Definition IsBaseLevelForKey (c : Compaction) (user_key : bytes) : bool * Compaction :=
  match c_input_version c with
  | None => (true, c)
  | Some v =>
      let '(r, ptrs) := IsBaseLevelForKey_loop kNumLevels v (c_level c + 2) (c_level_ptrs c) user_key in
      (r, with_level_ptrs c ptrs)
  end.

Fixpoint grandparent_scan (rest : list FP) (index : nat) (seen_key : bool) (overlapped_bytes : Z)
    (internal_key : bytes) : nat * Z :=
  match rest with
  | [] => (index, overlapped_bytes)
  | f :: rest =>
      if 0 <? icmp internal_key (f_largest (fm f))
      then grandparent_scan rest (S index) seen_key
             (if seen_key then s64 (overlapped_bytes + f_file_size (fm f)) else overlapped_bytes) internal_key
      else (index, overlapped_bytes)
  end.

Definition ShouldStopBefore (c : Compaction) (internal_key : bytes) : bool * Compaction :=
  let '(index, overlapped) :=
    grandparent_scan (drop (c_grandparent_index c) (c_grandparents c)) (c_grandparent_index c)
      (c_seen_key c) (c_overlapped_bytes c) internal_key in
  let stop := MaxGrandParentOverlapBytes max_file_size <? overlapped in
  (stop,
   mkCompaction (c_level c) (c_max_output_file_size c) (c_input_version c) (c_edit c) (c_inputs c)
     (c_grandparents c) index true (if stop then 0 else overlapped) (c_level_ptrs c)).

Definition ReleaseInputs (c : Compaction) : Compaction :=
  mkCompaction (c_level c) (c_max_output_file_size c) None (c_edit c) (c_inputs c)
    (c_grandparents c) (c_grandparent_index c) (c_seen_key c) (c_overlapped_bytes c) (c_level_ptrs c).

End Compaction.

Arguments Compaction : clear implicits.
Arguments mkCompaction {FP}.

(** ** Ranges cover the inputs *)

Section CompactionOk.
Context {U : Comparator} {UOK : ComparatorOk U} {FP : Type} (fm : FP -> FileMetaData).

#[local] Abbreviation ICmp := (InternalKeyComparator U).
Abbreviation wf := (file_wf (U := U) fm).
Abbreviation small f := (f_smallest (fm f)).
Abbreviation large f := (f_largest (fm f)).

#[local] Hint Resolve fw_small fw_large fw_order : ldb.

Lemma ile_refl a : @cmp_dom ICmp a -> IKC_Compare U a a <= 0.
Proof. intros H. apply Z.eq_le_incl, (cmp_refl (C := ICmp)), H. Qed.

Lemma ile_trans a b c : @cmp_dom ICmp a -> @cmp_dom ICmp b -> @cmp_dom ICmp c ->
  IKC_Compare U a b <= 0 -> IKC_Compare U b c <= 0 -> IKC_Compare U a c <= 0.
Proof. apply (cmp_le_trans (C := ICmp)). Qed.

Lemma igt_lt a b : @cmp_dom ICmp a -> @cmp_dom ICmp b -> 0 < IKC_Compare U a b <-> IKC_Compare U b a < 0.
Proof. intros Ha Hb. pose proof (cmp_sgn (C := ICmp) a b Ha Hb). cbn in *. lia. Qed.

(** [lo] and [hi] are bounds of files of [l] and every file of [l] is between them. *)

Record range_of (l : list FP) (lo hi : bytes) : Prop := {
  ro_low : exists f, In f l /\ small f = lo;
  ro_high : exists f, In f l /\ large f = hi;
  ro_all : forall f, In f l -> IKC_Compare U lo (small f) <= 0 /\ IKC_Compare U (large f) hi <= 0
}.

Lemma range_of_snoc l lo hi f : Forall wf (l ++ [f]) -> range_of l lo hi ->
  range_of (l ++ [f]) (fst (range_step U fm (lo, hi) f)) (snd (range_step U fm (lo, hi) f)).
Proof.
  intros HW [(a & Ha & Ea) (b & Hb & Eb) Hall]. rewrite List.Forall_forall in HW.
  assert (Wf : wf f) by (apply HW, in_or_app; right; left; reflexivity).
  assert (Hin : forall g, In g l -> In g (l ++ [f]) /\ wf g) by (intros g Hg; split; [|apply HW]; apply in_or_app; auto).
  assert (Hf : In f (l ++ [f])) by (apply in_or_app; right; left; reflexivity).
  destruct (Hin a Ha) as [Ha' Wa]. destruct (Hin b Hb) as [Hb' Wb]. subst lo hi. cbn [range_step fst snd].
  destruct (Z.ltb_spec (IKC_Compare U (small f) (small a)) 0) as [L1|L1];
    destruct (Z.ltb_spec 0 (IKC_Compare U (large f) (large b))) as [L2|L2]; (split; [eauto|eauto|]);
    intros g Hg; apply in_app_or in Hg as [Hg|[<-|[]]]; try (destruct (Hin g Hg) as [_ Wg]; destruct (Hall g Hg) as [G1 G2]).
  all: split; try (apply ile_refl; auto with ldb; fail); try lia.
  all: try (apply (ile_trans _ (small a)); auto with ldb; lia).
  all: try (apply (ile_trans _ (large b)); auto with ldb; apply Z.lt_le_incl, igt_lt; auto with ldb; fail).
  all: apply (cmp_ge_le (C := ICmp)); auto with ldb; cbn; lia.
Qed.

Lemma GetRange_fold rest : forall l lo hi, Forall wf (l ++ rest) -> range_of l lo hi ->
  range_of (l ++ rest) (fst (fold_left (range_step U fm) rest (lo, hi))) (snd (fold_left (range_step U fm) rest (lo, hi))).
Proof.
  induction rest as [|f rest IH]; intros l lo hi HW HR; [rewrite app_nil_r; exact HR|].
  replace (l ++ f :: rest) with ((l ++ [f]) ++ rest) in * by (rewrite <- app_assoc; reflexivity).
  cbn [fold_left]. rewrite (surjective_pairing (range_step U fm (lo, hi) f)). apply IH; [exact HW|].
  apply range_of_snoc; [|exact HR]. apply Forall_app in HW as [HW _]. exact HW.
Qed.

Lemma GetRange_ok l : l <> [] -> Forall wf l -> range_of l (fst (GetRange U fm l)) (snd (GetRange U fm l)).
Proof.
  destruct l as [|f l]; [congruence|]. intros _ HW. cbn [GetRange].
  apply (GetRange_fold l [f]); [exact HW|]. apply Forall_inv in HW.
  split; [exists f; split; [left|]; reflexivity..|]. intros g [<-|[]]. split; apply ile_refl; auto with ldb.
Qed.

Lemma FindLargestKey_ok l : FindLargestKey U fm l = match l with [] => None | _ => Some (snd (GetRange U fm l)) end.
Proof.
  destruct l as [|f l]; [reflexivity|]. unfold FindLargestKey, GetRange. f_equal.
  generalize (small f) (large f). induction l as [|g l IH]; intros lo hi; [reflexivity|]. cbn [fold_left]. apply IH.
Qed.

(** ** Boundary files *)

(** A file of the level that begins past [L] with the user key of [L]. *)

Definition boundary (L : bytes) (f : FP) : Prop :=
  IKC_Compare U L (small f) < 0 /\ ExtractUserKey (small f) = ExtractUserKey L.

Lemma is_boundary_iff L f : @cmp_dom ICmp L -> wf f -> is_boundary U fm L f = true <-> boundary L f.
Proof.
  intros HL Hf. unfold is_boundary, boundary, smallest_user. rewrite andb_true_iff, Z.ltb_lt, Z.eqb_eq, igt_lt by auto with ldb.
  rewrite cmp_eq; [reflexivity|apply (fw_small _ _ Hf)|apply HL].
Qed.

Lemma FindSmallestBoundaryFile_ok files L : @cmp_dom ICmp L -> Forall wf files ->
  match FindSmallestBoundaryFile U fm files L with
  | Some f => In f files /\ boundary L f
  | None => forall f, In f files -> ~ boundary L f
  end.
Proof.
  intros HL HW. unfold FindSmallestBoundaryFile.
  assert (H : forall pre rest acc, files = pre ++ rest ->
    match acc with Some f => In f files /\ boundary L f | None => forall f, In f pre -> ~ boundary L f end ->
    match fold_left (fun acc f => if is_boundary U fm L f then match acc with
        | None => Some f | Some g => if IKC_Compare U (small f) (small g) <? 0 then Some f else acc end else acc) rest acc with
    | Some f => In f files /\ boundary L f | None => forall f, In f files -> ~ boundary L f end).
  2:{ apply (H [] files None); [reflexivity|]. contradiction. }
  intros pre rest. revert pre. induction rest as [|f rest IH]; intros pre acc E Hacc.
  - rewrite app_nil_r in E. subst pre. exact Hacc.
  - assert (Hf : In f files) by (subst files; apply in_or_app; right; left; reflexivity).
    assert (Wf : wf f) by (rewrite List.Forall_forall in HW; auto). cbn [fold_left].
    pose proof (is_boundary_iff L f HL Wf) as Hiff.
    apply (IH (pre ++ [f])); [subst files; rewrite <- app_assoc; reflexivity|].
    destruct (is_boundary U fm L f).
    + assert (HB : In f files /\ boundary L f) by (split; [exact Hf|apply Hiff; reflexivity]).
      destruct acc as [g|]; [destruct (_ <? 0); assumption|exact HB].
    + destruct acc as [g|]; [exact Hacc|]. intros g Hg. apply in_app_or in Hg as [Hg|[<-|[]]]; [auto|].
      rewrite <- Hiff. discriminate.
Qed.

(** The files that begin past [L] bound the number of rounds. *)

Definition past (files : list FP) (L : bytes) : nat :=
  length (List.filter (fun f => IKC_Compare U L (small f) <? 0) files).

Lemma past_lt files L f : @cmp_dom ICmp L -> Forall wf files -> In f files -> IKC_Compare U L (small f) < 0 ->
  (past files (large f) < past files L)%nat.
Proof.
  intros HL HW Hf Hlt. rewrite List.Forall_forall in HW. pose proof (HW f Hf) as Wf.
  apply (filter_length_lt _ _ _ f); [|exact Hf|apply Z.ltb_lt, Hlt|].
  - intros g Hg H. apply Z.ltb_lt in H. apply Z.ltb_lt. pose proof (HW g Hg) as Wg.
    apply (cmp_trans (C := ICmp) _ (small f)); auto with ldb.
    apply (cmp_le_lt_trans (C := ICmp) _ (large f)); auto with ldb.
    apply (fw_order _ _ Wf).
  - apply Z.ltb_ge. apply Z.ge_le, (cmp_ge_le (C := ICmp)); auto with ldb. exact (fw_order _ _ Wf).
Qed.

(** [r] extends [l] with files of the level, in such a way that no boundary file is left. *)

Record boundary_closed (level_files l r : list FP) : Prop := {
  bc_ext : exists added, r = l ++ added /\ incl added level_files;
  bc_none : forall f, In f level_files -> r <> [] -> ~ boundary (snd (GetRange U fm r)) f
}.

Lemma AddBoundaryInputs_loop_ok files : Forall wf files -> forall fuel l, l <> [] -> Forall wf l ->
  let L := snd (GetRange U fm l) in (past files L < fuel)%nat ->
  exists r, AddBoundaryInputs_loop U fm fuel files L l = Some r /\ boundary_closed files l r.
Proof.
  intros HW. induction fuel as [|fuel IH]; intros l Hne Hl L Hf; [lia|]. cbn [AddBoundaryInputs_loop].
  pose proof (GetRange_ok l Hne Hl) as HR. fold L in HR. destruct (ro_high _ _ _ HR) as (b & Hb & Eb).
  assert (HL : @cmp_dom ICmp L) by (rewrite <- Eb; rewrite List.Forall_forall in Hl; auto with ldb).
  pose proof (FindSmallestBoundaryFile_ok files L HL HW) as HF.
  destruct (FindSmallestBoundaryFile U fm files L) as [f|].
  - destruct HF as [Hf1 [Hf2 _]]. assert (Wf : wf f) by (rewrite List.Forall_forall in HW; auto).
    assert (E : snd (GetRange U fm (l ++ [f])) = large f).
    { destruct l as [|g l]; [congruence|]. cbn [GetRange app]. rewrite fold_left_app. cbn [fold_left].
      change (fold_left _ l (small g, large g)) with (GetRange U fm (g :: l)).
      rewrite (surjective_pairing (GetRange U fm (g :: l))). cbn [range_step snd]. fold L.
      rewrite (proj2 (Z.ltb_lt _ _)); [reflexivity|]. apply igt_lt; auto with ldb.
      apply (cmp_lt_le_trans (C := ICmp) _ (small f)); auto with ldb. exact (fw_order _ _ Wf). }
    destruct (IH (l ++ [f])) as (r & Er & [(added & -> & Hincl) Hnone]).
    + destruct l; discriminate.
    + apply Forall_app. split; [exact Hl|constructor; [exact Wf|constructor]].
    + rewrite E. pose proof (past_lt files L f HL HW Hf1 Hf2). lia.
    + rewrite E in Er. eexists. split; [exact Er|]. split; [|exact Hnone].
      exists (f :: added). split; [rewrite <- app_assoc; reflexivity|]. intros x [<-|Hx]; [exact Hf1|auto].
  - exists l. split; [reflexivity|]. split; [exists []; split; [rewrite app_nil_r; reflexivity|intros x []]|].
    intros f Hin _. exact (HF f Hin).
Qed.

Lemma AddBoundaryInputs_ok files l : Forall wf files -> Forall wf l ->
  exists r, AddBoundaryInputs U fm files l = Some r /\ boundary_closed files l r /\ Forall wf r /\ (l <> [] -> r <> []) /\ (l = [] -> r = []).
Proof.
  intros HW Hl. unfold AddBoundaryInputs. rewrite FindLargestKey_ok. destruct l as [|f l].
  - exists []. split; [reflexivity|]. split; [split; [exists []; split; [reflexivity|intros x []]|congruence]|].
    split; [constructor|]. split; congruence.
  - destruct (AddBoundaryInputs_loop_ok files HW (S (length files)) (f :: l)) as (r & Er & HB).
    + discriminate.
    + exact Hl.
    + unfold past. pose proof (List.filter_length_le (fun f => IKC_Compare U (snd (GetRange U fm (f :: l))) (small f) <? 0) files).
      pose proof (List.filter_length_le (fun f0 => IKC_Compare U (snd (GetRange U fm (f :: l))) (small f0) <? 0) files). lia.
    + exists r. split; [exact Er|]. split; [exact HB|]. destruct HB as [(added & -> & Hincl) _]. split.
      * apply Forall_app. split; [exact Hl|]. rewrite List.Forall_forall in *. auto.
      * split; discriminate.
Qed.

(** ** The inputs of a compaction *)

Definition user_range (r : bytes * bytes) : option bytes * option bytes :=
  (Some (ExtractUserKey (fst r)), Some (ExtractUserKey (snd r))).

Definition in_user_range (r : bytes * bytes) (f : FP) : bool :=
  overlapsb (U := U) fm (fst (user_range r)) (snd (user_range r)) f.

Lemma GetOverlappingInputs_contains v level a b : Forall wf (files_at v level) ->
  @cmp_dom ICmp a -> @cmp_dom ICmp b ->
  exists r, GetOverlappingInputs U fm v level (Some a) (Some b) = Some r /\ incl r (files_at v level) /\
    (forall f, In f (files_at v level) -> in_user_range (a, b) f = true -> In f r) /\
    ((0 < level)%nat -> r = List.filter (in_user_range (a, b)) (files_at v level)).
Proof.
  intros HW Ha Hb.
  assert (Hka : ikey_bound (U := U) (Some a)) by (intros k E; injection E as <-; exact Ha).
  assert (Hkb : ikey_bound (U := U) (Some b)) by (intros k E; injection E as <-; exact Hb).
  destruct level as [|level].
  - destruct (GetOverlappingInputs_level0 fm v _ _ HW Hka Hkb) as (lo' & hi' & D1 & D2 & L1 & L2 & E & _).
    eexists. split; [exact E|]. split; [intros f Hf; apply filter_In in Hf; tauto|]. split; [|lia].
    intros f Hf Hov. apply filter_In. split; [exact Hf|]. rewrite List.Forall_forall in HW.
    apply (overlapsb_widen fm (Some (ExtractUserKey a)) (Some (ExtractUserKey b))); auto using ikey_bound_user.
    + exact (ikey_bound_user _ Hka).
    + exact (ikey_bound_user _ Hkb).
  - rewrite (GetOverlappingInputs_sorted fm v (S level) _ _ ltac:(lia) HW Hka Hkb). eexists. split; [reflexivity|].
    split; [intros f Hf; apply filter_In in Hf; tauto|]. split; [|reflexivity].
    intros f Hf Hov. apply filter_In. split; assumption.
Qed.

Lemma range_dom l : l <> [] -> Forall wf l ->
  @cmp_dom ICmp (fst (GetRange U fm l)) /\ @cmp_dom ICmp (snd (GetRange U fm l)).
Proof.
  intros Hne HW. destruct (GetRange_ok l Hne HW) as [(a & Ha & <-) (b & Hb & <-) _].
  rewrite List.Forall_forall in HW. split; auto with ldb.
Qed.

(** Every file of a list overlaps the range of the list. *)

Lemma range_overlaps l f : Forall wf l -> In f l -> in_user_range (GetRange U fm l) f = true.
Proof.
  intros HW Hf. assert (Hne : l <> []) by (intros ->; contradiction). pose proof (GetRange_ok l Hne HW) as HR.
  destruct (range_dom l Hne HW) as [[_ D1] [_ D2]]. rewrite List.Forall_forall in HW. pose proof (HW f Hf) as Wf.
  destruct (ro_all _ _ _ HR f Hf) as [H1 H2]. apply IKC_user_le in H1, H2.
  pose proof (wf_user_order fm f Wf) as H3. apply overlapsb_iff. unfold smallest_user, largest_user in *.
  cbn [user_range fst snd]. destruct (fw_small _ _ Wf) as [_ S1]. destruct (fw_large _ _ Wf) as [_ S2].
  split; intros k E; injection E as <-.
  - exact (cmp_le_trans _ _ _ D1 S1 S2 H1 H3).
  - apply Z.ge_le, cmp_ge_le; [assumption..|]. exact (cmp_le_trans _ _ _ S1 S2 D2 H3 H2).
Qed.

(** No file of the list [files] that overlaps the user keys of [l] is missing from [l]. *)

Definition overlap_closed (files l : list FP) : Prop := forall f, In f files -> in_user_range (GetRange U fm l) f = true -> In f l.

(** What level 0 gives for a range is closed in this sense, and it has no boundary files. *)

Lemma level0_closed v a b r : Forall wf (files_at v 0) -> ikey_bound (U := U) a -> ikey_bound (U := U) b ->
  GetOverlappingInputs U fm v 0 a b = Some r -> r <> [] -> overlap_closed (files_at v 0) r.
Proof.
  intros HW Ha Hb E Hne f Hf Hov. destruct (GetOverlappingInputs_level0 fm v a b HW Ha Hb) as (lo' & hi' & D1 & D2 & _ & _ & E' & Hc & _).
  rewrite E in E'. injection E' as ->. set (r := List.filter _ _) in *.
  assert (Hin : forall g, In g r -> In g (files_at v 0) /\ overlapsb (U := U) fm lo' hi' g = true) by (intros g Hg; apply filter_In; exact Hg).
  assert (Wr : Forall wf r) by (rewrite List.Forall_forall in *; intros g Hg; apply HW, Hin, Hg).
  destruct (GetRange_ok r Hne Wr) as [(x & Hx & Ex) (y & Hy & Ey) _]. destruct (range_dom r Hne Wr) as [[_ X1] [_ X2]].
  rewrite List.Forall_forall in HW. apply filter_In. split; [exact Hf|].
  apply (overlapsb_widen fm (Some (ExtractUserKey (fst (GetRange U fm r)))) (Some (ExtractUserKey (snd (GetRange U fm r))))); auto.
  - intros k [= <-]. exact X1.
  - intros k [= <-]. exact X2.
  - destruct lo' as [l|]; [|exact I]. cbn. rewrite <- Ex. exact (proj1 (Hc x (proj1 (Hin x Hx)) (proj2 (Hin x Hx))) l eq_refl).
  - destruct hi' as [h|]; [|exact I]. cbn. rewrite <- Ey. exact (proj2 (Hc y (proj1 (Hin y Hy)) (proj2 (Hin y Hy))) h eq_refl).
Qed.

Lemma AddBoundaryInputs_closed files l : Forall wf files -> Forall wf l -> l <> [] -> overlap_closed files l -> AddBoundaryInputs U fm files l = Some l.
Proof.
  intros HW Hl Hne HC. unfold AddBoundaryInputs. rewrite FindLargestKey_ok. destruct l as [|g l]; [congruence|]. set (r := g :: l) in *.
  cbn [AddBoundaryInputs_loop]. set (L := snd (GetRange U fm r)). destruct (range_dom r Hne Hl) as [D1 D2]. pose proof (FindSmallestBoundaryFile_ok files L D2 HW) as HF.
  destruct (FindSmallestBoundaryFile U fm files L) as [f|]; [|reflexivity]. exfalso. destruct HF as [Hf [Hlt Eu]].
  rewrite List.Forall_forall in HW. pose proof (HW f Hf) as Wf. pose proof (GetRange_ok r Hne Hl) as HR.
  assert (Hin : In f r).
  { apply HC; [exact Hf|]. apply overlapsb_iff. cbn [user_range fst snd]. fold L. destruct (fw_small _ _ Wf) as [_ S1]. destruct (fw_large _ _ Wf) as [_ S2]. destruct D1 as [_ D1]. destruct D2 as [_ D2].
    pose proof (wf_user_order fm f Wf) as H3. unfold smallest_user, largest_user in *. split; intros k [= <-].
    - apply (cmp_le_trans _ (ExtractUserKey L)); [exact D1|exact D2|exact S2| |rewrite <- Eu; exact H3].
      destruct (ro_high _ _ _ HR) as (y & Hy & Ey). fold L in Ey. rewrite <- Ey. rewrite List.Forall_forall in Hl. pose proof (Hl y Hy) as Wy.
      destruct (ro_all _ _ _ HR y Hy) as [H1 _]. apply IKC_user_le in H1. destruct (fw_small _ _ Wy) as [_ Y1]. destruct (fw_large _ _ Wy) as [_ Y2].
      exact (cmp_le_trans _ _ _ D1 Y1 Y2 H1 (wf_user_order fm y Wy)).
    - rewrite Eu. rewrite cmp_refl by exact D2. lia. }
  destruct (ro_all _ _ _ HR f Hin) as [_ H2]. fold L in H2.
  pose proof (cmp_le_lt_trans (C := ICmp) (large f) L (small f) ltac:(auto with ldb) D2 ltac:(auto with ldb) H2 Hlt) as H4.
  pose proof (fw_order _ _ Wf) as H5. apply igt_lt in H4; auto with ldb. lia.
Qed.

(** What the chosen inputs guarantee. *)

Record inputs_ok (v : Version FP) (level : nat) (inputs : list FP * list FP) : Prop := {
  in_nonempty : fst inputs <> [];
  in_level : incl (fst inputs) (files_at v level);
  in_next : incl (snd inputs) (files_at v (level + 1));
  in_level0 : level = 0%nat -> overlap_closed (files_at v 0) (fst inputs);
  in_complete : forall f, In f (files_at v (level + 1)) ->
    in_user_range (GetRange U fm (fst inputs)) f = true -> In f (snd inputs);
  in_boundary0 : forall f, In f (files_at v level) -> ~ boundary (snd (GetRange U fm (fst inputs))) f;
  in_boundary1 : forall f, In f (files_at v (level + 1)) -> snd inputs <> [] ->
    ~ boundary (snd (GetRange U fm (snd inputs))) f
}.

Context (max_file_size : Z) (v : Version FP).
Hypothesis HV : forall level, Forall wf (files_at v level).

Lemma incl_wf l level : incl l (files_at v level) -> Forall wf l.
Proof. intros H. pose proof (HV level) as HW. rewrite List.Forall_forall in *. auto. Qed.

(** The files of the next level for given files of a level. *)

Lemma next_inputs_ok level inputs0 i0 : incl inputs0 (files_at v level) -> inputs0 <> [] ->
  boundary_closed (files_at v level) inputs0 i0 -> Forall wf i0 -> i0 <> [] -> (level = 0%nat -> overlap_closed (files_at v 0) i0) ->
  exists inputs1 i1,
    GetOverlappingInputs U fm v (level + 1) (Some (fst (GetRange U fm i0))) (Some (snd (GetRange U fm i0))) = Some inputs1 /\
    AddBoundaryInputs U fm (files_at v (level + 1)) inputs1 = Some i1 /\ inputs_ok v level (i0, i1) /\ incl inputs0 i0.
Proof.
  intros Hincl Hne [(added & E & Hadd) Hnone] HW Hne0 Hc0. destruct (range_dom i0 Hne0 HW) as [D1 D2].
  destruct (GetOverlappingInputs_contains v (level + 1) _ _ (HV (level + 1)) D1 D2) as (inputs1 & E1 & I1 & C1 & _).
  destruct (AddBoundaryInputs_ok (files_at v (level + 1)) inputs1 (HV (level + 1)) (incl_wf _ _ I1))
    as (i1 & E2 & [(added1 & Ea & Hadd1) Hnone1] & W1 & _).
  exists inputs1, i1. split; [exact E1|]. split; [exact E2|]. split.
  - split; cbn [fst snd].
    + exact Hne0.
    + subst i0. apply incl_app; assumption.
    + subst i1. apply incl_app; assumption.
    + exact Hc0.
    + intros f Hf Hov. subst i1. apply in_or_app. left. apply C1; [exact Hf|].
      rewrite (surjective_pairing (GetRange U fm i0)) in Hov. exact Hov.
    + intros f Hf. apply Hnone; assumption.
    + intros f Hf. apply Hnone1; assumption.
  - subst i0. apply incl_appl, incl_refl.
Qed.

Lemma GetRange2_dom i0 i1 level : i0 <> [] -> incl i0 (files_at v level) -> incl i1 (files_at v (level + 1)) ->
  Forall wf (i0 ++ i1) /\ @cmp_dom ICmp (fst (GetRange2 U fm i0 i1)) /\ @cmp_dom ICmp (snd (GetRange2 U fm i0 i1)).
Proof.
  intros Hne H0 H1. assert (HW : Forall wf (i0 ++ i1)) by (apply Forall_app; split; eauto using incl_wf).
  split; [exact HW|]. apply range_dom; [destruct i0; [congruence|discriminate]|exact HW].
Qed.

(** Growing the inputs keeps the guarantees. *)

Lemma expand_inputs_ok level inputs0 inputs1 : inputs_ok v level (inputs0, inputs1) ->
  let '(smallest, largest) := GetRange U fm inputs0 in
  let '(all_start, all_limit) := GetRange2 U fm inputs0 inputs1 in
  exists i, expand_inputs U fm max_file_size v level inputs0 inputs1 smallest largest all_start all_limit =
    Some (i, snd (GetRange U fm (fst i)), GetRange2 U fm (fst i) (snd i)) /\ inputs_ok v level i /\ incl inputs0 (fst i).
Proof.
  intros HI. pose proof HI as [Hne H0 H1 _ _ _ _]. cbn [fst snd] in Hne, H0, H1.
  destruct (GetRange2_dom inputs0 inputs1 level Hne H0 H1) as (HW & D1 & D2).
  pose proof (fun f Hf => range_overlaps (inputs0 ++ inputs1) f HW Hf) as Hcov. fold (GetRange2 U fm inputs0 inputs1) in Hcov.
  destruct (GetRange U fm inputs0) as [smallest largest] eqn:ER. destruct (GetRange2 U fm inputs0 inputs1) as [a b] eqn:ER2.
  cbn [fst snd] in D1, D2.
  assert (Hkeep : exists i, Some ((inputs0, inputs1), largest, (a, b)) =
    Some (i, snd (GetRange U fm (fst i)), GetRange2 U fm (fst i) (snd i)) /\ inputs_ok v level i /\ incl inputs0 (fst i)).
  { exists (inputs0, inputs1). cbn [fst snd]. rewrite ER, ER2. split; [reflexivity|]. split; [exact HI|apply incl_refl]. }
  unfold expand_inputs. destruct inputs1 as [|g inputs1]; [exact Hkeep|]. set (in1 := g :: inputs1) in *.
  destruct (GetOverlappingInputs_contains v level a b (HV level) D1 D2) as (e0 & Ee0 & I0 & C0 & _). rewrite Ee0.
  destruct (AddBoundaryInputs_ok (files_at v level) e0 (HV level) (incl_wf _ _ I0)) as (x0 & Ex0 & HB & W0 & N0 & _). rewrite Ex0.
  destruct (_ && _) eqn:Hgrow; [|exact Hkeep].
  assert (Hsub : incl inputs0 e0).
  { intros f Hf. apply C0; [exact (H0 f Hf)|]. apply Hcov, in_or_app. left. exact Hf. }
  assert (Hne0 : e0 <> []) by (intros ->; destruct inputs0 as [|f ?]; [congruence|exact (Hsub f (or_introl eq_refl))]).
  assert (Hc0 : level = 0%nat -> overlap_closed (files_at v 0) x0).
  { intros ->. assert (Hcl : overlap_closed (files_at v 0) e0) by (apply (level0_closed v (Some a) (Some b)); [exact (HV 0)|intros k [= <-]; assumption|intros k [= <-]; assumption|exact Ee0|exact Hne0]).
    rewrite (AddBoundaryInputs_closed _ _ (HV 0) (incl_wf _ _ I0) Hne0 Hcl) in Ex0. injection Ex0 as <-. exact Hcl. }
  destruct (next_inputs_ok level e0 x0 I0 Hne0 HB W0 (N0 Hne0) Hc0) as (e1 & x1 & E1 & E2 & HI' & Hincl).
  destruct (GetRange U fm x0) as [ns nl] eqn:ER0. cbn [fst snd] in E1. rewrite E1, E2.
  destruct (_ =? _); [|exact Hkeep].
  exists (x0, x1). cbn [fst snd]. rewrite ER0. split; [reflexivity|]. split; [exact HI'|].
  intros f Hf. apply Hincl, Hsub, Hf.
Qed.

Lemma SetupOtherInputs_ok cp c : incl (fst (c_inputs c)) (files_at v (c_level c)) -> fst (c_inputs c) <> [] ->
  (c_level c = 0%nat -> overlap_closed (files_at v 0) (fst (c_inputs c))) ->
  exists c' cp', SetupOtherInputs U fm max_file_size v cp c = Some (c', cp') /\
    c_level c' = c_level c /\ inputs_ok v (c_level c) (c_inputs c') /\ incl (fst (c_inputs c)) (fst (c_inputs c')) /\
    ((c_level c + 2 < kNumLevels)%nat -> c_grandparents c' =
      List.filter (in_user_range (GetRange2 U fm (fst (c_inputs c')) (snd (c_inputs c')))) (files_at v (c_level c + 2))) /\
    cp' = <[c_level c := snd (GetRange U fm (fst (c_inputs c')))]> cp /\
    c_edit c' = SetCompactPointer (Z.of_nat (c_level c)) (snd (GetRange U fm (fst (c_inputs c')))) (c_edit c).
Proof.
  intros Hincl Hne Hcl. unfold SetupOtherInputs. set (level := c_level c) in *.
  destruct (AddBoundaryInputs_ok (files_at v level) (fst (c_inputs c)) (HV level) (incl_wf _ _ Hincl))
    as (i0 & Ei0 & HB & W0 & N0 & _). rewrite Ei0.
  assert (Hc0 : level = 0%nat -> overlap_closed (files_at v 0) i0).
  { intros El. specialize (Hcl El). clearbody level. subst level. rewrite (AddBoundaryInputs_closed _ _ (HV 0) (incl_wf _ _ Hincl) Hne Hcl) in Ei0. injection Ei0 as <-. exact Hcl. }
  destruct (next_inputs_ok level _ i0 Hincl Hne HB W0 (N0 Hne) Hc0) as (inputs1 & i1 & E1 & E2 & HI & Hsub).
  pose proof (expand_inputs_ok level i0 i1 HI) as HE.
  destruct (GetRange U fm i0) as [smallest largest] eqn:ER. cbn [fst snd] in E1. rewrite E1, E2.
  destruct (GetRange2 U fm i0 i1) as [a b] eqn:ER2. destruct HE as (i & -> & HI' & Hsub').
  destruct (GetRange2_dom (fst i) (snd i) level (in_nonempty _ _ _ HI') (in_level _ _ _ HI') (in_next _ _ _ HI')) as (HW & D1 & D2).
  destruct (GetRange2 U fm (fst i) (snd i)) as [a' b'] eqn:ER3. cbn [fst snd] in D1, D2.
  destruct (Nat.ltb_spec (level + 2) kNumLevels) as [Hlev|Hlev].
  - destruct (GetOverlappingInputs_contains v (level + 2) a' b' (HV (level + 2)) D1 D2) as (gp & -> & _ & _ & Hf).
    rewrite (Hf ltac:(lia)). eexists _, _. split; [reflexivity|]. cbn [c_level c_inputs c_grandparents c_edit].
    rewrite ER3. split; [reflexivity|]. split; [exact HI'|]. split; [intros x Hx; apply Hsub', Hsub, Hx|]. auto.
  - eexists _, _. split; [reflexivity|]. cbn [c_level c_inputs c_grandparents c_edit].
    split; [reflexivity|]. split; [exact HI'|]. split; [intros x Hx; apply Hsub', Hsub, Hx|]. split; [lia|]. auto.
Qed.

(** ** The base level test *)

Definition passed (files : list FP) (ptr : nat) (key : bytes) : Prop :=
  forall i f, (i < ptr)%nat -> files !! i = Some f -> cmp (largest_user fm f) key < 0.

(** The scan from a pointer that only skipped files before the key decides
    whether some file of the level contains the key. *)

Lemma base_level_scan_ok files key : level_sorted (U := U) fm files -> cmp_dom key ->
  forall n ptr, (length files - ptr = n)%nat -> (ptr <= length files)%nat -> passed files ptr key ->
  exists ptr', base_level_scan U fm (drop ptr files) ptr key = (ptr', existsb (in_range U fm key) files) /\
    passed files ptr' key /\ (ptr' <= length files)%nat.
Proof.
  intros HL Hk. induction n as [|n IH]; intros ptr Hn Hle Hp.
  - rewrite drop_ge by lia. exists ptr. split; [|auto]. cbn. f_equal. symmetry. apply not_true_iff_false. intros H.
    apply existsb_exists in H as (f & Hf & Hr). apply In_lookup in Hf as [i Hi]. apply andb_true_iff in Hr as [_ Hr].
    apply Z.leb_le in Hr. pose proof (level_wf fm _ _ _ HL Hi) as Wf. apply lookup_lt_Some in Hi as Hlt.
    pose proof (Hp i f ltac:(lia) Hi) as Hlt'. apply cmp_flip_lt in Hlt'; [lia|exact (wf_large_dom fm f Wf)|exact Hk].
  - assert (is_Some (files !! ptr)) as [f Hf] by (apply lookup_lt_is_Some; lia).
    rewrite (drop_S _ _ _ Hf). cbn [base_level_scan]. pose proof (level_wf fm _ _ _ HL Hf) as Wf.
    destruct (Z.leb_spec (cmp key (largest_user fm f)) 0) as [Hc|Hc].
    + exists ptr. split; [|auto]. f_equal. apply eq_true_iff_eq. rewrite existsb_exists. split.
      * intros H. exists f. split; [apply In_lookup; eauto|]. unfold in_range. rewrite H. apply Z.leb_le, Hc.
      * intros (g & Hg & Hr). apply In_lookup in Hg as [j Hj]. apply andb_true_iff in Hr as [R1 R2].
        apply Z.leb_le in R1, R2. pose proof (level_wf fm _ _ _ HL Hj) as Wg. apply Z.leb_le.
        destruct (Nat.le_gt_cases ptr j) as [Hj'|Hj'].
        -- apply Z.ge_le, cmp_ge_le; [exact Hk|exact (wf_small_dom fm f Wf)|].
           apply (cmp_le_trans _ (smallest_user fm g)); [exact (wf_small_dom fm f Wf)|exact (wf_small_dom fm g Wg)|exact Hk| |].
           ++ exact (level_small_mono fm _ _ _ _ _ HL Hj' Hf Hj).
           ++ apply cmp_ge_le; [exact Hk|exact (wf_small_dom fm g Wg)|lia].
        -- pose proof (Hp j g Hj' Hj) as Hlt. apply cmp_flip_lt in Hlt; [lia|exact (wf_large_dom fm g Wg)|exact Hk].
    + apply IH; [lia|lia|]. intros i g Hi Hg. destruct (Nat.eq_dec i ptr) as [->|Hne]; [|apply (Hp i); [lia|exact Hg]].
      assert (g = f) as -> by congruence. apply cmp_flip_gt; [exact Hk|exact (wf_large_dom fm f Wf)|exact Hc].
Qed.

(** The pointers of a compaction that has asked about keys up to [key]. *)

Record ptrs_ok (from : nat) (ptrs : list nat) (key : bytes) : Prop := {
  pk_length : length ptrs = kNumLevels;
  pk_passed : forall lvl ptr, (from <= lvl)%nat -> ptrs !! lvl = Some ptr ->
    passed (files_at v lvl) ptr key /\ (ptr <= length (files_at v lvl))%nat
}.

Definition deeper_levels (from n : nat) (key : bytes) : bool :=
  existsb (fun lvl => existsb (in_range U fm key) (files_at v lvl)) (List.seq from n).

Hypothesis HL : forall level, (0 < level)%nat -> level_sorted (U := U) fm (files_at v level).

Lemma IsBaseLevelForKey_loop_ok key : cmp_dom key -> forall fuel from lvl ptrs,
  (0 < from <= lvl)%nat -> (kNumLevels - lvl <= fuel)%nat -> ptrs_ok from ptrs key ->
  exists ptrs', IsBaseLevelForKey_loop U fm fuel v lvl ptrs key =
    (negb (deeper_levels lvl (kNumLevels - lvl) key), ptrs') /\ ptrs_ok from ptrs' key.
Proof.
  intros Hk. induction fuel as [|fuel IH]; intros from lvl ptrs Hfrom Hfuel HP; cbn [IsBaseLevelForKey_loop].
  - replace (kNumLevels - lvl)%nat with O by lia. exists ptrs. split; [reflexivity|exact HP].
  - destruct (Nat.ltb_spec lvl kNumLevels) as [Hlt|Hge].
    2:{ replace (kNumLevels - lvl)%nat with O by lia. exists ptrs. split; [reflexivity|exact HP]. }
    destruct HP as [Hlen Hpass].
    assert (is_Some (ptrs !! lvl)) as [ptr Eptr] by (apply lookup_lt_is_Some; lia). rewrite Eptr. cbv zeta.
    change (default O (Some ptr)) with ptr.
    destruct (Hpass lvl ptr ltac:(lia) Eptr) as [Hp Hple].
    destruct (base_level_scan_ok (files_at v lvl) key (HL lvl ltac:(lia)) Hk _ ptr eq_refl Hple Hp)
      as (ptr' & Escan & Hp' & Hple').
    rewrite Escan.
    assert (HP' : ptrs_ok from (<[lvl := ptr']> ptrs) key).
    { split; [rewrite length_insert; exact Hlen|]. intros l p Hl E. destruct (Nat.eq_dec l lvl) as [->|Hne].
      - rewrite list_lookup_insert_eq in E by lia. injection E as <-. auto.
      - rewrite list_lookup_insert_ne in E by congruence. exact (Hpass l p Hl E). }
    replace (kNumLevels - lvl)%nat with (S (kNumLevels - S lvl)) by lia. unfold deeper_levels. cbn [List.seq existsb].
    destruct (existsb (in_range U fm key) (files_at v lvl)); cbn [orb negb]; [eexists; split; [reflexivity|exact HP']|].
    apply (IH from (S lvl)); [lia|lia|exact HP'].
Qed.

Lemma ptrs_ok_mono from ptrs key key' : cmp_dom key -> cmp_dom key' -> cmp key key' <= 0 ->
  (0 < from)%nat -> ptrs_ok from ptrs key -> ptrs_ok from ptrs key'.
Proof.
  intros Hk Hk' Hle Hfrom [Hlen Hp]. split; [exact Hlen|]. intros lvl ptr Hl E. destruct (Hp lvl ptr Hl E) as [Hpa Hpl].
  split; [|exact Hpl]. intros i f Hi Hf.
  apply (cmp_lt_le_trans _ key); [|exact Hk|exact Hk'|exact (Hpa i f Hi Hf)|exact Hle].
  exact (wf_large_dom fm f (level_wf fm _ _ _ (HL lvl ltac:(lia)) Hf)).
Qed.

(** The answers of a compaction to a sequence of keys. *)

Fixpoint base_level_answers (c : Compaction FP) (keys : list bytes) : list bool :=
  match keys with
  | [] => []
  | k :: keys => let '(r, c) := IsBaseLevelForKey U fm c k in r :: base_level_answers c keys
  end.

Lemma base_level_answers_ok keys : forall c key, Forall cmp_dom keys -> cmp_dom key ->
  Sorted (fun a b => cmp a b <= 0) (key :: keys) -> c_input_version c = Some v ->
  ptrs_ok (c_level c + 2) (c_level_ptrs c) key ->
  base_level_answers c keys =
    map (fun k => negb (deeper_levels (c_level c + 2) (kNumLevels - (c_level c + 2)) k)) keys.
Proof.
  induction keys as [|k keys IH]; intros c key HD Hkey HS Hv HP; [reflexivity|].
  apply Forall_cons_iff in HD as [Hk HD]. apply Sorted_inv in HS as [HS Hh]. apply HdRel_inv in Hh.
  apply (ptrs_ok_mono _ _ key k) in HP; [|exact Hkey|exact Hk|exact Hh|lia].
  cbn [base_level_answers map]. unfold IsBaseLevelForKey. rewrite Hv.
  destruct (IsBaseLevelForKey_loop_ok k Hk kNumLevels (c_level c + 2) (c_level c + 2) (c_level_ptrs c))
    as (ptrs' & E & HP'); [lia|lia|exact HP|]. rewrite E. f_equal.
  apply (IH (with_level_ptrs c ptrs') k); [exact HD|exact Hk|exact HS|exact Hv|exact HP'].
Qed.

(** ** Choosing a compaction *)

(** A compaction set up on the version. *)

Definition set_up (cp : list bytes) (c' : Compaction FP) (cp' : list bytes) : Prop :=
  inputs_ok v (c_level c') (c_inputs c') /\ c_input_version c' = Some v /\
  ((c_level c' + 2 < kNumLevels)%nat -> c_grandparents c' =
    List.filter (in_user_range (GetRange2 U fm (fst (c_inputs c')) (snd (c_inputs c')))) (files_at v (c_level c' + 2))) /\
  cp' = <[c_level c' := snd (GetRange U fm (fst (c_inputs c')))]> cp.

Lemma SetupOtherInputs_version cp c c' cp' : SetupOtherInputs U fm max_file_size v cp c = Some (c', cp') ->
  c_input_version c' = c_input_version c.
Proof.
  unfold SetupOtherInputs. intros H. destruct (AddBoundaryInputs _ _ _ _); [|discriminate].
  destruct (GetRange _ _ _). destruct (GetOverlappingInputs _ _ _ _ _ _); [|discriminate].
  destruct (AddBoundaryInputs _ _ _ _); [|discriminate]. destruct (GetRange2 _ _ _ _).
  destruct (expand_inputs _ _ _ _ _ _ _ _ _ _ _) as [[[i l'] [a b]]|]; [|discriminate].
  destruct (if (_ <? _)%nat then _ else _); [|discriminate]. injection H as <- <-. reflexivity.
Qed.

Lemma set_up_ok cp level inputs0 : incl inputs0 (files_at v level) -> inputs0 <> [] -> (level = 0%nat -> overlap_closed (files_at v 0) inputs0) ->
  exists c' cp', SetupOtherInputs U fm max_file_size v cp
    (with_inputs (Compaction_new max_file_size level) v (inputs0, [])) = Some (c', cp') /\
    c_level c' = level /\ set_up cp c' cp' /\ incl inputs0 (fst (c_inputs c')).
Proof.
  intros Hincl Hne Hcl. set (c := with_inputs (Compaction_new max_file_size level) v (inputs0, [])).
  destruct (SetupOtherInputs_ok cp c Hincl Hne Hcl) as (c' & cp' & E & Elev & HI & Hsub & Hg & Ecp & _).
  exists c', cp'. split; [exact E|]. split; [exact Elev|]. split; [|exact Hsub].
  apply SetupOtherInputs_version in E. unfold set_up. rewrite Elev.
  split; [exact HI|]. split; [exact E|]. split; [exact Hg|exact Ecp].
Qed.

Lemma pick_file_in files cp f : pick_file U fm files cp = Some f -> In f files.
Proof.
  unfold pick_file. destruct (find _ files) as [g|] eqn:E.
  - intros H. injection H as <-. apply find_some in E. tauto.
  - destruct files; [discriminate|]. intros H. injection H as <-. left. reflexivity.
Qed.

Hypothesis Hseek : forall f, v_file_to_compact v = Some f ->
  In f (files_at v (Z.to_nat (v_file_to_compact_level v))).

Lemma PickCompaction_ok cp : PickCompaction U fm max_file_size v cp = Some None \/
  exists c' cp' f, PickCompaction U fm max_file_size v cp = Some (Some (c', cp')) /\ set_up cp c' cp' /\
    In f (fst (c_inputs c')) /\ In f (files_at v (c_level c')).
Proof.
  unfold PickCompaction. cbv zeta. set (picked := if SFleb _ _ then _ else _).
  assert (Hin : forall level f, picked = Some (level, f) -> In f (files_at v level)).
  { intros level f. subst picked. destruct (SFleb _ _).
    - destruct (pick_file _ _ _ _) as [g|] eqn:E; [|discriminate]. intros H. injection H as <- <-.
      exact (pick_file_in _ _ _ E).
    - destruct (v_file_to_compact v) as [g|] eqn:E; [|discriminate]. intros H. injection H as <- <-. auto. }
  destruct picked as [[level f]|]; [|left; reflexivity]. specialize (Hin level f eq_refl). right.
  assert (Hone : incl [f] (files_at v level)) by (intros x [<-|[]]; exact Hin).
  assert (Hset : forall inputs0, incl inputs0 (files_at v level) -> In f inputs0 -> (level = 0%nat -> overlap_closed (files_at v 0) inputs0) ->
    exists c' cp' g, option_map Some (SetupOtherInputs U fm max_file_size v cp
      (with_inputs (with_inputs (Compaction_new max_file_size level) v ([f], [])) v (inputs0, []))) = Some (Some (c', cp')) /\
      set_up cp c' cp' /\ In g (fst (c_inputs c')) /\ In g (files_at v (c_level c'))).
  { intros inputs0 Hi Hf Hcl. change (with_inputs (with_inputs (Compaction_new max_file_size level) v ([f], [])) v (inputs0, []))
      with (with_inputs (Compaction_new max_file_size level) v (inputs0, [])).
    destruct (set_up_ok cp level inputs0 Hi) as (c' & cp' & E & Elev & HS & Hsub).
    { intros ->. contradiction. }
    { exact Hcl. }
    rewrite E. exists c', cp', f. split; [reflexivity|]. split; [exact HS|]. split; [apply Hsub, Hf|]. rewrite Elev. exact Hin. }
  destruct (Nat.eqb_spec level 0) as [->|Hlev].
  - pose proof (incl_wf _ _ Hone) as HW. destruct (range_dom [f] ltac:(discriminate) HW) as [D1 D2].
    destruct (GetRange U fm [f]) as [a b] eqn:ER.
    destruct (GetOverlappingInputs_contains v 0 a b (HV 0) D1 D2) as (r & Er & Hr & Hc & _). rewrite Er.
    assert (Hfr : In f r) by (apply Hc; [exact Hin|]; rewrite <- ER; apply range_overlaps; [exact HW|left; reflexivity]).
    apply Hset; [exact Hr|exact Hfr|]. intros _. apply (level0_closed v (Some a) (Some b)); [exact (HV 0)|intros k [= <-]; exact D1|intros k [= <-]; exact D2|exact Er|].
    intros ->. contradiction.
  - apply Hset; [exact Hone|left; reflexivity|contradiction].
Qed.

Lemma limit_inputs_incl l limit : forall total, incl (limit_inputs fm l limit total) l /\ (l <> [] -> limit_inputs fm l limit total <> []).
Proof.
  induction l as [|f l IH]; intros total; [split; [apply incl_refl|congruence]|]. cbn [limit_inputs].
  destruct (_ <=? _); (split; [|discriminate]); intros x [<-|Hx]; try (left; reflexivity); [contradiction|].
  right. apply (proj1 (IH _)) in Hx. exact Hx.
Qed.

Lemma CompactRange_ok cp level lo hi : ikey_bound (U := U) lo -> ikey_bound (U := U) hi ->
  CompactRange U fm max_file_size v cp level lo hi = Some None \/
  exists c' cp', CompactRange U fm max_file_size v cp level lo hi = Some (Some (c', cp')) /\
    c_level c' = level /\ set_up cp c' cp'.
Proof.
  intros Hlo Hhi. unfold CompactRange.
  assert (Hr : exists r, GetOverlappingInputs U fm v level lo hi = Some r /\ incl r (files_at v level)).
  { destruct level as [|level].
    - destruct (GetOverlappingInputs_level0 fm v lo hi (HV 0) Hlo Hhi) as (lo' & hi' & _ & _ & _ & _ & E & _).
      eexists. split; [exact E|]. intros f Hf. apply filter_In in Hf. tauto.
    - rewrite (GetOverlappingInputs_sorted fm v (S level) lo hi ltac:(lia) (HV _) Hlo Hhi). eexists. split; [reflexivity|].
      intros f Hf. apply filter_In in Hf. tauto. }
  destruct Hr as (r & Er & Hincl). rewrite Er. destruct r as [|f r]; [left; reflexivity|]. right. set (inputs := f :: r) in *.
  assert (Hsub : incl (if (0 <? level)%nat then limit_inputs fm inputs (MaxFileSizeForLevel max_file_size level) 0 else inputs)
    (files_at v level) /\ (if (0 <? level)%nat then limit_inputs fm inputs (MaxFileSizeForLevel max_file_size level) 0 else inputs) <> []).
  { destruct (0 <? level)%nat; [|split; [exact Hincl|discriminate]].
    destruct (limit_inputs_incl inputs (MaxFileSizeForLevel max_file_size level) 0) as [H1 H2].
    split; [intros x Hx; apply Hincl, H1, Hx|apply H2; discriminate]. }
  destruct Hsub as [H1 H2]. destruct (set_up_ok cp level _ H1 H2) as (c' & cp' & E & Elev & HS & _).
  { intros ->. apply (level0_closed v lo hi); [exact (HV 0)|exact Hlo|exact Hhi|exact Er|discriminate]. }
  rewrite E.
  exists c', cp'. auto.
Qed.

End CompactionOk.

(** ** Properties *)

(** C23. The inputs of a compaction are complete: whenever [PickCompaction] or
    [CompactRange] returns a compaction, its files are files of the version;
    every file of the next level whose user keys overlap those of the first
    level's inputs is an input; when the first level is level 0, whose files may
    overlap, every file of level 0 whose user keys overlap those of its inputs is
    an input as well; in neither level is a file left behind that
    begins with the user key at which the inputs end (so no version of a key
    stays above a newer one); the grandparents are the overlapping files two
    levels down; and the compaction pointer moves to the end of the inputs.
    Both always end, whatever the order of the level-0 files. *)
Theorem compaction_inputs_complete : forall U FP (fm : FP -> FileMetaData) max_file_size v cp level lo hi,
  ComparatorOk U -> (forall l, Forall (file_wf (U := U) fm) (files_at v l)) ->
  (forall f, v_file_to_compact v = Some f -> In f (files_at v (Z.to_nat (v_file_to_compact_level v)))) ->
  ikey_bound (U := U) lo -> ikey_bound (U := U) hi ->
  (PickCompaction U fm max_file_size v cp = Some None \/
   exists c' cp' f, PickCompaction U fm max_file_size v cp = Some (Some (c', cp')) /\
     set_up (U := U) fm v cp c' cp' /\ In f (fst (c_inputs c')) /\ In f (files_at v (c_level c'))) /\
  (CompactRange U fm max_file_size v cp level lo hi = Some None \/
   exists c' cp', CompactRange U fm max_file_size v cp level lo hi = Some (Some (c', cp')) /\
     c_level c' = level /\ set_up (U := U) fm v cp c' cp').
Proof.
  intros U FP fm max_file_size v cp level lo hi UOK HW Hseek Hlo Hhi. split.
  - exact (PickCompaction_ok fm max_file_size v HW Hseek cp).
  - exact (CompactRange_ok fm max_file_size v HW cp level lo hi Hlo Hhi).
Qed.

(** Two files of level 1 that share a user key, and one of level 2 below them. *)

Definition pick_files (level : nat) : list FileMetaData :=
  match level with
  | 1%nat =>
    [mkFile 1 100 4 1000 (mkInternalKey (str "b") 12 kTypeValue) (mkInternalKey (str "d") 16 kTypeValue);
     mkFile 1 100 5 1000 (mkInternalKey (str "d") 15 kTypeValue) (mkInternalKey (str "k") 13 kTypeValue)]
  | 2%nat => [mkFile 1 100 3 1000 (mkInternalKey (str "c") 2 kTypeValue) (mkInternalKey (str "e") 4 kTypeValue)]
  | _ => []
  end.

Definition pick_version : Version FileMetaData :=
  mkVersion (map pick_files (List.seq 0 kNumLevels)) (head (pick_files 1)) 1 (d_of_Z 0) 0.

Lemma pick_version_files l : files_at pick_version l = pick_files l.
Proof. destruct l as [|[|[|[|[|[|[|l]]]]]]]; reflexivity. Qed.

Lemma pick_version_wf l : Forall (file_wf (U := BytewiseComparator) id) (files_at pick_version l).
Proof.
  rewrite pick_version_files. destruct l as [|[|[|l]]]; cbn [pick_files]; repeat (constructor; [|]); try constructor;
    try (split; [cbn; lia|exact I]); vm_compute; discriminate.
Qed.

Example pick_run :
  option_map (option_map (fun '(c, cp) => (map f_number (fst (c_inputs c)), map f_number (snd (c_inputs c)), cp)))
    (PickCompaction BytewiseComparator id 2097152 pick_version (repeat [] kNumLevels)) =
  Some (Some ([4; 5], [3], [[]; mkInternalKey (str "k") 13 kTypeValue; []; []; []; []; []])).
Proof. vm_compute. reflexivity. Qed.

Lemma compaction_inputs_complete_witness :
  (PickCompaction BytewiseComparator id 2097152 pick_version (repeat [] kNumLevels) = Some None \/
   exists c' cp' f, PickCompaction BytewiseComparator id 2097152 pick_version (repeat [] kNumLevels) = Some (Some (c', cp')) /\
     set_up (U := BytewiseComparator) id pick_version (repeat [] kNumLevels) c' cp' /\ In f (fst (c_inputs c')) /\
     In f (files_at pick_version (c_level c'))).
Proof.
  refine (proj1 (compaction_inputs_complete BytewiseComparator FileMetaData id 2097152 pick_version (repeat [] kNumLevels)
    1 None None BytewiseComparatorOk pick_version_wf _ _ _)).
  - intros f H. injection H as <-. left. reflexivity.
  - intros k H. discriminate.
  - intros k H. discriminate.
Defined.

(** The base level test is exact: asked about user keys in non-decreasing
    order, as the compaction loop does, the incremental scan with one pointer per
    level answers for every key whether no level below the output level has a
    file whose range contains it. *)
Theorem base_level_test_exact : forall U FP (fm : FP -> FileMetaData) max_file_size v level inputs keys,
  ComparatorOk U -> (forall l, (0 < l)%nat -> level_sorted (U := U) fm (files_at v l)) ->
  Forall (@cmp_dom U) keys -> Sorted (fun a b => @cmp U a b <= 0) keys ->
  base_level_answers (U := U) fm (with_inputs (Compaction_new max_file_size level) v inputs) keys =
  map (fun k => negb (existsb (fun lvl => existsb (fun f =>
         (0 <=? cmp k (smallest_user fm f)) && (cmp k (largest_user fm f) <=? 0)) (files_at v lvl))
         (List.seq (level + 2) (kNumLevels - (level + 2))))) keys.
Proof.
  intros U FP fm max_file_size v level inputs keys UOK HL HD HS. destruct keys as [|k keys]; [reflexivity|].
  pose proof (Forall_inv HD) as Hk.
  apply (base_level_answers_ok fm v HL (k :: keys)
    (with_inputs (Compaction_new max_file_size level) v inputs) k); [exact HD|exact Hk| |reflexivity|].
  - constructor; [exact HS|]. constructor. rewrite cmp_refl by exact Hk. lia.
  - split; [reflexivity|]. intros lvl ptr _ E. assert (E' : In ptr (repeat O kNumLevels)) by (apply In_lookup; eauto).
    apply repeat_spec in E' as ->. split; [intros i f Hi; lia|lia].
Qed.

Lemma base_level_test_exact_witness :
  base_level_answers (U := BytewiseComparator) id
    (with_inputs (Compaction_new 2097152 0) pick_version ([], [])) [str "a"; str "c"; str "x"] = [true; false; true].
Proof.
  rewrite (base_level_test_exact BytewiseComparator FileMetaData id 2097152 pick_version 0 ([], [])
    [str "a"; str "c"; str "x"]).
  - vm_compute. reflexivity.
  - exact BytewiseComparatorOk.
  - intros l Hl. split; [apply pick_version_wf| |rewrite pick_version_files; destruct l as [|[|[|l]]]; reflexivity].
    rewrite pick_version_files. destruct l as [|[|[|l]]]; cbn [pick_files]; [lia| | |constructor].
    + constructor; [constructor; [constructor|constructor]|constructor; [vm_compute; reflexivity|constructor]].
    + constructor; constructor.
  - repeat (constructor; [exact I|]). constructor.
  - repeat (constructor; [|try constructor; vm_compute; discriminate]). constructor.
Defined.
