(* ===== verification/VersionSet.v ===== *)
(** * The version set (db/version_set.h, db/version_set.cc)

    The set of live versions, the builder that applies edits to a version, the
    manifest and its recovery.  File metadata lives in a heap and is shared
    between versions by pointer; a pointer is an index in the heap.  A live
    version is a cell with its reference count; a version is dropped when its
    count reaches zero.  The environment is what creates, opens and removes
    files; the manifest is a file of the class of Env.v.  Logging to the info log
    and the release of memory are left out. *)

From Stdlib Require Import SpecFloat.
From S2P Require Import Prelude Coding Compare DbFormat Logging FileName Env Log Iterator VersionEdit Version Compaction.
#[local] Open Scope Z_scope.
#[local] Open Scope ldb_scope.

(** ** The heap of file metadata *)

Abbreviation FileHeap := (list FileMetaData).

Definition null_file : FileMetaData := mkFile 0 0 0 0 [] [].

Definition deref (h : FileHeap) (p : nat) : FileMetaData := default null_file (h !! p).

Definition add_refs (d : Z) (p : nat) (h : FileHeap) : FileHeap :=
  alter (fun f => mkFile (f_refs f + d) (f_allowed_seeks f) (f_number f) (f_file_size f) (f_smallest f) (f_largest f)) p h.

Definition set_allowed_seeks (p : nat) (n : Z) (h : FileHeap) : FileHeap :=
  alter (fun f => mkFile (f_refs f) n (f_number f) (f_file_size f) (f_smallest f) (f_largest f)) p h.

(** ** Building a version *)

Record LevelState := mkLevelState { deleted_files : gset Z; added_files : list nat }.

(** The builder without its base version; the reference that it holds on the base
    version from its constructor to its destructor is left out. *)

Abbreviation Levels := (list LevelState).

Section Builder.
Context (U : Comparator).

(** [BySmallestKey] *)

Definition BySmallestKey (h : FileHeap) (f1 f2 : nat) : bool :=
  let r := IKC_Compare U (f_smallest (deref h f1)) (f_smallest (deref h f2)) in
  if negb (r =? 0) then r <? 0 else f_number (deref h f1) <? f_number (deref h f2).

(** [std::set::insert]: nothing happens when an equivalent element is there. *)

Fixpoint FileSet_insert (less : nat -> nat -> bool) (x : nat) (l : list nat) : list nat :=
  match l with
  | [] => [x]
  | y :: l' => if less x y then x :: l else if less y x then y :: FileSet_insert less x l' else l
  end.

Definition Levels_new : Levels := repeat (mkLevelState ∅ []) kNumLevels.

Definition apply_deleted (levels : Levels) (d : Z * Z) : Levels :=
  alter (fun l => mkLevelState ({[snd d]} ∪ deleted_files l) (added_files l)) (Z.to_nat (fst d)) levels.

(** A new file is allocated with a reference and its number of allowed seeks. *)

Definition seeks_for (file_size : Z) : Z :=
  let n := s32 (file_size / 16384) in if n <? 100 then 100 else n.

Definition apply_new (hl : FileHeap * Levels) (nf : Z * FileMetaData) : FileHeap * Levels :=
  let '(h, levels) := hl in
  let e := snd nf in
  let f := mkFile 1 (seeks_for (f_file_size e)) (f_number e) (f_file_size e) (f_smallest e) (f_largest e) in
  let h := h ++ [f] in
  (h, alter (fun l => mkLevelState (deleted_files l ∖ {[f_number f]})
                        (FileSet_insert (BySmallestKey h) (length h - 1)%nat (added_files l)))
        (Z.to_nat (fst nf)) levels).

Definition apply_pointer (cp : list bytes) (p : Z * bytes) : list bytes := <[Z.to_nat (fst p) := snd p]> cp.

Definition Builder_Apply (h : FileHeap) (cp : list bytes) (levels : Levels) (edit : VersionEdit)
  : FileHeap * list bytes * Levels :=
  let cp := fold_left apply_pointer (compact_pointers_ edit) cp in
  let levels := fold_left apply_deleted (deleted_files_ edit) levels in
  let '(h, levels) := fold_left apply_new (new_files_ edit) (h, levels) in
  (h, cp, levels).

(** [MaybeAddFile] on the files of the level being built. *)

Definition MaybeAddFile (l : LevelState) (hf : FileHeap * list nat) (f : nat) : FileHeap * list nat :=
  let '(h, files) := hf in
  if decide (f_number (deref h f) ∈ deleted_files l) then (h, files)
  else (add_refs 1 f h, files ++ [f]).

(** The merge of one level; [std::upper_bound] on the sorted base files is the
    first one that is greater than the added file. *)

Fixpoint split_upper (less : nat -> nat -> bool) (x : nat) (base : list nat) : list nat * list nat :=
  match base with
  | [] => ([], [])
  | b :: base' => if less x b then ([], base) else let '(pre, post) := split_upper less x base' in (b :: pre, post)
  end.

Fixpoint save_level (l : LevelState) (less : nat -> nat -> bool) (base added : list nat) (hf : FileHeap * list nat)
  : FileHeap * list nat :=
  match added with
  | [] => fold_left (MaybeAddFile l) base hf
  | a :: added =>
      let '(pre, base) := split_upper less a base in
      save_level l less base added (MaybeAddFile l (fold_left (MaybeAddFile l) pre hf) a)
  end.

(** [SaveTo]: level by level. *)

Fixpoint save_levels (h : FileHeap) (levels : Levels) (base : list (list nat)) : FileHeap * list (list nat) :=
  match levels, base with
  | l :: levels, b :: base =>
      let '(h, files) := save_level l (BySmallestKey h) b (added_files l) (h, []) in
      let '(h, rest) := save_levels h levels base in
      (h, files :: rest)
  | _, _ => (h, [])
  end.

Definition Builder_SaveTo (h : FileHeap) (levels : Levels) (base : Version nat) : FileHeap * Version nat :=
  let '(h, files) := save_levels h levels (v_files base) in
  let v := @Version_new nat in
  (h, mkVersion files (v_file_to_compact v) (v_file_to_compact_level v) (v_compaction_score v) (v_compaction_level v)).

(** The destructor releases the builder's reference to every added file. *)

Definition Builder_delete (h : FileHeap) (levels : Levels) : FileHeap :=
  fold_left (fun h l => fold_left (fun h f => add_refs (-1) f h) (added_files l) h) levels h.

End Builder.

(** ** The version set *)

Record VersionCell := mkCell { vc_id : nat; vc_refs : Z; vc_version : Version nat }.

Section VersionSet.
Context (U : Comparator) (comparator_name : bytes) (max_file_size : Z) (reuse_logs : bool) (dbname : bytes).

(** The operations of the environment that the version set uses. *)

Context {E W S : Type} {WF : WritableFile W} {SF : SequentialFile S}.

Record EnvOps := mkEnvOps {
  env_NewWritableFile : E -> bytes -> E * (Status * option W);
  env_NewAppendableFile : E -> bytes -> E * (Status * option W);
  env_NewSequentialFile : E -> bytes -> Status * option S;
  env_ReadFileToString : E -> bytes -> Status * bytes;
  env_GetFileSize : E -> bytes -> Status * Z;
  env_RemoveFile : E -> bytes -> E;
  env_SetCurrentFile : E -> bytes -> Z -> E * Status
}.

Context (env : EnvOps).

Record VersionSet := mkVersionSet {
  vs_env : E;
  vs_heap : FileHeap;
  vs_next_file_number : Z;
  vs_manifest_file_number : Z;
  vs_last_sequence : Z;
  vs_log_number : Z;
  vs_prev_log_number : Z;
  vs_descriptor_log : option (Writer W);      (* descriptor_log_ and its file *)
  vs_versions : list VersionCell;             (* dummy_versions_.next_, ... *)
  vs_next_id : nat;
  vs_current : option nat;
  vs_compact_pointer : list bytes
}.

(** *** Reference counts of versions *)

Definition cell_of (vs : VersionSet) (id : nat) : option VersionCell :=
  find (fun c => (vc_id c =? id)%nat) (vs_versions vs).

Definition current (vs : VersionSet) : Version nat :=
  match vs_current vs with
  | Some id => match cell_of vs id with Some c => vc_version c | None => Version_new end
  | None => Version_new
  end.

Definition with_versions (vs : VersionSet) (h : FileHeap) (cells : list VersionCell) : VersionSet :=
  mkVersionSet (vs_env vs) h (vs_next_file_number vs) (vs_manifest_file_number vs) (vs_last_sequence vs)
    (vs_log_number vs) (vs_prev_log_number vs) (vs_descriptor_log vs) cells (vs_next_id vs) (vs_current vs)
    (vs_compact_pointer vs).

Definition Version_Ref (vs : VersionSet) (id : nat) : VersionSet :=
  with_versions vs (vs_heap vs)
    (map (fun c => if (vc_id c =? id)%nat then mkCell (vc_id c) (vc_refs c + 1) (vc_version c) else c) (vs_versions vs)).

(** [~Version]: the references to the files are dropped. *)

Definition Version_delete_files (h : FileHeap) (v : Version nat) : FileHeap :=
  fold_left (fun h f => add_refs (-1) f h) (concat (v_files v)) h.

Fixpoint unref_cells (h : FileHeap) (cells : list VersionCell) (id : nat) : FileHeap * list VersionCell :=
  match cells with
  | [] => (h, [])
  | c :: cells =>
      if (vc_id c =? id)%nat then
        let refs := vc_refs c - 1 in
        if refs =? 0 then (Version_delete_files h (vc_version c), cells)
        else (h, mkCell (vc_id c) refs (vc_version c) :: cells)
      else let '(h, cells) := unref_cells h cells id in (h, c :: cells)
  end.

Definition Version_Unref (vs : VersionSet) (id : nat) : VersionSet :=
  let '(h, cells) := unref_cells (vs_heap vs) (vs_versions vs) id in with_versions vs h cells.

(** [AppendVersion] makes a new cell current; the cell is created here. *)

Definition AppendVersion (vs : VersionSet) (v : Version nat) : VersionSet :=
  let vs := match vs_current vs with Some id => Version_Unref vs id | None => vs end in
  let id := vs_next_id vs in
  mkVersionSet (vs_env vs) (vs_heap vs) (vs_next_file_number vs) (vs_manifest_file_number vs) (vs_last_sequence vs)
    (vs_log_number vs) (vs_prev_log_number vs) (vs_descriptor_log vs) (vs_versions vs ++ [mkCell id 1 v])
    (Datatypes.S id) (Some id) (vs_compact_pointer vs).

Definition VersionSet_new (e : E) : VersionSet :=
  AppendVersion
    (mkVersionSet e [] 2 0 0 0 0 None [] 0 None (repeat [] kNumLevels)) Version_new.

(** *** Counters *)

Definition with_numbers (vs : VersionSet) (next manifest last log prev : Z) : VersionSet :=
  mkVersionSet (vs_env vs) (vs_heap vs) next manifest last log prev (vs_descriptor_log vs)
    (vs_versions vs) (vs_next_id vs) (vs_current vs) (vs_compact_pointer vs).

Definition NewFileNumber (vs : VersionSet) : Z * VersionSet :=
  (vs_next_file_number vs,
   with_numbers vs (u64 (vs_next_file_number vs + 1)) (vs_manifest_file_number vs) (vs_last_sequence vs)
     (vs_log_number vs) (vs_prev_log_number vs)).

Definition ReuseFileNumber (vs : VersionSet) (file_number : Z) : VersionSet :=
  if vs_next_file_number vs =? u64 (file_number + 1)
  then with_numbers vs file_number (vs_manifest_file_number vs) (vs_last_sequence vs) (vs_log_number vs)
         (vs_prev_log_number vs)
  else vs.

Definition VS_SetLastSequence (vs : VersionSet) (s : Z) : VersionSet :=
  with_numbers vs (vs_next_file_number vs) (vs_manifest_file_number vs) s (vs_log_number vs) (vs_prev_log_number vs).

Definition MarkFileNumberUsed (vs : VersionSet) (number : Z) : VersionSet :=
  if vs_next_file_number vs <=? number
  then with_numbers vs (u64 (number + 1)) (vs_manifest_file_number vs) (vs_last_sequence vs) (vs_log_number vs)
         (vs_prev_log_number vs)
  else vs.

(** *** Scores *)

Definition level_score (h : FileHeap) (files : list nat) (level : nat) : spec_float :=
  if (level =? 0)%nat then d_div (d_of_Z (sz files)) (d_of_Z kL0_CompactionTrigger)
  else d_div (d_of_Z (u64 (TotalFileSize (deref h) files))) (MaxBytesForLevel level).

Definition Finalize (h : FileHeap) (v : Version nat) : Version nat :=
  let '(best_level, best_score) :=
    fold_left (fun '(best_level, best_score) level =>
      let score := level_score h (files_at v level) level in
      if SFltb best_score score then (Z.of_nat level, score) else (best_level, best_score))
      (List.seq 0 (kNumLevels - 1)) (-1, d_of_Z (-1)) in
  mkVersion (v_files v) (v_file_to_compact v) (v_file_to_compact_level v) best_score best_level.

Definition NeedsCompaction (vs : VersionSet) : bool :=
  SFleb (d_of_Z 1) (v_compaction_score (current vs)) ||
  match v_file_to_compact (current vs) with Some _ => true | None => false end.

(** *** The manifest *)

Definition snapshot_edit (vs : VersionSet) : VersionEdit :=
  let edit := SetComparatorName comparator_name VE_Clear in
  let edit := fold_left (fun edit level =>
    match default [] (vs_compact_pointer vs !! level) with
    | [] => edit
    | key => SetCompactPointer (Z.of_nat level) key edit
    end) (List.seq 0 kNumLevels) edit in
  fold_left (fun edit level =>
    fold_left (fun edit p =>
      let f := deref (vs_heap vs) p in
      AddFile (Z.of_nat level) (f_number f) (f_file_size f) (f_smallest f) (f_largest f) edit)
      (files_at (current vs) level) edit) (List.seq 0 kNumLevels) edit.

Definition WriteSnapshot (vs : VersionSet) (log : Writer W) : option (Status * Writer W) :=
  AddRecord log (VE_EncodeTo (snapshot_edit vs) []).

Definition with_descriptor (vs : VersionSet) (e : E) (log : option (Writer W)) : VersionSet :=
  mkVersionSet e (vs_heap vs) (vs_next_file_number vs) (vs_manifest_file_number vs) (vs_last_sequence vs)
    (vs_log_number vs) (vs_prev_log_number vs) log (vs_versions vs) (vs_next_id vs) (vs_current vs)
    (vs_compact_pointer vs).

Definition with_heap (vs : VersionSet) (h : FileHeap) (cp : list bytes) : VersionSet :=
  mkVersionSet (vs_env vs) h (vs_next_file_number vs) (vs_manifest_file_number vs) (vs_last_sequence vs)
    (vs_log_number vs) (vs_prev_log_number vs) (vs_descriptor_log vs) (vs_versions vs) (vs_next_id vs)
    (vs_current vs) cp.

(** The edit with the counters of the version set filled in. *)

Definition fill_edit (vs : VersionSet) (edit : VersionEdit) : VersionEdit :=
  let edit := if has_log_number_ edit then edit else SetLogNumber (vs_log_number vs) edit in
  let edit := if has_prev_log_number_ edit then edit else SetPrevLogNumber (vs_prev_log_number vs) edit in
  SetLastSequence (vs_last_sequence vs) (SetNextFile (vs_next_file_number vs) edit).

(** The new version: the edit applied to the current one. *)

Definition build_version (vs : VersionSet) (edit : VersionEdit) : VersionSet * Version nat :=
  let '(h, cp, levels) := Builder_Apply U (vs_heap vs) (vs_compact_pointer vs) Levels_new edit in
  let '(h, v) := Builder_SaveTo U h levels (current vs) in
  let h := Builder_delete h levels in
  (with_heap vs h cp, Finalize h v).

(** Opening a new manifest with a snapshot, when there is none yet. *)

Definition open_manifest (vs : VersionSet) : option (Status * bytes * VersionSet) :=
  match vs_descriptor_log vs with
  | Some _ => Some (OK, [], vs)
  | None =>
      let name := DescriptorFileName dbname (vs_manifest_file_number vs) in
      let '(e, (s, file)) := env_NewWritableFile env (vs_env vs) name in
      match file with
      | Some file =>
          if ok s then
            match WriteSnapshot vs (Writer_new file) with
            | None => None
            | Some (s, log) => Some (s, name, with_descriptor vs e (Some log))
            end
          else Some (s, name, with_descriptor vs e None)
      | None => Some (s, name, with_descriptor vs e None)
      end
  end.

(** The record of the edit, synced. *)

Definition log_edit (vs : VersionSet) (edit : VersionEdit) : option (Status * VersionSet) :=
  match vs_descriptor_log vs with
  | None => Some (OK, vs)
  | Some log =>
      match AddRecord log (VE_EncodeTo edit []) with
      | None => None
      | Some (s, log) =>
          let '(s, file) := if ok s then wf_Sync (dest_ log) else (s, dest_ log) in
          Some (s, with_descriptor vs (vs_env vs) (Some (mkWriter file (block_offset_ log) (type_crc_ log))))
      end
  end.

Definition LogAndApply (vs : VersionSet) (edit : VersionEdit) : option (Status * VersionEdit * VersionSet) :=
  let edit := fill_edit vs edit in
  let '(vs, v) := build_version vs edit in
  match open_manifest vs with
  | None => None
  | Some (s, new_manifest_file, vs) =>
      match (if ok s then log_edit vs edit else Some (s, vs)) with
      | None => None
      | Some (s, vs) =>
          let '(s, vs) :=
            match new_manifest_file with
            | [] => (s, vs)
            | _ =>
                if ok s then
                  let '(e, s) := env_SetCurrentFile env (vs_env vs) dbname (vs_manifest_file_number vs) in
                  (s, with_descriptor vs e (vs_descriptor_log vs))
                else (s, vs)
            end in
          if ok s then
            let vs := AppendVersion vs v in
            Some (s, edit, with_numbers vs (vs_next_file_number vs) (vs_manifest_file_number vs) (vs_last_sequence vs)
                             (log_number_ edit) (prev_log_number_ edit))
          else
            let vs := with_versions vs (Version_delete_files (vs_heap vs) v) (vs_versions vs) in
            match new_manifest_file with
            | [] => Some (s, edit, vs)
            | _ => Some (s, edit, with_descriptor vs (env_RemoveFile env (vs_env vs) new_manifest_file) None)
            end
      end
  end.

(** *** Recovery *)

Record RecoverState := mkRecoverState {
  rs_heap : FileHeap;
  rs_pointers : list bytes;
  rs_levels : Levels;
  rs_next_file : option Z;           (* have_next_file and next_file *)
  rs_last_sequence : option Z;
  rs_log_number : option Z;
  rs_prev_log_number : option Z
}.

(** [LogReporter]: the first corruption reported becomes the status. *)

Definition reported (s : Status) (r : Reader S) : Status :=
  if ok s then match reporter_ r with Some ((_, c) :: _) => c | _ => s end else s.

Definition set_if (b : bool) (x : Z) (old : option Z) : option Z := if b then Some x else old.

(** One record of the manifest. *)

Definition recover_record (record : bytes) (st : RecoverState) : Status * RecoverState :=
  let '(s, edit) := VE_DecodeFrom record in
  let s :=
    if ok s && has_comparator_ edit && negb (Slice_eq (comparator_ edit) comparator_name)
    then InvalidArgument (comparator_ edit ++ str " does not match existing comparator ") comparator_name
    else s in
  let '(h, cp, levels) :=
    if ok s then Builder_Apply U (rs_heap st) (rs_pointers st) (rs_levels st) edit
    else (rs_heap st, rs_pointers st, rs_levels st) in
  (s, mkRecoverState h cp levels
        (set_if (has_next_file_number_ edit) (next_file_number_ edit) (rs_next_file st))
        (set_if (has_last_sequence_ edit) (last_sequence_ edit) (rs_last_sequence st))
        (set_if (has_log_number_ edit) (log_number_ edit) (rs_log_number st))
        (set_if (has_prev_log_number_ edit) (prev_log_number_ edit) (rs_prev_log_number st))).

(** [while (reader.ReadRecord(&record, &scratch) && s.ok())]; [n] bounds the
    number of records and [fuel] the fragments of one. *)

Fixpoint recover_loop (n fuel : nat) (r : Reader S) (s : Status) (st : RecoverState)
  : option (Status * RecoverState) :=
  match n with
  | O => None
  | Datatypes.S n =>
      match ReadRecord fuel r with
      | None => None
      | Some (None, r) => Some (reported s r, st)
      | Some (Some record, r) =>
          let s := reported s r in
          if ok s then let '(s, st) := recover_record record st in recover_loop n fuel r s st
          else Some (s, st)
      end
  end.

(** [dscbase] is the name in the CURRENT file. *)

Definition ReuseManifest (vs : VersionSet) (dscname dscbase : bytes) : bool * VersionSet :=
  if negb reuse_logs then (false, vs)
  else
    match ParseFileName dscbase with
    | Some (manifest_number, kDescriptorFile) =>
        let '(s, manifest_size) := env_GetFileSize env (vs_env vs) dscname in
        if negb (ok s) || (TargetFileSize max_file_size <=? manifest_size) then (false, vs)
        else
          let '(e, (r, file)) := env_NewAppendableFile env (vs_env vs) dscname in
          match file with
          | Some file =>
              if ok r then
                let vs := with_descriptor vs e (Some (Writer_append file manifest_size)) in
                (true, with_numbers vs (vs_next_file_number vs) manifest_number (vs_last_sequence vs)
                         (vs_log_number vs) (vs_prev_log_number vs))
              else (false, with_descriptor vs e (vs_descriptor_log vs))
          | None => (false, with_descriptor vs e (vs_descriptor_log vs))
          end
    | _ => (false, vs)
    end.

(** The checks after the manifest was read. *)

Definition recover_status (s : Status) (st : RecoverState) : Status :=
  if ok s then
    match rs_next_file st, rs_log_number st, rs_last_sequence st with
    | None, _, _ => Corruption (str "no meta-nextfile entry in descriptor") []
    | _, None, _ => Corruption (str "no meta-lognumber entry in descriptor") []
    | _, _, None => Corruption (str "no last-sequence-number entry in descriptor") []
    | _, _, _ => s
    end
  else s.

(** What follows the loop: the version is built and made current. *)

Definition recover_finish (vs : VersionSet) (s0 : Status) (st : RecoverState) (base : Version nat)
    (dscname cur : bytes) (save_manifest : bool) : Status * bool * VersionSet :=
  let s := recover_status s0 st in
  let vs :=
    if ok s0 then
      MarkFileNumberUsed (MarkFileNumberUsed vs (default 0 (rs_prev_log_number st)))
        (default 0 (rs_log_number st))
    else vs in
  if ok s then
    let '(h, v) := Builder_SaveTo U (vs_heap vs) (rs_levels st) base in
    let vs := AppendVersion (with_heap vs h (vs_compact_pointer vs)) (Finalize h v) in
    let next_file := default 0 (rs_next_file st) in
    let vs := with_numbers vs (u64 (next_file + 1)) next_file (default 0 (rs_last_sequence st))
                (default 0 (rs_log_number st)) (default 0 (rs_prev_log_number st)) in
    let '(reused, vs) := ReuseManifest vs dscname cur in
    let vs := with_heap vs (Builder_delete (vs_heap vs) (rs_levels st)) (vs_compact_pointer vs) in
    (s, if reused then save_manifest else true, vs)
  else
    (s, save_manifest, with_heap vs (Builder_delete (vs_heap vs) (rs_levels st)) (vs_compact_pointer vs)).

Definition Recover (n fuel : nat) (vs : VersionSet) (save_manifest : bool) : option (Status * bool * VersionSet) :=
  let '(s, cur) := env_ReadFileToString env (vs_env vs) (CurrentFileName dbname) in
  if negb (ok s) then Some (s, save_manifest, vs)
  else
    if match list.last cur with Some c => negb (b2z c =? 10) | None => true end
    then Some (Corruption (str "CURRENT file does not end with newline") [], save_manifest, vs)
    else
      let cur := take (length cur - 1) cur in
      let dscname := dbname ++ str "/" ++ cur in
      match env_NewSequentialFile env (vs_env vs) dscname with
      | (s, None) =>
          Some (if IsNotFound s then Corruption (str "CURRENT points to a non-existent file") (Status_ToString s) else s,
                save_manifest, vs)
      | (s, Some file) =>
          if negb (ok s) then
            Some (if IsNotFound s then Corruption (str "CURRENT points to a non-existent file") (Status_ToString s) else s,
                  save_manifest, vs)
          else
            let base := current vs in
            match recover_loop n fuel (Reader_new file (Some []) true 0) s
                    (mkRecoverState (vs_heap vs) (vs_compact_pointer vs) Levels_new None None None None) with
            | None => None
            | Some (s0, st) =>
                Some (recover_finish (with_heap vs (rs_heap st) (rs_pointers st)) s0 st base dscname cur save_manifest)
            end
      end.

(** *** Queries *)

Definition NumLevelFiles (vs : VersionSet) (level : nat) : Z := s32 (sz (files_at (current vs) level)).

Definition NumLevelBytes (vs : VersionSet) (level : nat) : Z :=
  TotalFileSize (deref (vs_heap vs)) (files_at (current vs) level).

Definition LevelSummary (vs : VersionSet) : bytes :=
  take 99 (str "files[ " ++
    concat (map (fun level => NumberToString (NumLevelFiles vs level) ++ str " ") (List.seq 0 kNumLevels)) ++ str "]").

Definition AddLiveFiles (vs : VersionSet) (live : gset Z) : gset Z :=
  fold_left (fun live c =>
    fold_left (fun live p => {[f_number (deref (vs_heap vs) p)]} ∪ live) (concat (v_files (vc_version c))) live)
    (vs_versions vs) live.

(** The approximate position of a key: whole files before it, and the offset in
    the files that contain it, which the table cache gives ([None] when the table
    cannot be opened). *)

Fixpoint offset_in_level (approximate : Z -> Z -> bytes -> option Z) (h : FileHeap) (level : nat) (files : list nat)
    (ikey : bytes) (result : Z) : Z :=
  match files with
  | [] => result
  | p :: files =>
      let f := deref h p in
      if IKC_Compare U (f_largest f) ikey <=? 0
      then offset_in_level approximate h level files ikey (u64 (result + f_file_size f))
      else if 0 <? IKC_Compare U (f_smallest f) ikey
      then if (0 <? level)%nat then result else offset_in_level approximate h level files ikey result
      else
        offset_in_level approximate h level files ikey
          (match approximate (f_number f) (f_file_size f) ikey with Some o => u64 (result + o) | None => result end)
  end.

Definition VS_ApproximateOffsetOf (approximate : Z -> Z -> bytes -> option Z) (vs : VersionSet) (v : Version nat)
    (ikey : bytes) : Z :=
  fold_left (fun result level => offset_in_level approximate (vs_heap vs) level (files_at v level) ikey result)
    (List.seq 0 kNumLevels) 0.

Definition MaxNextLevelOverlappingBytes (vs : VersionSet) : option Z :=
  let h := vs_heap vs in let v := current vs in
  fold_left (fun acc level =>
    fold_left (fun acc p =>
      match acc, GetOverlappingInputs U (deref h) v (level + 1) (Some (f_smallest (deref h p))) (Some (f_largest (deref h p))) with
      | Some result, Some overlaps =>
          let sum := TotalFileSize (deref h) overlaps in Some (if result <? sum then sum else result)
      | _, _ => None
      end) (files_at v level) acc) (List.seq 1 (kNumLevels - 2)) (Some 0).

Definition Version_DebugString (h : FileHeap) (v : Version nat) : bytes :=
  concat (map (fun level =>
    str "--- level " ++ NumberToString (Z.of_nat level) ++ str " ---" ++ [z2b 10] ++
    concat (map (fun p =>
      let f := deref h p in
      str " " ++ NumberToString (f_number f) ++ str ":" ++ NumberToString (f_file_size f) ++ str "[" ++
      IK_DebugString (f_smallest f) ++ str " .. " ++ IK_DebugString (f_largest f) ++ str "]" ++ [z2b 10])
      (files_at v level))) (List.seq 0 kNumLevels)).

End VersionSet.
