(* ===== verification/VersionBuild.v ===== *)
(** * Edits as sets of files (db/version_set.cc: VersionSet::Builder)

    What the builder computes.  The metadata of a file that edits talk about is
    its number, size and bounds; the reference counts and seek counters behind
    the shared pointers do not matter for it.  The builder is shown to refine a
    pure function on lists of metadata, which is then shown to mean: the files of
    a level after a sequence of edits are those added and not deleted since, in
    the order of their smallest keys, whether the edits are applied one version
    at a time or all in one builder. *)

From S2P Require Import Prelude Compare DbFormat Iterator VersionEdit Version VersionSet.
#[local] Open Scope Z_scope.
#[local] Open Scope ldb_scope.

Definition meta (f : FileMetaData) : FileMetaData :=
  mkFile 0 0 (f_number f) (f_file_size f) (f_smallest f) (f_largest f).

Definition metas (h : FileHeap) (ps : list nat) : list FileMetaData := map (fun p => meta (deref h p)) ps.

(** ** Changes of the heap that keep the metadata *)

Record heap_ext (h h' : FileHeap) : Prop := {
  he_length : (length h <= length h')%nat;
  he_meta : forall p, (p < length h)%nat -> meta (deref h' p) = meta (deref h p)
}.

Lemma heap_ext_refl h : heap_ext h h.
Proof. split; auto. Qed.

Lemma heap_ext_trans h1 h2 h3 : heap_ext h1 h2 -> heap_ext h2 h3 -> heap_ext h1 h3.
Proof. intros [L1 M1] [L2 M2]. split; [lia|]. intros p Hp. rewrite M2 by lia. apply M1, Hp. Qed.

Lemma add_refs_length d p h : length (add_refs d p h) = length h.
Proof. apply length_alter. Qed.

Lemma add_refs_meta d p h q : meta (deref (add_refs d p h) q) = meta (deref h q).
Proof.
  unfold deref, add_refs. destruct (decide (p = q)) as [->|Hne].
  - rewrite list_lookup_alter_eq. destruct (h !! q); reflexivity.
  - rewrite list_lookup_alter_ne by exact Hne. reflexivity.
Qed.

Lemma heap_ext_refs d p h : heap_ext h (add_refs d p h).
Proof. split; [rewrite add_refs_length; lia|]. intros q _. apply add_refs_meta. Qed.

Lemma deref_snoc h f : deref (h ++ [f]) (length h) = f.
Proof. unfold deref. rewrite lookup_app_r, Nat.sub_diag by lia. reflexivity. Qed.

Lemma heap_ext_snoc h f : heap_ext h (h ++ [f]).
Proof. split; [rewrite length_app; lia|]. intros p Hp. unfold deref. rewrite lookup_app_l by exact Hp. reflexivity. Qed.

Abbreviation in_heap h ps := (Forall (fun p => (p < length h)%nat) ps).

Lemma metas_ext h h' ps : heap_ext h h' -> in_heap h ps -> metas h' ps = metas h ps.
Proof. intros HE HF. apply map_ext_in. intros p Hp. rewrite List.Forall_forall in HF. apply (he_meta _ _ HE), HF, Hp. Qed.

Lemma in_heap_ext h h' ps : heap_ext h h' -> in_heap h ps -> in_heap h' ps.
Proof. intros [L _]. apply List.Forall_impl. intros p Hp. lia. Qed.

Lemma meta_number f g : meta f = meta g -> f_number f = f_number g.
Proof. intros E. exact (f_equal f_number E). Qed.

Abbreviation levels_in h levels := (Forall (fun l => in_heap h (added_files l)) levels).

(** ** The pure builder *)

(** Deleted numbers and added files of a level. *)

Abbreviation ALevel := (gset Z * list FileMetaData)%type.

Section Pure.
Context (U : Comparator).

Definition file_less (f g : FileMetaData) : bool :=
  let r := IKC_Compare U (f_smallest f) (f_smallest g) in
  if negb (r =? 0) then r <? 0 else f_number f <? f_number g.

Fixpoint insert_file (x : FileMetaData) (l : list FileMetaData) : list FileMetaData :=
  match l with
  | [] => [x]
  | y :: l' => if file_less x y then x :: l else if file_less y x then y :: insert_file x l' else l
  end.

Fixpoint split_file (x : FileMetaData) (base : list FileMetaData) : list FileMetaData * list FileMetaData :=
  match base with
  | [] => ([], [])
  | b :: base' => if file_less x b then ([], base) else let '(pre, post) := split_file x base' in (b :: pre, post)
  end.

Fixpoint merge_files (base added : list FileMetaData) : list FileMetaData :=
  match added with
  | [] => base
  | a :: added => let '(pre, base) := split_file a base in pre ++ a :: merge_files base added
  end.

Definition keeps (D : gset Z) (f : FileMetaData) : bool := negb (bool_decide (f_number f ∈ D)).

Definition pure_deleted (als : list ALevel) (d : Z * Z) : list ALevel :=
  alter (fun l : ALevel => ({[snd d]} ∪ fst l, snd l)) (Z.to_nat (fst d)) als.

Definition pure_new (als : list ALevel) (nf : Z * FileMetaData) : list ALevel :=
  let f := meta (snd nf) in
  alter (fun l : ALevel => (fst l ∖ {[f_number f]}, insert_file f (snd l))) (Z.to_nat (fst nf)) als.

Definition pure_apply (als : list ALevel) (e : VersionEdit) : list ALevel :=
  fold_left pure_new (new_files_ e) (fold_left pure_deleted (deleted_files_ e) als).

Definition pure_save (als : list ALevel) (base : list (list FileMetaData)) : list (list FileMetaData) :=
  zip_with (fun (l : ALevel) b => List.filter (keeps (fst l)) (merge_files b (snd l))) als base.

(** ** The builder refines it *)

Definition abs_levels (h : FileHeap) (levels : Levels) : list ALevel :=
  map (fun l => (deleted_files l, metas h (added_files l))) levels.

Lemma BySmallestKey_meta h p q : BySmallestKey U h p q = file_less (meta (deref h p)) (meta (deref h q)).
Proof. reflexivity. Qed.

Lemma FileSet_insert_abs h x l : metas h (FileSet_insert (BySmallestKey U h) x l) = insert_file (meta (deref h x)) (metas h l).
Proof.
  unfold metas. induction l as [|y l IH]; [reflexivity|]. cbn [FileSet_insert map insert_file]. rewrite !BySmallestKey_meta.
  destruct (file_less _ _); [reflexivity|]. destruct (file_less _ _); [|reflexivity]. cbn [map]. rewrite <- IH. reflexivity.
Qed.

Lemma FileSet_insert_in less x l (n : nat) : Forall (fun p => (p < n)%nat) l -> (x < n)%nat ->
  Forall (fun p => (p < n)%nat) (FileSet_insert less x l).
Proof.
  induction 1 as [|y l Hy HF IH]; intros Hx; cbn; [repeat constructor; exact Hx|].
  destruct (less x y); [constructor; [exact Hx|constructor; assumption]|]. destruct (less y x); constructor; auto.
Qed.

Lemma abs_levels_ext h h' levels : heap_ext h h' -> levels_in h levels -> abs_levels h' levels = abs_levels h levels.
Proof.
  intros HE HL. apply map_ext_in. intros l Hl. rewrite List.Forall_forall in HL. rewrite (metas_ext h h') by auto. reflexivity.
Qed.

Lemma levels_in_ext h h' levels : heap_ext h h' -> levels_in h levels -> levels_in h' levels.
Proof. intros HE. apply List.Forall_impl. intros l. apply in_heap_ext, HE. Qed.

Lemma alter_map {A B} (f : A -> B) (g : A -> A) (g' : B -> B) i l : (forall x, f (g x) = g' (f x)) ->
  map f (alter g i l) = alter g' i (map f l).
Proof.
  intros H. apply list_eq. intros j. rewrite list_lookup_fmap. destruct (decide (i = j)) as [->|Hne].
  - rewrite !list_lookup_alter_eq, list_lookup_fmap. destruct (l !! j); cbn; [rewrite H|]; reflexivity.
  - rewrite !list_lookup_alter_ne by exact Hne. rewrite list_lookup_fmap. reflexivity.
Qed.

Lemma Forall_alter_list {A} (P : A -> Prop) g i l : Forall P l -> (forall x, P x -> P (g x)) -> Forall P (alter g i l).
Proof.
  intros HF Hg. apply list.Forall_lookup. intros j x Hj. rewrite list.Forall_lookup in HF. destruct (decide (i = j)) as [->|Hne].
  - rewrite list_lookup_alter_eq in Hj. destruct (l !! j) as [y|] eqn:E; [|discriminate]. injection Hj as <-. apply Hg, (HF j), E.
  - rewrite list_lookup_alter_ne in Hj by exact Hne. exact (HF j x Hj).
Qed.

Lemma apply_new_abs h levels nf : levels_in h levels ->
  let '(h', levels') := apply_new U (h, levels) nf in
  heap_ext h h' /\ levels_in h' levels' /\ abs_levels h' levels' = pure_new (abs_levels h levels) nf.
Proof.
  intros HL. unfold apply_new. set (f := mkFile 1 _ _ _ _ _).
  pose proof (heap_ext_snoc h f) as HE. pose proof (levels_in_ext _ _ _ HE HL) as HL'.
  replace (length (h ++ [f]) - 1)%nat with (length h) by (rewrite length_app; cbn; lia).
  split; [exact HE|]. split.
  - apply Forall_alter_list; [exact HL'|]. intros l Hl. cbn. apply FileSet_insert_in; [exact Hl|]. rewrite length_app. cbn. lia.
  - unfold abs_levels at 1. erewrite alter_map; [unfold pure_new; f_equal; exact (abs_levels_ext _ _ _ HE HL)|].
    intros l. cbn [deleted_files added_files fst snd]. rewrite FileSet_insert_abs, deref_snoc. reflexivity.
Qed.

Lemma apply_news_abs news : forall h levels, levels_in h levels ->
  let '(h', levels') := fold_left (apply_new U) news (h, levels) in
  heap_ext h h' /\ levels_in h' levels' /\ abs_levels h' levels' = fold_left pure_new news (abs_levels h levels).
Proof.
  induction news as [|nf news IH]; intros h levels HL; cbn [fold_left]; [split; [apply heap_ext_refl|split; [exact HL|reflexivity]]|].
  pose proof (apply_new_abs h levels nf HL) as H. destruct (apply_new U (h, levels) nf) as [h1 l1]. destruct H as (E1 & L1 & A1).
  specialize (IH h1 l1 L1). destruct (fold_left (apply_new U) news (h1, l1)) as [h2 l2]. destruct IH as (E2 & L2 & A2).
  split; [exact (heap_ext_trans _ _ _ E1 E2)|]. split; [exact L2|]. rewrite A2, A1. reflexivity.
Qed.

Lemma apply_deleted_abs h dels : forall levels, levels_in h levels ->
  levels_in h (fold_left apply_deleted dels levels) /\
  abs_levels h (fold_left apply_deleted dels levels) = fold_left pure_deleted dels (abs_levels h levels).
Proof.
  induction dels as [|d dels IH]; intros levels HL; cbn [fold_left]; [auto|].
  assert (HL' : levels_in h (apply_deleted levels d)) by (apply Forall_alter_list; [exact HL|auto]).
  destruct (IH _ HL') as [H1 H2]. split; [exact H1|]. rewrite H2. f_equal. unfold abs_levels, apply_deleted, pure_deleted.
  apply alter_map. reflexivity.
Qed.

Lemma Builder_Apply_abs h cp levels e : levels_in h levels ->
  let '(h', cp', levels') := Builder_Apply U h cp levels e in
  heap_ext h h' /\ levels_in h' levels' /\ abs_levels h' levels' = pure_apply (abs_levels h levels) e.
Proof.
  intros HL. unfold Builder_Apply. destruct (apply_deleted_abs h (deleted_files_ e) levels HL) as [HL1 A1].
  pose proof (apply_news_abs (new_files_ e) h _ HL1) as H. destruct (fold_left (apply_new U) _ _) as [h' levels'].
  rewrite A1 in H. exact H.
Qed.

(** The merge of a level. *)

Lemma fold_MaybeAdd l ps : forall h files, in_heap h ps -> exists h',
  fold_left (MaybeAddFile l) ps (h, files) =
    (h', files ++ List.filter (fun p => keeps (deleted_files l) (meta (deref h p))) ps) /\ heap_ext h h' /\ length h' = length h.
Proof.
  induction ps as [|p ps IH]; intros h files HP.
  - exists h. rewrite app_nil_r. split; [reflexivity|]. split; [apply heap_ext_refl|reflexivity].
  - apply Forall_cons_iff in HP as [Hp HP]. cbn [fold_left List.filter MaybeAddFile].
    unfold keeps at 1. cbn [f_number meta]. destruct (decide (f_number (deref h p) ∈ deleted_files l)) as [Hd|Hd].
    + rewrite bool_decide_eq_true_2 by exact Hd. apply IH, HP.
    + rewrite bool_decide_eq_false_2 by exact Hd. cbn [negb].
      pose proof (heap_ext_refs 1 p h) as HE.
      destruct (IH (add_refs 1 p h) (files ++ [p])) as (h' & E & HE' & Hlen).
      { rewrite add_refs_length. exact HP. }
      exists h'. rewrite E. split; [|split; [exact (heap_ext_trans _ _ _ HE HE')|rewrite Hlen; apply add_refs_length]].
      f_equal. rewrite <- app_assoc. cbn [app]. do 2 f_equal. apply filter_ext. intros q. rewrite add_refs_meta. reflexivity.
Qed.

Lemma split_upper_abs h x base : let '(pre, post) := split_upper (BySmallestKey U h) x base in
  base = pre ++ post /\ split_file (meta (deref h x)) (metas h base) = (metas h pre, metas h post).
Proof.
  induction base as [|b base IH]; [split; reflexivity|]. cbn [split_upper metas map split_file].
  rewrite BySmallestKey_meta. destruct (file_less _ _); [split; reflexivity|].
  destruct (split_upper (BySmallestKey U h) x base) as [pre post]. destruct IH as [-> E].
  split; [reflexivity|]. unfold metas in E. rewrite E. reflexivity.
Qed.

Lemma filter_metas h p ps : metas h (List.filter (fun q => p (meta (deref h q))) ps) = List.filter p (metas h ps).
Proof. induction ps as [|q ps IH]; [reflexivity|]. cbn. destruct (p (meta (deref h q))); cbn; unfold metas in IH; rewrite IH; reflexivity. Qed.

Lemma save_level_abs l h0 added : forall base h files, heap_ext h0 h -> length h = length h0 ->
  in_heap h base -> in_heap h added -> in_heap h files ->
  exists h' files', save_level l (BySmallestKey U h0) base added (h, files) = (h', files') /\
    heap_ext h h' /\ length h' = length h /\ in_heap h' files' /\
    metas h' files' = metas h files ++ List.filter (keeps (deleted_files l)) (merge_files (metas h base) (metas h added)).
Proof.
  induction added as [|a added IH]; intros base h files HE Hlen HB HA HF; cbn [save_level].
  - destruct (fold_MaybeAdd l base h files HB) as (h' & E & HE' & Hl'). eexists _, _. split; [exact E|].
    split; [exact HE'|]. split; [exact Hl'|].
    assert (HF' : in_heap h (files ++ List.filter (fun p => keeps (deleted_files l) (meta (deref h p))) base)).
    { apply Forall_app. split; [exact HF|]. apply List.Forall_forall. intros p Hp. apply filter_In in Hp as [Hp _].
      rewrite List.Forall_forall in HB. auto. }
    split; [rewrite Hl'; exact HF'|]. rewrite (metas_ext h h') by assumption.
    unfold metas at 1. rewrite map_app. f_equal. apply filter_metas.
  - apply Forall_cons_iff in HA as [Ha HA].
    assert (Hsplit : split_upper (BySmallestKey U h0) a base = split_upper (BySmallestKey U h) a base).
    { assert (Hin : forall p, (p < length h)%nat -> meta (deref h p) = meta (deref h0 p)) by (intros p Hp; apply (he_meta _ _ HE); lia).
      clear -HB Ha Hin. induction base as [|b base IHb]; [reflexivity|]. apply Forall_cons_iff in HB as [Hb HB]. cbn [split_upper].
      rewrite !BySmallestKey_meta, !Hin by assumption. rewrite IHb by exact HB. reflexivity. }
    rewrite Hsplit. pose proof (split_upper_abs h a base) as HS. destruct (split_upper (BySmallestKey U h) a base) as [pre post].
    destruct HS as [-> ES]. apply Forall_app in HB as [HBp HBq].
    destruct (fold_MaybeAdd l (pre ++ [a]) h files) as (h1 & E1 & HE1 & Hl1).
    { apply Forall_app. split; [exact HBp|constructor; [exact Ha|constructor]]. }
    rewrite fold_left_app in E1. cbn [fold_left] in E1. rewrite E1.
    set (files1 := files ++ _) in *.
    assert (HF1 : in_heap h files1).
    { apply Forall_app. split; [exact HF|]. apply List.Forall_forall. intros p Hp. apply filter_In in Hp as [Hp _].
      apply in_app_or in Hp as [Hp|[<-|[]]]; [rewrite List.Forall_forall in HBp; auto|exact Ha]. }
    destruct (IH post h1 files1) as (h' & files' & E' & HE' & Hl' & Hin' & EM).
    + exact (heap_ext_trans _ _ _ HE HE1).
    + lia.
    + rewrite Hl1. exact HBq.
    + rewrite Hl1. exact HA.
    + rewrite Hl1. exact HF1.
    + exists h', files'. split; [exact E'|]. split; [exact (heap_ext_trans _ _ _ HE1 HE')|]. split; [lia|]. split; [exact Hin'|].
      rewrite EM, !(metas_ext h h1) by assumption. unfold files1. unfold metas at 1. rewrite map_app.
      fold (metas h files). fold (metas h (List.filter (fun p => keeps (deleted_files l) (meta (deref h p))) (pre ++ [a]))).
      rewrite filter_metas. unfold metas at 2. rewrite map_app. cbn [map]. fold (metas h pre).
      cbn [metas map merge_files]. fold (metas h (pre ++ post)). rewrite ES. fold (metas h added).
      rewrite <- app_assoc. f_equal. rewrite <- filter_app. f_equal. rewrite <- app_assoc. reflexivity.
Qed.

Lemma save_levels_abs levels : forall base h, levels_in h levels -> Forall (fun ps => in_heap h ps) base ->
  exists h' files, save_levels U h levels base = (h', files) /\ heap_ext h h' /\ length h' = length h /\
    Forall (fun ps => in_heap h' ps) files /\ map (metas h') files = pure_save (abs_levels h levels) (map (metas h) base).
Proof.
  induction levels as [|l levels IH]; intros base h HL HB; cbn [save_levels].
  - exists h, []. split; [reflexivity|]. split; [apply heap_ext_refl|]. split; [reflexivity|]. split; [constructor|reflexivity].
  - destruct base as [|b base].
    { exists h, []. split; [reflexivity|]. split; [apply heap_ext_refl|]. split; [reflexivity|]. split; [constructor|reflexivity]. }
    apply Forall_cons_iff in HL as [Hl HL]. apply Forall_cons_iff in HB as [Hb HB].
    destruct (save_level_abs l h (added_files l) b h []) as (h1 & files1 & -> & HE1 & Hl1 & Hin1 & EM1);
      [apply heap_ext_refl|reflexivity|exact Hb|exact Hl|constructor|].
    destruct (IH base h1) as (h2 & rest & -> & HE2 & Hl2 & Hin2 & EM2).
    { rewrite <- Hl1 in HL. revert HL. rewrite Hl1. auto. }
    { revert HB. apply List.Forall_impl. intros ps. rewrite Hl1. auto. }
    exists h2, (files1 :: rest). split; [reflexivity|]. split; [exact (heap_ext_trans _ _ _ HE1 HE2)|]. split; [lia|].
    split; [constructor; [rewrite Hl2; exact Hin1|exact Hin2]|].
    cbn [map pure_save abs_levels zip_with fst snd]. rewrite (metas_ext h1 h2) by assumption. rewrite EM1. cbn [metas map app]. f_equal.
    rewrite EM2. unfold pure_save. rewrite (abs_levels_ext h h1) by assumption. f_equal.
    apply map_ext_in. intros ps Hps. rewrite List.Forall_forall in HB. apply metas_ext; [exact HE1|exact (HB ps Hps)].
Qed.

End Pure.

(** ** The order of files and the meaning of edits *)

Section Meaning.
Context {U : Comparator} {UOK : ComparatorOk U}.

#[local] Abbreviation ICmp := (InternalKeyComparator U).
Abbreviation less := (file_less U).
Abbreviation lt_file := (fun f g => file_less U f g = true).

Definition key_dom_ok (f : FileMetaData) : Prop := @cmp_dom ICmp (f_smallest f).

Lemma less_iff f g : less f g = true <->
  IKC_Compare U (f_smallest f) (f_smallest g) < 0 \/
  (IKC_Compare U (f_smallest f) (f_smallest g) = 0 /\ f_number f < f_number g).
Proof. unfold file_less. cbv zeta. zcases; cbn [negb]; zcases; split; (reflexivity || discriminate || lia || intros; try lia). Qed.

Lemma icmp_zero a b : @cmp_dom ICmp a -> @cmp_dom ICmp b -> IKC_Compare U a b = 0 -> a = b.
Proof. intros Ha Hb. apply (cmp_eq (ComparatorOk := InternalKeyComparatorOk) a b Ha Hb). Qed.

Lemma less_asym f g : key_dom_ok f -> key_dom_ok g -> less f g = true -> less g f = true -> False.
Proof.
  intros Hf Hg. rewrite !less_iff. pose proof (cmp_sgn (C := ICmp) _ _ Hf Hg) as Hs. cbn in Hs. lia.
Qed.

Lemma less_trans f g k : key_dom_ok f -> key_dom_ok g -> key_dom_ok k ->
  less f g = true -> less g k = true -> less f k = true.
Proof.
  intros Hf Hg Hk. rewrite !less_iff. intros [H1|[H1 N1]] [H2|[H2 N2]].
  - left. exact (cmp_trans (C := ICmp) _ _ _ Hf Hg Hk H1 H2).
  - left. apply icmp_zero in H2; [|assumption..]. rewrite <- H2. exact H1.
  - left. apply icmp_zero in H1; [|assumption..]. rewrite H1. exact H2.
  - apply icmp_zero in H1; [|assumption..]. rewrite H1. right. split; [exact H2|lia].
Qed.

Lemma less_total f g : key_dom_ok f -> key_dom_ok g -> less f g = false -> less g f = false -> f_number f = f_number g.
Proof.
  intros Hf Hg H1 H2. apply not_true_iff_false in H1, H2. rewrite less_iff in H1, H2.
  pose proof (cmp_sgn (C := ICmp) _ _ Hf Hg) as Hs. cbn in Hs. lia.
Qed.

(** A number belongs to one file. *)

Definition numbers_unique (l : list FileMetaData) : Prop :=
  forall f g, In f l -> In g l -> f_number f = f_number g -> f = g.

Lemma insert_file_spec x l : StronglySorted lt_file l -> Forall key_dom_ok (x :: l) -> numbers_unique (x :: l) ->
  StronglySorted lt_file (insert_file U x l) /\ (forall y, In y (insert_file U x l) <-> y = x \/ In y l).
Proof.
  induction 1 as [|y l HS IH HF]; intros HD HU; cbn [insert_file].
  - split; [repeat constructor|]. cbn. intuition.
  - apply Forall_cons_iff in HD as [Hx HD]. pose proof (Forall_inv HD) as Hy. pose proof (Forall_inv_tail HD) as Hl.
    rewrite List.Forall_forall in HF.
    destruct (less x y) eqn:E1; [|destruct (less y x) eqn:E2].
    + split; [|cbn; intuition]. constructor; [constructor; [exact HS|rewrite List.Forall_forall; exact HF]|].
      constructor; [exact E1|]. apply List.Forall_forall. intros z Hz. rewrite List.Forall_forall in Hl.
      exact (less_trans x y z Hx Hy (Hl z Hz) E1 (HF z Hz)).
    + destruct IH as [IS IM]; [constructor; assumption|intros f g Hf Hg; apply HU; cbn in *; intuition|].
      split; [|intros z; cbn; rewrite IM; intuition]. constructor; [exact IS|]. apply List.Forall_forall. intros z Hz.
      apply IM in Hz as [->|Hz]; [exact E2|exact (HF z Hz)].
    + assert (x = y) as -> by (apply HU; [left; reflexivity|right; left; reflexivity|exact (less_total x y Hx Hy E1 E2)]).
      split; [constructor; [exact HS|rewrite List.Forall_forall; exact HF]|]. cbn. intuition.
Qed.

Lemma split_file_spec x base : StronglySorted lt_file base -> Forall key_dom_ok (x :: base) ->
  (forall b, In b base -> f_number b <> f_number x) ->
  let '(pre, post) := split_file U x base in
  base = pre ++ post /\ Forall (fun b => less b x = true) pre /\ Forall (fun b => less x b = true) post.
Proof.
  induction 1 as [|b base HS IH HF]; intros HD HN; cbn [split_file]; [repeat constructor|].
  apply Forall_cons_iff in HD as [Hx HD]. pose proof (Forall_inv HD) as Hb. pose proof (Forall_inv_tail HD) as Hl.
  rewrite List.Forall_forall in HF. destruct (less x b) eqn:E.
  - split; [reflexivity|]. split; [constructor|]. constructor; [exact E|]. apply List.Forall_forall. intros z Hz.
    rewrite List.Forall_forall in Hl. exact (less_trans x b z Hx Hb (Hl z Hz) E (HF z Hz)).
  - specialize (IH (Forall_cons _ _ _ Hx Hl) (fun z Hz => HN z (or_intror Hz))).
    destruct (split_file U x base) as [pre post]. destruct IH as (-> & F1 & F2). split; [reflexivity|]. split; [|exact F2].
    constructor; [|exact F1]. destruct (less b x) eqn:E2; [reflexivity|exfalso].
    exact (HN b (or_introl eq_refl) (less_total b x Hb Hx E2 E)).
Qed.

Lemma merge_files_spec added : forall base, StronglySorted lt_file base -> StronglySorted lt_file added ->
  Forall key_dom_ok (base ++ added) -> (forall a b, In a added -> In b base -> f_number b <> f_number a) ->
  StronglySorted lt_file (merge_files U base added) /\
  (forall y, In y (merge_files U base added) <-> In y base \/ In y added).
Proof.
  induction added as [|a added IH]; intros base HB HA HD HN; cbn [merge_files].
  - split; [exact HB|]. cbn. intuition.
  - apply StronglySorted_inv in HA as [HA HFA]. apply Forall_app in HD as [HDB HDA]. pose proof (Forall_inv HDA) as Ha.
    pose proof (Forall_inv_tail HDA) as HDA'.
    pose proof (split_file_spec a base HB (Forall_cons _ _ _ Ha HDB) (fun b Hb => HN a b (or_introl eq_refl) Hb)) as HS.
    destruct (split_file U a base) as [pre post]. destruct HS as (-> & F1 & F2).
    apply StronglySorted_app_iff in HB as (SB1 & SB2 & Hcross). apply Forall_app in HDB as [HD1 HD2].
    destruct (IH post SB2 HA) as [IS IM].
    { apply Forall_app. split; assumption. }
    { intros a' b Ha' Hb. apply HN; [right; exact Ha'|apply in_or_app; right; exact Hb]. }
    rewrite List.Forall_forall in F1, F2, HFA, HD1, HD2, HDA'.
    assert (Hpast : forall z, In z (merge_files U post added) -> less a z = true /\ key_dom_ok z).
    { intros z Hz. apply IM in Hz as [Hz|Hz]; auto. }
    split.
    + apply StronglySorted_app_iff. split; [exact SB1|]. split.
      * constructor; [exact IS|]. apply List.Forall_forall. intros z Hz. apply Hpast, Hz.
      * intros x y Hx [<-|Hy]; [exact (F1 x Hx)|]. destruct (Hpast y Hy) as [Hay Hdy].
        exact (less_trans x a y (HD1 x Hx) Ha Hdy (F1 x Hx) Hay).
    + intros y. rewrite !in_app_iff. cbn [In]. rewrite IM. intuition.
Qed.

(** *** Edits *)

Definition deleted_at (e : VersionEdit) (level : nat) : list Z :=
  map snd (List.filter (fun d => (Z.to_nat (fst d) =? level)%nat) (deleted_files_ e)).

Definition new_at (e : VersionEdit) (level : nat) : list FileMetaData :=
  map (fun nf => meta (snd nf)) (List.filter (fun nf => (Z.to_nat (fst nf) =? level)%nat) (new_files_ e)).

(** The files of every level, and what an edit does to them. *)

Definition FileSets := nat -> FileMetaData -> Prop.

Definition edit_sets (S : FileSets) (e : VersionEdit) : FileSets :=
  fun level f => (S level f /\ ~ In (f_number f) (deleted_at e level)) \/ In f (new_at e level).

Definition replay (edits : list VersionEdit) : FileSets := fold_left edit_sets edits (fun _ _ => False).

Lemma pure_deleted_level dels level : forall als D A, als !! level = Some (D, A) ->
  exists D', fold_left pure_deleted dels als !! level = Some (D', A) /\
    forall n, n ∈ D' <-> n ∈ D \/ In n (map snd (List.filter (fun d => (Z.to_nat (fst d) =? level)%nat) dels)).
Proof.
  induction dels as [|d dels IH]; intros als D A E; cbn [fold_left].
  - exists D. split; [exact E|]. cbn. intuition.
  - cbn [List.filter]. destruct (Nat.eqb_spec (Z.to_nat (fst d)) level) as [El|Hne].
    + destruct (IH (pure_deleted als d) ({[snd d]} ∪ D) A) as (D' & E' & HD').
      { unfold pure_deleted. rewrite El, list_lookup_alter_eq, E. reflexivity. }
      exists D'. split; [exact E'|]. intros n. rewrite HD'. cbn [map In]. rewrite elem_of_union, elem_of_singleton. intuition.
    + apply IH. unfold pure_deleted. rewrite list_lookup_alter_ne by exact Hne. exact E.
Qed.

Lemma pure_new_level news level : forall als D A, als !! level = Some (D, A) ->
  let added := map (fun nf => meta (snd nf)) (List.filter (fun nf => (Z.to_nat (fst nf) =? level)%nat) news) in
  exists D', fold_left (pure_new U) news als !! level = Some (D', fold_left (fun l f => insert_file U f l) added A) /\
    forall n, n ∈ D' <-> n ∈ D /\ ~ In n (map f_number added).
Proof.
  induction news as [|nf news IH]; intros als D A E; cbn [fold_left].
  - exists D. split; [exact E|]. cbn. intuition.
  - cbn [List.filter]. destruct (Nat.eqb_spec (Z.to_nat (fst nf)) level) as [El|Hne].
    + destruct (IH (pure_new U als nf) (D ∖ {[f_number (meta (snd nf))]}) (insert_file U (meta (snd nf)) A)) as (D' & E' & HD').
      { unfold pure_new. rewrite El, list_lookup_alter_eq, E. reflexivity. }
      exists D'. split; [exact E'|]. intros n. rewrite HD'. cbn [map In]. rewrite elem_of_difference, elem_of_singleton. intuition.
    + apply IH. unfold pure_new. rewrite list_lookup_alter_ne by exact Hne. exact E.
Qed.

Lemma pure_apply_level als e level D A : als !! level = Some (D, A) ->
  exists D', pure_apply U als e !! level = Some (D', fold_left (fun l f => insert_file U f l) (new_at e level) A) /\
    forall n, n ∈ D' <-> (n ∈ D \/ In n (deleted_at e level)) /\ ~ In n (map f_number (new_at e level)).
Proof.
  intros E. destruct (pure_deleted_level (deleted_files_ e) level als D A E) as (D1 & E1 & H1).
  destruct (pure_new_level (new_files_ e) level _ D1 A E1) as (D2 & E2 & H2).
  exists D2. split; [exact E2|]. intros n. rewrite H2, H1. reflexivity.
Qed.

Lemma insert_files_spec news : forall l, StronglySorted lt_file l -> Forall key_dom_ok (news ++ l) -> numbers_unique (news ++ l) ->
  StronglySorted lt_file (fold_left (fun l f => insert_file U f l) news l) /\
  (forall y, In y (fold_left (fun l f => insert_file U f l) news l) <-> In y news \/ In y l).
Proof.
  induction news as [|x news IH]; intros l HS HD HU; cbn [fold_left]; [split; [exact HS|]; cbn; intuition|].
  apply Forall_cons_iff in HD as [Hx HD]. apply Forall_app in HD as [HDn HDl].
  destruct (insert_file_spec x l HS (Forall_cons _ _ _ Hx HDl)) as [IS IM].
  { intros f g Hf Hg. apply HU; cbn [app In]; rewrite in_app_iff; cbn in Hf, Hg; intuition. }
  destruct (IH (insert_file U x l) IS) as [JS JM].
  - apply Forall_app. split; [exact HDn|]. apply List.Forall_forall. intros y Hy. rewrite List.Forall_forall in HDl.
    apply IM in Hy as [->|Hy]; auto.
  - intros f g Hf Hg. apply HU; cbn [app In]; rewrite in_app_iff.
    + apply in_app_or in Hf as [Hf|Hf]; [tauto|]. apply IM in Hf as [->|Hf]; tauto.
    + apply in_app_or in Hg as [Hg|Hg]; [tauto|]. apply IM in Hg as [->|Hg]; tauto.
  - split; [exact JS|]. intros y. rewrite JM, IM. cbn [In]. intuition.
Qed.

(** The state of a builder on the base files [B] to which files of [N] are added:
    what it stands for is the set [S]. *)

Record level_inv (N B : list FileMetaData) (S : FileMetaData -> Prop) (l : ALevel) : Prop := {
  li_sorted : StronglySorted lt_file (snd l);
  li_added : incl (snd l) N;
  li_set : forall f, S f <-> (In f B \/ In f (snd l)) /\ ~ f_number f ∈ fst l
}.

Lemma level_inv_step N B S e level l als : numbers_unique (B ++ N) -> Forall key_dom_ok N ->
  incl (new_at e level) N -> als !! level = Some l -> level_inv N B (S level) l ->
  exists l', pure_apply U als e !! level = Some l' /\ level_inv N B (edit_sets S e level) l'.
Proof.
  intros HU HD HN E [HS HI HM]. destruct l as [D A]. cbn [fst snd] in *.
  destruct (pure_apply_level als e level D A E) as (D' & E' & HD'). rewrite List.Forall_forall in HD.
  assert (HU' : forall f g, In f B \/ In f N -> In g B \/ In g N -> f_number f = f_number g -> f = g)
    by (intros f g Hf Hg; apply HU; apply in_app_iff; assumption).
  destruct (insert_files_spec (new_at e level) A HS) as [JS JM].
  { apply Forall_app. split; apply List.Forall_forall; auto. }
  { intros f g Hf Hg. apply in_app_or in Hf, Hg. apply HU'; right; [destruct Hf|destruct Hg]; auto. }
  eexists. split; [exact E'|]. split; cbn [fst snd].
  - exact JS.
  - intros f Hf. apply JM in Hf as [Hf|Hf]; auto.
  - intros f. unfold edit_sets. rewrite HM, JM, HD'. split.
    + intros [[[H1 H2] H3]|H]; [tauto|]. split; [tauto|]. intros [_ Hn]. apply Hn, in_map, H.
    + intros [H1 H2]. destruct (in_dec Z.eq_dec (f_number f) (map f_number (new_at e level))) as [Hin|Hin].
      * right. apply in_map_iff in Hin as (g & Eg & Hg).
        assert (f = g) as -> by (apply HU'; [destruct H1 as [H1|[H1|H1]]; auto|auto|congruence]). exact Hg.
      * destruct H1 as [H1|[H1|H1]]; [left|right; exact H1|left]; tauto.
Qed.

Definition added_at (edits : list VersionEdit) (level : nat) : list FileMetaData :=
  concat (map (fun e => new_at e level) edits).

Lemma level_inv_steps N B level edits : numbers_unique (B ++ N) -> Forall key_dom_ok N ->
  forall S l als, incl (added_at edits level) N -> als !! level = Some l -> level_inv N B (S level) l ->
  exists l', fold_left (pure_apply U) edits als !! level = Some l' /\ level_inv N B (fold_left edit_sets edits S level) l'.
Proof.
  intros HU HD. induction edits as [|e edits IH]; intros S l als HN E HL; cbn [fold_left]; [eauto|].
  apply incl_app_inv in HN as [HN1 HN2].
  destruct (level_inv_step N B S e level l als HU HD HN1 E HL) as (l' & E' & HL'). exact (IH _ l' _ HN2 E' HL').
Qed.

(** What [SaveTo] makes of it: the set in the order of the files. *)

Lemma level_inv_save N B S l : Forall key_dom_ok (B ++ N) -> StronglySorted lt_file B ->
  (forall a b, In a N -> In b B -> f_number b <> f_number a) -> level_inv N B S l ->
  let r := List.filter (keeps (fst l)) (merge_files U B (snd l)) in
  StronglySorted lt_file r /\ forall f, In f r <-> S f.
Proof.
  intros HD HSB HN [HS HI HM]. rewrite List.Forall_forall in HD.
  destruct (merge_files_spec (snd l) B HSB HS) as [MS MM].
  { apply Forall_app; split; apply List.Forall_forall; intros x Hx; apply HD, in_or_app; auto. }
  { intros a b Ha. apply HN, HI, Ha. }
  cbv zeta. split; [apply StronglySorted_filter, MS|]. intros f. rewrite filter_In, MM, HM. unfold keeps.
  rewrite negb_true_iff, bool_decide_eq_false. reflexivity.
Qed.

(** ** A builder that applies a sequence of edits *)

Fixpoint Builder_ApplyAll (h : FileHeap) (cp : list bytes) (levels : Levels) (edits : list VersionEdit)
  : FileHeap * list bytes * Levels :=
  match edits with
  | [] => (h, cp, levels)
  | e :: edits => let '(h, cp, levels) := Builder_Apply U h cp levels e in Builder_ApplyAll h cp levels edits
  end.

Lemma Builder_ApplyAll_abs edits : forall h cp levels, levels_in h levels ->
  let '(h', cp', levels') := Builder_ApplyAll h cp levels edits in
  heap_ext h h' /\ levels_in h' levels' /\ abs_levels h' levels' = fold_left (pure_apply U) edits (abs_levels h levels).
Proof.
  induction edits as [|e edits IH]; intros h cp levels HL; cbn [Builder_ApplyAll fold_left].
  - split; [apply heap_ext_refl|]. split; [exact HL|reflexivity].
  - pose proof (Builder_Apply_abs U h cp levels e HL) as H. destruct (Builder_Apply U h cp levels e) as [[h1 cp1] l1].
    destruct H as (E1 & L1 & A1). specialize (IH h1 cp1 l1 L1). destruct (Builder_ApplyAll h1 cp1 l1 edits) as [[h2 cp2] l2].
    destruct IH as (E2 & L2 & A2). split; [exact (heap_ext_trans _ _ _ E1 E2)|]. split; [exact L2|]. rewrite A2, A1. reflexivity.
Qed.

(** The files of the levels of a version, and edits that fit on top of them: a
    number names one file and the added files are new to their level. *)

Definition level_metas (h : FileHeap) (v : Version nat) (level : nat) : list FileMetaData := metas h (files_at v level).

Record edits_fit (B : nat -> list FileMetaData) (edits : list VersionEdit) : Prop := {
  ef_unique : forall level, numbers_unique (B level ++ added_at edits level);
  ef_keys : forall level, Forall key_dom_ok (B level ++ added_at edits level);
  ef_fresh : forall level a b, In a (added_at edits level) -> In b (B level) -> f_number b <> f_number a
}.

Record version_files_ok (h : FileHeap) (v : Version nat) : Prop := {
  vf_levels : length (v_files v) = kNumLevels;
  vf_heap : Forall (fun ps => in_heap h ps) (v_files v);
  vf_sorted : forall level, StronglySorted lt_file (level_metas h v level)
}.

Lemma levels_new_in (h : FileHeap) : levels_in h Levels_new.
Proof. apply List.Forall_forall. intros l Hl. apply repeat_spec in Hl as ->. constructor. Qed.

Lemma levels_new_abs h level : (level < kNumLevels)%nat -> abs_levels h Levels_new !! level = Some (∅, []).
Proof.
  intros Hl. unfold abs_levels, Levels_new. rewrite list_lookup_fmap.
  destruct (lookup_lt_is_Some_2 (repeat (mkLevelState ∅ []) kNumLevels) level) as [l E]; [rewrite repeat_length; exact Hl|].
  rewrite E. apply list_elem_of_lookup_2, list_elem_of_In, repeat_spec in E as ->. reflexivity.
Qed.

Lemma pure_save_level als base level l b : als !! level = Some l -> base !! level = Some b ->
  pure_save U als base !! level = Some (List.filter (keeps (fst l)) (merge_files U b (snd l))).
Proof. intros E1 E2. unfold pure_save. rewrite lookup_zip_with, E1, E2. reflexivity. Qed.

Lemma fold_left_length {A B} (f : list A -> B -> list A) l : (forall a b, length (f a b) = length a) ->
  forall a, length (fold_left f l a) = length a.
Proof. intros H. induction l as [|b l IH]; intros a; cbn; [reflexivity|]. rewrite IH, H. reflexivity. Qed.

Lemma pure_apply_length als edits : length (fold_left (pure_apply U) edits als) = length als.
Proof.
  apply fold_left_length. intros a e. unfold pure_apply. rewrite !fold_left_length; [reflexivity|..]; intros; apply length_alter.
Qed.

(** The sets that a sequence of edits makes of the files of a version. *)

Definition edited (h : FileHeap) (base : Version nat) (edits : list VersionEdit) : FileSets :=
  fold_left edit_sets edits (fun level f => In f (level_metas h base level)).

Lemma saved_level h base edits level b : v_files base !! level = Some b -> version_files_ok h base ->
  edits_fit (level_metas h base) edits -> (level < kNumLevels)%nat ->
  exists r, pure_save U (fold_left (pure_apply U) edits (abs_levels h Levels_new)) (map (metas h) (v_files base)) !! level = Some r /\
    StronglySorted lt_file r /\ forall f, In f r <-> edited h base edits level f.
Proof.
  intros Eb [_ _ HS] [FU FK FF] Hl.
  assert (ELB : level_metas h base level = metas h b) by (unfold level_metas, files_at; rewrite Eb; reflexivity).
  specialize (FU level). specialize (FK level). specialize (FF level). specialize (HS level). rewrite ELB in *.
  destruct (level_inv_steps (added_at edits level) (metas h b) level edits) with
    (S := fun l f => In f (level_metas h base l)) (l := (∅ : gset Z, @nil FileMetaData)) (als := abs_levels h Levels_new)
    as (l' & El' & Hl').
  - exact FU.
  - apply Forall_app in FK. tauto.
  - apply incl_refl.
  - apply levels_new_abs, Hl.
  - split; cbn [fst snd]; [constructor|intros x []|]. intros f. rewrite ELB. cbn [In].
    split; [intros H; split; [left; exact H|apply not_elem_of_empty]|tauto].
  - eexists. split; [apply pure_save_level; [exact El'|rewrite list_lookup_fmap, Eb; reflexivity]|].
    exact (level_inv_save _ _ _ _ FK HS FF Hl').
Qed.

Lemma builder_saves h cp base edits : version_files_ok h base -> edits_fit (level_metas h base) edits ->
  let '(h1, _, levels) := Builder_ApplyAll h cp Levels_new edits in
  let '(h2, v) := Builder_SaveTo U h1 levels base in
  heap_ext h h2 /\ length h2 = length h1 /\ version_files_ok h2 v /\ levels_in h1 levels /\
  forall level, (level < kNumLevels)%nat -> forall f, In f (level_metas h2 v level) <-> edited h base edits level f.
Proof.
  intros HV HF. destruct (HV) as [HL HB _].
  pose proof (Builder_ApplyAll_abs edits h cp Levels_new (levels_new_in h)) as H.
  destruct (Builder_ApplyAll h cp Levels_new edits) as [[h1 cp1] levels]. destruct H as (E1 & L1 & A1).
  unfold Builder_SaveTo.
  destruct (save_levels_abs U levels (v_files base) h1 L1) as (h2 & files & -> & E2 & Hl2 & Hin2 & EM).
  { revert HB. apply List.Forall_impl. intros ps. apply in_heap_ext, E1. }
  assert (EB : map (metas h1) (v_files base) = map (metas h) (v_files base)).
  { apply map_ext_in. intros ps Hps. rewrite List.Forall_forall in HB. apply metas_ext; [exact E1|exact (HB ps Hps)]. }
  rewrite A1, EB in EM.
  assert (HLen : length files = kNumLevels).
  { rewrite <- (length_map (metas h2)), EM. unfold pure_save. rewrite length_zip_with, length_map, HL, pure_apply_length. reflexivity. }
  assert (HLV : forall level, (level < kNumLevels)%nat -> exists fs, files !! level = Some fs /\
    StronglySorted lt_file (metas h2 fs) /\ forall f, In f (metas h2 fs) <-> edited h base edits level f).
  { intros level Hl. destruct (lookup_lt_is_Some_2 (v_files base) level) as [b Eb]; [rewrite HL; exact Hl|].
    destruct (saved_level h base edits level b Eb HV HF Hl) as (r & Er & Hr). rewrite <- EM, list_lookup_fmap in Er.
    destruct (files !! level) as [fs|]; [|discriminate]. injection Er as <-. eauto. }
  split; [exact (heap_ext_trans _ _ _ E1 E2)|]. split; [exact Hl2|]. split; [|split; [exact L1|]].
  - split; [exact HLen|exact Hin2|]. intros level. unfold level_metas, files_at. cbn [v_files].
    destruct (decide (level < kNumLevels)%nat) as [Hl|Hl].
    + destruct (HLV level Hl) as (fs & -> & Hs & _). exact Hs.
    + rewrite lookup_ge_None_2 by lia. constructor.
  - intros level Hl. destruct (HLV level Hl) as (fs & E & _ & Hf). unfold level_metas at 1, files_at. cbn [v_files].
    rewrite E. exact Hf.
Qed.

(** Two versions with the same sets of files have the same lists of files. *)

Lemma same_levels h v h' v' : version_files_ok h v -> version_files_ok h' v' ->
  (forall level, Forall key_dom_ok (level_metas h v level)) ->
  (forall level, (level < kNumLevels)%nat -> forall f, In f (level_metas h v level) <-> In f (level_metas h' v' level)) ->
  forall level, level_metas h v level = level_metas h' v' level.
Proof.
  intros [L1 _ S1] [L2 _ S2] HK Hin level. destruct (decide (level < kNumLevels)%nat) as [Hl|Hl].
  - apply (StronglySorted_unique lt_file); [|apply S1|apply S2|apply Hin, Hl]. specialize (HK level).
    rewrite List.Forall_forall in HK. intros x y Hx Hy. apply less_asym; auto.
  - unfold level_metas, files_at. rewrite !lookup_ge_None_2 by lia. reflexivity.
Qed.

(** The whole life of a builder: apply, save, destroy. *)

Definition Builder_run (h : FileHeap) (cp : list bytes) (base : Version nat) (edits : list VersionEdit)
  : FileHeap * list bytes * Version nat :=
  let '(h, cp, levels) := Builder_ApplyAll h cp Levels_new edits in
  let '(h, v) := Builder_SaveTo U h levels base in
  (Builder_delete h levels, cp, v).

Lemma drop_refs_ext ps : forall h, heap_ext h (fold_left (fun h f => add_refs (-1) f h) ps h) /\
  length (fold_left (fun h f => add_refs (-1) f h) ps h) = length h.
Proof.
  induction ps as [|p ps IH]; intros h; cbn [fold_left]; [split; [apply heap_ext_refl|reflexivity]|].
  destruct (IH (add_refs (-1) p h)) as [H1 H2]. split; [exact (heap_ext_trans _ _ _ (heap_ext_refs _ _ _) H1)|].
  rewrite H2. apply add_refs_length.
Qed.

Lemma Builder_delete_ext levels : forall h, heap_ext h (Builder_delete h levels) /\ length (Builder_delete h levels) = length h.
Proof.
  unfold Builder_delete. induction levels as [|l levels IH]; intros h; cbn [fold_left]; [split; [apply heap_ext_refl|reflexivity]|].
  destruct (drop_refs_ext (added_files l) h) as [H1 H2]. destruct (IH (fold_left (fun h f => add_refs (-1) f h) (added_files l) h)) as [H3 H4].
  split; [exact (heap_ext_trans _ _ _ H1 H3)|lia].
Qed.

Lemma level_metas_ext h h' v : heap_ext h h' -> Forall (fun ps => in_heap h ps) (v_files v) ->
  forall level, level_metas h' v level = level_metas h v level.
Proof.
  intros HE HF level. apply metas_ext; [exact HE|]. unfold files_at. destruct (v_files v !! level) as [ps|] eqn:E; cbn; [|constructor].
  rewrite list.Forall_lookup in HF. exact (HF level ps E).
Qed.

Lemma version_files_ok_ext h h' v : heap_ext h h' -> version_files_ok h v -> version_files_ok h' v.
Proof.
  intros HE [H1 H2 H3]. split; [exact H1| |].
  - revert H2. apply List.Forall_impl. intros ps. apply in_heap_ext, HE.
  - intros level. rewrite (level_metas_ext h h') by assumption. apply H3.
Qed.

Lemma Builder_run_ok h cp base edits : version_files_ok h base -> edits_fit (level_metas h base) edits ->
  let '(h', _, v) := Builder_run h cp base edits in
  heap_ext h h' /\ version_files_ok h' v /\
  forall level, (level < kNumLevels)%nat -> forall f, In f (level_metas h' v level) <-> edited h base edits level f.
Proof.
  intros HV HF. unfold Builder_run. pose proof (builder_saves h cp base edits HV HF) as H.
  destruct (Builder_ApplyAll h cp Levels_new edits) as [[h1 cp1] levels]. destruct (Builder_SaveTo U h1 levels base) as [h2 v].
  destruct H as (HE & Hl & HV2 & _ & HM). destruct (Builder_delete_ext levels h2) as [HE' _].
  split; [exact (heap_ext_trans _ _ _ HE HE')|]. split; [exact (version_files_ok_ext _ _ _ HE' HV2)|].
  intros level Hl' f. rewrite (level_metas_ext h2) by (try exact HE'; apply HV2). exact (HM level Hl' f).
Qed.

(** Every file that edits leave in a level was there or was added. *)

Lemma edits_from edits level f : forall S, fold_left edit_sets edits S level f -> S level f \/ In f (added_at edits level).
Proof.
  induction edits as [|e edits IH]; intros S HS; cbn [fold_left] in HS; [auto|]. apply IH in HS.
  unfold added_at in *. cbn [map concat]. rewrite in_app_iff. unfold edit_sets in HS. tauto.
Qed.

Lemma added_at_app edits1 edits2 level : added_at (edits1 ++ edits2) level = added_at edits1 level ++ added_at edits2 level.
Proof. unfold added_at. rewrite map_app, concat_app. reflexivity. Qed.

Lemma edits_fit_incl (B B' : nat -> list FileMetaData) edits edits' : edits_fit B edits ->
  (forall level, incl (B' level ++ added_at edits' level) (B level ++ added_at edits level)) ->
  (forall level a b, In a (added_at edits' level) -> In b (B' level) -> f_number b <> f_number a) ->
  edits_fit B' edits'.
Proof.
  intros [FU FK FF] HI HN. split; [| |exact HN].
  - intros level f g Hf Hg. apply (FU level); apply HI; assumption.
  - intros level. specialize (FK level). rewrite List.Forall_forall in *. intros f Hf. apply FK, HI, Hf.
Qed.

(** Edits whose files are new to a level also with respect to earlier edits. *)

Definition edits_apart (edits1 edits2 : list VersionEdit) : Prop :=
  forall level a b, In a (added_at edits2 level) -> In b (added_at edits1 level) -> f_number b <> f_number a.

Lemma edits_fit_first B edits1 edits2 : edits_fit B (edits1 ++ edits2) -> edits_fit B edits1.
Proof.
  intros HF. apply (edits_fit_incl _ _ _ _ HF).
  - intros level f. rewrite added_at_app, !in_app_iff. tauto.
  - intros level a b Ha. apply (ef_fresh _ _ HF). rewrite added_at_app. apply in_or_app. auto.
Qed.

Lemma edits_fit_rest B B' edits1 edits2 : edits_fit B (edits1 ++ edits2) -> edits_apart edits1 edits2 ->
  (forall level, incl (B' level) (B level ++ added_at edits1 level)) -> edits_fit B' edits2.
Proof.
  intros HF HA HI. apply (edits_fit_incl _ _ _ _ HF).
  - intros level f Hf. rewrite added_at_app, !in_app_iff. apply in_app_or in Hf as [Hf|Hf]; [|tauto].
    apply HI, in_app_or in Hf. tauto.
  - intros level a b Ha Hb. apply HI, in_app_or in Hb as [Hb|Hb]; [|exact (HA level a b Ha Hb)].
    apply (ef_fresh _ _ HF level); [rewrite added_at_app; apply in_or_app; auto|exact Hb].
Qed.

Lemma edit_sets_ext edits level : forall S S' : FileSets, (forall f, S level f <-> S' level f) ->
  forall f, fold_left edit_sets edits S level f <-> fold_left edit_sets edits S' level f.
Proof.
  induction edits as [|e edits IH]; intros S S' H; cbn [fold_left]; [exact H|]. apply IH. intros f. unfold edit_sets.
  rewrite H. reflexivity.
Qed.

Lemma run_incl h base h' v edits : version_files_ok h' v ->
  (forall level, (level < kNumLevels)%nat -> forall f, In f (level_metas h' v level) <-> edited h base edits level f) ->
  forall level, incl (level_metas h' v level) (level_metas h base level ++ added_at edits level).
Proof.
  intros [HL _ _] HM level f Hf. destruct (decide (level < kNumLevels)%nat) as [Hl|Hl].
  - apply HM in Hf; [|exact Hl]. apply edits_from in Hf. apply in_or_app. exact Hf.
  - unfold level_metas, files_at in Hf. rewrite lookup_ge_None_2 in Hf by lia. destruct Hf.
Qed.

End Meaning.

(** ** Properties *)

(** C17. The version builder: after any sequence of edits every level of the
    version that SaveTo makes holds exactly the files that were in the base
    version or were added by an edit and were not deleted by an edit after that,
    sorted by smallest key and number; and it makes no difference whether all
    edits go through one builder, as in recovery, or a version is built in
    between, as LogAndApply does: the levels are the same lists of files.  A number
    names one file, and a file that is added to a level is new to it: it was not
    in that level of the base version, nor added to it by an edit of the other
    part, not even if it was deleted since (a level never gets a file back). *)
Theorem builder_replays : forall U (UOK : ComparatorOk U) h cp base edits1 edits2, version_files_ok (U := U) h base ->
  edits_fit (U := U) (level_metas h base) (edits1 ++ edits2) -> edits_apart edits1 edits2 ->
  let '(h1, cp1, v1) := Builder_run (U := U) h cp base edits1 in
  let '(h2, _, v2) := Builder_run (U := U) h1 cp1 v1 edits2 in
  let '(h3, _, v3) := Builder_run (U := U) h cp base (edits1 ++ edits2) in
  version_files_ok (U := U) h3 v3 /\
  (forall level, level_metas h2 v2 level = level_metas h3 v3 level) /\
  (forall level, (level < kNumLevels)%nat -> forall f,
     In f (level_metas h3 v3 level) <-> edited h base (edits1 ++ edits2) level f).
Proof.
  intros U UOK h cp base edits1 edits2 HV HF HA.
  pose proof (Builder_run_ok h cp base edits1 HV (edits_fit_first _ _ _ HF)) as H1.
  destruct (Builder_run h cp base edits1) as [[h1 cp1] v1]. destruct H1 as (E1 & V1 & M1).
  pose proof (Builder_run_ok h1 cp1 v1 edits2 V1 (edits_fit_rest _ _ _ _ HF HA (run_incl _ _ _ _ _ V1 M1))) as H2.
  destruct (Builder_run h1 cp1 v1 edits2) as [[h2 cp2] v2]. destruct H2 as (E2 & V2 & M2).
  pose proof (Builder_run_ok h cp base _ HV HF) as H3.
  destruct (Builder_run h cp base (edits1 ++ edits2)) as [[h3 cp3] v3]. destruct H3 as (E3 & V3 & M3).
  split; [exact V3|]. split; [|exact M3]. intros level. symmetry. apply same_levels; [assumption..| |].
  - intros l. pose proof (run_incl _ _ _ _ _ V3 M3 l) as HI. pose proof (ef_keys _ _ HF l) as HK.
    rewrite List.Forall_forall in *. auto.
  - intros l Hl f. rewrite (M3 l Hl), (M2 l Hl). unfold edited. rewrite fold_left_app.
    apply edit_sets_ext. intros g. symmetry. apply (M1 l Hl).
Qed.

(** A level filled, compacted and moved. *)

Definition demo_key (s : bytes) (n : Z) : bytes := mkInternalKey s n kTypeValue.

Definition demo_edits1 : list VersionEdit :=
  [AddFile 1 4 1000 (demo_key (str "m") 2) (demo_key (str "x") 3) (AddFile 0 5 1000 (demo_key (str "b") 9) (demo_key (str "y") 7) VE_Clear)].

Definition demo_edits2 : list VersionEdit :=
  [AddFile 1 6 900 (demo_key (str "b") 9) (demo_key (str "c") 8) (RemoveFile 0 5 VE_Clear); AddFile 2 4 1000 (demo_key (str "m") 2) (demo_key (str "x") 3) (RemoveFile 1 4 VE_Clear)].

Lemma version_new_ok {U : Comparator} h : version_files_ok (U := U) h Version_new.
Proof.
  split; [apply repeat_length| |].
  - apply List.Forall_forall. intros ps Hps. apply repeat_spec in Hps as ->. constructor.
  - intros [|[|[|[|[|[|[|level]]]]]]]; constructor.
Qed.

Lemma level_metas_new h level : level_metas h Version_new level = [].
Proof. destruct level as [|[|[|[|[|[|[|level]]]]]]]; reflexivity. Qed.

Ltac in_cases := repeat match goal with H : _ = _ \/ _ |- _ => destruct H as [<-|H] | H : False |- _ => destruct H end.

Lemma demo_fit h : edits_fit (U := BytewiseComparator) (level_metas h Version_new) (demo_edits1 ++ demo_edits2).
Proof.
  split.
  - intros level. rewrite level_metas_new. intros f g Hf Hg. cbn [app] in Hf, Hg.
    destruct level as [|[|[|level]]]; vm_compute in Hf, Hg; in_cases; vm_compute; try discriminate; try (intros _; reflexivity).
  - intros level. rewrite level_metas_new. destruct level as [|[|[|level]]]; repeat constructor; vm_compute; discriminate.
  - intros level a b _ Hb. rewrite level_metas_new in Hb. destruct Hb.
Qed.

Lemma builder_replays_witness :
  let '(h1, cp1, v1) := Builder_run (U := BytewiseComparator) [] (repeat [] kNumLevels) Version_new demo_edits1 in
  let '(h2, _, v2) := Builder_run (U := BytewiseComparator) h1 cp1 v1 demo_edits2 in
  let '(h3, _, v3) := Builder_run (U := BytewiseComparator) [] (repeat [] kNumLevels) Version_new (demo_edits1 ++ demo_edits2) in
  version_files_ok (U := BytewiseComparator) h3 v3 /\
  (forall level, level_metas h2 v2 level = level_metas h3 v3 level) /\
  (forall level, (level < kNumLevels)%nat -> forall f,
     In f (level_metas h3 v3 level) <-> edited [] Version_new (demo_edits1 ++ demo_edits2) level f).
Proof.
  apply (builder_replays BytewiseComparator BytewiseComparatorOk).
  - apply version_new_ok.
  - apply demo_fit.
  - intros level a b Ha Hb. destruct level as [|[|[|level]]]; vm_compute in Ha, Hb; in_cases; vm_compute; discriminate.
Defined.
