(* ===== verification/Manifest.v ===== *)
(** * The manifest (db/version_set.cc: LogAndApply, WriteSnapshot, Recover)

    What the manifest records and what recovery makes of it.  A manifest is the
    log of the edits since the snapshot at its start; recovering from it gives
    the files that replaying those edits gives and the counters that the edits
    set last.  Applying an edit keeps the manifest in step with the current
    version; an edit that cannot be logged changes no version and no counter. *)

From S2P Require Import Prelude Coding Compare DbFormat Logging FileName Env Log Iterator VersionEdit Version Compaction VersionSet VersionBuild.
#[local] Open Scope Z_scope.
#[local] Open Scope ldb_scope.

Abbreviation manifest_records edits := (map (fun e => VE_EncodeTo e []) edits).

(** The last value that a sequence of edits gives a counter. *)

Definition last_set (has : VersionEdit -> bool) (value : VersionEdit -> Z) (edits : list VersionEdit) (old : option Z) : option Z :=
  fold_left (fun old e => set_if (has e) (value e) old) edits old.

Definition edit_comparator_ok (name : bytes) (e : VersionEdit) : Prop := has_comparator_ e = true -> comparator_ e = name.

Section Recovery.
Context {U : Comparator} {UOK : ComparatorOk U} (comparator_name : bytes).
Context {S : Type} {SF : SequentialFile S}.

(** ** Reading the edits *)

Definition recovered (edits : list VersionEdit) (st : RecoverState) : RecoverState :=
  let '(h, cp, levels) := Builder_ApplyAll (U := U) (rs_heap st) (rs_pointers st) (rs_levels st) edits in
  mkRecoverState h cp levels
    (last_set has_next_file_number_ next_file_number_ edits (rs_next_file st))
    (last_set has_last_sequence_ last_sequence_ edits (rs_last_sequence st))
    (last_set has_log_number_ log_number_ edits (rs_log_number st))
    (last_set has_prev_log_number_ prev_log_number_ edits (rs_prev_log_number st)).

Lemma Slice_eq_refl a : Slice_eq a a = true.
Proof. apply Slice_eq_spec. reflexivity. Qed.

Lemma recover_record_ok e st : edit_ok e -> edit_comparator_ok comparator_name e ->
  recover_record U comparator_name (VE_EncodeTo e []) st = (OK, recovered [e] st).
Proof.
  intros He Hc. unfold recover_record, recovered. rewrite VE_decode_encode by exact He. cbn [ok OK andb].
  assert (Hn : has_comparator_ e && negb (Slice_eq (comparator_ e) comparator_name) = false).
  { destruct (has_comparator_ e) eqn:E; [|reflexivity]. rewrite (Hc E), Slice_eq_refl. reflexivity. }
  rewrite Hn. cbn [ok OK Builder_ApplyAll]. destruct (Builder_Apply U _ _ _ e) as [[h cp] levels]. reflexivity.
Qed.

Lemma recovered_cons e edits st : recovered (e :: edits) st = recovered edits (recovered [e] st).
Proof.
  unfold recovered. cbn [Builder_ApplyAll]. destruct (Builder_Apply U (rs_heap st) (rs_pointers st) (rs_levels st) e) as [[h cp] levels].
  cbn [rs_heap rs_pointers rs_levels]. destruct (Builder_ApplyAll h cp levels edits) as [[h' cp'] levels']. reflexivity.
Qed.

Lemma recover_loop_ok fuel edits : Forall (fun e => edit_ok e /\ edit_comparator_ok comparator_name e) edits ->
  forall n r st, Drains fuel r (manifest_records edits) -> reporter_ r = Some [] -> (length edits < n)%nat ->
  recover_loop U comparator_name n fuel r OK st = Some (OK, recovered edits st).
Proof.
  induction 1 as [|e edits [He Hc] HF IH]; intros n r st HD Hr Hn; (destruct n as [|n]; [cbn in Hn; lia|]); cbn [recover_loop];
    inversion HD as [r0 r' E Hr'|r0 rec r' recs E Hr' HD' E1 E2]; subst.
  - rewrite E. unfold reported. rewrite Hr', Hr. destruct st; reflexivity.
  - rewrite E. unfold reported. rewrite Hr', Hr. cbn [ok OK]. rewrite recover_record_ok by assumption.
    rewrite (recovered_cons e edits st). apply IH; [exact HD'|congruence|cbn in Hn; lia].
Qed.

End Recovery.

(** ** The list of versions *)

Section Versions.
Context {U : Comparator} {UOK : ComparatorOk U} {E W : Type}.
Abbreviation VSet := (@VersionSet E W).

(** Identities are given out in order, and the current version is one of the live ones. *)

Definition ids_ok (vs : VSet) : Prop := Forall (fun c => (vc_id c < vs_next_id vs)%nat) (vs_versions vs).

Lemma unref_cells_ok cells id : forall h, let '(h', cells') := unref_cells h cells id in
  heap_ext h h' /\ length h' = length h /\ (forall c', In c' cells' -> exists c, In c cells /\ vc_id c' = vc_id c /\ vc_version c' = vc_version c).
Proof.
  induction cells as [|c cells IH]; intros h; cbn [unref_cells]; [split; [apply heap_ext_refl|split; [reflexivity|intros c' []]]|].
  destruct (vc_id c =? id)%nat.
  - destruct (vc_refs c - 1 =? 0).
    + unfold Version_delete_files. destruct (drop_refs_ext (concat (v_files (vc_version c))) h) as [H1 H2].
      split; [exact H1|]. split; [exact H2|]. intros c' Hc'. exists c'. cbn. auto.
    + split; [apply heap_ext_refl|]. split; [reflexivity|]. intros c' [<-|Hc']; [exists c|exists c']; cbn; auto.
  - specialize (IH h). destruct (unref_cells h cells id) as [h' cells']. destruct IH as (H1 & H2 & H3).
    split; [exact H1|]. split; [exact H2|]. intros c' [<-|Hc']; [exists c; cbn; auto|].
    destruct (H3 c' Hc') as (c0 & Hc0 & He). exists c0. cbn. auto.
Qed.

Lemma find_last {A} (p : A -> bool) l x : Forall (fun y => p y = false) l -> p x = true -> find p (l ++ [x]) = Some x.
Proof. intros HF Hx. induction HF as [|y l Hy HF IH]; cbn; [rewrite Hx; reflexivity|]. rewrite Hy. exact IH. Qed.

Lemma AppendVersion_ok (vs : VSet) v : ids_ok vs ->
  let vs' := AppendVersion vs v in
  ids_ok vs' /\ current vs' = v /\ heap_ext (vs_heap vs) (vs_heap vs') /\ length (vs_heap vs') = length (vs_heap vs).
Proof.
  intros Hids. unfold AppendVersion.
  set (vs1 := match vs_current vs with Some id => Version_Unref vs id | None => vs end).
  assert (H1 : ids_ok vs1 /\ vs_next_id vs1 = vs_next_id vs /\ heap_ext (vs_heap vs) (vs_heap vs1) /\ length (vs_heap vs1) = length (vs_heap vs)).
  { unfold vs1. destruct (vs_current vs) as [id|]; [|split; [exact Hids|split; [reflexivity|split; [apply heap_ext_refl|reflexivity]]]].
    unfold Version_Unref. pose proof (unref_cells_ok (vs_versions vs) id (vs_heap vs)) as H.
    destruct (unref_cells (vs_heap vs) (vs_versions vs) id) as [h' cells']. destruct H as (HE & HL & HC).
    split; [|split; [reflexivity|split; [exact HE|exact HL]]]. unfold ids_ok in *. rewrite List.Forall_forall in *. cbn. intros c' Hc'.
    destruct (HC c' Hc') as (c & Hc & -> & _). auto. }
  destruct H1 as (H1 & H2 & H3 & H4). cbv zeta. split; [|split; [|split; [exact H3|exact H4]]].
  - apply Forall_app. cbn [vs_next_id]. split; [revert H1; apply List.Forall_impl; intros c; cbn; lia|constructor; [cbn; lia|constructor]].
  - unfold current, cell_of. cbn [vs_current vs_versions]. rewrite find_last; [reflexivity| |apply Nat.eqb_refl].
    revert H1. apply List.Forall_impl. intros c Hc. apply Nat.eqb_neq. lia.
Qed.

Lemma AppendVersion_rest (vs : VSet) v : let vs' := AppendVersion vs v in
  vs_env vs' = vs_env vs /\ vs_next_file_number vs' = vs_next_file_number vs /\
  vs_manifest_file_number vs' = vs_manifest_file_number vs /\ vs_last_sequence vs' = vs_last_sequence vs /\
  vs_descriptor_log vs' = vs_descriptor_log vs /\ vs_compact_pointer vs' = vs_compact_pointer vs.
Proof.
  unfold AppendVersion, Version_Unref. destruct (vs_current vs) as [id|]; [|repeat split].
  destruct (unref_cells (vs_heap vs) (vs_versions vs) id) as [h' cells']. repeat split.
Qed.

End Versions.

(** ** Recovery *)

(** The levels of the current version. *)

Definition current_level {E W} (vs : @VersionSet E W) (level : nat) : list FileMetaData := level_metas (vs_heap vs) (current vs) level.

(** What a version set recovered from (or in step with) a sequence of edits holds. *)

Record holds {U : Comparator} {E W} (vs : @VersionSet E W) (edits : list VersionEdit) : Prop := {
  ho_ids : ids_ok vs;
  ho_files : version_files_ok (U := U) (vs_heap vs) (current vs);
  ho_sets : forall level, (level < kNumLevels)%nat -> forall f, In f (current_level vs level) <-> replay edits level f;
  ho_log : vs_log_number vs = default 0 (last_set has_log_number_ log_number_ edits None);
  ho_prev : vs_prev_log_number vs = default 0 (last_set has_prev_log_number_ prev_log_number_ edits None)
}.

Section Recover.
Context {U : Comparator} {UOK : ComparatorOk U} (comparator_name : bytes) (max_file_size : Z) (reuse_logs : bool) (dbname : bytes).
Context {E W S : Type} {WF : WritableFile W} {SF : SequentialFile S} (env : @EnvOps E W S).

Lemma ReuseManifest_rest (vs : @VersionSet E W) dscname dscbase :
  let vs' := snd (ReuseManifest max_file_size reuse_logs env vs dscname dscbase) in
  vs_heap vs' = vs_heap vs /\ vs_versions vs' = vs_versions vs /\ vs_next_id vs' = vs_next_id vs /\
  vs_current vs' = vs_current vs /\ vs_next_file_number vs' = vs_next_file_number vs /\
  vs_last_sequence vs' = vs_last_sequence vs /\ vs_log_number vs' = vs_log_number vs /\
  vs_prev_log_number vs' = vs_prev_log_number vs /\ vs_compact_pointer vs' = vs_compact_pointer vs.
Proof.
  unfold ReuseManifest. destruct reuse_logs; cbn [negb]; [|repeat split].
  destruct (ParseFileName dscbase) as [[num []]|]; try (repeat split; fail).
  destruct (env_GetFileSize env (vs_env vs) dscname) as [s size]. destruct (_ || _); [repeat split|].
  destruct (env_NewAppendableFile env (vs_env vs) dscname) as [e [r [file|]]]; [destruct (ok r)|]; repeat split.
Qed.

(** CURRENT names the manifest, and the manifest can be opened. *)

Definition current_names (e : E) (name : bytes) (file : S) : Prop :=
  env_ReadFileToString env e (CurrentFileName dbname) = (OK, name ++ [z2b 10]) /\
  env_NewSequentialFile env e (dbname ++ str "/" ++ name) = (OK, Some file).

Lemma edits_fit_new h edits : edits_fit (U := U) (fun _ => []) edits -> edits_fit (U := U) (level_metas h Version_new) edits.
Proof.
  intros HF. apply (edits_fit_incl _ _ _ _ HF).
  - intros level. rewrite level_metas_new. apply incl_refl.
  - intros level a b _ Hb. rewrite level_metas_new in Hb. destruct Hb.
Qed.

Lemma edited_new h edits level f : edited h Version_new edits level f <-> replay edits level f.
Proof. apply edit_sets_ext. intros g. rewrite level_metas_new. reflexivity. Qed.

Lemma last_newline (name : bytes) : list.last (name ++ [z2b 10]) = Some (z2b 10).
Proof. apply last_snoc. Qed.

Lemma MarkFileNumberUsed_rest (vs : @VersionSet E W) k : let vs' := MarkFileNumberUsed vs k in
  vs_heap vs' = vs_heap vs /\ vs_versions vs' = vs_versions vs /\ vs_next_id vs' = vs_next_id vs /\ vs_current vs' = vs_current vs.
Proof. unfold MarkFileNumberUsed. destruct (_ <=? _); repeat split. Qed.

Lemma Finalize_files h v : v_files (Finalize h v) = v_files v.
Proof. unfold Finalize. destruct (fold_left _ _ _) as [l s]. reflexivity. Qed.

Lemma level_metas_files h v v' : v_files v = v_files v' -> forall level, level_metas h v level = level_metas h v' level.
Proof. intros H level. unfold level_metas, files_at. rewrite H. reflexivity. Qed.

Lemma version_files_ok_files h v v' : v_files v = v_files v' -> version_files_ok (U := U) h v' -> version_files_ok (U := U) h v.
Proof. intros H [H1 H2 H3]. split; [congruence|congruence|]. intros level. rewrite (level_metas_files h v v' H). apply H3. Qed.

Lemma recover_finish_ok (vs : @VersionSet E W) h cp levels nf ls ln pl base dscname cur save edits h2 v : ids_ok vs ->
  Builder_SaveTo U h levels base = (h2, v) -> version_files_ok (U := U) h2 v ->
  (forall level, (level < kNumLevels)%nat -> forall f, In f (level_metas h2 v level) <-> replay edits level f) ->
  let st := mkRecoverState h cp levels (Some nf) (Some ls) (Some ln) pl in
  last_set has_log_number_ log_number_ edits None = Some ln -> last_set has_prev_log_number_ prev_log_number_ edits None = pl ->
  let '(s, _, vs') := recover_finish U max_file_size reuse_logs env (with_heap vs h cp) OK st base dscname cur save in
  s = OK /\ holds (U := U) vs' edits /\ vs_last_sequence vs' = ls /\ vs_next_file_number vs' = u64 (nf + 1).
Proof.
  intros Hids HS HV HM st EL EP. unfold recover_finish, st. clear st.
  cbn [ok OK recover_status rs_next_file rs_log_number rs_last_sequence rs_prev_log_number rs_levels from_option id].
  set (vs1 := MarkFileNumberUsed (MarkFileNumberUsed (with_heap vs h cp) (default 0 pl)) ln).
  destruct (MarkFileNumberUsed_rest (MarkFileNumberUsed (with_heap vs h cp) (default 0 pl)) ln) as (A1 & A2 & A3 & A4).
  destruct (MarkFileNumberUsed_rest (with_heap vs h cp) (default 0 pl)) as (B1 & B2 & B3 & B4).
  fold vs1 in A1, A2, A3, A4. rewrite A1, B1. cbn [vs_heap with_heap]. rewrite HS.
  set (v' := Finalize h2 v). destruct (AppendVersion_ok (with_heap vs1 h2 (vs_compact_pointer vs1)) v') as (I1 & I2 & I3 & I4).
  { unfold ids_ok. cbn. rewrite A2, A3, B2, B3. exact Hids. }
  set (vs2 := AppendVersion _ v') in *. cbn [vs_heap with_heap] in I3, I4.
  set (vs3 := with_numbers vs2 _ _ _ _ _). pose proof (ReuseManifest_rest vs3 dscname cur) as HR.
  destruct (ReuseManifest max_file_size reuse_logs env vs3 dscname cur) as [reused vs4]. cbn [snd] in HR.
  destruct HR as (R1 & R2 & R3 & R4 & R5 & R6 & R7 & R8 & R9).
  destruct (Builder_delete_ext levels (vs_heap vs4)) as [D1 D2]. rewrite R1 in D1, D2.
  cbn in R1, R2, R3, R4, R5, R6, R7, R8, D1, D2.
  assert (EC : current (with_heap vs4 (Builder_delete (vs_heap vs4) levels) (vs_compact_pointer vs4)) = v').
  { rewrite <- I2. unfold current, cell_of. cbn. rewrite R4, R2. reflexivity. }
  assert (HV' : version_files_ok (U := U) (Builder_delete (vs_heap vs4) levels) v').
  { rewrite R1. apply (version_files_ok_ext (vs_heap vs2)); [exact D1|]. apply (version_files_ok_ext h2); [exact I3|].
    apply (version_files_ok_files h2 v' v); [apply Finalize_files|exact HV]. }
  split; [reflexivity|]. split; [|split; [exact R6|exact R5]]. split.
  - unfold ids_ok. cbn. rewrite R2, R3. exact I1.
  - rewrite EC. exact HV'.
  - intros level Hl f. unfold current_level. rewrite EC. cbn [vs_heap with_heap]. rewrite R1.
    rewrite (level_metas_ext h2), (level_metas_files h2 v' v) by (try exact (heap_ext_trans _ _ _ I3 D1); try apply Finalize_files;
      unfold v'; rewrite Finalize_files; apply HV).
    exact (HM level Hl f).
  - cbn. rewrite R7, EL. reflexivity.
  - cbn. rewrite R8, EP. reflexivity.
Qed.

Lemma recover_ok e name file edits n fuel save next log seq :
  current_names e name file -> Drains fuel (Reader_new file (Some []) true 0) (manifest_records edits) ->
  Forall (fun e => edit_ok e /\ edit_comparator_ok comparator_name e) edits -> edits_fit (U := U) (fun _ => []) edits ->
  last_set has_next_file_number_ next_file_number_ edits None = Some next ->
  last_set has_log_number_ log_number_ edits None = Some log ->
  last_set has_last_sequence_ last_sequence_ edits None = Some seq -> (length edits < n)%nat ->
  exists save' vs', Recover U comparator_name max_file_size reuse_logs dbname env n fuel (VersionSet_new e) save = Some (OK, save', vs') /\
    holds (U := U) vs' edits /\ vs_last_sequence vs' = seq /\ vs_next_file_number vs' = u64 (next + 1).
Proof.
  intros [HC HM] HD HF HFit HN HL HS Hn. unfold Recover. change (vs_env (VersionSet_new e)) with e.
  rewrite HC. cbn [ok OK negb]. rewrite last_newline. change (negb (b2z (z2b 10) =? 10)) with false. cbv beta iota zeta.
  rewrite length_app, Nat.add_sub, take_app_length, HM. cbn [ok OK negb].
  rewrite (recover_loop_ok comparator_name fuel edits HF n _ _ HD eq_refl Hn). unfold recovered.
  change (current (VersionSet_new e)) with (@Version_new nat).
  cbn [rs_heap rs_pointers rs_levels rs_next_file rs_last_sequence rs_log_number rs_prev_log_number].
  pose proof (builder_saves (vs_heap (@VersionSet_new E W e)) (vs_compact_pointer (@VersionSet_new E W e)) Version_new edits
    (version_new_ok _) (edits_fit_new _ edits HFit)) as HB.
  destruct (Builder_ApplyAll _ _ Levels_new edits) as [[h1 cp] levels].
  destruct (Builder_SaveTo U h1 levels Version_new) as [h2 v] eqn:ES. destruct HB as (_ & _ & HV & _ & HM2).
  rewrite HN, HL, HS.
  assert (HM3 : forall level, (level < kNumLevels)%nat -> forall f, In f (level_metas h2 v level) <-> replay edits level f).
  { intros level Hl f. rewrite (HM2 level Hl f). apply edited_new. }
  assert (HI : ids_ok (@VersionSet_new E W e)) by repeat constructor.
  pose proof (recover_finish_ok (VersionSet_new e) h1 cp levels next seq log (last_set has_prev_log_number_ prev_log_number_ edits None)
    Version_new (dbname ++ str "/" ++ name) name save edits h2 v HI ES HV HM3 HL eq_refl) as HR.
  cbn [rs_heap rs_pointers]. destruct (recover_finish _ _ _ _ _ _ _ _ _ _ _) as [[s save'] vs'].
  destruct HR as (-> & H1 & H2 & H3). exists save', vs'. auto.
Qed.

End Recover.

Lemma last_set_app has value edits1 edits2 old :
  last_set has value (edits1 ++ edits2) old = last_set has value edits2 (last_set has value edits1 old).
Proof. apply fold_left_app. Qed.

Lemma last_set_some has value edits : forall x, exists y, last_set has value edits (Some x) = Some y.
Proof.
  induction edits as [|e edits IH]; intros x; [exists x; reflexivity|]. cbn. unfold set_if at 2. destruct (has e); apply IH.
Qed.

Lemma edits_fit_prefix {U : Comparator} edits1 edits2 j : edits_fit (U := U) (fun _ => []) (edits1 ++ edits2) ->
  edits_fit (U := U) (fun _ => []) (edits1 ++ take j edits2).
Proof.
  intros HF. apply edits_fit_first with (edits2 := drop j edits2). rewrite <- app_assoc, take_drop. exact HF.
Qed.

Lemma manifest_drains {S} {SF : SequentialFile S} {RS : ReliableSequential S} edits1 edits2 out1 out2 o1 o2 :
  Logged 0 (manifest_records edits1) out1 o1 -> Logged o1 (manifest_records edits2) out2 o2 ->
  forall (file : S) m fuel, sf_inv file -> sf_rest file = take m (out1 ++ out2) -> (length out1 <= m)%nat -> (0 < fuel)%nat ->
  Forall (fun rec => (Datatypes.S (length rec) < fuel)%nat) (manifest_records (edits1 ++ edits2)) ->
  exists j, Drains fuel (Reader_new file (Some []) true 0) (manifest_records (edits1 ++ take j edits2)) /\
    ((length (out1 ++ out2) <= m)%nat -> (length edits2 <= j)%nat).
Proof.
  intros HL1 HL2 file m fuel Hf Hr Hm Hfuel0 Hfuel. rewrite map_app in Hfuel.
  destruct (drains_logged 0 _ _ o2 (Logged_app _ _ _ _ _ _ _ HL1 HL2) m fuel (Reader_new file (Some []) true 0)
    (RInv_new file (Some []) true _ Hf Hr) ltac:(cbn; lia) Hfuel Hfuel0
    (manifest_records edits1) out1 o1 (manifest_records edits2) out2) as (j & Hd & Hj); auto.
  exists j. rewrite map_app, <- firstn_map. rewrite length_map in Hj. auto.
Qed.

(** C16. Recovery of the version set: the edits [edits1] and then [edits2] are
    logged to a new manifest.  After a crash that leaves any part of the file
    that covers the records of [edits1], Recover succeeds, and the version set
    holds exactly what the replay of [edits1] and a prefix of [edits2] gives:
    per level the files added and not deleted since, sorted, and the log
    numbers, last sequence and next file number that these edits set last.
    Nothing of [edits1] is lost, all of [edits2] is there when the file is
    whole, and no partial edit is applied. *)
Theorem manifest_recovery : forall U (UOK : ComparatorOk U) comparator_name max_file_size reuse_logs dbname
    E W S (WF : WritableFile W) (SF : SequentialFile S) (RW : ReliableWritable W) (RS : ReliableSequential S)
    (env : @EnvOps E W S) (f0 : W) edits1 edits2 next log seq,
  wf_inv f0 -> wf_contents f0 = [] ->
  Forall (fun e => edit_ok e /\ edit_comparator_ok comparator_name e) (edits1 ++ edits2) ->
  edits_fit (U := U) (fun _ => []) (edits1 ++ edits2) ->
  last_set has_next_file_number_ next_file_number_ edits1 None = Some next ->
  last_set has_log_number_ log_number_ edits1 None = Some log ->
  last_set has_last_sequence_ last_sequence_ edits1 None = Some seq ->
  exists w1 w2,
  AddRecords (Writer_new f0) (manifest_records edits1) = Some w1 /\ AddRecords w1 (manifest_records edits2) = Some w2 /\
  wf_inv (dest_ w2) /\
  forall (e : E) name (file : S) m n fuel save,
  current_names dbname env e name file -> sf_inv file -> sf_rest file = take m (wf_contents (dest_ w2)) ->
  (length (wf_contents (dest_ w1)) <= m)%nat -> (length (edits1 ++ edits2) < n)%nat -> (0 < fuel)%nat ->
  Forall (fun rec => (Datatypes.S (length rec) < fuel)%nat) (manifest_records (edits1 ++ edits2)) ->
  exists j save' vs', let edits := edits1 ++ take j edits2 in
    Recover U comparator_name max_file_size reuse_logs dbname env n fuel (VersionSet_new e) save = Some (OK, save', vs') /\
    holds (U := U) vs' edits /\
    Some (vs_last_sequence vs') = last_set has_last_sequence_ last_sequence_ edits None /\
    Some (vs_next_file_number vs') = (fun k => u64 (k + 1)) <$> last_set has_next_file_number_ next_file_number_ edits None /\
    ((length (wf_contents (dest_ w2)) <= m)%nat -> (length edits2 <= j)%nat).
Proof.
  intros U UOK comparator_name max_file_size reuse_logs dbname E W S WF SF RW RS env f0 edits1 edits2 next log seq
    Hf0 Hc0 HE HFit HN HL HS.
  destruct (AddRecords_ok (manifest_records edits1) (Writer_new f0) (WOk_new f0 Hf0)) as (w1 & out1 & E1 & HW1 & Hc1 & HL1).
  destruct (AddRecords_ok (manifest_records edits2) w1 HW1) as (w2 & out2 & E2 & HW2 & Hc2 & HL2).
  exists w1, w2. split; [exact E1|]. split; [exact E2|]. split; [apply HW2|].
  intros e name file m n fuel save HCur Hf Hr Hm Hn Hfuel0 Hfuel.
  cbn [Writer_new dest_ block_offset_] in *. rewrite Hc0, app_nil_l in Hc1. rewrite Hc1 in Hc2. rewrite Hc2 in *. rewrite Hc1 in *.
  destruct (manifest_drains edits1 edits2 out1 out2 _ _ HL1 HL2 file m fuel Hf Hr Hm Hfuel0 Hfuel) as (j & Hd & Hj).
  destruct (last_set_some has_next_file_number_ next_file_number_ (take j edits2) next) as [next' HN'].
  destruct (last_set_some has_log_number_ log_number_ (take j edits2) log) as [log' HL'].
  destruct (last_set_some has_last_sequence_ last_sequence_ (take j edits2) seq) as [seq' HS'].
  rewrite <- HN, <- last_set_app in HN'. rewrite <- HL, <- last_set_app in HL'. rewrite <- HS, <- last_set_app in HS'.
  destruct (recover_ok comparator_name max_file_size reuse_logs dbname env e name file (edits1 ++ take j edits2) n fuel save
    next' log' seq' HCur Hd) as (save' & vs' & ER & H1 & H2 & H3).
  - rewrite Forall_app in *. destruct HE as [HE1 HE2]. split; [exact HE1|apply Forall_take, HE2].
  - exact (edits_fit_prefix edits1 edits2 j HFit).
  - exact HN'.
  - exact HL'.
  - exact HS'.
  - rewrite !length_app in *. rewrite length_take. lia.
  - exists j, save', vs'. cbv zeta. split; [exact ER|]. split; [exact H1|]. rewrite HS', HN', H2, H3. auto.
Qed.

(** A manifest with a snapshot, a flush, and the two edits of a compaction and a
    move; the environment holds the manifest and a CURRENT file that names it. *)

Definition demo_start : VersionEdit :=
  SetLastSequence 1 (SetNextFile 4 (SetPrevLogNumber 0 (SetLogNumber 3 (SetComparatorName (str "leveldb.BytewiseComparator") VE_Clear)))).

Definition demo_env : @EnvOps FileState FileState SequentialFileImpl :=
  mkEnvOps (fun e _ => (e, (OK, Some FileState_new))) (fun e _ => (e, (OK, Some e))) (fun e _ => (OK, Some (mkSequentialFileImpl e 0)))
    (fun _ _ => (OK, str "MANIFEST-000002" ++ [z2b 10])) (fun e _ => (OK, size_ e)) (fun e _ => e) (fun e _ _ => (e, OK)).

Lemma demo_added edits level : added_at (demo_start :: edits) level = added_at edits level.
Proof. reflexivity. Qed.

Lemma demo_start_fit : edits_fit (U := BytewiseComparator) (fun _ => []) ((demo_start :: demo_edits1) ++ demo_edits2).
Proof.
  apply (edits_fit_incl _ _ _ _ (demo_fit [])); [|intros level a b _ []].
  intros level. rewrite level_metas_new. apply incl_refl.
Qed.

Lemma demo_edits_ok : Forall (fun e => edit_ok e /\ edit_comparator_ok (str "leveldb.BytewiseComparator") e)
  ((demo_start :: demo_edits1) ++ demo_edits2).
Proof.
  repeat (apply Forall_cons; [split; [|intros H; try discriminate H; reflexivity]|]); [..|constructor].
  all: split; cbn; unfold num_ok, file_ok, key_ok, level_ok; cbn; repeat constructor; try (vm_compute; congruence).
Qed.

Lemma manifest_recovery_witness : exists w1 w2 j save' vs',
  AddRecords (Writer_new FileState_new) (manifest_records (demo_start :: demo_edits1)) = Some w1 /\
  AddRecords w1 (manifest_records demo_edits2) = Some w2 /\
  Recover BytewiseComparator (str "leveldb.BytewiseComparator") 2097152 true (str "db") demo_env 5 200 (VersionSet_new (dest_ w2)) false
    = Some (OK, save', vs') /\
  holds (U := BytewiseComparator) vs' ((demo_start :: demo_edits1) ++ take j demo_edits2) /\ (2 <= j)%nat.
Proof.
  destruct (manifest_recovery BytewiseComparator BytewiseComparatorOk (str "leveldb.BytewiseComparator") 2097152 true (str "db")
    FileState FileState SequentialFileImpl MemWritable MemSequential MemReliableWritable MemReliableSequential demo_env FileState_new
    (demo_start :: demo_edits1) demo_edits2 4 3 1 FSInv_new eq_refl demo_edits_ok demo_start_fit eq_refl eq_refl eq_refl)
    as (w1 & w2 & E1 & E2 & HI & H).
  destruct (H (dest_ w2) (str "MANIFEST-000002") (mkSequentialFileImpl (dest_ w2) 0)
    (length (wf_contents (dest_ w2) ++ wf_contents (dest_ w1))) 5%nat 200%nat false) as (j & save' & vs' & ER & HH & _ & _ & Hj).
  - split; reflexivity.
  - split; [exact HI|]. cbn. pose proof (FS_contents_size _ HI). pose proof (sz_nonneg (FS_contents (dest_ w2))). lia.
  - cbn. rewrite drop_0, take_ge; [reflexivity|]. cbn. rewrite length_app. lia.
  - rewrite length_app. lia.
  - cbn. lia.
  - lia.
  - repeat (apply Forall_cons; [vm_compute; lia|]). constructor.
  - exists w1, w2, j, save', vs'. split; [exact E1|]. split; [exact E2|]. split; [exact ER|]. split; [exact HH|].
    apply Hj. rewrite length_app. lia.
Defined.
