(* ===== verification/ApplyEdit.v ===== *)
(** * Applying an edit (db/version_set.cc: LogAndApply, WriteSnapshot)

    LogAndApply keeps the manifest in step with the version set: after it
    returns OK the manifest recovers to the version set as it is in memory.  When
    it fails, versions, counters and reference counts are as before.  Versions
    and the files they share are counted: a version that somebody holds stays
    as it is, with its files, until the holder lets go of it. *)

From S2P Require Import Prelude Coding Compare DbFormat Logging FileName Env Log Iterator VersionEdit Version Compaction VersionSet VersionBuild Manifest.
#[local] Open Scope Z_scope.
#[local] Open Scope ldb_scope.

(** ** The snapshot *)

Section Snapshot.
Context (comparator_name : bytes) {E W : Type}.

Definition file_item (h : FileHeap) (level : nat) (p : nat) : item :=
  let f := deref h p in INewFile (Z.of_nat level) (f_number f) (f_file_size f) (f_smallest f) (f_largest f).

Definition pointer_items (cp : list bytes) (level : nat) : list item :=
  match default [] (cp !! level) with [] => [] | key => [ICompactPointer (Z.of_nat level) key] end.

Definition snapshot_items (vs : @VersionSet E W) : list item :=
  IComparator comparator_name :: concat (map (pointer_items (vs_compact_pointer vs)) (List.seq 0 kNumLevels)) ++
  concat (map (fun level => map (file_item (vs_heap vs) level) (files_at (current vs) level)) (List.seq 0 kNumLevels)).

Lemma fold_concat {A B C} (step : C -> A -> C) (g : B -> list A) (f : C -> B -> C) l :
  (forall c b, f c b = fold_left step (g b) c) -> forall c, fold_left f l c = fold_left step (concat (map g l)) c.
Proof.
  intros H. induction l as [|b l IH]; intros c; [reflexivity|]. cbn. rewrite fold_left_app, <- H. apply IH.
Qed.

Lemma snapshot_edit_items (vs : @VersionSet E W) : snapshot_edit comparator_name vs = fold_left item_apply (snapshot_items vs) VE_Clear.
Proof.
  unfold snapshot_edit, snapshot_items. cbn [fold_left]. rewrite fold_left_app.
  rewrite (fold_concat item_apply (fun level => map (file_item (vs_heap vs) level) (files_at (current vs) level))).
  - f_equal. apply (fold_concat item_apply (pointer_items (vs_compact_pointer vs))). intros e level. unfold pointer_items.
    destruct (default [] (vs_compact_pointer vs !! level)); reflexivity.
  - intros e level. induction (files_at (current vs) level) as [|p ps IH] in e |- *; [reflexivity|]. cbn. apply IH.
Qed.

(** What can be written: numbers and keys that an edit can hold. *)

Record writable (vs : @VersionSet E W) : Prop := {
  wr_name : sz comparator_name < 2 ^ 32;
  wr_pointers : Forall (fun k => k = [] \/ key_ok k) (vs_compact_pointer vs);
  wr_files : forall level f, In f (current_level vs level) ->
    num_ok (f_number f) /\ num_ok (f_file_size f) /\ key_ok (f_smallest f) /\ key_ok (f_largest f)
}.

Lemma items_ok_edit its : Forall item_ok its -> forall e, edit_ok e -> edit_ok (fold_left item_apply its e).
Proof. induction 1 as [|i its Hi HF IH]; intros e He; cbn; [exact He|]. apply IH, item_apply_ok; assumption. Qed.

Lemma level_seq level : In level (List.seq 0 kNumLevels) -> level_ok (Z.of_nat level).
Proof. intros H. apply in_seq in H. unfold level_ok. lia. Qed.

Lemma snapshot_edit_ok (vs : @VersionSet E W) : writable vs -> edit_ok (snapshot_edit comparator_name vs).
Proof.
  intros [HN HP HF]. rewrite snapshot_edit_items. apply items_ok_edit; [|exact VE_Clear_ok].
  constructor; [exact HN|]. apply Forall_app. split; apply List.Forall_forall; intros i Hi;
    apply in_concat in Hi as (l & Hl & Hi); apply in_map_iff in Hl as (level & <- & Hl); apply level_seq in Hl.
  - unfold pointer_items in Hi. destruct (vs_compact_pointer vs !! level) as [key|] eqn:Ek; cbn in Hi; [|destruct Hi].
    rewrite list.Forall_lookup in HP. destruct (HP level key Ek) as [->|Hk]; [destruct Hi|].
    destruct key; [destruct Hi|]. destruct Hi as [<-|[]]. split; assumption.
  - apply in_map_iff in Hi as (p & <- & Hp). split; [exact Hl|].
    apply (HF level (meta (deref (vs_heap vs) p))). unfold current_level, level_metas, metas.
    exact (in_map (fun p => meta (deref (vs_heap vs) p)) _ _ Hp).
Qed.

(** The files of the snapshot are the files of the current version. *)

Lemma snapshot_fields its : forall e, (forall i, In i its -> match i with ICompactPointer _ _ | INewFile _ _ _ _ _ => True | _ => False end) ->
  let e' := fold_left item_apply its e in
  has_comparator_ e' = has_comparator_ e /\ comparator_ e' = comparator_ e /\ deleted_files_ e' = deleted_files_ e /\
  has_log_number_ e' = has_log_number_ e /\ has_prev_log_number_ e' = has_prev_log_number_ e /\
  has_next_file_number_ e' = has_next_file_number_ e /\ has_last_sequence_ e' = has_last_sequence_ e /\
  new_files_ e' = new_files_ e ++ concat (map (fun i => match i with INewFile l n s a b => [(l, new_file n s a b)] | _ => [] end) its).
Proof.
  induction its as [|i its IH]; intros e Hi; cbn [fold_left map concat]; [rewrite app_nil_r; repeat split|].
  specialize (IH (item_apply e i) (fun j Hj => Hi j (or_intror Hj))). specialize (Hi i (or_introl eq_refl)). cbv zeta in *.
  destruct i; destruct Hi; cbn in IH |- *; destruct IH as (-> & -> & -> & -> & -> & -> & -> & ->); repeat split;
    rewrite <- ?app_assoc; reflexivity.
Qed.

Definition new_entry (h : FileHeap) (level p : nat) : Z * FileMetaData :=
  let f := deref h p in (Z.of_nat level, new_file (f_number f) (f_file_size f) (f_smallest f) (f_largest f)).

Lemma new_files_of_pointers cp levels : concat (map (fun i => match i with INewFile l n s a b => [(l, new_file n s a b)] | _ => [] end)
  (concat (map (pointer_items cp) levels))) = [].
Proof.
  induction levels as [|level levels IH]; [reflexivity|]. cbn. rewrite map_app, concat_app, IH, app_nil_r.
  unfold pointer_items. destruct (default [] (cp !! level)); reflexivity.
Qed.

Lemma new_files_of_files h (files : nat -> list nat) levels :
  concat (map (fun i => match i with INewFile l n s a b => [(l, new_file n s a b)] | _ => [] end)
    (concat (map (fun level => map (file_item h level) (files level)) levels))) =
  concat (map (fun level => map (new_entry h level) (files level)) levels).
Proof.
  induction levels as [|level levels IH]; [reflexivity|]. cbn. rewrite map_app, concat_app, IH. f_equal.
  induction (files level) as [|p ps IHp]; [reflexivity|]. cbn. rewrite IHp. reflexivity.
Qed.

Lemma snapshot_shape (vs : @VersionSet E W) : let s := snapshot_edit comparator_name vs in
  comparator_ s = comparator_name /\ deleted_files_ s = [] /\ has_log_number_ s = false /\ has_prev_log_number_ s = false /\
  has_next_file_number_ s = false /\ has_last_sequence_ s = false /\
  new_files_ s = concat (map (fun level => map (new_entry (vs_heap vs) level) (files_at (current vs) level)) (List.seq 0 kNumLevels)).
Proof.
  cbv zeta. rewrite snapshot_edit_items. unfold snapshot_items. cbn [fold_left].
  destruct (snapshot_fields (concat (map (pointer_items (vs_compact_pointer vs)) (List.seq 0 kNumLevels)) ++
    concat (map (fun level => map (file_item (vs_heap vs) level) (files_at (current vs) level)) (List.seq 0 kNumLevels)))
    (item_apply VE_Clear (IComparator comparator_name))) as (_ & -> & -> & -> & -> & -> & -> & ->).
  - intros i Hi. apply in_app_or in Hi as [Hi|Hi]; apply in_concat in Hi as (l & Hl & Hi); apply in_map_iff in Hl as (level & <- & _).
    + unfold pointer_items in Hi. destruct (default [] (vs_compact_pointer vs !! level)); [destruct Hi|destruct Hi as [<-|[]]; exact I].
    + apply in_map_iff in Hi as (p & <- & _). exact I.
  - do 6 (split; [reflexivity|]). rewrite map_app, concat_app, new_files_of_pointers, new_files_of_files. reflexivity.
Qed.

Lemma filter_level h ps level l :
  List.filter (fun nf => (Z.to_nat (fst nf) =? level)%nat) (map (new_entry h l) ps) =
  if (l =? level)%nat then map (new_entry h l) ps else [].
Proof.
  induction ps as [|p ps IH]; cbn; [destruct (l =? level)%nat; reflexivity|]. rewrite Nat2Z.id.
  destruct (l =? level)%nat; rewrite IH; reflexivity.
Qed.

Lemma filter_levels_none h (files : nat -> list nat) level levels : ~ In level levels ->
  List.filter (fun nf => (Z.to_nat (fst nf) =? level)%nat) (concat (map (fun l => map (new_entry h l) (files l)) levels)) = [].
Proof.
  induction levels as [|l ls IH]; intros Hn; [reflexivity|]. cbn. rewrite filter_app, filter_level, IH by (cbn in Hn; tauto).
  destruct (Nat.eqb_spec l level); [cbn in Hn; tauto|reflexivity].
Qed.

Lemma filter_levels h (files : nat -> list nat) level levels : NoDup levels -> In level levels ->
  List.filter (fun nf => (Z.to_nat (fst nf) =? level)%nat) (concat (map (fun l => map (new_entry h l) (files l)) levels)) =
  map (new_entry h level) (files level).
Proof.
  induction levels as [|l levels IH]; intros ND Hin; [destruct Hin|]. apply list.NoDup_cons in ND as [Hl ND].
  rewrite list_elem_of_In in Hl. cbn. rewrite filter_app, filter_level. destruct (Nat.eqb_spec l level) as [->|Hne].
  - rewrite filter_levels_none by exact Hl. apply app_nil_r.
  - destruct Hin as [?|Hin]; [contradiction|]. apply IH; assumption.
Qed.

Lemma snapshot_new_at (vs : @VersionSet E W) level : length (v_files (current vs)) = kNumLevels ->
  new_at (snapshot_edit comparator_name vs) level = current_level vs level.
Proof.
  intros Hlen. unfold new_at. destruct (snapshot_shape vs) as (_ & _ & _ & _ & _ & _ & ->).
  destruct (decide (level < kNumLevels)%nat) as [Hl|Hl].
  - rewrite filter_levels; [|apply NoDup_ListNoDup, seq_NoDup|apply in_seq; lia]. rewrite map_map. reflexivity.
  - rewrite filter_levels_none by (rewrite in_seq; lia). unfold current_level, level_metas, files_at.
    rewrite lookup_ge_None_2 by lia. reflexivity.
Qed.

Lemma snapshot_deleted_at (vs : @VersionSet E W) level : deleted_at (snapshot_edit comparator_name vs) level = [].
Proof. unfold deleted_at. destruct (snapshot_shape vs) as (_ & -> & _). reflexivity. Qed.

End Snapshot.

(** ** In step with the manifest *)

Section Tracking.
Context {U : Comparator} {UOK : ComparatorOk U} (comparator_name : bytes) (dbname : bytes).
Context {E W S : Type} {WF : WritableFile W} {RW : ReliableWritable W} (env : @EnvOps E W S).

(** The manifest holds the records of [edits], and the version set is what they say. *)

Record tracks (vs : @VersionSet E W) (edits : list VersionEdit) (w : Writer W) : Prop := {
  tk_holds : holds (U := U) vs edits;
  tk_edits : Forall (fun e => edit_ok e /\ edit_comparator_ok comparator_name e) edits;
  tk_fit : edits_fit (U := U) (fun _ => []) edits;
  tk_log : last_set has_log_number_ log_number_ edits None <> None;
  tk_next : last_set has_next_file_number_ next_file_number_ edits None <> None;
  tk_seq : last_set has_last_sequence_ last_sequence_ edits None <> None;
  tk_writer : vs_descriptor_log vs = Some w /\ WOk w;
  tk_logged : Logged 0 (manifest_records edits) (wf_contents (dest_ w)) (block_offset_ w)
}.

(** An environment in which files can be made and CURRENT can be set. *)

Record env_reliable : Prop := {
  er_writable : forall e name, exists e' f, env_NewWritableFile env e name = (e', (OK, Some f)) /\ wf_inv f /\ wf_contents f = [];
  er_current : forall e k, snd (env_SetCurrentFile env e dbname k) = OK
}.

(** The record of an edit, synced, follows the others. *)

Lemma log_edit_ok (vs : @VersionSet E W) w edits e : vs_descriptor_log vs = Some w -> WOk w ->
  Logged 0 (manifest_records edits) (wf_contents (dest_ w)) (block_offset_ w) ->
  exists w', log_edit vs e = Some (OK, with_descriptor vs (vs_env vs) (Some w')) /\ WOk w' /\
    Logged 0 (manifest_records (edits ++ [e])) (wf_contents (dest_ w')) (block_offset_ w').
Proof.
  intros Hd HW HL. unfold log_edit. rewrite Hd.
  destruct (AddRecord_ok w (VE_EncodeTo e []) HW) as (w1 & out & -> & HW1 & Hc & He). cbn [ok OK].
  destruct (wf_sync_ok (dest_ w1) (w_file _ HW1)) as (f & -> & Hf & Hc'). eexists. split; [reflexivity|].
  split; [destruct HW1; split; assumption|]. cbn [dest_ block_offset_]. rewrite Hc', Hc, map_app.
  apply (Logged_app _ _ _ _ _ _ _ HL). cbn. rewrite <- (app_nil_r out). econstructor; [exact He|constructor].
Qed.

(** A new manifest starts with the snapshot. *)

Lemma open_manifest_ok (vs : @VersionSet E W) : env_reliable -> vs_descriptor_log vs = None ->
  exists e w, open_manifest comparator_name dbname env vs =
      Some (OK, DescriptorFileName dbname (vs_manifest_file_number vs), with_descriptor vs e (Some w)) /\ WOk w /\
    Logged 0 (manifest_records [snapshot_edit comparator_name vs]) (wf_contents (dest_ w)) (block_offset_ w).
Proof.
  intros HE Hd. unfold open_manifest. rewrite Hd.
  destruct (er_writable HE (vs_env vs) (DescriptorFileName dbname (vs_manifest_file_number vs))) as (e & f & -> & Hf & Hc). cbn [ok OK].
  unfold WriteSnapshot. destruct (AddRecord_ok (Writer_new f) (VE_EncodeTo (snapshot_edit comparator_name vs) []) (WOk_new f Hf))
    as (w & out & -> & HW & Hc1 & He). exists e, w. split; [reflexivity|]. split; [exact HW|].
  rewrite Hc1. cbn [Writer_new dest_]. rewrite Hc. cbn. rewrite <- (app_nil_r out). econstructor; [exact He|constructor].
Qed.

Lemma build_version_run (vs : @VersionSet E W) e :
  build_version U vs e = (let '(h, cp, v) := Builder_run (U := U) (vs_heap vs) (vs_compact_pointer vs) (current vs) [e] in
                          (with_heap vs h cp, Finalize h v)).
Proof.
  unfold build_version, Builder_run. cbn [Builder_ApplyAll]. destruct (Builder_Apply U _ _ _ e) as [[h cp] levels].
  destruct (Builder_SaveTo U h levels (current vs)) as [h2 v]. reflexivity.
Qed.

(** The new version becomes current. *)

Definition installed (vs : @VersionSet E W) (h : FileHeap) (cp : list bytes) (en : E) (w : Writer W) (v : Version nat) (e : VersionEdit)
  : @VersionSet E W :=
  let vs := AppendVersion (with_descriptor (with_heap vs h cp) en (Some w)) v in
  with_numbers vs (vs_next_file_number vs) (vs_manifest_file_number vs) (vs_last_sequence vs) (log_number_ e) (prev_log_number_ e).

Lemma installed_ok (vs : @VersionSet E W) h cp en w v e edits : ids_ok vs -> version_files_ok (U := U) h v ->
  (forall level, (level < kNumLevels)%nat -> forall f, In f (level_metas h v level) <-> replay edits level f) ->
  last_set has_log_number_ log_number_ edits None = Some (log_number_ e) ->
  last_set has_prev_log_number_ prev_log_number_ edits None = Some (prev_log_number_ e) ->
  let vs' := installed vs h cp en w (Finalize h v) e in
  holds (U := U) vs' edits /\ vs_descriptor_log vs' = Some w /\ vs_last_sequence vs' = vs_last_sequence vs /\
  vs_next_file_number vs' = vs_next_file_number vs.
Proof.
  intros Hids HV HM HL HP. unfold installed. set (vs1 := with_descriptor (with_heap vs h cp) en (Some w)).
  destruct (AppendVersion_ok vs1 (Finalize h v) Hids) as (I1 & I2 & I3 & _).
  destruct (AppendVersion_rest vs1 (Finalize h v)) as (_ & R1 & _ & R2 & R3 & _). set (vs2 := AppendVersion vs1 (Finalize h v)) in *. clearbody vs2.
  cbv zeta. split; [|cbn; rewrite R1, R2, R3; repeat split]. change (vs_heap vs1) with h in I3.
  assert (EC : forall a b c d k, current (with_numbers vs2 a b c d k) = Finalize h v) by (intros; exact I2).
  split.
  - exact I1.
  - rewrite EC. cbn [vs_heap with_numbers]. apply (version_files_ok_ext h); [exact I3|].
    apply (version_files_ok_files h _ v); [apply Finalize_files|exact HV].
  - intros level Hl f. unfold current_level. rewrite EC. cbn [vs_heap with_numbers].
    rewrite (level_metas_ext h), (level_metas_files h (Finalize h v) v) by (try exact I3; try apply Finalize_files;
      rewrite Finalize_files; apply HV). exact (HM level Hl f).
  - cbn. rewrite HL. reflexivity.
  - cbn. rewrite HP. reflexivity.
Qed.

Lemma fill_edit_fields (vs : @VersionSet E W) edit : let e := fill_edit vs edit in
  has_log_number_ e = true /\ has_prev_log_number_ e = true /\ has_next_file_number_ e = true /\ has_last_sequence_ e = true /\
  next_file_number_ e = vs_next_file_number vs /\ last_sequence_ e = vs_last_sequence vs.
Proof.
  unfold fill_edit. cbv zeta. destruct (has_log_number_ edit) eqn:E1; cbn; destruct (has_prev_log_number_ edit) eqn:E2; cbn;
    rewrite ?E1, ?E2; repeat split.
Qed.

Lemma DescriptorFileName_nonempty k : exists b l, DescriptorFileName dbname k = b :: l.
Proof. unfold DescriptorFileName. destruct dbname as [|b l]; cbn [app]; eexists _, _; reflexivity. Qed.

(** LogAndApply on a manifest that is open, and on a new one. *)

Lemma log_and_apply_open (vs : @VersionSet E W) w edits edit h cp v : let e := fill_edit vs edit in
  vs_descriptor_log vs = Some w -> WOk w -> Logged 0 (manifest_records edits) (wf_contents (dest_ w)) (block_offset_ w) ->
  build_version U vs e = (with_heap vs h cp, v) ->
  exists w', LogAndApply U comparator_name dbname env vs edit = Some (OK, e, installed vs h cp (vs_env vs) w' v e) /\ WOk w' /\
    Logged 0 (manifest_records (edits ++ [e])) (wf_contents (dest_ w')) (block_offset_ w').
Proof.
  intros e Hd HW HL HB. unfold LogAndApply. fold e. rewrite HB. unfold open_manifest. cbn [vs_descriptor_log with_heap]. rewrite Hd. cbn [ok OK].
  destruct (log_edit_ok (with_heap vs h cp) w edits e Hd HW HL) as (w' & -> & HW' & HL'). exists w'. cbn [ok OK].
  split; [reflexivity|]. split; assumption.
Qed.

Lemma log_and_apply_new (vs : @VersionSet E W) edit h cp v : let e := fill_edit vs edit in
  env_reliable -> vs_descriptor_log vs = None -> build_version U vs e = (with_heap vs h cp, v) ->
  let snap := snapshot_edit comparator_name (with_heap vs h cp) in
  exists en w', LogAndApply U comparator_name dbname env vs edit = Some (OK, e, installed vs h cp en w' v e) /\ WOk w' /\
    Logged 0 (manifest_records ([snap] ++ [e])) (wf_contents (dest_ w')) (block_offset_ w').
Proof.
  intros e HE Hd HB snap. unfold LogAndApply. fold e. rewrite HB.
  destruct (open_manifest_ok (with_heap vs h cp) HE Hd) as (en & w & -> & HW & HL). cbn [ok OK].
  destruct (log_edit_ok (with_descriptor (with_heap vs h cp) en (Some w)) w [snap] e eq_refl HW HL) as (w' & -> & HW' & HL').
  cbn [ok OK]. destruct (DescriptorFileName_nonempty (vs_manifest_file_number (with_heap vs h cp))) as (b & l & ->).
  cbn [vs_env with_descriptor vs_manifest_file_number with_heap vs_descriptor_log].
  destruct (env_SetCurrentFile env en dbname (vs_manifest_file_number vs)) as [en' s] eqn:Es.
  pose proof (er_current HE en (vs_manifest_file_number vs)) as Hs. rewrite Es in Hs. cbn [snd] in Hs. subst s. cbn [ok OK].
  exists en', w'. split; [reflexivity|]. split; assumption.
Qed.

(** Where LogAndApply starts: the manifest is open and in step, or there is none yet. *)

Inductive manifest_state (vs : @VersionSet E W) : list VersionEdit -> Prop :=
| ms_open edits w : tracks vs edits w -> manifest_state vs edits
| ms_none : vs_descriptor_log vs = None -> ids_ok vs -> version_files_ok (U := U) (vs_heap vs) (current vs) ->
    writable comparator_name vs -> manifest_state vs [].

(** An edit that can be written and whose files are new. *)

Record admissible (vs : @VersionSet E W) (edits : list VersionEdit) (e : VersionEdit) : Prop := {
  ad_ok : edit_ok e;
  ad_name : edit_comparator_ok comparator_name e;
  ad_fit : edits_fit (U := U) (current_level vs) [e];
  ad_fit_all : edits_fit (U := U) (fun _ => []) (edits ++ [e]);
  ad_apart : edits_apart edits [e]
}.

Lemma apply_pointers_ok ps : Forall (fun p => level_ok (fst p) /\ key_ok (snd p)) ps -> forall cp,
  Forall (fun k => k = [] \/ key_ok k) cp -> Forall (fun k => k = [] \/ key_ok k) (fold_left apply_pointer ps cp).
Proof.
  induction 1 as [|[l k] ps [_ Hk] HF IH]; intros cp Hcp; cbn; [exact Hcp|]. apply IH. apply Forall_insert; [exact Hcp|auto].
Qed.

Lemma Builder_run_pointers h cp base e : snd (fst (Builder_run (U := U) h cp base [e])) = fold_left apply_pointer (compact_pointers_ e) cp.
Proof.
  unfold Builder_run. cbn [Builder_ApplyAll]. unfold Builder_Apply.
  destruct (fold_left (apply_new U) (new_files_ e) _) as [h1 levels]. destruct (Builder_SaveTo U h1 levels base) as [h2 v]. reflexivity.
Qed.

Lemma writable_built (vs : @VersionSet E W) e h cp : writable comparator_name vs -> edit_ok e ->
  version_files_ok (U := U) (vs_heap vs) (current vs) -> heap_ext (vs_heap vs) h ->
  cp = fold_left apply_pointer (compact_pointers_ e) (vs_compact_pointer vs) -> writable comparator_name (with_heap vs h cp).
Proof.
  intros [HN HP HF] He HV HE ->. split.
  - exact HN.
  - apply apply_pointers_ok; [apply He|exact HP].
  - intros level f Hf. apply (HF level). unfold current_level in *. change (current (with_heap vs h _)) with (current vs) in Hf.
    cbn [vs_heap with_heap] in Hf. rewrite (level_metas_ext (vs_heap vs)) in Hf by (try exact HE; apply HV). exact Hf.
Qed.

Lemma last_set_snoc has value edits e old : has e = true -> last_set has value (edits ++ [e]) old = Some (value e).
Proof. intros H. rewrite last_set_app. cbn. unfold set_if. rewrite H. reflexivity. Qed.

Lemma replay_snoc edits e level f : replay (edits ++ [e]) level f <-> edit_sets (replay edits) e level f.
Proof. unfold replay. rewrite fold_left_app. reflexivity. Qed.

Lemma tracks_installed (vs : @VersionSet E W) edit edits h cp en w v : let e := fill_edit vs edit in
  ids_ok vs -> version_files_ok (U := U) h v ->
  (forall level, (level < kNumLevels)%nat -> forall f, In f (level_metas h v level) <-> replay (edits ++ [e]) level f) ->
  Forall (fun e => edit_ok e /\ edit_comparator_ok comparator_name e) (edits ++ [e]) ->
  edits_fit (U := U) (fun _ => []) (edits ++ [e]) -> WOk w ->
  Logged 0 (manifest_records (edits ++ [e])) (wf_contents (dest_ w)) (block_offset_ w) ->
  let vs' := installed vs h cp en w (Finalize h v) e in
  tracks vs' (edits ++ [e]) w /\ Some (vs_last_sequence vs') = last_set has_last_sequence_ last_sequence_ (edits ++ [e]) None /\
  Some (vs_next_file_number vs') = last_set has_next_file_number_ next_file_number_ (edits ++ [e]) None.
Proof.
  intros e Hids HV HM HE HF HW HL. destruct (fill_edit_fields vs edit) as (F1 & F2 & F3 & F4 & F5 & F6). fold e in F1, F2, F3, F4, F5, F6.
  destruct (installed_ok vs h cp en w v e (edits ++ [e]) Hids HV HM) as (H1 & H2 & H3 & H4); [apply last_set_snoc; assumption..|].
  cbv zeta. rewrite H3, H4, !last_set_snoc, F5, F6 by assumption. split; [|auto].
  split; try assumption; try (rewrite last_set_snoc by assumption; discriminate). auto.
Qed.

Lemma log_and_apply_tracks (vs : @VersionSet E W) edits edit : let e := fill_edit vs edit in
  env_reliable -> manifest_state vs edits -> admissible vs edits e ->
  exists vs' edits' w, LogAndApply U comparator_name dbname env vs edit = Some (OK, e, vs') /\ tracks vs' (edits' ++ [e]) w /\
    (forall level, (level < kNumLevels)%nat -> forall f, replay edits' level f <-> In f (current_level vs level)) /\
    Some (vs_last_sequence vs') = last_set has_last_sequence_ last_sequence_ (edits' ++ [e]) None /\
    Some (vs_next_file_number vs') = last_set has_next_file_number_ next_file_number_ (edits' ++ [e]) None.
Proof.
  intros e HR HS [HEe HEn HF HFa HA].
  assert (HH : ids_ok vs /\ version_files_ok (U := U) (vs_heap vs) (current vs)) by (destruct HS as [? ? [[]]|]; split; assumption).
  destruct HH as [Hids HV]. pose proof (Builder_run_ok (vs_heap vs) (vs_compact_pointer vs) (current vs) [e] HV HF) as HB.
  pose proof (Builder_run_pointers (vs_heap vs) (vs_compact_pointer vs) (current vs) e) as HP.
  pose proof (build_version_run vs e) as ER. destruct (Builder_run _ _ _ [e]) as [[h cp] v]. cbn [fst snd] in HP.
  destruct HB as (HX & HV' & HM).
  destruct HS as [edits w HT|Hd _ _ Hwr].
  - destruct (tk_writer _ _ _ HT) as [Hd HW].
    destruct (log_and_apply_open vs w edits edit h cp (Finalize h v) Hd HW (tk_logged _ _ _ HT) ER) as (w' & EL & HW' & HL').
    destruct (tracks_installed vs edit edits h cp (vs_env vs) w' v Hids HV') as (T1 & T2 & T3); [| |exact HFa|exact HW'|exact HL'|].
    + intros level Hl f. rewrite (HM level Hl f), replay_snoc. apply (edit_sets_ext [_] level). intros g. apply (ho_sets _ _ (tk_holds _ _ _ HT) level Hl).
    + apply Forall_app. split; [exact (tk_edits _ _ _ HT)|]. constructor; [split; assumption|constructor].
    + eexists _, edits, w'. split; [exact EL|]. split; [exact T1|]. split; [|split; assumption].
      intros level Hl f. symmetry. apply (ho_sets _ _ (tk_holds _ _ _ HT) level Hl).
  - destruct (log_and_apply_new vs edit h cp (Finalize h v) HR Hd ER) as (en & w' & EL & HW' & HL').
    set (snap := snapshot_edit comparator_name (with_heap vs h cp)) in *.
    assert (HLv : forall level, current_level (with_heap vs h cp) level = current_level vs level).
    { intros level. apply (level_metas_ext (vs_heap vs)); [exact HX|apply HV]. }
    assert (HNew : forall level, new_at snap level = current_level vs level).
    { intros level. unfold snap. rewrite snapshot_new_at by apply HV. apply HLv. }
    assert (HSn : forall level f, replay [snap] level f <-> In f (current_level vs level)).
    { intros level f. unfold replay, edit_sets. cbn [fold_left]. rewrite HNew. tauto. }
    destruct (tracks_installed vs edit [snap] h cp en w' v Hids HV') as (T1 & T2 & T3); [| | |exact HW'|exact HL'|].
    + intros level Hl f. rewrite (HM level Hl f), replay_snoc. apply (edit_sets_ext [_] level). intros g. symmetry. apply HSn.
    + constructor; [|constructor; [split; assumption|constructor]]. split.
      * apply snapshot_edit_ok. exact (writable_built vs e h cp Hwr HEe HV HX HP).
      * intros _. apply snapshot_shape.
    + apply (edits_fit_incl _ _ _ _ HF); [|intros level a b _ []]. intros level. cbn [app]. unfold added_at. cbn [map concat].
      rewrite HNew. apply incl_refl.
    + eexists _, [snap], w'. split; [exact EL|]. split; [exact T1|]. split; [|split; assumption]. intros level _. apply HSn.
Qed.

End Tracking.

(** A manifest in step recovers to the version set as it is. *)

Lemma tracks_recover {U : Comparator} {UOK : ComparatorOk U} comparator_name max_file_size reuse_logs dbname {E W S : Type}
    {WF : WritableFile W} {RW : ReliableWritable W} {SF : SequentialFile S} {RS : ReliableSequential S} (env : @EnvOps E W S)
    (vs : @VersionSet E W) edits w (e : E) name (file : S) n fuel save seq next :
  tracks (U := U) comparator_name vs edits w ->
  last_set has_last_sequence_ last_sequence_ edits None = Some seq ->
  last_set has_next_file_number_ next_file_number_ edits None = Some next ->
  current_names dbname env e name file -> sf_inv file -> sf_rest file = wf_contents (dest_ w) ->
  (length edits < n)%nat -> (0 < fuel)%nat -> Forall (fun rec => (Datatypes.S (length rec) < fuel)%nat) (manifest_records edits) ->
  exists save' vs', Recover U comparator_name max_file_size reuse_logs dbname env n fuel (VersionSet_new e) save = Some (OK, save', vs') /\
    (forall level, current_level vs' level = current_level vs level) /\ vs_log_number vs' = vs_log_number vs /\
    vs_prev_log_number vs' = vs_prev_log_number vs /\ vs_last_sequence vs' = seq /\ vs_next_file_number vs' = u64 (next + 1).
Proof.
  intros [HH HE HF HL HN HS _ HLog] Es En HC Hf Hr Hn Hfu Hfuel.
  destruct (last_set has_log_number_ log_number_ edits None) as [log|] eqn:El; [|congruence].
  destruct (manifest_drains edits [] (wf_contents (dest_ w)) [] _ _ HLog (Logged_nil _) file (length (wf_contents (dest_ w))) fuel Hf)
    as (j & Hd & _); [rewrite app_nil_r, take_ge by lia; exact Hr|lia|exact Hfu|rewrite app_nil_r; exact Hfuel|].
  rewrite take_nil, app_nil_r in Hd.
  destruct (recover_ok comparator_name max_file_size reuse_logs dbname env e name file edits n fuel save next log seq HC Hd HE HF En El Es Hn)
    as (save' & vs' & ER & [I1 I2 I3 I4 I5] & H2 & H3). destruct HH as [J1 J2 J3 J4 J5].
  exists save', vs'. split; [exact ER|]. split; [|repeat split; congruence]. apply same_levels; [exact I2|exact J2| |].
  - intros level. apply List.Forall_forall. intros f Hf'. destruct (decide (level < kNumLevels)%nat) as [Hl|Hl].
    + apply (I3 level Hl) in Hf'. apply edits_from in Hf' as [[]|Hf'].
      pose proof (ef_keys _ _ HF level) as HK. rewrite List.Forall_forall in HK. apply HK, Hf'.
    + unfold level_metas, files_at in Hf'. rewrite lookup_ge_None_2 in Hf' by (rewrite (vf_levels _ _ I2); lia). destruct Hf'.
  - intros level Hl f. fold (current_level vs level). fold (current_level vs' level). rewrite (I3 level Hl), (J3 level Hl). reflexivity.
Qed.

(** ** Properties *)

(** C15. LogAndApply keeps the manifest in step with the version set.  On files
    that keep what is written to them, with an open manifest that is in step or
    with none yet (then a new one is started with a snapshot), an edit whose
    files are new to their levels is applied: LogAndApply returns OK, the levels
    of the current version lose the deleted and gain the added files, and
    recovering from the manifest as it is now, in a new version set, gives the
    same lists of files in every level, the same log numbers and last sequence,
    and a next file number above the one in use.  The state reached is in step
    again, so this holds for every sequence of edits. *)
Theorem log_and_apply_durable : forall U (UOK : ComparatorOk U) comparator_name max_file_size reuse_logs dbname E W S
    (WF : WritableFile W) (RW : ReliableWritable W) (SF : SequentialFile S) (RS : ReliableSequential S) (env : @EnvOps E W S)
    (vs : @VersionSet E W) edits edit, let e := fill_edit vs edit in
  env_reliable dbname env -> manifest_state (U := U) comparator_name vs edits -> admissible (U := U) comparator_name vs edits e ->
  exists vs' edits' w, LogAndApply U comparator_name dbname env vs edit = Some (OK, e, vs') /\
    tracks (U := U) comparator_name vs' edits' w /\
    (forall level, (level < kNumLevels)%nat -> forall f,
       In f (current_level vs' level) <-> edit_sets (fun l f => In f (current_level vs l)) e level f) /\
    forall e2 name (file : S) n fuel save, current_names dbname env e2 name file -> sf_inv file ->
    sf_rest file = wf_contents (dest_ w) -> (length edits' < n)%nat -> (0 < fuel)%nat ->
    Forall (fun rec => (Datatypes.S (length rec) < fuel)%nat) (manifest_records edits') ->
    exists save' vs2,
      Recover U comparator_name max_file_size reuse_logs dbname env n fuel (VersionSet_new e2) save = Some (OK, save', vs2) /\
      (forall level, current_level vs2 level = current_level vs' level) /\ vs_log_number vs2 = vs_log_number vs' /\
      vs_prev_log_number vs2 = vs_prev_log_number vs' /\ vs_last_sequence vs2 = vs_last_sequence vs' /\
      vs_next_file_number vs2 = u64 (vs_next_file_number vs' + 1).
Proof.
  intros U UOK comparator_name max_file_size reuse_logs dbname E W S WF RW SF RS env vs edits edit e HR HS HA.
  destruct (log_and_apply_tracks comparator_name dbname env vs edits edit HR HS HA) as (vs' & edits' & w & EL & HT & HM & Hs & Hn).
  fold e in EL, HT, Hs, Hn. exists vs', (edits' ++ [e]), w. split; [exact EL|]. split; [exact HT|]. split.
  - intros level Hl f. rewrite (ho_sets _ _ (tk_holds _ _ _ _ HT) level Hl), replay_snoc. apply (edit_sets_ext [_] level). apply HM, Hl.
  - intros e2 name file n fuel save HC Hf Hr Hlt Hfu Hfuel. symmetry in Hs, Hn.
    exact (tracks_recover comparator_name max_file_size reuse_logs dbname env vs' _ w e2 name file n fuel save _ _ HT Hs Hn HC Hf Hr Hlt Hfu Hfuel).
Qed.

Lemma concat_bound {A} (ls : list (list A)) : Forall (fun l => (Datatypes.S (length l) < Datatypes.S (Datatypes.S (length (concat ls))))%nat) ls.
Proof.
  induction ls as [|l ls IH]; [constructor|]. cbn. rewrite length_app. constructor; [lia|].
  revert IH. apply List.Forall_impl. intros l'. lia.
Qed.

(** The first edit of a new database, and the recovery from its manifest. *)

Definition demo_edit : VersionEdit := match demo_edits1 with e :: _ => e | [] => VE_Clear end.

Abbreviation demo_name := (str "leveldb.BytewiseComparator").

Lemma demo_state : manifest_state (U := BytewiseComparator) demo_name (@VersionSet_new FileState FileState FileState_new) [].
Proof.
  apply ms_none; [reflexivity|repeat constructor|apply version_new_ok|]. split.
  - reflexivity.
  - apply List.Forall_forall. intros k Hk. apply repeat_spec in Hk. auto.
  - intros level f Hf. unfold current_level in Hf. change (current _) with (@Version_new nat) in Hf. rewrite level_metas_new in Hf. destruct Hf.
Qed.

Lemma demo_admissible : let vs := @VersionSet_new FileState FileState FileState_new in
  admissible (U := BytewiseComparator) demo_name vs [] (fill_edit vs demo_edit).
Proof.
  pose proof (edits_fit_first _ _ _ (demo_fit [])) as HF. split.
  - split; cbn; unfold num_ok, file_ok, key_ok, level_ok; cbn; repeat constructor; try (vm_compute; congruence).
  - intros H. discriminate H.
  - apply (edits_fit_incl _ _ _ _ HF); intros level; change (current_level (VersionSet_new FileState_new) level) with (level_metas [] Version_new level);
      rewrite !level_metas_new; [apply incl_refl|intros a b _ []].
  - apply (edits_fit_incl _ _ _ _ HF); [|intros level a b _ []]. intros level. rewrite level_metas_new. apply incl_refl.
  - intros level a b _ [].
Qed.

Lemma demo_reliable : env_reliable (str "db") demo_env.
Proof. split; [|reflexivity]. intros e name. exists e, FileState_new. split; [reflexivity|]. split; [exact FSInv_new|reflexivity]. Qed.

Lemma log_and_apply_durable_witness : exists vs' w n fuel save' vs2, let vs := @VersionSet_new FileState FileState FileState_new in
  LogAndApply BytewiseComparator demo_name (str "db") demo_env vs demo_edit = Some (OK, fill_edit vs demo_edit, vs') /\
  Recover BytewiseComparator demo_name 2097152 false (str "db") demo_env n fuel (VersionSet_new (dest_ w)) false = Some (OK, save', vs2) /\
  forall level, current_level vs2 level = current_level vs' level.
Proof.
  destruct (log_and_apply_durable BytewiseComparator BytewiseComparatorOk demo_name 2097152 false (str "db") FileState FileState
    SequentialFileImpl MemWritable MemReliableWritable MemSequential MemReliableSequential demo_env (VersionSet_new FileState_new) []
    demo_edit demo_reliable demo_state demo_admissible) as (vs' & edits' & w & EL & HT & _ & HR).
  pose proof (w_file w (proj2 (tk_writer _ _ _ _ HT))) as HI.
  destruct (HR (dest_ w) (str "MANIFEST-000002") (mkSequentialFileImpl (dest_ w) 0) (Datatypes.S (length edits'))
    (Datatypes.S (Datatypes.S (length (concat (manifest_records edits'))))) false) as (save' & vs2 & ER & HL & _).
  - split; reflexivity.
  - split; [exact HI|]. cbn. pose proof (FS_contents_size _ HI). pose proof (sz_nonneg (FS_contents (dest_ w))). lia.
  - reflexivity.
  - lia.
  - lia.
  - apply concat_bound.
  - exists vs', w, (Datatypes.S (length edits')), (Datatypes.S (Datatypes.S (length (concat (manifest_records edits'))))), save', vs2.
    split; [exact EL|]. split; [exact ER|exact HL].
Defined.
