(* ===== verification/VersionRefs.v ===== *)
(** * Reference counts of versions and files (db/version_set.cc)

    Versions are counted by their holders (the version set itself, iterators,
    compactions) and files by the versions that contain them.  Every operation
    of the version set keeps the counts high enough for everything that is still
    in use, and an edit that could not be logged gives back what it took. *)

From S2P Require Import Prelude Coding Compare DbFormat Logging FileName Env Log Iterator VersionEdit Version Compaction VersionSet VersionBuild Manifest ApplyEdit.
#[local] Open Scope Z_scope.
#[local] Open Scope ldb_scope.

Definition refs_at (h : FileHeap) (p : nat) : Z := f_refs (deref h p).

Definition occ (p : nat) (ps : list nat) : Z := Z.of_nat (count_occ Nat.eq_dec ps p).

Lemma occ_app p l1 l2 : occ p (l1 ++ l2) = occ p l1 + occ p l2.
Proof. unfold occ. rewrite count_occ_app. lia. Qed.

Lemma occ_cons p q l : occ p (q :: l) = (if (q =? p)%nat then 1 else 0) + occ p l.
Proof. unfold occ. cbn. destruct (Nat.eq_dec q p), (Nat.eqb_spec q p); lia. Qed.

Lemma occ_nonneg p l : 0 <= occ p l.
Proof. unfold occ. lia. Qed.

Lemma occ_zero p l : ~ In p l -> occ p l = 0.
Proof. intros H. unfold occ. rewrite (proj1 (count_occ_not_In Nat.eq_dec l p) H). reflexivity. Qed.

Lemma occ_pos p l : In p l -> 0 < occ p l.
Proof. intros H. apply (count_occ_In Nat.eq_dec) in H. unfold occ. lia. Qed.

Lemma occ_in_heap (h : FileHeap) p l : in_heap h l -> (length h <= p)%nat -> occ p l = 0.
Proof. intros HF Hp. apply occ_zero. intros Hin. rewrite List.Forall_forall in HF. specialize (HF p Hin). cbn in HF. lia. Qed.

Lemma refs_add d p h q : (p < length h)%nat -> refs_at (add_refs d p h) q = refs_at h q + (if (p =? q)%nat then d else 0).
Proof.
  intros Hp. unfold refs_at, deref, add_refs. destruct (Nat.eqb_spec p q) as [->|Hne].
  - rewrite list_lookup_alter_eq. destruct (lookup_lt_is_Some_2 h q Hp) as [f ->]. reflexivity.
  - rewrite list_lookup_alter_ne by exact Hne. lia.
Qed.

Lemma refs_drop ps q : forall h, in_heap h ps -> refs_at (fold_left (fun h f => add_refs (-1) f h) ps h) q = refs_at h q - occ q ps.
Proof.
  induction ps as [|p ps IH]; intros h HF; cbn [fold_left]; [unfold occ; cbn; lia|]. apply Forall_cons_iff in HF as [Hp HF].
  rewrite IH by (rewrite add_refs_length; exact HF). rewrite refs_add, occ_cons by exact Hp. destruct (p =? q)%nat; lia.
Qed.

Abbreviation all_added levels := (concat (map added_files levels)).

Lemma refs_delete levels q : forall h, levels_in h levels -> refs_at (Builder_delete h levels) q = refs_at h q - occ q (all_added levels).
Proof.
  unfold Builder_delete. induction levels as [|l levels IH]; intros h HL; cbn [fold_left map concat]; [unfold occ; cbn; lia|].
  apply Forall_cons_iff in HL as [Hl HL]. rewrite IH, refs_drop, occ_app by (try exact Hl; destruct (drop_refs_ext (added_files l) h) as [_ ->]; exact HL).
  lia.
Qed.

(** ** Building a version *)

Section Build.
Context {U : Comparator}.

Lemma refs_MaybeAdd l ps q : forall h files, in_heap h ps ->
  let '(h', files') := fold_left (MaybeAddFile l) ps (h, files) in
  length h' = length h /\ refs_at h' q - occ q files' = refs_at h q - occ q files.
Proof.
  induction ps as [|p ps IH]; intros h files HF; cbn [fold_left]; [auto|]. apply Forall_cons_iff in HF as [Hp HF].
  cbn [MaybeAddFile]. destruct (decide _) as [Hd|Hd]; [apply IH, HF|].
  specialize (IH (add_refs 1 p h) (files ++ [p])). rewrite add_refs_length in IH. specialize (IH HF).
  destruct (fold_left (MaybeAddFile l) ps (add_refs 1 p h, files ++ [p])) as [h' files']. destruct IH as [H1 H2]. split; [exact H1|].
  rewrite H2, refs_add, occ_app, occ_cons by exact Hp. unfold occ at 2. cbn. destruct (p =? q)%nat; lia.
Qed.

Lemma split_upper_app less x base : let '(pre, post) := split_upper less x base in base = pre ++ post.
Proof.
  induction base as [|b base IH]; [reflexivity|]. cbn. destruct (less x b); [reflexivity|].
  destruct (split_upper less x base) as [pre post]. rewrite IH. reflexivity.
Qed.

Lemma refs_save_level l less q added : forall base h files, in_heap h base -> in_heap h added ->
  let '(h', files') := save_level l less base added (h, files) in
  length h' = length h /\ refs_at h' q - occ q files' = refs_at h q - occ q files.
Proof.
  induction added as [|a added IH]; intros base h files HB HA; cbn [save_level]; [apply refs_MaybeAdd, HB|].
  apply Forall_cons_iff in HA as [Ha HA]. pose proof (split_upper_app less a base) as HS.
  destruct (split_upper less a base) as [pre post]. subst base. apply Forall_app in HB as [HB1 HB2].
  pose proof (refs_MaybeAdd l (pre ++ [a]) q h files) as H. rewrite fold_left_app in H. cbn [fold_left] in H.
  destruct (MaybeAddFile l (fold_left (MaybeAddFile l) pre (h, files)) a) as [h1 files1].
  destruct H as [L1 R1]; [apply Forall_app; split; [exact HB1|constructor; [exact Ha|constructor]]|].
  specialize (IH post h1 files1). rewrite L1 in IH. specialize (IH HB2 HA).
  destruct (save_level l less post added (h1, files1)) as [h2 files2]. destruct IH as [L2 R2]. split; [exact L2|lia].
Qed.

Lemma refs_save_levels q levels : forall base h, levels_in h levels -> Forall (fun ps => in_heap h ps) base ->
  let '(h', files) := save_levels U h levels base in
  length h' = length h /\ refs_at h' q = refs_at h q + occ q (concat files).
Proof.
  induction levels as [|l levels IH]; intros base h HL HB; cbn [save_levels]; [split; [reflexivity|unfold occ; cbn; lia]|].
  destruct base as [|b base]; [split; [reflexivity|unfold occ; cbn; lia]|].
  apply Forall_cons_iff in HL as [Hl HL]. apply Forall_cons_iff in HB as [Hb HB].
  pose proof (refs_save_level l (BySmallestKey U h) q (added_files l) b h [] Hb Hl) as H1.
  destruct (save_level l (BySmallestKey U h) b (added_files l) (h, [])) as [h1 files]. destruct H1 as [L1 R1].
  specialize (IH base h1). rewrite L1 in IH. specialize (IH HL HB). destruct (save_levels U h1 levels base) as [h2 rest].
  destruct IH as [L2 R2]. split; [exact L2|]. cbn [concat]. rewrite occ_app. change (occ q []) with 0 in R1. lia.
Qed.

(** The builder's own references: one for every file it made. *)

Record builder_inv (n0 : nat) (h0 h : FileHeap) (levels : Levels) : Prop := {
  bi_length : (n0 <= length h)%nat;
  bi_in : levels_in h levels;
  bi_fresh : Forall (fun p => (n0 <= p)%nat) (all_added levels);
  bi_old : forall q, (q < n0)%nat -> deref h q = deref h0 q;
  bi_new : forall q, (n0 <= q < length h)%nat -> refs_at h q = 1 /\ occ q (all_added levels) <= 1
}.

Lemma builder_inv_new h : builder_inv (length h) h h Levels_new.
Proof.
  split; [lia|apply levels_new_in| | |].
  - cbn. constructor.
  - auto.
  - intros q Hq. lia.
Qed.

Lemma apply_deleted_added levels d : map added_files (apply_deleted levels d) = map added_files levels.
Proof.
  unfold apply_deleted. apply list_eq. intros j. rewrite !list_lookup_fmap. destruct (decide (Z.to_nat (fst d) = j)) as [<-|Hne].
  - rewrite list_lookup_alter_eq. destruct (levels !! Z.to_nat (fst d)); reflexivity.
  - rewrite list_lookup_alter_ne by exact Hne. reflexivity.
Qed.

Lemma FileSet_insert_occ less x l q : occ q (FileSet_insert less x l) <= occ q (x :: l) /\
  Forall (fun p => p = x \/ In p l) (FileSet_insert less x l).
Proof.
  induction l as [|y l [IH1 IH2]]; cbn [FileSet_insert]; [split; [lia|repeat constructor]|].
  destruct (less x y); [split; [lia|]; apply List.Forall_forall; cbn; intuition|].
  destruct (less y x).
  - rewrite !occ_cons in *. split; [destruct (x =? q)%nat, (y =? q)%nat; lia|]. constructor; [cbn; auto|].
    revert IH2. apply List.Forall_impl. cbn. intuition.
  - rewrite !occ_cons. split; [destruct (x =? q)%nat, (y =? q)%nat; lia|]. apply List.Forall_forall. cbn. intuition.
Qed.
Lemma alter_added (g : LevelState -> LevelState) (less : nat -> nat -> bool) x q levels :
  (forall l, added_files (g l) = FileSet_insert less x (added_files l)) -> forall j,
  occ q (all_added (alter g j levels)) <= occ q (x :: all_added levels) /\
  Forall (fun p => p = x \/ In p (all_added levels)) (all_added (alter g j levels)).
Proof.
  intros Hg. induction levels as [|l levels IH]; intros j.
  - change (alter g j []) with (@nil LevelState). split; [rewrite occ_cons; cbn [map concat]; destruct (x =? q)%nat; lia|constructor].
  - destruct j as [|j].
    + change (alter g 0%nat (l :: levels)) with (g l :: levels). cbn [map concat]. rewrite Hg.
      destruct (FileSet_insert_occ less x (added_files l) q) as [H1 H2]. rewrite !occ_cons, !occ_app in *.
      split; [lia|]. apply Forall_app. split.
      * revert H2. apply List.Forall_impl. intros p. rewrite in_app_iff. tauto.
      * apply List.Forall_forall. intros p. rewrite in_app_iff. tauto.
    + change (alter g (S j) (l :: levels)) with (l :: alter g j levels). cbn [map concat].
      destruct (IH j) as [H1 H2]. rewrite !occ_cons, !occ_app in *. split; [lia|].
      apply Forall_app. split.
      * apply List.Forall_forall. intros p. rewrite in_app_iff. tauto.
      * revert H2. apply List.Forall_impl. intros p. rewrite in_app_iff. tauto.
Qed.

Lemma levels_in_added (h : FileHeap) levels : levels_in h levels <-> in_heap h (all_added levels).
Proof.
  rewrite !List.Forall_forall. split.
  - intros H p Hp. apply in_concat in Hp as (ps & Hps & Hp). apply in_map_iff in Hps as (l & <- & Hl).
    specialize (H l Hl). rewrite List.Forall_forall in H. exact (H p Hp).
  - intros H l Hl. apply List.Forall_forall. intros p Hp. apply H, in_concat. exists (added_files l). split; [apply in_map, Hl|exact Hp].
Qed.

Lemma deref_app_l h h' q : (q < length h)%nat -> deref (h ++ h') q = deref h q.
Proof. intros Hq. unfold deref. rewrite lookup_app_l by exact Hq. reflexivity. Qed.

Lemma builder_inv_added n0 h0 h nf levels : builder_inv n0 h0 h levels ->
  let '(h', levels') := apply_new U (h, levels) nf in builder_inv n0 h0 h' levels'.
Proof.
  intros [HL HI HF HO HN]. unfold apply_new. set (f := mkFile 1 _ _ _ _ _).
  replace (length (h ++ [f]) - 1)%nat with (length h) by (rewrite length_app; cbn; lia).
  match goal with |- builder_inv _ _ _ (alter ?g ?j _) =>
    pose proof (fun q => alter_added g (BySmallestKey U (h ++ [f])) (length h) q levels (fun l => eq_refl) j) as HA end.
  set (levels' := alter _ _ levels) in *.
  apply levels_in_added in HI. assert (Hlen : length (h ++ [f]) = S (length h)) by (rewrite length_app; cbn; lia). split.
  - lia.
  - apply levels_in_added. destruct (HA 0%nat) as [_ H]. rewrite List.Forall_forall in *. intros p Hp.
    destruct (H p Hp) as [->|Hin]; [|specialize (HI p Hin)]; cbn in *; lia.
  - destruct (HA 0%nat) as [_ H]. rewrite List.Forall_forall in *. intros p Hp. destruct (H p Hp) as [->|Hin]; [lia|auto].
  - intros q Hq. rewrite deref_app_l by lia. apply HO, Hq.
  - intros q Hq. destruct (HA q) as [H _]. rewrite occ_cons in H. unfold refs_at. rewrite Hlen in Hq.
    destruct (Nat.eqb_spec (length h) q) as [<-|Hne].
    + rewrite deref_snoc. split; [reflexivity|]. rewrite (occ_in_heap h _ _ HI) in H by lia. lia.
    + rewrite deref_app_l by lia. destruct (HN q ltac:(lia)) as [H1 H2]. split; [exact H1|lia].
Qed.

Lemma builder_inv_apply n0 h0 h cp levels e : builder_inv n0 h0 h levels ->
  let '(h', _, levels') := Builder_Apply U h cp levels e in builder_inv n0 h0 h' levels'.
Proof.
  intros HI. unfold Builder_Apply.
  assert (H1 : builder_inv n0 h0 h (fold_left apply_deleted (deleted_files_ e) levels)).
  { revert levels HI. induction (deleted_files_ e) as [|d dels IH]; intros levels HI; [exact HI|]. cbn. apply IH.
    destruct HI as [I1 I2 I3 I4 I5]. split; rewrite ?apply_deleted_added; try assumption.
    apply levels_in_added. rewrite apply_deleted_added. apply levels_in_added, I2. }
  assert (H2 : forall news h levels, builder_inv n0 h0 h levels ->
    let '(h', levels') := fold_left (apply_new U) news (h, levels) in builder_inv n0 h0 h' levels').
  { induction news as [|nf news IH]; intros h1 l1 HI1; [exact HI1|]. cbn [fold_left].
    pose proof (builder_inv_added n0 h0 h1 nf l1 HI1) as H. destruct (apply_new U (h1, l1) nf) as [h2 l2]. apply IH, H. }
  specialize (H2 (new_files_ e) h _ H1). destruct (fold_left (apply_new U) (new_files_ e) _) as [h' levels']. exact H2.
Qed.

(** A version built and its builder gone: the files of the version carry its references. *)

Lemma refs_built n0 h0 h levels base h1 v : builder_inv n0 h0 h levels -> n0 = length h0 ->
  Forall (fun ps => in_heap h0 ps) (v_files base) -> Builder_SaveTo U h levels base = (h1, v) ->
  heap_ext h0 h1 /\ length h1 = length h /\ Forall (fun ps => in_heap h1 ps) (v_files v) /\
  forall q, refs_at h1 q = refs_at h q + occ q (concat (v_files v)).
Proof.
  intros [HL HI HF HO HN] -> HB ES. unfold Builder_SaveTo in ES.
  assert (HX : heap_ext h0 h) by (split; [exact HL|]; intros p Hp; rewrite HO by exact Hp; reflexivity).
  assert (HB' : Forall (fun ps => in_heap h ps) (v_files base)) by (revert HB; apply List.Forall_impl; intros ps; apply in_heap_ext, HX).
  destruct (save_levels_abs U levels (v_files base) h HI HB') as (h2 & files & E & HX2 & HL2 & Hin & _).
  rewrite E in ES. injection ES as <- <-. split; [exact (heap_ext_trans _ _ _ HX HX2)|]. split; [exact HL2|]. split; [exact Hin|].
  intros q. pose proof (refs_save_levels q levels (v_files base) h HI HB') as H. rewrite E in H. apply H.
Qed.

End Build.

(** ** Files are counted *)

Abbreviation cell_files cells := (concat (map (fun c => concat (v_files (vc_version c))) cells)).

(** The references cover the live versions and what else holds files at the moment. *)

Record counted (h : FileHeap) (cells : list VersionCell) (pending : list nat) : Prop := {
  co_cells : in_heap h (cell_files cells);
  co_pending : in_heap h pending;
  co_refs : forall q, (q < length h)%nat -> occ q (cell_files cells) + occ q pending <= refs_at h q
}.

Lemma in_heap_concat (h : FileHeap) pss : Forall (fun ps => in_heap h ps) pss <-> in_heap h (concat pss).
Proof.
  rewrite !List.Forall_forall. split.
  - intros H p Hp. apply in_concat in Hp as (ps & Hps & Hp). specialize (H ps Hps). rewrite List.Forall_forall in H. exact (H p Hp).
  - intros H ps Hps. apply List.Forall_forall. intros p Hp. apply H, in_concat. eauto.
Qed.

Lemma counted_built {U : Comparator} h0 cells h levels base h1 v : counted h0 cells [] -> builder_inv (length h0) h0 h levels ->
  Forall (fun ps => in_heap h0 ps) (v_files base) -> Builder_SaveTo U h levels base = (h1, v) ->
  heap_ext h0 h1 /\ counted h1 cells (concat (v_files v) ++ all_added levels) /\ Forall (fun ps => in_heap h1 ps) (v_files v).
Proof.
  intros [C1 _ C3] HI HB ES. destruct (refs_built _ h0 h levels base h1 v HI eq_refl HB ES) as (HX & HL & Hin & HR).
  split; [exact HX|]. split; [|exact Hin]. destruct HI as [_ I2 I3 I4 I5]. apply levels_in_added in I2. split.
  - exact (in_heap_ext _ _ _ HX C1).
  - apply Forall_app. split; [apply in_heap_concat, Hin|]. rewrite HL. exact I2.
  - intros q Hq. rewrite occ_app, HR. destruct (decide (q < length h0)%nat) as [Ho|Ho].
    + assert (occ q (all_added levels) = 0) as ->.
      { apply occ_zero. intros Hq'. rewrite List.Forall_forall in I3. specialize (I3 q Hq'). cbn in I3. lia. }
      unfold refs_at in *. rewrite (I4 q Ho). specialize (C3 q Ho). change (occ q []) with 0 in C3. lia.
    + rewrite (occ_in_heap h0 q (cell_files cells) C1) by lia. destruct (I5 q ltac:(lia)) as [-> H]. lia.
Qed.

(** Dropping references to files that were pending. *)

Lemma counted_drop h cells ps pending : counted h cells (ps ++ pending) ->
  counted (fold_left (fun h f => add_refs (-1) f h) ps h) cells pending.
Proof.
  intros [C1 C2 C3]. destruct (drop_refs_ext ps h) as [HX HL]. apply Forall_app in C2 as [C2 C2']. split.
  - rewrite HL. exact C1.
  - rewrite HL. exact C2'.
  - intros q Hq. rewrite HL in Hq. specialize (C3 q Hq). rewrite refs_drop by exact C2. rewrite occ_app in C3. lia.
Qed.

Lemma counted_perm h cells pending pending' : Permutation pending pending' -> counted h cells pending -> counted h cells pending'.
Proof.
  intros HP [C1 C2 C3]. split; [exact C1|rewrite <- HP; exact C2|]. intros q Hq. specialize (C3 q Hq).
  assert (occ q pending = occ q pending') by (unfold occ; f_equal; apply Permutation_count_occ, HP). lia.
Qed.

Lemma Builder_delete_flat levels : forall h, Builder_delete h levels = fold_left (fun h f => add_refs (-1) f h) (all_added levels) h.
Proof.
  unfold Builder_delete. induction levels as [|l levels IH]; intros h; cbn; [reflexivity|]. rewrite fold_left_app. apply IH.
Qed.

Lemma counted_delete h cells pending levels : counted h cells (pending ++ all_added levels) -> counted (Builder_delete h levels) cells pending.
Proof. intros HC. rewrite Builder_delete_flat. apply counted_drop. revert HC. apply counted_perm, Permutation_app_comm. Qed.

(** Files that are pending become those of a live version and back. *)

Lemma counted_move h cells1 cells2 c pending :
  counted h (cells1 ++ c :: cells2) pending <-> counted h (cells1 ++ cells2) (concat (v_files (vc_version c)) ++ pending).
Proof.
  assert (HQ : forall q, occ q (cell_files (cells1 ++ c :: cells2)) + occ q pending =
    occ q (cell_files (cells1 ++ cells2)) + occ q (concat (v_files (vc_version c)) ++ pending)).
  { intros q. rewrite !map_app, !concat_app. cbn [map concat]. rewrite !occ_app. lia. }
  split; intros [C1 C2 C3]; split; try (intros q Hq; specialize (C3 q Hq); specialize (HQ q); lia);
    rewrite !map_app, !concat_app in *; cbn [map concat] in *; rewrite !Forall_app in *; tauto.
Qed.

Lemma counted_ext_cells h cells cells' pending : map vc_version cells = map vc_version cells' ->
  counted h cells pending -> counted h cells' pending.
Proof.
  intros HE [C1 C2 C3]. assert (EQ : cell_files cells = cell_files cells').
  { rewrite <- (map_map vc_version (fun v => concat (v_files v)) cells), HE, map_map. reflexivity. }
  rewrite EQ in *. split; assumption.
Qed.

(** ** Versions are counted *)

(** [holders]: the identities of the versions held, as often as they are held. *)

Record cells_inv (cells : list VersionCell) (holders : list nat) : Prop := {
  ci_ids : NoDup (map vc_id cells);
  ci_refs : forall c, In c cells -> vc_refs c = occ (vc_id c) holders /\ 0 < vc_refs c;
  ci_live : forall id, In id holders -> In id (map vc_id cells)
}.

Lemma cells_inv_perm cells hs hs' : Permutation hs hs' -> cells_inv cells hs -> cells_inv cells hs'.
Proof.
  intros HP [I1 I2 I3]. split; [exact I1| |].
  - intros c Hc. destruct (I2 c Hc) as [H1 H2]. split; [|exact H2]. rewrite H1. unfold occ. f_equal.
    apply Permutation_count_occ, HP.
  - intros id Hid. apply I3. rewrite HP. exact Hid.
Qed.

Lemma cells_inv_ref cells hs id : cells_inv cells hs -> In id (map vc_id cells) ->
  cells_inv (map (fun c => if (vc_id c =? id)%nat then mkCell (vc_id c) (vc_refs c + 1) (vc_version c) else c) cells) (id :: hs).
Proof.
  intros [I1 I2 I3] Hid. set (g := fun c => if (vc_id c =? id)%nat then _ else c).
  assert (Hids : map vc_id (map g cells) = map vc_id cells).
  { rewrite map_map. apply map_ext. intros c. unfold g. destruct (vc_id c =? id)%nat; reflexivity. }
  split.
  - rewrite Hids. exact I1.
  - intros c Hc. apply in_map_iff in Hc as (c0 & <- & Hc0). destruct (I2 c0 Hc0) as [H1 H2]. unfold g.
    rewrite !occ_cons. destruct (Nat.eqb_spec (vc_id c0) id) as [<-|Hne]; cbn.
    + rewrite Nat.eqb_refl. lia.
    + rewrite (proj2 (Nat.eqb_neq id (vc_id c0))) by congruence. lia.
  - rewrite Hids. intros id' [<-|Hin]; auto.
Qed.

(** The cell of a version, and what letting go of it does. *)

Lemma cell_split cells id : In id (map vc_id cells) -> exists cells1 c cells2,
  cells = cells1 ++ c :: cells2 /\ vc_id c = id /\ ~ In id (map vc_id cells1).
Proof.
  induction cells as [|c cells IH]; intros Hin; [destruct Hin|]. destruct (decide (vc_id c = id)) as [E|Hne].
  - exists [], c, cells. cbn. auto.
  - destruct Hin as [?|Hin]; [contradiction|]. destruct (IH Hin) as (c1 & c0 & c2 & -> & E & Hn).
    exists (c :: c1), c0, c2. cbn. tauto.
Qed.

Lemma unref_split cells1 c cells2 h : ~ In (vc_id c) (map vc_id cells1) ->
  unref_cells h (cells1 ++ c :: cells2) (vc_id c) =
    if vc_refs c - 1 =? 0 then (Version_delete_files h (vc_version c), cells1 ++ cells2)
    else (h, cells1 ++ mkCell (vc_id c) (vc_refs c - 1) (vc_version c) :: cells2).
Proof.
  induction cells1 as [|c1 cells1 IH]; intros Hn; cbn [app unref_cells].
  - rewrite Nat.eqb_refl. destruct (_ =? 0); reflexivity.
  - cbn in Hn. rewrite (proj2 (Nat.eqb_neq _ _)) by tauto. rewrite IH by tauto. destruct (_ =? 0); reflexivity.
Qed.

Lemma cells_inv_cell cells1 c cells2 hs : cells_inv (cells1 ++ c :: cells2) hs ->
  NoDup (map vc_id (cells1 ++ cells2)) /\ ~ In (vc_id c) (map vc_id (cells1 ++ cells2)).
Proof.
  intros [I1 _ _]. rewrite map_app in *. cbn [map] in I1. apply NoDup_ListNoDup in I1. split.
  - apply NoDup_ListNoDup. exact (NoDup_remove_1 _ _ _ I1).
  - exact (NoDup_remove_2 _ _ _ I1).
Qed.

Lemma unref_cells_spec cells id hs : cells_inv cells (id :: hs) -> forall h pending, counted h cells pending ->
  let '(h', cells') := unref_cells h cells id in cells_inv cells' hs /\ counted h' cells' pending.
Proof.
  intros HI h pending HC. destruct (cell_split cells id (ci_live _ _ HI id (or_introl eq_refl))) as (c1 & c & c2 & -> & <- & Hn).
  rewrite unref_split by exact Hn. destruct (cells_inv_cell _ _ _ _ HI) as [ND Hnc]. destruct HI as [I1 I2 I3].
  assert (Hother : forall c', In c' (c1 ++ c2) -> vc_refs c' = occ (vc_id c') hs /\ 0 < vc_refs c').
  { intros c' Hc'. destruct (I2 c') as [H1 H2]; [apply in_app_iff in Hc'; apply in_app_iff; cbn; tauto|]. split; [|exact H2].
    rewrite H1, occ_cons. destruct (Nat.eqb_spec (vc_id c) (vc_id c')) as [E|_]; [|lia].
    exfalso. apply Hnc. rewrite E. apply in_map, Hc'. }
  destruct (I2 c ltac:(apply in_app_iff; cbn; tauto)) as [H1 H2]. rewrite occ_cons, Nat.eqb_refl in H1.
  destruct (Z.eqb_spec (vc_refs c - 1) 0) as [Hz|Hz].
  - split; [|unfold Version_delete_files; apply counted_drop, counted_move, HC]. split; [exact ND|exact Hother|].
    intros id Hid. specialize (I3 id (or_intror Hid)). rewrite !map_app, !in_app_iff in *. cbn in I3.
    destruct I3 as [?|[<-|?]]; [tauto| |tauto]. pose proof (occ_pos _ _ Hid). lia.
  - split.
    + split; [rewrite map_app in *; exact I1| |rewrite map_app in *; intros id Hid; apply I3; right; exact Hid].
      intros c' Hc'. apply in_app_iff in Hc'. destruct Hc' as [Hc'|[<-|Hc']]; [apply Hother, in_app_iff; tauto| |apply Hother, in_app_iff; tauto].
      cbn. lia.
    + revert HC. apply counted_ext_cells. rewrite !map_app. reflexivity.
Qed.

Lemma cells_inv_append cells hs id v : cells_inv cells hs -> ~ In id (map vc_id cells) -> cells_inv (cells ++ [mkCell id 1 v]) (id :: hs).
Proof.
  intros [I1 I2 I3] Hn. split.
  - rewrite map_app. cbn. apply list.NoDup_app. split; [exact I1|]. split; [|apply NoDup_singleton].
    intros x Hx Hx'. apply list_elem_of_singleton in Hx' as ->. apply list_elem_of_In in Hx. contradiction.
  - intros c Hc. apply in_app_iff in Hc as [Hc|[<-|[]]].
    + destruct (I2 c Hc) as [H1 H2]. rewrite occ_cons. destruct (Nat.eqb_spec id (vc_id c)) as [->|_]; [|lia].
      exfalso. apply Hn, in_map, Hc.
    + cbn. rewrite occ_cons, Nat.eqb_refl, occ_zero; [lia|]. intros Hid. apply Hn, I3, Hid.
  - intros id' [<-|Hid]; rewrite map_app, in_app_iff; cbn; auto.
Qed.

(** ** The version set *)

Section Steps.
Context (U : Comparator) (comparator_name : bytes) (max_file_size : Z) (reuse_logs : bool) (dbname : bytes).
Context {E W S : Type} {WF : WritableFile W} {SF : SequentialFile S} (env : @EnvOps E W S).
Abbreviation VSet := (@VersionSet E W).

Definition current_ids (vs : VSet) : list nat := match vs_current vs with Some id => [id] | None => [] end.

(** The state with the versions that clients hold. *)

Record vs_inv (vs : VSet) (held : list nat) : Prop := {
  vi_ids : ids_ok vs;
  vi_cells : cells_inv (vs_versions vs) (current_ids vs ++ held);
  vi_files : counted (vs_heap vs) (vs_versions vs) []
}.

(** What clients do: a version that is current or already held can be held once
    more, a held version is let go of, edits are applied, the manifest is read,
    numbers are drawn. *)

Inductive vs_step : VSet * list nat -> VSet * list nat -> Prop :=
| step_ref vs held id : In id (current_ids vs ++ held) -> vs_step (vs, held) (Version_Ref vs id, id :: held)
| step_unref vs held1 held2 id : vs_step (vs, held1 ++ id :: held2) (Version_Unref vs id, held1 ++ held2)
| step_apply vs held edit s e vs' : LogAndApply U comparator_name dbname env vs edit = Some (s, e, vs') -> vs_step (vs, held) (vs', held)
| step_recover vs held n fuel save s save' vs' :
    Recover U comparator_name max_file_size reuse_logs dbname env n fuel vs save = Some (s, save', vs') -> vs_step (vs, held) (vs', held)
| step_new_number vs held : vs_step (vs, held) (snd (NewFileNumber vs), held)
| step_reuse_number vs held k : vs_step (vs, held) (ReuseFileNumber vs k, held)
| step_mark_used vs held k : vs_step (vs, held) (MarkFileNumberUsed vs k, held)
| step_last_sequence vs held s : vs_step (vs, held) (VS_SetLastSequence vs s, held).

(** The parts of the state that the counts are about. *)

Definition same_versions (vs vs' : VSet) : Prop :=
  vs_heap vs' = vs_heap vs /\ vs_versions vs' = vs_versions vs /\ vs_next_id vs' = vs_next_id vs /\ vs_current vs' = vs_current vs.

(** From one state to the next nothing changes in the versions and files that remain. *)

Record keeps_versions (vs vs' : VSet) : Prop := {
  kv_next : (vs_next_id vs <= vs_next_id vs')%nat;
  kv_heap : heap_ext (vs_heap vs) (vs_heap vs');
  kv_cells : forall c', In c' (vs_versions vs') -> (vc_id c' < vs_next_id vs)%nat ->
    exists c, In c (vs_versions vs) /\ vc_id c = vc_id c' /\ vc_version c = vc_version c'
}.

Lemma keeps_refl vs : keeps_versions vs vs.
Proof. split; [lia|apply heap_ext_refl|]. intros c Hc _. eauto. Qed.

Lemma keeps_trans vs1 vs2 vs3 : keeps_versions vs1 vs2 -> keeps_versions vs2 vs3 -> keeps_versions vs1 vs3.
Proof.
  intros [N1 H1 C1] [N2 H2 C2]. split; [lia|exact (heap_ext_trans _ _ _ H1 H2)|].
  intros c' Hc' Hlt. destruct (C2 c' Hc' ltac:(lia)) as (c & Hc & E1 & E2). destruct (C1 c Hc ltac:(lia)) as (c0 & Hc0 & E3 & E4).
  exists c0. split; [exact Hc0|]. split; congruence.
Qed.

Lemma same_keeps vs vs' : same_versions vs vs' -> keeps_versions vs vs'.
Proof. intros (H1 & H2 & H3 & H4). split; [lia|rewrite H1; apply heap_ext_refl|]. rewrite H2. eauto. Qed.

Lemma same_inv vs vs' held : same_versions vs vs' -> vs_inv vs held -> vs_inv vs' held.
Proof.
  intros (H1 & H2 & H3 & H4) [I1 I2 I3]. unfold ids_ok, current_ids in *. split; unfold ids_ok, current_ids; rewrite ?H1, ?H2, ?H3, ?H4; assumption.
Qed.

Lemma unref_inv vs held1 held2 id : vs_inv vs (held1 ++ id :: held2) ->
  vs_inv (Version_Unref vs id) (held1 ++ held2) /\ keeps_versions vs (Version_Unref vs id).
Proof.
  intros [I1 I2 I3]. unfold Version_Unref.
  assert (I2' : cells_inv (vs_versions vs) (id :: current_ids vs ++ held1 ++ held2)).
  { revert I2. apply cells_inv_perm. rewrite app_assoc. rewrite <- Permutation_middle. rewrite app_assoc. reflexivity. }
  pose proof (unref_cells_spec _ id _ I2' (vs_heap vs) [] I3) as H. pose proof (unref_cells_ok (vs_versions vs) id (vs_heap vs)) as HK.
  destruct (unref_cells (vs_heap vs) (vs_versions vs) id) as [h cells]. destruct H as [H1 H2]. destruct HK as (K1 & K2 & K3). split.
  - split; [|exact H1|exact H2]. unfold ids_ok in *. rewrite List.Forall_forall in *. cbn. intros c Hc.
    destruct (K3 c Hc) as (c0 & Hc0 & -> & _). auto.
  - split; [cbn; lia|exact K1|]. intros c Hc _. destruct (K3 c Hc) as (c0 & Hc0 & E1 & E2). exists c0. auto.
Qed.

Lemma ref_inv vs held id : vs_inv vs held -> In id (current_ids vs ++ held) ->
  vs_inv (Version_Ref vs id) (id :: held) /\ keeps_versions vs (Version_Ref vs id).
Proof.
  intros [I1 I2 I3] Hid. unfold Version_Ref. set (g := fun c => if (vc_id c =? id)%nat then _ else c).
  assert (Hg : forall c, vc_id (g c) = vc_id c /\ vc_version (g c) = vc_version c) by (intros c; unfold g; destruct (_ =? _)%nat; auto). split.
  - split.
    + unfold ids_ok in *. rewrite List.Forall_forall in *. cbn. intros c Hc. apply in_map_iff in Hc as (c0 & <- & Hc0).
      destruct (Hg c0) as [-> _]. auto.
    + cbn. apply cells_inv_perm with (id :: current_ids vs ++ held); [apply Permutation_middle|].
      apply cells_inv_ref; [exact I2|]. apply (ci_live _ _ I2), Hid.
    + cbn. revert I3. apply counted_ext_cells. rewrite map_map. apply map_ext. intros c. symmetry. apply Hg.
  - split; [cbn; lia|apply heap_ext_refl|]. cbn. intros c Hc _. apply in_map_iff in Hc as (c0 & <- & Hc0).
    destruct (Hg c0) as [E1 E2]. exists c0. auto.
Qed.

(** A version whose files are pending becomes current. *)

Lemma append_inv vs held v pending : ids_ok vs -> cells_inv (vs_versions vs) (current_ids vs ++ held) ->
  counted (vs_heap vs) (vs_versions vs) (concat (v_files v) ++ pending) ->
  let vs' := AppendVersion vs v in
  ids_ok vs' /\ cells_inv (vs_versions vs') (current_ids vs' ++ held) /\ counted (vs_heap vs') (vs_versions vs') pending /\ keeps_versions vs vs'.
Proof.
  intros I1 I2 I3. pose proof (AppendVersion_ok vs v I1) as (A1 & _ & A3 & _). unfold AppendVersion in *.
  set (vs1 := match vs_current vs with Some id => Version_Unref vs id | None => vs end) in *.
  assert (H1 : vs_next_id vs1 = vs_next_id vs /\ cells_inv (vs_versions vs1) held /\
    counted (vs_heap vs1) (vs_versions vs1) (concat (v_files v) ++ pending) /\ keeps_versions vs vs1 /\
    forall c, In c (vs_versions vs1) -> (vc_id c < vs_next_id vs)%nat).
  { unfold ids_ok in I1. rewrite List.Forall_forall in I1. unfold vs1, current_ids in *. destruct (vs_current vs) as [id|].
    - unfold Version_Unref. pose proof (unref_cells_spec _ id held I2 (vs_heap vs) _ I3) as H.
      pose proof (unref_cells_ok (vs_versions vs) id (vs_heap vs)) as HK.
      destruct (unref_cells (vs_heap vs) (vs_versions vs) id) as [h cells]. destruct H as [H1 H2]. destruct HK as (K1 & K2 & K3).
      cbn. split; [reflexivity|]. split; [exact H1|]. split; [exact H2|].
      split; [|intros c Hc; destruct (K3 c Hc) as (c0 & Hc0 & -> & _); auto].
      split; [cbn; lia|exact K1|]. cbn. intros c Hc _. destruct (K3 c Hc) as (c0 & Hc0 & E1 & E2). exists c0. auto.
    - split; [reflexivity|]. split; [exact I2|]. split; [exact I3|]. split; [apply keeps_refl|exact I1]. }
  destruct H1 as (N1 & C1 & F1 & K1 & Hlt). clearbody vs1. cbv zeta in *. cbn [vs_versions vs_heap] in *. split; [exact A1|]. split; [|split].
  - apply cells_inv_append; [exact C1|]. intros Hin. apply in_map_iff in Hin as (c & Ec & Hc).
    specialize (Hlt c Hc). lia.
  - apply counted_move. rewrite app_nil_r. exact F1.
  - split; [cbn; lia|exact A3|]. cbn. intros c Hc Hc'. apply in_app_iff in Hc as [Hc|[<-|[]]]; [exact (kv_cells _ _ K1 c Hc Hc')|]. cbn in Hc'. lia.
Qed.

(** The manifest has no part in it. *)

Definition same_numbers (vs vs' : VSet) : Prop :=
  vs_next_file_number vs' = vs_next_file_number vs /\ vs_manifest_file_number vs' = vs_manifest_file_number vs /\
  vs_last_sequence vs' = vs_last_sequence vs /\ vs_log_number vs' = vs_log_number vs /\
  vs_prev_log_number vs' = vs_prev_log_number vs.

Lemma open_manifest_same vs s name vs' : open_manifest comparator_name dbname env vs = Some (s, name, vs') ->
  same_versions vs vs' /\ same_numbers vs vs' /\ (vs_descriptor_log vs = None -> name <> []) /\
  (vs_descriptor_log vs <> None -> vs' = vs /\ name = []).
Proof.
  unfold open_manifest. destruct (vs_descriptor_log vs) as [log|].
  { intros [= <- <- <-]. repeat split; discriminate. }
  destruct (DescriptorFileName_nonempty dbname (vs_manifest_file_number vs)) as (b & l & EN). rewrite EN.
  destruct (env_NewWritableFile env (vs_env vs) (b :: l)) as [en [s0 [f|]]]; [destruct (ok s0)|].
  - destruct (WriteSnapshot comparator_name vs (Writer_new f)) as [[s1 w]|]; [|discriminate]. intros [= <- <- <-].
    repeat split; (discriminate || congruence).
  - intros [= <- <- <-]. repeat split; (discriminate || congruence).
  - intros [= <- <- <-]. repeat split; (discriminate || congruence).
Qed.

Lemma log_edit_same vs e s vs' : log_edit vs e = Some (s, vs') ->
  same_versions vs vs' /\ same_numbers vs vs' /\ (vs_descriptor_log vs = None -> vs_descriptor_log vs' = None).
Proof.
  unfold log_edit. destruct (vs_descriptor_log vs) as [log|] eqn:Ed.
  - destruct (AddRecord log (VE_EncodeTo e [])) as [[s0 w]|]; [|discriminate].
    destruct (if ok s0 then wf_Sync (dest_ w) else (s0, dest_ w)) as [s1 f]. intros [= <- <-]. repeat split; discriminate.
  - intros [= <- <-]. repeat split; intros; assumption.
Qed.

(** LogAndApply: what it does to versions and files, whether it succeeds or not. *)

Definition same_files (vs vs' : VSet) : Prop :=
  (length (vs_heap vs) <= length (vs_heap vs'))%nat /\
  forall p, (p < length (vs_heap vs))%nat -> meta (deref (vs_heap vs') p) = meta (deref (vs_heap vs) p) /\
    refs_at (vs_heap vs') p = refs_at (vs_heap vs) p.

Lemma cell_in_heap (h : FileHeap) cells c : in_heap h (cell_files cells) -> In c cells -> Forall (fun ps => in_heap h ps) (v_files (vc_version c)).
Proof.
  intros HF Hc. apply in_heap_concat. rewrite List.Forall_forall in *. intros p Hp. apply HF, in_concat.
  exists (concat (v_files (vc_version c))). split; [apply in_map_iff; eauto|exact Hp].
Qed.

Lemma current_in_heap vs held : vs_inv vs held -> Forall (fun ps => in_heap (vs_heap vs) ps) (v_files (current vs)).
Proof.
  intros [_ _ [C1 _ _]]. unfold current. destruct (vs_current vs) as [id|]; [|repeat constructor].
  destruct (cell_of vs id) as [c|] eqn:Ec; [|repeat constructor]. apply find_some in Ec as [Hc _]. exact (cell_in_heap _ _ c C1 Hc).
Qed.

Lemma build_version_counted vs held e : vs_inv vs held ->
  exists h cp v, build_version U vs e = (with_heap vs h cp, v) /\ heap_ext (vs_heap vs) h /\
    counted h (vs_versions vs) (concat (v_files v)) /\
    (forall q, (q < length (vs_heap vs))%nat -> refs_at h q = refs_at (vs_heap vs) q + occ q (concat (v_files v))).
Proof.
  intros HI. pose proof (current_in_heap vs held HI) as HB. unfold build_version.
  pose proof (builder_inv_apply (length (vs_heap vs)) (vs_heap vs) (vs_heap vs) (vs_compact_pointer vs) Levels_new e (builder_inv_new _)) as HA.
  destruct (Builder_Apply U (vs_heap vs) (vs_compact_pointer vs) Levels_new e) as [[h1 cp] levels].
  destruct (Builder_SaveTo U h1 levels (current vs)) as [h2 v] eqn:ES.
  destruct (counted_built (vs_heap vs) (vs_versions vs) h1 levels (current vs) h2 v (vi_files _ _ HI) HA HB ES) as (HX & HC & Hin).
  destruct (refs_built _ (vs_heap vs) h1 levels (current vs) h2 v HA eq_refl HB ES) as (_ & HL & _ & HR).
  destruct (Builder_delete_ext levels h2) as [HX' HL'].
  exists (Builder_delete h2 levels), cp, (Finalize (Builder_delete h2 levels) v). split; [reflexivity|].
  rewrite Finalize_files. split; [exact (heap_ext_trans _ _ _ HX HX')|]. split; [apply counted_delete, HC|].
  intros q Hq. rewrite refs_delete by (rewrite HL; apply HA). rewrite HR, (occ_zero q (all_added levels)).
  - unfold refs_at. rewrite (bi_old _ _ _ _ HA) by exact Hq. lia.
  - intros Hin'. pose proof (bi_fresh _ _ _ _ HA) as HF. rewrite List.Forall_forall in HF. specialize (HF q Hin'). cbn in HF. lia.
Qed.

Lemma same_versions_trans vs1 vs2 vs3 : same_versions vs1 vs2 -> same_versions vs2 vs3 -> same_versions vs1 vs3.
Proof. unfold same_versions. intuition congruence. Qed.

Lemma same_numbers_trans vs1 vs2 vs3 : same_numbers vs1 vs2 -> same_numbers vs2 vs3 -> same_numbers vs1 vs3.
Proof. unfold same_numbers. intuition congruence. Qed.

(** The two ways it ends. *)

Lemma apply_success vs held h cp v vs3 a b c d k : vs_inv vs held -> heap_ext (vs_heap vs) h ->
  counted h (vs_versions vs) (concat (v_files v)) -> same_versions (with_heap vs h cp) vs3 ->
  vs_inv (with_numbers (AppendVersion vs3 v) a b c d k) held /\ keeps_versions vs (with_numbers (AppendVersion vs3 v) a b c d k).
Proof.
  intros [I1 I2 I3] HX HC (S1 & S2 & S3 & S4). cbn in S1, S2, S3, S4.
  destruct (append_inv vs3 held v []) as (A1 & A2 & A3 & A4); [..|split; [split; assumption|]].
  - unfold ids_ok. rewrite S2, S3. exact I1.
  - unfold current_ids. rewrite S2, S4. exact I2.
  - rewrite S1, S2, app_nil_r. exact HC.
  - destruct A4 as [K1 K2 K3]. split; cbn.
    + rewrite S3 in K1. exact K1.
    + rewrite S1 in K2. exact (heap_ext_trans _ _ _ HX K2).
    + rewrite S2, S3 in K3. exact K3.
Qed.

Lemma apply_failure vs held h cp v vs3 en log : vs_inv vs held -> heap_ext (vs_heap vs) h ->
  counted h (vs_versions vs) (concat (v_files v)) ->
  (forall q, (q < length (vs_heap vs))%nat -> refs_at h q = refs_at (vs_heap vs) q + occ q (concat (v_files v))) ->
  same_versions (with_heap vs h cp) vs3 -> same_numbers (with_heap vs h cp) vs3 ->
  let vs' := with_descriptor (with_versions vs3 (Version_delete_files (vs_heap vs3) v) (vs_versions vs3)) en log in
  vs_inv vs' held /\ keeps_versions vs vs' /\ vs_versions vs' = vs_versions vs /\ vs_current vs' = vs_current vs /\
  same_numbers vs vs' /\ same_files vs vs'.
Proof.
  intros [I1 I2 I3] HX HC HR (S1 & S2 & S3 & S4) HN. cbn in S1, S2, S3, S4.
  destruct (drop_refs_ext (concat (v_files v)) h) as [HX' HL']. cbv zeta. split; [|split; [|split; [exact S2|split; [exact S4|split; [exact HN|]]]]].
  - split.
    + unfold ids_ok. cbn. rewrite S2, S3. exact I1.
    + unfold current_ids. cbn. rewrite S2, S4. exact I2.
    + cbn. unfold Version_delete_files. rewrite S1, S2. apply counted_drop. rewrite app_nil_r. exact HC.
  - split; cbn; unfold Version_delete_files.
    + lia.
    + rewrite S1. exact (heap_ext_trans _ _ _ HX HX').
    + rewrite S2. eauto.
  - unfold same_files. cbn. unfold Version_delete_files. rewrite S1. split; [rewrite HL'; apply HX|]. intros p Hp. split.
    + exact (he_meta _ _ (heap_ext_trans _ _ _ HX HX') p Hp).
    + rewrite refs_drop by apply HC. rewrite (HR p Hp). lia.
Qed.

Lemma log_and_apply_counted vs held edit s e vs' : vs_inv vs held ->
  LogAndApply U comparator_name dbname env vs edit = Some (s, e, vs') ->
  vs_inv vs' held /\ keeps_versions vs vs' /\
  (ok s = false -> vs_versions vs' = vs_versions vs /\ vs_current vs' = vs_current vs /\ same_numbers vs vs' /\ same_files vs vs' /\
     (vs_descriptor_log vs = None -> vs_descriptor_log vs' = None)).
Proof.
  intros HI. unfold LogAndApply. destruct (build_version_counted vs held (fill_edit vs edit) HI) as (h & cp & v & -> & HX & HC & HR).
  destruct (open_manifest comparator_name dbname env (with_heap vs h cp)) as [[[s1 name] vs1]|] eqn:EO; [|discriminate].
  destruct (open_manifest_same _ _ _ _ EO) as (S1 & N1 & D1 & D1').
  destruct (if ok s1 then log_edit vs1 (fill_edit vs edit) else Some (s1, vs1)) as [[s2 vs2]|] eqn:EL; [|discriminate].
  assert (H2 : same_versions (with_heap vs h cp) vs2 /\ same_numbers (with_heap vs h cp) vs2).
  { destruct (ok s1); [|injection EL as <- <-; auto]. destruct (log_edit_same _ _ _ _ EL) as (S2 & N2 & _).
    split; [exact (same_versions_trans _ _ _ S1 S2)|exact (same_numbers_trans _ _ _ N1 N2)]. }
  destruct H2 as [S2 N2]. destruct name as [|b name].
  - destruct (ok s2) eqn:E2; intros [= <- <- <-].
    + destruct (apply_success vs held h cp v vs2 (vs_next_file_number (AppendVersion vs2 v)) (vs_manifest_file_number (AppendVersion vs2 v))
        (vs_last_sequence (AppendVersion vs2 v)) (log_number_ (fill_edit vs edit)) (prev_log_number_ (fill_edit vs edit)) HI HX HC S2) as [A1 A2].
      split; [exact A1|]. split; [exact A2|]. congruence.
    + destruct (apply_failure vs held h cp v vs2 (vs_env vs2) (vs_descriptor_log vs2) HI HX HC HR S2 N2) as (A1 & A2 & A3).
      split; [exact A1|]. split; [exact A2|]. intros _. destruct A3 as (A3 & A4 & A5 & A6).
      do 4 (split; [assumption|]). intros Hd. destruct (D1 Hd eq_refl).
  - destruct (if ok s2 then _ else (s2, vs2)) as [s3 vs3] eqn:E3.
    assert (H3 : same_versions (with_heap vs h cp) vs3 /\ same_numbers (with_heap vs h cp) vs3).
    { destruct (ok s2); [|injection E3 as <- <-; auto].
      destruct (env_SetCurrentFile env (vs_env vs2) dbname (vs_manifest_file_number vs2)) as [en s4]. injection E3 as <- <-.
      split; [exact (same_versions_trans _ _ _ S2 (conj eq_refl (conj eq_refl (conj eq_refl eq_refl))))|exact N2]. }
    destruct H3 as [S3 N3]. destruct (ok s3) eqn:E4; intros [= <- <- <-].
    + destruct (apply_success vs held h cp v vs3 (vs_next_file_number (AppendVersion vs3 v)) (vs_manifest_file_number (AppendVersion vs3 v))
        (vs_last_sequence (AppendVersion vs3 v)) (log_number_ (fill_edit vs edit)) (prev_log_number_ (fill_edit vs edit)) HI HX HC S3) as [A1 A2].
      split; [exact A1|]. split; [exact A2|]. congruence.
    + destruct (apply_failure vs held h cp v vs3 (env_RemoveFile env (vs_env vs3) (b :: name)) None HI HX HC HR S3 N3)
        as (A1 & A2 & A3 & A4 & A5 & A6). split; [exact A1|]. split; [exact A2|]. intros _. do 4 (split; [assumption|]). reflexivity.
Qed.

(** *** Recovery *)

Lemma recover_record_inv n0 h0 rec st : builder_inv n0 h0 (rs_heap st) (rs_levels st) ->
  let st' := snd (recover_record U comparator_name rec st) in builder_inv n0 h0 (rs_heap st') (rs_levels st').
Proof.
  intros HI. unfold recover_record. destruct (VE_DecodeFrom rec) as [s0 edit]. destruct (ok _); [|exact HI].
  pose proof (builder_inv_apply n0 h0 (rs_heap st) (rs_pointers st) (rs_levels st) edit HI) as H.
  destruct (Builder_Apply U (rs_heap st) (rs_pointers st) (rs_levels st) edit) as [[h cp] levels]. exact H.
Qed.

Lemma recover_loop_inv n0 h0 fuel n : forall (r : Reader S) s st s' st', builder_inv n0 h0 (rs_heap st) (rs_levels st) ->
  recover_loop U comparator_name n fuel r s st = Some (s', st') -> builder_inv n0 h0 (rs_heap st') (rs_levels st').
Proof.
  induction n as [|n IH]; intros r s st s' st' HI; cbn [recover_loop]; [discriminate|].
  destruct (ReadRecord fuel r) as [[[rec|] r']|]; [|intros [= _ <-]; exact HI|discriminate].
  destruct (ok (reported s r')); [|intros [= _ <-]; exact HI].
  pose proof (recover_record_inv n0 h0 rec st HI) as H. destruct (recover_record U comparator_name rec st) as [s1 st1].
  apply IH, H.
Qed.

Lemma MarkFileNumberUsed_same (vs : VSet) k : same_versions vs (MarkFileNumberUsed vs k).
Proof. unfold MarkFileNumberUsed. destruct (_ <=? _); repeat split. Qed.

Lemma ReuseManifest_same (vs : VSet) dscname cur : same_versions vs (snd (ReuseManifest max_file_size reuse_logs env vs dscname cur)).
Proof. destruct (ReuseManifest_rest max_file_size reuse_logs env vs dscname cur) as (H1 & H2 & H3 & H4 & _). repeat split; assumption. Qed.

Lemma recover_finish_inv vs held vs1 s0 st dscname cur save s save' vs' : vs_inv vs held ->
  builder_inv (length (vs_heap vs)) (vs_heap vs) (rs_heap st) (rs_levels st) -> same_versions (with_heap vs (rs_heap st) (rs_pointers st)) vs1 ->
  recover_finish U max_file_size reuse_logs env vs1 s0 st (current vs) dscname cur save = (s, save', vs') ->
  vs_inv vs' held /\ keeps_versions vs vs'.
Proof.
  intros HI HB HS. unfold recover_finish.
  set (vs2 := if ok s0 then _ else vs1).
  assert (HS2 : same_versions (with_heap vs (rs_heap st) (rs_pointers st)) vs2).
  { unfold vs2. destruct (ok s0); [|exact HS].
    exact (same_versions_trans _ _ _ (same_versions_trans _ _ _ HS (MarkFileNumberUsed_same _ _)) (MarkFileNumberUsed_same _ _)). }
  clearbody vs2. destruct HS2 as (S1 & S2 & S3 & S4). cbn in S1, S2, S3, S4. destruct HI as [I1 I2 I3].
  pose proof (current_in_heap vs held ltac:(split; assumption)) as HC.
  destruct (ok (recover_status s0 st)).
  - rewrite S1. destruct (Builder_SaveTo U (rs_heap st) (rs_levels st) (current vs)) as [h v] eqn:ES.
    destruct (counted_built (vs_heap vs) (vs_versions vs) (rs_heap st) (rs_levels st) (current vs) h v I3 HB HC ES) as (HX & HD & _).
    set (vs3 := with_heap vs2 h (vs_compact_pointer vs2)).
    destruct (append_inv vs3 held (Finalize h v) (all_added (rs_levels st))) as (A1 & A2 & A3 & [A4 A5 A6]).
    { unfold ids_ok. cbn. rewrite S2, S3. exact I1. }
    { unfold current_ids. cbn. rewrite S2, S4. exact I2. }
    { cbn. rewrite S2, Finalize_files. exact HD. }
    set (vs4 := AppendVersion vs3 (Finalize h v)) in *. clearbody vs4. cbn in A4, A5, A6. rewrite S2, S3 in A6. rewrite S3 in A4.
    set (vs5 := with_numbers vs4 _ _ _ _ _). pose proof (ReuseManifest_same vs5 dscname cur) as HR.
    destruct (ReuseManifest max_file_size reuse_logs env vs5 dscname cur) as [reused vs6]. cbn [snd] in HR.
    destruct HR as (R1 & R2 & R3 & R4). cbn in R1, R2, R3, R4. intros [= <- <- <-].
    destruct (Builder_delete_ext (rs_levels st) (vs_heap vs4)) as [HX' _]. split; [split|split]; unfold ids_ok, current_ids; cbn; rewrite ?R1, ?R2, ?R3, ?R4.
    + exact A1.
    + exact A2.
    + apply counted_delete. exact A3.
    + exact A4.
    + exact (heap_ext_trans _ _ _ HX (heap_ext_trans _ _ _ A5 HX')).
    + exact A6.
  - intros [= <- <- <-]. destruct HB as [B1 B2 B3 B4 B5].
    assert (HX : heap_ext (vs_heap vs) (rs_heap st)) by (split; [exact B1|]; intros p Hp; rewrite B4 by exact Hp; reflexivity).
    destruct (Builder_delete_ext (rs_levels st) (rs_heap st)) as [HX' HL'].
    split; [split|split]; unfold ids_ok, current_ids; cbn; rewrite ?S1, ?S2, ?S3, ?S4.
    + exact I1.
    + exact I2.
    + apply counted_delete. apply levels_in_added in B2. destruct I3 as [C1 _ C3]. split; [exact (in_heap_ext _ _ _ HX C1)|exact B2|].
      intros q Hq. cbn [app]. destruct (decide (q < length (vs_heap vs))%nat) as [Ho|Ho].
      * rewrite (occ_zero q (all_added (rs_levels st))).
        -- unfold refs_at in *. rewrite (B4 q Ho). apply C3, Ho.
        -- intros Hin. rewrite List.Forall_forall in B3. specialize (B3 q Hin). cbn in B3. lia.
      * rewrite (occ_in_heap (vs_heap vs) q (cell_files (vs_versions vs)) C1) by lia. destruct (B5 q ltac:(lia)) as [-> H]. lia.
    + lia.
    + exact (heap_ext_trans _ _ _ HX HX').
    + eauto.
Qed.

Lemma recover_inv vs held n fuel save s save' vs' : vs_inv vs held ->
  Recover U comparator_name max_file_size reuse_logs dbname env n fuel vs save = Some (s, save', vs') ->
  vs_inv vs' held /\ keeps_versions vs vs'.
Proof.
  intros HI. unfold Recover. destruct (env_ReadFileToString env (vs_env vs) (CurrentFileName dbname)) as [s0 cur].
  destruct (negb (ok s0)); [intros [= <- <- <-]; split; [exact HI|apply keeps_refl]|].
  destruct (match list.last cur with Some c => _ | None => true end); [intros [= <- <- <-]; split; [exact HI|apply keeps_refl]|].
  cbv zeta. destruct (env_NewSequentialFile env (vs_env vs) _) as [s1 [file|]]; [|intros [= <- <- <-]; split; [exact HI|apply keeps_refl]].
  destruct (negb (ok s1)); [intros [= <- <- <-]; split; [exact HI|apply keeps_refl]|].
  destruct (recover_loop U comparator_name n fuel _ s1 _) as [[s2 st]|] eqn:EL; [|discriminate].
  apply (recover_loop_inv (length (vs_heap vs)) (vs_heap vs)) in EL; [|apply builder_inv_new].
  match goal with |- context [recover_finish U max_file_size reuse_logs env ?a ?b ?c ?d ?e ?f ?g] =>
    destruct (recover_finish U max_file_size reuse_logs env a b c d e f g) as [[s3 save3] vs3] eqn:EF end.
  intros [= <- <- <-]. refine (recover_finish_inv vs held _ _ _ _ _ _ _ _ _ HI EL _ EF). repeat split.
Qed.

(** Every step. *)

Lemma step_inv vs held vs' held' : vs_step (vs, held) (vs', held') -> vs_inv vs held -> vs_inv vs' held' /\ keeps_versions vs vs'.
Proof.
  intros HS HI. inversion HS; subst.
  - apply ref_inv; assumption.
  - apply unref_inv, HI.
  - match goal with H : LogAndApply _ _ _ _ _ _ = _ |- _ => destruct (log_and_apply_counted _ held' _ _ _ _ HI H) as (H1 & H2 & _) end. auto.
  - match goal with H : Recover _ _ _ _ _ _ _ _ _ _ = _ |- _ => exact (recover_inv _ _ _ _ _ _ _ _ HI H) end.
  - assert (H : same_versions vs (snd (NewFileNumber vs))) by (repeat split). split; [exact (same_inv _ _ _ H HI)|exact (same_keeps _ _ H)].
  - assert (H : same_versions vs (ReuseFileNumber vs k)) by (unfold ReuseFileNumber; destruct (_ =? _); repeat split).
    split; [exact (same_inv _ _ _ H HI)|exact (same_keeps _ _ H)].
  - pose proof (MarkFileNumberUsed_same vs k) as H. split; [exact (same_inv _ _ _ H HI)|exact (same_keeps _ _ H)].
  - assert (H : same_versions vs (VS_SetLastSequence vs s)) by (repeat split). split; [exact (same_inv _ _ _ H HI)|exact (same_keeps _ _ H)].
Qed.

Lemma steps_inv st st' : rtc vs_step st st' -> vs_inv (fst st) (snd st) -> vs_inv (fst st') (snd st') /\ keeps_versions (fst st) (fst st').
Proof.
  induction 1 as [st|[vs held] [vs1 held1] st' HS _ IH]; intros HI; [split; [exact HI|apply keeps_refl]|].
  destruct (step_inv _ _ _ _ HS HI) as [H1 K1]. destruct (IH H1) as [H2 K2]. split; [exact H2|exact (keeps_trans _ _ _ K1 K2)].
Qed.

Lemma new_inv e : vs_inv (VersionSet_new e) [].
Proof.
  split; [repeat constructor| |].
  - split; [repeat constructor; apply not_elem_of_nil| |].
    + intros c [<-|[]]. split; reflexivity.
    + intros id [<-|[]]. left. reflexivity.
  - split; [repeat constructor|constructor|]. intros q Hq. cbn in Hq. lia.
Qed.

End Steps.

Lemma AddLiveFiles_spec {E W} (vs : @VersionSet E W) live n : n ∈ AddLiveFiles vs live <->
  n ∈ live \/ exists p, In p (cell_files (vs_versions vs)) /\ n = f_number (deref (vs_heap vs) p).
Proof.
  unfold AddLiveFiles. set (num := fun p => f_number (deref (vs_heap vs) p)).
  assert (H1 : forall ps (s : gset Z), n ∈ fold_left (fun live p => {[num p]} ∪ live) ps s <-> n ∈ s \/ exists p, In p ps /\ n = num p).
  { induction ps as [|p ps IH]; intros s; cbn [fold_left]; [split; [auto|intros [H|(p & [] & _)]; exact H]|].
    rewrite IH, elem_of_union, elem_of_singleton. split.
    - intros [[->|H]|(q & Hq & ->)]; [right; exists p; cbn; auto|auto|right; exists q; cbn; auto].
    - intros [H|(q & [<-|Hq] & ->)]; [auto|auto|right; eauto]. }
  assert (H2 : forall cells (s : gset Z), n ∈ fold_left (fun live c => fold_left (fun live p => {[num p]} ∪ live) (concat (v_files (vc_version c))) live) cells s
    <-> n ∈ s \/ exists p, In p (cell_files cells) /\ n = num p).
  { induction cells as [|c cells IH]; intros s; cbn [fold_left map concat]; [split; [auto|intros [H|(p & [] & _)]; exact H]|].
    rewrite IH, H1. split.
    - intros [[H|(q & Hq & ->)]|(q & Hq & ->)]; [auto|right; exists q; rewrite in_app_iff; auto|right; exists q; rewrite in_app_iff; auto].
    - intros [H|(q & Hq & ->)]; [auto|]. apply in_app_iff in Hq as [Hq|Hq]; [left; right; eauto|right; eauto]. }
  apply H2.
Qed.

(** ** Properties *)

(** C21. Versions in use stay.  In every state that the version set reaches from
    its creation by any sequence of taking and releasing versions, applying
    edits (successfully or not), recovering, and drawing numbers, a version that
    is current or that somebody holds is in the list of live versions, each of
    its files has a positive reference count and its number is among the live
    files that must not be deleted; and if the version already existed in an
    earlier state, its levels hold the same files with the same metadata as
    they did then. *)
Theorem held_versions_stay : forall U comparator_name max_file_size reuse_logs dbname E W S (WF : WritableFile W) (SF : SequentialFile S)
    (env : @EnvOps E W S) e vs1 held1 vs2 held2,
  rtc (vs_step U comparator_name max_file_size reuse_logs dbname env) (VersionSet_new e, []) (vs1, held1) ->
  rtc (vs_step U comparator_name max_file_size reuse_logs dbname env) (vs1, held1) (vs2, held2) ->
  forall id, In id (current_ids vs2 ++ held2) ->
  exists c, In c (vs_versions vs2) /\ vc_id c = id /\ 0 < vc_refs c /\
    (forall p, In p (concat (v_files (vc_version c))) ->
       0 < refs_at (vs_heap vs2) p /\ forall live, f_number (deref (vs_heap vs2) p) ∈ AddLiveFiles vs2 live) /\
    ((id < vs_next_id vs1)%nat -> exists c1, In c1 (vs_versions vs1) /\ vc_id c1 = id /\ vc_version c1 = vc_version c /\
       forall level, level_metas (vs_heap vs2) (vc_version c) level = level_metas (vs_heap vs1) (vc_version c1) level).
Proof.
  intros U comparator_name max_file_size reuse_logs dbname E W S WF SF env e vs1 held1 vs2 held2 R1 R2 id Hid.
  destruct (steps_inv _ _ _ _ _ _ _ _ R1 (new_inv e)) as [I1 _]. destruct (steps_inv _ _ _ _ _ _ _ _ R2 I1) as [[J1 J2 J3] [K1 K2 K3]].
  cbn [fst snd] in *. apply (ci_live _ _ J2) in Hid. apply in_map_iff in Hid as (c & <- & Hc). exists c.
  split; [exact Hc|]. split; [reflexivity|]. split; [apply (ci_refs _ _ J2 c Hc)|]. split.
  - intros p Hp. assert (Hin : In p (cell_files (vs_versions vs2))).
    { apply in_concat. exists (concat (v_files (vc_version c))). split; [apply in_map_iff; eauto|exact Hp]. }
    split.
    + destruct J3 as [C1 _ C3]. rewrite List.Forall_forall in C1. specialize (C3 p (C1 p Hin)). pose proof (occ_pos _ _ Hin).
      change (occ p []) with 0 in C3. lia.
    + intros live. apply AddLiveFiles_spec. eauto.
  - intros Hlt. destruct (K3 c Hc Hlt) as (c1 & Hc1 & E1 & E2). exists c1. split; [exact Hc1|]. split; [exact E1|]. split; [exact E2|].
    intros level. rewrite <- E2. apply level_metas_ext; [exact K2|]. apply (cell_in_heap _ _ c1 (co_cells _ _ _ (vi_files _ _ I1)) Hc1).
Qed.

Abbreviation demo_step := (vs_step BytewiseComparator demo_name 2097152 false (str "db") demo_env).

Lemma demo_run : exists vs2, rtc demo_step (Version_Ref (VersionSet_new FileState_new) 0, [0%nat]) (vs2, [0%nat]).
Proof.
  set (vs := Version_Ref (VersionSet_new FileState_new) 0).
  destruct (LogAndApply BytewiseComparator demo_name (str "db") demo_env vs demo_edit) as [[[s e] vs2]|] eqn:EL; [|vm_compute in EL; discriminate EL].
  exists vs2. apply rtc_once. exact (step_apply _ _ _ _ _ _ vs [0%nat] demo_edit s e vs2 EL).
Qed.

Lemma held_versions_stay_witness : exists (vs2 : @VersionSet FileState FileState) c, In c (vs_versions vs2) /\ vc_id c = 0%nat /\ 0 < vc_refs c.
Proof.
  destruct demo_run as [vs2 HR]. exists vs2.
  destruct (held_versions_stay BytewiseComparator demo_name 2097152 false (str "db") FileState FileState SequentialFileImpl MemWritable MemSequential
    demo_env FileState_new (Version_Ref (VersionSet_new FileState_new) 0) [0%nat] vs2 [0%nat]
    (rtc_once _ _ (step_ref _ _ _ _ _ _ (VersionSet_new FileState_new) [] 0 (or_introl eq_refl))) HR 0%nat)
    as (c & H1 & H2 & H3 & _); [apply in_or_app; right; left; reflexivity|].
  exists c. auto.
Defined.

(** C22. A failed edit installs no version.  Whatever the environment does, when
    LogAndApply returns an error, from any reachable state, the live versions
    and the current one are the same objects, the file, log and sequence numbers
    are unchanged, every file has the metadata and the reference count it had
    (what the unused version had taken is given back), and a manifest that was
    to be started for the edit is not kept open.  Two things are not rolled back:
    the compaction pointers, which the builder moves as the edit says, and what
    of the record has reached a manifest that was already open. *)
Theorem log_and_apply_error : forall U comparator_name max_file_size reuse_logs dbname E W S (WF : WritableFile W) (SF : SequentialFile S)
    (env : @EnvOps E W S) e0 vs held edit s e vs',
  rtc (vs_step U comparator_name max_file_size reuse_logs dbname env) (VersionSet_new e0, []) (vs, held) ->
  LogAndApply U comparator_name dbname env vs edit = Some (s, e, vs') -> ok s = false ->
  vs_versions vs' = vs_versions vs /\ vs_current vs' = vs_current vs /\ same_numbers vs vs' /\ same_files vs vs' /\
  (vs_descriptor_log vs = None -> vs_descriptor_log vs' = None).
Proof.
  intros U comparator_name max_file_size reuse_logs dbname E W S WF SF env e0 vs held edit s e vs' R EL Hs.
  destruct (steps_inv _ _ _ _ _ _ _ _ R (new_inv e0)) as [HI _].
  destruct (log_and_apply_counted U comparator_name dbname env vs held edit s e vs' HI EL) as (_ & _ & H). exact (H Hs).
Qed.

(** A disk on which no file can be made. *)

Definition full_env : @EnvOps FileState FileState SequentialFileImpl :=
  mkEnvOps (fun e _ => (e, (IOError (str "no space") [], None))) (fun e _ => (e, (OK, Some e))) (fun e _ => (OK, Some (mkSequentialFileImpl e 0)))
    (fun _ _ => (OK, [])) (fun e _ => (OK, size_ e)) (fun e _ => e) (fun e _ _ => (e, OK)).

Lemma log_and_apply_error_witness : exists s e vs', let vs := @VersionSet_new FileState FileState FileState_new in
  LogAndApply BytewiseComparator demo_name (str "db") full_env vs demo_edit = Some (s, e, vs') /\ ok s = false /\
  vs_versions vs' = vs_versions vs /\ same_files vs vs'.
Proof.
  set (vs := @VersionSet_new FileState FileState FileState_new).
  destruct (LogAndApply BytewiseComparator demo_name (str "db") full_env vs demo_edit) as [[[s e] vs']|] eqn:EL; [|vm_compute in EL; discriminate EL].
  assert (Hs : ok s = false).
  { assert (H : match LogAndApply BytewiseComparator demo_name (str "db") full_env vs demo_edit with Some (s, _, _) => ok s | None => true end = false)
      by (vm_compute; reflexivity). rewrite EL in H. exact H. }
  exists s, e, vs'. split; [exact EL|]. split; [exact Hs|].
  destruct (log_and_apply_error BytewiseComparator demo_name 2097152 false (str "db") FileState FileState SequentialFileImpl MemWritable MemSequential
    full_env FileState_new vs [] demo_edit s e vs' (rtc_refl _ _) EL Hs) as (H1 & _ & _ & H4 & _). auto.
Defined.
