(* ===== verification/MemIter.v ===== *)
(** * The memtable iterator (db/memtable.cc)

    The adapter that presents the skip list of a memtable as an iterator over
    internal keys.  It satisfies the cursor contract on the entries of the
    memtable, sorted by internal key. *)

From S2P Require Import Prelude Coding Compare DbFormat Logging SkipList Arena MemTable Iterator Block TableBuilder Table Version VersionGet.
#[local] Open Scope Z_scope.
#[local] Open Scope ldb_scope.

(** [EncodeKey] *)

Definition EncodeKey (target : bytes) : bytes := EncodeVarint32 (u32 (sz target)) ++ target.

(** The iterator and the memtable it points into. *)

Record MemTableIterator := mkMemIter { mi_table : MemTable; mi_iter : Iter }.

Definition MemTable_NewIterator (m : MemTable) : MemTableIterator := mkMemIter m None.

Definition mi_entry (it : MemTableIterator) : bytes := default [] (Iter_key (table (mi_table it)) (mi_iter it)).

#[export] Instance MemTableIteratorOps (U : Comparator) : Iterator MemTableIterator := {
  iValid it := Iter_Valid (mi_iter it);
  iSeek it k := mkMemIter (mi_table it) (Iter_Seek (MT_KeyComparator U) (table (mi_table it)) (EncodeKey k));
  iSeekToFirst it := mkMemIter (mi_table it) (Iter_SeekToFirst (table (mi_table it)));
  iSeekToLast it := mkMemIter (mi_table it) (Iter_SeekToLast (table (mi_table it)));
  iNext it := mkMemIter (mi_table it) (Iter_Next (table (mi_table it)) (mi_iter it));
  iPrev it := mkMemIter (mi_table it) (Iter_Prev (MT_KeyComparator U) (table (mi_table it)) (mi_iter it));
  iKey it := MT_GetLengthPrefixedSlice (mi_entry it);
  iValue it := MT_GetLengthPrefixedSlice (snd (MT_split (mi_entry it)));
  iStatus it := OK
}.

(** ** Keys whose length fits in 32 bits

    [EncodeKey] writes the length of a target as a 32-bit varint, so targets are
    the internal keys that are shorter than 4 GB. *)

Definition Bounded (U : Comparator) : Comparator := {|
  cmp := @cmp U;
  shortest_sep := @shortest_sep U;
  short_succ := @short_succ U;
  cmp_dom u := @cmp_dom U u /\ sz u + 8 < 2 ^ 32
|}.

#[export] Instance BoundedOk (U : Comparator) : ComparatorOk U -> ComparatorShort U -> ComparatorOk (Bounded U).
Proof.
  intros UOK US. split; cbn [cmp shortest_sep short_succ Bounded].
  - intros a b [Ha _] [Hb _]. apply cmp_eq; assumption.
  - intros a b [Ha _] [Hb _]. apply cmp_sgn; assumption.
  - intros a b c [Ha _] [Hb _] [Hc _]. apply cmp_trans; assumption.
  - intros a b [Ha La] [Hb Lb]. pose proof (sep_short a b Ha Hb). split; [apply sep_dom; assumption|lia].
  - intros a [Ha _]. apply sep_refl, Ha.
  - intros a b [Ha _] [Hb _]. apply sep_between; assumption.
  - intros a [Ha La]. pose proof (succ_short a Ha). split; [apply succ_dom, Ha|lia].
  - intros a [Ha _]. apply succ_ge, Ha.
Qed.

#[export] Instance BoundedShort (U : Comparator) : ComparatorShort U -> ComparatorShort (Bounded U).
Proof.
  intros US. split; cbn.
  - intros a b [Ha _] [Hb _]. apply sep_short; assumption.
  - intros a [Ha _]. apply succ_short, Ha.
Qed.

(** ** The contract *)

Section MemIterOk.
Context {U : Comparator} {UOK : ComparatorOk U}.
Hypothesis all_keys : forall u, @cmp_dom U u.

#[local] Abbreviation KC := (MT_KeyComparator U).
#[local] Abbreviation BCmp := (InternalKeyComparator (Bounded U)).

Context (m : MemTable) (es : list (Z * Op)) (HI : MInv (C := U) m es).

#[local] Abbreviation ks := (map entry_bytes es).

Definition mem_pos (i : nat) (it : MemTableIterator) : Prop :=
  mi_table it = m /\ (i <= length es)%nat /\ SkipList.At KC (table m) (mi_iter it) (take i ks) (drop i ks).

Lemma At_end s l : SkipList.Rep KC s l -> SkipList.At KC s None l [].
Proof.
  intros (D & HD & <-). exists D, (D O), []. rewrite app_nil_r. split; [exact HD|]. auto.
Qed.

Lemma mem_pos_end : mem_pos (length es) (MemTable_NewIterator m).
Proof.
  split; [reflexivity|]. split; [lia|]. rewrite <- (length_map entry_bytes), firstn_all, drop_all.
  apply At_end, (minv_rep _ _ HI).
Qed.

Lemma drop_entry i qo : es !! i = Some qo -> drop i ks = entry_bytes qo :: drop (S i) ks.
Proof.
  intros H. apply drop_S. rewrite list_lookup_fmap, H. reflexivity.
Qed.

Lemma take_entry i qo : es !! i = Some qo -> take (S i) ks = take i ks ++ [entry_bytes qo].
Proof.
  intros H. apply take_S_r. rewrite list_lookup_fmap, H. reflexivity.
Qed.

Lemma EncodeKey_slice k : sz k < 2 ^ 32 -> MT_GetLengthPrefixedSlice (EncodeKey k) = k.
Proof.
  intros H. pose proof (sz_nonneg k). unfold EncodeKey, MT_GetLengthPrefixedSlice.
  rewrite u32_small, varint_at_encode by lia. apply take_ge. unfold sz. lia.
Qed.

(** The entries below a target are the first ones. *)

Lemma filter_split (f : Z * Op -> bool) l :
  StronglySorted (fun a b => f b = true -> f a = true) l ->
  let n := length (List.filter f l) in List.filter f l = take n l /\ List.filter (fun e => negb (f e)) l = drop n l.
Proof.
  induction 1 as [|a l HS IH HF]; [split; reflexivity|]. cbn [List.filter]. destruct (f a) eqn:Ea; cbn [length negb take drop].
  - destruct IH as [E1 E2]. split; [f_equal; exact E1|exact E2].
  - assert (Hnil : forall x, In x l -> f x = false).
    { intros x Hx. rewrite List.Forall_forall in HF. specialize (HF x Hx). destruct (f x); [|reflexivity]. specialize (HF eq_refl). congruence. }
    assert (List.filter f l = []) as ->.
    { clear -Hnil. induction l as [|x l IH]; [reflexivity|]. cbn. rewrite (Hnil x (or_introl eq_refl)). apply IH. intros y Hy. apply Hnil. right. exact Hy. }
    split; [reflexivity|]. cbn. f_equal. clear -Hnil. induction l as [|x l IH]; [reflexivity|]. cbn [List.filter].
    rewrite (Hnil x (or_introl eq_refl)). cbn. f_equal. apply IH. intros y Hy. apply Hnil. right. exact Hy.
Qed.

Lemma mem_entry_dom qo : In qo es -> @cmp_dom BCmp (entry_ikey qo).
Proof.
  intros H. pose proof (minv_fits _ _ HI) as HF. rewrite List.Forall_forall in HF. destruct (HF qo H) as [H1 _].
  unfold entry_ikey. split; [rewrite mkInternalKey_length; lia|]. rewrite mkInternalKey_user. split; [apply all_keys|exact H1].
Qed.

Lemma mem_sorted : sorted_entries BCmp (map op_entry es).
Proof.
  split.
  - pose proof (MInv_sorted m es HI) as HS. clear HI. induction HS as [|e l HS IH HF]; [constructor|].
    constructor; [exact IH|]. apply List.Forall_map. exact HF.
  - apply List.Forall_map, List.Forall_forall. intros qo H. exact (mem_entry_dom qo H).
Qed.

Lemma lower_bound_count t : @cmp_dom BCmp t ->
  lower_bound BCmp (map op_entry es) t = length (List.filter (fun qo => IKC_Compare U (entry_ikey qo) t <? 0) es) /\
  StronglySorted (fun a b => (IKC_Compare U (entry_ikey b) t <? 0) = true -> (IKC_Compare U (entry_ikey a) t <? 0) = true) es.
Proof.
  intros Ht. pose proof (MInv_sorted m es HI) as HS. pose proof mem_entry_dom as HD. clear HI.
  assert (Hdown : StronglySorted (fun a b => (IKC_Compare U (entry_ikey b) t <? 0) = true ->
                                             (IKC_Compare U (entry_ikey a) t <? 0) = true) es).
  { induction HS as [|e l HS IH HF]; [constructor|]. constructor; [apply IH; intros; apply HD; right; assumption|].
    rewrite List.Forall_forall in *. intros x Hx. rewrite !Z.ltb_lt. intros Hlt.
    assert (Hdom : forall k, @cmp_dom BCmp k -> @cmp_dom (InternalKeyComparator U) k) by (intros k [H1 [H2 _]]; split; assumption).
    apply (cmp_trans (C := InternalKeyComparator U) _ (entry_ikey x)); [apply Hdom, HD; left; reflexivity|apply Hdom, HD; right; exact Hx|
      apply Hdom, Ht|exact (HF x Hx)|exact Hlt]. }
  split; [|exact Hdown]. clear HS HD. induction Hdown as [|e l HS IH HF]; [reflexivity|]. cbn [map lower_bound List.filter op_entry fst].
  change (@cmp BCmp) with (IKC_Compare U). destruct (Z.ltb_spec (IKC_Compare U (entry_ikey e) t) 0) as [Hl|Hl]; cbn [length].
  - f_equal. exact IH.
  - symmetry. clear -HF. induction l as [|x l IH]; [reflexivity|]. cbn [List.filter].
    apply Forall_cons_iff in HF as [Hx HF]. destruct (IKC_Compare U (entry_ikey x) t <? 0); [discriminate (Hx eq_refl)|]. apply IH, HF.
Qed.

Lemma mem_seek t : @cmp_dom BCmp t ->
  mem_pos (lower_bound BCmp (map op_entry es) t) (mkMemIter m (Iter_Seek KC (table m) (EncodeKey t))).
Proof.
  intros Ht. destruct (lower_bound_count t Ht) as [En Hs]. rewrite En. destruct (filter_split _ es Hs) as [E1 E2].
  split; [reflexivity|]. split; [rewrite E1, length_take; lia|]. cbn [mi_iter].
  pose proof (Seek_spec KC (KeyComparator_trans all_keys) (KeyComparator_sgn all_keys) (table m) _ (EncodeKey t) (minv_rep _ _ HI)) as HA.
  rewrite !filter_map_entries in HA.
  assert (Ef : forall e, In e es -> (KC (entry_bytes e) (EncodeKey t) <? 0) = (IKC_Compare U (entry_ikey e) t <? 0)).
  { intros e He. pose proof (minv_fits _ _ HI) as HF. rewrite List.Forall_forall in HF. unfold MT_KeyComparator.
    rewrite MT_slice_entry by (apply HF, He). rewrite EncodeKey_slice; [reflexivity|]. destruct Ht as [H8 [_ Hl]].
    unfold ExtractUserKey, sz in *. rewrite length_take in Hl. lia. }
  rewrite (filter_ext_in _ _ _ Ef) in HA. rewrite (filter_ext_in (fun e => negb (KC (entry_bytes e) (EncodeKey t) <? 0))
    (fun e => negb (IKC_Compare U (entry_ikey e) t <? 0)) es) in HA by (intros e He; rewrite (Ef e He); reflexivity).
  cbv zeta in E1, E2. set (n := length (List.filter _ es)) in *. rewrite E1, E2 in HA.
  rewrite <- firstn_map, <- skipn_map in HA. exact HA.
Qed.

Lemma mem_pos_entry i it : mem_pos i it -> (i < length es)%nat -> exists qo, es !! i = Some qo /\
  Iter_key (table m) (mi_iter it) = Some (entry_bytes qo) /\ op_fits (snd qo).
Proof.
  intros (_ & _ & HA) Hi. destruct (lookup_lt_is_Some_2 es i Hi) as [qo Hq]. exists qo. split; [exact Hq|].
  rewrite (drop_entry i qo Hq) in HA. split; [apply (At_key _ _ _ _ _ HA)|].
  exact (proj1 (list.Forall_lookup _ _) (minv_fits _ _ HI) i qo Hq).
Qed.

Lemma mem_prev i it : mem_pos i it -> (i < length es)%nat ->
  mem_pos (if (i =? 0)%nat then length es else Nat.pred i) (mkMemIter m (Iter_Prev KC (table m) (mi_iter it))).
Proof.
  intros Hp Hi. destruct (mem_pos_entry i it Hp Hi) as (qo & Hq & _ & _). destruct Hp as (_ & _ & HA).
  rewrite (drop_entry i qo Hq) in HA.
  destruct (At_Prev KC (KeyComparator_trans all_keys) (KeyComparator_sgn all_keys) _ _ _ _ _ HA) as [H0 H1].
  destruct i as [|i]; cbn [Nat.eqb Nat.pred].
  - rewrite H0 by reflexivity. exact mem_pos_end.
  - destruct (lookup_lt_is_Some_2 es i ltac:(lia)) as [qo' Hq']. split; [reflexivity|]. split; [lia|]. cbn [mi_iter].
    rewrite (drop_entry i qo' Hq'), (drop_entry (S i) qo Hq). apply H1, take_entry, Hq'.
Qed.

Lemma mem_last : mem_pos (Nat.pred (length es)) (mkMemIter m (Iter_SeekToLast (table m))).
Proof.
  destruct (SeekToLast_spec KC (KeyComparator_sgn all_keys) _ _ (minv_rep _ _ HI)) as [H0 H1].
  split; [reflexivity|]. split; [lia|]. cbn [mi_iter]. destruct (decide (length es = O)) as [E|E].
  - apply nil_length_inv in E. pose proof mem_pos_end as (_ & _ & HA). cbn [mi_iter MemTable_NewIterator] in HA. rewrite H0 by (rewrite E; reflexivity).
    clear -HA E. rewrite E in *. exact HA.
  - destruct (lookup_lt_is_Some_2 es (Nat.pred (length es)) ltac:(lia)) as [qo Hq].
    rewrite (drop_entry _ qo Hq). replace (S (Nat.pred (length es))) with (length ks) by (rewrite length_map; lia). rewrite drop_all.
    apply H1. rewrite <- (take_entry _ qo Hq). replace (S (Nat.pred (length es))) with (length ks) by (rewrite length_map; lia).
    symmetry. apply firstn_all.
Qed.

Lemma mem_cursor : @Cursor _ (MemTableIteratorOps U) BCmp (map op_entry es) mem_pos.
Proof.
  split; cbn [iValid iSeek iSeekToFirst iSeekToLast iNext iPrev iKey iValue iStatus MemTableIteratorOps]; rewrite ?length_map.
  - intros i it (_ & Hi & _). exact Hi.
  - intros i it Hp. destruct (Nat.ltb_spec i (length es)) as [Hl|Hl].
    + destruct (mem_pos_entry i it Hp Hl) as (qo & Hq & _ & _). destruct Hp as (_ & _ & HA). apply (At_key _ _ _ _ _ HA).
      rewrite (drop_entry i qo Hq). discriminate.
    + destruct Hp as (_ & Hle & HA). destruct (Iter_Valid (mi_iter it)) eqn:Ev; [|reflexivity]. apply (At_key _ _ _ _ _ HA) in Ev.
      destruct Ev. apply drop_ge. rewrite length_map. exact Hl.
  - intros i it k v Hp He. rewrite list_lookup_fmap in He.
    destruct (es !! i) as [qo|] eqn:Eq; [|discriminate He]. injection He as <- <-.
    destruct (mem_pos_entry i it Hp (lookup_lt_Some _ _ _ Eq)) as (qo' & Hq' & Ek & Hf). assert (qo' = qo) as -> by congruence.
    unfold mi_entry. destruct Hp as (-> & _ & _). rewrite Ek. cbn [from_option id]. rewrite MT_slice_entry, MT_split_entry by exact Hf. cbn [fst snd].
    split; [reflexivity|]. apply MT_value_entry, Hf.
  - reflexivity.
  - intros i it (-> & _ & _). split; [reflexivity|]. split; [lia|]. apply SeekToFirst_spec, (minv_rep _ _ HI).
  - intros i it (-> & _ & _). exact mem_last.
  - intros i it Hp Hi. destruct (mem_pos_entry i it Hp Hi) as (qo & Hq & _ & _). destruct Hp as (-> & _ & HA).
    split; [reflexivity|]. split; [lia|]. cbn [mi_iter]. rewrite (take_entry i qo Hq). rewrite (drop_entry i qo Hq) in HA. exact (At_Next _ _ _ _ _ _ HA).
  - intros i it Hp Hi. pose proof Hp as (-> & _ & _). exact (mem_prev i it Hp Hi).
  - intros i it t (-> & _ & _) Ht. exact (mem_seek t Ht).
Qed.

End MemIterOk.
