(* ===== verification/DbIter.v ===== *)
(** * The database iterator (db/db_iter.cc)

    DBIter turns an iterator over internal entries into one over the user's
    entries as of a sequence number: it hides entries that are too new,
    overwritten or deleted, by a point deletion or by a range tombstone.  The
    internal iterator is any implementation of the iterator interface; the
    database appears as a state that records read samples. *)

From S2P Require Import Prelude Coding Compare DbFormat Logging SkipList Iterator.
#[local] Open Scope Z_scope.
#[local] Open Scope ldb_scope.

Inductive Direction := kForward | kReverse.

Section DBIter.
Context (U : Comparator) {It D : Type} {IT : Iterator It} (RecordReadSample : D -> bytes -> D).
Context (global_range_dels_ : RangeDeletionList) (sequence_ : Z).

Record DBIter := mkDBIter {
  iter_ : It;
  status_ : Status;
  saved_key_ : bytes;
  saved_value_ : bytes;
  direction_ : Direction;
  valid_ : bool;
  rnd_ : Random;
  bytes_until_read_sampling_ : Z;
  db_ : D
}.

Definition RandomCompactionPeriod (r : Random) : Z * Random := Random_Uniform r (2 * kReadBytesPeriod).

Definition DBIter_new (db : D) (iter : It) (seed : Z) : DBIter :=
  let '(p, r) := RandomCompactionPeriod (Random_new seed) in
  mkDBIter iter OK [] [] kForward false r p db.

(** *** Updates of single fields *)

Definition with_iter (st : DBIter) (it : It) : DBIter :=
  mkDBIter it (status_ st) (saved_key_ st) (saved_value_ st) (direction_ st) (valid_ st) (rnd_ st)
    (bytes_until_read_sampling_ st) (db_ st).

Definition with_saved (st : DBIter) (k v : bytes) : DBIter :=
  mkDBIter (iter_ st) (status_ st) k v (direction_ st) (valid_ st) (rnd_ st) (bytes_until_read_sampling_ st) (db_ st).

Definition with_direction (st : DBIter) (d : Direction) : DBIter :=
  mkDBIter (iter_ st) (status_ st) (saved_key_ st) (saved_value_ st) d (valid_ st) (rnd_ st)
    (bytes_until_read_sampling_ st) (db_ st).

Definition with_valid (st : DBIter) (b : bool) : DBIter :=
  mkDBIter (iter_ st) (status_ st) (saved_key_ st) (saved_value_ st) (direction_ st) b (rnd_ st)
    (bytes_until_read_sampling_ st) (db_ st).

Definition SaveKey (k : bytes) (st : DBIter) : DBIter := with_saved st k (saved_value_ st).

Definition ClearSavedValue (st : DBIter) : DBIter := with_saved st (saved_key_ st) [].

(** *** Accessors *)

Definition DI_Valid (st : DBIter) : bool := valid_ st.

Definition DI_key (st : DBIter) : bytes :=
  match direction_ st with kForward => ExtractUserKey (iKey (iter_ st)) | kReverse => saved_key_ st end.

Definition DI_value (st : DBIter) : bytes :=
  match direction_ st with kForward => iValue (iter_ st) | kReverse => saved_value_ st end.

Definition DI_status (st : DBIter) : Status := if ok (status_ st) then iStatus (iter_ st) else status_ st.

(** *** Reading an entry *)

(** The sampling loop of [ParseKey]; no two draws in a row are zero, so that twice
    the number of bytes bounds its turns. *)

Fixpoint sample_loop (fuel : nat) (k : bytes) (bytes_read remaining : Z) (r : Random) (db : D) : option (Z * Random * D) :=
  if remaining <? bytes_read then
    match fuel with
    | O => None
    | S fuel =>
        let '(p, r) := RandomCompactionPeriod r in
        sample_loop fuel k bytes_read (u64 (remaining + p)) r (RecordReadSample db k)
    end
  else Some (remaining, r, db).

Definition ParseKey (st : DBIter) : option (option ParsedInternalKey * DBIter) :=
  let k := iKey (iter_ st) in
  let bytes_read := sz k + sz (iValue (iter_ st)) in
  match sample_loop (Z.to_nat (2 * bytes_read)) k bytes_read (bytes_until_read_sampling_ st) (rnd_ st) (db_ st) with
  | None => None
  | Some (remaining, r, db) =>
      let st := mkDBIter (iter_ st) (status_ st) (saved_key_ st) (saved_value_ st) (direction_ st) (valid_ st) r
                  (remaining - bytes_read) db in
      match ParseInternalKey k with
      | None =>
          Some (None, mkDBIter (iter_ st) (Corruption (str "corrupted internal key in DBIter") []) (saved_key_ st)
                        (saved_value_ st) (direction_ st) (valid_ st) r (remaining - bytes_read) db)
      | Some ikey => Some (Some ikey, st)
      end
  end.

(** *** Forward *)

(** [skip] is always [&saved_key_].  [iter_->Next()] and the loop condition: *)

Definition FindNext_advance (continue : bool -> DBIter -> option DBIter) (skipping : bool) (st : DBIter) : option DBIter :=
  let st := with_iter st (iNext (iter_ st)) in
  if iValid (iter_ st) then continue skipping st
  else Some (with_valid (SaveKey [] st) false).

Fixpoint FindNextUserEntry (fuel : nat) (skipping : bool) (st : DBIter) : option DBIter :=
  match fuel with
  | O => None
  | S fuel =>
      match ParseKey st with
      | None => None
      | Some (None, st) => FindNext_advance (FindNextUserEntry fuel) skipping st
      | Some (Some ikey, st) =>
          if sequence ikey <=? sequence_ then
            match type ikey with
            | kTypeDeletion => FindNext_advance (FindNextUserEntry fuel) true (SaveKey (user_key ikey) st)
            | kTypeRangeDeletion => FindNext_advance (FindNextUserEntry fuel) skipping st
            | kTypeValue =>
                if RDL_IsDeleted global_range_dels_ (user_key ikey) (sequence ikey) sequence_
                then FindNext_advance (FindNextUserEntry fuel) skipping st
                else if skipping && (cmp (user_key ikey) (saved_key_ st) <=? 0)
                then FindNext_advance (FindNextUserEntry fuel) skipping st
                else Some (with_valid (with_saved st (user_key ikey) (iValue (iter_ st))) true)
            end
          else FindNext_advance (FindNextUserEntry fuel) skipping st
      end
  end.

Definition DI_Next (fuel : nat) (st : DBIter) : option DBIter :=
  let st :=
    match direction_ st with
    | kReverse =>
        let st := with_direction st kForward in
        if negb (iValid (iter_ st)) then with_iter st (iSeekToFirst (iter_ st)) else with_iter st (iNext (iter_ st))
    | kForward =>
        let st := SaveKey (ExtractUserKey (iKey (iter_ st))) st in
        with_iter st (iNext (iter_ st))
    end in
  if negb (iValid (iter_ st)) then Some (SaveKey [] (with_valid st false))
  else FindNextUserEntry fuel true st.

(** *** Backward *)

Definition FindPrev_finish (value_type : ValueType) (st : DBIter) : DBIter :=
  match value_type with
  | kTypeDeletion => with_direction (with_saved (with_valid st false) [] []) kForward
  | _ => with_valid st true
  end.

Fixpoint FindPrev_loop (fuel : nat) (value_type : ValueType) (st : DBIter) : option DBIter :=
  match fuel with
  | O => None
  | S fuel =>
      let advance value_type st :=
        let st := with_iter st (iPrev (iter_ st)) in
        if iValid (iter_ st) then FindPrev_loop fuel value_type st else Some (FindPrev_finish value_type st) in
      match ParseKey st with
      | None => None
      | Some (None, st) => advance value_type st
      | Some (Some ikey, st) =>
          if sequence ikey <=? sequence_ then
            if bool_decide (value_type <> kTypeDeletion) && (cmp (user_key ikey) (saved_key_ st) <? 0)
            then Some (FindPrev_finish value_type st)
            else
              let value_type :=
                if RDL_IsDeleted global_range_dels_ (user_key ikey) (sequence ikey) sequence_
                then kTypeDeletion else type ikey in
              match value_type with
              | kTypeDeletion | kTypeRangeDeletion => advance value_type (with_saved st [] [])
              | kTypeValue =>
                  advance value_type (with_saved st (ExtractUserKey (iKey (iter_ st))) (iValue (iter_ st)))
              end
          else advance value_type st
      end
  end.

Definition FindPrevUserEntry (fuel : nat) (st : DBIter) : option DBIter :=
  if iValid (iter_ st) then FindPrev_loop fuel kTypeDeletion st else Some (FindPrev_finish kTypeDeletion st).

(** The loop of [Prev] that leaves the entries of the current key; [None] inside
    is the early return at the beginning. *)

Fixpoint Prev_loop (fuel : nat) (st : DBIter) : option (bool * DBIter) :=
  match fuel with
  | O => None
  | S fuel =>
      let st := with_iter st (iPrev (iter_ st)) in
      if negb (iValid (iter_ st)) then Some (false, with_saved (with_valid st false) [] [])
      else if cmp (ExtractUserKey (iKey (iter_ st))) (saved_key_ st) <? 0 then Some (true, st)
      else Prev_loop fuel st
  end.

Definition DI_Prev (fuel : nat) (st : DBIter) : option DBIter :=
  match direction_ st with
  | kForward =>
      match Prev_loop fuel (SaveKey (ExtractUserKey (iKey (iter_ st))) st) with
      | None => None
      | Some (false, st) => Some st
      | Some (true, st) => FindPrevUserEntry fuel (with_direction st kReverse)
      end
  | kReverse => FindPrevUserEntry fuel st
  end.

(** *** Positioning *)

Definition DI_Seek (fuel : nat) (target : bytes) (st : DBIter) : option DBIter :=
  let st := ClearSavedValue (with_direction st kForward) in
  let st := SaveKey (AppendInternalKey [] (mkParsed target sequence_ kValueTypeForSeek)) st in
  let st := with_iter st (iSeek (iter_ st) (saved_key_ st)) in
  if iValid (iter_ st) then FindNextUserEntry fuel false st else Some (with_valid st false).

Definition DI_SeekToFirst (fuel : nat) (st : DBIter) : option DBIter :=
  let st := ClearSavedValue (with_direction st kForward) in
  let st := with_iter st (iSeekToFirst (iter_ st)) in
  if iValid (iter_ st) then FindNextUserEntry fuel false st else Some (with_valid st false).

Definition DI_SeekToLast (fuel : nat) (st : DBIter) : option DBIter :=
  let st := ClearSavedValue (with_direction st kReverse) in
  let st := with_iter st (iSeekToLast (iter_ st)) in
  FindPrevUserEntry fuel st.

End DBIter.
