(* ===== verification/DbView.v ===== *)
(** * What a database iterator shows (db/db_iter.cc)

    The entries of the user as of a sequence number: of every user key the
    newest operation that is not too new, when it is a value that no visible
    range tombstone covers.  DBIter is shown to be a cursor on that list. *)

From S2P Require Import Prelude Coding Compare DbFormat Logging SkipList Iterator DbIter.
#[local] Open Scope Z_scope.
#[local] Open Scope ldb_scope.

(** ** Sampling ends *)

Definition seed_ok (r : Random) : Prop := 1 <= r <= 2147483646.

Lemma period_range r : seed_ok r -> 0 <= fst (RandomCompactionPeriod r) < 2097152 /\ seed_ok (snd (RandomCompactionPeriod r)).
Proof.
  intros Hr. destruct (random_next_lehmer r) as [_ H]. destruct (H Hr) as (_ & H2 & H3).
  unfold RandomCompactionPeriod, Random_Uniform. destruct (Random_Next r) as [v r']. cbn [fst snd] in *. subst r'.
  split; [apply Z.mod_pos_bound; reflexivity|exact H3].
Qed.

Lemma no_two_zero_draws : forallb (fun k => negb (fst (RandomCompactionPeriod (Z.of_nat k * 2097152)) =? 0)) (List.seq 1 1023) = true.
Proof. vm_compute. reflexivity. Qed.

Lemma draw_after_zero r : seed_ok r -> fst (RandomCompactionPeriod r) = 0 -> 0 < fst (RandomCompactionPeriod (snd (RandomCompactionPeriod r))).
Proof.
  intros Hr Hz. destruct (period_range r Hr) as [_ Hr']. destruct (period_range _ Hr') as [Hp _].
  assert (Hk : exists k, (1 <= k < 1024)%nat /\ snd (RandomCompactionPeriod r) = Z.of_nat k * 2097152).
  { revert Hz Hr'. unfold RandomCompactionPeriod, Random_Uniform. destruct (random_next_lehmer r) as [_ H]. destruct (H Hr) as (_ & H2 & _).
    destruct (Random_Next r) as [v r']. cbn [fst snd] in *. subst r'. change (2 * kReadBytesPeriod) with 2097152. intros Hz Hr'.
    pose proof (Z.div_mod v 2097152 ltac:(lia)) as Hd. unfold seed_ok in Hr'. exists (Z.to_nat (v / 2097152)). split; [|lia].
    assert (1 <= v / 2097152 < 1024) by (split; [apply Z.div_le_lower_bound; lia|apply Z.div_lt_upper_bound; lia]). lia. }
  destruct Hk as (k & Hk & ->). pose proof no_two_zero_draws as HN. rewrite forallb_forall in HN.
  specialize (HN k ltac:(apply in_seq; lia)). apply negb_true_iff, Z.eqb_neq in HN.
  destruct (period_range (Z.of_nat k * 2097152)) as [Hp' _]; [unfold seed_ok; lia|]. lia.
Qed.

Lemma sample_ok {D} (rs : D -> bytes -> D) k total : total < 2 ^ 63 -> forall n fuel remaining r db, seed_ok r -> 0 <= remaining ->
  total - remaining <= Z.of_nat n -> (2 * n <= fuel)%nat ->
  exists rem r' db', sample_loop rs fuel k total remaining r db = Some (rem, r', db') /\ total <= rem /\ seed_ok r'.
Proof.
  intros Ht. induction n as [|n IH]; intros fuel remaining r db Hr H0 Hn Hf.
  - exists remaining, r, db. split; [|split; [lia|exact Hr]]. destruct fuel; cbn [sample_loop]; rewrite (proj2 (Z.ltb_ge _ _)) by lia; reflexivity.
  - destruct (Z.ltb_spec remaining total) as [Hlt|Hge].
    2:{ exists remaining, r, db. split; [|split; [lia|exact Hr]]. destruct fuel; cbn [sample_loop]; rewrite (proj2 (Z.ltb_ge _ _)) by lia; reflexivity. }
    destruct fuel as [|[|fuel]]; [lia|lia|]. cbn [sample_loop]. rewrite (proj2 (Z.ltb_lt _ _)) by exact Hlt.
    destruct (period_range r Hr) as [Hp Hr1]. pose proof (draw_after_zero r Hr) as Hz. destruct (RandomCompactionPeriod r) as [p r1]. cbn [fst snd] in *.
    rewrite u64_small by lia. destruct (Z.eq_dec p 0) as [->|Hne].
    + specialize (Hz eq_refl). rewrite Z.add_0_r, (proj2 (Z.ltb_lt _ _)) by exact Hlt.
      destruct (period_range r1 Hr1) as [Hp2 Hr2]. destruct (RandomCompactionPeriod r1) as [p2 r2]. cbn [fst snd] in *.
      rewrite u64_small by lia. apply IH; [exact Hr2|lia|lia|lia].
    + destruct (IH (S fuel) (remaining + p) r1 (rs db k) Hr1 ltac:(lia) ltac:(lia) ltac:(lia)) as (rem & r' & db' & E & H).
      exists rem, r', db'. split; [exact E|exact H].
Qed.

(** ** The visible entries *)

Section View.
Context {U : Comparator} {UOK : ComparatorOk U} (rd : RangeDeletionList) (s : Z) (es : list entry).

Definition pk (e : entry) : ParsedInternalKey := default (mkParsed [] 0 kTypeDeletion) (ParseInternalKey (fst e)).

Definition uk (e : entry) : bytes := user_key (pk e).

Definition vis (e : entry) : bool := sequence (pk e) <=? s.

Definition covered (e : entry) : bool := RDL_IsDeleted rd (uk e) (sequence (pk e)) s.

(** A value that can be shown, and the operations on the key itself. *)

Definition cand (e : entry) : bool := vis e && bool_decide (type (pk e) = kTypeValue) && negb (covered e).

Definition point (e : entry) : bool := vis e && negb (bool_decide (type (pk e) = kTypeRangeDeletion)).

Definition live (i : nat) : bool :=
  match es !! i with
  | Some e => cand e && forallb (fun e' => negb (point e' && (cmp (uk e') (uk e) =? 0))) (take i es)
  | None => false
  end.

Definition view_index : list nat := List.filter live (List.seq 0 (length es)).

Definition view_entry (i : nat) : entry := match es !! i with Some e => (uk e, snd e) | None => ([], []) end.

Definition user_view : list entry := map view_entry view_index.

Lemma live_iff i : live i = true <-> exists e, es !! i = Some e /\ cand e = true /\
  forall j e', (j < i)%nat -> es !! j = Some e' -> point e' = true -> cmp (uk e') (uk e) <> 0.
Proof.
  unfold live. destruct (es !! i) as [e|]; [|split; [discriminate|intros (e & [=] & _)]].
  rewrite andb_true_iff, forallb_forall. split.
  - intros [Hc Hf]. exists e. split; [reflexivity|]. split; [exact Hc|]. intros j e' Hj He' Hp E.
    assert (Hin : In e' (take i es)).
    { apply list_elem_of_In, list_elem_of_lookup. exists j. rewrite lookup_take_lt by exact Hj. exact He'. }
    specialize (Hf e' Hin). rewrite Hp, E in Hf. discriminate Hf.
  - intros (e0 & [= <-] & Hc & Hn). split; [exact Hc|]. intros e' He'. apply list_elem_of_In, list_elem_of_lookup in He' as [j Hj].
    assert (Hlt : (j < i)%nat) by (destruct (decide (j < i)%nat); [assumption|rewrite lookup_take_ge in Hj by lia; discriminate]).
    rewrite lookup_take_lt in Hj by exact Hlt. destruct (point e') eqn:Ep; [|reflexivity]. cbn [andb].
    apply negb_true_iff, Z.eqb_neq. exact (Hn j e' Hlt Hj Ep).
Qed.

(** *** Positions in the view *)

Definition rank (i : nat) : nat := length (List.filter live (List.seq 0 i)).

Lemma rank_S i : rank (S i) = (rank i + if live i then 1 else 0)%nat.
Proof.
  unfold rank. rewrite seq_S, filter_app, length_app. cbn [Nat.add List.filter]. destruct (live i); reflexivity.
Qed.

Lemma rank_same i j : (i <= j)%nat -> (forall k, (i <= k < j)%nat -> live k = false) -> rank i = rank j.
Proof.
  induction 1 as [|j Hij IH]; intros Hn; [reflexivity|]. rewrite rank_S, (Hn j) by lia. rewrite Nat.add_0_r. apply IH. intros k Hk. apply Hn. lia.
Qed.

Lemma rank_end : rank (length es) = length view_index.
Proof. reflexivity. Qed.

Lemma live_lt i : live i = true -> (i < length es)%nat.
Proof. intros H. apply live_iff in H as (e & He & _). apply lookup_lt_Some in He. exact He. Qed.

Lemma view_index_rank i : live i = true -> view_index !! rank i = Some i.
Proof.
  intros Hi. pose proof (live_lt i Hi) as Hlt. unfold view_index, rank.
  replace (length es) with (i + (S (length es - S i)))%nat by lia. rewrite seq_app, filter_app. cbn [List.seq List.filter Nat.add].
  rewrite Hi, lookup_app_r, Nat.sub_diag by lia. reflexivity.
Qed.

Lemma user_view_rank i e : live i = true -> es !! i = Some e -> user_view !! rank i = Some (uk e, snd e).
Proof. intros Hi He. unfold user_view. rewrite list_lookup_fmap, view_index_rank by exact Hi. cbn. unfold view_entry. rewrite He. reflexivity. Qed.

Lemma rank_le i : (i <= length es)%nat -> (rank i <= length view_index)%nat.
Proof. intros Hi. rewrite <- rank_end. induction Hi as [|n Hn IH]; [lia|]. rewrite rank_S. lia. Qed.

(** *** The order of the entries *)

Record entries_ok : Prop := {
  vo_sorted : sorted_entries (InternalKeyComparator U) es;
  vo_parse : Forall (fun e => ParseInternalKey (fst e) <> None) es;
  vo_size : Forall (fun e => sz (fst e) + sz (snd e) < 2 ^ 63) es
}.

Context (HE : entries_ok).

Lemma pk_parse i e : es !! i = Some e -> ParseInternalKey (fst e) = Some (pk e) /\ ExtractUserKey (fst e) = uk e /\
  0 <= sequence (pk e) <= kMaxSequenceNumber /\ ExtractTag (fst e) = sequence (pk e) * 256 + vt_code (type (pk e)) /\ @cmp_dom U (uk e).
Proof.
  intros He. pose proof (vo_parse HE) as HP. rewrite list.Forall_lookup in HP. specialize (HP i e He). unfold uk, pk.
  destruct (ParseInternalKey (fst e)) as [p|] eqn:Ep; [|contradiction]. cbn. split; [reflexivity|].
  destruct (ParseInternalKey_Some _ _ Ep) as (Hs & Hk & _).
  assert (Hu : ExtractUserKey (fst e) = user_key p) by (rewrite Hk; apply mkInternalKey_user). split; [exact Hu|]. split; [exact Hs|]. split.
  - rewrite Hk, mkInternalKey_tag, PackSequenceAndType_eq by exact Hs. reflexivity.
  - rewrite <- Hu. apply (sorted_dom (C := InternalKeyComparator U) es i e (vo_sorted HE) He).
Qed.

Lemma view_entry_order i j e1 e2 : (i < j)%nat -> es !! i = Some e1 -> es !! j = Some e2 ->
  cmp (uk e1) (uk e2) <= 0 /\ (cmp (uk e1) (uk e2) = 0 -> sequence (pk e2) <= sequence (pk e1)).
Proof.
  intros Hij H1 H2. pose proof (sorted_lt (C := InternalKeyComparator U) es i j e1 e2 (vo_sorted HE) Hij H1 H2) as HL.
  destruct (pk_parse i e1 H1) as (_ & U1 & _ & T1 & _). destruct (pk_parse j e2 H2) as (_ & U2 & _ & T2 & _).
  cbn [cmp InternalKeyComparator] in HL. apply IKC_lt in HL. rewrite U1, U2, T1, T2 in HL.
  pose proof (vt_code_range (type (pk e1))). pose proof (vt_code_range (type (pk e2))). lia.
Qed.

Lemma order_le i j e1 e2 : (i <= j)%nat -> es !! i = Some e1 -> es !! j = Some e2 -> cmp (uk e1) (uk e2) <= 0.
Proof.
  intros Hij H1 H2. destruct (decide (i = j)) as [->|Hne].
  - assert (e1 = e2) as -> by congruence. destruct (pk_parse j e2 H2) as (_ & _ & _ & _ & Hd). rewrite (cmp_refl _ Hd). lia.
  - apply (view_entry_order i j); [lia|assumption|assumption].
Qed.

(** A covered entry is followed by covered entries of its key. *)

Lemma covered_older i j e1 e2 : (i < j)%nat -> es !! i = Some e1 -> es !! j = Some e2 -> cmp (uk e1) (uk e2) = 0 ->
  covered e1 = true -> covered e2 = true.
Proof.
  intros Hij H1 H2 E HC. destruct (view_entry_order i j e1 e2 Hij H1 H2) as [_ Hs]. specialize (Hs E).
  destruct (pk_parse i e1 H1) as (_ & _ & _ & _ & D1). destruct (pk_parse j e2 H2) as (_ & _ & _ & _ & D2).
  apply cmp_eq in E; [|assumption..]. unfold covered in *. rewrite <- E.
  exact (RDL_IsDeleted_mono rd (uk e1) _ _ _ _ Hs (Z.le_refl s) HC).
Qed.

(** An entry that is visible is followed by visible entries of its key. *)

Lemma visible_older i j e1 e2 : (i < j)%nat -> es !! i = Some e1 -> es !! j = Some e2 -> cmp (uk e1) (uk e2) = 0 ->
  vis e1 = true -> vis e2 = true.
Proof.
  intros Hij H1 H2 E HV. destruct (view_entry_order i j e1 e2 Hij H1 H2) as [_ Hs]. specialize (Hs E).
  unfold vis in *. rewrite Z.leb_le in *. lia.
Qed.

(** ** The iterator on the entries *)

Context {It D : Type} {IT : Iterator It} (RecordReadSample : D -> bytes -> D).
Context (Pos : nat -> It -> Prop) (HC : Cursor (InternalKeyComparator U) es Pos).
Abbreviation DBI := (@DBIter It D).

Definition sane (st : DBI) : Prop := seed_ok (rnd_ st) /\ 0 <= bytes_until_read_sampling_ st /\ status_ st = OK.

(** The same state but for the sampling. *)

Definition sampled (st st' : DBI) : Prop :=
  iter_ st' = iter_ st /\ saved_key_ st' = saved_key_ st /\ saved_value_ st' = saved_value_ st /\
  direction_ st' = direction_ st /\ valid_ st' = valid_ st.

Lemma ParseKey_ok st i e : sane st -> Pos i (iter_ st) -> es !! i = Some e ->
  exists st', ParseKey RecordReadSample st = Some (Some (pk e), st') /\ sampled st st' /\ sane st'.
Proof.
  intros (Hs & Hb & Ho) HPos He. destruct e as [k v]. destruct (cur_entry _ _ _ HC i (iter_ st) k v HPos He) as [Ek Ev].
  unfold ParseKey. rewrite Ek, Ev. destruct (pk_parse i (k, v) He) as (Ep & _). cbn [fst] in Ep.
  pose proof (vo_size HE) as HZ. rewrite list.Forall_lookup in HZ. specialize (HZ i (k, v) He). cbn [fst snd] in HZ.
  pose proof (sz_nonneg k). pose proof (sz_nonneg v).
  destruct (sample_ok RecordReadSample k (sz k + sz v) HZ (Z.to_nat (sz k + sz v)) (Z.to_nat (2 * (sz k + sz v))) (bytes_until_read_sampling_ st)
    (rnd_ st) (db_ st) Hs Hb) as (rem & r' & db' & -> & Hrem & Hr'); [lia|lia|].
  rewrite Ep. eexists. split; [reflexivity|]. split; [repeat split|]. split; [exact Hr'|]. split; [cbn; lia|exact Ho].
Qed.

(** *** Forward *)

(** From index [i] on, the wanted entries [T] are the candidates that the skip key
    does not block and that have no newer operation between [i] and them. *)

Record fwd_inv (T : nat -> bool) (i : nat) (skipping : bool) (k : bytes) : Prop := {
  fi_wanted : forall j e, (i <= j)%nat -> es !! j = Some e ->
    (T j = true <-> cand e = true /\ (skipping = true -> 0 < cmp (uk e) k) /\
       forall j' e', (i <= j' < j)%nat -> es !! j' = Some e' -> point e' = true -> cmp (uk e') (uk e) <> 0);
  fi_skip : skipping = true -> @cmp_dom U k /\
    forall j e, (i <= j)%nat -> es !! j = Some e -> vis e = true -> cmp k (uk e) <= 0
}.

(** The entry at [i] is not wanted and no operation on a key that is still wanted. *)

Lemma fwd_skip T i e skipping k : es !! i = Some e -> fwd_inv T i skipping k ->
  (forall j e', (i < j)%nat -> es !! j = Some e' -> cand e' = true -> (skipping = true -> 0 < cmp (uk e') k) ->
     point e = true -> cmp (uk e) (uk e') <> 0) ->
  fwd_inv T (S i) skipping k.
Proof.
  intros He [H1 H2] Hne. split.
  - intros j e' Hj He'. rewrite (H1 j e') by (try lia; exact He'). split; intros (Hc & Hk & Hn); (split; [exact Hc|]; split; [exact Hk|]).
    + intros j' e2 Hj'. apply Hn. lia.
    + intros j' e2 Hj' He2 Hp. destruct (decide (j' = i)) as [->|Hji].
      * assert (e2 = e) as -> by congruence. exact (Hne j e' ltac:(lia) He' Hc Hk Hp).
      * apply (Hn j' e2); [lia|exact He2|exact Hp].
  - intros Hsk. destruct (H2 Hsk) as [Hd Hv]. split; [exact Hd|]. intros j e' Hj. apply Hv. lia.
Qed.

Lemma cand_vis e : cand e = true -> vis e = true /\ type (pk e) = kTypeValue /\ covered e = false.
Proof. unfold cand. rewrite !andb_true_iff, bool_decide_eq_true, negb_true_iff. tauto. Qed.

Lemma point_iff e : point e = true <-> vis e = true /\ type (pk e) <> kTypeRangeDeletion.
Proof. unfold point. rewrite andb_true_iff, negb_true_iff, bool_decide_eq_false. reflexivity. Qed.

(** After a deletion its key is skipped. *)

Lemma fwd_deletion T i e skipping k : es !! i = Some e -> vis e = true -> type (pk e) = kTypeDeletion -> fwd_inv T i skipping k ->
  fwd_inv T (S i) true (uk e).
Proof.
  intros He Hv Ht [H1 H2]. destruct (pk_parse i e He) as (_ & _ & _ & _ & Hd).
  assert (Hp : point e = true) by (apply point_iff; rewrite Ht; split; [exact Hv|discriminate]). split.
  - intros j e' Hj He'. rewrite (H1 j e') by (try lia; exact He'). destruct (pk_parse j e' He') as (_ & _ & _ & _ & Hd').
    pose proof (order_le i j e e' ltac:(lia) He He') as Hle. pose proof (cmp_sgn (uk e) (uk e') Hd Hd') as Hsg.
    split; intros (Hc & Hk & Hn); (split; [exact Hc|]; split).
    + intros _. pose proof (Hn i e ltac:(lia) He Hp). lia.
    + intros j' e2 Hj'. apply Hn. lia.
    + intros Hsk. destruct (H2 Hsk) as [Hdk Hvk]. pose proof (Hvk i e ltac:(lia) He Hv) as Hki. specialize (Hk eq_refl).
      assert (Hlt : cmp k (uk e') < 0).
      { destruct (Z.eq_dec (cmp k (uk e)) 0) as [E|E].
        - apply cmp_eq in E; [|assumption..]. subst k. lia.
        - apply (cmp_trans k (uk e) (uk e')); [assumption..|lia|lia]. }
      pose proof (cmp_sgn k (uk e') Hdk Hd'). lia.
    + intros j' e2 Hj' He2 Hp2. destruct (decide (j' = i)) as [->|Hji].
      * assert (e2 = e) as -> by congruence. specialize (Hk eq_refl). lia.
      * apply (Hn j' e2); [lia|exact He2|exact Hp2].
  - intros _. split; [exact Hd|]. intros j e' Hj He' _. apply (order_le i j); [lia|assumption|assumption].
Qed.

(** What is found: the first wanted entry at or after [i], or none. *)

Inductive fwd_found (T : nat -> bool) (i : nat) (st st' : DBI) : Prop :=
| ff_entry j e : (i <= j)%nat -> es !! j = Some e -> T j = true -> (forall j', (i <= j' < j)%nat -> T j' = false) ->
    Pos j (iter_ st') -> valid_ st' = true -> direction_ st' = direction_ st -> fwd_found T i st st'
| ff_none : (forall j', (i <= j' < length es)%nat -> T j' = false) ->
    Pos (length es) (iter_ st') -> valid_ st' = false -> direction_ st' = direction_ st -> fwd_found T i st st'.

Lemma fwd_found_step T i st st1 st' : T i = false -> direction_ st1 = direction_ st -> fwd_found T (S i) st1 st' -> fwd_found T i st st'.
Proof.
  intros HT Hd [j e Hj He HTj Hn HP Hv Hdir|Hn HP Hv Hdir].
  - apply (ff_entry T i st st' j e); try assumption; [lia| |congruence]. intros j' Hj'. destruct (decide (j' = i)) as [->|]; [exact HT|apply Hn; lia].
  - apply ff_none; try assumption; [|congruence]. intros j' Hj'. destruct (decide (j' = i)) as [->|]; [exact HT|apply Hn; lia].
Qed.

Lemma unwanted T i e skipping k : es !! i = Some e -> fwd_inv T i skipping k ->
  (cand e = false \/ (skipping = true /\ cmp (uk e) k <= 0)) -> T i = false.
Proof.
  intros He [H1 _] Hno. destruct (T i) eqn:ET; [|reflexivity]. apply (H1 i e) in ET; [|lia|exact He].
  destruct ET as (Hc & Hk & _). destruct Hno as [Hno|[Hs Hno]]; [congruence|]. specialize (Hk Hs). lia.
Qed.

Abbreviation FNUE := (FindNextUserEntry U RecordReadSample rd s).

(** One turn that goes on. *)

Lemma advance_found T i e skipping st st1 fuel :
  es !! i = Some e -> sane st1 -> Pos i (iter_ st1) -> direction_ st1 = direction_ st ->
  T i = false -> fwd_inv T (S i) skipping (saved_key_ st1) ->
  (forall st2, sane st2 -> Pos (S i) (iter_ st2) -> (S i < length es)%nat -> saved_key_ st2 = saved_key_ st1 -> direction_ st2 = direction_ st ->
     exists st', FNUE fuel skipping st2 = Some st' /\ fwd_found T (S i) st2 st' /\ sane st') ->
  exists st', FindNext_advance (FNUE fuel) skipping st1 = Some st' /\ fwd_found T i st st' /\ sane st'.
Proof.
  intros He Hs HP Hd HT HI HR. assert (Hlt : (i < length es)%nat) by (apply lookup_lt_Some in He; exact He).
  pose proof (cur_next _ _ _ HC i _ HP Hlt) as HP2. unfold FindNext_advance. cbn [iter_ with_iter ClearSavedValue with_saved with_direction saved_key_ SaveKey].
  rewrite (cur_valid _ _ _ HC (S i) _ HP2). destruct (Nat.ltb_spec (S i) (length es)) as [Hl|Hl].
  - destruct (HR (with_iter st1 (iNext (iter_ st1))) Hs HP2 Hl eq_refl Hd) as (st' & E & HF & Hs').
    exists st'. split; [exact E|]. split; [|exact Hs']. apply (fwd_found_step T i st (with_iter st1 (iNext (iter_ st1)))); assumption.
  - eexists. split; [reflexivity|]. split; [|exact Hs]. apply ff_none; cbn.
    + intros j' Hj'. assert (j' = i) as -> by lia. exact HT.
    + replace (length es) with (S i) by lia. exact HP2.
    + reflexivity.
    + exact Hd.
Qed.

Lemma find_next T fuel : forall i skipping st, sane st -> Pos i (iter_ st) -> (i < length es)%nat ->
  (length es - i < fuel)%nat -> fwd_inv T i skipping (saved_key_ st) ->
  exists st', FNUE fuel skipping st = Some st' /\ fwd_found T i st st' /\ sane st'.
Proof.
  induction fuel as [|fuel IH]; intros i skipping st Hs HP Hi Hf HI; [lia|]. cbn [FindNextUserEntry].
  destruct (lookup_lt_is_Some_2 es i Hi) as [e He]. destruct (ParseKey_ok st i e Hs HP He) as (st1 & -> & (E1 & E2 & E3 & E4 & E5) & Hs1).
  assert (HP1 : Pos i (iter_ st1)) by (rewrite E1; exact HP). rewrite <- E2 in HI.
  assert (HR : forall skipping' k, fwd_inv T (S i) skipping' k ->
    forall st2 : DBI, sane st2 -> Pos (S i) (iter_ st2) -> (S i < length es)%nat -> saved_key_ st2 = k -> direction_ st2 = direction_ st ->
    exists st', FNUE fuel skipping' st2 = Some st' /\ fwd_found T (S i) st2 st' /\ sane st').
  { intros skipping' k HI3 st2 Hs2 HP2 Hl Hk Hd. apply IH; [exact Hs2|exact HP2|exact Hl|lia|rewrite Hk; exact HI3]. }
  fold (vis e). fold (uk e). destruct (vis e) eqn:Ev.
  2:{ assert (HI' : fwd_inv T (S i) skipping (saved_key_ st1)).
      { apply (fwd_skip T i e); [exact He|exact HI|]. intros j e' _ _ _ _ Hp. apply point_iff in Hp. destruct Hp. congruence. }
      apply (advance_found T i e); try assumption.
      - apply (unwanted T i e skipping (saved_key_ st1)); try assumption. left. unfold cand. rewrite Ev. reflexivity.
      - apply HR, HI'. }
  destruct (type (pk e)) eqn:Et.
  - pose proof (fwd_deletion T i e skipping _ He Ev Et HI) as HI'. apply (advance_found T i e); try assumption.
    + apply (unwanted T i e skipping (saved_key_ st1)); try assumption. left. unfold cand. rewrite Et, andb_false_r. reflexivity.
    + apply HR, HI'.
  - fold (covered e). destruct (covered e) eqn:Ec.
    + assert (HI' : fwd_inv T (S i) skipping (saved_key_ st1)).
      { apply (fwd_skip T i e); [exact He|exact HI|]. intros j e' Hj He' Hc' _ _ E.
        apply cand_vis in Hc' as (_ & _ & Hc'). rewrite (covered_older i j e e' Hj He He' E Ec) in Hc'. discriminate. }
      apply (advance_found T i e); try assumption.
      * apply (unwanted T i e skipping (saved_key_ st1)); try assumption. left. unfold cand. rewrite Ec, andb_false_r. reflexivity.
      * apply HR, HI'.
    + destruct (skipping && (cmp (uk e) (saved_key_ st1) <=? 0)) eqn:Eb.
      * apply andb_true_iff in Eb as [-> Eb]. apply Z.leb_le in Eb. destruct (fi_skip _ _ _ _ HI eq_refl) as [Hdk Hvk].
        destruct (pk_parse i e He) as (_ & _ & _ & _ & Hd). pose proof (Hvk i e ltac:(lia) He Ev) as Hle.
        pose proof (cmp_sgn (uk e) (saved_key_ st1) Hd Hdk) as Hsg.
        assert (Eq : uk e = saved_key_ st1) by (apply cmp_eq; [assumption..|lia]).
        assert (HI' : fwd_inv T (S i) true (saved_key_ st1)).
        { apply (fwd_skip T i e); [exact He|exact HI|]. intros j e' Hj He' _ Hk _ E. specialize (Hk eq_refl).
          destruct (pk_parse j e' He') as (_ & _ & _ & _ & Hd'). apply cmp_eq in E; [|assumption..]. rewrite <- E, Eq, cmp_refl in Hk by exact Hdk. lia. }
        apply (advance_found T i e); try assumption.
        -- apply (unwanted T i e true (saved_key_ st1)); try assumption. right. auto.
        -- apply HR, HI'.
      * eexists. split; [reflexivity|]. split; [|exact Hs1]. apply (ff_entry T i st _ i e); cbn; try assumption; try lia; try reflexivity.
        apply (fi_wanted _ _ _ _ HI i e); [lia|exact He|]. split; [unfold cand; rewrite Ev, Et, Ec; reflexivity|]. split; [|intros; lia].
        intros ->. cbn [andb] in Eb. apply Z.leb_gt in Eb. exact Eb.
  - assert (HI' : fwd_inv T (S i) skipping (saved_key_ st1)).
    { apply (fwd_skip T i e); [exact He|exact HI|]. intros j e' _ _ _ _ Hp. apply point_iff in Hp. destruct Hp. congruence. }
    apply (advance_found T i e); try assumption.
    + apply (unwanted T i e skipping (saved_key_ st1)); try assumption. left. unfold cand. rewrite Et, andb_false_r. reflexivity.
    + apply HR, HI'.
Qed.

(** *** Backward *)

(** The candidates with no newer operation at or after [b]. *)

Definition live_from (b j : nat) : Prop := exists e, es !! j = Some e /\ cand e = true /\
  forall j' e', (b <= j' < j)%nat -> es !! j' = Some e' -> point e' = true -> cmp (uk e') (uk e) <> 0.

Lemma live_live_from b j : live j = true -> live_from b j.
Proof. intros H. apply live_iff in H as (e & He & Hc & Hn). exists e. split; [exact He|]. split; [exact Hc|]. intros j' e' Hj'. apply Hn. lia. Qed.

Lemma live_from_le b b' j : (b <= b')%nat -> live_from b j -> live_from b' j.
Proof. intros Hb (e & He & Hc & Hn). exists e. split; [exact He|]. split; [exact Hc|]. intros j' e' Hj'. apply Hn. lia. Qed.

(** Range markers in the entries: they cover what is older of their own key, and
    the first visible entry is not one of them. *)

Record markers_ok : Prop := {
  mo_cover : forall i j e1 e2, (i < j)%nat -> es !! i = Some e1 -> es !! j = Some e2 -> cmp (uk e1) (uk e2) = 0 ->
    vis e1 = true -> type (pk e1) = kTypeRangeDeletion -> covered e2 = true;
  mo_first : forall i e, es !! i = Some e -> vis e = true -> type (pk e) = kTypeRangeDeletion ->
    exists j e', (j < i)%nat /\ es !! j = Some e' /\ vis e' = true;
  mo_empty : forall i e, es !! i = Some e -> vis e = true -> 0 <= cmp (uk e) []
}.

Definition invisible (a b : nat) : Prop := forall j e, (a <= j < b)%nat -> es !! j = Some e -> vis e = false.

Inductive bwd_inv (p b : nat) : ValueType -> bytes -> bytes -> Prop :=
| bi_value j e : (b <= j <= p)%nat -> es !! j = Some e -> cand e = true -> invisible b j ->
    (forall j', (j < j' <= p)%nat -> ~ live_from b j') -> bwd_inv p b kTypeValue (uk e) (snd e)
| bi_deletion k v : (forall j, (b <= j <= p)%nat -> ~ live_from b j) -> bwd_inv p b kTypeDeletion k v
| bi_marker j e : (b <= j <= p)%nat -> es !! j = Some e -> vis e = true -> type (pk e) = kTypeRangeDeletion -> invisible b j ->
    (forall j, (b <= j <= p)%nat -> ~ live_from b j) -> bwd_inv p b kTypeRangeDeletion [] [].

(** Where the iterator stands before the entries of the key of [j]. *)

Inductive before (j : nat) (e : entry) : nat -> Prop :=
| be_start : invisible 0 j -> before j e (length es)
| be_entry q e' : (q < j)%nat -> es !! q = Some e' -> vis e' = true -> cmp (uk e') (uk e) < 0 -> invisible (S q) j -> before j e q.

Inductive bwd_found (p : nat) (st st' : DBI) : Prop :=
| bf_entry j e q : (j <= p)%nat -> es !! j = Some e -> live j = true -> (forall j', (j < j' <= p)%nat -> live j' = false) ->
    saved_key_ st' = uk e -> saved_value_ st' = snd e -> valid_ st' = true -> direction_ st' = direction_ st ->
    before j e q -> Pos q (iter_ st') -> bwd_found p st st'
| bf_none : (forall j', (j' <= p)%nat -> live j' = false) -> valid_ st' = false -> Pos (length es) (iter_ st') -> bwd_found p st st'.

(** An invisible entry changes nothing. *)

Lemma bwd_invisible p b e vt k v : es !! b = Some e -> vis e = false -> bwd_inv p (S b) vt k v -> bwd_inv p b vt k v.
Proof.
  intros He Hv HI.
  assert (Hl : forall j, live_from b j -> (b < j)%nat -> live_from (S b) j) by (intros j H _; exact (live_from_le b (S b) j ltac:(lia) H)).
  assert (Hb : ~ live_from b b).
  { intros (e0 & He0 & Hc & _). assert (e0 = e) as -> by congruence. apply cand_vis in Hc as [Hc _]. congruence. }
  assert (Hi : forall j, invisible (S b) j -> invisible b j).
  { intros j H x e0 Hx He0. destruct (decide (x = b)) as [->|]; [congruence|]. apply (H x e0); [lia|exact He0]. }
  destruct HI as [j e0 Hj He0 Hc Hin Hn|k v Hn|j e0 Hj He0 Hv0 Ht Hin Hn].
  - apply (bi_value p b j e0); try assumption; [lia|apply Hi, Hin|]. intros j' Hj' HL. apply (Hn j' Hj'). apply Hl; [exact HL|lia].
  - apply bi_deletion. intros j Hj HL. destruct (decide (j = b)) as [->|]; [exact (Hb HL)|]. apply (Hn j); [lia|]. apply Hl; [exact HL|lia].
  - apply (bi_marker p b j e0); try assumption; [lia|apply Hi, Hin|]. intros j' Hj' HL.
    destruct (decide (j' = b)) as [->|]; [exact (Hb HL)|]. apply (Hn j'); [lia|]. apply Hl; [exact HL|lia].
Qed.

(** A visible entry of the key at hand, or of another one when nothing is held. *)

Lemma bwd_old_dead p b e vt k v : es !! b = Some e -> vis e = true -> bwd_inv p (S b) vt k v -> markers_ok ->
  (vt = kTypeValue -> 0 <= cmp (uk e) k) -> forall j, (b < j <= p)%nat -> ~ live_from b j.
Proof.
  intros He Hv HI HMk Hk j Hj HL. destruct HI as [j0 e0 Hj0 He0 Hc Hin Hn|k v Hn|j0 e0 Hj0 He0 Hv0 Ht Hin Hn].
  2,3: apply (Hn j); [lia|exact (live_from_le b (S b) j ltac:(lia) HL)].
  destruct (Nat.lt_trichotomy j j0) as [Hlt|[->|Hgt]].
  - destruct HL as (e1 & He1 & Hc1 & _). apply cand_vis in Hc1 as [Hc1 _]. rewrite (Hin j e1) in Hc1 by (try lia; exact He1). discriminate.
  - destruct HL as (e1 & He1 & Hc1 & Hn1). assert (e1 = e0) as -> by congruence. specialize (Hk eq_refl).
    pose proof (order_le b j0 e e0 ltac:(lia) He He0) as Hle.
    assert (Eq : cmp (uk e) (uk e0) = 0) by lia.
    destruct (point e) eqn:Ep; [exact (Hn1 b e ltac:(lia) He Ep Eq)|].
    assert (Ht : type (pk e) = kTypeRangeDeletion).
    { unfold point in Ep. rewrite Hv in Ep. cbn [andb] in Ep. apply negb_false_iff, bool_decide_eq_true in Ep. exact Ep. }
    pose proof (mo_cover HMk b j0 e e0 ltac:(lia) He He0 Eq Hv Ht) as Hcov. apply cand_vis in Hc1 as (_ & _ & Hc1). congruence.
  - apply (Hn j); [lia|exact (live_from_le b (S b) j ltac:(lia) HL)].
Qed.

(** The end of the scan: what is held is the answer. *)

Lemma bwd_answer p b st vt k v q (st' : DBI) : bwd_inv p b vt k v -> saved_key_ st = k -> saved_value_ st = v -> vt <> kTypeRangeDeletion ->
  (forall j, (j < b)%nat -> vt = kTypeDeletion -> live j = false) ->
  (forall j e, (b <= j)%nat -> es !! j = Some e -> uk e = k -> vt = kTypeValue -> invisible b j -> before j e q /\
     forall j' e', (j' < b)%nat -> es !! j' = Some e' -> point e' = true -> cmp (uk e') (uk e) <> 0) ->
  (vt = kTypeDeletion -> q = length es) -> Pos q (iter_ st) -> bwd_found p st (FindPrev_finish vt st).
Proof.
  intros HI Ek Ev Hvt Hlow Hbe Hq HP. destruct HI as [j e Hj He Hc Hin Hn|k v Hn|]; [| |congruence].
  - destruct (Hbe j e ltac:(lia) He eq_refl eq_refl Hin) as [Hb Hlo]. apply (bf_entry p st _ j e q); cbn; try assumption; try reflexivity; try lia.
    + apply live_iff. exists e. split; [exact He|]. split; [exact Hc|]. intros j' e' Hj' He' Hp.
      destruct (decide (j' < b)%nat) as [Hlt|Hge]; [exact (Hlo j' e' Hlt He' Hp)|].
      apply point_iff in Hp as [Hp _]. rewrite (Hin j' e') in Hp by (try lia; exact He'). discriminate.
    + intros j' Hj'. apply not_true_is_false. intros HL. exact (Hn j' Hj' (live_live_from b j' HL)).
  - apply bf_none; cbn; try reflexivity.
    + intros j' Hj'. destruct (decide (j' < b)%nat) as [Hlt|Hge]; [apply Hlow; auto|].
      apply not_true_is_false. intros HL. exact (Hn j' ltac:(lia) (live_live_from b j' HL)).
    + rewrite <- (Hq eq_refl). exact HP.
Qed.

Lemma bwd_found_dir p st st1 st' : direction_ st1 = direction_ st -> bwd_found p st1 st' -> bwd_found p st st'.
Proof.
  intros Hd [j e q H1 H2 H3 H4 H5 H6 H7 H8 H9 H10|H1 H2 H3]; [|apply bf_none; assumption].
  apply (bf_entry p st st' j e q); try assumption. congruence.
Qed.

Context (HM : markers_ok).
Abbreviation FPL := (FindPrev_loop U RecordReadSample rd s).

Lemma prev_advance p i e vt st st1 fuel : es !! i = Some e -> sane st1 -> Pos i (iter_ st1) -> direction_ st1 = direction_ st ->
  bwd_inv p i vt (saved_key_ st1) (saved_value_ st1) ->
  (forall st2, sane st2 -> Pos (Nat.pred i) (iter_ st2) -> (0 < i)%nat -> bwd_inv p i vt (saved_key_ st2) (saved_value_ st2) ->
     direction_ st2 = direction_ st -> exists st', FPL fuel vt st2 = Some st' /\ bwd_found p st2 st' /\ sane st') ->
  exists st', (let st2 := with_iter st1 (iPrev (iter_ st1)) in
               if iValid (iter_ st2) then FPL fuel vt st2 else Some (FindPrev_finish vt st2)) = Some st' /\ bwd_found p st st' /\ sane st'.
Proof.
  intros He Hs HP Hd HI HR. assert (Hlt : (i < length es)%nat) by (apply lookup_lt_Some in He; exact He).
  pose proof (cur_prev _ _ _ HC i _ HP Hlt) as HP2. cbv zeta. cbn [iter_ with_iter ClearSavedValue with_saved with_direction saved_key_ SaveKey].
  rewrite (cur_valid _ _ _ HC _ _ HP2). destruct (Nat.eqb_spec i 0) as [->|Hne].
  - rewrite Nat.ltb_irrefl. eexists. split; [reflexivity|].
    set (st2 := with_iter st1 (iPrev (iter_ st1))). split.
    2:{ destruct vt; exact Hs. }
    apply (bwd_found_dir p st st2); [exact Hd|].
    apply (bwd_answer p 0 st2 vt (saved_key_ st1) (saved_value_ st1) (length es)); try assumption; try reflexivity.
    + intros ->. inversion HI as [| |j e0 Hj He0 Hv0 Ht0 Hin Hn E1 E2]. destruct (mo_first HM j e0 He0 Hv0 Ht0) as (j' & e' & Hj' & He' & Hv').
      rewrite (Hin j' e') in Hv' by (try lia; exact He'). discriminate.
    + intros j Hj. lia.
    + intros j e0 _ He0 _ _ Hin. split; [apply be_start, Hin|]. intros; lia.
  - rewrite (proj2 (Nat.ltb_lt _ _)) by lia.
    destruct (HR (with_iter st1 (iPrev (iter_ st1))) Hs HP2 ltac:(lia) HI Hd) as (st' & E & HF & Hs').
    exists st'. split; [exact E|]. split; [|exact Hs']. apply (bwd_found_dir p st (with_iter st1 (iPrev (iter_ st1)))); assumption.
Qed.

Lemma find_prev p fuel : forall i vt st, sane st -> Pos i (iter_ st) -> (i < length es)%nat -> (i <= p)%nat -> (i < fuel)%nat ->
  bwd_inv p (S i) vt (saved_key_ st) (saved_value_ st) ->
  exists st', FPL fuel vt st = Some st' /\ bwd_found p st st' /\ sane st'.
Proof.
  induction fuel as [|fuel IH]; intros i vt st Hs HP Hi Hp Hf HI; [lia|]. cbn [FindPrev_loop].
  destruct (lookup_lt_is_Some_2 es i Hi) as [e He]. destruct (ParseKey_ok st i e Hs HP He) as (st1 & -> & (E1 & E2 & E3 & E4 & E5) & Hs1).
  assert (HP1 : Pos i (iter_ st1)) by (rewrite E1; exact HP). rewrite <- E2, <- E3 in HI.
  assert (HR : forall vt' st2, sane st2 -> Pos (Nat.pred i) (iter_ st2) -> (0 < i)%nat -> bwd_inv p i vt' (saved_key_ st2) (saved_value_ st2) ->
     direction_ st2 = direction_ st -> exists st', FPL fuel vt' st2 = Some st' /\ bwd_found p st2 st' /\ sane st').
  { intros vt' st2 Hs2 HP2 H0 HI2 _. apply (IH (Nat.pred i)); [exact Hs2|exact HP2|lia|lia|lia|]. replace (S (Nat.pred i)) with i by lia. exact HI2. }
  fold (vis e). fold (uk e). destruct (vis e) eqn:Ev.
  2:{ apply (prev_advance p i e vt st st1); try assumption; [exact (bwd_invisible p i e vt _ _ He Ev HI)|apply HR]. }
  destruct (bool_decide (vt <> kTypeDeletion) && (cmp (uk e) (saved_key_ st1) <? 0)) eqn:Eb.
  - apply andb_true_iff in Eb as [Evt Eb]. apply bool_decide_eq_true in Evt. apply Z.ltb_lt in Eb.
    eexists. split; [reflexivity|]. split; [|destruct vt; exact Hs1].
    apply (bwd_found_dir p st st1 _ E4).
    apply (bwd_answer p (S i) st1 vt (saved_key_ st1) (saved_value_ st1) i); try assumption; try reflexivity; try contradiction.
    + intros ->. inversion HI as [| |j e0 Hj He0 Hv0 Ht0 Hin Hn E6 E7]. match goal with E : [] = saved_key_ st1 |- _ => rewrite <- E in Eb end. pose proof (mo_empty HM i e He Ev). lia.
    + intros j e0 Hj He0 Hk _ Hin. rewrite <- Hk in Eb. split; [exact (be_entry j e0 i e ltac:(lia) He Ev Eb Hin)|].
      intros j' e' Hj' He' _. pose proof (order_le j' i e' e ltac:(lia) He' He) as Hle.
      destruct (pk_parse j' e' He') as (_ & _ & _ & _ & D1). destruct (pk_parse i e He) as (_ & _ & _ & _ & D2). destruct (pk_parse j e0 He0) as (_ & _ & _ & _ & D3).
      intros E0. apply cmp_eq in E0; [|assumption..]. rewrite E0 in Hle. pose proof (cmp_sgn (uk e) (uk e0) D2 D3). lia.
  - assert (Hk : vt = kTypeValue -> 0 <= cmp (uk e) (saved_key_ st1)).
    { intros ->. rewrite bool_decide_eq_true_2 in Eb by discriminate. cbn [andb] in Eb. apply Z.ltb_ge in Eb. exact Eb. }
    pose proof (bwd_old_dead p i e vt _ _ He Ev HI HM Hk) as Hdead.
    assert (Hdel : forall k v, cand e = false -> bwd_inv p i kTypeDeletion k v).
    { intros k v Hc. apply bi_deletion. intros j Hj HL. destruct (decide (j = i)) as [->|Hne]; [|exact (Hdead j ltac:(lia) HL)].
      destruct HL as (e0 & He0 & Hc0 & _). assert (e0 = e) as -> by congruence. congruence. }
    fold (covered e). destruct (covered e) eqn:Ec.
    { apply (prev_advance p i e kTypeDeletion st (with_saved st1 [] [])); try assumption; [|apply HR].
      apply Hdel. unfold cand. rewrite Ec, andb_false_r. reflexivity. }
    destruct (type (pk e)) eqn:Et.
    + apply (prev_advance p i e kTypeDeletion st (with_saved st1 [] [])); try assumption; [|apply HR].
      apply Hdel. unfold cand. rewrite Et, andb_false_r. reflexivity.
    + destruct e as [k0 v0]. destruct (cur_entry _ _ _ HC i _ k0 v0 HP1 He) as [Ek Ev0]. rewrite Ek, Ev0.
      destruct (pk_parse i (k0, v0) He) as (_ & Eu & _). cbn [fst] in Eu. rewrite Eu.
      apply (prev_advance p i (k0, v0) kTypeValue st (with_saved st1 (uk (k0, v0)) v0)); try assumption; [|apply HR].
      cbn [saved_key_ saved_value_ with_saved]. apply (bi_value p i i (k0, v0)); try assumption; [lia| |].
      * unfold cand. rewrite Ev, Et, Ec. reflexivity.
      * intros j e0 Hj. lia.
    + apply (prev_advance p i e kTypeRangeDeletion st (with_saved st1 [] [])); try assumption; [|apply HR].
      cbn [saved_key_ saved_value_ with_saved]. apply (bi_marker p i i e); try assumption; [lia|intros j e0 Hj; lia|].
      intros j Hj HL. destruct (decide (j = i)) as [->|Hne]; [|exact (Hdead j ltac:(lia) HL)].
      destruct HL as (e0 & He0 & Hc0 & _). assert (e0 = e) as -> by congruence. apply cand_vis in Hc0 as (_ & Hc0 & _). congruence.
Qed.

(** *** The positions of the iterator in the view *)

Context (Hs0 : 0 <= s <= kMaxSequenceNumber).

Inductive DPos (m : nat) (st : DBI) : Prop :=
| dp_forward j e : sane st -> direction_ st = kForward -> valid_ st = true -> live j = true -> es !! j = Some e -> rank j = m ->
    Pos j (iter_ st) -> DPos m st
| dp_reverse j e q : sane st -> direction_ st = kReverse -> valid_ st = true -> live j = true -> es !! j = Some e -> rank j = m ->
    saved_key_ st = uk e -> saved_value_ st = snd e -> before j e q -> Pos q (iter_ st) -> DPos m st
| dp_invalid i : sane st -> valid_ st = false -> m = length view_index -> Pos i (iter_ st) -> DPos m st.

Lemma fwd_rank i st st' : fwd_found live i st st' -> (i <= length es)%nat -> sane st' -> direction_ st = kForward -> DPos (rank i) st'.
Proof.
  intros [j e Hj He HT Hn HP Hv Hd|Hn HP Hv Hd] Hi Hs' Hf.
  - apply (dp_forward _ _ j e); try assumption; [congruence|]. symmetry. apply rank_same; assumption.
  - apply (dp_invalid _ _ (length es)); try assumption. rewrite <- rank_end. apply rank_same; [exact Hi|exact Hn].
Qed.

Lemma bwd_rank p st st' : bwd_found p st st' -> sane st' -> direction_ st = kReverse -> (p < length es)%nat ->
  DPos (if (rank (S p) =? 0)%nat then length view_index else Nat.pred (rank (S p))) st'.
Proof.
  intros [j e q Hj He HT Hn Hk Hv Hval Hd Hb HP|Hn Hv HP] Hs' Hf Hp.
  - assert (ER : rank (S p) = S (rank j)).
    { rewrite <- (rank_same (S j) (S p)); [rewrite rank_S, HT; lia|lia|]. intros k Hk'. apply Hn. lia. }
    rewrite ER. cbn [Nat.eqb Nat.pred]. apply (dp_reverse _ _ j e q); try assumption; [congruence|reflexivity].
  - assert (ER : rank (S p) = 0%nat) by (rewrite <- (rank_same 0 (S p)); [reflexivity|lia|intros k Hk; apply Hn; lia]).
    rewrite ER. cbn. exact (dp_invalid _ _ _ Hs' Hv eq_refl HP).
Qed.

(** Every position has a position of the internal iterator. *)

Lemma DPos_sane m st : DPos m st -> sane st /\ exists i, Pos i (iter_ st).
Proof. intros [j e Hs _ _ _ _ _ HP|j e q Hs _ _ _ _ _ _ _ _ HP|i Hs _ _ HP]; split; eauto. Qed.

Lemma live_inv0 k : fwd_inv live 0 false k.
Proof.
  split; [|discriminate]. intros j e _ He. rewrite live_iff. split.
  - intros (e0 & He0 & Hc & Hn). assert (e0 = e) as -> by congruence. split; [exact Hc|]. split; [discriminate|]. intros j' e' Hj'. apply Hn. lia.
  - intros (Hc & _ & Hn). exists e. split; [exact He|]. split; [exact Hc|]. intros j' e' Hj'. apply Hn. lia.
Qed.

Abbreviation big fuel := (length es < fuel)%nat.

Lemma SeekToFirst_ok m st fuel : DPos m st -> big fuel ->
  exists st', DI_SeekToFirst U RecordReadSample rd s fuel st = Some st' /\ DPos 0 st'.
Proof.
  intros HD Hf. destruct (DPos_sane m st HD) as [Hs [i HP]]. unfold DI_SeekToFirst. cbn [iter_ with_iter ClearSavedValue with_saved with_direction saved_key_ SaveKey].
  pose proof (cur_first _ _ _ HC i _ HP) as HP1. rewrite (cur_valid _ _ _ HC _ _ HP1).
  destruct (Nat.ltb_spec 0 (length es)) as [Hl|Hl].
  - match goal with |- context [FindNextUserEntry U RecordReadSample rd s fuel false ?st1] =>
      destruct (find_next live fuel 0 false st1 Hs HP1 Hl ltac:(lia) (live_inv0 _)) as (st' & E & HF & Hs') end.
    exists st'. split; [exact E|]. exact (fwd_rank 0 _ _ HF ltac:(lia) Hs' eq_refl).
  - eexists. split; [reflexivity|]. apply (dp_invalid _ _ 0); [exact Hs|reflexivity| |exact HP1].
    unfold view_index. replace (length es) with 0%nat by lia. reflexivity.
Qed.

Lemma SeekToLast_ok m st fuel : DPos m st -> big fuel ->
  exists st', DI_SeekToLast U RecordReadSample rd s fuel st = Some st' /\ DPos (Nat.pred (length view_index)) st'.
Proof.
  intros HD Hf. destruct (DPos_sane m st HD) as [Hs [i HP]]. unfold DI_SeekToLast, FindPrevUserEntry. cbn [iter_ with_iter ClearSavedValue with_saved with_direction saved_key_ SaveKey].
  pose proof (cur_last _ _ _ HC i _ HP) as HP1. rewrite (cur_valid _ _ _ HC _ _ HP1).
  destruct (Nat.ltb_spec (Nat.pred (length es)) (length es)) as [Hl|Hl].
  - match goal with |- context [FindPrev_loop U RecordReadSample rd s fuel kTypeDeletion ?st1] =>
      destruct (find_prev (Nat.pred (length es)) fuel (Nat.pred (length es)) kTypeDeletion st1 Hs HP1 Hl ltac:(lia) ltac:(lia)) as (st' & E & HF & Hs') end.
    { apply bi_deletion. intros j Hj. lia. }
    exists st'. split; [exact E|]. pose proof (bwd_rank _ _ _ HF Hs' eq_refl Hl) as HR. replace (S (Nat.pred (length es))) with (length es) in HR by lia.
    rewrite rank_end in HR. destruct (Nat.eqb_spec (length view_index) 0) as [E0|E0]; [rewrite E0 in *; exact HR|exact HR].
  - eexists. split; [reflexivity|]. cbn [FindPrev_finish]. apply (dp_invalid _ _ (Nat.pred (length es))); [exact Hs|reflexivity| |exact HP1].
    unfold view_index. replace (length es) with 0%nat by lia. reflexivity.
Qed.

(** After the entry at [j], the wanted ones are those after it. *)

Definition after (j : nat) (x : nat) : bool := live x && (j <? x)%nat.

Lemma next_inv j e i : live j = true -> es !! j = Some e -> (i <= S j)%nat -> invisible i j -> fwd_inv (after j) i true (uk e).
Proof.
  intros HL He Hi Hin. destruct (pk_parse j e He) as (_ & _ & _ & _ & Hd).
  assert (Hpe : point e = true).
  { apply live_iff in HL as (e0 & He0 & Hc & _). assert (e0 = e) as -> by congruence. apply cand_vis in Hc as (Hv & Ht & _).
    apply point_iff. rewrite Ht. split; [exact Hv|discriminate]. }
  split.
  - intros x ex Hx Hex. destruct (pk_parse x ex Hex) as (_ & _ & _ & _ & Hdx). unfold after. rewrite andb_true_iff, Nat.ltb_lt, live_iff. split.
    + intros [(e0 & He0 & Hc & Hn) Hjx]. assert (e0 = ex) as -> by congruence. split; [exact Hc|]. split; [|intros j' e' Hj'; apply Hn; lia].
      intros _. pose proof (order_le j x e ex ltac:(lia) He Hex). pose proof (Hn j e Hjx He Hpe). pose proof (cmp_sgn (uk e) (uk ex) Hd Hdx). lia.
    + intros (Hc & Hk & Hn). specialize (Hk eq_refl).
      assert (Hjx : (j < x)%nat).
      { destruct (Nat.lt_trichotomy x j) as [Hlt|[->|Hgt]]; [| |exact Hgt].
        - apply cand_vis in Hc as [Hc _]. rewrite (Hin x ex) in Hc by (try lia; exact Hex). discriminate.
        - assert (ex = e) as -> by congruence. rewrite cmp_refl in Hk by exact Hd. lia. }
      split; [|exact Hjx]. exists ex. split; [exact Hex|]. split; [exact Hc|]. intros j' e' Hj' He' Hp.
      destruct (decide (i <= j')%nat) as [Hij|Hij]; [exact (Hn j' e' ltac:(lia) He' Hp)|].
      pose proof (order_le j' j e' e ltac:(lia) He' He) as Hle. destruct (pk_parse j' e' He') as (_ & _ & _ & _ & Hd').
      intros E0. apply cmp_eq in E0; [|assumption..]. rewrite E0 in Hle. lia.
  - intros _. split; [exact Hd|]. intros x ex Hx Hex Hv. destruct (decide (j <= x)%nat) as [Hjx|Hjx].
    + exact (order_le j x e ex Hjx He Hex).
    + rewrite (Hin x ex) in Hv by (try lia; exact Hex). discriminate.
Qed.

Lemma after_rank i j st st' : (i <= S j)%nat -> live j = true -> fwd_found (after j) i st st' -> sane st' -> direction_ st = kForward ->
  DPos (S (rank j)) st'.
Proof.
  intros Hi HL HF Hs' Hf. assert (ER : rank (S j) = S (rank j)) by (rewrite rank_S, HL; lia). rewrite <- ER.
  assert (Haf : forall x, (j < x)%nat -> after j x = live x) by (intros x Hx; unfold after; rewrite (proj2 (Nat.ltb_lt _ _)) by exact Hx; apply andb_true_r).
  apply (fwd_rank (S j) st st'); [|pose proof (live_lt j HL); lia|exact Hs'|exact Hf].
  destruct HF as [x e Hx He HT Hn HP Hv Hd|Hn HP Hv Hd].
  - assert (Hjx : (j < x)%nat) by (unfold after in HT; apply andb_true_iff in HT as [_ HT]; apply Nat.ltb_lt in HT; exact HT).
    apply (ff_entry live (S j) st st' x e); try assumption; [rewrite <- Haf by exact Hjx; exact HT|].
    intros j' Hj'. rewrite <- Haf by lia. apply Hn. lia.
  - apply ff_none; try assumption. intros j' Hj'. rewrite <- Haf by lia. apply Hn. lia.
Qed.

Lemma before_invisible j e q : before j e q -> invisible (if (q <? length es)%nat then S q else 0) j /\ ((q < length es)%nat -> (q < j)%nat).
Proof.
  intros [Hin|q0 e' Hq He' Hv Hlt Hin].
  - rewrite Nat.ltb_irrefl. split; [exact Hin|lia].
  - assert (Hl : (q0 < length es)%nat) by (apply lookup_lt_Some in He'; exact He'). rewrite (proj2 (Nat.ltb_lt _ _)) by exact Hl. auto.
Qed.

Lemma Next_ok m st fuel : DPos m st -> (m < length view_index)%nat -> big fuel ->
  exists st', DI_Next U RecordReadSample rd s fuel st = Some st' /\ DPos (S m) st'.
Proof.
  intros HD Hm Hf. destruct HD as [j e Hs Hd Hv HL He <- HP|j e q Hs Hd Hv HL He <- Hk Hval Hb HP|i Hs Hv -> HP]; [| |lia].
  - unfold DI_Next. rewrite Hd. cbn [iter_ with_iter ClearSavedValue with_saved with_direction saved_key_ SaveKey]. pose proof (live_lt j HL) as Hj.
    pose proof (cur_next _ _ _ HC j _ HP Hj) as HP1. rewrite (cur_valid _ _ _ HC _ _ HP1).
    destruct e as [k v]. destruct (cur_entry _ _ _ HC j _ k v HP He) as [Ek _]. rewrite Ek.
    destruct (pk_parse j (k, v) He) as (_ & Eu & _). cbn [fst] in Eu. rewrite Eu.
    destruct (Nat.ltb_spec (S j) (length es)) as [Hl|Hl]; cbn [negb].
    + match goal with |- context [FindNextUserEntry U RecordReadSample rd s fuel true ?st1] =>
        destruct (find_next (after j) fuel (S j) true st1 Hs HP1 Hl ltac:(lia)) as (st' & E & HF & Hs') end.
      { apply (next_inv j (k, v)); try assumption; [lia|intros x e' Hx; lia]. }
      exists st'. split; [exact E|]. exact (after_rank (S j) j _ _ ltac:(lia) HL HF Hs' Hd).
    + eexists. split; [reflexivity|]. apply (dp_invalid _ _ (S j)); [exact Hs|reflexivity| |exact HP1].
      rewrite <- rank_end. replace (length es) with (S j) by lia. rewrite rank_S, HL. lia.
  - unfold DI_Next. rewrite Hd. cbn [iter_ with_direction]. destruct (before_invisible j e q Hb) as [Hin Hqj].
    pose proof (live_lt j HL) as Hj. set (i := if (q <? length es)%nat then S q else 0%nat) in *.
    assert (HP1 : Pos i (iter_ (if negb (iValid (iter_ st)) then with_iter (with_direction st kForward) (iSeekToFirst (iter_ st))
        else with_iter (with_direction st kForward) (iNext (iter_ st))))).
    { rewrite (cur_valid _ _ _ HC q _ HP). unfold i. destruct (Nat.ltb_spec q (length es)) as [Hq|Hq]; cbn [negb iter_ with_iter].
      - exact (cur_next _ _ _ HC q _ HP Hq).
      - exact (cur_first _ _ _ HC q _ HP). }
    assert (Hi : (i <= j)%nat) by (unfold i; destruct (Nat.ltb_spec q (length es)); [specialize (Hqj ltac:(assumption)); lia|lia]).
    set (st1 := if negb (iValid (iter_ st)) then _ else _) in *.
    assert (Hst : saved_key_ st1 = uk e /\ sane st1 /\ direction_ st1 = kForward).
    { unfold st1. destruct (negb (iValid (iter_ st))); repeat split; try apply Hs; exact Hk. }
    destruct Hst as (Hk1 & Hs1 & Hd1). clearbody st1. rewrite (cur_valid _ _ _ HC i _ HP1), (proj2 (Nat.ltb_lt _ _)) by lia. cbn [negb].
    destruct (find_next (after j) fuel i true st1 Hs1 HP1 ltac:(lia) ltac:(lia)) as (st' & E & HF & Hs').
    { rewrite Hk1. apply (next_inv j e); try assumption. lia. }
    exists st'. split; [exact E|]. exact (after_rank i j _ _ ltac:(lia) HL HF Hs' Hd1).
Qed.

(** Leaving the entries of the current key backwards. *)

Lemma prev_loop_ok j e fuel : es !! j = Some e -> live j = true -> forall i st, sane st -> Pos i (iter_ st) -> (i <= j)%nat -> (i < fuel)%nat ->
  saved_key_ st = uk e -> (forall x ex, (i <= x < j)%nat -> es !! x = Some ex -> cmp (uk ex) (uk e) = 0) ->
  (exists st', Prev_loop U fuel st = Some (false, st') /\ sane st' /\ valid_ st' = false /\ Pos (length es) (iter_ st') /\ rank j = 0%nat) \/
  (exists st' p, Prev_loop U fuel st = Some (true, st') /\ sane st' /\ (p < j)%nat /\ Pos p (iter_ st') /\
     rank (S p) = rank j).
Proof.
  intros He HL. induction fuel as [|fuel IH]; intros i st Hs HP Hi Hf Hk Hsame; [lia|]. cbn [Prev_loop].
  pose proof (live_lt j HL) as Hj. pose proof (cur_prev _ _ _ HC i _ HP ltac:(lia)) as HP1. cbn [iter_ with_iter saved_key_].
  assert (Hdead : forall x, (i <= x < j)%nat -> live x = false).
  { intros x Hx. apply not_true_is_false. intros HLx. destruct (lookup_lt_is_Some_2 es x ltac:(lia)) as [ex Hex].
    pose proof (Hsame x ex Hx Hex) as E0. apply live_iff in HLx as (e1 & He1 & Hc & _). assert (e1 = ex) as -> by congruence.
    apply cand_vis in Hc as (Hv & Ht & _). apply live_iff in HL as (e2 & He2 & _ & Hn). assert (e2 = e) as -> by congruence.
    apply (Hn x ex ltac:(lia) Hex); [|exact E0]. apply point_iff. rewrite Ht. split; [exact Hv|discriminate]. }
  rewrite (cur_valid _ _ _ HC _ _ HP1). destruct (Nat.eqb_spec i 0) as [->|Hne].
  - rewrite Nat.ltb_irrefl. cbn [negb]. left. eexists. split; [reflexivity|]. split; [exact Hs|]. split; [reflexivity|]. split; [exact HP1|].
    rewrite <- (rank_same 0 j); [reflexivity|lia|exact Hdead].
  - rewrite (proj2 (Nat.ltb_lt _ _)) by lia. cbn [negb]. destruct (lookup_lt_is_Some_2 es (Nat.pred i) ltac:(lia)) as [[k v] Hex].
    destruct (cur_entry _ _ _ HC _ _ k v HP1 Hex) as [-> _]. destruct (pk_parse _ _ Hex) as (_ & Eu & _). cbn [fst] in Eu. rewrite Eu, Hk.
    destruct (Z.ltb_spec (cmp (uk (k, v)) (uk e)) 0) as [Hlt|Hge].
    + right. eexists _, (Nat.pred i). split; [reflexivity|]. split; [exact Hs|]. split; [lia|]. split; [exact HP1|].
      replace (S (Nat.pred i)) with i by lia. apply rank_same; [lia|exact Hdead].
    + apply (IH (Nat.pred i) (with_iter st (iPrev (iter_ st)))); try assumption; [lia|lia|].
      intros x ex Hx Hex'. destruct (decide (x = Nat.pred i)) as [->|]; [|apply (Hsame x ex); [lia|exact Hex']].
      assert (ex = (k, v)) as -> by congruence. pose proof (order_le (Nat.pred i) j _ _ ltac:(lia) Hex He). lia.
Qed.

Lemma find_prev_at p j st fuel : sane st -> direction_ st = kReverse -> Pos p (iter_ st) -> (p < j)%nat -> live j = true -> rank (S p) = rank j ->
  big fuel -> exists st', FindPrevUserEntry U RecordReadSample rd s fuel st = Some st' /\
    DPos (if (rank j =? 0)%nat then length view_index else Nat.pred (rank j)) st'.
Proof.
  intros Hs Hd HP Hp HL ER Hf. pose proof (live_lt j HL) as Hj. unfold FindPrevUserEntry.
  rewrite (cur_valid _ _ _ HC p _ HP), (proj2 (Nat.ltb_lt _ _)) by lia.
  destruct (find_prev p fuel p kTypeDeletion st Hs HP ltac:(lia) ltac:(lia) ltac:(lia)) as (st' & E & HF & Hs').
  { apply bi_deletion. intros x Hx. lia. }
  exists st'. split; [exact E|]. rewrite <- ER. exact (bwd_rank p _ _ HF Hs' Hd ltac:(lia)).
Qed.

Lemma Prev_ok m st fuel : DPos m st -> (m < length view_index)%nat -> big fuel ->
  exists st', DI_Prev U RecordReadSample rd s fuel st = Some st' /\ DPos (if (m =? 0)%nat then length view_index else Nat.pred m) st'.
Proof.
  intros HD Hm Hf. destruct HD as [j e Hs Hd Hv HL He <- HP|j e q Hs Hd Hv HL He <- Hk Hval Hb HP|i Hs Hv -> HP]; [| |lia].
  - unfold DI_Prev. rewrite Hd. pose proof (live_lt j HL) as Hj. destruct e as [k v].
    destruct (cur_entry _ _ _ HC j _ k v HP He) as [Ek _]. rewrite Ek. destruct (pk_parse j (k, v) He) as (_ & Eu & _). cbn [fst] in Eu. rewrite Eu.
    destruct (prev_loop_ok j (k, v) fuel He HL j (SaveKey (uk (k, v)) st) Hs HP ltac:(lia) ltac:(lia) eq_refl ltac:(intros; lia))
      as [(st' & -> & Hs' & Hv' & HP' & E0)|(st' & p & -> & Hs' & Hp & HP' & ER)].
    + exists st'. split; [reflexivity|]. rewrite E0. cbn. exact (dp_invalid _ _ _ Hs' Hv' eq_refl HP').
    + exact (find_prev_at p j (with_direction st' kReverse) fuel Hs' eq_refl HP' Hp HL ER Hf).
  - unfold DI_Prev. rewrite Hd. destruct Hb as [Hin|q e' Hq He' Hve Hlt Hin].
    + unfold FindPrevUserEntry. rewrite (cur_valid _ _ _ HC _ _ HP), Nat.ltb_irrefl. eexists. split; [reflexivity|].
      assert (E0 : rank j = 0%nat).
      { rewrite <- (rank_same 0 j); [reflexivity|lia|]. intros x Hx. apply not_true_is_false. intros HLx.
        apply live_iff in HLx as (ex & Hex & Hc & _). apply cand_vis in Hc as [Hc _]. rewrite (Hin x ex) in Hc by (try lia; exact Hex). discriminate. }
      rewrite E0. apply (dp_invalid _ _ (length es)); [exact Hs|reflexivity|reflexivity|exact HP].
    + apply (find_prev_at q j st fuel Hs Hd HP Hq HL); [|exact Hf]. apply rank_same; [lia|]. intros x Hx. apply not_true_is_false. intros HLx.
      apply live_iff in HLx as (ex & Hex & Hc & _). apply cand_vis in Hc as [Hc _]. rewrite (Hin x ex) in Hc by (try lia; exact Hex). discriminate.
Qed.

(** *** Seeking *)

Lemma seek_order t i e : @cmp_dom U t -> es !! i = Some e ->
  let k := mkInternalKey t s kValueTypeForSeek in
  IKC_Compare U (fst e) k < 0 <-> cmp (uk e) t < 0 \/ (uk e = t /\ vis e = false).
Proof.
  intros Ht He k. destruct (pk_parse i e He) as (_ & Eu & Hq & ET & Hd). rewrite IKC_lt, Eu, ET. unfold k.
  rewrite mkInternalKey_user, mkInternalKey_tag, PackSequenceAndType_eq by exact Hs0. rewrite cmp_eq by assumption.
  pose proof (vt_code_range (type (pk e))). change (vt_code kValueTypeForSeek) with 2. unfold vis. rewrite Z.leb_gt. split; intros [H1|[H1 H2]]; auto; right; split; auto; lia.
Qed.

Lemma seek_key_ok t : @cmp_dom U t -> @cmp_dom (InternalKeyComparator U) (mkInternalKey t s kValueTypeForSeek).
Proof. intros Ht. cbn [cmp_dom InternalKeyComparator]. rewrite mkInternalKey_user, mkInternalKey_length. split; [lia|exact Ht]. Qed.

Abbreviation seek_index t := (lower_bound (InternalKeyComparator U) es (mkInternalKey t s kValueTypeForSeek)).

Lemma view_seek_before t i e : @cmp_dom U t -> (i < seek_index t)%nat -> es !! i = Some e -> cmp (uk e) t < 0 \/ (uk e = t /\ vis e = false).
Proof. intros Ht Hi He. apply (seek_order t i e Ht He). exact (lower_bound_before (C := InternalKeyComparator U) es _ i e Hi He). Qed.

Lemma seek_after t i e : @cmp_dom U t -> (seek_index t <= i)%nat -> es !! i = Some e -> 0 <= cmp (uk e) t.
Proof.
  intros Ht Hi He. pose proof (lower_bound_after (C := InternalKeyComparator U) es _ i e (vo_sorted HE) (seek_key_ok t Ht) Hi He) as H.
  cbn [cmp InternalKeyComparator] in H. destruct (Z.lt_ge_cases (cmp (uk e) t) 0) as [Hlt|Hge]; [|exact Hge].
  pose proof (proj2 (seek_order t i e Ht He) (or_introl Hlt)). lia.
Qed.

Lemma seek_inv t k : @cmp_dom U t -> fwd_inv live (seek_index t) false k.
Proof.
  intros Ht. split; [|discriminate]. intros j e Hj He. rewrite live_iff. split.
  - intros (e0 & He0 & Hc & Hn). assert (e0 = e) as -> by congruence. split; [exact Hc|]. split; [discriminate|]. intros j' e' Hj'. apply Hn. lia.
  - intros (Hc & _ & Hn). exists e. split; [exact He|]. split; [exact Hc|]. intros j' e' Hj' He' Hp.
    destruct (decide (seek_index t <= j')%nat) as [Hge|Hlt]; [exact (Hn j' e' ltac:(lia) He' Hp)|].
    pose proof (seek_after t j e Ht Hj He). destruct (pk_parse j' e' He') as (_ & _ & _ & _ & D1).
    destruct (pk_parse j e He) as (_ & _ & _ & _ & D2).
    destruct (view_seek_before t j' e' Ht ltac:(lia) He') as [H1|[_ H1]].
    + intros E0. apply cmp_eq in E0; [|assumption..]. rewrite E0 in H1. lia.
    + apply point_iff in Hp as [Hp _]. congruence.
Qed.

Lemma view_lookup m kv : user_view !! m = Some kv -> exists j e, live j = true /\ es !! j = Some e /\ rank j = m /\ kv = (uk e, snd e).
Proof.
  unfold user_view. rewrite list_lookup_fmap. destruct (view_index !! m) as [j|] eqn:Em; [|discriminate]. intros [= <-].
  assert (HL : live j = true).
  { apply list_elem_of_lookup_2, list_elem_of_In in Em. apply filter_In in Em. apply Em. }
  destruct (proj1 (live_iff j) HL) as (e & He & _). exists j, e. split; [exact HL|]. split; [exact He|]. split; [|unfold view_entry; rewrite He; reflexivity].
  assert (ND : NoDup view_index) by (apply NoDup_ListNoDup, NoDup_filter, seq_NoDup).
  exact (proj1 (NoDup_alt _) ND (rank j) m j (view_index_rank j HL) Em).
Qed.

Lemma rank_mono i j : (i <= j)%nat -> (rank i <= rank j)%nat.
Proof. induction 1 as [|j Hj IH]; [lia|]. rewrite rank_S. lia. Qed.

Lemma seek_rank t : @cmp_dom U t -> lower_bound U user_view t = rank (seek_index t).
Proof.
  intros Ht. pose proof (lower_bound_le (C := InternalKeyComparator U) es (mkInternalKey t s kValueTypeForSeek)) as Hle.
  assert (Hlen : length user_view = length view_index) by apply length_map.
  apply lower_bound_iff.
  - rewrite Hlen. apply rank_le, Hle.
  - intros m kv Hm Hkv. apply view_lookup in Hkv as (j & e & HL & He & <- & ->). cbn [fst].
    assert (Hj : (j < seek_index t)%nat).
    { destruct (decide (j < seek_index t)%nat) as [|Hge]; [assumption|]. pose proof (rank_mono (seek_index t) j ltac:(lia)). lia. }
    destruct (view_seek_before t j e Ht Hj He) as [H|[_ H]]; [exact H|].
    apply live_iff in HL as (e0 & He0 & Hc & _). assert (e0 = e) as -> by congruence. apply cand_vis in Hc as [Hc _]. congruence.
  - intros kv Hkv. apply view_lookup in Hkv as (j & e & HL & He & ER & ->). cbn [fst]. apply (seek_after t j e Ht); [|exact He].
    destruct (decide (seek_index t <= j)%nat) as [|Hlt]; [assumption|].
    pose proof (rank_mono (S j) (seek_index t) ltac:(lia)) as H. rewrite rank_S, HL in H. lia.
Qed.

Lemma Seek_ok m st t fuel : DPos m st -> @cmp_dom U t -> big fuel ->
  exists st', DI_Seek U RecordReadSample rd s fuel t st = Some st' /\ DPos (lower_bound U user_view t) st'.
Proof.
  intros HD Ht Hf. destruct (DPos_sane m st HD) as [Hs [i HP]]. unfold DI_Seek. cbn [iter_ with_iter ClearSavedValue with_saved with_direction saved_key_ SaveKey].
  fold (mkInternalKey t s kValueTypeForSeek). pose proof (cur_seek _ _ _ HC i _ _ HP (seek_key_ok t Ht)) as HP1.
  rewrite (cur_valid _ _ _ HC _ _ HP1), (seek_rank t Ht). pose proof (lower_bound_le (C := InternalKeyComparator U) es (mkInternalKey t s kValueTypeForSeek)) as Hle.
  destruct (Nat.ltb_spec (seek_index t) (length es)) as [Hl|Hl].
  - match goal with |- context [FindNextUserEntry U RecordReadSample rd s fuel false ?st1] =>
      destruct (find_next live fuel (seek_index t) false st1 Hs HP1 Hl ltac:(lia) (seek_inv t _ Ht)) as (st' & E & HF & Hs') end.
    exists st'. split; [exact E|]. exact (fwd_rank _ _ _ HF Hle Hs' eq_refl).
  - eexists. split; [reflexivity|]. apply (dp_invalid _ _ (seek_index t)); [exact Hs|reflexivity| |exact HP1].
    rewrite <- rank_end. f_equal. lia.
Qed.

(** A new iterator is at no entry. *)

Lemma DPos_new i it db seed : Pos i it -> DPos (length view_index) (DBIter_new db it seed).
Proof.
  intros HP. unfold DBIter_new. destruct (random_next_lehmer seed) as [H1 _].
  destruct (period_range (Random_new seed) H1) as [Hp Hr]. destruct (RandomCompactionPeriod (Random_new seed)) as [p r]. cbn [fst snd] in *.
  apply (dp_invalid _ _ i); [|reflexivity|reflexivity|exact HP]. split; [exact Hr|]. split; [cbn; lia|reflexivity].
Qed.

(** What the user sees at a position. *)

Lemma DPos_observe m st : DPos m st ->
  (m <= length view_index)%nat /\ DI_Valid st = (m <? length view_index)%nat /\ DI_status st = OK /\
  (forall k v, user_view !! m = Some (k, v) -> DI_key st = k /\ DI_value st = v).
Proof.
  intros HD. unfold DI_Valid, DI_status, DI_key, DI_value.
  assert (HR : forall j, live j = true -> (rank j < length (view_index))%nat).
  { intros j HL. apply (lookup_lt_Some _ _ j). apply view_index_rank, HL. }
  destruct (HD) as [j e (Hr & Hb & Ho) Hd Hv HL He <- HP|j e q (Hr & Hb & Ho) Hd Hv HL He <- Hk Hval Hbe HP|i (Hr & Hb & Ho) Hv -> HP];
    rewrite Hv, Ho; cbn [ok OK]; rewrite (cur_status _ _ _ HC _ _ HP).
  - pose proof (HR j HL). rewrite (proj2 (Nat.ltb_lt _ _)) by assumption. split; [lia|]. split; [reflexivity|]. split; [reflexivity|].
    intros k v Hkv. rewrite (user_view_rank j e HL He) in Hkv. injection Hkv as <- <-. rewrite Hd.
    destruct e as [k0 v0]. destruct (cur_entry _ _ _ HC j _ k0 v0 HP He) as [-> ->]. split; [|reflexivity].
    apply (pk_parse j (k0, v0) He).
  - pose proof (HR j HL). rewrite (proj2 (Nat.ltb_lt _ _)) by assumption. split; [lia|]. split; [reflexivity|]. split; [reflexivity|].
    intros k v Hkv. rewrite (user_view_rank j e HL He) in Hkv. injection Hkv as <- <-. rewrite Hd. auto.
  - rewrite Nat.ltb_irrefl. split; [lia|]. split; [reflexivity|]. split; [reflexivity|].
    intros k v Hkv. apply lookup_lt_Some in Hkv. unfold user_view in Hkv. rewrite length_map in Hkv. lia.
Qed.

End View.

(** ** Properties *)

(** C14. The database iterator is a cursor on what the user can see.  Over any
    internal iterator that is a cursor on sorted internal entries, and with the
    tombstones of the database, DBIter at a sequence number walks forward and
    backward, in any mixture, over the list that has, for every user key, the
    value of its newest visible operation if that is a value that no visible
    tombstone covers: Valid, key and value, Next and Prev in both directions,
    SeekToFirst, SeekToLast and Seek (the first user key at or past the target)
    do what a cursor on that list does, with status OK, and every call returns
    (the read sampling loop included).  Range deletion markers among the entries
    must cover their own key, and the first visible entry must not be one. *)
Theorem db_iterator_is_cursor : forall U (UOK : ComparatorOk U) rd s es, entries_ok (U := U) es -> markers_ok (U := U) rd s es ->
  0 <= s <= kMaxSequenceNumber ->
  forall It D (IT : Iterator It) (RecordReadSample : D -> bytes -> D) Pos, Cursor (InternalKeyComparator U) es Pos ->
  let view := user_view (U := U) rd s es in
  exists P : nat -> @DBIter It D -> Prop,
  (forall i it db seed, Pos i it -> P (length view) (DBIter_new db it seed)) /\
  (forall m st, P m st ->
     (m <= length view)%nat /\ DI_Valid st = (m <? length view)%nat /\ DI_status st = OK /\
     (forall k v, view !! m = Some (k, v) -> DI_key st = k /\ DI_value st = v) /\
     forall fuel, (length es < fuel)%nat ->
     (exists st', DI_SeekToFirst U RecordReadSample rd s fuel st = Some st' /\ P 0%nat st') /\
     (exists st', DI_SeekToLast U RecordReadSample rd s fuel st = Some st' /\ P (Nat.pred (length view)) st') /\
     (forall t, @cmp_dom U t -> exists st', DI_Seek U RecordReadSample rd s fuel t st = Some st' /\ P (lower_bound U view t) st') /\
     ((m < length view)%nat -> exists st', DI_Next U RecordReadSample rd s fuel st = Some st' /\ P (S m) st') /\
     ((m < length view)%nat -> exists st', DI_Prev U RecordReadSample rd s fuel st = Some st' /\
        P (if (m =? 0)%nat then length view else Nat.pred m) st')).
Proof.
  intros U UOK rd s es HE HM Hs It D IT rs Pos HC view.
  assert (Hlen : length view = length (view_index (U := U) rd s es)) by apply length_map.
  exists (DPos (U := U) rd s es Pos). rewrite Hlen. split.
  - exact (DPos_new rd s es Pos).
  - intros m st HD.
    pose proof (DPos_observe rd s es HE Pos HC m st HD) as HV.
    destruct HV as (V1 & V2 & V3 & V4). split; [exact V1|]. split; [exact V2|]. split; [exact V3|]. split; [exact V4|].
    intros fuel Hf. split; [exact (SeekToFirst_ok rd s es HE rs Pos HC m st fuel HD Hf)|].
    split; [exact (SeekToLast_ok rd s es HE rs Pos HC HM m st fuel HD Hf)|].
    split; [intros t Ht; exact (Seek_ok rd s es HE rs Pos HC Hs m st t fuel HD Ht Hf)|].
    split; intros Hm; [exact (Next_ok rd s es HE rs Pos HC m st fuel HD Hm Hf)|exact (Prev_ok rd s es HE rs Pos HC HM m st fuel HD Hm Hf)].
Qed.

(** A value, a deleted key and a range tombstone. *)

Definition demo_entries : list entry :=
  [(mkInternalKey (str "a") 3 kTypeValue, str "1"); (mkInternalKey (str "b") 7 kTypeDeletion, []);
   (mkInternalKey (str "b") 2 kTypeValue, str "2"); (mkInternalKey (str "d") 6 kTypeRangeDeletion, str "f");
   (mkInternalKey (str "d") 4 kTypeValue, str "3")].

Definition demo_dels : RangeDeletionList := [mkRangeDel (str "d") (str "f") 6].

Example demo_view : user_view (U := BytewiseComparator) demo_dels 8 demo_entries = [(str "a", str "1")] /\
  user_view (U := BytewiseComparator) demo_dels 5 demo_entries = [(str "a", str "1"); (str "b", str "2"); (str "d", str "3")].
Proof. split; vm_compute; reflexivity. Qed.

Lemma demo_entries_ok : entries_ok (U := BytewiseComparator) demo_entries.
Proof.
  split.
  - split; [repeat constructor|repeat constructor; cbn; lia].
  - repeat constructor; vm_compute; discriminate.
  - repeat constructor; vm_compute; reflexivity.
Qed.

Lemma demo_markers_ok : markers_ok (U := BytewiseComparator) demo_dels 8 demo_entries.
Proof.
  split.
  - intros i j e1 e2 Hij H1 H2 Hc Hv Ht.
    destruct i as [|[|[|[|[|i]]]]]; try discriminate H1; injection H1 as <-; try (vm_compute in Ht; discriminate Ht).
    destruct j as [|[|[|[|[|j]]]]]; try lia; [|discriminate H2]. injection H2 as <-. reflexivity.
  - intros i e H1 Hv Ht. exists 0%nat. eexists. split; [|split; [reflexivity|reflexivity]]. destruct i; [|lia].
    injection H1 as <-. vm_compute in Ht. discriminate Ht.
  - intros i e H1 _. destruct i as [|[|[|[|[|i]]]]]; try discriminate H1; injection H1 as <-; vm_compute; discriminate.
Qed.

Lemma db_iterator_is_cursor_witness :
  let view := user_view (U := BytewiseComparator) demo_dels 8 demo_entries in
  exists P : nat -> @DBIter ListIter unit -> Prop,
    P (length view) (DBIter_new tt (mkListIter demo_entries 0) 301) /\ (forall m st, P m st -> DI_Valid st = (m <? length view)%nat).
Proof.
  assert (Hs : 0 <= 8 <= kMaxSequenceNumber) by (split; vm_compute; discriminate).
  destruct (db_iterator_is_cursor BytewiseComparator BytewiseComparatorOk demo_dels 8 demo_entries demo_entries_ok demo_markers_ok
    Hs ListIter unit (ListIterOps (InternalKeyComparator BytewiseComparator)) (fun d _ => d) _ (list_cursor _ demo_entries)) as (P & H1 & H2).
  exists P. split.
  - apply (H1 0%nat). split; [reflexivity|cbn; lia].
  - intros m st HP. apply (H2 m st HP).
Defined.

(** A range tombstone as the first visible entry: the backward scan ends on its
    marker and shows an entry with an empty key that does not exist. *)

Example phantom_entry :
  let es := [(mkInternalKey (str "a") 5 kTypeRangeDeletion, str "c"); (mkInternalKey (str "b") 3 kTypeValue, str "1")] in
  let rd := [mkRangeDel (str "a") (str "c") 5] in
  user_view (U := BytewiseComparator) rd 9 es = [] /\
  match @DI_SeekToLast BytewiseComparator ListIter unit (ListIterOps (InternalKeyComparator BytewiseComparator)) (fun d _ => d) rd 9 10
          (DBIter_new tt (mkListIter es 0) 301) with
  | Some st => DI_Valid st = true /\ @DI_key ListIter unit (ListIterOps (InternalKeyComparator BytewiseComparator)) st = []
  | None => False
  end.
Proof. vm_compute. repeat split. Qed.
