(* ===== verification/DbImpl.v ===== *)
(** * The database object and its write path (db/db_impl.h, db/db_impl.cc, db/snapshot.h)

    The state of [DBImpl] that its mutex protects, the list of snapshots, the
    queue of writers and [DBImpl::Write] with the parts it is made of.  [Write]
    releases the mutex in three places (waiting in the queue, making room,
    writing to the log), so it is cut there: each definition is what one thread
    does while it holds the mutex, or while it is the only one to touch the log
    and the memtable.  Condition variables only wake up threads that test their
    condition again, so signals are left out; so are messages to the info log. *)

From S2P Require Import Prelude Coding Compare DbFormat Logging FileName SkipList Arena MemTable WriteBatch Crc32c Env Log Iterator VersionEdit Version Compaction VersionSet.
#[local] Open Scope Z_scope.
#[local] Open Scope ldb_scope.

(** ** Snapshots (db/snapshot.h)

    The circular list, oldest first; a snapshot is its address and its sequence
    number. *)

Record SnapshotList := mkSnapshotList { sl_list : list (nat * Z); sl_next : nat }.

Definition SnapshotList_new : SnapshotList := mkSnapshotList [] 0.

Definition SL_empty (l : SnapshotList) : bool := match sl_list l with [] => true | _ => false end.

Definition SL_oldest (l : SnapshotList) : option Z := snd <$> hd_error (sl_list l).

Definition SL_newest (l : SnapshotList) : option Z := snd <$> list.last (sl_list l).

Definition SL_New (l : SnapshotList) (sequence_number : Z) : nat * SnapshotList :=
  (sl_next l, mkSnapshotList (sl_list l ++ [(sl_next l, sequence_number)]) (S (sl_next l))).

Definition SL_Delete (l : SnapshotList) (snapshot : nat) : SnapshotList :=
  mkSnapshotList (List.filter (fun s => negb (fst s =? snapshot)%nat) (sl_list l)) (sl_next l).

(** ** The state *)

(** [DBImpl::Writer]; a batch is null for a request to switch the memtable. *)

Record DbWriter := mkDbWriter { w_status : Status; w_batch : option WriteBatch; w_sync : bool; w_done : bool }.

Record ManualCompaction := mkManual { mc_level : nat; mc_done : bool; mc_begin : option bytes; mc_end : option bytes }.

Section DBImpl.
Context (U : Comparator) (write_buffer_size : Z) (dbname : bytes).
Context {E W S : Type} {WF : WritableFile W} {SF : SequentialFile S} (env : @EnvOps E W S).

(** Writers and manual compactions are objects of the waiting threads, named by
    their addresses. *)

Record DBImpl := mkDBImpl {
  db_versions : @VersionSet E W;
  db_mem : MemTable;
  db_imm : option MemTable;
  db_log : Writer W;                       (* log_ and logfile_ *)
  db_logfile_number : Z;
  db_writers : list nat;
  db_writer_objects : gmap nat DbWriter;
  db_tmp_batch : WriteBatch;
  db_snapshots : SnapshotList;
  db_pending_outputs : gset Z;
  db_scheduled : bool;                     (* background_compaction_scheduled_ *)
  db_manual : option nat;
  db_manual_objects : gmap nat ManualCompaction;
  db_bg_error : Status;
  db_shutting_down : bool;
  db_full_compaction : bool;               (* force_full_compaction_in_progress_ *)
  db_seed : Z
}.

Definition with_vs (db : DBImpl) (vs : VersionSet) : DBImpl :=
  mkDBImpl vs (db_mem db) (db_imm db) (db_log db) (db_logfile_number db) (db_writers db) (db_writer_objects db)
    (db_tmp_batch db) (db_snapshots db) (db_pending_outputs db) (db_scheduled db) (db_manual db) (db_manual_objects db)
    (db_bg_error db) (db_shutting_down db) (db_full_compaction db) (db_seed db).

Definition with_memtables (db : DBImpl) (mem : MemTable) (imm : option MemTable) : DBImpl :=
  mkDBImpl (db_versions db) mem imm (db_log db) (db_logfile_number db) (db_writers db) (db_writer_objects db)
    (db_tmp_batch db) (db_snapshots db) (db_pending_outputs db) (db_scheduled db) (db_manual db) (db_manual_objects db)
    (db_bg_error db) (db_shutting_down db) (db_full_compaction db) (db_seed db).

Definition with_log (db : DBImpl) (log : Writer W) (number : Z) : DBImpl :=
  mkDBImpl (db_versions db) (db_mem db) (db_imm db) log number (db_writers db) (db_writer_objects db)
    (db_tmp_batch db) (db_snapshots db) (db_pending_outputs db) (db_scheduled db) (db_manual db) (db_manual_objects db)
    (db_bg_error db) (db_shutting_down db) (db_full_compaction db) (db_seed db).

Definition with_writers (db : DBImpl) (writers : list nat) (objects : gmap nat DbWriter) (tmp : WriteBatch) : DBImpl :=
  mkDBImpl (db_versions db) (db_mem db) (db_imm db) (db_log db) (db_logfile_number db) writers objects
    tmp (db_snapshots db) (db_pending_outputs db) (db_scheduled db) (db_manual db) (db_manual_objects db)
    (db_bg_error db) (db_shutting_down db) (db_full_compaction db) (db_seed db).

Definition with_snapshots (db : DBImpl) (snapshots : SnapshotList) (pending : gset Z) : DBImpl :=
  mkDBImpl (db_versions db) (db_mem db) (db_imm db) (db_log db) (db_logfile_number db) (db_writers db) (db_writer_objects db)
    (db_tmp_batch db) snapshots pending (db_scheduled db) (db_manual db) (db_manual_objects db)
    (db_bg_error db) (db_shutting_down db) (db_full_compaction db) (db_seed db).

Definition with_background (db : DBImpl) (scheduled : bool) (manual : option nat) (objects : gmap nat ManualCompaction)
    (bg_error : Status) : DBImpl :=
  mkDBImpl (db_versions db) (db_mem db) (db_imm db) (db_log db) (db_logfile_number db) (db_writers db) (db_writer_objects db)
    (db_tmp_batch db) (db_snapshots db) (db_pending_outputs db) scheduled manual objects
    bg_error (db_shutting_down db) (db_full_compaction db) (db_seed db).

(** ** Errors and scheduling *)

Definition RecordBackgroundError (s : Status) (db : DBImpl) : DBImpl :=
  if ok (db_bg_error db) then with_background db (db_scheduled db) (db_manual db) (db_manual_objects db) s else db.

Definition CheckDatabaseUsable (db : DBImpl) : Status :=
  if negb (ok (db_bg_error db)) then db_bg_error db
  else if db_shutting_down db then IOError (str "Database is shutting down") [] else OK.

Definition ShouldWaitFullCompaction (db : DBImpl) : bool :=
  db_full_compaction db && ok (db_bg_error db) && negb (db_shutting_down db).

Definition is_null {A} (x : option A) : bool := match x with None => true | Some _ => false end.

Definition MaybeScheduleCompaction (db : DBImpl) : DBImpl :=
  if db_scheduled db then db
  else if db_shutting_down db then db
  else if negb (ok (db_bg_error db)) then db
  else if db_full_compaction db && is_null (db_imm db) && is_null (db_manual db) then db
  else if is_null (db_imm db) && is_null (db_manual db) && negb (NeedsCompaction (db_versions db)) then db
  else with_background db true (db_manual db) (db_manual_objects db) (db_bg_error db).

(** ** Snapshots *)

Definition GetSnapshot (db : DBImpl) : nat * DBImpl :=
  let '(id, l) := SL_New (db_snapshots db) (vs_last_sequence (db_versions db)) in
  (id, with_snapshots db l (db_pending_outputs db)).

Definition ReleaseSnapshot (db : DBImpl) (snapshot : nat) : DBImpl :=
  with_snapshots db (SL_Delete (db_snapshots db) snapshot) (db_pending_outputs db).

(** ** Making room: one turn of the loop of [MakeRoomForWrite] *)

Inductive RoomTurn :=
| RoomReturn (s : Status)
| RoomDelayed                                (* slept for a millisecond *)
| RoomSwitched                               (* a new memtable and log *)
| RoomWait.                                  (* background_work_finished_signal_.Wait() *)

(** A new log file and a new memtable; the old one becomes immutable. *)

Definition SwitchMemTable (lfile : W) (new_log_number : Z) (db : DBImpl) : DBImpl :=
  let '(s, _) := wf_Close (dest_ (db_log db)) in
  let db := if ok s then db else RecordBackgroundError s db in
  let db := with_log db (Writer_new lfile) new_log_number in
  MaybeScheduleCompaction (with_memtables db MemTable_new (Some (db_mem db))).

Definition MakeRoomForWrite_turn (force allow_delay : bool) (db : DBImpl) : RoomTurn * DBImpl :=
  if negb (ok (db_bg_error db)) then (RoomReturn (db_bg_error db), db)
  else if allow_delay && (kL0_SlowdownWritesTrigger <=? NumLevelFiles (db_versions db) 0) then (RoomDelayed, db)
  else if negb force && (MT_ApproximateMemoryUsage (db_mem db) <=? write_buffer_size) then (RoomReturn OK, db)
  else if negb (is_null (db_imm db)) then (RoomWait, db)
  else if kL0_StopWritesTrigger <=? NumLevelFiles (db_versions db) 0 then (RoomWait, db)
  else
    let '(new_log_number, vs) := NewFileNumber (db_versions db) in
    let '(e, (s, lfile)) := env_NewWritableFile env (vs_env vs) (LogFileName dbname new_log_number) in
    let vs := with_descriptor vs e (vs_descriptor_log vs) in
    match lfile with
    | Some lfile =>
        if ok s then (RoomSwitched, SwitchMemTable lfile new_log_number (with_vs db vs))
        else (RoomReturn s, with_vs db (ReuseFileNumber vs new_log_number))
    | None => (RoomReturn s, with_vs db (ReuseFileNumber vs new_log_number))
    end.

(** The whole loop when no other thread runs; [None] when it would wait for one. *)

Fixpoint MakeRoomForWrite_loop (fuel : nat) (force allow_delay : bool) (db : DBImpl) : option (Status * DBImpl) :=
  match fuel with
  | O => None
  | Datatypes.S fuel =>
      match MakeRoomForWrite_turn force allow_delay db with
      | (RoomReturn s, db) => Some (s, db)
      | (RoomDelayed, db) => MakeRoomForWrite_loop fuel force false db
      | (RoomSwitched, db) => MakeRoomForWrite_loop fuel false allow_delay db
      | (RoomWait, db) => None
      end
  end.

(** ** Grouping the batches of waiting writers *)

Definition writer_at (db : DBImpl) (id : nat) : DbWriter :=
  default (mkDbWriter OK None false false) (db_writer_objects db !! id).

(** The loop of [BuildBatchGroup]: whether [result] is the temporary batch, its
    contents and the last writer of the group. *)

Fixpoint group_loop (db : DBImpl) (first : DbWriter) (first_batch : WriteBatch) (max_size size : Z)
    (is_tmp : bool) (result : WriteBatch) (last_writer : nat) (rest : list nat) : bool * WriteBatch * nat :=
  match rest with
  | [] => (is_tmp, result, last_writer)
  | id :: rest =>
      let w := writer_at db id in
      if w_sync w && negb (w_sync first) then (is_tmp, result, last_writer)
      else
        match w_batch w with
        | Some b =>
            let size := u64 (size + WB_ApproximateSize b) in
            if max_size <? size then (is_tmp, result, last_writer)
            else
              let result := if is_tmp then result else WBI_Append (db_tmp_batch db) first_batch in
              group_loop db first first_batch max_size size true (WBI_Append result b) id rest
        | None => group_loop db first first_batch max_size size is_tmp result id rest
        end
  end.

Definition group_max_size (size : Z) : Z := if size <=? 131072 then u64 (size + 131072) else 1048576.

(** [None] when the queue is empty or the first writer has no batch, which the
    code forbids. *)

Definition BuildBatchGroup (db : DBImpl) : option (bool * WriteBatch * nat) :=
  match db_writers db with
  | [] => None
  | id :: rest =>
      let first := writer_at db id in
      match w_batch first with
      | None => None
      | Some b =>
          let size := WB_ApproximateSize b in
          Some (group_loop db first b (group_max_size size) size false b id rest)
      end
  end.

(** ** [Write] *)

(** Entering the queue, and the tests of the two waiting loops. *)

Definition Write_may_enter (db : DBImpl) (updates : option WriteBatch) : bool :=
  negb (negb (is_null updates) && ShouldWaitFullCompaction db).

Definition Write_enter (db : DBImpl) (w : nat) (updates : option WriteBatch) (sync : bool) : DBImpl :=
  with_writers db (db_writers db ++ [w]) (<[w := mkDbWriter OK updates sync false]> (db_writer_objects db)) (db_tmp_batch db).

Definition Write_waits (db : DBImpl) (w : nat) : bool :=
  negb (w_done (writer_at db w)) && negb (bool_decide (hd_error (db_writers db) = Some w)).

(** What the writer at the front keeps across the unlocked phase. *)

Record WriteLocals := mkWriteLocals {
  wl_batch : WriteBatch;              (* *write_batch *)
  wl_is_tmp : bool;                   (* write_batch == tmp_batch_ *)
  wl_last_writer : nat;
  wl_last_sequence : Z
}.

(** Building the group and numbering it; the batch that is numbered is the
    caller's own when the group has a single batch. *)

Definition set_batch (w : nat) (b : WriteBatch) (objects : gmap nat DbWriter) : gmap nat DbWriter :=
  alter (fun x => mkDbWriter (w_status x) (Some b) (w_sync x) (w_done x)) w objects.

Definition Write_group (w : nat) (db : DBImpl) : option (WriteLocals * DBImpl) :=
  match BuildBatchGroup db with
  | None => None
  | Some (is_tmp, write_batch, last_writer) =>
      let last_sequence := vs_last_sequence (db_versions db) in
      let write_batch := WBI_SetSequence write_batch (u64 (last_sequence + 1)) in
      let last_sequence := u64 (last_sequence + WBI_Count write_batch) in
      Some (mkWriteLocals write_batch is_tmp last_writer last_sequence,
            if is_tmp then with_writers db (db_writers db) (db_writer_objects db) write_batch
            else with_writers db (db_writers db) (set_batch w write_batch (db_writer_objects db)) (db_tmp_batch db))
  end.

(** The unlocked phase.  First the log: the status, whether the sync failed, and
    the database with the new log. *)

Definition Write_log (sync : bool) (l : WriteLocals) (db : DBImpl) : option (Status * bool * DBImpl) :=
  match AddRecord (db_log db) (rep_ (wl_batch l)) with
  | None => None
  | Some (status, log) =>
      let '(status, sync_error, file) :=
        if ok status && sync then let '(s, file) := wf_Sync (dest_ log) in (s, negb (ok s), file)
        else (status, false, dest_ log) in
      Some (status, sync_error, with_log db (mkWriter file (block_offset_ log) (type_crc_ log)) (db_logfile_number db))
  end.

(** Then the memtable, if the log has it. *)

Definition Write_apply (sync : bool) (l : WriteLocals) (db : DBImpl) : option (Status * bool * DBImpl) :=
  match Write_log sync l db with
  | None => None
  | Some (status, sync_error, db) =>
      if ok status then
        match WBI_InsertInto U (wl_batch l) (db_mem db) with
        | Some (status, mem) => Some (status, sync_error, with_memtables db mem (db_imm db))
        | None => None
        end
      else Some (status, sync_error, db)
  end.

Definition Write_commit (l : WriteLocals) (status : Status) (sync_error : bool) (db : DBImpl) : DBImpl :=
  let db := if sync_error then RecordBackgroundError status db else db in
  let db := if wl_is_tmp l then with_writers db (db_writers db) (db_writer_objects db) WB_Clear else db in
  with_vs db (VS_SetLastSequence (db_versions db) (wl_last_sequence l)).

(** The group leaves the queue; the others learn the status.  [None] when the
    queue ends before the last writer, which never happens. *)

Definition finish_writer (status : Status) (w : DbWriter) : DbWriter := mkDbWriter status (w_batch w) (w_sync w) true.

Fixpoint pop_writers (w last_writer : nat) (status : Status) (writers : list nat) (objects : gmap nat DbWriter)
  : option (list nat * gmap nat DbWriter) :=
  match writers with
  | [] => None
  | ready :: writers =>
      let objects := if decide (ready = w) then objects else alter (finish_writer status) ready objects in
      if decide (ready = last_writer) then Some (writers, objects)
      else pop_writers w last_writer status writers objects
  end.

Definition Write_leave (w last_writer : nat) (status : Status) (db : DBImpl) : option DBImpl :=
  match pop_writers w last_writer status (db_writers db) (db_writer_objects db) with
  | Some (writers, objects) => Some (with_writers db writers objects (db_tmp_batch db))
  | None => None
  end.

(** The whole of [Write] by the only thread, from an empty queue. *)

Definition Write (fuel : nat) (w : nat) (updates : option WriteBatch) (sync : bool) (db : DBImpl) : option (Status * DBImpl) :=
  if negb (Write_may_enter db updates) then None
  else
    let db := Write_enter db w updates sync in
    if Write_waits db w then None
    else
      match MakeRoomForWrite_loop fuel (is_null updates) (negb (is_null updates)) db with
      | None => None
      | Some (status, db) =>
          if ok status && negb (is_null updates) then
            match Write_group w db with
            | None => None
            | Some (l, db) =>
                match Write_apply sync l db with
                | None => None
                | Some (status, sync_error, db) =>
                    option_map (pair status) (Write_leave w (wl_last_writer l) status (Write_commit l status sync_error db))
                end
            end
          else option_map (pair status) (Write_leave w w status db)
      end.

(** [DB::Put], [DB::Delete] and [DBImpl::DeleteRange]; the guard of the last
    compares bytes. *)

Definition Put (fuel w : nat) (sync : bool) (key value : bytes) (db : DBImpl) : option (Status * DBImpl) :=
  Write fuel w (Some (WB_Put WriteBatch_new key value)) sync db.

Definition Delete (fuel w : nat) (sync : bool) (key : bytes) (db : DBImpl) : option (Status * DBImpl) :=
  Write fuel w (Some (WB_Delete WriteBatch_new key)) sync db.

Definition DeleteRange (fuel w : nat) (sync : bool) (start_key end_key : bytes) (db : DBImpl) : option (Status * DBImpl) :=
  if 0 <=? Slice_compare start_key end_key then Some (OK, db)
  else Write fuel w (Some (WB_DeleteRange WriteBatch_new start_key end_key)) sync db.

End DBImpl.
