(* ===== verification/DbWrite.v ===== *)
(** * Group commit (db/db_impl.cc)

    [DBImpl::Write] by many threads: a step relation whose steps are the
    critical sections of DbImpl.v and, while the mutex is released, the write to
    the log and the insertion of one operation at a time; the background thread
    and the other operations are steps that leave the log, the memtable and the
    queue alone.  The theorems show that the writers leave the queue in the order
    in which they entered, each exactly once, that a lookup in the memtable finds
    exactly the operations of the groups that were acknowledged, also between
    two insertions, and that the writer at the front gets done.  A lookup that
    runs inside one insertion is outside the model; for range deletions the code
    has no synchronisation there ([MemTable::range_deletions_]). *)

From S2P Require Import Prelude Coding Compare DbFormat Logging FileName SkipList Arena MemTable WriteBatch Crc32c Env Log Iterator VersionEdit Version VersionGet Compaction VersionSet DbImpl.
#[local] Open Scope Z_scope.
#[local] Open Scope ldb_scope.

(** ** Batches and the operations in them *)

Record batch_holds (b : WriteBatch) (ops : list Op) : Prop := {
  bh_rep : exists q, b = mkWriteBatch (batch_rep q (sz ops) ops);
  bh_fits : Forall op_fits ops;
  bh_size : sz (rep_ b) < 2 ^ 31
}.

Lemma batch_size q c ops : sz (batch_rep q c ops) = 12 + sz (concat (map record_bytes ops)).
Proof. unfold batch_rep. rewrite !sz_app. unfold sz. rewrite length_EncodeFixed64, length_EncodeFixed32. lia. Qed.

Lemma ops_le_records ops : sz ops <= sz (concat (map record_bytes ops)).
Proof. pose proof (length_records ops). unfold sz. lia. Qed.

Lemma batch_count b ops : batch_holds b ops -> sz ops < 2 ^ 31 - 12.
Proof. intros [[q ->] _ H]. cbn [rep_] in H. rewrite batch_size in H. pose proof (ops_le_records ops). lia. Qed.

Lemma WBI_Count_holds b ops : batch_holds b ops -> WBI_Count b = sz ops.
Proof.
  intros H. pose proof (batch_count b ops H). pose proof (sz_nonneg ops). destruct H as [[q ->] _ _]. unfold batch_rep.
  rewrite WBI_Count_rep. apply s32_small. lia.
Qed.

Lemma append_holds b1 ops1 b2 ops2 : batch_holds b1 ops1 -> batch_holds b2 ops2 -> sz (rep_ b1) + sz (rep_ b2) < 2 ^ 31 + 12 ->
  batch_holds (WBI_Append b1 b2) (ops1 ++ ops2) /\ sz (rep_ (WBI_Append b1 b2)) = sz (rep_ b1) + sz (rep_ b2) - 12.
Proof.
  intros H1 H2 Hs. pose proof (batch_count _ _ H1). pose proof (batch_count _ _ H2). pose proof (sz_nonneg ops1). pose proof (sz_nonneg ops2).
  destruct H1 as [[q1 ->] F1 _], H2 as [[q2 ->] F2 _].
  rewrite WBI_Append_rep, !s32_small by lia. cbn [rep_] in *. rewrite !batch_size in *. rewrite map_app, concat_app, !sz_app in *.
  split; [|lia]. split; [exists q1; rewrite sz_app; reflexivity|apply Forall_app; auto|cbn [rep_]; rewrite batch_size, map_app, concat_app, sz_app; lia].
Qed.

Lemma new_holds : batch_holds WriteBatch_new [].
Proof. split; [exists 0; reflexivity|constructor|reflexivity]. Qed.

Lemma set_sequence_holds b ops q : batch_holds b ops -> batch_holds (WBI_SetSequence b q) ops /\
  WBI_SetSequence b q = mkWriteBatch (batch_rep q (sz ops) ops).
Proof.
  intros [[q0 ->] HF HS]. rewrite WBI_SetSequence_rep. split; [|reflexivity]. split; [eauto|exact HF|].
  cbn [rep_] in *. rewrite batch_size in *. exact HS.
Qed.

Lemma holds_nonneg b ops : batch_holds b ops -> 12 <= sz (rep_ b).
Proof. intros [[q ->] _ _]. cbn [rep_]. rewrite batch_size. pose proof (sz_nonneg (concat (map record_bytes ops))). lia. Qed.

(** ** The group *)

Section Group.
Context {E W : Type} (ops_of : nat -> list Op).

Definition writer_holds (db : @DBImpl E W) (w : nat) : Prop :=
  match w_batch (writer_at db w) with Some b => batch_holds b (ops_of w) | None => ops_of w = [] end.

Definition group_ops (ws : list nat) : list Op := concat (map ops_of ws).

(** The group is the first writer and some that follow it, at most 1 MB beyond
    the first batch; its batch holds their operations in order.  A batch of its
    own is used as soon as a second one joins. *)

Lemma group_loop_spec (db : @DBImpl E W) first first_batch max_size rest : Forall (writer_holds db) rest ->
  db_tmp_batch db = WriteBatch_new -> 0 <= max_size <= 2 ^ 20 ->
  forall is_tmp result last_writer acc size, batch_holds result (group_ops acc) -> 
  (is_tmp = false -> result = first_batch) ->
  sz (rep_ result) <= size -> (size <= max_size \/ is_tmp = false /\ size < 2 ^ 31) ->
  forall is_tmp' result' last', group_loop db first first_batch max_size size is_tmp result last_writer rest = (is_tmp', result', last') ->
  exists members rest', rest = members ++ rest' /\ batch_holds result' (group_ops (acc ++ members)) /\
    list.last (last_writer :: members) = Some last' /\ (is_tmp' = false -> result' = first_batch) /\
    Forall (fun w => w_sync (writer_at db w) = true -> w_sync first = true) members.
Proof.
  intros HF Htmp Hmax. induction HF as [|id rest Hid HF IH]; intros is_tmp result lw acc size HB Hfb Hsz Hbnd is_tmp' result' last'; cbn [group_loop].
  { intros [= <- <- <-]. exists [], []. rewrite (app_nil_r acc). split; [reflexivity|]. split; [exact HB|]. split; [reflexivity|]. split; [exact Hfb|constructor]. }
  assert (Hstop : (is_tmp, result, lw) = (is_tmp', result', last') -> exists members rest', id :: rest = members ++ rest' /\
    batch_holds result' (group_ops (acc ++ members)) /\ list.last (lw :: members) = Some last' /\ (is_tmp' = false -> result' = first_batch) /\
    Forall (fun w => w_sync (writer_at db w) = true -> w_sync first = true) members).
  { intros [= <- <- <-]. exists [], (id :: rest). rewrite (app_nil_r acc). split; [reflexivity|]. split; [exact HB|]. split; [reflexivity|]. split; [exact Hfb|constructor]. }
  destruct (w_sync (writer_at db id) && negb (w_sync first)) eqn:Es; [exact Hstop|].
  assert (Hsync : w_sync (writer_at db id) = true -> w_sync first = true).
  { intros E1. rewrite E1 in Es. destruct (w_sync first); [reflexivity|discriminate]. }
  assert (Hnext : forall b t, batch_holds b (group_ops (acc ++ [id])) -> forall size', sz (rep_ b) <= size' ->
    (size' <= max_size \/ t = false /\ size' < 2 ^ 31) -> (t = false -> b = first_batch) ->
    group_loop db first first_batch max_size size' t b id rest = (is_tmp', result', last') ->
    exists members rest', id :: rest = members ++ rest' /\ batch_holds result' (group_ops (acc ++ members)) /\
      list.last (lw :: members) = Some last' /\ (is_tmp' = false -> result' = first_batch) /\
      Forall (fun w => w_sync (writer_at db w) = true -> w_sync first = true) members).
  { intros b t Hb size' H1 H2 H3 HG. destruct (IH t b id (acc ++ [id]) size' Hb H3 H1 H2 _ _ _ HG) as (ms & rest' & -> & Hh & Hl & Hf & Hsy).
    exists (id :: ms), rest'. rewrite <- app_assoc in Hh. split; [reflexivity|]. split; [exact Hh|]. split; [exact Hl|]. split; [exact Hf|].
    constructor; assumption. }
  unfold writer_holds in Hid. destruct (w_batch (writer_at db id)) as [b|].
  - pose proof (holds_nonneg _ _ Hid) as Hb12. pose proof (bh_size _ _ Hid) as Hbs. pose proof (sz_nonneg (rep_ result)).
    unfold WB_ApproximateSize. rewrite u64_small by lia.
    destruct (Z.ltb_spec max_size (size + sz (rep_ b))) as [Hl|Hl]; [exact Hstop|]. cbv zeta.
    set (r0 := if is_tmp then result else WBI_Append (db_tmp_batch db) first_batch).
    assert (H0 : batch_holds r0 (group_ops acc) /\ sz (rep_ r0) <= size).
    { unfold r0. destruct is_tmp; [split; [exact HB|lia]|]. rewrite Htmp. rewrite Hfb in HB, Hsz by reflexivity.
      destruct (append_holds _ [] _ _ new_holds HB) as [Ha Hz]; [change (sz (rep_ WriteBatch_new)) with 12; lia|]. split; [exact Ha|].
      rewrite Hz. change (sz (rep_ WriteBatch_new)) with 12. lia. }
    destruct H0 as [H0 H0s]. destruct (append_holds _ _ _ _ H0 Hid) as [Ha Hz]; [lia|]. intros HG.
    apply (Hnext (WBI_Append r0 b) true) in HG; [exact HG| |lia|left; lia|discriminate].
    unfold group_ops. rewrite map_app, concat_app. cbn [map concat]. rewrite app_nil_r. exact Ha.
  - apply Hnext; auto. unfold group_ops. rewrite map_app, concat_app. cbn [map concat]. rewrite Hid, !app_nil_r. exact HB.
Qed.

Lemma BuildBatchGroup_spec (db : @DBImpl E W) w rest b : db_writers db = w :: rest -> w_batch (writer_at db w) = Some b ->
  Forall (writer_holds db) (w :: rest) -> db_tmp_batch db = WriteBatch_new ->
  exists is_tmp result last members rest', BuildBatchGroup db = Some (is_tmp, result, last) /\ rest = members ++ rest' /\
    batch_holds result (group_ops (w :: members)) /\ list.last (w :: members) = Some last /\ (is_tmp = false -> result = b) /\
    Forall (fun x => w_sync (writer_at db x) = true -> w_sync (writer_at db w) = true) members.
Proof.
  intros Ew Eb HF Htmp. apply Forall_cons_iff in HF as [Hw HF]. unfold writer_holds in Hw. rewrite Eb in Hw.
  unfold BuildBatchGroup. rewrite Ew, Eb. unfold WB_ApproximateSize.
  pose proof (holds_nonneg _ _ Hw) as H12. pose proof (bh_size _ _ Hw) as Hsz.
  destruct (group_loop db (writer_at db w) b (group_max_size (sz (rep_ b))) (sz (rep_ b)) false b w rest) as [[t r] lst] eqn:EG.
  exists t, r, lst.
  destruct (group_loop_spec db (writer_at db w) b (group_max_size (sz (rep_ b))) rest HF Htmp) with (is_tmp := false) (result := b)
    (last_writer := w) (acc := [w]) (size := sz (rep_ b)) (is_tmp' := t) (result' := r) (last' := lst) as (ms & rest' & E1 & E2 & E3 & E4 & E5).
  - unfold group_max_size. zcases; [rewrite u64_small by lia|]; lia.
  - unfold group_ops. cbn. rewrite app_nil_r. exact Hw.
  - reflexivity.
  - lia.
  - right. split; [reflexivity|exact Hsz].
  - exact EG.
  - exists ms, rest'. auto 10.
Qed.

End Group.

(** ** Threads

    The phase of the writer at the front of the queue; the others only wait. *)

Inductive Phase :=
| PIdle
| PRoom (w : nat) (force allow_delay : bool)                           (* in MakeRoomForWrite *)
| PUnlocked (w : nat) (l : WriteLocals)                                (* about to write, mutex released *)
| PInserting (w : nat) (l : WriteLocals) (sync_error : bool) (input : bytes) (found sequence : Z)
    (* the log is written; in WriteBatch::Iterate, with its locals and the inserter's sequence_ *)
| PApplied (w : nat) (l : WriteLocals) (status : Status) (sync_error : bool).  (* written, about to lock again *)

Inductive Event :=
| EvEnter (w : nat) (updates : option WriteBatch) (sync : bool)
| EvSwitch
| EvLeave (members : list nat) (status : Status) (first : Z)           (* the number of the first operation *)
| EvTau                                                                (* another step of the writer at the front *)
| EvOther.                                                             (* the background thread or another operation *)

Section Threads.
Context (U : Comparator) (write_buffer_size : Z) (dbname : bytes).
Context {E W S : Type} {WF : WritableFile W} {SF : SequentialFile S} (env : @EnvOps E W S).

#[local] Abbreviation DB := (@DBImpl E W).
#[local] Abbreviation last_seq db := (vs_last_sequence (db_versions db)).
#[local] Abbreviation null_batch db w := (is_null (w_batch (writer_at db w))).

(** What the background thread and the operations that do not write leave alone. *)

Record rely (db db' : DB) : Prop := {
  rl_mem : db_mem db' = db_mem db;
  rl_log : db_log db' = db_log db;
  rl_writers : db_writers db' = db_writers db;
  rl_objects : db_writer_objects db' = db_writer_objects db;
  rl_tmp : db_tmp_batch db' = db_tmp_batch db;
  rl_sequence : last_seq db' = last_seq db
}.

(** [InsertInto] begins: the header is skipped. *)

Definition insert_begin (w : nat) (l : WriteLocals) (sync_error : bool) : Phase :=
  if sz (rep_ (wl_batch l)) <? Z.of_nat kHeader then PApplied w l (Corruption (str "malformed WriteBatch (too small)") []) sync_error
  else PInserting w l sync_error (drop kHeader (rep_ (wl_batch l))) 0 (WBI_Sequence (wl_batch l)).

(** The mutex is released while the log and the memtable are written: the log
    is one step and the insertion of each operation is one. *)

Inductive wstep : DB * Phase -> Event -> DB * Phase -> Prop :=
| ws_enter db ph w updates sync : db_writer_objects db !! w = None -> Write_may_enter db updates = true ->
    wstep (db, ph) (EvEnter w updates sync) (Write_enter db w updates sync, ph)
| ws_begin db w : hd_error (db_writers db) = Some w ->
    wstep (db, PIdle) EvTau (db, PRoom w (null_batch db w) (negb (null_batch db w)))
| ws_delayed db w f d db' : MakeRoomForWrite_turn write_buffer_size dbname env f d db = (RoomDelayed, db') ->
    wstep (db, PRoom w f d) EvTau (db', PRoom w f false)
| ws_switched db w f d db' : MakeRoomForWrite_turn write_buffer_size dbname env f d db = (RoomSwitched, db') ->
    wstep (db, PRoom w f d) EvSwitch (db', PRoom w false d)
| ws_refused db w f d s db1 db2 : MakeRoomForWrite_turn write_buffer_size dbname env f d db = (RoomReturn s, db1) ->
    ok s && negb (null_batch db1 w) = false -> Write_leave w w s db1 = Some db2 ->
    wstep (db, PRoom w f d) (EvLeave [w] s (last_seq db1 + 1)) (db2, PIdle)
| ws_group db w f d s db1 l db2 : MakeRoomForWrite_turn write_buffer_size dbname env f d db = (RoomReturn s, db1) ->
    ok s && negb (null_batch db1 w) = true -> Write_group w db1 = Some (l, db2) ->
    wstep (db, PRoom w f d) EvTau (db2, PUnlocked w l)
| ws_log db w l s se db' : Write_log (w_sync (writer_at db w)) l db = Some (s, se, db') ->
    wstep (db, PUnlocked w l) EvTau (db', if ok s then insert_begin w l se else PApplied w l s se)
| ws_insert db w l se input found q input' found' q' mem :
    WB_Iterate_turn (MemTableInserter U) input found (q, Some (db_mem db)) = inr (input', found', (q', Some mem)) ->
    wstep (db, PInserting w l se input found q) EvTau (with_memtables db mem (db_imm db), PInserting w l se input' found' q')
| ws_inserted db w l se input found q s found' :
    WB_Iterate_turn (MemTableInserter U) input found (q, Some (db_mem db)) = inl (s, found') ->
    wstep (db, PInserting w l se input found q) EvTau (db, PApplied w l (WB_Iterate_end (wl_batch l) s found') se)
| ws_leave db w l s se db' members : Write_leave w (wl_last_writer l) s (Write_commit l s se db) = Some db' ->
    db_writers db = members ++ db_writers db' ->
    wstep (db, PApplied w l s se) (EvLeave members s (last_seq db + 1)) (db', PIdle)
| ws_other db db' ph : rely db db' -> wstep (db, ph) EvOther (db', ph).

(** Traces, the first event first. *)

Inductive wrun : DB * Phase -> list Event -> DB * Phase -> Prop :=
| wr_nil c : wrun c [] c
| wr_snoc c0 tr c e c' : wrun c0 tr c -> wstep c e c' -> wrun c0 (tr ++ [e]) c'.

(** ** What a trace says *)

Definition entered (tr : list Event) : list nat := omap (fun e => match e with EvEnter w _ _ => Some w | _ => None end) tr.

Definition left_queue (tr : list Event) : list nat := concat (omap (fun e => match e with EvLeave ws _ _ => Some ws | _ => None end) tr).

Context (ops_of : nat -> list Op).

(** The writer [w] carries the operations [ops_of w]. *)

Definition enter_ok (e : Event) : Prop :=
  match e with
  | EvEnter w (Some b) _ => batch_holds b (ops_of w)
  | EvEnter w None _ => ops_of w = []
  | _ => True
  end.

(** The operations of an acknowledged group, as they are numbered. *)

Definition event_ops (e : Event) : list (Z * Op) :=
  match e with
  | EvLeave ws s first => if ok s then numbered first (group_ops ops_of ws) else []
  | _ => []
  end.

Definition acknowledged (tr : list Event) : list (Z * Op) := concat (map event_ops tr).

(** The part that is in the current memtable, which starts with [h]. *)

Definition mem_step (h : list (Z * Op)) (e : Event) : list (Z * Op) :=
  match e with EvSwitch => [] | _ => h ++ event_ops e end.

Definition in_memtable (h : list (Z * Op)) (tr : list Event) : list (Z * Op) := fold_left mem_step tr h.

Definition total_ops (tr : list Event) : Z := sz (group_ops ops_of (entered tr)).

(** ** The invariant *)

Definition memtable_is (m : MemTable) (h : list (Z * Op)) : Prop := MemTable_AddAll U MemTable_new h = Some m.

(** A group: the first writers of the queue, led by [w]. *)

Record group_inv (db : DB) (w : nat) (l : WriteLocals) (members rest : list nat) : Prop := {
  gi_queue : db_writers db = members ++ rest;
  gi_first : hd_error members = Some w;
  gi_last : list.last members = Some (wl_last_writer l);
  gi_batch : wl_batch l = mkWriteBatch (batch_rep (last_seq db + 1) (sz (group_ops ops_of members)) (group_ops ops_of members));
  gi_fits : Forall op_fits (group_ops ops_of members);
  gi_count : sz (group_ops ops_of members) < 2 ^ 31;
  gi_sequence : wl_last_sequence l = last_seq db + sz (group_ops ops_of members);
  gi_tmp : wl_is_tmp l = false -> db_tmp_batch db = WriteBatch_new
}.

Definition phase_inv (h : list (Z * Op)) (db : DB) (ph : Phase) : Prop :=
  match ph with
  | PIdle => db_tmp_batch db = WriteBatch_new /\ memtable_is (db_mem db) h
  | PRoom w _ _ => db_tmp_batch db = WriteBatch_new /\ memtable_is (db_mem db) h /\ hd_error (db_writers db) = Some w
  | PUnlocked w l => memtable_is (db_mem db) h /\ exists members rest, group_inv db w l members rest
  | PInserting w l se input found q => exists members rest inserted todo, group_inv db w l members rest /\
      group_ops ops_of members = inserted ++ todo /\ input = concat (map record_bytes todo) /\ found = sz inserted /\
      q = last_seq db + 1 + sz inserted /\ memtable_is (db_mem db) (h ++ numbered (last_seq db + 1) inserted)
  | PApplied w l s se => exists members rest, group_inv db w l members rest /\
      memtable_is (db_mem db) (h ++ if ok s then numbered (last_seq db + 1) (group_ops ops_of members) else [])
  end.

Definition log_ok (db : DB) : Prop := 0 <= block_offset_ (db_log db) <= kBlockSize.

Record winv (h0 : list (Z * Op)) (seq0 : Z) (tr : list Event) (c : DB * Phase) : Prop := {
  wi_queue : entered tr = left_queue tr ++ db_writers (fst c);
  wi_nodup : NoDup (entered tr);
  wi_objects : forall w, In w (entered tr) -> is_Some (db_writer_objects (fst c) !! w);
  wi_batches : Forall (writer_holds ops_of (fst c)) (db_writers (fst c));
  wi_pending : Forall (fun w => w_done (writer_at (fst c) w) = false) (db_writers (fst c));
  wi_history : history_ok (in_memtable h0 tr);
  wi_acknowledged : StronglySorted (fun a b => fst a < fst b) (acknowledged tr);
  wi_numbers : Forall (fun qo => fst qo <= last_seq (fst c)) (in_memtable h0 tr ++ acknowledged tr);
  wi_sequence : 0 <= last_seq (fst c);
  wi_bound : last_seq (fst c) + sz (group_ops ops_of (db_writers (fst c))) <= seq0 + total_ops tr;
  wi_log : log_ok (fst c);
  wi_told : forall ws s q w, In (EvLeave ws s q) tr -> In w (tl ws) ->
    w_done (writer_at (fst c) w) = true /\ w_status (writer_at (fst c) w) = s;
  wi_phase : phase_inv (in_memtable h0 tr) (fst c) (snd c)
}.

(** ** The parts of a step *)

Lemma rely_refl (db : DB) : rely db db.
Proof. split; reflexivity. Qed.

Lemma rely_trans (db1 db2 db3 : DB) : rely db1 db2 -> rely db2 db3 -> rely db1 db3.
Proof. intros [] []. split; congruence. Qed.

Lemma rely_writer (db db' : DB) w : rely db db' -> writer_at db' w = writer_at db w.
Proof. intros H. unfold writer_at. rewrite (rl_objects _ _ H). reflexivity. Qed.

Lemma rely_background (db : DB) a b c d : rely db (with_background db a b c d).
Proof. split; reflexivity. Qed.

Lemma RecordBackgroundError_rely s (db : DB) : rely db (RecordBackgroundError s db).
Proof. unfold RecordBackgroundError. destruct (ok _); [apply rely_background|apply rely_refl]. Qed.

Lemma MaybeSchedule_rely (db : DB) : rely db (MaybeScheduleCompaction db).
Proof.
  unfold MaybeScheduleCompaction. repeat match goal with |- context [if ?b then _ else _] => destruct b end;
    (apply rely_refl || apply rely_background).
Qed.

Lemma ReuseFileNumber_sequence (vs : @VersionSet E W) n : vs_last_sequence (ReuseFileNumber vs n) = vs_last_sequence vs.
Proof. unfold ReuseFileNumber. destruct (_ =? _); reflexivity. Qed.

Lemma turn_spec f d (db : DB) t db' : MakeRoomForWrite_turn write_buffer_size dbname env f d db = (t, db') ->
  match t with
  | RoomReturn _ => rely db db'
  | RoomSwitched => db_mem db' = MemTable_new /\ db_writers db' = db_writers db /\ db_writer_objects db' = db_writer_objects db /\
      db_tmp_batch db' = db_tmp_batch db /\ last_seq db' = last_seq db /\ log_ok db'
  | _ => db' = db
  end.
Proof.
  unfold MakeRoomForWrite_turn. destruct (negb (ok (db_bg_error db))); [intros [= <- <-]; apply rely_refl|].
  destruct (d && _); [intros [= <- <-]; reflexivity|]. destruct (negb f && _); [intros [= <- <-]; apply rely_refl|].
  destruct (negb (is_null _)); [intros [= <- <-]; reflexivity|]. destruct (_ <=? _); [intros [= <- <-]; reflexivity|].
  cbn [NewFileNumber fst snd]. destruct (env_NewWritableFile _ _ _) as [e [s lfile]].
  assert (Hr : forall n (vs : @VersionSet E W), vs_last_sequence vs = last_seq db -> rely db (with_vs db (ReuseFileNumber vs n))).
  { intros n vs Hv. split; try reflexivity. cbn. rewrite ReuseFileNumber_sequence. exact Hv. }
  destruct lfile as [lfile|]; [|intros [= <- <-]; apply Hr; reflexivity].
  destruct (ok s); [|intros [= <- <-]; apply Hr; reflexivity]. intros [= <- <-]. unfold SwitchMemTable.
  destruct (wf_Close _) as [s1 f1]. cbv zeta.
  match goal with |- context [MaybeScheduleCompaction ?x] => destruct (MaybeSchedule_rely x) as [-> Hl -> -> -> ->] end. unfold log_ok. rewrite Hl. clear Hl.
  destruct (ok s1); cbn; [repeat split; discriminate|].
  match goal with |- context [RecordBackgroundError ?a ?x] => destruct (RecordBackgroundError_rely a x) as [_ _ -> -> -> ->] end.
  repeat split; discriminate.
Qed.

Lemma pop_writers_spec w lst s ws rest objs : list.last ws = Some lst -> NoDup ws ->
  exists objs', pop_writers w lst s (ws ++ rest) objs = Some (rest, objs') /\
    forall x, objs' !! x = if decide (x ∈ ws /\ x <> w) then finish_writer s <$> objs !! x else objs !! x.
Proof.
  intros HL HN. revert objs. induction ws as [|y ws IH]; intros objs; [discriminate HL|]. cbn [app pop_writers].
  apply list.NoDup_cons in HN as [Hy HN]. cbv zeta.
  set (objs1 := if decide (y = w) then objs else alter (finish_writer s) y objs).
  assert (H1 : forall x, objs1 !! x = if decide (x = y /\ x <> w) then finish_writer s <$> objs !! x else objs !! x).
  { intros x. unfold objs1. destruct (decide (y = w)) as [->|Hne].
    - rewrite decide_False by (intros [-> H]; auto). reflexivity.
    - destruct (decide (x = y)) as [->|Hxy].
      + rewrite decide_True by auto. apply lookup_alter_eq.
      + rewrite decide_False by tauto. apply lookup_alter_ne. congruence. }
  destruct (decide (y = lst)) as [->|Hne].
  - assert (ws = []) as ->.
    { destruct ws as [|z ws]; [reflexivity|]. exfalso. apply Hy. rewrite list.last_cons_cons in HL. apply list.last_Some_elem_of in HL. exact HL. }
    exists objs1. split; [reflexivity|]. intros x. rewrite H1.
    apply decide_ext. rewrite list_elem_of_singleton. reflexivity.
  - assert (HL' : list.last ws = Some lst).
    { destruct ws as [|z ws]; [injection HL as ->; congruence|]. rewrite list.last_cons_cons in HL. exact HL. }
    destruct (IH HL' HN objs1) as (objs' & E1 & E2). exists objs'. split; [exact E1|]. intros x. rewrite E2, H1, (decide_ext (x ∈ y :: ws /\ x <> w) ((x = y \/ x ∈ ws) /\ x <> w)) by (rewrite elem_of_cons; reflexivity).
    destruct (decide (x ∈ ws /\ x <> w)) as [[Hx Hxw]|Hd].
    + rewrite decide_False by (intros [-> _]; contradiction). rewrite decide_True by tauto. reflexivity.
    + destruct (decide (x = y /\ x <> w)) as [[-> Hyw]|Hd1].
      * rewrite decide_True by tauto. reflexivity.
      * rewrite decide_False by (intros [[->|Hx] Hxw]; tauto). reflexivity.
Qed.

(** ** Lemmas on traces *)

Lemma entered_app tr1 tr2 : entered (tr1 ++ tr2) = entered tr1 ++ entered tr2.
Proof. apply omap_app. Qed.

Lemma entered_snoc tr e : entered (tr ++ [e]) = entered tr ++ match e with EvEnter w _ _ => [w] | _ => [] end.
Proof. unfold entered. rewrite omap_app. destruct e; reflexivity. Qed.

Lemma left_snoc tr e : left_queue (tr ++ [e]) = left_queue tr ++ match e with EvLeave ws _ _ => ws | _ => [] end.
Proof. unfold left_queue. rewrite omap_app, concat_app. destruct e; cbn; rewrite ?app_nil_r; reflexivity. Qed.

Lemma acknowledged_snoc tr e : acknowledged (tr ++ [e]) = acknowledged tr ++ event_ops e.
Proof. unfold acknowledged. rewrite map_app, concat_app. cbn. rewrite app_nil_r. reflexivity. Qed.

Lemma in_memtable_snoc h tr e : in_memtable h (tr ++ [e]) = mem_step (in_memtable h tr) e.
Proof. unfold in_memtable. apply fold_left_app. Qed.

Lemma group_ops_app ws1 ws2 : group_ops ops_of (ws1 ++ ws2) = group_ops ops_of ws1 ++ group_ops ops_of ws2.
Proof. unfold group_ops. rewrite map_app, concat_app. reflexivity. Qed.

(** Events that neither enter nor leave the queue nor switch the memtable. *)

Lemma in_app_snoc {A} (x : A) l y : In x (l ++ [y]) -> In x l \/ x = y.
Proof. intros H. apply in_app_or in H as [H|[H|[]]]; auto. Qed.

Record same_queue (db db' : DB) : Prop := {
  sq_writers : db_writers db' = db_writers db;
  sq_objects : db_writer_objects db' = db_writer_objects db;
  sq_sequence : last_seq db' = last_seq db;
  sq_log : log_ok db -> log_ok db'
}.

Lemma rely_queue db db' : rely db db' -> same_queue db db'.
Proof. intros []. split; try assumption. unfold log_ok. rewrite rl_log0. auto. Qed.

Definition silent (e : Event) : Prop := match e with EvTau | EvOther => True | _ => False end.

Lemma tau_inv e h0 seq0 tr c c' : silent e -> winv h0 seq0 tr c -> same_queue (fst c) (fst c') ->
  phase_inv (in_memtable h0 tr) (fst c') (snd c') -> winv h0 seq0 (tr ++ [e]) c'.
Proof.
  intros He0 HI HR HP. destruct HI as [I1 I2 I3 I4 I5 I6 I7 I8 I9 I10 IL I11 I12].
  assert (Hh : in_memtable h0 (tr ++ [e]) = in_memtable h0 tr) by (rewrite in_memtable_snoc; destruct e; try contradiction; apply app_nil_r).
  assert (Ha : acknowledged (tr ++ [e]) = acknowledged tr) by (rewrite acknowledged_snoc; destruct e; try contradiction; apply app_nil_r).
  assert (He : entered (tr ++ [e]) = entered tr) by (rewrite entered_snoc; destruct e; try contradiction; apply app_nil_r).
  assert (Hw : forall w, writer_at (fst c') w = writer_at (fst c) w) by (intros w; unfold writer_at; rewrite (sq_objects _ _ HR); reflexivity).
  split; rewrite ?Hh, ?Ha, ?He, ?(sq_sequence _ _ HR), ?(sq_writers _ _ HR), ?(sq_objects _ _ HR); try assumption.
  - rewrite left_snoc. destruct e; try contradiction; rewrite app_nil_r; exact I1.
  - revert I4. apply List.Forall_impl. intros w. unfold writer_holds. rewrite Hw. auto.
  - revert I5. apply List.Forall_impl. intros w. rewrite Hw. auto.
  - unfold total_ops in *. rewrite He. exact I10.
  - exact (sq_log _ _ HR IL).
  - intros ws s q w Hin Ht. apply in_app_snoc in Hin as [Hin|<-]; [|contradiction]. rewrite Hw. exact (I11 ws s q w Hin Ht).
Qed.

Lemma group_rely db db' w l ms rest : rely db db' -> group_inv db w l ms rest -> group_inv db' w l ms rest.
Proof.
  intros HR [G1 G2 G3 G4 G5 G6 G7 G8].
  split; rewrite ?(rl_sequence _ _ HR), ?(rl_writers _ _ HR), ?(rl_tmp _ _ HR); assumption.
Qed.

Lemma phase_rely h db db' ph : rely db db' -> phase_inv h db ph -> phase_inv h db' ph.
Proof.
  intros HR. destruct ph as [|w f d|w l|w l se i n q|w l s se]; cbn [phase_inv]; rewrite ?(rl_mem _ _ HR), ?(rl_tmp _ _ HR), ?(rl_writers _ _ HR); auto.
  - intros (H1 & ms & rest & HG). split; [exact H1|]. exists ms, rest. exact (group_rely _ _ _ _ _ _ HR HG).
  - intros (ms & rest & ins & todo & HG & H1). exists ms, rest, ins, todo. split; [exact (group_rely _ _ _ _ _ _ HR HG)|]. rewrite (rl_sequence _ _ HR). exact H1.
  - intros (ms & rest & HG & H1). exists ms, rest. split; [exact (group_rely _ _ _ _ _ _ HR HG)|]. rewrite (rl_sequence _ _ HR). exact H1.
Qed.

Lemma other_step_inv e h0 seq0 tr db db' ph : silent e -> rely db db' -> winv h0 seq0 tr (db, ph) -> winv h0 seq0 (tr ++ [e]) (db', ph).
Proof. intros He HR HI. apply (tau_inv e h0 seq0 tr (db, ph)); [exact He|exact HI|apply rely_queue, HR|]. exact (phase_rely _ _ _ _ HR (wi_phase _ _ _ _ HI)). Qed.

(** *** Entering *)

Lemma enter_writer (db : DB) w u sy x : writer_at (Write_enter db w u sy) x =
  if decide (x = w) then mkDbWriter OK u sy false else writer_at db x.
Proof.
  unfold writer_at, Write_enter. cbn [db_writer_objects with_writers]. destruct (decide (x = w)) as [->|Hne].
  - rewrite lookup_insert_eq. reflexivity.
  - rewrite lookup_insert_ne by congruence. reflexivity.
Qed.

Lemma enter_phase h (db : DB) ph w u sy : phase_inv h db ph -> phase_inv h (Write_enter db w u sy) ph.
Proof.
  assert (HG : forall w0 l ms rest, group_inv db w0 l ms rest -> group_inv (Write_enter db w u sy) w0 l ms (rest ++ [w])).
  { intros w0 l ms rest [G1 G2 G3 G4 G5 G6 G7 G8]. split; try assumption. cbn. rewrite G1, app_assoc. reflexivity. }
  destruct ph as [|w0 f d|w0 l|w0 l se i n q|w0 l s se]; cbn [phase_inv].
  - auto.
  - intros (H1 & H2 & H3). split; [exact H1|]. split; [exact H2|]. cbn. destruct (db_writers db); [discriminate H3|exact H3].
  - intros (H1 & ms & rest & G). split; [exact H1|]. eauto.
  - intros (ms & rest & ins & todo & G & H1). exists ms, (rest ++ [w]), ins, todo. auto.
  - intros (ms & rest & G & H1). exists ms, (rest ++ [w]). auto.
Qed.

Lemma enter_inv h0 seq0 tr db ph w u sy : winv h0 seq0 tr (db, ph) -> db_writer_objects db !! w = None ->
  enter_ok (EvEnter w u sy) -> winv h0 seq0 (tr ++ [EvEnter w u sy]) (Write_enter db w u sy, ph).
Proof.
  intros HI Hw Hok. destruct HI as [I1 I2 I3 I4 I5 I6 I7 I8 I9 I10 IL I11 I12]. cbn [fst snd] in *.
  assert (Hh : in_memtable h0 (tr ++ [EvEnter w u sy]) = in_memtable h0 tr) by (rewrite in_memtable_snoc; cbn; apply app_nil_r).
  assert (Ha : acknowledged (tr ++ [EvEnter w u sy]) = acknowledged tr) by (rewrite acknowledged_snoc; apply app_nil_r).
  assert (Hfresh : ~ In w (entered tr)).
  { intros Hin. apply I3 in Hin as [o Ho]. congruence. }
  assert (Hne : forall x, In x (db_writers db) -> x <> w).
  { intros x Hx ->. apply Hfresh. rewrite I1. apply in_or_app. auto. }
  assert (Hold : forall x, x <> w -> writer_at (Write_enter db w u sy) x = writer_at db x)
    by (intros x Hx; rewrite enter_writer, decide_False by exact Hx; reflexivity).
  assert (Hnew : writer_at (Write_enter db w u sy) w = mkDbWriter OK u sy false) by (rewrite enter_writer, decide_True by reflexivity; reflexivity).
  split; rewrite ?Hh, ?Ha, ?entered_snoc; cbn [fst snd]; try assumption.
  - rewrite left_snoc, app_nil_r, I1, <- app_assoc. reflexivity.
  - apply list.NoDup_app. split; [exact I2|]. split; [|apply NoDup_singleton]. intros x Hx1 Hx2.
    apply list_elem_of_singleton in Hx2 as ->. apply list_elem_of_In in Hx1. contradiction.
  - intros x Hx. cbn. destruct (decide (x = w)) as [->|Hxw]; [rewrite lookup_insert_eq; eauto|]. rewrite lookup_insert_ne by congruence.
    apply in_app_snoc in Hx as [Hx|Hx]; [auto|contradiction].
  - cbn [db_writers Write_enter with_writers]. apply Forall_app. split.
    + rewrite List.Forall_forall in *. intros x Hx. unfold writer_holds. rewrite Hold by auto. exact (I4 x Hx).
    + constructor; [|constructor]. unfold writer_holds. rewrite Hnew. exact Hok.
  - cbn [db_writers Write_enter with_writers]. apply Forall_app. split.
    + rewrite List.Forall_forall in *. intros x Hx. rewrite Hold by auto. exact (I5 x Hx).
    + constructor; [|constructor]. rewrite Hnew. reflexivity.
  - unfold total_ops in *. rewrite entered_snoc. cbn [db_writers Write_enter with_writers db_versions]. rewrite !group_ops_app, !sz_app. lia.
  - intros ws s q x Hin Ht. apply in_app_snoc in Hin as [Hin|Hin]; [|discriminate].
    destruct (I11 ws s q x Hin Ht) as [Hd Hs]. rewrite Hold; [auto|]. intros ->. unfold writer_at in Hd. rewrite Hw in Hd. discriminate Hd.
  - apply enter_phase, I12.
Qed.

(** *** Making room *)

Lemma begin_inv h0 seq0 tr db w : winv h0 seq0 tr (db, PIdle) -> hd_error (db_writers db) = Some w ->
  winv h0 seq0 (tr ++ [EvTau]) (db, PRoom w (null_batch db w) (negb (null_batch db w))).
Proof.
  intros HI Hw. apply (tau_inv EvTau _ _ _ (db, PIdle)); [exact I|exact HI|apply rely_queue, rely_refl|]. destruct (wi_phase _ _ _ _ HI) as [H1 H2].
  cbn. auto.
Qed.

Lemma delayed_inv h0 seq0 tr db db' w f d : winv h0 seq0 tr (db, PRoom w f d) ->
  MakeRoomForWrite_turn write_buffer_size dbname env f d db = (RoomDelayed, db') -> winv h0 seq0 (tr ++ [EvTau]) (db', PRoom w f false).
Proof.
  intros HI HT. apply turn_spec in HT as ->. apply (tau_inv EvTau _ _ _ (db, PRoom w f d)); [exact I|exact HI|apply rely_queue, rely_refl|]. exact (wi_phase _ _ _ _ HI).
Qed.

Lemma switched_inv h0 seq0 tr db db' w f d : winv h0 seq0 tr (db, PRoom w f d) ->
  MakeRoomForWrite_turn write_buffer_size dbname env f d db = (RoomSwitched, db') -> winv h0 seq0 (tr ++ [EvSwitch]) (db', PRoom w false d).
Proof.
  intros HI HT. apply turn_spec in HT as (T1 & T2 & T3 & T4 & T5 & T6). destruct HI as [I1 I2 I3 I4 I5 I6 I7 I8 I9 I10 IL I11 I12]. cbn [fst snd] in *.
  assert (Hh : in_memtable h0 (tr ++ [EvSwitch]) = []) by (rewrite in_memtable_snoc; reflexivity).
  assert (Ha : acknowledged (tr ++ [EvSwitch]) = acknowledged tr) by (rewrite acknowledged_snoc; apply app_nil_r).
  assert (He : entered (tr ++ [EvSwitch]) = entered tr) by (rewrite entered_snoc; apply app_nil_r).
  assert (Hw : forall x, writer_at db' x = writer_at db x) by (intros x; unfold writer_at; rewrite T3; reflexivity).
  split; rewrite ?Hh, ?Ha, ?He; cbn [fst snd]; rewrite ?T2, ?T3, ?T5; try assumption.
  - rewrite left_snoc, app_nil_r. exact I1.
  - revert I4. apply List.Forall_impl. intros x. unfold writer_holds. rewrite Hw. auto.
  - revert I5. apply List.Forall_impl. intros x. rewrite Hw. auto.
  - split; constructor.
  - apply Forall_app in I8. apply I8.
  - unfold total_ops in *. rewrite He. exact I10.
  - intros ws s q x Hin Ht. apply in_app_snoc in Hin as [Hin|Hin]; [|discriminate]. rewrite Hw. exact (I11 ws s q x Hin Ht).
  - destruct I12 as (H1 & H2 & H3). cbn. rewrite T1, T2, T4. split; [exact H1|]. split; [reflexivity|exact H3].
Qed.

(** *** Leaving *)

Lemma numbered_In q ops x : In x (numbered q ops) -> q <= fst x < q + sz ops.
Proof.
  revert q. induction ops as [|op ops IH]; intros q; [contradiction|]. intros [<-|H].
  - rewrite sz_cons. pose proof (sz_nonneg ops). cbn. lia.
  - apply IH in H. rewrite sz_cons. lia.
Qed.

Lemma numbered_sorted q ops : StronglySorted (fun a b => fst a < fst b) (numbered q ops).
Proof.
  revert q. induction ops as [|op ops IH]; intros q; [constructor|]. cbn [numbered]. constructor; [apply IH|].
  apply List.Forall_forall. intros x Hx. apply numbered_In in Hx. cbn. lia.
Qed.

Lemma sorted_extend (h : list (Z * Op)) q ops : StronglySorted (fun a b => fst a < fst b) h -> Forall (fun qo => fst qo <= q) h ->
  StronglySorted (fun a b => fst a < fst b) (h ++ numbered (q + 1) ops).
Proof.
  intros HS HF. apply StronglySorted_app_iff. split; [exact HS|]. split; [apply numbered_sorted|]. intros x y Hx Hy. apply numbered_In in Hy.
  rewrite List.Forall_forall in HF. specialize (HF x Hx). lia.
Qed.

Lemma history_extend (h : list (Z * Op)) q ops : history_ok h -> Forall (fun qo => fst qo <= q) h -> 0 <= q ->
  q + sz ops <= kMaxSequenceNumber -> Forall op_fits ops -> history_ok (h ++ numbered (q + 1) ops).
Proof.
  intros [H1 H2 H3] HF Hq Hb Hfit. split.
  - apply sorted_extend; assumption.
  - apply Forall_app. split; [exact H2|]. apply List.Forall_forall. intros x Hx. apply numbered_In in Hx. lia.
  - apply Forall_app. split; [exact H3|]. rewrite <- (numbered_ops (q + 1) ops), List.Forall_forall in Hfit.
    apply List.Forall_forall. intros x Hx. apply Hfit, in_map, Hx.
Qed.

(** The group [members] leaves with the status [s] and the memtable has its
    operations if [s] is OK. *)

Lemma leave_inv h0 seq0 tr db ph db' members s w rest objs' : winv h0 seq0 tr (db, ph) ->
  db_writers db = members ++ rest -> hd_error members = Some w ->
  let e := EvLeave members s (last_seq db + 1) in
  Forall op_fits (group_ops ops_of members) ->
  (ok s = true -> last_seq db + sz (group_ops ops_of members) = last_seq db') ->
  last_seq db <= last_seq db' <= last_seq db + sz (group_ops ops_of members) ->
  seq0 + total_ops tr <= kMaxSequenceNumber ->
  db_writers db' = rest -> db_writer_objects db' = objs' ->
  (forall x, objs' !! x = if decide (x ∈ members /\ x <> w) then finish_writer s <$> db_writer_objects db !! x else db_writer_objects db !! x) ->
  db_tmp_batch db' = WriteBatch_new -> db_log db' = db_log db -> memtable_is (db_mem db') (mem_step (in_memtable h0 tr) e) ->
  winv h0 seq0 (tr ++ [e]) (db', PIdle).
Proof.
  intros HI Eq Ew e Hfit Hseq Hle Hbnd Er Eo Ho Htmp Hlog Hmem. destruct HI as [I1 I2 I3 I4 I5 I6 I7 I8 I9 I10 IL I11 I12]. cbn [fst snd] in *.
  assert (He : entered (tr ++ [e]) = entered tr) by (rewrite entered_snoc; apply app_nil_r).
  assert (Hnd : NoDup (left_queue tr ++ members ++ rest)) by (rewrite <- Eq, <- I1; exact I2).
  assert (Hin : forall x, In x (members ++ rest) -> In x (entered tr)) by (intros x Hx; rewrite I1, Eq; apply in_or_app; auto).
  assert (Hstay : forall x, ~ In x members -> writer_at db' x = writer_at db x).
  { intros x Hx. unfold writer_at. rewrite Eo, Ho. rewrite decide_False; [reflexivity|]. rewrite list_elem_of_In. tauto. }
  assert (Hrest : forall x, In x rest -> ~ In x members).
  { intros x Hx Hm. rewrite app_assoc in Hnd. apply list.NoDup_app in Hnd as (_ & Hd & _). apply (Hd x); apply list_elem_of_In; [apply in_or_app|]; auto. }
  pose proof (in_memtable_snoc h0 tr e) as Emem. pose proof (acknowledged_snoc tr e) as Eack.
  apply Forall_app in I8 as [I8a I8b].
  assert (Hnum : forall x, In x (event_ops e) -> last_seq db < fst x <= last_seq db').
  { intros x Hx. cbn [event_ops e] in Hx. destruct (ok s); [|contradiction]. apply numbered_In in Hx. specialize (Hseq eq_refl). lia. }
  assert (Hev : event_ops e = [] \/ event_ops e = numbered (last_seq db + 1) (group_ops ops_of members)) by (cbn; destruct (ok s); auto).
  assert (Hgb : last_seq db + sz (group_ops ops_of members) <= kMaxSequenceNumber).
  { rewrite Eq, group_ops_app, sz_app in I10. pose proof (sz_nonneg (group_ops ops_of rest)). lia. }
  assert (Hall : Forall (fun qo : Z * Op => fst qo <= last_seq db') (event_ops e)).
  { apply List.Forall_forall. intros x Hx. apply Hnum in Hx. lia. }
  assert (Hup : forall l, Forall (fun qo : Z * Op => fst qo <= last_seq db) l -> Forall (fun qo : Z * Op => fst qo <= last_seq db') l).
  { intros l. apply List.Forall_impl. intros x Hx. lia. }
  split; rewrite ?He, ?Emem, ?Eack; cbn [fst snd]; rewrite ?Er.
  - rewrite left_snoc, I1, Eq, <- app_assoc. reflexivity.
  - exact I2.
  - intros x Hx. rewrite Eo, Ho. destruct (decide _); [apply fmap_is_Some|]; exact (I3 x Hx).
  - rewrite Eq in I4. apply Forall_app in I4 as [_ I4]. rewrite List.Forall_forall in *. intros x Hx. unfold writer_holds. rewrite Hstay by auto. exact (I4 x Hx).
  - rewrite Eq in I5. apply Forall_app in I5 as [_ I5]. rewrite List.Forall_forall in *. intros x Hx. rewrite Hstay by auto. exact (I5 x Hx).
  - cbn [mem_step e]. fold e. destruct Hev as [->| ->]; [rewrite app_nil_r; exact I6|]. apply history_extend; assumption.
  - destruct Hev as [->| ->]; [rewrite app_nil_r; exact I7|]. apply sorted_extend; assumption.
  - cbn [mem_step e]. fold e. repeat apply Forall_app_2; auto.
  - lia.
  - unfold total_ops in *. rewrite He. rewrite Eq, group_ops_app, sz_app in I10. lia.
  - unfold log_ok. rewrite Hlog. exact IL.
  - intros ws s' q x Hi Ht. apply in_app_snoc in Hi as [Hi|Hi].
    + destruct (I11 ws s' q x Hi Ht) as [Hd Hs]. rewrite Hstay; [auto|]. intros Hm. rewrite Eq in I5. apply Forall_app in I5 as [I5 _].
      rewrite List.Forall_forall in I5. rewrite (I5 x Hm) in Hd. discriminate.
    + injection Hi as -> -> ->. destruct members as [|w' members]; [contradiction|]. injection Ew as ->. cbn [tl] in Ht.
      assert (Hxw : x <> w).
      { intros ->. apply list.NoDup_app in Hnd as (_ & _ & Hnd). apply list.NoDup_app in Hnd as (Hnd & _ & _). apply list.NoDup_cons in Hnd as [Hnd _].
        apply Hnd, list_elem_of_In, Ht. }
      unfold writer_at. rewrite Eo, Ho, decide_True by (split; [apply list_elem_of_In; right; exact Ht|exact Hxw]).
      destruct (I3 x) as [o ->]; [apply Hin, in_or_app; left; right; exact Ht|]. cbn. auto.
  - cbn. auto.
Qed.

(** A refused write, or a request to switch the memtable that is done. *)

Lemma refused_inv h0 seq0 tr db w f d s db1 db2 : winv h0 seq0 tr (db, PRoom w f d) -> seq0 + total_ops tr <= kMaxSequenceNumber ->
  MakeRoomForWrite_turn write_buffer_size dbname env f d db = (RoomReturn s, db1) ->
  ok s && negb (null_batch db1 w) = false -> Write_leave w w s db1 = Some db2 ->
  winv h0 seq0 (tr ++ [EvLeave [w] s (last_seq db1 + 1)]) (db2, PIdle).
Proof.
  intros HI Hb HT Hn HL. apply turn_spec in HT. apply (other_step_inv EvTau _ _ _ _ _ _ I HT) in HI as HI1.
  destruct (wi_phase _ _ _ _ HI) as (Htmp & Hmem & Hw). cbn [fst snd] in *.
  unfold Write_leave in HL. rewrite (rl_writers _ _ HT) in HL. destruct (db_writers db) as [|w' rest] eqn:Eq; [discriminate Hw|].
  injection Hw as ->. cbn [pop_writers] in HL. rewrite !decide_True in HL by reflexivity. injection HL as <-.
  pose proof (wi_batches _ _ _ _ HI) as HB. cbn [fst] in HB. rewrite Eq in HB. apply Forall_cons_iff in HB as [HB _].
  unfold writer_holds in HB. rewrite <- (rely_writer _ _ w HT) in HB.
  assert (Hops : ok s = true -> group_ops ops_of [w] = []).
  { intros Hs. rewrite Hs in Hn. cbn [andb] in Hn. apply negb_false_iff in Hn. destruct (w_batch (writer_at db1 w)); [discriminate Hn|].
    unfold group_ops. cbn. rewrite HB. reflexivity. }
  rewrite (rl_sequence _ _ HT). apply (leave_inv h0 seq0 tr db (PRoom w f d) _ [w] s w rest (db_writer_objects db) HI Eq eq_refl).
  - unfold group_ops. cbn. rewrite app_nil_r. destruct (w_batch (writer_at db1 w)); [apply (bh_fits _ _ HB)|rewrite HB; constructor].
  - intros Hs. rewrite Hops by exact Hs. cbn [db_versions with_writers]. rewrite (rl_sequence _ _ HT), sz_nil. lia.
  - cbn [db_versions with_writers]. rewrite (rl_sequence _ _ HT). pose proof (sz_nonneg (group_ops ops_of [w])). lia.
  - exact Hb.
  - reflexivity.
  - cbn. apply (rl_objects _ _ HT).
  - intros x. rewrite decide_False; [reflexivity|]. rewrite list_elem_of_singleton. tauto.
  - cbn. rewrite (rl_tmp _ _ HT). exact Htmp.
  - apply (rl_log _ _ HT).
  - cbn [mem_step event_ops db_mem with_writers]. rewrite (rl_mem _ _ HT).
    assert ((if ok s then numbered (last_seq db + 1) (group_ops ops_of [w]) else []) = []) as ->.
    { destruct (ok s); [rewrite Hops by reflexivity; reflexivity|reflexivity]. }
    rewrite app_nil_r. exact Hmem.
Qed.

(** Building the group. *)

Lemma set_batch_at (db : DB) w b x : is_Some (db_writer_objects db !! w) ->
  writer_at (with_writers db (db_writers db) (set_batch w b (db_writer_objects db)) (db_tmp_batch db)) x =
  if decide (x = w) then mkDbWriter (w_status (writer_at db w)) (Some b) (w_sync (writer_at db w)) (w_done (writer_at db w)) else writer_at db x.
Proof.
  intros [o Ho]. unfold writer_at, set_batch. cbn. destruct (decide (x = w)) as [->|Hne].
  - rewrite lookup_alter_eq, Ho. reflexivity.
  - rewrite lookup_alter_ne by congruence. reflexivity.
Qed.

Lemma group_step_inv h0 seq0 tr db w f d s db1 l db2 : winv h0 seq0 tr (db, PRoom w f d) -> seq0 + total_ops tr <= kMaxSequenceNumber ->
  MakeRoomForWrite_turn write_buffer_size dbname env f d db = (RoomReturn s, db1) ->
  ok s && negb (null_batch db1 w) = true -> Write_group w db1 = Some (l, db2) ->
  winv h0 seq0 (tr ++ [EvTau]) (db2, PUnlocked w l).
Proof.
  intros HI Hb HT Hn HG. apply turn_spec in HT. apply (other_step_inv EvTau _ _ _ _ _ _ I HT) in HI. clear HT db. rename db1 into db.
  assert (Hb' : seq0 + total_ops (tr ++ [EvTau]) <= kMaxSequenceNumber) by (unfold total_ops in *; rewrite entered_snoc, app_nil_r; exact Hb).
  assert (Hh : in_memtable h0 (tr ++ [EvTau]) = in_memtable h0 tr) by (rewrite in_memtable_snoc; cbn; apply app_nil_r).
  pose proof HI as [J1 J2 J3 J4 J5 J6 J7 J8 J9 J10 JL J11 (Htmp & Hmem & Hw)]. cbn [fst snd] in *. rewrite Hh in *.
  destruct (db_writers db) as [|w' rest] eqn:Eq; [discriminate Hw|]. injection Hw as ->.
  apply andb_true_iff in Hn as [_ Hn]. destruct (w_batch (writer_at db w)) as [b|] eqn:Eb; [|discriminate Hn].
  destruct (BuildBatchGroup_spec ops_of db w rest b Eq Eb J4 Htmp) as (t & r & lst & ms & rest' & EG & -> & Hh' & Hl & Hf & Hsync).
  unfold Write_group in HG. rewrite EG in HG. injection HG as <- <-.
  pose proof (batch_count _ _ Hh') as Hcnt. pose proof (sz_nonneg (group_ops ops_of (w :: ms))) as Hnn.
  assert (Hbound : last_seq db + sz (group_ops ops_of (w :: ms)) <= kMaxSequenceNumber).
  { change (w :: ms ++ rest') with ((w :: ms) ++ rest') in J10. rewrite group_ops_app, sz_app in J10. pose proof (sz_nonneg (group_ops ops_of rest')). lia. }
  assert (Hmaxs : kMaxSequenceNumber < 2 ^ 56) by reflexivity.
  rewrite !u64_small by lia. destruct (set_sequence_holds _ _ (last_seq db + 1) Hh') as [Hs1 Hs2].
  rewrite (WBI_Count_holds _ _ Hs1), u64_small by lia.
  set (l0 := mkWriteLocals _ _ _ _). set (db' := if t then _ else _).
  assert (Hsame : db_mem db' = db_mem db /\ db_writers db' = db_writers db /\ last_seq db' = last_seq db) by (unfold db'; destruct t; auto).
  destruct Hsame as (S1 & S2 & S3).
  assert (Hobj : is_Some (db_writer_objects db !! w)).
  { apply J3. rewrite J1. apply in_or_app. right. left. reflexivity. }
  assert (Hat : forall x, w_done (writer_at db' x) = w_done (writer_at db x) /\ w_status (writer_at db' x) = w_status (writer_at db x)).
  { intros x. unfold db'. destruct t; [auto|]. rewrite set_batch_at by exact Hobj. destruct (decide (x = w)) as [->|]; auto. }
  assert (Hal : list.last (w :: ms) = Some lst) by exact Hl.
  split; rewrite ?Hh, ?S2, ?S3; cbn [fst snd]; rewrite ?S2, ?S3, ?Eq; try assumption.
  - intros x Hx. unfold db'. destruct t; [exact (J3 x Hx)|]. cbn. unfold set_batch. destruct (decide (x = w)) as [->|Hne].
    + rewrite lookup_alter_eq. apply fmap_is_Some, Hobj.
    + rewrite lookup_alter_ne by congruence. exact (J3 x Hx).
  - rewrite List.Forall_forall in *. intros x Hx. unfold db', writer_holds. destruct t; [exact (J4 x Hx)|].
    rewrite set_batch_at by exact Hobj. destruct (decide (x = w)) as [->|Hne]; [|exact (J4 x Hx)]. cbn [w_batch].
    specialize (J4 w (or_introl eq_refl)). unfold writer_holds in J4. rewrite Eb in J4. rewrite Hf by reflexivity. apply set_sequence_holds, J4.
  - rewrite List.Forall_forall in *. intros x Hx. destruct (Hat x) as [-> _]. exact (J5 x Hx).
  - unfold db'. destruct t; exact JL.
  - intros ws s' q x Hin Ht. destruct (Hat x) as [-> ->]. exact (J11 ws s' q x Hin Ht).
  - split; [rewrite S1; exact Hmem|]. exists (w :: ms), rest'. split.
    + rewrite S2, Eq. reflexivity.
    + reflexivity.
    + exact Hal.
    + rewrite S3. exact Hs2.
    + apply (bh_fits _ _ Hh').
    + lia.
    + rewrite S3. reflexivity.
    + intros Et. cbn in Et. unfold db'. rewrite Et. exact Htmp.
Qed.

(** *** Writing *)

Context {UOK : ComparatorOk U}.
Hypothesis all_keys : forall u, @cmp_dom U u.

Lemma insert_group h q ops m : memtable_is m h -> history_ok (h ++ numbered q ops) -> 0 <= q -> q + sz ops < 2 ^ 64 ->
  sz ops < 2 ^ 31 -> Forall op_fits ops ->
  exists m', WBI_InsertInto U (mkWriteBatch (batch_rep q (sz ops) ops)) m = Some (OK, m') /\ memtable_is m' (h ++ numbered q ops).
Proof.
  intros Hm Hok Hq Hb Hn Hf. destruct (AddAll_Get all_keys _ Hok) as (m' & Hadd & _). exists m'. split; [|exact Hadd].
  rewrite AddAll_app, Hm in Hadd. apply InsertInto_AddAll; try assumption. revert Hf. apply List.Forall_impl. exact op_fits_small.
Qed.

Lemma group_bound h0 seq0 tr db ph w l ms rest : winv h0 seq0 tr (db, ph) -> seq0 + total_ops tr <= kMaxSequenceNumber ->
  group_inv db w l ms rest -> last_seq db + sz (group_ops ops_of ms) <= kMaxSequenceNumber.
Proof.
  intros HI Hb [G1 _ _ _ _ _ _ _]. pose proof (wi_bound _ _ _ _ HI) as HB. cbn [fst] in HB. rewrite G1, group_ops_app, sz_app in HB.
  pose proof (sz_nonneg (group_ops ops_of rest)). lia.
Qed.

Lemma group_with db db' w l ms rest : db_writers db' = db_writers db -> db_tmp_batch db' = db_tmp_batch db -> last_seq db' = last_seq db ->
  group_inv db w l ms rest -> group_inv db' w l ms rest.
Proof. intros E1 E2 E3 []. split; rewrite ?E1, ?E2, ?E3; assumption. Qed.

(** The log. *)

Lemma Write_log_total sync l (db : DB) : log_ok db -> exists s se file o tc, Write_log sync l db = Some (s, se, with_log db (mkWriter file o tc) (db_logfile_number db)) /\
  0 <= o <= kBlockSize.
Proof.
  intros HL. unfold Write_log. destruct (AddRecord_total (db_log db) (rep_ (wl_batch l)) HL) as (st & log & -> & Hoff).
  destruct (if ok st && sync then _ else _) as [[st1 se1] file]. eexists _, _, _, _, _. split; [reflexivity|exact Hoff].
Qed.

(** What the insertion starts from. *)

Lemma insert_begin_group w l se q ops : wl_batch l = mkWriteBatch (batch_rep q (sz ops) ops) -> 0 <= q < 2 ^ 64 ->
  insert_begin w l se = PInserting w l se (concat (map record_bytes ops)) 0 q.
Proof.
  intros EB Hq. unfold insert_begin. rewrite EB. cbn [rep_]. rewrite batch_size. pose proof (sz_nonneg (concat (map record_bytes ops))).
  rewrite (proj2 (Z.ltb_ge _ _)) by (unfold kHeader; lia).
  assert (ES : WBI_Sequence (mkWriteBatch (batch_rep q (sz ops) ops)) = q) by (unfold WBI_Sequence; cbn [rep_]; unfold batch_rep; rewrite fixed64_decode; apply u64_small; exact Hq).
  rewrite ES. unfold batch_rep. rewrite app_assoc, drop_app_length'; [reflexivity|]. rewrite length_app, length_EncodeFixed64, length_EncodeFixed32. reflexivity.
Qed.

Lemma log_inv h0 seq0 tr db w l s se db' : winv h0 seq0 tr (db, PUnlocked w l) -> seq0 + total_ops tr <= kMaxSequenceNumber ->
  Write_log (w_sync (writer_at db w)) l db = Some (s, se, db') ->
  winv h0 seq0 (tr ++ [EvTau]) (db', if ok s then insert_begin w l se else PApplied w l s se).
Proof.
  intros HI Hb HA. destruct (wi_phase _ _ _ _ HI) as (Hmem & ms & rest & HG). cbn [fst snd] in *.
  destruct (Write_log_total (w_sync (writer_at db w)) l db (wi_log _ _ _ _ HI)) as (s1 & se1 & file & o & tc & EA & Ho).
  rewrite HA in EA. injection EA as <- <- ->. apply (tau_inv EvTau _ _ _ (db, PUnlocked w l)); [exact I|exact HI|split; [reflexivity..|intros _; exact Ho]|].
  assert (HG' : group_inv (with_log db (mkWriter file o tc) (db_logfile_number db)) w l ms rest) by (apply (group_with db); auto). cbn [fst snd].
  destruct (ok s) eqn:Es.
  - pose proof (group_bound _ _ _ _ _ _ _ _ _ HI Hb HG) as Hbound. pose proof (wi_sequence _ _ _ _ HI) as Hq. cbn [fst] in Hq.
    pose proof (sz_nonneg (group_ops ops_of ms)). assert (kMaxSequenceNumber < 2 ^ 56) by reflexivity.
    rewrite (insert_begin_group w l se _ _ (gi_batch _ _ _ _ _ HG)) by lia. cbn [phase_inv]. exists ms, rest, [], (group_ops ops_of ms).
    cbn [app numbered db_versions with_log db_mem]. change (sz (@nil Op)) with 0. rewrite Z.add_0_r, app_nil_r. auto 10.
  - cbn [phase_inv]. exists ms, rest. rewrite Es, app_nil_r. auto.
Qed.

(** One operation. *)

Lemma insert_one h0 seq0 tr db ph w l ms rest ins op todo : winv h0 seq0 tr (db, ph) -> seq0 + total_ops tr <= kMaxSequenceNumber ->
  group_inv db w l ms rest -> group_ops ops_of ms = ins ++ op :: todo ->
  memtable_is (db_mem db) (in_memtable h0 tr ++ numbered (last_seq db + 1) ins) ->
  exists m, WB_Iterate_turn (MemTableInserter U) (concat (map record_bytes (op :: todo))) (sz ins) (last_seq db + 1 + sz ins, Some (db_mem db)) =
      inr (concat (map record_bytes todo), sz ins + 1, (last_seq db + 1 + sz ins + 1, Some m)) /\
    memtable_is m (in_memtable h0 tr ++ numbered (last_seq db + 1) (ins ++ [op])).
Proof.
  intros HI Hb HG Eo Hm. pose proof (group_bound _ _ _ _ _ _ _ _ _ HI Hb HG) as Hbound. pose proof (wi_sequence _ _ _ _ HI) as Hq.
  pose proof (wi_numbers _ _ _ _ HI) as Hn. apply Forall_app in Hn as [Hn _]. pose proof (gi_count _ _ _ _ _ HG) as Hc. pose proof (gi_fits _ _ _ _ _ HG) as Hf.
  cbn [fst] in *. rewrite Eo in Hbound, Hc, Hf. rewrite sz_app, sz_cons in Hbound, Hc. pose proof (sz_nonneg ins). pose proof (sz_nonneg todo).
  assert (kMaxSequenceNumber < 2 ^ 56) by reflexivity. apply Forall_app in Hf as [Hf1 Hf2]. apply Forall_cons_iff in Hf2 as [Hop _].
  destruct (AddAll_Get all_keys (in_memtable h0 tr ++ numbered (last_seq db + 1) (ins ++ [op]))) as (m & Hadd & _).
  { apply history_extend; [exact (wi_history _ _ _ _ HI)|exact Hn|exact Hq|rewrite sz_app, sz_cons, sz_nil; lia|apply Forall_app; auto]. }
  exists m. split; [|exact Hadd]. cbn [map concat]. rewrite record_bytes_turn by exact (op_fits_small _ Hop). rewrite MTI_one, s32_small by lia.
  unfold memtable_is in Hm. rewrite numbered_app, app_assoc, AddAll_app, Hm in Hadd. cbn [numbered MemTable_AddAll] in Hadd.
  destruct (MemTable_AddOp U (db_mem db) (last_seq db + 1 + sz ins, op)); [congruence|discriminate].
Qed.

Lemma insert_step_inv h0 seq0 tr db w l se i n q i' n' q' m : winv h0 seq0 tr (db, PInserting w l se i n q) -> seq0 + total_ops tr <= kMaxSequenceNumber ->
  WB_Iterate_turn (MemTableInserter U) i n (q, Some (db_mem db)) = inr (i', n', (q', Some m)) ->
  winv h0 seq0 (tr ++ [EvTau]) (with_memtables db m (db_imm db), PInserting w l se i' n' q').
Proof.
  intros HI Hb HT. destruct (wi_phase _ _ _ _ HI) as (ms & rest & ins & todo & HG & Eo & Ei & En & Eq & Hm). cbn [fst snd] in *. subst i n q.
  destruct todo as [|op todo]; [discriminate HT|].
  destruct (insert_one _ _ _ _ _ _ _ _ _ _ _ _ HI Hb HG Eo Hm) as (m' & ET & Hm'). rewrite ET in HT. injection HT as <- <- <- <-.
  apply (tau_inv EvTau _ _ _ (db, PInserting w l se (concat (map record_bytes (op :: todo))) (sz ins) (last_seq db + 1 + sz ins)));
    [exact I|exact HI|split; try reflexivity; auto|].
  cbn [phase_inv fst snd]. exists ms, rest, (ins ++ [op]), todo. rewrite sz_app, sz_cons, sz_nil, <- app_assoc. cbn [db_versions with_memtables db_mem app].
  repeat split; try assumption; try lia; apply HG.
Qed.

(** All are inserted. *)

Lemma inserted_inv h0 seq0 tr db w l se i n q s n' : winv h0 seq0 tr (db, PInserting w l se i n q) -> seq0 + total_ops tr <= kMaxSequenceNumber ->
  WB_Iterate_turn (MemTableInserter U) i n (q, Some (db_mem db)) = inl (s, n') ->
  winv h0 seq0 (tr ++ [EvTau]) (db, PApplied w l (WB_Iterate_end (wl_batch l) s n') se) /\ WB_Iterate_end (wl_batch l) s n' = OK.
Proof.
  intros HI Hb HT. destruct (wi_phase _ _ _ _ HI) as (ms & rest & ins & todo & HG & Eo & Ei & En & Eq & Hm). cbn [fst snd] in *. subst i n q.
  destruct todo as [|op todo].
  2: { destruct (insert_one _ _ _ _ _ _ _ _ _ _ _ _ HI Hb HG Eo Hm) as (m' & ET & _). rewrite ET in HT. discriminate HT. }
  injection HT as <- <-. rewrite app_nil_r in Eo. subst ins. pose proof (gi_count _ _ _ _ _ HG) as Hc. pose proof (sz_nonneg (group_ops ops_of ms)).
  assert (Es : WB_Iterate_end (wl_batch l) OK (sz (group_ops ops_of ms)) = OK).
  { unfold WB_Iterate_end. rewrite (gi_batch _ _ _ _ _ HG). unfold batch_rep. rewrite WBI_Count_rep, s32_small, Z.eqb_refl by lia. reflexivity. }
  rewrite Es. split; [|reflexivity].
  apply (tau_inv EvTau _ _ _ (db, PInserting w l se (concat (map record_bytes [])) (sz (group_ops ops_of ms)) (last_seq db + 1 + sz (group_ops ops_of ms))));
    [exact I|exact HI|apply rely_queue, rely_refl|].
  cbn [phase_inv fst snd ok OK]. exists ms, rest. auto.
Qed.

Lemma commit_same l s se (db : DB) : db_writers (Write_commit l s se db) = db_writers db /\
  db_writer_objects (Write_commit l s se db) = db_writer_objects db /\ db_mem (Write_commit l s se db) = db_mem db /\
  db_log (Write_commit l s se db) = db_log db /\
  last_seq (Write_commit l s se db) = wl_last_sequence l /\
  db_tmp_batch (Write_commit l s se db) = (if wl_is_tmp l then WB_Clear else db_tmp_batch db).
Proof.
  unfold Write_commit. set (db1 := if se then _ else db).
  assert (HR : rely db db1) by (unfold db1; destruct se; [apply RecordBackgroundError_rely|apply rely_refl]).
  clearbody db1. destruct HR. destruct (wl_is_tmp l); cbn; auto 10.
Qed.

Lemma leave_step_inv h0 seq0 tr db w l s se db' ms : winv h0 seq0 tr (db, PApplied w l s se) -> seq0 + total_ops tr <= kMaxSequenceNumber ->
  Write_leave w (wl_last_writer l) s (Write_commit l s se db) = Some db' -> db_writers db = ms ++ db_writers db' ->
  winv h0 seq0 (tr ++ [EvLeave ms s (last_seq db + 1)]) (db', PIdle).
Proof.
  intros HI Hb HL Hms. destruct (wi_phase _ _ _ _ HI) as (ms' & rest & HG & Hmem). cbn [fst snd] in *.
  destruct HG as [G1 G2 G3 G4 G5 G6 G7 G8]. destruct (commit_same l s se db) as (C1 & C2 & C3 & CL & C4 & C5).
  set (dbc := Write_commit l s se db) in *. clearbody dbc.
  assert (Hnd : NoDup ms').
  { pose proof (wi_nodup _ _ _ _ HI) as Hnd. rewrite (wi_queue _ _ _ _ HI) in Hnd. cbn [fst] in Hnd. rewrite G1 in Hnd.
    apply list.NoDup_app in Hnd as (_ & _ & Hnd). apply list.NoDup_app in Hnd as (Hnd & _ & _). exact Hnd. }
  destruct (pop_writers_spec w (wl_last_writer l) s ms' rest (db_writer_objects db) G3 Hnd) as (objs' & Epop & Eobjs).
  unfold Write_leave in HL. rewrite C1, C2, G1, Epop in HL. injection HL as <-. cbn [db_writers with_writers] in Hms.
  assert (ms = ms') as -> by (rewrite G1 in Hms; apply app_inv_tail in Hms; congruence).
  pose proof (sz_nonneg (group_ops ops_of ms')) as Hnn.
  apply (leave_inv h0 seq0 tr db (PApplied w l s se) _ ms' s w rest objs' HI G1 G2 G5); cbn [db_versions db_writers db_writer_objects db_tmp_batch db_log db_mem with_writers].
  - intros _. rewrite C4, G7. reflexivity.
  - rewrite C4, G7. lia.
  - exact Hb.
  - reflexivity.
  - reflexivity.
  - exact Eobjs.
  - rewrite C5. destruct (wl_is_tmp l); [reflexivity|apply G8; reflexivity].
  - exact CL.
  - rewrite C3. cbn [mem_step event_ops]. exact Hmem.
Qed.

(** ** All steps *)

Lemma wstep_inv h0 seq0 tr c e c' : winv h0 seq0 tr c -> enter_ok e -> seq0 + total_ops tr <= kMaxSequenceNumber ->
  wstep c e c' -> winv h0 seq0 (tr ++ [e]) c'.
Proof.
  intros HI He Hb Hs. destruct Hs.
  - apply enter_inv; assumption.
  - apply begin_inv; assumption.
  - eapply delayed_inv; eassumption.
  - eapply switched_inv; eassumption.
  - eapply refused_inv; eassumption.
  - eapply group_step_inv; eassumption.
  - eapply log_inv; eassumption.
  - eapply insert_step_inv; eassumption.
  - eapply inserted_inv; eassumption.
  - eapply leave_step_inv; eassumption.
  - eapply other_step_inv; [exact I|eassumption..].
Qed.

Lemma total_ops_mono tr e : total_ops tr <= total_ops (tr ++ [e]).
Proof.
  unfold total_ops. rewrite entered_snoc, group_ops_app, sz_app.
  pose proof (sz_nonneg (group_ops ops_of (match e with EvEnter w _ _ => [w] | _ => [] end))). lia.
Qed.

Lemma wrun_inv h0 seq0 c0 tr c : winv h0 seq0 [] c0 -> wrun c0 tr c -> Forall enter_ok tr -> seq0 + total_ops tr <= kMaxSequenceNumber ->
  winv h0 seq0 tr c.
Proof.
  intros H0 HR. induction HR as [c|c0 tr c e c' HR IH Hs]; intros HF Hb; [exact H0|].
  apply Forall_app in HF as [HF He]. apply Forall_inv in He. pose proof (total_ops_mono tr e).
  apply (wstep_inv h0 seq0 tr c e c'); [apply IH; [exact H0|exact HF|lia]|exact He|lia|exact Hs].
Qed.

(** ** Reading while writers run *)

Lemma history_get_later h h' u s : Forall (fun qo => s < fst qo) h' -> history_get (h ++ h') u s = history_get h u s.
Proof.
  intros HF. rewrite history_get_app. revert HF. generalize (history_get h u s). induction h' as [|x h' IH]; intros r HF; [reflexivity|].
  apply Forall_cons_iff in HF as [Hx HF]. cbn [fold_left]. unfold history_step at 2. rewrite (proj2 (Z.leb_gt _ _)) by lia. apply IH, HF.
Qed.

Lemma group_history h db ph tr seq0 h0 : winv h0 seq0 tr (db, ph) -> h = in_memtable h0 tr -> seq0 + total_ops tr <= kMaxSequenceNumber ->
  exists h', memtable_is (db_mem db) (h ++ h') /\ Forall (fun qo => last_seq db < fst qo) h' /\ history_ok (h ++ h').
Proof.
  intros HI -> Hb. pose proof (wi_history _ _ _ _ HI) as Hh. pose proof (wi_phase _ _ _ _ HI) as HP. cbn [fst snd] in *.
  assert (H0 : memtable_is (db_mem db) (in_memtable h0 tr) -> exists h', memtable_is (db_mem db) (in_memtable h0 tr ++ h') /\
    Forall (fun qo => last_seq db < fst qo) h' /\ history_ok (in_memtable h0 tr ++ h')).
  { intros Hm. exists []. rewrite app_nil_r. auto. }
  assert (Hpart : forall w l ms rest ops todo, group_inv db w l ms rest -> group_ops ops_of ms = ops ++ todo ->
    memtable_is (db_mem db) (in_memtable h0 tr ++ numbered (last_seq db + 1) ops) -> exists h', memtable_is (db_mem db) (in_memtable h0 tr ++ h') /\
    Forall (fun qo => last_seq db < fst qo) h' /\ history_ok (in_memtable h0 tr ++ h')).
  { intros w l ms rest ops todo HG Eo Hm. pose proof (group_bound _ _ _ _ _ _ _ _ _ HI Hb HG) as Hbd. pose proof (gi_fits _ _ _ _ _ HG) as Hf.
    rewrite Eo in Hbd, Hf. rewrite sz_app in Hbd. pose proof (sz_nonneg todo). apply Forall_app in Hf as [Hf _].
    pose proof (wi_numbers _ _ _ _ HI) as Hn. apply Forall_app in Hn as [Hn _]. cbn [fst] in *.
    eexists. split; [exact Hm|]. split; [|apply history_extend; [exact Hh|exact Hn|exact (wi_sequence _ _ _ _ HI)|lia|exact Hf]].
    apply List.Forall_forall. intros x Hx. apply numbered_In in Hx. lia. }
  destruct ph as [|w f d|w l|w l se i n q|w l s se]; cbn in HP; [apply H0, HP|apply H0, HP|apply H0, HP| |].
  - destruct HP as (ms & rest & ins & todo & HG & Eo & _ & _ & _ & Hm). exact (Hpart _ _ _ _ _ _ HG Eo Hm).
  - destruct HP as (ms & rest & HG & Hm). destruct (ok s); [|rewrite app_nil_r in Hm; exact (H0 Hm)].
    exact (Hpart _ _ _ _ _ [] HG (eq_sym (app_nil_r _)) Hm).
Qed.

Lemma reader_sees h0 seq0 tr db ph u s : winv h0 seq0 tr (db, ph) -> seq0 + total_ops tr <= kMaxSequenceNumber ->
  0 <= s <= last_seq db -> sz u + 8 < 2 ^ 32 ->
  MemTable_Get U (db_mem db) (MakeLookupKey u s) = Some (result_of (history_get (in_memtable h0 tr) u s)).
Proof.
  intros HI Hb Hs Hu. destruct (group_history _ db ph tr seq0 h0 HI eq_refl Hb) as (h' & Hm & Hlater & Hok).
  destruct (AddAll_Get all_keys _ Hok) as (m & Hadd & Hget). unfold memtable_is in Hm. rewrite Hm in Hadd. injection Hadd as <-.
  pose proof (wi_bound _ _ _ _ HI) as Hbd. cbn [fst] in Hbd. pose proof (sz_nonneg (group_ops ops_of (db_writers db))).
  rewrite Hget by lia. rewrite history_get_later; [reflexivity|]. revert Hlater. apply List.Forall_impl. intros x Hx. lia.
Qed.

(** ** Progress *)

(** Only a full immutable memtable or too many files in level 0 make a writer wait. *)

Definition room_waits f d (db : DB) : Prop :=
  ok (db_bg_error db) = true /\ (db_imm db <> None \/ kL0_StopWritesTrigger <= NumLevelFiles (db_versions db) 0) /\
  MakeRoomForWrite_turn write_buffer_size dbname env f d db = (RoomWait, db).

Lemma turn_waits f d (db db' : DB) : MakeRoomForWrite_turn write_buffer_size dbname env f d db = (RoomWait, db') -> room_waits f d db.
Proof.
  intros H. pose proof (turn_spec _ _ _ _ _ H) as ->. split; [|split; [|exact H]]; revert H; unfold MakeRoomForWrite_turn.
  - destruct (ok (db_bg_error db)); [reflexivity|discriminate].
  - destruct (negb (ok (db_bg_error db))); [discriminate|]. destruct (d && _); [discriminate|]. destruct (negb f && _); [discriminate|].
    destruct (db_imm db); cbn [is_null negb]; [left; discriminate|].
    destruct (Z.leb_spec kL0_StopWritesTrigger (NumLevelFiles (db_versions db) 0)) as [Hl|Hl]; [right; exact Hl|].
    cbn [NewFileNumber fst snd]. destruct (env_NewWritableFile _ _ _) as [e [s [lf|]]]; [destruct (ok s)|]; discriminate.
Qed.

(** The steps that are left to the writer at the front, which may insert the
    operations of the whole queue. *)

Definition queue_count (db : DB) : nat := length (group_ops ops_of (db_writers db)).

Definition steps_left (c : DB * Phase) : nat :=
  match snd c with
  | PIdle => 6 + queue_count (fst c)
  | PRoom _ _ d => 3 + queue_count (fst c) + (if d then 1 else 0) + (if is_null (db_imm (fst c)) then 1 else 0)
  | PUnlocked _ l => 2 + Z.to_nat (WBI_Count (wl_batch l))
  | PInserting _ l _ _ found _ => 1 + Z.to_nat (WBI_Count (wl_batch l) - found)
  | PApplied _ _ _ _ => 0
  end.

(** A step of the writer at the front, and the one with which the group that
    it leads leaves. *)

Definition own (e : Event) : Prop := match e with EvEnter _ _ _ | EvOther => False | _ => True end.

Definition leads (writers : list nat) (e : Event) : Prop :=
  match e with EvLeave members _ _ => hd_error members = hd_error writers | _ => False end.

Definition moves (c : DB * Phase) : Prop := exists e c', wstep c e c' /\ own e /\
  (leads (db_writers (fst c)) e \/ ((steps_left c' < steps_left c)%nat /\ db_writers (fst c') = db_writers (fst c))).

Lemma group_count db w l ms rest : group_inv db w l ms rest -> WBI_Count (wl_batch l) = sz (group_ops ops_of ms) /\
  (length (group_ops ops_of ms) <= queue_count db)%nat.
Proof.
  intros [G1 _ _ G4 _ G6 _ _]. pose proof (sz_nonneg (group_ops ops_of ms)). split.
  - rewrite G4. unfold batch_rep. rewrite WBI_Count_rep. apply s32_small. lia.
  - unfold queue_count. rewrite G1, group_ops_app, length_app. lia.
Qed.

Lemma leave_possible h0 seq0 tr db w l s se : winv h0 seq0 tr (db, PApplied w l s se) -> moves (db, PApplied w l s se).
Proof.
  intros HI. destruct (wi_phase _ _ _ _ HI) as (ms & rest & HG & _). cbn [fst snd] in HG. destruct HG as [G1 G2 G3 _ _ _ _ _].
  destruct (commit_same l s se db) as (C1 & C2 & _).
  assert (Hnd : NoDup ms).
  { pose proof (wi_nodup _ _ _ _ HI) as Hnd. rewrite (wi_queue _ _ _ _ HI) in Hnd. cbn [fst] in Hnd. rewrite G1 in Hnd.
    apply list.NoDup_app in Hnd as (_ & _ & Hnd). apply list.NoDup_app in Hnd as (Hnd & _ & _). exact Hnd. }
  destruct (pop_writers_spec w (wl_last_writer l) s ms rest (db_writer_objects db) G3 Hnd) as (objs' & Epop & _).
  eexists (EvLeave ms s (last_seq db + 1)), _. split; [|split; [exact I|left; cbn; rewrite G1; destruct ms; [discriminate G2|reflexivity]]]. apply ws_leave with (members := ms).
  - unfold Write_leave. rewrite C1, C2, G1, Epop. reflexivity.
  - exact G1.
Qed.

Lemma log_possible h0 seq0 tr db w l : winv h0 seq0 tr (db, PUnlocked w l) -> seq0 + total_ops tr <= kMaxSequenceNumber ->
  moves (db, PUnlocked w l).
Proof.
  intros HI Hb. destruct (wi_phase _ _ _ _ HI) as (_ & ms & rest & HG). cbn [fst snd] in HG.
  destruct (Write_log_total (w_sync (writer_at db w)) l db (wi_log _ _ _ _ HI)) as (s & se & file & o & tc & EA & _).
  eexists EvTau, _. split; [apply ws_log, EA|]. split; [exact I|]. right. split; [|destruct (ok s); reflexivity].
  pose proof (group_bound _ _ _ _ _ _ _ _ _ HI Hb HG) as Hbound. pose proof (wi_sequence _ _ _ _ HI) as Hq. cbn [fst] in Hq.
  pose proof (sz_nonneg (group_ops ops_of ms)). assert (kMaxSequenceNumber < 2 ^ 56) by reflexivity.
  destruct (ok s); [rewrite (insert_begin_group w l se _ _ (gi_batch _ _ _ _ _ HG)) by lia|]; unfold steps_left; cbn [snd]; lia.
Qed.

Lemma insert_possible h0 seq0 tr db w l se i n q : winv h0 seq0 tr (db, PInserting w l se i n q) -> seq0 + total_ops tr <= kMaxSequenceNumber ->
  moves (db, PInserting w l se i n q).
Proof.
  intros HI Hb. destruct (wi_phase _ _ _ _ HI) as (ms & rest & ins & todo & HG & Eo & Ei & En & Eq & Hm). cbn [fst snd] in *. subst i n q.
  destruct (group_count _ _ _ _ _ HG) as [Hc _]. rewrite Eo, sz_app in Hc. destruct todo as [|op todo].
  - eexists EvTau, _. split; [apply ws_inserted; reflexivity|]. split; [exact I|]. right. split; [unfold steps_left; cbn [snd]; lia|reflexivity].
  - destruct (insert_one _ _ _ _ _ _ _ _ _ _ _ _ HI Hb HG Eo Hm) as (m & ET & _). eexists EvTau, _. split; [apply ws_insert, ET|]. split; [exact I|]. right.
    split; [|reflexivity]. unfold steps_left. cbn [snd]. rewrite Hc, sz_cons. pose proof (sz_nonneg ins). pose proof (sz_nonneg todo). lia.
Qed.

Lemma switched_rank f d (db db' : DB) : MakeRoomForWrite_turn write_buffer_size dbname env f d db = (RoomSwitched, db') ->
  db_imm db = None /\ db_imm db' <> None.
Proof.
  assert (Hsch : forall x : DB, db_imm (MaybeScheduleCompaction x) = db_imm x).
  { intros x. unfold MaybeScheduleCompaction. repeat match goal with |- context [if ?b then _ else _] => destruct b end; reflexivity. }
  unfold MakeRoomForWrite_turn. destruct (negb (ok (db_bg_error db))); [discriminate|]. destruct (d && _); [discriminate|].
  destruct (negb f && _); [discriminate|]. destruct (db_imm db); [discriminate|]. cbn [is_null negb]. destruct (_ <=? _); [discriminate|].
  cbn [NewFileNumber fst snd]. destruct (env_NewWritableFile _ _ _) as [e [s [lf|]]]; [|discriminate]. destruct (ok s); [|discriminate].
  intros H. inversion H as [H1]. split; [reflexivity|]. unfold SwitchMemTable. destruct (wf_Close _) as [s1 f1]. cbv zeta. rewrite Hsch. discriminate.
Qed.

Lemma room_possible h0 seq0 tr db w f d : winv h0 seq0 tr (db, PRoom w f d) -> seq0 + total_ops tr <= kMaxSequenceNumber ->
  room_waits f d db \/ moves (db, PRoom w f d).
Proof.
  intros HI Hb. destruct (MakeRoomForWrite_turn write_buffer_size dbname env f d db) as [t db'] eqn:ET. destruct t as [s| | |].
  - right. pose proof (turn_spec _ _ _ _ _ ET) as HT. cbn in HT. pose proof (other_step_inv EvTau _ _ _ _ _ _ I HT HI) as HI1.
    destruct (wi_phase _ _ _ _ HI1) as (Htmp & _ & Hw). pose proof (wi_batches _ _ _ _ HI1) as HB. cbn [fst snd] in *.
    destruct (db_writers db') as [|w' rest] eqn:Eq; [discriminate Hw|]. injection Hw as ->.
    destruct (ok s && negb (null_batch db' w)) eqn:En.
    + apply andb_true_iff in En as En'. destruct En' as [_ En']. destruct (w_batch (writer_at db' w)) as [b|] eqn:Eb; [|discriminate En'].
      destruct (BuildBatchGroup_spec ops_of db' w rest b Eq Eb HB Htmp) as (t & r & lst & ms & rest' & EG & _).
      assert (EW : exists l db2, Write_group w db' = Some (l, db2) /\ db_writers db2 = db_writers db) by
        (unfold Write_group; rewrite EG; eexists _, _; split; [reflexivity|]; rewrite <- (rl_writers _ _ HT); destruct t; reflexivity).
      destruct EW as (l & db2 & EW & Hw2). rewrite <- Eb in En.
      destruct (wi_phase _ _ _ _ (group_step_inv _ _ _ _ _ _ _ _ _ _ _ HI Hb ET En EW)) as (_ & gms & grest & HG). cbn [fst snd] in HG.
      destruct (group_count _ _ _ _ _ HG) as [Hc Hle]. unfold queue_count in Hle. rewrite Hw2 in Hle.
      eexists EvTau, _. split; [eapply ws_group; eassumption|]. split; [exact I|right].
      split; [|exact Hw2]. unfold steps_left, queue_count. cbn [snd fst]. rewrite Hc. unfold sz. lia.
    + eexists (EvLeave [w] s (last_seq db' + 1)), _. split; [|split; [exact I|left; cbn; rewrite <- (rl_writers _ _ HT), Eq; reflexivity]].
      eapply ws_refused; [exact ET|exact En|]. unfold Write_leave. rewrite Eq. cbn [pop_writers]. rewrite !decide_True by reflexivity. reflexivity.
  - right. pose proof (turn_spec _ _ _ _ _ ET) as ->. eexists EvTau, _. split; [eapply ws_delayed, ET|]. split; [exact I|]. right.
    split; [|reflexivity]. assert (d = true) as ->; [|unfold steps_left; cbn [snd fst]; lia].
    revert ET. unfold MakeRoomForWrite_turn. destruct d; [reflexivity|]. cbn [andb].
    repeat match goal with |- context [if ?b then _ else _] => destruct b end; try discriminate; cbn [NewFileNumber fst snd];
      destruct (env_NewWritableFile _ _ _) as [e [s [lf|]]]; try destruct (ok s); discriminate.
  - right. eexists EvSwitch, _. split; [eapply ws_switched, ET|]. split; [exact I|]. right.
    destruct (turn_spec _ _ _ _ _ ET) as (_ & Hw & _). split; [|exact Hw].
    destruct (switched_rank _ _ _ _ ET) as [E1 E2]. unfold steps_left, queue_count. cbn [snd fst]. rewrite E1, Hw. destruct (db_imm db'); [cbn [is_null]; lia|contradiction].
  - left. exact (turn_waits _ _ _ _ ET).
Qed.

Lemma step_possible h0 seq0 tr db ph : winv h0 seq0 tr (db, ph) -> seq0 + total_ops tr <= kMaxSequenceNumber -> db_writers db <> [] ->
  (exists w f d, ph = PRoom w f d /\ room_waits f d db) \/ moves (db, ph).
Proof.
  intros HI Hb Hq. destruct ph as [|w f d|w l|w l se i n q|w l s se].
  - right. destruct (db_writers db) as [|w rest] eqn:Eq; [contradiction|]. eexists EvTau, _. split; [apply (ws_begin db w); rewrite Eq; reflexivity|].
    split; [exact I|]. right. split; [|reflexivity]. unfold steps_left. cbn [snd fst].
    destruct (negb _), (is_null (db_imm db)); lia.
  - destruct (room_possible _ _ _ _ _ _ _ HI Hb) as [H|H]; [left; eauto|right; exact H].
  - right. exact (log_possible _ _ _ _ _ _ HI Hb).
  - right. exact (insert_possible _ _ _ _ _ _ _ _ _ _ HI Hb).
  - right. exact (leave_possible _ _ _ _ _ _ _ _ HI).
Qed.

Lemma wrun_cons c e c1 tr c2 : wstep c e c1 -> wrun c1 tr c2 -> wrun c (e :: tr) c2.
Proof.
  intros Hs HR. induction HR as [c1|c1 tr c' e' c2 HR IH Hs']; [apply (wr_snoc c [] c e c1); [constructor|exact Hs]|].
  change (e :: tr ++ [e']) with ((e :: tr) ++ [e']). eapply wr_snoc; [apply IH, Hs|exact Hs'].
Qed.

(** Undisturbed, the steps of the unlocked phase make up [Write_apply]. *)

Lemma MTI_turn_none i n q r : WB_Iterate_turn (MemTableInserter U) i n (q, None) = inr r -> exists i' n' q', r = (i', n', (q', None)).
Proof.
  unfold WB_Iterate_turn. destruct i as [|tag i]; [discriminate|]. cbv zeta.
  destruct (vt_of_code (b2z tag)) as [[]|]; try discriminate; destruct (GetLengthPrefixedSlice i) as [[k i1]|]; try discriminate;
    try (destruct (GetLengthPrefixedSlice i1) as [[v i2]|]; try discriminate); intros [= <-]; cbn; eauto.
Qed.

Lemma MTI_loop_none fuel i n q s n' st : WB_Iterate_loop (MemTableInserter U) fuel i n (q, None) = Some (s, n', st) -> snd st = None.
Proof.
  revert i n q. induction fuel as [|fuel IH]; intros i n q; [discriminate|]. cbn [WB_Iterate_loop].
  destruct (WB_Iterate_turn _ i n (q, None)) as [[s1 n1]|r] eqn:ET; [intros [= _ _ <-]; reflexivity|].
  apply MTI_turn_none in ET as (i1 & n1 & q1 & ->). apply IH.
Qed.

Lemma insert_runs fuel (db : DB) w l se i n q s n' q' m :
  WB_Iterate_loop (MemTableInserter U) fuel i n (q, Some (db_mem db)) = Some (s, n', (q', Some m)) -> exists k,
  wrun (db, PInserting w l se i n q) (replicate k EvTau) (with_memtables db m (db_imm db), PApplied w l (WB_Iterate_end (wl_batch l) s n') se).
Proof.
  revert db i n q. induction fuel as [|fuel IH]; intros db i n q; [discriminate|]. cbn [WB_Iterate_loop].
  destruct (WB_Iterate_turn _ i n (q, Some (db_mem db))) as [[s1 n1]|[[i1 n1] [q1 [m1|]]]] eqn:ET; intros H.
  - injection H as -> -> <- <-. exists 1%nat. apply (wrun_cons _ EvTau (db, PApplied w l (WB_Iterate_end (wl_batch l) s n') se)); [exact (ws_inserted _ _ _ _ _ _ _ _ _ ET)|].
    assert (with_memtables db (db_mem db) (db_imm db) = db) as -> by (destruct db; reflexivity). constructor.
  - destruct (IH (with_memtables db m1 (db_imm db)) i1 n1 q1 H) as [k Hk]. exists (Datatypes.S k). eapply wrun_cons; [apply ws_insert, ET|exact Hk].
  - apply MTI_loop_none in H. discriminate H.
Qed.

Lemma apply_runs (db : DB) w l s se db' : Write_apply U (w_sync (writer_at db w)) l db = Some (s, se, db') ->
  exists k, wrun (db, PUnlocked w l) (replicate k EvTau) (db', PApplied w l s se).
Proof.
  unfold Write_apply. destruct (Write_log (w_sync (writer_at db w)) l db) as [[[s1 se1] db1]|] eqn:EL; [|discriminate]. apply (ws_log db w) in EL.
  destruct (ok s1) eqn:Es1; [|intros [= -> -> ->]; exists 1%nat; eapply wrun_cons; [exact EL|constructor]].
  unfold WBI_InsertInto, WB_Iterate, insert_begin in *. destruct (_ <? _).
  - intros [= <- <- <-]. exists 1%nat. assert (with_memtables db1 (db_mem db1) (db_imm db1) = db1) as -> by (destruct db1; reflexivity).
    eapply wrun_cons; [exact EL|constructor].
  - cbv zeta. destruct (WB_Iterate_loop _ _ _ _ _) as [[[s2 n2] [q2 [m|]]]|] eqn:EI; [|discriminate..]. intros [= <- <- <-].
    destruct (insert_runs _ _ w l se1 _ _ _ _ _ _ _ EI) as [k Hk]. exists (Datatypes.S k). eapply wrun_cons; [exact EL|exact Hk].
Qed.

Lemma own_enter e : own e -> enter_ok e /\ entered [e] = [].
Proof. destruct e; intros []; split; (exact I || reflexivity). Qed.

Lemma front_leaves n h0 seq0 tr c : winv h0 seq0 tr c -> seq0 + total_ops tr <= kMaxSequenceNumber -> db_writers (fst c) <> [] ->
  (steps_left c <= n)%nat -> exists tr' c', wrun c tr' c' /\ (length tr' <= Datatypes.S n)%nat /\ Forall own tr' /\
    ((exists e, list.last tr' = Some e /\ leads (db_writers (fst c)) e) \/ exists w f d, snd c' = PRoom w f d /\ room_waits f d (fst c')).
Proof.
  revert tr c. induction n as [|n IH]; intros tr [db ph] HI Hb Hq Hn; cbn [fst snd] in *.
  all: destruct (step_possible _ _ _ _ _ HI Hb Hq) as [(w & f & d & -> & Hw)|(e & c' & Hs & Hown & Hmove)];
    [exists [], (db, PRoom w f d); split; [constructor|]; split; [cbn; lia|]; split; [constructor|right; eauto 6]|].
  all: destruct Hmove as [He|[Hlt Hsame]]; [exists [e], c'; split; [apply (wr_snoc (db, ph) [] (db, ph) e c'); [constructor|exact Hs]|];
    split; [cbn; lia|]; split; [constructor; [exact Hown|constructor]|left; exists e; split; [reflexivity|exact He]]|].
  - lia.
  - destruct (own_enter e Hown) as [Hee Hent].
    assert (HI' : winv h0 seq0 (tr ++ [e]) c') by (eapply wstep_inv; eassumption).
    destruct (IH (tr ++ [e]) c' HI') as (tr' & c2 & HR & Hlen & Hen & Hfin).
    + unfold total_ops in *. rewrite entered_app, Hent, app_nil_r. exact Hb.
    + rewrite Hsame. exact Hq.
    + lia.
    + exists (e :: tr'), c2. split; [eapply wrun_cons; eassumption|]. split; [cbn; lia|]. split; [constructor; assumption|].
      rewrite Hsame in Hfin. destruct Hfin as [(e' & Hl & He')|Hfin]; [|right; exact Hfin]. left. exists e'. split; [|exact He'].
      destruct tr'; [discriminate Hl|exact Hl].
Qed.

Lemma steps_left_bound h0 seq0 tr db ph : winv h0 seq0 tr (db, ph) -> (steps_left (db, ph) <= 6 + queue_count db)%nat.
Proof.
  intros HI. pose proof (wi_phase _ _ _ _ HI) as HP. unfold steps_left. cbn [fst snd] in *. destruct ph as [|w f d|w l|w l se i n q|w l s se]; cbn [phase_inv] in HP.
  - lia.
  - destruct d, (is_null (db_imm db)); lia.
  - destruct HP as (_ & ms & rest & HG). destruct (group_count _ _ _ _ _ HG) as [Hc Hl]. rewrite Hc. unfold sz. lia.
  - destruct HP as (ms & rest & ins & todo & HG & _ & _ & -> & _). destruct (group_count _ _ _ _ _ HG) as [Hc Hl]. rewrite Hc. pose proof (sz_nonneg ins). unfold sz in *. lia.
  - lia.
Qed.

(** A database that no thread writes to. *)

Record db_ready (h0 : list (Z * Op)) (db : DB) : Prop := {
  dr_writers : db_writers db = [];
  dr_tmp : db_tmp_batch db = WriteBatch_new;
  dr_mem : memtable_is (db_mem db) h0;
  dr_history : history_ok h0;
  dr_numbers : Forall (fun qo => fst qo <= last_seq db) h0;
  dr_sequence : 0 <= last_seq db;
  dr_log : log_ok db
}.

Lemma ready_inv h0 db : db_ready h0 db -> winv h0 (last_seq db) [] (db, PIdle).
Proof.
  intros [H1 H2 H3 H4 H5 H6 H7]. split; cbn [fst snd entered omap list_omap left_queue acknowledged in_memtable fold_left map concat]; rewrite ?H1.
  - reflexivity.
  - constructor.
  - contradiction.
  - constructor.
  - constructor.
  - exact H4.
  - constructor.
  - rewrite app_nil_r. exact H5.
  - exact H6.
  - change (group_ops ops_of []) with (@nil Op). unfold total_ops. change (entered []) with (@nil nat).
    change (group_ops ops_of []) with (@nil Op). lia.
  - exact H7.
  - contradiction.
  - split; assumption.
Qed.

End Threads.

(** ** Properties *)

(** C2. Group commit keeps the order and shows a group only when it is acknowledged.
    However many threads call [Write], with the background thread and other
    operations in between and whatever the file system answers, at any moment
    of any execution: the writers that have left the queue, followed by those
    still in it, are the ones that entered, in the same order and each once; the
    members of a group that did not do the work themselves are marked done with
    the group's status; the operations of the groups that returned OK carry
    increasing numbers, none above the last sequence; and a lookup in the
    memtable at any snapshot up to the last sequence finds exactly what was
    acknowledged since the memtable was switched (on top of what it held at the
    start).  This includes the moments between two insertions of a group: the
    mutex is released there, the log is one step and each operation inserted is
    one.  A lookup during one insertion is not covered. *)
Theorem group_commit : forall U write_buffer_size dbname E W S (WF : WritableFile W) (SF : SequentialFile S) (env : @EnvOps E W S)
    (ops_of : nat -> list Op) h0 db0 tr db ph,
  ComparatorOk U -> (forall u, @cmp_dom U u) -> db_ready U h0 db0 ->
  wrun U write_buffer_size dbname env (db0, PIdle) tr (db, ph) -> Forall (enter_ok ops_of) tr ->
  vs_last_sequence (db_versions db0) + total_ops ops_of tr <= kMaxSequenceNumber ->
  entered tr = left_queue tr ++ db_writers db /\ NoDup (entered tr) /\
  (forall ws s q w, In (EvLeave ws s q) tr -> In w (tl ws) -> w_done (writer_at db w) = true /\ w_status (writer_at db w) = s) /\
  StronglySorted (fun a b => fst a < fst b) (acknowledged ops_of tr) /\
  Forall (fun qo => fst qo <= vs_last_sequence (db_versions db)) (acknowledged ops_of tr) /\
  forall u s, 0 <= s <= vs_last_sequence (db_versions db) -> sz u + 8 < 2 ^ 32 ->
    MemTable_Get U (db_mem db) (MakeLookupKey u s) = Some (result_of (history_get (in_memtable ops_of h0 tr) u s)).
Proof.
  intros U wbs dbname E W S WF SF env ops_of h0 db0 tr db ph UOK Hk H0 HR HF Hb.
  pose proof (wrun_inv U wbs dbname env ops_of Hk h0 _ _ _ _ (ready_inv U ops_of h0 db0 H0) HR HF Hb) as HI.
  pose proof (wi_numbers _ _ _ _ _ _ HI) as Hn. apply Forall_app in Hn as [_ Hn].
  split; [apply (wi_queue _ _ _ _ _ _ HI)|]. split; [apply (wi_nodup _ _ _ _ _ _ HI)|]. split; [apply (wi_told _ _ _ _ _ _ HI)|].
  split; [apply (wi_acknowledged _ _ _ _ _ _ HI)|]. split; [exact Hn|].
  intros u s Hs Hu. exact (reader_sees U ops_of Hk _ _ _ _ _ u s HI Hb Hs Hu).
Qed.

(** C18. The writer at the front gets done.  In every state the database can reach
    with writers in the queue, the writer at the front alone, without a step of
    any other thread, needs at most seven steps and one for each operation queued
    until the group that it leads leaves the queue, or until it waits for the
    background thread: then a turn of [MakeRoomForWrite] in that state waits and
    changes nothing, there is no background error, and the immutable memtable is
    still there or level 0 has too many files.  Errors of the file system
    never block it. *)
Theorem front_writer_progress : forall U write_buffer_size dbname E W S (WF : WritableFile W) (SF : SequentialFile S) (env : @EnvOps E W S)
    (ops_of : nat -> list Op) h0 db0 tr db ph,
  ComparatorOk U -> (forall u, @cmp_dom U u) -> db_ready U h0 db0 ->
  wrun U write_buffer_size dbname env (db0, PIdle) tr (db, ph) -> Forall (enter_ok ops_of) tr ->
  vs_last_sequence (db_versions db0) + total_ops ops_of tr <= kMaxSequenceNumber -> db_writers db <> [] ->
  exists tr' db' ph', wrun U write_buffer_size dbname env (db, ph) tr' (db', ph') /\ Forall own tr' /\
    (length tr' <= 7 + length (group_ops ops_of (db_writers db)))%nat /\
    ((exists e, list.last tr' = Some e /\ leads (db_writers db) e) \/
     exists w f d, ph' = PRoom w f d /\ MakeRoomForWrite_turn write_buffer_size dbname env f d db' = (RoomWait, db') /\ ok (db_bg_error db') = true /\
       (db_imm db' <> None \/ kL0_StopWritesTrigger <= NumLevelFiles (db_versions db') 0)).
Proof.
  intros U wbs dbname E W S WF SF env ops_of h0 db0 tr db ph UOK Hk H0 HR HF Hb Hq.
  pose proof (wrun_inv U wbs dbname env ops_of Hk h0 _ _ _ _ (ready_inv U ops_of h0 db0 H0) HR HF Hb) as HI.
  destruct (front_leaves U wbs dbname env ops_of Hk (6 + queue_count ops_of db) h0 _ tr (db, ph) HI Hb Hq (steps_left_bound U ops_of _ _ _ _ _ HI))
    as (tr' & [db' ph'] & HR' & Hl & He & Hfin).
  exists tr', db', ph'. split; [exact HR'|]. split; [exact He|]. split; [unfold queue_count in Hl; lia|].
  destruct Hfin as [Hfin|(w & f & d & Eph & Hbg & Hw & HT)]; [left; exact Hfin|right; exists w, f, d; auto].
Qed.

(** One turn of the insertion. *)

Definition insert_turn (U : Comparator) {E W} (c : @DBImpl E W * Phase) : @DBImpl E W * Phase :=
  match c with
  | (db, PInserting w l se input found q) =>
      match WB_Iterate_turn (MemTableInserter U) input found (q, Some (db_mem db)) with
      | inr (input, found, (q, Some mem)) => (with_memtables db mem (db_imm db), PInserting w l se input found q)
      | inr _ => c
      | inl (s, found) => (db, PApplied w l (WB_Iterate_end (wl_batch l) s found) se)
      end
  | _ => c
  end.

Lemma insert_turn_step U write_buffer_size dbname E W S (WF : WritableFile W) (env : @EnvOps E W S) c : snd (insert_turn U c) <> snd c ->
  wstep U write_buffer_size dbname env c EvTau (insert_turn U c).
Proof.
  destruct c as [db ph]. destruct ph as [|w f d|w l|w l se i n q|w l s se]; cbn [fst snd insert_turn]; try (intros H; destruct H; reflexivity).
  destruct (WB_Iterate_turn _ i n (q, Some (db_mem db))) as [[s1 n1]|[[i1 n1] [q1 [m1|]]]] eqn:ET.
  - intros _. apply ws_inserted, ET.
  - intros _. apply ws_insert, ET.
  - intros H. destruct H. reflexivity.
Qed.

(** A database in memory: a put and a range deletion that end up in one group,
    and a request to switch the memtable behind them. *)

Definition quick_env : @EnvOps unit FileState SequentialFileImpl :=
  mkEnvOps (fun e _ => (e, (OK, Some FileState_new))) (fun e _ => (e, (OK, Some FileState_new)))
    (fun e _ => (NotFound [] [], None)) (fun _ _ => (NotFound [] [], [])) (fun e _ => (OK, 0)) (fun e _ => e) (fun e _ _ => (e, OK)).

Definition quick_db : @DBImpl unit FileState :=
  mkDBImpl (VersionSet_new tt) MemTable_new None (Writer_new FileState_new) 3 [] ∅ WriteBatch_new SnapshotList_new ∅ false None ∅ OK false false 0.

Lemma quick_ready : db_ready BytewiseComparator [] quick_db.
Proof. split; try reflexivity; try (repeat constructor; fail). split; vm_compute; discriminate. Qed.

Definition quick_ops (w : nat) : list Op :=
  match w with 1%nat => [OpPut (str "k") (str "v")] | 2%nat => [OpDeleteRange (str "a") (str "b")] | _ => [] end.

Definition quick_trace : list Event :=
  [EvEnter 1 (Some (WB_of (quick_ops 1))) false; EvTau; EvEnter 2 (Some (WB_of (quick_ops 2))) false; EvEnter 3 None false;
   EvTau; EvTau; EvTau; EvTau; EvTau; EvLeave [1; 2; 3]%nat OK 1].

Definition quick_entered : @DBImpl unit FileState :=
  Write_enter (Write_enter (Write_enter quick_db 1 (Some (WB_of (quick_ops 1))) false) 2 (Some (WB_of (quick_ops 2))) false) 3 None false.

Definition quick_grouped : WriteLocals * @DBImpl unit FileState :=
  default (mkWriteLocals WB_Clear false 0 0, quick_db) (Write_group 1 quick_entered).

Definition quick_logged : @DBImpl unit FileState :=
  snd (default (OK, false, quick_db) (Write_log false (fst quick_grouped) (snd quick_grouped))).

(** The group half way in the memtable, then all of it. *)

Definition quick_half : @DBImpl unit FileState * Phase := insert_turn BytewiseComparator (quick_logged, insert_begin 1 (fst quick_grouped) false).

Definition quick_applied : @DBImpl unit FileState := fst (insert_turn BytewiseComparator (insert_turn BytewiseComparator quick_half)).

Definition quick_left : @DBImpl unit FileState :=
  default quick_db (Write_leave 1 (wl_last_writer (fst quick_grouped)) OK (Write_commit (fst quick_grouped) OK false quick_applied)).

Lemma quick_half_run : wrun BytewiseComparator 4194304 (str "db") quick_env (quick_db, PIdle) (take 7 quick_trace) quick_half.
Proof.
  change (take 7 quick_trace) with ([EvEnter 1 (Some (WB_of (quick_ops 1))) false; EvTau; EvEnter 2 (Some (WB_of (quick_ops 2))) false; EvEnter 3 None false; EvTau; EvTau; EvTau]).
  eapply wrun_cons; [apply ws_enter; reflexivity|].
  eapply wrun_cons; [apply (ws_begin _ _ _ _ _ 1%nat); reflexivity|].
  eapply wrun_cons; [apply ws_enter; reflexivity|]. eapply wrun_cons; [apply ws_enter; reflexivity|]. fold quick_entered.
  apply wrun_cons with (c1 := (snd quick_grouped, PUnlocked 1 (fst quick_grouped))).
  { apply ws_group with (s := OK) (db1 := quick_entered); vm_compute; reflexivity. }
  apply wrun_cons with (c1 := (quick_logged, insert_begin 1 (fst quick_grouped) false)).
  { apply (ws_log BytewiseComparator 4194304 (str "db") quick_env _ _ _ OK false quick_logged). vm_compute. reflexivity. }
  eapply wrun_cons; [|apply wr_nil]. apply insert_turn_step. vm_compute. discriminate.
Qed.

Lemma quick_run : wrun BytewiseComparator 4194304 (str "db") quick_env (quick_db, PIdle) quick_trace (quick_left, PIdle).
Proof.
  change quick_trace with (((take 7 quick_trace ++ [EvTau]) ++ [EvTau]) ++ [EvLeave [1; 2; 3]%nat OK 1]).
  apply wr_snoc with (c := (quick_applied, PApplied 1 (fst quick_grouped) OK false)).
  - apply wr_snoc with (c := insert_turn BytewiseComparator quick_half); [apply wr_snoc with (c := quick_half); [exact quick_half_run|]|].
    + apply insert_turn_step. vm_compute. discriminate.
    + replace (quick_applied, PApplied 1 (fst quick_grouped) OK false) with (insert_turn BytewiseComparator (insert_turn BytewiseComparator quick_half)) by (vm_compute; reflexivity).
      apply insert_turn_step. vm_compute. discriminate.
  - apply (ws_leave BytewiseComparator 4194304 (str "db") quick_env quick_applied 1%nat (fst quick_grouped) OK false quick_left [1; 2; 3]%nat);
      vm_compute; reflexivity.
Qed.

(** Half way the put is in the memtable, under a number that no reader has yet. *)

Example half_written_group : vs_last_sequence (db_versions (fst quick_half)) = 0 /\
  MemTable_Get BytewiseComparator (db_mem (fst quick_half)) (MakeLookupKey (str "k") 1) = Some (result_of (Some (Some (str "v")))) /\
  MemTable_Get BytewiseComparator (db_mem (fst quick_half)) (MakeLookupKey (str "k") 0) = Some (result_of None).
Proof. vm_compute. repeat split. Qed.

Lemma quick_enter_ok : Forall (enter_ok quick_ops) quick_trace.
Proof.
  assert (H1 : batch_holds (WB_of (quick_ops 1)) (quick_ops 1)).
  { split; [exists 0; apply WB_of_rep; reflexivity|repeat constructor|reflexivity]. }
  assert (H2 : batch_holds (WB_of (quick_ops 2)) (quick_ops 2)).
  { split; [exists 0; apply WB_of_rep; reflexivity|repeat constructor|reflexivity]. }
  repeat (constructor; [first [exact I|exact H1|exact H2|reflexivity]|]). constructor.
Qed.

Lemma group_commit_witness :
  left_queue quick_trace = [1; 2; 3]%nat /\ acknowledged quick_ops quick_trace = [(1, OpPut (str "k") (str "v")); (2, OpDeleteRange (str "a") (str "b"))] /\
  forall u s, 0 <= s <= 2 -> sz u + 8 < 2 ^ 32 ->
    MemTable_Get BytewiseComparator (db_mem quick_left) (MakeLookupKey u s) = Some (result_of (history_get (in_memtable quick_ops [] quick_trace) u s)).
Proof.
  split; [reflexivity|]. split; [reflexivity|].
  destruct (group_commit BytewiseComparator 4194304 (str "db") unit FileState SequentialFileImpl MemWritable MemSequential quick_env quick_ops
    [] quick_db quick_trace quick_left PIdle) as (_ & _ & _ & _ & _ & H).
  - exact BytewiseComparatorOk.
  - intros u. exact I.
  - exact quick_ready.
  - exact quick_run.
  - exact quick_enter_ok.
  - vm_compute. discriminate.
  - assert (E : vs_last_sequence (db_versions quick_left) = 2) by (vm_compute; reflexivity). rewrite E in H. exact H.
Defined.

Lemma front_writer_progress_witness : exists tr' db' ph',
  wrun BytewiseComparator 4194304 (str "db") quick_env quick_half tr' (db', ph') /\ Forall own tr' /\ (length tr' <= 9)%nat /\
    ((exists e, list.last tr' = Some e /\ leads [1; 2; 3]%nat e) \/
     exists w f d, ph' = PRoom w f d /\ MakeRoomForWrite_turn 4194304 (str "db") quick_env f d db' = (RoomWait, db') /\ ok (db_bg_error db') = true /\
       (db_imm db' <> None \/ kL0_StopWritesTrigger <= NumLevelFiles (db_versions db') 0)).
Proof.
  pose proof (front_writer_progress BytewiseComparator 4194304 (str "db") unit FileState SequentialFileImpl MemWritable MemSequential quick_env
    quick_ops [] quick_db (take 7 quick_trace) (fst quick_half) (snd quick_half)) as H.
  assert (EQ : db_writers (fst quick_half) = [1; 2; 3]%nat) by (vm_compute; reflexivity). rewrite EQ in H.
  change (7 + length (group_ops quick_ops [1; 2; 3]%nat))%nat with 9%nat in H. rewrite <- surjective_pairing in H. apply H.
  - exact BytewiseComparatorOk.
  - intros u. exact I.
  - exact quick_ready.
  - exact quick_half_run.
  - apply Forall_take, quick_enter_ok.
  - vm_compute. discriminate.
  - discriminate.
Defined.

(** The request to switch the memtable, which TEST_CompactMemTable and
    ForceFullCompaction rely on, is answered OK as part of the group although the
    memtable is not switched. *)

Example switch_request_absorbed : w_done (writer_at quick_left 3) = true /\ w_status (writer_at quick_left 3) = OK /\
  db_imm quick_left = None /\ is_null (w_batch (writer_at quick_entered 3)) = true.
Proof. vm_compute. repeat split. Qed.
