(* ===== verification/DbRead.v ===== *)
(** * The read path (db/db_impl.cc, db/version_set.cc)

    The iterators that a version hands out, the internal iterator over the
    memtables and all files, [Get], [NewIterator] and [Scan].  The table cache is
    seen through what it returns: lookups (the class of Version.v), iterators and
    range tombstones of a file.  Memtables are shared with writers; the read
    path works on the memtables and the version that are current when it starts. *)

From S2P Require Import Prelude Coding Compare DbFormat Logging FileName SkipList Arena MemTable WriteBatch Crc32c Env Log Iterator Block Merger TwoLevel TableBuilder Table VersionEdit Version VersionGet Compaction VersionSet MemIter DbIter DbImpl.
#[local] Open Scope Z_scope.
#[local] Open Scope ldb_scope.

(** ** Iterators of either of two kinds *)

Definition on_sum {A B} (f : A -> A) (g : B -> B) (x : A + B) : A + B := match x with inl a => inl (f a) | inr b => inr (g b) end.

Definition of_sum {A B R} (f : A -> R) (g : B -> R) (x : A + B) : R := match x with inl a => f a | inr b => g b end.

#[export] Instance SumOps {A B} (IA : Iterator A) (IB : Iterator B) : Iterator (A + B) := {
  iValid := of_sum iValid iValid;
  iSeekToFirst := on_sum iSeekToFirst iSeekToFirst;
  iSeekToLast := on_sum iSeekToLast iSeekToLast;
  iSeek x t := on_sum (fun a => iSeek a t) (fun b => iSeek b t) x;
  iNext := on_sum iNext iNext;
  iPrev := on_sum iPrev iPrev;
  iKey := of_sum iKey iKey;
  iValue := of_sum iValue iValue;
  iStatus := of_sum iStatus iStatus
}.

Section Read.
Context (U : Comparator) {E W : Type} {TI : Type} {TIO : Iterator TI}.

(** What the table cache gives for a file number and size. *)

Context (tc_NewIterator : ReadOptions -> Z -> Z -> TI) (tc_error : Status -> TI) (tc_GetRangeDeletions : Z -> Z -> RangeDeletionList).

(** ** Iterators over the files of a version *)

Abbreviation LevelIter := (TwoLevelIterator (LevelFileNumIterator nat) TI).
Abbreviation FileIter := (TI + LevelIter)%type.
Abbreviation ChildIter := (MemTableIterator + FileIter)%type.

Definition table_iterator (options : ReadOptions) (h : FileHeap) (f : nat) : TI :=
  tc_NewIterator options (f_number (deref h f)) (f_file_size (deref h f)).

Definition NewConcatenatingIterator (flist : list nat) : LevelIter := NewTwoLevelIterator (LevelFileNumIterator_new flist).

(** The operations of the iterators; the index of a concatenating iterator has at
    most [fuel] files. *)

Definition LevelIterOps (options : ReadOptions) (h : FileHeap) (fuel : nat) : Iterator LevelIter :=
  @TwoLevelOps _ _ (LevelFileNumOps U (deref h)) TIO (GetFileIterator (tc_NewIterator options) tc_error) fuel.

Definition ChildIterOps (options : ReadOptions) (h : FileHeap) (fuel : nat) : Iterator ChildIter :=
  SumOps (MemTableIteratorOps U) (SumOps TIO (LevelIterOps options h fuel)).

Definition Version_AddIterators (options : ReadOptions) (h : FileHeap) (v : Version nat) : list FileIter :=
  map (fun f => inl (table_iterator options h f)) (files_at v 0) ++
  flat_map (fun level => match files_at v level with [] => [] | files => [inr (NewConcatenatingIterator files)] end)
    (List.seq 1 (kNumLevels - 1)).

(** [VersionSet::MakeInputIterator] for the inputs of a compaction. *)

Definition MakeInputIterator_list (paranoid_checks : bool) (h : FileHeap) (c : Compaction nat) : list FileIter :=
  let options := mkReadOptions paranoid_checks false in
  let which_list level files :=
    match files with
    | [] => []
    | _ =>
        if (level =? 0)%nat then map (fun f => inl (table_iterator options h f)) files
        else [inr (NewConcatenatingIterator files)]
    end in
  which_list (c_level c) (fst (c_inputs c)) ++ which_list (c_level c + 1)%nat (snd (c_inputs c)).

Definition MakeInputIterator (paranoid_checks : bool) (h : FileHeap) (c : Compaction nat) : MergingIterator FileIter :=
  Merging_new (MakeInputIterator_list paranoid_checks h c).

(** ** [NewInternalIterator]

    The merging iterator, the latest sequence number, the seed, and the database
    that holds a reference to the version for it. *)

Definition with_seed (db : @DBImpl E W) (seed : Z) : DBImpl :=
  mkDBImpl (db_versions db) (db_mem db) (db_imm db) (db_log db) (db_logfile_number db) (db_writers db) (db_writer_objects db)
    (db_tmp_batch db) (db_snapshots db) (db_pending_outputs db) (db_scheduled db) (db_manual db) (db_manual_objects db)
    (db_bg_error db) (db_shutting_down db) (db_full_compaction db) seed.

Definition ref_current (db : @DBImpl E W) : DBImpl :=
  match vs_current (db_versions db) with Some id => with_vs db (Version_Ref (db_versions db) id) | None => db end.

Definition unref_version (db : @DBImpl E W) (version : option nat) : DBImpl :=
  match version with Some id => with_vs db (Version_Unref (db_versions db) id) | None => db end.

Definition internal_children (options : ReadOptions) (db : @DBImpl E W) : list ChildIter :=
  inl (MemTable_NewIterator (db_mem db)) ::
  match db_imm db with Some imm => [inl (MemTable_NewIterator imm)] | None => [] end ++
  map inr (Version_AddIterators options (vs_heap (db_versions db)) (current (db_versions db))).

Definition NewInternalIterator (options : ReadOptions) (db : @DBImpl E W) : MergingIterator ChildIter * Z * Z * DBImpl :=
  let latest_snapshot := vs_last_sequence (db_versions db) in
  let internal_iter := Merging_new (internal_children options db) in
  let seed := u32 (db_seed db + 1) in
  (internal_iter, latest_snapshot, seed, with_seed (ref_current db) seed).

Definition InternalOps (options : ReadOptions) (h : FileHeap) (fuel : nat) : Iterator (MergingIterator ChildIter) :=
  @MergingOps (InternalKeyComparator U) _ (ChildIterOps options h fuel).

(** [GetRangeDeletions]: of the memtables and of every file of the version. *)

Definition DB_GetRangeDeletions (db : @DBImpl E W) (list : RangeDeletionList) : RangeDeletionList :=
  let list := RDL_MergeInto list (Some (range_deletions (db_mem db))) in
  let list := match db_imm db with Some imm => RDL_MergeInto list (Some (range_deletions imm)) | None => list end in
  let h := vs_heap (db_versions db) in
  fold_left (fun l f => RDL_MergeInto l (Some (tc_GetRangeDeletions (f_number (deref h f)) (f_file_size (deref h f)))))
    (concat (v_files (current (db_versions db)))) list.

(** ** Seek statistics *)

Definition set_current_version (vs : @VersionSet E W) (id : nat) (v : Version nat) (h : FileHeap) : VersionSet :=
  with_versions vs h (map (fun c => if (vc_id c =? id)%nat then mkCell (vc_id c) (vc_refs c) v else c) (vs_versions vs)).

(** [UpdateStats] on a version that is still referenced. *)

Definition DB_UpdateStats (version : option nat) (stats : GetStats nat) (db : @DBImpl E W) : DBImpl :=
  match version with
  | None => db
  | Some id =>
      match cell_of (db_versions db) id with
      | None => db
      | Some c =>
          let h := vs_heap (db_versions db) in
          let '(h', v, schedule) := UpdateStats (deref h) set_allowed_seeks h (vc_version c) stats in
          let db := with_vs db (set_current_version (db_versions db) id v h') in
          if schedule then MaybeScheduleCompaction db else db
      end
  end.

Definition DB_RecordReadSample (db : @DBImpl E W) (key : bytes) : DBImpl :=
  match vs_current (db_versions db) with
  | None => db
  | Some id =>
      let h := vs_heap (db_versions db) in
      let '(h', v, schedule) := Version.RecordReadSample U (deref h) set_allowed_seeks h (current (db_versions db)) key in
      let db := with_vs db (set_current_version (db_versions db) id v h') in
      if schedule then MaybeScheduleCompaction db else db
  end.

(** ** [Get] *)

Context {TC : Type} {TCO : TableCacheOps TC}.

Definition read_sequence (snapshot : option Z) (db : @DBImpl E W) : Z :=
  match snapshot with Some s => s | None => vs_last_sequence (db_versions db) end.

(** [MemTable::Get] through its pointers: whether it has an answer, the status
    and the value. *)

Definition memtable_answer (m : MemTable) (lkey : LookupKey) (value : bytes) : option (option (Status * bytes)) :=
  match MemTable_Get U m lkey with
  | None => None
  | Some (Found v) => Some (Some (OK, v))
  | Some Deleted => Some (Some (NotFound [] [], value))
  | Some Absent => Some None
  end.

(** The unlocked part, on the memtables and the version taken before: the status,
    the value, the statistics when files were read, and the cache. *)

Definition Get_read (options : ReadOptions) (snapshot : Z) (key value : bytes) (mem : MemTable) (imm : option MemTable)
    (h : FileHeap) (v : Version nat) (tc : TC) : option (Status * bytes * option (GetStats nat) * TC) :=
  let lkey := MakeLookupKey key snapshot in
  match memtable_answer mem lkey value with
  | None => None
  | Some (Some (s, value)) => Some (s, value, None, tc)
  | Some None =>
      match match imm with Some imm => memtable_answer imm lkey value | None => Some None end with
      | None => None
      | Some (Some (s, value)) => Some (s, value, None, tc)
      | Some None =>
          let '(s, value, stats, tc) := Version_Get U (deref h) options v lkey value tc in
          Some (s, value, Some stats, tc)
      end
  end.

(** The whole of [Get] when nobody interferes; [None] when it has to wait for a
    full compaction. *)

Definition Get (options : ReadOptions) (snapshot : option Z) (key value : bytes) (db : @DBImpl E W) (tc : TC)
  : option (Status * bytes * DBImpl * TC) :=
  if ShouldWaitFullCompaction db then None
  else
    let s := read_sequence snapshot db in
    let version := vs_current (db_versions db) in
    let v := current (db_versions db) in
    let h := vs_heap (db_versions db) in
    let mem := db_mem db in
    let imm := db_imm db in
    let db := ref_current db in
    match Get_read options s key value mem imm h v tc with
    | None => None
    | Some (status, value, stats, tc) =>
        let db := match stats with Some stats => DB_UpdateStats version stats db | None => db end in
        Some (status, value, unref_version db version, tc)
    end.

(** ** [NewIterator] and [Scan] *)

Definition fuel_of (db : @DBImpl E W) : nat := length (concat (v_files (current (db_versions db)))).

(** The iterator, its tombstones, its sequence number and the version it holds. *)

Definition NewIterator (options : ReadOptions) (snapshot : option Z) (db : @DBImpl E W)
  : option (@DBIter (MergingIterator ChildIter) DBImpl * RangeDeletionList * Z * option nat) :=
  if ShouldWaitFullCompaction db then None
  else
    let '(iter, latest_snapshot, seed, db) := NewInternalIterator options db in
    let rd := DB_GetRangeDeletions db [] in
    Some (DBIter_new db iter seed, rd, match snapshot with Some s => s | None => latest_snapshot end, vs_current (db_versions db)).

Section Loop.
Context (IO : Iterator (MergingIterator ChildIter)) (rd : RangeDeletionList) (s : Z) (fuel : nat).

Abbreviation DBI := (@DBIter (MergingIterator ChildIter) (@DBImpl E W)).

Fixpoint Scan_loop (n : nat) (end_key : bytes) (it : DBI) (result : list (bytes * bytes)) : option (DBI * list (bytes * bytes)) :=
  match n with
  | O => None
  | Datatypes.S n =>
      if DI_Valid it && (Slice_compare (DI_key it) end_key <? 0) then
        let result := result ++ [(DI_key it, DI_value it)] in
        match DI_Next U DB_RecordReadSample rd s fuel it with
        | Some it => Scan_loop n end_key it result
        | None => None
        end
      else Some (it, result)
  end.

End Loop.

(** The status and the pairs; the database keeps the statistics of the iterator
    and loses its reference. *)

Definition Scan (n fuel : nat) (options : ReadOptions) (snapshot : option Z) (start_key end_key : bytes) (db : @DBImpl E W)
  : option (Status * list (bytes * bytes) * DBImpl) :=
  if ShouldWaitFullCompaction db then None
  else if 0 <=? Slice_compare start_key end_key then Some (OK, [], db)
  else
    let IO := InternalOps options (vs_heap (db_versions db)) (fuel_of db) in
    match NewIterator options snapshot db with
    | None => None
    | Some (it, rd, s, version) =>
        match @DI_Seek U _ _ IO DB_RecordReadSample rd s fuel start_key it with
        | None => None
        | Some it =>
            match Scan_loop IO rd s fuel n end_key it [] with
            | None => None
            | Some (it, result) => Some (@DI_status _ _ IO it, result, unref_version (db_ it) version)
            end
        end
    end.

End Read.
