(* ===== verification/DbReadOk.v ===== *)
(** * Reads return the newest data (db/db_impl.cc)

    What the memtables and the files of the current version hold is a list of
    numbered operations; [Get] answers with the newest visible one for the key,
    wherever it is, and [Scan] lists the newest visible values of a range. *)

From Stdlib Require Import Permutation.
From S2P Require Import Prelude Coding Compare DbFormat Logging FileName SkipList Arena MemTable WriteBatch Crc32c Env Log Iterator Block Merger TwoLevel TableBuilder Table VersionEdit Version VersionGet Compaction VersionSet MemIter DbIter DbView DbImpl DbRead.
#[local] Open Scope Z_scope.
#[local] Open Scope ldb_scope.

(** ** Lookups *)

Definition answer_status (r : option (option bytes)) : Status := match r with Some (Some _) => OK | _ => NotFound [] [] end.

Definition answer_value (r : option (option bytes)) (value : bytes) : bytes := match r with Some (Some v) => v | _ => value end.

Section Get.
Context {U : Comparator} {UOK : ComparatorOk U}.
Hypothesis all_keys : forall u, @cmp_dom U u.

(** A memtable that holds a history. *)

Record mem_holds (m : MemTable) (h : list (Z * Op)) : Prop := {
  mh_memtable : MemTable_AddAll U MemTable_new h = Some m;
  mh_history : history_ok h
}.

Definition imm_holds (m : option MemTable) (h : list (Z * Op)) : Prop :=
  match m with Some m => mem_holds m h | None => h = [] end.

Lemma memtable_answer_ok m h u s value : mem_holds m h -> 0 <= s <= kMaxSequenceNumber -> sz u + 8 < 2 ^ 32 ->
  exists r, Answer h u s r /\
    memtable_answer U m (MakeLookupKey u s) value = Some (match r with Some _ => Some (answer_status r, answer_value r value) | None => None end).
Proof.
  intros [Hm Hh] Hs Hu. exists (history_get h u s). split; [apply history_answer, (hist_sorted _ Hh)|].
  destruct (AddAll_Get all_keys h Hh) as (m' & Hadd & Hget). rewrite Hm in Hadd. injection Hadd as <-.
  unfold memtable_answer. rewrite Hget by assumption. destruct (history_get h u s) as [[v|]|]; reflexivity.
Qed.

Lemma imm_answer_ok m h u s value : imm_holds m h -> 0 <= s <= kMaxSequenceNumber -> sz u + 8 < 2 ^ 32 ->
  exists r, Answer h u s r /\
    match m with Some m => memtable_answer U m (MakeLookupKey u s) value | None => Some None end =
    Some (match r with Some _ => Some (answer_status r, answer_value r value) | None => None end).
Proof.
  intros Hm Hs Hu. destruct m as [m|]; [exact (memtable_answer_ok m h u s value Hm Hs Hu)|]. cbn in Hm. subst h.
  exists None. split; [constructor; contradiction|reflexivity].
Qed.

Lemma read_ok {TC} {TCO : TableCacheOps TC} (tc_inv : TC -> Prop) (file_ops : nat -> list (Z * Op)) h v mem imm h_mem h_imm u s value ro tc :
  mem_holds mem h_mem -> imm_holds imm h_imm -> 0 <= s <= kMaxSequenceNumber -> sz u + 8 < 2 ^ 32 ->
  version_wf (U := U) (deref h) tc_inv file_ops v -> version_recent (deref h) file_ops v u s ->
  tombstones_visited (U := U) (deref h) file_ops u s v -> tc_inv tc ->
  newer u s h_mem (h_imm ++ version_ops file_ops v) -> newer u s h_imm (version_ops file_ops v) ->
  exists r stats tc', Get_read U ro s u value mem imm h v tc = Some (answer_status r, answer_value r value, stats, tc') /\
    Answer (h_mem ++ h_imm ++ version_ops file_ops v) u s r /\ tc_inv tc'.
Proof.
  intros Hm Hi Hs Hu HV HR HT Htc N1 N2. unfold Get_read. cbv zeta.
  destruct (memtable_answer_ok mem h_mem u s value Hm Hs Hu) as (r1 & A1 & ->).
  destruct (imm_answer_ok imm h_imm u s value Hi Hs Hu) as (r2 & A2 & ->).
  destruct (version_get_ok (deref h) tc_inv file_ops u s value (all_keys u) Hs v ro tc HV HR HT Htc) as (r3 & stats & tc' & A3 & Htc' & E3).
  pose proof (answer_app _ _ _ _ _ _ N2 A2 A3) as A23. pose proof (answer_app _ _ _ _ _ _ N1 A1 A23) as A.
  destruct r1 as [t1|]; [exists (Some t1), None, tc; auto|]. destruct r2 as [t2|]; [exists (Some t2), None, tc; auto|].
  rewrite E3. exists r3, (Some stats), tc'. auto.
Qed.

(** What [Get] leaves alone. *)

Definition same_data {E W} (db db' : @DBImpl E W) : Prop := db_mem db' = db_mem db /\ db_imm db' = db_imm db /\
  db_log db' = db_log db /\ vs_last_sequence (db_versions db') = vs_last_sequence (db_versions db).

Lemma same_data_trans {E W} (a b c : @DBImpl E W) : same_data a b -> same_data b c -> same_data a c.
Proof. unfold same_data. intros (-> & -> & -> & ->). auto. Qed.

Lemma schedule_data {E W} (db : @DBImpl E W) : same_data db (MaybeScheduleCompaction db).
Proof.
  unfold MaybeScheduleCompaction. repeat match goal with |- context [if ?b then _ else _] => destruct b end; repeat split; reflexivity.
Qed.

Lemma ref_data {E W} (db : @DBImpl E W) : same_data db (ref_current db).
Proof. unfold ref_current. destruct (vs_current _); repeat split; reflexivity. Qed.

Lemma unref_data {E W} (db : @DBImpl E W) id : same_data db (unref_version db id).
Proof.
  unfold unref_version. destruct id; [|repeat split; reflexivity]. unfold Version_Unref. destruct (unref_cells _ _ _). repeat split; reflexivity.
Qed.

Lemma stats_data {E W} id stats (db : @DBImpl E W) : same_data db (DB_UpdateStats id stats db).
Proof.
  unfold DB_UpdateStats. destruct id as [id|]; [|repeat split; reflexivity]. destruct (cell_of _ _) as [c|]; [|repeat split; reflexivity]. cbv zeta.
  destruct (UpdateStats _ _ _ _ _) as [[h' v] sch]. destruct sch; [|repeat split; reflexivity].
  eapply same_data_trans; [|apply schedule_data]. repeat split; reflexivity.
Qed.

End Get.

(** ** Properties of lookups *)

(** C4. [DBImpl::Get] answers for the whole database, given a current version
    whose files are found by their bounds: the memtable, the immutable memtable
    and the files hold lists of numbered operations, with newer operations on a
    key in front of older ones; the recorded bounds of each file enclose its point
    entries ([version_wf]), and every tombstone that the lookup can see and that
    covers the key is in a file that the search for the key visits
    ([tombstones_visited]).  No full compaction is being waited for.  Then a lookup
    at the latest sequence number or at any snapshot returns the value, or
    NotFound, that the newest operation at or before it touching the key (a put, a
    deletion or a range deletion) prescribes, from whichever place has it; it
    always returns and changes neither the data nor the sequence number.  Flushed
    files meet the conditions on bounds; the outputs of a compaction need not
    (db_impl.cc, lines 1272 and 1299). *)
Theorem db_get_newest : forall U E W TC (TCO : TableCacheOps TC) (tc_inv : TC -> Prop) (file_ops : nat -> list (Z * Op))
    (db : @DBImpl E W) h_mem h_imm u snapshot value ro tc,
  ComparatorOk U -> (forall u, @cmp_dom U u) -> ShouldWaitFullCompaction db = false ->
  let s := read_sequence snapshot db in
  let v := current (db_versions db) in
  let fm := deref (vs_heap (db_versions db)) in
  mem_holds (U := U) (db_mem db) h_mem -> imm_holds (U := U) (db_imm db) h_imm -> 0 <= s <= kMaxSequenceNumber -> sz u + 8 < 2 ^ 32 ->
  version_wf (U := U) fm tc_inv file_ops v -> version_recent fm file_ops v u s -> tombstones_visited (U := U) fm file_ops u s v -> tc_inv tc ->
  newer u s h_mem (h_imm ++ version_ops file_ops v) -> newer u s h_imm (version_ops file_ops v) ->
  exists r db' tc', Get U ro snapshot u value db tc = Some (answer_status r, answer_value r value, db', tc') /\
    Answer (h_mem ++ h_imm ++ version_ops file_ops v) u s r /\ tc_inv tc' /\ same_data db db'.
Proof.
  intros U E W TC TCO tc_inv file_ops db h_mem h_imm u snapshot value ro tc UOK Hk Hw s v fm Hm Hi Hs Hu HV HR HT Htc N1 N2.
  destruct (read_ok Hk tc_inv file_ops (vs_heap (db_versions db)) v (db_mem db) (db_imm db) h_mem h_imm u s value ro tc Hm Hi Hs Hu HV HR HT Htc N1 N2)
    as (r & stats & tc' & E1 & HA & Htc'). unfold Get. rewrite Hw. cbv zeta. fold s v. rewrite E1.
  eexists r, _, tc'. split; [reflexivity|]. split; [exact HA|]. split; [exact Htc'|].
  eapply same_data_trans; [apply ref_data|]. eapply same_data_trans; [|apply unref_data].
  destruct stats; [apply stats_data|repeat split; reflexivity].
Qed.

(** A put in the memtable, a deletion in the immutable one, and the version of
    three files of VersionGet.v. *)

Definition get_heap : FileHeap :=
  [demo_file 9 (mkInternalKey (str "a") 8 kTypeRangeDeletion) (mkInternalKey (str "d") 9 kTypeValue);
   demo_file 4 (mkInternalKey (str "b") 2 kTypeValue) (mkInternalKey (str "m") 6 kTypeValue);
   demo_file 5 (mkInternalKey (str "m") 5 kTypeValue) (mkInternalKey (str "x") 3 kTypeValue)].

Definition get_version : Version nat := mkVersion [[0]; [1; 2]; []; []; []; []; []]%nat None (-1) (d_of_Z (-1)) (-1).

Definition get_ops (f : nat) : list (Z * Op) := demo_ops (f_number (deref get_heap f)).

#[local] Instance get_cache : TableCacheOps unit := {
  tc_Get tc ro number size k :=
    (tt, get_spec (C := InternalKeyComparator BytewiseComparator)
           (points (map op_entry (demo_ops number))) (range_dels (map op_entry (demo_ops number))) k)
}.

Definition get_db : @DBImpl unit FileState :=
  let vs := AppendVersion (VersionSet_new tt) get_version in
  let vs := VS_SetLastSequence (with_versions vs get_heap (vs_versions vs)) 11 in
  let mem h := default MemTable_new (MemTable_AddAll BytewiseComparator MemTable_new h) in
  mkDBImpl vs (mem [(11, OpPut (str "m") (str "9"))]) (Some (mem [(10, OpDelete (str "x"))])) (Writer_new FileState_new) 3 [] ∅
    WriteBatch_new SnapshotList_new ∅ false None ∅ OK false false 0.

Example get_answers :
  let get u s := option_map (fun r => fst (fst r)) (Get BytewiseComparator (mkReadOptions true true) s u [] get_db tt) in
  get (str "m") None = Some (OK, str "9") /\ get (str "m") (Some 10) = Some (OK, str "2") /\ get (str "x") None = Some (NotFound [] [], []) /\
  get (str "x") (Some 9) = Some (OK, str "5") /\ get (str "b") None = Some (NotFound [] [], []).
Proof. vm_compute. repeat split. Qed.

Lemma get_files_wf : version_wf (U := BytewiseComparator) (deref get_heap) (fun _ : unit => True) get_ops get_version.
Proof.
  assert (HW : forall f, In f (version_files get_version) -> file_wf (U := BytewiseComparator) (deref get_heap) f).
  { intros f Hf. cbn in Hf. demo_in Hf; split; try (split; [cbn; lia|exact I]); vm_compute; discriminate. }
  split.
  - constructor; [apply HW; left; reflexivity|constructor].
  - cbn. constructor; [intros H; inversion H|constructor].
  - assert (Hnil : level_sorted (U := BytewiseComparator) (deref get_heap) []) by (split; [constructor|constructor|reflexivity]).
    intros [|[|[|[|[|[|level]]]]]] files H; try discriminate H; injection H as <-; try exact Hnil.
    split; [|constructor; [constructor; [constructor|constructor]|constructor; [vm_compute; reflexivity|constructor]]|reflexivity].
    constructor; [apply HW; cbn; auto|]. constructor; [apply HW; cbn; auto|constructor].
  - intros f Hf. split.
    + cbn in Hf. demo_in Hf; (split; [repeat constructor; vm_compute; discriminate|]);
        (split; [repeat constructor; vm_compute; reflexivity|repeat (constructor; [split; [cbn; lia|exact I]|]); constructor]).
    + intros tc ro k _ _. exists tt. split; [exact I|reflexivity].
  - intros f qo Hf Hq Hr. cbn in Hf. demo_in Hf; cbn in Hq; demo_in Hq; try discriminate Hr; split; vm_compute; discriminate.
  - intros f Hf. right. cbn in Hf. demo_in Hf; cbn; eexists; (split; [right; left; reflexivity|split; reflexivity]).
Qed.

Lemma single_history q op : 0 < q <= kMaxSequenceNumber -> op_fits op -> history_ok [(q, op)].
Proof.
  intros Hq Hf. split.
  - constructor; constructor.
  - constructor; [exact Hq|constructor].
  - constructor; [exact Hf|constructor].
Qed.

Lemma db_get_newest_witness : exists r db' tc',
  Get BytewiseComparator (mkReadOptions true true) None (str "m") [] get_db tt = Some (answer_status r, answer_value r [], db', tc') /\
  Answer ([(11, OpPut (str "m") (str "9"))] ++ [(10, OpDelete (str "x"))] ++ version_ops get_ops get_version) (str "m") 11 r /\ True /\ same_data get_db db'.
Proof.
  apply (db_get_newest BytewiseComparator unit FileState unit get_cache (fun _ => True) get_ops get_db [(11, OpPut (str "m") (str "9"))]
    [(10, OpDelete (str "x"))] (str "m") None [] (mkReadOptions true true) tt).
  - exact BytewiseComparatorOk.
  - intros u. exact I.
  - reflexivity.
  - split; [vm_compute; reflexivity|apply single_history; [vm_compute; split; [reflexivity|discriminate]|split; reflexivity]].
  - split; [vm_compute; reflexivity|apply single_history; [vm_compute; split; [reflexivity|discriminate]|split; reflexivity]].
  - split; vm_compute; discriminate.
  - reflexivity.
  - exact get_files_wf.
  - split.
    + intros i j f g Hij Hf Hg x y Hx Hy [_ Tx] [_ Ty].
      destruct i as [|[|[|[|[|[|[|i]]]]]]]; destruct j as [|[|[|[|[|[|[|j]]]]]]]; try lia; cbn in Hf, Hg; try contradiction.
      demo_in Hf; demo_in Hg; cbn in Hx, Hy; demo_in Hx; demo_in Hy; cbn; try lia; exfalso; vm_compute in Tx, Ty; auto.
    + intros f g Hf Hg Hlt. cbn in Hf, Hg. demo_in Hf; demo_in Hg; cbn in Hlt; lia.
  - intros f qo Hf Hq Hr [_ Ht]. cbn in Hf. demo_in Hf; cbn in Hq; demo_in Hq; try discriminate Hr. exfalso. vm_compute in Ht. auto.
  - exact I.
  - intros x y Hx Hy _ _. cbn in Hx, Hy. demo_in Hx. demo_in Hy; cbn; lia.
  - intros x y Hx Hy _ _. cbn in Hx, Hy. demo_in Hx. demo_in Hy; cbn; lia.
Defined.
