(* ===== verification/DbScan.v ===== *)
(** * Scans list the newest data (db/db_impl.cc)

    The children of the internal iterator are cursors on the entries of the
    memtables and the files, the merging iterator is a cursor on all of them, and
    the database iterator on top shows the newest visible values: [Scan] returns
    exactly the pairs of the range that the history of the database prescribes. *)

From Stdlib Require Import Permutation.
From S2P Require Import Prelude Coding Compare DbFormat Logging FileName SkipList Arena MemTable WriteBatch Crc32c Env Log Iterator Block Merger TwoLevel TableBuilder Table VersionEdit Version VersionGet Compaction VersionSet MemIter DbIter DbView DbImpl DbRead DbReadOk.
#[local] Open Scope Z_scope.
#[local] Open Scope ldb_scope.

(** ** Cursors *)

Lemma sum_cursor_l {A B} {IA : Iterator A} {IB : Iterator B} C es (P : nat -> A -> Prop) :
  Cursor C es P -> @Cursor _ (SumOps IA IB) C es (fun i x => exists a, x = inl a /\ P i a).
Proof.
  intros [H1 H2 H3 H4 H5 H6 H7 H8 H9].
  split; intros i x; intros; repeat match goal with H : exists _, _ |- _ => destruct H as (a & -> & ?) end; cbn; eauto.
Qed.

Lemma sum_cursor_r {A B} {IA : Iterator A} {IB : Iterator B} C es (P : nat -> B -> Prop) :
  Cursor C es P -> @Cursor _ (SumOps IA IB) C es (fun i x => exists b, x = inr b /\ P i b).
Proof.
  intros [H1 H2 H3 H4 H5 H6 H7 H8 H9].
  split; intros i x; intros; repeat match goal with H : exists _, _ |- _ => destruct H as (a & -> & ?) end; cbn; eauto.
Qed.

(** A comparator that is used on fewer keys. *)

Lemma cursor_narrow {It} `{Iterator It} (C C' : Comparator) es (P : nat -> It -> Prop) :
  @cmp C' = @cmp C -> (forall k, @cmp_dom C' k -> @cmp_dom C k) -> Cursor C es P -> Cursor C' es P.
Proof.
  intros Ec Hd [H1 H2 H3 H4 H5 H6 H7 H8 H9]. split; try assumption. intros i it t HP Ht.
  assert (El : lower_bound C' es t = lower_bound C es t).
  { induction es as [|e l IH]; [reflexivity|]. cbn [lower_bound]. rewrite Ec. clear -Ec. destruct (cmp (fst e) t <? 0); [|reflexivity]. f_equal.
    induction l as [|e' l IH]; [reflexivity|]. cbn [lower_bound]. rewrite Ec. destruct (cmp (fst e') t <? 0); [f_equal; exact IH|reflexivity]. }
  rewrite El. apply (H9 i); auto.
Qed.

(** ** Merging *)

Section Sort.
Context {C : Comparator} {COK : ComparatorOk C}.

Fixpoint insert_sorted (e : entry) (l : list entry) : list entry :=
  match l with
  | [] => [e]
  | x :: l' => if cmp (fst e) (fst x) <? 0 then e :: l else x :: insert_sorted e l'
  end.

Lemma insert_sorted_perm e l : Permutation (insert_sorted e l) (e :: l).
Proof.
  induction l as [|x l IH]; cbn; [reflexivity|]. destruct (_ <? 0); [reflexivity|].
  rewrite IH. apply perm_swap.
Qed.

Lemma insert_sorted_ok e l : sorted_entries C l -> cmp_dom (fst e) -> ~ In (fst e) (map fst l) -> sorted_entries C (insert_sorted e l).
Proof.
  intros [HS HD] He Hn. split.
  - induction HS as [|x l HS IH HF]; cbn [insert_sorted]; [repeat constructor|]. apply Forall_cons_iff in HD as [Hx HD].
    destruct (Z.ltb_spec (cmp (fst e) (fst x)) 0) as [Hl|Hl].
    + constructor; [constructor; assumption|]. constructor; [exact Hl|]. rewrite List.Forall_forall in *. intros y Hy.
      exact (cmp_trans _ _ _ He Hx (HD y Hy) Hl (HF y Hy)).
    + constructor; [apply IH; [exact HD|intros H; apply Hn; right; exact H]|].
      assert (Hxe : cmp (fst x) (fst e) < 0).
      { apply cmp_flip_gt; [exact He|exact Hx|]. assert (cmp (fst e) (fst x) <> 0); [|lia].
        intros E. apply cmp_eq in E; [|exact He|exact Hx]. apply Hn. left. auto. }
      apply List.Forall_forall. intros y Hy. apply (Permutation_in _ (insert_sorted_perm e l)) in Hy as [<-|Hy]; [exact Hxe|].
      rewrite List.Forall_forall in HF. exact (HF y Hy).
  - apply List.Forall_forall. intros y Hy. apply (Permutation_in _ (insert_sorted_perm e l)) in Hy as [<-|Hy]; [exact He|].
    rewrite List.Forall_forall in HD. exact (HD y Hy).
Qed.

Lemma sorted_NoDup l : sorted_entries C l -> NoDup (map fst l).
Proof.
  intros [HS HD]. induction HS as [|e l HS IH HF]; [constructor|]. apply Forall_cons_iff in HD as [He HD]. cbn [map]. apply list.NoDup_cons. split; [|exact (IH HD)].
  intros Hx. apply list_elem_of_In, in_map_iff in Hx as (x & Ex & Hx). rewrite List.Forall_forall in HF. specialize (HF x Hx). unfold key_lt in HF.
  rewrite Ex, cmp_refl in HF by exact He. lia.
Qed.

Lemma merge_exists l : NoDup (map fst l) -> Forall (fun e => cmp_dom (fst e)) l -> exists M, sorted_entries C M /\ Permutation M l.
Proof.
  induction l as [|e l IH]; intros HN HD; [exists []; split; [split; constructor|reflexivity]|].
  cbn in HN. apply list.NoDup_cons in HN as [Hn HN]. apply Forall_cons_iff in HD as [He HD].
  destruct (IH HN HD) as (M & HM & HP). exists (insert_sorted e M). split.
  - apply insert_sorted_ok; [exact HM|exact He|]. intros H. apply Hn, list_elem_of_In. revert H. apply Permutation_in, Permutation_map, HP.
  - rewrite insert_sorted_perm, HP. reflexivity.
Qed.

End Sort.

(** ** What the view shows is what the history says *)

Definition rd_is (rd : RangeDeletionList) (ops : list (Z * Op)) : Prop :=
  forall u f s, RDL_IsDeleted rd u f s = MemTable.covered u s f ops.

Lemma rd_is_app rd1 rd2 ops1 ops2 : rd_is rd1 ops1 -> rd_is rd2 ops2 -> rd_is (rd1 ++ rd2) (ops1 ++ ops2).
Proof. intros H1 H2 u f s. rewrite RDL_IsDeleted_app, H1, H2. unfold MemTable.covered. rewrite existsb_app. reflexivity. Qed.

Lemma covered_iff u s f ops : MemTable.covered u s f ops = true <->
  exists q a b, In (q, OpDeleteRange a b) ops /\ lex a u <= 0 /\ lex u b < 0 /\ f < q <= s.
Proof.
  unfold MemTable.covered. rewrite existsb_exists. split.
  - intros ([q [k v|k|a b]] & Hin & H); try discriminate H. cbn [snd fst] in H. apply coversb_spec in H as (H1 & H2 & H3). eauto 10.
  - intros (q & a & b & Hin & H1 & H2 & H3). exists (q, OpDeleteRange a b). split; [exact Hin|]. cbn. apply coversb_spec. repeat split; assumption || apply H3.
Qed.

Lemma range_touches a b u : touches (OpDeleteRange a b) u <> None <-> lex a u <= 0 /\ lex u b < 0.
Proof.
  cbn. destruct (Z.leb_spec (lex a u) 0); destruct (Z.ltb_spec (lex u b) 0); cbn; split; intros H'; try tauto; try (exfalso; lia); try discriminate.
  all: try (destruct H'; lia).
Qed.

Section History.
Context {U : Comparator} {UOK : ComparatorOk U} (rd : RangeDeletionList) (s : Z) (es : list entry) (ops : list (Z * Op)).
Context (HE : entries_ok (U := U) es) (Hrd : rd_is rd ops).
Hypothesis seq_range : Forall (fun qo => 0 <= fst qo <= kMaxSequenceNumber) ops.
Hypothesis from_ops : forall e, In e es -> exists qo, In qo ops /\ e = op_entry qo.
Hypothesis to_entries : forall qo, In qo ops -> is_range_op qo = false -> In (op_entry qo) es.

Lemma pk_op qo : In qo ops -> pk (op_entry qo) = mkParsed (op_key (snd qo)) (fst qo) (op_type (snd qo)).
Proof.
  intros H. rewrite List.Forall_forall in seq_range. specialize (seq_range qo H). unfold pk, op_entry, entry_ikey. cbn [fst].
  rewrite ParseInternalKey_make by exact seq_range. reflexivity.
Qed.

Lemma view_sorted : sorted_entries U (user_view (U := U) rd s es).
Proof.
  split.
  - apply StronglySorted_of_lookup. intros i j x y Hij Hi Hj.
    apply (view_lookup rd s es) in Hi as (a & e & La & Ha & Ra & ->). apply (view_lookup rd s es) in Hj as (b & e' & Lb & Hb & Rb & ->).
    unfold key_lt. cbn [fst].
    assert (Hab : (a < b)%nat).
    { destruct (decide (a < b)%nat) as [|Hge]; [assumption|]. exfalso. pose proof (rank_mono rd s es b a ltac:(lia)). lia. }
    destruct (view_entry_order es HE a b e e' Hab Ha Hb) as [Hle _].
    assert (cmp (uk e) (uk e') <> 0); [|lia].
    apply live_iff in Lb as (e0 & He0 & _ & Hn). assert (e0 = e') as -> by congruence.
    apply live_iff in La as (e1 & He1 & Hc & _). assert (e1 = e) as -> by congruence.
    apply (Hn a e Hab Ha). apply cand_vis in Hc as (Hv & Ht & _). apply point_iff. split; [exact Hv|rewrite Ht; discriminate].
  - apply list.Forall_lookup. intros i x Hi. apply (view_lookup rd s es) in Hi as (a & e & La & Ha & Ra & ->). cbn [fst].
    exact (proj2 (proj2 (proj2 (proj2 (pk_parse es HE a e Ha))))).
Qed.

Lemma view_history u v : In (u, v) (user_view (U := U) rd s es) <-> Answer ops u s (Some (Some v)).
Proof.
  split.
  - intros Hin. apply list_elem_of_In, list_elem_of_lookup in Hin as [m Hm].
    apply (view_lookup rd s es) in Hm as (i & e & HL & He & _ & E). injection E as -> ->.
    apply live_iff in HL as (e0 & He0 & Hc & Hn). assert (e0 = e) as -> by congruence.
    apply cand_vis in Hc as (Hv & Ht & Hcov). unfold vis in Hv. apply Z.leb_le in Hv.
    destruct (from_ops e) as (qo & Hqo & Eqo); [apply list_elem_of_In, list_elem_of_lookup; eauto|]. subst e.
    unfold covered, uk in *. rewrite (pk_op qo Hqo) in *. cbn [user_key sequence type] in *.
    destruct qo as [q [k x|k|a b]]; try discriminate Ht. cbn [snd fst op_key op_value op_entry] in *.
    apply (ans_some _ _ _ (q, OpPut k x)); [exact Hqo|exact Hv|cbn; rewrite decide_True by reflexivity; reflexivity|].
    intros qo' Hqo' [Hs' Ht']. cbn [fst]. destruct (is_range_op qo') eqn:Er.
    + destruct qo' as [q' [k' x'|k'|a b]]; try discriminate Er. cbn [fst snd] in *. apply range_touches in Ht' as [Ha Hb].
      destruct (Z.le_gt_cases q' q) as [|Hgt]; [assumption|exfalso]. rewrite Hrd in Hcov.
      assert (MemTable.covered k s q ops = true) by (apply covered_iff; exists q', a, b; repeat split; assumption || lia). congruence.
    + assert (Hk : op_key (snd qo') = k).
      { destruct qo' as [q' [k' x'|k'|a b]]; try discriminate Er; cbn in Ht' |- *; (destruct (decide (k' = k)); [assumption|contradiction]). }
      pose proof (to_entries qo' Hqo' Er) as Hin'. apply list_elem_of_In, list_elem_of_lookup in Hin' as [j Hj].
      assert (Hp' : point s (op_entry qo') = true).
      { apply point_iff. unfold vis. rewrite (pk_op qo' Hqo'). cbn [sequence type]. split; [apply Z.leb_le; exact Hs'|].
        destruct (snd qo') eqn:Eo; cbn; try discriminate. unfold is_range_op in Er. rewrite Eo in Er. discriminate Er. }
      assert (Huk : uk (op_entry qo') = k) by (unfold uk; rewrite (pk_op qo' Hqo'); exact Hk).
      assert (Hdom : @cmp_dom U k).
      { rewrite <- Huk. exact (proj2 (proj2 (proj2 (proj2 (pk_parse es HE j _ Hj))))). }
      destruct (Nat.lt_trichotomy j i) as [Hlt|[->|Hgt]].
      * exfalso. apply (Hn j _ Hlt Hj Hp'). unfold uk in Huk. rewrite Huk. apply cmp_refl, Hdom.
      * assert (E2 : pk (op_entry qo') = pk (op_entry (q, OpPut k x))).
        { assert (E : Some (op_entry qo') = Some (op_entry (q, OpPut k x))) by (rewrite <- Hj; exact He).
          exact (f_equal (fun o => pk (default ([], []) o)) E). }
        rewrite !pk_op in E2 by assumption. injection E2 as _ E3 _. cbn in E3. lia.
      * destruct (view_entry_order es HE i j _ _ Hgt He Hj) as [_ Hord]. unfold uk in Hord. rewrite (pk_op qo' Hqo') in Hord.
        change (entry_ikey (q, OpPut k x), x) with (op_entry (q, OpPut k x)) in Hord. rewrite (pk_op _ Hqo) in Hord. cbn [user_key sequence fst snd op_key] in Hord.
        apply Hord. rewrite Hk. apply cmp_refl, Hdom.
  - intros HA. inversion HA as [|qo t Hqo Hq Ht Hmax Et]. subst t.
    assert (Hop : exists q, qo = (q, OpPut u v)).
    { destruct qo as [q [k x|k|a b]]; cbn in Ht.
      - destruct (decide (k = u)) as [->|]; [|discriminate Ht]. injection Ht as ->. eauto.
      - destruct (decide (k = u)); discriminate Ht.
      - destruct (_ && _); discriminate Ht. }
    destruct Hop as [q ->]. cbn [fst snd] in *. pose proof (to_entries _ Hqo eq_refl) as Hin.
    apply list_elem_of_In, list_elem_of_lookup in Hin as [i Hi].
    assert (Hpk : pk (op_entry (q, OpPut u v)) = mkParsed u q kTypeValue) by exact (pk_op _ Hqo).
    assert (HL : live (U := U) rd s es i = true).
    { apply live_iff. exists (op_entry (q, OpPut u v)). split; [exact Hi|]. split.
      - unfold cand, vis, covered, uk. rewrite Hpk. cbn [user_key sequence type]. rewrite (proj2 (Z.leb_le _ _)) by exact Hq.
        rewrite bool_decide_eq_true_2 by reflexivity. cbn [andb]. rewrite Hrd. apply negb_true_iff, not_true_is_false. intros Hc.
        apply covered_iff in Hc as (q' & a & b & Hin' & Ha & Hb & Hqq). assert (q' <= q); [|lia].
        apply (Hmax (q', OpDeleteRange a b) Hin'). split; [cbn; lia|]. apply range_touches. auto.
      - intros j e' Hj He' Hp Hc. destruct (from_ops e') as (qo' & Hqo' & Eqo'); [apply list_elem_of_In, list_elem_of_lookup; eauto|]. subst e'.
        apply point_iff in Hp as [Hv Hty]. unfold vis in Hv. unfold uk in Hc. rewrite (pk_op qo' Hqo') in *. rewrite Hpk in Hc. cbn [user_key sequence type] in *.
        apply Z.leb_le in Hv.
        assert (Hdom : forall j e, es !! j = Some e -> @cmp_dom U (uk e)) by (intros j0 e0 H0; exact (proj2 (proj2 (proj2 (proj2 (pk_parse es HE j0 e0 H0)))))).
        apply cmp_eq in Hc.
        2:{ pose proof (Hdom j _ He') as D. unfold uk in D. rewrite (pk_op qo' Hqo') in D. exact D. }
        2:{ pose proof (Hdom i _ Hi) as D. unfold uk in D. rewrite Hpk in D. exact D. }
        assert (Hle : fst qo' <= q).
        { apply (Hmax qo' Hqo'). split; [exact Hv|]. destruct qo' as [q' [k' x'|k'|a b]]; cbn in Hc, Hty |- *; subst; try (rewrite decide_True by reflexivity; discriminate).
          contradiction. }
        pose proof (sorted_lt (C := InternalKeyComparator U) es j i _ _ (vo_sorted es HE) Hj He' Hi) as HLt. cbn [op_entry fst] in HLt.
        apply IKC_lt in HLt. rewrite !entry_ikey_user in HLt. cbn [snd op_key] in HLt. rewrite Hc in HLt.
        pose proof (Hdom i _ Hi) as D. unfold uk in D. rewrite Hpk in D. cbn [user_key] in D. rewrite cmp_refl in HLt by exact D.
        destruct HLt as [HLt|[_ HLt]]; [lia|]. rewrite List.Forall_forall in seq_range. pose proof (seq_range _ Hqo) as R1. pose proof (seq_range _ Hqo') as R2.
        unfold entry_ikey in HLt. cbn [fst] in R1. rewrite !mkInternalKey_tag, !PackSequenceAndType_eq in HLt by (cbn [fst]; assumption).
        cbn [fst snd op_type] in HLt. change (vt_code kTypeValue) with 1 in HLt.
        destruct qo' as [q' [k' x'|k'|a b]]; cbn [fst snd op_type] in *; try contradiction;
          [change (vt_code kTypeValue) with 1 in HLt|change (vt_code kTypeDeletion) with 0 in HLt]; lia. }
    apply list_elem_of_In, list_elem_of_lookup. exists (rank rd s es i). rewrite (user_view_rank rd s es i _ HL Hi). unfold uk. rewrite Hpk. reflexivity.
Qed.

End History.

(** ** The children of the internal iterator *)

Section Children.
Context {U : Comparator} {UOK : ComparatorOk U} {US : ComparatorShort U}.
Hypothesis all_keys : forall u, @cmp_dom U u.
Context {TI : Type} {TIO : Iterator TI} (tc_NewIterator : ReadOptions -> Z -> Z -> TI) (tc_error : Status -> TI)
  (tc_GetRangeDeletions : Z -> Z -> RangeDeletionList).
Context (ro : ReadOptions) (h : FileHeap) (file_ops : nat -> list (Z * Op)) (fuel : nat).

#[local] Abbreviation ICmp := (InternalKeyComparator U).
#[local] Abbreviation BCmp := (InternalKeyComparator (Bounded U)).
#[local] Abbreviation fpoints f := (points (map op_entry (file_ops f))).

(** What the table cache promises for a file. *)

Record file_reads (f : nat) : Prop := {
  fr_ops : ops_ok (U := U) (file_ops f);
  fr_fits : Forall (fun qo => op_fits (snd qo)) (file_ops f);
  fr_iterator : exists p, AnyPos ICmp (fpoints f) p (table_iterator tc_NewIterator ro h f);
  fr_dels : rd_is (tc_GetRangeDeletions (f_number (deref h f)) (f_file_size (deref h f))) (file_ops f);
  fr_numbers : 0 <= f_number (deref h f) < 2 ^ 64 /\ 0 <= f_file_size (deref h f) < 2 ^ 64
}.

Lemma narrow_dom k : @cmp_dom BCmp k -> @cmp_dom ICmp k.
Proof. intros [H1 [H2 _]]. split; assumption. Qed.

Lemma any_narrow {It} `{Iterator It} es p (it : It) : AnyPos ICmp es p it -> AnyPos BCmp es p it.
Proof. intros (P & HC & HP). exists P. split; [|exact HP]. apply (cursor_narrow ICmp); [reflexivity|exact narrow_dom|exact HC]. Qed.

Lemma points_in f e : file_reads f -> In e (fpoints f) -> exists qo, In qo (file_ops f) /\ is_range_op qo = false /\ e = op_entry qo.
Proof.
  intros HF He. rewrite (points_ops _ (fr_ops f HF)) in He. apply in_map_iff in He as (qo & <- & Hq). apply filter_In in Hq as [H1 H2].
  exists qo. apply negb_true_iff in H2. auto.
Qed.

Lemma fpoints_sorted f : file_reads f -> sorted_entries BCmp (fpoints f).
Proof.
  intros HF. destruct (oo_sorted _ (fr_ops f HF)) as [HS HD]. split.
  - unfold points. clear HF HD. induction HS as [|e l HS IH HL]; [constructor|]. cbn [List.filter]. destruct (negb _); [|exact IH].
    constructor; [exact IH|]. rewrite List.Forall_forall in *. intros x Hx. apply filter_In in Hx as [Hx _]. exact (HL x Hx).
  - apply List.Forall_forall. intros e He. apply (points_in f e HF) in He as (qo & Hq & _ & ->). pose proof (fr_fits f HF) as Hfit.
    rewrite List.Forall_forall in Hfit. destruct (Hfit qo Hq) as [Hk _]. unfold op_entry, entry_ikey. cbn [fst]. split; [rewrite mkInternalKey_length; lia|].
    rewrite mkInternalKey_user. split; [apply all_keys|exact Hk].
Qed.

(** *** A level *)

Lemma file_value_numbers f : 0 <= f_number (deref h f) < 2 ^ 64 -> 0 <= f_file_size (deref h f) < 2 ^ 64 ->
  GetFileIterator (tc_NewIterator ro) tc_error (file_value (deref h) f) = table_iterator tc_NewIterator ro h f.
Proof.
  intros H1 H2. unfold GetFileIterator, file_value. rewrite sz_app. unfold sz at 1 2. rewrite !length_EncodeFixed64.
  change (negb (Z.of_nat 8 + Z.of_nat 8 =? 16)) with false. cbv iota. rewrite fixed64_decode, u64_small by exact H1.
  rewrite drop_app_length' by (rewrite length_EncodeFixed64; reflexivity). rewrite <- (app_nil_r (EncodeFixed64 (f_file_size _))).
  rewrite fixed64_decode, u64_small by exact H2. reflexivity.
Qed.

Lemma level_indexed files : level_sorted (U := U) (deref h) files -> NoDup (map (fun f => f_number (deref h f)) files) ->
  (forall f, In f files -> file_reads f) ->
  (forall f qo, In f files -> In qo (file_ops f) -> is_range_op qo = false ->
     IKC_Compare U (f_smallest (deref h f)) (entry_ikey qo) <= 0 /\ IKC_Compare U (entry_ikey qo) (f_largest (deref h f)) <= 0) ->
  IndexedBlocks ICmp (GetFileIterator (tc_NewIterator ro) tc_error) (level_entries (deref h) files) (map (fun f => fpoints f) files)
    (fun i => AnyPos ICmp (default [] (map (fun f => fpoints f) files !! i))).
Proof.
  intros HL HN HF HB. pose proof (ls_wf _ _ HL) as HW. rewrite List.Forall_forall in HW.
  assert (Hlk : forall i x, level_entries (deref h) files !! i = Some x -> exists f, files !! i = Some f /\ In f files /\ x = (f_largest (deref h f), file_value (deref h) f)).
  { intros i x Hx. rewrite level_entries_lookup in Hx. destruct (files !! i) as [f|] eqn:Ef; [|discriminate Hx]. injection Hx as <-.
    exists f. split; [reflexivity|]. split; [apply list_elem_of_In, list_elem_of_lookup; eauto|reflexivity]. }
  assert (Hbk : forall i es, map (fun f => fpoints f) files !! i = Some es -> exists f, files !! i = Some f /\ In f files /\ es = fpoints f).
  { intros i es Hx. rewrite list_lookup_fmap in Hx. destruct (files !! i) as [f|] eqn:Ef; [|discriminate Hx]. injection Hx as <-.
    exists f. split; [reflexivity|]. split; [apply list_elem_of_In, list_elem_of_lookup; eauto|reflexivity]. }
  split.
  - unfold level_entries. rewrite !length_map. reflexivity.
  - unfold level_entries. rewrite map_map. cbn [snd]. clear -HN HF. induction files as [|f files IH]; [constructor|]. cbn [map] in *.
    apply list.NoDup_cons in HN as [Hn HN]. apply list.NoDup_cons. split; [|apply IH; [exact HN|intros; apply HF; right; assumption]].
    intros Hin. apply list_elem_of_In, in_map_iff in Hin as (g & Eg & Hg). apply Hn, list_elem_of_In, in_map_iff. exists g. split; [|exact Hg].
    destruct (fr_numbers f (HF f (or_introl eq_refl))) as [R1 _]. destruct (fr_numbers g (HF g (or_intror Hg))) as [R2 _].
    apply (f_equal DecodeFixed64) in Eg. unfold file_value in Eg. rewrite !fixed64_decode, !u64_small in Eg by assumption. exact Eg.
  - intros i k x Hi. apply Hlk in Hi as (f & Ef & Hf & E). injection E as _ ->. rewrite list_lookup_fmap, Ef. cbn [option_fmap option_map fmap from_option default id].
    destruct (fr_numbers f (HF f Hf)) as [R1 R2]. rewrite (file_value_numbers f R1 R2). exact (fr_iterator f (HF f Hf)).
  - intros i es Hes. rewrite Hes. cbn. apply AnyPos_cursor.
  - exact (se_dom _ _ (level_entries_sorted (deref h) files HL)).
  - apply List.Forall_forall. intros e He. apply in_concat in He as (es & Hes & He). apply in_map_iff in Hes as (f & <- & Hf).
    apply narrow_dom. pose proof (fpoints_sorted f (HF f Hf)) as [_ HD]. rewrite List.Forall_forall in HD. exact (HD e He).
  - intros i k x es e Hi Hes He. apply Hlk in Hi as (f & Ef & Hf & E). injection E as -> _. apply Hbk in Hes as (g & Eg & _ & ->).
    assert (g = f) as -> by congruence. apply (points_in f e (HF f Hf)) in He as (qo & Hq & Hr & ->). apply (HB f qo Hf Hq Hr).
  - intros i j k x es e Hi Hes Hij He. apply Hlk in Hi as (f & Ef & Hf & E). injection E as -> _. apply Hbk in Hes as (g & Eg & Hg & ->).
    apply (points_in g e (HF g Hg)) in He as (qo & Hq & Hr & ->). cbn [op_entry fst].
    pose proof (StronglySorted_lookup _ _ i j _ _ (ls_order _ _ HL) Hij Ef Eg) as Hlt. destruct (HB g qo Hg Hq Hr) as [B1 _].
    apply (cmp_lt_le_trans (C := ICmp) _ (f_smallest (deref h g)) _ (fw_large _ _ (HW f Hf)) (fw_small _ _ (HW g Hg))); [|exact Hlt|exact B1].
    unfold entry_ikey. split; [rewrite mkInternalKey_length; lia|apply all_keys].
Qed.

Lemma level_child files : level_sorted (U := U) (deref h) files -> NoDup (map (fun f => f_number (deref h f)) files) ->
  (forall f, In f files -> file_reads f) ->
  (forall f qo, In f files -> In qo (file_ops f) -> is_range_op qo = false ->
     IKC_Compare U (f_smallest (deref h f)) (entry_ikey qo) <= 0 /\ IKC_Compare U (entry_ikey qo) (f_largest (deref h f)) <= 0) ->
  (length files <= fuel)%nat ->
  exists p, @AnyPos _ (LevelIterOps U tc_NewIterator tc_error ro h fuel) BCmp (concat (map (fun f => fpoints f) files)) p (NewConcatenatingIterator files).
Proof.
  intros HL HN HF HB Hfuel. pose proof (level_indexed files HL HN HF HB) as HI.
  set (bs := map (fun f => fpoints f) files) in *.
  exists (length (concat bs)). apply any_narrow.
  exists (PosT (level_entries (deref h) files) bs (fun i it => flist_ it = files /\ (i <= length files)%nat /\ lf_index it = Z.of_nat i)
    (fun i => AnyPos ICmp (default [] (bs !! i)))).
  split.
  - unfold LevelIterOps. apply (two_level_cursor (C := ICmp)); [apply level_iterator_cursor, HL|exact HI|unfold level_entries; rewrite length_map; exact Hfuel].
  - apply (two_level_new_pos _ _ _ _ (length files)). cbn. split; [reflexivity|]. split; [lia|]. pose proof (ls_small _ _ HL) as Hs. unfold sz in *.
    rewrite u32_small by lia. reflexivity.
Qed.

End Children.

(** ** The entries of a memtable that holds a history *)

Lemma mem_history {U} {UOK : ComparatorOk U} {US : ComparatorShort U} (all_keys : forall u, @cmp_dom U u) m h :
  mem_holds (U := U) m h -> exists es, MInv (C := U) m es /\ Permutation es h.
Proof.
  intros [Hm Hh]. destruct (AddAll_spec all_keys h Hh) as (m' & es & Hadd & HI & Hin & _). rewrite Hm in Hadd. injection Hadd as <-.
  exists es. split; [exact HI|]. apply NoDup_Permutation.
  - apply (NoDup_fmap_1 entry_ikey). change (entry_ikey <$> es) with (map (fun x => fst (op_entry x)) es). rewrite <- map_map.
    apply (sorted_NoDup (C := InternalKeyComparator (Bounded U))), (mem_sorted all_keys m es HI).
  - pose proof (hist_sorted _ Hh) as HS. clear -HS. induction HS as [|x l HS IH HF]; [constructor|]. apply list.NoDup_cons. split; [|exact IH].
    intros Hx. apply list_elem_of_In in Hx. rewrite List.Forall_forall in HF. specialize (HF x Hx). lia.
  - intros x. rewrite !list_elem_of_In. apply Hin.
Qed.

(** ** The internal iterator *)

Section Internal.
Context {U : Comparator} {UOK : ComparatorOk U} {US : ComparatorShort U}.
Hypothesis all_keys : forall u, @cmp_dom U u.
Context {E W TI : Type} {TIO : Iterator TI} (tc_NewIterator : ReadOptions -> Z -> Z -> TI) (tc_error : Status -> TI)
  (tc_GetRangeDeletions : Z -> Z -> RangeDeletionList).
Context (ro : ReadOptions) (file_ops : nat -> list (Z * Op)) (db : @DBImpl E W) (h_mem h_imm : list (Z * Op)).

#[local] Abbreviation BCmp := (InternalKeyComparator (Bounded U)).
#[local] Abbreviation heap := (vs_heap (db_versions db)).
#[local] Abbreviation v := (current (db_versions db)).
#[local] Abbreviation fpoints f := (points (map op_entry (file_ops f))).

Definition all_ops : list (Z * Op) := h_mem ++ h_imm ++ version_ops file_ops v.

(** What the memtables and the files hold: no two point operations have the same
    number. *)

Record db_holds : Prop := {
  dh_mem : mem_holds (U := U) (db_mem db) h_mem;
  dh_imm : imm_holds (U := U) (db_imm db) h_imm;
  dh_shape : length (v_files v) = kNumLevels;
  dh_files : forall f, In f (version_files v) -> file_reads (U := U) tc_NewIterator tc_GetRangeDeletions ro heap file_ops f;
  dh_levels : forall level files, v_files v !! S level = Some files ->
    level_sorted (U := U) (deref heap) files /\ NoDup (map (fun f => f_number (deref heap f)) files);
  dh_bounds : forall f qo, In f (version_files v) -> In qo (file_ops f) -> is_range_op qo = false ->
    IKC_Compare U (f_smallest (deref heap f)) (entry_ikey qo) <= 0 /\ IKC_Compare U (entry_ikey qo) (f_largest (deref heap f)) <= 0;
  dh_distinct : NoDup (map fst (h_mem ++ h_imm ++ List.filter (fun qo => negb (is_range_op qo)) (version_ops file_ops v)))
}.

Context (HD : db_holds).

#[local] Instance CIO : Iterator (MemTableIterator + (TI + TwoLevelIterator (LevelFileNumIterator nat) TI)) :=
  ChildIterOps U tc_NewIterator tc_error ro heap (fuel_of db).

Definition child_at (it : MemTableIterator + (TI + TwoLevelIterator (LevelFileNumIterator nat) TI)) (es : list entry) : Prop :=
  sorted_entries BCmp es /\ exists p, AnyPos BCmp es p it.

(** A memtable. *)

Lemma mem_child m h : mem_holds (U := U) m h -> exists es, child_at (inl (MemTable_NewIterator m)) (map op_entry es) /\ Permutation es h /\
  rd_is (range_deletions m) h.
Proof.
  intros Hm. destruct (mem_history all_keys m h Hm) as (es & HI & Hp).
  exists es. split; [|split; [exact Hp|]].
  - split; [exact (mem_sorted all_keys m es HI)|]. exists (length es).
    eexists. split; [apply (sum_cursor_l (IA := MemTableIteratorOps U)), (mem_cursor all_keys m es HI)|].
    exists (MemTable_NewIterator m). split; [reflexivity|]. apply mem_pos_end, HI.
  - intros u f s. rewrite (minv_dels _ _ HI). unfold MemTable.covered. apply eq_true_iff_eq. rewrite !existsb_exists.
    split; intros (x & Hx & H); exists x; (split; [apply (Permutation_in _ Hp) || apply (Permutation_in _ (Permutation_sym Hp)); exact Hx|exact H]).
Qed.

(** The files. *)

Lemma version_file level f : In f (files_at v level) -> In f (version_files v).
Proof.
  unfold files_at. destruct (v_files v !! level) as [files|] eqn:Ef; [|contradiction]. cbn. intros Hf. apply in_concat. exists files.
  split; [apply list_elem_of_In, list_elem_of_lookup; eauto|exact Hf].
Qed.

Lemma version_files_levels : version_files v = files_at v 0 ++ concat (map (files_at v) (List.seq 1 (kNumLevels - 1))).
Proof.
  unfold version_files. transitivity (concat (map (files_at v) (List.seq 0 kNumLevels))); [|reflexivity]. f_equal.
  apply list_eq. intros i. rewrite list_lookup_fmap. destruct (decide (i < kNumLevels)%nat) as [Hi|Hi].
  - rewrite (proj2 (list.lookup_seq 0 kNumLevels i i)) by lia. cbn. unfold files_at. destruct (v_files v !! i) eqn:Ei; [reflexivity|].
    apply lookup_ge_None in Ei. pose proof (dh_shape HD). lia.
  - rewrite (lookup_ge_None_2 (v_files v)) by (rewrite (dh_shape HD); lia). rewrite (lookup_ge_None_2 (List.seq 0 kNumLevels)) by (rewrite length_seq; lia). reflexivity.
Qed.

Lemma table_child f : In f (version_files v) -> child_at (inr (inl (table_iterator tc_NewIterator ro heap f))) (fpoints f).
Proof.
  intros Hf. pose proof (dh_files HD f Hf) as HF. split; [exact (fpoints_sorted all_keys _ _ _ _ _ f HF)|].
  destruct (fr_iterator _ _ _ _ _ _ HF) as [p (P & HC & HP)]. exists p. eexists. split.
  - apply (sum_cursor_r (IA := MemTableIteratorOps U)), (sum_cursor_l (IA := TIO)). apply (cursor_narrow (InternalKeyComparator U)); [reflexivity| |exact HC].
    intros k [H1 [H2 _]]. split; assumption.
  - eexists. split; [reflexivity|]. eexists. split; [reflexivity|exact HP].
Qed.

Lemma level_fits level : (length (files_at v level) <= fuel_of db)%nat.
Proof.
  unfold files_at, fuel_of. destruct (v_files v !! level) as [files|] eqn:Ef; [|cbn; lia]. cbn. rewrite <- (take_drop_middle _ _ _ Ef) at 1.
  rewrite concat_app, length_app. cbn. rewrite length_app. lia.
Qed.

Lemma level_at level files : files_at v (S level) = files -> files <> [] -> v_files v !! S level = Some files.
Proof. unfold files_at. destruct (v_files v !! S level); cbn; intros <-; [reflexivity|contradiction]. Qed.

Lemma concat_sorted level files : v_files v !! S level = Some files -> sorted_entries BCmp (concat (map (fun f => fpoints f) files)).
Proof.
  intros Hf. assert (Hin : forall f, In f files -> In f (version_files v)).
  { intros f Hff. apply (version_file (S level)). unfold files_at. rewrite Hf. exact Hff. }
  destruct (dh_levels HD level files Hf) as [HL _]. destruct HL as [HW HS _]. clear Hf.
  split.
  - induction HS as [|f files HS IH HF]; [constructor|]. cbn [map concat]. apply Forall_cons_iff in HW as [Wf HW]. apply StronglySorted_app_iff.
    split; [exact (se_sorted _ _ (fpoints_sorted all_keys _ _ _ _ _ f (dh_files HD f (Hin f (or_introl eq_refl)))))|].
    split; [apply IH; [intros; apply Hin; right; assumption|exact HW]|].
    intros x y Hx Hy. apply in_concat in Hy as (es & Hes & Hy). apply in_map_iff in Hes as (g & <- & Hg).
    apply (points_in _ _ _ _ _ f x (dh_files HD f (Hin f (or_introl eq_refl)))) in Hx as (qx & Hqx & Hrx & ->).
    apply (points_in _ _ _ _ _ g y (dh_files HD g (Hin g (or_intror Hg)))) in Hy as (qy & Hqy & Hry & ->).
    destruct (dh_bounds HD f qx (Hin f (or_introl eq_refl)) Hqx Hrx) as [_ B1]. destruct (dh_bounds HD g qy (Hin g (or_intror Hg)) Hqy Hry) as [B2 _].
    rewrite List.Forall_forall in HF, HW. specialize (HF g Hg). unfold key_lt. cbn [op_entry fst]. change (IKC_Compare U (entry_ikey qx) (entry_ikey qy) < 0).
    assert (De : forall q, @cmp_dom (InternalKeyComparator U) (entry_ikey q)) by (intros q; unfold entry_ikey; split; [rewrite mkInternalKey_length; lia|apply all_keys]).
    apply (cmp_lt_le_trans (C := InternalKeyComparator U) _ (f_smallest (deref heap g)) _ (De qx) (fw_small _ _ (HW g Hg)) (De qy)); [|exact B2].
    apply (cmp_le_lt_trans (C := InternalKeyComparator U) _ (f_largest (deref heap f)) _ (De qx) (fw_large _ _ Wf) (fw_small _ _ (HW g Hg)) B1 HF).
  - apply List.Forall_forall. intros e He. apply in_concat in He as (es & Hes & He). apply in_map_iff in Hes as (f & <- & Hff).
    pose proof (fpoints_sorted all_keys _ _ _ _ _ f (dh_files HD f (Hin f Hff))) as [_ HDm]. rewrite List.Forall_forall in HDm. exact (HDm e He).
Qed.

Lemma concat_child level files : v_files v !! S level = Some files ->
  child_at (inr (inr (NewConcatenatingIterator files))) (concat (map (fun f => fpoints f) files)).
Proof.
  intros Hf. assert (Hin : forall f, In f files -> In f (version_files v)).
  { intros f Hff. apply (version_file (S level)). unfold files_at. rewrite Hf. exact Hff. }
  assert (Hlen : (length files <= fuel_of db)%nat) by (pose proof (level_fits (S level)) as H; unfold files_at in H; rewrite Hf in H; exact H).
  destruct (dh_levels HD level files Hf) as [HL HN]. split; [exact (concat_sorted level files Hf)|].
  destruct (level_child all_keys tc_NewIterator tc_error tc_GetRangeDeletions ro heap file_ops (fuel_of db) files HL HN
    (fun f H => dh_files HD f (Hin f H)) (fun f qo H => dh_bounds HD f qo (Hin f H)) Hlen) as [p (P & HC & HP)].
  exists p. eexists. split; [apply (sum_cursor_r (IA := MemTableIteratorOps U)), (sum_cursor_r (IA := TIO)), HC|].
  eexists. split; [reflexivity|]. eexists. split; [reflexivity|exact HP].
Qed.

(** The entries of the children, one list each. *)

Definition file_lists : list (list entry) :=
  map (fun f => fpoints f) (files_at v 0) ++
  flat_map (fun level => match files_at v level with [] => [] | files => [concat (map (fun f => fpoints f) files)] end)
    (List.seq 1 (kNumLevels - 1)).

Lemma file_children : Forall2 child_at (map inr (Version_AddIterators tc_NewIterator ro heap v)) file_lists.
Proof.
  unfold Version_AddIterators, file_lists. rewrite map_app, map_map. apply Forall2_app.
  - assert (Hin : forall f, In f (files_at v 0) -> In f (version_files v)) by (intros f; apply version_file). clear -Hin HD all_keys UOK US.
    induction (files_at v 0) as [|f files IH]; constructor; [apply table_child, Hin; left; reflexivity|apply IH; intros; apply Hin; right; assumption].
  - assert (Hl : Forall (fun level => (0 < level)%nat) (List.seq 1 (kNumLevels - 1))).
    { apply List.Forall_forall. intros x Hx. apply in_seq in Hx. lia. }
    induction Hl as [|level levels Hl _ IH]; [constructor|]. cbn [flat_map]. rewrite map_app. apply Forall2_app; [|exact IH].
    destruct (files_at v level) as [|f files] eqn:Ef; [constructor|]. constructor; [|constructor]. destruct level as [|level]; [lia|].
    apply (concat_child level), (level_at level _ Ef). discriminate.
Qed.

Lemma file_lists_points : concat file_lists = concat (map (fun f => fpoints f) (version_files v)).
Proof.
  unfold file_lists. rewrite version_files_levels, map_app, !concat_app. f_equal. induction (List.seq 1 (kNumLevels - 1)) as [|level levels IH]; [reflexivity|].
  cbn [flat_map]. rewrite map_cons, concat_cons, map_app, !concat_app, IH. f_equal. destruct (files_at v level); [reflexivity|]. apply app_nil_r.
Qed.

Lemma version_points : concat (map (fun f => fpoints f) (version_files v)) =
  map op_entry (List.filter (fun qo => negb (is_range_op qo)) (version_ops file_ops v)).
Proof.
  unfold version_ops. assert (HF : forall f, In f (version_files v) -> ops_ok (U := U) (file_ops f)) by (intros f Hf; apply (fr_ops _ _ _ _ _ _ (dh_files HD f Hf))).
  induction (version_files v) as [|f files IH]; [reflexivity|]. cbn [map concat]. rewrite filter_app, map_app. f_equal.
  - apply (points_ops (U := U)), HF. left. reflexivity.
  - apply IH. intros g Hg. apply HF. right. exact Hg.
Qed.

Definition point_ops : list (Z * Op) := h_mem ++ h_imm ++ List.filter (fun qo => negb (is_range_op qo)) (version_ops file_ops v).

Lemma imm_child : exists es, Forall2 child_at (match db_imm db with Some imm => [inl (MemTable_NewIterator imm)] | None => [] end)
    (match db_imm db with Some _ => [map op_entry es] | None => [] end) /\ Permutation es h_imm.
Proof.
  pose proof (dh_imm HD) as Hi. destruct (db_imm db) as [m|].
  - destruct (mem_child m h_imm Hi) as (es & Hc & Hp & _). exists es. split; [constructor; [exact Hc|constructor]|exact Hp].
  - cbn in Hi. rewrite Hi. exists []. split; [constructor|reflexivity].
Qed.

Lemma all_ops_range : Forall (fun qo => 0 < fst qo <= kMaxSequenceNumber) all_ops.
Proof.
  unfold all_ops. repeat apply Forall_app_2.
  - exact (hist_seq _ (mh_history _ _ (dh_mem HD))).
  - pose proof (dh_imm HD) as Hi. destruct (db_imm db); [exact (hist_seq _ (mh_history _ _ Hi))|]. cbn in Hi. rewrite Hi. constructor.
  - apply List.Forall_forall. intros qo Hq. apply in_concat in Hq as (ops & Hops & Hq). apply in_map_iff in Hops as (f & <- & Hf).
    pose proof (oo_seq _ (fr_ops _ _ _ _ _ _ (dh_files HD f Hf))) as HS. rewrite List.Forall_forall in HS. exact (HS qo Hq).
Qed.

Lemma point_ops_incl qo : In qo point_ops -> In qo all_ops.
Proof.
  unfold point_ops, all_ops. rewrite !in_app_iff, filter_In. tauto.
Qed.

Lemma point_keys_distinct : NoDup (map fst (map op_entry point_ops)).
Proof.
  apply (NoDup_fmap_1 (fun k => ExtractTag k >> 8)). change (NoDup (map (fun k => ExtractTag k >> 8) (map fst (map op_entry point_ops)))).
  rewrite !map_map. erewrite map_ext_in; [exact (dh_distinct HD)|]. intros qo Hq. cbn [op_entry fst]. apply entry_ikey_seq.
  pose proof all_ops_range as HR. rewrite List.Forall_forall in HR. specialize (HR qo (point_ops_incl qo Hq)). lia.
Qed.

Lemma op_entry_size qo : op_fits (snd qo) -> sz (fst (op_entry qo)) + sz (snd (op_entry qo)) < 2 ^ 63.
Proof. intros [H1 H2]. cbn [op_entry fst snd]. unfold entry_ikey, sz in *. rewrite mkInternalKey_length. lia. Qed.

Lemma all_ops_fit : Forall (fun qo => op_fits (snd qo)) all_ops.
Proof.
  unfold all_ops. repeat apply Forall_app_2.
  - exact (hist_fits _ (mh_history _ _ (dh_mem HD))).
  - pose proof (dh_imm HD) as Hi. destruct (db_imm db); [exact (hist_fits _ (mh_history _ _ Hi))|]. cbn in Hi. rewrite Hi. constructor.
  - apply List.Forall_forall. intros qo Hq. apply in_concat in Hq as (ops & Hops & Hq). apply in_map_iff in Hops as (f & <- & Hf).
    pose proof (fr_fits _ _ _ _ _ _ (dh_files HD f Hf)) as HS. rewrite List.Forall_forall in HS. exact (HS qo Hq).
Qed.

Lemma internal_cursor : exists M (Pos : nat -> MergingIterator _ -> Prop), Permutation M (map op_entry point_ops) /\ entries_ok (U := Bounded U) M /\
  @Cursor _ (InternalOps U tc_NewIterator tc_error ro heap (fuel_of db)) BCmp M Pos /\
  Pos (length M) (Merging_new (internal_children tc_NewIterator ro db)).
Proof.
  destruct (mem_child (db_mem db) h_mem (dh_mem HD)) as (es1 & C1 & P1 & _). destruct imm_child as (es2 & C2 & P2).
  set (imms := match db_imm db with Some _ => [map op_entry es2] | None => [] end) in *.
  set (ess := map op_entry es1 :: imms ++ file_lists).
  assert (HC : Forall2 child_at (internal_children tc_NewIterator ro db) ess).
  { constructor; [exact C1|]. apply Forall2_app; [exact C2|exact file_children]. }
  assert (Himm : concat imms = map op_entry es2).
  { unfold imms. pose proof (dh_imm HD) as Hi. destruct (db_imm db); [cbn; apply app_nil_r|]. cbn in Hi. rewrite Hi in P2. apply Permutation_sym, Permutation_nil in P2.
    rewrite P2. reflexivity. }
  assert (HP : Permutation (concat ess) (map op_entry point_ops)).
  { unfold ess. cbn [concat]. rewrite concat_app, Himm, file_lists_points, version_points. unfold point_ops. rewrite !map_app.
    rewrite P1, P2. reflexivity. }
  assert (Hsorted : forall k es, ess !! k = Some es -> sorted_entries BCmp es).
  { intros k es Hk. destruct (Forall2_lookup_r _ _ _ _ _ HC Hk) as (it & _ & Hs & _). exact Hs. }
  assert (HDm : Forall (fun e => @cmp_dom BCmp (fst e)) (concat ess)).
  { apply List.Forall_forall. intros e He. apply in_concat in He as (es & Hes & He). apply list_elem_of_In, list_elem_of_lookup in Hes as [k Hk].
    destruct (Hsorted k es Hk) as [_ HDm]. rewrite List.Forall_forall in HDm. exact (HDm e He). }
  destruct (merge_exists (C := BCmp) (concat ess)) as (M & HM & HMP).
  { pose proof point_keys_distinct as HN. rewrite <- HP in HN. exact HN. }
  { exact HDm. }
  exists M, (PosM (C := BCmp) ess (fun k => AnyPos BCmp (default [] (ess !! k))) M).
  split; [rewrite HMP; exact HP|]. split; [|split].
  - assert (Hops : forall e, In e M -> exists qo, In qo all_ops /\ e = op_entry qo).
    { intros e He. apply (Permutation_in _ HMP), (Permutation_in _ HP), in_map_iff in He as (qo & <- & Hq). exists qo. split; [apply point_ops_incl, Hq|reflexivity]. }
    pose proof all_ops_range as HR. pose proof all_ops_fit as HF. rewrite List.Forall_forall in HR, HF. split; [exact HM| |].
    + apply List.Forall_forall. intros e He. destruct (Hops e He) as (qo & Hq & ->). cbn [op_entry fst]. unfold entry_ikey.
      specialize (HR qo Hq). rewrite ParseInternalKey_make by lia. discriminate.
    + apply List.Forall_forall. intros e He. destruct (Hops e He) as (qo & Hq & ->). apply op_entry_size, HF, Hq.
  - apply (merging_cursor (C := BCmp)).
    + intros k es Hk. rewrite Hk. cbn. apply AnyPos_cursor.
    + exact Hsorted.
    + exact HM.
    + exact HMP.
  - assert (Hps : forall cs xs, Forall2 child_at cs xs -> exists ps : nat -> nat, forall k it, cs !! k = Some it -> AnyPos BCmp (default [] (xs !! k)) (ps k) it).
    { clear. intros cs xs HC. induction HC as [|c x cs xs [_ [p Hp]] HC [ps Hps]]; [exists (fun _ => O); discriminate|].
      exists (fun k => match k with O => p | S k => ps k end). intros [|k] it Hk; [injection Hk as <-; exact Hp|exact (Hps k it Hk)]. }
    destruct (Hps _ _ HC) as [ps Hps']. apply (merging_new_pos _ _ _ _ ps). split; [eapply List.Forall2_length; exact HC|exact Hps'].
Qed.

(** The tombstones. *)

Lemma file_deletions files : (forall f, In f files -> In f (version_files v)) -> forall rd ops, rd_is rd ops ->
  rd_is (fold_left (fun l f => RDL_MergeInto l (Some (tc_GetRangeDeletions (f_number (deref heap f)) (f_file_size (deref heap f))))) files rd)
    (ops ++ concat (map file_ops files)).
Proof.
  induction files as [|f files IH]; intros Hin rd ops R; cbn [fold_left map concat]; [rewrite app_nil_r; exact R|].
  rewrite app_assoc. apply IH; [intros g Hg; apply Hin; right; exact Hg|]. apply rd_is_app; [exact R|].
  apply (fr_dels _ _ _ _ _ _ (dh_files HD f (Hin f (or_introl eq_refl)))).
Qed.

Lemma range_deletions_ok : rd_is (DB_GetRangeDeletions tc_GetRangeDeletions db []) all_ops.
Proof.
  unfold DB_GetRangeDeletions, all_ops, version_ops. rewrite app_assoc. apply file_deletions; [auto|].
  destruct (mem_child (db_mem db) h_mem (dh_mem HD)) as (_ & _ & _ & R1).
  pose proof (dh_imm HD) as Hi. destruct (db_imm db) as [m|].
  - destruct (mem_child m h_imm Hi) as (_ & _ & _ & R2). exact (rd_is_app _ _ _ _ R1 R2).
  - cbn in Hi. rewrite Hi, app_nil_r. exact R1.
Qed.

End Internal.

(** ** The loop of [Scan] *)

(** The pairs in front that are below a key. *)

Fixpoint below (end_key : bytes) (l : list entry) : list entry :=
  match l with
  | [] => []
  | kv :: l => if lex (fst kv) end_key <? 0 then kv :: below end_key l else []
  end.

Lemma drop_cons {A} (l : list A) m : (m < length l)%nat -> exists x, l !! m = Some x /\ drop m l = x :: drop (S m) l.
Proof.
  intros Hm. destruct (lookup_lt_is_Some_2 l m Hm) as [x Hx]. exists x. split; [exact Hx|]. exact (drop_S l x m Hx).
Qed.

Section Loop.
Context {U : Comparator} {UOK : ComparatorOk U} {US : ComparatorShort U}.
Context {E W TI : Type} (IO : Iterator (MergingIterator (MemTableIterator + (TI + TwoLevelIterator (LevelFileNumIterator nat) TI)))).
Context (rd : RangeDeletionList) (s : Z) (es : list entry) (fuel : nat).
Context (HE : entries_ok (U := Bounded U) es) (Pos : nat -> MergingIterator (MemTableIterator + (TI + TwoLevelIterator (LevelFileNumIterator nat) TI)) -> Prop).
Context (HC : @Cursor _ IO (InternalKeyComparator (Bounded U)) es Pos) (Hf : (length es < fuel)%nat).

#[local] Abbreviation view := (user_view (U := Bounded U) rd s es).

Lemma Scan_loop_ok end_key n : forall m (st : @DBIter _ (@DBImpl E W)) acc, DPos (U := Bounded U) rd s es Pos m st -> (length view - m < n)%nat ->
  exists st', Scan_loop U IO rd s fuel n end_key st acc = Some (st', acc ++ below end_key (drop m view)) /\ DI_status st' = OK.
Proof.
  assert (Hlen : length view = length (view_index (U := Bounded U) rd s es)) by apply length_map.
  induction n as [|n IH]; intros m st acc HD Hn; [lia|]. cbn [Scan_loop]. rewrite Slice_compare_lex.
  destruct (DPos_observe rd s es HE Pos HC m st HD) as (V1 & -> & V3 & V4). rewrite <- Hlen in *.
  destruct (Nat.ltb_spec m (length view)) as [Hm|Hm]; cbn [andb].
  - destruct (drop_cons view m Hm) as ([k v] & Hk & ->). destruct (V4 k v Hk) as [-> ->]. cbn [below fst].
    destruct (lex k end_key <? 0); [|exists st; split; [rewrite app_nil_r; reflexivity|exact V3]].
    rewrite Hlen in Hm. destruct (Next_ok rd s es HE (DB_RecordReadSample U) Pos HC m st fuel HD Hm Hf) as (st1 & EN & HD1).
    change (DI_Next U (DB_RecordReadSample U) rd s fuel st = Some st1) in EN. rewrite EN.
    destruct (IH (S m) st1 (acc ++ [(k, v)]) HD1 ltac:(lia)) as (st' & -> & HS). exists st'. split; [|exact HS].
    rewrite <- app_assoc. reflexivity.
  - rewrite drop_ge by lia. exists st. split; [cbn; rewrite app_nil_r; reflexivity|exact V3].
Qed.

End Loop.

Section Range.
#[local] Abbreviation U := BytewiseComparator.
#[local] Abbreviation BU := (Bounded BytewiseComparator).

Lemma below_in end_key l kv : sorted_entries BU l -> In kv (below end_key l) <-> In kv l /\ lex (fst kv) end_key < 0.
Proof.
  intros [HS _]. induction HS as [|x l HS IH HF]; cbn [below In]; [tauto|].
  destruct (Z.ltb_spec (lex (fst x) end_key) 0) as [Hx|Hx]; cbn [In].
  - rewrite IH. split; [intros [<-|[H1 H2]]; auto|intros [[<-|H1] H2]; auto].
  - split; [contradiction|]. intros [[<-|H1] H2]; [lia|]. exfalso.
    rewrite List.Forall_forall in HF. specialize (HF kv H1). unfold key_lt in HF. cbn in HF. rewrite Slice_compare_lex in HF.
    pose proof (lex_trans _ _ _ HF H2). lia.
Qed.

Lemma below_sorted end_key l : StronglySorted (key_lt BU) l -> StronglySorted (key_lt BU) (below end_key l).
Proof.
  induction 1 as [|x l HS IH HF]; cbn [below]; [constructor|]. destruct (_ <? 0); [|constructor]. constructor; [exact IH|].
  rewrite List.Forall_forall in HF |- *. intros y Hy. apply HF. clear -Hy. induction l as [|z l IH]; [contradiction|].
  cbn [below] in Hy. destruct (_ <? 0); [|contradiction]. destruct Hy as [<-|Hy]; [left; reflexivity|right; apply IH, Hy].
Qed.

Lemma drop_sorted n l : StronglySorted (key_lt BU) l -> StronglySorted (key_lt BU) (drop n l).
Proof. intros HS. revert n. induction HS as [|x l HS IH HF]; intros [|n]; cbn; try constructor; auto. Qed.

Lemma drop_in start_key l kv : sorted_entries BU l -> @cmp_dom BU start_key ->
  In kv (drop (lower_bound BU l start_key) l) <-> In kv l /\ lex start_key (fst kv) <= 0.
Proof.
  intros HS Hd. rewrite <- !list_elem_of_In, !list_elem_of_lookup. split.
  - intros [i Hi]. rewrite lookup_drop in Hi. split; [eauto|].
    pose proof (lower_bound_after (C := BU) l start_key _ kv HS Hd (Nat.le_add_r _ _) Hi) as H. cbn in H. rewrite Slice_compare_lex in H. rewrite lex_opp. lia.
  - intros [[i Hi] Hk]. destruct (decide (i < lower_bound BU l start_key)%nat) as [Hl|Hl].
    + pose proof (lower_bound_before (C := BU) l start_key i kv Hl Hi) as H. cbn in H. rewrite Slice_compare_lex in H. rewrite lex_opp in Hk. lia.
    + exists (i - lower_bound BU l start_key)%nat. rewrite lookup_drop, <- Hi. f_equal. lia.
Qed.

(** The pairs of a sorted list between two keys. *)

Lemma range_in start_key end_key l kv : sorted_entries BU l -> @cmp_dom BU start_key ->
  In kv (below end_key (drop (lower_bound BU l start_key) l)) <-> In kv l /\ lex start_key (fst kv) <= 0 /\ lex (fst kv) end_key < 0.
Proof.
  intros HS Hd. rewrite below_in, drop_in; [tauto|assumption|assumption|].
  destruct HS as [HS HF]. split; [apply drop_sorted, HS|apply Forall_drop, HF].
Qed.

End Range.

Section Result.
#[local] Abbreviation U := BytewiseComparator.
#[local] Abbreviation BU := (Bounded BytewiseComparator).
Context {E W TI : Type} {TIO : Iterator TI} (tc_NewIterator : ReadOptions -> Z -> Z -> TI) (tc_error : Status -> TI)
  (tc_GetRangeDeletions : Z -> Z -> RangeDeletionList).
Context (ro : ReadOptions) (file_ops : nat -> list (Z * Op)) (db : @DBImpl E W) (h_mem h_imm : list (Z * Op)).
Context (HD : db_holds (U := U) tc_NewIterator tc_GetRangeDeletions ro file_ops db h_mem h_imm).

#[local] Abbreviation ops := (all_ops file_ops db h_mem h_imm).

Lemma ref_current_view (d : @DBImpl E W) seed : DB_GetRangeDeletions tc_GetRangeDeletions (with_seed (ref_current d) seed) [] =
  DB_GetRangeDeletions tc_GetRangeDeletions d [].
Proof.
  unfold DB_GetRangeDeletions, ref_current. destruct (vs_current (db_versions d)) as [id|] eqn:Ec; [|reflexivity].
  cbn [db_mem db_imm db_versions with_seed with_vs]. unfold current. cbn [vs_current vs_heap Version_Ref with_versions]. rewrite Ec.
  assert (EC : option_map vc_version (cell_of (Version_Ref (db_versions d) id) id) = option_map vc_version (cell_of (db_versions d) id)).
  { unfold cell_of. cbn [vs_versions Version_Ref with_versions]. induction (vs_versions (db_versions d)) as [|c cs IH]; [reflexivity|].
    cbn [map find]. destruct (vc_id c =? id)%nat eqn:Ei; cbn [vc_id vc_version]; rewrite Ei; [reflexivity|exact IH]. }
  destruct (cell_of (Version_Ref (db_versions d) id) id), (cell_of (db_versions d) id); cbn in EC; congruence.
Qed.

Lemma Seek_bounded {It D} (IT : Iterator It) (R : D -> bytes -> D) rd s fuel t st : DI_Seek BU R rd s fuel t st = DI_Seek U R rd s fuel t st.
Proof. reflexivity. Qed.

Lemma view_length (V : Comparator) rd s es : (length (user_view (U := V) rd s es) <= length es)%nat.
Proof.
  unfold user_view, view_index. rewrite length_map. etransitivity; [apply filter_length_le|]. rewrite length_seq. lia.
Qed.

Lemma point_ops_length : (length (point_ops file_ops db h_mem h_imm) <= length ops)%nat.
Proof. unfold point_ops, all_ops. rewrite !length_app. pose proof (filter_length_le (fun qo => negb (is_range_op qo)) (version_ops file_ops (current (db_versions db)))). lia. Qed.

Lemma scan_view snapshot start_key end_key n fuel : let s := read_sequence snapshot db in
  ShouldWaitFullCompaction db = false -> lex start_key end_key < 0 -> 0 <= s <= kMaxSequenceNumber -> sz start_key + 8 < 2 ^ 32 ->
  (length ops < fuel)%nat -> (length ops < n)%nat ->
  exists view db', sorted_entries BU view /\ (forall k v, In (k, v) view <-> Answer ops k s (Some (Some v))) /\
    Scan U tc_NewIterator tc_error tc_GetRangeDeletions n fuel ro snapshot start_key end_key db =
      Some (OK, below end_key (drop (lower_bound BU view start_key) view), db').
Proof.
  intros s Hw Hlex Hs Hk Hf Hn. pose proof point_ops_length as Hpl.
  destruct (internal_cursor (U := U) (fun _ => I) tc_NewIterator tc_error tc_GetRangeDeletions ro file_ops db h_mem h_imm HD) as (M & Pos & HP & HE & HC & H0).
  set (rd := DB_GetRangeDeletions tc_GetRangeDeletions db []).
  assert (Hrd : rd_is rd ops) by exact (range_deletions_ok (U := U) (fun _ => I) tc_NewIterator tc_error tc_GetRangeDeletions ro file_ops db h_mem h_imm HD).
  assert (HM : length M = length (point_ops file_ops db h_mem h_imm)) by (rewrite (Permutation_length HP); apply length_map).
  pose proof (view_length BU rd s M) as HV. exists (user_view (U := BU) rd s M).
  assert (Hrange : Forall (fun qo => 0 <= fst qo <= kMaxSequenceNumber) ops).
  { pose proof (all_ops_range (U := U) tc_NewIterator tc_GetRangeDeletions ro file_ops db h_mem h_imm HD) as HA. rewrite List.Forall_forall in HA |- *. intros qo Hq. specialize (HA qo Hq). lia. }
  assert (Hfrom : forall e, In e M -> exists qo, In qo ops /\ e = op_entry qo).
  { intros e He. apply (Permutation_in _ HP), in_map_iff in He as (qo & <- & Hq). exists qo. split; [apply point_ops_incl, Hq|reflexivity]. }
  assert (Hto : forall qo, In qo ops -> is_range_op qo = false -> In (op_entry qo) M).
  { intros qo Hq Hr. apply (Permutation_in _ (Permutation_sym HP)), in_map. revert Hq. unfold all_ops, point_ops. rewrite !in_app_iff, filter_In, Hr. tauto. }
  assert (HDP : DPos (U := BU) rd s M Pos (length (view_index (U := BU) rd s M))
    (DBIter_new (with_seed (ref_current db) (u32 (db_seed db + 1))) (Merging_new (internal_children tc_NewIterator ro db)) (u32 (db_seed db + 1))))
    by exact (DPos_new rd s M Pos _ _ _ _ H0).
  destruct (Seek_ok rd s M HE (DB_RecordReadSample U) Pos HC Hs _ _ start_key fuel HDP (conj I Hk) ltac:(lia)) as (st1 & E1 & HD1).
  rewrite Seek_bounded in E1.
  destruct (Scan_loop_ok _ rd s M fuel HE Pos HC ltac:(lia) end_key n _ st1 [] HD1 ltac:(lia)) as (st2 & E2 & HS2).
  eexists. split; [exact (view_sorted rd s M HE)|]. split; [exact (view_history rd s M ops HE Hrd Hrange Hfrom Hto)|].
  unfold Scan. rewrite Hw, Slice_compare_lex, (proj2 (Z.leb_gt 0 _)) by lia. unfold NewIterator. rewrite Hw. cbn [NewInternalIterator].
  cbv zeta beta iota. rewrite ref_current_view. fold rd. change (match snapshot with Some s => s | None => vs_last_sequence (db_versions db) end) with s.
  rewrite E1, E2, HS2. reflexivity.
Qed.

End Result.

(** ** Property *)


(** The database of DbReadOk.v, with list iterators for its files. *)

#[local] Instance scan_iter_ops : Iterator ListIter := ListIterOps (InternalKeyComparator BytewiseComparator).

Definition scan_iter (ro : ReadOptions) (number size : Z) : ListIter := mkListIter (points (map op_entry (demo_ops number))) 0.

Definition scan_dels (number size : Z) : RangeDeletionList := if number =? 9 then [mkRangeDel (str "a") (str "c") 8] else [].

Definition scan_ops : list (Z * Op) :=
  [(11, OpPut (str "m") (str "9"))] ++ [(10, OpDelete (str "x"))] ++ version_ops get_ops get_version.

Example scan_answers :
  let scan a b s := option_map fst (Scan BytewiseComparator scan_iter (fun _ => mkListIter [] 0) scan_dels 20 20 (mkReadOptions true true) s a b get_db) in
  scan (str "a") (str "z") None = Some (OK, [(str "d", str "4"); (str "m", str "9")]) /\
  scan (str "a") (str "z") (Some 7) = Some (OK, [(str "b", str "1"); (str "m", str "2"); (str "x", str "5")]) /\
  scan (str "c") (str "d") None = Some (OK, []).
Proof. vm_compute. repeat split. Qed.

Lemma scan_holds : db_holds (U := BytewiseComparator) scan_iter scan_dels (mkReadOptions true true) get_ops get_db
  [(11, OpPut (str "m") (str "9"))] [(10, OpDelete (str "x"))].
Proof.
  pose proof get_files_wf as HW. split.
  - split; [vm_compute; reflexivity|apply single_history; [vm_compute; split; [reflexivity|discriminate]|split; reflexivity]].
  - split; [vm_compute; reflexivity|apply single_history; [vm_compute; split; [reflexivity|discriminate]|split; reflexivity]].
  - reflexivity.
  - intros f Hf. split.
    + exact (proj1 (vw_ops _ _ _ _ HW f Hf)).
    + cbn in Hf. demo_in Hf; repeat constructor.
    + exists 0%nat. eexists. split; [apply list_cursor|]. split; [reflexivity|cbn; lia].
    + intros u q s. cbn in Hf. demo_in Hf; try reflexivity. apply RDL_IsDeleted_existsb.
    + cbn in Hf. demo_in Hf; vm_compute; repeat split; discriminate.
  - intros level files Hl. split; [apply HW in Hl; exact Hl|]. destruct level as [|[|[|[|[|[|level]]]]]]; try discriminate Hl; injection Hl as <-; repeat constructor.
    all: cbn; rewrite ?list_elem_of_singleton; try discriminate; inversion 1.
  - intros f qo Hf Hq Hr. exact (vw_bounds _ _ _ _ HW f qo Hf Hq Hr).
  - vm_compute. repeat constructor; rewrite ?list_elem_of_In; cbn; intuition discriminate.
Qed.

