(* ===== verification/DbFlush.v ===== *)
(** * Writing a memtable to a table file (db/builder.cc, db/db_impl.cc)

    [BuildTable], [WriteLevel0Table], [CompactMemTable] and the removal of files
    that nothing refers to.  A writable file holds what was appended to it; when
    the file object is deleted ([de_close]) the environment has the file with
    these contents.  The table cache is seen through the iterators that it hands
    out for the files of the environment, so that the eviction of removed files
    from it does not show here.  [WriteLevel0Table] releases the mutex
    while the table is built; the definitions that stand for the whole of it are
    those of a thread that nobody interferes with.  Statistics and messages are
    left out. *)

From S2P Require Import Prelude Coding Compare DbFormat Logging FileName SkipList Arena MemTable WriteBatch Crc32c Env Log Filter Iterator Block Format TableBuilder Table VersionEdit Version Compaction VersionSet MemIter DbImpl.
#[local] Open Scope Z_scope.
#[local] Open Scope ldb_scope.

(** What the database uses of the environment beyond the version set. *)

Record DbEnvOps {E W : Type} := mkDbEnvOps {
  de_close : E -> bytes -> W -> E;
  de_GetChildren : E -> bytes -> Status * list bytes;
  de_FileExists : E -> bytes -> bool;
  de_CreateDir : E -> bytes -> E;
  de_LockFile : E -> bytes -> E * Status
}.

Arguments DbEnvOps : clear implicits.

(** A file object is open, with its name, or there is none. *)

Section Flush.
Context (U : Comparator) (K : Compression) (options : Options) (comparator_name : bytes) (max_file_size : Z) (dbname : bytes).
Context {E W S : Type} {WF : WritableFile W} {SF : SequentialFile S} (env : @EnvOps E W S) (denv : DbEnvOps E W).
Context {TI : Type} {TIO : Iterator TI} (tc_NewIterator : E -> ReadOptions -> Z -> Z -> TI).

#[local] Abbreviation ICmp := (InternalKeyComparator U).

(** ** [BuildTable] *)

Definition default_read_options : ReadOptions := mkReadOptions false true.

(** The loop: the iterator at its end, the builder and the last key. *)

Fixpoint BuildTable_loop {It} `{Iterator It} (fuel : nat) (iter : It) (builder : Rep W) (key : bytes) : option (It * Rep W * bytes) :=
  match fuel with
  | O => None
  | Datatypes.S fuel =>
      if iValid iter then
        let key := iKey iter in
        BuildTable_loop fuel (iNext iter) (TB_Add ICmp K builder key (iValue iter)) key
      else Some (iter, builder, key)
  end.

Definition set_bounds (meta : FileMetaData) (smallest largest : bytes) : FileMetaData :=
  mkFile (f_refs meta) (f_allowed_seeks meta) (f_number meta) (f_file_size meta) smallest largest.

Definition set_size (meta : FileMetaData) (size : Z) : FileMetaData :=
  mkFile (f_refs meta) (f_allowed_seeks meta) (f_number meta) size (f_smallest meta) (f_largest meta).

(** Sync and Close, as long as the status is OK. *)

Definition sync_and_close (s : Status) (file : W) : Status * W :=
  let '(s, file) := if ok s then wf_Sync file else (s, file) in
  if ok s then wf_Close file else (s, file).

(** The end of [BuildTable]: errors of the input, and a useless file is removed. *)

Definition BuildTable_end {It} `{Iterator It} (fname : bytes) (iter : It) (s : Status) (meta : FileMetaData) (e : E) : Status * FileMetaData * E :=
  let s := if negb (ok (iStatus iter)) then iStatus iter else s in
  (s, meta, if ok s && (0 <? f_file_size meta) then e else env_RemoveFile env e fname).

Definition BuildTable {It} `{Iterator It} (fuel : nat) (iter : It) (meta : FileMetaData) (e : E) : option (Status * FileMetaData * E) :=
  let meta := set_size meta 0 in
  let iter := iSeekToFirst iter in
  let fname := TableFileName dbname (f_number meta) in
  if iValid iter then
    match env_NewWritableFile env e fname with
    | (e, (s, Some file)) =>
        if ok s then
          let meta := set_bounds meta (iKey iter) (f_largest meta) in
          match BuildTable_loop fuel iter (TableBuilder_new options file) [] with
          | None => None
          | Some (iter, builder, key) =>
              let meta := match key with [] => meta | _ => set_bounds meta (f_smallest meta) key end in
              let '(s, builder) := TB_Finish ICmp K builder in
              let meta := if ok s then set_size meta (FileSize builder) else meta in
              let '(s, file) := sync_and_close s (r_file builder) in
              let e := de_close denv e fname file in
              let s := if ok s then iStatus (tc_NewIterator e default_read_options (f_number meta) (f_file_size meta)) else s in
              Some (BuildTable_end fname iter s meta e)
          end
        else Some (s, meta, e)
    | (e, (s, None)) => Some (s, meta, e)
    end
  else Some (BuildTable_end fname iter OK meta e).

(** ** [RemoveObsoleteFiles] *)

Definition keep_file (vs : @VersionSet E W) (live : gset Z) (number : Z) (type : FileType) : bool :=
  match type with
  | kLogFile => (vs_log_number vs <=? number) || (number =? vs_prev_log_number vs)
  | kDescriptorFile => vs_manifest_file_number vs <=? number
  | kTableFile | kTempFile => bool_decide (number ∈ live)
  | kCurrentFile | kDBLockFile | kInfoLogFile => true
  end.

Definition files_to_delete (vs : @VersionSet E W) (live : gset Z) (filenames : list bytes) : list bytes :=
  List.filter (fun f => match ParseFileName f with Some (number, type) => negb (keep_file vs live number type) | None => false end) filenames.

Definition with_env (db : @DBImpl E W) (e : E) : DBImpl := with_vs db (with_descriptor (db_versions db) e (vs_descriptor_log (db_versions db))).

Definition db_env (db : @DBImpl E W) : E := vs_env (db_versions db).

Definition RemoveObsoleteFiles (db : @DBImpl E W) : DBImpl :=
  if negb (ok (db_bg_error db)) then db
  else
    let live := AddLiveFiles (db_versions db) (db_pending_outputs db) in
    let '(_, filenames) := de_GetChildren denv (db_env db) dbname in
    with_env db (fold_left (fun e f => env_RemoveFile env e (dbname ++ str "/" ++ f))
      (files_to_delete (db_versions db) live filenames) (db_env db)).

(** ** [WriteLevel0Table] *)

(** Stretching the bounds over the tombstones. *)

Definition stretch_bounds (meta : FileMetaData) (del : RangeDeletion) : FileMetaData :=
  let meta :=
    if match f_smallest meta with [] => true | _ => @cmp U (start_key del) (ExtractUserKey (f_smallest meta)) <? 0 end
    then set_bounds meta (mkInternalKey (start_key del) (seq del) kTypeRangeDeletion) (f_largest meta) else meta in
  if match f_largest meta with [] => true | _ => 0 <? @cmp U (end_key del) (ExtractUserKey (f_largest meta)) end
  then set_bounds meta (f_smallest meta) (mkInternalKey (end_key del) 0 kTypeDeletion) else meta.

Definition with_pending (db : @DBImpl E W) (pending : gset Z) : DBImpl := with_snapshots db (db_snapshots db) pending.

(** The versions and the numbers of the pending outputs, which is what
    [WriteLevel0Table] changes of the database.  Before the mutex is released: a
    file number, protected from removal. *)

#[local] Abbreviation Tables := (@VersionSet E W * gset Z)%type.

Definition vs_with_env (vs : @VersionSet E W) (e : E) : VersionSet := with_descriptor vs e (vs_descriptor_log vs).

Definition WriteLevel0Table_begin (t : Tables) : FileMetaData * Tables :=
  let '(vs, pending) := t in
  let '(number, vs) := NewFileNumber vs in
  (mkFile 0 (1 << 30) number 0 [] [], (vs, {[number]} ∪ pending)).

(** After the table was built: the edit gets the file. *)

Definition WriteLevel0Table_end (mem : MemTable) (edit : VersionEdit) (base : option (Version nat)) (s : Status) (meta : FileMetaData)
    (t : Tables) : option (Status * VersionEdit * Tables) :=
  let '(vs, pending) := t in
  let t := (vs, pending ∖ {[f_number meta]}) in
  if ok s && (0 <? f_file_size meta) then
    let meta := fold_left stretch_bounds (range_deletions mem) meta in
    match match base with
          | Some v => PickLevelForMemTableOutput U (deref (vs_heap vs)) max_file_size v
                        (ExtractUserKey (f_smallest meta)) (ExtractUserKey (f_largest meta))
          | None => Some O
          end with
    | None => None
    | Some level => Some (s, AddFile (Z.of_nat level) (f_number meta) (f_file_size meta) (f_smallest meta) (f_largest meta) edit, t)
    end
  else Some (s, edit, t).

Definition WriteLevel0Table (fuel : nat) (mem : MemTable) (edit : VersionEdit) (base : option (Version nat)) (t : Tables)
  : option (Status * VersionEdit * Tables) :=
  let '(meta, (vs, pending)) := WriteLevel0Table_begin t in
  match BuildTable (H := MemTableIteratorOps U) fuel (MemTable_NewIterator mem) meta (vs_env vs) with
  | None => None
  | Some (s, meta, e) => WriteLevel0Table_end mem edit base s meta (vs_with_env vs e, pending)
  end.

(** ** [CompactMemTable]: nothing happens without an immutable memtable *)

Definition ref_version (db : @DBImpl E W) (version : option nat) : DBImpl :=
  match version with Some id => with_vs db (Version_Ref (db_versions db) id) | None => db end.

Definition release_version (db : @DBImpl E W) (version : option nat) : DBImpl :=
  match version with Some id => with_vs db (Version_Unref (db_versions db) id) | None => db end.

Definition CompactMemTable (fuel : nat) (db : @DBImpl E W) : option DBImpl :=
  match db_imm db with
  | None => Some db
  | Some imm =>
      let base := vs_current (db_versions db) in
      let v := current (db_versions db) in
      let db := ref_version db base in
      match WriteLevel0Table fuel imm VE_Clear (Some v) (db_versions db, db_pending_outputs db) with
      | None => None
      | Some (s, edit, (vs, pending)) =>
          let db := release_version (with_pending (with_vs db vs) pending) base in
          let s := if ok s && db_shutting_down db then IOError (str "Deleting DB during memtable compaction") [] else s in
          match
            if ok s then
              let edit := SetLogNumber (db_logfile_number db) (SetPrevLogNumber 0 edit) in
              option_map (fun r => (fst (fst r), with_vs db (snd r))) (LogAndApply U comparator_name dbname env (db_versions db) edit)
            else Some (s, db)
          with
          | None => None
          | Some (s, db) =>
              Some (if ok s then RemoveObsoleteFiles (with_memtables db (db_mem db) None) else RecordBackgroundError s db)
          end
      end
  end.

End Flush.
