(* ===== verification/DbFlushOk.v ===== *)
(** * A flushed memtable reads back (db/builder.cc, db/db_impl.cc)

    The table file that [WriteLevel0Table] makes of a memtable holds the
    operations of the memtable: opening it and looking up any key gives what
    the history prescribes, and the bounds recorded for it in the edit enclose
    all its entries and the ranges of its tombstones. *)

From Stdlib Require Import Permutation.
From S2P Require Import Prelude Cache CacheOk TableCache Coding Compare DbFormat Logging FileName SkipList Arena MemTable WriteBatch Crc32c Env Log Filter Iterator Block TwoLevel Format TableBuilder Table VersionEdit Version VersionGet Compaction VersionSet MemIter DbImpl DbReadOk DbScan DbFlush.
#[local] Open Scope Z_scope.
#[local] Open Scope ldb_scope.

Section Build.
Context {U : Comparator} {UOK : ComparatorOk U} {US : ComparatorShort U}.
Context (K : Compression) {W : Type} {WF : WritableFile W}.

#[local] Abbreviation ICmp := (InternalKeyComparator U).

Definition last_key_of (es : list entry) (d : bytes) : bytes := default d (fst <$> list.last es).

Lemma last_key_of_cons k v es d : last_key_of ((k, v) :: es) d = last_key_of es k.
Proof.
  unfold last_key_of. destruct es as [|e es]; [reflexivity|]. rewrite last_cons_cons.
  destruct (list.last (e :: es)) eqn:El; [reflexivity|]. apply last_None in El. discriminate.
Qed.

(** The loop adds the entries from the position on. *)

Lemma BuildTable_loop_ok {It} `{Iterator It} (C : Comparator) es Pos (HC : Cursor C es Pos) fuel : forall i iter (r : Rep W) key,
  Pos i iter -> (i <= length es)%nat -> (length es - i < fuel)%nat ->
  exists iter', BuildTable_loop U K fuel iter r key = Some (iter', TB_AddAll (C := ICmp) (K := K) r (drop i es), last_key_of (drop i es) key) /\
    Pos (length es) iter'.
Proof.
  induction fuel as [|fuel IH]; intros i iter r key HP Hi Hf; [lia|]. cbn [BuildTable_loop]. rewrite (cur_valid _ _ _ HC _ _ HP).
  destruct (Nat.ltb_spec i (length es)) as [Hlt|Hge].
  - destruct (lookup_lt_is_Some_2 es i Hlt) as [[k v] Hk]. destruct (cur_entry _ _ _ HC i iter k v HP Hk) as [-> ->].
    pose proof (cur_next _ _ _ HC i iter HP Hlt) as HP'.
    destruct (IH (S i) (iNext iter) (TB_Add ICmp K r k v) k HP' ltac:(lia) ltac:(lia)) as (iter' & E & HE). exists iter'.
    split; [|exact HE]. rewrite E, (drop_S _ _ _ Hk), last_key_of_cons. reflexivity.
  - assert (i = length es) as -> by lia. rewrite drop_all. exists iter. split; [reflexivity|exact HP].
Qed.

End Build.

(** ** A file system without errors, as the writers of files see it *)

Class FileStore {E W Q : Type} {WF : WritableFile W} {RW : ReliableWritable W} (env : @EnvOps E W Q) (denv : DbEnvOps E W) := {
  fs_look : E -> bytes -> option bytes;
  fs_create : forall e name, exists e1 f, env_NewWritableFile env e name = (e1, (OK, Some f)) /\ wf_inv f /\ wf_contents f = [] /\
    forall other, other <> name -> fs_look e1 other = fs_look e other;
  fs_close : forall f, wf_inv f -> exists f', wf_Close f = (OK, f') /\ wf_inv f' /\ wf_contents f' = wf_contents f;
  fs_put : forall e name f, wf_inv f -> fs_look (de_close denv e name f) name = Some (wf_contents f);
  fs_put_ne : forall e name f other, other <> name -> fs_look (de_close denv e name f) other = fs_look e other
}.

Lemma TableFileName_inj dbname n m : 0 <= n < 2 ^ 64 -> 0 <= m < 2 ^ 64 -> TableFileName dbname n = TableFileName dbname m -> n = m.
Proof.
  intros Hn Hm E.
  assert (HN : forall k, 0 <= k < 2 ^ 64 -> exists b, TableFileName dbname k = dbname ++ str "/" ++ b /\ ParseFileName b = Some (k, kTableFile)).
  { intros k Hk. destruct (filename_roundtrip dbname k Hk) as [HR _]. rewrite List.Forall_forall in HR. apply (HR (TableFileName dbname k, kTableFile)). cbn. auto. }
  destruct (HN n Hn) as (b & E1 & P1). destruct (HN m Hm) as (b' & E2 & P2). rewrite E1, E2 in E. apply app_inv_head, app_inv_head in E. subst b'. congruence.
Qed.

(** ** Opening what was written

    The bytes of a table that the builder made of sorted entries, and a table
    cache that opens a file that holds such bytes, asked with the size of the
    file.  Of other files, or other sizes, nothing is asked. *)

Section Opening.
Context {U : Comparator} {UOK : ComparatorOk U} {K : Compression} {KOK : CompressionOk K} (options : Options) (dbname : bytes).
Context {E W Q : Type} {WF : WritableFile W} {RW : ReliableWritable W} (env : @EnvOps E W Q) (denv : DbEnvOps E W) {FS : FileStore env denv}.

#[local] Abbreviation ICmp := (InternalKeyComparator U).

Definition table_image (c : bytes) : Prop :=
  exists (wfile : W) es, TableInput ICmp options es /\ wf_inv wfile /\ wf_contents wfile = [] /\ c = wf_contents (r_file (snd (build_table ICmp K options wfile es))) /\ sz c < 2 ^ 32.

Definition opens_tables {TI : Type} {TIO : Iterator TI} (tc_NewIterator : E -> ReadOptions -> Z -> Z -> TI) : Prop :=
  forall e n c, 0 <= n < 2 ^ 64 -> fs_look e (TableFileName dbname n) = Some c -> table_image c -> iStatus (tc_NewIterator e default_read_options n (sz c)) = OK.

(** The table cache of TableCache.v does: here on a store, with a cache that is
    empty at each call and no block cache. *)

Context (scratch : bool).

Definition OpenedIter : Type := Status + Table FileState * ReadOptions * TwoLevelIterator BlockNewIter BlockNewIter.

Definition on_opened (f : Table FileState -> ReadOptions -> TwoLevelIterator BlockNewIter BlockNewIter -> TwoLevelIterator BlockNewIter BlockNewIter) (it : OpenedIter) : OpenedIter :=
  match it with inl s => inl s | inr (tb, ro, it) => inr (tb, ro, f tb ro it) end.

Definition of_opened {A} (f : Table FileState -> ReadOptions -> TwoLevelIterator BlockNewIter BlockNewIter -> A) (d : Status -> A) (it : OpenedIter) : A :=
  match it with inl s => d s | inr (tb, ro, it) => f tb ro it end.

#[local] Abbreviation Ops tb ro := (TableIteratorOps K scratch ICmp None tb ro).

#[export] Instance OpenedIterOps : Iterator OpenedIter := {
  iValid := of_opened (fun tb ro => @iValid _ (Ops tb ro)) (fun _ => false);
  iSeekToFirst := on_opened (fun tb ro => @iSeekToFirst _ (Ops tb ro));
  iSeekToLast := on_opened (fun tb ro => @iSeekToLast _ (Ops tb ro));
  iSeek it t := on_opened (fun tb ro it => @iSeek _ (Ops tb ro) it t) it;
  iNext := on_opened (fun tb ro => @iNext _ (Ops tb ro));
  iPrev := on_opened (fun tb ro => @iPrev _ (Ops tb ro));
  iKey := of_opened (fun tb ro => @iKey _ (Ops tb ro)) (fun _ => []);
  iValue := of_opened (fun tb ro => @iValue _ (Ops tb ro)) (fun _ => []);
  iStatus := of_opened (fun tb ro => @iStatus _ (Ops tb ro)) (fun s => s)
}.

Definition store_open (look : bytes -> option bytes) (name : bytes) : Status * option FileState :=
  match look name with Some c => (OK, Some (snd (FS_Append FileState_new c))) | None => (NotFound name [], None) end.

Definition opening_cache (look : E -> bytes -> option bytes) (e : E) (ro : ReadOptions) (number size : Z) : OpenedIter :=
  match TC_NewIterator K scratch options dbname (store_open (look e)) (TableCache_new 990 None) number size with
  | Some (inr (tb, it, _), _) => inr (tb, ro, it)
  | Some (inl s, _) => inl s
  | None => inl (Corruption [] [])
  end.

Hypothesis Hpolicy : forall P, opt_filter_policy options = Some P -> exists UP, P = InternalFilterPolicy UP /\ FilterPolicyOk UP.

Lemma opening_opens : opens_tables (opening_cache fs_look).
Proof.
  intros e n c Hn Hl (wfile & es & Hin & Hw & Hw0 & Ec & Hsz). set (file := snd (FS_Append FileState_new c)).
  assert (HF : FSInv file /\ FS_contents file = c) by (apply (FS_Append_loop_ok (S (length c)) FileState_new c FSInv_new); lia).
  assert (HT : table_file (U := U) (K := K) (W := W) options dbname (store_open (fs_look e)) n (sz c) es file).
  { split; [exact Hn|unfold store_open; rewrite Hl; reflexivity| |].
    - exists wfile. split; [exact Hin|split; assumption|rewrite <- Ec; exact Hsz|]. split; [apply HF|]. change (FS_contents file = wf_contents (r_file (snd (build_table ICmp K options wfile es)))). rewrite <- Ec. apply HF.
    - change (sz c = sz (FS_contents file)). rewrite (proj2 HF). reflexivity. }
  assert (HL : limits (shard_capacity 990) 100 []) by exact run_limits.
  assert (HK : tc_ok (K := K) scratch options dbname (store_open (fs_look e)) (fun _ => True) (shard_capacity 990) 100 (TableCache_new 990 None) []) by (exists []; apply holds_new; lia).
  destruct (FindTable_ok (U := U) scratch options dbname (store_open (fs_look e)) _ _ 100 _ [] n (sz c) es file HK HL HT) as (h & tc1 & v & EF & HX).
  destruct (TC_NewIterator_found (U := U) scratch options dbname (store_open (fs_look e)) Hpolicy _ None _ 100 _ [] n (sz c) es file h tc1 v EF HX HT ltac:(intros lookup X; discriminate X)) as [EI HC].
  unfold opening_cache. rewrite EI. cbn [iStatus OpenedIterOps of_opened]. destruct (HC default_read_options) as (Pos & HCur & HP). exact (cur_status _ _ _ HCur _ _ HP).
Qed.

End Opening.

(** ** [BuildTable] *)

Section Files.
Context {U : Comparator} {UOK : ComparatorOk U} {US : ComparatorShort U} {K : Compression} {KOK : CompressionOk K}.
Context (options : Options) (dbname : bytes).
Context {E W Q : Type} {WF : WritableFile W} {RW : ReliableWritable W} {SF : SequentialFile Q} (env : @EnvOps E W Q) (denv : DbEnvOps E W).
Context {TI : Type} {TIO : Iterator TI} (tc_NewIterator : E -> ReadOptions -> Z -> Z -> TI).

#[local] Abbreviation ICmp := (InternalKeyComparator U).

(** A file system that creates the file, and files that can be closed; the table
    cache opens the file when it holds a table and is asked with its size. *)

Record creates (e e1 : E) (number : Z) (file : W) : Prop := {
  cr_new : env_NewWritableFile env e (TableFileName dbname number) = (e1, (OK, Some file));
  cr_inv : wf_inv file;
  cr_empty : wf_contents file = [];
  cr_close : forall f, wf_inv f -> exists f', wf_Close f = (OK, f') /\ wf_inv f' /\ wf_contents f' = wf_contents f;
  cr_opens : forall f, wf_inv f -> table_image (U := U) (K := K) (W := W) options (wf_contents f) ->
    iStatus (tc_NewIterator (de_close denv e1 (TableFileName dbname number) f) default_read_options number (sz (wf_contents f))) = OK
}.

Abbreviation built file es := (build_table ICmp K options file es).

Lemma BuildTable_ok {It} `{Iterator It} (C : Comparator) es Pos (HC : Cursor C es Pos) i iter fuel meta e e1 file k0 v0 es' :
  Pos i iter -> es = (k0, v0) :: es' -> last_key_of es [] <> [] -> TableInput ICmp options es -> (length es < fuel)%nat ->
  creates e e1 (f_number meta) file -> sz (wf_contents (r_file (snd (built file es)))) < 2 ^ 32 ->
  exists file', BuildTable U K options dbname env denv tc_NewIterator fuel iter meta e =
    Some (OK, mkFile (f_refs meta) (f_allowed_seeks meta) (f_number meta) (FileSize (snd (built file es))) k0 (last_key_of es []),
      de_close denv e1 (TableFileName dbname (f_number meta)) file') /\
    wf_inv file' /\ wf_contents file' = wf_contents (r_file (snd (built file es))) /\ 0 < FileSize (snd (built file es)).
Proof.
  intros HP Ees Hlast HIn Hf [C1 C2 C3 C4 C5] Hsz. pose proof (tin_points _ _ _ HIn) as HS. destruct (build_table_layout ICmp K options file es C2 C3 HS) as (r' & d & rd & fl & mt & ix & EB & HI & Hsize & HL).
  pose proof (cur_first _ _ _ HC _ _ HP) as HP0. unfold BuildTable. cbv zeta. cbn [f_number set_size]. rewrite (cur_valid _ _ _ HC _ _ HP0).
  rewrite (proj2 (Nat.ltb_lt _ _)) by (rewrite Ees; cbn; lia). rewrite C1. cbn [ok OK f_number set_size].
  destruct (cur_entry _ _ _ HC 0 (iSeekToFirst iter) k0 v0 HP0) as [-> _]; [rewrite Ees; reflexivity|].
  destruct (BuildTable_loop_ok (U := U) K C es Pos HC fuel 0 (iSeekToFirst iter) (TableBuilder_new options file) [] HP0 ltac:(lia) ltac:(lia)) as (it' & -> & HE).
  rewrite drop_0. destruct (last_key_of es []) as [|b k1] eqn:Ek; [contradiction|].
  change (TB_Finish ICmp K (TB_AddAll (TableBuilder_new options file) es)) with (built file es). rewrite EB in *. cbn [fst snd] in *.
  cbn [ok OK set_bounds set_size f_number f_file_size f_refs f_allowed_seeks f_smallest f_largest].
  destruct (wf_sync_ok _ HI) as (f1 & E1 & I1 & Q1). destruct (C4 f1 I1) as (f2 & E2 & I2 & Q2).
  unfold sync_and_close. rewrite E1. cbn [ok OK]. rewrite E2. cbn [ok OK].
  assert (Ec : wf_contents f2 = wf_contents (r_file r')) by congruence.
  assert (Esz : FileSize r' = sz (wf_contents f2)) by (rewrite Hsize, Ec; apply u64_small; pose proof (sz_nonneg (wf_contents (r_file r'))); lia).
  assert (HO : iStatus (tc_NewIterator (de_close denv e1 (TableFileName dbname (f_number meta)) f2) default_read_options (f_number meta) (FileSize r')) = OK).
  { rewrite Esz. apply C5; [exact I2|]. exists file, es. rewrite EB. cbn [snd]. rewrite Ec. auto. }
  rewrite HO.
  unfold BuildTable_end. rewrite (cur_status _ _ _ HC _ _ HE). cbn [ok OK negb andb f_file_size].
  assert (Hpos : 0 < FileSize r').
  { rewrite Hsize, u64_small by (pose proof (sz_nonneg (wf_contents (r_file r'))); lia). rewrite (tl_file _ _ _ _ _ _ _ _ _ _ _ HL), sz_app.
    pose proof (sz_nonneg (sb_file (d ++ rd ++ fl ++ [mt; ix]))). unfold sz at 2. rewrite footer_bytes_length. lia. }
  rewrite (proj2 (Z.ltb_lt _ _)) by exact Hpos. exists f2. split; [reflexivity|]. split; [exact I2|]. split; [congruence|exact Hpos].
Qed.

End Files.

(** ** The tombstones of a memtable and the bounds of the file *)

Definition tombs (h : list (Z * Op)) : RangeDeletionList :=
  flat_map (fun qo => match snd qo with OpDeleteRange a b => [mkRangeDel a b (fst qo)] | _ => [] end) h.

Lemma AddAll_dels U h : forall m m', MemTable_AddAll U m h = Some m' -> range_deletions m' = range_deletions m ++ tombs h.
Proof.
  induction h as [|[q op] h IH]; intros m m' E; cbn [MemTable_AddAll] in E; [injection E as <-; symmetry; apply app_nil_r|].
  unfold MemTable_AddOp, MemTable_Add in E. cbn [fst snd] in E. destruct (Insert _ _ _) as [t|]; [|discriminate].
  apply IH in E. rewrite E. cbn [range_deletions tombs flat_map fst snd]. destruct op; cbn [op_type op_key op_value app]; try reflexivity.
  rewrite decide_True by reflexivity. unfold RDL_Add. rewrite <- app_assoc. reflexivity.
Qed.

Section Bounds.
Context {U : Comparator} {UOK : ComparatorOk U}.
Hypothesis all_keys : forall u, @cmp_dom U u.

#[local] Abbreviation ICmp := (InternalKeyComparator U).

Lemma ikey_dom k : 8 <= sz k -> @cmp_dom ICmp k.
Proof. intros H. split; [unfold sz in H; lia|apply all_keys]. Qed.

Lemma mkInternalKey_dom u s t : @cmp_dom ICmp (mkInternalKey u s t).
Proof. split; [rewrite mkInternalKey_length; lia|apply all_keys]. Qed.

Lemma user_lt_ikey a b : cmp (ExtractUserKey a) (ExtractUserKey b) < 0 -> IKC_Compare U a b < 0.
Proof. intros H. apply IKC_lt. left. exact H. Qed.

(** The bounds [lo], [hi] enclose the bounds [lo0], [hi0] and the tombstones. *)

Record stretched (lo0 hi0 lo hi : bytes) (dels : RangeDeletionList) : Prop := {
  st_lo_dom : @cmp_dom ICmp lo;
  st_hi_dom : @cmp_dom ICmp hi;
  st_lo : IKC_Compare U lo lo0 <= 0;
  st_hi : IKC_Compare U hi0 hi <= 0;
  st_hi_tag : hi = hi0 \/ ExtractTag hi = 0;
  st_dels : Forall (fun d => cmp (ExtractUserKey lo) (start_key d) <= 0 /\ cmp (end_key d) (ExtractUserKey hi) <= 0) dels
}.

Lemma user_le a b : @cmp_dom ICmp a -> @cmp_dom ICmp b -> IKC_Compare U a b <= 0 -> cmp (ExtractUserKey a) (ExtractUserKey b) <= 0.
Proof.
  intros Ha Hb H. destruct (Z.le_gt_cases (cmp (ExtractUserKey a) (ExtractUserKey b)) 0) as [|Hgt]; [assumption|].
  pose proof (proj1 (cmp_gt_lt (ExtractUserKey a) (ExtractUserKey b) (all_keys _) (all_keys _)) ltac:(lia)) as Hlt. pose proof (user_lt_ikey _ _ Hlt) as H'.
  pose proof (cmp_lt_le_trans (C := ICmp) _ _ _ Hb Ha Hb H' H) as H''. pose proof (cmp_refl (C := ICmp) b Hb). lia.
Qed.

Lemma stretch_step lo0 hi0 meta dels d : @cmp_dom ICmp lo0 -> @cmp_dom ICmp hi0 ->
  stretched lo0 hi0 (f_smallest meta) (f_largest meta) dels ->
  stretched lo0 hi0 (f_smallest (stretch_bounds U meta d)) (f_largest (stretch_bounds U meta d)) (dels ++ [d]).
Proof.
  intros D0 D1 [S1 S2 S3 S4 S5 S6]. rewrite List.Forall_forall in S6. unfold stretch_bounds.
  set (lo := f_smallest meta) in *. set (hi := f_largest meta) in *.
  set (m1 := if match lo with [] => true | _ => cmp (start_key d) (ExtractUserKey lo) <? 0 end then _ else meta).
  assert (HL : @cmp_dom ICmp (f_smallest m1) /\ IKC_Compare U (f_smallest m1) lo <= 0 /\ cmp (ExtractUserKey (f_smallest m1)) (start_key d) <= 0 /\ f_largest m1 = hi).
  { subst m1. destruct lo as [|b l] eqn:El; [destruct S1 as [S1 _]; cbn in S1; lia|]. rewrite <- El in *.
    destruct (Z.ltb_spec (cmp (start_key d) (ExtractUserKey lo)) 0) as [Hlt|Hge]; cbn [f_smallest f_largest set_bounds].
    - split; [apply mkInternalKey_dom|]. rewrite mkInternalKey_user. split; [apply Z.lt_le_incl, user_lt_ikey; rewrite mkInternalKey_user; exact Hlt|].
      split; [rewrite cmp_refl by apply all_keys; lia|reflexivity].
    - fold lo hi. split; [exact S1|]. split; [apply ile_refl, S1|]. split; [|reflexivity].
      apply cmp_ge_le; [apply all_keys|apply all_keys|lia]. }
  clearbody m1. destruct HL as (L1 & L2 & L3 & L4). rewrite L4.
  set (m2 := if match hi with [] => true | _ => 0 <? cmp (end_key d) (ExtractUserKey hi) end then _ else m1).
  assert (HH : @cmp_dom ICmp (f_largest m2) /\ IKC_Compare U hi (f_largest m2) <= 0 /\ cmp (end_key d) (ExtractUserKey (f_largest m2)) <= 0 /\
    (f_largest m2 = hi \/ ExtractTag (f_largest m2) = 0) /\ f_smallest m2 = f_smallest m1).
  { subst m2. destruct hi as [|b l] eqn:El; [destruct S2 as [S2 _]; cbn in S2; lia|]. rewrite <- El in *.
    destruct (Z.ltb_spec 0 (cmp (end_key d) (ExtractUserKey hi))) as [Hlt|Hge]; cbn [f_smallest f_largest set_bounds].
    - split; [apply mkInternalKey_dom|]. rewrite mkInternalKey_user.
      split; [apply Z.lt_le_incl, user_lt_ikey; rewrite mkInternalKey_user; apply cmp_gt_lt; [apply all_keys|apply all_keys|lia]|].
      split; [rewrite cmp_refl by apply all_keys; lia|]. split; [right; rewrite mkInternalKey_tag by (split; [lia|discriminate]); reflexivity|reflexivity].
    - rewrite L4. split; [exact S2|]. split; [apply ile_refl, S2|]. split; [exact Hge|]. split; [left; reflexivity|reflexivity]. }
  clearbody m2. destruct HH as (H1 & H2 & H3 & H4 & H5). rewrite H5. split; try assumption.
  - exact (cmp_le_trans (C := ICmp) _ _ _ L1 S1 D0 L2 S3).
  - exact (cmp_le_trans (C := ICmp) _ _ _ D1 S2 H1 S4 H2).
  - destruct H4 as [->|H4]; [exact S5|right; exact H4].
  - apply List.Forall_forall. intros x Hx. apply in_app_iff in Hx as [Hx|[<-|[]]]; [|split; assumption].
    destruct (S6 x Hx) as [X1 X2]. split.
    + exact (cmp_le_trans _ _ _ (all_keys _) (all_keys _) (all_keys _) (user_le _ _ L1 S1 L2) X1).
    + exact (cmp_le_trans _ _ _ (all_keys _) (all_keys _) (all_keys _) X2 (user_le _ _ S2 H1 H2)).
Qed.

Lemma stretch_same meta d : f_number (stretch_bounds U meta d) = f_number meta /\ f_file_size (stretch_bounds U meta d) = f_file_size meta.
Proof. unfold stretch_bounds. repeat match goal with |- context [if ?b then _ else _] => destruct b end; split; reflexivity. Qed.

Lemma stretch_all meta dels : @cmp_dom ICmp (f_smallest meta) -> @cmp_dom ICmp (f_largest meta) ->
  let meta' := fold_left (stretch_bounds U) dels meta in
  f_number meta' = f_number meta /\ f_file_size meta' = f_file_size meta /\
  stretched (f_smallest meta) (f_largest meta) (f_smallest meta') (f_largest meta') dels.
Proof.
  intros D0 D1. cbv zeta. induction dels as [|d dels IH] using rev_ind.
  - cbn. split; [reflexivity|]. split; [reflexivity|]. split; try assumption; try (apply ile_refl; assumption); [left; reflexivity|constructor].
  - rewrite fold_left_app. cbn [fold_left]. destruct IH as (I1 & I2 & I3). destruct (stretch_same (fold_left (stretch_bounds U) dels meta) d) as [-> ->].
    split; [exact I1|]. split; [exact I2|]. apply stretch_step; assumption.
Qed.

(** ** The level of the file *)

Lemma PickLevel_loop_ok {FP} (fm : FP -> FileMetaData) max_file_size v lo hi fuel : forall level,
  (forall j, (j <= kNumLevels)%nat -> Forall (file_wf (U := U) fm) (files_at v j)) ->
  (forall j, (j <= level)%nat -> OverlapInLevel U fm v j (Some lo) (Some hi) = false) -> (level + fuel <= kMaxMemCompactLevel)%nat ->
  exists l, PickLevel_loop U fm fuel max_file_size v level lo hi = Some l /\ (l <= kMaxMemCompactLevel)%nat /\
    forall j, (j <= l)%nat -> OverlapInLevel U fm v j (Some lo) (Some hi) = false.
Proof.
  induction fuel as [|fuel IH]; intros level HW HO Hl; cbn [PickLevel_loop].
  - exists level. split; [reflexivity|]. split; [lia|exact HO].
  - rewrite (proj2 (Nat.ltb_lt _ _)) by lia. destruct (OverlapInLevel U fm v (level + 1) (Some lo) (Some hi)) eqn:EO.
    { exists level. split; [reflexivity|]. split; [lia|exact HO]. }
    assert (HO' : forall j, (j <= level + 1)%nat -> OverlapInLevel U fm v j (Some lo) (Some hi) = false).
    { intros j Hj. destruct (decide (j = level + 1)%nat) as [->|Hne]; [exact EO|apply HO; lia]. }
    destruct (IH (level + 1)%nat HW HO' ltac:(lia)) as (l & E & H1 & H2).
    destruct (level + 2 <? kNumLevels)%nat eqn:El; [|exists l; auto].
    apply Nat.ltb_lt in El. rewrite GetOverlappingInputs_sorted; [|lia|apply HW; lia| |].
    + destruct (_ <? _); [exists level; split; [reflexivity|]; split; [lia|exact HO]|exists l; auto].
    + intros x [= <-]. apply mkInternalKey_dom.
    + intros x [= <-]. apply mkInternalKey_dom.
Qed.

Lemma PickLevel_ok {FP} (fm : FP -> FileMetaData) max_file_size v lo hi :
  (forall j, (j <= kNumLevels)%nat -> Forall (file_wf (U := U) fm) (files_at v j)) ->
  exists l, PickLevelForMemTableOutput U fm max_file_size v lo hi = Some l /\ (l <= kMaxMemCompactLevel)%nat /\
    ((0 < l)%nat -> forall j, (j <= l)%nat -> OverlapInLevel U fm v j (Some lo) (Some hi) = false).
Proof.
  intros HW. unfold PickLevelForMemTableOutput. destruct (OverlapInLevel U fm v 0 (Some lo) (Some hi)) eqn:EO; cbn [negb].
  - exists 0%nat. split; [reflexivity|]. split; [unfold kMaxMemCompactLevel; lia|lia].
  - destruct (PickLevel_loop_ok fm max_file_size v lo hi kMaxMemCompactLevel 0 HW) as (l & E & H1 & H2); [|lia|exists l; auto].
    intros j Hj. assert (j = 0%nat) as -> by lia. exact EO.
Qed.

End Bounds.

(** ** Operations in another order *)

Lemma answer_same ops ops' u s r : (forall x, In x ops <-> In x ops') -> Answer ops u s r -> Answer ops' u s r.
Proof.
  intros H. apply answer_superset; [intros x; apply H|]. intros x Hx Hs. exists x. split; [apply H, Hx|]. split; [exact Hs|lia].
Qed.

Lemma file_says_same ops ops' u s a r : (forall x, In x ops <-> In x ops') -> file_says ops u s a r -> file_says ops' u s a r.
Proof.
  intros H [q v Hq HA|q Hq HA|HA|HA]; constructor; try (apply H; assumption); exact (answer_same _ _ _ _ _ H HA).
Qed.

(** ** The whole of [WriteLevel0Table] *)

Section Flush.
Context {U : Comparator} {UOK : ComparatorOk U} {US : ComparatorShort U} {K : Compression} {KOK : CompressionOk K}.
Hypothesis all_keys : forall u, @cmp_dom U u.
Context (options : Options) (max_file_size : Z) (dbname : bytes).
Context {E W Q : Type} {WF : WritableFile W} {RW : ReliableWritable W} {SF : SequentialFile Q} (env : @EnvOps E W Q) (denv : DbEnvOps E W).
Context {TI : Type} {TIO : Iterator TI} (tc_NewIterator : E -> ReadOptions -> Z -> Z -> TI).

#[local] Abbreviation ICmp := (InternalKeyComparator U).

(** Sizes that the table format can hold. *)

Record flushable (h : list (Z * Op)) : Prop := {
  fl_interval : 1 <= opt_block_restart_interval options;
  fl_weight : 8 + weight (map op_entry h) + 20 * sz h < 2 ^ 32;
  fl_name : match opt_filter_policy options with Some P => sz (@fp_Name P) < 2 ^ 31 | None => True end
}.

Lemma weight_perm es es' : Permutation es es' -> weight es = weight es'.
Proof. induction 1; cbn [weight]; lia. Qed.

(** The entries of the memtable in the order of its iterator. *)

Lemma mem_entries mem h : mem_holds (U := U) mem h -> exists es,
  Permutation es h /\ ops_ok (U := U) es /\ exists Pos,
  @Cursor _ (MemTableIteratorOps U) (InternalKeyComparator (Bounded U)) (map op_entry es) Pos /\ Pos (length es) (MemTable_NewIterator mem).
Proof.
  intros Hm. destruct (mem_history all_keys mem h Hm) as (es & HI & Hp). pose proof (mem_sorted all_keys mem es HI) as [HS HD].
  exists es. split; [exact Hp|]. split.
  - split; [exact (minv_seq _ _ HI)|]. split; [exact HS|]. rewrite List.Forall_forall in HD |- *. intros e He. destruct (HD e He) as [H1 [H2 _]]. split; assumption.
  - exists (mem_pos (U := U) mem es). split; [exact (mem_cursor all_keys mem es HI)|apply mem_pos_end, HI].
Qed.

(** They are an input of the table builder. *)

Lemma flush_input h es : flushable h -> Permutation es h -> ops_ok (U := U) es -> TableInput ICmp options (map op_entry es).
Proof.
  intros [F1 F2 F3] Hp HO. split; [exact F1|apply sorted_filter, (oo_sorted _ HO)|apply sorted_filter, (oo_sorted _ HO)| |exact F3].
  rewrite (weight_perm _ _ (Permutation_map op_entry Hp)). unfold sz in *. rewrite length_map, (Permutation_length Hp). exact F2.
Qed.

(** What is known about a file made from a history. *)

Definition encloses (lo hi : bytes) (h : list (Z * Op)) : Prop :=
  (forall qo, In qo h -> IKC_Compare U lo (entry_ikey qo) <= 0 /\ IKC_Compare U (entry_ikey qo) hi <= 0) /\
  (forall q a b, In (q, OpDeleteRange a b) h -> cmp (ExtractUserKey lo) a <= 0 /\ cmp b (ExtractUserKey hi) <= 0).

Lemma sorted_ends es i e k0 v0 es' : sorted_entries ICmp es -> es = (k0, v0) :: es' -> es !! i = Some e ->
  IKC_Compare U k0 (fst e) <= 0 /\ IKC_Compare U (fst e) (last_key_of es []) <= 0.
Proof.
  intros HS E0 Hi. pose proof (sorted_dom es i e HS Hi) as Hd. split.
  - destruct i as [|i]; [rewrite E0 in Hi; injection Hi as <-; apply ile_refl, Hd|].
    apply Z.lt_le_incl, (sorted_lt (C := ICmp) es 0 (S i) (k0, v0) e HS); [lia|rewrite E0; reflexivity|exact Hi].
  - unfold last_key_of. rewrite last_lookup. pose proof (lookup_lt_Some _ _ _ Hi) as Hl.
    destruct (lookup_lt_is_Some_2 es (Nat.pred (length es))) as [l Hlast]; [lia|]. rewrite Hlast. cbn.
    destruct (decide (i = Nat.pred (length es))) as [->|Hne]; [rewrite Hlast in Hi; injection Hi as ->; apply ile_refl, Hd|].
    apply Z.lt_le_incl, (sorted_lt (C := ICmp) es i (Nat.pred (length es)) e l HS); [lia|exact Hi|exact Hlast].
Qed.

Lemma last_key_in es d : es <> [] -> exists e, In e es /\ last_key_of es d = fst e.
Proof.
  intros Hne. unfold last_key_of. destruct (list.last es) as [e|] eqn:El; [|apply last_None in El; contradiction].
  exists e. split; [|reflexivity]. apply last_Some_elem_of in El. apply list_elem_of_In, El.
Qed.

(** The state after the table was built, and the metadata. *)

Lemma built_meta mem h es lo hi number size : mem_holds (U := U) mem h -> Permutation es h -> sorted_entries ICmp (map op_entry es) ->
  (exists v0 es', map op_entry es = (lo, v0) :: es') -> hi = last_key_of (map op_entry es) [] ->
  let meta := fold_left (stretch_bounds U) (range_deletions mem) (mkFile 0 (1 << 30) number size lo hi) in
  f_number meta = number /\ f_file_size meta = size /\ encloses (f_smallest meta) (f_largest meta) h /\
  @cmp_dom ICmp (f_smallest meta) /\ @cmp_dom ICmp (f_largest meta).
Proof.
  intros [Hm Hh] Hp HS (v0 & es' & E0) ->. rewrite (AddAll_dels _ _ _ _ Hm). cbn [range_deletions MemTable_new app]. cbv zeta.
  assert (Hne : map op_entry es <> []) by (rewrite E0; discriminate).
  assert (Hd0 : @cmp_dom ICmp lo) by (apply (sorted_dom _ 0 (lo, v0) HS); rewrite E0; reflexivity).
  destruct (last_key_in (map op_entry es) [] Hne) as (el & Hel & El).
  assert (Hd1 : @cmp_dom ICmp (last_key_of (map op_entry es) [])).
  { rewrite El. apply In_lookup in Hel as [i Hi]. exact (sorted_dom _ i el HS Hi). }
  destruct (stretch_all all_keys (mkFile 0 (1 << 30) number size lo (last_key_of (map op_entry es) [])) (tombs h) Hd0 Hd1) as (-> & -> & [S1 S2 S3 S4 _ S6]).
  cbn [f_number f_file_size f_smallest f_largest] in *. split; [reflexivity|]. split; [reflexivity|]. split; [|split; assumption]. split.
  - intros qo Hq. apply (Permutation_in _ (Permutation_sym Hp)), (in_map op_entry), In_lookup in Hq as [i Hi].
    destruct (sorted_ends _ i _ lo v0 es' HS E0 Hi) as [B1 B2]. pose proof (sorted_dom _ i _ HS Hi) as Hdq. cbn [op_entry fst] in *.
    split; [exact (ile_trans _ _ _ S1 Hd0 Hdq S3 B1)|exact (ile_trans _ _ _ Hdq Hd1 S2 B2 S4)].
  - intros q a b Hq. rewrite List.Forall_forall in S6. apply (S6 (mkRangeDel a b q)). unfold tombs. apply in_flat_map. exists (q, OpDeleteRange a b).
    split; [exact Hq|left; reflexivity].
Qed.

Lemma WriteLevel0Table_ok mem h (vs : @VersionSet E W) pending e1 file fuel edit base :
  let number := vs_next_file_number vs in
  mem_holds (U := U) mem h -> h <> [] -> flushable h -> (length h < fuel)%nat ->
  creates (U := U) (K := K) options dbname env denv tc_NewIterator (vs_env vs) e1 number file ->
  (forall es, Permutation es h -> sz (wf_contents (r_file (snd (build_table ICmp K options file (map op_entry es))))) < 2 ^ 32) ->
  (forall v j, base = Some v -> Forall (file_wf (U := U) (deref (vs_heap vs))) (files_at v j)) ->
  exists level lo hi file' es, let vs' := vs_with_env (snd (NewFileNumber vs)) (de_close denv e1 (TableFileName dbname number) file') in
    WriteLevel0Table U K options max_file_size dbname env denv tc_NewIterator fuel mem edit base (vs, pending) =
      Some (OK, AddFile (Z.of_nat level) number (sz (wf_contents file')) lo hi edit, (vs', ({[number]} ∪ pending) ∖ {[number]})) /\
    encloses lo hi h /\
    @cmp_dom ICmp lo /\ @cmp_dom ICmp hi /\
    (level <= kMaxMemCompactLevel)%nat /\
    (forall v j, base = Some v -> (j <= level)%nat -> (0 < level)%nat ->
       OverlapInLevel U (deref (vs_heap vs)) v j (Some (ExtractUserKey lo)) (Some (ExtractUserKey hi)) = false) /\
    (base = None -> level = 0%nat) /\ Permutation es h /\ ops_ok (U := U) es /\ wf_inv file' /\
    wf_contents file' = wf_contents (r_file (snd (build_table ICmp K options file (map op_entry es)))).
Proof.
  intros number Hm Hne HF Hfuel HC Hsz Hbase. destruct (mem_entries mem h Hm) as (es & Hp & HO & Pos & HCur & HP).
  destruct (map op_entry es) as [|[k0 v0] es'] eqn:Ees.
  { destruct es; [|discriminate]. apply Permutation_nil in Hp. contradiction. }
  assert (Hlast : last_key_of (map op_entry es) [] <> []).
  { destruct (last_key_in (map op_entry es) []) as (e & He & ->); [rewrite Ees; discriminate|]. apply in_map_iff in He as (qo & <- & _).
    cbn [op_entry fst]. unfold entry_ikey. intros Hk. apply (f_equal length) in Hk. rewrite mkInternalKey_length in Hk. cbn [length] in Hk. lia. }
  rewrite <- Ees in HCur. pose proof (oo_sorted _ HO) as HS.
  unfold WriteLevel0Table. cbn [WriteLevel0Table_begin NewFileNumber].
  cbn [vs_env with_numbers]. fold number.
  destruct (BuildTable_ok (U := U) (K := K) options dbname env denv tc_NewIterator (InternalKeyComparator (Bounded U)) (map op_entry es) Pos HCur
    (length es) (MemTable_NewIterator mem) fuel (mkFile 0 (1 << 30) number 0 [] []) (vs_env vs) e1 file k0 v0 es' HP Ees Hlast
    (flush_input h es HF Hp HO)) as (file' & -> & Hinv & Hc & Hpos).
  { rewrite length_map, (Permutation_length Hp). exact Hfuel. }
  { exact HC. }
  { apply Hsz, Hp. }
  cbn [f_refs f_allowed_seeks f_number]. set (size := FileSize _) in *.
  assert (Hsize : size = sz (wf_contents file')).
  { destruct (build_table_layout ICmp K options file (map op_entry es) (cr_inv _ _ _ _ _ _ _ _ _ HC) (cr_empty _ _ _ _ _ _ _ _ _ HC) (sorted_filter _ _ _ HS))
      as (r' & _ & _ & _ & _ & _ & EB & _ & EF & _). unfold size. rewrite Hc. specialize (Hsz es Hp). rewrite EB in *. cbn [snd] in *. rewrite EF.
    apply u64_small. pose proof (sz_nonneg (wf_contents (r_file r'))). lia. }
  destruct (built_meta mem h es k0 (last_key_of (map op_entry es) []) number size Hm Hp HS) as (N1 & N2 & HB & D1 & D2); [exists v0, es'; exact Ees|reflexivity|].
  unfold WriteLevel0Table_end. cbn [ok OK andb f_file_size f_number]. rewrite (proj2 (Z.ltb_lt _ _)) by exact Hpos.
  set (meta := fold_left _ _ _) in *. clearbody meta. rewrite N1, N2.
  cbn [vs_heap vs_with_env with_descriptor with_numbers].
  assert (HL : exists l, match base with Some v => PickLevelForMemTableOutput U (deref (vs_heap vs)) max_file_size v
      (ExtractUserKey (f_smallest meta)) (ExtractUserKey (f_largest meta)) | None => Some 0%nat end = Some l /\ (l <= kMaxMemCompactLevel)%nat /\ (base = None -> l = 0%nat) /\
    forall v j, base = Some v -> (j <= l)%nat -> (0 < l)%nat ->
      OverlapInLevel U (deref (vs_heap vs)) v j (Some (ExtractUserKey (f_smallest meta))) (Some (ExtractUserKey (f_largest meta))) = false).
  { destruct base as [v|]; [|exists 0%nat; split; [reflexivity|]; split; [unfold kMaxMemCompactLevel; lia|split; [reflexivity|discriminate]]].
    destruct (PickLevel_ok all_keys (deref (vs_heap vs)) max_file_size v (ExtractUserKey (f_smallest meta)) (ExtractUserKey (f_largest meta)))
      as (l & EL & L1 & L2); [intros j _; apply Hbase; reflexivity|]. exists l. split; [exact EL|]. split; [exact L1|]. split; [discriminate|]. intros v' j [= <-] Hj Hl. exact (L2 Hl j Hj). }
  destruct HL as (l & EL & L1 & L0 & L2). rewrite EL.
  exists l, (f_smallest meta), (f_largest meta), file', es. split; [rewrite <- Hsize; reflexivity|].
  split; [exact HB|]. split; [exact D1|]. split; [exact D2|]. split; [exact L1|]. split; [exact L2|]. auto.
Qed.

End Flush.

(** ** Property *)

(** C9. A flushed memtable reads back: when a memtable that holds a history of
    numbered operations is written out by [WriteLevel0Table] to a file system
    without errors, and the table cache opens a file that holds a table when it is
    asked with the size of the file (as the one of TableCache.v does), the call
    succeeds, the edit gets one file whose recorded
    bounds enclose every entry and the whole range of every tombstone, at a level
    such that the file overlaps no file of the base version in that level or
    above it (unless it is level 0), and opening the written file and looking up
    any user key at any sequence number finds what the newest operation of the
    history that touches the key prescribes: its value, a deletion, or nothing.  *)
Theorem flushed_table_answers : forall U K E W Q TI (WF : WritableFile W) (RW : ReliableWritable W) (SF : SequentialFile Q) (TIO : Iterator TI)
    (options : Options) max_file_size dbname (env : @EnvOps E W Q) (denv : DbEnvOps E W) (tc_NewIterator : E -> ReadOptions -> Z -> Z -> TI)
    mem h (vs : @VersionSet E W) pending e1 file fuel edit base,
  ComparatorOk U -> ComparatorShort U -> CompressionOk K -> (forall u, @cmp_dom U u) ->
  (forall P, opt_filter_policy options = Some P -> exists UP, P = InternalFilterPolicy UP /\ FilterPolicyOk UP) ->
  let C := InternalKeyComparator U in let number := vs_next_file_number vs in
  let fm := deref (vs_heap vs) in
  mem_holds (U := U) mem h -> h <> [] -> flushable options h -> (length h < fuel)%nat ->
  creates (U := U) (K := K) options dbname env denv tc_NewIterator (vs_env vs) e1 number file ->
  (forall es, Permutation es h -> sz (wf_contents (r_file (snd (build_table C K options file (map op_entry es))))) < 2 ^ 32) ->
  (forall v j, base = Some v -> Forall (file_wf (U := U) fm) (files_at v j)) ->
  exists level lo hi file' vs' pending',
    WriteLevel0Table U K options max_file_size dbname env denv tc_NewIterator fuel mem edit base (vs, pending) =
      Some (OK, AddFile (Z.of_nat level) number (sz (wf_contents file')) lo hi edit, (vs', pending')) /\
    vs_env vs' = de_close denv e1 (TableFileName dbname number) file' /\
    encloses (U := U) lo hi h /\ (level <= kMaxMemCompactLevel)%nat /\
    (forall v j, base = Some v -> (j <= level)%nat -> (0 < level)%nat ->
       OverlapInLevel U fm v j (Some (ExtractUserKey lo)) (Some (ExtractUserKey hi)) = false) /\
    forall F (RF : RandomAccessFile F) (RR : ReliableRandom F) (f : F) scratch cache_id ro,
      rf_inv f -> rf_contents f = wf_contents file' ->
      exists tb, Table_Open K scratch options cache_id f (sz (wf_contents file')) = (OK, Some tb) /\
        forall u s, 0 <= s <= kMaxSequenceNumber -> exists r,
          file_says h u s (InternalGet K scratch C None tb ro (mkInternalKey u s kValueTypeForSeek)) r /\ Answer h u s r.
Proof.
  intros U K E W Q TI WF RW SF TIO options mfs dbname env denv tcn mem h vs pending e1 file fuel edit base UOK US KOK Hk Hpol C number fm Hm Hne HF Hfuel HC Hsz Hbase.
  destruct (WriteLevel0Table_ok Hk options mfs dbname env denv tcn mem h vs pending e1 file fuel edit base Hm Hne HF Hfuel HC Hsz Hbase)
    as (level & lo & hi & file' & es & E1 & HB & _ & _ & HL & HO & _ & Hp & HOK & _ & Hc).
  exists level, lo, hi, file'. eexists _, _. split; [exact E1|]. split; [reflexivity|]. split; [exact HB|]. split; [exact HL|]. split; [exact HO|].
  intros F RF RR f scratch cache_id ro Hfi Hfc.
  assert (HS : Stored (C := C) (K := K) options file (map op_entry es) f).
  { split; [exact (flush_input options h es HF Hp HOK)|split; [exact (cr_inv _ _ _ _ _ _ _ _ _ HC)|exact (cr_empty _ _ _ _ _ _ _ _ _ HC)]| |].
    - apply Hsz, Hp.
    - split; [exact Hfi|rewrite Hfc; exact Hc]. }
  destruct (stored_get U K W F WF RW RF RR options file (map op_entry es) f scratch cache_id UOK KOK Hpol HS) as (tb & hs & HT & HG).
  exists tb. rewrite <- Hfc. split; [exact HT|]. intros u s Hs.
  destruct (table_says es u s HOK (Hk u) Hs) as (r & Hr). exists r.
  assert (Hin : forall x, In x es <-> In x h) by (intros x; split; apply Permutation_in; [exact Hp|symmetry; exact Hp]).
  rewrite HG; [|intros lookup b blk Hx; discriminate Hx|apply (mkInternalKey_dom Hk)].
  split; [exact (file_says_same _ _ _ _ _ _ Hin Hr)|]. apply (answer_same es h u s r Hin). destruct Hr; assumption.
Qed.

(** A file system that is a function from names to contents; it hands out [log] for
    reading. *)

Definition store_env (log : FileState) : @EnvOps (bytes -> option bytes) FileState SequentialFileImpl :=
  mkEnvOps (fun e _ => (e, (OK, Some FileState_new))) (fun e _ => (e, (OK, Some FileState_new)))
    (fun e _ => (OK, Some (mkSequentialFileImpl log 0))) (fun _ _ => (NotFound [] [], [])) (fun e _ => (OK, 0)) (fun e _ => e) (fun e _ _ => (e, OK)).

Definition store_denv : DbEnvOps (bytes -> option bytes) FileState :=
  mkDbEnvOps _ _ (fun e n f m => if decide (m = n) then Some (wf_contents f) else e m) (fun _ _ => (OK, [])) (fun _ _ => true) (fun e _ => e) (fun e _ => (e, OK)).

#[global, refine] Instance StoreOk (log : FileState) : FileStore (store_env log) store_denv := { fs_look := fun e => e }.
Proof.
  - intros e name. exists e, FileState_new. split; [reflexivity|]. split; [exact FSInv_new|]. split; [reflexivity|]. reflexivity.
  - intros f Hf. exists f. auto.
  - intros e name f _. cbn [de_close store_denv]. rewrite decide_True by reflexivity. reflexivity.
  - intros e name f other Hne. cbn [de_close store_denv]. rewrite decide_False by exact Hne. reflexivity.
Defined.

(** A memtable with a value and a range deletion, flushed to an empty store whose
    tables the table cache opens. *)

Definition flush_history : list (Z * Op) := [(3, OpPut (str "b") (str "1")); (4, OpDeleteRange (str "a") (str "c"))].

Definition flush_mem : MemTable := default MemTable_new (MemTable_AddAll BytewiseComparator MemTable_new flush_history).

Definition run_cache : (bytes -> option bytes) -> ReadOptions -> Z -> Z -> OpenedIter := opening_cache (K := NoLibraries) run_options (str "db") true (fun e => e).

#[export] Instance RunIterOps : Iterator OpenedIter := OpenedIterOps (U := BytewiseComparator) (K := NoLibraries) true.

Lemma run_policy P : opt_filter_policy run_options = Some P -> exists UP, P = InternalFilterPolicy UP /\ FilterPolicyOk UP.
Proof. intros EP. injection EP as <-. eexists. split; [reflexivity|]. apply BloomPolicyOk. lia. Qed.

Lemma run_cache_opens log : opens_tables (U := BytewiseComparator) (K := NoLibraries) run_options (str "db") (store_env log) store_denv run_cache.
Proof. exact (opening_opens (U := BytewiseComparator) (K := NoLibraries) run_options (str "db") (store_env log) store_denv true run_policy). Qed.

Lemma flushed_table_answers_witness : exists level lo hi file' vs' pending',
  @WriteLevel0Table BytewiseComparator NoLibraries run_options 2097152 (str "db") _ FileState SequentialFileImpl MemWritable (store_env FileState_new) store_denv
    OpenedIter RunIterOps run_cache 3 flush_mem VE_Clear (Some Version_new) (VersionSet_new (fun _ => None), ∅) =
    Some (OK, AddFile (Z.of_nat level) 2 (sz (wf_contents file')) lo hi VE_Clear, (vs', pending')) /\
  encloses (U := BytewiseComparator) lo hi flush_history.
Proof.
  destruct (flushed_table_answers BytewiseComparator NoLibraries _ FileState SequentialFileImpl OpenedIter MemWritable MemReliableWritable MemSequential
    RunIterOps run_options 2097152 (str "db") (store_env FileState_new) store_denv run_cache flush_mem flush_history (VersionSet_new (fun _ => None)) ∅ (fun _ => None) FileState_new
    3 VE_Clear (Some Version_new) BytewiseComparatorOk BytewiseComparatorShort NoLibrariesOk (fun _ => I) run_policy)
    as (level & lo & hi & file' & vs' & pending' & E1 & _ & HB & _).
  - split; [vm_compute; reflexivity|]. split.
    + repeat constructor.
    + repeat constructor; vm_compute; discriminate.
    + repeat constructor.
  - discriminate.
  - split; [cbn; lia|vm_compute; reflexivity|vm_compute; reflexivity].
  - cbn. lia.
  - split; [reflexivity|exact FSInv_new|reflexivity| |].
    + intros f Hf. exists f. split; [reflexivity|]. split; [exact Hf|reflexivity].
    + intros f Hf HI. apply (run_cache_opens FileState_new); [vm_compute; split; [discriminate|reflexivity]| |exact HI].
      exact (fs_put (FileStore := StoreOk FileState_new) (fun _ => None) _ f Hf).
  - intros es Hp. symmetry in Hp. apply Permutation_length_2_inv in Hp as [->| ->]; vm_compute; reflexivity.
  - intros v j [= <-]. unfold files_at, Version_new. cbn [v_files]. do 8 (destruct j as [|j]; [constructor|]). constructor.
  - exists level, lo, hi, file', vs', pending'. split; [exact E1|exact HB].
Defined.
