(* ===== verification/DbFiles.v ===== *)
(** * Removing obsolete files is safe (db/db_impl.cc: RemoveObsoleteFiles)

    The names that are removed are those of files nothing refers to: no table of
    a live version or of a running compaction, no log that recovery would read,
    not the manifest in use, never CURRENT, LOCK or the info log. *)

From S2P Require Import Prelude Coding Compare DbFormat Logging FileName SkipList Arena MemTable WriteBatch Crc32c Env Log Filter Iterator Block Format TableBuilder Table VersionEdit Version Compaction VersionSet VersionRefs MemIter DbImpl DbFlush.
#[local] Open Scope Z_scope.
#[local] Open Scope ldb_scope.

Section Obsolete.
Context {E W : Type} (dbname : bytes).

(** The numbers of the tables that are in use. *)

Definition in_use (db : @DBImpl E W) (n : Z) : Prop :=
  n ∈ db_pending_outputs db \/ exists p, In p (cell_files (vs_versions (db_versions db))) /\ n = f_number (deref (vs_heap (db_versions db)) p).

(** The files that must stay. *)

Inductive needed (db : @DBImpl E W) : bytes -> Prop :=
| needed_table n : in_use db n -> 0 <= n < 2 ^ 64 -> needed db (TableFileName dbname n)
| needed_sst n : in_use db n -> 0 <= n < 2 ^ 64 -> needed db (SSTTableFileName dbname n)
| needed_temp n : in_use db n -> 0 <= n < 2 ^ 64 -> needed db (TempFileName dbname n)
| needed_log n : vs_log_number (db_versions db) <= n -> 0 <= n < 2 ^ 64 -> needed db (LogFileName dbname n)
| needed_prev_log n : n = vs_prev_log_number (db_versions db) -> 0 <= n < 2 ^ 64 -> needed db (LogFileName dbname n)
| needed_manifest n : vs_manifest_file_number (db_versions db) <= n -> 0 <= n < 2 ^ 64 -> needed db (DescriptorFileName dbname n)
| needed_current : needed db (CurrentFileName dbname)
| needed_lock : needed db (LockFileName dbname)
| needed_info_log : needed db (InfoLogFileName dbname)
| needed_old_info_log : needed db (OldInfoLogFileName dbname).

Lemma live_in_use (db : @DBImpl E W) n : n ∈ AddLiveFiles (db_versions db) (db_pending_outputs db) <-> in_use db n.
Proof. apply AddLiveFiles_spec. Qed.

(** A needed file has a name that parses, and is kept. *)

Lemma needed_kept (db : @DBImpl E W) path : needed db path -> exists base number type,
  path = dbname ++ str "/" ++ base /\ ParseFileName base = Some (number, type) /\
  keep_file (db_versions db) (AddLiveFiles (db_versions db) (db_pending_outputs db)) number type = true.
Proof.
  assert (HN : forall n full ty, 0 <= n < 2 ^ 64 -> In (full, ty) [(LogFileName dbname n, kLogFile); (TableFileName dbname n, kTableFile);
     (SSTTableFileName dbname n, kTableFile); (TempFileName dbname n, kTempFile); (DescriptorFileName dbname n, kDescriptorFile)] ->
     exists base, full = dbname ++ str "/" ++ base /\ ParseFileName base = Some (n, ty)).
  { intros n full ty Hn Hin. destruct (filename_roundtrip dbname n Hn) as [H _]. rewrite List.Forall_forall in H. exact (H (full, ty) Hin). }
  intros [n Hu Hn|n Hu Hn|n Hu Hn|n Hu Hn|n Hu Hn|n Hu Hn| | | |].
  1: destruct (HN n (TableFileName dbname n) kTableFile Hn) as (b & E1 & E2); [cbn; auto|].
  2: destruct (HN n (SSTTableFileName dbname n) kTableFile Hn) as (b & E1 & E2); [cbn; auto|].
  3: destruct (HN n (TempFileName dbname n) kTempFile Hn) as (b & E1 & E2); [cbn; auto 6|].
  4,5: destruct (HN n (LogFileName dbname n) kLogFile Hn) as (b & E1 & E2); [cbn; auto|].
  6: destruct (HN n (DescriptorFileName dbname n) kDescriptorFile Hn) as (b & E1 & E2); [cbn; auto 7|].
  1-6: exists b, n; eexists; (split; [exact E1|]); (split; [exact E2|]); cbn [keep_file].
  1-3: apply bool_decide_eq_true, live_in_use, Hu.
  1: apply orb_true_iff; left; apply Z.leb_le, Hu.
  1: apply orb_true_iff; right; apply Z.eqb_eq, Hu.
  1: apply Z.leb_le, Hu.
  all: eexists _, 0; eexists; (split; [reflexivity|]); (split; [reflexivity|reflexivity]).
Qed.

Lemma deleted_not_needed (db : @DBImpl E W) names f :
  In f (files_to_delete (db_versions db) (AddLiveFiles (db_versions db) (db_pending_outputs db)) names) -> ~ needed db (dbname ++ str "/" ++ f).
Proof.
  intros Hf HN. apply filter_In in Hf as [_ Hf]. destruct (needed_kept db _ HN) as (base & number & type & Epath & EP & HK).
  apply app_inv_head, app_inv_head in Epath. subst f. rewrite EP, HK in Hf. discriminate.
Qed.

End Obsolete.

(** ** Property *)

(** C10. Removing obsolete files is safe and thorough: [RemoveObsoleteFiles]
    removes, among the children of the database directory, no table or temporary
    file whose number belongs to a live version or to a running compaction, no
    log at or past the log number of the version set (nor the previous log), not
    the manifest in use or a newer one, and never CURRENT, LOCK or the info logs;
    it removes every table file that is in no live version and no compaction; it
    changes nothing but the environment, and nothing at all after a background
    error. *)
Theorem obsolete_files_safe : forall E W Q (dbname : bytes) (env : @EnvOps E W Q) (denv : DbEnvOps E W) (db : @DBImpl E W),
  exists removed : list bytes,
    RemoveObsoleteFiles dbname env denv db = with_env db (fold_left (env_RemoveFile env) removed (db_env db)) /\
    (forall path, In path removed -> ~ needed dbname db path) /\
    (ok (db_bg_error db) = false -> removed = []) /\
    (ok (db_bg_error db) = true -> forall f number,
       In f (snd (de_GetChildren denv (db_env db) dbname)) -> ParseFileName f = Some (number, kTableFile) -> ~ in_use db number ->
       In (dbname ++ str "/" ++ f) removed).
Proof.
  intros E W Q dbname env denv db. unfold RemoveObsoleteFiles. destruct (ok (db_bg_error db)) eqn:Eb; cbn [negb].
  - destruct (de_GetChildren denv (db_env db) dbname) as [s names] eqn:EC. cbn [snd].
    set (dels := files_to_delete _ _ names). exists (map (fun f => dbname ++ str "/" ++ f) dels).
    split; [|split; [|split; [discriminate|]]].
    + f_equal. generalize (db_env db). induction dels as [|f l IH]; intros e; [reflexivity|]. cbn [fold_left map]. apply IH.
    + intros path Hp. apply in_map_iff in Hp as (f & <- & Hf). exact (deleted_not_needed dbname db names f Hf).
    + intros _ f number Hf EP Hu. apply (in_map (fun f => dbname ++ str "/" ++ f)). apply filter_In. split; [exact Hf|]. rewrite EP. cbn [keep_file].
      rewrite bool_decide_eq_false_2; [reflexivity|]. intros H. apply live_in_use in H. exact (Hu H).
  - exists []. split; [|split; [contradiction|split; [reflexivity|discriminate]]]. unfold with_env, with_vs, with_descriptor, db_env. destruct db as [vs]; destruct vs; reflexivity.
Qed.
