(* ===== verification/DbCompact.v ===== *)
(** * The work of a compaction (db/db_impl.cc)

    [DoCompactionWork] reads the inputs of a compaction in internal key order,
    drops what no reader can see any more and writes the rest to new table files
    of the next level.  The work is done without the mutex; the definitions are
    those of a run during which other threads only fill the memtable, which the
    loop itself flushes when it has become immutable.  Statistics and messages
    are left out. *)

From S2P Require Import Prelude Coding Compare DbFormat Logging FileName SkipList Arena MemTable WriteBatch Crc32c Env Log Filter Iterator Block Format Merger TwoLevel TableBuilder Table VersionEdit Version Compaction VersionSet MemIter DbIter DbImpl DbRead DbFlush.
#[local] Open Scope Z_scope.
#[local] Open Scope ldb_scope.

(** ** The tombstones of the inputs, sorted and without duplicates *)

Definition del_before (a b : RangeDeletion) : bool :=
  let c := Slice_compare (start_key a) (start_key b) in
  if negb (c =? 0) then c <? 0 else seq b <? seq a.

Fixpoint insert_del (d : RangeDeletion) (l : RangeDeletionList) : RangeDeletionList :=
  match l with
  | [] => [d]
  | x :: l' => if del_before x d then x :: insert_del d l' else d :: l
  end.

(** [std::sort]: tombstones that the order does not tell apart are the same one. *)

Definition sort_dels (l : RangeDeletionList) : RangeDeletionList := fold_right insert_del [] l.

Definition same_del (a b : RangeDeletion) : bool := Slice_eq (start_key a) (start_key b) && (seq a =? seq b).

(** [std::unique] keeps the first of equal neighbours. *)

Fixpoint unique_after (d : RangeDeletion) (l : RangeDeletionList) : RangeDeletionList :=
  match l with
  | [] => []
  | x :: l => if same_del d x then unique_after d l else x :: unique_after x l
  end.

Definition unique_dels (l : RangeDeletionList) : RangeDeletionList := match l with [] => [] | d :: l => d :: unique_after d l end.

Definition compaction_dels (range_dels : RangeDeletionList) : RangeDeletionList := unique_dels (sort_dels range_dels).

(** ** The state of a compaction *)

Record Output := mkOutput { out_number : Z; out_file_size : Z; out_smallest : bytes; out_largest : bytes }.

(** [builder] holds the open output file. *)

Record CompactionState {W : Type} := mkCompactionState {
  cs_compaction : Compaction nat;
  cs_smallest_snapshot : Z;
  cs_outputs : list Output;
  cs_builder : option (Rep W);
  cs_total_bytes : Z
}.

Arguments CompactionState : clear implicits.

Section CompactionState.
Context {W : Type}.

Definition CompactionState_new (c : Compaction nat) : CompactionState W := mkCompactionState W c 0 [] None 0.

Definition with_compaction (cs : CompactionState W) (c : Compaction nat) : CompactionState W :=
  mkCompactionState W c (cs_smallest_snapshot cs) (cs_outputs cs) (cs_builder cs) (cs_total_bytes cs).

Definition with_builder (cs : CompactionState W) (b : option (Rep W)) : CompactionState W :=
  mkCompactionState W (cs_compaction cs) (cs_smallest_snapshot cs) (cs_outputs cs) b (cs_total_bytes cs).

Definition with_outputs (cs : CompactionState W) (outs : list Output) : CompactionState W :=
  mkCompactionState W (cs_compaction cs) (cs_smallest_snapshot cs) outs (cs_builder cs) (cs_total_bytes cs).

(** [current_output()] and a change of it. *)

Definition current_output (cs : CompactionState W) : Output := default (mkOutput 0 0 [] []) (list.last (cs_outputs cs)).

Fixpoint on_last (f : Output -> Output) (l : list Output) : list Output :=
  match l with
  | [] => []
  | [x] => [f x]
  | x :: l => x :: on_last f l
  end.

Definition on_current (f : Output -> Output) (cs : CompactionState W) : CompactionState W := with_outputs cs (on_last f (cs_outputs cs)).

Definition set_smallest (k : bytes) (o : Output) : Output := mkOutput (out_number o) (out_file_size o) k (out_largest o).

Definition set_largest (k : bytes) (o : Output) : Output := mkOutput (out_number o) (out_file_size o) (out_smallest o) k.

End CompactionState.

Section Compact.
Context (U : Comparator) (K : Compression) (options : Options) (comparator_name : bytes) (max_file_size : Z) (dbname : bytes).
Context {E W Q : Type} {WF : WritableFile W} {SF : SequentialFile Q} (env : @EnvOps E W Q) (denv : DbEnvOps E W).
Context {TI : Type} {TIO : Iterator TI} (tc_NewIterator : E -> ReadOptions -> Z -> Z -> TI) (tc_error : Status -> TI)
  (tc_GetRangeDeletions : E -> Z -> Z -> RangeDeletionList).

#[local] Abbreviation ICmp := (InternalKeyComparator U).
#[local] Abbreviation CS := (CompactionState W).
#[local] Abbreviation DB := (@DBImpl E W).

(** ** Output files *)

Definition OpenCompactionOutputFile (cs : CS) (db : DB) : Status * CS * DB :=
  let '(file_number, vs) := NewFileNumber (db_versions db) in
  let db := with_pending (with_vs db vs) ({[file_number]} ∪ db_pending_outputs db) in
  let cs := with_outputs cs (cs_outputs cs ++ [mkOutput file_number 0 [] []]) in
  match env_NewWritableFile env (db_env db) (TableFileName dbname file_number) with
  | (e, (s, Some file)) =>
      if ok s then (s, with_builder cs (Some (TableBuilder_new options file)), with_env db e) else (s, cs, with_env db e)
  | (e, (s, None)) => (s, cs, with_env db e)
  end.

Definition FinishCompactionOutputFile (input_status : Status) (cs : CS) (db : DB) : Status * CS * DB :=
  match cs_builder cs with
  | None => (OK, cs, db)
  | Some builder =>
      let output_number := out_number (current_output cs) in
      let s := input_status in
      let current_entries := NumEntries builder in
      let '(s, builder) := if ok s then TB_Finish ICmp K builder else (s, Abandon builder) in
      let current_bytes := FileSize builder in
      let cs := on_current (fun o => mkOutput (out_number o) current_bytes (out_smallest o) (out_largest o)) cs in
      let cs := mkCompactionState W (cs_compaction cs) (cs_smallest_snapshot cs) (cs_outputs cs) None (u64 (cs_total_bytes cs + current_bytes)) in
      let '(s, file) := sync_and_close s (r_file builder) in
      let e := de_close denv (db_env db) (TableFileName dbname output_number) file in
      let s := if ok s && (0 <? current_entries) then iStatus (tc_NewIterator e default_read_options output_number current_bytes) else s in
      (s, cs, with_env db e)
  end.

(** ** Which entries are dropped

    The user key of the last entry that was the first one of its key, and the
    sequence number of the entry before this one. *)

Record DropState := mkDropState { ds_current_user_key : option bytes; ds_last_sequence_for_key : Z }.

Definition DropState_new : DropState := mkDropState None kMaxSequenceNumber.

Definition drop_entry (compaction_range_dels : RangeDeletionList) (smallest_snapshot : Z) (c : Compaction nat) (h : FileHeap)
    (key : bytes) (ds : DropState) : bool * Compaction nat * DropState :=
  match ParseInternalKey key with
  | None => (false, c, mkDropState None kMaxSequenceNumber)
  | Some ikey =>
      let covered := RDL_IsDeleted compaction_range_dels (user_key ikey) (sequence ikey) smallest_snapshot in
      let ds :=
        if covered then ds
        else if match ds_current_user_key ds with None => true | Some k => negb (@cmp U (user_key ikey) k =? 0) end
        then mkDropState (Some (user_key ikey)) kMaxSequenceNumber else ds in
      let '(drop, c) :=
        if ds_last_sequence_for_key ds <=? smallest_snapshot then (true, c)
        else if bool_decide (type ikey = kTypeDeletion) && (sequence ikey <=? smallest_snapshot) then
          let '(base, c) := IsBaseLevelForKey U (deref h) c (user_key ikey) in (covered || base, c)
        else (covered, c) in
      (drop, c, mkDropState (ds_current_user_key ds) (sequence ikey))
  end.

(** ** Adding an entry to the outputs *)

Definition tombstone_key (del : RangeDeletion) : bytes := mkInternalKey (start_key del) (seq del) kTypeRangeDeletion.

Definition add_tombstones (dels : RangeDeletionList) (builder : Rep W) : Rep W :=
  fold_left (fun b del => TB_Add ICmp K b (tombstone_key del) (end_key del)) dels builder.

(** The tombstone with the smallest start, and the largest end. *)

Definition min_start (dels : RangeDeletionList) : RangeDeletion :=
  match dels with
  | [] => mkRangeDel [] [] 0
  | d :: _ => fold_left (fun m del => if @cmp U (start_key del) (start_key m) <? 0 then del else m) dels d
  end.

Definition max_end (dels : RangeDeletionList) : bytes :=
  match dels with
  | [] => []
  | d :: _ => fold_left (fun m del => if 0 <? @cmp U (end_key del) m then end_key del else m) dels (end_key d)
  end.

(** The test that guards the stretching of the smallest key of the first output:
    it reads the list of outputs after the new output was added to it. *)

Definition stretch_smallest (dels : RangeDeletionList) (cs : CS) : CS :=
  match cs_outputs cs, dels with
  | [], _ :: _ =>
      let m := min_start dels in
      if match out_smallest (current_output cs) with [] => true | k => @cmp U (start_key m) (ExtractUserKey k) <? 0 end
      then on_current (set_smallest (tombstone_key m)) cs else cs
  | _, _ => cs
  end.

Definition extend_bounds (key : bytes) (cs : CS) : CS :=
  let cs :=
    if match out_smallest (current_output cs) with [] => true | k => @cmp U (ExtractUserKey key) (ExtractUserKey k) <? 0 end
    then on_current (set_smallest key) cs else cs in
  if match out_largest (current_output cs) with [] => true | k => 0 <? @cmp U (ExtractUserKey key) (ExtractUserKey k) end
  then on_current (set_largest key) cs else cs.

(** An entry that is kept. *)

Definition keep_entry (dels : RangeDeletionList) (input_status : Status) (key value : bytes) (cs : CS) (db : DB) : Status * CS * DB :=
  let '(s, cs, db) :=
    match cs_builder cs with
    | Some _ => (OK, cs, db)
    | None =>
        let '(s, cs, db) := OpenCompactionOutputFile cs db in
        if ok s then (s, stretch_smallest dels (with_builder cs (option_map (add_tombstones dels) (cs_builder cs))), db) else (s, cs, db)
    end in
  if ok s then
    let cs := extend_bounds key cs in
    let cs := with_builder cs (option_map (fun b => TB_Add ICmp K b key value) (cs_builder cs)) in
    if match cs_builder cs with Some b => c_max_output_file_size (cs_compaction cs) <=? FileSize b | None => false end
    then FinishCompactionOutputFile input_status cs db else (OK, cs, db)
  else (s, cs, db).

(** ** The loop *)

Section Loop.
Context {It : Type} {IT : Iterator It} (flush_fuel : nat) (range_dels dels : RangeDeletionList).

(** One turn: the status, and whether the loop goes on. *)

Definition compact_turn (input : It) (cs : CS) (ds : DropState) (db : DB) : option (Status * CS * DropState * DB) :=
  match CompactMemTable U K options comparator_name max_file_size dbname env denv tc_NewIterator flush_fuel db with
  | None => None
  | Some db =>
      let key := iKey input in
      let '(stop, c) := ShouldStopBefore U (deref (vs_heap (db_versions db))) max_file_size (cs_compaction cs) key in
      let cs := with_compaction cs c in
      let '(s, cs, db) :=
        match cs_builder cs with
        | Some _ => if stop then FinishCompactionOutputFile (iStatus input) cs db else (OK, cs, db)
        | None => (OK, cs, db)
        end in
      if ok s then
        let '(drop, c, ds) := drop_entry range_dels (cs_smallest_snapshot cs) (cs_compaction cs) (vs_heap (db_versions db)) key ds in
        let cs := with_compaction cs c in
        if drop then Some (OK, cs, ds, db)
        else let '(s, cs, db) := keep_entry dels (iStatus input) key (iValue input) cs db in Some (s, cs, ds, db)
      else Some (s, cs, ds, db)
  end.

Fixpoint compact_loop (fuel : nat) (input : It) (cs : CS) (ds : DropState) (db : DB) : option (Status * It * CS * DB) :=
  match fuel with
  | O => None
  | S fuel =>
      if iValid input && negb (db_shutting_down db) then
        match compact_turn input cs ds db with
        | None => None
        | Some (s, cs, ds, db) => if ok s then compact_loop fuel (iNext input) cs ds db else Some (s, input, cs, db)
        end
      else Some (OK, input, cs, db)
  end.

End Loop.

(** ** The end of the work *)

Definition stretch_largest (dels : RangeDeletionList) (cs : CS) : CS :=
  match cs_builder cs, dels with
  | Some _, _ :: _ =>
      let m := max_end dels in
      if match out_largest (current_output cs) with [] => true | k => 0 <? @cmp U m (ExtractUserKey k) end
      then on_current (set_largest (mkInternalKey m 0 kTypeDeletion)) cs else cs
  | _, _ => cs
  end.

(** No point entry survived but there are tombstones: a file of tombstones. *)

Definition tombstone_file (dels : RangeDeletionList) (input_status : Status) (cs : CS) (db : DB) : Status * CS * DB :=
  match cs_builder cs, dels, cs_outputs cs with
  | None, _ :: _, [] =>
      let '(s, cs, db) := OpenCompactionOutputFile cs db in
      if ok s then
        let cs := with_builder cs (option_map (add_tombstones dels) (cs_builder cs)) in
        let cs := on_current (fun o => set_largest (mkInternalKey (max_end dels) 0 kTypeDeletion) (set_smallest (tombstone_key (min_start dels)) o)) cs in
        FinishCompactionOutputFile input_status cs db
      else (s, cs, db)
  | _, _, _ => (OK, cs, db)
  end.

Definition finish_work (dels : RangeDeletionList) (s input_status : Status) (cs : CS) (db : DB) : Status * CS * DB :=
  let s := if ok s && db_shutting_down db then IOError (str "Deleting DB during compaction") [] else s in
  let cs := if ok s then stretch_largest dels cs else cs in
  let '(s, cs, db) := if ok s then FinishCompactionOutputFile input_status cs db else (s, cs, db) in
  let '(s, cs, db) := if ok s then tombstone_file dels input_status cs db else (s, cs, db) in
  (if ok s then input_status else s, cs, db).

Definition InstallCompactionResults (cs : CS) (db : DB) : option (Status * DB) :=
  let c := cs_compaction cs in
  let edit := AddInputDeletions (deref (vs_heap (db_versions db))) c (c_edit c) in
  let edit := fold_left (fun e o => AddFile (Z.of_nat (c_level c + 1)) (out_number o) (out_file_size o) (out_smallest o) (out_largest o) e)
    (cs_outputs cs) edit in
  option_map (fun r => (fst (fst r), with_vs db (snd r))) (LogAndApply U comparator_name dbname env (db_versions db) edit).

(** ** [DoCompactionWork] *)

Definition smallest_snapshot_of (db : DB) : Z :=
  match SL_oldest (db_snapshots db) with Some s => s | None => vs_last_sequence (db_versions db) end.

Definition input_range_dels (c : Compaction nat) (db : DB) : RangeDeletionList :=
  let h := vs_heap (db_versions db) in
  fold_left (fun l f => RDL_MergeInto l (Some (tc_GetRangeDeletions (db_env db) (f_number (deref h f)) (f_file_size (deref h f)))))
    (fst (c_inputs c) ++ snd (c_inputs c)) [].

Definition input_ops (c : Compaction nat) (db : DB) : Iterator (MergingIterator (TI + TwoLevelIterator (LevelFileNumIterator nat) TI)) :=
  @MergingOps ICmp _ (SumOps TIO (LevelIterOps U (tc_NewIterator (db_env db)) tc_error (mkReadOptions (opt_paranoid_checks options) false)
    (vs_heap (db_versions db)) (length (fst (c_inputs c) ++ snd (c_inputs c))))).

Definition DoCompactionWork (flush_fuel fuel : nat) (cs : CS) (db : DB) : option (Status * CS * DB) :=
  let cs := mkCompactionState W (cs_compaction cs) (smallest_snapshot_of db) (cs_outputs cs) (cs_builder cs) (cs_total_bytes cs) in
  let range_dels := input_range_dels (cs_compaction cs) db in
  let IO := input_ops (cs_compaction cs) db in
  let input := MakeInputIterator (tc_NewIterator (db_env db)) (opt_paranoid_checks options) (vs_heap (db_versions db)) (cs_compaction cs) in
  let dels := compaction_dels range_dels in
  match compact_loop flush_fuel range_dels dels fuel (iSeekToFirst input) cs DropState_new db with
  | None => None
  | Some (s, input, cs, db) =>
      let '(s, cs, db) := finish_work dels s (iStatus input) cs db in
      match (if ok s then InstallCompactionResults cs db else Some (s, db)) with
      | None => None
      | Some (s, db) => Some (s, cs, if ok s then db else RecordBackgroundError s db)
      end
  end.

(** ** [CleanupCompaction] and [BackgroundCompaction] *)

Definition CleanupCompaction (cs : CS) (db : DB) : DB :=
  let db := match cs_builder cs with
            | Some b => with_env db (de_close denv (db_env db) (TableFileName dbname (out_number (current_output cs))) (r_file (Abandon b)))
            | None => db
            end in
  with_pending db (fold_left (fun p o => p ∖ {[out_number o]}) (cs_outputs cs) (db_pending_outputs db)).

Definition trivial_move_edit (c : Compaction nat) (h : FileHeap) (f : nat) : VersionEdit :=
  AddFile (Z.of_nat (c_level c + 1)) (f_number (deref h f)) (f_file_size (deref h f)) (f_smallest (deref h f)) (f_largest (deref h f))
    (RemoveFile (Z.of_nat (c_level c)) (f_number (deref h f)) (c_edit c)).

(** The compaction that is due: the manual one or the one the scores ask for.  It
    moves the compaction pointer and holds a reference to the current version. *)

Definition manual_at (db : DB) (m : nat) : ManualCompaction := default (mkManual 0 false None None) (db_manual_objects db !! m).

Definition set_manual (m : nat) (mc : ManualCompaction) (db : DB) : DB :=
  with_background db (db_scheduled db) (db_manual db) (<[m := mc]> (db_manual_objects db)) (db_bg_error db).

Definition choose_compaction (db : DB) : option (option (Compaction nat) * DB) :=
  let vs := db_versions db in
  let picked :=
    match db_manual db with
    | Some m =>
        let mc := manual_at db m in
        CompactRange U (deref (vs_heap vs)) max_file_size (current vs) (vs_compact_pointer vs) (mc_level mc) (mc_begin mc) (mc_end mc)
    | None => PickCompaction U (deref (vs_heap vs)) max_file_size (current vs) (vs_compact_pointer vs)
    end in
  match picked with
  | None => None
  | Some None => Some (None, db)
  | Some (Some (c, cp)) => Some (Some c, ref_version (with_vs db (with_heap vs (vs_heap vs) cp)) (vs_current vs))
  end.

(** [m->done] and the place where a manual compaction goes on. *)

Definition manual_chosen (c : option (Compaction nat)) (db : DB) : DB :=
  match db_manual db with
  | Some m =>
      let mc := manual_at db m in
      set_manual m (mkManual (mc_level mc) (match c with None => true | Some _ => false end) (mc_begin mc) (mc_end mc)) db
  | None => db
  end.

Definition manual_end (c : option (Compaction nat)) (h : FileHeap) : bytes :=
  match c with
  | Some c => match list.last (fst (c_inputs c)) with Some f => f_largest (deref h f) | None => [] end
  | None => []
  end.

Definition manual_finished (status : Status) (next : bytes) (db : DB) : DB :=
  match db_manual db with
  | Some m =>
      let mc := manual_at db m in
      let mc := if ok status then mc else mkManual (mc_level mc) true (mc_begin mc) (mc_end mc) in
      let mc := if mc_done mc then mc else mkManual (mc_level mc) (mc_done mc) (Some next) (mc_end mc) in
      let db := set_manual m mc db in
      with_background db (db_scheduled db) None (db_manual_objects db) (db_bg_error db)
  | None => db
  end.

(** The compaction itself: a file is moved to the next level, or the inputs are
    merged.  [version] is the version that the compaction holds. *)

Definition run_compaction (flush_fuel fuel : nat) (version : option nat) (c : Compaction nat) (db : DB) : option (Status * DB) :=
  let h := vs_heap (db_versions db) in
  if (is_null (db_manual db) || db_full_compaction db) && IsTrivialMove (deref h) max_file_size c then
    match fst (c_inputs c) with
    | [] => None
    | f :: _ =>
        match LogAndApply U comparator_name dbname env (db_versions db) (trivial_move_edit c h f) with
        | None => None
        | Some (s, _, vs) =>
            let db := with_vs db vs in
            let db := if ok s then db else RecordBackgroundError s db in
            Some (s, release_version db version)
        end
    end
  else
    match DoCompactionWork flush_fuel fuel (CompactionState_new c) db with
    | None => None
    | Some (s, cs, db) =>
        let db := if ok s then db else RecordBackgroundError s db in
        let db := release_version (CleanupCompaction cs db) version in
        Some (s, RemoveObsoleteFiles dbname env denv db)
    end.

Definition BackgroundCompaction (flush_fuel fuel : nat) (db : DB) : option DB :=
  match db_imm db with
  | Some _ => CompactMemTable U K options comparator_name max_file_size dbname env denv tc_NewIterator flush_fuel db
  | None =>
      match choose_compaction db with
      | None => None
      | Some (c, db) =>
          let db := manual_chosen c db in
          let next := manual_end c (vs_heap (db_versions db)) in
          match match c with None => Some (OK, db) | Some c => run_compaction flush_fuel fuel (vs_current (db_versions db)) c db end with
          | None => None
          | Some (s, db) => Some (manual_finished s next db)
          end
      end
  end.

Definition BackgroundCall (flush_fuel fuel : nat) (db : DB) : option DB :=
  match (if db_shutting_down db || negb (ok (db_bg_error db)) then Some db else BackgroundCompaction flush_fuel fuel db) with
  | None => None
  | Some db => Some (MaybeScheduleCompaction (with_background db false (db_manual db) (db_manual_objects db) (db_bg_error db)))
  end.

End Compact.
