(* ===== verification/DbDrop.v ===== *)
(** * A compaction drops only what nobody can read (db/db_impl.cc: DoCompactionWork)

    The rule that decides which entries a compaction drops, as a function of the
    entries in internal key order, and what it means: for every reader at or past
    the oldest snapshot the values of all keys are the same before and after,
    whatever is in the levels above and below. *)

From S2P Require Import Prelude Coding Compare DbFormat Logging FileName SkipList Arena MemTable WriteBatch Crc32c Env Log Filter Iterator Block Format Merger TwoLevel TableBuilder Table VersionEdit Version VersionGet Compaction VersionSet MemIter DbIter DbImpl DbRead DbReadOk DbScan DbFlush DbCompact.
#[local] Open Scope Z_scope.
#[local] Open Scope ldb_scope.

Section Drop.
Context {U : Comparator} {UOK : ComparatorOk U}.
Hypothesis all_keys : forall u, @cmp_dom U u.
Context (rd : RangeDeletionList) (snap : Z) (base : bytes -> bool).

#[local] Abbreviation ICmp := (InternalKeyComparator U).

(** ** The rule, with the answer of the base level test as a function *)

Definition drop_rule (key : bytes) (ds : DropState) : bool * DropState :=
  match ParseInternalKey key with
  | None => (false, mkDropState None kMaxSequenceNumber)
  | Some ikey =>
      let covered := RDL_IsDeleted rd (user_key ikey) (sequence ikey) snap in
      let ds :=
        if covered then ds
        else if match ds_current_user_key ds with None => true | Some k => negb (cmp (user_key ikey) k =? 0) end
        then mkDropState (Some (user_key ikey)) kMaxSequenceNumber else ds in
      ((ds_last_sequence_for_key ds <=? snap) || covered ||
       (bool_decide (type ikey = kTypeDeletion) && (sequence ikey <=? snap) && base (user_key ikey)),
       mkDropState (ds_current_user_key ds) (sequence ikey))
  end.

Lemma drop_entry_rule h c key ds : (forall k, ParseInternalKey key = Some k -> fst (IsBaseLevelForKey U (deref h) c (user_key k)) = base (user_key k)) ->
  let '(d, c', ds') := drop_entry U rd snap c h key ds in
  (d, ds') = drop_rule key ds /\ (c' = c \/ exists k, ParseInternalKey key = Some k /\ c' = snd (IsBaseLevelForKey U (deref h) c (user_key k))).
Proof.
  intros HB. unfold drop_entry, drop_rule. destruct (ParseInternalKey key) as [k|] eqn:EP; [|auto].
  set (cov := RDL_IsDeleted rd (user_key k) (sequence k) snap). set (ds1 := if cov then ds else _). specialize (HB k eq_refl).
  destruct (ds_last_sequence_for_key ds1 <=? snap); [auto|]. cbn [orb].
  destruct (bool_decide (type k = kTypeDeletion) && (sequence k <=? snap)); cbn [andb].
  - destruct (IsBaseLevelForKey U (deref h) c (user_key k)) as [b c'] eqn:EB. cbn [fst snd] in HB. rewrite HB. split; [reflexivity|]. right. exists k. rewrite EB. auto.
  - rewrite orb_false_r. auto.
Qed.

(** The operations that are kept. *)

Fixpoint kept (ds : DropState) (ops : list (Z * Op)) : list (Z * Op) :=
  match ops with
  | [] => []
  | x :: ops => let '(d, ds) := drop_rule (entry_ikey x) ds in if d then kept ds ops else x :: kept ds ops
  end.

Definition state_after (ds : DropState) (ops : list (Z * Op)) : DropState := fold_left (fun ds x => snd (drop_rule (entry_ikey x) ds)) ops ds.

Lemma kept_in ops x : forall ds, In x (kept ds ops) <->
  exists l1 l2, ops = l1 ++ x :: l2 /\ fst (drop_rule (entry_ikey x) (state_after ds l1)) = false.
Proof.
  induction ops as [|y ops IH]; intros ds; cbn [kept].
  - split; [contradiction|]. intros (l1 & l2 & E & _). destruct l1; discriminate E.
  - destruct (drop_rule (entry_ikey y) ds) as [d ds'] eqn:ED.
    assert (HI : In x (kept ds' ops) <-> exists l1 l2, y :: ops = (y :: l1) ++ x :: l2 /\ fst (drop_rule (entry_ikey x) (state_after ds (y :: l1))) = false).
    { assert (HS : forall l, state_after ds (y :: l) = state_after ds' l) by (intros l; change (state_after (snd (drop_rule (entry_ikey y) ds)) l = state_after ds' l); rewrite ED; reflexivity).
      rewrite IH. split; intros (l1 & l2 & E & H); exists l1, l2; rewrite HS in *; (split; [|exact H]).
      - rewrite E. reflexivity.
      - injection E as E. exact E. }
    split.
    + intros H. destruct d; [apply HI in H as (l1 & l2 & H); eauto|]. destruct H as [<-|H]; [|apply HI in H as (l1 & l2 & H); eauto].
      exists [], ops. split; [reflexivity|]. change (fst (drop_rule (entry_ikey y) ds) = false). rewrite ED. reflexivity.
    + intros (l1 & l2 & E & H). destruct l1 as [|z l1].
      * injection E as <- <-. change (fst (drop_rule (entry_ikey y) ds) = false) in H. rewrite ED in H. cbn in H. subst d. left. reflexivity.
      * injection E as <- E. assert (Hin : In x (kept ds' ops)) by (apply HI; exists l1, l2; rewrite E; auto). destruct d; [exact Hin|right; exact Hin].
Qed.

Lemma kept_incl ops ds x : In x (kept ds ops) -> In x ops.
Proof. intros H. apply kept_in in H as (l1 & l2 & -> & _). apply in_elt. Qed.

(** ** What the rule means on sorted point operations *)

Context (P : list (Z * Op)).
Hypothesis Hseq : Forall (fun x => 0 <= fst x <= kMaxSequenceNumber) P.
Hypothesis Hsorted : sorted_entries ICmp (map op_entry P).
Hypothesis Hsnap : snap < kMaxSequenceNumber.

#[local] Abbreviation key x := (op_key (snd x)).

Definition is_covered (x : Z * Op) : bool := RDL_IsDeleted rd (key x) (fst x) snap.

Lemma P_seq x : In x P -> 0 <= fst x <= kMaxSequenceNumber.
Proof. rewrite List.Forall_forall in Hseq. exact (Hseq x). Qed.

(** The order of the operations: by user key, and newer ones first. *)

Lemma P_order l1 l2 x y : P = l1 ++ x :: l2 -> In y l2 -> cmp (key x) (key y) <= 0 /\ (key x = key y -> fst y <= fst x).
Proof.
  intros E Hy. assert (Hx : In x P) by (rewrite E; apply in_elt). assert (Hy' : In y P) by (rewrite E; apply in_app_iff; right; right; exact Hy).
  destruct Hsorted as [HS _]. rewrite E, map_app in HS. apply StronglySorted_app_iff in HS as (_ & HS & _). cbn [map] in HS.
  apply StronglySorted_inv in HS as [_ HF]. rewrite List.Forall_forall in HF. specialize (HF (op_entry y) (in_map _ _ _ Hy)).
  unfold key_lt in HF. cbn [op_entry fst] in HF. change (IKC_Compare U (entry_ikey x) (entry_ikey y) < 0) in HF.
  split.
  - apply IKC_lt in HF. rewrite !entry_ikey_user in HF. destruct HF as [HF|[HF _]]; lia.
  - intros Ek. apply (entry_order (U := U)); [exact (P_seq x Hx)|exact (P_seq y Hy')|apply all_keys|exact Ek|lia].
Qed.

Lemma parse_entry x : In x P -> ParseInternalKey (entry_ikey x) = Some (mkParsed (key x) (fst x) (op_type (snd x))).
Proof. intros Hx. unfold entry_ikey. apply ParseInternalKey_make, P_seq, Hx. Qed.

Lemma rule_entry x ds : In x P -> drop_rule (entry_ikey x) ds =
  let ds := if is_covered x then ds
            else if match ds_current_user_key ds with None => true | Some k => negb (cmp (key x) k =? 0) end
            then mkDropState (Some (key x)) kMaxSequenceNumber else ds in
  ((ds_last_sequence_for_key ds <=? snap) || is_covered x ||
   (bool_decide (op_type (snd x) = kTypeDeletion) && (fst x <=? snap) && base (key x)),
   mkDropState (ds_current_user_key ds) (fst x)).
Proof. intros Hx. unfold drop_rule. rewrite (parse_entry x Hx). reflexivity. Qed.

(** Older operations on a covered key are covered. *)

Lemma covered_older_op x y : is_covered x = true -> key x = key y -> fst y <= fst x -> is_covered y = true.
Proof. unfold is_covered. intros H E Hle. rewrite <- E. exact (RDL_IsDeleted_mono _ _ _ _ _ _ Hle (Z.le_refl _) H). Qed.

(** The state before an entry: the last entry, and the last one not covered. *)

Record state_ok (l1 : list (Z * Op)) (ds : DropState) : Prop := {
  so_last : ds_last_sequence_for_key ds = match list.last l1 with Some y => fst y | None => kMaxSequenceNumber end;
  so_current : forall k, ds_current_user_key ds = Some k -> exists y, In y l1 /\ key y = k;
  so_uncovered : forall y, list.last l1 = Some y -> is_covered y = false -> ds_current_user_key ds = Some (key y)
}.

Lemma state_after_ok l1 : incl l1 P -> state_ok l1 (state_after DropState_new l1).
Proof.
  induction l1 as [|x l1 IH] using rev_ind; intros Hin; [split; [reflexivity|discriminate|discriminate]|].
  assert (Hx : In x P) by (apply Hin, in_app_iff; right; left; reflexivity).
  destruct (IH (fun y Hy => Hin y (proj2 (in_app_iff _ _ _) (or_introl Hy)))) as [S1 S2 S3].
  unfold state_after. rewrite fold_left_app. cbn [fold_left]. fold (state_after DropState_new l1). set (ds := state_after DropState_new l1) in *.
  rewrite (rule_entry x ds Hx). cbv zeta. cbn [snd]. set (ds1 := if is_covered x then ds else _).
  assert (HC : forall k, ds_current_user_key ds1 = Some k -> exists y, In y (l1 ++ [x]) /\ key y = k).
  { intros k Hk. unfold ds1 in Hk. destruct (is_covered x); [|destruct (match ds_current_user_key ds with None => true | Some k => _ end)].
    2: injection Hk as <-; exists x; (split; [apply in_app_iff; right; left; reflexivity|reflexivity]).
    all: destruct (S2 k Hk) as (y & Hy & Ey); exists y; (split; [apply in_app_iff; left; exact Hy|exact Ey]). }
  split; cbn [ds_last_sequence_for_key ds_current_user_key].
  - rewrite last_snoc. reflexivity.
  - exact HC.
  - intros y Hy Hcov. rewrite last_snoc in Hy. injection Hy as <-. unfold ds1 in *. rewrite Hcov in *.
    destruct (ds_current_user_key ds) as [k|] eqn:Ek; [|reflexivity]. destruct (Z.eqb_spec (cmp (key x) k) 0) as [E0|]; cbn [negb]; [|reflexivity].
    apply cmp_eq in E0; [|apply all_keys|apply all_keys]. rewrite Ek, E0. reflexivity.
Qed.

(** An entry is hidden when the entry in front of it has the same user key and
    is at or below the oldest snapshot. *)

Definition hidden (l1 : list (Z * Op)) (x : Z * Op) : Prop := exists y, list.last l1 = Some y /\ key y = key x /\ fst y <= snap.

Definition obsolete_deletion (x : Z * Op) : Prop := op_type (snd x) = kTypeDeletion /\ fst x <= snap /\ base (key x) = true.

Lemma drop_means l1 x l2 : P = l1 ++ x :: l2 ->
  fst (drop_rule (entry_ikey x) (state_after DropState_new l1)) = true <-> is_covered x = true \/ hidden l1 x \/ obsolete_deletion x.
Proof.
  intros E. assert (Hx : In x P) by (rewrite E; apply in_elt).
  assert (Hin : incl l1 P) by (rewrite E; intros y Hy; apply in_app_iff; left; exact Hy).
  destruct (state_after_ok l1 Hin) as [S1 S2 S3]. rewrite (rule_entry x _ Hx). cbv zeta. cbn [fst]. set (ds := state_after DropState_new l1) in *.
  rewrite !orb_true_iff, !andb_true_iff, bool_decide_eq_true, !Z.leb_le.
  destruct (is_covered x) eqn:Ec; [tauto|]. set (ds1 := if match ds_current_user_key ds with None => true | Some k => negb (cmp (key x) k =? 0) end then mkDropState (Some (key x)) kMaxSequenceNumber else ds).
  assert (HA : ds_last_sequence_for_key ds1 <= snap <-> hidden l1 x).
  { unfold ds1, hidden. destruct (list.last l1) as [y|] eqn:El.
    - assert (Hy : In y l1) by (apply last_Some_elem_of, list_elem_of_In in El; exact El).
      apply last_Some in El as [l0 El]. assert (EP : P = l0 ++ y :: x :: l2) by (rewrite E, El, <- app_assoc; reflexivity).
      destruct (P_order l0 (x :: l2) y x EP (or_introl eq_refl)) as [Ho1 Ho2].
      destruct (decide (key y = key x)) as [Ek|Ek].
      + assert (Hyc : is_covered y = false).
        { destruct (is_covered y) eqn:Eyc; [|reflexivity]. rewrite (covered_older_op y x Eyc Ek (Ho2 Ek)) in Ec. discriminate. }
        rewrite (S3 y eq_refl Hyc), Ek, cmp_refl by apply all_keys. cbn [Z.eqb negb]. rewrite S1. split.
        * intros H. exists y. auto.
        * intros (y' & [= <-] & _ & H). exact H.
      + assert (Hreset : match ds_current_user_key ds with None => true | Some k => negb (cmp (key x) k =? 0) end = true).
        { destruct (ds_current_user_key ds) as [k|] eqn:Ek'; [|reflexivity]. destruct (S2 k eq_refl) as (z & Hz & <-). apply negb_true_iff, Z.eqb_neq.
          intros H0. apply cmp_eq in H0; [|apply all_keys|apply all_keys]. rewrite El in Hz. apply in_app_iff in Hz as [Hz|[<-|[]]]; [|congruence].
          apply in_split in Hz as (a & b & ->).
          assert (E2 : P = a ++ z :: (b ++ y :: x :: l2)) by (rewrite EP, <- app_assoc; reflexivity).
          destruct (P_order a _ z y E2) as [O1 _]; [apply in_elt|]. rewrite <- H0 in O1.
          assert (E0 : cmp (key y) (key x) = 0) by (pose proof (cmp_sgn (key x) (key y) (all_keys _) (all_keys _)); lia).
          apply cmp_eq in E0; [congruence|apply all_keys|apply all_keys]. }
        rewrite Hreset. cbn [ds_last_sequence_for_key]. split; [lia|]. intros (y' & [= <-] & H & _). contradiction.
    - apply last_None in El. subst l1. cbn in ds. subst ds. cbn. split; [lia|]. intros (y & Hy & _). discriminate. }
  rewrite HA. unfold obsolete_deletion. intuition discriminate.
Qed.

(** ** Readers see the same values *)

Context (D above deep : list (Z * Op)).
Hypothesis Hpoints : Forall (fun x => is_range_op x = false) P.
Hypothesis Hdistinct : NoDup (map fst P).
Hypothesis Hrd : rd_is rd D.
Hypothesis Hranges : Forall (fun x => is_range_op x = true) D.
Hypothesis Habove : forall q u v y, In (q, OpPut u v) above -> In y P -> key y = u -> fst y < q.
Hypothesis Hdeep : forall q u v, In (q, OpPut u v) deep -> base u = false.

Context (u : bytes) (s : Z).
Hypothesis Hs : snap <= s.

#[local] Abbreviation before := (above ++ P ++ D ++ deep).
#[local] Abbreviation after := (above ++ kept DropState_new P ++ D ++ deep).

Lemma point_sees x : In x P -> key x = u -> fst x <= s -> sees u s x.
Proof.
  intros Hx Ek Hq. split; [exact Hq|]. rewrite List.Forall_forall in Hpoints. specialize (Hpoints x Hx). unfold is_range_op in Hpoints.
  destruct (snd x) as [k v|k|a b]; cbn in *; try discriminate; subst; rewrite decide_True by reflexivity; discriminate.
Qed.

Lemma sees_key x : In x P -> sees u s x -> key x = u.
Proof. intros Hx [_ Ht]. rewrite List.Forall_forall in Hpoints. exact (touches_point x u (Hpoints x Hx) Ht). Qed.

Lemma put_of (x : Z * Op) v : touches (snd x) u = Some (Some v) -> x = (fst x, OpPut u v).
Proof.
  destruct x as [q [k w|k|a b]]; cbn; [|destruct (decide _); discriminate|destruct (_ && _); discriminate].
  destruct (decide (k = u)) as [->|]; [|discriminate]. intros [= ->]. reflexivity.
Qed.

(** A covered operation is below a tombstone that stays. *)

Lemma covered_tombstone x : is_covered x = true -> key x = u -> exists d, In d D /\ sees u s d /\ fst x < fst d.
Proof.
  unfold is_covered. intros H Ek. rewrite Hrd, Ek in H. apply covered_iff in H as (q & a & b & Hd & H1 & H2 & H3).
  exists (q, OpDeleteRange a b). split; [exact Hd|]. split; [|cbn; lia]. split; [cbn; lia|]. apply range_touches. auto.
Qed.

Lemma distinct_seq l1 (y x : Z * Op) l2 : P = l1 ++ x :: l2 -> In y l1 -> fst y <> fst x.
Proof.
  intros E Hy He. rewrite E, map_app in Hdistinct. cbn [map] in Hdistinct. apply list.NoDup_app in Hdistinct as (_ & HN & _).
  apply (HN (fst y)); [apply list_elem_of_In, in_map, Hy|]. rewrite He. apply list_elem_of_In. left. reflexivity.
Qed.

Lemma after_incl x : In x after -> In x before.
Proof.
  rewrite !in_app_iff. intros [H|[H|H]]; [auto| |auto]. right. left. exact (kept_incl P DropState_new x H).
Qed.

(** The newest visible value is kept. *)

Lemma value_kept (x : Z * Op) v : In x before -> fst x <= s -> touches (snd x) u = Some (Some v) ->
  (forall y, In y before -> sees u s y -> fst y <= fst x) -> In x after.
Proof.
  intros Hx Hq Ht Hmax. rewrite !in_app_iff in *. destruct Hx as [Hx|[Hx|Hx]]; [auto| |auto]. right. left.
  pose proof (put_of x v Ht) as Ex. destruct (in_split _ _ Hx) as (l1 & l2 & E). apply kept_in. exists l1, l2. split; [exact E|].
  apply not_true_is_false. intros HD. apply (drop_means l1 x l2 E) in HD.
  assert (Ek : key x = u) by (rewrite Ex; reflexivity). destruct HD as [HD|[(y & Hy & Eky & Hle)|(HT & _)]].
  - destruct (covered_tombstone x HD Ek) as (d & Hd & Hsd & Hlt). specialize (Hmax d ltac:(rewrite !in_app_iff; auto) Hsd). lia.
  - apply last_Some in Hy as [l0 ->]. assert (HyP : In y P) by (rewrite E, <- app_assoc; apply in_elt).
    specialize (Hmax y ltac:(rewrite !in_app_iff; auto) (point_sees y HyP ltac:(congruence) ltac:(lia))).
    assert (E2 : P = l0 ++ y :: (x :: l2)) by (rewrite E, <- app_assoc; reflexivity).
    destruct (P_order l0 (x :: l2) y x E2 (or_introl eq_refl)) as [_ Ho]. specialize (Ho Eky).
    apply (distinct_seq (l0 ++ [y]) y x l2 E); [apply in_app_iff; right; left; reflexivity|lia].
  - rewrite Ex in HT. discriminate HT.
Qed.

(** A value that is kept is not older than a dropped operation on its key. *)

Lemma kept_not_older (x : Z * Op) v : In x after -> touches (snd x) u = Some (Some v) -> fst x <= s ->
  (forall y, In y after -> sees u s y -> fst y <= fst x) ->
  forall n l1 y l2, (length l1 <= n)%nat -> P = l1 ++ y :: l2 -> sees u s y -> fst y <= fst x.
Proof.
  intros Hx Ht Hq Hmax. pose proof (put_of x v Ht) as Ex. induction n as [n IH] using lt_wf_ind. intros l1 y l2 Hn E Hy.
  assert (HyP : In y P) by (rewrite E; apply in_elt). pose proof (sees_key y HyP Hy) as Ek.
  destruct (fst (drop_rule (entry_ikey y) (state_after DropState_new l1))) eqn:ED.
  2:{ apply Hmax; [|exact Hy]. rewrite !in_app_iff. right. left. apply kept_in. eauto. }
  apply (drop_means l1 y l2 E) in ED as [HD|[(z & Hz & Ekz & Hle)|(HT & Hle & HB)]].
  - destruct (covered_tombstone y HD Ek) as (d & Hd & Hsd & Hlt). specialize (Hmax d ltac:(rewrite !in_app_iff; auto) Hsd). lia.
  - apply last_Some in Hz as [l0 ->]. assert (E2 : P = l0 ++ z :: (y :: l2)) by (rewrite E, <- app_assoc; reflexivity).
    assert (HzP : In z P) by (rewrite E2; apply in_elt). destruct (P_order l0 (y :: l2) z y E2 (or_introl eq_refl)) as [_ Ho]. specialize (Ho Ekz).
    rewrite length_app in Hn. cbn [length] in Hn. specialize (IH (length l0) ltac:(lia) l0 z (y :: l2) ltac:(lia) E2 (point_sees z HzP ltac:(congruence) ltac:(lia))). lia.
  - rewrite Ek in HB. rewrite !in_app_iff in Hx. destruct Hx as [Hx|[Hx|[Hx|Hx]]].
    + rewrite Ex in Hx. specialize (Habove _ _ _ y Hx HyP Ek). lia.
    + apply kept_in in Hx as (a & b & E2 & Hkept). destruct (Z.le_gt_cases (fst y) (fst x)) as [|Hlt]; [assumption|exfalso].
      assert (Hya : In y a).
      { assert (Hin : In y (a ++ x :: b)) by (rewrite <- E2; exact HyP). apply in_app_iff in Hin as [Hin|[<-|Hin]]; [exact Hin|lia|].
        destruct (P_order a b x y E2 Hin) as [_ Ho]. rewrite Ex in Ho. cbn in Ho. specialize (Ho (eq_sym Ek)). rewrite Ex in Hlt. cbn in Hlt. lia. }
      enough (hidden a x) as Hh by (assert (HDx : fst (drop_rule (entry_ikey x) (state_after DropState_new a)) = true) by (apply (drop_means a x b E2); auto); congruence).
      destruct (list.last a) as [z|] eqn:Ez; [|apply last_None in Ez; subst a; contradiction].
      apply last_Some in Ez as [a0 ->]. exists z. rewrite last_snoc. split; [reflexivity|].
      assert (E3 : P = a0 ++ z :: (x :: b)) by (rewrite E2, <- app_assoc; reflexivity).
      apply in_app_iff in Hya as [Hya|[->|[]]]; [|split; [rewrite Ek, Ex; reflexivity|lia]].
      destruct (in_split _ _ Hya) as (c & d & ->).
      assert (E4 : P = c ++ y :: (d ++ z :: x :: b)) by (rewrite E3, <- app_assoc; reflexivity).
      destruct (P_order c _ y z E4) as [O1 O2]; [apply in_elt|]. destruct (P_order _ _ z x E3 (or_introl eq_refl)) as [O3 _].
      assert (Ekz : key z = key x).
      { assert (Hkx : key x = u) by (rewrite Ex; reflexivity). rewrite Ek in O1. rewrite Hkx in *.
        apply cmp_eq; [apply all_keys|apply all_keys|]. pose proof (cmp_sgn (key z) u (all_keys _) (all_keys _)). lia. }
      split; [exact Ekz|]. assert (Hzy : key y = key z) by (rewrite Ekz, Ek, Ex; reflexivity). specialize (O2 Hzy). lia.
    + rewrite List.Forall_forall in Hranges. specialize (Hranges x Hx). rewrite Ex in Hranges. discriminate Hranges.
    + rewrite Ex in Hx. rewrite (Hdeep _ _ _ Hx) in HB. discriminate HB.
Qed.

Lemma values_same v : Answer before u s (Some (Some v)) <-> Answer after u s (Some (Some v)).
Proof.
  split; intros H; inversion H as [|x t Hx Hq Ht Hmax]; subst.
  - apply (ans_some _ _ _ x); [exact (value_kept x v Hx Hq Ht Hmax)|exact Hq|exact Ht|]. intros y Hy. apply Hmax, after_incl, Hy.
  - apply (ans_some _ _ _ x); [exact (after_incl x Hx)|exact Hq|exact Ht|]. intros y Hy Hys. rewrite !in_app_iff in Hy.
    destruct Hy as [Hy|[Hy|Hy]]; [apply Hmax; [rewrite !in_app_iff; auto|exact Hys]| |apply Hmax; [rewrite !in_app_iff; auto|exact Hys]].
    destruct (in_split _ _ Hy) as (l1 & l2 & E). exact (kept_not_older x v Hx Ht Hq Hmax (length l1) l1 y l2 (Nat.le_refl _) E Hys).
Qed.

End Drop.

(** ** The rule in the code: the state of the base level test is threaded through *)

Section Surviving.
Context (U : Comparator).

Fixpoint surviving (rd : RangeDeletionList) (snap : Z) (h : FileHeap) (c : Compaction nat) (ds : DropState) (es : list entry) : list entry :=
  match es with
  | [] => []
  | e :: es =>
      let '(d, c, ds) := drop_entry U rd snap c h (fst e) ds in
      if d then surviving rd snap h c ds es else e :: surviving rd snap h c ds es
  end.

End Surviving.

Section BaseLevel.
Context {U : Comparator} {UOK : ComparatorOk U}.
Hypothesis all_keys : forall u, @cmp_dom U u.
Context (h : FileHeap) (v : Version nat) (level : nat).
Hypothesis HL : forall l, (0 < l)%nat -> level_sorted (U := U) (deref h) (files_at v l).

(** No file of a level below the outputs contains the key. *)

Definition no_deeper (u : bytes) : bool := negb (deeper_levels (U := U) (deref h) v (level + 2) (kNumLevels - (level + 2)) u).

(** A compaction that has asked about keys up to [k]. *)

Record asked (c : Compaction nat) (k : bytes) : Prop := {
  as_version : c_input_version c = Some v;
  as_level : c_level c = level;
  as_ptrs : ptrs_ok (U := U) (deref h) v (level + 2) (c_level_ptrs c) k
}.

Lemma asked_mono c k k' : asked c k -> cmp k k' <= 0 -> asked c k'.
Proof.
  intros [A1 A2 A3] H. split; [exact A1|exact A2|]. apply (ptrs_ok_mono (deref h) v HL (level + 2) (c_level_ptrs c) k k'); auto. lia.
Qed.

Lemma ask c u : asked c u -> exists c', IsBaseLevelForKey U (deref h) c u = (no_deeper u, c') /\ asked c' u.
Proof.
  intros [A1 A2 A3]. unfold IsBaseLevelForKey. rewrite A1, A2.
  destruct (IsBaseLevelForKey_loop_ok (deref h) v HL u (all_keys u) kNumLevels (level + 2) (level + 2) (c_level_ptrs c)) as (ptrs' & -> & HP'); [lia|lia|exact A3|].
  eexists. split; [reflexivity|]. split; [exact A1|exact A2|exact HP'].
Qed.

Lemma asked_new max_file_size inputs k : asked (with_inputs (Compaction_new max_file_size level) v inputs) k.
Proof.
  split; [reflexivity|reflexivity|]. split; [reflexivity|]. intros lvl ptr _ E. assert (E' : In ptr (repeat O kNumLevels)) by (apply In_lookup; eauto).
  apply repeat_spec in E' as ->. split; [intros i f Hi; lia|lia].
Qed.

(** One decision. *)

Lemma drop_entry_ok rd snap c key k ds u : asked c u -> ParseInternalKey key = Some k -> cmp u (user_key k) <= 0 ->
  exists c', drop_entry U rd snap c h key ds = (fst (drop_rule (U := U) rd snap no_deeper key ds), c', snd (drop_rule (U := U) rd snap no_deeper key ds)) /\
    asked c' (user_key k).
Proof.
  intros HA EP Hle. pose proof (asked_mono c u (user_key k) HA Hle) as HA'. destruct (ask c (user_key k) HA') as (c1 & E1 & HA1).
  assert (HB : forall k', ParseInternalKey key = Some k' -> fst (IsBaseLevelForKey U (deref h) c (user_key k')) = no_deeper (user_key k'))
    by (intros k' EP'; rewrite EP in EP'; injection EP' as <-; rewrite E1; reflexivity).
  pose proof (drop_entry_rule (U := U) rd snap no_deeper h c key ds HB) as HR. destruct (drop_entry U rd snap c h key ds) as [[d c'] ds'].
  destruct HR as [HR Hc]. rewrite <- HR. cbn [fst snd]. exists c'. split; [reflexivity|].
  destruct Hc as [->|(k' & EP' & ->)]; [exact HA'|]. rewrite EP in EP'. injection EP' as <-. rewrite E1. exact HA1.
Qed.

Lemma surviving_kept rd snap P : forall c ds u, Forall (fun x => 0 <= fst x <= kMaxSequenceNumber) P ->
  sorted_entries (InternalKeyComparator U) (map op_entry P) -> asked c u -> (forall x, In x P -> cmp u (op_key (snd x)) <= 0) ->
  surviving U rd snap h c ds (map op_entry P) = map op_entry (kept (U := U) rd snap no_deeper ds P).
Proof.
  induction P as [|x P IH]; intros c ds u Hseq HS HA Hu; [reflexivity|]. cbn [map surviving kept op_entry fst].
  pose proof (P_order all_keys (x :: P) Hseq HS [] P x) as HO. apply Forall_cons_iff in Hseq as [Hx Hseq].
  assert (EP : ParseInternalKey (entry_ikey x) = Some (mkParsed (op_key (snd x)) (fst x) (op_type (snd x)))) by apply ParseInternalKey_make, Hx.
  destruct (drop_entry_ok rd snap c (entry_ikey x) _ ds u HA EP (Hu x (or_introl eq_refl))) as (c' & -> & HA').
  assert (HS' : sorted_entries (InternalKeyComparator U) (map op_entry P)).
  { destruct HS as [HS HD]. split; [apply StronglySorted_inv in HS as [HS _]; exact HS|apply Forall_cons_iff in HD as [_ HD]; exact HD]. }
  rewrite (IH c' (snd (drop_rule rd snap no_deeper (entry_ikey x) ds)) (op_key (snd x)) Hseq HS' HA'); [|intros y Hy; exact (proj1 (HO y eq_refl Hy))].
  destruct (drop_rule rd snap no_deeper (entry_ikey x) ds) as [d ds']. cbn [fst snd]. destruct d; reflexivity.
Qed.

End BaseLevel.
