(* ===== verification/DbOutputs.v ===== *)
(** * The output files of a compaction (db/db_impl.cc: DoCompactionWork)

    The loop of a compaction and what comes after it, on a file system without
    errors: which files are written, what is in them, and that what they hold
    prescribes the same values as before. *)

From Stdlib Require Import Permutation.
From S2P Require Import Prelude Coding Compare DbFormat Logging FileName SkipList Arena MemTable WriteBatch Crc32c Env Log Filter Iterator Block Format Merger TwoLevel TableBuilder Table VersionEdit Version VersionGet Compaction VersionSet MemIter DbIter DbImpl DbRead DbReadOk DbScan DbFlush DbFlushOk DbFiles DbCompact DbDrop.
#[local] Open Scope Z_scope.
#[local] Open Scope ldb_scope.

Lemma mkInternalKey_ne u s t : mkInternalKey u s t <> [].
Proof. intros H. apply (f_equal length) in H. rewrite mkInternalKey_length in H. cbn [length] in H. lia. Qed.

Lemma sublist_In {A} (l l' : list A) : l `sublist_of` l' -> incl l l'.
Proof. induction 1 as [|x l l' H IH|x l l' H IH]; intros y Hy; [exact Hy| |right; exact (IH y Hy)]. destruct Hy as [<-|Hy]; [left; reflexivity|right; exact (IH y Hy)]. Qed.

Lemma sublist_sorted {A} (R : A -> A -> Prop) (l l' : list A) : l `sublist_of` l' -> StronglySorted R l' -> StronglySorted R l.
Proof.
  induction 1 as [|x l l' H IH|x l l' H IH]; intros HS; [constructor| |]; apply StronglySorted_inv in HS as [HS HF].
  - constructor; [apply IH, HS|]. rewrite List.Forall_forall in *. intros y Hy. apply HF, (sublist_In _ _ H), Hy.
  - apply IH, HS.
Qed.

Section Outputs.
Context {U : Comparator} {UOK : ComparatorOk U} {US : ComparatorShort U} {K : Compression} {KOK : CompressionOk K}.
Hypothesis all_keys : forall u, @cmp_dom U u.
Context (options : Options) (dbname : bytes).
Context {E W Q : Type} {WF : WritableFile W} {RW : ReliableWritable W} {SF : SequentialFile Q} (env : @EnvOps E W Q) (denv : DbEnvOps E W) {FS : FileStore env denv}.
Context {TI : Type} {TIO : Iterator TI} (tc_NewIterator : E -> ReadOptions -> Z -> Z -> TI).
Hypothesis opens : opens_tables (U := U) (K := K) options dbname env denv tc_NewIterator.
Context (dels : RangeDeletionList).

#[local] Abbreviation ICmp := (InternalKeyComparator U).
#[local] Abbreviation CS := (CompactionState W).
#[local] Abbreviation DB := (@DBImpl E W).

Definition tombstones : list entry := map (fun d => (tombstone_key d, end_key d)) dels.

Lemma add_tombstones_all (b : Rep W) : add_tombstones U K dels b = TB_AddAll (C := ICmp) (K := K) b tombstones.
Proof. unfold add_tombstones, TB_AddAll, tombstones. revert b. induction dels as [|d l IH]; intros b; [reflexivity|]. cbn [fold_left map fst snd]. apply IH. Qed.

(** The user keys of the entries lie between the bounds of the output. *)

Definition within (o : Output) (es : list entry) : Prop :=
  Forall (fun e => cmp (ExtractUserKey (out_smallest o)) (ExtractUserKey (fst e)) <= 0 /\
                   cmp (ExtractUserKey (fst e)) (ExtractUserKey (out_largest o)) <= 0) es.

Definition table_of (file : W) (es : list entry) : bytes := wf_contents (r_file (snd (build_table ICmp K options file (tombstones ++ es)))).

(** A finished output: its file is a table of the tombstones and the entries. *)

Definition written (e : E) (o : Output) (es : list entry) : Prop :=
  exists file, wf_inv file /\ wf_contents file = [] /\ fs_look e (TableFileName dbname (out_number o)) = Some (table_of file es) /\
    out_file_size o = u64 (sz (table_of file es)) /\ within o es.

(** The numbers of the outputs are those from [n0] on. *)

Fixpoint consecutive (n : Z) (outs : list Output) : Prop :=
  match outs with
  | [] => True
  | o :: outs => out_number o = n /\ consecutive (n + 1) outs
  end.

Definition on_number (name : bytes) (n0 n1 : Z) : Prop := exists n, n0 <= n < n1 /\ name = TableFileName dbname n.

(** What writing files leaves alone. *)

Record same_rest (cs cs' : CS) (db db' : DB) : Prop := {
  sr_compaction : cs_compaction cs' = cs_compaction cs;
  sr_snapshot : cs_smallest_snapshot cs' = cs_smallest_snapshot cs;
  sr_imm : db_imm db' = db_imm db;
  sr_shutting : db_shutting_down db' = db_shutting_down db;
  sr_heap : vs_heap (db_versions db') = vs_heap (db_versions db);
  sr_versions : vs_versions (db_versions db') = vs_versions (db_versions db);
  sr_current : vs_current (db_versions db') = vs_current (db_versions db)
}.

Lemma same_rest_refl cs db : same_rest cs cs db db.
Proof. split; reflexivity. Qed.

Lemma same_rest_trans cs cs' cs'' db db' db'' : same_rest cs cs' db db' -> same_rest cs' cs'' db' db'' -> same_rest cs cs'' db db''.
Proof. intros [] []. split; congruence. Qed.

(** ** The state between two entries

    The finished outputs hold [chunks]; the open one holds the entries [cur]. *)

Definition bounds_of (o : Output) (cur : list entry) : Prop :=
  (cur = [] /\ out_smallest o = [] /\ out_largest o = []) \/ (within o cur /\ out_smallest o <> [] /\ out_largest o <> []).

Definition in_work (e : E) (outs : list Output) (builder : option (Rep W)) (chunks : list (list entry)) (cur : list entry) : Prop :=
  match builder with
  | None => cur = [] /\ Forall2 (written e) outs chunks
  | Some b => exists done o file, outs = done ++ [o] /\ Forall2 (written e) done chunks /\ wf_inv file /\ wf_contents file = [] /\
      b = TB_AddAll (C := ICmp) (K := K) (TableBuilder_new options file) (tombstones ++ cur) /\ bounds_of o cur
  end.

Record progress (e0 : E) (n0 : Z) (cs : CS) (db : DB) (chunks : list (list entry)) (cur : list entry) : Prop := {
  pr_next : vs_next_file_number (db_versions db) = n0 + sz (cs_outputs cs);
  pr_consecutive : consecutive n0 (cs_outputs cs);
  pr_frame : forall name, ~ on_number name n0 (n0 + sz (cs_outputs cs)) -> fs_look (db_env db) name = fs_look e0 name;
  pr_work : in_work (db_env db) (cs_outputs cs) (cs_builder cs) chunks cur
}.

Lemma consecutive_app n outs o : consecutive n (outs ++ [o]) <-> consecutive n outs /\ out_number o = n + sz outs.
Proof.
  revert n. induction outs as [|x outs IH]; intros n; cbn [app consecutive].
  - unfold sz. cbn. rewrite Z.add_0_r. tauto.
  - rewrite IH. unfold sz. cbn [length]. replace (n + 1 + Z.of_nat (length outs)) with (n + Z.of_nat (S (length outs))) by lia. tauto.
Qed.

Lemma consecutive_in n outs o : consecutive n outs -> In o outs -> n <= out_number o < n + sz outs.
Proof.
  revert n. induction outs as [|x outs IH]; intros n; cbn [consecutive In]; [contradiction|]. unfold sz in *. cbn [length]. intros [<- HN] [<-|H]; [lia|].
  specialize (IH _ HN H). lia.
Qed.

Lemma on_last_snoc f (l : list Output) o : on_last f (l ++ [o]) = l ++ [f o].
Proof. induction l as [|x l IH]; [reflexivity|]. cbn [app on_last]. rewrite IH. destruct l; reflexivity. Qed.

Lemma written_frame e e' n0 outs chunks n : consecutive n0 outs -> 0 <= n0 -> n0 + sz outs <= n < 2 ^ 64 ->
  (forall name, name <> TableFileName dbname n -> fs_look e' name = fs_look e name) ->
  Forall2 (written e) outs chunks -> Forall2 (written e') outs chunks.
Proof.
  intros HN H0 Hn HF H. assert (Hin : forall o, In o outs -> out_number o <> n /\ 0 <= out_number o < 2 ^ 64) by (intros o Ho; pose proof (consecutive_in _ _ _ HN Ho); lia).
  clear HN. induction H as [|o es outs chunks (file & W1 & W2 & W3 & W4) H IH]; constructor.
  - exists file. split; [exact W1|]. split; [exact W2|]. split; [|exact W4]. destruct (Hin o (or_introl eq_refl)) as [Hne Hr].
    rewrite HF; [exact W3|]. intros He. apply TableFileName_inj in He; [contradiction|exact Hr|pose proof (sz_nonneg (o :: outs)); lia].
  - apply IH; [unfold sz in *; cbn [length] in Hn; lia|]. intros x Hx. apply Hin. right. exact Hx.
Qed.

(** ** Opening an output *)

Lemma open_ok e0 n0 cs db chunks : progress e0 n0 cs db chunks [] -> cs_builder cs = None -> 0 <= n0 -> n0 + sz (cs_outputs cs) + 1 < 2 ^ 64 ->
  exists file cs' db', OpenCompactionOutputFile options dbname env cs db = (OK, cs', db') /\
    cs_builder cs' = Some (TableBuilder_new options file) /\ wf_inv file /\ wf_contents file = [] /\
    cs_outputs cs' = cs_outputs cs ++ [mkOutput (n0 + sz (cs_outputs cs)) 0 [] []] /\ same_rest cs cs' db db' /\
    vs_next_file_number (db_versions db') = n0 + sz (cs_outputs cs') /\ consecutive n0 (cs_outputs cs') /\
    (forall name, ~ on_number name n0 (n0 + sz (cs_outputs cs')) -> fs_look (db_env db') name = fs_look e0 name) /\
    Forall2 (written (db_env db')) (cs_outputs cs) chunks.
Proof.
  intros [P1 P2 P3 P4] EB H0 Hn. unfold OpenCompactionOutputFile. cbn [NewFileNumber]. rewrite P1. set (n := n0 + sz (cs_outputs cs)) in *.
  set (db1 := with_pending _ _). change (db_env db1) with (db_env db).
  destruct (fs_create (db_env db) (TableFileName dbname n)) as (e1 & f & -> & F1 & F2 & F3). cbn [ok OK].
  rewrite EB in P4. destruct P4 as [_ P4].
  exists f. eexists _, _. split; [reflexivity|]. cbn [cs_builder with_builder with_outputs cs_outputs]. split; [reflexivity|]. split; [exact F1|]. split; [exact F2|].
  split; [reflexivity|]. split; [split; reflexivity|]. rewrite sz_app. change (sz [mkOutput n 0 [] []]) with 1. split.
  { change (u64 (n + 1) = n0 + (sz (cs_outputs cs) + 1)). rewrite u64_small by (unfold n; pose proof (sz_nonneg (cs_outputs cs)); lia). unfold n. lia. }
  split; [apply consecutive_app; split; [exact P2|reflexivity]|]. change (db_env (with_env db1 e1)) with e1. split.
  - intros name Hname. rewrite F3; [apply P3|].
    + intros (m & Hm & ->). apply Hname. exists m. split; [lia|reflexivity].
    + intros ->. apply Hname. exists n. split; [unfold n; pose proof (sz_nonneg (cs_outputs cs)); lia|reflexivity].
  - apply (written_frame (db_env db) e1 n0 (cs_outputs cs) chunks n P2 H0); [unfold n; lia|exact F3|exact P4].
Qed.

(** ** Finishing an output *)

Definition addable (cur : list entry) : Prop :=
  TableInput ICmp options (tombstones ++ cur) /\ forall file, wf_inv file -> wf_contents file = [] -> sz (table_of file cur) < 2 ^ 32.

Lemma finish_ok e0 n0 cs db chunks cur : progress e0 n0 cs db chunks cur -> cs_builder cs <> None -> addable cur -> 0 <= n0 -> n0 + sz (cs_outputs cs) < 2 ^ 64 ->
  (forall done o, cs_outputs cs = done ++ [o] -> within o cur) ->
  exists cs' db', FinishCompactionOutputFile U K dbname denv tc_NewIterator OK cs db = (OK, cs', db') /\
    progress e0 n0 cs' db' (chunks ++ [cur]) [] /\ cs_builder cs' = None /\ same_rest cs cs' db db' /\ length (cs_outputs cs') = length (cs_outputs cs).
Proof.
  intros [P1 P2 P3 P4] EB [HIn Hsm] H0 Hn HW. pose proof (tin_points _ _ _ HIn) as HA. unfold FinishCompactionOutputFile. destruct (cs_builder cs) as [b|]; [|contradiction].
  destruct P4 as (done & o & file & EO & HD & W1 & W2 & Eb & _). specialize (HW done o EO). cbn [ok OK].
  assert (EF : TB_Finish ICmp K b = build_table ICmp K options file (tombstones ++ cur)) by (rewrite Eb; reflexivity).
  rewrite EF. destruct (build_table_layout ICmp K options file (tombstones ++ cur) W1 W2 HA) as (r & d & rd & fl & mt & ix & EBT & HI & Hsize & _).
  rewrite EBT. assert (ET : table_of file cur = wf_contents (r_file r)) by (unfold table_of; rewrite EBT; reflexivity).
  destruct (wf_sync_ok _ HI) as (f1 & E1 & I1 & Q1). destruct (fs_close f1 I1) as (f2 & E2 & I2 & Q2).
  unfold sync_and_close. cbn [ok OK]. rewrite E1. cbn [ok OK]. rewrite E2. cbn [ok OK andb].
  assert (EN : current_output cs = o) by (unfold current_output; rewrite EO, last_snoc; reflexivity). rewrite EN.
  set (e' := de_close denv (db_env db) (TableFileName dbname (out_number o)) f2).
  rewrite EO in P2, P3, Hn. rewrite sz_app in P3, Hn. change (sz [o]) with 1 in P3, Hn. apply consecutive_app in P2 as [P2 PN].
  assert (Ef : wf_contents f2 = table_of file cur) by congruence. pose proof (Hsm file W1 W2) as Hs32.
  assert (Hopen : iStatus (tc_NewIterator e' default_read_options (out_number o) (FileSize r)) = OK).
  { rewrite Hsize, u64_small, <- ET by (rewrite <- ET; pose proof (sz_nonneg (table_of file cur)); lia).
    apply opens; [pose proof (sz_nonneg done); lia|unfold e'; rewrite fs_put by exact I2; congruence|]. exists file, (tombstones ++ cur). auto. }
  rewrite Hopen.
  unfold on_current. cbn [with_outputs cs_outputs]. rewrite EO, on_last_snoc.
  set (o' := mkOutput (out_number o) (FileSize r) (out_smallest o) (out_largest o)).
  eexists _, _. split; [destruct (0 <? NumEntries b); reflexivity|]. cbn [cs_builder]. split; [|split; [reflexivity|split; [split; reflexivity|cbn [cs_outputs]; rewrite !length_app; reflexivity]]].
  assert (HF : forall name, name <> TableFileName dbname (n0 + sz done) -> fs_look e' name = fs_look (db_env db) name) by (intros name Hne; apply fs_put_ne; rewrite PN; exact Hne).
  split; cbn [cs_outputs cs_builder].
  - change (vs_next_file_number (db_versions db) = n0 + sz (done ++ [o'])). rewrite P1, EO, !sz_app. reflexivity.
  - apply consecutive_app. auto.
  - change (db_env (with_env db e')) with e'. intros name Hname. rewrite sz_app in Hname. change (sz [o']) with 1 in Hname. rewrite HF.
    + apply P3. exact Hname.
    + intros ->. apply Hname. exists (n0 + sz done). split; [pose proof (sz_nonneg done); lia|reflexivity].
  - change (db_env (with_env db e')) with e'. split; [reflexivity|]. apply Forall2_app.
    + apply (written_frame (db_env db) e' n0 done chunks (n0 + sz done) P2 H0); [lia|exact HF|exact HD].
    + constructor; [|constructor]. exists file. split; [exact W1|]. split; [exact W2|]. rewrite ET. cbn [out_number o' out_file_size]. unfold e'. rewrite fs_put by exact I2.
      split; [congruence|]. split; [exact Hsize|exact HW].
Qed.

(** ** The bounds of the open output *)

Lemma extend_bounds_ok (cs : CS) done o cur k v : cs_outputs cs = done ++ [o] -> bounds_of o cur -> 8 <= sz k ->
  exists o', extend_bounds U k cs = with_outputs cs (done ++ [o']) /\ out_number o' = out_number o /\ within o' (cur ++ [(k, v)]) /\ bounds_of o' (cur ++ [(k, v)]).
Proof.
  intros EO HB Hk. assert (Hne : k <> []) by (intros ->; unfold sz in Hk; cbn in Hk; lia).
  assert (Hcur : forall o l, cs_outputs (with_outputs cs (l ++ [o])) = l ++ [o]) by reflexivity.
  assert (HC : current_output cs = o) by (unfold current_output; rewrite EO, last_snoc; reflexivity).
  unfold extend_bounds. rewrite HC.
  set (lo := if match out_smallest o with [] => true | k0 => cmp (ExtractUserKey k) (ExtractUserKey k0) <? 0 end then k else out_smallest o).
  set (hi := if match out_largest o with [] => true | k0 => 0 <? cmp (ExtractUserKey k) (ExtractUserKey k0) end then k else out_largest o).
  set (o' := mkOutput (out_number o) (out_file_size o) lo hi).
  set (cs1 := if match out_smallest o with [] => true | _ => _ end then _ else cs).
  assert (E1 : cs1 = with_outputs cs (done ++ [mkOutput (out_number o) (out_file_size o) lo (out_largest o)])).
  { subst cs1 lo. destruct (match out_smallest o with [] => true | _ => _ end).
    - unfold on_current. rewrite EO, on_last_snoc. reflexivity.
    - replace (mkOutput (out_number o) (out_file_size o) (out_smallest o) (out_largest o)) with o by (destruct o; reflexivity). rewrite <- EO. destruct cs. reflexivity. }
  assert (C1 : current_output cs1 = mkOutput (out_number o) (out_file_size o) lo (out_largest o)) by (rewrite E1; unfold current_output; cbn [cs_outputs with_outputs]; rewrite last_snoc; reflexivity).
  rewrite C1. cbn [out_largest]. exists o'. split.
  { subst o' hi. destruct (match out_largest o with [] => true | _ => _ end); [unfold on_current|]; rewrite E1; [cbn [cs_outputs with_outputs]; rewrite on_last_snoc|]; reflexivity. }
  split; [reflexivity|].
  assert (HL : lo <> [] /\ cmp (ExtractUserKey lo) (ExtractUserKey k) <= 0 /\ (out_smallest o <> [] -> cmp (ExtractUserKey lo) (ExtractUserKey (out_smallest o)) <= 0)).
  { subst lo. destruct (out_smallest o) as [|b l] eqn:Es; [split; [exact Hne|]; rewrite cmp_refl by apply all_keys; split; [lia|congruence]|].
    destruct (Z.ltb_spec (cmp (ExtractUserKey k) (ExtractUserKey (b :: l))) 0) as [Hlt|Hge].
    - split; [exact Hne|]. rewrite cmp_refl by apply all_keys. split; [lia|intros _; lia].
    - split; [discriminate|]. rewrite cmp_refl by apply all_keys. split; [apply cmp_ge_le; [apply all_keys|apply all_keys|lia]|intros _; lia]. }
  assert (HH : hi <> [] /\ cmp (ExtractUserKey k) (ExtractUserKey hi) <= 0 /\ (out_largest o <> [] -> cmp (ExtractUserKey (out_largest o)) (ExtractUserKey hi) <= 0)).
  { subst hi. destruct (out_largest o) as [|b l] eqn:Es; [split; [exact Hne|]; rewrite cmp_refl by apply all_keys; split; [lia|congruence]|].
    destruct (Z.ltb_spec 0 (cmp (ExtractUserKey k) (ExtractUserKey (b :: l)))) as [Hlt|Hge].
    - split; [exact Hne|]. rewrite cmp_refl by apply all_keys. split; [lia|intros _; apply Z.lt_le_incl, cmp_gt_lt; [apply all_keys|apply all_keys|lia]].
    - split; [discriminate|]. rewrite cmp_refl by apply all_keys. split; [exact Hge|intros _; lia]. }
  destruct HL as (L1 & L2 & L3). destruct HH as (H1 & H2 & H3). enough (HW : within o' (cur ++ [(k, v)])) by (split; [exact HW|right; auto]).
  apply List.Forall_forall. intros e He. cbn [out_smallest out_largest o']. apply in_app_iff in He as [He|[<-|[]]]; [|split; assumption].
  destruct HB as [(-> & _)|(HW & B1 & B2)]; [contradiction|]. unfold within in HW. rewrite List.Forall_forall in HW. destruct (HW e He) as [X1 X2].
  split; [exact (cmp_le_trans _ _ _ (all_keys _) (all_keys _) (all_keys _) (L3 B1) X1)|exact (cmp_le_trans _ _ _ (all_keys _) (all_keys _) (all_keys _) X2 (H3 B2))].
Qed.

(** ** Keeping an entry *)

(** No output is without entries. *)

Definition filled (cs : CS) (chunks : list (list entry)) (cur : list entry) : Prop :=
  Forall (fun es => es <> []) chunks /\ (cs_builder cs <> None -> cur <> []).

Lemma filled_within e0 n0 cs db chunks cur : progress e0 n0 cs db chunks cur -> filled cs chunks cur ->
  forall done o, cs_builder cs <> None -> cs_outputs cs = done ++ [o] -> within o cur.
Proof.
  intros [_ _ _ P4] [_ HF] done o EB EO. destruct (cs_builder cs) as [b|]; [|contradiction]. destruct P4 as (done' & o' & file & EO' & _ & _ & _ & _ & HB).
  rewrite EO in EO'. apply app_inj_tail in EO' as [_ <-]. destruct HB as [(E0 & _)|(HW & _)]; [exfalso; apply HF; [discriminate|exact E0]|exact HW].
Qed.

Lemma filled_count e0 n0 cs db chunks cur : progress e0 n0 cs db chunks cur -> filled cs chunks cur -> sz (cs_outputs cs) <= sz (concat chunks ++ cur).
Proof.
  intros [_ _ _ P4] [HF HB]. assert (HC : (length chunks <= length (concat chunks))%nat).
  { clear - HF. induction HF as [|es chunks He HF IH]; [cbn; lia|]. cbn [concat length]. rewrite length_app. destruct es; [contradiction|cbn [length]; lia]. }
  unfold sz. rewrite length_app. destruct (cs_builder cs) as [b|].
  - destruct P4 as (done & o & file & -> & HD & _). apply List.Forall2_length in HD. rewrite length_app, HD. cbn [length].
    specialize (HB ltac:(discriminate)). destruct cur; [contradiction|cbn [length]; lia].
  - destruct P4 as [_ HD]. apply List.Forall2_length in HD. lia.
Qed.

Lemma add_entry_ok e0 n0 cs db chunks cur k v : progress e0 n0 cs db chunks cur -> Forall (fun es => es <> []) chunks -> cs_builder cs <> None ->
  addable (cur ++ [(k, v)]) -> 8 <= sz k -> 0 <= n0 -> n0 + sz (cs_outputs cs) < 2 ^ 64 ->
  exists cs' db' chunks' cur', (let cs := extend_bounds U k cs in
    let cs := with_builder cs (option_map (fun b => TB_Add ICmp K b k v) (cs_builder cs)) in
    if match cs_builder cs with Some b => c_max_output_file_size (cs_compaction cs) <=? FileSize b | None => false end
    then FinishCompactionOutputFile U K dbname denv tc_NewIterator OK cs db else (OK, cs, db)) = (OK, cs', db') /\
    progress e0 n0 cs' db' chunks' cur' /\ filled cs' chunks' cur' /\ concat chunks' ++ cur' = concat chunks ++ cur ++ [(k, v)] /\ same_rest cs cs' db db'.
Proof.
  intros [P1 P2 P3 P4] HF EB HA Hk H0 Hn. destruct (cs_builder cs) as [b|] eqn:Eb; [|contradiction].
  destruct P4 as (done & o & file & EO & HD & W1 & W2 & Ebb & HB). destruct (extend_bounds_ok cs done o cur k v EO HB Hk) as (o' & -> & EN & HW & HB').
  cbv zeta. cbn [cs_builder with_outputs]. rewrite Eb. cbn [option_map with_builder cs_builder cs_compaction].
  set (cs1 := with_builder _ _).
  assert (HP : progress e0 n0 cs1 db chunks (cur ++ [(k, v)])).
  { rewrite EO, sz_app in P1, P3. rewrite EO in P2. apply consecutive_app in P2 as [P2 PN]. split; cbn [cs1 with_builder with_outputs cs_outputs cs_builder].
    - rewrite sz_app. exact P1.
    - apply consecutive_app. split; [exact P2|congruence].
    - rewrite sz_app. exact P3.
    - exists done, o', file. split; [reflexivity|]. split; [exact HD|]. split; [exact W1|]. split; [exact W2|]. split; [|exact HB'].
      rewrite app_assoc. unfold TB_AddAll at 1. rewrite fold_left_app. cbn [fold_left fst snd]. rewrite Ebb. reflexivity. }
  assert (HS : same_rest cs cs1 db db) by (split; reflexivity).
  destruct (c_max_output_file_size _ <=? FileSize _).
  - destruct (finish_ok e0 n0 cs1 db chunks (cur ++ [(k, v)]) HP) as (cs' & db' & EF & HP' & EB' & HS' & _); try assumption.
    + discriminate.
    + cbn [cs1 with_builder with_outputs cs_outputs]. rewrite EO in Hn. rewrite sz_app in *. exact Hn.
    + cbn [cs1 with_builder with_outputs cs_outputs]. intros d o1 E1. apply app_inj_tail in E1 as [_ <-]. exact HW.
    + exists cs', db', (chunks ++ [cur ++ [(k, v)]]), []. split; [exact EF|]. split; [exact HP'|]. split.
      * split; [apply List.Forall_app; split; [exact HF|constructor; [destruct cur; discriminate|constructor]]|congruence].
      * split; [rewrite concat_app; cbn [concat]; rewrite !app_nil_r, app_assoc; reflexivity|]. exact (same_rest_trans _ _ _ _ _ _ HS HS').
  - exists cs1, db, chunks, (cur ++ [(k, v)]). split; [reflexivity|]. split; [exact HP|]. split; [split; [exact HF|intros _; destruct cur; discriminate]|]. auto.
Qed.

Lemma keep_ok e0 n0 cs db chunks cur k v : progress e0 n0 cs db chunks cur -> filled cs chunks cur ->
  addable (cur ++ [(k, v)]) -> 8 <= sz k -> 0 <= n0 -> n0 + sz (cs_outputs cs) + 1 < 2 ^ 64 ->
  exists cs' db' chunks' cur', keep_entry U K options dbname env denv tc_NewIterator dels OK k v cs db = (OK, cs', db') /\
    progress e0 n0 cs' db' chunks' cur' /\ filled cs' chunks' cur' /\ concat chunks' ++ cur' = concat chunks ++ cur ++ [(k, v)] /\ same_rest cs cs' db db'.
Proof.
  intros HP [HF _] HA Hk H0 Hn. unfold keep_entry. destruct (cs_builder cs) as [b|] eqn:EB.
  - cbn [ok OK]. apply (add_entry_ok e0 n0); try assumption; [congruence|lia].
  - assert (cur = []) as -> by (destruct HP as [_ _ _ P4]; rewrite EB in P4; apply P4).
    destruct (open_ok e0 n0 cs db chunks HP EB H0 Hn) as (file & cs1 & db1 & -> & EB1 & F1 & F2 & EO1 & HS1 & P1 & P2 & P3 & HD). cbn [ok OK].
    assert (ES : stretch_smallest U dels (with_builder cs1 (option_map (add_tombstones U K dels) (cs_builder cs1))) = with_builder cs1 (option_map (add_tombstones U K dels) (cs_builder cs1))).
    { unfold stretch_smallest. cbn [with_builder cs_outputs]. rewrite EO1. destruct (cs_outputs cs); reflexivity. }
    rewrite ES, EB1. cbn [option_map]. rewrite add_tombstones_all. set (cs2 := with_builder cs1 _).
    assert (HP2 : progress e0 n0 cs2 db1 chunks []).
    { split; cbn [cs2 with_builder cs_outputs cs_builder]; try assumption. exists (cs_outputs cs), (mkOutput (n0 + sz (cs_outputs cs)) 0 [] []), file.
      split; [exact EO1|]. split; [exact HD|]. split; [exact F1|]. split; [exact F2|]. rewrite app_nil_r. split; [reflexivity|left; auto]. }
    destruct (add_entry_ok e0 n0 cs2 db1 chunks [] k v HP2 HF) as (cs' & db' & chunks' & cur' & E' & HP' & HF' & EC & HS'); try assumption.
    + discriminate.
    + cbn [cs2 with_builder cs_outputs]. rewrite EO1, sz_app. change (sz [mkOutput (n0 + sz (cs_outputs cs)) 0 [] []]) with 1. lia.
    + exists cs', db', chunks', cur'. split; [exact E'|]. split; [exact HP'|]. split; [exact HF'|]. split; [exact EC|].
      apply (same_rest_trans _ cs1 _ _ db1); [exact HS1|]. apply (same_rest_trans _ cs2 _ _ db1); [split; reflexivity|exact HS'].
Qed.

(** ** The loop *)

(** The part of a compaction that the drop rule reads and changes. *)

Definition same_asks (c c' : Compaction nat) : Prop :=
  c_input_version c' = c_input_version c /\ c_level c' = c_level c /\ c_level_ptrs c' = c_level_ptrs c.

Lemma drop_entry_asks rd snap h c c' key ds : same_asks c c' ->
  let '(d, c1, ds1) := drop_entry U rd snap c h key ds in
  exists c1', drop_entry U rd snap c' h key ds = (d, c1', ds1) /\ same_asks c1 c1'.
Proof.
  intros (H1 & H2 & H3). unfold drop_entry. destruct (ParseInternalKey key) as [k|]; [|exists c'; repeat split; assumption].
  set (ds' := if RDL_IsDeleted _ _ _ _ then ds else _). destruct (ds_last_sequence_for_key ds' <=? snap); [exists c'; repeat split; assumption|].
  destruct (bool_decide (type k = kTypeDeletion) && (sequence k <=? snap)); [|exists c'; repeat split; assumption].
  unfold IsBaseLevelForKey. rewrite H1. destruct (c_input_version c) as [v|] eqn:Ev; [|exists c'; repeat split; congruence].
  rewrite H2, H3. destruct (IsBaseLevelForKey_loop _ _ _ _ _ _ _) as [r ptrs]. eexists. split; [reflexivity|]. repeat split; cbn; congruence.
Qed.

Lemma ShouldStopBefore_asks fm max_file_size (c : Compaction nat) key : same_asks c (snd (ShouldStopBefore U fm max_file_size c key)).
Proof. unfold ShouldStopBefore. destruct (grandparent_scan _ _ _ _ _ _) as [i o]. repeat split. Qed.

Section Loop.
Context (comparator_name : bytes) (max_file_size : Z) (flush_fuel : nat) (range_dels : RangeDeletionList) (h : FileHeap) (snap : Z).
Context {It : Type} {IT : Iterator It} (C : Comparator) (es : list entry) (Pos : nat -> It -> Prop) (HC : Cursor C es Pos).
Hypothesis Hkeys : Forall (fun e => 8 <= sz (fst e)) es.
Hypothesis Hadd : forall l, l `sublist_of` es -> addable l.
Context (e0 : E) (n0 : Z).
Hypothesis Hn0 : 0 <= n0.
Hypothesis Hroom : n0 + sz es + 1 < 2 ^ 64.

(** What stays as it is while the loop runs. *)

Definition quiet (cs : CS) (db : DB) : Prop :=
  db_imm db = None /\ db_shutting_down db = false /\ vs_heap (db_versions db) = h /\ cs_smallest_snapshot cs = snap.

Lemma quiet_same cs cs' db db' : quiet cs db -> same_rest cs cs' db db' -> quiet cs' db'.
Proof. intros (Q1 & Q2 & Q3 & Q4) []. repeat split; congruence. Qed.

Lemma room cs db chunks cur i : progress e0 n0 cs db chunks cur -> filled cs chunks cur -> (concat chunks ++ cur) `sublist_of` take i es ->
  n0 + sz (cs_outputs cs) + 1 < 2 ^ 64.
Proof.
  intros HP HF HS. pose proof (filled_count _ _ _ _ _ _ HP HF). apply sublist_length in HS. rewrite length_take in HS. unfold sz in *. lia.
Qed.

Lemma cur_sublist (chunks : list (list entry)) cur i : (concat chunks ++ cur) `sublist_of` take i es -> cur `sublist_of` es.
Proof. intros HS. transitivity (concat chunks ++ cur); [apply sublist_inserts_l; reflexivity|]. transitivity (take i es); [exact HS|apply sublist_take]. Qed.

(** One turn, on the entry at the position. *)

Lemma turn_ok i input cs ds db chunks cur k v : Pos i input -> es !! i = Some (k, v) -> quiet cs db ->
  progress e0 n0 cs db chunks cur -> filled cs chunks cur -> (concat chunks ++ cur) `sublist_of` take i es ->
  let '(d, c1, ds1) := drop_entry U range_dels snap (cs_compaction cs) h k ds in
  exists cs' db' chunks' cur',
    compact_turn U K options comparator_name max_file_size dbname env denv tc_NewIterator flush_fuel range_dels dels input cs ds db = Some (OK, cs', ds1, db') /\
    quiet cs' db' /\ progress e0 n0 cs' db' chunks' cur' /\ filled cs' chunks' cur' /\ same_asks c1 (cs_compaction cs') /\
    vs_versions (db_versions db') = vs_versions (db_versions db) /\ vs_current (db_versions db') = vs_current (db_versions db) /\
    concat chunks' ++ cur' = concat chunks ++ cur ++ (if d then [] else [(k, v)]).
Proof.
  intros HPos Hk HQ HP HF HS. pose proof HQ as (Q1 & Q2 & Q3 & Q4). unfold compact_turn, CompactMemTable. rewrite Q1, Q3.
  destruct (cur_entry _ _ _ HC i input k v HPos Hk) as [-> ->]. rewrite (cur_status _ _ _ HC i input HPos).
  pose proof (ShouldStopBefore_asks (deref h) max_file_size (cs_compaction cs) k) as HA. destruct (ShouldStopBefore _ _ _ _ _) as [stop c]. cbn [snd] in HA.
  set (cs1 := with_compaction cs c). assert (HP1 : progress e0 n0 cs1 db chunks cur) by (destruct HP; split; assumption).
  assert (HF1 : filled cs1 chunks cur) by exact HF. assert (HQ1 : quiet cs1 db) by exact HQ.
  assert (HM : exists cs2 db2 chunks2 cur2, match cs_builder cs1 with
      | Some _ => if stop then FinishCompactionOutputFile U K dbname denv tc_NewIterator OK cs1 db else (OK, cs1, db)
      | None => (OK, cs1, db) end = (OK, cs2, db2) /\ progress e0 n0 cs2 db2 chunks2 cur2 /\ filled cs2 chunks2 cur2 /\
      concat chunks2 ++ cur2 = concat chunks ++ cur /\ same_rest cs1 cs2 db db2).
  { assert (Hskip : exists cs2 db2 chunks2 cur2, (OK, cs1, db) = (OK, cs2, db2) /\ progress e0 n0 cs2 db2 chunks2 cur2 /\ filled cs2 chunks2 cur2 /\
      concat chunks2 ++ cur2 = concat chunks ++ cur /\ same_rest cs1 cs2 db db2) by (exists cs1, db, chunks, cur; repeat split; assumption || apply HP1 || apply HF1).
    destruct (cs_builder cs1) as [b|] eqn:EB; [|exact Hskip]. destruct stop; [|exact Hskip].
    pose proof (room _ _ _ _ _ HP1 HF1 HS) as HR.
    destruct (finish_ok e0 n0 cs1 db chunks cur HP1) as (cs2 & db2 & E2 & HP2 & EB2 & HS2 & _); [congruence|apply Hadd, (cur_sublist _ _ _ HS)|exact Hn0|lia| |].
    - intros done o. apply (filled_within _ _ _ _ _ _ HP1 HF1). congruence.
    - exists cs2, db2, (chunks ++ [cur]), []. split; [exact E2|]. split; [exact HP2|]. split; [|split; [rewrite concat_app; cbn [concat]; rewrite !app_nil_r; reflexivity|exact HS2]].
      split; [apply List.Forall_app; split; [apply HF1|constructor; [apply (proj2 HF1); congruence|constructor]]|congruence]. }
  destruct HM as (cs2 & db2 & chunks2 & cur2 & -> & HP2 & HF2 & EC2 & HS2). cbn [ok OK].
  pose proof (quiet_same _ _ _ _ HQ1 HS2) as HQ2. pose proof HQ2 as (R1 & R2 & R3 & R4). rewrite R3, R4, (sr_compaction _ _ _ _ HS2).
  pose proof (drop_entry_asks range_dels snap h (cs_compaction cs) c k ds HA) as HD. destruct (drop_entry U range_dels snap (cs_compaction cs) h k ds) as [[d c1] ds1].
  destruct HD as (c1' & ED & HA1). change (cs_compaction cs1) with c. rewrite ED. set (cs3 := with_compaction cs2 c1').
  assert (HP3 : progress e0 n0 cs3 db2 chunks2 cur2) by (destruct HP2; split; assumption).
  assert (HF3 : filled cs3 chunks2 cur2) by exact HF2. assert (HQ3 : quiet cs3 db2) by exact HQ2. rewrite <- EC2 in HS.
  destruct d.
  - exists cs3, db2, chunks2, cur2. rewrite !app_nil_r, EC2. destruct HS2. split; [reflexivity|]. repeat split; try assumption; try apply HP3; try apply HF3; try apply HQ3; apply HA1.
  - destruct (keep_ok e0 n0 cs3 db2 chunks2 cur2 k v HP3 HF3) as (cs' & db' & chunks' & cur' & -> & HP' & HF' & EC' & HS').
    + apply Hadd. transitivity (concat chunks2 ++ cur2 ++ [(k, v)]); [apply sublist_inserts_l; reflexivity|]. rewrite app_assoc.
      transitivity (take (S i) es); [|apply sublist_take]. rewrite (take_S_r _ _ _ Hk). apply sublist_app; [exact HS|reflexivity].
    + rewrite List.Forall_forall in Hkeys. apply (Hkeys (k, v)), In_lookup. eauto.
    + exact Hn0.
    + exact (room _ _ _ _ _ HP3 HF3 HS).
    + exists cs', db', chunks', cur'. split; [reflexivity|]. split; [exact (quiet_same _ _ _ _ HQ3 HS')|]. split; [exact HP'|]. split; [exact HF'|].
      split; [rewrite (sr_compaction _ _ _ _ HS'); exact HA1|]. split; [rewrite (sr_versions _ _ _ _ HS'); apply HS2|]. split; [rewrite (sr_current _ _ _ _ HS'); apply HS2|].
      rewrite EC', app_assoc, EC2, <- app_assoc. reflexivity.
Qed.

Lemma surviving_asks rest : forall c c' ds, same_asks c c' -> surviving U range_dels snap h c' ds rest = surviving U range_dels snap h c ds rest.
Proof.
  induction rest as [|e rest IH]; intros c c' ds HA; [reflexivity|]. cbn [surviving].
  pose proof (drop_entry_asks range_dels snap h c c' (fst e) ds HA) as HD. destruct (drop_entry U range_dels snap c h (fst e) ds) as [[d c1] ds1].
  destruct HD as (c1' & -> & HA1). rewrite (IH c1 c1' ds1 HA1). reflexivity.
Qed.

Lemma surviving_sublist rest : forall c ds, surviving U range_dels snap h c ds rest `sublist_of` rest.
Proof.
  induction rest as [|e rest IH]; intros c ds; [constructor|]. cbn [surviving]. destruct (drop_entry _ _ _ _ _ _ _) as [[d c1] ds1].
  destruct d; [apply sublist_cons, IH|apply sublist_skip, IH].
Qed.

Lemma loop_ok fuel : forall i input cs ds db chunks cur, Pos i input -> (length es - i < fuel)%nat -> quiet cs db ->
  progress e0 n0 cs db chunks cur -> filled cs chunks cur -> (concat chunks ++ cur) `sublist_of` take i es ->
  exists input' cs' db' chunks' cur',
    compact_loop U K options comparator_name max_file_size dbname env denv tc_NewIterator flush_fuel range_dels dels fuel input cs ds db = Some (OK, input', cs', db') /\
    Pos (length es) input' /\ quiet cs' db' /\ progress e0 n0 cs' db' chunks' cur' /\ filled cs' chunks' cur' /\
    vs_versions (db_versions db') = vs_versions (db_versions db) /\ vs_current (db_versions db') = vs_current (db_versions db) /\
    concat chunks' ++ cur' = concat chunks ++ cur ++ surviving U range_dels snap h (cs_compaction cs) ds (drop i es).
Proof.
  induction fuel as [|fuel IH]; intros i input cs ds db chunks cur HPos Hf HQ HP HF HS; [lia|]. cbn [compact_loop].
  pose proof (cur_range _ _ _ HC _ _ HPos) as Hi. rewrite (cur_valid _ _ _ HC _ _ HPos). rewrite (proj1 (proj2 HQ)). rewrite andb_true_r.
  destruct (Nat.ltb_spec i (length es)) as [Hlt|Hge].
  - destruct (lookup_lt_is_Some_2 es i Hlt) as [[k v] Hk]. pose proof (turn_ok i input cs ds db chunks cur k v HPos Hk HQ HP HF HS) as HT.
    rewrite (drop_S _ _ _ Hk). cbn [surviving fst]. destruct (drop_entry U range_dels snap (cs_compaction cs) h k ds) as [[d c1] ds1].
    destruct HT as (cs1 & db1 & chunks1 & cur1 & -> & HQ1 & HP1 & HF1 & HA1 & V1 & V2 & EC1). cbn [ok OK].
    destruct (IH (S i) (iNext input) cs1 ds1 db1 chunks1 cur1 (cur_next _ _ _ HC _ _ HPos Hlt) ltac:(lia) HQ1 HP1 HF1)
      as (input' & cs' & db' & chunks' & cur' & E' & HPos' & HQ' & HP' & HF' & V1' & V2' & EC').
    { rewrite EC1, app_assoc, (take_S_r _ _ _ Hk). apply sublist_app; [exact HS|]. destruct d; [apply sublist_nil_l|reflexivity]. }
    exists input', cs', db', chunks', cur'. split; [exact E'|]. split; [exact HPos'|]. split; [exact HQ'|]. split; [exact HP'|]. split; [exact HF'|].
    split; [congruence|]. split; [congruence|]. rewrite EC', (surviving_asks _ _ _ _ HA1), app_assoc, EC1, <- !app_assoc. destruct d; reflexivity.
  - assert (i = length es) as -> by lia. rewrite drop_all. cbn [surviving]. exists input, cs, db, chunks, cur. rewrite app_nil_r.
    split; [reflexivity|]. split; [exact HPos|]. split; [exact HQ|]. split; [exact HP|]. split; [exact HF|]. auto.
Qed.

(** ** After the loop *)

Lemma stretch_largest_builder (cs : CS) : cs_builder (stretch_largest U dels cs) = cs_builder cs.
Proof. unfold stretch_largest. destruct (cs_builder cs) eqn:EB, dels; try exact EB. destruct (match out_largest _ with [] => true | _ => _ end); exact EB. Qed.

Lemma stretch_largest_cases (cs : CS) : stretch_largest U dels cs = cs \/ cs_builder cs <> None /\
  stretch_largest U dels cs = on_current (set_largest (mkInternalKey (max_end U dels) 0 kTypeDeletion)) cs /\
  (out_largest (current_output cs) <> [] -> 0 < @cmp U (max_end U dels) (ExtractUserKey (out_largest (current_output cs)))).
Proof.
  unfold stretch_largest. destruct (cs_builder cs); [|auto]. destruct dels as [|d0 l0]; [auto|]. cbv zeta.
  destruct (out_largest (current_output cs)) as [|b k] eqn:El; [right; split; [discriminate|]; split; [reflexivity|congruence]|].
  match goal with |- context [if ?x then _ else _] => destruct x eqn:Ez end; [|left; reflexivity].
  right. split; [discriminate|]. split; [reflexivity|]. intros _. apply Z.ltb_lt, Ez.
Qed.

Lemma stretch_largest_ok cs db chunks cur : progress e0 n0 cs db chunks cur -> filled cs chunks cur -> let cs' := stretch_largest U dels cs in
  progress e0 n0 cs' db chunks cur /\ filled cs' chunks cur /\ same_rest cs cs' db db /\ length (cs_outputs cs') = length (cs_outputs cs).
Proof.
  intros HP HF. cbv zeta. destruct (stretch_largest_cases cs) as [->|(EB & -> & EL)]; [split; [exact HP|]; split; [exact HF|]; split; [apply same_rest_refl|reflexivity]|].
  pose proof HP as [P1 P2 P3 P4]. destruct (cs_builder cs) as [b|] eqn:EB'; [|contradiction]. destruct P4 as (done & o & file & EO & HD & W1 & W2 & Eb & HB).
  set (m := max_end U dels) in *.
  assert (EN : current_output cs = o) by (unfold current_output; rewrite EO, last_snoc; reflexivity). rewrite EN in EL.
  assert (HBw : within o cur /\ out_smallest o <> [] /\ out_largest o <> []).
  { destruct HB as [(E0 & _)|HB]; [exfalso; apply (proj2 HF); [rewrite EB'; discriminate|exact E0]|exact HB]. }
  destruct HBw as (HW & B1 & B2). set (hi := mkInternalKey m 0 kTypeDeletion).
  assert (Hhi : @cmp U (ExtractUserKey (out_largest o)) (ExtractUserKey hi) <= 0).
  { specialize (EL B2). unfold hi. rewrite mkInternalKey_user.
    apply Z.lt_le_incl, cmp_gt_lt; [apply all_keys|apply all_keys|lia]. }
  assert (Hne : hi <> []) by apply mkInternalKey_ne.
  unfold on_current. rewrite EO, on_last_snoc. rewrite EO, sz_app in P1, P3. rewrite EO in P2. apply consecutive_app in P2 as [P2 PN].
  split; [|split; [exact HF|split; [split; reflexivity|cbn [cs_outputs with_outputs]; rewrite !length_app; reflexivity]]].
  split; cbn [with_outputs cs_outputs cs_builder].
  - rewrite sz_app. exact P1.
  - apply consecutive_app. split; [exact P2|exact PN].
  - rewrite sz_app. exact P3.
  - rewrite EB'. exists done, (set_largest hi o), file. split; [reflexivity|]. split; [exact HD|]. split; [exact W1|]. split; [exact W2|]. split; [exact Eb|].
    right. split; [|split; [exact B1|exact Hne]]. unfold within in *. rewrite List.Forall_forall in *. intros e He. destruct (HW e He) as [X1 X2]. split; [exact X1|].
    exact (cmp_le_trans _ _ _ (all_keys _) (all_keys _) (all_keys _) X2 Hhi).
Qed.

(** The open output is finished, if there is one. *)

Lemma last_finish cs db chunks cur i : progress e0 n0 cs db chunks cur -> filled cs chunks cur -> (concat chunks ++ cur) `sublist_of` take i es ->
  exists cs' db' chunks', FinishCompactionOutputFile U K dbname denv tc_NewIterator OK cs db = (OK, cs', db') /\
    progress e0 n0 cs' db' chunks' [] /\ cs_builder cs' = None /\ Forall (fun es => es <> []) chunks' /\ concat chunks' = concat chunks ++ cur /\ same_rest cs cs' db db'.
Proof.
  intros HP HF HS. destruct (cs_builder cs) as [b|] eqn:EB.
  - pose proof (room _ _ _ _ _ HP HF HS) as HR.
    destruct (finish_ok e0 n0 cs db chunks cur HP) as (cs2 & db2 & E2 & HP2 & EB2 & HS2 & _); [congruence|apply Hadd, (cur_sublist _ _ _ HS)|exact Hn0|lia| |].
    + intros done o. apply (filled_within _ _ _ _ _ _ HP HF). congruence.
    + exists cs2, db2, (chunks ++ [cur]). split; [exact E2|]. split; [exact HP2|]. split; [exact EB2|]. split.
      * apply List.Forall_app. split; [apply HF|]. constructor; [apply (proj2 HF); congruence|constructor].
      * split; [rewrite concat_app; cbn [concat]; rewrite app_nil_r; reflexivity|exact HS2].
  - unfold FinishCompactionOutputFile. rewrite EB. assert (cur = []) as -> by (destruct HP as [_ _ _ P4]; rewrite EB in P4; apply P4).
    exists cs, db, chunks. rewrite app_nil_r. split; [reflexivity|]. split; [exact HP|]. split; [exact EB|]. split; [apply HF|]. split; [reflexivity|apply same_rest_refl].
Qed.

(** A table of tombstones only, when nothing else is left to write. *)

Lemma tombstone_file_ok cs db chunks : progress e0 n0 cs db chunks [] -> cs_builder cs = None -> Forall (fun es => es <> []) chunks ->
  exists cs' db', tombstone_file U K options dbname env denv tc_NewIterator dels OK cs db = (OK, cs', db') /\ same_rest cs cs' db db' /\
    progress e0 n0 cs' db' (match chunks, dels with [], _ :: _ => [[]] | _, _ => chunks end) [] /\ cs_builder cs' = None.
Proof.
  intros HP EB HF. unfold tombstone_file. rewrite EB. pose proof HP as [P1 P2 P3 P4]. rewrite EB in P4. destruct P4 as [_ HD].
  assert (Hskip : exists cs' db', (OK, cs, db) = (OK, cs', db') /\ same_rest cs cs' db db' /\ progress e0 n0 cs' db' chunks [] /\ cs_builder cs' = None)
    by (exists cs, db; split; [reflexivity|]; split; [apply same_rest_refl|]; split; [exact HP|exact EB]).
  destruct chunks as [|c chunks].
  2:{ destruct (cs_outputs cs) eqn:EO; [inversion HD|]. destruct dels; exact Hskip. }
  destruct (cs_outputs cs) as [|o outs] eqn:EO; [|inversion HD].
  enough (HG : exists cs' db', (let '(s, cs0, db0) := OpenCompactionOutputFile options dbname env cs db in
      if ok s then FinishCompactionOutputFile U K dbname denv tc_NewIterator OK
        (on_current (fun o => set_largest (mkInternalKey (max_end U dels) 0 kTypeDeletion) (set_smallest (tombstone_key (min_start U dels)) o))
          (with_builder cs0 (option_map (add_tombstones U K dels) (cs_builder cs0)))) db0 else (s, cs0, db0)) = (OK, cs', db') /\
      same_rest cs cs' db db' /\ progress e0 n0 cs' db' [[]] [] /\ cs_builder cs' = None) by (destruct dels; [exact Hskip|exact HG]).
  assert (Hn : n0 + sz (cs_outputs cs) + 1 < 2 ^ 64) by (rewrite EO; pose proof (sz_nonneg es); change (sz (@nil Output)) with 0; lia).
  destruct (open_ok e0 n0 cs db [] HP EB Hn0 Hn) as (file & cs1 & db1 & -> & EB1 & F1 & F2 & EO1 & HS1 & N1 & N2 & N3 & _). cbn [ok OK].
  rewrite EB1. cbn [option_map]. rewrite add_tombstones_all. unfold on_current. cbn [with_builder cs_outputs].
  rewrite EO in EO1. rewrite EO1 in *. cbn [app on_last] in *. set (o1 := set_largest _ _). set (cs2 := with_outputs _ _).
  assert (HP2 : progress e0 n0 cs2 db1 [] []).
  { split; [exact N1|exact N2|exact N3|]. exists [], o1, file. split; [reflexivity|]. split; [constructor|]. split; [exact F1|]. split; [exact F2|].
    split; [rewrite app_nil_r; reflexivity|]. right. split; [constructor|]. split; apply mkInternalKey_ne. }
  destruct (finish_ok e0 n0 cs2 db1 [] [] HP2) as (cs' & db' & E' & HP' & EB' & HS' & _).
  - discriminate.
  - apply Hadd, sublist_nil_l.
  - exact Hn0.
  - cbn [cs2 with_outputs cs_outputs]. change (sz [o1]) with 1. pose proof (sz_nonneg es). lia.
  - intros done o _. constructor.
  - exists cs', db'. split; [exact E'|]. split; [|split; [exact HP'|exact EB']].
    apply (same_rest_trans _ cs1 _ _ db1); [exact HS1|]. apply (same_rest_trans _ cs2 _ _ db1); [split; reflexivity|exact HS'].
Qed.

Lemma finish_work_ok cs db chunks cur i : quiet cs db -> progress e0 n0 cs db chunks cur -> filled cs chunks cur -> (concat chunks ++ cur) `sublist_of` take i es ->
  exists cs' db' chunks', finish_work U K options dbname env denv tc_NewIterator dels OK OK cs db = (OK, cs', db') /\
    progress e0 n0 cs' db' chunks' [] /\ cs_builder cs' = None /\ same_rest cs cs' db db' /\ concat chunks' = concat chunks ++ cur /\
    (Forall (fun es => es <> []) chunks' /\ (dels = [] \/ chunks' <> []) \/ chunks' = [[]]).
Proof.
  intros (Q1 & Q2 & Q3 & Q4) HP HF HS. unfold finish_work. rewrite Q2. cbn [ok OK andb].
  destruct (stretch_largest_ok cs db chunks cur HP HF) as (HP1 & HF1 & HS1 & _). set (cs1 := stretch_largest U dels cs) in *.
  destruct (last_finish cs1 db chunks cur i HP1 HF1 HS) as (cs2 & db2 & chunks2 & -> & HP2 & EB2 & HF2 & EC2 & HS2). cbn [ok OK].
  destruct (tombstone_file_ok cs2 db2 chunks2 HP2 EB2 HF2) as (cs3 & db3 & -> & HS3 & HP3 & EB3). cbn [ok OK].
  exists cs3, db3. eexists. split; [reflexivity|]. split; [exact HP3|]. split; [exact EB3|].
  split; [exact (same_rest_trans _ _ _ _ _ _ HS1 (same_rest_trans _ _ _ _ _ _ HS2 HS3))|]. rewrite <- EC2.
  clear HP3. destruct chunks2 as [|c chunks2], dels; (split; [reflexivity|]); auto; left; split; auto; right; discriminate.
Qed.

End Loop.

End Outputs.

(** ** The tombstones that are written *)

Lemma insert_del_in d x l : In x (insert_del d l) <-> x = d \/ In x l.
Proof.
  induction l as [|y l IH]; cbn [insert_del]; [cbn; intuition congruence|]. destruct (del_before y d); cbn [In]; [rewrite IH|]; intuition congruence.
Qed.

Lemma sort_dels_in x l : In x (sort_dels l) <-> In x l.
Proof. induction l as [|d l IH]; [reflexivity|]. cbn [sort_dels fold_right]. rewrite insert_del_in. fold (sort_dels l). rewrite IH. cbn [In]. intuition congruence. Qed.

(** The sequence number and the start tell tombstones apart. *)

Definition dels_told_apart (l : RangeDeletionList) : Prop := forall a b, In a l -> In b l -> same_del a b = true -> a = b.

Lemma unique_after_in l : forall d x, dels_told_apart (d :: l) -> (x = d \/ In x (unique_after d l) <-> x = d \/ In x l).
Proof.
  induction l as [|y l IH]; intros d x H; [reflexivity|]. cbn [unique_after]. destruct (same_del d y) eqn:E.
  - assert (d = y) as <- by (apply H; [left; reflexivity|right; left; reflexivity|exact E]).
    rewrite IH; [cbn [In]; intuition congruence|]. intros a b Ha Hb. apply H; cbn [In] in *; tauto.
  - cbn [In]. specialize (IH y x). assert (HI : dels_told_apart (y :: l)) by (intros a b Ha Hb; apply H; right; assumption). specialize (IH HI). intuition congruence.
Qed.

Lemma compaction_dels_in x l : dels_told_apart l -> In x (compaction_dels l) <-> In x l.
Proof.
  intros H. unfold compaction_dels, unique_dels. rewrite <- (sort_dels_in x l). destruct (sort_dels l) as [|d s] eqn:Es; [reflexivity|].
  cbn [In]. pose proof (unique_after_in s d x) as HU.
  assert (HI : dels_told_apart (d :: s)) by (intros a b Ha Hb; rewrite <- Es in Ha, Hb; exact (H a b (proj1 (sort_dels_in a l) Ha) (proj1 (sort_dels_in b l) Hb))).
  specialize (HU HI). intuition congruence.
Qed.

(** ** Property *)

(** A compaction of the files of a level and the next one in a version whose
    levels are sorted: [P] are the point operations of the inputs in internal key
    order, [D] their range deletions, [above] and [deep] the operations of the
    newer and of the older levels. *)

Record compaction_holds (U : Comparator) (h : FileHeap) (v : Version nat) (level : nat) (rd : RangeDeletionList) (snap : Z)
    (P D above deep : list (Z * Op)) : Prop := {
  ch_seq : Forall (fun x => 0 <= fst x <= kMaxSequenceNumber) P;
  ch_sorted : sorted_entries (InternalKeyComparator U) (map op_entry P);
  ch_points : Forall (fun x => is_range_op x = false) P;
  ch_distinct : NoDup (map fst P);
  ch_rd : rd = tombs D;
  ch_ranges : Forall (fun x => is_range_op x = true) D;
  ch_dels_seq : Forall (fun x => 0 <= fst x <= kMaxSequenceNumber) D;
  ch_apart : dels_told_apart rd;
  ch_levels : forall l, (0 < l)%nat -> level_sorted (U := U) (deref h) (files_at v l);
  ch_above : forall q u w y, In (q, OpPut u w) above -> In y P -> op_key (snd y) = u -> fst y < q;
  ch_deep : forall q u w, In (q, OpPut u w) deep -> exists l f, (level + 2 <= l < kNumLevels)%nat /\ In f (files_at v l) /\ in_range U (deref h) u f = true;
  ch_snap : snap < kMaxSequenceNumber
}.

(** What is written fits the table format: the tombstones, which the code sorts by
    [Slice::compare], are in the order of the comparator, and no output reaches
    4 GB. *)

Record compaction_fits (U : Comparator) (K : Compression) {W : Type} {WF : WritableFile W} {RW : ReliableWritable W} (options : Options) (dels : RangeDeletionList) (P : list (Z * Op)) : Prop := {
  cf_interval : 1 <= opt_block_restart_interval options;
  cf_dels : sorted_entries (InternalKeyComparator U) (tombstones dels);
  cf_weight : 8 + weight (tombstones dels ++ map op_entry P) + 20 * sz (tombstones dels ++ map op_entry P) < 2 ^ 32;
  cf_name : match opt_filter_policy options with Some F => sz (@fp_Name F) < 2 ^ 31 | None => True end;
  cf_size : forall (file : W) l, wf_inv file -> wf_contents file = [] -> l `sublist_of` map op_entry P -> sz (table_of (U := U) (K := K) options dels file l) < 2 ^ 32
}.

Lemma weight_sublist l l' : l `sublist_of` l' -> weight l <= weight l' /\ sz l <= sz l'.
Proof.
  induction 1 as [|x l l' H [IH1 IH2]|x l l' H [IH1 IH2]]; cbn [weight]; rewrite ?sz_cons; [lia|lia|].
  pose proof (weight_nonneg [x]) as Hx. cbn [weight] in Hx. lia.
Qed.

Lemma rd_is_tombs D : rd_is (tombs D) D.
Proof.
  intros u f s. rewrite RDL_IsDeleted_existsb. unfold MemTable.covered. induction D as [|[q op] D IH]; [reflexivity|]. cbn [tombs flat_map existsb fst snd].
  rewrite existsb_app. fold (tombs D). rewrite IH. destruct op; [reflexivity|reflexivity|]. cbn [existsb]. rewrite orb_false_r. reflexivity.
Qed.

Section Holds.
Context {U : Comparator} {UOK : ComparatorOk U}.
Hypothesis all_keys : forall u, @cmp_dom U u.
Context (h : FileHeap) (v : Version nat) (level : nat) (rd : RangeDeletionList) (snap : Z) (P D above deep : list (Z * Op)).
Hypothesis HH : compaction_holds U h v level rd snap P D above deep.

#[local] Abbreviation ICmp := (InternalKeyComparator U).

Lemma tombs_in d : In d (tombs D) <-> In (seq d, OpDeleteRange (start_key d) (end_key d)) D.
Proof.
  unfold tombs. rewrite in_flat_map. split.
  - intros ([q op] & Hx & Hd). destruct op as [k w|k|a b]; cbn in Hd; [contradiction|contradiction|]. destruct Hd as [<-|[]]. exact Hx.
  - intros H. eexists. split; [exact H|]. destruct d. left. reflexivity.
Qed.

Lemma tombstones_points : points (tombstones (compaction_dels rd)) = [] /\ range_dels (tombstones (compaction_dels rd)) = tombstones (compaction_dels rd).
Proof.
  assert (HT : forall e, In e (tombstones (compaction_dels rd)) -> is_range_del (fst e) = true).
  { intros e He. unfold tombstones in He. apply in_map_iff in He as (d & <- & Hd). cbn [fst].
    apply (compaction_dels_in d rd (ch_apart _ _ _ _ _ _ _ _ _ _ HH)) in Hd. rewrite (ch_rd _ _ _ _ _ _ _ _ _ _ HH) in Hd. apply tombs_in in Hd.
    change (tombstone_key d) with (entry_ikey (seq d, OpDeleteRange (start_key d) (end_key d))). rewrite entry_range_del; [reflexivity|].
    pose proof (ch_dels_seq _ _ _ _ _ _ _ _ _ _ HH) as HF. rewrite List.Forall_forall in HF. exact (HF _ Hd). }
  unfold points, range_dels. split; [apply List.filter_nil; intros e He; rewrite (HT e He); reflexivity|]. apply forallb_filter_id, forallb_forall. exact HT.
Qed.

Lemma inputs_points l : l `sublist_of` map op_entry P -> points l = l /\ range_dels l = [].
Proof.
  intros HS. assert (HP : forall e, In e l -> is_range_del (fst e) = false).
  { intros e He. apply (sublist_In _ _ HS), in_map_iff in He as (x & <- & Hx). cbn [op_entry fst].
    pose proof (ch_seq _ _ _ _ _ _ _ _ _ _ HH) as HF. pose proof (ch_points _ _ _ _ _ _ _ _ _ _ HH) as HPt. rewrite List.Forall_forall in HF, HPt.
    rewrite entry_range_del by exact (HF x Hx). exact (HPt x Hx). }
  unfold points, range_dels. split; [|apply List.filter_nil; exact HP]. apply forallb_filter_id, forallb_forall. intros e He. rewrite (HP e He). reflexivity.
Qed.

Lemma inputs_addable {K W} {WF : WritableFile W} {RW : ReliableWritable W} options l : compaction_fits U K (W := W) options (compaction_dels rd) P ->
  l `sublist_of` map op_entry P -> addable (U := U) (K := K) options (W := W) (compaction_dels rd) l.
Proof.
  intros [F1 F2 F3 F4 F5] HS. split; [|intros file H1 H2; exact (F5 file l H1 H2 HS)]. destruct (ch_sorted _ _ _ _ _ _ _ _ _ _ HH) as [S1 S2].
  destruct tombstones_points as [T1 T2]. destruct (inputs_points l HS) as [Q1 Q2]. destruct (weight_sublist _ _ HS) as [W1 W2].
  split; [exact F1| | |rewrite weight_app, sz_app in *; lia|exact F4]; unfold points, range_dels in *; rewrite filter_app, ?T1, ?Q1, ?T2, ?Q2, ?app_nil_r; [|exact F2].
  split; [exact (sublist_sorted _ _ _ HS S1)|]. apply List.Forall_forall. intros e He. apply (sublist_In _ _ HS) in He. rewrite List.Forall_forall in S2. exact (S2 e He).
Qed.

(** The operations that survive, and the values they prescribe. *)

Lemma survivors mfs inputs : exists P', surviving U rd snap h (with_inputs (Compaction_new mfs level) v inputs) DropState_new (map op_entry P) = map op_entry P' /\
  incl P' P /\ forall u s w, snap <= s ->
    Answer (above ++ P ++ D ++ deep) u s (Some (Some w)) <-> Answer (above ++ P' ++ D ++ deep) u s (Some (Some w)).
Proof.
  pose proof HH as [H1 H2 H3 H4 H5 H6 H7 H8 H9 H10 H11 H12].
  exists (kept (U := U) rd snap (no_deeper (U := U) h v level) DropState_new P). split; [|split].
  - destruct P as [|x P'] eqn:EP; [reflexivity|]. rewrite <- EP in *.
    apply (surviving_kept all_keys h v level H9 rd snap P _ _ (op_key (snd x)) H1 H2).
    + apply asked_new; assumption.
    + intros y Hy. rewrite EP in Hy. destruct Hy as [<-|Hy]; [rewrite cmp_refl by apply all_keys; lia|].
      exact (proj1 (P_order all_keys P H1 H2 [] P' x y EP Hy)).
  - intros x. apply kept_incl.
  - intros u s w Hs. apply (values_same all_keys rd snap (no_deeper (U := U) h v level) P H1 H2 H12 D above deep H3 H4); try assumption.
    + rewrite H5. apply rd_is_tombs.
    + intros q k w' Hin. destruct (H11 q k w' Hin) as (l & f & Hl & Hf & Hr). unfold no_deeper. apply negb_false_iff. unfold deeper_levels.
      apply existsb_exists. exists l. split; [apply in_seq; lia|]. apply existsb_exists. exists f. split; [exact Hf|exact Hr].
Qed.

End Holds.


(** A run: two puts and a deletion below the snapshot, a tombstone, nothing deeper. *)

Definition compact_points : list (Z * Op) := [(9, OpPut (str "a") (str "2")); (3, OpPut (str "a") (str "1")); (4, OpDelete (str "b")); (2, OpPut (str "c") (str "3"))].

Definition compact_dels : list (Z * Op) := [(5, OpDeleteRange (str "c") (str "d"))].

Definition compact_db : @DBImpl (bytes -> option bytes) FileState :=
  mkDBImpl (VersionSet_new (fun _ => None)) MemTable_new None (Writer_new FileState_new) 3 [] ∅ WriteBatch_new SnapshotList_new ∅ false None ∅ OK false false 0.

#[local] Abbreviation BI := (ListIterOps (InternalKeyComparator BytewiseComparator)).

Lemma FSInv_empty (f : FileState) : FSInv f -> FS_contents f = [] -> f = FileState_new.
Proof.
  intros HI Hc. pose proof (FS_contents_size f HI) as Hz. rewrite Hc in Hz. destruct HI as [_ _ H]. destruct f as [bs n]. cbn [size_ blocks_] in *. change (sz (@nil byte)) with 0 in Hz. subst n.
  destruct H as [H|[_ ->]]; [|reflexivity]. unfold sz, kMemBlockSize in H. destruct bs; [reflexivity|]. cbn [length] in H. lia.
Qed.

Fixpoint sublists {A} (l : list A) : list (list A) :=
  match l with
  | [] => [[]]
  | x :: l => sublists l ++ map (cons x) (sublists l)
  end.

Lemma sublists_in {A} (l l' : list A) : l `sublist_of` l' -> In l (sublists l').
Proof.
  induction 1 as [|x l l' _ IH|x l l' _ IH]; cbn [sublists]; [left; reflexivity|apply in_app_iff; right; apply in_map, IH|apply in_app_iff; left; exact IH].
Qed.

Lemma compact_fits : compaction_fits BytewiseComparator NoLibraries (W := FileState) run_options (compaction_dels (tombs compact_dels)) compact_points.
Proof.
  split; [cbn; lia| |vm_compute; reflexivity|vm_compute; reflexivity|].
  - split; [repeat constructor|]. repeat (constructor; [split; [vm_compute; lia|exact I]|]). constructor.
  - intros file l Hf Hc HS. apply (FSInv_empty file Hf) in Hc as ->. apply Z.ltb_lt. apply sublists_in in HS. revert l HS. apply forallb_forall. vm_compute. reflexivity.
Qed.


(** Two entries of one user key that a snapshot keeps: the recorded largest key is
    before the second one in the internal order. *)

Definition snapshot_run : option (list Output) :=
  option_map (fun r => cs_outputs (snd (fst r)))
    (@compact_loop BytewiseComparator NoLibraries run_options (str "c") 2097152 (str "db") _ FileState SequentialFileImpl MemWritable (store_env FileState_new) store_denv
      ListIter BI (fun _ _ _ _ => mkListIter [] 0) ListIter BI 3 [] [] 5
      (mkListIter (map op_entry [(9, OpPut (str "a") (str "2")); (3, OpPut (str "a") (str "1"))]) 0)
      (mkCompactionState FileState (with_inputs (Compaction_new 2097152 0) Version_new ([], [])) 5 [] None 0) DropState_new compact_db).

Example snapshot_entry_past_largest : exists o, snapshot_run = Some [o] /\
  IKC_Compare BytewiseComparator (out_largest o) (entry_ikey (3, OpPut (str "a") (str "1"))) < 0.
Proof. eexists. split; [vm_compute; reflexivity|vm_compute; reflexivity]. Qed.
