(* ===== verification/DbManual.v ===== *)
(** * Manual and full compactions (db/db_impl.cc)

    [CompactRange], [TEST_CompactRange], [CompactWholeLevel] and
    [ForceFullCompaction] run in threads of their own and wait for the background
    thread.  A caller is where it stands between two releases of the mutex; a turn
    is what it does until it releases the mutex or waits for the signal.  Statistics
    are left out. *)

From S2P Require Import Prelude Coding Compare DbFormat Logging FileName SkipList Arena MemTable WriteBatch Crc32c Env Log Filter Iterator Block Format TableBuilder Table VersionEdit Version Compaction VersionSet MemIter DbImpl DbFlush DbFlushOk DbCompact.
#[local] Open Scope Z_scope.
#[local] Open Scope ldb_scope.

Section Callers.
Context (U : Comparator) {E W : Type}.

#[local] Abbreviation DB := (@DBImpl E W).

(** ** A manual compaction *)

(** The request of [TEST_CompactRange]. *)

Definition manual_request (level : nat) (begin_key end_key : option bytes) : ManualCompaction :=
  mkManual level false (option_map (fun k => mkInternalKey k kMaxSequenceNumber kValueTypeForSeek) begin_key)
    (option_map (fun k => mkInternalKey k 0 kTypeDeletion) end_key).

(** Where its caller stands: in the first loop, in the second, or behind both. *)

Inductive ManualPhase := MpRunning | MpDraining | MpDone.

(** The turn of the caller of request [m], and whether it waits. *)

Definition manual_turn (m : nat) (phase : ManualPhase) (db : DB) : ManualPhase * bool * DB :=
  match phase with
  | MpRunning =>
      if negb (mc_done (manual_at db m)) && negb (db_shutting_down db) && ok (db_bg_error db) then
        match db_manual db with
        | None => (MpRunning, false, MaybeScheduleCompaction (with_background db (db_scheduled db) (Some m) (db_manual_objects db) (db_bg_error db)))
        | Some _ => (MpRunning, true, db)
        end
      else (MpDraining, false, db)
  | MpDraining =>
      if db_scheduled db then (MpDraining, true, db)
      else (MpDone, false, if decide (db_manual db = Some m) then with_background db (db_scheduled db) None (db_manual_objects db) (db_bg_error db) else db)
  | MpDone => (MpDone, false, db)
  end.

(** ** [CompactRange]: the levels it compacts *)

Definition max_level_with_files (db : DB) (begin_key end_key : option bytes) : nat :=
  fold_left (fun max level => if OverlapInLevel U (deref (vs_heap (db_versions db))) (current (db_versions db)) level begin_key end_key then level else max)
    (List.seq 1 (kNumLevels - 1)) 1%nat.

Definition compacted_levels (db : DB) (begin_key end_key : option bytes) : list nat := List.seq 0 (max_level_with_files db begin_key end_key).

(** ** [ForceFullCompaction] *)

Definition flush_waits (db : DB) : bool := negb (is_null (db_imm db)) && ok (db_bg_error db) && negb (db_shutting_down db).

(** [FlushedMemTable] after its write, and [TEST_CompactMemTable]: whether it waits, and
    its status when it does not. *)

Definition FlushedMemTable_turn (db : DB) : bool * Status := if flush_waits db then (true, OK) else (false, CheckDatabaseUsable db).

Definition TEST_CompactMemTable_turn (db : DB) : bool * Status :=
  if flush_waits db then (true, OK) else (false, if is_null (db_imm db) then OK else db_bg_error db).

Inductive FullPhase :=
| FpFlush
| FpFlag
| FpIdle
| FpLevels
| FpLevel (level : nat) (max : Z)
| FpCompact (level : nat) (max : Z) (phase : ManualPhase)
| FpFinish (status : Status)
| FpReturned (status : Status).

Definition set_full (db : DB) (b : bool) : DB :=
  mkDBImpl (db_versions db) (db_mem db) (db_imm db) (db_log db) (db_logfile_number db) (db_writers db) (db_writer_objects db)
    (db_tmp_batch db) (db_snapshots db) (db_pending_outputs db) (db_scheduled db) (db_manual db) (db_manual_objects db)
    (db_bg_error db) (db_shutting_down db) b (db_seed db).

Definition deepest_level (vs : @VersionSet E W) : Z :=
  fold_left (fun max level => if 0 <? NumLevelFiles vs level then Z.of_nat level else max) (List.seq 0 kNumLevels) (-1).

(** The head of the loop over the levels; [m] is the caller's request, should it make one. *)

Definition level_turn (m : nat) (level : nat) (max : Z) (db : DB) : FullPhase * DB :=
  if (Z.of_nat level <=? max) && (level <? kNumLevels - 1)%nat then
    let status := CheckDatabaseUsable db in
    if negb (ok status) then (FpFinish status, db)
    else if NumLevelFiles (db_versions db) level =? 0 then (FpLevel (S level) max, db)
    else if (Z.of_nat level =? max) && (0 <? level)%nat then (FpFinish status, db)
    else (FpCompact level max MpRunning, set_manual m (mkManual level false None None) db)
  else (FpFinish OK, db).

Definition FinishFullCompaction (status : Status) (db : DB) : Status * DB :=
  let db := set_full db false in (if ok status && negb (ok (db_bg_error db)) then db_bg_error db else status, db).

(** The turn of [CompactWholeLevel], which gives its status at the end. *)

Definition CompactWholeLevel_turn (m : nat) (phase : ManualPhase) (db : DB) : (ManualPhase + Status) * bool * DB :=
  let '(phase, waits, db) := manual_turn m phase db in
  match phase with
  | MpDone => (inr (CheckDatabaseUsable db), waits, db)
  | _ => (inl phase, waits, db)
  end.

(** The turn of a caller whose requests are [m]. *)

Definition full_turn (m : nat) (phase : FullPhase) (db : DB) : FullPhase * bool * DB :=
  match phase with
  | FpFlush =>
      let '(waits, status) := FlushedMemTable_turn db in
      if waits then (FpFlush, true, db) else (if ok status then FpFlag else FpReturned status, false, db)
  | FpFlag => if db_full_compaction db then (FpFlag, true, db) else (FpIdle, false, set_full db true)
  | FpIdle =>
      if (db_scheduled db || negb (is_null (db_manual db))) && ok (db_bg_error db) && negb (db_shutting_down db) then (FpIdle, true, db)
      else
        let status := CheckDatabaseUsable db in
        if negb (ok status) then (FpReturned status, false, set_full db false) else (FpLevels, false, db)
  | FpLevels => (FpLevel 0 (deepest_level (db_versions db)), false, db)
  | FpLevel level max => let '(phase, db) := level_turn m level max db in (phase, false, db)
  | FpCompact level max phase =>
      let '(r, waits, db) := CompactWholeLevel_turn m phase db in
      match r with
      | inr status => (if ok status then FpLevel (S level) max else FpFinish status, waits, db)
      | inl phase => (FpCompact level max phase, waits, db)
      end
  | FpFinish status => let '(status, db) := FinishFullCompaction status db in (FpReturned status, false, db)
  | FpReturned status => (FpReturned status, false, db)
  end.

End Callers.

(** ** What the work of the background thread leaves alone *)

Section Frame.
Context {E W : Type}.

#[local] Abbreviation DB := (@DBImpl E W).

Record frame (db db' : DB) : Prop := {
  fr_manual : db_manual db' = db_manual db;
  fr_full : db_full_compaction db' = db_full_compaction db;
  fr_shutting_down : db_shutting_down db' = db_shutting_down db;
  fr_scheduled : db_scheduled db' = db_scheduled db
}.

#[export] Instance frame_refl : Reflexive frame.
Proof. split; reflexivity. Qed.

#[export] Instance frame_trans : Transitive frame.
Proof. intros a b c [] []. split; congruence. Qed.

Lemma frame_vs (db : DB) vs : frame db (with_vs db vs).
Proof. split; reflexivity. Qed.

Lemma frame_snapshots (db : DB) s p : frame db (with_snapshots db s p).
Proof. split; reflexivity. Qed.

Lemma frame_memtables (db : DB) m i : frame db (with_memtables db m i).
Proof. split; reflexivity. Qed.

Lemma frame_error (db : DB) s : frame db (RecordBackgroundError s db).
Proof. unfold RecordBackgroundError. destruct (ok (db_bg_error db)); split; reflexivity. Qed.

Lemma frame_ref (db : DB) v : frame db (ref_version db v).
Proof. destruct v; [apply frame_vs|reflexivity]. Qed.

Lemma frame_release (db : DB) v : frame db (release_version db v).
Proof. destruct v; [apply frame_vs|reflexivity]. Qed.

End Frame.

Create HintDb frames.
#[export] Hint Resolve frame_vs frame_snapshots frame_memtables frame_error frame_ref frame_release : frames.
#[export] Hint Extern 1 (frame ?x ?x) => reflexivity : frames.

(** A chain of steps, the last one first. *)

Ltac frame_chain := repeat (first [solve [auto with frames] | etransitivity; [|solve [auto with frames]]]).

Section FrameWork.
Context (U : Comparator) (K : Compression) (options : Options) (comparator_name : bytes) (max_file_size : Z) (dbname : bytes).
Context {E W Q : Type} {WF : WritableFile W} {SF : SequentialFile Q} (env : @EnvOps E W Q) (denv : DbEnvOps E W).
Context {TI : Type} {TIO : Iterator TI} (tc_NewIterator : E -> ReadOptions -> Z -> Z -> TI) (tc_error : Status -> TI)
  (tc_GetRangeDeletions : E -> Z -> Z -> RangeDeletionList).

#[local] Abbreviation DB := (@DBImpl E W).

Lemma frame_env (db : DB) e : frame db (with_env db e).
Proof. apply frame_vs. Qed.

Lemma frame_pending (db : DB) p : frame db (with_pending db p).
Proof. apply frame_snapshots. Qed.

#[local] Hint Resolve frame_env frame_pending : frames.

Lemma frame_remove (db : DB) : frame db (RemoveObsoleteFiles dbname env denv db).
Proof. unfold RemoveObsoleteFiles. destruct (negb _); [reflexivity|]. destruct (de_GetChildren _ _ _). apply frame_env. Qed.

#[local] Hint Resolve frame_remove : frames.

Lemma frame_memtable fuel (db db' : DB) : CompactMemTable U K options comparator_name max_file_size dbname env denv tc_NewIterator fuel db = Some db' -> frame db db'.
Proof.
  unfold CompactMemTable. destruct (db_imm db) as [imm|]; [|intros E0; injection E0 as <-; reflexivity].
  destruct (WriteLevel0Table _ _ _ _ _ _ _ _ _ _ _ _ _) as [[[s edit] [vs pending]]|]; [|discriminate].
  set (db1 := release_version _ _). assert (H1 : frame db db1) by (unfold db1; frame_chain).
  match goal with |- context [match (if ?b then ?x else ?y) with _ => _ end] => destruct (if b then x else y) as [[s' db2]|] eqn:E2 end; [|discriminate].
  assert (H2 : frame db1 db2).
  { destruct (ok (if ok s && db_shutting_down db1 then _ else s)); [|injection E2 as _ <-; reflexivity].
    destruct (LogAndApply _ _ _ _ _ _) as [[[s2 x] vs2]|]; [|discriminate]. injection E2 as _ <-. apply frame_vs. }
  intros E0. injection E0 as <-. transitivity db1; [exact H1|]. transitivity db2; [exact H2|]. destruct (ok s'); frame_chain.
Qed.

Lemma frame_open cs (db db' : DB) s cs' : OpenCompactionOutputFile options dbname env cs db = (s, cs', db') -> frame db db'.
Proof.
  unfold OpenCompactionOutputFile. destruct (NewFileNumber (db_versions db)) as [n vs]. destruct (env_NewWritableFile _ _ _) as [e [s1 [f|]]]; [destruct (ok s1)|];
    intros E0; injection E0 as <- <- <-; frame_chain.
Qed.

Lemma frame_finish_output st cs (db db' : DB) s cs' : FinishCompactionOutputFile U K dbname denv tc_NewIterator st cs db = (s, cs', db') -> frame db db'.
Proof.
  unfold FinishCompactionOutputFile. destruct (cs_builder cs) as [b|]; [|intros E0; injection E0 as <- <- <-; reflexivity].
  destruct (if ok st then _ else _) as [s1 b1]. destruct (sync_and_close s1 (r_file b1)) as [s2 f]. intros E0. injection E0 as <- <- <-. frame_chain.
Qed.

Lemma frame_keep dels st k v cs (db db' : DB) s cs' : keep_entry U K options dbname env denv tc_NewIterator dels st k v cs db = (s, cs', db') -> frame db db'.
Proof.
  unfold keep_entry. set (r := match cs_builder cs with Some _ => _ | None => _ end). assert (HR : frame db (snd r)).
  { unfold r. destruct (cs_builder cs); [reflexivity|]. destruct (OpenCompactionOutputFile options dbname env cs db) as [[s1 cs1] db1] eqn:E1.
    apply frame_open in E1. destruct (ok s1); exact E1. }
  destruct r as [[s1 cs1] db1]. cbn [snd] in HR. destruct (ok s1); [|intros E0; injection E0 as <- <- <-; exact HR].
  destruct (match cs_builder _ with Some b => _ | None => false end); [|intros E0; injection E0 as <- <- <-; exact HR].
  intros E0. apply frame_finish_output in E0. etransitivity; eassumption.
Qed.

Lemma frame_turn {It} {IT : Iterator It} ff rd dels (input : It) cs ds (db db' : DB) s cs' ds' :
  compact_turn U K options comparator_name max_file_size dbname env denv tc_NewIterator ff rd dels input cs ds db = Some (s, cs', ds', db') -> frame db db'.
Proof.
  unfold compact_turn. destruct (CompactMemTable _ _ _ _ _ _ _ _ _ _ _) as [db1|] eqn:E1; [|discriminate]. apply frame_memtable in E1.
  destruct (ShouldStopBefore _ _ _ _ _) as [stop c]. set (r := match cs_builder _ with Some _ => _ | None => _ end). assert (HR : frame db1 (snd r)).
  { unfold r. destruct (cs_builder _); [|reflexivity]. destruct stop; [|reflexivity].
    match goal with |- frame _ (snd ?x) => destruct x as [[s2 cs2] db2] eqn:E2 end. apply frame_finish_output in E2. exact E2. }
  destruct r as [[s1 cs1] db2]. cbn [snd] in HR. assert (H2 : frame db db2) by (etransitivity; eassumption).
  destruct (ok s1); [|intros E0; injection E0 as <- <- <- <-; exact H2].
  destruct (drop_entry _ _ _ _ _ _ _) as [[drop c2] ds2]. destruct drop; [intros E0; injection E0 as <- <- <- <-; exact H2|].
  destruct (keep_entry _ _ _ _ _ _ _ _ _ _ _ _ _) as [[s3 cs3] db3] eqn:E3. apply frame_keep in E3. intros E0. injection E0 as <- <- <- <-. etransitivity; eassumption.
Qed.

Lemma frame_loop {It} {IT : Iterator It} ff rd dels fuel : forall (input : It) cs ds (db db' : DB) s input' cs',
  compact_loop U K options comparator_name max_file_size dbname env denv tc_NewIterator ff rd dels fuel input cs ds db = Some (s, input', cs', db') -> frame db db'.
Proof.
  induction fuel as [|fuel IH]; intros input cs ds db db' s input' cs'; [discriminate|]. cbn [compact_loop]. destruct (iValid input && negb (db_shutting_down db)).
  - destruct (compact_turn _ _ _ _ _ _ _ _ _ _ _ _ _ _ _ _) as [[[[s1 cs1] ds1] db1]|] eqn:E1; [|discriminate]. apply frame_turn in E1.
    destruct (ok s1); [intros E0; apply IH in E0; etransitivity; eassumption|intros E0; injection E0 as <- <- <- <-; exact E1].
  - intros E0. injection E0 as <- <- <- <-. reflexivity.
Qed.

Lemma frame_tombstones dels st cs (db db' : DB) s cs' : tombstone_file U K options dbname env denv tc_NewIterator dels st cs db = (s, cs', db') -> frame db db'.
Proof.
  assert (HN : forall x : Status * CompactionState W * DB, x = (OK, cs, db) -> x = (s, cs', db') -> frame db db') by (intros x -> E0; injection E0 as <- <- <-; reflexivity).
  unfold tombstone_file. destruct (cs_builder cs); [apply HN; reflexivity|]. destruct dels; [apply HN; reflexivity|]. destruct (cs_outputs cs); [|apply HN; reflexivity].
  destruct (OpenCompactionOutputFile _ _ _ _ _) as [[s1 cs1] db1] eqn:E1. apply frame_open in E1. destruct (ok s1).
  - intros E0. apply frame_finish_output in E0. etransitivity; eassumption.
  - intros E0. injection E0 as <- <- <-. exact E1.
Qed.

Lemma frame_finish_work dels s0 st cs (db db' : DB) s cs' : finish_work U K options dbname env denv tc_NewIterator dels s0 st cs db = (s, cs', db') -> frame db db'.
Proof.
  unfold finish_work. set (s1 := if ok s0 && _ then _ else _). set (cs1 := if ok s1 then stretch_largest U dels cs else cs).
  destruct (if ok s1 then _ else (s1, _, db)) as [[s2 cs2] db2] eqn:E1. destruct (if ok s2 then _ else (s2, _, db2)) as [[s3 cs3] db3] eqn:E2.
  assert (H1 : frame db db2) by (destruct (ok s1); [apply frame_finish_output in E1; exact E1|injection E1 as <- <- <-; reflexivity]).
  assert (H2 : frame db2 db3) by (destruct (ok s2); [apply frame_tombstones in E2; exact E2|injection E2 as <- <- <-; reflexivity]).
  intros E0. injection E0 as <- <- <-. etransitivity; eassumption.
Qed.

Lemma frame_install cs (db db' : DB) s : InstallCompactionResults U comparator_name dbname env cs db = Some (s, db') -> frame db db'.
Proof. unfold InstallCompactionResults. destruct (LogAndApply _ _ _ _ _ _) as [r|]; [|discriminate]. intros E0. injection E0 as <- <-. apply frame_vs. Qed.

Lemma frame_work ff fuel cs (db db' : DB) s cs' :
  DoCompactionWork U K options comparator_name max_file_size dbname env denv tc_NewIterator tc_error tc_GetRangeDeletions ff fuel cs db = Some (s, cs', db') -> frame db db'.
Proof.
  unfold DoCompactionWork. destruct (compact_loop _ _ _ _ _ _ _ _ _ _ _ _ _ _ _ _ _) as [[[[s1 input1] cs1] db1]|] eqn:E1; [|discriminate]. apply frame_loop in E1.
  destruct (finish_work _ _ _ _ _ _ _ _ _ _ _ _) as [[s2 cs2] db2] eqn:E2. apply frame_finish_work in E2.
  destruct (if ok s2 then _ else _) as [[s3 db3]|] eqn:E3; [|discriminate].
  assert (H3 : frame db2 db3) by (destruct (ok s2); [apply frame_install in E3; exact E3|injection E3 as <- <-; reflexivity]).
  intros E0. injection E0 as <- <- <-. transitivity db2; [etransitivity; eassumption|]. destruct (ok s3); [exact H3|]. etransitivity; [exact H3|apply frame_error].
Qed.

Lemma frame_cleanup cs (db : DB) : frame db (CleanupCompaction dbname denv cs db).
Proof. unfold CleanupCompaction. destruct (cs_builder cs); frame_chain. Qed.

#[local] Hint Resolve frame_cleanup : frames.

Lemma frame_run ff fuel v c (db db' : DB) s :
  run_compaction U K options comparator_name max_file_size dbname env denv tc_NewIterator tc_error tc_GetRangeDeletions ff fuel v c db = Some (s, db') -> frame db db'.
Proof.
  unfold run_compaction. destruct (_ && IsTrivialMove _ _ _).
  - destruct (fst (c_inputs c)) as [|f l]; [discriminate|]. destruct (LogAndApply _ _ _ _ _ _) as [[[s1 x] vs]|]; [|discriminate].
    intros E0. injection E0 as <- <-. destruct (ok s1); frame_chain.
  - destruct (DoCompactionWork _ _ _ _ _ _ _ _ _ _ _ _ _ _ _) as [[[s1 cs1] db1]|] eqn:E1; [|discriminate]. apply frame_work in E1.
    intros E0. injection E0 as <- <-. transitivity db1; [exact E1|]. destruct (ok s1); frame_chain.
Qed.

Lemma frame_choose (db db' : DB) c : choose_compaction U max_file_size db = Some (c, db') -> frame db db'.
Proof.
  unfold choose_compaction. destruct (match db_manual db with Some _ => _ | None => _ end) as [[[c1 cp]|]|]; [| |discriminate];
    intros E0; injection E0 as <- <-; [|reflexivity]. etransitivity; [apply frame_vs|apply frame_ref].
Qed.

(** The whole of [BackgroundCompaction]: a request is left alone or taken back. *)

Definition worked (db db' : DB) : Prop :=
  (db_manual db' = db_manual db \/ db_manual db' = None) /\ db_full_compaction db' = db_full_compaction db /\ db_shutting_down db' = db_shutting_down db.

Lemma worked_frame (db db' : DB) : frame db db' -> worked db db'.
Proof. intros [H1 H2 H3 _]. split; [left; exact H1|]. split; assumption. Qed.

Lemma background_worked ff fuel (db db' : DB) :
  BackgroundCompaction U K options comparator_name max_file_size dbname env denv tc_NewIterator tc_error tc_GetRangeDeletions ff fuel db = Some db' -> worked db db'.
Proof.
  unfold BackgroundCompaction. destruct (db_imm db); [intros E0; apply worked_frame, frame_memtable with (1 := E0)|].
  destruct (choose_compaction _ _ _) as [[c db1]|] eqn:E1; [|discriminate]. apply frame_choose in E1. destruct E1 as [H1 H2 H3 H4].
  assert (HC : frame db1 (manual_chosen c db1)) by (unfold manual_chosen; destruct (db_manual db1); split; reflexivity).
  match goal with |- context [match (match c with None => ?a | Some x => _ end) with _ => _ end] => destruct (match c with None => a | Some _ => _ end) as [[s db2]|] eqn:E2 end; [|discriminate].
  assert (HR : frame (manual_chosen c db1) db2) by (destruct c; [apply frame_run in E2; exact E2|injection E2 as <- <-; reflexivity]).
  destruct (frame_trans _ _ _ HC HR) as [G1 G2 G3 G4]. intros E0. injection E0 as <-. unfold manual_finished, worked.
  destruct (db_manual db2) eqn:EM; cbn; (split; [|split; congruence]); [right; reflexivity|left; congruence].
Qed.

Lemma call_worked ff fuel (db db' : DB) :
  BackgroundCall U K options comparator_name max_file_size dbname env denv tc_NewIterator tc_error tc_GetRangeDeletions ff fuel db = Some db' ->
  exists db1, worked db db1 /\ db' = MaybeScheduleCompaction (with_background db1 false (db_manual db1) (db_manual_objects db1) (db_bg_error db1)).
Proof.
  unfold BackgroundCall. destruct (if _ || _ then _ else _) as [db1|] eqn:E1; [|discriminate]. intros E0. injection E0 as <-. exists db1. split; [|reflexivity].
  destruct (_ || _); [injection E1 as <-; apply worked_frame; reflexivity|]. apply background_worked in E1. exact E1.
Qed.

End FrameWork.

(** ** Callers and the background thread *)

Section Steps.
Context (U : Comparator) (K : Compression) (options : Options) (comparator_name : bytes) (max_file_size : Z) (dbname : bytes).
Context {E W Q : Type} {WF : WritableFile W} {SF : SequentialFile Q} (env : @EnvOps E W Q) (denv : DbEnvOps E W).
Context {TI : Type} {TIO : Iterator TI} (tc_NewIterator : E -> ReadOptions -> Z -> Z -> TI) (tc_error : Status -> TI)
  (tc_GetRangeDeletions : E -> Z -> Z -> RangeDeletionList).

#[local] Abbreviation DB := (@DBImpl E W).

Inductive Caller := CManual (phase : ManualPhase) | CFull (phase : FullPhase).

(** The turn of caller [i], which waits or not. *)

Definition turn (i : nat) (p : Caller) (db : DB) : Caller * bool * DB :=
  match p with
  | CManual phase => let '(phase, waits, db) := manual_turn i phase db in (CManual phase, waits, db)
  | CFull phase => let '(phase, waits, db) := full_turn i phase db in (CFull phase, waits, db)
  end.

(** Between the flag's two changes, and while the request may be pointed to. *)

Definition inside (p : Caller) : bool :=
  match p with CFull FpIdle | CFull FpLevels | CFull (FpLevel _ _) | CFull (FpCompact _ _ _) | CFull (FpFinish _) => true | _ => false end.

Definition pointed (p : Caller) : bool :=
  match p with CManual MpDone => false | CManual _ => true | CFull (FpCompact _ _ MpDone) => false | CFull (FpCompact _ _ _) => true | _ => false end.

Definition returned (p : Caller) : bool := match p with CManual MpDone | CFull (FpReturned _) => true | _ => false end.

(** The end of [BackgroundCall]. *)

Definition call_end (db : DB) : DB := MaybeScheduleCompaction (with_background db false (db_manual db) (db_manual_objects db) (db_bg_error db)).

(** The destructor, up to its loop, and whether the loop waits. *)

Definition begin_destructor (db : DB) : DB :=
  mkDBImpl (db_versions db) (db_mem db) (db_imm db) (db_log db) (db_logfile_number db) (db_writers db) (db_writer_objects db)
    (db_tmp_batch db) (db_snapshots db) (db_pending_outputs db) (db_scheduled db) (db_manual db) (db_manual_objects db)
    (db_bg_error db) true (db_full_compaction db) (db_seed db).

Definition destructor_waits (db : DB) : bool := db_scheduled db || db_full_compaction db.

(** The steps: callers come, take turns and leave; the background thread makes its
    call at once, or in parts with the mutex released in between ([cs_part], then
    [cs_end] with or without a manual compaction); writers make room; errors are
    recorded; reads ask for a compaction; the destructor begins; other threads change the
    rest of the state. *)

Inductive cstep : DB * gmap nat Caller -> DB * gmap nat Caller -> Prop :=
| cs_compact_range db cs i level b e : cs !! i = None -> cstep (db, cs) (set_manual i (manual_request level b e) db, <[i := CManual MpRunning]> cs)
| cs_force db cs i : cs !! i = None -> cstep (db, cs) (db, <[i := CFull FpFlush]> cs)
| cs_turn db cs i p p' waits db' : cs !! i = Some p -> turn i p db = (p', waits, db') -> cstep (db, cs) (db', <[i := p']> cs)
| cs_return db cs i p : cs !! i = Some p -> returned p = true -> cstep (db, cs) (db, delete i cs)
| cs_call ff fuel db cs db' : db_scheduled db = true ->
    BackgroundCall U K options comparator_name max_file_size dbname env denv tc_NewIterator tc_error tc_GetRangeDeletions ff fuel db = Some db' -> cstep (db, cs) (db', cs)
| cs_part db cs db' : db_scheduled db = true -> frame db db' -> cstep (db, cs) (db', cs)
| cs_end db cs : db_scheduled db = true -> cstep (db, cs) (call_end db, cs)
| cs_manual_end db cs s next : db_scheduled db = true -> cstep (db, cs) (call_end (manual_finished s next db), cs)
| cs_room db cs write_buffer_size force delay t db' : MakeRoomForWrite_turn write_buffer_size dbname env force delay db = (t, db') -> cstep (db, cs) (db', cs)
| cs_error db cs s : cstep (db, cs) (RecordBackgroundError s db, cs)
| cs_read db cs : cstep (db, cs) (MaybeScheduleCompaction db, cs)
| cs_shutdown db cs : cstep (db, cs) (begin_destructor db, cs)
| cs_other db cs db' : frame db db' -> db_imm db' = db_imm db -> db_bg_error db' = db_bg_error db -> cstep (db, cs) (db', cs).

#[local] Abbreviation creaches := (rtc cstep).

(** ** The invariant *)

(** Work that is due is scheduled, unless there will be no more. *)

Definition work_scheduled (db : DB) : Prop :=
  db_imm db <> None \/ db_manual db <> None -> db_scheduled db = true \/ db_shutting_down db = true \/ ok (db_bg_error db) = false.

Record callers_ok (db : DB) (cs : gmap nat Caller) : Prop := {
  co_work : work_scheduled db;
  co_inside : db_full_compaction db = true -> exists i p, cs !! i = Some p /\ inside p = true;
  co_flag : forall i p, cs !! i = Some p -> inside p = true -> db_full_compaction db = true;
  co_one : forall i j p q, cs !! i = Some p -> cs !! j = Some q -> inside p = true -> inside q = true -> i = j;
  co_manual : forall m, db_manual db = Some m -> exists p, cs !! m = Some p /\ pointed p = true
}.

(** What scheduling does to it. *)

Lemma schedule_frame (db : DB) : db_manual (MaybeScheduleCompaction db) = db_manual db /\ db_full_compaction (MaybeScheduleCompaction db) = db_full_compaction db.
Proof. unfold MaybeScheduleCompaction. repeat match goal with |- context [if ?b then _ else _] => destruct b end; split; reflexivity. Qed.

Lemma schedule_work (db : DB) : work_scheduled (MaybeScheduleCompaction db).
Proof.
  unfold MaybeScheduleCompaction, work_scheduled. destruct (db_scheduled db) eqn:E1; [tauto|]. destruct (db_shutting_down db) eqn:E2; [tauto|].
  destruct (ok (db_bg_error db)) eqn:E3; cbn [negb]; [|rewrite E3; tauto].
  destruct (db_imm db) as [x|] eqn:EI; destruct (db_manual db) as [m|] eqn:EM; cbn [is_null andb]; rewrite ?andb_false_r; cbn [andb];
    repeat match goal with |- context [if ?b then _ else _] => destruct b end; cbn; intros [H|H]; try congruence; left; reflexivity.
Qed.

(** A step of another thread that leaves the callers alone. *)

Lemma quiet_ok (db db' : DB) cs : db_manual db' = db_manual db \/ db_manual db' = None -> db_full_compaction db' = db_full_compaction db -> work_scheduled db' ->
  callers_ok db cs -> callers_ok db' cs.
Proof.
  intros HM HF HW [H1 H2 H3 H4 H5]. split; [exact HW| | |exact H4|]; rewrite ?HF; try assumption. intros m E0. apply H5. destruct HM; congruence.
Qed.

Lemma call_end_ok (db db1 : DB) cs : worked db db1 -> callers_ok db cs -> callers_ok (call_end db1) cs.
Proof.
  intros (HM & HF & _). unfold call_end. match goal with |- context [MaybeScheduleCompaction ?x] => destruct (schedule_frame x) as [G1 G2]; pose proof (schedule_work x) as G3 end.
  apply quiet_ok; [rewrite G1; exact HM|rewrite G2; exact HF|exact G3].
Qed.

Lemma worked_manual_finished s next (db : DB) : worked db (manual_finished s next db).
Proof. unfold manual_finished, worked. destruct (db_manual db) eqn:EM; cbn; (split; [|split; reflexivity]); [right; reflexivity|left; exact EM]. Qed.

Lemma room_ok wbs f d (db db' : DB) t cs : MakeRoomForWrite_turn wbs dbname env f d db = (t, db') -> callers_ok db cs -> callers_ok db' cs.
Proof.
  intros E0 H. revert E0. unfold MakeRoomForWrite_turn.
  repeat match goal with |- (if ?b then _ else _) = _ -> _ => destruct b; [intros E0; injection E0 as <- <-; exact H|] end.
  destruct (NewFileNumber (db_versions db)) as [n vs]. destruct (env_NewWritableFile _ _ _) as [e [s l]].
  assert (HV : forall vs1, callers_ok (with_vs db vs1) cs) by (intros vs1; apply (quiet_ok db); [left; reflexivity|reflexivity|exact (co_work _ _ H)|exact H]).
  destruct l as [l|]; [destruct (ok s)|]; intros E0; injection E0 as <- <-; try apply HV. unfold SwitchMemTable. destruct (wf_Close _) as [s1 f1].
  match goal with |- callers_ok (MaybeScheduleCompaction ?x) _ => destruct (schedule_frame x) as [G1 G2]; pose proof (schedule_work x) as G3 end.
  apply (quiet_ok db); [rewrite G1|rewrite G2|exact G3|exact H]; cbn; destruct (ok s1); try (left; reflexivity); try reflexivity;
    [left|]; unfold RecordBackgroundError; destruct (ok _); reflexivity.
Qed.

(** ** The turns of the callers *)

(** A turn of caller [i] changes the flag as it goes in and out, and the pointer only
    to its own request or to nothing. *)

Record turned (i : nat) (p p' : Caller) (db db' : DB) : Prop := {
  tu_full : db_full_compaction db' = if inside p then inside p' else inside p' || db_full_compaction db;
  tu_enter : inside p = false -> inside p' = true -> db_full_compaction db = false;
  tu_manual : db_manual db' = db_manual db \/ db_manual db' = Some i \/ db_manual db' = None;
  tu_pointed : db_manual db' = Some i -> pointed p' = true;
  tu_work : work_scheduled db'
}.

Lemma manual_turned i ph (db db' : DB) ph' waits : manual_turn i ph db = (ph', waits, db') -> work_scheduled db -> (db_manual db = Some i -> ph <> MpDone) ->
  db_full_compaction db' = db_full_compaction db /\ (db_manual db' = db_manual db \/ db_manual db' = Some i \/ db_manual db' = None) /\
  (db_manual db' = Some i -> ph' <> MpDone) /\ work_scheduled db'.
Proof.
  intros E0 HW HP. destruct ph; cbn [manual_turn] in E0.
  - destruct (_ && ok (db_bg_error db)); [|injection E0 as <- <- <-; repeat split; [left; reflexivity|discriminate|exact HW]].
    destruct (db_manual db) as [m|] eqn:EM; injection E0 as <- <- <-; [repeat split; [left; exact EM|discriminate|exact HW]|].
    match goal with |- context [MaybeScheduleCompaction ?x] => destruct (schedule_frame x) as [G1 G2]; pose proof (schedule_work x) as G3 end.
    repeat split; [exact G2|right; left; exact G1|discriminate|exact G3].
  - destruct (db_scheduled db) eqn:ES; injection E0 as <- <- <-; [repeat split; [left; reflexivity|discriminate|exact HW]|].
    destruct (decide (db_manual db = Some i)) as [EM|EM]; [|repeat split; [left; reflexivity|congruence|exact HW]].
    repeat split; [right; right; reflexivity|cbn; discriminate|]. intros [H|H]; [|exfalso; apply H; reflexivity]. cbn in H |- *. rewrite <- ES at 1. apply HW. left. exact H.
  - injection E0 as <- <- <-. repeat split; [left; reflexivity|intros H; apply HP in H; congruence|exact HW].
Qed.

Lemma pointed_manual ph : pointed (CManual ph) = true <-> ph <> MpDone.
Proof. destruct ph; cbn; split; congruence. Qed.

(** A turn of a full compaction that only moves on. *)

Lemma turned_moves i p p' (db : DB) : inside p' = inside p -> (inside p = true -> db_full_compaction db = true) -> db_manual db <> Some i \/ pointed p' = true -> work_scheduled db ->
  turned i p p' db db.
Proof.
  intros HI HF HP HW. split; [|congruence|left; reflexivity|intros H; destruct HP; [contradiction|assumption]|exact HW].
  rewrite HI. destruct (inside p); [apply HF|]; reflexivity.
Qed.

Lemma turned_flag i p p' (db : DB) b : inside p = negb b -> inside p' = b -> (b = true -> db_full_compaction db = false) -> db_manual db <> Some i -> work_scheduled db ->
  turned i p p' db (set_full db b).
Proof.
  intros H1 H2 HF HP HW. split; [|intros _ G; apply HF; congruence|left; reflexivity|intros H; contradiction|exact HW].
  cbn. rewrite H1, H2. destruct b; [|reflexivity]. reflexivity.
Qed.

Lemma full_turned i ph (db db' : DB) ph' waits : full_turn i ph db = (ph', waits, db') -> work_scheduled db -> (inside (CFull ph) = true -> db_full_compaction db = true) ->
  (db_manual db = Some i -> pointed (CFull ph) = true) -> turned i (CFull ph) (CFull ph') db db'.
Proof.
  intros E0 HW HF HP.
  assert (HN : pointed (CFull ph) = false -> db_manual db <> Some i) by (intros H G; apply HP in G; congruence).
  destruct ph; cbn [full_turn] in E0.
  - unfold FlushedMemTable_turn in E0. destruct (flush_waits db); [|destruct (ok _)]; injection E0 as <- <- <-; apply turned_moves; auto.
  - destruct (db_full_compaction db) eqn:EF; injection E0 as <- <- <-; [apply turned_moves; auto|apply turned_flag; auto].
  - destruct (_ && negb (db_shutting_down db)); [injection E0 as <- <- <-; apply turned_moves; auto|].
    destruct (negb _); injection E0 as <- <- <-; [apply turned_flag; auto; discriminate|apply turned_moves; auto].
  - injection E0 as <- <- <-. apply turned_moves; auto.
  - unfold level_turn in E0. destruct (_ && _) in E0; [|injection E0 as <- <- <-; apply turned_moves; auto].
    destruct (negb _) in E0; [injection E0 as <- <- <-; apply turned_moves; auto|]. destruct (_ =? 0) in E0; [injection E0 as <- <- <-; apply turned_moves; auto|].
    destruct (_ && _) in E0; injection E0 as <- <- <-; [apply turned_moves; auto|].
    split; [cbn; apply HF; reflexivity|discriminate|left; reflexivity|reflexivity|exact HW].
  - unfold CompactWholeLevel_turn in E0. destruct (manual_turn i phase db) as [[ph1 w1] db1] eqn:E1.
    destruct (manual_turned i phase db db1 ph1 w1 E1 HW) as (G1 & G2 & G3 & G4); [intros H; apply HP in H; destruct phase; discriminate|].
    assert (HT : forall q, inside (CFull q) = true -> (db_manual db1 = Some i -> pointed (CFull q) = true) -> turned i (CFull (FpCompact level max phase)) (CFull q) db db1).
    { intros q HQ HPQ. split; [rewrite G1, HQ; apply HF; reflexivity|discriminate|exact G2|exact HPQ|exact G4]. }
    destruct ph1; [| |destruct (ok _)]; injection E0 as <- <- <-; apply HT; try reflexivity; intros H; apply G3 in H; congruence.
  - destruct (FinishFullCompaction status db) as [s1 db1] eqn:E1. unfold FinishFullCompaction in E1. injection E1 as _ <-. injection E0 as <- <- <-.
    apply turned_flag; auto; discriminate.
  - injection E0 as <- <- <-. apply turned_moves; auto.
Qed.

Lemma turn_turned i p (db db' : DB) p' waits : turn i p db = (p', waits, db') -> work_scheduled db -> (inside p = true -> db_full_compaction db = true) ->
  (db_manual db = Some i -> pointed p = true) -> turned i p p' db db'.
Proof.
  intros E0 HW HF HP. destruct p as [ph|ph]; cbn [turn] in E0.
  - destruct (manual_turn i ph db) as [[ph1 w1] db1] eqn:E1. injection E0 as <- <- <-.
    destruct (manual_turned i ph db db1 ph1 w1 E1 HW) as (G1 & G2 & G3 & G4); [intros H; apply pointed_manual, HP, H|].
    split; [exact G1|discriminate|exact G2|intros H; apply pointed_manual, G3, H|exact G4].
  - destruct (full_turn i ph db) as [[ph1 w1] db1] eqn:E1. injection E0 as <- <- <-. eapply full_turned; eassumption.
Qed.

Lemma callers_turn i p p' (db db' : DB) cs : cs !! i = Some p -> turned i p p' db db' -> callers_ok db cs -> callers_ok db' (<[i := p']> cs).
Proof.
  intros HI [T1 T2 T3 T4 T5] [H1 H2 H3 H4 H5].
  assert (HO : forall j q, <[i := p']> cs !! j = Some q -> j = i /\ q = p' \/ j <> i /\ cs !! j = Some q).
  { intros j q E0. destruct (decide (j = i)) as [->|N]; [rewrite lookup_insert_eq in E0; left; split; congruence|rewrite lookup_insert_ne in E0 by congruence; right; split; assumption]. }
  assert (HA : forall j q, j <> i -> cs !! j = Some q -> inside q = true -> inside p' = true -> False).
  { intros j q N Ej Iq Ip. destruct (inside p) eqn:EP; [apply N, (H4 j i q p); assumption|]. rewrite (H3 j q Ej Iq) in T2. specialize (T2 eq_refl Ip). discriminate. }
  split; [exact T5| | | |].
  - intros EF. destruct (inside p') eqn:EP'; [exists i, p'; split; [apply lookup_insert_eq|exact EP']|]. rewrite EF in T1.
    destruct (inside p) eqn:EP; [discriminate|]. destruct (H2 (eq_sym T1)) as (j & q & Ej & Iq). exists j, q. split; [|exact Iq].
    rewrite lookup_insert_ne; [exact Ej|congruence].
  - intros j q Ej Iq. rewrite T1. destruct (HO j q Ej) as [[-> ->]|[N Ej']].
    + rewrite Iq. destruct (inside p); reflexivity.
    + destruct (inside p) eqn:EP; [contradiction N; apply (H4 j i q p); assumption|]. rewrite (H3 j q Ej' Iq). apply orb_true_r.
  - intros j k q r Ej Ek Iq Ir. destruct (HO j q Ej) as [[-> ->]|[N Ej']], (HO k r Ek) as [[-> ->]|[N' Ek']]; [reflexivity|exfalso; eauto|exfalso; eauto|eapply H4; eassumption].
  - intros m EM. destruct (decide (m = i)) as [->|N]; [exists p'; split; [apply lookup_insert_eq|apply T4, EM]|].
    destruct T3 as [T3|[T3|T3]]; [|congruence|congruence]. rewrite T3 in EM. destruct (H5 m EM) as (q & Eq & Pq). exists q. split; [rewrite lookup_insert_ne by congruence; exact Eq|exact Pq].
Qed.

Lemma callers_new i p (db db' : DB) cs : cs !! i = None -> inside p = false -> db_manual db' = db_manual db -> db_full_compaction db' = db_full_compaction db ->
  work_scheduled db' -> callers_ok db cs -> callers_ok db' (<[i := p]> cs).
Proof.
  intros HN HI HM HF HW [H1 H2 H3 H4 H5].
  assert (HO : forall j q, <[i := p]> cs !! j = Some q -> inside q = true -> cs !! j = Some q).
  { intros j q E0 Iq. destruct (decide (j = i)) as [->|N]; [rewrite lookup_insert_eq in E0; congruence|rewrite lookup_insert_ne in E0 by congruence; exact E0]. }
  assert (HK : forall j q, cs !! j = Some q -> <[i := p]> cs !! j = Some q) by (intros j q E0; rewrite lookup_insert_ne; [exact E0|congruence]).
  split; [exact HW| | | |]; rewrite ?HM, ?HF; eauto.
  - intros EF. destruct (H2 EF) as (j & q & Ej & Iq). eauto.
  - intros m EM. destruct (H5 m EM) as (q & Eq & Pq). eauto.
Qed.

Lemma callers_return i p (db : DB) cs : cs !! i = Some p -> returned p = true -> callers_ok db cs -> callers_ok db (delete i cs).
Proof.
  intros HI HR [H1 H2 H3 H4 H5]. assert (HP : pointed p = false /\ inside p = false) by (destruct p as [[]|[]]; try discriminate; split; reflexivity).
  assert (HK : forall j q, cs !! j = Some q -> pointed q = true \/ inside q = true -> delete i cs !! j = Some q).
  { intros j q E0 G. rewrite lookup_delete_ne; [exact E0|]. intros ->. rewrite HI in E0. injection E0 as ->. destruct HP, G; congruence. }
  split; [exact H1| | | |].
  - intros EF. destruct (H2 EF) as (j & q & Ej & Iq). eauto 8.
  - intros j q Ej. apply lookup_delete_Some in Ej as [_ Ej]. eauto.
  - intros j k q r Ej Ek. apply lookup_delete_Some in Ej as [_ Ej], Ek as [_ Ek]. eauto.
  - intros m EM. destruct (H5 m EM) as (q & Eq & Pq). eauto 8.
Qed.

Lemma callers_step c c' : cstep c c' -> callers_ok (fst c) (snd c) -> callers_ok (fst c') (snd c').
Proof.
  intros HS H. destruct HS as [db cs i level b e Hi|db cs i Hi|db cs i p p' waits db' Hi HT|db cs i p Hi HR|ff fuel db cs db' HS E0|db cs db' HS HF|db cs HS|db cs s next HS
    |db cs wbs f d t db' E0|db cs s|db cs|db cs|db cs db' HF HI HB]; cbn [fst snd] in *.
  - apply (callers_new i _ db); [exact Hi|reflexivity|reflexivity|reflexivity|exact (co_work _ _ H)|exact H].
  - apply (callers_new i _ db); [exact Hi|reflexivity|reflexivity|reflexivity|exact (co_work _ _ H)|exact H].
  - apply (callers_turn i p p' db); [exact Hi| |exact H]. eapply turn_turned; [exact HT|exact (co_work _ _ H)|exact (co_flag _ _ H i p Hi)|].
    intros EM. destruct (co_manual _ _ H i EM) as (q & Eq & Pq). congruence.
  - eapply callers_return; eassumption.
  - apply call_worked in E0 as (db1 & HW & ->). eapply call_end_ok; eassumption.
  - destruct HF as [F1 F2 F3 F4]. apply (quiet_ok db); [left; exact F1|exact F2|intros _; left; congruence|exact H].
  - apply (call_end_ok db); [apply worked_frame; reflexivity|exact H].
  - apply (call_end_ok db); [apply worked_manual_finished|exact H].
  - eapply room_ok; eassumption.
  - assert (HE : forall x : DB, db_imm (RecordBackgroundError s x) = db_imm x /\ (ok (db_bg_error x) = false -> ok (db_bg_error (RecordBackgroundError s x)) = false)).
    { intros x. unfold RecordBackgroundError. destruct (ok (db_bg_error x)) eqn:EO; split; try reflexivity; [discriminate|intros _; exact EO]. }
    destruct (frame_error db s) as [F1 F2 F3 F4], (HE db) as [I1 I2]. apply (quiet_ok db); [left; exact F1|exact F2| |exact H].
    intros G. rewrite I1, F1 in G. rewrite F3, F4. destruct (co_work _ _ H G) as [?|[?|?]]; auto.
  - destruct (schedule_frame db) as [G1 G2]. apply (quiet_ok db); [left; exact G1|exact G2|apply schedule_work|exact H].
  - apply (quiet_ok db); [left; reflexivity|reflexivity|intros _; right; left; reflexivity|exact H].
  - destruct HF as [F1 F2 F3 F4]. apply (quiet_ok db); [left; exact F1|exact F2| |exact H]. unfold work_scheduled. rewrite HI, HB, F1, F3, F4. exact (co_work _ _ H).
Qed.

(** ** Nobody waits for nothing *)

Lemma work_waits (db : DB) : work_scheduled db -> db_imm db <> None \/ db_manual db <> None -> ok (db_bg_error db) = true -> db_shutting_down db = false -> db_scheduled db = true.
Proof. intros HW H HO HS. destruct (HW H) as [G|[G|G]]; congruence. Qed.

Lemma not_null {A} (x : option A) : is_null x = false -> x <> None.
Proof. destruct x; discriminate. Qed.

Lemma manual_waits i ph (db db' : DB) ph' : manual_turn i ph db = (ph', true, db') -> work_scheduled db -> db_scheduled db = true.
Proof.
  intros E0 HW. destruct ph; cbn [manual_turn] in E0.
  - destruct (negb (mc_done (manual_at db i)) && negb (db_shutting_down db) && ok (db_bg_error db)) eqn:EC; [|discriminate].
    apply andb_prop in EC as [EC HO]. apply andb_prop in EC as [_ HS]. apply negb_true_iff in HS.
    destruct (db_manual db) eqn:EM; [|discriminate]. apply work_waits; try assumption. right. congruence.
  - destruct (db_scheduled db); [reflexivity|discriminate].
  - discriminate.
Qed.

(** A caller that waits and is not the one inside waits for it or for scheduled work. *)

Lemma caller_waits i p (db db' : DB) p' : turn i p db = (p', true, db') -> work_scheduled db ->
  db_scheduled db = true \/ inside p = false /\ db_full_compaction db = true.
Proof.
  intros E0 HW. destruct p as [ph|ph]; cbn [turn] in E0.
  { destruct (manual_turn i ph db) as [[ph1 w1] db1] eqn:E1. injection E0 as <- -> <-. left. eapply manual_waits; eassumption. }
  destruct (full_turn i ph db) as [[ph1 w1] db1] eqn:E1. injection E0 as <- -> <-. destruct ph; cbn [full_turn] in E1; try discriminate.
  - unfold FlushedMemTable_turn in E1. destruct (flush_waits db) eqn:EF; [|destruct (ok _) in E1; discriminate]. apply andb_prop in EF as [EF HS]. apply andb_prop in EF as [HI HO].
    apply negb_true_iff in HS, HI. left. apply work_waits; try assumption. left. apply not_null, HI.
  - destruct (db_full_compaction db) eqn:EF; [right; split; reflexivity|discriminate].
  - destruct ((db_scheduled db || negb (is_null (db_manual db))) && ok (db_bg_error db) && negb (db_shutting_down db)) eqn:EC; [|destruct (negb _) in E1; discriminate].
    apply andb_prop in EC as [EC HS]. apply andb_prop in EC as [EC HO]. apply negb_true_iff in HS. left.
    apply orb_prop in EC as [EC|EM]; [exact EC|]. apply negb_true_iff in EM. apply work_waits; try assumption. right. apply not_null, EM.
  - destruct (level_turn i level max db). discriminate.
  - unfold CompactWholeLevel_turn in E1. destruct (manual_turn i phase db) as [[ph2 w2] db2] eqn:E2. left. apply (manual_waits i phase db db2 ph2); [|exact HW].
    destruct ph2; injection E1 as _ -> _; exact E2.
Qed.

Lemma callers_reach c c' : creaches c c' -> callers_ok (fst c) (snd c) -> callers_ok (fst c') (snd c').
Proof. induction 1 as [|c c1 c' HS _ IH]; intros H; [exact H|]. apply IH. eapply callers_step; eassumption. Qed.

(** A database that nobody uses. *)

Definition unused (db : DB) : Prop := db_manual db = None /\ db_full_compaction db = false /\ work_scheduled db.

Lemma unused_ok (db : DB) : unused db -> callers_ok db ∅.
Proof.
  intros (HM & HF & HW). split; [exact HW|congruence| | |congruence]; intros *; rewrite lookup_empty; discriminate.
Qed.

(** C20.  Whatever sequence of turns the callers of TEST_CompactRange and ForceFullCompaction,
    the background thread (its call made at once or in parts), writers, readers and the
    destructor take on a database that nobody uses: manual_compaction_ points to nothing or to
    the request of a caller that has not left its loops, never to the stack of one that has
    returned; force_full_compaction_in_progress_ is set exactly when one caller is between its two
    changes of the flag, and at most one is; a caller that waits, waits for background work
    that is scheduled, or for another caller which is inside and waits, if at all, for scheduled
    work; and the destructor waits for no other thing. *)
Theorem manual_callers_safe (db db' : DB) (cs : gmap nat Caller) : unused db -> creaches (db, ∅) (db', cs) ->
  (forall m, db_manual db' = Some m -> exists p, cs !! m = Some p /\ pointed p = true) /\
  (db_full_compaction db' = true <-> exists i p, cs !! i = Some p /\ inside p = true) /\
  (forall i j p q, cs !! i = Some p -> cs !! j = Some q -> inside p = true -> inside q = true -> i = j) /\
  (forall i p p1 db1, cs !! i = Some p -> turn i p db' = (p1, true, db1) -> db_scheduled db' = true \/
     exists j q, j <> i /\ cs !! j = Some q /\ inside q = true /\ forall q1 db2, turn j q db' = (q1, true, db2) -> db_scheduled db' = true) /\
  (destructor_waits db' = true -> db_scheduled db' = true \/ exists j q, cs !! j = Some q /\ inside q = true).
Proof.
  intros HU HR. apply unused_ok in HU. pose proof (callers_reach _ _ HR HU) as [H1 H2 H3 H4 H5]. cbn [fst snd] in *.
  split; [exact H5|]. split; [split; [exact H2|intros (i & p & Hi & Ip); eauto]|]. split; [exact H4|].
  assert (HIn : forall j q q1 db2, inside q = true -> turn j q db' = (q1, true, db2) -> db_scheduled db' = true).
  { intros j q q1 db2 Iq E0. destruct (caller_waits _ _ _ _ _ E0 H1) as [G|[G _]]; [exact G|congruence]. }
  split.
  - intros i p p1 db1 Hi E0. destruct (caller_waits _ _ _ _ _ E0 H1) as [G|[Gp Gf]]; [left; exact G|right]. destruct (H2 Gf) as (j & q & Hj & Iq).
    exists j, q. repeat split; [congruence|exact Hj|exact Iq|]. intros q1 db2. apply HIn. exact Iq.
  - unfold destructor_waits. intros E0. apply orb_prop in E0 as [G|G]; [left; exact G|right; apply H2, G].
Qed.

End Steps.

(** A run: caller 1 sets the flag, and caller 2 waits for it to return. *)

Definition idle_db : @DBImpl (bytes -> option bytes) FileState :=
  mkDBImpl (VersionSet_new (fun _ => None)) MemTable_new None (Writer_new FileState_new) 3 [] ∅ WriteBatch_new SnapshotList_new ∅ false None ∅ OK false false 0.

#[local] Abbreviation BI := (ListIterOps (InternalKeyComparator BytewiseComparator)).

Lemma manual_callers_safe_witness : exists j q, j <> 2%nat /\ <[2%nat := CFull FpFlag]> (<[1%nat := CFull FpIdle]> (∅ : gmap nat Caller)) !! j = Some q /\ inside q = true.
Proof.
  destruct (@manual_callers_safe BytewiseComparator NoLibraries run_options (str "c") 2097152 (str "db") _ FileState SequentialFileImpl MemWritable
    (store_env FileState_new) store_denv ListIter BI (fun _ _ _ _ => mkListIter [] 0) (fun _ => mkListIter [] 0) (fun _ _ _ => [])
    idle_db (set_full idle_db true) (<[2%nat := CFull FpFlag]> (<[1%nat := CFull FpIdle]> ∅))) as (_ & _ & _ & H & _).
  - repeat split. intros [H|H]; contradiction H; reflexivity.
  - eapply rtc_l; [apply (cs_force _ _ _ _ _ _ _ _ _ _ _ _ _ 1%nat); reflexivity|].
    eapply rtc_l; [apply (cs_turn _ _ _ _ _ _ _ _ _ _ _ _ _ 1%nat (CFull FpFlush) (CFull FpFlag) false idle_db); reflexivity|]. rewrite insert_insert_eq.
    eapply rtc_l; [apply (cs_turn _ _ _ _ _ _ _ _ _ _ _ _ _ 1%nat (CFull FpFlag) (CFull FpIdle) false (set_full idle_db true)); reflexivity|]. rewrite insert_insert_eq.
    eapply rtc_l; [apply (cs_force _ _ _ _ _ _ _ _ _ _ _ _ _ 2%nat); reflexivity|].
    eapply rtc_l; [apply (cs_turn _ _ _ _ _ _ _ _ _ _ _ _ _ 2%nat (CFull FpFlush) (CFull FpFlag) false (set_full idle_db true)); reflexivity|]. rewrite insert_insert_eq. apply rtc_refl.
  - destruct (H 2%nat (CFull FpFlag) (CFull FpFlag) (set_full idle_db true) eq_refl eq_refl) as [G|(j & q & N & Hj & Iq & _)]; [discriminate G|]. exists j, q. auto.
Defined.

(** The end of a full compaction schedules nothing: with twelve files at level 0 a
    compaction is due, and a writer that the signal wakes waits for level 0 again. *)

Definition crowded_heap : FileHeap := map (fun n => mkFile 1 100 n 1000 (mkInternalKey (str "b") 2 kTypeValue) (mkInternalKey (str "d") 6 kTypeValue)) (map Z.of_nat (List.seq 4 12)).

Definition crowded_db : @DBImpl (bytes -> option bytes) FileState :=
  let vs := VersionSet_new (fun _ => None) in
  let v := Finalize crowded_heap (mkVersion (<[0%nat := List.seq 0 12]> (repeat [] kNumLevels)) None (-1) (d_of_Z (-1)) (-1)) in
  set_full (with_vs idle_db (AppendVersion (with_heap vs crowded_heap (vs_compact_pointer vs)) v)) true.

Example finish_schedules_nothing : let db := snd (FinishFullCompaction OK crowded_db) in
  db_full_compaction db = false /\ db_scheduled db = false /\ NeedsCompaction (db_versions db) = true /\
  fst (MakeRoomForWrite_turn (S := SequentialFileImpl) 4194304 (str "db") (store_env FileState_new) true false db) = RoomWait.
Proof. vm_compute. repeat split. Qed.
