(* ===== verification/DbOpen.v ===== *)
(** * Opening a database (db/db_impl.cc)

    [DBImpl::Recover] with [NewDB] and [RecoverLogFile], and [DB::Open].  While a
    database is being opened it has no memtable and no log yet; what recovery
    works on is the record [Opening].  Messages and statistics are left out. *)

From S2P Require Import Prelude Coding Compare DbFormat Logging FileName SkipList Arena MemTable WriteBatch Crc32c Env Log Filter Iterator Block Format TableBuilder Table VersionEdit Version Compaction VersionSet MemIter DbImpl DbFlush.
#[local] Open Scope Z_scope.
#[local] Open Scope ldb_scope.

(** ** Options *)

Definition kNumNonTableCacheFiles : Z := 10.

(** [ClipToRange(ptr, minvalue, maxvalue)], with the comparisons at the type of
    the bounds, which is [int] in all its uses. *)

Definition ClipToRange (x minvalue maxvalue : Z) : Z :=
  let x := if maxvalue <? s32 x then maxvalue else x in
  if s32 x <? minvalue then minvalue else x.

Record DbOptions := mkDbOptions {
  do_max_open_files : Z;
  do_write_buffer_size : Z;
  do_max_file_size : Z;
  do_block_size : Z
}.

Definition SanitizeOptions (src : DbOptions) : DbOptions :=
  mkDbOptions (ClipToRange (do_max_open_files src) (64 + kNumNonTableCacheFiles) 50000)
    (ClipToRange (do_write_buffer_size src) (64 << 10) (1 << 30))
    (ClipToRange (do_max_file_size src) (1 << 20) (1 << 30))
    (ClipToRange (do_block_size src) (1 << 10) (4 << 20)).

Definition TableCacheSize (sanitized_options : DbOptions) : Z := do_max_open_files sanitized_options - kNumNonTableCacheFiles.

Section Open.
Context (U : Comparator) (K : Compression) (options : Options) (comparator_name : bytes) (max_file_size write_buffer_size : Z) (dbname : bytes).
Context (paranoid_checks reuse_logs create_if_missing error_if_exists : bool).
Context {E W Q : Type} {WF : WritableFile W} {SF : SequentialFile Q} (env : @EnvOps E W Q) (denv : DbEnvOps E W).
Context {TI : Type} {TIO : Iterator TI} (tc_NewIterator : E -> ReadOptions -> Z -> Z -> TI).

(** The members of [DBImpl] that recovery sets: [mem_], [logfile_] and [log_] are
    null at first. *)

Record Opening := mkOpening {
  o_versions : @VersionSet E W;
  o_pending : gset Z;
  o_mem : option MemTable;
  o_log : option (Writer W);
  o_logfile_number : Z
}.

Definition Opening_new (e : E) : Opening := mkOpening (VersionSet_new e) ∅ None None 0.

Definition on_versions (o : Opening) (vs : VersionSet) : Opening := mkOpening vs (o_pending o) (o_mem o) (o_log o) (o_logfile_number o).

(** ** [NewDB] *)

Definition new_db_edit : VersionEdit := SetLastSequence 0 (SetNextFile 2 (SetLogNumber 0 (SetComparatorName comparator_name VE_Clear))).

Definition NewDB (e : E) : option (Status * E) :=
  let manifest := DescriptorFileName dbname 1 in
  match env_NewWritableFile env e manifest with
  | (e, (s, Some file)) =>
      if ok s then
        match AddRecord (Writer_new file) (VE_EncodeTo new_db_edit []) with
        | None => None
        | Some (s, log) =>
            let '(s, file) := sync_and_close s (dest_ log) in
            let e := de_close denv e manifest file in
            Some (if ok s then let '(e, s) := env_SetCurrentFile env e dbname 1 in (s, e) else (s, env_RemoveFile env e manifest))
        end
      else Some (s, e)
  | (e, (s, None)) => Some (s, e)
  end.

Definition MaybeIgnoreError (s : Status) : Status := if ok s || paranoid_checks then s else OK.

(** ** [RecoverLogFile] *)

(** What the loop over the records changes. *)

Record Replay := mkReplay {
  rp_status : Status;
  rp_mem : option MemTable;
  rp_compactions : Z;
  rp_max_sequence : Z;
  rp_save_manifest : bool;
  rp_edit : VersionEdit;
  rp_tables : @VersionSet E W * gset Z
}.

Definition with_status (p : Replay) (s : Status) : Replay :=
  mkReplay s (rp_mem p) (rp_compactions p) (rp_max_sequence p) (rp_save_manifest p) (rp_edit p) (rp_tables p).

(** [LogReporter::Corruption]; the reader's own reports are in its list. *)

Definition report (s : Status) (reason : Status) : Status := if paranoid_checks && ok s then reason else s.

Definition reports (s : Status) (r : Reader Q) : Status := if paranoid_checks then reported s r else s.

(** [WriteLevel0Table(mem, edit, nullptr)] during recovery. *)

Definition flush_recovered (flush_fuel : nat) (mem : MemTable) (p : Replay) : option Replay :=
  match WriteLevel0Table U K options max_file_size dbname env denv tc_NewIterator flush_fuel mem (rp_edit p) None (rp_tables p) with
  | None => None
  | Some (s, edit, t) => Some (mkReplay s None (rp_compactions p) (rp_max_sequence p) true edit t)
  end.

(** One record: whether the loop goes on. *)

Definition recover_record_turn (flush_fuel : nat) (record : bytes) (p : Replay) : option (bool * Replay) :=
  if sz record <? 12 then Some (true, with_status p (report (rp_status p) (Corruption (str "log record too small") [])))
  else
    let batch := WBI_SetContents record in
    match WBI_InsertInto U batch (default MemTable_new (rp_mem p)) with
    | None => None
    | Some (s, mem) =>
        let s := MaybeIgnoreError s in
        let p := mkReplay s (Some mem) (rp_compactions p) (rp_max_sequence p) (rp_save_manifest p) (rp_edit p) (rp_tables p) in
        if ok s then
          let last_seq := u64 (WBI_Sequence batch + WBI_Count batch - 1) in
          let p := mkReplay s (Some mem) (rp_compactions p) (if rp_max_sequence p <? last_seq then last_seq else rp_max_sequence p)
                     (rp_save_manifest p) (rp_edit p) (rp_tables p) in
          if write_buffer_size <? MT_ApproximateMemoryUsage mem then
            let p := mkReplay s (Some mem) (s32 (rp_compactions p + 1)) (rp_max_sequence p) true (rp_edit p) (rp_tables p) in
            option_map (fun p => (ok (rp_status p), p)) (flush_recovered flush_fuel mem p)
          else Some (true, p)
        else Some (false, p)
    end.

(** [while (reader.ReadRecord(&record, &scratch) && status.ok())]; [n] bounds the
    number of records and [fuel] the fragments of one. *)

Fixpoint recover_log_loop (flush_fuel n fuel : nat) (r : Reader Q) (p : Replay) : option Replay :=
  match n with
  | O => None
  | S n =>
      match ReadRecord fuel r with
      | None => None
      | Some (None, r) => Some (with_status p (reports (rp_status p) r))
      | Some (Some record, r) =>
          let p := with_status p (reports (rp_status p) r) in
          if ok (rp_status p) then
            match recover_record_turn flush_fuel record p with
            | None => None
            | Some (goes_on, p) => if goes_on then recover_log_loop flush_fuel n fuel r p else Some p
            end
          else Some p
      end
  end.

(** Keeping the last log file. *)

Definition reuse_log (fname : bytes) (log_number : Z) (last_log : bool) (p : Replay) (o : Opening) : Replay * Opening :=
  if ok (rp_status p) && reuse_logs && last_log && (rp_compactions p =? 0) then
    let '(vs, pending) := rp_tables p in
    let '(s, lfile_size) := env_GetFileSize env (vs_env vs) fname in
    if ok s then
      let '(e, (s, file)) := env_NewAppendableFile env (vs_env vs) fname in
      let p := mkReplay (rp_status p) (rp_mem p) (rp_compactions p) (rp_max_sequence p) (rp_save_manifest p) (rp_edit p) (vs_with_env vs e, pending) in
      match file with
      | Some file =>
          if ok s then
            (mkReplay (rp_status p) None (rp_compactions p) (rp_max_sequence p) (rp_save_manifest p) (rp_edit p) (rp_tables p),
             mkOpening (o_versions o) (o_pending o) (Some (default MemTable_new (rp_mem p))) (Some (Writer_append file lfile_size)) log_number)
          else (p, o)
      | None => (p, o)
      end
    else (p, o)
  else (p, o).

Definition RecoverLogFile (flush_fuel n fuel : nat) (log_number : Z) (last_log save_manifest : bool) (edit : VersionEdit) (max_sequence : Z)
    (o : Opening) : option (Status * bool * VersionEdit * Z * Opening) :=
  let fname := LogFileName dbname log_number in
  match env_NewSequentialFile env (vs_env (o_versions o)) fname with
  | (s, Some file) =>
      if ok s then
        match recover_log_loop flush_fuel n fuel (Reader_new file (Some []) true 0)
                (mkReplay s None 0 max_sequence save_manifest edit (o_versions o, o_pending o)) with
        | None => None
        | Some p =>
            let '(p, o) := reuse_log fname log_number last_log p o in
            match match rp_mem p with
                  | Some mem => if ok (rp_status p) then flush_recovered flush_fuel mem p else Some p
                  | None => Some p
                  end with
            | None => None
            | Some p =>
                let '(vs, pending) := rp_tables p in
                Some (rp_status p, rp_save_manifest p, rp_edit p, rp_max_sequence p,
                      mkOpening vs pending (o_mem o) (o_log o) (o_logfile_number o))
            end
        end
      else Some (MaybeIgnoreError s, save_manifest, edit, max_sequence, o)
  | (s, None) => Some (MaybeIgnoreError s, save_manifest, edit, max_sequence, o)
  end.

(** ** [DBImpl::Recover] *)

Fixpoint insert_number (x : Z) (l : list Z) : list Z :=
  match l with
  | [] => [x]
  | y :: l' => if x <=? y then x :: l else y :: insert_number x l'
  end.

Definition sort_numbers (l : list Z) : list Z := fold_right insert_number [] l.

(** The live files that are missing, and the logs to replay in their order. *)

Definition scan_files (vs : @VersionSet E W) (filenames : list bytes) : gset Z * list Z :=
  let '(expected, logs) :=
    fold_left (fun '(expected, logs) f =>
      match ParseFileName f with
      | Some (number, type) =>
          (expected ∖ {[number]},
           if bool_decide (type = kLogFile) && ((vs_log_number vs <=? number) || (number =? vs_prev_log_number vs))
           then logs ++ [number] else logs)
      | None => (expected, logs)
      end) filenames (AddLiveFiles vs ∅, []) in
  (expected, sort_numbers logs).

(** [*expected.begin()] *)

Definition set_begin (s : gset Z) : Z := hd 0 (sort_numbers (elements s)).

Fixpoint recover_logs (flush_fuel n fuel : nat) (logs : list Z) (save_manifest : bool) (edit : VersionEdit) (max_sequence : Z) (o : Opening)
  : option (Status * bool * VersionEdit * Z * Opening) :=
  match logs with
  | [] => Some (OK, save_manifest, edit, max_sequence, o)
  | log :: logs =>
      match RecoverLogFile flush_fuel n fuel log (match logs with [] => true | _ => false end) save_manifest edit max_sequence o with
      | None => None
      | Some (s, save_manifest, edit, max_sequence, o) =>
          if ok s then recover_logs flush_fuel n fuel logs save_manifest edit max_sequence (on_versions o (MarkFileNumberUsed (o_versions o) log))
          else Some (s, save_manifest, edit, max_sequence, o)
      end
  end.

Definition set_last_sequence (vs : @VersionSet E W) (s : Z) : VersionSet :=
  with_numbers vs (vs_next_file_number vs) (vs_manifest_file_number vs) s (vs_log_number vs) (vs_prev_log_number vs).

(** Creating a missing database, or refusing an existing one. *)

Definition create_or_refuse (e : E) : option (Status * E) :=
  if negb (de_FileExists denv e (CurrentFileName dbname)) then
    if create_if_missing then NewDB e else Some (InvalidArgument dbname (str "does not exist (create_if_missing is false)"), e)
  else if error_if_exists then Some (InvalidArgument dbname (str "exists (error_if_exists is true)"), e)
  else Some (OK, e).

(** After the manifest was read. *)

Definition recover_rest (flush_fuel n fuel : nat) (edit : VersionEdit) (save_manifest : bool) (o : Opening) : option (Status * VersionEdit * bool * Opening) :=
  let vs := o_versions o in
  let '(s, filenames) := de_GetChildren denv (vs_env vs) dbname in
  if ok s then
    let '(expected, logs) := scan_files vs filenames in
    if decide (expected = ∅) then
      match recover_logs flush_fuel n fuel logs save_manifest edit 0 o with
      | None => None
      | Some (s, save_manifest, edit, max_sequence, o) =>
          if ok s then
            Some (OK, edit, save_manifest,
                  if vs_last_sequence (o_versions o) <? max_sequence then on_versions o (set_last_sequence (o_versions o) max_sequence) else o)
          else Some (s, edit, save_manifest, o)
      end
    else Some (Corruption (NumberToString (Z.of_nat (size expected)) ++ str " missing files; e.g.") (TableFileName dbname (set_begin expected)), edit, save_manifest, o)
  else Some (s, edit, save_manifest, o).

Definition DBImpl_Recover (flush_fuel n fuel : nat) (edit : VersionEdit) (save_manifest : bool) (o : Opening) : option (Status * VersionEdit * bool * Opening) :=
  let e := de_CreateDir denv (vs_env (o_versions o)) dbname in
  let '(e, s) := de_LockFile denv e (LockFileName dbname) in
  let at_env e := on_versions o (vs_with_env (o_versions o) e) in
  if ok s then
    match create_or_refuse e with
    | None => None
    | Some (s, e) =>
        if ok s then
          match Recover U comparator_name max_file_size reuse_logs dbname env n fuel (vs_with_env (o_versions o) e) save_manifest with
          | None => None
          | Some (s, save_manifest, vs) =>
              if ok s then recover_rest flush_fuel n fuel edit save_manifest (on_versions o vs)
              else Some (s, edit, save_manifest, on_versions o vs)
          end
        else Some (s, edit, save_manifest, at_env e)
    end
  else Some (s, edit, save_manifest, at_env e).

(** ** [DB::Open] *)

(** A new log and a memtable, when recovery did not keep the last ones. *)

Definition new_log (edit : VersionEdit) (o : Opening) : Status * VersionEdit * Opening :=
  match o_mem o with
  | Some _ => (OK, edit, o)
  | None =>
      let '(new_log_number, vs) := NewFileNumber (o_versions o) in
      match env_NewWritableFile env (vs_env vs) (LogFileName dbname new_log_number) with
      | (e, (s, Some lfile)) =>
          if ok s then
            (s, SetLogNumber new_log_number edit,
             mkOpening (vs_with_env vs e) (o_pending o) (Some MemTable_new) (Some (Writer_new lfile)) new_log_number)
          else (s, edit, on_versions o (vs_with_env vs e))
      | (e, (s, None)) => (s, edit, on_versions o (vs_with_env vs e))
      end
  end.

(** The database object once it has a memtable and a log. *)

Definition opened (o : Opening) : option (@DBImpl E W) :=
  match o_mem o, o_log o with
  | Some mem, Some log =>
      Some (mkDBImpl (o_versions o) mem None log (o_logfile_number o) [] ∅ WriteBatch_new SnapshotList_new (o_pending o)
              false None ∅ OK false false 0)
  | _, _ => None
  end.

Definition Open (flush_fuel n fuel : nat) (e : E) : option (Status * option (@DBImpl E W)) :=
  match DBImpl_Recover flush_fuel n fuel VE_Clear false (Opening_new e) with
  | None => None
  | Some (s, edit, save_manifest, o) =>
      let '(s, edit, o) := if ok s then new_log edit o else (s, edit, o) in
      match
        if ok s && save_manifest then
          let edit := SetLogNumber (o_logfile_number o) (SetPrevLogNumber 0 edit) in
          option_map (fun r => (fst (fst r), on_versions o (snd r))) (LogAndApply U comparator_name dbname env (o_versions o) edit)
        else Some (s, o)
      with
      | None => None
      | Some (s, o) =>
          Some (s, if ok s then option_map (fun db => MaybeScheduleCompaction (RemoveObsoleteFiles dbname env denv db)) (opened o) else None)
      end
  end.

End Open.

(** Options beyond the range of [int] are truncated before they are compared. *)

Example clip_wraps : ClipToRange (2 ^ 32) (64 << 10) (1 << 30) = 64 << 10 /\ ClipToRange (2 ^ 32 + 2 ^ 20) (64 << 10) (1 << 30) = 2 ^ 32 + 2 ^ 20.
Proof. vm_compute. split; reflexivity. Qed.
