(* ===== verification/DbRecover.v ===== *)
(** * A log that was cut is replayed (db/db_impl.cc: RecoverLogFile)

    The batches of a log that a crash cut at any point are replayed: the
    operations of the batches that are whole go to level-0 tables, in stretches,
    or to the memtable when the log file is kept, with their sequence numbers. *)

From Stdlib Require Import Permutation.
From S2P Require Import Prelude Coding Compare DbFormat Logging FileName SkipList Arena MemTable WriteBatch Crc32c Env Log Filter Iterator Block Format TableBuilder Table VersionEdit Version VersionGet Compaction VersionSet MemIter DbImpl DbWrite DbReadOk DbScan DbFlush DbFlushOk DbOpen.
#[local] Open Scope Z_scope.
#[local] Open Scope ldb_scope.

(** ** The batches of a log *)

Fixpoint log_records (q : Z) (groups : list (list Op)) : list bytes :=
  match groups with
  | [] => []
  | ops :: groups => batch_rep q (sz ops) ops :: log_records (q + sz ops) groups
  end.

Lemma log_records_app q g1 g2 : log_records q (g1 ++ g2) = log_records q g1 ++ log_records (q + sz (concat g1)) g2.
Proof.
  revert q. induction g1 as [|ops g1 IH]; intros q; cbn [app log_records concat]; [f_equal; unfold sz; cbn; lia|].
  rewrite IH, sz_app. f_equal. f_equal. f_equal. lia.
Qed.

Lemma log_records_take q j groups : take j (log_records q groups) = log_records q (take j groups).
Proof. revert q j. induction groups as [|ops groups IH]; intros q [|j]; cbn [log_records take]; try reflexivity. rewrite IH. reflexivity. Qed.

Lemma length_log_records q groups : length (log_records q groups) = length groups.
Proof. revert q. induction groups as [|ops groups IH]; intros q; [reflexivity|]. cbn [log_records length]. rewrite IH. reflexivity. Qed.

Lemma length_numbered q ops : length (numbered q ops) = length ops.
Proof. rewrite <- (length_map snd), numbered_ops. reflexivity. Qed.

Lemma max_sequence_small : kMaxSequenceNumber < 2 ^ 60.
Proof. reflexivity. Qed.

Lemma history_ok_middle a h b : history_ok (a ++ h ++ b) -> history_ok h.
Proof.
  intros [H1 H2 H3]. rewrite !Forall_app in H2, H3. apply StronglySorted_app_iff in H1 as (_ & H1 & _). apply StronglySorted_app_iff in H1 as (H1 & _ & _).
  split; [exact H1|apply H2|apply H3].
Qed.

Lemma flushable_middle options a h b : flushable options (a ++ h ++ b) -> flushable options h.
Proof.
  intros [H1 H2 H3]. split; [exact H1| |exact H3]. rewrite !map_app, !weight_app, !sz_app in H2.
  pose proof (weight_nonneg (map op_entry a)). pose proof (weight_nonneg (map op_entry b)). pose proof (sz_nonneg a). pose proof (sz_nonneg b). lia.
Qed.

Section Replay.
Context {U : Comparator} {UOK : ComparatorOk U} {US : ComparatorShort U} {K : Compression} {KOK : CompressionOk K}.
Hypothesis all_keys : forall u, @cmp_dom U u.
Context (options : Options) (max_file_size write_buffer_size : Z) (dbname : bytes) (paranoid : bool).
Context {E W Q : Type} {WF : WritableFile W} {RW : ReliableWritable W} {SF : SequentialFile Q} (env : @EnvOps E W Q) (denv : DbEnvOps E W) {FS : FileStore env denv}.
Context {TI : Type} {TIO : Iterator TI} (tc_NewIterator : E -> ReadOptions -> Z -> Z -> TI).
Hypothesis opens : opens_tables (U := U) (K := K) options dbname env denv tc_NewIterator.

#[local] Abbreviation ICmp := (InternalKeyComparator U).

Definition table_bytes (file : W) (es : list (Z * Op)) : bytes := wf_contents (r_file (snd (build_table ICmp K options file (map op_entry es)))).

(** A table file that holds a stretch of the history. *)

Definition tabled (e : E) (number : Z) (h : list (Z * Op)) (size : Z) (lo hi : bytes) : Prop :=
  exists file es, wf_inv file /\ wf_contents file = [] /\ Permutation es h /\ ops_ok (U := U) es /\
    fs_look e (TableFileName dbname number) = Some (table_bytes file es) /\ size = sz (table_bytes file es) /\ encloses (U := U) lo hi h.

(** The tables of [chunks] have the numbers from [n] on, and the edit adds them to
    level 0. *)

Inductive tables (e : E) (n : Z) (edit : VersionEdit) : list (list (Z * Op)) -> VersionEdit -> Prop :=
| tables_nil : tables e n edit [] edit
| tables_snoc chunks edit' h size lo hi : tables e n edit chunks edit' -> tabled e (n + sz chunks) h size lo hi ->
    tables e n edit (chunks ++ [h]) (AddFile 0 (n + sz chunks) size lo hi edit').

Lemma tables_frame e e' n edit chunks edit' k : 0 <= n -> n + sz chunks <= k < 2 ^ 64 ->
  (forall name, name <> TableFileName dbname k -> fs_look e' name = fs_look e name) ->
  tables e n edit chunks edit' -> tables e' n edit chunks edit'.
Proof.
  intros Hn Hk HF H. induction H as [|chunks edit' h size lo hi H IH (file & es & T1 & T2 & T3 & T4 & T5 & T6)]; [constructor|].
  rewrite sz_app in Hk. change (sz [h]) with 1 in Hk. pose proof (sz_nonneg chunks). constructor; [apply IH; lia|]. exists file, es. rewrite HF; [auto 10|].
  intros He. apply TableFileName_inj in He; lia.
Qed.

(** ** Writing out what was replayed *)

Lemma flush_recovered_ok ff mem h (p : @Replay E W) vs pending : rp_tables p = (vs, pending) -> mem_holds (U := U) mem h -> h <> [] -> flushable options h ->
  (length h < ff)%nat -> 0 <= vs_next_file_number vs < 2 ^ 64 ->
  (forall e name e1 file es, env_NewWritableFile env e name = (e1, (OK, Some file)) -> Permutation es h -> sz (table_bytes file es) < 2 ^ 32) ->
  exists size lo hi vs' pending', flush_recovered U K options max_file_size dbname env denv tc_NewIterator ff mem p =
      Some (mkReplay OK None (rp_compactions p) (rp_max_sequence p) true (AddFile 0 (vs_next_file_number vs) size lo hi (rp_edit p)) (vs', pending')) /\
    tabled (vs_env vs') (vs_next_file_number vs) h size lo hi /\ vs_next_file_number vs' = u64 (vs_next_file_number vs + 1) /\
    (forall name, name <> TableFileName dbname (vs_next_file_number vs) -> fs_look (vs_env vs') name = fs_look (vs_env vs) name) /\
    vs_versions vs' = vs_versions vs /\ vs_current vs' = vs_current vs /\ vs_heap vs' = vs_heap vs.
Proof.
  intros ET Hm Hne HF Hfuel Hnum Hsz. set (n := vs_next_file_number vs).
  destruct (fs_create (vs_env vs) (TableFileName dbname n)) as (e1 & file & E1 & F1 & F2 & F3).
  assert (HC : creates (U := U) (K := K) options dbname env denv tc_NewIterator (vs_env vs) e1 n file).
  { split; [exact E1|exact F1|exact F2|exact fs_close|]. intros f Hf Himg. apply opens; [exact Hnum|apply fs_put, Hf|exact Himg]. }
  destruct (WriteLevel0Table_ok all_keys options max_file_size dbname env denv tc_NewIterator mem h vs pending e1 file ff (rp_edit p) None Hm Hne HF Hfuel HC)
    as (level & lo & hi & file' & es & E2 & HB & _ & _ & _ & _ & HL & Hp & HO & Hinv & Hc).
  { intros es Hp. exact (Hsz _ _ _ _ es E1 Hp). }
  { discriminate. }
  rewrite (HL eq_refl) in E2. unfold flush_recovered. rewrite ET, E2. exists (sz (wf_contents file')), lo, hi. eexists _, _. split; [reflexivity|].
  split; [|split; [reflexivity|split; [|repeat split]]]; cbn [vs_with_env with_descriptor vs_env].
  - exists file, es. split; [exact F1|]. split; [exact F2|]. split; [exact Hp|]. split; [exact HO|]. rewrite fs_put by exact Hinv. rewrite Hc. auto.
  - intros name Hne'. rewrite fs_put_ne by exact Hne'. apply F3, Hne'.
Qed.

(** ** The state of the replay *)

Section Loop.
Context (ff : nat) (e0 : E) (n0 : Z) (edit0 : VersionEdit) (ops : list (Z * Op)).
Hypothesis Hhist : history_ok ops.
Hypothesis Hflush : flushable options ops.
Hypothesis Hff : (length ops < ff)%nat.
Hypothesis Hsize : forall e name e1 file es, env_NewWritableFile env e name = (e1, (OK, Some file)) -> NoDup es -> incl es ops -> sz (table_bytes file es) < 2 ^ 32.
Hypothesis Hn0 : 0 <= n0.
Hypothesis Hroom : n0 + sz ops + 1 < 2 ^ 64.

(** The operations before [q] are in the tables of [chunks] and in the memtable,
    which holds [rest]. *)

Record replayed (p : @Replay E W) (chunks : list (list (Z * Op))) (rest : list (Z * Op)) : Prop := {
  re_status : rp_status p = OK;
  re_mem : match rp_mem p with Some m => mem_holds (U := U) m rest /\ rest <> [] | None => rest = [] end;
  re_next : vs_next_file_number (fst (rp_tables p)) = n0 + sz chunks;
  re_tables : tables (vs_env (fst (rp_tables p))) n0 edit0 chunks (rp_edit p);
  re_frame : forall name, (forall k, n0 <= k < n0 + sz chunks -> name <> TableFileName dbname k) -> fs_look (vs_env (fst (rp_tables p))) name = fs_look e0 name;
  re_filled : Forall (fun c => c <> []) chunks
}.

Lemma chunks_length (chunks : list (list (Z * Op))) : Forall (fun c => c <> []) chunks -> sz chunks <= sz (concat chunks).
Proof.
  induction 1 as [|c chunks Hc H IH]; [apply Z.le_refl|]. cbn [concat]. rewrite sz_app. unfold sz in *. cbn [length]. destruct c; [contradiction|cbn [length]; lia].
Qed.

Lemma history_NoDup (h : list (Z * Op)) : history_ok h -> NoDup h.
Proof.
  intros [HS _ _]. induction HS as [|x h HS IH HF]; constructor; [|exact IH]. intros Hin. apply list_elem_of_In in Hin. rewrite List.Forall_forall in HF. specialize (HF x Hin). lia.
Qed.

Lemma replay_flush p chunks rest later mem : replayed p chunks rest -> rp_mem p = Some mem -> ops = concat chunks ++ rest ++ later ->
  exists p', flush_recovered U K options max_file_size dbname env denv tc_NewIterator ff mem p = Some p' /\
    replayed p' (chunks ++ [rest]) [] /\ rp_mem p' = None /\ rp_max_sequence p' = rp_max_sequence p /\ rp_compactions p' = rp_compactions p /\ rp_save_manifest p' = true.
Proof.
  intros [R1 R2 R3 R4 R5 R6] EM Eo. rewrite EM in R2. destruct R2 as [Hm Hne]. destruct (rp_tables p) as [vs pending] eqn:ET. cbn [fst] in *.
  pose proof (chunks_length chunks R6) as Hc.
  assert (Hl : sz (concat chunks) + sz rest <= sz ops) by (rewrite Eo, !sz_app; pose proof (sz_nonneg later); lia).
  destruct (flush_recovered_ok ff mem rest p vs pending ET Hm Hne) as (size & lo & hi & vs' & pending' & E' & HT & HN & HFr & _).
  - rewrite Eo in Hflush. exact (flushable_middle _ _ _ _ Hflush).
  - unfold sz in Hl. lia.
  - rewrite R3. pose proof (sz_nonneg chunks). pose proof (sz_nonneg rest). lia.
  - intros e name e1 file es EN Hp. apply (Hsize _ _ _ _ es EN).
    + rewrite Hp. apply history_NoDup, (mh_history _ _ Hm).
    + intros x Hx. rewrite Eo. apply in_app_iff. right. apply in_app_iff. left. exact (Permutation_in _ Hp Hx).
  - eexists. split; [exact E'|]. pose proof (sz_nonneg rest). pose proof (sz_nonneg chunks). rewrite R3 in *.
    rewrite u64_small in HN by lia.
    split; [|cbn; auto]. split; cbn [rp_status rp_mem rp_tables rp_edit fst].
    + reflexivity.
    + reflexivity.
    + rewrite HN, sz_app. change (sz [rest]) with 1. lia.
    + constructor; [|exact HT]. apply (tables_frame (vs_env vs) _ _ _ _ _ (n0 + sz chunks) Hn0); [lia|exact HFr|exact R4].
    + intros name Hname. rewrite sz_app in Hname. change (sz [rest]) with 1 in Hname. rewrite HFr by (apply Hname; lia). apply R5. intros k Hk. apply Hname. lia.
    + apply Forall_app. split; [exact R6|]. constructor; [exact Hne|constructor].
Qed.

(** ** One batch *)

Record counted (save0 : bool) (p : @Replay E W) (chunks : list (list (Z * Op))) : Prop := {
  co_compactions : rp_compactions p = sz chunks;
  co_save : rp_save_manifest p = match chunks with [] => save0 | _ => true end
}.

Lemma ops_few : sz ops < 2 ^ 31.
Proof. destruct Hflush as [_ H _]. pose proof (weight_nonneg (map op_entry ops)). lia. Qed.

Lemma insert_batch p chunks rest q g later : replayed p chunks rest -> g <> [] -> ops = concat chunks ++ (rest ++ numbered q g) ++ later ->
  exists mem, WBI_InsertInto U (mkWriteBatch (batch_rep q (sz g) g)) (default MemTable_new (rp_mem p)) = Some (OK, mem) /\
    mem_holds (U := U) mem (rest ++ numbered q g) /\ 0 <= q /\ q + sz g - 1 <= kMaxSequenceNumber.
Proof.
  intros HR Hg Eo. rewrite Eo in Hhist. pose proof (history_ok_middle _ _ _ Hhist) as HH.
  assert (Hsub : Forall (fun x => 0 < fst x <= kMaxSequenceNumber /\ op_fits (snd x)) (numbered q g)).
  { destruct HH as [_ H2 H3]. rewrite Forall_app in H2, H3. destruct H2 as [_ H2], H3 as [_ H3]. rewrite List.Forall_forall in *. intros x Hx. auto. }
  rewrite List.Forall_forall in Hsub. assert (Hsz : sz g <= sz ops) by (rewrite Eo, !sz_app; unfold sz; rewrite length_numbered; pose proof (sz_nonneg (concat chunks)); unfold sz in *; lia).
  pose proof ops_few as Hfew. destruct g as [|op g'] eqn:Eg; [contradiction|]. rewrite <- Eg in *.
  assert (Hq : 0 < q) by (apply (Hsub (q, op)); rewrite Eg; left; reflexivity).
  assert (Hlast : q + sz g - 1 <= kMaxSequenceNumber).
  { assert (exists y, In (q + sz g - 1, y) (numbered q g)) as [y Hy].
    { rewrite Eg. clear. revert q op. induction g' as [|op' g IH]; intros q op; [exists op; left; unfold sz; cbn; f_equal; lia|].
      destruct (IH (q + 1) op') as [y Hy]. exists y. right. replace (q + sz (op :: op' :: g) - 1) with (q + 1 + sz (op' :: g) - 1) by (unfold sz; cbn [length]; lia). exact Hy. }
    apply (Hsub _ Hy). }
  assert (Hmem : MemTable_AddAll U MemTable_new rest = Some (default MemTable_new (rp_mem p))).
  { destruct HR as [_ R2 _ _ _ _]. destruct (rp_mem p) as [m|]; [apply R2|rewrite R2; reflexivity]. }
  destruct (insert_group U all_keys rest q g (default MemTable_new (rp_mem p)) Hmem HH) as (m' & E1 & E2).
  - lia.
  - pose proof max_sequence_small. lia.
  - lia.
  - apply List.Forall_forall. intros x Hx. rewrite <- (numbered_ops q g) in Hx. apply in_map_iff in Hx as (y & <- & Hy). apply Hsub, Hy.
  - exists m'. split; [exact E1|]. split; [split; [exact E2|exact HH]|]. lia.
Qed.

Lemma record_turn_ok save0 p chunks rest q g later : replayed p chunks rest -> counted save0 p chunks -> g <> [] ->
  ops = concat chunks ++ (rest ++ numbered q g) ++ later ->
  exists p' chunks' rest', recover_record_turn U K options max_file_size write_buffer_size dbname paranoid env denv tc_NewIterator ff (batch_rep q (sz g) g) p = Some (true, p') /\
    replayed p' chunks' rest' /\ counted save0 p' chunks' /\ concat chunks' ++ rest' = concat chunks ++ rest ++ numbered q g /\
    rp_max_sequence p' = Z.max (rp_max_sequence p) (q + sz g - 1).
Proof.
  intros HR HC Hg Eo. destruct (insert_batch p chunks rest q g later HR Hg Eo) as (mem & EI & Hm & Hq & Hl).
  assert (Hsz : sz g < 2 ^ 31) by (pose proof ops_few; rewrite Eo in H; rewrite !sz_app in H; unfold sz in *; rewrite length_numbered in H; lia).
  unfold recover_record_turn. rewrite (proj2 (Z.ltb_ge _ _)) by (rewrite batch_size; pose proof (sz_nonneg (concat (map record_bytes g))); lia).
  unfold WBI_SetContents. rewrite EI. unfold MaybeIgnoreError. cbn [ok OK orb rp_max_sequence].
  pose proof (sz_nonneg g) as Hg0.
  assert (ES : WBI_Sequence (mkWriteBatch (batch_rep q (sz g) g)) = q).
  { unfold WBI_Sequence, batch_rep. cbn [rep_]. rewrite fixed64_decode. apply u64_small. pose proof max_sequence_small. destruct g; [contradiction|]. unfold sz in *. cbn [length] in *. lia. }
  assert (EC : WBI_Count (mkWriteBatch (batch_rep q (sz g) g)) = sz g) by (unfold batch_rep; rewrite WBI_Count_rep; apply s32_small; lia).
  assert (Hg1 : 1 <= sz g) by (destruct g; [contradiction|]; unfold sz; cbn [length]; lia).
  rewrite ES, EC, u64_small by (pose proof max_sequence_small; lia).
  assert (EM : (if rp_max_sequence p <? q + sz g - 1 then q + sz g - 1 else rp_max_sequence p) = Z.max (rp_max_sequence p) (q + sz g - 1))
    by (destruct (Z.ltb_spec (rp_max_sequence p) (q + sz g - 1)); lia).
  rewrite EM. cbn [rp_compactions rp_edit rp_tables rp_save_manifest rp_max_sequence].
  assert (Hne : rest ++ numbered q g <> []) by (destruct g; [contradiction|]; destruct rest; discriminate).
  assert (HP : forall comp save, replayed (mkReplay OK (Some mem) comp (Z.max (rp_max_sequence p) (q + sz g - 1)) save (rp_edit p) (rp_tables p)) chunks (rest ++ numbered q g)).
  { intros comp save. destruct HR as [R1 R2 R3 R4 R5 R6]. split; cbn [rp_status rp_mem rp_tables rp_edit]; auto. }
  destruct HC as [C1 C2]. pose proof (chunks_length chunks (re_filled _ _ _ HR)) as Hch.
  assert (Hchs : 0 <= sz chunks /\ sz chunks + 1 < 2 ^ 31).
  { pose proof ops_few as HO. rewrite Eo, !sz_app in HO. pose proof (sz_nonneg chunks). pose proof (sz_nonneg rest). pose proof (sz_nonneg later). unfold sz in *. rewrite length_numbered in HO. lia. }
  destruct (write_buffer_size <? MT_ApproximateMemoryUsage mem).
  - rewrite C1, s32_small by lia.
    destruct (replay_flush _ chunks (rest ++ numbered q g) later mem (HP (sz chunks + 1) true) eq_refl Eo) as (p' & EF & HR' & _ & EX & EC' & ES').
    rewrite EF. cbn [option_map]. rewrite (re_status _ _ _ HR'). cbn [ok OK]. exists p', (chunks ++ [rest ++ numbered q g]), [].
    split; [reflexivity|]. split; [exact HR'|]. split; [split; [rewrite EC', sz_app; reflexivity|rewrite ES'; destruct chunks; reflexivity]|].
    split; [rewrite concat_app; cbn [concat]; rewrite !app_nil_r; reflexivity|]. exact EX.
  - eexists _, chunks, (rest ++ numbered q g). split; [reflexivity|]. split; [apply HP|]. split; [split; assumption|]. split; reflexivity.
Qed.

(** ** The loop *)

Definition next_max (x q : Z) (groups : list (list Op)) : Z := match groups with [] => x | _ => Z.max x (q + sz (concat groups) - 1) end.

Lemma next_max_cons x q g groups : next_max (Z.max x (q + sz g - 1)) (q + sz g) groups = next_max x q (g :: groups).
Proof.
  unfold next_max. cbn [concat]. rewrite sz_app. pose proof (sz_nonneg (concat groups)). destruct groups; [change (sz (concat [])) with 0; lia|lia].
Qed.

Lemma log_loop_ok save0 fuel groups : forall n q r p chunks rest later, Drains fuel r (log_records q groups) -> reporter_ r = Some [] -> (length groups < n)%nat ->
  Forall (fun g => g <> []) groups -> replayed p chunks rest -> counted save0 p chunks -> ops = concat chunks ++ (rest ++ numbered q (concat groups)) ++ later ->
  exists p' chunks' rest', recover_log_loop U K options max_file_size write_buffer_size dbname paranoid env denv tc_NewIterator ff n fuel r p = Some p' /\
    replayed p' chunks' rest' /\ counted save0 p' chunks' /\ concat chunks' ++ rest' = concat chunks ++ rest ++ numbered q (concat groups) /\
    rp_max_sequence p' = next_max (rp_max_sequence p) q groups.
Proof.
  induction groups as [|g groups IH]; intros n q r p chunks rest later HD Hr Hn Hne HR HC Eo; (destruct n as [|n]; [lia|]); cbn [recover_log_loop log_records] in *.
  - revert Eo. inversion HD as [r0 r' ER Hr'|]; subst. intros Eo. rewrite ER.
    assert (HS : reports paranoid (rp_status p) r' = rp_status p).
    { unfold reports, reported. rewrite Hr', Hr. destruct paranoid, (ok (rp_status p)); reflexivity. }
    rewrite HS. exists p, chunks, rest. cbn [concat numbered next_max]. rewrite app_nil_r. split; [destruct p; reflexivity|]. auto.
  - revert Eo. inversion HD as [|r0 rec r' recs ER Hr' HD']; subst. intros Eo. rewrite ER. apply Forall_cons_iff in Hne as [Hg Hne].
    assert (HS : reports paranoid (rp_status p) r' = OK).
    { unfold reports, reported. rewrite Hr', Hr, (re_status _ _ _ HR). destruct paranoid; reflexivity. }
    cbn [rp_status with_status]. rewrite HS. cbn [ok OK].
    assert (Ep : with_status p OK = p) by (pose proof (re_status _ _ _ HR) as E0; destruct p; simpl in E0; rewrite E0; reflexivity). rewrite Ep.
    cbn [concat] in Eo. rewrite numbered_app, (app_assoc rest), <- (app_assoc _ _ later) in Eo.
    destruct (record_turn_ok save0 p chunks rest q g (numbered (q + sz g) (concat groups) ++ later) HR HC Hg Eo) as (p1 & chunks1 & rest1 & -> & HR1 & HC1 & EC1 & EX1).
    assert (Eo1 : ops = concat chunks1 ++ (rest1 ++ numbered (q + sz g) (concat groups)) ++ later).
    { rewrite Eo. rewrite <- !app_assoc. rewrite (app_assoc (concat chunks1)), EC1, <- !app_assoc. reflexivity. }
    destruct (IH n (q + sz g) r' p1 chunks1 rest1 later HD' ltac:(congruence) ltac:(cbn [length] in Hn; lia) Hne HR1 HC1 Eo1) as (p' & chunks' & rest' & E' & HR' & HC' & EC' & EX').
    exists p', chunks', rest'. split; [exact E'|]. split; [exact HR'|]. split; [exact HC'|]. split.
    + rewrite EC', app_assoc, EC1. cbn [concat]. rewrite numbered_app, <- !app_assoc. reflexivity.
    + rewrite EX', EX1. apply next_max_cons.
Qed.

End Loop.

(** ** The whole of [RecoverLogFile] *)

Context (reuse_logs : bool).

(** Where the operations are after the replay. *)

Definition replay_result (o o' : @Opening E W) (log_number : Z) (last_log save0 save : bool) (edit edit' : VersionEdit) (h : list (Z * Op)) : Prop :=
  exists chunks, tables (vs_env (o_versions o')) (vs_next_file_number (o_versions o)) edit chunks edit' /\
    vs_next_file_number (o_versions o') = vs_next_file_number (o_versions o) + sz chunks /\
    save = match chunks with [] => save0 | _ => true end /\
    (o_mem o' = o_mem o /\ o_log o' = o_log o /\ o_logfile_number o' = o_logfile_number o /\ concat chunks = h \/
     reuse_logs = true /\ last_log = true /\ chunks = [] /\ o_logfile_number o' = log_number /\
     exists mem file size, o_mem o' = Some mem /\ o_log o' = Some (Writer_append file size) /\ mem_holds (U := U) mem h).

(** Keeping the log: the memtable is taken over, or nothing changes for the
    operations. *)

Lemma reuse_log_cases e0 n0 edit0 (save0 : bool) p chunks rest fname log_number last_log (o : @Opening E W) : 0 <= n0 ->
  replayed e0 n0 edit0 p chunks rest -> counted save0 p chunks ->
  let '(p', o') := reuse_log reuse_logs env fname log_number last_log p o in
  rp_max_sequence p' = rp_max_sequence p /\ rp_save_manifest p' = rp_save_manifest p /\
  ((exists e0', replayed e0' n0 edit0 p' chunks rest) /\ o' = o /\ rp_mem p' = rp_mem p \/
   reuse_logs = true /\ last_log = true /\ chunks = [] /\ rp_mem p' = None /\ rp_status p' = OK /\ rp_edit p' = edit0 /\
   vs_next_file_number (fst (rp_tables p')) = n0 /\
   exists mem file size, o' = mkOpening (o_versions o) (o_pending o) (Some mem) (Some (Writer_append file size)) log_number /\
     MemTable_AddAll U MemTable_new rest = Some mem).
Proof.
  intros Hn HR [C1 C2]. pose proof HR as [R1 R2 R3 R4 R5 R6]. unfold reuse_log. rewrite R1, C1. cbn [ok OK andb].
  assert (Hsame : (exists e0', replayed e0' n0 edit0 p chunks rest) /\ o = o /\ rp_mem p = rp_mem p) by (split; [exists e0; exact HR|auto]).
  destruct reuse_logs, last_log; cbn [andb]; try (split; [reflexivity|split; [reflexivity|left; exact Hsame]]; fail).
  destruct (Z.eqb_spec (sz chunks) 0) as [Hz|Hz]; [|split; [reflexivity|split; [reflexivity|left; exact Hsame]]].
  assert (chunks = []) as -> by (destruct chunks; [reflexivity|unfold sz in Hz; cbn [length] in Hz; lia]).
  destruct (rp_tables p) as [vs pending] eqn:ET. cbn [fst] in *. destruct (env_GetFileSize env (vs_env vs) fname) as [s size]. destruct (ok s); [|split; [reflexivity|split; [reflexivity|left; exact Hsame]]].
  destruct (env_NewAppendableFile env (vs_env vs) fname) as [e1 [s' file]] eqn:EA. clear Hsame. inversion R4; [|destruct chunks; discriminate]. subst.
  assert (HR1 : replayed e1 n0 (rp_edit p) (mkReplay OK (rp_mem p) 0 (rp_max_sequence p) (rp_save_manifest p) (rp_edit p) (vs_with_env vs e1, pending)) [] rest).
  { split; cbn [rp_status rp_mem rp_tables rp_edit fst vs_with_env with_descriptor vs_next_file_number vs_env]; auto; [constructor]. }
  destruct file as [file|]; [destruct (ok s')|]; cbn [rp_max_sequence rp_save_manifest]; (split; [reflexivity|]; split; [reflexivity|]).
  - right. cbn. split; [reflexivity|]. split; [reflexivity|]. split; [reflexivity|]. split; [reflexivity|]. split; [reflexivity|]. split; [reflexivity|]. split; [rewrite R3; change (sz (@nil (list (Z * Op)))) with 0; lia|].
    exists (default MemTable_new (rp_mem p)), file, size. split; [reflexivity|]. destruct (rp_mem p) as [m|]; [apply R2|rewrite R2; reflexivity].
  - left. split; [exists e1; exact HR1|auto].
  - left. split; [exists e1; exact HR1|auto].
Qed.

Lemma RecoverLogFile_ok ff n fuel q groups later log_number last_log save edit max_sequence (o : @Opening E W) file :
  let h := numbered q (concat groups) in let ops := h ++ later in
  history_ok ops -> flushable options ops -> (length ops < ff)%nat ->
  (forall e name e1 file es, env_NewWritableFile env e name = (e1, (OK, Some file)) -> NoDup es -> incl es ops -> sz (table_bytes file es) < 2 ^ 32) ->
  0 <= vs_next_file_number (o_versions o) -> vs_next_file_number (o_versions o) + sz ops + 1 < 2 ^ 64 ->
  env_NewSequentialFile env (vs_env (o_versions o)) (LogFileName dbname log_number) = (OK, Some file) ->
  Drains fuel (Reader_new file (Some []) true 0) (log_records q groups) -> (length groups < n)%nat -> Forall (fun g => g <> []) groups ->
  exists save' edit' o', RecoverLogFile U K options max_file_size write_buffer_size dbname paranoid reuse_logs env denv tc_NewIterator ff n fuel
      log_number last_log save edit max_sequence o = Some (OK, save', edit', next_max max_sequence q groups, o') /\
    replay_result o o' log_number last_log save save' edit edit' h.
Proof.
  intros h ops Hh Hfl Hff Hsize Hn0 Hroom EF HD Hn Hne. unfold RecoverLogFile. rewrite EF. cbn [ok OK].
  set (n0 := vs_next_file_number (o_versions o)) in *. set (p0 := mkReplay OK None 0 max_sequence save edit (o_versions o, o_pending o)).
  assert (HR0 : replayed (vs_env (o_versions o)) n0 edit p0 [] []).
  { split; cbn [p0 rp_status rp_mem rp_tables rp_edit fst]; auto; [change (sz (@nil (list (Z * Op)))) with 0; unfold n0; lia|constructor]. }
  destruct (log_loop_ok ff (vs_env (o_versions o)) n0 edit ops Hh Hfl Hff Hsize Hn0 Hroom save fuel groups n q _ p0 [] [] later HD eq_refl Hn Hne HR0 ltac:(split; reflexivity) eq_refl)
    as (p & chunks & rest & -> & HR & HC & EC & EX). cbn [app concat] in EC.
  pose proof (reuse_log_cases _ n0 edit save p chunks rest (LogFileName dbname log_number) log_number last_log o Hn0 HR HC) as HU.
  destruct (reuse_log _ _ _ _ _ _ _) as [p1 o1]. destruct HU as (U1 & U2 & HU). cbn [rp_max_sequence p0] in EX.
  destruct HU as [((e0' & HR1) & -> & EM)|(Hreuse & -> & -> & EM & ES & EE & EN & mem & f & size & -> & Hadd)].
  - assert (Eo : ops = concat chunks ++ rest ++ later) by (unfold ops; rewrite app_assoc; f_equal; symmetry; exact EC).
    destruct (rp_mem p1) as [mem|] eqn:EM1.
    + rewrite (re_status _ _ _ _ _ _ HR1). cbn [ok OK].
      destruct (replay_flush ff e0' n0 edit ops Hfl Hff Hsize Hn0 Hroom p1 chunks rest later mem HR1 EM1 Eo) as (p2 & -> & HR2 & _ & EX2 & _ & ES2).
      pose proof HR2 as [R1 R2 R3 R4 R5 R6]. destruct (rp_tables p2) as [vs pending]. cbn [fst] in *. rewrite R1, EX2, U1, EX.
      eexists _, _, _. split; [reflexivity|]. exists (chunks ++ [rest]). cbn [o_versions o_mem o_log o_logfile_number]. split; [exact R4|]. split; [exact R3|].
      split; [rewrite ES2; destruct chunks; reflexivity|]. left. rewrite concat_app. cbn [concat]. rewrite app_nil_r. auto.
    + pose proof HR1 as [R1 R2 R3 R4 R5 R6]. rewrite EM1 in R2. subst rest. destruct (rp_tables p1) as [vs pending]. cbn [fst] in *. rewrite R1, U1, EX.
      eexists _, _, _. split; [reflexivity|]. exists chunks. cbn [o_versions o_mem o_log o_logfile_number]. split; [exact R4|]. split; [exact R3|].
      split; [rewrite U2; apply HC|]. left. rewrite app_nil_r in EC. auto.
  - rewrite EM. destruct (rp_tables p1) as [vs pending]. cbn [fst] in *. rewrite ES, U1, EX, EE. cbn [concat app] in EC. subst rest.
    eexists _, _, _. split; [reflexivity|]. exists []. cbn [o_versions o_mem o_log o_logfile_number]. split; [constructor|].
    split; [change (sz (@nil (list (Z * Op)))) with 0; lia|]. split; [rewrite U2; apply HC|]. right. split; [exact Hreuse|]. split; [reflexivity|]. split; [reflexivity|]. split; [reflexivity|].
    exists mem, f, size. split; [reflexivity|]. split; [reflexivity|]. split; [exact Hadd|]. exact (history_ok_middle [] _ later Hh).
Qed.

End Replay.

(** What [RecoverLogFile] makes of any part of a log that covers its first groups. *)

Lemma cut_log_replayed : forall U K E W Q TI (WF : WritableFile W) (RW : ReliableWritable W) (SF : SequentialFile Q) (RS : ReliableSequential Q) (TIO : Iterator TI)
    (options : Options) max_file_size write_buffer_size dbname paranoid reuse_logs (env : @EnvOps E W Q) (denv : DbEnvOps E W) (FS : FileStore env denv)
    (tc_NewIterator : E -> ReadOptions -> Z -> Z -> TI) q groups1 groups2 out1 o1 out2 o2,
  ComparatorOk U -> ComparatorShort U -> CompressionOk K -> (forall u, @cmp_dom U u) ->
  opens_tables (U := U) (K := K) options dbname env denv tc_NewIterator ->
  let ops := numbered q (concat (groups1 ++ groups2)) in
  history_ok ops -> flushable options ops -> Forall (fun g => g <> []) (groups1 ++ groups2) ->
  (forall e name e1 file es, env_NewWritableFile env e name = (e1, (OK, Some file)) -> NoDup es -> incl es ops ->
     sz (table_bytes (U := U) (K := K) options file es) < 2 ^ 32) ->
  Logged 0 (log_records q groups1) out1 o1 -> Logged o1 (log_records (q + sz (concat groups1)) groups2) out2 o2 ->
  forall (o : @Opening E W) file m ff n fuel log_number last_log save edit max_sequence,
    env_NewSequentialFile env (vs_env (o_versions o)) (LogFileName dbname log_number) = (OK, Some file) ->
    sf_inv file -> sf_rest file = take m (out1 ++ out2) -> (length out1 <= m)%nat ->
    0 <= vs_next_file_number (o_versions o) -> vs_next_file_number (o_versions o) + sz ops + 1 < 2 ^ 64 ->
    (length ops < ff)%nat -> (length (groups1 ++ groups2) < n)%nat -> (0 < fuel)%nat ->
    Forall (fun rec => (S (length rec) < fuel)%nat) (log_records q (groups1 ++ groups2)) ->
    exists j save' edit' o', let groups := groups1 ++ take j groups2 in
      RecoverLogFile U K options max_file_size write_buffer_size dbname paranoid reuse_logs env denv tc_NewIterator ff n fuel
        log_number last_log save edit max_sequence o = Some (OK, save', edit', next_max max_sequence q groups, o') /\
      replay_result (U := U) (K := K) options dbname env denv reuse_logs o o' log_number last_log save save' edit edit' (numbered q (concat groups)) /\
      ((length (out1 ++ out2) <= m)%nat -> (length groups2 <= j)%nat).
Proof.
  intros U K E W Q TI WF RW SF RS TIO options mfs wbs dbname paranoid reuse env denv FS tcn q groups1 groups2 out1 o1 out2 o2 UOK US KOK Hk Hopens ops Hh Hfl Hne Hsize HL1 HL2.
  intros o file m ff n fuel log_number last_log save edit max_sequence EF Hf Hr Hm Hn0 Hroom Hff Hn Hfuel0 Hfuel.
  rewrite log_records_app in Hfuel.
  destruct (drains_logged 0 _ _ _ (Logged_app _ _ _ _ _ _ _ HL1 HL2) m fuel (Reader_new file (Some []) true 0)
    (RInv_new file (Some []) true _ Hf Hr) ltac:(cbn; lia) Hfuel Hfuel0 _ out1 _ _ out2 eq_refl eq_refl HL1 Hm) as (j & Hd & Hj).
  rewrite log_records_take, <- log_records_app in Hd. rewrite length_log_records in Hj.
  assert (Eo : ops = numbered q (concat (groups1 ++ take j groups2)) ++ numbered (q + sz (concat (groups1 ++ take j groups2))) (concat (drop j groups2))).
  { unfold ops. rewrite <- (take_drop j groups2) at 1. rewrite app_assoc, concat_app, numbered_app. reflexivity. }
  rewrite Eo in Hh, Hfl, Hroom, Hff.
  destruct (RecoverLogFile_ok (K := K) Hk options mfs wbs dbname paranoid env denv tcn Hopens reuse ff n fuel q (groups1 ++ take j groups2) _
    log_number last_log save edit max_sequence o file Hh Hfl Hff) as (save' & edit' & o' & ER & HR).
  - rewrite <- Eo. exact Hsize.
  - exact Hn0.
  - exact Hroom.
  - exact EF.
  - exact Hd.
  - rewrite !length_app, length_take in *. lia.
  - rewrite Forall_app in *. destruct Hne as [H1 H2]. split; [exact H1|apply Forall_take, H2].
  - exists j, save', edit', o'. cbv zeta. auto.
Qed.

(** ** Property *)

(** C7. Crash recovery of a log: batches of operations with consecutive sequence
    numbers are logged, first [groups1] and then [groups2].  A crash leaves any
    part of the file that covers the records of [groups1].  On a file system
    without errors, and with a table cache that opens a file that holds a table
    when it is asked with the size of the file (as the one of TableCache.v does),
    [RecoverLogFile] succeeds, and with it come back exactly the operations of [groups1] and of a
    prefix of [groups2], each with its sequence number: none of [groups1] is
    lost, no batch comes back in part, and all of [groups2] comes back when the
    file is whole.  The operations are in new level-0 tables that the edit adds,
    in order and with recorded bounds that enclose them, or, when the last log
    is kept, in the memtable; the manifest is to be saved whenever a table was
    written, and the largest sequence number seen is reported. *)
Theorem log_recovery : forall U K E W Q TI (WF : WritableFile W) (RW : ReliableWritable W) (SF : SequentialFile Q) (RS : ReliableSequential Q) (TIO : Iterator TI)
    (options : Options) max_file_size write_buffer_size dbname paranoid reuse_logs (env : @EnvOps E W Q) (denv : DbEnvOps E W) (FS : FileStore env denv)
    (tc_NewIterator : E -> ReadOptions -> Z -> Z -> TI) (f0 : W) q groups1 groups2,
  ComparatorOk U -> ComparatorShort U -> CompressionOk K -> (forall u, @cmp_dom U u) ->
  opens_tables (U := U) (K := K) options dbname env denv tc_NewIterator ->
  let ops := numbered q (concat (groups1 ++ groups2)) in
  wf_inv f0 -> wf_contents f0 = [] -> history_ok ops -> flushable options ops -> Forall (fun g => g <> []) (groups1 ++ groups2) ->
  (forall e name e1 file es, env_NewWritableFile env e name = (e1, (OK, Some file)) -> NoDup es -> incl es ops ->
     sz (table_bytes (U := U) (K := K) options file es) < 2 ^ 32) ->
  exists w1 w2,
  AddRecords (Writer_new f0) (log_records q groups1) = Some w1 /\ AddRecords w1 (log_records (q + sz (concat groups1)) groups2) = Some w2 /\ wf_inv (dest_ w2) /\
  forall (o : @Opening E W) file m ff n fuel log_number last_log save edit max_sequence,
    env_NewSequentialFile env (vs_env (o_versions o)) (LogFileName dbname log_number) = (OK, Some file) ->
    sf_inv file -> sf_rest file = take m (wf_contents (dest_ w2)) -> (length (wf_contents (dest_ w1)) <= m)%nat ->
    0 <= vs_next_file_number (o_versions o) -> vs_next_file_number (o_versions o) + sz ops + 1 < 2 ^ 64 ->
    (length ops < ff)%nat -> (length (groups1 ++ groups2) < n)%nat -> (0 < fuel)%nat ->
    Forall (fun rec => (S (length rec) < fuel)%nat) (log_records q (groups1 ++ groups2)) ->
    exists j save' edit' o', let groups := groups1 ++ take j groups2 in
      RecoverLogFile U K options max_file_size write_buffer_size dbname paranoid reuse_logs env denv tc_NewIterator ff n fuel
        log_number last_log save edit max_sequence o = Some (OK, save', edit', next_max max_sequence q groups, o') /\
      replay_result (U := U) (K := K) options dbname env denv reuse_logs o o' log_number last_log save save' edit edit' (numbered q (concat groups)) /\
      ((length (wf_contents (dest_ w2)) <= m)%nat -> (length groups2 <= j)%nat).
Proof.
  intros U K E W Q TI WF RW SF RS TIO options mfs wbs dbname paranoid reuse env denv FS tcn f0 q groups1 groups2 UOK US KOK Hk Hopens ops Hf0 Hc0 Hh Hfl Hne Hsize.
  destruct (AddRecords_ok (log_records q groups1) (Writer_new f0) (WOk_new f0 Hf0)) as (w1 & out1 & E1 & HW1 & Hc1 & HL1).
  destruct (AddRecords_ok (log_records (q + sz (concat groups1)) groups2) w1 HW1) as (w2 & out2 & E2 & HW2 & Hc2 & HL2).
  exists w1, w2. split; [exact E1|]. split; [exact E2|]. split; [apply HW2|].
  cbn [Writer_new dest_ block_offset_] in *. rewrite Hc0, app_nil_l in Hc1. rewrite Hc1 in Hc2. rewrite Hc1, Hc2.
  exact (cut_log_replayed U K E W Q TI WF RW SF RS TIO options mfs wbs dbname paranoid reuse env denv FS tcn q groups1 groups2 out1 _ out2 _ UOK US KOK Hk Hopens Hh Hfl Hne Hsize HL1 HL2).
Qed.

(** A log of two batches, of which the crash leaves the first and a part of the second. *)

Definition replay_groups1 : list (list Op) := [[OpPut (str "a") (str "1")]].

Definition replay_groups2 : list (list Op) := [[OpDelete (str "b")]].

Definition replay_log : FileState := write_log (log_records 5 (replay_groups1 ++ replay_groups2)).

Definition replay_cut : FileState := mkFileState (blocks_ replay_log) (size_ replay_log - 3).

Lemma log_recovery_witness : exists j save' edit' o',
  @RecoverLogFile BytewiseComparator NoLibraries run_options 2097152 4194304 (str "db") true false _ FileState SequentialFileImpl MemWritable MemSequential
    (store_env replay_cut) store_denv OpenedIter RunIterOps run_cache 3 3 100 3 true false VE_Clear 0 (Opening_new (fun _ => None)) =
    Some (OK, save', edit', next_max 0 5 (replay_groups1 ++ take j replay_groups2), o') /\
  replay_result (U := BytewiseComparator) (K := NoLibraries) run_options (str "db") (store_env replay_cut) store_denv false (Opening_new (fun _ => None)) o' 3 true false save' VE_Clear edit'
    (numbered 5 (concat (replay_groups1 ++ take j replay_groups2))).
Proof.
  destruct (log_recovery BytewiseComparator NoLibraries _ FileState SequentialFileImpl OpenedIter MemWritable MemReliableWritable MemSequential MemReliableSequential
    RunIterOps run_options 2097152 4194304 (str "db") true false (store_env replay_cut) store_denv (StoreOk replay_cut) run_cache
    FileState_new 5 replay_groups1 replay_groups2 BytewiseComparatorOk BytewiseComparatorShort NoLibrariesOk (fun _ => I)) as (w1 & w2 & E1 & E2 & _ & HR).
  - apply run_cache_opens.
  - exact FSInv_new.
  - reflexivity.
  - split; [repeat constructor; cbn; lia|repeat constructor; vm_compute; discriminate|repeat constructor; vm_compute; discriminate].
  - split; [vm_compute; discriminate|vm_compute; reflexivity|vm_compute; reflexivity].
  - repeat constructor; discriminate.
  - intros e name e1 file es EN HN Hi. injection EN as _ <-.
    assert (Hc : es = [] \/ (exists x, es = [x] /\ In x (numbered 5 (concat (replay_groups1 ++ replay_groups2)))) \/ Permutation es (numbered 5 (concat (replay_groups1 ++ replay_groups2)))).
    { destruct es as [|x [|y es]]; [auto|right; left; exists x; split; [reflexivity|apply Hi; left; reflexivity]|]. right. right.
      apply NoDup_ListNoDup in HN. apply (NoDup_Permutation_bis HN); [|exact Hi]. cbn. lia. }
    destruct Hc as [->|[(x & -> & Hx)|Hp]]; [vm_compute; reflexivity| |].
    + destruct Hx as [<-|[<-|[]]]; vm_compute; reflexivity.
    + symmetry in Hp. apply Permutation_length_2_inv in Hp as [->| ->]; vm_compute; reflexivity.
  - assert (C2 : option_map (fun w => wf_contents (dest_ w)) (AddRecords w1 (log_records (5 + sz (concat replay_groups1)) replay_groups2)) = Some (FS_contents replay_log)).
    { assert (C : option_map (fun w => option_map (fun w => wf_contents (dest_ w)) (AddRecords w (log_records (5 + sz (concat replay_groups1)) replay_groups2)))
        (AddRecords (Writer_new FileState_new) (log_records 5 replay_groups1)) = Some (Some (FS_contents replay_log))) by (vm_compute; reflexivity).
      rewrite E1 in C. cbn [option_map] in C. injection C as C. exact C. }
    assert (C1 : option_map (fun w => length (wf_contents (dest_ w))) (AddRecords (Writer_new FileState_new) (log_records 5 replay_groups1)) = Some 24%nat) by (vm_compute; reflexivity).
    rewrite E2 in C2. rewrite E1 in C1. cbn [option_map] in C1, C2. injection C1 as C1. injection C2 as C2. clear E1 E2.
    destruct (HR (Opening_new (fun _ => None)) (mkSequentialFileImpl replay_cut 0) 43%nat 3%nat 3%nat 100%nat 3 true false VE_Clear 0)
      as (j & save' & edit' & o' & ER & HRes & _).
    + reflexivity.
    + split; [|vm_compute; split; discriminate]. split; [vm_compute; discriminate|repeat constructor; vm_compute; reflexivity|left; vm_compute; split; [reflexivity|discriminate]].
    + change (wf_contents (dest_ w2)) with (FS_contents (dest_ w2)). rewrite C2. vm_compute. reflexivity.
    + change (wf_contents (dest_ w1)) with (FS_contents (dest_ w1)). rewrite C1. lia.
    + vm_compute. discriminate.
    + vm_compute. reflexivity.
    + vm_compute. lia.
    + cbn. lia.
    + lia.
    + repeat constructor; vm_compute; lia.
    + exists j, save', edit', o'. split; [exact ER|exact HRes].
Defined.

(** A log that a crash cut inside its last record and that is kept: what is
    appended to it is lost at the next recovery. *)

Definition reused_log : FileState :=
  let torn := snd (FS_Append FileState_new (take 8 (FS_contents (write_log [str "one"])))) in
  match AddRecord (Writer_append torn (FS_Size torn)) (str "two") with
  | Some (_, w) => dest_ w
  | None => torn
  end.

Example reused_log_loses_record : option_map fst (read_log reused_log) = Some [].
Proof. vm_compute. reflexivity. Qed.
