(* ===== verification/DbDurable.v ===== *)
(** * Acknowledged writes survive a crash (db/db_impl.cc: Write and RecoverLogFile)

    The write path with its threads is run against a log file that knows how much of it
    is synced, the file is cut as a crash cuts it, and the log is replayed as [Open]
    does: this joins the theorems on group commit and on recovery. *)

From Stdlib Require Import Permutation.
From S2P Require Import Prelude Coding Compare DbFormat Logging FileName SkipList Arena MemTable WriteBatch Crc32c Env Log Filter Iterator Block Format TableBuilder Table VersionEdit Version VersionGet Compaction VersionSet MemIter DbImpl DbWrite DbReadOk DbScan DbFlush DbFlushOk DbOpen DbRecover.
#[local] Open Scope Z_scope.
#[local] Open Scope ldb_scope.

(** ** Files that lose what is not synced

    [wf_synced] is how much of the file a crash leaves for certain: appending and
    flushing may keep it, [Sync] covers all that was written. *)

Class DurableWritable (F : Type) `{RW : ReliableWritable F} := {
  wf_synced : F -> nat;
  wf_append_synced : forall f d, (wf_synced f <= wf_synced (snd (wf_Append f d)))%nat;
  wf_flush_synced : forall f, (wf_synced f <= wf_synced (snd (wf_Flush f)))%nat;
  wf_sync_synced : forall f, (wf_synced f <= wf_synced (snd (wf_Sync f)))%nat;
  wf_sync_covers : forall f s f', wf_Sync f = (s, f') -> ok s = true -> (length (wf_contents f') <= wf_synced f')%nat
}.

Section Synced.
Context {F : Type} `{DW : DurableWritable F}.

Lemma Emit_synced (w : Writer F) t ptr : (wf_synced (dest_ w) <= wf_synced (dest_ (snd (EmitPhysicalRecord w t ptr))))%nat.
Proof.
  unfold EmitPhysicalRecord. cbv zeta. pose proof (wf_append_synced (dest_ w)) as H1. match goal with |- context [wf_Append (dest_ w) ?b] => specialize (H1 b); destruct (wf_Append (dest_ w) b) as [s1 f1] end.
  cbn [snd] in H1. destruct (ok s1); [|exact H1]. pose proof (wf_append_synced f1 ptr) as H2. destruct (wf_Append f1 ptr) as [s2 f2]. cbn [snd] in H2.
  destruct (ok s2); [|cbn; lia]. pose proof (wf_flush_synced f2) as H3. destruct (wf_Flush f2) as [s3 f3]. cbn in *. lia.
Qed.

Lemma AddRecord_loop_synced fuel : forall (w : Writer F) ptr begin s w', AddRecord_loop fuel w ptr begin = Some (s, w') -> (wf_synced (dest_ w) <= wf_synced (dest_ w'))%nat.
Proof.
  induction fuel as [|fuel IH]; intros w ptr begin s w'; [discriminate|]. cbn [AddRecord_loop]. cbv zeta. set (w1 := if _ <? _ then _ else w).
  assert (H1 : (wf_synced (dest_ w) <= wf_synced (dest_ w1))%nat).
  { unfold w1. destruct (_ <? _); [|lia]. cbn [dest_]. destruct (0 <? _); [apply wf_append_synced|lia]. }
  clearbody w1. match goal with |- context [EmitPhysicalRecord w1 ?t ?x] => pose proof (Emit_synced w1 t x) as H2; destruct (EmitPhysicalRecord w1 t x) as [s2 w2] end. cbn [snd] in H2.
  destruct (ok s2 && _); [intros HA; apply IH in HA; lia|]. intros [= _ <-]. lia.
Qed.

Lemma AddRecord_synced (w : Writer F) rec s w' : AddRecord w rec = Some (s, w') -> (wf_synced (dest_ w) <= wf_synced (dest_ w'))%nat.
Proof. apply AddRecord_loop_synced. Qed.

End Synced.

(** ** The group at the front of the queue *)

Fixpoint upto (last_writer : nat) (writers : list nat) : list nat :=
  match writers with
  | [] => []
  | w :: writers => w :: if decide (w = last_writer) then [] else upto last_writer writers
  end.

Lemma upto_prefix x ms rest : list.last ms = Some x -> NoDup ms -> upto x (ms ++ rest) = ms.
Proof.
  induction ms as [|y ms IH]; intros HL HN; [discriminate HL|]. cbn [app upto]. apply list.NoDup_cons in HN as [Hy HN]. destruct ms as [|z ms].
  - injection HL as ->. rewrite decide_True by reflexivity. reflexivity.
  - rewrite list.last_cons_cons in HL. rewrite decide_False; [rewrite IH by assumption; reflexivity|].
    intros ->. apply Hy. apply list.last_Some_elem_of in HL. exact HL.
Qed.

(** ** The invariant of the log *)

Section Durable.
Context (U : Comparator) (write_buffer_size : Z) (dbname : bytes).
Context {E W Q : Type} {WF : WritableFile W} {RW : ReliableWritable W} {DW : DurableWritable W} {SF : SequentialFile Q} (env : @EnvOps E W Q).
Context {UOK : ComparatorOk U} (all_keys : forall u, @cmp_dom U u) (ops_of : nat -> list Op).

(** New log files are empty and reliable. *)

Hypothesis fresh_files : forall e name e' s f, env_NewWritableFile env e name = (e', (s, Some f)) -> ok s = true -> wf_inv f /\ wf_contents f = [].

#[local] Abbreviation DB := (@DBImpl E W).
#[local] Abbreviation last_seq db := (vs_last_sequence (db_versions db)).
#[local] Abbreviation step := (wstep U write_buffer_size dbname env).
#[local] Abbreviation run := (wrun U write_buffer_size dbname env).

(** Batches that are not empty. *)

Definition filled (e : Event) : Prop := match e with EvEnter w (Some _) _ => ops_of w <> [] | _ => True end.

(** The groups that the current log holds: those acknowledged since it was made... *)

Definition log_step (gs : list (list Op)) (e : Event) : list (list Op) :=
  match e with
  | EvSwitch => []
  | EvLeave ws s _ => if ok s then match group_ops ops_of ws with [] => gs | g => gs ++ [g] end else gs
  | _ => gs
  end.

Definition log_groups (tr : list Event) : list (list Op) := fold_left log_step tr [].

(** ... and the one that is written but not yet acknowledged. *)

Definition group_of (db : DB) (l : WriteLocals) : list nat := upto (wl_last_writer l) (db_writers db).

Definition in_flight (db : DB) (ph : Phase) : list (list Op) :=
  match ph with PInserting _ l _ _ _ _ | PApplied _ l _ _ => [group_ops ops_of (group_of db l)] | _ => [] end.

(** Who asks for a sync is in a group whose leader does, and such a group is
    synced before it is inserted. *)

Definition led (db : DB) (w : nat) (l : WriteLocals) : Prop :=
  group_ops ops_of (group_of db l) <> [] /\ forall x, In x (group_of db l) -> w_sync (writer_at db x) = true -> w_sync (writer_at db w) = true.

Definition covered (db : DB) (w : nat) : Prop :=
  w_sync (writer_at db w) = true -> (length (wf_contents (dest_ (db_log db))) <= wf_synced (dest_ (db_log db)))%nat.

Definition flight_ok (db : DB) (ph : Phase) : Prop :=
  match ph with
  | PUnlocked w l => led db w l
  | PInserting w l _ _ _ _ => led db w l /\ covered db w
  | PApplied w l s se => ok s = true /\ led db w l /\ covered db w
  | _ => True
  end.

(** [c1], [o1] and [g1]: what the log held at some earlier moment; [s1] of it was synced. *)

Record linv (c1 : bytes) (s1 : nat) (o1 q : Z) (g1 : list (list Op)) (tr : list Event) (c : DB * Phase) : Prop := {
  ln_batches : forall x, In x (db_writers (fst c)) -> ops_of x = [] -> w_batch (writer_at (fst c) x) = None;
  ln_writer : WOk (db_log (fst c));
  ln_next : last_seq (fst c) + 1 = q + sz (concat (log_groups tr));
  ln_memtable : in_memtable ops_of [] tr = numbered q (concat (log_groups tr));
  ln_filled : Forall (fun g => g <> []) (log_groups tr);
  ln_flight : flight_ok (fst c) (snd c);
  ln_sync : forall w u sy, In (EvEnter w u sy) tr -> w_sync (writer_at (fst c) w) = sy;
  ln_synced : (s1 <= wf_synced (dest_ (db_log (fst c))))%nat;
  ln_logged : exists g2 out, log_groups tr ++ in_flight (fst c) (snd c) = g1 ++ g2 /\ wf_contents (dest_ (db_log (fst c))) = c1 ++ out /\
    Logged o1 (log_records (q + sz (concat g1)) g2) out (block_offset_ (db_log (fst c)))
}.

Lemma log_groups_snoc tr e : log_groups (tr ++ [e]) = log_step (log_groups tr) e.
Proof. unfold log_groups. apply fold_left_app. Qed.

(** A step that touches neither the log nor the numbers. *)

Lemma linv_same c1 s1 o1 q g1 tr (db db' : DB) ph ph' e : linv c1 s1 o1 q g1 tr (db, ph) -> log_step (log_groups tr) e = log_groups tr ->
  mem_step ops_of (in_memtable ops_of [] tr) e = in_memtable ops_of [] tr -> db_log db' = db_log db -> last_seq db' = last_seq db ->
  (forall x, In x (db_writers db') -> ops_of x = [] -> w_batch (writer_at db' x) = None) -> in_flight db' ph' = in_flight db ph -> flight_ok db' ph' ->
  (forall w u sy, In (EvEnter w u sy) (tr ++ [e]) -> w_sync (writer_at db' w) = sy) ->
  linv c1 s1 o1 q g1 (tr ++ [e]) (db', ph').
Proof.
  intros [H1 H2 H3 H4 H5 H6 H6a H6b H7] HG HM HL HS HB HF HO HY. cbn [fst snd] in *.
  split; cbn [fst snd]; rewrite ?log_groups_snoc, ?in_memtable_snoc, ?HG, ?HM, ?HL, ?HS, ?HF; assumption.
Qed.

Definition no_enter (e : Event) : Prop := match e with EvEnter _ _ _ => False | _ => True end.

Lemma sync_kept c1 s1 o1 q g1 tr (db db' : DB) ph e : linv c1 s1 o1 q g1 tr (db, ph) -> no_enter e -> (forall x, w_sync (writer_at db' x) = w_sync (writer_at db x)) ->
  forall w u sy, In (EvEnter w u sy) (tr ++ [e]) -> w_sync (writer_at db' w) = sy.
Proof.
  intros HL He HS w u sy H. rewrite HS. apply in_app_snoc in H as [H|<-]; [|contradiction]. exact (ln_sync _ _ _ _ _ _ _ HL w u sy H).
Qed.

Lemma led_same (db db' : DB) w l : db_writers db' = db_writers db -> (forall x, w_sync (writer_at db' x) = w_sync (writer_at db x)) -> led db w l -> led db' w l.
Proof. intros HW HS [H1 H2]. unfold led, group_of in *. rewrite HW, HS. split; [exact H1|]. intros x. rewrite HS. apply H2. Qed.

Lemma covered_same (db db' : DB) w : db_log db' = db_log db -> w_sync (writer_at db' w) = w_sync (writer_at db w) -> covered db w -> covered db' w.
Proof. unfold covered. intros -> ->. auto. Qed.

(** The group of the phase is what the queue says. *)

Lemma group_upto tr seq0 (db : DB) ph w l ms rest : winv U ops_of [] seq0 tr (db, ph) -> group_inv ops_of db w l ms rest -> upto (wl_last_writer l) (db_writers db) = ms.
Proof.
  intros HI [G1 _ G3 _ _ _ _ _]. rewrite G1. apply upto_prefix; [exact G3|]. pose proof (wi_nodup _ _ _ _ _ _ HI) as Hnd.
  rewrite (wi_queue _ _ _ _ _ _ HI) in Hnd. cbn [fst] in Hnd. rewrite G1 in Hnd.
  apply list.NoDup_app in Hnd as (_ & _ & Hnd). apply list.NoDup_app in Hnd as (Hnd & _ & _). exact Hnd.
Qed.

Lemma upto_app x l l' : In x l -> upto x (l ++ l') = upto x l.
Proof.
  induction l as [|y l IH]; intros H; [contradiction|]. cbn [app upto]. destruct (decide (y = x)) as [|N]; [reflexivity|]. rewrite IH; [reflexivity|]. destruct H; [congruence|assumption].
Qed.

(** *** Steps that leave the log alone *)

Lemma batches_sub (db db' : DB) : (forall x, In x (db_writers db) -> ops_of x = [] -> w_batch (writer_at db x) = None) ->
  (forall x, In x (db_writers db') -> In x (db_writers db)) -> (forall x, w_batch (writer_at db' x) = w_batch (writer_at db x)) ->
  forall x, In x (db_writers db') -> ops_of x = [] -> w_batch (writer_at db' x) = None.
Proof. intros H HI HB x Hx Ho. rewrite HB. apply H; auto. Qed.

Lemma linv_rely e c1 s1 o1 q g1 tr (db db' : DB) ph : silent e -> linv c1 s1 o1 q g1 tr (db, ph) -> rely db db' -> linv c1 s1 o1 q g1 (tr ++ [e]) (db', ph).
Proof.
  intros He HL HR. pose proof HR as [R1 R2 R3 R4 R5 R6].
  assert (HS : forall x, w_sync (writer_at db' x) = w_sync (writer_at db x)) by (intros x; rewrite (rely_writer _ _ x HR); reflexivity).
  apply (linv_same _ _ _ _ _ _ db _ ph); [exact HL|destruct e; (contradiction || reflexivity)|destruct e; (contradiction || apply app_nil_r)|exact R2|exact R6| | | |].
  - apply (batches_sub db); [exact (ln_batches _ _ _ _ _ _ _ HL)|rewrite R3; auto|]. intros x. rewrite (rely_writer _ _ x HR). reflexivity.
  - destruct ph; cbn; unfold group_of; rewrite ?R3; reflexivity.
  - pose proof (ln_flight _ _ _ _ _ _ _ HL) as HF. cbn [fst snd] in HF. destruct ph; cbn [flight_ok] in *; intuition eauto using led_same, covered_same.
  - apply (sync_kept _ _ _ _ _ _ _ _ _ _ HL); [destruct e; (contradiction || exact I)|exact HS].
Qed.

Lemma linv_enter c1 s1 o1 q g1 seq0 tr (db : DB) ph w u sy : winv U ops_of [] seq0 tr (db, ph) -> linv c1 s1 o1 q g1 tr (db, ph) -> db_writer_objects db !! w = None ->
  filled (EvEnter w u sy) -> linv c1 s1 o1 q g1 (tr ++ [EvEnter w u sy]) (Write_enter db w u sy, ph).
Proof.
  intros HI HL Hw Hf.
  assert (Hnew : forall x, In x (db_writers db) -> writer_at (Write_enter db w u sy) x = writer_at db x).
  { intros x Hx. rewrite enter_writer, decide_False; [reflexivity|]. intros ->. destruct (wi_objects _ _ _ _ _ _ HI w) as [o Ho]; [|cbn in Ho; congruence].
    rewrite (wi_queue _ _ _ _ _ _ HI). apply in_or_app. right. exact Hx. }
  assert (HG : match ph with PUnlocked w0 l | PInserting w0 l _ _ _ _ | PApplied w0 l _ _ => exists ms rest, group_inv ops_of db w0 l ms rest | _ => True end).
  { pose proof (wi_phase _ _ _ _ _ _ HI) as HP. destruct ph; cbn in HP; [exact I|exact I|apply HP| |]; [destruct HP as (ms & rest & _ & _ & G & _)|destruct HP as (ms & rest & G & _)]; eauto. }
  assert (HU : forall w0 l, (exists ms rest, group_inv ops_of db w0 l ms rest) -> group_of (Write_enter db w u sy) l = group_of db l /\
    In w0 (db_writers db) /\ forall x, In x (group_of db l) -> In x (db_writers db)).
  { intros w0 l (ms & rest & G). pose proof (group_upto _ _ _ _ _ _ _ _ HI G) as HM. destruct G as [G1 G2 G3 _ _ _ _ _]. unfold group_of.
    split; [apply upto_app; rewrite G1; apply in_or_app; left; apply list_elem_of_In, list.last_Some_elem_of, G3|]. rewrite HM, G1.
    split; [destruct ms; [discriminate|injection G2 as ->; left; reflexivity]|intros x Hx; apply in_or_app; auto]. }
  assert (HE : forall w0 l, (exists ms rest, group_inv ops_of db w0 l ms rest) -> (led db w0 l -> led (Write_enter db w u sy) w0 l) /\ (covered db w0 -> covered (Write_enter db w u sy) w0)).
  { intros w0 l Hl. destruct (HU w0 l Hl) as (U1 & U2 & U3). unfold led, covered. rewrite U1, (Hnew w0 U2). split; [|auto]. intros [H1 H2]. split; [exact H1|].
    intros x Hx. rewrite (Hnew x) by auto. exact (H2 x Hx). }
  apply (linv_same _ _ _ _ _ _ db _ ph); [exact HL|reflexivity|apply app_nil_r|reflexivity|reflexivity| | | |].
  - intros x Hx Ho. rewrite enter_writer. destruct (decide (x = w)) as [->|N].
    + cbn. destruct u; [contradiction|reflexivity].
    + apply (ln_batches _ _ _ _ _ _ _ HL); [|exact Ho]. cbn in Hx |- *. apply in_app_or in Hx as [Hx|[Hx|[]]]; [exact Hx|congruence].
  - destruct ph; cbn [in_flight]; try reflexivity; f_equal; f_equal; exact (proj1 (HU _ _ HG)).
  - pose proof (ln_flight _ _ _ _ _ _ _ HL) as HF. cbn [fst snd] in HF. destruct ph; cbn [flight_ok] in *; try exact I; destruct (HE _ _ HG); tauto.
  - intros x v sx Hx. rewrite enter_writer. apply in_app_snoc in Hx as [Hx|Hx].
    + rewrite decide_False; [exact (ln_sync _ _ _ _ _ _ _ HL x v sx Hx)|]. intros ->. destruct (wi_objects _ _ _ _ _ _ HI w) as [o Ho]; [|cbn in Ho; congruence].
      apply list_elem_of_In, list_elem_of_omap. exists (EvEnter w v sx). split; [apply list_elem_of_In, Hx|reflexivity].
    + injection Hx as -> -> ->. rewrite decide_True by reflexivity. reflexivity.
Qed.

Lemma linv_refused c1 s1 o1 q g1 seq0 tr (db : DB) w f d s db1 db2 : winv U ops_of [] seq0 tr (db, PRoom w f d) -> linv c1 s1 o1 q g1 tr (db, PRoom w f d) ->
  MakeRoomForWrite_turn write_buffer_size dbname env f d db = (RoomReturn s, db1) -> ok s && negb (is_null (w_batch (writer_at db1 w))) = false ->
  Write_leave w w s db1 = Some db2 -> linv c1 s1 o1 q g1 (tr ++ [EvLeave [w] s (last_seq db1 + 1)]) (db2, PIdle).
Proof.
  intros HI HL HT Hn HW. apply turn_spec in HT. destruct (wi_phase _ _ _ _ _ _ HI) as (_ & _ & Hw). cbn [fst snd] in Hw.
  unfold Write_leave in HW. rewrite (rl_writers _ _ HT) in HW. destruct (db_writers db) as [|w' rest] eqn:Eq; [discriminate Hw|]. injection Hw as ->.
  cbn [pop_writers] in HW. rewrite !decide_True in HW by reflexivity. injection HW as <-.
  assert (Hops : ok s = true -> group_ops ops_of [w] = []).
  { intros Hs. rewrite Hs in Hn. apply negb_false_iff in Hn. pose proof (wi_batches _ _ _ _ _ _ HI) as HB. cbn [fst] in HB. rewrite Eq in HB. apply Forall_cons_iff in HB as [HB _].
    unfold writer_holds in HB. rewrite <- (rely_writer _ _ w HT) in HB. destruct (w_batch (writer_at db1 w)); [discriminate Hn|]. unfold group_ops. cbn. rewrite HB. reflexivity. }
  apply (linv_same _ _ _ _ _ _ db _ (PRoom w f d)); [exact HL| | |exact (rl_log _ _ HT)|exact (rl_sequence _ _ HT)| |reflexivity|exact I|].
  - cbn [log_step]. destruct (ok s); [rewrite Hops by reflexivity|]; reflexivity.
  - cbn [mem_step event_ops]. destruct (ok s); [rewrite Hops by reflexivity|]; apply app_nil_r.
  - apply (batches_sub db); [exact (ln_batches _ _ _ _ _ _ _ HL)|cbn; rewrite Eq; intros x Hx; right; exact Hx|]. intros x. rewrite <- (rely_writer _ _ x HT). reflexivity.
  - apply (sync_kept _ _ _ _ _ _ db _ _ _ HL); [exact I|]. intros x. rewrite <- (rely_writer _ _ x HT). reflexivity.
Qed.

(** *** Building the group *)

Lemma linv_group c1 s1 o1 q g1 seq0 tr (db : DB) w f d s db1 l db2 : winv U ops_of [] seq0 tr (db, PRoom w f d) -> winv U ops_of [] seq0 (tr ++ [EvTau]) (db2, PUnlocked w l) ->
  linv c1 s1 o1 q g1 tr (db, PRoom w f d) -> MakeRoomForWrite_turn write_buffer_size dbname env f d db = (RoomReturn s, db1) ->
  ok s && negb (is_null (w_batch (writer_at db1 w))) = true -> Write_group w db1 = Some (l, db2) -> linv c1 s1 o1 q g1 (tr ++ [EvTau]) (db2, PUnlocked w l).
Proof.
  intros HI HI2 HL HT Hn HG. apply turn_spec in HT. pose proof (linv_rely EvTau _ _ _ _ _ _ _ _ _ I HL HT) as HL1.
  destruct (wi_phase _ _ _ _ _ _ HI) as (_ & _ & Hw). cbn [fst snd] in Hw.
  assert (Hin : In w (db_writers db1)) by (rewrite (rl_writers _ _ HT); destruct (db_writers db); [discriminate|injection Hw as ->; left; reflexivity]).
  assert (Hne : ops_of w <> []).
  { intros Ho. apply andb_prop in Hn as [_ Hn]. pose proof (ln_batches _ _ _ _ _ _ _ HL1 w Hin Ho) as Hb. cbn [fst] in Hb. rewrite Hb in Hn. discriminate. }
  destruct (wi_phase _ _ _ _ _ _ HI2) as (_ & ms & rest & HGI). cbn [fst snd] in HGI. pose proof (group_upto _ _ _ _ _ _ _ _ HI2 HGI) as HU.
  assert (HLed : forall t b lst, BuildBatchGroup db1 = Some (t, b, lst) -> forall x, In x (upto lst (db_writers db1)) -> w_sync (writer_at db1 x) = true -> w_sync (writer_at db1 w) = true).
  { intros t b lst EB x Hx Hsx. pose proof (other_step_inv U ops_of EvTau _ _ _ _ _ _ I HT HI) as HI1. destruct (wi_phase _ _ _ _ _ _ HI1) as (Htmp & _ & Hw1).
    pose proof (wi_batches _ _ _ _ _ _ HI1) as HB. cbn [fst snd] in *. destruct (db_writers db1) as [|w' rest1] eqn:Eq; [discriminate Hw1|]. injection Hw1 as ->.
    apply andb_prop in Hn as [_ Hn]. destruct (w_batch (writer_at db1 w)) as [b0|] eqn:Eb; [|discriminate Hn].
    destruct (BuildBatchGroup_spec ops_of db1 w rest1 b0 Eq Eb HB Htmp) as (t1 & r & lst1 & ms1 & rest' & EG & -> & _ & Hlast & _ & HS). rewrite EG in EB. injection EB as <- <- <-.
    assert (Hnd : NoDup (w :: ms1)).
    { pose proof (wi_nodup _ _ _ _ _ _ HI1) as Hnd. rewrite (wi_queue _ _ _ _ _ _ HI1) in Hnd. cbn [fst] in Hnd. rewrite Eq in Hnd.
      apply list.NoDup_app in Hnd as (_ & _ & Hnd). change (w :: ms1 ++ rest') with ((w :: ms1) ++ rest') in Hnd. apply list.NoDup_app in Hnd as (Hnd & _ & _). exact Hnd. }
    change (w :: ms1 ++ rest') with ((w :: ms1) ++ rest') in Hx. rewrite upto_prefix in Hx by assumption. destruct Hx as [<-|Hx]; [exact Hsx|].
    rewrite List.Forall_forall in HS. exact (HS x Hx Hsx). }
  unfold Write_group in HG. destruct (BuildBatchGroup db1) as [[[t b] lst]|]; [|discriminate]. specialize (HLed _ _ _ eq_refl). cbv zeta in HG. injection HG as <- <-.
  match goal with |- linv _ _ _ _ _ _ (?x, PUnlocked _ ?y) => set (db2 := x) in *; set (l0 := y) in * end.
  assert (HS : db_log db2 = db_log db1 /\ last_seq db2 = last_seq db1 /\ db_writers db2 = db_writers db1) by (unfold db2; destruct t; auto). destruct HS as (S1 & S2 & S3).
  assert (HSy : forall x, w_sync (writer_at db2 x) = w_sync (writer_at db1 x)).
  { intros x. unfold db2. destruct t; [reflexivity|]. unfold writer_at, set_batch. cbn [db_writer_objects with_writers].
    destruct (decide (x = w)) as [->|N]; [rewrite lookup_alter_eq; destruct (db_writer_objects db1 !! w); reflexivity|rewrite lookup_alter_ne by congruence; reflexivity]. }
  apply (linv_same _ _ _ _ _ _ db _ (PRoom w f d)); [exact HL|reflexivity|apply app_nil_r|rewrite S1; exact (rl_log _ _ HT)|rewrite S2; exact (rl_sequence _ _ HT)| |reflexivity| |].
  - intros x Hx Ho. assert (N : x <> w) by congruence. rewrite S3 in Hx. pose proof (ln_batches _ _ _ _ _ _ _ HL1 x Hx Ho) as Hb. cbn [fst] in Hb. unfold db2. destruct t; [exact Hb|].
    unfold writer_at, set_batch in *. cbn [db_writer_objects with_writers]. rewrite lookup_alter_ne by congruence. exact Hb.
  - cbn [flight_ok]. split; [unfold group_of; rewrite HU|unfold group_of; rewrite S3; intros x; rewrite !HSy; apply HLed]. destruct HGI as [_ G2 _ _ _ _ _ _]. destruct ms as [|x ms]; [discriminate|]. injection G2 as ->. unfold group_ops. cbn.
    intros H. apply app_eq_nil in H as [H _]. contradiction.
  - apply (sync_kept _ _ _ _ _ _ db _ _ _ HL); [exact I|]. intros x. rewrite HSy, (rely_writer _ _ x HT). reflexivity.
Qed.

(** *** Writing and leaving *)

Lemma linv_log c1 s1 o1 q g1 seq0 tr (db : DB) w l s se db' : winv U ops_of [] seq0 tr (db, PUnlocked w l) -> linv c1 s1 o1 q g1 tr (db, PUnlocked w l) ->
  seq0 + total_ops ops_of tr <= kMaxSequenceNumber -> Write_log (w_sync (writer_at db w)) l db = Some (s, se, db') ->
  linv c1 s1 o1 q g1 (tr ++ [EvTau]) (db', if ok s then insert_begin w l se else PApplied w l s se).
Proof.
  intros HI HL Hb HA. pose proof (wi_phase _ _ _ _ _ _ HI) as (_ & ms & rest & HG). cbn [fst snd] in *.
  pose proof (group_upto _ _ _ _ _ _ _ _ HI HG) as HU. pose proof (group_bound U ops_of _ _ _ _ _ _ _ _ _ HI Hb HG) as Hbound.
  pose proof (wi_sequence _ _ _ _ _ _ HI) as Hq. cbn [fst] in Hq. pose proof (sz_nonneg (group_ops ops_of ms)) as Hnn. assert (Hmaxs : kMaxSequenceNumber < 2 ^ 56) by reflexivity.
  pose proof (gi_batch _ _ _ _ _ _ HG) as G4. pose proof HL as [L1 L2 L3 L4 L5 L6 L6a L6b (g2 & out & L7 & L8 & L9)]. cbn [fst snd flight_ok in_flight] in *.
  unfold Write_log in HA. rewrite G4 in HA. cbn [rep_] in HA.
  destruct (AddRecord_ok (db_log db) (batch_rep (last_seq db + 1) (sz (group_ops ops_of ms)) (group_ops ops_of ms)) L2) as (log & outr & EA & HW & HC & HE).
  pose proof (AddRecord_synced _ _ _ _ EA) as HY. rewrite EA in HA. cbn [ok OK andb] in HA.
  assert (HS : exists file, (if w_sync (writer_at db w) then let '(s, file) := wf_Sync (dest_ log) in (s, negb (ok s), file) else (OK, false, dest_ log)) = (OK, false, file) /\
    wf_inv file /\ wf_contents file = wf_contents (dest_ log) /\ (wf_synced (dest_ log) <= wf_synced file)%nat /\
    (w_sync (writer_at db w) = true -> (length (wf_contents file) <= wf_synced file)%nat)).
  { destruct (w_sync (writer_at db w)); [|exists (dest_ log); repeat split; auto using w_file; discriminate]. pose proof (wf_sync_synced (dest_ log)) as HM. pose proof (wf_sync_covers (dest_ log)) as HV.
    destruct (wf_sync_ok (dest_ log) (w_file _ HW)) as (f' & EF & Hi & Hc). rewrite EF in *. exists f'. repeat split; auto. intros _. exact (HV _ _ eq_refl eq_refl). }
  destruct HS as (file & EF & Hfi & Hfc & Hfs & Hcov). rewrite EF in HA. cbv zeta in HA. injection HA as <- <- <-. cbn [ok OK].
  rewrite (insert_begin_group w l false _ _ G4) by lia.
  split; cbn [fst snd flight_ok in_flight db_writers db_log db_versions with_memtables with_log]; rewrite ?log_groups_snoc, ?in_memtable_snoc; cbn [log_step mem_step event_ops]; rewrite ?app_nil_r in *; try assumption.
  - destruct HW. split; assumption.
  - split; [exact L6|exact Hcov].
  - apply (sync_kept _ _ _ _ _ _ db _ _ _ HL); [exact I|reflexivity].
  - cbn [dest_]. lia.
  - unfold group_of. cbn [db_writers with_log]. rewrite HU.
    exists (g2 ++ [group_ops ops_of ms]), (out ++ outr). cbn [dest_ block_offset_]. rewrite L7, app_assoc. split; [reflexivity|]. split; [rewrite Hfc, HC, L8, app_assoc; reflexivity|].
    rewrite log_records_app. eapply Logged_app; [exact L9|]. cbn [log_records].
    replace (q + sz (concat g1) + sz (concat g2)) with (last_seq db + 1) by (rewrite L3, L7, concat_app, sz_app; lia).
    rewrite <- (app_nil_r outr). econstructor; [exact HE|constructor].
Qed.

(** The memtable takes no part. *)

Lemma linv_insert c1 s1 o1 q g1 tr (db : DB) w l se i n k i' n' k' m : linv c1 s1 o1 q g1 tr (db, PInserting w l se i n k) ->
  linv c1 s1 o1 q g1 (tr ++ [EvTau]) (with_memtables db m (db_imm db), PInserting w l se i' n' k').
Proof.
  intros HL. apply (linv_same _ _ _ _ _ _ db _ (PInserting w l se i n k)); [exact HL|reflexivity|apply app_nil_r|reflexivity|reflexivity|exact (ln_batches _ _ _ _ _ _ _ HL)|reflexivity|exact (ln_flight _ _ _ _ _ _ _ HL)|].
  apply (sync_kept _ _ _ _ _ _ db _ _ _ HL); [exact I|reflexivity].
Qed.

Lemma linv_inserted c1 s1 o1 q g1 tr (db : DB) w l se i n k s : linv c1 s1 o1 q g1 tr (db, PInserting w l se i n k) -> s = OK ->
  linv c1 s1 o1 q g1 (tr ++ [EvTau]) (db, PApplied w l s se).
Proof.
  intros HL ->. apply (linv_same _ _ _ _ _ _ db _ (PInserting w l se i n k)); [exact HL|reflexivity|apply app_nil_r|reflexivity|reflexivity|exact (ln_batches _ _ _ _ _ _ _ HL)|reflexivity|split; [reflexivity|exact (ln_flight _ _ _ _ _ _ _ HL)]|].
  apply (sync_kept _ _ _ _ _ _ db _ _ _ HL); [exact I|reflexivity].
Qed.

Lemma linv_leave c1 s1 o1 q g1 seq0 tr (db : DB) w l s se db' ms : winv U ops_of [] seq0 tr (db, PApplied w l s se) -> linv c1 s1 o1 q g1 tr (db, PApplied w l s se) ->
  Write_leave w (wl_last_writer l) s (Write_commit l s se db) = Some db' -> db_writers db = ms ++ db_writers db' ->
  linv c1 s1 o1 q g1 (tr ++ [EvLeave ms s (last_seq db + 1)]) (db', PIdle).
Proof.
  intros HI HL HW Hms. pose proof (wi_phase _ _ _ _ _ _ HI) as (ms' & rest & HG & _). cbn [fst snd] in *. pose proof (group_upto _ _ _ _ _ _ _ _ HI HG) as HU.
  assert (Hnd : NoDup ms').
  { pose proof (wi_nodup _ _ _ _ _ _ HI) as Hnd. rewrite (wi_queue _ _ _ _ _ _ HI) in Hnd. cbn [fst] in Hnd. rewrite (gi_queue _ _ _ _ _ _ HG) in Hnd.
    apply list.NoDup_app in Hnd as (_ & _ & Hnd). apply list.NoDup_app in Hnd as (Hnd & _ & _). exact Hnd. }
  destruct HG as [G1 _ G3 _ _ _ G7 _]. destruct (commit_same l s se db) as (C1 & C2 & _ & CL & C4 & _). set (dbc := Write_commit l s se db) in *. clearbody dbc.
  destruct (pop_writers_spec ops_of w (wl_last_writer l) s ms' rest (db_writer_objects db) G3 Hnd) as (objs' & Epop & Eobjs).
  unfold Write_leave in HW. rewrite C1, C2, G1, Epop in HW. injection HW as <-. cbn [db_writers with_writers] in Hms.
  assert (ms = ms') as -> by (rewrite G1 in Hms; apply app_inv_tail in Hms; congruence).
  pose proof HL as [L1 L2 L3 L4 L5 L6 L6a L6b (g2 & out & L7 & L8 & L9)]. cbn [fst snd flight_ok in_flight] in *. unfold led, group_of in *. rewrite HU in *. destruct L6 as (Hs & [Hne _] & _).
  assert (EG : log_groups (tr ++ [EvLeave ms' s (last_seq db + 1)]) = log_groups tr ++ [group_ops ops_of ms']).
  { rewrite log_groups_snoc. cbn [log_step]. rewrite Hs. destruct (group_ops ops_of ms'); [contradiction|reflexivity]. }
  split; cbn [fst snd flight_ok in_flight db_writers db_log db_versions with_writers]; rewrite ?EG, ?in_memtable_snoc, ?CL; try assumption.
  - intros x Hx Ho. assert (HB : w_batch (writer_at (with_writers dbc rest objs' (db_tmp_batch dbc)) x) = w_batch (writer_at db x)).
    { unfold writer_at. cbn [db_writer_objects with_writers]. rewrite Eobjs. destruct (decide _); [|reflexivity]. destruct (db_writer_objects db !! x); reflexivity. }
    rewrite HB. apply L1; [|exact Ho]. rewrite G1. apply in_or_app. right. exact Hx.
  - rewrite C4, G7, concat_app, sz_app. cbn [concat]. rewrite app_nil_r. lia.
  - cbn [mem_step event_ops]. rewrite Hs, L4, concat_app, numbered_app, <- L3. cbn [concat]. rewrite app_nil_r. reflexivity.
  - apply Forall_app. split; [exact L5|]. constructor; [exact Hne|constructor].
  - exact I.
  - apply (sync_kept _ _ _ _ _ _ db _ _ _ HL); [exact I|]. intros x. unfold writer_at. cbn [db_writer_objects with_writers]. rewrite Eobjs.
    destruct (decide _); [|reflexivity]. destruct (db_writer_objects db !! x); reflexivity.
  - rewrite app_nil_r. eauto.
Qed.

(** *** All steps *)

Lemma linv_step c1 s1 o1 q g1 seq0 tr c e c' : winv U ops_of [] seq0 tr c -> winv U ops_of [] seq0 (tr ++ [e]) c' -> linv c1 s1 o1 q g1 tr c -> filled e -> e <> EvSwitch ->
  seq0 + total_ops ops_of tr <= kMaxSequenceNumber -> step c e c' -> linv c1 s1 o1 q g1 (tr ++ [e]) c'.
Proof.
  intros HI HI' HL Hf Hne Hb Hs.
  destruct Hs as [db ph w u sy Hw Hm|db w Hw|db w f d db' HT|db w f d db' HT|db w f d s db1 db2 HT Hn HLv|db w f d s db1 l db2 HT Hn HG|db w l s se db' HA|db w l se i n k i' n' k' m HT|db w l se i n k s n' HT|db w l s se db' ms HLv Hms|db db' ph HR].
  - eapply linv_enter; eassumption.
  - apply (linv_same _ _ _ _ _ _ db _ PIdle); [exact HL|reflexivity|apply app_nil_r|reflexivity|reflexivity|exact (ln_batches _ _ _ _ _ _ _ HL)|reflexivity|exact I|].
    apply (sync_kept _ _ _ _ _ _ db _ _ _ HL); [exact I|reflexivity].
  - apply turn_spec in HT as ->. apply (linv_same _ _ _ _ _ _ db _ (PRoom w f d)); [exact HL|reflexivity|apply app_nil_r|reflexivity|reflexivity|exact (ln_batches _ _ _ _ _ _ _ HL)|reflexivity|exact I|].
    apply (sync_kept _ _ _ _ _ _ db _ _ _ HL); [exact I|reflexivity].
  - contradiction.
  - eapply linv_refused; eassumption.
  - eapply linv_group; eassumption.
  - eapply linv_log; eassumption.
  - eapply linv_insert; eassumption.
  - eapply linv_inserted; [eassumption|]. exact (proj2 (inserted_inv U ops_of all_keys _ _ _ _ _ _ _ _ _ _ _ _ HI Hb HT)).
  - eapply linv_leave; eassumption.
  - eapply linv_rely; [exact I|eassumption..].
Qed.

(** A group with a writer that asked for a sync is synced when it leaves. *)

Lemma synced_group c1 s1 o1 q g1 seq0 tr (db db1 : DB) ph ph1 members s first x b : winv U ops_of [] seq0 tr (db, ph) -> linv c1 s1 o1 q g1 tr (db, ph) ->
  step (db, ph) (EvLeave members s first) (db1, ph1) -> ok s = true -> In x members -> In (EvEnter x (Some b) true) tr -> filled (EvEnter x (Some b) true) ->
  (length (wf_contents (dest_ (db_log db1))) <= wf_synced (dest_ (db_log db1)))%nat.
Proof.
  intros HI HL Hs Hok Hx He Hf. pose proof (ln_sync _ _ _ _ _ _ _ HL _ _ _ He) as Hsx. cbn [fst] in Hsx.
  inversion Hs as [| | | |db0 w f d s0 db1' db2 HT Hn HLv| | | | |db0 w l s0 se db' ms HLv Hms|]; subst.
  - exfalso. destruct Hx as [<-|[]]. apply turn_spec in HT. destruct (wi_phase _ _ _ _ _ _ HI) as (_ & _ & Hw). pose proof (wi_batches _ _ _ _ _ _ HI) as HB. cbn [fst snd] in *.
    destruct (db_writers db) as [|w' rest]; [discriminate Hw|]. injection Hw as ->. apply Forall_cons_iff in HB as [HB _].
    rewrite Hok in Hn. apply negb_false_iff in Hn. unfold writer_holds in HB. rewrite <- (rely_writer _ _ w HT) in HB. destruct (w_batch (writer_at db1' w)); [discriminate Hn|]. contradiction.
  - destruct (ln_flight _ _ _ _ _ _ _ HL) as (_ & [_ Hled] & Hcov). cbn [fst snd] in *. destruct (wi_phase _ _ _ _ _ _ HI) as (ms' & rest & HG & _). cbn [fst snd] in HG.
    assert (EM : members = group_of db l).
    { unfold group_of. rewrite (group_upto _ _ _ _ _ _ _ _ HI HG). destruct (commit_same l s se db) as (C1 & C2 & _).
      unfold Write_leave in HLv. rewrite C1, C2, (gi_queue _ _ _ _ _ _ HG) in HLv.
      assert (Hnd : NoDup ms').
      { pose proof (wi_nodup _ _ _ _ _ _ HI) as Hnd. rewrite (wi_queue _ _ _ _ _ _ HI) in Hnd. cbn [fst] in Hnd. rewrite (gi_queue _ _ _ _ _ _ HG) in Hnd.
        apply list.NoDup_app in Hnd as (_ & _ & Hnd). apply list.NoDup_app in Hnd as (Hnd & _ & _). exact Hnd. }
      destruct (pop_writers_spec ops_of w (wl_last_writer l) s ms' rest (db_writer_objects db) (gi_last _ _ _ _ _ _ HG) Hnd) as (objs' & Epop & _). rewrite Epop in HLv. injection HLv as <-.
      cbn [db_writers with_writers] in Hms. rewrite (gi_queue _ _ _ _ _ _ HG) in Hms. apply app_inv_tail in Hms. congruence. }
    assert (Elog : db_log db1 = db_log db).
    { destruct (commit_same l s se db) as (_ & _ & _ & CL & _). unfold Write_leave in HLv. destruct (pop_writers _ _ _ _ _) as [[ws objs]|]; [|discriminate]. injection HLv as <-. exact CL. }
    rewrite Elog. apply Hcov. apply (Hled x); [rewrite <- EM; exact Hx|exact Hsx].
Qed.

(** A new log: nothing is in it. *)

Lemma switch_log f d (db db' : DB) : MakeRoomForWrite_turn write_buffer_size dbname env f d db = (RoomSwitched, db') ->
  exists file, db_log db' = Writer_new file /\ wf_inv file /\ wf_contents file = [].
Proof.
  unfold MakeRoomForWrite_turn. repeat match goal with |- (if ?b then _ else _) = _ -> _ => destruct b; [discriminate|] end.
  cbn [NewFileNumber fst snd]. destruct (env_NewWritableFile _ _ _) as [e [s [lfile|]]] eqn:EN; [|discriminate]. destruct (ok s) eqn:Os; [|discriminate]. intros [= <-].
  exists lfile. split; [|exact (fresh_files _ _ _ _ _ EN Os)]. unfold SwitchMemTable. destruct (wf_Close _) as [s1 f1].
  match goal with |- context [MaybeScheduleCompaction ?x] => rewrite (rl_log _ _ (MaybeSchedule_rely x)) end. reflexivity.
Qed.

Lemma linv_switch c1 s1 o1 q g1 seq0 tr (db db' : DB) w f d : winv U ops_of [] seq0 tr (db, PRoom w f d) -> linv c1 s1 o1 q g1 tr (db, PRoom w f d) ->
  MakeRoomForWrite_turn write_buffer_size dbname env f d db = (RoomSwitched, db') -> linv [] 0 0 (last_seq db' + 1) [] (tr ++ [EvSwitch]) (db', PRoom w false d).
Proof.
  intros HI HL HT. destruct (switch_log _ _ _ _ HT) as (file & EL & Hi & Hc). apply turn_spec in HT as (_ & T2 & T3 & _ & T5 & _).
  split; cbn [fst snd flight_ok in_flight]; rewrite ?log_groups_snoc, ?in_memtable_snoc, ?EL; cbn [log_step mem_step concat numbered app]; try reflexivity.
  - apply (batches_sub db); [exact (ln_batches _ _ _ _ _ _ _ HL)|rewrite T2; auto|]. intros x. unfold writer_at. rewrite T3. reflexivity.
  - apply WOk_new, Hi.
  - unfold sz. cbn. lia.
  - constructor.
  - apply (sync_kept _ _ _ _ _ _ db _ _ _ HL); [exact I|]. intros x. unfold writer_at. rewrite T3. reflexivity.
  - lia.
  - exists [], []. cbn [dest_ Writer_new]. rewrite Hc. split; [reflexivity|]. split; [reflexivity|constructor].
Qed.

(** *** Runs *)

(** From the beginning of a log on, without a new one. *)

Lemma linv_run c1 s1 o1 q g1 seq0 tr1 c tr2 c' : winv U ops_of [] seq0 tr1 c -> linv c1 s1 o1 q g1 tr1 c -> run c tr2 c' -> Forall (enter_ok ops_of) tr2 -> Forall filled tr2 ->
  ~ In EvSwitch tr2 -> seq0 + total_ops ops_of (tr1 ++ tr2) <= kMaxSequenceNumber -> winv U ops_of [] seq0 (tr1 ++ tr2) c' /\ linv c1 s1 o1 q g1 (tr1 ++ tr2) c'.
Proof.
  intros HI HL HR. induction HR as [c|c tr2 c2 e c' HR IH Hs]; intros HE HF HN Hb; [rewrite app_nil_r; auto|].
  apply Forall_app in HE as [HE1 HE2]. apply Forall_app in HF as [HF1 HF2]. apply Forall_inv in HE2, HF2. rewrite app_assoc in *.
  pose proof (total_ops_mono ops_of (tr1 ++ tr2) e) as Hm. destruct (IH HI HL HE1 HF1) as [HI2 HL2]; [intros H; apply HN, in_or_app; auto|lia|].
  assert (HI' : winv U ops_of [] seq0 ((tr1 ++ tr2) ++ [e]) c') by (eapply wstep_inv; [exact UOK|exact all_keys|exact HI2|exact HE2|lia|exact Hs]).
  split; [exact HI'|]. eapply linv_step; [exact HI2|exact HI'|exact HL2|exact HF2| |lia|exact Hs]. intros ->. apply HN, in_or_app. right. left. reflexivity.
Qed.

(** With any number of new logs. *)

Lemma linv_runs seq0 c tr c' : winv U ops_of [] seq0 [] c -> (exists q, linv [] 0 0 q [] [] c) -> run c tr c' -> Forall (enter_ok ops_of) tr -> Forall filled tr ->
  seq0 + total_ops ops_of tr <= kMaxSequenceNumber -> winv U ops_of [] seq0 tr c' /\ exists q, linv [] 0 0 q [] tr c'.
Proof.
  intros HI HL HR. induction HR as [c|c tr c2 e c' HR IH Hs]; intros HE HF Hb; [auto|].
  apply Forall_app in HE as [HE1 HE2]. apply Forall_app in HF as [HF1 HF2]. apply Forall_inv in HE2, HF2. pose proof (total_ops_mono ops_of tr e) as Hm.
  destruct (IH HI HL HE1 HF1) as [HI2 [q HL2]]; [lia|].
  assert (HI' : winv U ops_of [] seq0 (tr ++ [e]) c') by (eapply wstep_inv; [exact UOK|exact all_keys|exact HI2|exact HE2|lia|exact Hs]). split; [exact HI'|].
  assert (HD : e = EvSwitch \/ e <> EvSwitch) by (destruct e; (left; reflexivity) || (right; discriminate)).
  destruct HD as [->|N]; [|exists q; eapply linv_step; [exact HI2|exact HI'|exact HL2|exact HF2|exact N|lia|exact Hs]].
  inversion Hs; subst. eexists. eapply linv_switch; eassumption.
Qed.

(** The log of a state, seen from an earlier one. *)

Lemma linv_rebase c1 s1 o1 q g1 tr (db : DB) ph : linv c1 s1 o1 q g1 tr (db, ph) ->
  linv (wf_contents (dest_ (db_log db))) (wf_synced (dest_ (db_log db))) (block_offset_ (db_log db)) q (log_groups tr ++ in_flight db ph) tr (db, ph).
Proof.
  intros [L1 L2 L3 L4 L5 L6 L6a L6b (g2 & out & L7 & L8 & L9)]. split; try assumption; [cbn [fst]; lia|]. exists [], []. cbn [fst snd log_records]. rewrite !app_nil_r. split; [reflexivity|]. split; [reflexivity|constructor].
Qed.

(** All that the log holds is a history. *)

Lemma flight_history c1 s1 o1 q g1 seq0 tr (db : DB) ph : winv U ops_of [] seq0 tr (db, ph) -> linv c1 s1 o1 q g1 tr (db, ph) -> seq0 + total_ops ops_of tr <= kMaxSequenceNumber ->
  numbered q (concat (log_groups tr ++ in_flight db ph)) = in_memtable ops_of [] tr ++ numbered (last_seq db + 1) (concat (in_flight db ph)) /\
  history_ok (numbered q (concat (log_groups tr ++ in_flight db ph))) /\ Forall (fun g => g <> []) (log_groups tr ++ in_flight db ph).
Proof.
  intros HI HL Hb. pose proof HL as [L1 L2 L3 L4 L5 L6 _ _ _]. cbn [fst snd] in *.
  assert (EN : numbered q (concat (log_groups tr ++ in_flight db ph)) = in_memtable ops_of [] tr ++ numbered (last_seq db + 1) (concat (in_flight db ph)))
    by (rewrite concat_app, numbered_app, L4, L3; reflexivity).
  split; [exact EN|]. rewrite EN. pose proof (wi_history _ _ _ _ _ _ HI) as HH. pose proof (wi_numbers _ _ _ _ _ _ HI) as Hn. apply Forall_app in Hn as [Hn _].
  assert (H0 : history_ok (in_memtable ops_of [] tr ++ [])) by (rewrite app_nil_r; exact HH).
  assert (HGr : forall w l, (exists ms rest, group_inv ops_of db w l ms rest) -> led db w l ->
    history_ok (in_memtable ops_of [] tr ++ numbered (last_seq db + 1) (group_ops ops_of (group_of db l) ++ [])) /\ Forall (fun g => g <> []) (log_groups tr ++ [group_ops ops_of (group_of db l)])).
  { intros w l (ms & rest & HG) [Hl _]. unfold group_of in *. rewrite (group_upto _ _ _ _ _ _ _ _ HI HG) in *. pose proof (group_bound U ops_of _ _ _ _ _ _ _ _ _ HI Hb HG) as Hbd.
    rewrite app_nil_r. split; [apply history_extend; [exact HH|exact Hn|exact (wi_sequence _ _ _ _ _ _ HI)|exact Hbd|exact (gi_fits _ _ _ _ _ _ HG)]|].
    apply Forall_app. split; [exact L5|]. constructor; [exact Hl|constructor]. }
  pose proof (wi_phase _ _ _ _ _ _ HI) as HP. cbn [fst snd] in HP.
  destruct ph as [|w f d|w l|w l se i n k|w l s se]; cbn [in_flight concat numbered flight_ok phase_inv] in *; try (split; [exact H0|rewrite app_nil_r; exact L5]).
  - destruct HP as (ms & rest & _ & _ & HG & _). apply (HGr w); [eauto|apply L6].
  - destruct HP as (ms & rest & HG & _). apply (HGr w); [eauto|apply L6].
Qed.

(** A log that is just made, before the first write. *)

Lemma fresh_linv (db : DB) : db_ready U [] db -> WOk (db_log db) -> wf_contents (dest_ (db_log db)) = [] -> block_offset_ (db_log db) = 0 ->
  linv [] 0 0 (last_seq db + 1) [] [] (db, PIdle).
Proof.
  intros [H1 _ _ _ _ _ _] HW HC HO. split; cbn [fst snd]; try reflexivity; [|exact HW| | | | |].
  - rewrite H1. intros x [].
  - cbn. unfold sz. cbn. lia.
  - constructor.
  - intros w u sy [].
  - lia.
  - exists [], []. cbn. rewrite HC, HO. split; [reflexivity|]. split; [reflexivity|constructor].
Qed.

(** A sync that is acknowledged covers the log. *)

Lemma sync_acknowledged seq0 c tr members s first db1 ph1 x b : winv U ops_of [] seq0 [] c -> (exists q, linv [] 0 0 q [] [] c) ->
  run c (tr ++ [EvLeave members s first]) (db1, ph1) -> Forall (enter_ok ops_of) (tr ++ [EvLeave members s first]) -> Forall filled (tr ++ [EvLeave members s first]) ->
  seq0 + total_ops ops_of (tr ++ [EvLeave members s first]) <= kMaxSequenceNumber -> ok s = true -> In x members -> In (EvEnter x (Some b) true) tr ->
  (length (wf_contents (dest_ (db_log db1))) <= wf_synced (dest_ (db_log db1)))%nat.
Proof.
  intros HI HL HR HE HF Hb Hs Hx Hex. inversion HR as [|c0 tr' [db ph] e' c' HR' Hst E1 E2 E3]; [destruct tr; discriminate|]. apply app_inj_tail in E2 as [-> ->]. subst c0 c'.
  apply Forall_app in HE as [HE _]. apply Forall_app in HF as [HF _]. pose proof (total_ops_mono ops_of tr (EvLeave members s first)) as Hm.
  destruct (linv_runs seq0 c tr (db, ph) HI HL HR' HE HF ltac:(lia)) as [HI1 [q HL1]].
  eapply synced_group; [exact HI1|exact HL1|exact Hst|exact Hs|exact Hx|exact Hex|]. rewrite List.Forall_forall in HF. exact (HF _ Hex).
Qed.

End Durable.

(** ** Records are shorter than the log *)

Lemma emitted_length o b rec out o' : Emitted o b rec out o' -> kHeaderSize + sz rec <= sz out.
Proof.
  induction 1 as [o b ptr _|o b ptr out o' avail Hlt HE IH]; rewrite ?sz_app, !length_phys; [pose proof (sz_nonneg (trailer o)); lia|].
  pose proof (sz_nonneg (trailer o)). assert (HS : sz (take (Z.to_nat avail) ptr) + sz (drop (Z.to_nat avail) ptr) = sz ptr) by (rewrite <- sz_app, take_drop; reflexivity).
  unfold kHeaderSize in *. lia.
Qed.

Lemma logged_length o recs out o' : Logged o recs out o' -> Forall (fun rec => kHeaderSize + sz rec <= sz out) recs.
Proof.
  induction 1 as [o|o rec out o1 recs outs o2 HE HL IH]; [constructor|]. rewrite sz_app. pose proof (sz_nonneg out). pose proof (sz_nonneg outs). constructor.
  - apply emitted_length in HE. lia.
  - revert IH. apply List.Forall_impl. intros r Hr. lia.
Qed.

Lemma numbered_take q j gs : exists y, numbered q (concat gs) = numbered q (concat (take j gs)) ++ y.
Proof. exists (numbered (q + sz (concat (take j gs))) (concat (drop j gs))). rewrite <- numbered_app, <- concat_app, take_drop. reflexivity. Qed.

Lemma next_max_bound x q gs : Forall (fun y => fst y <= next_max x q gs) (numbered q (concat gs)).
Proof.
  apply List.Forall_forall. intros y Hy. destruct gs as [|g gs]; [contradiction|]. apply numbered_In in Hy. unfold next_max. lia.
Qed.

Lemma groups_length (gs : list (list Op)) : Forall (fun g => g <> []) gs -> (length gs <= length (concat gs))%nat.
Proof. induction 1 as [|g gs Hg HF IH]; cbn; [lia|]. rewrite length_app. destruct g; [contradiction|]. cbn. lia. Qed.

(** ** Property *)

(** C3. Synced writes survive a crash.  Threads write to a database whose log is
    new, in any interleaving and with any number of switches to a new memtable
    and log, until a group leaves with OK of which a member asked for [sync]
    (state [db1]), and then on, on the same log, up to [db], possibly in the
    middle of a group.  A crash leaves any part of the log file that covers what
    is synced: [Append] and [Flush] promise nothing, [Sync] all that was written.
    With a table cache that opens tables, [RecoverLogFile] succeeds, and what it
    brings back, under the numbers it was written with, is the operations of a
    number of whole groups in order: all that was acknowledged up to [db1] since
    the last switch, nothing that was not written, and everything if the file is
    whole; the largest number reported covers it.  What was acknowledged before
    the last switch is in other files and not part of this.  The file system
    reports no errors. *)
Theorem acknowledged_writes_survive : forall U K E W Q TI (WF : WritableFile W) (RW : ReliableWritable W) (DW : DurableWritable W) (SF : SequentialFile Q) (RS : ReliableSequential Q) (TIO : Iterator TI)
    (options : Options) max_file_size write_buffer_size dbname paranoid reuse_logs (env : @EnvOps E W Q) (denv : DbEnvOps E W) (FS : FileStore env denv)
    (tc_NewIterator : E -> ReadOptions -> Z -> Z -> TI) (ops_of : nat -> list Op) db0 tr0 members s first x b db1 ph1 tr2 db ph,
  ComparatorOk U -> ComparatorShort U -> CompressionOk K -> (forall u, @cmp_dom U u) ->
  opens_tables (U := U) (K := K) options dbname env denv tc_NewIterator ->
  db_ready U [] db0 -> WOk (db_log db0) -> wf_contents (dest_ (db_log db0)) = [] -> block_offset_ (db_log db0) = 0 ->
  let tr1 := tr0 ++ [EvLeave members s first] in
  wrun U write_buffer_size dbname env (db0, PIdle) tr1 (db1, ph1) -> ok s = true -> In x members -> In (EvEnter x (Some b) true) tr0 ->
  wrun U write_buffer_size dbname env (db1, ph1) tr2 (db, ph) -> ~ In EvSwitch tr2 ->
  Forall (enter_ok ops_of) (tr1 ++ tr2) -> Forall (filled ops_of) (tr1 ++ tr2) -> vs_last_sequence (db_versions db0) + total_ops ops_of (tr1 ++ tr2) <= kMaxSequenceNumber ->
  let h := in_memtable ops_of [] (tr1 ++ tr2) ++ numbered (vs_last_sequence (db_versions db) + 1) (concat (in_flight ops_of db ph)) in
  flushable options h ->
  (forall e name e1 file es, env_NewWritableFile env e name = (e1, (OK, Some file)) -> NoDup es -> incl es h -> sz (table_bytes (U := U) (K := K) options file es) < 2 ^ 32) ->
  forall (o : @Opening E W) file m ff n fuel log_number last_log save edit max_sequence,
    env_NewSequentialFile env (vs_env (o_versions o)) (LogFileName dbname log_number) = (OK, Some file) ->
    sf_inv file -> sf_rest file = take m (wf_contents (dest_ (db_log db))) -> (wf_synced (dest_ (db_log db)) <= m)%nat ->
    0 <= vs_next_file_number (o_versions o) -> vs_next_file_number (o_versions o) + sz h + 1 < 2 ^ 64 ->
    (length h < ff)%nat -> (length h < n)%nat -> (length (wf_contents (dest_ (db_log db))) < fuel)%nat ->
    exists q j save' edit' new_max o', let r := numbered q (concat (take j (log_groups ops_of (tr1 ++ tr2) ++ in_flight ops_of db ph))) in
      RecoverLogFile U K options max_file_size write_buffer_size dbname paranoid reuse_logs env denv tc_NewIterator ff n fuel
        log_number last_log save edit max_sequence o = Some (OK, save', edit', new_max, o') /\
      replay_result (U := U) (K := K) options dbname env denv reuse_logs o o' log_number last_log save save' edit edit' r /\
      (exists x, r = in_memtable ops_of [] tr1 ++ x) /\ (exists y, h = r ++ y) /\ Forall (fun x => fst x <= new_max) r /\
      ((length (wf_contents (dest_ (db_log db))) <= m)%nat -> r = h).
Proof.
  intros U K E W Q TI WF RW DW SF RS TIO options mfs wbs dbname paranoid reuse env denv FS tcn ops_of db0 tr0 members s first x b db1 ph1 tr2 db ph UOK US KOK Hk Hopens H0 HW0 HC0 HO0 tr1 HR1 Hs Hx Hex HR2 HN HE HF Hb h Hfl Hsize
    o file m ff n fuel log_number last_log save edit mx EF Hf Hr Hms Hn0 Hroom Hff Hn Hfuel.
  assert (Hfresh : forall e name e' s f, env_NewWritableFile env e name = (e', (s, Some f)) -> ok s = true -> wf_inv f /\ wf_contents f = []).
  { intros e name e' s' f EN _. destruct (fs_create e name) as (e1 & f1 & E1 & Hi & Hc & _). rewrite E1 in EN. injection EN as _ _ <-. auto. }
  assert (Hmono : total_ops ops_of tr1 <= total_ops ops_of (tr1 ++ tr2)) by (unfold total_ops; rewrite entered_app, group_ops_app, sz_app; pose proof (sz_nonneg (group_ops ops_of (entered tr2))); lia). apply Forall_app in HE as [HE1 HE2]. apply Forall_app in HF as [HF1 HF2].
  destruct (linv_runs U wbs dbname env Hk ops_of Hfresh (vs_last_sequence (db_versions db0)) (db0, PIdle) tr1 (db1, ph1)) as [HI1 [q HL1]];
    [apply ready_inv, H0|eexists; apply (fresh_linv U); eassumption|exact HR1|exact HE1|exact HF1|lia|].
  pose proof (linv_rebase ops_of _ _ _ _ _ _ _ _ HL1) as HLb.
  destruct (linv_run U wbs dbname env Hk ops_of _ _ _ _ _ _ _ _ _ _ HI1 HLb HR2 HE2 HF2 HN Hb) as [HI HL].
  assert (Hb1 : vs_last_sequence (db_versions db0) + total_ops ops_of tr1 <= kMaxSequenceNumber) by lia.
  assert (Hm : (length (wf_contents (dest_ (db_log db1))) <= m)%nat).
  { pose proof (ln_synced _ _ _ _ _ _ _ _ HL) as HS. cbn [fst] in HS. enough (length (wf_contents (dest_ (db_log db1))) <= wf_synced (dest_ (db_log db1)))%nat by lia.
    exact (sync_acknowledged U wbs dbname env Hk ops_of Hfresh _ _ _ _ _ _ _ _ _ _ (ready_inv U ops_of [] db0 H0) (ex_intro _ _ (fresh_linv U ops_of db0 H0 HW0 HC0 HO0)) HR1 HE1 HF1 Hb1 Hs Hx Hex). }
  destruct (flight_history U ops_of _ _ _ _ _ _ _ _ _ HI HL Hb) as (Eh & Hh & Hne). fold h in Eh.
  destruct (flight_history U ops_of _ _ _ _ _ _ _ _ _ HI1 HL1 ltac:(lia)) as (Eh1 & _ & _).
  pose proof (ln_logged _ _ _ _ _ _ _ _ HL1) as (g & out1 & Eg & Ec1 & HLg1). pose proof (ln_logged _ _ _ _ _ _ _ _ HL) as (g2 & out2 & Eg2 & Ec2 & HLg2). cbn [fst snd app] in *.
  set (g1 := log_groups ops_of tr1 ++ in_flight ops_of db1 ph1) in *. subst g. rewrite Ec1 in Ec2, Hm. rewrite Ec2 in *. rewrite Eg2 in Eh, Hh, Hne |- *.
  replace (q + sz (concat [])) with q in HLg1 by (unfold sz; cbn; lia).
  pose proof (groups_length _ Hne) as Hgl. assert (Hlh : length h = length (concat (g1 ++ g2))) by (rewrite <- Eh; apply length_numbered).
  pose proof (logged_length _ _ _ _ (Logged_app _ _ _ _ _ _ _ HLg1 HLg2)) as Hlens. rewrite <- log_records_app in Hlens.
  rewrite <- Eh in Hfl, Hsize, Hroom, Hff.
  destruct (cut_log_replayed U K E W Q TI WF RW SF RS TIO options mfs wbs dbname paranoid reuse env denv FS tcn q g1 g2 out1 _ out2 _ UOK US KOK Hk Hopens Hh Hfl Hne Hsize HLg1 HLg2
    o file m ff n fuel log_number last_log save edit mx EF Hf Hr Hm Hn0 Hroom Hff ltac:(lia) ltac:(lia)) as (j & save' & edit' & o' & ER & HRes & Hall).
  { revert Hlens. apply List.Forall_impl. intros rec Hrec. unfold kHeaderSize, sz in Hrec. lia. }
  assert (ET : g1 ++ take j g2 = take (length g1 + j) (g1 ++ g2)) by (rewrite take_app_ge by lia; f_equal; f_equal; lia).
  exists q, (length g1 + j)%nat, save', edit', (next_max mx q (g1 ++ take j g2)), o'. cbv zeta. rewrite <- ET. split; [exact ER|]. split; [exact HRes|]. split.
  - eexists. rewrite concat_app, numbered_app, Eh1, <- app_assoc. reflexivity.
  - split; [rewrite <- Eh, ET; apply numbered_take|]. split; [apply next_max_bound|].
    intros Hw. rewrite <- Eh, (take_ge g2) by (apply Hall, Hw). reflexivity.
Qed.

(** A file in memory that counts what is synced, and a file system of such files that
    hands out [log] for reading. *)

Record Tracked := mkTracked { tk_file : FileState; tk_synced : nat }.

#[export] Instance TrackedWritable : WritableFile Tracked := {
  wf_Append t d := let '(s, f) := wf_Append (tk_file t) d in (s, mkTracked f (tk_synced t));
  wf_Close t := (OK, t);
  wf_Flush t := (OK, t);
  wf_Sync t := (OK, mkTracked (tk_file t) (Nat.max (tk_synced t) (length (FS_contents (tk_file t)))))
}.

#[export, refine] Instance TrackedReliable : ReliableWritable Tracked := { wf_inv t := FSInv (tk_file t); wf_contents t := FS_contents (tk_file t) }.
Proof.
  - intros t d Ht. destruct (wf_append_ok (ReliableWritable := MemReliableWritable) (tk_file t) d Ht) as (f & EA & Hf & Hc). exists (mkTracked f (tk_synced t)). cbn [wf_Append TrackedWritable]. rewrite EA. auto.
  - intros t Ht. exists t. auto.
  - intros t Ht. eexists. split; [reflexivity|]. auto.
Defined.

#[export, refine] Instance TrackedDurable : DurableWritable Tracked := { wf_synced := tk_synced }.
Proof.
  - intros t d. cbn [wf_Append TrackedWritable]. destruct (FS_Append (tk_file t) d). cbn. lia.
  - intros t. cbn. lia.
  - intros t. cbn. lia.
  - intros t s t' [= _ <-] _. cbn. lia.
Defined.

Definition Tracked_new : Tracked := mkTracked FileState_new 0.

Definition tracked_env (log : FileState) : @EnvOps (bytes -> option bytes) Tracked SequentialFileImpl :=
  mkEnvOps (fun e _ => (e, (OK, Some Tracked_new))) (fun e _ => (e, (OK, Some Tracked_new)))
    (fun e _ => (OK, Some (mkSequentialFileImpl log 0))) (fun _ _ => (NotFound [] [], [])) (fun e _ => (OK, 0)) (fun e _ => e) (fun e _ _ => (e, OK)).

Definition tracked_denv : DbEnvOps (bytes -> option bytes) Tracked :=
  mkDbEnvOps _ _ (fun e n f m => if decide (m = n) then Some (wf_contents f) else e m) (fun _ _ => (OK, [])) (fun _ _ => true) (fun e _ => e) (fun e _ => (e, OK)).

#[global, refine] Instance TrackedOk (log : FileState) : FileStore (tracked_env log) tracked_denv := { fs_look := fun e => e }.
Proof.
  - intros e name. exists e, Tracked_new. split; [reflexivity|]. split; [exact FSInv_new|]. split; [reflexivity|]. reflexivity.
  - intros f Hf. exists f. auto.
  - intros e name f _. cbn [de_close tracked_denv]. rewrite decide_True by reflexivity. reflexivity.
  - intros e name f other Hne. cbn [de_close tracked_denv]. rewrite decide_False by exact Hne. reflexivity.
Defined.

Lemma tracked_opens log : opens_tables (U := BytewiseComparator) (K := NoLibraries) run_options (str "db") (tracked_env log) tracked_denv run_cache.
Proof. exact (opening_opens (U := BytewiseComparator) (K := NoLibraries) run_options (str "db") (tracked_env log) tracked_denv true run_policy). Qed.

(** A run: writer 1 asks for a sync and is acknowledged, writer 2 does not ask and has
    written its record when the machine stops, and a part of that record is left. *)

Definition two_ops (w : nat) : list Op := match w with 1%nat => [OpPut (str "k") (str "v")] | 2%nat => [OpDelete (str "b")] | _ => [] end.

Definition two_sync (w : nat) : bool := Nat.eqb w 1.

#[local] Abbreviation SDB := (@DBImpl (bytes -> option bytes) Tracked).

Definition new_db : SDB :=
  mkDBImpl (VersionSet_new (fun _ => None)) MemTable_new None (Writer_new Tracked_new) 3 [] ∅ WriteBatch_new SnapshotList_new ∅ false None ∅ OK false false 0.

Definition enter_db (w : nat) (db : SDB) : SDB := Write_enter db w (Some (WB_of (two_ops w))) (two_sync w).

Definition group_db (w : nat) (db : SDB) : WriteLocals * SDB := default (mkWriteLocals WB_Clear false 0 0, db) (Write_group w db).

Definition log_db (w : nat) (r : WriteLocals * SDB) : SDB := snd (default (OK, false, snd r) (Write_log (two_sync w) (fst r) (snd r))).

Definition first_group : WriteLocals * SDB := group_db 1 (enter_db 1 new_db).

Definition first_logged : SDB * Phase := (log_db 1 first_group, insert_begin 1 (fst first_group) false).

Definition first_applied : SDB := fst (insert_turn BytewiseComparator (insert_turn BytewiseComparator first_logged)).

Definition first_left : SDB :=
  default new_db (Write_leave 1 (wl_last_writer (fst first_group)) OK (Write_commit (fst first_group) OK false first_applied)).

Definition second_group : WriteLocals * SDB := group_db 2 (enter_db 2 first_left).

Definition second_logged : SDB * Phase := (log_db 2 second_group, insert_begin 2 (fst second_group) false).

Definition torn_log : FileState := mkFileState (blocks_ (tk_file (dest_ (db_log (fst second_logged))))) 30.

Definition first_trace : list Event := [EvEnter 1 (Some (WB_of (two_ops 1))) true; EvTau; EvTau; EvTau; EvTau; EvTau].

Definition second_trace : list Event := [EvEnter 2 (Some (WB_of (two_ops 2))) false; EvTau; EvTau; EvTau].

Lemma first_run : wrun BytewiseComparator 4194304 (str "db") (tracked_env torn_log) (new_db, PIdle) (first_trace ++ [EvLeave [1%nat] OK 1]) (first_left, PIdle).
Proof.
  apply wr_snoc with (c := (first_applied, PApplied 1 (fst first_group) OK false)).
  - unfold first_trace. eapply wrun_cons; [apply ws_enter; reflexivity|]. eapply wrun_cons; [apply (ws_begin _ _ _ _ _ 1%nat); reflexivity|].
    apply wrun_cons with (c1 := (snd first_group, PUnlocked 1 (fst first_group))); [apply ws_group with (s := OK) (db1 := enter_db 1 new_db); vm_compute; reflexivity|].
    apply wrun_cons with (c1 := first_logged).
    { apply (ws_log BytewiseComparator 4194304 (str "db") (tracked_env torn_log) _ _ _ OK false (log_db 1 first_group)). vm_compute. reflexivity. }
    eapply wrun_cons; [apply insert_turn_step; vm_compute; discriminate|]. eapply wrun_cons; [apply insert_turn_step; vm_compute; discriminate|].
    replace (first_applied, PApplied 1 (fst first_group) OK false) with (insert_turn BytewiseComparator (insert_turn BytewiseComparator first_logged)) by (vm_compute; reflexivity). constructor.
  - apply (ws_leave BytewiseComparator 4194304 (str "db") (tracked_env torn_log) first_applied 1%nat (fst first_group) OK false first_left [1]%nat); vm_compute; reflexivity.
Qed.

Lemma second_run : wrun BytewiseComparator 4194304 (str "db") (tracked_env torn_log) (first_left, PIdle) second_trace second_logged.
Proof.
  unfold second_trace. eapply wrun_cons; [apply ws_enter; vm_compute; reflexivity|]. eapply wrun_cons; [apply (ws_begin _ _ _ _ _ 2%nat); vm_compute; reflexivity|].
  apply wrun_cons with (c1 := (snd second_group, PUnlocked 2 (fst second_group))); [apply ws_group with (s := OK) (db1 := enter_db 2 first_left); vm_compute; reflexivity|].
  eapply wrun_cons; [|apply wr_nil]. apply (ws_log BytewiseComparator 4194304 (str "db") (tracked_env torn_log) _ _ _ OK false (log_db 2 second_group)). vm_compute. reflexivity.
Qed.

Lemma two_enter_ok w : w = 1%nat \/ w = 2%nat -> batch_holds (WB_of (two_ops w)) (two_ops w).
Proof. intros [->| ->]; (split; [exists 0; apply WB_of_rep; reflexivity|repeat constructor|reflexivity]). Qed.

Lemma small_tables file es (h : list (Z * Op)) : (forall x y, In x h -> In y h -> sz (table_bytes (U := BytewiseComparator) (K := NoLibraries) run_options file [x]) < 2 ^ 32 /\ sz (table_bytes (U := BytewiseComparator) (K := NoLibraries) run_options file [x; y]) < 2 ^ 32) ->
  sz (table_bytes (U := BytewiseComparator) (K := NoLibraries) run_options file []) < 2 ^ 32 -> length h = 2%nat -> NoDup es -> incl es h ->
  sz (table_bytes (U := BytewiseComparator) (K := NoLibraries) run_options file es) < 2 ^ 32.
Proof.
  intros H H0 Hl HN Hi. apply NoDup_ListNoDup in HN. pose proof (NoDup_incl_length HN Hi) as Hle. destruct es as [|x [|y [|z es]]]; [exact H0| | |cbn in Hle; lia].
  - apply (H x x); apply Hi; left; reflexivity.
  - apply (H x y); apply Hi; cbn; auto.
Qed.

Lemma acknowledged_writes_survive_witness : exists r save' edit' new_max o',
  @RecoverLogFile BytewiseComparator NoLibraries run_options 2097152 4194304 (str "db") true false _ Tracked SequentialFileImpl TrackedWritable MemSequential
    (tracked_env torn_log) tracked_denv OpenedIter RunIterOps run_cache 3 3 100 3 true false VE_Clear 0 (Opening_new (fun _ => None)) =
    Some (OK, save', edit', new_max, o') /\
  replay_result (U := BytewiseComparator) (K := NoLibraries) run_options (str "db") (tracked_env torn_log) tracked_denv false (Opening_new (fun _ => None)) o' 3 true false save' VE_Clear edit' r /\
  exists x, r = [(1, OpPut (str "k") (str "v"))] ++ x.
Proof.
  destruct (acknowledged_writes_survive BytewiseComparator NoLibraries _ Tracked SequentialFileImpl OpenedIter TrackedWritable TrackedReliable TrackedDurable MemSequential MemReliableSequential
    RunIterOps run_options 2097152 4194304 (str "db") true false (tracked_env torn_log) tracked_denv (TrackedOk torn_log) run_cache
    two_ops new_db first_trace [1]%nat OK 1 1%nat (WB_of (two_ops 1)) first_left PIdle second_trace (fst second_logged) (snd second_logged)
    BytewiseComparatorOk BytewiseComparatorShort NoLibrariesOk (fun _ => I)) with (o := Opening_new (W := Tracked) (fun _ : bytes => @None bytes))
    (file := mkSequentialFileImpl torn_log 0) (m := 30%nat) (ff := 3%nat) (n := 3%nat) (fuel := 100%nat) (log_number := 3) (last_log := true) (save := false) (edit := VE_Clear) (max_sequence := 0)
    as (q & j & save' & edit' & mx & o' & ER & HRes & HX & _).
  - apply tracked_opens.
  - split; try reflexivity; try (repeat constructor; fail). split; vm_compute; discriminate.
  - apply WOk_new, FSInv_new.
  - reflexivity.
  - reflexivity.
  - exact first_run.
  - reflexivity.
  - left. reflexivity.
  - left. reflexivity.
  - exact second_run.
  - intros H. repeat (destruct H as [H|H]; [discriminate H|]). exact H.
  - repeat (constructor; [first [exact I|apply two_enter_ok; auto]|]). constructor.
  - repeat (constructor; [first [exact I|discriminate]|]). constructor.
  - vm_compute. discriminate.
  - split; [vm_compute; discriminate|vm_compute; reflexivity|vm_compute; reflexivity].
  - intros e name e1 file es EN HN. injection EN as _ <-.
    match goal with |- incl es ?h -> _ => replace h with [(1, OpPut (str "k") (str "v")); (2, OpDelete (str "b"))] by (vm_compute; reflexivity) end. intros Hi.
    refine (small_tables _ _ _ _ _ _ HN Hi); [|vm_compute; reflexivity|reflexivity]. intros x y Hx Hy. destruct Hx as [<-|[<-|[]]], Hy as [<-|[<-|[]]]; split; vm_compute; reflexivity.
  - reflexivity.
  - split; [|vm_compute; split; discriminate]. split; [vm_compute; discriminate|repeat constructor; vm_compute; reflexivity|left; vm_compute; split; [reflexivity|discriminate]].
  - vm_compute. reflexivity.
  - vm_compute. lia.
  - vm_compute. discriminate.
  - vm_compute. reflexivity.
  - vm_compute. lia.
  - vm_compute. lia.
  - vm_compute. lia.
  - eexists _, save', edit', mx, o'. split; [exact ER|]. split; [exact HRes|]. exact HX.
Defined.
