(* ===== verification/DbCreate.v ===== *)
(** * Creating a database (db/db_impl.cc: NewDB, Recover, DB::Open)

    [Open] in an empty directory: the database that it returns is in the state from which
    the theorems on writing, on the manifest and on compactions by hand start. *)

From S2P Require Import Prelude Coding Compare DbFormat Logging FileName SkipList Arena MemTable WriteBatch Crc32c Env Log Filter Iterator Block Format TableBuilder Table VersionEdit Version VersionGet Compaction VersionSet VersionBuild Manifest ApplyEdit MemIter DbImpl DbWrite DbReadOk DbScan DbFlush DbFlushOk DbCompact DbManual DbOpen.
#[local] Open Scope Z_scope.
#[local] Open Scope ldb_scope.

Section Create.
Context (U : Comparator) {UOK : ComparatorOk U} (K : Compression) (options : Options) (comparator_name : bytes) (max_file_size write_buffer_size : Z) (dbname : bytes).
Context (paranoid_checks error_if_exists : bool).
Context {E W Q : Type} {WF : WritableFile W} {RW : ReliableWritable W} {SF : SequentialFile Q} {RS : ReliableSequential Q} (env : @EnvOps E W Q) (denv : DbEnvOps E W) {FS : FileStore env denv}.
Context {TI : Type} {TIO : Iterator TI} (tc_NewIterator : E -> ReadOptions -> Z -> Z -> TI).

(** A file system on which a database can be made. *)

Definition current_text (k : Z) : bytes := str "MANIFEST-" ++ decimal6 k ++ [z2b 10].

Record creates : Prop := {
  cr_current : forall e k, exists e', env_SetCurrentFile env e dbname k = (e', OK) /\ fs_look e' (CurrentFileName dbname) = Some (current_text k) /\
    forall m, m <> CurrentFileName dbname -> m <> TempFileName dbname k -> fs_look e' m = fs_look e m;
  cr_read : forall e n c, fs_look e n = Some c -> env_ReadFileToString env e n = (OK, c);
  cr_open : forall e n c, fs_look e n = Some c -> exists q, env_NewSequentialFile env e n = (OK, Some q) /\ sf_inv q /\ sf_rest q = c;
  cr_dir : forall e d m, fs_look (de_CreateDir denv e d) m = fs_look e m;
  cr_lock : forall e n, exists e', de_LockFile denv e n = (e', OK) /\ forall m, m <> n -> fs_look e' m = fs_look e m;
  cr_exists : forall e n, de_FileExists denv e n = true <-> fs_look e n <> None;
  cr_children : forall e, exists names, de_GetChildren denv e dbname = (OK, names) /\
    forall m number, In m names -> ParseFileName m = Some (number, kLogFile) -> fs_look e (dbname ++ str "/" ++ m) <> None
}.

Hypothesis HC : creates.
Hypothesis Hname : sz comparator_name < 2 ^ 32.

#[local] Abbreviation new_edit := (new_db_edit comparator_name).

Lemma child_ne (a b : bytes) : a <> b -> dbname ++ a <> dbname ++ b.
Proof. intros H E0. apply app_inv_head in E0. contradiction. Qed.

Lemma new_edit_ok : edit_ok new_edit.
Proof. split; cbn; unfold num_ok; try (split; [lia|congruence]); try (split; [exact Hname|congruence]); constructor. Qed.

(** ** [NewDB] *)

Lemma NewDB_ok e : exists e' out o1, NewDB comparator_name dbname env denv e = Some (OK, e') /\ Logged 0 (manifest_records [new_edit]) out o1 /\
  fs_look e' (DescriptorFileName dbname 1) = Some out /\ fs_look e' (CurrentFileName dbname) = Some (current_text 1) /\
  forall m, m <> DescriptorFileName dbname 1 -> m <> CurrentFileName dbname -> m <> TempFileName dbname 1 -> fs_look e' m = fs_look e m.
Proof.
  unfold NewDB. destruct (fs_create e (DescriptorFileName dbname 1)) as (e1 & f & -> & Hi & Hc & Ho). cbn [ok OK].
  destruct (AddRecord_ok (Writer_new f) (VE_EncodeTo new_edit []) (WOk_new f Hi)) as (w & out & -> & HW & Hcw & HE). unfold sync_and_close. cbn [ok OK].
  destruct (wf_sync_ok (dest_ w) (w_file _ HW)) as (f1 & E1 & Hi1 & Hc1). rewrite E1. cbn [ok OK]. destruct (fs_close f1 Hi1) as (f2 & E2 & Hi2 & Hc2). rewrite E2. cbn [ok OK].
  destruct (cr_current HC (de_close denv e1 (DescriptorFileName dbname 1) f2) 1) as (e2 & -> & HCur & Hk).
  exists e2, out, (block_offset_ w). split; [reflexivity|]. split; [cbn [manifest_records map]; rewrite <- (app_nil_r out); econstructor; [exact HE|constructor]|].
  assert (Hne : DescriptorFileName dbname 1 <> CurrentFileName dbname /\ DescriptorFileName dbname 1 <> TempFileName dbname 1) by (split; apply child_ne; discriminate).
  split; [|split; [exact HCur|]].
  - rewrite Hk by apply Hne. rewrite fs_put by exact Hi2. rewrite Hc2, Hc1, Hcw. cbn [Writer_new dest_]. rewrite Hc. reflexivity.
  - intros m H1 H2 H3. rewrite Hk by assumption. rewrite fs_put_ne by exact H1. apply Ho, H1.
Qed.

(** ** Reading the manifest back *)

(** The version set of a new database. *)

Definition first_versions (e : E) : @VersionSet E W :=
  with_numbers (AppendVersion (VersionSet_new e) (Finalize [] Version_new)) 3 2 0 0 0.

Lemma Recover_new e out o1 n fuel save : Logged 0 (manifest_records [new_edit]) out o1 -> fs_look e (DescriptorFileName dbname 1) = Some out ->
  fs_look e (CurrentFileName dbname) = Some (current_text 1) -> (1 < n)%nat -> (S (length (VE_EncodeTo new_edit [])) < fuel)%nat ->
  Recover U comparator_name max_file_size false dbname env n fuel (VersionSet_new e) save = Some (OK, true, first_versions e).
Proof.
  intros HL HM HCur Hn Hf. destruct (cr_open HC _ _ _ HM) as (q & EQ & Hqi & Hqr).
  assert (HD : Drains fuel (Reader_new q (Some []) true 0) (manifest_records [new_edit])).
  { destruct (manifest_drains [new_edit] [] out [] _ _ HL (Logged_nil _) q (length out) fuel Hqi) as (j & Hd & _);
      [rewrite app_nil_r, take_ge by lia; exact Hqr|lia|lia| |rewrite take_nil, app_nil_r in Hd; exact Hd].
    constructor; [exact Hf|constructor]. }
  unfold Recover. change (vs_env (VersionSet_new e)) with e. rewrite (cr_read HC _ _ _ HCur). cbn [ok OK negb].
  change (match list.last (current_text 1) with Some c => negb (b2z c =? 10) | None => true end) with false. cbv beta iota zeta.
  change (take (length (current_text 1) - 1) (current_text 1)) with (str "MANIFEST-000001").
  change (dbname ++ str "/" ++ str "MANIFEST-000001") with (DescriptorFileName dbname 1). rewrite EQ. cbn [ok OK negb].
  rewrite (recover_loop_ok comparator_name fuel [new_edit]) by (first [constructor; [split; [exact new_edit_ok|intros _; reflexivity]|constructor]|exact HD|reflexivity|exact Hn]).
  reflexivity.
Qed.

(** ** [DBImpl::Recover] *)

Definition no_logs (e : E) : Prop := forall m number, ParseFileName m = Some (number, kLogFile) -> fs_look e (dbname ++ str "/" ++ m) = None.

Lemma scan_none (vs : @VersionSet E W) names : (forall m number, In m names -> ParseFileName m <> Some (number, kLogFile)) ->
  forall expected : gset Z, exists expected' : gset Z, expected' ⊆ expected /\
    fold_left (fun '(expected, logs) f =>
      match ParseFileName f with
      | Some (number, type) =>
          (expected ∖ {[number]},
           if bool_decide (type = kLogFile) && ((vs_log_number vs <=? number) || (number =? vs_prev_log_number vs))
           then logs ++ [number] else logs)
      | None => (expected, logs)
      end) names (expected, []) = (expected', []).
Proof.
  induction names as [|f names IH]; intros Hn expected; [exists expected; split; reflexivity|]. cbn [fold_left].
  assert (Hn' : forall m number, In m names -> ParseFileName m <> Some (number, kLogFile)) by (intros m k Hm; apply Hn; right; exact Hm).
  destruct (ParseFileName f) as [[number type]|] eqn:EP; [|apply (IH Hn')].
  rewrite bool_decide_false by (intros ->; exact (Hn f number (or_introl eq_refl) EP)). cbn [andb].
  destruct (IH Hn' (expected ∖ {[number]})) as (x & Hx & Ex). exists x. split; [set_solver|exact Ex].
Qed.

Lemma scan_files_none e names : (forall m number, In m names -> ParseFileName m <> Some (number, kLogFile)) ->
  scan_files (first_versions e) names = (∅, []).
Proof.
  intros Hn. unfold scan_files. destruct (scan_none (first_versions e) names Hn (AddLiveFiles (first_versions e) ∅)) as (x & Hx & ->).
  change (AddLiveFiles (first_versions e) ∅) with (∅ : gset Z) in Hx. replace x with (∅ : gset Z) by set_solver. reflexivity.
Qed.

(** What a directory without a database and without logs becomes. *)

Lemma DBImpl_Recover_new ff n fuel e edit : (1 < n)%nat -> (S (length (VE_EncodeTo new_edit [])) < fuel)%nat ->
  fs_look e (CurrentFileName dbname) = None -> no_logs e ->
  exists e', DBImpl_Recover U K options comparator_name max_file_size write_buffer_size dbname paranoid_checks false true error_if_exists env denv tc_NewIterator ff n fuel edit false (Opening_new e) =
    Some (OK, edit, true, mkOpening (first_versions e') ∅ None None 0).
Proof.
  intros Hn Hf HCur HNo. unfold DBImpl_Recover, Opening_new. cbn [o_versions]. change (vs_env (VersionSet_new e)) with e.
  destruct (cr_lock HC (de_CreateDir denv e dbname) (LockFileName dbname)) as (e1 & EL & Hk1). rewrite EL. cbn [ok OK].
  assert (H1 : forall m, m <> LockFileName dbname -> fs_look e1 m = fs_look e m) by (intros m Hm; rewrite Hk1 by exact Hm; apply (cr_dir HC)).
  assert (HX : de_FileExists denv e1 (CurrentFileName dbname) = false).
  { apply not_true_is_false. rewrite (cr_exists HC), H1, HCur by (apply child_ne; discriminate). auto. }
  unfold create_or_refuse. rewrite HX. cbn [negb].
  destruct (NewDB_ok e1) as (e2 & out & o1 & -> & HL & HM & HCu & Hk2). cbn [ok OK]. exists e2.
  change (vs_with_env (VersionSet_new e) e2) with (@VersionSet_new E W e2).
  rewrite (Recover_new e2 out o1 n fuel false HL HM HCu Hn Hf). cbn [ok OK].
  change (on_versions _ _) with (mkOpening (first_versions e2) ∅ None None 0). unfold recover_rest. cbn [o_versions].
  destruct (cr_children HC e2) as (names & EN & Hch). change (vs_env (first_versions e2)) with e2. cbv zeta.  rewrite EN. cbn [ok OK].
  rewrite scan_files_none; [rewrite decide_True by reflexivity; reflexivity|].
  intros m k Hm HP. apply (Hch m k Hm HP).
  assert (Hne : forall s t, ParseFileName s = t -> t <> Some (k, kLogFile) -> dbname ++ str "/" ++ m <> dbname ++ str "/" ++ s).
  { intros s t Hs Ht E0. do 2 apply app_inv_head in E0. congruence. }
  rewrite Hk2; [rewrite H1; [apply (HNo m k HP)|]| | |].
  - apply (Hne (str "LOCK") (Some (0, kDBLockFile))); [reflexivity|congruence].
  - apply (Hne (str "MANIFEST-000001") (Some (1, kDescriptorFile))); [reflexivity|congruence].
  - apply (Hne (str "CURRENT") (Some (0, kCurrentFile))); [reflexivity|congruence].
  - apply (Hne (str "000001.dbtmp") (Some (1, kTempFile))); [reflexivity|congruence].
Qed.

(** ** [DB::Open] *)

Lemma first_current e : current (first_versions e) = Finalize [] Version_new /\ ids_ok (first_versions e) /\ vs_heap (first_versions e) = [] /\
  vs_compact_pointer (first_versions e) = vs_compact_pointer (@VersionSet_new E W e).
Proof. split; [reflexivity|]. split; [constructor; [cbn; lia|constructor]|split; reflexivity]. Qed.

Lemma first_level e l : current_level (first_versions e) l = [].
Proof. unfold current_level. rewrite (level_metas_files _ _ Version_new) by apply Finalize_files. apply level_metas_new. Qed.

Definition first_log (e : E) : @VersionSet E W := vs_with_env (snd (NewFileNumber (first_versions e))) e.

#[local] Abbreviation log_edit_new := (SetLogNumber 3 (SetPrevLogNumber 0 (SetLogNumber 3 VE_Clear))).

Lemma no_files_fit (base : nat -> list FileMetaData) e : (forall l, base l = []) -> new_files_ e = [] -> edits_fit (U := U) base [e].
Proof.
  intros HB HE. assert (HA : forall l, added_at [e] l = []) by (intros l; unfold added_at, new_at; cbn; rewrite HE; reflexivity).
  split; intros level; rewrite HA, ?HB; [intros a b []|constructor|intros a b []].
Qed.

Lemma first_state e : manifest_state (U := U) comparator_name (first_log e) [].
Proof.
  destruct (first_current e) as (EC & EI & EH & EP). apply ms_none; [reflexivity|exact EI| |split].
  - apply (version_files_ok_files _ _ Version_new); [apply Finalize_files|apply version_new_ok].
  - exact Hname.
  - apply List.Forall_forall. intros k Hk. apply repeat_spec in Hk. auto.
  - intros level f Hf. change (In f (current_level (first_versions e) level)) in Hf. rewrite first_level in Hf. destruct Hf.
Qed.

Lemma first_admissible e : admissible (U := U) comparator_name (first_log e) [] (fill_edit (first_log e) log_edit_new).
Proof.
  split.
  - split; cbn; unfold num_ok; change (u64 (3 + 1)) with 4; first [apply Forall_nil_2|apply SSorted_nil|split; first [reflexivity|lia|discriminate]].
  - intros H. discriminate H.
  - apply no_files_fit; [apply first_level|reflexivity].
  - apply no_files_fit; reflexivity.
  - intros level a b _ [].
Qed.

Lemma creates_reliable : env_reliable dbname env.
Proof.
  split.
  - intros e name. destruct (fs_create e name) as (e' & f & E1 & Hi & Hc & _). eauto.
  - intros e k. destruct (cr_current HC e k) as (e' & -> & _). reflexivity.
Qed.

Lemma tracks_env (vs : @VersionSet E W) edits w e : tracks (U := U) comparator_name vs edits w ->
  tracks (U := U) comparator_name (with_descriptor vs e (vs_descriptor_log vs)) edits w.
Proof. intros [[A1 A2 A3 A4 A5] B1 B2 B3 B4 B5 B6 B7]. split; [split; assumption|assumption..]. Qed.

(** What the last two calls of [Open] leave alone. *)

Lemma open_end (db : @DBImpl E W) : ok (db_bg_error db) = true -> exists e b,
  let db1 := with_env db e in
  MaybeScheduleCompaction (RemoveObsoleteFiles dbname env denv db) = with_background db1 b (db_manual db) (db_manual_objects db) (db_bg_error db).
Proof.
  intros He. unfold RemoveObsoleteFiles. rewrite He. cbn [negb]. destruct (de_GetChildren denv (db_env db) dbname) as [s names].
  eexists (fold_left _ _ _). unfold MaybeScheduleCompaction. repeat (case_match; [exists (db_scheduled db); reflexivity|]). exists true. reflexivity.
Qed.

Definition new_database (db : @DBImpl E W) : Prop :=
  db_ready U [] db /\ WOk (db_log db) /\ wf_contents (dest_ (db_log db)) = [] /\ block_offset_ (db_log db) = 0 /\ vs_last_sequence (db_versions db) = 0 /\
  db_imm db = None /\ (forall level, (level < kNumLevels)%nat -> current_level (db_versions db) level = []) /\
  (exists edits w, tracks (U := U) comparator_name (db_versions db) edits w) /\ unused db.

Lemma open_new ff n fuel e : (1 < n)%nat -> (S (length (VE_EncodeTo new_edit [])) < fuel)%nat ->
  fs_look e (CurrentFileName dbname) = None -> no_logs e ->
  exists db, Open U K options comparator_name max_file_size write_buffer_size dbname paranoid_checks false true error_if_exists env denv tc_NewIterator ff n fuel e =
    Some (OK, Some db) /\ new_database db.
Proof.
  intros Hn Hf HCur HNo. unfold Open. destruct (DBImpl_Recover_new ff n fuel e VE_Clear Hn Hf HCur HNo) as (e1 & ->). cbn [ok OK].
  unfold new_log. cbn [o_mem o_versions o_pending].
  destruct (fs_create e1 (LogFileName dbname 3)) as (e2 & f & EF & Hi & Hc & _).
  change (NewFileNumber (first_versions e1)) with (3, snd (NewFileNumber (first_versions e1))). cbv beta iota.
  change (vs_env (snd (NewFileNumber (first_versions e1)))) with e1. rewrite EF. cbn [ok OK andb o_logfile_number o_versions].
  change (vs_with_env (snd (NewFileNumber (first_versions e1))) e2) with (first_log e2).
  destruct (log_and_apply_tracks comparator_name dbname env (first_log e2) [] log_edit_new creates_reliable (first_state e2) (first_admissible e2))
    as (vs & edits & w & EL & HT & HS & Hs & _). rewrite EL. cbn [option_map fst snd ok OK opened on_versions o_mem o_log o_versions o_pending o_logfile_number].
  match goal with |- context [MaybeScheduleCompaction (RemoveObsoleteFiles _ _ _ ?d)] => set (db := d); destruct (open_end db eq_refl) as (e3 & b & E3) end.
  rewrite E3. eexists. split; [reflexivity|]. rewrite last_set_snoc in Hs by reflexivity. injection Hs as Hs.
  split; [|split; [|split; [|split; [|split; [|split; [|split; [|split]]]]]]].
  - split.
    + reflexivity.
    + reflexivity.
    + reflexivity.
    + split; constructor.
    + constructor.
    + change (0 <= vs_last_sequence vs). rewrite Hs. cbn. lia.
    + split; reflexivity || discriminate.
  - apply WOk_new, Hi.
  - exact Hc.
  - reflexivity.
  - exact Hs.
  - reflexivity.
  - intros level Hl. change (current_level vs level = []). pose proof (ho_sets _ _ (tk_holds _ _ _ _ HT) level Hl) as HX.
    destruct (current_level vs level) as [|g l]; [reflexivity|]. exfalso. assert (HG : In g (g :: l)) by (left; reflexivity).
    apply (proj1 (HX g)), replay_snoc in HG as [[HG _]|[]]. apply (HS level Hl) in HG. change (In g (current_level (first_versions e2) level)) in HG. rewrite first_level in HG. destruct HG.
  - exists (edits ++ [fill_edit (first_log e2) log_edit_new]), w. apply tracks_env. exact HT.
  - split; [reflexivity|split; [reflexivity|]]. intros [H|H]; elim H; reflexivity.
Qed.

End Create.

(** ** A file system that keeps its files *)

Definition Disk : Type := list (bytes * bytes).

Definition disk_look (d : Disk) (n : bytes) : option bytes := snd <$> find (fun p => bool_decide (fst p = n)) d.

Definition disk_put (d : Disk) (n c : bytes) : Disk := (n, c) :: d.

Lemma disk_put_eq d n c : disk_look (disk_put d n c) n = Some c.
Proof. unfold disk_look, disk_put. cbn [find fst]. rewrite bool_decide_true by reflexivity. reflexivity. Qed.

Lemma disk_put_ne d n c m : m <> n -> disk_look (disk_put d n c) m = disk_look d m.
Proof. intros H. unfold disk_look, disk_put. cbn [find fst]. rewrite bool_decide_false by congruence. reflexivity. Qed.

Definition file_of (c : bytes) : FileState := snd (@wf_Append _ MemWritable FileState_new c).

Lemma file_of_ok c : FSInv (file_of c) /\ FS_contents (file_of c) = c.
Proof.
  destruct (@wf_append_ok _ _ MemReliableWritable FileState_new c FSInv_new) as (f & E & HI & HC). unfold file_of. rewrite E. split; [exact HI|exact HC].
Qed.

Definition disk_env : @EnvOps Disk FileState SequentialFileImpl :=
  mkEnvOps (fun d _ => (d, (OK, Some FileState_new))) (fun d n => (d, (OK, Some (file_of (default [] (disk_look d n))))))
    (fun d n => match disk_look d n with Some c => (OK, Some (mkSequentialFileImpl (file_of c) 0)) | None => (NotFound n [], None) end)
    (fun d n => match disk_look d n with Some c => (OK, c) | None => (NotFound n [], []) end)
    (fun d n => match disk_look d n with Some c => (OK, sz c) | None => (NotFound n [], 0) end)
    (fun d n => List.filter (fun p => negb (bool_decide (fst p = n))) d)
    (fun d dbname k => (disk_put d (CurrentFileName dbname) (current_text k), OK)).

Definition disk_denv : DbEnvOps Disk FileState :=
  mkDbEnvOps _ _ (fun d n f => disk_put d n (wf_contents f))
    (fun d dir => (OK, List.filter (fun m => match disk_look d (dir ++ str "/" ++ m) with Some _ => true | None => false end)
                         (map (fun p => drop (length (dir ++ str "/")) (fst p)) d)))
    (fun d n => match disk_look d n with Some _ => true | None => false end) (fun d _ => d) (fun d n => (disk_put d n [], OK)).

#[global, refine] Instance DiskStore : FileStore disk_env disk_denv := { fs_look := disk_look }.
Proof.
  - intros d n. exists d, FileState_new. split; [reflexivity|]. split; [exact FSInv_new|split; reflexivity].
  - intros f Hf. exists f. auto.
  - intros d n f _. apply disk_put_eq.
  - intros d n f m. apply disk_put_ne.
Defined.

Lemma disk_creates dbname : creates dbname disk_env disk_denv.
Proof.
  split.
  - intros d k. eexists. split; [reflexivity|]. split; [apply disk_put_eq|]. intros m Hm _. apply disk_put_ne, Hm.
  - intros d n c Hl. cbn in Hl |- *. rewrite Hl. reflexivity.
  - intros d n c Hl. cbn in Hl |- *. rewrite Hl. eexists. split; [reflexivity|]. destruct (file_of_ok c) as [HI HC]. pose proof (FS_contents_size _ HI) as Hs.
    split; [|exact HC]. split; [exact HI|]. change (0 <= 0 <= size_ (file_of c)). rewrite <- Hs. split; [reflexivity|apply sz_nonneg].
  - reflexivity.
  - intros d n. eexists. split; [reflexivity|]. intros m. apply disk_put_ne.
  - intros d n. cbn. destruct (disk_look d n); split; congruence.
  - intros d. eexists. split; [reflexivity|]. intros m k Hm _. apply filter_In in Hm as [_ Hm]. cbn. destruct (disk_look d _); congruence.
Qed.

(** ** Property *)

(** C8.  Creating a database.  DB::Open with create_if_missing, in a directory without CURRENT
    and without log files, on a file system that keeps what is closed: it returns OK and a
    database that is empty (no file in any level, no memtable being written out, last sequence
    0, an empty log), whose manifest records the version set that it has in memory, and which
    is in the state where the write path, the compactions by hand and the recovery after a crash
    start.  On the way NewDB writes the first manifest and CURRENT, which Recover reads back; one
    record and its length are the only bounds on the loops. *)
Theorem new_database_ready : forall (U : Comparator) K (E W Q TI : Type) (WF : WritableFile W) (RW : ReliableWritable W) (SF : SequentialFile Q) (RS : ReliableSequential Q) (TIO : Iterator TI)
    options comparator_name max_file_size write_buffer_size dbname paranoid_checks error_if_exists (env : @EnvOps E W Q) (denv : DbEnvOps E W) (FS : FileStore env denv)
    tc_NewIterator flush_fuel n fuel (e : E),
  ComparatorOk U -> creates dbname env denv -> sz comparator_name < 2 ^ 32 ->
  fs_look e (CurrentFileName dbname) = None -> no_logs dbname env denv e ->
  (1 < n)%nat -> (S (length (VE_EncodeTo (new_db_edit comparator_name) [])) < fuel)%nat ->
  exists db, Open U K options comparator_name max_file_size write_buffer_size dbname paranoid_checks false true error_if_exists env denv tc_NewIterator flush_fuel n fuel e =
      Some (OK, Some db) /\
    new_database U comparator_name db.
Proof. intros. eapply open_new; eassumption. Qed.

Lemma new_database_ready_witness : exists db,
  @Open BytewiseComparator NoLibraries run_options (str "leveldb.BytewiseComparator") 2097152 4194304 (str "db") true false true false Disk FileState SequentialFileImpl MemWritable MemSequential
    disk_env disk_denv ListIter (ListIterOps BytewiseComparator) (fun _ _ _ _ => mkListIter [] 0) 1 2 100 [] = Some (OK, Some db) /\
  new_database BytewiseComparator (str "leveldb.BytewiseComparator") db.
Proof.
  apply new_database_ready with (FS := DiskStore) (RS := MemReliableSequential).
  - exact BytewiseComparatorOk.
  - apply disk_creates.
  - reflexivity.
  - reflexivity.
  - intros m k _. reflexivity.
  - lia.
  - vm_compute. lia.
Defined.
