(* ===== verification/Repair.v ===== *)
(** * Repairing a database (db/repair.cc)

    [Repairer]: the files found, the logs turned into tables, the tables scanned and,
    where reading one fails, copied, and the new descriptor.  Messages are left out. *)

From S2P Require Import Prelude Coding Compare DbFormat Logging FileName SkipList Arena MemTable WriteBatch Crc32c Env EnvPosix Log Filter Iterator Block Format TableBuilder Table VersionEdit Version Compaction VersionSet MemIter DbImpl DbFlush DbOpen.
#[local] Open Scope Z_scope.
#[local] Open Scope ldb_scope.

Record TableInfo := mkTableInfo { ti_meta : FileMetaData; ti_max_sequence : Z }.

(** What a scan of a table collects. *)

Record Scanned := mkScanned { sc_empty : bool; sc_smallest : bytes; sc_largest : bytes; sc_max_sequence : Z }.

Section Repair.
Context (U : Comparator) (K : Compression) (options : Options) (comparator_name : bytes) (dbname : bytes) (paranoid_checks : bool).
Context {E W Q : Type} {WF : WritableFile W} {SF : SequentialFile Q} (env : @EnvOps E W Q) (denv : DbEnvOps E W).
Context (env_RenameFile : E -> bytes -> bytes -> E * Status).
Context {TI : Type} {TIO : Iterator TI} (tc_NewIterator : E -> ReadOptions -> Z -> Z -> TI).

#[local] Abbreviation ICmp := (InternalKeyComparator U).

Record Repairer := mkRepairer {
  rr_env : E;
  rr_manifests : list bytes;
  rr_table_numbers : list Z;
  rr_logs : list Z;
  rr_tables : list TableInfo;
  rr_next_file_number : Z
}.

Definition Repairer_new (e : E) : Repairer := mkRepairer e [] [] [] [] 1.

Definition rr_with_env (r : Repairer) (e : E) : Repairer :=
  mkRepairer e (rr_manifests r) (rr_table_numbers r) (rr_logs r) (rr_tables r) (rr_next_file_number r).

Definition take_number (r : Repairer) : Z * Repairer :=
  (rr_next_file_number r, mkRepairer (rr_env r) (rr_manifests r) (rr_table_numbers r) (rr_logs r) (rr_tables r) (u64 (rr_next_file_number r + 1))).

Definition push_table (r : Repairer) (t : TableInfo) : Repairer :=
  mkRepairer (rr_env r) (rr_manifests r) (rr_table_numbers r) (rr_logs r) (rr_tables r ++ [t]) (rr_next_file_number r).

(** ** [FindFiles] *)

Definition find_file (r : Repairer) (filename : bytes) : Repairer :=
  match ParseFileName filename with
  | None => r
  | Some (number, kind) =>
      if bool_decide (kind = kDescriptorFile)
      then mkRepairer (rr_env r) (rr_manifests r ++ [filename]) (rr_table_numbers r) (rr_logs r) (rr_tables r) (rr_next_file_number r)
      else
        let next := if rr_next_file_number r <? u64 (number + 1) then u64 (number + 1) else rr_next_file_number r in
        match kind with
        | kLogFile => mkRepairer (rr_env r) (rr_manifests r) (rr_table_numbers r) (rr_logs r ++ [number]) (rr_tables r) next
        | kTableFile => mkRepairer (rr_env r) (rr_manifests r) (rr_table_numbers r ++ [number]) (rr_logs r) (rr_tables r) next
        | _ => mkRepairer (rr_env r) (rr_manifests r) (rr_table_numbers r) (rr_logs r) (rr_tables r) next
        end
  end.

Definition FindFiles (r : Repairer) : Status * Repairer :=
  let '(status, filenames) := de_GetChildren denv (rr_env r) dbname in
  if negb (ok status) then (status, r)
  else
    match filenames with
    | [] => (IOError dbname (str "repair found no files"), r)
    | _ => (status, fold_left find_file filenames r)
    end.

(** ** [ArchiveFile] *)

Definition lost_dir (fname : bytes) : bytes := match rfind slash fname with Some i => take i fname | None => [] end ++ str "/lost".

Definition lost_file (fname : bytes) : bytes := lost_dir fname ++ str "/" ++ match rfind slash fname with Some i => drop (S i) fname | None => fname end.

Definition ArchiveFile (r : Repairer) (fname : bytes) : Repairer :=
  rr_with_env r (fst (env_RenameFile (de_CreateDir denv (rr_env r) (lost_dir fname)) fname (lost_file fname))).

(** ** [ConvertLogToTable] *)

(** The records that can be read go into the memtable; the rest is passed by. *)

Fixpoint convert_loop (n fuel : nat) (reader : Reader Q) (mem : MemTable) : option MemTable :=
  match n with
  | O => None
  | S n =>
      match ReadRecord fuel reader with
      | None => None
      | Some (None, _) => Some mem
      | Some (Some record, reader) =>
          if sz record <? 12 then convert_loop n fuel reader mem
          else
            match WBI_InsertInto U (WBI_SetContents record) mem with
            | None => None
            | Some (_, mem) => convert_loop n fuel reader mem
            end
      end
  end.

Definition ConvertLogToTable (n fuel table_fuel : nat) (r : Repairer) (log : Z) : option (Status * Repairer) :=
  match env_NewSequentialFile env (rr_env r) (LogFileName dbname log) with
  | (status, Some lfile) =>
      if negb (ok status) then Some (status, r)
      else
        match convert_loop n fuel (Reader_new lfile (Some []) false 0) MemTable_new with
        | None => None
        | Some mem =>
            let '(number, r) := take_number r in
            match BuildTable U K options dbname env denv tc_NewIterator (H := MemTableIteratorOps U) table_fuel (MemTable_NewIterator mem)
                    (mkFile 0 (1 << 30) number 0 [] []) (rr_env r) with
            | None => None
            | Some (status, meta, e) =>
                let r := rr_with_env r e in
                Some (status,
                  if ok status && (0 <? f_file_size meta)
                  then mkRepairer (rr_env r) (rr_manifests r) (rr_table_numbers r ++ [f_number meta]) (rr_logs r) (rr_tables r) (rr_next_file_number r)
                  else r)
            end
        end
  | (status, None) => Some (status, r)
  end.

Fixpoint convert_logs (n fuel table_fuel : nat) (logs : list Z) (r : Repairer) : option Repairer :=
  match logs with
  | [] => Some r
  | log :: logs =>
      match ConvertLogToTable n fuel table_fuel r log with
      | None => None
      | Some (_, r) => convert_logs n fuel table_fuel logs (ArchiveFile r (LogFileName dbname log))
      end
  end.

Definition ConvertLogFilesToTables (n fuel table_fuel : nat) (r : Repairer) : option Repairer := convert_logs n fuel table_fuel (rr_logs r) r.

(** ** [RepairTable] *)

Definition NewTableIterator (r : Repairer) (meta : FileMetaData) : TI :=
  tc_NewIterator (rr_env r) (mkReadOptions paranoid_checks true) (f_number meta) (f_file_size meta).

(** The copy of what can be read: the builder and the number of entries. *)

Fixpoint copy_loop (fuel : nat) (iter : TI) (builder : Rep W) (counter : Z) : option (Rep W * Z) :=
  match fuel with
  | O => None
  | S fuel => if iValid iter then copy_loop fuel (iNext iter) (TB_Add ICmp K builder (iKey iter) (iValue iter)) (s32 (counter + 1)) else Some (builder, counter)
  end.

(** The end of the copy: the file closed, put in the place of the table, or removed. *)

Definition RepairTable_end (copy : bytes) (counter : Z) (s : Status) (file : W) (t : TableInfo) (r : Repairer) : Repairer :=
  let '(s, file) := if ok s then wf_Close file else (s, file) in
  let r := rr_with_env r (de_close denv (rr_env r) copy file) in
  let '(s, r) :=
    if (0 <? counter) && ok s then
      let '(e, s) := env_RenameFile (rr_env r) copy (TableFileName dbname (f_number (ti_meta t))) in
      let r := rr_with_env r e in
      (s, if ok s then push_table r t else r)
    else (s, r) in
  if negb (ok s) then rr_with_env r (env_RemoveFile env (rr_env r) copy) else r.

Definition RepairTable (fuel : nat) (src : bytes) (t : TableInfo) (r : Repairer) : option Repairer :=
  let '(number, r) := take_number r in
  let copy := TableFileName dbname number in
  match env_NewWritableFile env (rr_env r) copy with
  | (e, (s, Some file)) =>
      let r := rr_with_env r e in
      if negb (ok s) then Some r
      else
        match copy_loop fuel (iSeekToFirst (NewTableIterator r (ti_meta t))) (TableBuilder_new options file) 0 with
        | None => None
        | Some (builder, counter) =>
            let r := ArchiveFile r src in
            let '(s, builder) := if counter =? 0 then (s, builder) else TB_Finish ICmp K builder in
            let t := if negb (counter =? 0) && ok s then mkTableInfo (set_size (ti_meta t) (FileSize builder)) (ti_max_sequence t) else t in
            Some (RepairTable_end copy counter s (r_file builder) t r)
        end
  | (e, (_, None)) => Some (rr_with_env r e)
  end.

(** ** [ScanTable] *)

Definition scan_entry (sc : Scanned) (key : bytes) : Scanned :=
  match ParseInternalKey key with
  | None => sc
  | Some parsed =>
      mkScanned false (if sc_empty sc then key else sc_smallest sc) key
        (if sc_max_sequence sc <? sequence parsed then sequence parsed else sc_max_sequence sc)
  end.

Fixpoint scan_loop (fuel : nat) (iter : TI) (sc : Scanned) : option (TI * Scanned) :=
  match fuel with
  | O => None
  | S fuel => if iValid iter then scan_loop fuel (iNext iter) (scan_entry sc (iKey iter)) else Some (iter, sc)
  end.

Definition table_size (r : Repairer) (number : Z) : Status * bytes * Z :=
  let fname := TableFileName dbname number in
  let '(status, size) := env_GetFileSize env (rr_env r) fname in
  if negb (ok status) then
    let fname := SSTTableFileName dbname number in
    let '(s2, size) := env_GetFileSize env (rr_env r) fname in
    (if ok s2 then OK else status, fname, size)
  else (status, fname, size).

Definition ScanTable (fuel : nat) (r : Repairer) (number : Z) : option Repairer :=
  let '(status, fname, file_size) := table_size r number in
  if negb (ok status) then Some (ArchiveFile (ArchiveFile r (TableFileName dbname number)) (SSTTableFileName dbname number))
  else
    let meta := mkFile 0 (1 << 30) number file_size [] [] in
    match scan_loop fuel (iSeekToFirst (NewTableIterator r meta)) (mkScanned true [] [] 0) with
    | None => None
    | Some (iter, sc) =>
        let t := mkTableInfo (set_bounds meta (sc_smallest sc) (sc_largest sc)) (sc_max_sequence sc) in
        if ok (iStatus iter) then Some (push_table r t) else RepairTable fuel fname t r
    end.

Fixpoint scan_tables (fuel : nat) (numbers : list Z) (r : Repairer) : option Repairer :=
  match numbers with
  | [] => Some r
  | number :: numbers => match ScanTable fuel r number with Some r => scan_tables fuel numbers r | None => None end
  end.

Definition ExtractMetaData (fuel : nat) (r : Repairer) : option Repairer := scan_tables fuel (rr_table_numbers r) r.

(** ** [WriteDescriptor] *)

Definition max_of_tables (tables : list TableInfo) : Z :=
  fold_left (fun max_sequence t => if max_sequence <? ti_max_sequence t then ti_max_sequence t else max_sequence) tables 0.

Definition repair_edit (r : Repairer) : VersionEdit :=
  let edit := SetLastSequence (max_of_tables (rr_tables r))
                (SetNextFile (rr_next_file_number r) (SetLogNumber 0 (SetComparatorName comparator_name VE_Clear))) in
  fold_left (fun edit t => AddFile 0 (f_number (ti_meta t)) (f_file_size (ti_meta t)) (f_smallest (ti_meta t)) (f_largest (ti_meta t)) edit) (rr_tables r) edit.

(** The new manifest takes the place of the old ones. *)

Definition install_descriptor (tmp : bytes) (r : Repairer) : Status * Repairer :=
  let r := fold_left (fun r manifest => ArchiveFile r (dbname ++ str "/" ++ manifest)) (rr_manifests r) r in
  let '(e, status) := env_RenameFile (rr_env r) tmp (DescriptorFileName dbname 1) in
  if ok status then
    let '(e, status) := env_SetCurrentFile env e dbname 1 in (status, rr_with_env r e)
  else (status, rr_with_env r (env_RemoveFile env e tmp)).

Definition WriteDescriptor (r : Repairer) : option (Status * Repairer) :=
  let tmp := TempFileName dbname 1 in
  match env_NewWritableFile env (rr_env r) tmp with
  | (e, (status, Some file)) =>
      let r := rr_with_env r e in
      if negb (ok status) then Some (status, r)
      else
        match AddRecord (Writer_new file) (VE_EncodeTo (repair_edit r) []) with
        | None => None
        | Some (status, log) =>
            let '(status, file) := if ok status then wf_Close (dest_ log) else (status, dest_ log) in
            let r := rr_with_env r (de_close denv (rr_env r) tmp file) in
            Some (if negb (ok status) then (status, rr_with_env r (env_RemoveFile env (rr_env r) tmp)) else install_descriptor tmp r)
        end
  | (e, (status, None)) => Some (status, rr_with_env r e)
  end.

Definition Run (n fuel table_fuel : nat) (r : Repairer) : option (Status * Repairer) :=
  let '(status, r) := FindFiles r in
  if negb (ok status) then Some (status, r)
  else
    match ConvertLogFilesToTables n fuel table_fuel r with
    | None => None
    | Some r =>
        match ExtractMetaData table_fuel r with
        | None => None
        | Some r => WriteDescriptor r
        end
    end.

Definition RepairDB (n fuel table_fuel : nat) (e : E) : option Status := option_map fst (Run n fuel table_fuel (Repairer_new e)).

End Repair.
