(* ===== verification/RepairOk.v ===== *)
(** * What repair makes of a database

    A readable table is taken over with the bounds and the largest sequence number
    of its point entries; the descriptor that is written recovers to exactly the
    tables taken over.  Tombstones of ranges are not seen by the scan. *)

From S2P Require Import Prelude Coding Compare DbFormat Logging FileName SkipList Arena MemTable WriteBatch Crc32c Env EnvPosix Log Filter Iterator Block Format TableBuilder Table VersionEdit Version Compaction VersionSet VersionBuild Manifest MemIter DbImpl DbFlush DbFlushOk DbOpen DbCreate Repair.
#[local] Open Scope Z_scope.
#[local] Open Scope ldb_scope.

(** ** Scanning a table *)

Section Scan.
Context {TI : Type} {TIO : Iterator TI}.

Definition key_sequence (k : bytes) : Z := ExtractTag k >> 8.

Definition parses (k : bytes) : Prop := exists p, ParseInternalKey k = Some p /\ sequence p = key_sequence k.

Definition scanned (es : list entry) (sc : Scanned) : Scanned := fold_left scan_entry (map fst es) sc.

Lemma scan_loop_ok (C : Comparator) es Pos (HC : Cursor C es Pos) fuel : forall i (iter : TI) sc, Pos i iter -> (length es - i < fuel)%nat ->
  exists iter', scan_loop fuel iter sc = Some (iter', scanned (drop i es) sc) /\ Pos (length es) iter'.
Proof.
  induction fuel as [|fuel IH]; intros i iter sc HP Hf; [lia|]. cbn [scan_loop]. rewrite (cur_valid _ _ _ HC _ _ HP).
  pose proof (cur_range _ _ _ HC _ _ HP) as Hr. destruct (Nat.ltb_spec i (length es)) as [Hlt|Hge].
  - destruct (lookup_lt_is_Some_2 es i Hlt) as [[k v] Hk]. destruct (cur_entry _ _ _ HC i iter k v HP Hk) as [-> _].
    destruct (IH (S i) (iNext iter) (scan_entry sc k) (cur_next _ _ _ HC i iter HP Hlt) ltac:(lia)) as (iter' & -> & HP').
    exists iter'. split; [|exact HP']. rewrite (drop_S _ _ _ Hk). reflexivity.
  - assert (i = length es) as -> by lia. exists iter. rewrite drop_all. split; [reflexivity|exact HP].
Qed.

Lemma scanned_ok : forall es sc, Forall (fun e => parses (fst e)) es ->
  let sc' := scanned es sc in
  sc_largest sc' = last_key_of es (sc_largest sc) /\
  sc_smallest sc' = (if sc_empty sc then match es with [] => sc_smallest sc | e :: _ => fst e end else sc_smallest sc) /\
  sc_max_sequence sc <= sc_max_sequence sc' /\ Forall (fun e => key_sequence (fst e) <= sc_max_sequence sc') es /\
  (sc_max_sequence sc' = sc_max_sequence sc \/ exists e, In e es /\ sc_max_sequence sc' = key_sequence (fst e)).
Proof.
  induction es as [|[k v] es IH]; intros sc HF; [cbn; destruct (sc_empty sc); repeat split; try lia; auto|].
  inversion HF as [|? ? (p & Ep & Hs) HF']; subst. cbn [fst] in *. unfold scanned. cbn [map fold_left fst]. fold (scanned es (scan_entry sc k)).
  destruct (IH (scan_entry sc k) HF') as (I1 & I2 & I3 & I4 & I5). cbv zeta in *.
  assert (E : scan_entry sc k = mkScanned false (if sc_empty sc then k else sc_smallest sc) k (Z.max (sc_max_sequence sc) (key_sequence k))).
  { unfold scan_entry. rewrite Ep, Hs. f_equal. destruct (Z.ltb_spec (sc_max_sequence sc) (key_sequence k)); lia. }
  rewrite E in *. cbn [sc_empty sc_smallest sc_largest sc_max_sequence] in *. rewrite I1, I2, last_key_of_cons. split; [reflexivity|]. split; [destruct (sc_empty sc); reflexivity|].
  split; [lia|]. split; [constructor; [cbn; lia|exact I4]|]. destruct I5 as [->|(e & He & ->)]; [|right; exists e; split; [right; exact He|reflexivity]].
  destruct (Z.max_spec (sc_max_sequence sc) (key_sequence k)) as [[_ ->]|[_ ->]]; [right; exists (k, v); split; [left; reflexivity|reflexivity]|left; reflexivity].
Qed.

End Scan.

(** ** The edit of the descriptor *)

Section Edit.
Context {U : Comparator} {UOK : ComparatorOk U} (comparator_name : bytes) {E : Type}.

Definition table_metas (r : @Repairer E) : list FileMetaData :=
  map (fun t => new_file (f_number (ti_meta t)) (f_file_size (ti_meta t)) (f_smallest (ti_meta t)) (f_largest (ti_meta t))) (rr_tables r).

Lemma repair_edit_eq (r : @Repairer E) : repair_edit comparator_name r =
  mkEdit comparator_name 0 0 (rr_next_file_number r) (max_of_tables (rr_tables r)) true true false true true [] [] (map (pair 0) (table_metas r)).
Proof.
  unfold repair_edit, table_metas. set (e0 := SetLastSequence _ _).
  assert (HX : forall l e, fold_left (fun edit t => AddFile 0 (f_number (ti_meta t)) (f_file_size (ti_meta t)) (f_smallest (ti_meta t)) (f_largest (ti_meta t)) edit) l e =
    with_lists e (compact_pointers_ e) (deleted_files_ e) (new_files_ e ++ map (pair 0) (map (fun t => new_file (f_number (ti_meta t)) (f_file_size (ti_meta t)) (f_smallest (ti_meta t)) (f_largest (ti_meta t))) l))).
  { induction l as [|t l IH]; intros e; cbn [fold_left map]; [rewrite app_nil_r; destruct e; reflexivity|]. rewrite IH. unfold AddFile, with_lists. cbn. rewrite <- app_assoc. reflexivity. }
  rewrite HX. reflexivity.
Qed.

Lemma max_of_tables_ok l : Forall (fun t => 0 <= ti_max_sequence t) l -> Forall (fun t => ti_max_sequence t <= max_of_tables l) l /\
  (max_of_tables l = 0 \/ exists t, In t l /\ max_of_tables l = ti_max_sequence t).
Proof.
  intros H0. unfold max_of_tables.
  assert (HX : forall l m, let m' := fold_left (fun m t => if m <? ti_max_sequence t then ti_max_sequence t else m) l m in
    m <= m' /\ Forall (fun t => ti_max_sequence t <= m') l /\ (m' = m \/ exists t, In t l /\ m' = ti_max_sequence t)).
  { clear. induction l as [|t l IH]; intros m; cbn [fold_left]; cbv zeta; [split; [lia|]; split; [constructor|auto]|].
    destruct (IH (if m <? ti_max_sequence t then ti_max_sequence t else m)) as (I1 & I2 & I3). cbv zeta in *.
    destruct (Z.ltb_spec m (ti_max_sequence t)); (split; [lia|]); (split; [constructor; [lia|exact I2]|]); (destruct I3 as [I3|(t' & Ht & I3)]; [|right; exists t'; split; [right; exact Ht|exact I3]]).
    - right. exists t. split; [left; reflexivity|exact I3].
    - left. exact I3. }
  destruct (HX l 0) as (_ & H1 & H2). split; [exact H1|exact H2].
Qed.

(** Tables that a manifest can name. *)

Record tables_ok (r : @Repairer E) : Prop := {
  tk_name : sz comparator_name < 2 ^ 32;
  tk_next : 0 <= rr_next_file_number r < 2 ^ 64;
  tk_sequence : Forall (fun t => 0 <= ti_max_sequence t < 2 ^ 64) (rr_tables r);
  tk_files : Forall file_ok (table_metas r);
  tk_keys : Forall (fun f => @cmp_dom (InternalKeyComparator U) (f_smallest f)) (map meta (table_metas r));
  tk_unique : numbers_unique (map meta (table_metas r))
}.

Lemma new_at_repair (r : @Repairer E) level : new_at (repair_edit comparator_name r) level = if (level =? 0)%nat then map meta (table_metas r) else [].
Proof.
  rewrite repair_edit_eq. unfold new_at. cbn [new_files_].
  induction (table_metas r) as [|f l IH]; [destruct (level =? 0)%nat; reflexivity|]. destruct level as [|level]; cbn [map List.filter fst snd Nat.eqb]; change (Z.to_nat 0) with 0%nat; cbn [Nat.eqb map snd]; [f_equal; exact IH|exact IH].
Qed.

Lemma repair_edit_ok (r : @Repairer E) : tables_ok r -> edit_ok (repair_edit comparator_name r) /\ edit_comparator_ok comparator_name (repair_edit comparator_name r) /\
  edits_fit (U := U) (fun _ => []) [repair_edit comparator_name r].
Proof.
  intros [T1 T2 T3 T4 T5 T6]. split; [|split].
  - rewrite repair_edit_eq. split; cbn [comparator_ log_number_ prev_log_number_ next_file_number_ last_sequence_ has_comparator_ has_log_number_ has_prev_log_number_
      has_next_file_number_ has_last_sequence_ compact_pointers_ deleted_files_ new_files_]; try (split; [unfold num_ok; lia|auto; discriminate]); try constructor; try assumption; try discriminate.
    + assert (H0 : Forall (fun t => 0 <= ti_max_sequence t) (rr_tables r)) by (apply (List.Forall_impl _ (fun t H => proj1 H) T3)).
      destruct (max_of_tables_ok (rr_tables r) H0) as [_ [->|(t & Ht & ->)]]; [unfold num_ok; lia|]. rewrite List.Forall_forall in T3. exact (T3 t Ht).
    + apply List.Forall_forall. intros p Hp. apply in_map_iff in Hp as (f & <- & Hf). cbn [fst snd]. split; [vm_compute; split; [discriminate|reflexivity]|].
      rewrite List.Forall_forall in T4. exact (T4 f Hf).
  - intros _. rewrite repair_edit_eq. reflexivity.
  - assert (HA : forall level, added_at [repair_edit comparator_name r] level = if (level =? 0)%nat then map meta (table_metas r) else []).
    { intros level. unfold added_at. cbn [map concat]. rewrite app_nil_r. apply new_at_repair. }
    split; intros level; rewrite ?HA; cbn [app].
    + destruct (level =? 0)%nat; [exact T6|]. intros f g [].
    + destruct (level =? 0)%nat; [exact T5|constructor].
    + intros a b _ [].
Qed.

End Edit.

(** ** Names *)

Lemma rfind_base d m : ~ In slash m -> rfind slash (d ++ slash :: m) = Some (length d).
Proof.
  intros H. assert (HN : rfind slash m = None).
  { induction m as [|x m IH]; [reflexivity|]. cbn [rfind]. rewrite IH by (intros Hx; apply H; right; exact Hx).
    rewrite bool_decide_eq_false_2; [reflexivity|]. intros ->. apply H. left. reflexivity. }
  induction d as [|x d IH]; cbn [app rfind length]; [rewrite HN, bool_decide_eq_true_2; reflexivity|rewrite IH; reflexivity].
Qed.

Lemma lost_file_base d m : ~ In slash m -> lost_file (d ++ str "/" ++ m) = d ++ str "/lost/" ++ m.
Proof.
  intros H. unfold lost_file, lost_dir. change (str "/" ++ m) with (slash :: m). rewrite (rfind_base d m H), take_app_length.
  assert (drop (S (length d)) (d ++ slash :: m) = m) as -> by (rewrite cons_middle, app_assoc; apply drop_app_length'; rewrite length_app; cbn; lia).
  rewrite <- !app_assoc. reflexivity.
Qed.

(** ** The descriptor *)

Section Descriptor.
Context {U : Comparator} {UOK : ComparatorOk U} (comparator_name dbname : bytes).
Context {E W Q : Type} {WF : WritableFile W} {RW : ReliableWritable W} {SF : SequentialFile Q} {RS : ReliableSequential Q} (env : @EnvOps E W Q) (denv : DbEnvOps E W).
Context (env_RenameFile : E -> bytes -> bytes -> E * Status) {FS : FileStore env denv}.

(** A store whose files can be renamed and read, and whose CURRENT can be set. *)

Record renames : Prop := {
  rn_rename : forall e src dst c, src <> dst -> fs_look e src = Some c -> exists e', env_RenameFile e src dst = (e', OK) /\ fs_look e' dst = Some c;
  rn_other : forall e src dst other, other <> src -> other <> dst -> fs_look (fst (env_RenameFile e src dst)) other = fs_look e other;
  rn_mkdir : forall e d other, fs_look (de_CreateDir denv e d) other = fs_look e other;
  rn_read : forall e n c, fs_look e n = Some c -> env_ReadFileToString env e n = (OK, c);
  rn_open : forall e n c, fs_look e n = Some c -> exists q, env_NewSequentialFile env e n = (OK, Some q) /\ sf_inv q /\ sf_rest q = c;
  rn_current : forall e n, exists e', env_SetCurrentFile env e dbname n = (e', OK) /\ fs_look e' (CurrentFileName dbname) = Some (current_text n) /\
    forall other, other <> CurrentFileName dbname -> other <> TempFileName dbname n -> fs_look e' other = fs_look e other
}.

Hypothesis HR : renames.

#[local] Abbreviation tmp := (TempFileName dbname 1).

Lemma tmp_name : tmp = dbname ++ str "/" ++ str "000001.dbtmp".
Proof. reflexivity. Qed.

(** Names of directory entries, and not of the temporary file. *)

Definition manifest_name (m : bytes) : Prop := ~ In slash m /\ exists n, ParseFileName m = Some (n, kDescriptorFile).

Lemma archive_keeps (r : @Repairer E) m : manifest_name m ->
  fs_look (rr_env (ArchiveFile denv env_RenameFile r (dbname ++ str "/" ++ m))) tmp = fs_look (rr_env r) tmp.
Proof.
  intros [Hs (n & Hp)]. unfold ArchiveFile. cbn [rr_with_env rr_env]. rewrite (rn_other HR), (rn_mkdir HR); [reflexivity| |].
  - rewrite tmp_name. intros E0. apply app_inv_head, app_inv_head in E0. subst m. vm_compute in Hp. discriminate.
  - rewrite (lost_file_base _ _ Hs), tmp_name. intros E0. apply app_inv_head in E0. discriminate.
Qed.

Lemma archive_all_keeps ms : forall r : @Repairer E, Forall manifest_name ms ->
  fs_look (rr_env (fold_left (fun r m => ArchiveFile denv env_RenameFile r (dbname ++ str "/" ++ m)) ms r)) tmp = fs_look (rr_env r) tmp.
Proof.
  induction ms as [|m ms IH]; intros r HF; [reflexivity|]. inversion HF as [|? ? Hm HF']; subst. cbn [fold_left]. rewrite (IH _ HF'). exact (archive_keeps r m Hm).
Qed.

Lemma WriteDescriptor_ok (r : @Repairer E) : Forall manifest_name (rr_manifests r) ->
  exists r' out o, WriteDescriptor comparator_name dbname env denv env_RenameFile r = Some (OK, r') /\
    fs_look (rr_env r') (CurrentFileName dbname) = Some (current_text 1) /\ fs_look (rr_env r') (DescriptorFileName dbname 1) = Some out /\ Logged 0 [VE_EncodeTo (repair_edit comparator_name r) []] out o.
Proof.
  intros Hm. unfold WriteDescriptor. destruct (fs_create (rr_env r) tmp) as (e1 & f & -> & Hi & Hc & _). cbn [ok OK negb].
  change (repair_edit comparator_name (rr_with_env r e1)) with (repair_edit comparator_name r).
  destruct (AddRecords_ok [VE_EncodeTo (repair_edit comparator_name r) []] (Writer_new f) (WOk_new f Hi)) as (w & out & EA & HW & Hout & HL).
  cbn [AddRecords] in EA. destruct (AddRecord (Writer_new f) (VE_EncodeTo (repair_edit comparator_name r) [])) as [[s w']|]; [|discriminate].
  destruct (ok s) eqn:Es; [|discriminate]. injection EA as ->. destruct (fs_close (dest_ w) (w_file _ HW)) as (f' & -> & Hi' & Hc').
  cbn [ok OK negb]. unfold install_descriptor. cbn [rr_with_env rr_env rr_manifests].
  set (r1 := rr_with_env (rr_with_env r e1) (de_close denv e1 tmp f')). set (r2 := fold_left _ (rr_manifests r) r1).
  assert (Hlook : fs_look (rr_env r2) tmp = Some out).
  { unfold r2. rewrite (archive_all_keeps _ r1 Hm). unfold r1. cbn [rr_with_env rr_env]. rewrite (fs_put _ _ _ Hi'), Hc', Hout.
    cbn [Writer_new dest_]. rewrite Hc. reflexivity. }
  assert (HD : DescriptorFileName dbname 1 = dbname ++ str "/" ++ str "MANIFEST-000001") by reflexivity.
  destruct (rn_rename HR (rr_env r2) tmp (DescriptorFileName dbname 1) out) as (e3 & -> & H3); [rewrite HD, tmp_name; intros E0; apply app_inv_head in E0; discriminate|exact Hlook|].
  cbn [ok OK]. destruct (rn_current HR e3 1) as (e4 & -> & Hcur & H4). eexists _, out, _. split; [reflexivity|]. cbn [rr_with_env rr_env]. split; [exact Hcur|]. split; [|exact HL].
  rewrite H4; [exact H3| |]; rewrite HD; [change (CurrentFileName dbname) with (dbname ++ str "/" ++ str "CURRENT")|rewrite tmp_name];
    intros E0; apply app_inv_head in E0; discriminate.
Qed.

(** CURRENT names the new manifest. *)

Lemma descriptor_named e out : fs_look e (CurrentFileName dbname) = Some (current_text 1) -> fs_look e (DescriptorFileName dbname 1) = Some out ->
  exists file, current_names dbname env e (str "MANIFEST-000001") file /\ sf_inv file /\ sf_rest file = out.
Proof.
  intros HC HD. destruct (rn_open HR e _ out HD) as (q & EQ & Hi & Hr). exists q. split; [|auto]. split; [exact (rn_read HR e _ _ HC)|exact EQ].
Qed.

End Descriptor.

(** C38.  A repaired database recovers: on a store that works, [WriteDescriptor]
    returns OK; after it CURRENT holds the name of the new manifest, and [Recover]
    of a new version set in that very store succeeds and gives a version set whose
    level 0 holds exactly the tables taken over and whose other levels are empty,
    with a last sequence number that no sequence number found by the scans exceeds
    and the next file number of the repair.  This is for tables with bounds, that
    is with a point entry; the files that are archived before are other manifests
    of the directory. *)
Theorem repaired_database_recovers : forall U (UOK : ComparatorOk U) comparator_name dbname
    E W Q (WF : WritableFile W) (RW : ReliableWritable W) (SF : SequentialFile Q) (RS : ReliableSequential Q) (env : @EnvOps E W Q) (denv : DbEnvOps E W)
    env_RenameFile (FS : FileStore env denv) (r : @Repairer E),
  renames dbname env denv env_RenameFile -> Forall manifest_name (rr_manifests r) -> tables_ok (U := U) comparator_name r ->
  exists r', WriteDescriptor comparator_name dbname env denv env_RenameFile r = Some (OK, r') /\
    fs_look (rr_env r') (CurrentFileName dbname) = Some (current_text 1) /\
    forall max_file_size reuse_logs n fuel save, (1 < n)%nat -> (S (length (VE_EncodeTo (repair_edit comparator_name r) [])) < fuel)%nat ->
      exists save' vs', Recover U comparator_name max_file_size reuse_logs dbname env n fuel (VersionSet_new (rr_env r')) save = Some (OK, save', vs') /\
        (forall f, In f (current_level vs' 0) <-> In f (map meta (table_metas r))) /\
        (forall level f, (0 < level < kNumLevels)%nat -> ~ In f (current_level vs' level)) /\
        Forall (fun t => ti_max_sequence t <= vs_last_sequence vs') (rr_tables r) /\ vs_next_file_number vs' = u64 (rr_next_file_number r + 1).
Proof.
  intros U UOK comparator_name dbname E W Q WF RW SF RS env denv rename FS r HR Hm HT.
  destruct (WriteDescriptor_ok comparator_name dbname env denv rename HR r Hm) as (r' & out & o & EW & HC1 & HD & HL). exists r'. split; [exact EW|]. split; [exact HC1|].
  destruct (descriptor_named dbname env denv rename HR (rr_env r') out HC1 HD) as (file & HCur & Hi & Hr).
  intros max_file_size reuse_logs n fuel save Hn Hfuel. set (edit := repair_edit comparator_name r) in *.
  destruct (repair_edit_ok (U := U) comparator_name r HT) as (H1 & H2 & H3). fold edit in H1, H2, H3.
  destruct (manifest_drains [edit] [] out [] o o HL (Logged_nil o) file (length out) fuel Hi) as (j & Hd & _).
  { rewrite app_nil_r, firstn_all. exact Hr. } { lia. } { lia. } { cbn. constructor; [exact Hfuel|constructor]. }
  rewrite take_nil, app_nil_r in Hd.
  destruct (recover_ok comparator_name max_file_size reuse_logs dbname env (rr_env r') _ file [edit] n fuel save (rr_next_file_number r) 0 (max_of_tables (rr_tables r)) HCur Hd)
    as (save' & vs' & ER & HH & HS & HN).
  - constructor; [split; assumption|constructor].
  - exact H3.
  - unfold edit. rewrite repair_edit_eq. reflexivity.
  - unfold edit. rewrite repair_edit_eq. reflexivity.
  - unfold edit. rewrite repair_edit_eq. reflexivity.
  - cbn. lia.
  - exists save', vs'. split; [exact ER|]. assert (HL0 : forall level f, (level < kNumLevels)%nat -> In f (current_level vs' level) <-> In f (new_at edit level)).
    { intros level f Hl. rewrite (ho_sets _ _ HH level Hl f). unfold replay. cbn [fold_left]. unfold edit_sets. tauto. }
    split; [|split; [|split; [|exact HN]]].
    + intros f. rewrite HL0 by (unfold kNumLevels; lia). unfold edit. rewrite new_at_repair. reflexivity.
    + intros level f Hl. rewrite HL0 by lia. unfold edit. rewrite new_at_repair, (proj2 (Nat.eqb_neq level 0)) by lia. auto.
    + rewrite HS. apply max_of_tables_ok. exact (List.Forall_impl _ (fun t H => proj1 H) (tk_sequence _ _ HT)).
Qed.

(** Two tables taken over, on the disk of DbCreate.v. *)

Definition disk_rename (d : Disk) (src dst : bytes) : Disk * Status :=
  match disk_look d src with
  | Some c => (disk_put (List.filter (fun p => negb (bool_decide (fst p = src))) d) dst c, OK)
  | None => (d, NotFound src [])
  end.

Definition repaired : @Repairer Disk :=
  mkRepairer [(str "db/MANIFEST-000004", str "old")] [str "MANIFEST-000004"] [7; 9] []
    [mkTableInfo (mkFile 0 (1 << 30) 7 500 (mkInternalKey (str "a") 5 kTypeValue) (mkInternalKey (str "f") 2 kTypeValue)) 12;
     mkTableInfo (mkFile 0 (1 << 30) 9 300 (mkInternalKey (str "b") 20 kTypeValue) (mkInternalKey (str "b") 20 kTypeValue)) 20] 10.

Lemma disk_removed d src n : n <> src -> disk_look (List.filter (fun p => negb (bool_decide (fst p = src))) d) n = disk_look d n.
Proof.
  intros Hne. unfold disk_look. induction d as [|[m c] d IH]; [reflexivity|]. cbn [List.filter fst find]. destruct (decide (m = src)) as [->|Hs].
  - rewrite bool_decide_eq_true_2 by reflexivity. cbn [negb]. rewrite IH, (bool_decide_eq_false_2 (src = n)) by congruence. reflexivity.
  - rewrite (bool_decide_eq_false_2 (m = src)) by exact Hs. cbn [negb find fst]. destruct (bool_decide (m = n)); [reflexivity|exact IH].
Qed.

Lemma repaired_renames : renames (str "db") disk_env disk_denv disk_rename.
Proof.
  destruct (disk_creates (str "db")) as [C1 C2 C3 C4 _ _ _]. split; try assumption.
  - intros e src dst c Hne Hs. unfold disk_rename. change (fs_look e src) with (disk_look e src) in Hs. rewrite Hs. eexists. split; [reflexivity|]. apply disk_put_eq.
  - intros e src dst other H1 H2. unfold disk_rename. destruct (disk_look e src); [|reflexivity]. cbn [fst]. change (fs_look ?d ?n) with (disk_look d n).
    rewrite disk_put_ne by exact H2. apply disk_removed, H1.
Qed.

Lemma repaired_tables_ok : tables_ok (U := BytewiseComparator) (str "leveldb.BytewiseComparator") repaired.
Proof.
  split; [vm_compute; reflexivity|cbn; lia|repeat constructor; vm_compute; congruence| | |].
  - repeat constructor; vm_compute; congruence.
  - repeat constructor; vm_compute; lia.
  - intros f g [<-|[<-|[]]] [<-|[<-|[]]] E0; try reflexivity; vm_compute in E0; discriminate.
Qed.

Lemma repaired_database_recovers_witness : exists r' save' vs',
  WriteDescriptor (str "leveldb.BytewiseComparator") (str "db") disk_env disk_denv disk_rename repaired = Some (OK, r') /\
  Recover BytewiseComparator (str "leveldb.BytewiseComparator") 2097152 true (str "db") disk_env 5 400 (VersionSet_new (rr_env r')) false = Some (OK, save', vs') /\
  Forall (fun t => ti_max_sequence t <= vs_last_sequence vs') (rr_tables repaired).
Proof.
  assert (Hm : Forall manifest_name (rr_manifests repaired)).
  { repeat constructor; [vm_compute; intuition discriminate|exists 4; vm_compute; reflexivity]. }
  destruct (repaired_database_recovers BytewiseComparator _ (str "leveldb.BytewiseComparator") (str "db") _ FileState SequentialFileImpl _ _ _ _
    disk_env disk_denv disk_rename DiskStore repaired repaired_renames Hm repaired_tables_ok) as (r' & EW & _ & HR).
  destruct (HR 2097152 true 5%nat 400%nat false) as (save' & vs' & ER & _ & _ & HS & _); [lia|vm_compute; lia|].
  exists r', save', vs'. split; [exact EW|]. split; [exact ER|exact HS].
Defined.

(**  Scanning a table whose iterator reads to the end without an error takes the
    table over, under its number and with the size of its file, with the first and
    the last key the iterator gives as bounds and the largest sequence number among
    these keys: no smaller one (each is at most the recorded number) and no larger
    one (it is one of them, or zero without entries). *)
Theorem repair_scans_table : forall U K options dbname paranoid_checks E W Q (WF : WritableFile W) (env : @EnvOps E W Q) (denv : DbEnvOps E W) env_RenameFile
    TI (TIO : Iterator TI) (tc_NewIterator : E -> ReadOptions -> Z -> Z -> TI) C es Pos p fuel (r : @Repairer E) number fname size,
  table_size dbname env r number = (OK, fname, size) ->
  Cursor C es Pos -> Pos p (tc_NewIterator (rr_env r) (mkReadOptions paranoid_checks true) number size) ->
  Forall (fun e => parses (fst e)) es -> (length es < fuel)%nat ->
  exists t, ScanTable U K options dbname paranoid_checks env denv env_RenameFile tc_NewIterator fuel r number = Some (push_table r t) /\
    ti_meta t = mkFile 0 (1 << 30) number size (match es with [] => [] | e :: _ => fst e end) (last_key_of es []) /\
    Forall (fun e => key_sequence (fst e) <= ti_max_sequence t) es /\
    (ti_max_sequence t = 0 \/ exists e, In e es /\ ti_max_sequence t = key_sequence (fst e)).
Proof.
  intros U K options dbname paranoid E W Q WF env denv rename TI TIO tc C es Pos p fuel r number fname size Hsz HC HP HF Hfuel.
  unfold ScanTable. rewrite Hsz. cbn [ok OK negb]. unfold NewTableIterator. cbn [f_number f_file_size].
  destruct (scan_loop_ok C es Pos HC fuel 0 _ (mkScanned true [] [] 0) (cur_first _ _ _ HC _ _ HP) ltac:(lia)) as (iter & -> & HE).
  rewrite (cur_status _ _ _ HC _ _ HE), drop_0. cbn [ok OK]. eexists. split; [reflexivity|].
  destruct (scanned_ok es (mkScanned true [] [] 0) HF) as (I1 & I2 & _ & I4 & I5). cbv zeta in *. cbn [sc_empty sc_smallest sc_largest sc_max_sequence] in *.
  cbn [ti_meta ti_max_sequence]. rewrite I1, I2. split; [|auto]. destruct es; reflexivity.
Qed.

(** The scan of the point entries of the table of Table.v: its tombstone is not among
    them. *)

Definition store_rename (e : bytes -> option bytes) (src dst : bytes) : (bytes -> option bytes) * Status :=
  (fun m => if decide (m = dst) then e src else if decide (m = src) then None else e m, OK).

Definition scan_repairer : @Repairer (bytes -> option bytes) := mkRepairer (fun _ => None) [] [7] [] [] 8.

Definition entries_iterator (es : list entry) (_ : bytes -> option bytes) (_ : ReadOptions) (_ _ : Z) : ListIter := mkListIter es 0.

Abbreviation scan_run es :=
  (ScanTable BytewiseComparator NoLibraries run_options (str "db") false (store_env FileState_new) store_denv store_rename
    (TIO := ListIterOps BytewiseComparator) (entries_iterator es) 10 scan_repairer 7).

Lemma repair_scans_table_witness : exists t, scan_run (points run_entries) = Some (push_table scan_repairer t) /\
  f_smallest (ti_meta t) = mkInternalKey (str "a") 5 kTypeValue /\ f_largest (ti_meta t) = mkInternalKey (str "f") 2 kTypeValue /\
  Forall (fun e => key_sequence (fst e) <= ti_max_sequence t) (points run_entries).
Proof.
  destruct (repair_scans_table BytewiseComparator NoLibraries run_options (str "db") false _ FileState SequentialFileImpl _ (store_env FileState_new) store_denv store_rename
    ListIter (ListIterOps BytewiseComparator) (entries_iterator (points run_entries)) BytewiseComparator (points run_entries) (fun i it => it = mkListIter (points run_entries) i /\ (i <= length (points run_entries))%nat) 0%nat 10%nat
    scan_repairer 7 (TableFileName (str "db") 7) 0) as (t & E & Hm & Hs & _).
  - reflexivity.
  - apply list_cursor.
  - split; [reflexivity|lia].
  - repeat (constructor; [eexists; split; vm_compute; reflexivity|]). constructor.
  - vm_compute. lia.
  - exists t. split; [exact E|]. rewrite Hm. split; [vm_compute; reflexivity|]. split; [vm_compute; reflexivity|exact Hs].
Defined.

(** A table of nothing but tombstones gives its iterator no entry: it is taken over
    without bounds and with sequence number zero, and the descriptor that names it
    does not decode, so that the repaired database cannot be opened. *)

Example tombstone_table_unreadable :
  match scan_run (points [(mkInternalKey (str "b") 9 kTypeRangeDeletion, str "d")]) with
  | Some r => map ti_max_sequence (rr_tables r) = [0] /\ map (fun t => f_smallest (ti_meta t)) (rr_tables r) = [[]] /\
      ok (fst (VE_DecodeFrom (VE_EncodeTo (repair_edit (str "leveldb.BytewiseComparator") r) []))) = false
  | None => False
  end.
Proof. vm_compute. repeat split. Qed.
