(* ===== verification/EnvUtil.v ===== *)
(** * Files written as a whole, and CURRENT (util/env.cc, db/filename.cc)

    [WriteStringToFile], [ReadFileToString] and [SetCurrentFile] over the
    operations of an environment.  A program gives, beside its result, the states that
    the file system goes through, one for each call that changes it, so that a crash
    between two calls can be spoken of. *)

From S2P Require Import Prelude Coding Compare DbFormat Logging FileName SkipList Arena MemTable WriteBatch Crc32c Env Log Filter Iterator Block Format TableBuilder Table VersionEdit Version Compaction VersionSet Manifest ApplyEdit MemIter DbImpl DbFlush DbFlushOk Repair RepairOk.
#[local] Open Scope Z_scope.
#[local] Open Scope ldb_scope.

(** ** The operations of an environment that the code uses *)

Record FileOps {E W Q : Type} := mkFileOps {
  fo_NewWritableFile : E -> bytes -> E * (Status * option W);
  fo_delete : E -> bytes -> W -> E;                 (* the destructor of the file object of a name *)
  fo_NewSequentialFile : E -> bytes -> Status * option Q;
  fo_RemoveFile : E -> bytes -> E * Status;
  fo_RenameFile : E -> bytes -> bytes -> E * Status
}.

Arguments FileOps : clear implicits.

(** ** Programs that leave states behind *)

Section Programs.
Context {E : Type}.

Definition prog (A : Type) : Type := E -> list E * (E * A).

Definition pret {A} (a : A) : prog A := fun e => ([], (e, a)).

Definition pbind {A B} (p : prog A) (k : A -> prog B) : prog B :=
  fun e => let '(l, (e, a)) := p e in let '(l', r) := k a e in (l ++ l', r).

(** One call; the state after it is left behind. *)

Definition pcall {A} (op : E -> E * A) : prog A := fun e => let '(e, a) := op e in ([e], (e, a)).

(** What a program guarantees of every state it leaves behind, and of its end. *)

Definition guards {A} (p : prog A) (e : E) (during : E -> Prop) (after : E -> A -> Prop) : Prop :=
  Forall during (fst (p e)) /\ after (fst (snd (p e))) (snd (snd (p e))).

Lemma guards_ret {A} (a : A) e during (after : E -> A -> Prop) : after e a -> guards (pret a) e during after.
Proof. intros H. split; [constructor|exact H]. Qed.

Lemma guards_bind {A B} (p : prog A) (k : A -> prog B) e during mid (after : E -> B -> Prop) :
  guards p e during mid -> (forall e' a, mid e' a -> guards (k a) e' during after) -> guards (pbind p k) e during after.
Proof.
  unfold guards, pbind. destruct (p e) as [l [e1 a]]. cbn [fst snd]. intros [H1 H2] HK. specialize (HK e1 a H2).
  destruct (k a e1) as [l' [e2 b]]. cbn [fst snd] in *. split; [apply List.Forall_app; split; tauto|tauto].
Qed.

Lemma guards_call {A} (op : E -> E * A) e (during : E -> Prop) (after : E -> A -> Prop) :
  during (fst (op e)) -> after (fst (op e)) (snd (op e)) -> guards (pcall op) e during after.
Proof. unfold guards, pcall. destruct (op e) as [e1 a]. cbn. intros H1 H2. split; [repeat constructor; exact H1|exact H2]. Qed.

Lemma guards_weaken {A} (p : prog A) e during (after after' : E -> A -> Prop) :
  guards p e during after -> (forall e' a, after e' a -> after' e' a) -> guards p e during after'.
Proof. intros [H1 H2] H. split; [exact H1|apply H, H2]. Qed.

End Programs.

#[local] Notation "x ⇐ p ; q" := (pbind p (fun x => q)) (at level 100, p at level 99, q at level 200, right associativity).

Section EnvUtil.
Context {E W Q : Type} {WF : WritableFile W} {SF : SequentialFile Q} (fo : FileOps E W Q).

(** ** util/env.cc *)

Definition DoWriteStringToFile (data fname : bytes) (should_sync : bool) : prog Status :=
  r ⇐ pcall (fun e => fo_NewWritableFile fo e fname);
  match r with
  | (s, Some file) =>
      if negb (ok s) then pret s
      else
        let '(s, file) := wf_Append file data in
        let '(s, file) := if ok s && should_sync then wf_Sync file else (s, file) in
        let '(s, file) := if ok s then wf_Close file else (s, file) in
        _ ⇐ pcall (fun e => (fo_delete fo e fname file, tt));
        if negb (ok s) then (_ ⇐ pcall (fun e => fo_RemoveFile fo e fname); pret s) else pret s
  | (s, None) => pret s
  end.

Definition WriteStringToFile (data fname : bytes) : prog Status := DoWriteStringToFile data fname false.

Definition WriteStringToFileSync (data fname : bytes) : prog Status := DoWriteStringToFile data fname true.

Definition kBufferSize : Z := 8192.

Fixpoint ReadFileToString_loop (fuel : nat) (file : Q) (data : bytes) : option (Status * bytes) :=
  match fuel with
  | O => None
  | Datatypes.S fuel =>
      let '(s, fragment, file) := sf_Read file kBufferSize in
      if negb (ok s) then Some (s, data)
      else
        let data := data ++ fragment in
        match fragment with [] => Some (s, data) | _ => ReadFileToString_loop fuel file data end
  end.

Definition ReadFileToString (fuel : nat) (e : E) (fname : bytes) : option (Status * bytes) :=
  match fo_NewSequentialFile fo e fname with
  | (s, Some file) => if negb (ok s) then Some (s, []) else ReadFileToString_loop fuel file []
  | (s, None) => Some (s, [])
  end.

(** ** [SetCurrentFile] (db/filename.cc) *)

Definition SetCurrentFile (dbname : bytes) (descriptor_number : Z) : prog Status :=
  let manifest := DescriptorFileName dbname descriptor_number in
  let contents := drop (length dbname + 1) manifest in
  let tmp := TempFileName dbname descriptor_number in
  s ⇐ WriteStringToFileSync (contents ++ [z2b 10]) tmp;
  s ⇐ (if ok s then pcall (fun e => fo_RenameFile fo e tmp (CurrentFileName dbname)) else pret s);
  if negb (ok s) then (_ ⇐ pcall (fun e => fo_RemoveFile fo e tmp); pret s) else pret s.

End EnvUtil.

(** ** File systems that can fail and crash *)

(** A file whose successful operations do what they say; [hw_synced] is what the last
    successful sync has put on the disk. *)

Class HonestWritable (F : Type) `{WritableFile F} := {
  hw_contents : F -> bytes;
  hw_synced : F -> bytes;
  hw_append : forall f d, ok (fst (wf_Append f d)) = true -> hw_contents (snd (wf_Append f d)) = hw_contents f ++ d;
  hw_sync : forall f, ok (fst (wf_Sync f)) = true -> hw_contents (snd (wf_Sync f)) = hw_contents f /\ hw_synced (snd (wf_Sync f)) = hw_contents f;
  hw_close : forall f, ok (fst (wf_Close f)) = true -> hw_contents (snd (wf_Close f)) = hw_contents f /\ hw_synced (snd (wf_Close f)) = hw_synced f
}.

(** [cf_look]: what a name reads as; [cf_leaves]: what a crash may leave of it.  Every
    operation may fail.  A file that was synced before it was closed survives; the
    renaming itself may be lost in a crash. *)

Class CrashFs {E W Q : Type} {WF : WritableFile W} {HW : HonestWritable W} {SF : SequentialFile Q} {RS : ReliableSequential Q} (fo : FileOps E W Q) := {
  cf_look : E -> bytes -> option bytes;
  cf_leaves : E -> bytes -> option bytes -> Prop;
  cf_kept := fun (e e' : E) (m : bytes) => cf_look e' m = cf_look e m /\ forall c, cf_leaves e' m c -> cf_leaves e m c;
  cf_new : forall e n, ok (fst (snd (fo_NewWritableFile fo e n))) = true -> exists f, snd (snd (fo_NewWritableFile fo e n)) = Some f /\ hw_contents f = [];
  cf_new_other : forall e n m, m <> n -> cf_kept e (fst (fo_NewWritableFile fo e n)) m;
  cf_delete : forall e n f, hw_synced f = hw_contents f ->
    cf_look (fo_delete fo e n f) n = Some (hw_contents f) /\ forall c, cf_leaves (fo_delete fo e n f) n c -> c = Some (hw_contents f);
  cf_delete_other : forall e n f m, m <> n -> cf_kept e (fo_delete fo e n f) m;
  cf_remove_other : forall e n m, m <> n -> cf_kept e (fst (fo_RemoveFile fo e n)) m;
  cf_rename : forall e src dst, src <> dst -> ok (snd (fo_RenameFile fo e src dst)) = true ->
    cf_look (fst (fo_RenameFile fo e src dst)) dst = cf_look e src /\
    forall c, cf_leaves (fst (fo_RenameFile fo e src dst)) dst c -> cf_leaves e dst c \/ cf_leaves e src c;
  cf_rename_error : forall e src dst, ok (snd (fo_RenameFile fo e src dst)) = false -> cf_kept e (fst (fo_RenameFile fo e src dst)) dst;
  cf_rename_other : forall e src dst m, m <> src -> m <> dst -> cf_kept e (fst (fo_RenameFile fo e src dst)) m;
  cf_open : forall e n c, cf_look e n = Some c -> exists q, fo_NewSequentialFile fo e n = (OK, Some q) /\ sf_inv q /\ sf_rest q = c
}.

Section Crash.
Context {E W Q : Type} {WF : WritableFile W} {HW : HonestWritable W} {SF : SequentialFile Q} {RS : ReliableSequential Q} (fo : FileOps E W Q) {CF : CrashFs fo}.

#[export] Instance kept_refl m : Reflexive (fun e e' => cf_kept e e' m).
Proof. intros e. split; auto. Qed.

#[export] Instance kept_trans m : Transitive (fun e e' => cf_kept e e' m).
Proof. intros a b c [H1 H2] [H3 H4]. split; [congruence|auto]. Qed.

(** All names but those of [ns] are left alone. *)

Definition kept_but (ns : list bytes) (e e' : E) : Prop := forall m, ~ In m ns -> cf_kept e e' m.

Lemma kept_but_trans ns e e1 e' : kept_but ns e e1 -> kept_but ns e1 e' -> kept_but ns e e'.
Proof. intros H1 H2 m Hm. eapply kept_trans; [apply H1, Hm|apply H2, Hm]. Qed.

(** *** Writing *)

(** The contents are on the disk. *)

Definition stored (e : E) (n data : bytes) : Prop := cf_look e n = Some data /\ forall c, cf_leaves e n c -> c = Some data.

Lemma not_one (m n : bytes) : ~ In m [n] -> m <> n.
Proof. intros H ->. apply H. left. reflexivity. Qed.

Lemma write_sync_guards data fname e :
  guards (WriteStringToFileSync fo data fname) e (kept_but [fname] e) (fun e' s => kept_but [fname] e e' /\ (ok s = true -> stored e' fname data)).
Proof.
  eapply guards_bind with (mid := fun e1 r => kept_but [fname] e e1 /\ (ok (fst r) = true -> exists f, snd r = Some f /\ hw_contents f = [])).
  { assert (K : kept_but [fname] e (fst (fo_NewWritableFile fo e fname))) by (intros m Hm; apply cf_new_other, not_one, Hm).
    apply guards_call; [exact K|]. split; [exact K|apply cf_new]. }
  intros e1 [s [f|]] [K1 H1]; cbn [fst snd] in H1; [|apply guards_ret; split; [exact K1|intros Hs; destruct (H1 Hs) as (f & E0 & _); discriminate]].
  destruct (ok s) eqn:Hs; cbn [negb]; [|apply guards_ret; split; [exact K1|congruence]]. destruct (H1 eq_refl) as (f0 & E0 & Hf). injection E0 as <-.
  pose proof (hw_append f data) as A1. destruct (wf_Append f data) as [s1 f1]. cbn [fst snd] in A1. rewrite andb_true_r.
  destruct (if ok s1 then wf_Sync f1 else (s1, f1)) as [s2 f2] eqn:E2. destruct (if ok s2 then wf_Close f2 else (s2, f2)) as [s3 f3] eqn:E3.
  assert (H3 : ok s3 = true -> hw_contents f3 = data /\ hw_synced f3 = data).
  { intros O3. pose proof (hw_sync f1) as A2. pose proof (hw_close f2) as A3. destruct (ok s2) eqn:O2; [|congruence]. rewrite E3 in A3. destruct (A3 O3) as [C3 D3].
    destruct (ok s1) eqn:O1; [|congruence]. rewrite E2 in A2. destruct (A2 O2) as [C2 D2]. specialize (A1 eq_refl). rewrite Hf in A1. cbn [app fst snd] in *. split; congruence. }
  eapply guards_bind with (mid := fun e2 _ => kept_but [fname] e e2 /\ (ok s3 = true -> stored e2 fname data)).
  { assert (K : kept_but [fname] e (fo_delete fo e1 fname f3)) by (eapply kept_but_trans; [exact K1|intros m Hm; apply cf_delete_other, not_one, Hm]).
    apply guards_call; [exact K|]. split; [exact K|]. intros O3. destruct (H3 O3) as [C3 D3]. rewrite <- C3. apply cf_delete. congruence. }
  intros e2 _ [K2 S2]. destruct (ok s3) eqn:O3; cbn [negb]; [apply guards_ret; auto|].
  assert (K : kept_but [fname] e (fst (fo_RemoveFile fo e2 fname))) by (eapply kept_but_trans; [exact K2|intros m Hm; apply cf_remove_other, not_one, Hm]).
  eapply guards_bind with (mid := fun e3 _ => kept_but [fname] e e3); [apply guards_call; exact K|]. intros e3 _ K3. apply guards_ret. split; [exact K3|congruence].
Qed.

(** *** Reading *)

Lemma read_loop_all fuel : forall (q : Q) data, sf_inv q -> (length (sf_rest q) < fuel)%nat -> ReadFileToString_loop fuel q data = Some (OK, data ++ sf_rest q).
Proof.
  induction fuel as [|fuel IH]; intros q data Hq Hl; [lia|]. cbn [ReadFileToString_loop]. destruct (sf_read_ok q kBufferSize Hq ltac:(vm_compute; discriminate)) as (q' & -> & Hq' & Hr).
  cbn [ok negb]. set (n := Z.to_nat kBufferSize) in *. assert (HN : (0 < n)%nat) by (vm_compute; lia). clearbody n.
  destruct (sf_rest q) as [|b rest] eqn:ER; [rewrite take_nil, app_nil_r; reflexivity|]. destruct n as [|n]; [lia|]. cbn [take]. cbn [drop] in Hr.
  rewrite IH; [|exact Hq'|rewrite Hr, length_drop; cbn [length] in Hl; lia]. rewrite Hr, <- app_assoc. cbn [app]. rewrite take_drop. reflexivity.
Qed.

Lemma ReadFileToString_ok fuel e n data : cf_look e n = Some data -> (length data < fuel)%nat -> ReadFileToString fo fuel e n = Some (OK, data).
Proof.
  intros HL Hf. unfold ReadFileToString. destruct (cf_open e n data HL) as (q & -> & Hq & <-). cbn [ok negb]. rewrite read_loop_all; [reflexivity|exact Hq|exact Hf].
Qed.

(** *** CURRENT *)

Lemma tmp_not_current dbname k : TempFileName dbname k <> CurrentFileName dbname.
Proof.
  intros H. unfold TempFileName, MakeFileName, CurrentFileName in H. apply app_inv_head in H. apply (f_equal (@list.last _)) in H. rewrite !app_assoc, last_app in H. discriminate.
Qed.

Definition current_contents (k : Z) : bytes := str "MANIFEST-" ++ decimal6 k ++ [z2b 10].

Lemma descriptor_base dbname k : drop (length dbname + 1) (DescriptorFileName dbname k) ++ [z2b 10] = current_contents k.
Proof.
  unfold DescriptorFileName, current_contents. change (str "/MANIFEST-" ++ decimal6 k) with ([z2b 47] ++ str "MANIFEST-" ++ decimal6 k).
  rewrite (app_assoc dbname), drop_app_length' by (rewrite length_app; reflexivity). rewrite <- app_assoc. reflexivity.
Qed.

(** What a crash may leave of CURRENT: what it may have left before, or the new name. *)

Definition current_safe (dbname : bytes) (k : Z) (e e' : E) : Prop :=
  forall c, cf_leaves e' (CurrentFileName dbname) c -> cf_leaves e (CurrentFileName dbname) c \/ c = Some (current_contents k).

Lemma kept_safe dbname k ns e e' : kept_but ns e e' -> ~ In (CurrentFileName dbname) ns -> current_safe dbname k e e'.
Proof. intros HK HN c Hc. left. apply (HK _ HN), Hc. Qed.

Lemma SetCurrentFile_guards dbname k e :
  guards (SetCurrentFile fo dbname k) e (current_safe dbname k e) (fun e' s => current_safe dbname k e e' /\
    kept_but [TempFileName dbname k; CurrentFileName dbname] e e' /\
    cf_look e' (CurrentFileName dbname) = if ok s then Some (current_contents k) else cf_look e (CurrentFileName dbname)).
Proof.
  pose proof (tmp_not_current dbname k) as HT. unfold SetCurrentFile. rewrite descriptor_base. set (tmp := TempFileName dbname k) in *. set (cur := CurrentFileName dbname) in *.
  assert (HC : ~ In cur [tmp]) by (intros [H|[]]; congruence).
  assert (HS : forall e', kept_but [tmp] e e' -> current_safe dbname k e e') by (intros e' K; eapply kept_safe; [exact K|exact HC]).
  assert (HP : forall e1 e', kept_but [tmp] e1 e' -> kept_but [tmp; cur] e1 e') by (intros e1 e' K m Hm; apply K; intros [H|[]]; apply Hm; left; exact H).
  eapply guards_bind with (mid := fun e1 s => kept_but [tmp] e e1 /\ (ok s = true -> stored e1 tmp (current_contents k))).
  { destruct (write_sync_guards (current_contents k) tmp e) as [G1 G2]. split; [|exact G2]. eapply List.Forall_impl; [|exact G1]. exact HS. }
  intros e1 s [K1 S1].
  eapply guards_bind with (mid := fun e2 s2 => current_safe dbname k e e2 /\ kept_but [tmp; cur] e e2 /\ cf_look e2 cur = if ok s2 then Some (current_contents k) else cf_look e cur).
  - destruct (ok s) eqn:Os; [|apply guards_ret; split; [apply HS, K1|split; [apply HP, K1|rewrite Os; apply (K1 cur HC)]]].
    destruct (S1 eq_refl) as [L1 D1]. assert (HM : current_safe dbname k e (fst (fo_RenameFile fo e1 tmp cur))).
    { intros c Hc. destruct (ok (snd (fo_RenameFile fo e1 tmp cur))) eqn:Or.
      - destruct (cf_rename e1 tmp cur HT Or) as [_ R]. destruct (R c Hc) as [G|G]; [left; apply (K1 cur HC), G|right; apply D1, G].
      - left. apply (K1 cur HC), (cf_rename_error e1 tmp cur Or), Hc. }
    apply guards_call; [exact HM|]. split; [exact HM|]. split.
    + eapply kept_but_trans; [apply HP, K1|]. intros m Hm. apply cf_rename_other; intros ->; apply Hm; cbn; auto.
    + destruct (ok (snd (fo_RenameFile fo e1 tmp cur))) eqn:Or; [destruct (cf_rename e1 tmp cur HT Or) as [R _]; congruence|].
      destruct (cf_rename_error e1 tmp cur Or) as [R _]. rewrite R. apply (K1 cur HC).
  - intros e2 s2 (HM & K2 & L2). destruct (ok s2) eqn:Os2; cbn [negb]; [apply guards_ret; rewrite Os2; auto|].
    assert (K : kept_but [tmp] e2 (fst (fo_RemoveFile fo e2 tmp))) by (intros m Hm; apply cf_remove_other, not_one, Hm).
    assert (HM' : current_safe dbname k e (fst (fo_RemoveFile fo e2 tmp))) by (intros c Hc; apply HM, (K cur HC), Hc).
    eapply guards_bind with (mid := fun e3 _ => e3 = fst (fo_RemoveFile fo e2 tmp)); [apply guards_call; [exact HM'|reflexivity]|]. intros e3 _ ->. apply guards_ret.
    split; [exact HM'|]. split; [eapply kept_but_trans; [exact K2|apply HP, K]|]. rewrite Os2. etransitivity; [apply (K cur HC)|exact L2].
Qed.

(** C19.  SetCurrentFile on a file system in which any call can fail and a crash can come
    after any of them: whenever it comes, CURRENT holds what it could hold before or the complete
    new manifest name, never a part of it (the temporary file is synced before it is renamed);
    at the end other files are untouched, and CURRENT reads, through ReadFileToString with any
    fuel above its length, as the new name when the status is OK, and is as before when it is not. *)
Theorem set_current_crash_safe (dbname : bytes) (k : Z) (e : E) :
  let '(states, (e', s)) := SetCurrentFile fo dbname k e in
  Forall (fun x => forall c, cf_leaves x (CurrentFileName dbname) c -> cf_leaves e (CurrentFileName dbname) c \/ c = Some (current_contents k)) (states ++ [e']) /\
  (forall m, m <> TempFileName dbname k -> m <> CurrentFileName dbname -> cf_look e' m = cf_look e m /\ forall c, cf_leaves e' m c -> cf_leaves e m c) /\
  (ok s = true -> forall fuel, (length (current_contents k) < fuel)%nat -> ReadFileToString fo fuel e' (CurrentFileName dbname) = Some (OK, current_contents k)) /\
  (ok s = false -> cf_look e' (CurrentFileName dbname) = cf_look e (CurrentFileName dbname)).
Proof.
  pose proof (SetCurrentFile_guards dbname k e) as (G & S1 & K & L). destruct (SetCurrentFile fo dbname k e) as [states [e' s]]. cbn [fst snd] in *.
  split; [apply List.Forall_app; split; [exact G|constructor; [exact S1|constructor]]|]. split.
  - intros m H1 H2. apply K. intros [H|[H|[]]]; congruence.
  - split; intros Os; rewrite Os in L; [|exact L]. intros fuel Hf. apply ReadFileToString_ok; assumption.
Qed.

(** *** The environment that the version set uses *)

(** A file system in which the calls succeed. *)

Record calls_succeed : Prop := {
  su_new : forall e n, ok (fst (snd (fo_NewWritableFile fo e n))) = true;
  su_append : forall (f : W) d, ok (fst (wf_Append f d)) = true;
  su_sync : forall f : W, ok (fst (wf_Sync f)) = true;
  su_close : forall f : W, wf_Close f = (OK, snd (wf_Close f));
  su_rename : forall e src dst, cf_look e src <> None -> snd (fo_RenameFile fo e src dst) = OK
}.

Lemma write_sync_succeeds data fname e : calls_succeed -> snd (snd (WriteStringToFileSync fo data fname e)) = OK.
Proof.
  intros HS. unfold WriteStringToFileSync, DoWriteStringToFile, pbind, pcall. pose proof (su_new HS e fname) as H1. destruct (cf_new e fname H1) as (f & E1 & _).
  destruct (fo_NewWritableFile fo e fname) as [e1 [s o]]. cbn [fst snd] in *. subst o. rewrite H1. cbn [negb].
  pose proof (su_append HS f data) as A1. destruct (wf_Append f data) as [s1 f1]. cbn [fst] in A1. rewrite A1. cbn [andb].
  pose proof (su_sync HS f1) as A2. destruct (wf_Sync f1) as [s2 f2]. cbn [fst] in A2. rewrite A2. rewrite (su_close HS f2). reflexivity.
Qed.

Lemma SetCurrentFile_succeeds dbname k e : calls_succeed -> snd (snd (SetCurrentFile fo dbname k e)) = OK.
Proof.
  intros HS. unfold SetCurrentFile. rewrite descriptor_base. destruct (write_sync_guards (current_contents k) (TempFileName dbname k) e) as [_ [_ G]].
  pose proof (write_sync_succeeds (current_contents k) (TempFileName dbname k) e HS) as W1. unfold pbind at 1.
  destruct (WriteStringToFileSync fo (current_contents k) (TempFileName dbname k) e) as [l [e1 s]]. cbn [fst snd] in *. subst s. destruct (G eq_refl) as [L _].
  unfold pbind, pcall. change (ok OK) with true. cbv beta iota. pose proof (su_rename HS e1 (TempFileName dbname k) (CurrentFileName dbname) ltac:(congruence)) as R.
  destruct (fo_RenameFile fo e1 (TempFileName dbname k) (CurrentFileName dbname)) as [e2 s2]. cbn [fst snd] in R. subst s2. reflexivity.
Qed.

(** Its two routines put into the operations of the version set: they are what the
    theorems on LogAndApply and Recover ask of them. *)

Definition with_routines (fuel : nat) (env : @EnvOps E W Q) : @EnvOps E W Q :=
  mkEnvOps (env_NewWritableFile env) (env_NewAppendableFile env) (env_NewSequentialFile env) (fun e n => default (OK, []) (ReadFileToString fo fuel e n))
    (env_GetFileSize env) (env_RemoveFile env) (fun e dbname k => snd (SetCurrentFile fo dbname k e)).

Lemma with_routines_reliable {RW : ReliableWritable W} fuel (env : @EnvOps E W Q) dbname : calls_succeed ->
  (forall e name, exists e' f, env_NewWritableFile env e name = (e', (OK, Some f)) /\ wf_inv f /\ wf_contents f = []) -> env_reliable dbname (with_routines fuel env).
Proof. intros HS HN. split; [exact HN|]. intros e k. apply SetCurrentFile_succeeds, HS. Qed.

Lemma with_routines_names fuel (env : @EnvOps E W Q) dbname k e file : calls_succeed -> (length (current_contents k) < fuel)%nat ->
  let e' := fst (snd (SetCurrentFile fo dbname k e)) in env_NewSequentialFile env e' (DescriptorFileName dbname k) = (OK, Some file) ->
  current_names dbname (with_routines fuel env) e' (str "MANIFEST-" ++ decimal6 k) file.
Proof.
  intros HS Hf e' HO. destruct (SetCurrentFile_guards dbname k e) as (_ & _ & _ & L). rewrite (SetCurrentFile_succeeds dbname k e HS) in L. cbn [ok] in L.
  split; [|exact HO]. cbn [env_ReadFileToString with_routines]. unfold e'. rewrite (ReadFileToString_ok fuel _ _ _ L Hf). cbn [default]. unfold current_contents. rewrite app_assoc. reflexivity.
Qed.

End Crash.

(** ** A disk *)

(** A file: what was written, and what of it was synced. *)

Record DiskFile := mkDiskFile { df_data : bytes; df_synced : bytes }.

#[export] Instance DiskWritable : WritableFile DiskFile := {
  wf_Append f d := (OK, mkDiskFile (df_data f ++ d) (df_synced f));
  wf_Close f := (OK, f);
  wf_Flush f := (OK, f);
  wf_Sync f := (OK, mkDiskFile (df_data f) (df_data f))
}.

#[export, refine] Instance DiskHonest : HonestWritable DiskFile := { hw_contents := df_data; hw_synced := df_synced }.
Proof. all: intros; cbn; auto. Defined.

(** Each name with what it reads as and all that a crash may leave of it; the calls on
    the names of [bad] fail. *)

Record Disk := mkDisk { dk_look : bytes -> option bytes; dk_left : bytes -> list (option bytes) }.

Definition disk_set (d : Disk) (n : bytes) (c : option bytes) (left : list (option bytes)) : Disk :=
  mkDisk (fun m => if decide (m = n) then c else dk_look d m) (fun m => if decide (m = n) then left else dk_left d m).

Definition disk_ops (bad : list bytes) : FileOps Disk DiskFile SequentialFileImpl :=
  mkFileOps _ _ _
    (fun d n => if decide (n ∈ bad) then (d, (IOError n [], None)) else (disk_set d n (Some []) (Some [] :: dk_left d n), (OK, Some (mkDiskFile [] []))))
    (fun d n f => disk_set d n (Some (df_data f)) (if decide (df_synced f = df_data f) then [Some (df_data f)] else map Some (map (fun k => take k (df_data f)) (List.seq 0 (S (length (df_data f)))))))
    (fun d n => match dk_look d n with Some c => (OK, Some (mkSequentialFileImpl (snd (FS_Append FileState_new c)) 0)) | None => (NotFound n [], None) end)
    (fun d n => match dk_look d n with Some _ => (disk_set d n None (None :: dk_left d n), OK) | None => (d, NotFound n []) end)
    (fun d src dst => if decide (dst ∈ bad) then (d, IOError dst [])
                      else match dk_look d src with Some c => (disk_set (disk_set d src None (None :: dk_left d src)) dst (Some c) (dk_left d src ++ dk_left d dst), OK) | None => (d, NotFound src []) end).

Lemma disk_set_eq d n c l : dk_look (disk_set d n c l) n = c /\ dk_left (disk_set d n c l) n = l.
Proof. cbn. rewrite !decide_True by reflexivity. split; reflexivity. Qed.

Lemma disk_set_ne d n c l m : m <> n -> dk_look (disk_set d n c l) m = dk_look d m /\ dk_left (disk_set d n c l) m = dk_left d m.
Proof. intros H. cbn. rewrite !decide_False by exact H. split; reflexivity. Qed.

#[export, refine] Instance DiskCrashFs (bad : list bytes) : CrashFs (disk_ops bad) := { cf_look := dk_look; cf_leaves d n c := In c (dk_left d n) }.
Proof.
  - intros d n. cbn. destruct (decide (n ∈ bad)); cbn; [discriminate|]. intros _. eexists. split; reflexivity.
  - intros d n m Hm. cbn [fo_NewWritableFile disk_ops]. destruct (decide (n ∈ bad)); cbn [fst]; [split; auto|]. destruct (disk_set_ne d n (Some []) (Some [] :: dk_left d n) m Hm) as [-> ->]. auto.
  - intros d n f Hf. cbn [fo_delete disk_ops hw_contents hw_synced DiskHonest] in *. destruct (decide _) as [_|G]; [|contradiction].
    destruct (disk_set_eq d n (Some (df_data f)) [Some (df_data f)]) as [-> ->]. split; [reflexivity|]. intros c [<-|[]]. reflexivity.
  - intros d n f m Hm. cbn [fo_delete disk_ops]. match goal with |- context [disk_set d n ?c ?l] => destruct (disk_set_ne d n c l m Hm) as [-> ->] end. auto.
  - intros d n m Hm. cbn [fo_RemoveFile disk_ops]. destruct (dk_look d n); cbn [fst]; [|split; auto]. match goal with |- context [disk_set d n ?c ?l] => destruct (disk_set_ne d n c l m Hm) as [-> ->] end. auto.
  - intros d src dst Hne. cbn [fo_RenameFile disk_ops]. destruct (decide (dst ∈ bad)); [discriminate|]. destruct (dk_look d src) as [c|]; [|discriminate]. cbn [fst snd]. intros _.
    match goal with |- context [disk_set ?d1 dst ?x ?l] => destruct (disk_set_eq d1 dst x l) as [-> ->] end. split; [reflexivity|]. intros y Hy. apply in_app_or in Hy. tauto.
  - intros d src dst. cbn [fo_RenameFile disk_ops]. destruct (decide (dst ∈ bad)); cbn [fst snd]; [intros _; split; auto|]. destruct (dk_look d src); [discriminate|]. intros _. split; auto.
  - intros d src dst m H1 H2. cbn [fo_RenameFile disk_ops]. destruct (decide (dst ∈ bad)); cbn [fst]; [split; auto|]. destruct (dk_look d src); cbn [fst]; [|split; auto].
    match goal with |- context [disk_set ?d1 dst ?x ?l] => destruct (disk_set_ne d1 dst x l m H2) as [-> ->] end.
    match goal with |- context [disk_set ?d1 src ?x ?l] => destruct (disk_set_ne d1 src x l m H1) as [-> ->] end. auto.
  - intros d n c Hc. cbn [fo_NewSequentialFile disk_ops]. rewrite Hc. eexists. split; [reflexivity|].
    destruct (FS_Append_loop_ok (S (length c)) FileState_new c FSInv_new ltac:(lia)) as [HI HC]. cbn [sf_inv sf_rest MemReliableSequential seq_file pos_ FS_Append snd].
    split; [split; [exact HI|split; [reflexivity|exact (fs_size _ HI)]]|]. rewrite HC. reflexivity.
Defined.

(** CURRENT is switched from manifest 1 to manifest 2. *)

Definition one_disk : Disk := disk_set (mkDisk (fun _ => None) (fun _ => [None])) (str "db/CURRENT") (Some (current_contents 1)) [Some (current_contents 1)].

Lemma set_current_crash_safe_witness :
  let '(states, (d, s)) := SetCurrentFile (disk_ops []) (str "db") 2 one_disk in
  length states = 3%nat /\ s = OK /\ ReadFileToString (disk_ops []) 20 d (str "db/CURRENT") = Some (OK, str "MANIFEST-000002" ++ [z2b 10]) /\
  Forall (fun x => forall c, In c (dk_left x (str "db/CURRENT")) -> c = Some (current_contents 1) \/ c = Some (current_contents 2)) states.
Proof.
  pose proof (set_current_crash_safe (disk_ops []) (str "db") 2 one_disk) as H.
  destruct (SetCurrentFile (disk_ops []) (str "db") 2 one_disk) as [states [d s]] eqn:E0. destruct H as (HF & _ & HO & _).
  assert (Hs : s = OK /\ length states = 3%nat) by (split; [change s with (snd (snd (states, (d, s))))|change states with (fst (states, (d, s)))]; rewrite <- E0; vm_compute; reflexivity).
  destruct Hs as [-> Hl]. split; [exact Hl|]. split; [reflexivity|]. split; [apply HO; [reflexivity|vm_compute; lia]|].
  apply List.Forall_app in HF as [HF _]. eapply List.Forall_impl; [|exact HF]. intros x Hx c Hc. destruct (Hx c Hc) as [[<-|[]]|H]; [left; reflexivity|right; exact H].
Defined.
