(* ===== verification/DbAdmin.v ===== *)
(** * Destroying a database, properties and sizes (db/db_impl.cc)

    [DestroyDB], [GetProperty], [GetApproximateSizes] and the convenience methods of
    [DB].  The text of the statistics is a parameter: statistics are left out. *)

From S2P Require Import Prelude Coding Compare DbFormat Logging FileName SkipList Arena MemTable WriteBatch Crc32c Env Log Filter Iterator Block Format TableBuilder Table VersionEdit Version Compaction VersionSet MemIter DbImpl DbRead DbFlush.
#[local] Open Scope Z_scope.
#[local] Open Scope ldb_scope.

(** ** [DestroyDB] *)

Section Destroy.
Context {E : Type}.

(** The operations of an environment that [DestroyDB] uses. *)

Record DirOps := mkDirOps {
  dir_GetChildren : E -> bytes -> Status * list bytes;
  dir_LockFile : E -> bytes -> E * Status;
  dir_UnlockFile : E -> bytes -> E * Status;
  dir_RemoveFile : E -> bytes -> E * Status;
  dir_RemoveDir : E -> bytes -> E * Status
}.

Context (dir : DirOps).

Definition destroy_file (dbname : bytes) (r : E * Status) (filename : bytes) : E * Status :=
  let '(e, result) := r in
  match ParseFileName filename with
  | Some (_, type) =>
      if bool_decide (type = kDBLockFile) then r
      else
        let '(e, del) := dir_RemoveFile dir e (dbname ++ str "/" ++ filename) in
        (e, if ok result && negb (ok del) then del else result)
  | None => r
  end.

Definition DestroyDB (dbname : bytes) (e : E) : E * Status :=
  let '(result, filenames) := dir_GetChildren dir e dbname in
  if negb (ok result) then (e, OK)
  else
    let lockname := LockFileName dbname in
    let '(e, result) := dir_LockFile dir e lockname in
    if ok result then
      let '(e, result) := fold_left (destroy_file dbname) filenames (e, result) in
      let '(e, _) := dir_UnlockFile dir e lockname in
      let '(e, _) := dir_RemoveFile dir e lockname in
      let '(e, _) := dir_RemoveDir dir e dbname in
      (e, result)
    else (e, result).

(** ** File systems

    [dl_look] is what a name reads as.  Any call may fail; a removal that fails leaves
    everything, and the calls on the lock and on the directory touch no other file. *)

Class DirLaws := {
  dl_look : E -> bytes -> option bytes;
  dl_children : forall e d, ok (fst (dir_GetChildren dir e d)) = true -> forall m, dl_look e (d ++ str "/" ++ m) <> None -> In m (snd (dir_GetChildren dir e d));
  dl_lock : forall e n m, m <> n -> dl_look (fst (dir_LockFile dir e n)) m = dl_look e m;
  dl_unlock : forall e n m, m <> n -> dl_look (fst (dir_UnlockFile dir e n)) m = dl_look e m;
  dl_remove : forall e n, ok (snd (dir_RemoveFile dir e n)) = true -> dl_look (fst (dir_RemoveFile dir e n)) n = None;
  dl_remove_error : forall e n, ok (snd (dir_RemoveFile dir e n)) = false -> dl_look (fst (dir_RemoveFile dir e n)) n = dl_look e n;
  dl_remove_other : forall e n m, m <> n -> dl_look (fst (dir_RemoveFile dir e n)) m = dl_look e m;
  dl_removedir : forall e d m, dl_look (fst (dir_RemoveDir dir e d)) m = dl_look e m
}.

Context {DL : DirLaws} (dbname : bytes).

#[local] Abbreviation child m := (dbname ++ str "/" ++ m).

Lemma child_inj a b : child a = child b -> a = b.
Proof. intros H. apply app_inv_head, app_inv_head in H. exact H. Qed.

(** The names that [DestroyDB] removes: those of the database but its lock. *)

Definition destroyed (m : bytes) : bool := match ParseFileName m with Some (_, type) => negb (bool_decide (type = kDBLockFile)) | None => false end.

Lemma destroy_file_cases e result m : destroy_file dbname (e, result) m =
  if destroyed m then let r := dir_RemoveFile dir e (child m) in (fst r, if ok result && negb (ok (snd r)) then snd r else result) else (e, result).
Proof.
  unfold destroy_file, destroyed. destruct (ParseFileName m) as [[n t]|]; [|reflexivity]. destruct (bool_decide _); cbn [negb]; [reflexivity|].
  destruct (dir_RemoveFile dir e (child m)). reflexivity.
Qed.

(** What the loop does: a name is gone once it has been removed, nothing comes back, and
    a failed removal shows in the result. *)

Lemma destroy_loop names : forall e result, let r := fold_left (destroy_file dbname) names (e, result) in
  (forall m, (forall b, In b names -> destroyed b = true -> m <> child b) -> dl_look (fst r) m = dl_look e m) /\
  (forall b, dl_look e (child b) = None -> dl_look (fst r) (child b) = None) /\
  (ok (snd r) = true -> ok result = true /\ forall b, In b names -> destroyed b = true -> dl_look (fst r) (child b) = None) /\
  (ok result = false -> snd r = result).
Proof.
  induction names as [|x names IH]; intros e result; cbn [fold_left].
  { cbn. repeat split; try reflexivity; try assumption; auto. intros b []. }
  rewrite destroy_file_cases. destruct (destroyed x) eqn:Dx; cbv zeta.
  2: { destruct (IH e result) as (I1 & I2 & I3 & I4). repeat split; try assumption.
       - intros m Hm. apply I1. intros b Hb. apply Hm. right. exact Hb.
       - apply I3, H.
       - intros b [<-|Hb] Db; [congruence|]. apply I3; assumption. }
  set (e1 := fst (dir_RemoveFile dir e (child x))). set (s1 := snd (dir_RemoveFile dir e (child x))).
  destruct (IH e1 (if ok result && negb (ok s1) then s1 else result)) as (I1 & I2 & I3 & I4).
  assert (HG : forall b, dl_look e (child b) = None -> dl_look e1 (child b) = None).
  { intros b Hb. destruct (decide (b = x)) as [->|N]; [|unfold e1; rewrite dl_remove_other; [exact Hb|intros H; apply N, child_inj, H]].
    destruct (ok s1) eqn:Os; [apply dl_remove, Os|unfold e1; rewrite dl_remove_error; [exact Hb|exact Os]]. }
  repeat split.
  - intros m Hm. rewrite I1; [|intros b Hb; apply Hm; right; exact Hb]. unfold e1. apply dl_remove_other, Hm; [left; reflexivity|exact Dx].
  - intros b Hb. apply I2, HG, Hb.
  - destruct (I3 H) as [G _]. destruct (ok result) eqn:Or; [reflexivity|]. cbn [andb] in G. congruence.
  - intros b Hb Db. destruct (I3 H) as [G GA]. destruct Hb as [<-|Hb]; [|apply GA; assumption]. apply I2, dl_remove.
    fold s1. destruct (ok result) eqn:Or; cbn [andb] in G; [|congruence]. destruct (ok s1) eqn:Os; cbn [negb] in G; congruence.
  - intros Or. rewrite I4; [rewrite Or; reflexivity|rewrite Or; exact Or].
Qed.

Lemma lock_is_child : LockFileName dbname = child (str "LOCK").
Proof. reflexivity. Qed.

Lemma destroyed_not_lock b : destroyed b = true -> child b <> LockFileName dbname.
Proof. intros Hb H. rewrite lock_is_child in H. apply child_inj in H. subst b. discriminate Hb. Qed.

(** C40.  DestroyDB on a file system in which any call can fail.  A directory that cannot be
    listed is left as it is, with status OK; when the lock cannot be taken (the database is open)
    its error is the status, and no file but the lock is touched.  Otherwise files that are not the
    database's stay as they are; and when the status is OK none of the database's files is left,
    LOCK excepted: if one of the others could not be removed, the status is not OK.  LOCK is removed
    last and the status of that call is ignored, so it is gone only if the call succeeds. *)
Theorem destroy_db (e : E) : let r := DestroyDB dbname e in
  (ok (fst (dir_GetChildren dir e dbname)) = false -> r = (e, OK)) /\
  (ok (fst (dir_GetChildren dir e dbname)) = true -> ok (snd (dir_LockFile dir e (LockFileName dbname))) = false ->
     snd r = snd (dir_LockFile dir e (LockFileName dbname)) /\ forall m, m <> LockFileName dbname -> dl_look (fst r) m = dl_look e m) /\
  (forall m, m <> LockFileName dbname -> (forall b, destroyed b = true -> m <> child b) -> dl_look (fst r) m = dl_look e m) /\
  (ok (fst (dir_GetChildren dir e dbname)) = true -> ok (snd r) = true -> forall b, destroyed b = true -> dl_look (fst r) (child b) = None) /\
  (ok (fst (dir_GetChildren dir e dbname)) = true -> ok (snd (dir_LockFile dir e (LockFileName dbname))) = true ->
     (forall e', ok (snd (dir_RemoveFile dir e' (LockFileName dbname))) = true) -> dl_look (fst r) (LockFileName dbname) = None).
Proof.
  unfold DestroyDB. pose proof (dl_children e dbname) as HC. destruct (dir_GetChildren dir e dbname) as [s names]. cbn [fst snd] in *.
  destruct (ok s) eqn:Os; cbn [negb]; [|repeat split; auto; discriminate].
  pose proof (dl_lock e (LockFileName dbname)) as HL. destruct (dir_LockFile dir e (LockFileName dbname)) as [e1 s1]. cbn [fst snd] in *.
  destruct (ok s1) eqn:O1; [|split; [discriminate|]; split; [intros _ _; split; [reflexivity|exact HL]|]; split; [intros m Hm _; apply HL, Hm|cbn [snd]; split; congruence]].
  destruct (destroy_loop names e1 s1) as (L1 & L2 & L3 & _). destruct (fold_left (destroy_file dbname) names (e1, s1)) as [e2 s2]. cbn [fst snd] in *.
  pose proof (dl_unlock e2 (LockFileName dbname)) as HU. destruct (dir_UnlockFile dir e2 (LockFileName dbname)) as [e3 s3]. cbn [fst snd] in HU.
  pose proof (dl_remove_other e3 (LockFileName dbname)) as HR. pose proof (dl_remove e3 (LockFileName dbname)) as HG.
  assert (HO : (forall e', ok (snd (dir_RemoveFile dir e' (LockFileName dbname))) = true) -> ok (snd (dir_RemoveFile dir e3 (LockFileName dbname))) = true) by auto.
  destruct (dir_RemoveFile dir e3 (LockFileName dbname)) as [e4 s4]. cbn [fst snd] in HR, HG, HO.
  pose proof (dl_removedir e4 dbname) as HD. destruct (dir_RemoveDir dir e4 dbname) as [e5 s5]. cbn [fst snd] in HD |- *.
  assert (HT : forall m, m <> LockFileName dbname -> dl_look e5 m = dl_look e2 m) by (intros m Hm; rewrite HD, HR, HU by exact Hm; reflexivity).
  split; [discriminate|]. split; [congruence|]. split; [|split; [|intros _ _ HA; rewrite HD; exact (HG (HO HA))]].
  - intros m Hm Hb. rewrite HT, L1, HL; try assumption; [reflexivity|]. intros b _ Db. apply Hb, Db.
  - intros _ O2 b Db. pose proof (destroyed_not_lock b Db) as Nb. rewrite HT by exact Nb. destruct (dl_look e (child b)) as [c|] eqn:EL.
    + apply L3; [exact O2|apply HC; [reflexivity|rewrite EL; discriminate]|exact Db].
    + apply L2. rewrite HL by exact Nb. exact EL.
Qed.

End Destroy.

(** A directory that is a list of names; [locked] names cannot be locked. *)

Definition list_dir (locked : list bytes) : @DirOps (list bytes) :=
  mkDirOps (fun l d => (OK, map (drop (length d + 1)) (List.filter (fun n => Slice_starts_with n (d ++ str "/")) l)))
    (fun l n => if decide (n ∈ locked) then (l, IOError n []) else (n :: l, OK)) (fun l n => (l, OK))
    (fun l n => if decide (n ∈ l) then (List.filter (fun m => negb (bool_decide (m = n))) l, OK) else (l, NotFound n [])) (fun l d => (l, OK)).

Definition list_look (l : list bytes) (n : bytes) : option bytes := if decide (n ∈ l) then Some [] else None.

Lemma list_look_same l l' n : (n ∈ l' <-> n ∈ l) -> list_look l' n = list_look l n.
Proof. intros H. unfold list_look. destruct (decide (n ∈ l')), (decide (n ∈ l)); tauto || reflexivity. Qed.

#[export, refine] Instance ListDirLaws locked : DirLaws (list_dir locked) := { dl_look := list_look }.
Proof.
  - intros l d _ m Hm. cbn [dir_GetChildren list_dir snd]. apply in_map_iff. exists (d ++ str "/" ++ m). split.
    + rewrite app_assoc. apply drop_app_length'. rewrite length_app. reflexivity.
    + apply filter_In. split; [|apply Slice_starts_with_spec; exists m; rewrite <- app_assoc; reflexivity].
      unfold list_look in Hm. destruct (decide _) as [G|]; [|contradiction]. apply list_elem_of_In, G.
  - intros l n m Hm. cbn [dir_LockFile list_dir]. destruct (decide (n ∈ locked)); cbn [fst]; [reflexivity|]. apply list_look_same. rewrite elem_of_cons. tauto.
  - reflexivity.
  - intros l n. cbn [dir_RemoveFile list_dir]. destruct (decide (n ∈ l)); [|discriminate]. intros _. unfold list_look. cbn [fst]. destruct (decide _) as [G|]; [|reflexivity].
    apply list_elem_of_In, filter_In in G as [_ G]. rewrite bool_decide_eq_true_2 in G by reflexivity. discriminate.
  - intros l n. cbn [dir_RemoveFile list_dir]. destruct (decide (n ∈ l)); [discriminate|reflexivity].
  - intros l n m Hm. cbn [dir_RemoveFile list_dir]. destruct (decide (n ∈ l)); cbn [fst]; [|reflexivity]. apply list_look_same. rewrite !list_elem_of_In, filter_In.
    rewrite bool_decide_eq_false_2 by exact Hm. cbn. tauto.
  - reflexivity.
Defined.

Definition some_files : list bytes := [str "db/CURRENT"; str "db/LOCK"; str "db/000005.ldb"; str "db/notes.txt"; str "other/000005.ldb"].

Lemma destroy_db_witness : list_look (fst (DestroyDB (list_dir []) (str "db") some_files)) (str "db/000005.ldb") = None /\
  list_look (fst (DestroyDB (list_dir []) (str "db") some_files)) (str "db/notes.txt") <> None /\
  fst (DestroyDB (list_dir []) (str "db") some_files) = [str "db/notes.txt"; str "other/000005.ldb"] /\
  list_look (fst (DestroyDB (list_dir [str "db/LOCK"]) (str "db") some_files)) (str "db/CURRENT") = Some [].
Proof.
  destruct (destroy_db (list_dir []) (str "db") some_files) as (_ & _ & _ & H4 & _).
  destruct (destroy_db (list_dir [str "db/LOCK"]) (str "db") some_files) as (_ & H2 & _).
  split; [apply (H4 eq_refl ltac:(vm_compute; reflexivity) (str "000005.ldb")); vm_compute; reflexivity|].
  split; [vm_compute; discriminate|]. split; [vm_compute; reflexivity|].
  destruct (H2 eq_refl ltac:(vm_compute; reflexivity)) as [_ G]. etransitivity; [apply (G (str "db/CURRENT")); vm_compute; discriminate|vm_compute; reflexivity].
Defined.

(** ** [GetProperty] and [GetApproximateSizes] *)

Section Admin.
Context (U : Comparator) {E W : Type}.

#[local] Abbreviation DB := (@DBImpl E W).

(** [stats]: the text of leveldb.stats; [charge]: the charge of the block cache.  [None]
    when the property is unknown. *)

Definition GetProperty (stats : DB -> bytes) (charge : Z) (property : bytes) (db : DB) : option bytes :=
  let prefix := str "leveldb." in
  if negb (Slice_starts_with property prefix) then None
  else
    let input := drop (length prefix) property in
    if Slice_starts_with input (str "num-files-at-level") then
      match ConsumeDecimalNumber (drop (length (str "num-files-at-level")) input) with
      | Some (level, []) => if Z.of_nat kNumLevels <=? level then None else Some (NumberToString (NumLevelFiles (db_versions db) (Z.to_nat level)))
      | _ => None
      end
    else if Slice_eq input (str "stats") then Some (stats db)
    else if Slice_eq input (str "sstables") then Some (Version_DebugString (vs_heap (db_versions db)) (current (db_versions db)))
    else if Slice_eq input (str "approximate-memory-usage") then
      let total_usage := u64 (charge + MT_ApproximateMemoryUsage (db_mem db)) in
      let total_usage := match db_imm db with Some imm => u64 (total_usage + MT_ApproximateMemoryUsage imm) | None => total_usage end in
      Some (NumberToString total_usage)
    else None.

(** [approximate]: what the table cache says of a file and a key. *)

Definition GetApproximateSizes (approximate : Z -> Z -> bytes -> option Z) (ranges : list (bytes * bytes)) (db : DB) : list Z * DB :=
  let version := vs_current (db_versions db) in
  let db := ref_current db in
  let vs := db_versions db in
  let v := current vs in
  let sizes := map (fun range =>
    let start := VS_ApproximateOffsetOf U approximate vs v (mkInternalKey (fst range) kMaxSequenceNumber kValueTypeForSeek) in
    let limit := VS_ApproximateOffsetOf U approximate vs v (mkInternalKey (snd range) kMaxSequenceNumber kValueTypeForSeek) in
    if start <=? limit then limit - start else 0) ranges in
  (sizes, unref_version db version).

(** The number of files of a level can be asked for by the number of the level, and only
    of the levels there are. *)

Lemma property_num_files stats charge n (db : DB) : 0 <= n < 2 ^ 64 ->
  GetProperty stats charge (str "leveldb.num-files-at-level" ++ NumberToString n) db =
  if Z.of_nat kNumLevels <=? n then None else Some (NumberToString (NumLevelFiles (db_versions db) (Z.to_nat n))).
Proof.
  intros Hn. unfold GetProperty. change (str "leveldb.num-files-at-level") with (str "leveldb." ++ str "num-files-at-level"). rewrite <- app_assoc.
  rewrite (proj2 (Slice_starts_with_spec _ (str "leveldb."))) by eauto. cbn [negb]. rewrite drop_app_length.
  rewrite (proj2 (Slice_starts_with_spec _ (str "num-files-at-level"))) by eauto. rewrite drop_app_length.
  destruct (NumberToString_digits n Hn) as (H1 & H2 & H3). pose proof (ConsumeDecimalNumber_digits (NumberToString n) [] H1 H3 I) as HC. rewrite app_nil_r, H2 in HC.
  rewrite HC, (proj2 (Z.ltb_lt _ _)) by lia. reflexivity.
Qed.

End Admin.
