(* ===== verification/Dump.v ===== *)
(** * Printing the files of a database (db/dumpfile.cc)

    [DumpFile] prints a log, a descriptor or a table.  The file it prints to is any
    [WritableFile]; the status of an append is ignored, as in the code. *)

From S2P Require Import Prelude Coding Compare DbFormat Logging FileName SkipList Arena MemTable WriteBatch Crc32c Env EnvPosix Log Filter Iterator Block TwoLevel Format TableBuilder Table VersionEdit Version Compaction VersionSet DbRecover.
#[local] Open Scope Z_scope.
#[local] Open Scope ldb_scope.

#[local] Abbreviation newline := ([z2b 10] : bytes).

(** ** The texts *)

Definition corruption_text (bytes : Z) (status : Status) : list byte :=
  str "corruption: " ++ NumberToString bytes ++ str " bytes; " ++ Status_ToString status ++ newline.

Definition put_text (key value : bytes) : bytes := AppendEscapedStringTo (AppendEscapedStringTo (str "  put '") key ++ str "' '") value ++ str "'" ++ newline.

Definition delete_text (key : bytes) : bytes := AppendEscapedStringTo (str "  del '") key ++ str "'" ++ newline.

Section Dump.
Context {E W Q F : Type} {WF : WritableFile W} {SF : SequentialFile Q} {RF : RandomAccessFile F} (K : Compression) (scratch : bool).
Context (env_NewSequentialFile : E -> bytes -> Status * option Q) (env_NewRandomAccessFile : E -> bytes -> Status * option F) (env_GetFileSize : E -> bytes -> Status * Z).

Definition GuessType (fname : bytes) : option FileType := option_map snd (ParseFileName (Basename fname)).

Definition print (dst : W) (text : bytes) : W := snd (wf_Append dst text).

(** ** Logs and descriptors *)

(** The reports of one read, in order. *)

Definition print_reports (before after : option (list (Z * Status))) (dst : W) : W :=
  fold_left (fun dst r => print dst (corruption_text (fst r) (snd r))) (drop (length (default [] before)) (default [] after)) dst.

Fixpoint print_records (func : Z -> bytes -> W -> option W) (n fuel : nat) (r : Reader Q) (dst : W) : option W :=
  match n with
  | O => None
  | S n =>
      match ReadRecord fuel r with
      | None => None
      | Some (record, r') =>
          let dst := print_reports (reporter_ r) (reporter_ r') dst in
          match record with
          | None => Some dst
          | Some record =>
              match func (last_record_offset_ r') record dst with
              | None => None
              | Some dst => print_records func n fuel r' dst
              end
          end
      end
  end.

Definition PrintLogContents (e : E) (fname : bytes) (func : Z -> bytes -> W -> option W) (n fuel : nat) (dst : W) : option (Status * W) :=
  let '(s, file) := env_NewSequentialFile e fname in
  if negb (ok s) then Some (s, dst)
  else match file with None => None | Some file => option_map (pair OK) (print_records func n fuel (Reader_new file (Some []) true 0) dst) end.

(** The handler does not override [DeleteRange], whose default does nothing. *)

Definition WriteBatchItemPrinter : Handler W :=
  mkHandler (fun dst key value => print dst (put_text key value)) (fun dst key => print dst (delete_text key)) (fun dst _ _ => dst).

Definition offset_text (pos : Z) : bytes := str "--- offset " ++ NumberToString pos ++ str "; ".

Definition WriteBatchPrinter (pos : Z) (record : bytes) (dst : W) : option W :=
  let r := offset_text pos in
  if sz record <? 12 then Some (print dst (r ++ str "log record length " ++ NumberToString (sz record) ++ str " is too small" ++ newline))
  else
    let batch := WBI_SetContents record in
    let dst := print dst (r ++ str "sequence " ++ NumberToString (WBI_Sequence batch) ++ newline) in
    match WB_Iterate WriteBatchItemPrinter batch dst with
    | None => None
    | Some (s, dst) => Some (if ok s then dst else print dst (str "  error: " ++ Status_ToString s ++ newline))
    end.

Definition DumpLog (e : E) (fname : bytes) (n fuel : nat) (dst : W) : option (Status * W) := PrintLogContents e fname WriteBatchPrinter n fuel dst.

Definition VersionEditPrinter (pos : Z) (record : bytes) (dst : W) : option W :=
  let r := offset_text pos in
  let '(s, edit) := VE_DecodeFrom record in
  Some (print dst (if negb (ok s) then r ++ Status_ToString s ++ newline else r ++ VE_DebugString edit)).

Definition DumpDescriptor (e : E) (fname : bytes) (n fuel : nat) (dst : W) : option (Status * W) := PrintLogContents e fname VersionEditPrinter n fuel dst.

(** ** Tables *)

Definition entry_text (k v : bytes) : bytes :=
  match ParseInternalKey k with
  | None => AppendEscapedStringTo (AppendEscapedStringTo (str "badkey '") k ++ str "' => '") v ++ str "'" ++ newline
  | Some key =>
      let r := AppendEscapedStringTo (str "'") (user_key key) ++ str "' @ " ++ NumberToString (sequence key) ++ str " : " ++
        match type key with kTypeDeletion => str "del" | kTypeValue => str "val" | t => NumberToString (vt_code t) end ++ str " => '" in
      AppendEscapedStringTo r v ++ str "'" ++ newline
  end.

Fixpoint print_entries {It} {IT : Iterator It} (n : nat) (iter : It) (dst : W) : option (It * W) :=
  match n with
  | O => None
  | S n => if iValid iter then print_entries n (iNext iter) (print dst (entry_text (iKey iter) (iValue iter))) else Some (iter, dst)
  end.

(** [Options()] *)

Definition default_options : Options := mkOptions 4096 16 kSnappyCompression 1 None false.

Definition DumpTable (e : E) (fname : bytes) (n : nat) (dst : W) : option (Status * W) :=
  let '(s, file_size) := env_GetFileSize e fname in
  let '(s, file) := if ok s then env_NewRandomAccessFile e fname else (s, None) in
  if negb (ok s) then Some (s, dst)
  else
    match file with
    | None => None
    | Some file =>
        let '(s, table) := Table_Open K scratch default_options 0 file file_size in
        if negb (ok s) then Some (s, dst)
        else
          match table with
          | None => None
          | Some table =>
              let IT := TableIteratorOps K scratch BytewiseComparator None table (mkReadOptions false false) in
              match print_entries n (iSeekToFirst (Table_NewIterator table)) dst with
              | None => None
              | Some (iter, dst) => Some (OK, if ok (iStatus iter) then dst else print dst (str "iterator error: " ++ Status_ToString (iStatus iter) ++ newline))
              end
          end
    end.

Definition DumpFile (e : E) (fname : bytes) (n fuel : nat) (dst : W) : option (Status * W) :=
  match GuessType fname with
  | None => Some (InvalidArgument (fname ++ str ": unknown file type") [], dst)
  | Some kLogFile => DumpLog e fname n fuel dst
  | Some kDescriptorFile => DumpDescriptor e fname n fuel dst
  | Some kTableFile => DumpTable e fname n dst
  | Some _ => Some (InvalidArgument (fname ++ str ": not a dump-able file type") [], dst)
  end.

End Dump.

(** ** What the dump of a log says *)

Definition op_text (op : Op) : bytes := match op with OpPut k v => put_text k v | OpDelete k => delete_text k | OpDeleteRange _ _ => [] end.

Fixpoint groups_text (q : Z) (groups : list (list Op)) (positions : list Z) : bytes :=
  match groups, positions with
  | ops :: groups, pos :: positions =>
      offset_text pos ++ str "sequence " ++ NumberToString q ++ newline ++ concat (map op_text ops) ++ groups_text (q + sz ops) groups positions
  | _, _ => []
  end.

Section DumpOk.
Context {W Q : Type} {WF : WritableFile W} {RW : ReliableWritable W} {SF : SequentialFile Q} {RS : ReliableSequential Q}.

(** [dst'] is [dst] with [text] behind it. *)

Definition printed (dst : W) (text : bytes) (dst' : W) : Prop := wf_inv dst' /\ wf_contents dst' = wf_contents dst ++ text.

Lemma print_ok (dst : W) text : wf_inv dst -> printed dst text (print dst text).
Proof. intros H. unfold print. destruct (wf_append_ok dst text H) as (f' & -> & Hi & Hc). split; assumption. Qed.

Lemma printed_app (a b c : W) t1 t2 : printed a t1 b -> printed b t2 c -> printed a (t1 ++ t2) c.
Proof. intros [H1 H2] [H3 H4]. split; [exact H3|]. rewrite H4, H2, app_assoc. reflexivity. Qed.

Lemma print_ops ops : forall dst : W, wf_inv dst -> printed dst (concat (map op_text ops)) (fold_left (handle WriteBatchItemPrinter) ops dst).
Proof.
  induction ops as [|op ops IH]; intros dst H; cbn [map concat fold_left]; [split; [exact H|symmetry; apply app_nil_r]|].
  assert (H1 : printed dst (op_text op) (handle WriteBatchItemPrinter dst op)) by (destruct op; cbn; [apply print_ok, H|apply print_ok, H|split; [exact H|symmetry; apply app_nil_r]]).
  eapply printed_app; [exact H1|]. apply IH, H1.
Qed.

Lemma WriteBatchPrinter_ok pos q ops (dst : W) : wf_inv dst -> Forall op_fits ops -> sz ops < 2 ^ 31 -> 0 <= q < 2 ^ 64 ->
  exists dst', WriteBatchPrinter pos (batch_rep q (sz ops) ops) dst = Some dst' /\ printed dst (offset_text pos ++ str "sequence " ++ NumberToString q ++ newline ++ concat (map op_text ops)) dst'.
Proof.
  intros H HF Hn Hq. unfold WriteBatchPrinter.
  assert (HS : 12 <= sz (batch_rep q (sz ops) ops)) by (unfold batch_rep, sz; rewrite !length_app, length_EncodeFixed64, length_EncodeFixed32; lia).
  rewrite (proj2 (Z.ltb_ge _ _)) by exact HS. unfold WBI_SetContents.
  assert (ES : WBI_Sequence (mkWriteBatch (batch_rep q (sz ops) ops)) = q) by (unfold WBI_Sequence, batch_rep; cbn [rep_]; rewrite fixed64_decode; apply u64_small; lia).
  rewrite ES, Iterate_rep by (exact Hn || (revert HF; apply List.Forall_impl; exact op_fits_small)). cbn [ok OK]. eexists. split; [reflexivity|].
  rewrite !app_assoc. eapply printed_app; [apply print_ok, H|]. rewrite <- !app_assoc. apply print_ops, print_ok, H.
Qed.

Lemma print_drained fuel groups : forall n q (r : Reader Q) (dst : W), Drains fuel r (log_records q groups) -> (length groups < n)%nat -> wf_inv dst ->
  Forall (Forall op_fits) groups -> Forall (fun ops => sz ops < 2 ^ 31) groups -> 0 <= q -> q + sz (concat groups) < 2 ^ 64 ->
  exists positions dst', length positions = length groups /\ print_records WriteBatchPrinter n fuel r dst = Some dst' /\ printed dst (groups_text q groups positions) dst'.
Proof.
  induction groups as [|ops groups IH]; intros n q r dst HD Hn H HF HL Hq Hb; (destruct n as [|n]; [cbn in Hn; lia|]); cbn [print_records log_records] in *.
  - inversion HD as [r0 r' ER Hr|]; subst. rewrite ER. exists [], dst. unfold print_reports. rewrite Hr, drop_all. split; [reflexivity|]. split; [reflexivity|]. split; [exact H|symmetry; apply app_nil_r].
  - inversion HD as [|r0 rec r' recs ER Hr HD']; subst. rewrite ER. unfold print_reports. rewrite Hr, drop_all. cbn [fold_left].
    apply Forall_cons_iff in HF as [HF1 HF2], HL as [HL1 HL2]. cbn [concat] in Hb. rewrite sz_app in Hb. pose proof (sz_nonneg ops). pose proof (sz_nonneg (concat groups)).
    destruct (WriteBatchPrinter_ok (last_record_offset_ r') q ops dst H HF1 HL1 ltac:(lia)) as (d1 & -> & HP).
    destruct (IH n (q + sz ops) r' d1 HD' ltac:(cbn in Hn; lia) (proj1 HP) HF2 HL2 ltac:(lia) ltac:(lia)) as (ps & d2 & E1 & E2 & HP2).
    exists (last_record_offset_ r' :: ps), d2. split; [cbn; rewrite E1; reflexivity|]. split; [exact E2|]. cbn [groups_text].
    pose proof (printed_app _ _ _ _ _ HP HP2) as HX. rewrite <- !app_assoc in HX. exact HX.
Qed.

(** The dump of a log that is whole lists its batches in order, each with the position of
    its record and its sequence number, and the puts and deletions of the batch; deletions
    of ranges do not appear. *)
Theorem dump_log_lists_batches {E} (newfile : E -> bytes -> Status * option Q) e fname (file : Q) (f0 : W) (w : Writer W) q groups n fuel (dst : W) :
  wf_inv f0 -> wf_contents f0 = [] -> AddRecords (Writer_new f0) (log_records q groups) = Some w -> newfile e fname = (OK, Some file) -> sf_inv file ->
  sf_rest file = wf_contents (dest_ w) -> wf_inv dst -> Forall (Forall op_fits) groups -> Forall (fun ops => sz ops < 2 ^ 31) groups -> 0 <= q -> q + sz (concat groups) < 2 ^ 64 ->
  (length groups < n)%nat -> (0 < fuel)%nat -> Forall (fun rec => (S (length rec) < fuel)%nat) (log_records q groups) ->
  exists positions dst', length positions = length groups /\ DumpLog newfile e fname n fuel dst = Some (OK, dst') /\
    wf_contents dst' = wf_contents dst ++ groups_text q groups positions.
Proof.
  intros Hf0 Hc0 EA EN Hf Hr Hd HF HL Hq Hb Hn Hfu Hfuel. destruct (AddRecords_ok (log_records q groups) (Writer_new f0) (WOk_new f0 Hf0)) as (w' & out & E1 & HW & Hc & HLg).
  rewrite EA in E1. injection E1 as <-. cbn [Writer_new dest_ block_offset_] in *. rewrite Hc0, app_nil_l in Hc. rewrite Hc in Hr.
  destruct (drains_logged 0 _ _ _ HLg (length out) fuel (Reader_new file (Some []) true 0)) with (recs1 := log_records q groups) (out1 := out) (o1 := block_offset_ w) (recs2 := @nil bytes) (out2 := @nil byte)
    as (j & HD & _).
  - apply RInv_new; [exact Hf|rewrite take_ge by lia; exact Hr].
  - cbn. lia.
  - exact Hfuel.
  - exact Hfu.
  - symmetry. apply app_nil_r.
  - symmetry. apply app_nil_r.
  - exact HLg.
  - lia.
  - rewrite take_nil, app_nil_r in HD. destruct (print_drained fuel groups n q _ dst HD Hn Hd HF HL Hq Hb) as (ps & d' & E1 & E2 & HP).
    exists ps, d'. split; [exact E1|]. split; [|apply HP]. unfold DumpLog, PrintLogContents. rewrite EN. cbn [ok OK negb]. rewrite E2. reflexivity.
Qed.

End DumpOk.

(** A deletion of a range leaves no trace in the dump of its log. *)

Example dump_hides_range_deletion :
  option_map FS_contents (WriteBatchPrinter 0 (batch_rep 7 2 [OpDeleteRange (str "a") (str "c"); OpPut (str "k") (str "v")]) FileState_new) =
  Some (str "--- offset 0; sequence 7" ++ newline ++ str "  put 'k' 'v'" ++ newline).
Proof. vm_compute. reflexivity. Qed.
