(* ===== verification/CApi.v ===== *)
(** * The C interface (db/c.cc)

    Strings and error messages are blocks of the C heap, addressed by number, with the
    null pointer 0; freeing an address that is not allocated has no result.  The database
    behind the interface is any implementation of [DB] (include/leveldb/db.h).  The structs
    that only wrap a pointer are the values they point to. *)

From S2P Require Import Prelude Coding Compare DbFormat Logging SkipList Arena MemTable WriteBatch Crc32c Env Filter Iterator Block Format TableBuilder Table DbOpen.
#[local] Open Scope Z_scope.
#[local] Open Scope ldb_scope.

(** ** The C heap *)

Record Heap := mkHeap { h_blocks : gmap Z bytes; h_next : Z }.

Definition alloc (h : Heap) (c : bytes) : Z * Heap := (h_next h, mkHeap (<[h_next h := c]> (h_blocks h)) (h_next h + 1)).

Definition free (h : Heap) (p : Z) : option Heap :=
  if p =? 0 then Some h
  else match h_blocks h !! p with Some _ => Some (mkHeap (delete p (h_blocks h)) (h_next h)) | None => None end.

(** [s.c_str()] up to its first NUL, and [strdup] of it. *)

Fixpoint c_str (s : bytes) : bytes :=
  match s with
  | [] => []
  | x :: s => if decide (x = Byte.x00) then [] else x :: c_str s
  end.

Definition strdup (h : Heap) (s : bytes) : Z * Heap := alloc h (c_str s ++ [Byte.x00]).

(** ** Comparators and filter policies from C functions *)

Section Callbacks.
Context {St : Type} (state_ : St).

(** The C binding does not shorten keys. *)

Definition leveldb_comparator_t (compare_ : St -> bytes -> bytes -> Z) : Comparator :=
  {| cmp := compare_ state_; shortest_sep := fun start _ => start; short_succ := fun key => key; cmp_dom := fun _ => True |}.

Lemma leveldb_comparator_ok compare_ : (forall a b, compare_ state_ a b = 0 <-> a = b) ->
  (forall a b, Z.sgn (compare_ state_ b a) = - Z.sgn (compare_ state_ a b)) ->
  (forall a b c, compare_ state_ a b < 0 -> compare_ state_ b c < 0 -> compare_ state_ a c < 0) ->
  ComparatorOk (leveldb_comparator_t compare_) /\ ComparatorShort (leveldb_comparator_t compare_).
Proof.
  intros He Hs Ht. split; split; cbn; intros; auto; try lia.
  - apply Ht with b; assumption.
  - split; [|assumption]. rewrite (proj2 (He a a) eq_refl). reflexivity.
  - rewrite (proj2 (He a a) eq_refl). reflexivity.
Qed.

(** The filter that [create_] returns is appended. *)

Definition leveldb_filterpolicy_t (name_ : St -> bytes) (create_ : St -> list bytes -> bytes) (key_match_ : St -> bytes -> bytes -> Z) : FilterPolicy :=
  {| fp_Name := name_ state_; fp_CreateFilter := fun keys dst => dst ++ create_ state_ keys; fp_KeyMayMatch := fun key filter => negb (key_match_ state_ key filter =? 0) |}.

Lemma leveldb_filterpolicy_ok name_ create_ key_match_ : (forall keys key, In key keys -> key_match_ state_ key (create_ state_ keys) <> 0) ->
  FilterPolicyOk (leveldb_filterpolicy_t name_ create_ key_match_).
Proof.
  intros H. split; cbn; [reflexivity|]. intros keys key _ Hin. apply negb_true_iff, Z.eqb_neq, H, Hin.
Qed.

End Callbacks.

(** ** Options *)

Definition leveldb_bool (v : Z) : bool := negb (v =? 0).

Record leveldb_readoptions_t := mkCReadOptions { cro_rep : ReadOptions; cro_snapshot : option nat }.

Definition leveldb_readoptions_create : leveldb_readoptions_t := mkCReadOptions (mkReadOptions false true) None.

Definition leveldb_readoptions_set_verify_checksums (opt : leveldb_readoptions_t) (v : Z) : leveldb_readoptions_t :=
  mkCReadOptions (mkReadOptions (leveldb_bool v) (ro_fill_cache (cro_rep opt))) (cro_snapshot opt).

Definition leveldb_readoptions_set_fill_cache (opt : leveldb_readoptions_t) (v : Z) : leveldb_readoptions_t :=
  mkCReadOptions (mkReadOptions (ro_verify_checksums (cro_rep opt)) (leveldb_bool v)) (cro_snapshot opt).

Definition leveldb_readoptions_set_snapshot (opt : leveldb_readoptions_t) (snap : option nat) : leveldb_readoptions_t := mkCReadOptions (cro_rep opt) snap.

Record leveldb_writeoptions_t := mkCWriteOptions { cwo_sync : bool }.

Definition leveldb_writeoptions_create : leveldb_writeoptions_t := mkCWriteOptions false.

Definition leveldb_writeoptions_set_sync (opt : leveldb_writeoptions_t) (v : Z) : leveldb_writeoptions_t := mkCWriteOptions (leveldb_bool v).

(** ** Batches *)

Definition leveldb_writebatch_create : WriteBatch := WriteBatch_new.

Definition leveldb_writebatch_clear (b : WriteBatch) : WriteBatch := WB_Clear.

Definition leveldb_writebatch_put (b : WriteBatch) (key val : bytes) : WriteBatch := WB_Put b key val.

Definition leveldb_writebatch_delete (b : WriteBatch) (key : bytes) : WriteBatch := WB_Delete b key.

Definition leveldb_writebatch_append (destination source : WriteBatch) : WriteBatch := WB_Append destination source.

(** The handler does not override [DeleteRange]; the status of [Iterate] is dropped. *)

Definition leveldb_writebatch_iterate {St} (b : WriteBatch) (state : St) (put : St -> bytes -> bytes -> St) (deleted : St -> bytes -> St) : option St :=
  option_map snd (WB_Iterate (mkHandler put deleted (fun st _ _ => st)) b state).

(** ** The interface [DB] *)

Class DB (D : Type) := {
  db_It : Type;                                  (* the iterators *)
  db_Put : D -> leveldb_writeoptions_t -> bytes -> bytes -> Status * D;
  db_Delete : D -> leveldb_writeoptions_t -> bytes -> Status * D;
  db_Write : D -> leveldb_writeoptions_t -> WriteBatch -> Status * WriteBatch * D;
  db_Get : D -> leveldb_readoptions_t -> bytes -> Status * bytes * D;
  db_Scan : D -> leveldb_readoptions_t -> bytes -> bytes -> Status * list (bytes * bytes) * D;
  db_DeleteRange : D -> leveldb_writeoptions_t -> bytes -> bytes -> Status * D;
  db_NewIterator : D -> leveldb_readoptions_t -> db_It * D;
  db_GetSnapshot : D -> nat * D;
  db_ReleaseSnapshot : D -> nat -> D;
  db_GetProperty : D -> bytes -> option bytes;
  db_GetApproximateSizes : D -> list (bytes * bytes) -> list Z;
  db_CompactRange : D -> option bytes -> option bytes -> D;
  db_ForceFullCompaction : D -> Status * D
}.

(** ** Errors and strings *)

(** [SaveError(errptr, s)]: what is at [errptr] afterwards, and whether [s] is an error. *)

Definition SaveError (h : Heap) (err : Z) (s : Status) : option (bool * Z * Heap) :=
  if ok s then Some (false, err, h)
  else if err =? 0 then let '(p, h) := strdup h (Status_ToString s) in Some (true, p, h)
  else match free h err with None => None | Some h => let '(p, h) := strdup h (Status_ToString s) in Some (true, p, h) end.

Section Calls.
Context {D : Type} {DBI : DB D} (malloc0_null : bool).

(** [malloc] of no bytes may return the null pointer. *)

Definition CopyString (h : Heap) (s : bytes) : Z * Heap := match s with [] => if malloc0_null then (0, h) else alloc h [] | _ => alloc h s end.

Definition leveldb_open {O} (DB_Open : O -> bytes -> Status * option D) (h : Heap) (options : O) (name : bytes) (err : Z) : option (option D * Z * Heap) :=
  let '(s, db) := DB_Open options name in
  match SaveError h err s with
  | None => None
  | Some (failed, err, h) => Some (if failed then None else db, err, h)
  end.

Definition leveldb_put (h : Heap) (db : D) (options : leveldb_writeoptions_t) (key val : bytes) (err : Z) : option (Z * Heap * D) :=
  let '(s, db) := db_Put db options key val in option_map (fun r => (snd (fst r), snd r, db)) (SaveError h err s).

Definition leveldb_delete (h : Heap) (db : D) (options : leveldb_writeoptions_t) (key : bytes) (err : Z) : option (Z * Heap * D) :=
  let '(s, db) := db_Delete db options key in option_map (fun r => (snd (fst r), snd r, db)) (SaveError h err s).

Definition leveldb_write (h : Heap) (db : D) (options : leveldb_writeoptions_t) (batch : WriteBatch) (err : Z) : option (WriteBatch * Z * Heap * D) :=
  let '(s, batch, db) := db_Write db options batch in option_map (fun r => (batch, snd (fst r), snd r, db)) (SaveError h err s).

(** The result, [*vallen] and [*errptr]. *)

Definition leveldb_get (h : Heap) (db : D) (options : leveldb_readoptions_t) (key : bytes) (err : Z) : option (Z * Z * Z * Heap * D) :=
  let '(s, tmp, db) := db_Get db options key in
  if ok s then let '(result, h) := CopyString h tmp in Some (result, sz tmp, err, h, db)
  else if IsNotFound s then Some (0, 0, err, h, db)
  else option_map (fun r => (0, 0, snd (fst r), snd r, db)) (SaveError h err s).

Definition leveldb_create_iterator (db : D) (options : leveldb_readoptions_t) : db_It * D := db_NewIterator db options.

Definition leveldb_create_snapshot (db : D) : nat * D := db_GetSnapshot db.

Definition leveldb_release_snapshot (db : D) (snapshot : nat) : D := db_ReleaseSnapshot db snapshot.

Definition leveldb_property_value (h : Heap) (db : D) (propname : bytes) : Z * Heap :=
  match db_GetProperty db propname with Some tmp => strdup h tmp | None => (0, h) end.

Definition leveldb_approximate_sizes (db : D) (ranges : list (bytes * bytes)) : list Z := db_GetApproximateSizes db ranges.

(** A null pointer stands for no bound. *)

Definition leveldb_compact_range (db : D) (start_key limit_key : option bytes) : D := db_CompactRange db start_key limit_key.

Definition leveldb_destroy_db {O E} (DestroyDB : bytes -> O -> E -> E * Status) (h : Heap) (options : O) (name : bytes) (e : E) (err : Z) : option (Z * Heap * E) :=
  let '(e, s) := DestroyDB name options e in option_map (fun r => (snd (fst r), snd r, e)) (SaveError h err s).

Definition leveldb_repair_db {O E} (RepairDB : bytes -> O -> E -> E * Status) (h : Heap) (options : O) (name : bytes) (e : E) (err : Z) : option (Z * Heap * E) :=
  let '(e, s) := RepairDB name options e in option_map (fun r => (snd (fst r), snd r, e)) (SaveError h err s).

Definition leveldb_free (h : Heap) (ptr : Z) : option Heap := free h ptr.

End Calls.

(** ** Iterators *)

Section Iterators.
Context {It : Type} {IT : Iterator It}.

Definition leveldb_iter_valid (iter : It) : Z := if iValid iter then 1 else 0.

Definition leveldb_iter_key (iter : It) : bytes * Z := (iKey iter, sz (iKey iter)).

Definition leveldb_iter_value (iter : It) : bytes * Z := (iValue iter, sz (iValue iter)).

Definition leveldb_iter_get_error (h : Heap) (iter : It) (err : Z) : option (Z * Heap) := option_map (fun r => (snd (fst r), snd r)) (SaveError h err (iStatus iter)).

End Iterators.

(** [leveldb_env_get_test_directory]: the copy with its terminator. *)

Definition leveldb_env_get_test_directory (GetTestDirectory : Status * bytes) (h : Heap) : Z * Heap :=
  let '(s, result) := GetTestDirectory in if ok s then alloc h (result ++ [Byte.x00]) else (0, h).

(** ** Clients *)

(** What a client does: calls with the same [errptr], and it frees the strings that it was
    given ([CFree i] is the string at place [i] of those it still has) or the message. *)

Inductive Call :=
| CPut (options : leveldb_writeoptions_t) (key val : bytes)
| CDelete (options : leveldb_writeoptions_t) (key : bytes)
| CWrite (options : leveldb_writeoptions_t) (batch : WriteBatch)
| CGet (options : leveldb_readoptions_t) (key : bytes)
| CProperty (propname : bytes)
| CFree (i : nat)
| CClearError.

Section Clients.
Context {D : Type} {DBI : DB D} (malloc0_null : bool).

Record Client := mkClient { cl_db : D; cl_heap : Heap; cl_err : Z; cl_owned : list Z }.

Definition own (p : Z) (l : list Z) : list Z := if p =? 0 then l else p :: l.

Definition client_call (c : Client) (call : Call) : option Client :=
  match call with
  | CPut o k v => option_map (fun '(err, h, db) => mkClient db h err (cl_owned c)) (leveldb_put (cl_heap c) (cl_db c) o k v (cl_err c))
  | CDelete o k => option_map (fun '(err, h, db) => mkClient db h err (cl_owned c)) (leveldb_delete (cl_heap c) (cl_db c) o k (cl_err c))
  | CWrite o b => option_map (fun '(_, err, h, db) => mkClient db h err (cl_owned c)) (leveldb_write (cl_heap c) (cl_db c) o b (cl_err c))
  | CGet o k => option_map (fun '(result, _, err, h, db) => mkClient db h err (own result (cl_owned c))) (leveldb_get malloc0_null (cl_heap c) (cl_db c) o k (cl_err c))
  | CProperty name => let '(result, h) := leveldb_property_value (cl_heap c) (cl_db c) name in Some (mkClient (cl_db c) h (cl_err c) (own result (cl_owned c)))
  | CFree i =>
      match cl_owned c !! i with
      | None => Some c
      | Some p => option_map (fun h => mkClient (cl_db c) h (cl_err c) (delete i (cl_owned c))) (leveldb_free (cl_heap c) p)
      end
  | CClearError => option_map (fun h => mkClient (cl_db c) h 0 (cl_owned c)) (leveldb_free (cl_heap c) (cl_err c))
  end.

Fixpoint client_run (c : Client) (calls : list Call) : option Client :=
  match calls with
  | [] => Some c
  | call :: calls => match client_call c call with None => None | Some c => client_run c calls end
  end.

(** The blocks of the heap are the message, a string with one NUL at its end, and the
    strings that the client has. *)

Record heap_inv (h : Heap) (err : Z) (owned : list Z) : Prop := {
  hi_fresh : 0 < h_next h /\ forall p, is_Some (h_blocks h !! p) -> 0 < p < h_next h;
  hi_live : forall p, is_Some (h_blocks h !! p) <-> (p = err /\ err <> 0) \/ In p owned;
  hi_once : NoDup (err :: owned);
  hi_message : err <> 0 -> exists m, h_blocks h !! err = Some (m ++ [Byte.x00]) /\ ~ In Byte.x00 m
}.

Lemma c_str_clean s : ~ In Byte.x00 (c_str s).
Proof. induction s as [|x s IH]; cbn; [auto|]. case_decide as Hx; [auto|]. intros [Hi|Hi]; [congruence|auto]. Qed.

Lemma live_ne h err owned : heap_inv h err owned -> ~ is_Some (h_blocks h !! h_next h) /\ ~ In (h_next h) owned /\ (err = 0 \/ err <> h_next h).
Proof.
  intros [[H0 HF] HL _ _]. assert (HN : ~ is_Some (h_blocks h !! h_next h)) by (intros H; apply HF in H; lia).
  split; [exact HN|]. rewrite HL in HN. split; [tauto|]. destruct (decide (err = 0)); [auto|]. right. intros E. apply HN. left. auto.
Qed.

Lemma alloc_owned h err owned c : heap_inv h err owned -> let '(p, h') := alloc h c in p <> 0 /\ heap_inv h' err (p :: owned) /\ h_blocks h' !! p = Some c.
Proof.
  intros HI. destruct (live_ne _ _ _ HI) as (HN & HO & HE). destruct HI as [[H0 HF] HL HD HM]. unfold alloc. split; [lia|]. split; [|apply lookup_insert_eq].
  split; cbn [h_blocks h_next].
  - split; [lia|]. intros p. rewrite lookup_insert_is_Some. intros [<-|[_ Hp]]; [lia|]. apply HF in Hp. lia.
  - intros p. rewrite lookup_insert_is_Some, HL. cbn [In]. destruct (decide (h_next h = p)); [tauto|]. intuition.
  - apply list.NoDup_cons in HD as [HD1 HD2]. rewrite list_elem_of_In in HD1. rewrite !list.NoDup_cons, !list_elem_of_In. cbn [In]. repeat split; try assumption. intros [E|E]; [lia|auto].
  - intros Hne. rewrite lookup_insert_ne by (destruct HE; congruence). apply HM, Hne.
Qed.

Lemma strdup_message h owned s : heap_inv h 0 owned -> let '(p, h') := strdup h s in p <> 0 /\ heap_inv h' p owned.
Proof.
  intros HI. unfold strdup. pose proof (alloc_owned h 0 owned (c_str s ++ [Byte.x00]) HI) as HA. destruct (alloc h _) as [p h']. destruct HA as (Hp & [HF HL HD HM] & Hb).
  split; [exact Hp|]. apply list.NoDup_cons in HD as [HD1 HD2]. split; [exact HF| |exact HD2|intros _; exists (c_str s); split; [exact Hb|apply c_str_clean]].
  intros q. rewrite HL. cbn [In]. intuition congruence.
Qed.

Lemma free_ok h err owned p owned' : heap_inv h err owned -> Permutation owned (p :: owned') -> exists h', free h p = Some h' /\ heap_inv h' err owned'.
Proof.
  intros [[H0 HF] HL HD HM] HP. assert (Hin : In p owned) by (rewrite HP; left; reflexivity). assert (Hlive : is_Some (h_blocks h !! p)) by (apply HL; auto).
  pose proof (HF p Hlive) as Hp. unfold free. rewrite (proj2 (Z.eqb_neq _ _)) by lia. destruct (h_blocks h !! p) as [c|]; [|destruct Hlive; discriminate]. eexists. split; [reflexivity|].
  rewrite HP in HD. apply list.NoDup_cons in HD as [HD1 HD2]. apply list.NoDup_cons in HD2 as [HD2 HD3]. rewrite list_elem_of_In in HD1, HD2. cbn [In] in HD1.
  split; cbn [h_blocks h_next].
  - split; [exact H0|]. intros q. rewrite lookup_delete_is_Some. intros [_ Hq]. apply HF, Hq.
  - intros q. rewrite lookup_delete_is_Some, HL. assert (HPq : In q owned <-> p = q \/ In q owned') by (rewrite HP; reflexivity). rewrite HPq.
    destruct (decide (p = q)) as [->|Hne]; intuition congruence.
  - apply list.NoDup_cons. rewrite list_elem_of_In. tauto.
  - intros Hne. rewrite lookup_delete_ne by tauto. apply HM, Hne.
Qed.

Lemma free_message h err owned : heap_inv h err owned -> exists h', free h err = Some h' /\ heap_inv h' 0 owned.
Proof.
  intros HI. destruct (decide (err = 0)) as [->|Hne]; [exists h; split; [reflexivity|exact HI]|]. destruct HI as [[H0 HF] HL HD HM].
  assert (HI : heap_inv h 0 (err :: owned)).
  { split; [auto| | |tauto].
    - intros p. rewrite HL. cbn [In]. intuition congruence.
    - apply list.NoDup_cons. split; [|exact HD]. rewrite list_elem_of_In. cbn [In]. intros [E|E]; [congruence|].
      assert (HX : is_Some (h_blocks h !! 0)) by (apply HL; auto). apply HF in HX. lia. }
  exact (free_ok h 0 (err :: owned) err owned HI (Permutation_refl _)).
Qed.

Lemma SaveError_ok h err owned s : heap_inv h err owned -> exists err' h', SaveError h err s = Some (negb (ok s), err', h') /\ heap_inv h' err' owned /\
  if ok s then err' = err /\ h' = h else err' <> 0.
Proof.
  intros HI. unfold SaveError. destruct (ok s); [exists err, h; auto|]. cbn [negb].
  destruct (Z.eqb_spec err 0) as [->|Hne].
  - pose proof (strdup_message h owned (Status_ToString s) HI) as H. destruct (strdup h _) as [p h']. destruct H as [H1 H2]. eauto.
  - destruct (free_message h err owned HI) as (h1 & -> & HI1).
    pose proof (strdup_message h1 owned (Status_ToString s) HI1) as H. destruct (strdup h1 _) as [p h']. destruct H as [H1 H2]. eauto.
Qed.

Abbreviation client_inv c := (heap_inv (cl_heap c) (cl_err c) (cl_owned c)).

Lemma own_alloc h err owned c : heap_inv h err owned -> heap_inv (snd (alloc h c)) err (own (fst (alloc h c)) owned).
Proof.
  intros HI. pose proof (alloc_owned h err owned c HI) as H. destruct (alloc h c) as [p h']. destruct H as (Hp & HI' & _). cbn [fst snd]. unfold own.
  rewrite (proj2 (Z.eqb_neq _ _)) by exact Hp. exact HI'.
Qed.

Lemma CopyString_ok h err owned v : heap_inv h err owned -> heap_inv (snd (CopyString malloc0_null h v)) err (own (fst (CopyString malloc0_null h v)) owned).
Proof. intros HI. destruct v as [|x v]; cbn [CopyString]; [destruct malloc0_null; [exact HI|]|]; apply own_alloc, HI. Qed.

Lemma client_call_ok c call : client_inv c -> exists c', client_call c call = Some c' /\ client_inv c'.
Proof.
  intros HI. destruct call as [o k v|o k|o b|o k|name|i|]; cbn [client_call].
  - unfold leveldb_put. destruct (db_Put _ _ _ _) as [s db]. destruct (SaveError_ok _ _ _ s HI) as (err & h & -> & HI' & _). eexists. split; [reflexivity|exact HI'].
  - unfold leveldb_delete. destruct (db_Delete _ _ _) as [s db]. destruct (SaveError_ok _ _ _ s HI) as (err & h & -> & HI' & _). eexists. split; [reflexivity|exact HI'].
  - unfold leveldb_write. destruct (db_Write _ _ _) as [[s b'] db]. destruct (SaveError_ok _ _ _ s HI) as (err & h & -> & HI' & _). eexists. split; [reflexivity|exact HI'].
  - unfold leveldb_get. destruct (db_Get _ _ _) as [[s v] db]. destruct (SaveError_ok _ _ _ s HI) as (err & h & -> & HI' & _).
    pose proof (CopyString_ok _ _ _ v HI) as HC. destruct (CopyString malloc0_null (cl_heap c) v) as [p h1]. cbn [fst snd] in HC.
    destruct (ok s); [|destruct (IsNotFound s)]; eexists; (split; [reflexivity|]); [exact HC|exact HI|exact HI'].
  - unfold leveldb_property_value, strdup. destruct (db_GetProperty _ _) as [v|]; [|eexists; split; [reflexivity|exact HI]].
    pose proof (own_alloc _ _ _ (c_str v ++ [Byte.x00]) HI) as HA. destruct (alloc (cl_heap c) _) as [p h']. eexists. split; [reflexivity|exact HA].
  - destruct (cl_owned c !! i) as [p|] eqn:Ei; [|eexists; split; [reflexivity|exact HI]].
    destruct (free_ok _ _ _ p (delete i (cl_owned c)) HI (delete_Permutation _ _ _ Ei)) as (h & E & HI'). unfold leveldb_free. rewrite E. eexists. split; [reflexivity|exact HI'].
  - destruct (free_message _ _ _ HI) as (h & E & HI'). unfold leveldb_free. rewrite E. eexists. split; [reflexivity|exact HI'].
Qed.

(** The convention of c.h on errors and strings, for every database behind the interface:
    whatever calls a client makes, nothing is freed that is not allocated; [*errptr] is null
    or a live string with a NUL at its end only; and what is allocated is the message and the
    strings that the client still has, each once, so nothing leaks. *)
Theorem c_client_memory (db : D) calls : exists c, client_run (mkClient db (mkHeap ∅ 1) 0 []) calls = Some c /\ client_inv c.
Proof.
  assert (H0 : heap_inv (mkHeap ∅ 1) 0 []).
  { split; cbn [h_blocks h_next]; [split; [lia|]| | |congruence].
    - intros p [v Hv]. rewrite lookup_empty in Hv. discriminate Hv.
    - intros p. split; [intros [v Hv]; rewrite lookup_empty in Hv; discriminate Hv|intros [[_ []]|[]]; reflexivity].
    - apply NoDup_singleton. }
  change (client_inv (mkClient db (mkHeap ∅ 1) 0 [])) in H0. revert H0. generalize (mkClient db (mkHeap ∅ 1) 0 []).
  induction calls as [|call calls IH]; intros c HI; [exists c; auto|]. cbn [client_run]. destruct (client_call_ok c call HI) as (c' & -> & HI'). apply IH, HI'.
Qed.

(** What [leveldb_get] returns: a copy of the value, or null with no error when there is no
    entry, or null with the message of the error. *)
Theorem c_get (h : Heap) (db : D) o key err owned : heap_inv h err owned -> exists result vallen err' h',
  let '(s, v, db') := db_Get db o key in
  leveldb_get malloc0_null h db o key err = Some (result, vallen, err', h', db') /\
  if ok s then vallen = sz v /\ err' = err /\ (v <> [] \/ malloc0_null = false -> h_blocks h' !! result = Some v)
  else result = 0 /\ vallen = 0 /\ if IsNotFound s then err' = err /\ h' = h else err' <> 0.
Proof.
  intros HI. unfold leveldb_get. destruct (db_Get db o key) as [[s v] db']. destruct (SaveError_ok _ _ _ s HI) as (err1 & h1 & -> & HI' & HE).
  destruct (ok s); [|destruct (IsNotFound s)].
  - destruct (CopyString malloc0_null h v) as [p h2] eqn:EC. exists p, (sz v), err, h2. split; [reflexivity|]. split; [reflexivity|]. split; [reflexivity|]. intros Hv.
    destruct v as [|x v]; cbn [CopyString] in EC; [destruct malloc0_null; [destruct Hv; congruence|]|]; injection EC as <- <-; apply lookup_insert_eq.
  - exists 0, 0, err, h. auto.
  - exists 0, 0, err1, h1. auto.
Qed.

End Clients.

(** Where [malloc(0)] gives the null pointer, an entry with an empty value looks like no entry. *)

Example empty_value_looks_absent : fst (CopyString true (mkHeap ∅ 1) []) = 0.
Proof. reflexivity. Qed.

(** The deletion of a range is not shown to the callbacks of [leveldb_writebatch_iterate]. *)

Example c_iterate_hides_range_deletion :
  leveldb_writebatch_iterate (WB_of [OpDeleteRange (str "a") (str "c"); OpPut (str "k") (str "v")]) [] (fun l k _ => l ++ [k]) (fun l k => l ++ [k]) = Some [str "k"].
Proof. vm_compute. reflexivity. Qed.
